(* ===== verification/_CoqProject ===== *)
-Q . S2P
Prelude.v
PyDict.v
Hash.v
Json.v
Report.v
Stitch.v
Decimal.v
Canonical.v
Ids.v
JsonRead.v
JsonValues.v
SealDigest.v
SegmentSeals.v
Interfaces.v
Sequence.v
Emitted.v
Tokens.v
Markers.v
Segments.v
SegmentRuns.v
Handoff.v
Graph.v
GraphSearch.v
GraphMerge.v
GraphCycles.v
GraphForks.v
GraphVerdict.v
GraphRuns.v
GraphStrict.v
GraphTotal.v
MarkerForm.v
LossTable.v
Ledger.v
ContentCoding.v
StitchKeys.v
StitchStream.v
StitchProject.v
StitchAssembly.v
SpoolHeader.v
SpoolFrame.v
SpoolEntries.v
Spool.v
SpoolNames.v
SpoolCharges.v
SpoolBound.v
SpoolMigrate.v
SpoolRefine.v
SpoolOrder.v
SpoolOutcome.v
SenderPump.v
SenderDrain.v
SenderFinish.v
RegistrationFile.v
Registrations.v
Orphans.v
Sums.v
Retention.v
Capture.v
CaptureOutcome.v
CaptureBudget.v
