(* ===== verification/Prelude.v ===== *)
(** * SingleAxis Fabric: a verification library for the recorder

    Fabric records what an agent does. Its Python SDK ([sdk/python/src/fabric]) gives every
    recorded event a position in a gap-free sequence, keeps the segments of a run and seals them
    with digests, spools the records durably until the exporter has taken them, and accounts
    for every position it lost; an offline verifier reads the spans back, rebuilds the threads
    and the segments of a run and says whether its record is complete. This development models
    that core as functions and step relations translated from the Python source, and proves
    what makes it correct. It is not a model of HTTP interception, OpenTelemetry or the
    services around the SDK; the last section says what is left out.

    ** Parts and files

    The files are in dependency order; a definition has the name of the function or method it
    translates wherever the name is free, and its comment says which it is.

    - Foundations. [Prelude]: Python exceptions as values, sorting, list lemmas, the [fabric]
      hint database. [PyDict]: insertion-ordered dictionaries as association lists. [Hash]:
      SHA-256 and HMAC, executable. [Decimal]: [str] and [int]. [Json], [JsonRead],
      [JsonValues]: [json.dumps] with sorted keys, [json.loads], equality up to key order.
    - Identity. [Ids] (pseudonyms and validators, [_sequence.py], [reconstruct/_ids.py]),
      [Emitted] ([KeyedIds], [GeneratedIds], [IdentityRule]), [Tokens] (resume tokens and the
      five rules of run identity, [_segments.py]).
    - Positions. [Interfaces]: the two protocols of [_capture_types.py] as type classes - what a
      run table and a seal accumulator promise the allocator, which calls them under its lock.
      [Sequence]: [SourceAllocator] and the run scopes ([_sequence.py]), proved against the
      classes.
    - Segments and seals. [Markers] (typed markers, [_capture_types.py]), [Canonical] and
      [SealDigest] (canonical bytes and digests, [_seal.py]), [SegmentSeals] (the accumulator
      of [_seal.py] as a state machine over its critical sections), [Segments] ([SegmentTable]
      of [_segments.py]), [SegmentRuns] (its executions), [Handoff] (a run that changes hands).
    - Losses. [LossTable] ([LossEmitter] of [_loss.py]), [MarkerForm] ([marker_fields],
      [marker_span] of [_loss.py]), [Ledger] ([wire/_ledger.py]: the file of 64 slots in which
      a process mirrors what it could not spool).
    - Capture. [Sums] (counting), [Retention] (what is kept of a body: [_Side] and
      [Exchange._retain] of [wire/_stream.py], [Budget] of [wire/_pipeline.py], the cut of
      [wire/_protect.py]), [Capture] (exchanges, the tee, the queue, the worker and closing:
      [wire/_stream.py], [wire/_transport.py], [wire/_pipeline.py], as steps of threads),
      [CaptureOutcome], [CaptureBudget] (its proofs).
    - Delivery. [SpoolHeader], [SpoolFrame], [SpoolEntries] (the bytes of a record), [Spool]
      (the directory the processes share), [SpoolMigrate] (sealing plaintext records in place),
      [SpoolNames], [SpoolCharges], [SpoolBound], [SpoolRefine], [SpoolOrder], [SpoolOutcome]
      (their proofs), all of [wire/_spool.py];
      [SenderPump], [SenderDrain], [SenderFinish] (what [wire/_sender.py] writes and what it
      delivers); [RegistrationFile], [Registrations], [Orphans] ([wire/_registration.py]: the
      file of a writer's epoch, and the scan that finds the dead).
    - Reconstruction. [Report] (gaps and verdicts, [reconstruct/_report.py]), [Stitch] (threads,
      [reconstruct/_stitch_check.py]), [StitchKeys], [StitchStream], [StitchProject],
      [StitchAssembly] (the digests that decide continuation, [reconstruct/_stitch.py]),
      [ContentCoding] ([_content_coding.py]), [Graph] and its proofs [GraphSearch],
      [GraphMerge], [GraphCycles], [GraphForks], [GraphVerdict], [GraphRuns]
      ([reconstruct/_graph.py]); [GraphStrict], [GraphTotal] (the same functions with every
      look-up of the code raising, and that none does).

    How they meet: an exchange or a record takes a position and its job, once committed by the
    worker, is spooled or its position lost ([Capture] takes what the allocator, the spool and
    the loss table answer as arguments of its steps); the allocator gives an event its position
    and tells the run table, which names its segment, and the accumulator, which will seal it
    ([Interfaces]); a sealed segment ends in a [segment_seal] marker ([SegmentSeals]); markers
    and lost positions wait in the loss table, the sender's pump turns them into spool entries
    and mirrors the rest into the ledger ([SenderPump] composes [LossTable], [MarkerForm],
    [SpoolEntries] and [Spool]); the drainer reads the files back and retires them
    ([SenderDrain] composes [SpoolFrame] and [Spool]); the verifier takes the exported segments
    ([Graph]) and bodies ([Stitch]).

    ** How the code is modelled

    State is a record and is passed; a method is one function of it. A Python exception is a
    [Raise], an [option] or a [false] where the caller sees no more than that. A section under a
    lock, or one system call, is one step: interleavings are lists of operations
    ([SegmentSeals], [Sequence], [SegmentRuns], [LossTable], [Ledger]) or step relations
    ([SpoolBound], [SpoolOutcome], [SenderPump], [SenderDrain], [Orphans], [Capture]). What the
    outside answers - the kernel to a call, the exporter, the Node, the clock, the random source
    - is an argument of the operation, quantified in the theorems. Bytes and Python strings are
    Coq strings (a string is its UTF-8 bytes) or lists of [Z] in [0, 256); integers are [Z],
    with the width written out where the code has one; a dictionary is an association list where
    its order shows and a finite map where it does not.

    Parameters, for code that is not in the repository: [FloatText] (the text Python prints for
    a float), [FloatInt] (the integer a float equals), [Decompressors] (one call of zlib, zstd
    or brotli) and [Cipher] (AES-GCM, with decryption inverse to encryption as its law).
    Witnesses instantiate them.

    Fuel: a text is read with [2 * len] of it ([JsonRead]: two calls for each character read), the
    brotli loop with one turn more than the limit (each turn that goes on adds a byte), a batch
    file with its record count, [chunks_of] with the number of entries (each chunk takes one at
    least), the loops of the graph with the numbers of nodes and edges they visit
    ([GraphSearch], [GraphCycles], [GraphForks] prove these enough), a chain of scopes with the
    number of scopes.

    ** What the theorems show

    - Positions: allocations are consecutive in every interleaving; the caller's names are never
      emitted when they must not be, and an id is the keyed hash it is said to be; tokens print
      and parse back, and the identity they resolve to is exactly that of the valid ones; a run
      handed over by a token is the same run, under the id it has at its issuer.
    - Segments: every segment follows its protocol automaton; a seal covers exactly what was
      allocated to its segment and carries its digest; the seal queue is bounded and empties;
      markers are well placed; canonical bytes are equal exactly for equal documents.
    - Losses: the pending ranges never cover a position that was not told, cover all of them up to
      1,024 ranges, and beyond that refuse only a range that would be one more; what a process
      mirrored into the ledger is found after it dies unless a write of it had failed, and no
      process touches another's slots.
    - Capture: each position taken is held by one exchange, job or thread, or has exactly one
      outcome, in every interleaving; what is held never exceeds the budget, which counts it
      exactly; what a side retains is the first whole chunks of its stream and what is stored
      of a side too long is the longest prefix of them that fits.
    - Spool: the shared directory never holds more than its bound, in any interleaving of the
      processes, but for a migration; writing, retiring, quarantining, settling and rescanning
      are sequences of the steps this is proved of, and a migration of those and of copies that
      no admission counted; the ledger of charges is exact; a record counts as failed exactly
      when it was not delivered; files read back as they were framed, and with a key only what
      was sealed with it is read.
    - Sender: markers are spooled in the order they came, a final never before what precedes it;
      every file is exported once and with all its bodies answered; without failures the drains
      come to an end. Registrations: only a registration nobody holds is declared an orphan.
    - Reconstruction: stitching partitions the exchanges; a streamed reply is stitched like the
      document it streams; the graph's searches, union-find and cycle detection compute what
      they should, and no look-up of the module fails; a run is reported as terminated exactly
      when its record is complete.

    Where the code was found not to do what it says - a token with a [br-] source, a torn
    ledger slot that is not rewritten, a quarantine whose sync fails, a scan that reads before it
    locks, a chunk reserved while its exchange ends, a migration that leaves the bound - a lemma
    of the file shows the behaviour.

    ** Not modelled

    Threads, timers and back-off (who calls an operation, and when), logging, and the pid and
    fork hooks beyond the state they change. Of [wire/_stream.py] and [wire/_transport.py]: the
    tees around the objects of httpx, the private copies of requests, patching and matching. Of
    [wire/_pipeline.py]: what is stored and which attributes a span gets. Of [wire/_spool.py]:
    the walk that makes the directory durable and the checks of the directory's owner. Of
    [wire/_sender.py]: flush and close, the export of a dead process's ledger slots, the forms
    of the spans. Of [_loss.py]: exporting without a spool. Of [_segments.py]: the context
    managers and environment variables around the table. Of [_report.py]: the dataclasses that
    only print. The rest of the SDK - protection and redaction, decisions, content stores,
    manifests, the other halves of the verifier that read and project spans - and the other
    programs of the repository (the Go collector components, the eBPF host emitter, the
    TypeScript SDK, the contract generators) are outside this development. *)

From Stdlib Require Export ZArith Lia Ascii.
From stdpp Require Export base tactics gmap strings pretty numbers option sorting list.

#[global] Open Scope string_scope.
#[global] Open Scope list_scope.
#[global] Open Scope Z_scope.
#[export] Set Default Goal Selector "!".
#[global] Arguments Nat.leb : simpl never.
#[global] Arguments String.append !_ _ / : simpl nomatch.

(** ** Python exceptions as values *)

(** The exceptions the modelled code raises or catches. *)
Inductive exn :=
  | KeyError
  | ValueError
  | TypeError
  | IndexError
  | OverflowError
  | OSError
  | AttributeError
  | StopIteration.

#[export] Instance exn_eq_dec : EqDecision exn.
Proof. solve_decision. Defined.

(** A Python computation: it returns a value or raises. *)
Inductive result (A : Type) :=
  | Ok (a : A)
  | Raise (e : exn).
Arguments Ok {A} a.
Arguments Raise {A} e.

#[export] Instance result_eq_dec `{EqDecision A} : EqDecision (result A).
Proof. solve_decision. Defined.

#[export] Instance result_ret : MRet result := λ A a, Ok a.
#[export] Instance result_bind : MBind result := λ A B f m,
  match m with Ok a => f a | Raise e => Raise e end.
#[export] Instance result_map : FMap result := λ A B f m,
  match m with Ok a => Ok (f a) | Raise e => Raise e end.

(** The computation returned a value. *)
Definition is_ok {A} (m : result A) : bool := match m with Ok _ => true | Raise _ => false end.

(** [d\[k\]] on an optional lookup: a missing key raises [KeyError]. *)
Definition or_raise {A} (e : exn) (o : option A) : result A :=
  match o with Some a => Ok a | None => Raise e end.

(** ** Iteration with an early [KeyError]: [for x in xs: state = f(state, x)] *)
Fixpoint foldM {S A} (f : S → A → result S) (s : S) (l : list A) : result S :=
  match l with
  | [] => Ok s
  | x :: l => match f s x with Ok s' => foldM f s' l | Raise e => Raise e end
  end.

(** ** Python's truth test and [or] on the optional values the code uses *)

(** [v or d] for an optional integer: [None] and [0] are false. *)
Definition or_int (v : option Z) (d : Z) : Z :=
  match v with Some z => if decide (z = 0) then d else z | None => d end.

(** [v or d] for an optional string: [None] and the empty string are false. *)
Definition or_str (v : option string) (d : string) : string :=
  match v with Some s => if decide (s = "") then d else s | None => d end.

(** [bool(v)] for an optional boolean flag. *)
Definition truthy (v : option bool) : bool := match v with Some b => b | None => false end.

(** The truth of an optional string ([if value and ...]). *)
Definition truthy_str (v : option string) : bool :=
  match v with Some s => negb (bool_decide (s = "")) | None => false end.

(** ** Strings *)

Lemma length_string_app s t : String.length (s +:+ t) = (String.length s + String.length t)%nat.
Proof. induction s as [|c s IH]; simpl; [done|]. by rewrite IH. Qed.

Lemma string_app_assoc s t u : (s +:+ t) +:+ u = s +:+ (t +:+ u).
Proof. induction s as [|c s IH]; simpl; [done|]. by rewrite IH. Qed.

(** ** [dict.fromkeys]: first occurrences, in order *)

Section fromkeys.
Context {A : Type} `{EqDecision A}.

Fixpoint fromkeys (l : list A) : list A :=
  match l with
  | [] => []
  | x :: l => x :: filter (λ y, y ≠ x) (fromkeys l)
  end.

Lemma elem_of_fromkeys (l : list A) x : x ∈ fromkeys l ↔ x ∈ l.
Proof.
  induction l as [|y l IH]; [done|]. simpl.
  rewrite !elem_of_cons, list_elem_of_filter, IH.
  destruct (decide (x = y)); tauto.
Qed.

Lemma NoDup_fromkeys (l : list A) : NoDup (fromkeys l).
Proof.
  induction l as [|y l IH]; simpl; constructor.
  - rewrite list_elem_of_filter. tauto.
  - by apply NoDup_filter.
Qed.

Lemma filter_ne_id x (l : list A) : x ∉ l → filter (λ y, y ≠ x) l = l.
Proof.
  induction l as [|y l IH]; intros Hx; [done|].
  apply not_elem_of_cons in Hx as [? ?]. rewrite filter_cons_True by congruence.
  f_equal. auto.
Qed.

Lemma fromkeys_id (l : list A) : NoDup l → fromkeys l = l.
Proof.
  induction 1 as [|x l Hx Hl IH]; [done|]. simpl. by rewrite IH, filter_ne_id.
Qed.

Lemma fromkeys_idemp (l : list A) : fromkeys (fromkeys l) = fromkeys l.
Proof. apply fromkeys_id, NoDup_fromkeys. Qed.

Lemma fromkeys_nil (l : list A) : fromkeys l = [] ↔ l = [].
Proof. destruct l; naive_solver. Qed.

(** [len(set(l)) == len(l)] *)
Lemma length_fromkeys (l : list A) : length (fromkeys l) = length l ↔ NoDup l.
Proof.
  split; [|intros; by rewrite fromkeys_id].
  assert (∀ k : list A, (length (fromkeys k) ≤ length k)%nat) as Hle.
  { induction k as [|x k IH]; simpl; [done|].
    pose proof (length_filter (λ y, y ≠ x) (fromkeys k)). lia. }
  induction l as [|x l IH]; simpl; intros Hl; constructor.
  - intros Hx. rewrite <-elem_of_fromkeys in Hx.
    apply list_elem_of_split in Hx as (l1 & l2 & E). specialize (Hle l).
    rewrite E, filter_app, filter_cons_False, length_app in Hl by tauto.
    rewrite E, length_app in Hle. simpl in *.
    pose proof (length_filter (λ y, y ≠ x) l1). pose proof (length_filter (λ y, y ≠ x) l2). lia.
  - apply IH. specialize (Hle l). pose proof (length_filter (λ y, y ≠ x) (fromkeys l)). lia.
Qed.

Lemma fromkeys_Permutation (l1 l2 : list A) : l1 ≡ₚ l2 → fromkeys l1 ≡ₚ fromkeys l2.
Proof.
  intros Hp. apply NoDup_Permutation; try apply NoDup_fromkeys.
  intros x. rewrite !elem_of_fromkeys. by rewrite Hp.
Qed.
End fromkeys.

(** ** Sorted lists *)

Lemma StronglySorted_iff {A} (P Q : relation A) l :
  (∀ x y, x ∈ l → y ∈ l → P x y → Q x y) → StronglySorted P l → StronglySorted Q l.
Proof.
  intros H Hl. induction Hl as [|x l Hl IH Hx]; constructor.
  - apply IH. intros a b ? ?. apply H; by constructor.
  - rewrite Forall_forall in Hx |- *. intros y Hy. apply H; [constructor|by constructor|auto].
Qed.

Lemma StronglySorted_app_inv {A} (P : relation A) l k : StronglySorted P (l ++ k) →
  StronglySorted P l ∧ StronglySorted P k ∧ ∀ x y, x ∈ l → y ∈ k → P x y.
Proof.
  induction l as [|a l IH]; simpl; intros H.
  - split_and!; [constructor|done|]. intros x y Hx. by apply not_elem_of_nil in Hx.
  - apply StronglySorted_inv in H as [H Ha]. destruct (IH H) as (? & ? & Hlk).
    rewrite Forall_forall in Ha. split_and!; [constructor; [done|]| done|].
    + apply Forall_forall. intros y Hy. apply Ha. set_solver.
    + intros x y [->|Hx]%elem_of_cons Hy; [apply Ha; set_solver|auto].
Qed.

Lemma StronglySorted_snoc {A} (P : relation A) l x :
  StronglySorted P l → (∀ y, y ∈ l → P y x) → StronglySorted P (l ++ [x]).
Proof.
  intros Hl Hx. induction Hl as [|y l Hl IH Hy]; simpl; [repeat constructor|].
  constructor; [apply IH; intros; apply Hx; by constructor|].
  apply Forall_app. split; [done|]. constructor; [|done]. apply Hx. constructor.
Qed.

(** ** [sorted] with a key: a stable insertion sort *)

Section py_sort.
Context {A : Type} (leb : A → A → bool).

Fixpoint py_insert (x : A) (l : list A) : list A :=
  match l with
  | [] => [x]
  | y :: l' => if leb x y then x :: y :: l' else y :: py_insert x l'
  end.

Fixpoint py_sort (l : list A) : list A :=
  match l with
  | [] => []
  | x :: l => py_insert x (py_sort l)
  end.

Lemma py_insert_Permutation x l : py_insert x l ≡ₚ x :: l.
Proof.
  induction l as [|y l IH]; simpl; [done|]. destruct (leb x y); [done|].
  by rewrite IH, Permutation_swap.
Qed.

Lemma py_sort_Permutation l : py_sort l ≡ₚ l.
Proof. induction l as [|x l IH]; simpl; [done|]. by rewrite py_insert_Permutation, IH. Qed.

Lemma elem_of_py_sort x l : x ∈ py_sort l ↔ x ∈ l.
Proof. by rewrite py_sort_Permutation. Qed.

Lemma length_py_sort l : length (py_sort l) = length l.
Proof. by rewrite py_sort_Permutation. Qed.

Lemma NoDup_py_sort l : NoDup (py_sort l) ↔ NoDup l.
Proof. by rewrite py_sort_Permutation. Qed.

(** The order of a [leb] that is total and transitive. *)
Class TotalPreorder : Prop := {
  leb_tot : ∀ x y, leb x y = true ∨ leb y x = true;
  leb_tr : ∀ x y z, leb x y = true → leb y z = true → leb x z = true;
}.

Context `{!TotalPreorder}.

Lemma py_insert_sorted x l :
  StronglySorted (λ a b, leb a b = true) l →
  StronglySorted (λ a b, leb a b = true) (py_insert x l).
Proof.
  induction 1 as [|y l Hs IH Hy]; simpl; [repeat constructor|].
  destruct (leb x y) eqn:Hxy.
  - repeat (constructor; auto). eapply Forall_impl; [done|]. eauto using leb_tr.
  - constructor; [done|]. rewrite py_insert_Permutation. constructor; [|done].
    destruct (leb_tot x y); congruence.
Qed.

Lemma py_sort_sorted l : StronglySorted (λ a b, leb a b = true) (py_sort l).
Proof. induction l; simpl; [constructor|]. by apply py_insert_sorted. Qed.

Lemma py_sort_id l : StronglySorted (λ a b, leb a b = true) l → py_sort l = l.
Proof.
  induction 1 as [|x l Hs IH Hx]; simpl; [done|]. rewrite IH.
  destruct l as [|y l]; simpl; [done|]. inv Hx. by case_match; [|congruence].
Qed.

Lemma py_sort_idemp l : py_sort (py_sort l) = py_sort l.
Proof. apply py_sort_id, py_sort_sorted. Qed.

(** The result depends only on the elements when equal keys mean equal elements. *)
Lemma sorted_Permutation_unique l1 l2 :
  (∀ x y, x ∈ l1 → y ∈ l1 → leb x y = true → leb y x = true → x = y) →
  StronglySorted (λ a b, leb a b = true) l1 →
  StronglySorted (λ a b, leb a b = true) l2 →
  l1 ≡ₚ l2 → l1 = l2.
Proof.
  intros Hanti Hs1. revert l2. induction Hs1 as [|x l1 Hs1 IH Hx1]; intros l2 Hs2 Hp.
  { by apply Permutation_nil in Hp. }
  destruct Hs2 as [|y l2 Hs2 Hx2]; [by symmetry in Hp; apply Permutation_nil_cons in Hp|].
  assert (x = y) as ->.
  { assert (x ∈ y :: l2) as Hx by (rewrite <-Hp; constructor).
    assert (y ∈ x :: l1) as Hy by (rewrite Hp; constructor).
    apply elem_of_cons in Hx as [->|Hx]; [done|]. pose proof Hy as Hy'.
    apply elem_of_cons in Hy as [->|Hy]; [done|].
    rewrite Forall_forall in Hx1, Hx2. apply Hanti; [constructor|done|..]; auto. }
  f_equal. apply IH; [..|by apply Permutation_cons_inv in Hp]; [|done].
  intros a b Ha Hb. apply Hanti; by constructor.
Qed.

Lemma py_sort_Permutation_eq l1 l2 :
  (∀ x y, x ∈ l1 → y ∈ l1 → leb x y = true → leb y x = true → x = y) →
  l1 ≡ₚ l2 → py_sort l1 = py_sort l2.
Proof.
  intros Hanti Hp. apply sorted_Permutation_unique; try apply py_sort_sorted.
  - intros x y. rewrite !elem_of_py_sort. apply Hanti.
  - by rewrite !py_sort_Permutation.
Qed.
End py_sort.
Arguments TotalPreorder {A} leb.

(** A map that keeps the order of keys commutes with sorting. *)
Lemma py_sort_fmap {A B} (f : A → B) (la : A → A → bool) (lb : B → B → bool) l :
  (∀ x y, lb (f x) (f y) = la x y) → py_sort lb (f <$> l) = f <$> py_sort la l.
Proof.
  intros Hf. induction l as [|x l IH]; [done|]. csimpl. rewrite IH. clear IH.
  induction (py_sort la l) as [|y k IHk]; [done|]. csimpl. rewrite Hf.
  destruct (la x y); [done|]. csimpl. by rewrite IHk.
Qed.

(** Sorting by a key inherits the order of the keys. *)
Lemma key_TotalPreorder {A B} (f : A → B) (leb : B → B → bool) :
  TotalPreorder leb → TotalPreorder (λ x y, leb (f x) (f y)).
Proof. intros [Ht Htr]. split; eauto. Qed.

#[export] Instance string_leb_order : TotalPreorder String.leb.
Proof.
  split.
  - apply String.leb_total.
  - intros x y z Hxy Hyz. apply Is_true_eq_true.
    apply (transitivity (R := String.le) (y := y)); unfold String.le; by apply Is_true_eq_left.
Qed.

#[export] Instance Z_leb_order : TotalPreorder Z.leb.
Proof. split; intros; lia. Qed.

(** [sorted(xs)] on strings. Python orders strings by code point; on their UTF-8 bytes that
    is the byte order. *)
Definition sort_str : list string → list string := py_sort String.leb.

Lemma sort_str_unique l1 l2 : l1 ≡ₚ l2 → sort_str l1 = sort_str l2.
Proof. intros Hp. apply py_sort_Permutation_eq; [apply _|eauto using String.leb_antisym|done]. Qed.

(** [sorted(s)] on a set of strings. *)
Definition sort_set (s : gset string) : list string := sort_str (elements s).

Lemma elem_of_sort_set x s : x ∈ sort_set s ↔ x ∈ s.
Proof. unfold sort_set, sort_str. by rewrite elem_of_py_sort, elem_of_elements. Qed.

Lemma NoDup_sort_set s : NoDup (sort_set s).
Proof. apply NoDup_py_sort, NoDup_elements. Qed.

Lemma sort_set_nil s : sort_set s = [] ↔ s = ∅.
Proof.
  split; [|by intros ->].
  intros Hs. apply set_eq. intros x. rewrite <-elem_of_sort_set, Hs. set_solver.
Qed.

(** ** Automation *)

Create HintDb fabric discriminated.
#[export] Hint Resolve NoDup_fromkeys NoDup_sort_set : fabric.

(** Split on every boolean or decidable test in the goal or hypotheses. *)
Ltac split_tests := repeat (case_match; simplify_eq/=).

(** [lia] with [/] and [mod] by constants. *)
Ltac zlia := Z.div_mod_to_equations; lia.

(** Turn boolean tests in the hypotheses into propositions. *)
Ltac to_prop := repeat
  match goal with
  | H : (_ && _) = true |- _ => apply andb_true_iff in H as [? ?]
  | H : (_ || _) = false |- _ => apply orb_false_iff in H as [? ?]
  | H : (_ && _) = false |- _ => apply andb_false_iff in H
  | H : (_ || _) = true |- _ => apply orb_true_iff in H
  | H : negb _ = true |- _ => apply negb_true_iff in H
  | H : negb _ = false |- _ => apply negb_false_iff in H
  | H : bool_decide _ = true |- _ => apply bool_decide_eq_true in H
  | H : bool_decide _ = false |- _ => apply bool_decide_eq_false in H
  | H : (_ <? _)%Z = true |- _ => apply Z.ltb_lt in H
  | H : (_ <? _)%Z = false |- _ => apply Z.ltb_ge in H
  | H : (_ <=? _)%Z = true |- _ => apply Z.leb_le in H
  | H : (_ <=? _)%Z = false |- _ => apply Z.leb_gt in H
  | H : (_ =? _)%Z = true |- _ => apply Z.eqb_eq in H
  | H : (_ =? _)%Z = false |- _ => apply Z.eqb_neq in H
  end.

(** Replace every boolean test known to hold by [true]. *)
Ltac use_true := repeat match goal with H : ?b = true |- context [?b] => rewrite H end; simpl.

(** ** More list lemmas *)

Lemma existsb_elem_of {A} (f : A → bool) l : existsb f l = true ↔ ∃ x, x ∈ l ∧ f x = true.
Proof. rewrite existsb_exists. setoid_rewrite <-list_elem_of_In. done. Qed.

Lemma forallb_elem_of {A} (f : A → bool) l : forallb f l = true ↔ ∀ x, x ∈ l → f x = true.
Proof. rewrite forallb_forall. setoid_rewrite <-list_elem_of_In. done. Qed.

Lemma existsb_false {A} (f : A → bool) l : existsb f l = false ↔ ∀ x, x ∈ l → f x = false.
Proof.
  rewrite <-not_true_iff_false, existsb_elem_of. split.
  - intros H x Hx. apply not_true_iff_false. eauto.
  - intros H (x & Hx & Hf). rewrite H in Hf; done.
Qed.

Lemma foldM_app {S A} (f : S → A → result S) l1 l2 s :
  foldM f s (l1 ++ l2) = s' ← foldM f s l1; foldM f s' l2.
Proof. revert s. induction l1 as [|x l1 IH]; intros s; simpl; [done|]. by destruct (f s x). Qed.

(** Induction for a loop that keeps an invariant and therefore never raises. *)
Lemma foldM_inv {S A} (P : list A → S → Prop) (f : S → A → result S) l s :
  P [] s →
  (∀ done x rest s, l = done ++ x :: rest → P done s → ∃ s', f s x = Ok s' ∧ P (done ++ [x]) s') →
  ∃ s', foldM f s l = Ok s' ∧ P l s'.
Proof.
  intros H0 Hstep.
  cut (∀ rest done s, l = done ++ rest → P done s → ∃ s', foldM f s rest = Ok s' ∧ P l s').
  { intros Hgen. by apply (Hgen l []). }
  clear H0. induction rest as [|x rest IH]; intros d s' Hl Hd; simpl.
  - rewrite app_nil_r in Hl. subst. eauto.
  - destruct (Hstep d x rest s') as (s'' & -> & Hs''); [done..|].
    apply (IH (d ++ [x])); [|done]. by rewrite <-app_assoc.
Qed.

Lemma filter_iff_in {A} (P Q : A → Prop) `{!∀ x, Decision (P x)} `{!∀ x, Decision (Q x)} (l : list A) :
  (∀ x, x ∈ l → P x ↔ Q x) → filter P l = filter Q l.
Proof.
  induction l as [|x l IH]; intros HPQ; [done|]. rewrite !filter_cons, IH by set_solver.
  pose proof (HPQ x (list_elem_of_here x l)). by repeat case_decide; tauto || done.
Qed.

(** ** The last of the maximal elements of a list *)

(** A loop [for c in xs: if ok(c) and (best is None or score(c) >= score(best)): best = c]. *)
Definition last_max_step {A} (ok : A → bool) (score : A → nat) (b : option A) (c : A) : option A :=
  if ok c && match b with None => true | Some b => (score b <=? score c)%nat end
  then Some c else b.

Definition last_max {A} (ok : A → bool) (score : A → nat) (l : list A) : option A :=
  foldl (last_max_step ok score) None l.

(** [c] is the last maximal acceptable element of [l]. *)
Definition is_last_max {A} (ok : A → bool) (score : A → nat) (l : list A) (c : A) : Prop :=
  ∃ l1 l2, l = l1 ++ c :: l2 ∧ ok c = true ∧
    (∀ d, d ∈ l1 → ok d = true → (score d ≤ score c)%nat) ∧
    (∀ d, d ∈ l2 → ok d = true → (score d < score c)%nat).

Lemma last_max_spec {A} (ok : A → bool) (score : A → nat) l :
  match last_max ok score l with
  | Some c => is_last_max ok score l c
  | None => ∀ d, d ∈ l → ok d = false
  end.
Proof.
  unfold last_max. induction l as [|x l IH] using rev_ind; [set_solver|].
  rewrite foldl_app. simpl. destruct (foldl _ None l) as [b|]; unfold last_max_step; simpl.
  - destruct IH as (l1 & l2 & -> & Hb & H1 & H2). destruct (ok x) eqn:Hx; simpl.
    + destruct (score b <=? score x)%nat eqn:Hs.
      * apply Nat.leb_le in Hs. exists (l1 ++ b :: l2), []. split_and!; [done..| |set_solver].
        intros d [Hd|[->|Hd]%elem_of_cons]%elem_of_app Hok; [|lia|].
        -- specialize (H1 d Hd Hok). lia.
        -- specialize (H2 d Hd Hok). lia.
      * apply Nat.leb_gt in Hs. exists l1, (l2 ++ [x]). rewrite <-(assoc_L (++)).
        split_and!; [done..|]. intros d [?|Hd]%elem_of_app Hok; [auto|].
        apply list_elem_of_singleton in Hd as ->. done.
    + exists l1, (l2 ++ [x]). rewrite <-(assoc_L (++)). split_and!; [done..|].
      intros d [?|Hd]%elem_of_app Hok; [auto|]. apply list_elem_of_singleton in Hd as ->. congruence.
  - destruct (ok x) eqn:Hx; simpl.
    + exists l, []. split_and!; [done..| |set_solver]. intros d Hd. rewrite IH; done.
    + intros d [?|Hd]%elem_of_app; [auto|]. by apply list_elem_of_singleton in Hd as ->.
Qed.

Lemma last_max_None {A} (ok : A → bool) (score : A → nat) l :
  last_max ok score l = None ↔ ∀ d, d ∈ l → ok d = false.
Proof.
  pose proof (last_max_spec ok score l) as H. destruct (last_max ok score l) as [c|]; [|done].
  split; [done|]. destruct H as (l1 & l2 & -> & Hc & _). intros H.
  rewrite H in Hc; [done|set_solver].
Qed.

(** Where an element of an appended list comes from. *)
Lemma app_cons_inv {A} (l k l1 l2 : list A) x :
  l ++ k = l1 ++ x :: l2 →
  (∃ r, l = l1 ++ x :: r ∧ l2 = r ++ k) ∨ (∃ r, l1 = l ++ r ∧ k = r ++ x :: l2).
Proof.
  intros H. apply app_eq_inv in H as [(r & -> & Hr)|(r & -> & Hr)]; [|by right; eauto].
  destruct r as [|y r]; simpl in Hr; [right; exists []|left].
  - by rewrite !app_nil_r.
  - injection Hr as <- ->. by exists r.
Qed.

(** Pairs are distinct when the second components are, for each first component. *)
Lemma NoDup_by_key {A K V} `{EqDecision K} (f : A → K) (g : A → V) (l : list A) :
  (∀ k, NoDup (g <$> filter (λ x, f x = k) l)) → NoDup ((λ x, (f x, g x)) <$> l).
Proof.
  induction l as [|x l IH]; intros Hl; [constructor|]. csimpl. constructor.
  - intros (y & Hy & Hin)%list_elem_of_fmap. injection Hy as Hf Hg.
    specialize (Hl (f x)). rewrite filter_cons_True in Hl by done. csimpl in Hl.
    apply NoDup_cons in Hl as [Hn _]. apply Hn. rewrite Hg. apply list_elem_of_fmap_2.
    by apply list_elem_of_filter.
  - apply IH. intros k. specialize (Hl k). rewrite filter_cons in Hl.
    case_decide; [|done]. csimpl in Hl. by apply NoDup_cons in Hl as [_ ?].
Qed.

(** ** Elements in context: [P l1 x] holds for some element [x] with [l1] before it *)

Definition occurs {A} (P : list A → A → Prop) (l : list A) : Prop :=
  ∃ l1 x l2, l = l1 ++ x :: l2 ∧ P l1 x.

Lemma occurs_nil {A} (P : list A → A → Prop) : ¬ occurs P [].
Proof. intros (l1 & x & l2 & H & _). by destruct l1. Qed.

Lemma occurs_snoc {A} (P : list A → A → Prop) l x : occurs P (l ++ [x]) ↔ occurs P l ∨ P l x.
Proof.
  split.
  - intros (l1 & y & l2 & Heq & HP). destruct l2 as [|z l2 _] using rev_ind.
    + apply app_inj_tail in Heq as [-> ->]. by right.
    + rewrite app_comm_cons, (assoc_L (++)) in Heq. apply app_inj_tail in Heq as [-> _].
      left. by exists l1, y, l2.
  - intros [(l1 & y & l2 & -> & HP)|HP].
    + exists l1, y, (l2 ++ [x]). split; [|done]. by rewrite <-(assoc_L (++)).
    + exists l, x, []. done.
Qed.

Lemma occurs_elem {A} (P : A → Prop) l : occurs (λ _ x, P x) l ↔ ∃ x, x ∈ l ∧ P x.
Proof.
  split.
  - intros (l1 & x & l2 & -> & HP). exists x. split; [set_solver|done].
  - intros (x & (l1 & l2 & ->)%list_elem_of_split & HP). by exists l1, x, l2.
Qed.

Lemma occurs_iff {A} (P Q : list A → A → Prop) l :
  (∀ l1 x l2, l = l1 ++ x :: l2 → P l1 x ↔ Q l1 x) → occurs P l ↔ occurs Q l.
Proof. intros H. split; intros (l1 & x & l2 & -> & ?); exists l1, x, l2; naive_solver. Qed.
