(* ===== verification/PyDict.v ===== *)
(** * Python dictionaries

    Insertion-ordered dictionaries as association lists: [d\[k\] = v] keeps the place of an
    existing key and appends a new one, [del d\[k\]] removes it. The order of iteration is
    observable in the modelled code (report lists, stable sorts, first-in-first-out queues),
    which is why these are not finite maps. *)

From S2P Require Import Prelude.

Section dict.
Context {K V : Type} `{EqDecision K}.
Implicit Types d : list (K * V).

(** [d.get(k)] *)
Fixpoint dget (k : K) d : option V :=
  match d with
  | [] => None
  | (k', v) :: d => if decide (k = k') then Some v else dget k d
  end.

(** [d\[k\] = v] *)
Fixpoint dset (k : K) (v : V) d : list (K * V) :=
  match d with
  | [] => [(k, v)]
  | (k', v') :: d => if decide (k = k') then (k', v) :: d else (k', v') :: dset k v d
  end.

(** [d.setdefault(k, v)] *)
Definition dsetdefault (k : K) (v : V) d : list (K * V) :=
  match dget k d with Some _ => d | None => d ++ [(k, v)] end.

(** [del d\[k\]] and [d.pop(k, None)] *)
Definition ddel (k : K) d : list (K * V) := filter (λ p, p.1 ≠ k) d.

(** [k in d] *)
Definition din (k : K) d : bool :=
  match dget k d with Some _ => true | None => false end.

Lemma dget_Some_elem k v d : dget k d = Some v → (k, v) ∈ d.
Proof.
  induction d as [|[k' v'] d IH]; simpl; [done|]. case_decide; intros ?; simplify_eq; set_solver.
Qed.

Lemma dget_None k d : dget k d = None ↔ k ∉ d.*1.
Proof.
  induction d as [|[k' v'] d IH]; csimpl; [set_solver|].
  rewrite not_elem_of_cons. case_decide; naive_solver.
Qed.

Lemma dget_is_Some k d : is_Some (dget k d) ↔ k ∈ d.*1.
Proof.
  rewrite <-not_eq_None_Some, dget_None. destruct (decide (k ∈ d.*1)); tauto.
Qed.

Lemma din_true k d : din k d = true ↔ k ∈ d.*1.
Proof. unfold din. rewrite <-dget_is_Some. destruct (dget k d); naive_solver. Qed.

Lemma din_false k d : din k d = false ↔ k ∉ d.*1.
Proof. rewrite <-not_true_iff_false, din_true. done. Qed.

Lemma elem_dget k v d : NoDup d.*1 → (k, v) ∈ d → dget k d = Some v.
Proof.
  induction d as [|[k' v'] d IH]; csimpl; [set_solver|].
  rewrite NoDup_cons, elem_of_cons. intros [Hk Hd] [?|Hin]; simplify_eq/=.
  - by rewrite decide_True.
  - rewrite decide_False; [auto|]. intros ->. apply Hk. apply list_elem_of_fmap.
    by exists (k', v).
Qed.

Lemma dget_dset k k' v d : dget k (dset k' v d) = if decide (k = k') then Some v else dget k d.
Proof.
  induction d as [|[k'' v''] d IH]; simpl; repeat (case_decide; simplify_eq/=); auto; congruence.
Qed.

Lemma dget_dset_eq k v d : dget k (dset k v d) = Some v.
Proof. by rewrite dget_dset, decide_True. Qed.

Lemma dget_dset_ne k k' v d : k ≠ k' → dget k (dset k' v d) = dget k d.
Proof. intros ?. by rewrite dget_dset, decide_False. Qed.

Lemma dset_dset k v w d : dset k v (dset k w d) = dset k v d.
Proof. induction d as [|[k' u] d IH]; simpl; repeat (case_decide; simplify_eq/=); congruence. Qed.

Lemma dset_get k v d : dget k d = Some v → dset k v d = d.
Proof.
  induction d as [|[k' u] d IH]; simpl; [done|]. case_decide; intros E; simplify_eq/=; [done|].
  by rewrite IH.
Qed.

Lemma dset_new k v d : k ∉ d.*1 → dset k v d = d ++ [(k, v)].
Proof.
  induction d as [|[k' v'] d IH]; csimpl; [done|]. rewrite not_elem_of_cons. intros [? ?].
  rewrite decide_False by done. f_equal. auto.
Qed.

Lemma dset_keys k v d : k ∈ d.*1 → (dset k v d).*1 = d.*1.
Proof.
  induction d as [|[k' v'] d IH]; csimpl; [set_solver|]. rewrite elem_of_cons.
  intros Hk. case_decide; csimpl; [done|]. f_equal. naive_solver.
Qed.

Lemma elem_of_dset_keys k k' v d : k ∈ (dset k' v d).*1 ↔ k = k' ∨ k ∈ d.*1.
Proof. rewrite <-!dget_is_Some, dget_dset. case_decide; naive_solver. Qed.

Lemma NoDup_keys_snoc k v d : k ∉ d.*1 → NoDup d.*1 → NoDup (d ++ [(k, v)]).*1.
Proof.
  intros Hk Hd. rewrite fmap_app. apply NoDup_app. split_and!; [done| |apply NoDup_singleton].
  intros x Hx. simpl. rewrite list_elem_of_singleton. congruence.
Qed.

Lemma NoDup_dset k v d : NoDup d.*1 → NoDup (dset k v d).*1.
Proof.
  intros Hd. destruct (decide (k ∈ d.*1)) as [Hk|Hk]; [by rewrite dset_keys|].
  rewrite dset_new by done. by apply NoDup_keys_snoc.
Qed.

Lemma dget_app k d1 d2 :
  dget k (d1 ++ d2) = match dget k d1 with Some v => Some v | None => dget k d2 end.
Proof. induction d1 as [|[k' v'] d1 IH]; simpl; [done|]. by case_decide. Qed.

Lemma dget_dsetdefault k k' v d :
  dget k (dsetdefault k' v d) =
    match dget k d with Some w => Some w | None => if decide (k = k') then Some v else None end.
Proof.
  unfold dsetdefault. destruct (dget k' d) eqn:Hk'.
  - destruct (dget k d) eqn:?; [done|]. destruct (decide (k = k')); congruence.
  - rewrite dget_app. by destruct (dget k d).
Qed.

Lemma NoDup_dsetdefault k v d : NoDup d.*1 → NoDup (dsetdefault k v d).*1.
Proof.
  intros Hd. unfold dsetdefault. destruct (dget k d) eqn:Hk; [done|].
  apply dget_None in Hk. by apply NoDup_keys_snoc.
Qed.

Lemma elem_of_dsetdefault_keys k k' v d : k ∈ (dsetdefault k' v d).*1 ↔ k = k' ∨ k ∈ d.*1.
Proof.
  rewrite <-!dget_is_Some, dget_dsetdefault. destruct (dget k d); [naive_solver|].
  destruct (decide (k = k')); naive_solver.
Qed.

Lemma dget_ddel k k' d : dget k (ddel k' d) = if decide (k = k') then None else dget k d.
Proof.
  unfold ddel. induction d as [|[k'' v''] d IH]; simpl; [by case_decide|].
  destruct (decide (k'' = k')) as [->|Hne].
  - rewrite filter_cons_False by naive_solver. rewrite IH. by repeat case_decide.
  - rewrite filter_cons_True by done. simpl. rewrite IH.
    repeat case_decide; congruence.
Qed.

Lemma NoDup_ddel k d : NoDup d.*1 → NoDup (ddel k d).*1.
Proof.
  unfold ddel. induction d as [|[k' v'] d IH]; csimpl; [done|].
  rewrite NoDup_cons. intros [Hk Hd]. destruct (decide (k' = k)).
  - rewrite filter_cons_False by naive_solver. auto.
  - rewrite filter_cons_True by done. csimpl. rewrite NoDup_cons. split; [|auto].
    rewrite list_elem_of_fmap. intros ([k'' w] & -> & [_ Hin]%list_elem_of_filter).
    apply Hk, list_elem_of_fmap. eauto.
Qed.

Lemma ddel_elem k d p : p ∈ ddel k d ↔ p ∈ d ∧ p.1 ≠ k.
Proof. unfold ddel. rewrite list_elem_of_filter. tauto. Qed.
End dict.

#[export] Hint Resolve NoDup_dset NoDup_dsetdefault NoDup_ddel : fabric.
#[export] Hint Rewrite @dget_dset_eq : fabric.

(** [defaultdict(list)\[k\].append(x)] *)
Definition dappend {K A} `{EqDecision K} (k : K) (x : A) (d : list (K * list A)) :=
  dset k (default [] (dget k d) ++ [x]) d.
