(* ===== verification/Hash.v ===== *)
(** * SHA-256, HMAC and hexadecimal

    The parts of Python's [hashlib] and [hmac] the modelled code calls, executable, so that
    the pseudonyms, record digests and seal digests below evaluate to the bytes the program
    writes. A byte is a [Z] in [0, 256), a word a [Z] in [0, 2^32) with the wrap-around
    written out. A Python string is the [string] of its UTF-8 bytes. *)

From S2P Require Import Prelude.

(** ** Bytes *)

Definition byte_of_ascii (c : ascii) : Z := Z.of_N (N_of_ascii c).
Definition ascii_of_byte (b : Z) : ascii := ascii_of_N (Z.to_N b).

(** [value.encode("utf-8")] on the UTF-8 representation of a string. *)
Definition encode (s : string) : list Z := byte_of_ascii <$> String.list_ascii_of_string s.
Definition decode_bytes (b : list Z) : string :=
  String.string_of_list_ascii (ascii_of_byte <$> b).

(** A value in the range of a byte. *)
Definition is_byte (b : Z) : Prop := 0 ≤ b < 256.

Lemma byte_of_ascii_range c : is_byte (byte_of_ascii c).
Proof. unfold is_byte, byte_of_ascii. pose proof (N_ascii_bounded c). lia. Qed.

Lemma ascii_of_byte_of_ascii c : ascii_of_byte (byte_of_ascii c) = c.
Proof. unfold ascii_of_byte, byte_of_ascii. by rewrite N2Z.id, ascii_N_embedding. Qed.

Lemma byte_of_ascii_of_byte b : is_byte b → byte_of_ascii (ascii_of_byte b) = b.
Proof.
  unfold is_byte, ascii_of_byte, byte_of_ascii. intros ?.
  rewrite N_ascii_embedding by lia. lia.
Qed.

Lemma encode_bytes s : Forall is_byte (encode s).
Proof. unfold encode. apply Forall_fmap, Forall_true. intros. apply byte_of_ascii_range. Qed.

Lemma decode_encode s : decode_bytes (encode s) = s.
Proof.
  unfold decode_bytes, encode. rewrite <-list_fmap_compose.
  rewrite (list_fmap_ext _ id).
  - by rewrite list_fmap_id, String.string_of_list_ascii_of_string.
  - intros. apply ascii_of_byte_of_ascii.
Qed.

Lemma encode_decode b : Forall is_byte b → encode (decode_bytes b) = b.
Proof.
  unfold decode_bytes, encode. intros Hb. rewrite String.list_ascii_of_string_of_list_ascii.
  rewrite <-list_fmap_compose. induction Hb; csimpl; [done|]. f_equal; [|done].
  by apply byte_of_ascii_of_byte.
Qed.

Lemma encode_inj s1 s2 : encode s1 = encode s2 → s1 = s2.
Proof. intros H. by rewrite <-(decode_encode s1), <-(decode_encode s2), H. Qed.

(** ** SHA-256 (FIPS 180-4) *)

Definition word : Z := 2 ^ 32.
Definition wadd (x y : Z) : Z := (x + y) mod word.
Definition rotr (n x : Z) : Z := Z.lor (Z.shiftr x n) (Z.shiftl x (32 - n) mod word).
Definition sigma (a b c x : Z) : Z := Z.lxor (rotr a x) (Z.lxor (rotr b x) (rotr c x)).
Definition ssigma (a b c x : Z) : Z := Z.lxor (rotr a x) (Z.lxor (rotr b x) (Z.shiftr x c)).
Definition ch (e f g : Z) : Z := Z.lxor (Z.land e f) (Z.land (word - 1 - e) g).
Definition maj (a b c : Z) : Z := Z.lxor (Z.land a b) (Z.lxor (Z.land a c) (Z.land b c)).

(** The constants are the first fractional bits of the square and cube roots of the first
    primes; [root3] is the integer cube root below 2^48. *)
Definition root3 (n : Z) : Z :=
  foldl (λ x i, let y := x + 2 ^ i in if y * y * y <=? n then y else x) 0
    (rev (seqZ 0 48)).

Definition first_primes : list Z :=
  filter (λ p, forallb (λ d, negb (p mod d =? 0)) (seqZ 2 (p - 2)) = true) (seqZ 2 310).

Definition round_constants : list Z := Eval vm_compute in
  (λ p, root3 (p * 2 ^ 96) mod word) <$> first_primes.

Definition initial_hash : list Z := Eval vm_compute in
  (λ p, Z.sqrt (p * 2 ^ 64) mod word) <$> take 8 first_primes.

Record sha_state := Sha { sa : Z; sb : Z; sc : Z; sd : Z; se : Z; sf : Z; sg : Z; sh : Z }.

Definition sha_init : sha_state :=
  let h i := default 0 (initial_hash !! i) in
  Sha (h 0%nat) (h 1%nat) (h 2%nat) (h 3%nat) (h 4%nat) (h 5%nat) (h 6%nat) (h 7%nat).

(** The message schedule, most recent word first. *)
Fixpoint schedule (n : nat) (ws : list Z) : list Z :=
  match n with
  | O => ws
  | S n =>
      let w i := default 0 (ws !! i) in
      schedule n (wadd (wadd (ssigma 17 19 10 (w 1%nat)) (w 6%nat))
                    (wadd (ssigma 7 18 3 (w 14%nat)) (w 15%nat)) :: ws)
  end.

Definition sha_round (s : sha_state) (kw : Z * Z) : sha_state :=
  let t1 := wadd (wadd (sh s) (sigma 6 11 25 (se s)))
              (wadd (ch (se s) (sf s) (sg s)) (wadd kw.1 kw.2)) in
  let t2 := wadd (sigma 2 13 22 (sa s)) (maj (sa s) (sb s) (sc s)) in
  Sha (wadd t1 t2) (sa s) (sb s) (sc s) (wadd (sd s) t1) (se s) (sf s) (sg s).

Definition word_of_bytes (b : list Z) : Z := foldl (λ acc x, acc * 256 + x) 0 b.

(** A big-endian integer of [n] bytes ([int.to_bytes], [struct.pack(">I")]). *)
Fixpoint be_bytes (n : nat) (z : Z) : list Z :=
  match n with O => [] | S n => (z / 256 ^ Z.of_nat n) mod 256 :: be_bytes n z end.

Fixpoint words_of (n : nat) (b : list Z) : list Z :=
  match n with O => [] | S n => word_of_bytes (take 4 b) :: words_of n (drop 4 b) end.

Definition sha_block (s : sha_state) (b : list Z) : sha_state :=
  let ws := rev (schedule 48 (rev (words_of 16 b))) in
  let r := foldl sha_round s (combine round_constants ws) in
  Sha (wadd (sa s) (sa r)) (wadd (sb s) (sb r)) (wadd (sc s) (sc r)) (wadd (sd s) (sd r))
      (wadd (se s) (se r)) (wadd (sf s) (sf r)) (wadd (sg s) (sg r)) (wadd (sh s) (sh r)).

Definition sha_pad (m : list Z) : list Z :=
  let n := Z.of_nat (length m) in
  m ++ [128] ++ replicate (Z.to_nat ((55 - n) mod 64)) 0 ++ be_bytes 8 (8 * n).

Fixpoint sha_blocks (fuel : nat) (s : sha_state) (m : list Z) : sha_state :=
  match fuel, m with
  | S fuel, _ :: _ => sha_blocks fuel (sha_block s (take 64 m)) (drop 64 m)
  | _, _ => s
  end.

Definition sha256 (m : list Z) : list Z :=
  let s := sha_blocks (length m + 10) sha_init (sha_pad m) in
  concat (be_bytes 4 <$> [sa s; sb s; sc s; sd s; se s; sf s; sg s; sh s]).

(** [hmac.new(key, data, hashlib.sha256).digest()] *)
Definition hmac_sha256 (key data : list Z) : list Z :=
  let k := if decide (64 < length key)%nat then sha256 key else key in
  let k := k ++ replicate (64 - length k) 0 in
  sha256 ((Z.lxor 92 <$> k) ++ sha256 ((Z.lxor 54 <$> k) ++ data)).

(** ** Hexadecimal *)

Definition hex_digit (n : Z) : ascii :=
  if n <? 10 then ascii_of_byte (48 + n) else ascii_of_byte (87 + n).

Fixpoint hex_of_bytes (b : list Z) : string :=
  match b with
  | [] => ""
  | x :: b => String (hex_digit (x / 16)) (String (hex_digit (x mod 16)) (hex_of_bytes b))
  end.

(** [hashlib.sha256(data).hexdigest()] *)
Definition hexdigest (m : list Z) : string := hex_of_bytes (sha256 m).

(** [[0-9a-f]] *)
Definition is_hex (c : ascii) : bool :=
  let n := byte_of_ascii c in ((48 <=? n) && (n <=? 57)) || ((97 <=? n) && (n <=? 102)).

Definition hex_value (c : ascii) : option Z :=
  let n := byte_of_ascii c in
  if (48 <=? n) && (n <=? 57) then Some (n - 48)
  else if (97 <=? n) && (n <=? 102) then Some (n - 87)
  else if (65 <=? n) && (n <=? 70) then Some (n - 55)
  else None.

(** The ASCII blanks [bytes.fromhex] skips between two bytes. *)
Definition is_space (c : ascii) : bool :=
  let n := byte_of_ascii c in ((9 <=? n) && (n <=? 13)) || (n =? 32).

(** [bytes.fromhex(text)] *)
Fixpoint fromhex (s : string) : option (list Z) :=
  match s with
  | "" => Some []
  | String a s =>
      if is_space a then fromhex s
      else match s with
      | String b s =>
          h ← hex_value a; l ← hex_value b; rest ← fromhex s; Some (16 * h + l :: rest)
      | "" => None
      end
  end.

(** ** Facts *)

Lemma be_bytes_range n z : Forall is_byte (be_bytes n z).
Proof. induction n; simpl; constructor; [|done]. unfold is_byte. by apply Z.mod_pos_bound. Qed.

Lemma length_be_bytes n z : length (be_bytes n z) = n.
Proof. induction n; simpl; congruence. Qed.

Lemma length_sha256 m : length (sha256 m) = 32%nat.
Proof. unfold sha256. cbn [fmap list_fmap concat]. by rewrite !length_app, !length_be_bytes. Qed.

Lemma sha256_bytes m : Forall is_byte (sha256 m).
Proof.
  unfold sha256. cbn [fmap list_fmap concat].
  repeat (apply Forall_app_2; [apply be_bytes_range|]). constructor.
Qed.

Lemma length_hmac_sha256 k m : length (hmac_sha256 k m) = 32%nat.
Proof. apply length_sha256. Qed.

Lemma hmac_sha256_bytes k m : Forall is_byte (hmac_sha256 k m).
Proof. apply sha256_bytes. Qed.

(** A decidable fact about the sixteen nibbles, checked on each. *)
Lemma nibble_all (p : Z → bool) n : forallb p (seqZ 0 16) = true → 0 ≤ n < 16 → p n = true.
Proof. rewrite forallb_elem_of. intros H Hn. apply H. apply elem_of_seqZ. lia. Qed.

Lemma hex_value_digit n : 0 ≤ n < 16 → hex_value (hex_digit n) = Some n.
Proof.
  intros Hn.
  pose proof (nibble_all (λ n, bool_decide (hex_value (hex_digit n) = Some n)) n eq_refl Hn) as H.
  by apply bool_decide_eq_true_1 in H.
Qed.

Lemma is_hex_digit n : 0 ≤ n < 16 → is_hex (hex_digit n) = true.
Proof. intros Hn. by apply (nibble_all (λ n, is_hex (hex_digit n))). Qed.

Lemma is_space_digit n : 0 ≤ n < 16 → is_space (hex_digit n) = false.
Proof.
  intros Hn. apply negb_true_iff.
  by apply (nibble_all (λ n, negb (is_space (hex_digit n)))).
Qed.

(** [bytes.fromhex(b.hex()) == b] *)
Lemma fromhex_hex_of_bytes b : Forall is_byte b → fromhex (hex_of_bytes b) = Some b.
Proof.
  induction 1 as [|x b Hx Hb IH]; [done|]. unfold is_byte in Hx.
  cbn [hex_of_bytes fromhex]. rewrite is_space_digit, !hex_value_digit by zlia.
  rewrite IH. simpl.
  do 2 f_equal. zlia.
Qed.

Lemma length_hex_of_bytes b : String.length (hex_of_bytes b) = (2 * length b)%nat.
Proof. induction b as [|x b IH]; simpl; [done|]. rewrite IH. lia. Qed.

Definition all_chars (p : ascii → bool) (s : string) : bool :=
  forallb p (String.list_ascii_of_string s).

Lemma all_chars_hex b : Forall is_byte b → all_chars is_hex (hex_of_bytes b) = true.
Proof.
  unfold all_chars. induction 1 as [|x b Hx Hb IH]; [done|]. unfold is_byte in Hx.
  cbn. rewrite !is_hex_digit by zlia. by rewrite IH.
Qed.

(** Published vectors (FIPS 180-4, RFC 4231 case 2). *)
Example sha256_empty :
  hexdigest [] = "e3b0c44298fc1c149afbf4c8996fb92427ae41e4649b934ca495991b7852b855".
Proof. vm_compute. reflexivity. Qed.

Example sha256_abc :
  hexdigest (encode "abc") = "ba7816bf8f01cfea414140de5dae2223b00361a396177a9cb410ff61f20015ad".
Proof. vm_compute. reflexivity. Qed.

Example sha256_two_blocks :
  hexdigest (encode "abcdbcdecdefdefgefghfghighijhijkijkljklmklmnlmnomnopnopq") =
    "248d6a61d20638b8e5c026930c3e6039a33ce45964ff2167f6ecedd419db06c1".
Proof. vm_compute. reflexivity. Qed.

Example hmac_jefe :
  hex_of_bytes (hmac_sha256 (encode "Jefe") (encode "what do ya want for nothing?")) =
    "5bdcc146bf60754e6a042426089575c75a003f089d2739839dec58b964ec3843".
Proof. vm_compute. reflexivity. Qed.
