(* ===== verification/Json.v ===== *)
(** * JSON values and canonical JSON

    [json.dumps(value, ensure_ascii=False, separators=(",", ":"), sort_keys=True)] of the
    standard library, on strings given by their UTF-8 bytes. A Python [dict] keeps its
    insertion order until it is written; a [float] is kept as the text Python prints. *)

From S2P Require Import Prelude PyDict Hash.

Inductive json :=
  | JNull
  | JBool (b : bool)
  | JInt (z : Z)
  | JFloat (repr : string)
  | JStr (s : string)
  | JArr (l : list json)
  | JObj (l : list (string * json)).

(** Induction through arrays and objects. *)
Section json_rect.
Context (P : json → Prop)
  (HNull : P JNull) (HBool : ∀ b, P (JBool b)) (HInt : ∀ z, P (JInt z))
  (HFloat : ∀ r, P (JFloat r)) (HStr : ∀ s, P (JStr s))
  (HArr : ∀ l, Forall P l → P (JArr l)) (HObj : ∀ l, Forall (λ p, P p.2) l → P (JObj l)).

Fixpoint json_nested_ind (v : json) : P v :=
  match v with
  | JNull => HNull
  | JBool b => HBool b
  | JInt z => HInt z
  | JFloat r => HFloat r
  | JStr s => HStr s
  | JArr l => HArr l
      ((fix go l : Forall P l :=
          match l with
          | [] => Forall_nil_2 _
          | v :: l => Forall_cons_2 _ _ _ (json_nested_ind v) (go l)
          end) l)
  | JObj l => HObj l
      ((fix go l : Forall (λ p, P p.2) l :=
          match l with
          | [] => Forall_nil_2 _
          | (k, v) :: l => Forall_cons_2 _ (k, v) _ (json_nested_ind v) (go l)
          end) l)
  end.
End json_rect.

#[export] Instance json_eq_dec : EqDecision json.
Proof.
  refine (fix go (v w : json) : Decision (v = w) :=
    match v, w with
    | JNull, JNull => left eq_refl
    | JBool b, JBool c => cast_if (decide (b = c))
    | JInt b, JInt c => cast_if (decide (b = c))
    | JFloat b, JFloat c => cast_if (decide (b = c))
    | JStr b, JStr c => cast_if (decide (b = c))
    | JArr l, JArr k => cast_if (@list_eq_dec _ go l k)
    | JObj l, JObj k =>
        cast_if (@list_eq_dec _ (@prod_eq_dec _ _ _ go) l k)
    | _, _ => right _
    end); clear go; abstract congruence.
Defined.

(** A double quote and a backslash. *)
Definition dquote : string := String (ascii_of_byte 34) "".
Definition backslash : string := String (ascii_of_byte 92) "".

Definition escape_char (c : ascii) : string :=
  let n := byte_of_ascii c in
  if n =? 34 then backslash +:+ dquote
  else if n =? 92 then backslash +:+ backslash
  else if n =? 8 then backslash +:+ "b"
  else if n =? 9 then backslash +:+ "t"
  else if n =? 10 then backslash +:+ "n"
  else if n =? 12 then backslash +:+ "f"
  else if n =? 13 then backslash +:+ "r"
  else if n <? 32 then backslash +:+ "u00" +:+ hex_of_bytes [n]
  else String c "".

Fixpoint escape (s : string) : string :=
  match s with "" => "" | String c s => escape_char c +:+ escape s end.

Definition quote (s : string) : string := dquote +:+ escape s +:+ dquote.

Definition join_comma (l : list string) : string := String.concat "," l.

(** The key order of [sort_keys=True]. *)
Definition key_leb {A} (p q : string * A) : bool := String.leb p.1 q.1.

#[export] Instance key_leb_order {A} : TotalPreorder (@key_leb A).
Proof. apply (key_TotalPreorder fst String.leb). apply _. Qed.

Definition obj_item (p : string * string) : string := quote p.1 +:+ ":" +:+ p.2.

Fixpoint dumps (v : json) : string :=
  match v with
  | JNull => "null"
  | JBool true => "true"
  | JBool false => "false"
  | JInt z => pretty z
  | JFloat r => r
  | JStr s => quote s
  | JArr l => "[" +:+ join_comma (dumps <$> l) +:+ "]"
  | JObj l =>
      let items := (λ p, (p.1, dumps p.2)) <$> l in
      "{" +:+ join_comma (obj_item <$> py_sort key_leb items) +:+ "}"
  end.

(** Writing sorts the keys: the insertion order of an object does not reach the bytes. *)
Lemma dumps_obj_Permutation (l1 l2 : list (string * json)) :
  NoDup l1.*1 → l1 ≡ₚ l2 → dumps (JObj l1) = dumps (JObj l2).
Proof.
  intros Hnd Hp. simpl.
  f_equal. f_equal. f_equal. f_equal. apply py_sort_Permutation_eq; [apply _| |by rewrite Hp].
  intros p q Hp1 Hq1 H1 H2. pose proof (String.leb_antisym _ _ H1 H2) as Hk.
  apply list_elem_of_fmap in Hp1 as ([k v] & -> & Hp1).
  apply list_elem_of_fmap in Hq1 as ([k' v'] & -> & Hq1). simpl in *. subst.
  apply elem_dget in Hp1, Hq1; [|done..]. congruence.
Qed.
