(* ===== verification/Report.v ===== *)
(** * The reconstruction report ([fabric/reconstruct/_report.py])

    Gaps, the verdict rule of spec 047 section 9.7, the chain verdicts of spec 056 section
    4.5 and the deterministic report helpers of the offline verifier. *)

From S2P Require Import Prelude PyDict Hash Json.

(** ** Data *)

Inductive GapType :=
  | sequence_gap | loss | tail_unverified | missing_object | digest_mismatch | truncated
  | unparsed_exchange | prefix_break | unmatched_tool_call | unresolved_previous_response
  | source_unauthenticated | segment_missing | segment_conflict | post_terminal_activity
  | run_unterminated | run_open | seal_mismatch | unsealed_segment | unsealed_epoch
  | manifest_gap | clock_uncertain.

Inductive Effect := info | partial | unverified.
Inductive Check := passed | failed | skipped | not_applicable.
Inductive ObjectRole := role_request | role_response.

#[export] Instance GapType_eq_dec : EqDecision GapType.
Proof. solve_decision. Defined.
#[export] Instance Effect_eq_dec : EqDecision Effect.
Proof. solve_decision. Defined.
#[export] Instance Check_eq_dec : EqDecision Check.
Proof. solve_decision. Defined.
#[export] Instance ObjectRole_eq_dec : EqDecision ObjectRole.
Proof. solve_decision. Defined.

Definition gap_type_str (t : GapType) : string :=
  match t with
  | sequence_gap => "sequence_gap" | loss => "loss" | tail_unverified => "tail_unverified"
  | missing_object => "missing_object" | digest_mismatch => "digest_mismatch"
  | truncated => "truncated" | unparsed_exchange => "unparsed_exchange"
  | prefix_break => "prefix_break" | unmatched_tool_call => "unmatched_tool_call"
  | unresolved_previous_response => "unresolved_previous_response"
  | source_unauthenticated => "source_unauthenticated"
  | segment_missing => "segment_missing" | segment_conflict => "segment_conflict"
  | post_terminal_activity => "post_terminal_activity"
  | run_unterminated => "run_unterminated" | run_open => "run_open"
  | seal_mismatch => "seal_mismatch" | unsealed_segment => "unsealed_segment"
  | unsealed_epoch => "unsealed_epoch" | manifest_gap => "manifest_gap"
  | clock_uncertain => "clock_uncertain"
  end.

Definition effect_str (e : Effect) : string :=
  match e with info => "info" | partial => "partial" | unverified => "unverified" end.

Definition role_str (r : ObjectRole) : string :=
  match r with role_request => "request" | role_response => "response" end.

(** One integrity gap. *)
Record Gap := mkGap {
  gap_type : GapType;
  effect : Effect;
  exchange_id : option string;
  source_id : option string;
  source_epoch : option Z;
  first_sequence : option Z;
  last_sequence : option Z;
  tool_call_id : option string;
  previous_response_id : option string;
  object_role : option ObjectRole;
  reason : option string;
  segment_id : option string;
}.

#[export] Instance Gap_eq_dec : EqDecision Gap.
Proof. solve_decision. Defined.

(** A gap with the two required fields only, and one with a source and a reason. *)
Definition gap0 (t : GapType) (e : Effect) : Gap :=
  mkGap t e None None None None None None None None None None.

(** [_REASON_RE.match]: [^[a-z][a-z0-9_]{0,63}$]. Python's [$] also matches before a final
    newline, so one trailing newline is accepted. *)
Definition is_lower (c : ascii) : bool := let n := byte_of_ascii c in (97 <=? n) && (n <=? 122).
Definition is_digit (c : ascii) : bool := let n := byte_of_ascii c in (48 <=? n) && (n <=? 57).
Definition newline : ascii := ascii_of_byte 10.

Fixpoint reason_tail (n : nat) (s : string) : bool :=
  match s with
  | "" => true
  | String c rest =>
      bool_decide (c = newline ∧ rest = "")
      || match n with
         | O => false
         | S n =>
             (is_lower c || is_digit c || bool_decide (byte_of_ascii c = 95))
             && reason_tail n rest
         end
  end.

Definition reason_matches (s : string) : bool :=
  match s with "" => false | String c rest => is_lower c && reason_tail 63 rest end.

(** [Gap.to_json]: the present fields, in the declared order. *)
Definition gap_to_json (g : Gap) : list (string * json) :=
  [("gap_type", JStr (gap_type_str (gap_type g))); ("effect", JStr (effect_str (effect g)))]
  ++ omap (λ p, v ← p.2; Some (p.1, v))
      [("exchange_id", JStr <$> exchange_id g);
       ("source_id", JStr <$> source_id g);
       ("source_epoch", JInt <$> source_epoch g);
       ("first_sequence", JInt <$> first_sequence g);
       ("last_sequence", JInt <$> last_sequence g);
       ("tool_call_id", JStr <$> tool_call_id g);
       ("previous_response_id", JStr <$> previous_response_id g);
       ("object_role", JStr ∘ role_str <$> object_role g);
       ("segment_id", JStr <$> segment_id g);
       ("reason", r ← reason g; if reason_matches r then Some (JStr r) else None)].

(** ** [sort_gaps] *)

(** An element of a Python key tuple. *)
Inductive key := KStr (s : string) | KInt (z : Z).

Definition key_cmp (a b : key) : comparison :=
  match a, b with
  | KStr s, KStr t => String.compare s t
  | KInt x, KInt y => Z.compare x y
  | KStr _, KInt _ => Lt
  | KInt _, KStr _ => Gt
  end.

(** Tuple comparison: the first difference decides. *)
Fixpoint tuple_leb (a b : list key) : bool :=
  match a, b with
  | [], _ => true
  | _ :: _, [] => false
  | x :: a, y :: b =>
      match key_cmp x y with Lt => true | Gt => false | Eq => tuple_leb a b end
  end.

Definition gap_key (order_of : list (string * Z)) (g : Gap) : list key :=
  [KStr (gap_type_str (gap_type g));
   KInt (match exchange_id g with
         | Some e => if decide (e = "") then -1 else default (-1) (dget e order_of)
         | None => -1 end);
   KStr (or_str (source_id g) "");
   KInt (default (-1) (source_epoch g));
   KInt (default (-1) (first_sequence g));
   KStr (match object_role g with Some r => role_str r | None => "" end);
   KStr (or_str (tool_call_id g) "");
   KStr (or_str (reason g) "");
   KStr (effect_str (effect g));
   KStr (or_str (exchange_id g) "");
   KStr (or_str (previous_response_id g) "");
   KStr (or_str (segment_id g) "")].

Definition gap_leb (order_of : list (string * Z)) (g h : Gap) : bool :=
  tuple_leb (gap_key order_of g) (gap_key order_of h).

Definition sort_gaps (gaps : list Gap) (order_of : list (string * Z)) : list Gap :=
  py_sort (gap_leb order_of) (fromkeys gaps).

(** ** Verdicts *)

Inductive Verdict := V_complete | V_partial | V_unverified.
Inductive RunVerdict := RV_complete | RV_observed | RV_partial | RV_unverified.

#[export] Instance Verdict_eq_dec : EqDecision Verdict.
Proof. solve_decision. Defined.
#[export] Instance RunVerdict_eq_dec : EqDecision RunVerdict.
Proof. solve_decision. Defined.

(** [verdict_for]: partial beats unverified beats complete. *)
Definition verdict_for (gaps : list Gap) (checks : list (string * Check)) : Verdict :=
  let effects := effect <$> gaps in
  if decide (partial ∈ effects) then V_partial
  else if decide (unverified ∈ effects ∨ skipped ∈ checks.*2) then V_unverified
  else V_complete.

(** A verdict read as a run verdict. *)
Definition of_verdict (v : Verdict) : RunVerdict :=
  match v with
  | V_complete => RV_complete | V_partial => RV_partial | V_unverified => RV_unverified
  end.

Definition run_verdict (v : Verdict) (scoped : bool) : RunVerdict :=
  if scoped && bool_decide (v = V_complete) then RV_observed else of_verdict v.

(** [COMPLETE_VERDICTS]. *)
Definition is_complete_verdict (v : RunVerdict) : bool :=
  match v with RV_complete | RV_observed => true | _ => false end.

(** [gap_counts]: occurrences by type, keys sorted. *)
Definition gap_counts (gaps : list Gap) : list (string * Z) :=
  py_sort key_leb
    (foldl (λ counts g,
       let t := gap_type_str (gap_type g) in dset t (default 0 (dget t counts) + 1) counts)
     [] gaps).

(** ** Chains (spec 056 section 4.5) *)

Inductive ChainVerdict := C_complete | C_partial | C_unverified | C_not_observed.

#[export] Instance ChainVerdict_eq_dec : EqDecision ChainVerdict.
Proof. solve_decision. Defined.

(** A chain entry: its verdict, and its reasons when it carries any. *)
Record Chain := mkChain { chain_verdict : ChainVerdict; chain_reasons : option (list string) }.

#[export] Instance Chain_eq_dec : EqDecision Chain.
Proof. solve_decision. Defined.

Definition chain (reasons : list string) : Chain :=
  match fromkeys reasons with
  | [] => mkChain C_complete None
  | found => mkChain C_partial (Some found)
  end.

Definition not_observed (reason : option string) : Chain :=
  mkChain C_not_observed (if truthy_str reason then (λ r, [r]) <$> reason else None).

(** [_SKIPPED_REASONS.get(name, "not_configured")]. *)
Definition skipped_reason (name : string) : string :=
  default "not_configured"
    (dget name [("bytes", "not_configured"); ("stitching", "unparsed_exchange")]).

(** The reasons of a chain that is not complete: the types of the gaps behind it, or the
    skipped checks when there is no such gap. *)
Definition decision_reasons (gaps : list Gap) (checks : list (string * Check)) : list string :=
  match (λ g, gap_type_str (gap_type g)) <$> filter (λ g, effect g ≠ info) gaps with
  | [] => (λ c, skipped_reason c.1) <$> filter (λ c, c.2 = skipped) checks
  | reasons => reasons
  end.

Definition decisions_chain (gaps : list Gap) (checks : list (string * Check)) : Chain :=
  match verdict_for gaps checks with
  | V_complete => mkChain C_complete None
  | V_partial => mkChain C_partial (Some (fromkeys (decision_reasons gaps checks)))
  | V_unverified => mkChain C_unverified (Some (fromkeys (decision_reasons gaps checks)))
  end.

Definition chained_run_verdict (v : RunVerdict) (chains : list (string * Chain)) : RunVerdict :=
  let states := (λ c, chain_verdict c.2) <$> chains in
  if decide (C_partial ∈ states) then RV_partial
  else if bool_decide (C_unverified ∈ states) && is_complete_verdict v then RV_unverified
  else v.

(** ** The attribution summary *)

Definition LIST_MAX : nat := 64.
Definition LINK_STATES : list string := ["resolved"; "ambiguous"; "unresolved"].
Definition ATTRIBUTION_BASES : list string :=
  ["reported"; "output_match"; "sequence_bracket"; "process_anchor"; "process_lineage";
   "sandbox_report"; "none"].
Definition EFFECT_REASONS : list string :=
  ["channel_disabled"; "no_effect_channel"; "none_in_window"].
Definition UNATTRIBUTED_HOST_REASONS : list string := ["other_process"; "out_of_scope"; "no_run"].

(** [dict.fromkeys(_LINK_STATES, 0)] *)
Definition link_counts : list (string * Z) := (λ s, (s, 0)) <$> LINK_STATES.

(** [xs\[:LIST_MAX\]] and a traversal that raises at the first failing element. *)
Definition first_max {A} (l : list A) : list A := take LIST_MAX l.

Fixpoint mapR {A B} (f : A → result B) (l : list A) : result (list B) :=
  match l with
  | [] => Ok []
  | x :: l => y ← f x; rest ← mapR f l; Ok (y :: rest)
  end.

Definition effect_entry (e : list (string * string)) : result json :=
  uid ← or_raise KeyError (dget "attempt_uid" e);
  ev ← or_raise KeyError (dget "event_id" e);
  Ok (JObj [("attempt_uid", JStr uid); ("event_id", JStr ev)]).

Definition attribution_json (counts : list (string * list (string * Z)))
    (unattributed : list (list (string * string))) (effects_not_observed : list (string * Z))
    (output_match : list (string * string)) (unexplained : list string)
    (unexplained_count : option Z) (lineage_truncated : Z) : result (list (string * json)) :=
  effects ← mapR effect_entry (first_max unattributed);
  let links := omap (λ basis,
    c ← dget basis counts;
    Some (basis, JObj ((λ st, (st, JInt (default 0 (dget st c)))) <$> LINK_STATES)))
    ATTRIBUTION_BASES in
  let out :=
    [("links", JObj links);
     ("unattributed_effects",
       JObj [("count", JInt (Z.of_nat (length unattributed))); ("effects", JArr effects)]);
     ("effects_not_observed",
       JObj ((λ r, (r, JInt (default 0 (dget r effects_not_observed)))) <$> EFFECT_REASONS));
     ("output_match", JObj ((λ p, (p.1, JStr p.2)) <$> output_match));
     ("unexplained_host_events",
       JObj [("count", JInt (default (Z.of_nat (length unexplained)) unexplained_count));
             ("event_ids", JArr (JStr <$> first_max unexplained))])] in
  Ok (if decide (lineage_truncated = 0) then out
      else out ++ [("lineage_truncated", JInt lineage_truncated)]).

(** [sum(1 for e in events if e\["reason"\] == reason)] *)
Definition count_reason (events : list (list (string * json))) (r : string) : result Z :=
  rs ← mapR (λ e, or_raise KeyError (dget "reason" e)) events;
  Ok (Z.of_nat (length (filter (λ v, v = JStr r) rs))).

Definition unattributed_host_json (events : list (list (string * json)))
    : result (list (string * json)) :=
  reasons ← mapR (λ r, n ← count_reason events r; Ok (r, JInt n)) UNATTRIBUTED_HOST_REASONS;
  Ok [("count", JInt (Z.of_nat (length events))); ("reasons", JObj reasons);
      ("events", JArr (JObj <$> first_max events))].

(** ** The order of gaps *)

Lemma key_cmp_opp a b : key_cmp a b = CompOpp (key_cmp b a).
Proof. destruct a, b; simpl; try done; [apply String.compare_antisym|apply Z.compare_antisym]. Qed.

Lemma key_cmp_eq a b : key_cmp a b = Eq ↔ a = b.
Proof.
  split.
  - destruct a, b; simpl; try done; intros H; f_equal;
      [by apply String.compare_eq_iff|by apply Z.compare_eq].
  - intros ->. destruct b; simpl; [|apply Z.compare_refl].
    pose proof (String.compare_antisym s s). by destruct (s ?= s)%string.
Qed.

Lemma string_lt_trans s t u :
  String.compare s t = Lt → String.compare t u = Lt → String.compare s u = Lt.
Proof.
  intros H1 H2. assert (String.leb s u = true) as H3.
  { apply (leb_tr String.leb s t u); unfold String.leb; by rewrite ?H1, ?H2. }
  unfold String.leb in H3. destruct (s ?= u)%string eqn:E; try done.
  apply String.compare_eq_iff in E as ->. rewrite String.compare_antisym, H1 in H2. done.
Qed.

Lemma key_cmp_lt_trans a b c : key_cmp a b = Lt → key_cmp b c = Lt → key_cmp a c = Lt.
Proof.
  destruct a, b, c; simpl; try done; [apply string_lt_trans|].
  rewrite !Z.compare_lt_iff. lia.
Qed.

#[export] Instance tuple_leb_order : TotalPreorder tuple_leb.
Proof.
  split.
  - induction x as [|x a IH]; intros [|y b]; simpl; auto. rewrite (key_cmp_opp y x).
    destruct (key_cmp x y); simpl; auto.
  - induction x as [|x a IH]; intros [|y b] [|z c]; simpl; try done.
    destruct (key_cmp x y) eqn:Hxy; intros H1; try done.
    + apply key_cmp_eq in Hxy as ->. destruct (key_cmp y z); eauto.
    + destruct (key_cmp y z) eqn:Hyz; intros H2; try done.
      * apply key_cmp_eq in Hyz as <-. by rewrite Hxy.
      * by rewrite (key_cmp_lt_trans _ _ _ Hxy Hyz).
Qed.

Lemma tuple_leb_antisym a b : tuple_leb a b = true → tuple_leb b a = true → a = b.
Proof.
  revert b. induction a as [|x a IH]; intros [|y b]; simpl; try done.
  rewrite (key_cmp_opp y x). destruct (key_cmp x y) eqn:Hxy; simpl; try done.
  apply key_cmp_eq in Hxy as ->. intros. f_equal. auto.
Qed.

#[export] Instance gap_leb_order o : TotalPreorder (gap_leb o).
Proof. unfold gap_leb. apply key_TotalPreorder, _. Qed.

Lemma elem_of_sort_gaps g gaps o : g ∈ sort_gaps gaps o ↔ g ∈ gaps.
Proof. unfold sort_gaps. by rewrite elem_of_py_sort, elem_of_fromkeys. Qed.

(** ** Verdicts *)

(** How bad a verdict is: complete, then unverified, then partial. *)
Definition verdict_rank (v : Verdict) : Z :=
  match v with V_complete => 0 | V_unverified => 1 | V_partial => 2 end.

Definition run_verdict_rank (v : RunVerdict) : Z :=
  match v with RV_complete | RV_observed => 0 | RV_unverified => 1 | RV_partial => 2 end.

Definition chain_rank (c : ChainVerdict) : Z :=
  match c with C_complete | C_not_observed => 0 | C_unverified => 1 | C_partial => 2 end.

Lemma effect_elem e (gaps : list Gap) : e ∈ effect <$> gaps ↔ ∃ g, g ∈ gaps ∧ effect g = e.
Proof. rewrite list_elem_of_fmap. naive_solver. Qed.

Lemma verdict_partial (gaps : list Gap) checks :
  verdict_for gaps checks = V_partial ↔ ∃ g, g ∈ gaps ∧ effect g = partial.
Proof.
  unfold verdict_for. rewrite <-effect_elem. split.
  - intros. by split_tests.
  - intros. by rewrite decide_True.
Qed.

Lemma verdict_complete (gaps : list Gap) checks :
  verdict_for gaps checks = V_complete ↔
    (∀ g, g ∈ gaps → effect g = info) ∧ skipped ∉ checks.*2.
Proof.
  unfold verdict_for. split.
  - case_decide as Hp; [done|]. case_decide as Hu; [done|]. intros _. split; [|tauto].
    intros g Hg. destruct (effect g) eqn:He; [done|..]; exfalso;
      [apply Hp|apply Hu; left]; apply effect_elem; eauto.
  - intros [Hi Hs]. rewrite !decide_False; [done| |].
    + intros [(g & Hg & He)%effect_elem|?]; [|done]. rewrite Hi in He; done.
    + intros (g & Hg & He)%effect_elem. rewrite Hi in He; done.
Qed.

(** [verdict_for] reads the gaps as a set. *)
Lemma verdict_for_ext (gaps1 gaps2 : list Gap) checks :
  (∀ g, g ∈ gaps1 ↔ g ∈ gaps2) → verdict_for gaps1 checks = verdict_for gaps2 checks.
Proof.
  intros Hg.
  assert (∀ e, e ∈ effect <$> gaps1 ↔ e ∈ effect <$> gaps2) as He.
  { intros e. rewrite !effect_elem. naive_solver. }
  unfold verdict_for. repeat case_decide; try done; exfalso; naive_solver.
Qed.

Lemma no_effect_gap (gaps : list Gap) g :
  filter (λ g, effect g ≠ info) gaps = [] → g ∈ gaps → effect g = info.
Proof.
  intros Hf Hg. destruct (decide (effect g = info)) as [|Hne]; [done|].
  assert (g ∈ filter (λ g, effect g ≠ info) gaps) as Hin by (by apply list_elem_of_filter).
  rewrite Hf in Hin. by apply not_elem_of_nil in Hin.
Qed.

Lemma decision_reasons_spec (gaps : list Gap) checks :
  verdict_for gaps checks ≠ V_complete →
  decision_reasons gaps checks ≠ [] ∧
  ∀ r, r ∈ decision_reasons gaps checks →
    (∃ g, g ∈ gaps ∧ effect g ≠ info ∧ r = gap_type_str (gap_type g)) ∨
    (∃ name, (name, skipped) ∈ checks ∧ r = skipped_reason name ∧
             ∀ g, g ∈ gaps → effect g = info).
Proof.
  intros Hv. unfold decision_reasons.
  pose proof (no_effect_gap gaps) as Hinfo.
  assert (∀ g, g ∈ filter (λ g, effect g ≠ info) gaps → effect g ≠ info ∧ g ∈ gaps) as Hg.
  { intros g. by rewrite list_elem_of_filter. }
  destruct (filter _ gaps) as [|g0 gs] eqn:Hf; simpl.
  - split.
    + intros Hc. apply Hv, verdict_complete. split; [eauto|].
      intros ([n c] & Hc' & Hin)%list_elem_of_fmap. simpl in Hc'. subst.
      assert ((n, skipped) ∈ filter (λ c, c.2 = skipped) checks) as Hin'
        by (by apply list_elem_of_filter).
      by destruct (filter _ checks); [apply not_elem_of_nil in Hin'|].
    + intros r ([n c] & -> & [? ?]%list_elem_of_filter)%list_elem_of_fmap. simpl in *. subst.
      right. exists n. eauto.
  - split; [done|]. intros r Hr. left. destruct (Hg g0) as [? ?]; [constructor|].
    apply elem_of_cons in Hr as [->|(g & -> & Hin)%list_elem_of_fmap]; [by exists g0|].
    destruct (Hg g) as [? ?]; [by constructor|]. by exists g.
Qed.

(** ** Counting *)

Definition count_type (t : string) (gaps : list Gap) : Z :=
  Z.of_nat (length (filter (λ g, gap_type_str (gap_type g) = t) gaps)).

Definition count_step (counts : list (string * Z)) (g : Gap) : list (string * Z) :=
  let t := gap_type_str (gap_type g) in dset t (default 0 (dget t counts) + 1) counts.

Lemma count_type_cons t g gaps :
  count_type t (g :: gaps) = (if decide (gap_type_str (gap_type g) = t) then 1 else 0)
                             + count_type t gaps.
Proof. unfold count_type. rewrite filter_cons. case_decide; simpl; lia. Qed.

Lemma count_type_nonneg t gaps : 0 ≤ count_type t gaps.
Proof. unfold count_type. lia. Qed.

Lemma foldl_count (gaps : list Gap) (counts : list (string * Z)) t :
  default 0 (dget t (foldl count_step counts gaps))
    = default 0 (dget t counts) + count_type t gaps.
Proof.
  revert counts. induction gaps as [|g gaps IH]; intros counts; simpl; [unfold count_type; simpl; lia|].
  rewrite IH, count_type_cons. unfold count_step. simpl. rewrite dget_dset.
  repeat case_decide; simplify_eq/=; lia.
Qed.

Lemma foldl_count_keys (gaps : list Gap) (counts : list (string * Z)) t :
  t ∈ (foldl count_step counts gaps).*1 ↔
    t ∈ counts.*1 ∨ ∃ g, g ∈ gaps ∧ gap_type_str (gap_type g) = t.
Proof.
  revert counts. induction gaps as [|g gaps IH]; intros counts; simpl; [set_solver|].
  rewrite IH. unfold count_step. rewrite elem_of_dset_keys. set_solver.
Qed.

Lemma foldl_count_NoDup (gaps : list Gap) (counts : list (string * Z)) : NoDup counts.*1 → NoDup (foldl count_step counts gaps).*1.
Proof.
  revert counts. induction gaps as [|g gaps IH]; intros counts Hc; simpl; [done|].
  by apply IH, NoDup_dset.
Qed.

(** A sorted copy of a dictionary looks up the same values. *)
Lemma dget_Permutation {V} (d1 d2 : list (string * V)) k :
  NoDup d1.*1 → d1 ≡ₚ d2 → dget k d1 = dget k d2.
Proof.
  intros Hnd Hp. destruct (dget k d2) as [v|] eqn:Hk.
  - apply elem_dget; [done|]. rewrite Hp. by apply dget_Some_elem.
  - apply dget_None. apply dget_None in Hk. by rewrite Hp.
Qed.

(** ** Properties *)

(** The verdict of a run is decided by its worst finding and by nothing else: [partial]
    exactly when some gap is partial, [complete] exactly when every gap is informational and
    no check was skipped; and joining two bodies of evidence yields the worse of their two
    verdicts, so more evidence never improves a verdict. *)
Theorem verdict_for_worst (gaps1 gaps2 : list Gap) (checks1 checks2 : list (string * Check)) :
  (verdict_for gaps1 checks1 = V_partial ↔ ∃ g, g ∈ gaps1 ∧ effect g = partial) ∧
  (verdict_for gaps1 checks1 = V_complete ↔
     (∀ g, g ∈ gaps1 → effect g = info) ∧ skipped ∉ checks1.*2) ∧
  verdict_rank (verdict_for (gaps1 ++ gaps2) (checks1 ++ checks2)) =
    Z.max (verdict_rank (verdict_for gaps1 checks1)) (verdict_rank (verdict_for gaps2 checks2)).
Proof.
  split_and!; [apply verdict_partial|apply verdict_complete|].
  unfold verdict_for. rewrite !fmap_app.
  repeat case_decide; simpl; try done; exfalso; rewrite ?elem_of_app in *; tauto.
Qed.

(** [sort_gaps] lists each gap once, in key order, without changing the verdict, and its
    result does not depend on the order the gaps were found in, provided the sort key tells
    the gaps apart. *)
Theorem sort_gaps_canonical (gaps1 gaps2 : list Gap) order_of checks :
  (∀ g h, g ∈ gaps1 → h ∈ gaps1 → gap_key order_of g = gap_key order_of h → g = h) →
  gaps1 ≡ₚ gaps2 →
  sort_gaps gaps1 order_of = sort_gaps gaps2 order_of ∧
  NoDup (sort_gaps gaps1 order_of) ∧
  (∀ g, g ∈ sort_gaps gaps1 order_of ↔ g ∈ gaps1) ∧
  StronglySorted (λ g h, gap_leb order_of g h = true) (sort_gaps gaps1 order_of) ∧
  verdict_for (sort_gaps gaps1 order_of) checks = verdict_for gaps1 checks.
Proof.
  intros Hkey Hp. split_and!.
  - apply py_sort_Permutation_eq; [apply _| |by apply fromkeys_Permutation].
    intros g h. rewrite !elem_of_fromkeys. intros Hg Hh H1 H2.
    apply Hkey; [done..|]. by apply tuple_leb_antisym.
  - apply NoDup_py_sort, NoDup_fromkeys.
  - intros g. apply elem_of_sort_gaps.
  - apply py_sort_sorted, _.
  - apply verdict_for_ext. intros g. apply elem_of_sort_gaps.
Qed.

(** The decisions chain restates the verdict: it is complete exactly when the verdict is,
    and a chain that is not complete always names at least one reason, each once, every one of
    them the type of a non-informational gap or, when there is none, of a skipped check. *)
Theorem decisions_chain_explains (gaps : list Gap) (checks : list (string * Check)) :
  (chain_verdict (decisions_chain gaps checks) = C_complete ↔
     verdict_for gaps checks = V_complete) ∧
  (verdict_for gaps checks ≠ V_complete →
   ∃ rs, chain_reasons (decisions_chain gaps checks) = Some rs ∧ rs ≠ [] ∧ NoDup rs ∧
     ∀ r, r ∈ rs →
       (∃ g, g ∈ gaps ∧ effect g ≠ info ∧ r = gap_type_str (gap_type g)) ∨
       (∃ name, (name, skipped) ∈ checks ∧ r = skipped_reason name ∧
                ∀ g, g ∈ gaps → effect g = info)).
Proof.
  unfold decisions_chain. split; [by destruct (verdict_for gaps checks)|]. intros Hv.
  destruct (decision_reasons_spec _ _ Hv) as [Hne Hrs].
  exists (fromkeys (decision_reasons gaps checks)). split_and!.
  - by destruct (verdict_for gaps checks).
  - by rewrite fromkeys_nil.
  - apply NoDup_fromkeys.
  - intros r. rewrite elem_of_fromkeys. apply Hrs.
Qed.

(** The chains only ever worsen a run's verdict: the result is the worse of the verdict
    and of its worst chain, an unobserved or complete chain changes nothing, and a run is
    never reported complete while a chain is partial or unverified. *)
Theorem chained_run_verdict_bound v (chains : list (string * Chain)) :
  run_verdict_rank (chained_run_verdict v chains) =
    foldr Z.max (run_verdict_rank v) ((λ c, chain_rank (chain_verdict c.2)) <$> chains) ∧
  (is_complete_verdict (chained_run_verdict v chains) = true →
     chained_run_verdict v chains = v ∧
     ∀ name c, (name, c) ∈ chains → chain_verdict c ≠ C_partial ∧ chain_verdict c ≠ C_unverified).
Proof.
  unfold chained_run_verdict. set (states := (λ c, chain_verdict c.2) <$> chains).
  assert (∀ name c, (name, c) ∈ chains → chain_verdict c ∈ states) as Hin.
  { intros n c Hc. apply list_elem_of_fmap. by exists (n, c). }
  assert (∀ z, 0 ≤ z ≤ 2 →
    foldr Z.max z ((λ c, chain_rank (chain_verdict c.2)) <$> chains) =
    if decide (C_partial ∈ states) then 2
    else if decide (C_unverified ∈ states) then Z.max 1 z else z) as Hfold.
  { subst states. clear Hin. intros z Hz. induction chains as [|[n c] l IH]; csimpl; [done|].
    rewrite IH.
    destruct (chain_verdict c) eqn:Hc; repeat case_decide; simpl; try lia; exfalso;
      rewrite ?elem_of_cons in *; naive_solver. }
  rewrite Hfold by (destruct v; simpl; lia).
  destruct (decide (C_partial ∈ states)) as [Hp|Hp]; [done|].
  destruct (decide (C_unverified ∈ states)) as [Hu|Hu].
  - rewrite bool_decide_true by done. by destruct v.
  - rewrite bool_decide_false by done. simpl. split; [done|]. intros _. split; [done|].
    intros n c Hc%Hin. split; congruence.
Qed.

(** [gap_counts] is an exact, sorted histogram: each type's entry is the number of its
    gaps, only types that occur have an entry, no type has two, and the entries add up to the
    number of gaps. *)
Theorem gap_counts_exact (gaps : list Gap) :
  (∀ t, default 0 (dget t (gap_counts gaps)) = count_type t gaps) ∧
  (∀ t, t ∈ (gap_counts gaps).*1 ↔ ∃ g, g ∈ gaps ∧ gap_type_str (gap_type g) = t) ∧
  NoDup (gap_counts gaps).*1 ∧
  StronglySorted (λ p q, key_leb p q = true) (gap_counts gaps) ∧
  foldr Z.add 0 (gap_counts gaps).*2 = Z.of_nat (length gaps).
Proof.
  set (d := foldl count_step [] gaps).
  assert (gap_counts gaps ≡ₚ d) as Hp by (unfold gap_counts; apply py_sort_Permutation).
  assert (NoDup d.*1) as Hnd by apply foldl_count_NoDup, NoDup_nil_2.
  split_and!.
  - intros t. rewrite (dget_Permutation _ d) by (rewrite ?Hp; done).
    unfold d. rewrite foldl_count. done.
  - intros t. rewrite Hp. unfold d. rewrite foldl_count_keys. set_solver.
  - by rewrite Hp.
  - apply py_sort_sorted, _.
  - assert (∀ l1 l2, l1 ≡ₚ l2 → foldr Z.add 0 l1 = foldr Z.add 0 l2) as Hsum.
    { intros ??. induction 1; simpl; lia. }
    rewrite (Hsum _ d.*2) by (by rewrite Hp). clear Hp.
    assert (∀ gaps counts, foldr Z.add 0 (foldl count_step counts gaps).*2 =
      foldr Z.add 0 counts.*2 + Z.of_nat (length gaps)) as Hgen; [|subst d; by rewrite Hgen].
    clear. induction gaps as [|g gaps IH]; intros counts; simpl; [lia|].
    rewrite IH. enough (foldr Z.add 0 (count_step counts g).*2 = foldr Z.add 0 counts.*2 + 1) by lia.
    unfold count_step. induction counts as [|[k v] counts IHc]; csimpl; [done|].
    case_decide; csimpl; lia.
Qed.

Lemma sort_gaps_canonical_witness :
  let a := gap0 sequence_gap partial in
  let b := gap0 run_open info in
  sort_gaps [b; a; b] [] = sort_gaps [b; b; a] [] ∧ sort_gaps [b; a; b] [] = [b; a].
Proof.
  intros a b. split; [|vm_compute; reflexivity].
  apply (sort_gaps_canonical [b; a; b] [b; b; a] [] []).
  - intros g h Hg Hh. rewrite !elem_of_cons in Hg, Hh.
    destruct Hg as [->|[->|[->|Hg]]]; [..|by apply not_elem_of_nil in Hg];
    destruct Hh as [->|[->|[->|Hh]]]; try (by apply not_elem_of_nil in Hh); vm_compute; congruence.
  - apply Permutation_skip, Permutation_swap.
Defined.

(** The sort key reads the first sequence of a range but not its last: two gaps that differ
    only there stay in discovery order. *)
Theorem sort_gaps_keeps_range_order :
  let g n := mkGap sequence_gap partial None None None (Some 4) (Some n) None None None None None in
  sort_gaps [g 7; g 5] [] = [g 7; g 5] ∧ sort_gaps [g 5; g 7] [] = [g 5; g 7].
Proof. split; vm_compute; reflexivity. Qed.
