(* ===== verification/Stitch.v ===== *)
(** * Thread stitching and tool-call matching ([fabric/reconstruct/_stitch_check.py])

    Spec 047 section 9 step 6: the exchanges of one run, in run order, are grouped into
    threads by the digests they resend, and the tool-call ids they emit and consume are
    matched. [self.thread_of\[id\]] raises [KeyError] on an unknown id, so [join] is a
    [result]; the first theorem shows that it never does. *)

From S2P Require Import Prelude PyDict Hash Json Report.

(** ** Data *)

Record StitchView := mkView {
  v_exchange_id : string;
  v_api : string;
  v_parsed : bool;
  v_request : list string;
  v_continuation : list string;
  v_consumed : list string;
  v_emitted : list string;
  v_response_id : option string;
  v_previous_response_id : option string;
}.

Record StitchResult := mkStitch {
  threads : list (string * list string);
  continues : list (string * string);
  thread_of : list (string * string);
  gaps : list Gap;
}.

Definition stitch_empty : StitchResult := mkStitch [] [] [] [].

Definition add_gaps (gs : list Gap) (r : StitchResult) : StitchResult :=
  mkStitch (threads r) (continues r) (thread_of r) (gaps r ++ gs).

(** ["thread-{n}"] *)
Definition thread_name (n : nat) : string := "thread-" +:+ pretty (N.of_nat n).

(** [StitchResult.new] *)
Definition stitch_new (e : string) (r : StitchResult) : StitchResult :=
  let thread_id := thread_name (length (threads r)) in
  mkStitch (threads r ++ [(thread_id, [e])]) (continues r) (dset e thread_id (thread_of r)) (gaps r).

(** [StitchResult.join] *)
Definition stitch_join (e earlier : string) (cont : bool) (r : StitchResult)
    : result StitchResult :=
  thread_id ← or_raise KeyError (dget earlier (thread_of r));
  Ok (mkStitch
    ((λ t, if decide (t.1 = thread_id) then (t.1, t.2 ++ [e]) else t) <$> threads r)
    (if cont then dset e earlier (continues r) else continues r)
    (dset e thread_id (thread_of r)) (gaps r)).

(** ** Placing one exchange *)

Fixpoint common_prefix (l r : list string) : nat :=
  match l, r with
  | theirs :: l, ours :: r => if decide (theirs = ours) then S (common_prefix l r) else O
  | _, _ => O
  end.

(** The longest candidate continuation that the request starts with; the latest on a tie. *)
Definition best_step (view : StitchView) (best : option StitchView) (c : StitchView)
    : option StitchView :=
  let n := length (v_continuation c) in
  if bool_decide (take n (v_request view) = v_continuation c)
     && match best with None => true | Some b => (length (v_continuation b) <=? n)%nat end
  then Some c else best.

Definition best_candidate (view : StitchView) (candidates : list StitchView)
    : option StitchView :=
  foldl (best_step view) None candidates.

(** The candidate that shares the longest start with the request; the latest on a tie. *)
Definition closest_step (view : StitchView) (s : option StitchView * nat) (c : StitchView)
    : option StitchView * nat :=
  let shared := common_prefix (v_continuation c) (v_request view) in
  if decide (1 ≤ shared ∧ s.2 ≤ shared)%nat then (Some c, shared) else s.

Definition closest_candidate (view : StitchView) (candidates : list StitchView)
    : option StitchView :=
  (foldl (closest_step view) (None, 0%nat) candidates).1.

Definition gap_unresolved (view : StitchView) : Gap :=
  mkGap unresolved_previous_response partial (Some (v_exchange_id view)) None None None None
    None (v_previous_response_id view) None None None.

Definition gap_prefix_break (view : StitchView) : Gap :=
  mkGap prefix_break info (Some (v_exchange_id view)) None None None None None None None
    (Some "history_rewritten") None.

Definition embeddings : string := "openai.embeddings".

(** [_place] *)
Definition place (view : StitchView) (candidates : list StitchView)
    (by_response_id : list (string * string)) (r : StitchResult) : result StitchResult :=
  let e := v_exchange_id view in
  if negb (v_parsed view) || bool_decide (v_api view = embeddings) then Ok (stitch_new e r)
  else match v_previous_response_id view with
  | Some p =>
      match dget p by_response_id with
      | None => Ok (stitch_new e (add_gaps [gap_unresolved view] r))
      | Some previous => stitch_join e previous true r
      end
  | None =>
      match best_candidate view candidates with
      | Some best => stitch_join e (v_exchange_id best) true r
      | None =>
          match closest_candidate view candidates with
          | None => Ok (stitch_new e r)
          | Some closest =>
              stitch_join e (v_exchange_id closest) false (add_gaps [gap_prefix_break view] r)
          end
      end
  end.

(** ** Tool calls *)

Record CallState := mkCalls {
  c_gaps : list Gap;
  c_emitted : list (string * string);
  c_carried : gset string;
  c_matched : gset string;
  c_blind : bool;
}.

Definition gap_unmatched (eff : Effect) (e call : string) (why : string) : Gap :=
  mkGap unmatched_tool_call eff (Some e) None None None None (Some call) None None (Some why) None.

Definition gap_consumed (first : bool) (view : StitchView) (call : string) : Gap :=
  gap_unmatched (if first then info else partial) (v_exchange_id view) call
    (if first then "consumed_before_run" else "consumed_not_emitted").

Definition consume_step (first : bool) (view : StitchView) (s : CallState) (call : string)
    : CallState :=
  if din call (c_emitted s) then
    mkCalls (c_gaps s) (c_emitted s) (c_carried s) ({[call]} ∪ c_matched s) (c_blind s)
  else if bool_decide (call ∉ c_carried s) && negb (c_blind s) then
    mkCalls (c_gaps s ++ [gap_consumed first view call]) (c_emitted s) (c_carried s)
      (c_matched s) (c_blind s)
  else s.

Definition calls_step (first : bool) (s : CallState) (view : StitchView) : CallState :=
  let s := foldl (consume_step first view) s (v_consumed view) in
  mkCalls (c_gaps s)
    (foldl (λ d call, dsetdefault call (v_exchange_id view) d) (c_emitted s) (v_emitted view))
    (list_to_set (v_consumed view) ∪ c_carried s) (c_matched s)
    (c_blind s || negb (v_parsed view)).

Definition calls_run (views : list StitchView) : CallState :=
  let init := mkCalls [] [] ∅ ∅ false in
  match views with
  | [] => init
  | v :: rest => foldl (calls_step false) (calls_step true init v) rest
  end.

(** [_tool_call_gaps] *)
Definition tool_call_gaps (views : list StitchView) : list Gap :=
  let s := calls_run views in
  c_gaps s ++
    ((λ p, gap_unmatched info p.2 p.1 "emitted_not_consumed")
       <$> filter (λ p, p.1 ∉ c_matched s) (c_emitted s)).

(** ** [stitch_run] *)

Definition stitch_step (s : list StitchView * list (string * string) * StitchResult)
    (view : StitchView) : result (list StitchView * list (string * string) * StitchResult) :=
  let '(candidates, by_response_id, r) := s in
  r ← place view candidates by_response_id r;
  Ok ((if v_parsed view && negb (bool_decide (v_continuation view = []))
          && negb (bool_decide (v_api view = embeddings))
       then candidates ++ [view] else candidates),
      (match v_response_id view with
       | Some i => dset i (v_exchange_id view) by_response_id
       | None => by_response_id end),
      r).

Definition stitch_run (views : list StitchView) : result StitchResult :=
  s ← foldM stitch_step ([], [], stitch_empty) views;
  Ok (add_gaps (tool_call_gaps views) s.2).

(** ** Threads *)

Definition ids (views : list StitchView) : list string := v_exchange_id <$> views.

(** What every step keeps: the exchanges placed so far, [seen], are exactly the keys of
    [thread_of], threads are numbered in order, and [thread_of] names the thread that lists
    the exchange. *)
Record stitch_ok (seen : list string) (r : StitchResult) : Prop := {
  so_members : mjoin (threads r).*2 ≡ₚ seen;
  so_names : (threads r).*1 = thread_name <$> seq 0 (length (threads r));
  so_keys : ∀ e, e ∈ (thread_of r).*1 ↔ e ∈ seen;
  so_thread : ∀ e t, dget e (thread_of r) = Some t ↔ ∃ ms, (t, ms) ∈ threads r ∧ e ∈ ms;
  so_continues : ∀ e p, dget e (continues r) = Some p →
    ∃ l1 l2, seen = l1 ++ e :: l2 ∧ p ∈ l1 ∧ dget e (thread_of r) = dget p (thread_of r);
}.

#[export] Instance thread_name_inj : Inj (=) (=) thread_name.
Proof.
  intros n m H. unfold thread_name in H. apply (inj (String.app _)) in H. 
  apply (inj pretty) in H. lia.
Qed.

Lemma NoDup_thread_names n : NoDup (thread_name <$> seq 0 n).
Proof. apply NoDup_fmap_2; [apply _|]. apply NoDup_seq. Qed.

Lemma thread_name_fresh n : thread_name n ∉ thread_name <$> seq 0 n.
Proof.
  intros (m & Hm%(inj thread_name) & Hin)%list_elem_of_fmap. apply elem_of_seq in Hin. lia.
Qed.

Lemma stitch_empty_ok : stitch_ok [] stitch_empty.
Proof.
  split; simpl; try done.
  - intros e t. split; [done|]. intros (ms & Hin & _). by apply not_elem_of_nil in Hin.
Qed.

Lemma add_gaps_ok seen gs r : stitch_ok seen r → stitch_ok seen (add_gaps gs r).
Proof. intros []. by split. Qed.

(** The shared tail of [new] and [join]: [continues] stays sound when a fresh exchange is
    placed. *)
Lemma continues_snoc seen e t r :
  stitch_ok seen r → e ∉ seen → ∀ e' p, dget e' (continues r) = Some p →
  ∃ l1 l2, seen ++ [e] = l1 ++ e' :: l2 ∧ p ∈ l1 ∧
    dget e' (dset e t (thread_of r)) = dget p (dset e t (thread_of r)).
Proof.
  intros Hok He e' p Hc. destruct (so_continues _ _ Hok _ _ Hc) as (l1 & l2 & -> & Hp & Heq).
  exists l1, (l2 ++ [e]). rewrite <-app_assoc. split_and!; [done..|].
  rewrite !dget_dset_ne; [done|..]; intros ->; apply He; rewrite elem_of_app, elem_of_cons; tauto.
Qed.

Lemma stitch_new_ok seen e r :
  stitch_ok seen r → e ∉ seen → stitch_ok (seen ++ [e]) (stitch_new e r).
Proof.
  intros Hok He. pose proof (so_names _ _ Hok) as Hn. split; simpl.
  - rewrite fmap_app, join_app. simpl. by rewrite (so_members _ _ Hok).
  - rewrite fmap_app, length_app, Hn. simpl. rewrite Nat.add_1_r, seq_S, fmap_app. done.
  - intros e'. rewrite elem_of_dset_keys, (so_keys _ _ Hok). set_solver.
  - intros e' t. rewrite dget_dset. case_decide as Hd.
    + subst. split.
      * intros [= <-]. exists [e]. set_solver.
      * intros (ms & Hin & He'). apply elem_of_app in Hin as [Hin|Hin]; [|set_solver].
        exfalso. apply He. rewrite <-(so_members _ _ Hok). apply list_elem_of_join.
        exists ms. split; [done|]. apply list_elem_of_fmap. by exists (t, ms).
    + rewrite (so_thread _ _ Hok). split.
      * intros (ms & ? & ?). exists ms. rewrite elem_of_app. tauto.
      * intros (ms & [?|[= -> ->]%list_elem_of_singleton]%elem_of_app & Hin); [by exists ms|].
        by apply list_elem_of_singleton in Hin.
  - by apply continues_snoc.
Qed.

(** Adding [e] to one of several distinctly named threads adds it once. *)
Lemma join_members tid e (ts : list (string * list string)) :
  NoDup ts.*1 → tid ∈ ts.*1 →
  mjoin ((λ t, if decide (t.1 = tid) then (t.1, t.2 ++ [e]) else t) <$> ts).*2 ≡ₚ
    mjoin ts.*2 ++ [e].
Proof.
  induction ts as [|[t ms] ts IH]; csimpl; [set_solver|].
  rewrite NoDup_cons, elem_of_cons. intros [Ht Hnd] Hin. case_decide as Hd; simpl.
  - subst. rewrite <-!(assoc_L (++)). f_equiv. rewrite Permutation_app_comm. f_equiv.
    assert ((λ t, if decide (t.1 = tid) then (t.1, t.2 ++ [e]) else t) <$> ts = ts) as ->; [|done].
    rewrite <-(list_fmap_id ts) at 2. apply list_fmap_ext. intros i [t' ms'] Hi. simpl.
    rewrite decide_False; [done|]. intros ->. apply Ht, list_elem_of_fmap.
    exists (tid, ms'). eauto using list_elem_of_lookup_2.
  - rewrite IH, (assoc_L (++)) by naive_solver. done.
Qed.

Lemma join_lookup tid e t ms' (ts : list (string * list string)) :
  (t, ms') ∈ ((λ t, if decide (t.1 = tid) then (t.1, t.2 ++ [e]) else t) <$> ts) ↔
  ∃ ms, (t, ms) ∈ ts ∧ ms' = if decide (t = tid) then ms ++ [e] else ms.
Proof.
  rewrite list_elem_of_fmap. split.
  - intros ([t0 ms] & Heq & Hin). simpl in Heq. case_decide; simplify_eq; exists ms.
    + by rewrite decide_True.
    + by rewrite decide_False.
  - intros (ms & Hin & ->). exists (t, ms). simpl. by case_decide.
Qed.

Lemma stitch_join_ok seen e earlier c r :
  stitch_ok seen r → e ∉ seen → earlier ∈ seen →
  ∃ r', stitch_join e earlier c r = Ok r' ∧ stitch_ok (seen ++ [e]) r' ∧ gaps r' = gaps r.
Proof.
  intros Hok He Hearlier. unfold stitch_join.
  apply (so_keys _ _ Hok) in Hearlier as Hk. apply dget_is_Some in Hk as [tid Htid].
  rewrite Htid. simpl. eexists. split_and!; [done| |done].
  pose proof (so_names _ _ Hok) as Hn.
  pose proof (proj1 (so_thread _ _ Hok _ _) Htid) as (ms0 & Hms0 & Hin0).
  assert (NoDup (threads r).*1) as Hnd by (rewrite Hn; apply NoDup_thread_names).
  assert (tid ∈ (threads r).*1) as Htin by (apply list_elem_of_fmap; by exists (tid, ms0)).
  split; simpl.
  - by rewrite join_members, (so_members _ _ Hok).
  - rewrite length_fmap, <-Hn, <-list_fmap_compose. apply list_fmap_ext.
    intros i t _. simpl. by case_decide.
  - intros e'. rewrite elem_of_dset_keys, (so_keys _ _ Hok). set_solver.
  - intros e' t. setoid_rewrite join_lookup. rewrite dget_dset. case_decide as Hd.
    + subst. split.
      * intros [= <-]. exists (ms0 ++ [e]). rewrite elem_of_app, list_elem_of_singleton.
        split; [|tauto]. exists ms0. by rewrite decide_True.
      * intros (ms' & (ms & Hms & ->) & Hin). case_decide; [by subst|]. exfalso. apply He.
        rewrite <-(so_members _ _ Hok). apply list_elem_of_join. exists ms. split; [done|].
        apply list_elem_of_fmap. by exists (t, ms).
    + rewrite (so_thread _ _ Hok). split.
      * intros (ms & ? & ?). eexists. split; [by exists ms|].
        case_decide; rewrite ?elem_of_app; tauto.
      * intros (ms' & (ms & Hms & ->) & Hin). exists ms. split; [done|].
        case_decide; [|done]. apply elem_of_app in Hin as [?|?%list_elem_of_singleton]; done.
  - pose proof (continues_snoc _ _ tid _ Hok He) as Hc. destruct c; [|done].
    intros e' p. rewrite dget_dset. case_decide as Hd; [|by apply Hc].
    intros [= <-]. subst. exists seen, []. split_and!; [done..|].
    rewrite dget_dset_eq, dget_dset_ne, Htid; [done|]. by intros ->.
Qed.

(** ** Choosing a predecessor *)

Lemma best_candidate_elem view cs c : best_candidate view cs = Some c → c ∈ cs.
Proof.
  unfold best_candidate.
  assert (∀ b, foldl (best_step view) b cs = Some c → b = Some c ∨ c ∈ cs) as H.
  { induction cs as [|c' cs IH]; intros b; simpl; [auto|].
    intros [Hb|Hc]%IH; [|set_solver]. unfold best_step in Hb. case_match; set_solver. }
  intros [?|?]%H; done.
Qed.

Lemma closest_candidate_elem view cs c : closest_candidate view cs = Some c → c ∈ cs.
Proof.
  unfold closest_candidate.
  assert (∀ b, (foldl (closest_step view) b cs).1 = Some c → b.1 = Some c ∨ c ∈ cs) as H.
  { induction cs as [|c' cs IH]; intros b; simpl; [auto|].
    intros [Hb|Hc]%IH; [|set_solver]. unfold closest_step in Hb. case_decide; set_solver. }
  intros [?|?]%H; done.
Qed.

(** The state of the loop over the views: candidates and response ids name placed exchanges. *)
Definition loop_ok (seen : list StitchView)
    (s : list StitchView * list (string * string) * StitchResult) : Prop :=
  (∀ c, c ∈ s.1.1 → v_exchange_id c ∈ ids seen) ∧
  (∀ i e, dget i s.1.2 = Some e → e ∈ ids seen) ∧
  stitch_ok (ids seen) s.2.

Lemma place_ok seen view cands byr r :
  loop_ok seen (cands, byr, r) → v_exchange_id view ∉ ids seen →
  ∃ r', place view cands byr r = Ok r' ∧ stitch_ok (ids seen ++ [v_exchange_id view]) r'.
Proof.
  intros (Hc & Hb & Hok) Hv. simpl in *. unfold place.
  assert (∀ e c r, stitch_ok (ids seen) r → e ∈ ids seen →
    ∃ r', stitch_join (v_exchange_id view) e c r = Ok r' ∧
          stitch_ok (ids seen ++ [v_exchange_id view]) r') as Hjoin.
  { intros e c r' Hr' He. destruct (stitch_join_ok _ _ _ c _ Hr' Hv He) as (?&?&?&?). eauto. }
  case_match; [eauto using stitch_new_ok|].
  destruct (v_previous_response_id view) as [p|].
  - destruct (dget p byr) eqn:Hp; [eauto|]. eauto using stitch_new_ok, add_gaps_ok.
  - destruct (best_candidate view cands) as [b|] eqn:Hbest.
    { eauto using best_candidate_elem. }
    destruct (closest_candidate view cands) as [b|] eqn:Hclose; [|eauto using stitch_new_ok].
    eauto using closest_candidate_elem, add_gaps_ok.
Qed.

Lemma stitch_step_ok seen view s :
  loop_ok seen s → v_exchange_id view ∉ ids seen →
  ∃ s', stitch_step s view = Ok s' ∧ loop_ok (seen ++ [view]) s'.
Proof.
  destruct s as [[cands byr] r]. intros Hs Hv.
  destruct (place_ok _ _ _ _ _ Hs Hv) as (r' & Hr' & Hok'). destruct Hs as (Hc & Hb & _).
  unfold stitch_step. rewrite Hr'. simpl. eexists. split; [done|].
  assert (ids (seen ++ [view]) = ids seen ++ [v_exchange_id view]) as Hids.
  { unfold ids. by rewrite fmap_app. }
  unfold loop_ok. rewrite Hids. simpl in *. split_and!; [| |done].
  - intros c Hin. apply elem_of_app. case_match; [|left; auto].
    apply elem_of_app in Hin as [Hin|Hin]; [left; auto|right]. apply list_elem_of_singleton in Hin as ->. set_solver.
  - intros i e. destruct (v_response_id view) as [ri|].
    + rewrite dget_dset. case_decide; [|set_solver]. intros [= <-]. set_solver.
    + set_solver.
Qed.

Lemma stitch_loop_ok views :
  NoDup (ids views) → ∃ s, foldM stitch_step ([], [], stitch_empty) views = Ok s ∧ loop_ok views s.
Proof.
  intros Hnd. apply (foldM_inv loop_ok).
  - split_and!; [set_solver|done|apply stitch_empty_ok].
  - intros seen view rest s -> Hs. apply stitch_step_ok; [done|].
    unfold ids in *. rewrite fmap_app, fmap_cons, NoDup_app in Hnd. set_solver.
Qed.

(** *** The longest prefix wins *)

(** The candidate's continuation is a prefix of the request. *)
Definition resends (view c : StitchView) : bool :=
  bool_decide (take (length (v_continuation c)) (v_request view) = v_continuation c).

Definition shared (view c : StitchView) : nat := common_prefix (v_continuation c) (v_request view).

Lemma resends_prefix view c :
  resends view c = true ↔ v_continuation c `prefix_of` v_request view.
Proof.
  unfold resends. rewrite bool_decide_eq_true. split.
  - intros <-. apply prefix_take.
  - intros [k ->]. by rewrite take_app_length.
Qed.

(** [common_prefix] is the length of the longest common prefix. *)
Lemma common_prefix_spec l r n :
  (n ≤ common_prefix l r)%nat ↔ ∃ p, length p = n ∧ p `prefix_of` l ∧ p `prefix_of` r.
Proof.
  revert r n. induction l as [|x l IH]; intros [|y r] n; simpl.
  1-3: split; [intros; assert (n = O) as -> by lia; exists []; split_and!; auto using prefix_nil|];
    intros ([|z p] & <- & H1 & H2); simpl; try lia;
    (by apply prefix_nil_not in H1) || (by apply prefix_nil_not in H2).
  case_decide as Hxy.
  - subst. destruct n as [|n].
    { split; [|lia]. exists []. split_and!; auto using prefix_nil. }
    rewrite <-Nat.succ_le_mono, IH. split.
    + intros (p & <- & ? & ?). exists (y :: p). split_and!; auto using prefix_cons.
    + intros ([|z p] & [= <-] & H1 & H2). exists p.
      split_and!; eauto using prefix_cons_inv_2.
  - split; [intros; assert (n = O) as -> by lia; exists []; split_and!; auto using prefix_nil|].
    intros ([|z p] & <- & H1 & H2); simpl; [lia|]. exfalso.
    apply prefix_cons_inv_1 in H1, H2. congruence.
Qed.

Lemma best_candidate_eq view cs :
  best_candidate view cs = last_max (resends view) (λ c, length (v_continuation c)) cs.
Proof. reflexivity. Qed.

Lemma closest_candidate_eq view cs :
  closest_candidate view cs = last_max (λ c, (1 <=? shared view c)%nat) (shared view) cs.
Proof.
  unfold closest_candidate, last_max.
  assert (∀ b n, n = match b with Some b => shared view b | None => O end →
    (foldl (closest_step view) (b, n) cs).1 =
    foldl (last_max_step (λ c, (1 <=? shared view c)%nat) (shared view)) b cs) as H; [|by apply H].
  induction cs as [|c cs IH]; intros b n Hn; simpl; [done|].
  unfold closest_step at 2, last_max_step at 2. fold (shared view c). simpl.
  destruct (1 <=? shared view c)%nat eqn:H1; simpl.
  - apply Nat.leb_le in H1. destruct b as [b|]; subst n; simpl.
    + destruct (shared view b <=? shared view c)%nat eqn:H2.
      * apply Nat.leb_le in H2. rewrite decide_True by lia. by apply IH.
      * apply Nat.leb_gt in H2. rewrite decide_False by lia. by apply IH.
    + rewrite decide_True by lia. by apply IH.
  - apply Nat.leb_gt in H1. rewrite decide_False by lia. by apply IH.
Qed.

Lemma stitch_join_inv e earlier c r r' :
  stitch_join e earlier c r = Ok r' →
  gaps r' = gaps r ∧ length (threads r') = length (threads r) ∧
  continues r' = (if c then dset e earlier (continues r) else continues r) ∧
  dget e (thread_of r') = dget earlier (thread_of r).
Proof.
  unfold stitch_join. destruct (dget earlier (thread_of r)) as [tid|] eqn:Ht; simpl; [|done].
  intros [= <-]. simpl. rewrite length_fmap, dget_dset_eq. done.
Qed.

(** An ordinary exchange continues the earlier exchange whose continuation is the longest
    prefix of its request (the latest such on a tie) without reporting anything; when no
    continuation is a prefix but one shares at least its first digest, the exchange joins the
    thread of the one sharing most and a rewritten history is reported, and not as a
    continuation; otherwise it opens a new thread. *)
Theorem place_longest_prefix view candidates by_response_id r r' :
  v_parsed view = true → v_api view ≠ embeddings → v_previous_response_id view = None →
  place view candidates by_response_id r = Ok r' →
  let e := v_exchange_id view in
  (∃ c, is_last_max (resends view) (λ c, length (v_continuation c)) candidates c ∧
        dget e (continues r') = Some (v_exchange_id c) ∧ gaps r' = gaps r) ∨
  ((∀ c, c ∈ candidates → ¬ v_continuation c `prefix_of` v_request view) ∧
   ((∃ c, is_last_max (λ c, (1 <=? shared view c)%nat) (shared view) candidates c ∧
          dget e (thread_of r') = dget (v_exchange_id c) (thread_of r) ∧
          continues r' = continues r ∧ gaps r' = gaps r ++ [gap_prefix_break view]) ∨
    ((∀ c, c ∈ candidates → shared view c = 0%nat) ∧
     threads r' = threads r ++ [(thread_name (length (threads r)), [e])] ∧
     gaps r' = gaps r ∧ continues r' = continues r))).
Proof.
  intros Hp Ha Hprev Hplace e. subst e. unfold place in Hplace.
  rewrite Hp, bool_decide_false, Hprev in Hplace by done. simpl in Hplace.
  rewrite best_candidate_eq in Hplace.
  pose proof (last_max_spec (resends view) (λ c, length (v_continuation c)) candidates) as Hbest.
  destruct (last_max _ _ _) as [c|].
  { left. exists c. apply stitch_join_inv in Hplace as (? & _ & -> & _).
    by rewrite dget_dset_eq. }
  right. split.
  { intros c Hc%Hbest Hpre%resends_prefix. congruence. }
  rewrite closest_candidate_eq in Hplace.
  pose proof (last_max_spec (λ c, (1 <=? shared view c)%nat) (shared view) candidates) as Hclose.
  destruct (last_max _ _ _) as [c|].
  - left. exists c. apply stitch_join_inv in Hplace as (-> & _ & -> & ->). done.
  - right. injection Hplace as <-. split; [|done].
    intros c Hc%Hclose. apply Nat.leb_gt in Hc. lia.
Qed.

(** C1: stitching a run of distinct exchanges never raises, puts every exchange in exactly one
    thread, numbers the threads in order of appearance, keeps [thread_of] in agreement with
    the thread lists, and only ever continues an earlier exchange of the same thread. *)
Theorem stitch_run_partitions (views : list StitchView) :
  NoDup (ids views) →
  ∃ r, stitch_run views = Ok r ∧
    mjoin (threads r).*2 ≡ₚ ids views ∧
    (threads r).*1 = thread_name <$> seq 0 (length (threads r)) ∧
    (∀ e t, dget e (thread_of r) = Some t ↔ ∃ ms, (t, ms) ∈ threads r ∧ e ∈ ms) ∧
    (∀ e p, dget e (continues r) = Some p →
       ∃ l1 l2, ids views = l1 ++ e :: l2 ∧ p ∈ l1 ∧
                dget e (thread_of r) = dget p (thread_of r)).
Proof.
  intros Hnd. destruct (stitch_loop_ok views Hnd) as (s & Hs & _ & _ & Hok).
  unfold stitch_run. rewrite Hs. simpl. eexists. split; [done|].
  by destruct (add_gaps_ok _ (tool_call_gaps views) _ Hok).
Qed.

(** ** Tool-call matching *)

(** No exchange of [seen] satisfies [P]. *)
Definition none (P : StitchView → Prop) (seen : list StitchView) : Prop := ∀ w, w ∈ seen → ¬ P w.

(** The declarative reading of the two reports. *)
Definition consumed_unknown (g : Gap) (seen : list StitchView) (v : StitchView) : Prop :=
  ∃ call, call ∈ v_consumed v ∧ none (λ w, call ∈ v_emitted w) seen ∧
    none (λ w, call ∈ v_consumed w) seen ∧ none (λ w, v_parsed w = false) seen ∧
    g = gap_consumed (bool_decide (seen = [])) v call.

Definition first_emits (call e : string) (seen : list StitchView) (v : StitchView) : Prop :=
  call ∈ v_emitted v ∧ none (λ w, call ∈ v_emitted w) seen ∧ e = v_exchange_id v.

Definition answers (call : string) (seen : list StitchView) (v : StitchView) : Prop :=
  call ∈ v_consumed v ∧ ∃ w, w ∈ seen ∧ call ∈ v_emitted w.

Lemma calls_run_snoc views v :
  calls_run (views ++ [v]) = calls_step (bool_decide (views = [])) (calls_run views) v.
Proof. destruct views as [|w views]; [done|]. simpl. by rewrite foldl_app. Qed.

(** Consuming the ids of one exchange. *)
Lemma consume_fold first view calls s :
  let s' := foldl (consume_step first view) s calls in
  c_emitted s' = c_emitted s ∧ c_carried s' = c_carried s ∧ c_blind s' = c_blind s ∧
  (∀ x, x ∈ c_matched s' ↔ x ∈ c_matched s ∨ (x ∈ calls ∧ x ∈ (c_emitted s).*1)) ∧
  (∀ g, g ∈ c_gaps s' ↔ g ∈ c_gaps s ∨
     ∃ call, call ∈ calls ∧ call ∉ (c_emitted s).*1 ∧ call ∉ c_carried s ∧
             c_blind s = false ∧ g = gap_consumed first view call).
Proof.
  revert s. induction calls as [|call calls IH]; intros s; simpl.
  { split_and!; try done; set_solver. }
  destruct (IH (consume_step first view s call)) as (-> & -> & -> & Hm & Hg).
  clear IH. unfold consume_step in *. destruct (din call (c_emitted s)) eqn:Hd; simpl in *.
  - apply din_true in Hd. split_and!; [done..| |].
    + intros x. rewrite Hm, elem_of_union, elem_of_singleton, elem_of_cons. clear -Hd.
      split; [|tauto]. intros [[->|?]|?]; tauto.
    + intros g. rewrite Hg. clear -Hd. setoid_rewrite elem_of_cons. f_equiv.
      split; intros (c & Hc & ? & Hrest); exists c; [tauto|].
      destruct Hc as [->|?]; [done|tauto].
  - apply din_false in Hd.
    destruct (bool_decide (call ∉ c_carried s) && negb (c_blind s)) eqn:Hb; simpl in *; to_prop.
    + split_and!; [done..| |].
      * intros x. rewrite Hm, elem_of_cons. clear -Hd. split; [tauto|].
        intros [?|[[->|?] ?]]; [tauto|done|tauto].
      * intros g. rewrite Hg, elem_of_app, list_elem_of_singleton. clear Hm Hg.
        setoid_rewrite elem_of_cons. split.
        -- intros [[?| ->]|(c & ? & ?)]; [by left|right; exists call; tauto|].
           right. exists c. tauto.
        -- intros [?|(c & [->|?] & ? & ? & ? & ?)]; [tauto|tauto|]. right. exists c. tauto.
    + split_and!; [done..| |].
      * intros x. rewrite Hm, elem_of_cons. clear -Hd. split; [tauto|].
        intros [?|[[->|?] ?]]; [tauto|done|tauto].
      * intros g. rewrite Hg. clear Hm Hg. setoid_rewrite elem_of_cons. f_equiv.
        split; intros (c & Hc & ? & ? & ? & ?); exists c; [tauto|].
        destruct Hc as [->|?]; [|tauto]. destruct Hb; to_prop; [done|congruence].
Qed.

Lemma emit_fold (e : string) calls (d : list (string * string)) call e' :
  dget call (foldl (λ d call, dsetdefault call e d) d calls) = Some e' ↔
  dget call d = Some e' ∨ (dget call d = None ∧ call ∈ calls ∧ e' = e).
Proof.
  revert d. induction calls as [|c calls IH]; intros d; simpl; [set_solver|].
  rewrite IH, dget_dsetdefault. destruct (dget call d) eqn:Hd; [naive_solver|].
  case_decide; set_solver.
Qed.

Lemma emit_fold_NoDup e calls (d : list (string * string)) :
  NoDup d.*1 → NoDup (foldl (λ d call, dsetdefault call e d) d calls).*1.
Proof.
  revert d. induction calls as [|c calls IH]; intros d Hd; simpl; [done|].
  by apply IH, NoDup_dsetdefault.
Qed.

Record calls_ok (views : list StitchView) (s : CallState) : Prop := {
  co_gaps : ∀ g, g ∈ c_gaps s ↔ occurs (consumed_unknown g) views;
  co_emitted : ∀ call e, dget call (c_emitted s) = Some e ↔ occurs (first_emits call e) views;
  co_nodup : NoDup (c_emitted s).*1;
  co_carried : ∀ call, call ∈ c_carried s ↔ ∃ w, w ∈ views ∧ call ∈ v_consumed w;
  co_matched : ∀ call, call ∈ c_matched s ↔ occurs (answers call) views;
  co_blind : c_blind s = false ↔ none (λ w, v_parsed w = false) views;
}.

(** The first exchange that emits a call, when one does. *)
Lemma first_emitter call views :
  (∃ w, w ∈ views ∧ call ∈ v_emitted w) ↔ ∃ e, occurs (first_emits call e) views.
Proof.
  induction views as [|v views IH] using rev_ind.
  { split; [set_solver|]. intros [e H]. by apply occurs_nil in H. }
  setoid_rewrite occurs_snoc. split.
  - intros (w & Hw & Hc). 
      destruct (decide (Exists (λ w, call ∈ v_emitted w) views)) as [Hex|Hno];
        rewrite Exists_exists in *.
    + apply IH in Hex as [e He]. eauto.
    + exists (v_exchange_id v). right. split_and!; [|intros ???; apply Hno; eauto|done].
      apply elem_of_app in Hw as [Hw|Hw]; [exfalso; eauto|].
      by apply list_elem_of_singleton in Hw as ->.
  - intros [e [He|(? & _)]].
    + destruct (proj2 IH) as (w & ? & ?); [eauto|]. exists w. set_solver.
    + exists v. set_solver.
Qed.

Lemma emitted_keys views s call :
  calls_ok views s →
  call ∈ (c_emitted s).*1 ↔ ∃ w, w ∈ views ∧ call ∈ v_emitted w.
Proof.
  intros Hok. rewrite first_emitter, <-dget_is_Some. unfold is_Some.
  by setoid_rewrite (co_emitted _ _ Hok).
Qed.

Lemma none_not (P : StitchView → Prop) seen : none P seen ↔ ¬ ∃ w, w ∈ seen ∧ P w.
Proof. unfold none. naive_solver. Qed.

Lemma calls_step_ok views s v :
  calls_ok views s → calls_ok (views ++ [v]) (calls_step (bool_decide (views = [])) s v).
Proof.
  intros Hok. unfold calls_step.
  destruct (consume_fold (bool_decide (views = [])) v (v_consumed v) s) as (He & Hc & Hb & Hm & Hg).
  pose proof (λ c, emitted_keys _ _ c Hok) as Hkeys.
  split; simpl; rewrite ?He, ?Hc, ?Hb.
  - intros g. rewrite Hg, occurs_snoc, (co_gaps _ _ Hok). f_equiv. unfold consumed_unknown.
    split; intros (call & Hin & H1 & H2 & H3 & ->); exists call; (split_and!; [done|..|done]).
    + by rewrite none_not, <-Hkeys.
    + by rewrite none_not, <-(co_carried _ _ Hok).
    + by apply (co_blind _ _ Hok).
    + by rewrite Hkeys, <-none_not.
    + by rewrite (co_carried _ _ Hok), <-none_not.
    + by apply (co_blind _ _ Hok).
  - intros call e. rewrite emit_fold, occurs_snoc, (co_emitted _ _ Hok).
    rewrite dget_None, Hkeys, <-none_not. unfold first_emits. naive_solver.
  - apply emit_fold_NoDup, (co_nodup _ _ Hok).
  - intros call. rewrite elem_of_union, elem_of_list_to_set, (co_carried _ _ Hok).
    setoid_rewrite elem_of_app. setoid_rewrite list_elem_of_singleton. naive_solver.
  - intros call. rewrite Hm, occurs_snoc, (co_matched _ _ Hok), Hkeys. done.
  - rewrite orb_false_iff, negb_false_iff, (co_blind _ _ Hok). unfold none.
    setoid_rewrite elem_of_app. setoid_rewrite list_elem_of_singleton.
    split; [|intros H; split; [naive_solver|]].
    + intros [? ?] w [?| ->]; [eauto|congruence].
    + apply not_false_iff_true, H. by right.
Qed.

Lemma calls_run_ok views : calls_ok views (calls_run views).
Proof.
  induction views as [|v views IH] using rev_ind.
  - split; simpl; try apply NoDup_nil_2; intros; try set_solver.
    all: split; [try set_solver; done|intros H; by apply occurs_nil in H].
  - rewrite calls_run_snoc. by apply calls_step_ok.
Qed.

(** The tool-call report says exactly what it means: one gap for each consumed id that no
    earlier exchange emitted or consumed (unless an earlier exchange could not be parsed),
    blaming the start of the run only on its first exchange, and one informational gap for
    each emitted id, on its first emitter, that no later exchange consumed. *)
Theorem tool_call_gaps_exact (views : list StitchView) (g : Gap) :
  g ∈ tool_call_gaps views ↔
    occurs (consumed_unknown g) views ∨
    ∃ call e, occurs (first_emits call e) views ∧ ¬ occurs (answers call) views ∧
              g = gap_unmatched info e call "emitted_not_consumed".
Proof.
  pose proof (calls_run_ok views) as Hok. unfold tool_call_gaps.
  rewrite elem_of_app, (co_gaps _ _ Hok), list_elem_of_fmap. f_equiv. split.
  - intros ([call e] & -> & [Hm Hin]%list_elem_of_filter). simpl in *. exists call, e.
    apply (elem_dget _ _ _ (co_nodup _ _ Hok)) in Hin.
    rewrite <-(co_emitted _ _ Hok), <-(co_matched _ _ Hok). done.
  - intros (call & e & He & Hm & ->). exists (call, e). split; [done|].
    apply list_elem_of_filter. rewrite (co_matched _ _ Hok). split; [done|].
    by apply dget_Some_elem, (co_emitted _ _ Hok).
Qed.

(** ** A concrete run

    A first call, its continuation with the tool result, and a call that rewrote history. *)
Definition sample_view (e : string) (req cont consumed emitted : list string) : StitchView :=
  mkView e "openai.chat_completions" true req cont consumed emitted None None.

Definition sample_views : list StitchView :=
  [sample_view "x1" ["u1"] ["u1"; "a1"] [] ["t1"];
   sample_view "x2" ["u1"; "a1"; "r1"] ["u1"; "a1"; "r1"; "a2"] ["t1"] ["t2"];
   sample_view "x3" ["u1"; "edited"] ["u1"; "edited"; "a3"] ["t9"] []].

Example sample_run :
  stitch_run sample_views = Ok (mkStitch
    [("thread-0", ["x1"; "x2"; "x3"])] [("x2", "x1")]
    [("x1", "thread-0"); ("x2", "thread-0"); ("x3", "thread-0")]
    [gap_prefix_break (sample_view "x3" [] [] [] []);
     gap_unmatched partial "x3" "t9" "consumed_not_emitted";
     gap_unmatched info "x2" "t2" "emitted_not_consumed"]).
Proof. vm_compute. reflexivity. Qed.

Lemma stitch_run_partitions_witness :
  NoDup (ids sample_views) ∧ ∃ r, stitch_run sample_views = Ok r ∧
    mjoin (threads r).*2 ≡ₚ ["x1"; "x2"; "x3"].
Proof.
  assert (NoDup (ids sample_views)) as Hnd by (apply (bool_decide_unpack _); vm_compute; exact I).
  split; [exact Hnd|].
  destruct (stitch_run_partitions sample_views Hnd) as (r & Hr & Hm & _).
  exists r. split; [exact Hr|exact Hm].
Defined.

Lemma place_longest_prefix_witness :
  let x1 := sample_view "x1" ["u1"] ["u1"; "a1"] [] ["t1"] in
  let x2 := sample_view "x2" ["u1"; "a1"; "r1"] [] ["t1"] [] in
  let r := stitch_new "x1" stitch_empty in
  ∃ r', place x2 [x1] [] r = Ok r' ∧
    ((∃ c, is_last_max (resends x2) (λ c, length (v_continuation c)) [x1] c ∧
        dget "x2" (continues r') = Some (v_exchange_id c) ∧ gaps r' = gaps r) ∨
     ((∀ c, c ∈ [x1] → ¬ v_continuation c `prefix_of` v_request x2) ∧ True)).
Proof.
  intros x1 x2 r. eexists. split; [vm_compute; reflexivity|].
  destruct (place_longest_prefix x2 [x1] [] r _ eq_refl ltac:(vm_compute; discriminate) eq_refl
              ltac:(vm_compute; reflexivity)) as [H|[H _]]; [by left|by right].
Qed.
