(* ===== verification/Decimal.v ===== *)
(** * Decimal integers

    [str(n)] and [int(s)] on the canonical decimals the entry and token grammars accept, and
    the proof that they are inverse to each other. *)

From S2P Require Import Prelude Hash.

(** [[0-9]] *)
Definition in_range (lo hi : Z) (c : ascii) : bool :=
  let n := byte_of_ascii c in (lo <=? n) && (n <=? hi).
Definition is_dec (c : ascii) : bool := in_range 48 57 c.

Definition digit_N (c : ascii) : N := (N_of_ascii c - 48)%N.

Fixpoint dec_acc (a : N) (s : string) : N :=
  match s with "" => a | String c s => dec_acc (10 * a + digit_N c) s end.

(** [int(s)] on a string of digits. *)
Definition dec_value (s : string) : Z := Z.of_N (dec_acc 0 s).

(** [[1-9][0-9]{0,k}] *)
Definition pos_dec (k : nat) (s : string) : bool :=
  match s with
  | "" => false
  | String c rest => in_range 49 57 c && all_chars is_dec rest && (String.length rest <=? k)%nat
  end.

(** [0|[1-9][0-9]{0,k}] *)
Definition nat_dec (k : nat) (s : string) : bool := bool_decide (s = "0") || pos_dec k s.

(** A decidable fact about the 256 characters, checked on each. *)
Lemma char_all (p : ascii → bool) :
  forallb (λ n, p (ascii_of_byte n)) (seqZ 0 256) = true → ∀ c, p c = true.
Proof.
  rewrite forallb_elem_of. intros H c. rewrite <-(ascii_of_byte_of_ascii c).
  apply H, elem_of_seqZ. pose proof (byte_of_ascii_range c) as Hr. unfold is_byte in Hr. lia.
Qed.

(** One class of characters is within another. *)
Lemma char_implies (p q : ascii → bool) :
  forallb (λ n, implb (p (ascii_of_byte n)) (q (ascii_of_byte n))) (seqZ 0 256) = true →
  ∀ c, p c = true → q c = true.
Proof.
  intros H c Hc. pose proof (char_all (λ c, implb (p c) (q c)) H c) as Hi.
  simpl in Hi. by rewrite Hc in Hi.
Qed.

Lemma all_chars_app p s t : all_chars p (s +:+ t) = all_chars p s && all_chars p t.
Proof.
  unfold all_chars. induction s as [|c s IH]; simpl; [done|]. by rewrite IH, andb_assoc.
Qed.

Lemma all_chars_mono (p q : ascii → bool) s :
  (∀ c, p c = true → q c = true) → all_chars p s = true → all_chars q s = true.
Proof.
  intros Hpq. unfold all_chars. rewrite !forallb_elem_of. eauto.
Qed.

Lemma digit_N_lt c : is_dec c = true → (digit_N c < 10)%N.
Proof.
  intros Hc. apply N.ltb_lt. revert c Hc. apply char_implies. vm_compute. reflexivity.
Qed.

Lemma pretty_digit c : is_dec c = true → pretty_N_char (digit_N c) = c.
Proof.
  intros Hc. apply (bool_decide_eq_true_1 (pretty_N_char (digit_N c) = c)).
  revert c Hc. apply char_implies. vm_compute. reflexivity.
Qed.

Lemma digit_pretty_all d :
  (d < 10)%N → digit_N (pretty_N_char d) = d ∧ is_dec (pretty_N_char d) = true.
Proof.
  intros Hd.
  assert (d = 0 ∨ d = 1 ∨ d = 2 ∨ d = 3 ∨ d = 4 ∨ d = 5 ∨ d = 6 ∨ d = 7 ∨ d = 8 ∨ d = 9)%N
    as Hin by lia.
  by destruct_or! Hin; subst d.
Qed.

Lemma digit_pretty d : (d < 10)%N → digit_N (pretty_N_char d) = d.
Proof. intros. by apply digit_pretty_all. Qed.

(** ** Printing then reading *)

Lemma dec_acc_go x s : dec_acc 0 (pretty_N_go x s) = dec_acc x s.
Proof.
  revert s. induction (N.lt_wf_0 x) as [x _ IH]; intros s.
  destruct (decide (x = 0)%N) as [->|Hx]; [by rewrite pretty_N_go_0|].
  rewrite pretty_N_go_step by lia. rewrite IH by (apply N.div_lt; lia). simpl.
  rewrite digit_pretty by (by apply N.mod_lt). by rewrite <-N.div_mod.
Qed.

Lemma go_digits x s :
  all_chars is_dec s = true → all_chars is_dec (pretty_N_go x s) = true.
Proof.
  revert s. induction (N.lt_wf_0 x) as [x _ IH]; intros s Hs.
  destruct (decide (x = 0)%N) as [->|Hx]; [by rewrite pretty_N_go_0|].
  rewrite pretty_N_go_step by lia. apply IH; [apply N.div_lt; lia|].
  unfold all_chars in *. simpl. rewrite Hs, andb_true_r.
  apply digit_pretty_all. by apply N.mod_lt.
Qed.

Lemma go_first x s :
  (0 < x)%N → ∃ c r, pretty_N_go x s = String c r ∧ in_range 49 57 c = true.
Proof.
  revert s. induction (N.lt_wf_0 x) as [x _ IH]; intros s Hx.
  rewrite pretty_N_go_step by lia. destruct (decide (x < 10)%N) as [Hlt|Hge].
  - rewrite N.div_small, pretty_N_go_0, N.mod_small by lia. eexists _, _. split; [done|].
    assert (x = 1 ∨ x = 2 ∨ x = 3 ∨ x = 4 ∨ x = 5 ∨ x = 6 ∨ x = 7 ∨ x = 8 ∨ x = 9)%N
      as Hin by lia.
    by destruct_or! Hin; subst x.
  - apply IH; [apply N.div_lt; lia|]. apply N.div_str_pos. lia.
Qed.

Lemma go_length x s k :
  (x < 10 ^ N.of_nat k)%N → (String.length (pretty_N_go x s) ≤ k + String.length s)%nat.
Proof.
  revert x s. induction k as [|k IH]; intros x s Hx.
  { assert (x = 0)%N as -> by (simpl in Hx; lia). by rewrite pretty_N_go_0. }
  destruct (decide (x = 0)%N) as [->|Hx0]; [rewrite pretty_N_go_0; lia|].
  rewrite pretty_N_go_step by lia. etrans; [apply IH|simpl; lia].
  rewrite Nat2N.inj_succ, N.pow_succ_r' in Hx. apply N.Div0.div_lt_upper_bound. lia.
Qed.

Lemma dec_value_pretty z : 0 ≤ z → dec_value (pretty z) = z.
Proof.
  intros Hz. unfold dec_value. destruct z as [|p|p]; [done| |lia].
  change (Z.of_N (dec_acc 0 (pretty_N_go (Npos p) "")) = Zpos p). by rewrite dec_acc_go.
Qed.

Lemma pos_dec_pretty k z : 0 < z < 10 ^ (Z.of_nat k + 1) → pos_dec k (pretty z) = true.
Proof.
  intros [Hz Hk]. destruct z as [|p|p]; [lia| |lia].
  change (pretty (Zpos p)) with (pretty_N_go (Npos p) "").
  pose proof (go_digits (Npos p) "" eq_refl) as Hd.
  assert (Npos p < 10 ^ N.of_nat (S k))%N as Hlt.
  { apply N2Z.inj_lt. rewrite N2Z.inj_pow.
    by replace (Z.of_N (N.of_nat (S k))) with (Z.of_nat k + 1) by lia. }
  pose proof (go_length _ "" _ Hlt) as Hl.
  destruct (go_first (Npos p) "") as (c & r & E & Hc); [done|]. rewrite E in Hd, Hl |- *.
  unfold all_chars in Hd. simpl in Hd, Hl |- *. apply andb_true_iff in Hd as [_ Hd].
  rewrite Hc. unfold all_chars. rewrite Hd. simpl. apply Nat.leb_le. lia.
Qed.

(** ** Reading then printing *)

Lemma go_dec_acc a s t :
  (0 < a)%N → all_chars is_dec s = true → pretty_N_go (dec_acc a s) t = pretty_N_go a (s +:+ t).
Proof.
  revert a t. induction s as [|c s IH]; intros a t Ha Hs; [done|].
  unfold all_chars in Hs. simpl in *. to_prop.
  pose proof (digit_N_lt c ltac:(done)). rewrite IH by (done || lia).
  rewrite pretty_N_go_step by lia. rewrite N.mul_comm.
  rewrite N.div_add_l, N.div_small, N.add_0_r by lia.
  rewrite N.add_comm, N.Div0.mod_add, N.mod_small by lia. by rewrite pretty_digit.
Qed.

Lemma string_app_nil s : s +:+ "" = s.
Proof. induction s as [|c s IH]; simpl; [done|]. by rewrite IH. Qed.

Lemma is_dec_pos c : in_range 49 57 c = true → is_dec c = true.
Proof. apply char_implies. vm_compute. reflexivity. Qed.

Lemma pos_dec_digit c : in_range 49 57 c = true → (0 < digit_N c)%N.
Proof. intros Hc. apply N.ltb_lt. revert c Hc. apply char_implies. vm_compute. reflexivity. Qed.

Lemma dec_acc_ge a s : (a ≤ dec_acc a s)%N.
Proof. revert a. induction s as [|c s IH]; intros a; simpl; [lia|]. etrans; [|apply IH]. lia. Qed.

Lemma pos_dec_digits k s : pos_dec k s = true → all_chars is_dec s = true.
Proof.
  destruct s as [|c s]; [done|]. simpl. intros H. to_prop. unfold all_chars. simpl.
  apply andb_true_iff. split; [|done]. by apply is_dec_pos.
Qed.

Lemma pos_dec_value k s : pos_dec k s = true → 0 < dec_value s ∧ pretty (dec_value s) = s.
Proof.
  destruct s as [|c s]; simpl; [done|]. intros H. to_prop.
  pose proof (pos_dec_digit c ltac:(done)) as Hc.
  assert (0 < dec_acc (digit_N c) s)%N as Hpos by (pose proof (dec_acc_ge (digit_N c) s); lia).
  assert (dec_value (String c s) = Z.of_N (dec_acc (digit_N c) s)) as -> by done.
  split; [lia|].
  transitivity (pretty_N_go (dec_acc (digit_N c) s) "").
  { destruct (dec_acc (digit_N c) s); [lia|done]. }
  rewrite go_dec_acc by done. rewrite string_app_nil.
  pose proof (digit_N_lt c (is_dec_pos c ltac:(done))).
  rewrite pretty_N_go_step, N.div_small, pretty_N_go_0, N.mod_small by lia.
  by rewrite pretty_digit by (by apply is_dec_pos).
Qed.

Lemma pow10_pos k : (0 < 10 ^ N.of_nat k)%N.
Proof. apply N.neq_0_lt_0, N.pow_nonzero. done. Qed.

Lemma dec_acc_bound a s k :
  all_chars is_dec s = true → (String.length s ≤ k)%nat →
  (dec_acc a s < (a + 1) * 10 ^ N.of_nat k)%N.
Proof.
  revert a k. induction s as [|c s IH]; intros a k Hs Hk; simpl.
  - pose proof (pow10_pos k). nia.
  - unfold all_chars in Hs. simpl in *. to_prop. destruct k as [|k]; [lia|].
    eapply N.lt_le_trans; [apply (IH _ k); [done|lia]|].
    pose proof (digit_N_lt c ltac:(done)). rewrite Nat2N.inj_succ, N.pow_succ_r'.
    pose proof (pow10_pos k). nia.
Qed.

Lemma pos_dec_bound k s : pos_dec k s = true → dec_value s < 10 ^ (Z.of_nat k + 1).
Proof.
  destruct s as [|c s]; simpl; [done|]. intros H. to_prop.
  match goal with H : (_ <=? _)%nat = true |- _ => apply Nat.leb_le in H as Hl end.
  pose proof (digit_N_lt c (is_dec_pos c ltac:(done))).
  assert (dec_value (String c s) = Z.of_N (dec_acc (digit_N c) s)) as -> by done.
  pose proof (dec_acc_bound (digit_N c) s k ltac:(done) Hl) as Hb.
  rewrite Z.pow_add_r by lia. apply N2Z.inj_lt in Hb.
  rewrite N2Z.inj_mul, N2Z.inj_pow in Hb.
  replace (Z.of_N (N.of_nat k)) with (Z.of_nat k) in Hb by lia.
  assert (0 < 10 ^ Z.of_nat k) by (apply Z.pow_pos_nonneg; lia). simpl in Hb. nia.
Qed.
