(* ===== verification/Canonical.v ===== *)
(** * Canonical JSON is exact

    [canonical_bytes] and [_no_floats] of [fabric/_seal.py]. Two float-free documents have
    the same canonical bytes exactly when they are equal up to the order of object keys:
    the bytes that are hashed determine the document. *)

From S2P Require Import Prelude PyDict Hash Json Decimal.

(** ** The functions *)

(** [_no_floats], [false] where it raises. *)
Fixpoint no_floats (v : json) : bool :=
  match v with
  | JFloat _ => false
  | JArr l => forallb no_floats l
  | JObj l => forallb (λ p, no_floats p.2) l
  | _ => true
  end.

Definition canonical_bytes (v : json) : result (list Z) :=
  if no_floats v then Ok (encode (dumps v)) else Raise ValueError.

(** ** Documents up to the order of keys *)

Fixpoint canon (v : json) : json :=
  match v with
  | JArr l => JArr (canon <$> l)
  | JObj l => JObj (py_sort key_leb ((λ p, (p.1, canon p.2)) <$> l))
  | _ => v
  end.

Lemma sort_keys_fmap {A B} (f : A → B) (l : list (string * A)) :
  py_sort key_leb ((λ p, (p.1, f p.2)) <$> l) = (λ p, (p.1, f p.2)) <$> py_sort key_leb l.
Proof. by apply py_sort_fmap. Qed.

Lemma dumps_obj l :
  dumps (JObj l) =
    "{" +:+ join_comma ((λ p, obj_item (p.1, dumps p.2)) <$> py_sort key_leb l) +:+ "}".
Proof. simpl. rewrite sort_keys_fmap, <-list_fmap_compose. done. Qed.

(** Writing depends only on the document up to key order. *)
Lemma dumps_canon v : dumps (canon v) = dumps v.
Proof.
  induction v as [| | | | |l IH|l IH] using json_nested_ind; try done.
  - simpl. do 3 f_equal. rewrite <-list_fmap_compose. by apply Forall_fmap_ext_1.
  - cbn [canon]. rewrite !dumps_obj, py_sort_idemp, sort_keys_fmap, <-list_fmap_compose by apply _.
    do 3 f_equal. apply Forall_fmap_ext_1. rewrite Forall_forall in IH |- *.
    intros p Hp. apply elem_of_py_sort in Hp. simpl. by rewrite IH.
Qed.

(** ** Reading back: strings *)

Definition first_is (p : ascii → bool) (s : string) : bool :=
  match s with "" => false | String c _ => p c end.

(** [escape_char] read backwards. *)
Definition unescape_char (s : string) : option (ascii * string) :=
  match s with
  | String c r =>
      let n := byte_of_ascii c in
      if n =? 34 then None
      else if n =? 92 then
        match r with
        | String d r =>
            let m := byte_of_ascii d in
            if m =? 117 then
              match r with
              | String _ (String _ (String a (String b r))) =>
                  x ← hex_value a; y ← hex_value b; Some (ascii_of_byte (16 * x + y), r)
              | _ => None
              end
            else if m =? 98 then Some (ascii_of_byte 8, r)
            else if m =? 116 then Some (ascii_of_byte 9, r)
            else if m =? 110 then Some (ascii_of_byte 10, r)
            else if m =? 102 then Some (ascii_of_byte 12, r)
            else if m =? 114 then Some (ascii_of_byte 13, r)
            else Some (d, r)
        | "" => None
        end
      else Some (c, r)
  | "" => None
  end.

Lemma unescape_escape c r : unescape_char (escape_char c +:+ r) = Some (c, r).
Proof. destruct c as [[] [] [] [] [] [] [] []]; reflexivity. Qed.

Lemma unescape_quote r : unescape_char (dquote +:+ r) = None.
Proof. reflexivity. Qed.

Lemma escape_inj s t r r' :
  escape s +:+ dquote +:+ r = escape t +:+ dquote +:+ r' → s = t ∧ r = r'.
Proof.
  revert t. induction s as [|c s IH]; intros [|d t] H; simpl escape in H;
    rewrite ?string_app_assoc in H.
  - split; [done|]. by injection H.
  - apply (f_equal unescape_char) in H. by rewrite unescape_escape in H.
  - apply (f_equal unescape_char) in H. by rewrite unescape_escape in H.
  - apply (f_equal unescape_char) in H. rewrite !unescape_escape in H. injection H as -> H.
    by apply IH in H as [-> ->].
Qed.

Lemma quote_inj s t r r' : quote s +:+ r = quote t +:+ r' → s = t ∧ r = r'.
Proof.
  unfold quote. rewrite !string_app_assoc. intros H. injection H as H. by apply escape_inj.
Qed.

(** ** Reading back: numbers *)

Definition is_num (c : ascii) : bool := is_dec c || bool_decide (c = "-"%char).

(** Nothing of a number is left at the front. *)
Definition ends (s : string) : Prop := first_is is_num s = false.

Lemma span_inj (p : ascii → bool) s t r r' :
  all_chars p s = true → all_chars p t = true →
  first_is p r = false → first_is p r' = false →
  s +:+ r = t +:+ r' → s = t ∧ r = r'.
Proof.
  unfold all_chars. revert t.
  induction s as [|c s IH]; intros [|d t] Hs Ht Hr Hr' H; simpl in *; to_prop.
  - done.
  - subst r. simpl in Hr. congruence.
  - subst r'. simpl in Hr'. congruence.
  - injection H as -> H. by destruct (IH t) as [-> ->].
Qed.

Lemma is_dec_num c : is_dec c = true → is_num c = true.
Proof. unfold is_num. by intros ->. Qed.

Lemma pretty_num (z : Z) : all_chars is_num (pretty z) = true ∧ first_is is_num (pretty z) = true.
Proof.
  assert (∀ p, all_chars is_num (pretty_N_go (Npos p) "") = true ∧
               first_is is_num (pretty_N_go (Npos p) "") = true) as Hpos.
  { intros p. split.
    - eapply all_chars_mono; [apply is_dec_num|]. by apply go_digits.
    - destruct (go_first (Npos p) "") as (c & r & -> & Hc); [done|]. simpl.
      by apply is_dec_num, is_dec_pos. }
  destruct z as [|p|p]; [done|apply Hpos|].
  change (pretty (Zneg p)) with ("-" +:+ pretty_N_go (Npos p) ""). split; [|done].
  unfold all_chars. simpl. apply Hpos.
Qed.

Lemma pretty_Z_inj (z z' : Z) r r' :
  ends r → ends r' → pretty z +:+ r = pretty z' +:+ r' → z = z' ∧ r = r'.
Proof.
  intros Hr Hr' H. apply (span_inj is_num) in H as [H ->]; try apply pretty_num; try done.
  split; [|done]. by apply (inj pretty).
Qed.

(** ** Reading back: documents *)

(** What the first character of a document says of it. *)
Definition tag_of (v : json) : Z :=
  match v with
  | JNull => 1 | JBool true => 2 | JBool false => 3 | JStr _ => 4 | JArr _ => 5 | JObj _ => 6
  | _ => 0
  end.

Definition tag_char (c : ascii) : Z :=
  let n := byte_of_ascii c in
  if is_num c then 0 else if n =? 110 then 1 else if n =? 116 then 2 else if n =? 102 then 3
  else if n =? 34 then 4 else if n =? 91 then 5 else if n =? 123 then 6 else 7.

Lemma dumps_first v : no_floats v = true → ∃ c s, dumps v = String c s ∧ tag_char c = tag_of v.
Proof.
  destruct v as [|[]|z| |s|l|l]; intros Hv; try done; try by eexists _, _.
  pose proof (pretty_num z) as [_ Hf]. simpl. destruct (pretty z) as [|c s]; [done|].
  exists c, s. split; [done|]. unfold tag_char. simpl in Hf. by rewrite Hf.
Qed.

Lemma dumps_tag v w r r' :
  no_floats v = true → no_floats w = true → dumps v +:+ r = dumps w +:+ r' → tag_of v = tag_of w.
Proof.
  intros (c & s & -> & <-)%dumps_first (d & t & -> & <-)%dumps_first H. by injection H as ->.
Qed.

Section join.
Context {A : Type} (f : A → string) (R : A → A → Prop) (Q : A → Prop) (close : ascii).
Context (Hclose : is_num close = false) (Hcomma : close ≠ ","%char).
Context (Hfirst : ∀ x, Q x → ∃ c s, f x = String c s ∧ c ≠ close).

Lemma join_cons x l r :
  ∃ t, join_comma (f <$> x :: l) +:+ String close r = f x +:+ t ∧ ends t ∧
       (l = [] → t = String close r) ∧
       (l ≠ [] → t = String "," (join_comma (f <$> l) +:+ String close r)).
Proof.
  unfold ends. destruct l as [|y l].
  - exists (String close r). by split_and!.
  - exists (String "," (join_comma (f <$> y :: l) +:+ String close r)). split_and!; [|done..].
    unfold join_comma. cbn [fmap list_fmap String.concat]. by rewrite ! string_app_assoc.
Qed.

Lemma join_inj l k r r' :
  (∀ x y s s', x ∈ l → Q x → Q y → ends s → ends s' → f x +:+ s = f y +:+ s' → R x y ∧ s = s') →
  Forall Q l → Forall Q k →
  join_comma (f <$> l) +:+ String close r = join_comma (f <$> k) +:+ String close r' →
  Forall2 R l k ∧ r = r'.
Proof.
  revert k. induction l as [|x l IH]; intros k Hf Hl Hk H; destruct k as [|y k].
  - split; [constructor|]. by injection H.
  - exfalso. destruct (join_cons y k r') as (t & Ht & _). rewrite Ht in H.
    inv Hk. destruct (Hfirst y) as (c & s & E & Hc); [done|]. rewrite E in H. by injection H.
  - exfalso. destruct (join_cons x l r) as (t & Ht & _). rewrite Ht in H.
    inv Hl. destruct (Hfirst x) as (c & s & E & Hc); [done|]. rewrite E in H. by injection H.
  - destruct (join_cons x l r) as (t & Ht & Hte & Hnil & Hcons).
    destruct (join_cons y k r') as (t' & Ht' & Hte' & Hnil' & Hcons').
    rewrite Ht, Ht' in H. inv Hl. inv Hk.
    destruct (Hf x y t t') as [Hxy ->]; [by left|done..|].
    destruct l as [|x2 l], k as [|y2 k].
    + rewrite Hnil in Hnil' by done. injection (Hnil' eq_refl) as ->. by repeat constructor.
    + rewrite Hnil in Hcons' by done. by injection (Hcons' ltac:(done)).
    + rewrite Hnil' in Hcons by done. by injection (Hcons ltac:(done)).
    + rewrite Hcons in Hcons' by done. injection (Hcons' ltac:(done)) as Hj.
      destruct (IH (y2 :: k)) as [? ->]; [|done..|split; [by constructor|done]].
      intros; eapply Hf; eauto. by right.
Qed.
End join.

Lemma dumps_inj_ends v :
  no_floats v = true →
  ∀ w r r', no_floats w = true → ends r → ends r' → dumps v +:+ r = dumps w +:+ r' →
  canon v = canon w ∧ r = r'.
Proof.
  induction v as [|b|z|fl|s|l IH|l IH] using json_nested_ind;
    intros Hv w r r' Hw Hr Hr' H; pose proof (dumps_tag _ _ _ _ Hv Hw H) as Ht;
    destruct w as [|b'|z'|fl'|s'|l'|l']; try destruct b; try destruct b'; try done.
  - split; [done|]. by injection H.
  - split; [done|]. by injection H.
  - split; [done|]. by injection H.
  - simpl in H. by apply pretty_Z_inj in H as [-> ->].
  - simpl in H. by apply quote_inj in H as [-> ->].
  - simpl in H. rewrite !string_app_assoc in H. injection H as H.
    simpl in Hv, Hw. rewrite forallb_elem_of in Hv, Hw. rewrite Forall_forall in IH.
    apply (join_inj dumps (λ v w, canon v = canon w) (λ v, no_floats v = true)) in H as [H ->].
    + split; [|done]. simpl. f_equal. by apply list_eq_Forall2, Forall2_fmap.
    + done.
    + done.
    + intros x (c & t & E & Htc)%dumps_first. exists c, t. split; [done|]. intros ->.
      destruct x as [|[]| | | | |]; discriminate Htc.
    + intros x y s s' Hx Hqx Hqy. by apply IH.
    + by apply Forall_forall.
    + by apply Forall_forall.
  - rewrite !dumps_obj in H. rewrite !string_app_assoc in H. injection H as H.
    simpl in Hv, Hw. rewrite forallb_elem_of in Hv, Hw. rewrite Forall_forall in IH.
    apply (join_inj (λ p, obj_item (p.1, dumps p.2))
             (λ p q, (p.1, canon p.2) = (q.1, canon q.2))
             (λ p, no_floats p.2 = true)) in H as [H ->].
    + split; [|done]. simpl. f_equal. rewrite !sort_keys_fmap.
      by apply list_eq_Forall2, Forall2_fmap.
    + done.
    + done.
    + intros p _. eexists _, _. by split.
    + intros [k1 v1] [k2 v2] s s' Hx Hqx Hqy Hs Hs' Hp. cbn [fst snd] in *.
      unfold obj_item in Hp. cbn [fst snd] in Hp.
      rewrite !string_app_assoc in Hp. apply quote_inj in Hp as [-> Hp]. injection Hp as Hp.
      apply elem_of_py_sort in Hx.
      destruct (IH _ Hx Hqx v2 s s') as [Hc ->]; [done..|]. simpl in Hc. by rewrite Hc.
    + apply Forall_forall. intros p Hp. apply elem_of_py_sort in Hp. auto.
    + apply Forall_forall. intros p Hp. apply elem_of_py_sort in Hp. auto.
Qed.

Lemma canonical_bytes_iff v w b :
  canonical_bytes v = Ok b →
  (canonical_bytes w = Ok b ↔ no_floats w = true ∧ canon v = canon w).
Proof.
  unfold canonical_bytes. destruct (no_floats v) eqn:Hv; [|done]. intros [= <-].
  destruct (no_floats w) eqn:Hw; [|naive_solver]. split.
  - intros [= H]. apply encode_inj in H. split; [done|].
    apply (dumps_inj_ends v Hv w "" ""); try done. by rewrite H.
  - intros [_ H]. by rewrite <-(dumps_canon v), H, dumps_canon.
Qed.

(** C6: canonical JSON is exact: two documents without floats have the same canonical bytes
    exactly when they are equal up to the order of the keys of their objects; so what a
    digest is computed over determines the document, and the order in which a dictionary was
    filled never reaches a digest. A document with a float has no canonical bytes. *)
Theorem canonical_bytes_exact (v w : json) :
  (∀ b, canonical_bytes v = Ok b →
        (canonical_bytes w = Ok b ↔ no_floats w = true ∧ canon v = canon w)) ∧
  (no_floats v = false → canonical_bytes v = Raise ValueError).
Proof.
  split; [intros b; apply canonical_bytes_iff|]. unfold canonical_bytes. by intros ->.
Qed.
