(* ===== verification/Ids.v ===== *)
(** * Identifiers and pseudonyms

    The regular expressions of the identifiers the recorder emits, and the pseudonym
    functions of [fabric/_sequence.py] and [fabric/reconstruct/_ids.py] (spec 048 section 6,
    spec 049 section 2.9). [re.fullmatch] is a check of the whole string, so the final [$]
    of a pattern accepts nothing after it. Blanks stripped from environment values are the
    ASCII ones. *)

From S2P Require Import Prelude PyDict Hash Decimal.

(** ** Character classes *)

Definition is_alnum (c : ascii) : bool := is_dec c || in_range 65 90 c || in_range 97 122 c.
(** [[A-Za-z0-9._:-]] *)
Definition is_opaque_char (c : ascii) : bool :=
  is_alnum c || existsb (λ x, bool_decide (byte_of_ascii c = x)) [46; 95; 58; 45].
Definition char (n : Z) : ascii := ascii_of_byte n.
Definition slash : ascii := char 47.
Definition colon : ascii := char 58.

(** ** Patterns *)

(** [OPAQUE_ID_RE]: [^[A-Za-z0-9][A-Za-z0-9._:-]{0,127}$] *)
Definition opaque_id (s : string) : bool :=
  match s with
  | "" => false
  | String c rest => is_alnum c && all_chars is_opaque_char rest && (String.length rest <=? 127)%nat
  end.

(** [p\[0-9a-f\]{n}] *)
Fixpoint strip_prefix (p s : string) : option string :=
  match p, s with
  | "", _ => Some s
  | String a p, String b s => if decide (a = b) then strip_prefix p s else None
  | String _ _, "" => None
  end.

Definition hex_n (n : nat) (s : string) : bool :=
  all_chars is_hex s && (String.length s =? n)%nat.

Definition prefixed_hex (p : string) (n : nat) (s : string) : bool :=
  match strip_prefix p s with Some rest => hex_n n rest | None => false end.

(** [RUN_PSEUDONYM_RE], [_SOURCE_PSEUDONYM] *)
Definition run_pseudonym_re (s : string) : bool := prefixed_hex "r-" 32 s.
Definition source_pseudonym_re (s : string) : bool := prefixed_hex "s-" 32 s.

(** ** [_sequence.py]: emitted identifiers *)

Definition encode_opaque_id (value : string) : string :=
  if opaque_id value then value
  else "h-" +:+ String.substring 0 40 (hexdigest (encode value)).

(** [key: bytes | None], used only when it is not empty. *)
Definition keyed_hexdigest (key : option (list Z)) (data : list Z) : string :=
  match key with
  | Some ((_ :: _) as k) => hex_of_bytes (hmac_sha256 k data)
  | _ => hexdigest data
  end.

Definition label_pseudonym (prefix value : string) (key : option (list Z)) : string :=
  prefix +:+ String.substring 0 32 (keyed_hexdigest key (encode value)).

Definition run_pseudonym (run_id : string) (key : option (list Z)) : string :=
  label_pseudonym "r-" run_id key.

Definition source_label (source_id : string) (key : option (list Z)) (clear : bool) : string :=
  if clear then source_id else label_pseudonym "s-" source_id key.

Definition operator_label (value : string) (key : option (list Z)) (clear : bool) : string :=
  if clear then value else label_pseudonym "lbl-" value key.

Definition V2_TYPES : list (string * string) :=
  [("sess", "session"); ("usr", "user"); ("act", "actor"); ("conv", "conversation");
   ("turn", "turn"); ("trg", "trigger"); ("dsp", "dispatch"); ("agt", "agent");
   ("tgt", "target"); ("hst", "host"); ("sbx", "sandbox"); ("mcps", "mcp_session");
   ("rpc", "jsonrpc"); ("dbn", "db_namespace"); ("txn", "db_transaction");
   ("mst", "memory_store"); ("mkey", "memory_key"); ("p", "provider")].

Definition pseudonym_v2 (prefix value : string) (key : option (list Z)) : result (option string) :=
  match key with
  | None => Ok None
  | Some k =>
      ty ← or_raise KeyError (dget prefix V2_TYPES);
      let k_type := hmac_sha256 k (encode ("fabric-id/v2/" +:+ ty)) in
      Ok (Some (prefix +:+ "-" +:+
                String.substring 0 32 (hex_of_bytes (hmac_sha256 k_type (encode value)))))
  end.

Definition key_id (key : list Z) : string :=
  "kid-" +:+ String.substring 0 8 (hex_of_bytes (hmac_sha256 key (encode "fabric-id/v2/kid"))).

(** ** Environment *)

Definition is_blank (c : ascii) : bool := in_range 9 13 c || in_range 28 32 c.

Fixpoint lstrip (s : string) : string :=
  match s with
  | "" => ""
  | String c rest => if is_blank c then lstrip rest else s
  end.

Fixpoint rstrip (s : string) : string :=
  match s with
  | "" => ""
  | String c rest =>
      match rstrip rest with
      | "" => if is_blank c then "" else String c ""
      | rest' => String c rest'
      end
  end.

Definition strip (s : string) : string := rstrip (lstrip s).

Inductive IdentityMode := pseudonymous | clear_mode.

#[export] Instance IdentityMode_eq_dec : EqDecision IdentityMode.
Proof. solve_decision. Defined.

(** The two environment readers share one rule: unset or empty is the default. *)
Definition mode_from (value : option string) : result IdentityMode :=
  let v := strip (or_str value "pseudonymous") in
  if decide (v = "pseudonymous") then Ok pseudonymous
  else if decide (v = "clear") then Ok clear_mode
  else Raise ValueError.

Definition identity_mode_from_env (environ : list (string * string)) : result IdentityMode :=
  mode_from (dget "FABRIC_IDENTITY_MODE" environ).

Definition labels_from_env (environ : list (string * string)) : result IdentityMode :=
  mode_from (dget "FABRIC_WIRE_LABELS" environ).

Definition MIN_ID_KEY_BYTES : nat := 16.

Definition check_id_key (key : option (list Z)) : result (option (list Z)) :=
  match key with
  | Some k => if decide (length k < MIN_ID_KEY_BYTES)%nat then Raise ValueError else Ok (Some k)
  | None => Ok None
  end.

Definition id_key_from_env (environ : list (string * string)) (name : string)
    : result (option (list Z)) :=
  let value := or_str (dget name environ) "" in
  if decide (value = "") then Ok None else check_id_key (Some (encode value)).

(** ** [reconstruct/_ids.py]: identifiers as the report shows them *)

Definition kept_run_id (s : string) : bool :=
  prefixed_hex "r-" 32 s || prefixed_hex "trace:" 32 s || prefixed_hex "h-" 40 s.

Definition report_source_id (value : string) (key : option (list Z)) : string :=
  if source_pseudonym_re value then value else source_label value key false.

(** [value.rpartition(":")] as the pattern [(.+):([0-9]{1,20})] splits it: the digits follow
    the last colon. *)
Fixpoint rsplit (c : ascii) (s : string) : option (string * string) :=
  match s with
  | "" => None
  | String x rest =>
      match rsplit c rest with
      | Some (a, b) => Some (String x a, b)
      | None => if decide (x = c) then Some ("", rest) else None
      end
  end.

Definition digits (lo hi : nat) (s : string) : bool :=
  all_chars is_dec s && (lo <=? String.length s)%nat && (String.length s <=? hi)%nat.

(** [_SOURCE_RUN_ID]: [^source:(.+):([0-9]{1,20})$]; [.] matches anything but a newline. *)
Definition source_run_id (value : string) : option (string * string) :=
  rest ← strip_prefix "source:" value;
  p ← rsplit colon rest;
  if negb (bool_decide (p.1 = "")) && all_chars (λ c, negb (bool_decide (c = char 10))) p.1
     && digits 1 20 p.2
  then Some p else None.

Definition report_run_id (value : string) (key : option (list Z)) : string :=
  if kept_run_id value then value
  else match source_run_id value with
  | Some (source, epoch) => "source:" +:+ report_source_id source key +:+ ":" +:+ epoch
  | None => run_pseudonym value key
  end.

Definition report_tenant_id (value : string) (key : option (list Z)) : string :=
  label_pseudonym "t-" value key.

(** ** Facts about strings *)

Lemma strip_prefix_app p s : strip_prefix p (p +:+ s) = Some s.
Proof. induction p as [|c p IH]; simpl; [done|]. by rewrite decide_True. Qed.

Lemma strip_prefix_Some p s rest : strip_prefix p s = Some rest → s = p +:+ rest.
Proof.
  revert s. induction p as [|c p IH]; intros s; [by intros [= ->]|]; simpl.
  destruct s as [|d s]; [done|]. case_decide; [|done]. intros ->%IH. by subst.
Qed.

Lemma all_chars_substring p n s : all_chars p s = true → all_chars p (String.substring 0 n s) = true.
Proof.
  unfold all_chars. revert s. induction n as [|n IH]; intros [|c s]; simpl; try done.
  rewrite !andb_true_iff. naive_solver.
Qed.

Lemma length_substring n s :
  (n ≤ String.length s)%nat → String.length (String.substring 0 n s) = n.
Proof.
  revert s. induction n as [|n IH]; intros [|c s]; simpl; try done; [lia|].
  intros. rewrite IH; lia.
Qed.

Lemma hexdigest_hex m : all_chars is_hex (hexdigest m) = true.
Proof. apply all_chars_hex, sha256_bytes. Qed.

Lemma keyed_hexdigest_hex k m : all_chars is_hex (keyed_hexdigest k m) = true.
Proof. destruct k as [[|]|]; apply all_chars_hex; try apply sha256_bytes. Qed.

Lemma length_keyed_hexdigest k m : String.length (keyed_hexdigest k m) = 64%nat.
Proof.
  destruct k as [[|x k]|]; unfold keyed_hexdigest, hexdigest;
    by rewrite length_hex_of_bytes, ?length_sha256, ?length_hmac_sha256.
Qed.

Lemma prefixed_hex_app p n s : hex_n n s = true → prefixed_hex p n (p +:+ s) = true.
Proof. unfold prefixed_hex. by rewrite strip_prefix_app. Qed.

Lemma hex_n_substring n s :
  all_chars is_hex s = true → (n ≤ String.length s)%nat →
  hex_n n (String.substring 0 n s) = true.
Proof.
  intros Hs Hn. unfold hex_n. rewrite all_chars_substring, length_substring by done.
  simpl. by apply Nat.eqb_eq.
Qed.

Lemma label_pseudonym_shape p v k : prefixed_hex p 32 (label_pseudonym p v k) = true.
Proof.
  unfold label_pseudonym. apply prefixed_hex_app, hex_n_substring.
  - apply keyed_hexdigest_hex.
  - rewrite length_keyed_hexdigest. lia.
Qed.

Lemma is_hex_opaque c : is_hex c = true → is_opaque_char c = true.
Proof. apply char_implies. vm_compute. reflexivity. Qed.

(** The split at the last [c]: what it returns, and that nothing after it holds a [c]. *)
Lemma rsplit_Some c s a b :
  rsplit c s = Some (a, b) ↔
    s = a +:+ String c b ∧ all_chars (λ x, negb (bool_decide (x = c))) b = true.
Proof.
  revert a b. induction s as [|x s IH]; intros a b; simpl.
  { split; [done|]. intros [H _]. by destruct a. }
  destruct (rsplit c s) as [[a' b']|] eqn:Hs.
  - destruct (proj1 (IH a' b') eq_refl) as [-> Hb']. split.
    + intros [= <- <-]. done.
    + intros [H Hb]. destruct a as [|y a]; simplify_eq/=.
      * exfalso. rewrite all_chars_app in Hb. to_prop.
        unfold all_chars in *. simpl in *. rewrite bool_decide_true in * by done. naive_solver.
      * f_equal. assert (Some (a', b') = Some (a, b)); [|congruence].
        apply IH. done.
  - case_decide; split.
    + intros [= <- <-]. subst. split; [done|].
      clear IH. revert Hs. induction s as [|y s IHs]; [done|]. simpl.
      destruct (rsplit c s) as [[??]|]; [done|]. case_decide; [done|]. intros _.
      unfold all_chars in *. simpl. rewrite bool_decide_false by done. by apply IHs.
    + intros [H1 Hb]. destruct a as [|y a]; simplify_eq/=; [done|].
      assert (None = Some (a, b)) as ?; [|done]. by apply IH.
    + done.
    + intros [H1 Hb]. destruct a as [|y a]; simplify_eq/=.
      assert (None = Some (a, b)) as ?; [|done]. by apply IH.
Qed.

(** ** Properties of the emitted identifiers *)

Lemma opaque_app_hex p n s :
  opaque_id (p +:+ "0") = true → (String.length p + n ≤ 128)%nat → hex_n n s = true →
  (0 < String.length p)%nat → opaque_id (p +:+ s) = true.
Proof.
  destruct p as [|c p]; simpl; [lia|]. intros Hp Hn Hs _. to_prop.
  unfold hex_n in Hs. to_prop. rewrite all_chars_app in *. to_prop.
  match goal with H : (_ =? _)%nat = true |- _ => apply Nat.eqb_eq in H end.
  repeat (apply andb_true_iff; split); try done.
  - eapply all_chars_mono; [apply is_hex_opaque|done].
  - apply Nat.leb_le. rewrite length_string_app. lia.
Qed.

Lemma hashed_id_shape value :
  hex_n 40 (String.substring 0 40 (hexdigest (encode value))) = true.
Proof.
  apply hex_n_substring; [apply hexdigest_hex|].
  unfold hexdigest. rewrite length_hex_of_bytes, length_sha256. lia.
Qed.

Lemma encode_opaque_id_ok value : opaque_id (encode_opaque_id value) = true.
Proof.
  unfold encode_opaque_id. destruct (opaque_id value) eqn:E; [done|].
  apply (opaque_app_hex "h-" 40); simpl; [done|lia|apply hashed_id_shape|lia].
Qed.

(** Every emitted opaque id is a valid opaque id: [encode_opaque_id] keeps a valid id,
    replaces anything else by a valid [h-] digest id, and is idempotent. *)
Theorem encode_opaque_id_valid (value : string) :
  opaque_id (encode_opaque_id value) = true ∧
  (opaque_id value = true → encode_opaque_id value = value) ∧
  (opaque_id value = false → prefixed_hex "h-" 40 (encode_opaque_id value) = true) ∧
  encode_opaque_id (encode_opaque_id value) = encode_opaque_id value.
Proof.
  split_and!; [apply encode_opaque_id_ok| | |].
  - intros H. unfold encode_opaque_id. by rewrite H.
  - intros H. unfold encode_opaque_id. rewrite H. apply prefixed_hex_app, hashed_id_shape.
  - unfold encode_opaque_id at 1. by rewrite encode_opaque_id_ok.
Qed.

Lemma digits_no_colon lo hi s :
  digits lo hi s = true → all_chars (λ x, negb (bool_decide (x = colon))) s = true.
Proof.
  unfold digits. intros H. to_prop. eapply all_chars_mono; [|done].
  apply char_implies. vm_compute. reflexivity.
Qed.

Lemma source_pseudonym_chars s :
  source_pseudonym_re s = true →
  s ≠ "" ∧ all_chars (λ c, negb (bool_decide (c = char 10))) s = true.
Proof.
  unfold source_pseudonym_re, prefixed_hex. intros H. split; [by intros ->|].
  destruct (strip_prefix "s-" s) as [rest|] eqn:Hp; [|done]. apply strip_prefix_Some in Hp as ->.
  unfold hex_n in H. to_prop. rewrite all_chars_app. apply andb_true_iff. split; [done|].
  eapply all_chars_mono; [|done]. apply char_implies. vm_compute. reflexivity.
Qed.

Lemma report_source_id_shape v k : source_pseudonym_re (report_source_id v k) = true.
Proof.
  unfold report_source_id. destruct (source_pseudonym_re v) eqn:E; [done|].
  apply label_pseudonym_shape.
Qed.

(** An identifier with nothing of the caller's in it. *)
Definition safe_run_id (s : string) : Prop :=
  kept_run_id s = true ∨
  ∃ src ep, source_pseudonym_re src = true ∧ digits 1 20 ep = true ∧
            s = "source:" +:+ src +:+ ":" +:+ ep.

Lemma source_run_id_Some src ep :
  source_pseudonym_re src = true → digits 1 20 ep = true →
  source_run_id ("source:" +:+ src +:+ ":" +:+ ep) = Some (src, ep).
Proof.
  intros Hs Hd. unfold source_run_id. rewrite strip_prefix_app.
  destruct (source_pseudonym_chars _ Hs) as [Hne Hnl]. cbn [mbind option_bind].
  assert (rsplit colon (src +:+ ":" +:+ ep) = Some (src, ep)) as ->.
  { apply rsplit_Some. split; [done|]. by eapply digits_no_colon. }
  cbn [mbind option_bind fst snd]. by rewrite bool_decide_false, Hnl, Hd.
Qed.

Lemma report_run_id_safe v k : safe_run_id (report_run_id v k).
Proof.
  unfold report_run_id. destruct (kept_run_id v) eqn:Hk; [by left|].
  destruct (source_run_id v) as [[src ep]|] eqn:Hs.
  - right. exists (report_source_id src k), ep. split_and!; [apply report_source_id_shape| |done].
    unfold source_run_id in Hs. destruct (strip_prefix _ _); simpl in Hs; [|done].
    destruct (rsplit _ _) as [p|]; simpl in Hs; [|done]. case_match; simplify_eq. by to_prop.
  - left. unfold kept_run_id, run_pseudonym. by rewrite label_pseudonym_shape.
Qed.

Lemma report_run_id_fix v k : safe_run_id v → report_run_id v k = v.
Proof.
  intros [H|(src & ep & Hs & Hd & ->)]; unfold report_run_id.
  - by rewrite H.
  - replace (kept_run_id ("source:" +:+ src +:+ ":" +:+ ep)) with false by reflexivity.
    rewrite source_run_id_Some by done. unfold report_source_id. by rewrite Hs.
Qed.

(** The run id of a report never carries a caller's text: it is an [r-] pseudonym, a
    generated [trace:] or [h-] id, or a [source:] fallback whose source is an [s-] pseudonym;
    and projecting an id that is already projected, under any key, changes nothing, so old
    and new records of one run still correlate. *)
Theorem report_run_id_projects (value : string) (key key' : option (list Z)) :
  safe_run_id (report_run_id value key) ∧
  report_run_id (report_run_id value key) key' = report_run_id value key.
Proof. split; [apply report_run_id_safe|]. apply report_run_id_fix, report_run_id_safe. Qed.

(** ** The published vectors

    [contracts/capture/v1/fixtures/run-ids/run-id-pseudonym-v1.json] and
    [contracts/coverage/v1/fixtures/vectors/pseudonym-v2.json]. *)

Example run_pseudonym_unkeyed :
  run_pseudonym "run-travel-42" None = "r-c5aedfd8a3ee415e277e335bf1517ff4".
Proof. vm_compute. reflexivity. Qed.

Example run_pseudonym_keyed :
  run_pseudonym "run-travel-42" (Some (encode "fabric-test-id-key-not-a-secret")) =
    "r-93347307304ecb0a9bb1b51ae90ac326".
Proof. vm_compute. reflexivity. Qed.

Example run_pseudonym_trace_shaped :
  run_pseudonym "trace:4bf92f3577b34da6a3ce929d0e0e4736" None =
    "r-468a6871d3aa53d69c25f2175d6eda6c".
Proof. vm_compute. reflexivity. Qed.

Example pseudonym_v2_session :
  pseudonym_v2 "sess" "session-8c1f" (Some (encode "fabric-test-id-key-not-a-secret")) =
    Ok (Some "sess-59ed1f5d6b14409a864fc485d982decf").
Proof. vm_compute. reflexivity. Qed.

Example pseudonym_v2_user :
  pseudonym_v2 "usr" "jane.doe@example.com" (Some (encode "fabric-test-id-key-not-a-secret")) =
    Ok (Some "usr-ba0f37872e36c3cfe3692a57a52c7a62").
Proof. vm_compute. reflexivity. Qed.
