(* ===== verification/JsonRead.v ===== *)
(** * Reading JSON

    [json.loads] of the standard library on a text given by its UTF-8 bytes, as
    [_load_json] of [fabric/reconstruct/_stitch.py] and the reader of spool records call it: the
    scanner of CPython with its escapes, surrogate pairs, number grammar, literals and the limit of
    4,300 digits; [strict] refuses duplicate keys and the non-finite literals. What
    [json.dumps] prints for the [float] of a numeral is a parameter. The scanner works
    with fuel, and [2 * len(text)] of it is always enough. *)

From S2P Require Import Prelude PyDict Hash Json Decimal Canonical Ids.

(** What is printed for the float that a numeral denotes. *)
Class FloatText := float_text : string → string.

(** [sys.get_int_max_str_digits()] *)
Definition MAX_INT_DIGITS : nat := 4300.

(** ** UTF-8 *)

(** The bytes of a code point; a lone surrogate has three ([surrogatepass]). *)
Definition utf8 (n : Z) : string :=
  decode_bytes
    (if n <? 128 then [n]
     else if n <? 2048 then [192 + n / 64; 128 + n mod 64]
     else if n <? 65536 then [224 + n / 4096; 128 + n / 64 mod 64; 128 + n mod 64]
     else [240 + n / 262144; 128 + n / 4096 mod 64; 128 + n / 64 mod 64; 128 + n mod 64]).

Definition is_cont (c : ascii) : bool := in_range 128 191 c.

(** [data.decode("utf-8")] succeeds. *)
Fixpoint utf8_valid (s : string) : bool :=
  match s with
  | "" => true
  | String a s =>
      if in_range 0 127 a then utf8_valid s
      else match s with
      | String b s =>
          if in_range 194 223 a then is_cont b && utf8_valid s
          else match s with
          | String c s =>
              if in_range 224 239 a
              then (if bool_decide (byte_of_ascii a = 224) then in_range 160 191 b
                    else if bool_decide (byte_of_ascii a = 237) then in_range 128 159 b else is_cont b)
                   && is_cont c && utf8_valid s
              else match s with
              | String d s =>
                  in_range 240 244 a
                  && (if bool_decide (byte_of_ascii a = 240) then in_range 144 191 b
                      else if bool_decide (byte_of_ascii a = 244) then in_range 128 143 b else is_cont b)
                  && is_cont c && is_cont d && utf8_valid s
              | "" => false
              end
          | "" => false
          end
      | "" => false
      end
  end.

(** ** Strings *)

Definition hex4 (a b c d : ascii) : option Z :=
  w ← hex_value a; x ← hex_value b; y ← hex_value c; z ← hex_value d;
  Some (((w * 16 + x) * 16 + y) * 16 + z).

Definition is_high (n : Z) : bool := (55296 <=? n) && (n <=? 56319).
Definition is_low (n : Z) : bool := (56320 <=? n) && (n <=? 57343).
Definition join_surrogates (h l : Z) : Z := 65536 + (h - 55296) * 1024 + (l - 56320).

(** The character of a one-letter escape. *)
Definition simple_escape (c : ascii) : option string :=
  let n := byte_of_ascii c in
  if n =? 34 then Some dquote
  else if n =? 92 then Some backslash
  else if n =? 47 then Some "/"
  else if n =? 98 then Some (utf8 8)
  else if n =? 102 then Some (utf8 12)
  else if n =? 110 then Some (utf8 10)
  else if n =? 114 then Some (utf8 13)
  else if n =? 116 then Some (utf8 9)
  else None.

Definition is_char (n : Z) (c : ascii) : bool := byte_of_ascii c =? n.

(** The rest of a string after its opening quote. *)
Fixpoint read_chars (s : string) : option (string * string) :=
  match s with
  | "" => None
  | String c r =>
      if is_char 34 c then Some ("", r)
      else if is_char 92 c then
        match r with
        | "" => None
        | String e r =>
            if is_char 117 e then
              match r with
              | String h1 (String h2 (String h3 (String h4 r))) =>
                  n ← hex4 h1 h2 h3 h4;
                  let one := '(t, r) ← read_chars r; Some (utf8 n +:+ t, r) in
                  match r with
                  | String b (String u (String l1 (String l2 (String l3 (String l4 r))))) =>
                      if is_high n && is_char 92 b && is_char 117 u then
                        m ← hex4 l1 l2 l3 l4;
                        if is_low m
                        then '(t, r) ← read_chars r; Some (utf8 (join_surrogates n m) +:+ t, r)
                        else one
                      else one
                  | _ => one
                  end
              | _ => None
              end
            else x ← simple_escape e; '(t, r) ← read_chars r; Some (x +:+ t, r)
        end
      else if byte_of_ascii c <? 32 then None
      else '(t, r) ← read_chars r; Some (String c t, r)
  end.

(** ** Numbers *)

Fixpoint span (p : ascii → bool) (s : string) : string * string :=
  match s with
  | "" => ("", "")
  | String c r => if p c then let '(t, r) := span p r in (String c t, r) else ("", s)
  end.

Definition read_sign (s : string) : string * string :=
  match s with String c r => if is_char 45 c then ("-", r) else ("", s) | "" => ("", s) end.

Definition read_int_part (s : string) : option (string * string) :=
  match s with
  | "" => None
  | String c r =>
      if is_char 48 c then Some ("0", r)
      else if in_range 49 57 c then let '(d, r) := span is_dec r in Some (String c d, r)
      else None
  end.

Definition read_fraction (s : string) : string * string :=
  match s with
  | "" => ("", "")
  | String c r =>
      if is_char 46 c then
        let '(d, r) := span is_dec r in if decide (d = "") then ("", s) else ("." +:+ d, r)
      else ("", s)
  end.

Definition read_exponent (s : string) : string * string :=
  match s with
  | "" => ("", "")
  | String c r =>
      if is_char 101 c || is_char 69 c then
        let '(sign, r) :=
          match r with
          | String x r' => if is_char 43 x || is_char 45 x then (String x "", r') else ("", r)
          | "" => ("", r)
          end in
        let '(d, r) := span is_dec r in
        if decide (d = "") then ("", s) else (String c (sign +:+ d), r)
      else ("", s)
  end.

(** *** The scanner *)

Definition is_ws (c : ascii) : bool := is_char 32 c || is_char 9 c || is_char 10 c || is_char 13 c.

Fixpoint skip_ws (s : string) : string :=
  match s with "" => "" | String c r => if is_ws c then skip_ws r else s end.

Section read.
Context {FT : FloatText} (strict : bool).

Definition read_number (s : string) : option (json * string) :=
  let '(sign, r) := read_sign s in
  '(int, r) ← read_int_part r;
  let '(frac, r) := read_fraction r in
  let '(exp, r) := read_exponent r in
  if bool_decide (frac = "") && bool_decide (exp = "") then
    if (String.length int <=? MAX_INT_DIGITS)%nat
    then Some (JInt (if decide (sign = "") then dec_value int else - dec_value int), r)
    else None
  else Some (JFloat (float_text (sign +:+ int +:+ frac +:+ exp)), r).

(** The non-finite literals, which [strict] refuses. *)
Definition constant (text : string) : option json :=
  if strict then None else Some (JFloat text).

(** The object of its members: a later duplicate of a key takes the earlier one's place. *)
Definition members_object (members : list (string * json)) : option json :=
  if strict && bool_decide (¬ NoDup members.*1) then None
  else Some (JObj (foldl (λ d p, dset p.1 p.2 d) [] members)).

Definition read_literal (s : string) : option (json * string) :=
  match strip_prefix "null" s, strip_prefix "true" s, strip_prefix "false" s with
  | Some r, _, _ => Some (JNull, r)
  | _, Some r, _ => Some (JBool true, r)
  | _, _, Some r => Some (JBool false, r)
  | _, _, _ =>
      match strip_prefix "NaN" s, strip_prefix "Infinity" s, strip_prefix "-Infinity" s with
      | Some r, _, _ => v ← constant "NaN"; Some (v, r)
      | _, Some r, _ => v ← constant "Infinity"; Some (v, r)
      | _, _, Some r => v ← constant "-Infinity"; Some (v, r)
      | _, _, _ => read_number s
      end
  end.

Fixpoint read_value (fuel : nat) (s : string) : option (json * string) :=
  match fuel, s with
  | S fuel, String c r =>
      if is_char 34 c then '(t, r) ← read_chars r; Some (JStr t, r)
      else if is_char 91 c then
        match strip_prefix "]" (skip_ws r) with
        | Some r => Some (JArr [], r)
        | None => '(l, r) ← read_items fuel (skip_ws r); Some (JArr l, r)
        end
      else if is_char 123 c then
        match strip_prefix "}" (skip_ws r) with
        | Some r => Some (JObj [], r)
        | None => '(l, r) ← read_members fuel (skip_ws r); v ← members_object l; Some (v, r)
        end
      else read_literal s
  | _, _ => None
  end
(** The items of an array up to its bracket. *)
with read_items (fuel : nat) (s : string) : option (list json * string) :=
  match fuel with
  | O => None
  | S fuel =>
      '(v, r) ← read_value fuel s;
      match strip_prefix "," (skip_ws r), strip_prefix "]" (skip_ws r) with
      | Some r, _ => '(l, r) ← read_items fuel (skip_ws r); Some (v :: l, r)
      | None, Some r => Some ([v], r)
      | None, None => None
      end
  end
(** The members of an object up to its brace. *)
with read_members (fuel : nat) (s : string) : option (list (string * json) * string) :=
  match fuel with
  | O => None
  | S fuel =>
      r ← strip_prefix dquote s;
      '(k, r) ← read_chars r;
      r ← strip_prefix ":" (skip_ws r);
      '(v, r) ← read_value fuel (skip_ws r);
      match strip_prefix "," (skip_ws r), strip_prefix "}" (skip_ws r) with
      | Some r, _ => '(l, r) ← read_members fuel (skip_ws r); Some ((k, v) :: l, r)
      | None, Some r => Some ([(k, v)], r)
      | None, None => None
      end
  end.

(** [json.loads(text)]: [None] where it raises [ValueError]. *)
Definition loads (s : string) : option json :=
  '(v, r) ← read_value (2 * String.length s) (skip_ws s);
  if decide (skip_ws r = "") then Some v else None.
End read.

Section equations.
Context {FT : FloatText} (strict : bool).

Lemma read_value_S fuel c r : read_value strict (S fuel) (String c r) =
  if is_char 34 c then '(t, r) ← read_chars r; Some (JStr t, r)
  else if is_char 91 c then
    match strip_prefix "]" (skip_ws r) with
    | Some r => Some (JArr [], r)
    | None => '(l, r) ← read_items strict fuel (skip_ws r); Some (JArr l, r)
    end
  else if is_char 123 c then
    match strip_prefix "}" (skip_ws r) with
    | Some r => Some (JObj [], r)
    | None => '(l, r) ← read_members strict fuel (skip_ws r); v ← members_object strict l; Some (v, r)
    end
  else read_literal strict (String c r).
Proof. done. Qed.

Lemma read_items_S fuel s : read_items strict (S fuel) s =
  '(v, r) ← read_value strict fuel s;
  match strip_prefix "," (skip_ws r), strip_prefix "]" (skip_ws r) with
  | Some r, _ => '(l, r) ← read_items strict fuel (skip_ws r); Some (v :: l, r)
  | None, Some r => Some ([v], r)
  | None, None => None
  end.
Proof. done. Qed.

Lemma read_members_S fuel s : read_members strict (S fuel) s =
  r ← strip_prefix dquote s;
  '(k, r) ← read_chars r;
  r ← strip_prefix ":" (skip_ws r);
  '(v, r) ← read_value strict fuel (skip_ws r);
  match strip_prefix "," (skip_ws r), strip_prefix "}" (skip_ws r) with
  | Some r, _ => '(l, r) ← read_members strict fuel (skip_ws r); Some ((k, v) :: l, r)
  | None, Some r => Some ([(k, v)], r)
  | None, None => None
  end.
Proof. done. Qed.
End equations.

(** ** The fuel is enough *)

Lemma span_length p s : (String.length (span p s).2 <= String.length s)%nat.
Proof.
  induction s as [|c s IH]; simpl; [done|]. destruct (p c); [|done].
  destruct (span p s). simpl in *. lia.
Qed.

Lemma skip_ws_length s : (String.length (skip_ws s) <= String.length s)%nat.
Proof. induction s as [|c s IH]; simpl; [done|]. destruct (is_ws c); simpl; lia. Qed.

Lemma read_chars_length s t r : read_chars s = Some (t, r) → (String.length r < String.length s)%nat.
Proof.
  remember (String.length s) as n eqn:Hn. revert s t r Hn.
  induction (lt_wf n) as [n _ IH]. intros s t r -> H.
  destruct s as [|c s]; [done|]. cbn [read_chars String.length] in *.
  assert (∀ s' (f : string → string), (String.length s' < S (String.length s))%nat →
    (('(t, r) ← read_chars s'; Some (f t, r)) = Some (t, r)) → (String.length r < S (String.length s))%nat) as Hgo.
  { intros s' f Hs' E. destruct (read_chars s') as [[t' r']|] eqn:E'; [|done]. simpl in E. injection E as _ ->.
    pose proof (IH _ Hs' s' t' r eq_refl E'). lia. }
  destruct (is_char 34 c); [injection H as _ ->; simpl; lia|].
  destruct (is_char 92 c); cycle 1.
  { destruct (_ <? 32); [done|]. by eapply (Hgo s (String c)); [lia|]. }
  destruct s as [|e s]; [done|]. destruct (is_char 117 e); cycle 1.
  { destruct (simple_escape e) as [x|]; [|done]. simpl in H. eapply (Hgo s (λ t, x +:+ t)); [simpl; lia|done]. }
  destruct s as [|h1 [|h2 [|h3 [|h4 s]]]]; try done.
  destruct (hex4 h1 h2 h3 h4) as [n|]; [|done]. cbn [mbind option_bind] in H.
  destruct s as [|b [|u [|l1 [|l2 [|l3 [|l4 s]]]]]];
    try (eapply (Hgo _ (λ t, utf8 n +:+ t)); [|exact H]; simpl; lia).
  destruct (is_high n && is_char 92 b && is_char 117 u);
    [|eapply (Hgo _ (λ t, utf8 n +:+ t)); [|exact H]; simpl; lia].
  destruct (hex4 l1 l2 l3 l4) as [m|]; [|done]. cbn [mbind option_bind] in H.
  destruct (is_low m); (eapply (Hgo _ (λ t, _ +:+ t)); [|exact H]; simpl; lia).
Qed.

Lemma strip_prefix_length p s r :
  strip_prefix p s = Some r → String.length s = (String.length p + String.length r)%nat.
Proof. intros ->%strip_prefix_Some. apply length_string_app. Qed.

Section fuel.
Context {FT : FloatText} (strict : bool).

Lemma read_number_length s v r : read_number s = Some (v, r) → (String.length r < String.length s)%nat.
Proof.
  unfold read_number. destruct (read_sign s) as [sign r0] eqn:Es.
  assert (String.length r0 <= String.length s)%nat as H0.
  { destruct s as [|c s]; simpl in Es; [by simplify_eq|]. destruct (is_char 45 c); simplify_eq; simpl; lia. }
  destruct (read_int_part r0) as [[i r1]|] eqn:Ei; [|done]. simpl.
  assert (String.length r1 < String.length r0)%nat as H1.
  { destruct r0 as [|c r0]; simpl in Ei; [done|]. destruct (is_char 48 c); [simplify_eq; simpl; lia|].
    destruct (in_range 49 57 c); [|done]. pose proof (span_length is_dec r0).
    destruct (span is_dec r0). simplify_eq. simpl in *. lia. }
  assert (String.length (read_fraction r1).2 <= String.length r1)%nat as H2.
  { destruct r1 as [|c r1]; simpl; [done|]. destruct (is_char 46 c); [|done].
    pose proof (span_length is_dec r1). destruct (span is_dec r1). simpl in *. case_decide; simpl; lia. }
  destruct (read_fraction r1) as [fr r2]. simpl in H2.
  assert (String.length (read_exponent r2).2 <= String.length r2)%nat as H3.
  { destruct r2 as [|c r2]; simpl; [done|]. destruct (is_char 101 c || is_char 69 c); [|done].
    assert (∀ sg s', (String.length s' <= String.length r2)%nat →
      (String.length (let '(d, r) := span is_dec s' in
         if decide (d = "") then ("", String c r2) else (String c (sg +:+ d), r)).2 <= S (String.length r2))%nat) as Hsp.
    { intros sg s' Hs'. pose proof (span_length is_dec s'). destruct (span is_dec s'). simpl in *.
      case_decide; simpl; lia. }
    destruct r2 as [|x r2]; [by apply Hsp|]. destruct (is_char 43 x || is_char 45 x); apply Hsp; simpl; lia. }
  destruct (read_exponent r2) as [ex r3]. simpl in H3.
  destruct (_ && _); [destruct (_ <=? _)%nat; [|done]|]; intros [= _ <-]; lia.
Qed.

Lemma read_literal_length s v r : read_literal strict s = Some (v, r) → (String.length r < String.length s)%nat.
Proof.
  unfold read_literal, constant. intros H.
  repeat match type of H with
  | context [strip_prefix ?p s] =>
      let E := fresh "E" in destruct (strip_prefix p s) as [?|] eqn:E;
      [apply strip_prefix_length in E; destruct strict; simplify_eq/=; lia|clear E]
  end.
  by eapply read_number_length.
Qed.

(** A result that some fuel finds is found with twice the characters it consumes. *)
Lemma read_fuel fuel :
  (∀ s v r, read_value strict fuel s = Some (v, r) → (String.length r < String.length s)%nat ∧
     ∀ f, (2 * (String.length s - String.length r) <= f)%nat → read_value strict f s = Some (v, r)) ∧
  (∀ s l r, read_items strict fuel s = Some (l, r) → (String.length r < String.length s)%nat ∧
     ∀ f, (2 * (String.length s - String.length r) <= f)%nat → read_items strict f s = Some (l, r)) ∧
  (∀ s l r, read_members strict fuel s = Some (l, r) → (String.length r < String.length s)%nat ∧
     ∀ f, (2 * (String.length s - String.length r) <= f)%nat → read_members strict f s = Some (l, r)).
Proof.
  induction fuel as [|fuel (IHv & IHi & IHm)]; [done|]. split_and!.
  - intros s v r H. destruct s as [|c s]; [done|]. rewrite read_value_S in H.
    pose proof (skip_ws_length s) as Hws.
    destruct (is_char 34 c) eqn:E34.
    { destruct (read_chars s) as [[t r']|] eqn:Ec; [|done]. simpl in H. simplify_eq.
      apply read_chars_length in Ec as Hl. split; [simpl; lia|]. intros [|f] Hf; [simpl in *; lia|].
      rewrite read_value_S. by rewrite E34, Ec. }
    destruct (is_char 91 c) eqn:E91.
    { destruct (strip_prefix "]" (skip_ws s)) as [r'|] eqn:Eb.
      - simplify_eq. apply strip_prefix_length in Eb as Hl. split; [simpl in *; lia|].
        intros [|f] Hf; [simpl in *; lia|]. rewrite read_value_S. by rewrite E34, E91, Eb.
      - destruct (read_items strict fuel (skip_ws s)) as [[l r']|] eqn:Ei; [|done]. simpl in H. simplify_eq.
        destruct (IHi _ _ _ Ei) as [Hl Hf']. split; [simpl; lia|].
        intros [|f] Hf; [simpl in *; lia|]. rewrite read_value_S. rewrite E34, E91, Eb, Hf' by (simpl in *; lia). done. }
    destruct (is_char 123 c) eqn:E123.
    { destruct (strip_prefix "}" (skip_ws s)) as [r'|] eqn:Eb.
      - simplify_eq. apply strip_prefix_length in Eb as Hl. split; [simpl in *; lia|].
        intros [|f] Hf; [simpl in *; lia|]. rewrite read_value_S. by rewrite E34, E91, E123, Eb.
      - destruct (read_members strict fuel (skip_ws s)) as [[l r']|] eqn:Ei; [|done]. simpl in H.
        destruct (members_object strict l) as [o|] eqn:Eo; [|done]. simpl in H. simplify_eq.
        destruct (IHm _ _ _ Ei) as [Hl Hf']. split; [simpl; lia|].
        intros [|f] Hf; [simpl in *; lia|]. rewrite read_value_S.
        rewrite E34, E91, E123, Eb, Hf' by (simpl in *; lia). simpl. by rewrite Eo. }
    pose proof (read_literal_length _ _ _ H) as Hl. split; [done|].
    intros [|f] Hf; [lia|]. rewrite read_value_S. by rewrite E34, E91, E123.
  - intros s l r H. rewrite read_items_S in H.
    destruct (read_value strict fuel s) as [[v r1]|] eqn:Ev; [|done]. cbn [mbind option_bind] in H.
    destruct (IHv _ _ _ Ev) as [Hl1 Hf1]. pose proof (skip_ws_length r1) as Hw1.
    destruct (strip_prefix "," (skip_ws r1)) as [r2|] eqn:E1.
    + apply strip_prefix_length in E1 as Hl2. simpl in Hl2. pose proof (skip_ws_length r2) as Hw2.
      destruct (read_items strict fuel (skip_ws r2)) as [[l' r']|] eqn:Ei; [|done]. cbn [mbind option_bind] in H. simplify_eq.
      destruct (IHi _ _ _ Ei) as [Hl3 Hf3]. split; [lia|]. intros [|f] Hf; [lia|]. rewrite read_items_S.
      rewrite Hf1 by lia. cbn [mbind option_bind]. rewrite E1, Hf3 by lia. done.
    + destruct (strip_prefix "]" (skip_ws r1)) as [r2|] eqn:E2; [|done]. simplify_eq.
      apply strip_prefix_length in E2 as Hl2. simpl in Hl2. split; [lia|]. intros [|f] Hf; [lia|].
      rewrite read_items_S. rewrite Hf1 by lia. cbn [mbind option_bind]. by rewrite E1, E2.
  - intros s l r H. rewrite read_members_S in H.
    destruct (strip_prefix dquote s) as [s1|] eqn:Eq; [|done]. cbn [mbind option_bind] in H.
    apply strip_prefix_length in Eq as Hq. simpl in Hq.
    destruct (read_chars s1) as [[k s2]|] eqn:Ek; [|done]. cbn [mbind option_bind] in H.
    apply read_chars_length in Ek as Hk. pose proof (skip_ws_length s2) as Hw2.
    destruct (strip_prefix ":" (skip_ws s2)) as [s3|] eqn:Ec; [|done]. cbn [mbind option_bind] in H.
    apply strip_prefix_length in Ec as Hc. simpl in Hc. pose proof (skip_ws_length s3) as Hw3.
    destruct (read_value strict fuel (skip_ws s3)) as [[v r1]|] eqn:Ev; [|done]. cbn [mbind option_bind] in H.
    destruct (IHv _ _ _ Ev) as [Hl1 Hf1]. pose proof (skip_ws_length r1) as Hw1.
    destruct (strip_prefix "," (skip_ws r1)) as [r2|] eqn:E1.
    + apply strip_prefix_length in E1 as Hl2. simpl in Hl2. pose proof (skip_ws_length r2) as Hw4.
      destruct (read_members strict fuel (skip_ws r2)) as [[l' r']|] eqn:Ei; [|done]. cbn [mbind option_bind] in H. simplify_eq.
      destruct (IHm _ _ _ Ei) as [Hl3 Hf3]. split; [lia|]. intros [|f] Hf; [lia|]. rewrite read_members_S.
      rewrite Eq. cbn [mbind option_bind]. rewrite Ek. cbn [mbind option_bind]. rewrite Ec. cbn [mbind option_bind]. rewrite Hf1 by lia. cbn [mbind option_bind].
      rewrite E1, Hf3 by lia. done.
    + destruct (strip_prefix "}" (skip_ws r1)) as [r2|] eqn:E2; [|done]. simplify_eq.
      apply strip_prefix_length in E2 as Hl2. simpl in Hl2. split; [lia|]. intros [|f] Hf; [lia|].
      rewrite read_members_S. rewrite Eq. cbn [mbind option_bind]. rewrite Ek. cbn [mbind option_bind]. rewrite Ec. cbn [mbind option_bind]. rewrite Hf1 by lia. cbn [mbind option_bind].
      by rewrite E1, E2.
Qed.

(** A text that reads with any fuel reads with the fuel [loads] gives. *)
Lemma loads_fuel fuel s v r :
  read_value strict fuel (skip_ws s) = Some (v, r) → skip_ws r = "" → loads strict s = Some v.
Proof.
  intros H Hr. destruct (read_fuel fuel) as [Hv _]. destruct (Hv _ _ _ H) as [_ Hf].
  pose proof (skip_ws_length s). unfold loads. rewrite Hf by lia. simpl. by rewrite decide_True.
Qed.
End fuel.

(** ** Reading what was written *)

(** Distinct keys, no floats, and integers [int] and [str] convert. *)
Fixpoint plain (v : json) : bool :=
  match v with
  | JFloat _ => false
  | JInt z => bool_decide (Z.abs z < 10 ^ Z.of_nat MAX_INT_DIGITS)
  | JArr l => forallb plain l
  | JObj l => bool_decide (NoDup l.*1) && forallb (λ p, plain p.2) l
  | _ => true
  end.

Lemma read_chars_escape c t :
  read_chars (escape_char c +:+ t) = ('(u, r) ← read_chars t; Some (String c u, r)).
Proof.
  destruct (decide (byte_of_ascii c < 32)) as [Hlt|Hge].
  - destruct t as [|? [|? [|? [|? [|? [|? t]]]]]];
      destruct c as [[] [] [] [] [] [] [] []]; first [exfalso; vm_compute in Hlt; discriminate Hlt | reflexivity].
  - destruct c as [[] [] [] [] [] [] [] []];
      first [exfalso; apply Hge; vm_compute; reflexivity | reflexivity].
Qed.

Lemma read_chars_quote s r : read_chars (escape s +:+ dquote +:+ r) = Some (s, r).
Proof.
  induction s as [|c s IH]; [done|]. simpl escape. by rewrite string_app_assoc, read_chars_escape, IH.
Qed.

(** Nothing of a number is left at the front. *)
Definition num_char (c : ascii) : bool := is_dec c || is_char 46 c || is_char 101 c || is_char 69 c.
Definition stops (r : string) : Prop := first_is num_char r = false.

Lemma span_all p s r : all_chars p s = true → first_is p r = false → span p (s +:+ r) = (s, r).
Proof.
  unfold all_chars. intros Hs Hr. induction s as [|c s IH]; simpl in *.
  - destruct r as [|c r]; [done|]. simpl in *. by rewrite Hr.
  - apply andb_true_iff in Hs as [Hc Hs]. by rewrite Hc, IH.
Qed.

Lemma stops_dec r : stops r → first_is is_dec r = false.
Proof. unfold stops. destruct r as [|c r]; [done|]. simpl. unfold num_char. by destruct (is_dec c). Qed.

Lemma stops_fraction r : stops r → read_fraction r = ("", r).
Proof.
  unfold stops. destruct r as [|c r]; [done|]. simpl. unfold num_char.
  destruct (is_char 46 c); [|done]. by rewrite orb_true_r.
Qed.

Lemma stops_exponent r : stops r → read_exponent r = ("", r).
Proof.
  unfold stops. destruct r as [|c r]; [done|]. simpl. unfold num_char.
  destruct (is_char 101 c); simpl; [by rewrite orb_true_r|].
  destruct (is_char 69 c); [|done]. by rewrite orb_true_r.
Qed.

(** The first digit of a positive integer. *)
Lemma pretty_pos z : 0 < z < 10 ^ Z.of_nat MAX_INT_DIGITS → ∃ c d, pretty z = String c d ∧
  in_range 49 57 c = true ∧ all_chars is_dec d = true ∧ (S (String.length d) <= MAX_INT_DIGITS)%nat.
Proof.
  intros Hz. pose proof (pos_dec_pretty (MAX_INT_DIGITS - 1) z) as H.
  replace (Z.of_nat (MAX_INT_DIGITS - 1) + 1) with (Z.of_nat MAX_INT_DIGITS) in H by done. specialize (H Hz).
  destruct (pretty z) as [|c d]; [done|]. exists c, d. unfold pos_dec in H. to_prop. split_and!; [done..|].
  match goal with H : (_ <=? _)%nat = true |- _ => apply Nat.leb_le in H as Hl end.
  change (MAX_INT_DIGITS - 1)%nat with (pred MAX_INT_DIGITS) in Hl.
  assert (MAX_INT_DIGITS ≠ 0)%nat by done. lia.
Qed.

Lemma is_char_range n lo hi c : in_range lo hi c = true → n < lo ∨ hi < n → is_char n c = false.
Proof. unfold in_range, is_char. intros H ?. to_prop. apply Z.eqb_neq. lia. Qed.

Section roundtrip.
Context {FT : FloatText} (strict : bool).

Lemma read_nonneg z r : 0 ≤ z < 10 ^ Z.of_nat MAX_INT_DIGITS → stops r →
  ∃ int, read_int_part (pretty z +:+ r) = Some (int, r) ∧ (String.length int <= MAX_INT_DIGITS)%nat ∧
    dec_value int = z.
Proof.
  intros Hz Hr. destruct (decide (z = 0)) as [->|Hne].
  { exists "0". split_and!; [done|apply Nat.leb_le; done|done]. }
  pose proof (dec_value_pretty z ltac:(lia)) as Hv.
  destruct (pretty_pos z ltac:(lia)) as (c & d & E & Hc & Hd & Hl). rewrite E in Hv |- *.
  exists (String c d). split_and!; [|done..]. cbn [String.append read_int_part].
  rewrite (is_char_range 48 49 57), Hc by (done || lia).
  by rewrite span_all by (done || by apply stops_dec).
Qed.

Lemma no_sign z r : 0 ≤ z → read_sign (pretty z +:+ r) = ("", pretty z +:+ r).
Proof.
  intros Hz. destruct (decide (z = 0)) as [->|Hne]; [done|].
  destruct (go_first (Z.to_N z) "") as (c & d & E & Hc); [lia|].
  assert (pretty z = String c d) as -> by (rewrite <-E; by destruct z).
  simpl. by rewrite (is_char_range 45 49 57) by (done || lia).
Qed.

Lemma read_int z r : Z.abs z < 10 ^ Z.of_nat MAX_INT_DIGITS → stops r →
  read_number (pretty z +:+ r) = Some (JInt z, r).
Proof.
  intros Hz Hr. unfold read_number. destruct (decide (0 ≤ z)) as [Hp|Hn].
  - rewrite no_sign by done. destruct (read_nonneg z r ltac:(lia) Hr) as (i & -> & Hl & Hv).
    cbn [mbind option_bind]. rewrite stops_fraction, stops_exponent by done.
    rewrite (proj2 (Nat.leb_le _ _) Hl), Hv. done.
  - assert (pretty z = "-" +:+ pretty (- z)) as -> by (destruct z; done || lia).
    cbn [String.append]. unfold read_sign. change (is_char 45 "-") with true. cbn iota.
    destruct (read_nonneg (- z) r ltac:(lia) Hr) as (i & -> & Hl & Hv).
    cbn [mbind option_bind]. rewrite stops_fraction, stops_exponent by done.
    rewrite (proj2 (Nat.leb_le _ _) Hl), Hv. simpl. by rewrite Z.opp_involutive.
Qed.

(** A number is not a literal. *)
Lemma read_literal_int z r : Z.abs z < 10 ^ Z.of_nat MAX_INT_DIGITS → stops r →
  read_literal strict (pretty z +:+ r) = Some (JInt z, r).
Proof.
  intros Hz Hr. rewrite <-(read_int z r) by done. unfold read_literal.
  assert (∀ c s, in_range 48 57 c = true → ∀ d p, byte_of_ascii d < 48 ∨ 57 < byte_of_ascii d →
    strip_prefix (String d p) (String c s) = None) as Hne.
  { intros c s Hc d p Hd. simpl. rewrite decide_False; [done|]. intros ->. unfold in_range in Hc. to_prop. lia. }
  assert (∀ y, 0 ≤ y < 10 ^ Z.of_nat MAX_INT_DIGITS → ∃ c s, pretty y +:+ r = String c s ∧ in_range 48 57 c = true) as Hf.
  { intros y Hy. destruct (decide (y = 0)) as [->|?]; [by eexists _, _|].
    destruct (pretty_pos y ltac:(lia)) as (c & d & -> & Hc & _). eexists _, _. split; [done|].
    revert Hc. apply char_implies. vm_compute. reflexivity. }
  destruct (decide (0 ≤ z)) as [Hp|Hn].
  - destruct (Hf z ltac:(lia)) as (c & s & -> & Hc). rewrite !(Hne c s Hc) by (vm_compute; auto). done.
  - assert (pretty z = "-" +:+ pretty (- z)) as -> by (destruct z; done || lia).
    destruct (Hf (- z) ltac:(lia)) as (c & s & E & Hc). rewrite string_app_assoc, E.
    change ("-" +:+ String c s) with (String "-" (String c s)).
    assert (strip_prefix "-Infinity" (String "-" (String c s)) = None) as ->.
    { change (strip_prefix "Infinity" (String c s) = None). apply Hne; [done|]. vm_compute. auto. }
    done.
Qed.

(** With enough fuel, a document is read up to what follows it. *)
Definition reads (v : json) (s r : string) : Prop := ∃ fuel, read_value strict fuel s = Some (v, r).

Lemma read_value_more f f' s v r :
  read_value strict f s = Some (v, r) → (2 * String.length s <= f')%nat → read_value strict f' s = Some (v, r).
Proof. intros H ?. destruct (read_fuel strict f) as [Hv _]. apply (Hv _ _ _ H). lia. Qed.

Lemma read_items_more f f' s l r :
  read_items strict f s = Some (l, r) → (2 * String.length s <= f')%nat → read_items strict f' s = Some (l, r).
Proof. intros H ?. destruct (read_fuel strict f) as (_ & Hi & _). apply (Hi _ _ _ H). lia. Qed.

Lemma read_members_more f f' s l r :
  read_members strict f s = Some (l, r) → (2 * String.length s <= f')%nat → read_members strict f' s = Some (l, r).
Proof. intros H ?. destruct (read_fuel strict f) as (_ & _ & Hm). apply (Hm _ _ _ H). lia. Qed.

(** No white space and no closing bracket starts a document. *)
Definition starts (s : string) : Prop := ∃ c r, s = String c r ∧ is_ws c = false ∧ is_char 93 c = false.

Lemma starts_skip s : starts s → skip_ws s = s ∧ strip_prefix "]" s = None.
Proof.
  intros (c & r & -> & Hw & Hb). simpl. rewrite Hw. split; [done|]. rewrite decide_False; [done|].
  intros <-. discriminate Hb.
Qed.

Lemma starts_dumps v r : plain v = true → starts (dumps v +:+ r).
Proof.
  intros Hv. assert (∃ c s, dumps v = String c s ∧ is_ws c = false ∧ is_char 93 c = false) as (c & s & -> & Hc).
  { destruct v as [|[]|z|?|s|l|l]; cycle 3; [|done|by eexists _, _..].
    simpl in Hv. to_prop. destruct (decide (z = 0)) as [->|?]; [by eexists _, _|].
    destruct (decide (0 ≤ z)).
    - destruct (pretty_pos z ltac:(lia)) as (c & d & E & Hc & _). exists c, d. split; [exact E|].
      unfold is_ws. rewrite !(is_char_range _ 49 57) by (done || lia). done.
    - exists "-"%char, (pretty (- z)). split; [by destruct z; done || lia|done]. }
  exists c, (s +:+ r). done.
Qed.

Lemma members_plain l : NoDup l.*1 → members_object strict l = Some (JObj l).
Proof.
  intros Hnd. unfold members_object. rewrite bool_decide_eq_false_2 by (intros H; by apply H).
  rewrite andb_false_r. do 2 f_equal.
  assert (∀ d : list (string * json), NoDup (d ++ l).*1 → foldl (λ d p, dset p.1 p.2 d) d l = d ++ l) as Hf.
  { clear Hnd. induction l as [|[k v] l IH]; intros d Hnd; simpl; [by rewrite app_nil_r|].
    rewrite dset_new.
    - rewrite IH by (by rewrite <-app_assoc). by rewrite <-app_assoc.
    - rewrite fmap_app in Hnd. apply NoDup_app in Hnd as (_ & Hd & _). intros Hk. apply (Hd k Hk). constructor. }
  by rewrite (Hf []).
Qed.

Lemma join_comma_cons {A} (f : A → string) x y l :
  join_comma (f <$> x :: y :: l) = f x +:+ String "," (join_comma (f <$> y :: l)).
Proof. done. Qed.

Lemma reads_items (x : json) l r :
  (∀ y, y ∈ x :: l → plain y = true ∧ ∀ r, stops r → reads (canon y) (dumps y +:+ r) r) →
  ∃ fuel, read_items strict fuel (join_comma (dumps <$> x :: l) +:+ String "]" r) = Some (canon <$> x :: l, r).
Proof.
  revert x. induction l as [|y l IH]; intros x Hl.
  - destruct (Hl x) as [_ Hx]; [constructor|]. destruct (Hx (String "]" r)) as [f Hf]; [done|].
    exists (S f). rewrite read_items_S. change (join_comma (dumps <$> [x])) with (dumps x). by rewrite Hf.
  - destruct (Hl x) as [_ Hx]; [constructor|]. destruct (IH y) as [g Hg]; [intros; apply Hl; by constructor|].
    set (t := join_comma (dumps <$> y :: l) +:+ String "]" r) in *.
    destruct (Hx (String "," t)) as [f Hf]; [done|].
    rewrite join_comma_cons, string_app_assoc. change (String "," (join_comma (dumps <$> y :: l)) +:+ String "]" r)
      with (String "," t).
    set (s := dumps x +:+ String "," t) in *.
    assert (String.length t <= String.length s)%nat as Hlen.
    { subst s. rewrite length_string_app. simpl. lia. }
    exists (S (2 * String.length s)). rewrite read_items_S, (read_value_more f _ _ _ _ Hf) by done.
    cbn [mbind option_bind skip_ws]. change (is_ws ",") with false. cbn iota.
    change (strip_prefix "," (String "," t)) with (Some t). cbn iota.
    assert (starts t) as [Hs _]%starts_skip.
    { subst t. destruct (Hl y) as [Hy _]; [right; left|]. destruct l as [|z l].
      - by apply (starts_dumps y).
      - rewrite join_comma_cons, string_app_assoc. by apply starts_dumps. }
    rewrite Hs, (read_items_more g _ _ _ _ Hg) by lia. done.
Qed.

Lemma reads_members (p : string * json) l r :
  (∀ q, q ∈ p :: l → ∀ r, stops r → starts (dumps q.2 +:+ r) ∧ reads (canon q.2) (dumps q.2 +:+ r) r) →
  ∃ fuel, read_members strict fuel
    (join_comma ((λ q, obj_item (q.1, dumps q.2)) <$> p :: l) +:+ String "}" r) =
    Some ((λ q, (q.1, canon q.2)) <$> p :: l, r).
Proof.
  assert (∀ q t, (∀ r, stops r → starts (dumps q.2 +:+ r) ∧ reads (canon q.2) (dumps q.2 +:+ r) r) → stops t →
    ∃ f, ∀ f', (f <= f')%nat → read_members strict (S f') (obj_item (q.1, dumps q.2) +:+ t) =
      match strip_prefix "," (skip_ws t), strip_prefix "}" (skip_ws t) with
      | Some r, _ => '(l, r) ← read_members strict f' (skip_ws r); Some ((q.1, canon q.2) :: l, r)
      | None, Some r => Some ([(q.1, canon q.2)], r)
      | None, None => None
      end) as Hone.
  { intros q t Hq Ht. destruct (Hq t Ht) as [[Hs _]%starts_skip [f Hf]].
    exists (2 * String.length (dumps q.2 +:+ t))%nat. intros f' Hf'.
    rewrite read_members_S. unfold obj_item, quote. cbn [fst snd]. rewrite !string_app_assoc.
    rewrite strip_prefix_app. cbn [mbind option_bind]. rewrite read_chars_quote. cbn [mbind option_bind].
    change (skip_ws (":" +:+ (dumps q.2 +:+ t))) with (":" +:+ (dumps q.2 +:+ t)).
    rewrite strip_prefix_app. cbn [mbind option_bind]. rewrite Hs, (read_value_more f _ _ _ _ Hf) by done. done. }
  revert p. induction l as [|q l IH]; intros p Hl.
  - destruct (Hone p (String "}" r)) as [f Hf]; [apply Hl; constructor|done|].
    exists (S f). change (join_comma _) with (obj_item (p.1, dumps p.2)). by rewrite (Hf f).
  - destruct (IH q) as [g Hg]; [intros; apply Hl; [by constructor|done]|].
    set (t := join_comma ((λ q, obj_item (q.1, dumps q.2)) <$> q :: l) +:+ String "}" r) in *.
    destruct (Hone p (String "," t)) as [f Hf]; [apply Hl; constructor|done|].
    rewrite join_comma_cons, string_app_assoc.
    change (String "," (join_comma ((λ q, obj_item (q.1, dumps q.2)) <$> q :: l)) +:+ String "}" r)
      with (String "," t).
    exists (S (f + 2 * String.length t)). rewrite (Hf (f + 2 * String.length t)%nat) by lia.
    change (skip_ws (String "," t)) with (String "," t). change (strip_prefix "," (String "," t)) with (Some t).
    cbn iota. assert (skip_ws t = t) as ->.
    { subst t. destruct l; reflexivity. }
    rewrite (read_members_more g _ _ _ _ Hg) by lia. done.
Qed.

Lemma read_scalar c s : is_char 34 c = false → is_char 91 c = false → is_char 123 c = false →
  read_value strict 1 (String c s) = read_literal strict (String c s).
Proof. intros H1 H2 H3. by rewrite read_value_S, H1, H2, H3. Qed.

Lemma reads_int z r : Z.abs z < 10 ^ Z.of_nat MAX_INT_DIGITS → stops r → reads (JInt z) (pretty z +:+ r) r.
Proof.
  intros Hz Hr. exists 1%nat. rewrite <-(read_literal_int z r) by done.
  assert (∃ c s, pretty z = String c s ∧ is_num c = true) as (c & s & -> & Hc).
  { pose proof (pretty_num z) as [_ Hf]. destruct (pretty z) as [|c s]; [done|]. by exists c, s. }
  assert (∀ n, implb (is_num c) (negb (is_char n c)) = true → is_char n c = false) as Hn.
  { intros n. rewrite Hc. simpl. by destruct (is_char n c). }
  apply read_scalar; apply Hn; clear -c; revert c; apply (char_all (λ c, implb (is_num c) (negb (is_char _ c))));
    vm_compute; reflexivity.
Qed.

Lemma reads_dumps v : plain v = true → ∀ r, stops r → reads (canon v) (dumps v +:+ r) r.
Proof.
  induction v as [|[]|z|fl|s|l IH|l IH] using json_nested_ind; intros Hv r Hr.
  - by exists 1%nat.
  - by exists 1%nat.
  - by exists 1%nat.
  - simpl in Hv. to_prop. by apply reads_int.
  - done.
  - exists 1%nat. simpl dumps. unfold quote. rewrite !string_app_assoc. unfold dquote at 1. cbn [String.append].
    rewrite read_value_S. change (is_char 34 (ascii_of_byte 34)) with true. cbn iota. by rewrite read_chars_quote.
  - simpl in Hv. rewrite forallb_elem_of in Hv. rewrite Forall_forall in IH.
    destruct l as [|x l]; [by exists 1%nat|].
    destruct (reads_items x l r) as [f Hf]; [intros y Hy; split; [by apply Hv|by apply IH, Hv]|].
    exists (S f). change (dumps (JArr (x :: l))) with ("[" +:+ (join_comma (dumps <$> x :: l) +:+ "]")).
    rewrite !string_app_assoc.
    change ("[" +:+ (join_comma (dumps <$> x :: l) +:+ ("]" +:+ r)))
      with (String "[" (join_comma (dumps <$> x :: l) +:+ String "]" r)).
    rewrite read_value_S. change (is_char 34 "[") with false. change (is_char 91 "[") with true. cbn iota.
    assert (starts (join_comma (dumps <$> x :: l) +:+ String "]" r)) as [-> ->]%starts_skip.
    { assert (plain x = true) by (apply Hv; left). destruct l as [|y l]; [by apply (starts_dumps x)|].
      rewrite join_comma_cons, string_app_assoc. by apply starts_dumps. }
    by rewrite Hf.
  - simpl in Hv. to_prop. match goal with H : forallb _ _ = true |- _ => rewrite forallb_elem_of in H; rename H into Hp end.
    rewrite Forall_forall in IH. rewrite dumps_obj, !string_app_assoc.
    cbn [canon]. rewrite sort_keys_fmap.
    assert (NoDup (py_sort key_leb l).*1) as Hnd by (by rewrite (fmap_Permutation _ _ _ (py_sort_Permutation key_leb l))).
    assert (∀ q, q ∈ py_sort key_leb l → ∀ r, stops r →
      starts (dumps q.2 +:+ r) ∧ reads (canon q.2) (dumps q.2 +:+ r) r) as Hq.
    { intros q Hq r' Hr'. apply elem_of_py_sort in Hq. split; [by apply starts_dumps, Hp|]. by apply IH; [|apply Hp|]. }
    destruct (py_sort key_leb l) as [|p k]; [by exists 1%nat|].
    destruct (reads_members p k r Hq) as [f Hf]. exists (S f).
    set (t := join_comma _ +:+ ("}" +:+ r)). change ("{" +:+ t) with (String "{" t). rewrite read_value_S.
    change (is_char 34 "{") with false. change (is_char 91 "{") with false. change (is_char 123 "{") with true. cbn iota.
    assert (skip_ws t = t ∧ strip_prefix "}" t = None) as [-> ->].
    { subst t. destruct k; split; reflexivity. }
    unfold t. change ("}" +:+ r) with (String "}" r). rewrite Hf. cbn [mbind option_bind].
    rewrite members_plain; [done|]. rewrite <-list_fmap_compose. exact Hnd.
Qed.

(** [json.loads(json.dumps(value))] is the value, its keys in the order they were written. *)
Lemma loads_dumps v : plain v = true → loads strict (dumps v) = Some (canon v).
Proof.
  intros Hv. destruct (reads_dumps v Hv "" eq_refl) as [f Hf].
  destruct (starts_skip (dumps v +:+ "")) as [Hs _]; [by apply starts_dumps|].
  rewrite string_app_nil in Hs, Hf. apply (loads_fuel strict f _ _ ""); [by rewrite Hs|done].
Qed.
End roundtrip.
