(* ===== verification/JsonValues.v ===== *)
(** * JSON values as Python handles them

    What the program asks of the values [json.loads] returns: their type, their members, the
    characters of a text; and the equality of documents up to the order of their keys, with
    the lemmas that rewrite under it. *)

From S2P Require Import Prelude PyDict Hash Json Decimal Canonical JsonRead.

(** ** JSON values in Python *)

(** [isinstance(v, dict)] and the like; [d.get(k)] on a dictionary. *)
Definition is_dict (v : json) : bool := match v with JObj _ => true | _ => false end.
Definition is_list (v : json) : bool := match v with JArr _ => true | _ => false end.
Definition is_str (v : json) : bool := match v with JStr _ => true | _ => false end.
Definition is_null (v : json) : bool := match v with JNull => true | _ => false end.

Definition get (k : string) (d : list (string * json)) : json := default JNull (dget k d).

(** [v.get(k) if isinstance(v, dict) else None] *)
Definition vget (k : string) (v : json) : json := match v with JObj d => get k d | _ => JNull end.

(** [bool(v)] *)
Definition jtrue (v : json) : bool :=
  match v with
  | JNull => false
  | JBool b => b
  | JInt z => negb (z =? 0)
  | JFloat r => negb (bool_decide (r ∈ ["0.0"; "-0.0"]))
  | JStr s => negb (bool_decide (s = ""))
  | JArr l => negb (bool_decide (l = []))
  | JObj l => negb (bool_decide (l = []))
  end.

(** The characters of a text: a byte with the continuation bytes after it. *)
Fixpoint characters (s : string) : list string :=
  match s with
  | "" => []
  | String c r =>
      match characters r, r with
      | t :: ts, String d _ => if is_cont d then String c t :: ts else String c "" :: t :: ts
      | _, _ => [String c ""]
      end
  end.

(** ** Documents up to the order of keys *)

(** No object repeats a key: what [json.loads] returns. *)
Fixpoint keyed (v : json) : bool :=
  match v with
  | JArr l => forallb keyed l
  | JObj l => bool_decide (NoDup l.*1) && forallb (λ p, keyed p.2) l
  | _ => true
  end.

(** Equal up to the order of keys. *)
Definition jeq (v w : json) : Prop := canon v = canon w.

#[export] Instance jeq_equivalence : Equivalence jeq.
Proof.
  split; unfold jeq; [by intros v|by intros v w|]. intros u v w. apply eq_trans.
Qed.

Definition deq (d1 d2 : list (string * json)) : Prop := ∀ k, canon <$> dget k d1 = canon <$> dget k d2.

#[export] Instance deq_equivalence : Equivalence deq.
Proof.
  split; unfold deq; [by intros d k|by intros d d' H k|]. intros d1 d2 d3 H1 H2 k. by rewrite H1, H2.
Qed.

Lemma keyed_obj l : keyed (JObj l) = true ↔ NoDup l.*1 ∧ ∀ k v, (k, v) ∈ l → keyed v = true.
Proof.
  simpl. rewrite andb_true_iff, bool_decide_eq_true, forallb_elem_of. split; intros [H1 H2]; split; try done.
  - intros k v. apply (H2 (k, v)).
  - intros [k v] Hp. by apply (H2 k).
Qed.

Lemma keyed_get k d : keyed (JObj d) = true → keyed (get k d) = true.
Proof.
  intros [_ H]%keyed_obj. unfold get. destruct (dget k d) as [v|] eqn:E; [|done].
  apply dget_Some_elem in E. by eapply H.
Qed.

Lemma dget_fmap {A B} (f : A → B) k (d : list (string * A)) :
  dget k ((λ p, (p.1, f p.2)) <$> d) = f <$> dget k d.
Proof. induction d as [|[k' v] d IH]; csimpl; [done|]. by case_decide. Qed.

Lemma dget_filter (P : string * json → Prop) `{∀ p, Decision (P p)} k d :
  NoDup d.*1 → dget k (filter P d) = (v ← dget k d; if decide (P (k, v)) then Some v else None).
Proof.
  induction d as [|[k' v] d IH]; csimpl; [done|]. intros [Hk Hd]%NoDup_cons.
  rewrite filter_cons. destruct (decide (k = k')) as [<-|Hkk].
  - simpl. case_decide; simpl; [by rewrite decide_True|]. apply dget_None.
    intros Hin. apply Hk. apply list_elem_of_fmap in Hin as (p & -> & [_ Hp]%list_elem_of_filter).
    apply list_elem_of_fmap. by exists p.
  - case_decide; simpl; [rewrite decide_False by done|]; auto.
Qed.

Lemma NoDup_filter_keys (P : string * json → Prop) `{∀ p, Decision (P p)} d :
  NoDup d.*1 → NoDup (filter P d).*1.
Proof.
  induction d as [|[k v] d IH]; csimpl; [done|]. intros [Hk Hd]%NoDup_cons. rewrite filter_cons.
  case_decide; [|auto]. csimpl. apply NoDup_cons. split; [|auto]. intros Hin. apply Hk.
  apply list_elem_of_fmap in Hin as (p & -> & [_ Hp]%list_elem_of_filter). apply list_elem_of_fmap. by exists p.
Qed.

Lemma canon_obj_Permutation l1 l2 :
  NoDup l1.*1 → l1 ≡ₚ l2 → py_sort key_leb l1 = py_sort (@key_leb json) l2.
Proof.
  intros Hnd Hp. apply py_sort_Permutation_eq; [apply _| |done].
  intros [k v] [k' v'] H1 H2 H3 H4. simpl in *. pose proof (String.leb_antisym _ _ H3 H4) as Hk. simpl in Hk. subst k'.
  apply elem_dget in H1, H2; [|done..]. congruence.
Qed.

(** Two dictionaries are the same object exactly when every key has the same value. *)
Lemma dict_jeq d1 d2 :
  NoDup d1.*1 → NoDup d2.*1 → jeq (JObj d1) (JObj d2) ↔ deq d1 d2.
Proof.
  intros H1 H2. unfold jeq, deq. simpl. set (c := λ p : string * json, (p.1, canon p.2)).
  assert (∀ d : list (string * json), (c <$> d).*1 = d.*1) as Hkeys.
  { intros d. by rewrite <-list_fmap_compose. }
  assert (∀ d k, dget k (c <$> d) = canon <$> dget k d) as Hget by (intros; apply dget_fmap).
  split.
  - intros [= Hs] k. rewrite <-!Hget.
    assert (c <$> d1 ≡ₚ c <$> d2) as Hp.
    { rewrite <-(py_sort_Permutation key_leb (c <$> d1)), Hs. apply py_sort_Permutation. }
    destruct (dget k (c <$> d1)) as [v|] eqn:E.
    + symmetry. apply elem_dget; [by rewrite Hkeys|]. rewrite <-Hp. by apply dget_Some_elem.
    + symmetry. apply dget_None. apply dget_None in E. by rewrite <-Hp.
  - intros H. f_equal. apply canon_obj_Permutation; [by rewrite Hkeys|].
    apply NoDup_Permutation; [eapply NoDup_fmap_1; by rewrite Hkeys..|]. intros [k v].
    split; intros Hin; apply dget_Some_elem; (apply elem_dget in Hin; [|by rewrite Hkeys]);
      rewrite Hget in *; congruence.
Qed.

Lemma deq_get k d1 d2 : deq d1 d2 → jeq (get k d1) (get k d2).
Proof.
  intros H. specialize (H k). unfold jeq, get. destruct (dget k d1), (dget k d2); simpl in *; congruence.
Qed.

Lemma deq_dset k v w d1 d2 : deq d1 d2 → jeq v w → deq (dset k v d1) (dset k w d2).
Proof. intros H Hv k'. rewrite !dget_dset. case_decide; [simpl; by rewrite Hv|apply H]. Qed.

Lemma deq_ddel k d1 d2 : deq d1 d2 → deq (ddel k d1) (ddel k d2).
Proof. intros H k'. rewrite !dget_ddel. case_decide; [done|apply H]. Qed.

Lemma deq_filter (P Q : string * json → Prop) `{∀ p, Decision (P p)} `{∀ p, Decision (Q p)} d1 d2 :
  NoDup d1.*1 → NoDup d2.*1 → (∀ k v w, jeq v w → P (k, v) ↔ Q (k, w)) → deq d1 d2 →
  deq (filter P d1) (filter Q d2).
Proof.
  intros H1 H2 HPQ Hd k. rewrite !dget_filter by done. specialize (Hd k).
  destruct (dget k d1) as [v|], (dget k d2) as [w|]; simpl in *; [|done..].
  assert (jeq v w) as Hvw by (unfold jeq; congruence). pose proof (HPQ k v w Hvw).
  repeat case_decide; simpl; [done|tauto|tauto|done].
Qed.

(** What a document without objects at its root says does not change. *)
Lemma jeq_str v s : jeq v (JStr s) ↔ v = JStr s.
Proof. unfold jeq. destruct v; simpl; naive_solver. Qed.

Lemma jeq_null v w : jeq v w → is_null v = is_null w.
Proof. unfold jeq. by destruct v, w. Qed.

Lemma jeq_arr l k : jeq (JArr l) (JArr k) ↔ Forall2 jeq l k.
Proof.
  unfold jeq. simpl. split.
  - intros [= H]. revert k H. induction l as [|v l IH]; intros [|w k]; simpl; intros H; simplify_eq; constructor; auto.
  - intros H. f_equal. by apply list_eq_Forall2, Forall2_fmap.
Qed.

Lemma jeq_nil v w : jeq v w → v = JArr [] ↔ w = JArr [].
Proof. unfold jeq. destruct v as [| | | | |[|]|], w as [| | | | |[|]|]; simpl; naive_solver. Qed.
