(* ===== verification/SealDigest.v ===== *)
(** * Record digests and seal digests

    The digest functions of [fabric/_seal.py] (spec 049 section 2.12, spec 050 section 3.7):
    the canonical record digest, the seal digest of a segment, and the compact form in which
    the accumulator keeps one entry per settled position. A Python tuple and a list are the
    same JSON value here, so [_plain] is the identity. *)

From S2P Require Import Prelude PyDict Hash Json Decimal Canonical Ids.

Definition RECEIVER_OWNED_KEYS : list string := ["fabric.source.authenticated"].
Definition LOSS_ENTRY_PREFIX : string := "loss:".
Definition DIGEST_PREFIX : string := "sha256:".
Definition DIGEST_LENGTH : nat := String.length DIGEST_PREFIX + 64.
Definition STATUSES : list string := ["unset"; "ok"; "error"].

Definition loss_entry (reason : string) : string := LOSS_ENTRY_PREFIX +:+ reason.

Definition sha256_digest (data : list Z) : string := DIGEST_PREFIX +:+ hexdigest data.

(** ** Record digests *)

(** The keyword arguments of [record_digest]. *)
Record RecordFields := mk_fields {
  f_name : string;
  f_start_ns : Z;
  f_end_ns : Z;
  f_status : string;
  f_attributes : list (string * json);
  f_content : list (option string);
}.

Definition sealed_attributes (r : RecordFields) : list (string * json) :=
  filter (λ p, p.1 ∉ RECEIVER_OWNED_KEYS) (f_attributes r).

Definition opt_str (o : option string) : json := match o with Some s => JStr s | None => JNull end.

Definition record_document (r : RecordFields) : json :=
  JObj [("name", JStr (f_name r)); ("start_ns", JInt (f_start_ns r));
        ("end_ns", JInt (f_end_ns r)); ("status", JStr (f_status r));
        ("attributes", JObj (sealed_attributes r));
        ("content", JArr (opt_str <$> f_content r))].

Definition record_digest (r : RecordFields) : result string :=
  if bool_decide (f_status r ∈ STATUSES) then
    data ← canonical_bytes (record_document r); Ok (sha256_digest data)
  else Raise ValueError.

(** ** Seal digests *)

Definition pair_leb (p q : Z * string) : bool := p.1 <=? q.1.

#[export] Instance pair_leb_order : TotalPreorder pair_leb.
Proof. apply (key_TotalPreorder fst Z.leb). apply _. Qed.

(** The document a seal digest is computed over. *)
Definition seal_document (pairs : list (Z * string)) : json :=
  JArr ((λ p, JArr [JInt p.1; JStr p.2]) <$> pairs).

Definition seal_digest (entries : list (Z * string)) : result string :=
  let pairs := py_sort pair_leb entries in
  if decide (length (fromkeys pairs.*1) = length pairs) then
    data ← canonical_bytes (seal_document pairs); Ok (sha256_digest data)
  else Raise ValueError.

(** ** Compact entries *)

(** A 32-byte record digest ([bytes]) or a loss reason ([str]). *)
Inductive Compact := CDigest (b : list Z) | CLoss (reason : string).

#[export] Instance Compact_eq_dec : EqDecision Compact.
Proof. solve_decision. Defined.

Definition compact (entry : string) : result Compact :=
  match strip_prefix DIGEST_PREFIX entry with
  | Some rest =>
      if decide (String.length entry = DIGEST_LENGTH)
      then CDigest <$> or_raise ValueError (fromhex rest) else Raise ValueError
  | None =>
      match strip_prefix LOSS_ENTRY_PREFIX entry with
      | Some rest => if decide (rest = "") then Raise ValueError else Ok (CLoss rest)
      | None => Raise ValueError
      end
  end.

Definition expand (entry : Compact) : string :=
  match entry with
  | CDigest b => DIGEST_PREFIX +:+ hex_of_bytes b
  | CLoss reason => LOSS_ENTRY_PREFIX +:+ reason
  end.

(** ** Properties of the compact form *)

Lemma hex_value_hex c :
  is_hex c = true → ∃ n, 0 ≤ n < 16 ∧ hex_value c = Some n ∧ hex_digit n = c ∧ is_space c = false.
Proof.
  intros Hc.
  pose (q c := match hex_value c with
    | Some n => (0 <=? n) && (n <? 16) && bool_decide (hex_digit n = c) && negb (is_space c)
    | None => false end).
  assert (q c = true) as Hq by (revert c Hc; apply char_implies; vm_compute; reflexivity).
  unfold q in Hq. destruct (hex_value c) as [n|]; [|done]. to_prop. exists n. split_and!; done || lia.
Qed.

(** [bytes.fromhex(s).hex() == s] on lowercase hex of even length. *)
Lemma hex_fromhex n s :
  all_chars is_hex s = true → String.length s = (2 * n)%nat →
  ∃ b, fromhex s = Some b ∧ hex_of_bytes b = s.
Proof.
  revert s. induction n as [|n IH]; intros s Hs Hn.
  { destruct s; [|done]. by exists []. }
  destruct s as [|a [|c s]]; simpl in Hn; [lia..|]. unfold all_chars in Hs. simpl in Hs. to_prop.
  destruct (hex_value_hex a) as (x & Hx & Ex & Dx & Sx); [done|].
  destruct (hex_value_hex c) as (y & Hy & Ey & Dy & _); [done|].
  destruct (IH s) as (b & Hb & Hh); [done|lia|]. exists (16 * x + y :: b).
  simpl. rewrite Sx, Ex, Ey, Hb. split; [done|]. cbn [hex_of_bytes].
  replace ((16 * x + y) / 16) with x by zlia. replace ((16 * x + y) mod 16) with y by zlia.
  by rewrite Dx, Dy, Hh.
Qed.

(** The entries a seal may hold. *)
Definition seal_entry (e : string) : Prop :=
  prefixed_hex DIGEST_PREFIX 64 e = true ∨ ∃ reason, reason ≠ "" ∧ e = loss_entry reason.

(** The compact values a segment may hold. *)
Definition wf_compact (c : Compact) : Prop :=
  match c with CDigest b => Forall is_byte b ∧ length b = 32%nat | CLoss r => r ≠ "" end.

Lemma compact_expand c : wf_compact c → compact (expand c) = Ok c.
Proof.
  destruct c as [b|r]; unfold compact, expand; intros Hc.
  - destruct Hc as [Hb Hl]. rewrite strip_prefix_app.
    rewrite decide_True by (by rewrite length_string_app, length_hex_of_bytes, Hl).
    by rewrite fromhex_hex_of_bytes.
  - change (strip_prefix DIGEST_PREFIX (LOSS_ENTRY_PREFIX +:+ r)) with (@None string).
    rewrite strip_prefix_app. by rewrite decide_False.
Qed.

Lemma seal_entry_compact e : seal_entry e → ∃ c, compact e = Ok c ∧ expand c = e.
Proof.
  intros [H|(r & Hr & ->)].
  - unfold prefixed_hex in H. destruct (strip_prefix DIGEST_PREFIX e) as [rest|] eqn:E; [|done].
    pose proof (strip_prefix_Some _ _ _ E) as ->. unfold hex_n in H. to_prop.
    match goal with H : (_ =? _)%nat = true |- _ => apply Nat.eqb_eq in H as Hl end.
    destruct (hex_fromhex 32 rest) as (b & Hb & Hx); [done|done|]. exists (CDigest b).
    unfold compact. rewrite E, decide_True by (by rewrite length_string_app, Hl).
    rewrite Hb. split; [done|]. simpl. by rewrite Hx.
  - exists (CLoss r). split; [|done]. by apply (compact_expand (CLoss r)).
Qed.

(** The 32-byte form in which a segment keeps its settled positions loses nothing: every
    record digest and loss entry is accepted and expands to itself, and every stored value
    is the compact form of its expansion; an entry that is neither is refused. *)
Theorem compact_roundtrip (e : string) (c : Compact) :
  (seal_entry e → ∃ c, compact e = Ok c ∧ expand c = e) ∧
  (wf_compact c → compact (expand c) = Ok c) ∧
  (strip_prefix DIGEST_PREFIX e = None → strip_prefix LOSS_ENTRY_PREFIX e = None →
   compact e = Raise ValueError).
Proof.
  split_and!; [apply seal_entry_compact|apply compact_expand|].
  intros H1 H2. unfold compact. by rewrite H1, H2.
Qed.

(** ** Properties of the digests *)

(** The bytes a seal digest is computed over. *)
Definition seal_bytes (entries : list (Z * string)) : list Z :=
  encode (dumps (seal_document (py_sort pair_leb entries))).

Lemma seal_document_no_floats ps : no_floats (seal_document ps) = true.
Proof. simpl. by induction ps as [|p ps IH]. Qed.

Lemma seal_digest_eq entries :
  seal_digest entries =
    if decide (NoDup entries.*1) then Ok (sha256_digest (seal_bytes entries))
    else Raise ValueError.
Proof.
  assert (NoDup (py_sort pair_leb entries).*1 ↔ NoDup entries.*1) as Hnd
    by (by rewrite py_sort_Permutation).
  unfold seal_digest. rewrite <-(length_fmap fst (py_sort pair_leb entries)).
  destruct (decide (NoDup entries.*1)) as [Hn|Hn].
  - rewrite decide_True by (apply length_fromkeys; tauto).
    unfold canonical_bytes. by rewrite seal_document_no_floats.
  - rewrite decide_False; [done|]. rewrite length_fromkeys. tauto.
Qed.

Lemma seal_document_inj ps qs : canon (seal_document ps) = canon (seal_document qs) → ps = qs.
Proof.
  simpl. intros [= H]. rewrite <-!list_fmap_compose in H. revert qs H.
  induction ps as [|[i e] ps IH]; intros [|[j f] qs] H; try done.
  csimpl in H. injection H as -> -> H. f_equal. by apply IH.
Qed.

Lemma pair_sort_unique e1 e2 : NoDup e1.*1 → e1 ≡ₚ e2 → py_sort pair_leb e1 = py_sort pair_leb e2.
Proof.
  intros Hnd Hp. apply py_sort_Permutation_eq; [apply _| |done].
  intros [i x] [j y] Hx Hy H1 H2. unfold pair_leb in *. simpl in *. to_prop.
  assert (i = j) as -> by lia. apply elem_dget in Hx, Hy; [|done..]. congruence.
Qed.

(** A seal digest is defined exactly when no position has two entries, is computed over
    bytes that determine the set of entries (two segments are hashed over the same bytes
    exactly when they hold the same entry at every position), and so does not depend on the
    order in which positions settled. *)
Theorem seal_digest_exact (e1 e2 : list (Z * string)) :
  (NoDup e1.*1 → seal_digest e1 = Ok (sha256_digest (seal_bytes e1))) ∧
  (¬ NoDup e1.*1 → seal_digest e1 = Raise ValueError) ∧
  (NoDup e1.*1 → NoDup e2.*1 → (seal_bytes e1 = seal_bytes e2 ↔ e1 ≡ₚ e2)) ∧
  (e1 ≡ₚ e2 → seal_digest e1 = seal_digest e2).
Proof.
  rewrite !seal_digest_eq. split_and!.
  - intros H. by rewrite decide_True.
  - intros H. by rewrite decide_False.
  - intros H1 H2. split.
    + intros H.
      pose proof (canonical_bytes_iff (seal_document (py_sort pair_leb e1))
                    (seal_document (py_sort pair_leb e2))) as Hx.
      unfold canonical_bytes in Hx. rewrite !seal_document_no_floats in Hx.
      specialize (Hx _ eq_refl). destruct Hx as [Hx _].
      destruct Hx as [_ Hx]; [by f_equal|]. apply seal_document_inj in Hx.
      by rewrite <-(py_sort_Permutation pair_leb e1), Hx, py_sort_Permutation.
    + intros Hp. unfold seal_bytes. by rewrite (pair_sort_unique e1 e2).
  - intros Hp. destruct (decide (NoDup e1.*1)) as [Hn|Hn].
    + rewrite decide_True by (by rewrite <-Hp).
      unfold seal_bytes. by rewrite (pair_sort_unique e1 e2).
    + rewrite decide_False; [done|]. by rewrite <-Hp.
Qed.

(** The two documents of a record agree field by field when their bytes do. *)
Lemma record_document_inj r s :
  canon (record_document r) = canon (record_document s) ↔
    f_name r = f_name s ∧ f_start_ns r = f_start_ns s ∧ f_end_ns r = f_end_ns s ∧
    f_status r = f_status s ∧ f_content r = f_content s ∧
    canon (JObj (sealed_attributes r)) = canon (JObj (sealed_attributes s)).
Proof.
  assert (∀ l k : list (option string), canon (JArr (opt_str <$> l)) = canon (JArr (opt_str <$> k)) → l = k)
    as Hc.
  { intros l k. simpl. intros [= H]. rewrite <-!list_fmap_compose in H. revert k H.
    induction l as [|a l IH]; intros [|b k] H; try done. csimpl in H.
    injection H as Ha H. rewrite (IH k) by done. f_equal. destruct a, b; simpl in Ha; congruence. }
  assert (∀ r, canon (record_document r) =
    JObj [("attributes", canon (JObj (sealed_attributes r)));
          ("content", canon (JArr (opt_str <$> f_content r)));
          ("end_ns", JInt (f_end_ns r)); ("name", JStr (f_name r));
          ("start_ns", JInt (f_start_ns r)); ("status", JStr (f_status r))]) as Hd by done.
  rewrite !Hd. split.
  - intros H. injection H as H1 H2 ? ? ? ?. split_and!; try done.
    + apply Hc. simpl. by f_equal.
    + simpl. by f_equal.
  - intros (-> & -> & -> & -> & -> & ->). done.
Qed.

(** A record digest covers exactly the name, the times, the status, the content list and
    the attributes a receiver does not own: changing any of them changes the hashed bytes,
    while receiver-owned attributes and the order of attributes do not reach them; a status
    that is a description, or a float anywhere, has no digest. *)
Theorem record_digest_exact (r s : RecordFields) (d : string) :
  record_digest r = Ok d →
  f_status r ∈ STATUSES ∧
  (∃ b, canonical_bytes (record_document r) = Ok b ∧ d = sha256_digest b ∧
    (canonical_bytes (record_document s) = Ok b ↔
       no_floats (record_document s) = true ∧
       f_name r = f_name s ∧ f_start_ns r = f_start_ns s ∧ f_end_ns r = f_end_ns s ∧
       f_status r = f_status s ∧ f_content r = f_content s ∧
       canon (JObj (sealed_attributes r)) = canon (JObj (sealed_attributes s)))) ∧
  (NoDup (sealed_attributes r).*1 → sealed_attributes r ≡ₚ sealed_attributes s →
   record_digest (mk_fields (f_name r) (f_start_ns r) (f_end_ns r) (f_status r)
                   (f_attributes s) (f_content r)) = Ok d).
Proof.
  intros H. unfold record_digest in *. cbn [f_status]. case_bool_decide as Hs; [|done].
  split; [done|]. destruct (canonical_bytes (record_document r)) as [b|] eqn:Hb; [|done].
  injection H as <-. split.
  - exists b. split_and!; [done..|]. rewrite <-record_document_inj.
    by apply canonical_bytes_iff.
  - intros Hnd Hp. set (r' := mk_fields _ _ _ _ _ _).
    assert (canonical_bytes (record_document r') = Ok b) as ->; [|done].
    apply (canonical_bytes_iff (record_document r) (record_document r') b Hb).
    assert (no_floats (record_document r) = true) as Hf
      by (unfold canonical_bytes in Hb; by destruct (no_floats (record_document r))).
    split.
    + revert Hf. cbn [record_document no_floats forallb fst snd f_content r'].
      change (sealed_attributes r') with (sealed_attributes s). rewrite !andb_true_iff.
      intros (? & ? & ? & ? & Ha & ?). split_and!; try tauto.
      rewrite forallb_elem_of in Ha |- *. intros p Hin. apply Ha. by rewrite Hp.
    + apply record_document_inj. split_and!; [done..|].
      change (sealed_attributes r') with (sealed_attributes s). simpl. f_equal.
      rewrite !sort_keys_fmap. f_equal. apply py_sort_Permutation_eq; [apply _| |done].
      intros [k v] [k' v'] Hk Hk' H1 H2. pose proof (String.leb_antisym _ _ H1 H2) as Hkk.
      simpl in Hkk. subst k'. apply elem_dget in Hk, Hk'; [|done..]. congruence.
Qed.

(** ** The published vectors ([contracts/coverage/v1/fixtures/vectors/seal-digest-v1.json]) *)

Example seal_digest_empty :
  seal_digest [] = Ok "sha256:4f53cda18c2baa0c0354bb5f9a3ecbe5ed12ab4d8e11ba873c2f11161202b945".
Proof. vm_compute. reflexivity. Qed.

Definition vector_entries : list (Z * string) :=
  [(3, "sha256:3f63cae0ac3e91b1c5483d8d6040e3641f197250190330c618fc5969b236388f");
   (5, "sha256:1c3bcf79f9b9383756119cbcc15d87fbef4fb4b534ba5909e78614bbe0a10ad8");
   (6, "loss:queue_full"); (7, "loss:queue_full")].

Example seal_digest_segment :
  seal_digest (reverse vector_entries) =
    Ok "sha256:dcbb74c43b3a72439d53e551c9c155a3463a8e5cce29566a99b0a740cd229d8d".
Proof. vm_compute. reflexivity. Qed.

Definition vector_record : RecordFields :=
  mk_fields "fabric.tool_call" 1791331202050001000 1791331202053001000 "error"
    [("fabric.capture.input", JStr "records");
     ("fabric.capture.source", JStr "reported");
     ("fabric.capture.point", JStr "sdk.records@0.9.0");
     ("fabric.source_id", JStr "wire-3f9a1c2b7d4e5f60");
     ("fabric.source.epoch", JInt 9223372036854775807);
     ("fabric.source.sequence", JInt 9223372036854775806);
     ("fabric.event_id", JStr "e073061c-9fe5-4b51-af74-a6e6531ded84");
     ("fabric.attempt.uid", JStr "1ea2eb10-eecb-47b8-aaef-1611af7d9fda");
     ("fabric.run.id", JStr "r-c5aedfd8a3ee415e277e335bf1517ff4");
     ("fabric.run.scope_id", JStr "3d7e1f2a-9b4c-4e5d-8a6f-1b2c3d4e5f60");
     ("fabric.run.segment_id", JStr "seg-dc036958c70a72cf420903c9385c1051");
     ("fabric.step.kind", JStr "tool_call");
     ("fabric.step.lifecycle_state", JStr "completed");
     ("fabric.step.status", JStr "ok");
     ("fabric.actor.type", JStr "agent")]
    [].

Example record_digest_vector :
  record_digest vector_record =
    Ok "sha256:088596a3f596400b5c80a8ee289b6c48e754b4680862aad631bee077d1fbcf74".
Proof. vm_compute. reflexivity. Qed.

Lemma record_digest_exact_witness :
  f_status vector_record ∈ STATUSES ∧
  ∃ b, canonical_bytes (record_document vector_record) = Ok b ∧
       "sha256:088596a3f596400b5c80a8ee289b6c48e754b4680862aad631bee077d1fbcf74" = sha256_digest b.
Proof.
  destruct (record_digest_exact vector_record vector_record
    "sha256:088596a3f596400b5c80a8ee289b6c48e754b4680862aad631bee077d1fbcf74")
    as (H1 & (b & H2 & H3 & _) & _); [vm_compute; reflexivity|]. by eauto.
Defined.

Lemma seal_digest_exact_witness :
  seal_digest (reverse vector_entries) = seal_digest vector_entries.
Proof. apply (seal_digest_exact (reverse vector_entries)). apply reverse_Permutation. Defined.

Lemma compact_roundtrip_witness :
  ∃ c, compact "loss:queue_full" = Ok c ∧ expand c = "loss:queue_full".
Proof.
  apply (compact_roundtrip "loss:queue_full" (CLoss "queue_full")). right. by exists "queue_full".
Defined.
