(* ===== verification/SegmentSeals.v ===== *)
(** * The segment seals

    The accumulator of [fabric/_seal.py] ([SegmentSeals], spec 050 section 3.7) as a state
    machine. Every critical section of the class is one operation, so a run is any
    interleaving of the application threads, the seal worker and the reclaimer: [exec]
    executes one operation and returns the new state with the events it made visible. What
    an operation gets from outside (the bound source, whether a thread can be built, what
    the marker sink answers) is an argument of the operation. *)

From S2P Require Import Prelude PyDict Hash Json Canonical SealDigest.

Definition FORCED_SEAL_ENTRIES : Z := 65536.
Definition MAX_PENDING_SEALS : Z := 4096.
Definition MAX_PENDING_SEAL_POSITIONS : Z := 262144.
Definition MAX_RECLAIM_POSITIONS : Z := 4 * MAX_PENDING_SEAL_POSITIONS.
Definition MAX_RECLAIM_SEGMENTS : Z := MAX_PENDING_SEALS.

(** ** State *)

(** [_Source]: a source id and an epoch. *)
Definition Source : Type := string * Z.

(** [_SealRequest] *)
Record SealRequest := mk_request {
  rq_last_sequence : Z;
  rq_manifest_digest : option string;
  rq_terminal : bool;
  rq_resumable : bool;
  rq_branch_ids : list string;
  rq_run_id : option string;
  rq_source : option Source;
}.

(** [_Segment] *)
Record Segment := mk_segment {
  sg_entries : list (Z * Compact);
  sg_outstanding : Z;
  sg_request : option SealRequest;
  sg_run_id : option string;
  sg_source : option Source;
  sg_forced : bool;
}.

Definition new_segment (source : option Source) : Segment := mk_segment [] 0 None None source false.

(** [_Ready] *)
Record Ready := mk_ready { rd_id : string; rd_segment : Segment; rd_request : SealRequest }.

Record Stats := mk_stats {
  sealed : Z;
  seal_markers_unqueued : Z;
  segment_forced_seal : Z;
  late_settles : Z;
  internal_errors : Z;
  seal_worker_failures : Z;
  seals_dropped : Z;
  seal_state_freed_inline : Z;
}.

Definition no_stats : Stats := mk_stats 0 0 0 0 0 0 0 0.

(** A worker or reclaimer thread: none, handed out but not started yet, or running. *)
Inductive thread := Absent | Starting | Running.

(** The attributes of a [SegmentSeals]. [building] is the seal the holder of [_build_lock]
    popped, [freeing] the segment the reclaimer popped. *)
Record Seals := mk_seals {
  segments : list (string * Segment);
  ready : list Ready;
  ready_positions : Z;
  dropped_since_drain : bool;
  building : option Ready;
  worker : thread;
  reclaim : list Segment;
  reclaim_positions : Z;
  reclaim_segments : Z;
  freeing : option Segment;
  reclaimer : thread;
  stats : Stats;
}.

(** [_init_state] *)
Definition init_state : Seals :=
  mk_seals [] [] 0 false None Absent [] 0 0 None Absent no_stats.

(** [_Held]: the depth of a thread in the allocator lock, and what it must release. *)
Record Held := mk_held { depth : Z; deferred : list Segment }.

(** The [segment_seal] marker with its [SealInfo]. *)
Record Marker := mk_marker {
  mk_source : Source;
  mk_sequence : Z;
  mk_run_id : option string;
  mk_segment_id : string;
  mk_terminal : bool;
  mk_resumable : bool;
  mk_branch_ids : list string;
  mk_manifest_digest : option string;
  mk_seal_digest : string;
}.

(** What an operation makes visible. *)
Inductive event :=
  | EvAllocated (id : string) (sequence : Z)
  | EvForced (id : string)                        (** [on_forced(id)] is called *)
  | EvHandedOff (r : Ready)                       (** queued for the seal worker *)
  | EvDropped (r : Ready)                         (** dropped at the pending bound *)
  | EvBuilt (r : Ready) (marker : option Marker). (** built; the marker queued to the sink *)

(** *** Field updates *)

Definition set_segments x s := mk_seals x (ready s) (ready_positions s) (dropped_since_drain s)
  (building s) (worker s) (reclaim s) (reclaim_positions s) (reclaim_segments s) (freeing s)
  (reclaimer s) (stats s).
Definition set_ready x p s := mk_seals (segments s) x p (dropped_since_drain s)
  (building s) (worker s) (reclaim s) (reclaim_positions s) (reclaim_segments s) (freeing s)
  (reclaimer s) (stats s).
Definition set_dropped x s := mk_seals (segments s) (ready s) (ready_positions s) x
  (building s) (worker s) (reclaim s) (reclaim_positions s) (reclaim_segments s) (freeing s)
  (reclaimer s) (stats s).
Definition set_building x s := mk_seals (segments s) (ready s) (ready_positions s)
  (dropped_since_drain s) x (worker s) (reclaim s) (reclaim_positions s) (reclaim_segments s)
  (freeing s) (reclaimer s) (stats s).
Definition set_worker x s := mk_seals (segments s) (ready s) (ready_positions s)
  (dropped_since_drain s) (building s) x (reclaim s) (reclaim_positions s) (reclaim_segments s)
  (freeing s) (reclaimer s) (stats s).
Definition set_reclaim x p n f s := mk_seals (segments s) (ready s) (ready_positions s)
  (dropped_since_drain s) (building s) (worker s) x p n f (reclaimer s) (stats s).
Definition set_reclaimer x s := mk_seals (segments s) (ready s) (ready_positions s)
  (dropped_since_drain s) (building s) (worker s) (reclaim s) (reclaim_positions s)
  (reclaim_segments s) (freeing s) x (stats s).
Definition set_stats x s := mk_seals (segments s) (ready s) (ready_positions s)
  (dropped_since_drain s) (building s) (worker s) (reclaim s) (reclaim_positions s)
  (reclaim_segments s) (freeing s) (reclaimer s) x.

(** One of the counters of [_stats]. *)
Inductive counter := c_sealed | c_unqueued | c_forced | c_late | c_errors | c_worker_failures
  | c_dropped | c_freed_inline.

Definition bump (c : counter) (s : Seals) : Seals :=
  let '(mk_stats a b d e f g h i) := stats s in
  set_stats match c with
    | c_sealed => mk_stats (a + 1) b d e f g h i
    | c_unqueued => mk_stats a (b + 1) d e f g h i
    | c_forced => mk_stats a b (d + 1) e f g h i
    | c_late => mk_stats a b d (e + 1) f g h i
    | c_errors => mk_stats a b d e (f + 1) g h i
    | c_worker_failures => mk_stats a b d e f (g + 1) h i
    | c_dropped => mk_stats a b d e f g (h + 1) i
    | c_freed_inline => mk_stats a b d e f g h (i + 1)
    end s.

(** ** Sealing *)

(** [_new_thread]: the thread a slot holds after trying to construct one. *)
Definition new_thread (constructible : bool) (set : thread → Seals → Seals) (s : Seals) : Seals :=
  if constructible then set Starting s else bump c_worker_failures (set Absent s).

Definition positions (g : Segment) : Z := Z.of_nat (length (sg_entries g)).

(** [_discard]: the new state, and what the calling thread must release itself. *)
Definition discard (constructible : bool) (g : Segment) (s : Seals) : Seals * option Segment :=
  if (MAX_RECLAIM_POSITIONS <? reclaim_positions s + positions g)
     || (MAX_RECLAIM_SEGMENTS <=? reclaim_segments s)
  then (bump c_freed_inline s, Some g)
  else
    let s := set_reclaim (reclaim s ++ [g]) (reclaim_positions s + positions g)
               (reclaim_segments s + 1) (freeing s) s in
    (match reclaimer s with
     | Absent => new_thread constructible set_reclaimer s
     | _ => s
     end, None).

(** [_hand_off] *)
Definition hand_off (constructible : bool) (id : string) (g : Segment) (s : Seals)
    : Seals * option Segment * list event :=
  match sg_request g with
  | None => (s, None, [])
  | Some request =>
      if 0 <? sg_outstanding g then (s, None, [])
      else
        let r := mk_ready id g request in
        let s := set_segments (ddel id (segments s)) s in
        if negb (bool_decide (ready s = [])) &&
           ((MAX_PENDING_SEALS <=? Z.of_nat (length (ready s)))
            || (MAX_PENDING_SEAL_POSITIONS
                  <? ready_positions s + reclaim_positions s + positions g))
        then
          let '(s, release) := discard constructible g (set_dropped true (bump c_dropped s)) in
          (s, release, [EvDropped r])
        else
          let s := set_ready (ready s ++ [r]) (ready_positions s + positions g) s in
          (match worker s with
           | Absent => new_thread constructible set_worker s
           | _ => s
           end, None, [EvHandedOff r])
  end.

(** ** The entry points *)

(** [segment.run_id or run_id] *)
Definition or_str_opt (a b : option string) : option string := if truthy_str a then a else b.
(** [segment.source or source]: a pair is always true. *)
Definition or_source (a b : option Source) : option Source :=
  match a with Some x => Some x | None => b end.

Definition note_job (id : string) (source : Source) (run_id : option string) (s : Seals) : Seals :=
  match dget id (segments s) with
  | Some g =>
      let g := mk_segment (sg_entries g) (sg_outstanding g) (sg_request g)
                 (or_str_opt (sg_run_id g) run_id) (or_source (sg_source g) (Some source))
                 (sg_forced g) in
      set_segments (dset id g (segments s)) s
  | None => s
  end.

(** [source] is what the bound [_source] callback returned, [forced_at] the constructor's
    argument. *)
Definition note_allocated (forced_at : Z) (source : option Source) (id : string) (sequence : Z)
    (s : Seals) : Seals * list event :=
  let g := default (new_segment source) (dget id (segments s)) in
  let size := positions g + (sg_outstanding g + 1) in
  let now := negb (sg_forced g) && (forced_at <=? size) in
  let g := mk_segment (sg_entries g) (sg_outstanding g + 1) (sg_request g) (sg_run_id g)
             (sg_source g) (sg_forced g || now) in
  let s := set_segments (dset id g (segments s)) s in
  if now then (bump c_forced s, [EvAllocated id sequence; EvForced id])
  else (s, [EvAllocated id sequence]).

(** The state after [settle], what the caller releases, and whether the end of the method
    was reached ([_release_deferred] runs). *)
Definition settle (constructible : bool) (id : string) (sequence : Z) (entry : string) (s : Seals)
    : Seals * option Segment * list event * bool :=
  match compact entry with
  | Raise _ => (bump c_errors s, None, [], true)
  | Ok c =>
      match dget id (segments s) with
      | None => (bump c_late s, None, [], false)
      | Some g =>
          if din sequence (sg_entries g) then (s, None, [], false)
          else
            let g := mk_segment (dset sequence c (sg_entries g))
                       (Z.max 0 (sg_outstanding g - 1)) (sg_request g) (sg_run_id g)
                       (sg_source g) (sg_forced g) in
            let '(s, release, evs) :=
              hand_off constructible id g (set_segments (dset id g (segments s)) s) in
            (s, release, evs, true)
      end
  end.

(** The source of the request is given when both of its parts are. *)
Definition request_source (source_id : option string) (epoch : option Z) : option Source :=
  match source_id, epoch with Some s, Some e => Some (s, e) | _, _ => None end.

Definition request_seal (constructible : bool) (bound : option Source) (id : string)
    (request : SealRequest) (s : Seals) : Seals * option Segment * list event :=
  let g := default (new_segment bound) (dget id (segments s)) in
  let g := mk_segment (sg_entries g) (sg_outstanding g) (Some request) (sg_run_id g)
             (sg_source g) (sg_forced g) in
  hand_off constructible id g (set_segments (dset id g (segments s)) s).

(** [SegmentSeals.outstanding], [dropped], [entries], [seals_pending] *)
Definition outstanding (id : string) (s : Seals) : Z :=
  match dget id (segments s) with Some g => sg_outstanding g | None => 0 end.

Definition dropped (s : Seals) : Z := seals_dropped (stats s).

Definition compact_leb (p q : Z * Compact) : bool := p.1 <=? q.1.

Definition entries_of (id : string) (s : Seals) : list (Z * string) :=
  match dget id (segments s) with
  | Some g => (λ p, (p.1, expand p.2)) <$> py_sort compact_leb (sg_entries g)
  | None => []
  end.

Definition seals_pending (s : Seals) : Z :=
  Z.of_nat (length (ready s)) + match building s with Some _ => 1 | None => 0 end.

(** ** The seal worker *)

(** What queueing a marker did: there is no sink, the sink answered ([False] is a refusal),
    or it raised. *)
Inductive SinkAnswer := NoSink | Answered (queued : bool) | SinkRaised.

(** [_build_next] up to [_emit]: only one builder holds [_build_lock]. *)
Definition build_begin (s : Seals) : Seals :=
  match building s, ready s with
  | None, r :: rest =>
      set_building (Some r) (set_ready rest (ready_positions s - positions (rd_segment r)) s)
  | _, _ => s
  end.

Definition seal_entries (g : Segment) : list (Z * string) :=
  (λ p, (p.1, expand p.2)) <$> sg_entries g.

(** The marker [_emit] builds: [Raise] where it raises, [None] without a source. *)
Definition seal_marker (r : Ready) : result (option Marker) :=
  let g := rd_segment r in
  let q := rd_request r in
  digest ← seal_digest (seal_entries g);
  Ok (source ← or_source (rq_source q) (sg_source g);
      Some (mk_marker source (rq_last_sequence q) (or_str_opt (rq_run_id q) (sg_run_id g))
              (rd_id r) (rq_terminal q) (rq_resumable q) (rq_branch_ids q)
              (rq_manifest_digest q) digest)).

(** [_emit] and the end of [_build_next]. *)
Definition build_end (answer : SinkAnswer) (s : Seals) : Seals * list event :=
  match building s with
  | None => (s, [])
  | Some r =>
      let s := set_building None s in
      match seal_marker r with
      | Raise _ => (bump c_errors s, [EvBuilt r None])
      | Ok None => (bump c_unqueued s, [EvBuilt r None])
      | Ok (Some m) =>
          match answer with
          | SinkRaised => (bump c_errors s, [EvBuilt r None])
          | Answered true => (bump c_sealed s, [EvBuilt r (Some m)])
          | _ => (bump c_unqueued (bump c_sealed s), [EvBuilt r None])
          end
      end
  end.

(** ** The threads *)

(** [_work] and [_reclaim_work] leave when they find nothing to do. *)
Definition worker_exit (s : Seals) : Seals :=
  match worker s, ready s with Running, [] => set_worker Absent s | _, _ => s end.
Definition reclaimer_exit (s : Seals) : Seals :=
  match reclaimer s, freeing s, reclaim s with
  | Running, None, [] => set_reclaimer Absent s
  | _, _, _ => s
  end.

(** [_start] on the thread a critical section handed out. *)
Definition start_worker (started : bool) (s : Seals) : Seals :=
  match worker s with
  | Starting => if started then set_worker Running s else bump c_worker_failures (set_worker Absent s)
  | _ => s
  end.
Definition start_reclaimer (started : bool) (s : Seals) : Seals :=
  match reclaimer s with
  | Starting =>
      if started then set_reclaimer Running s else bump c_worker_failures (set_reclaimer Absent s)
  | _ => s
  end.

(** [_reclaim_work]: take the oldest dropped segment, free it, then uncount it. *)
Definition reclaim_take (s : Seals) : Seals :=
  match reclaimer s, freeing s, reclaim s with
  | Running, None, g :: rest =>
      set_reclaim rest (reclaim_positions s) (reclaim_segments s) (Some g) s
  | _, _, _ => s
  end.
Definition reclaim_done (s : Seals) : Seals :=
  match freeing s with
  | Some g =>
      set_reclaim (reclaim s) (reclaim_positions s - positions g) (reclaim_segments s - 1) None s
  | None => s
  end.

(** One turn of the loop of [_drain], with its lock held: it returns, waits, or hands out a
    worker to start. When it returns, [drain] releases what its thread dropped ([exec]). *)
Inductive Drained := Returns (ok : bool) | Waits | Starts.

Definition drain_turn (bounded expired constructible : bool) (s : Seals) : Seals * Drained :=
  match ready s, building s, worker s with
  | [], None, _ => (set_dropped false s, Returns (negb (dropped_since_drain s)))
  | _ :: _, _, Absent =>
      (new_thread constructible set_worker s,
       if negb constructible && bounded then Returns false else Starts)
  | _, _, _ => (s, if bounded && expired then Returns false else Waits)
  end.

(** ** Threads in the allocator lock ([_Held]) *)

Definition hold (h : Held) : Held := mk_held (depth h + 1) (deferred h).
Definition release_deferred (h : Held) : Held :=
  if depth h <=? 0 then mk_held (depth h) [] else h.
Definition unhold (h : Held) : Held :=
  let d := depth h - 1 in if d <=? 0 then mk_held 0 [] else mk_held d (deferred h).
Definition defer (release : option Segment) (h : Held) : Held :=
  match release with Some g => mk_held (depth h) (deferred h ++ [g]) | None => h end.

(** ** Runs *)

Record World := mk_world { seals : Seals; held : list (Z * Held) }.

Definition initial : World := mk_world init_state [].

(** One critical section or thread event; [tid] is the calling thread. *)
Inductive op :=
  | NoteJob (id : string) (source : Source) (run_id : option string)
  | NoteAllocated (source : option Source) (id : string) (sequence : Z)
  | Settle (tid : Z) (constructible : bool) (id : string) (sequence : Z) (entry : string)
  | RequestSeal (tid : Z) (constructible : bool) (bound : option Source) (id : string)
      (request : SealRequest)
  | BuildBegin
  | BuildEnd (answer : SinkAnswer)
  | StartWorker (started : bool)
  | StartReclaimer (started : bool)
  | WorkerExit
  | ReclaimerExit
  | ReclaimTake
  | ReclaimDone
  | DrainTurn (tid : Z) (bounded expired constructible : bool)
  | Hold (tid : Z)
  | Unhold (tid : Z).

Definition held_of (tid : Z) (w : World) : Held := default (mk_held 0 []) (dget tid (held w)).
Definition set_held (tid : Z) (h : Held) (w : World) : World :=
  mk_world (seals w) (dset tid h (held w)).

Definition exec (forced_at : Z) (o : op) (w : World) : World * list event :=
  let s := seals w in
  let upd s := mk_world s (held w) in
  match o with
  | NoteJob id source run_id => (upd (note_job id source run_id s), [])
  | NoteAllocated source id sequence =>
      let '(s, evs) := note_allocated forced_at source id sequence s in (upd s, evs)
  | Settle tid constructible id sequence entry =>
      let '(s, release, evs, finished) := settle constructible id sequence entry s in
      let h := defer release (held_of tid w) in
      (set_held tid (if finished then release_deferred h else h) (upd s), evs)
  | RequestSeal tid constructible bound id request =>
      let '(s, release, evs) := request_seal constructible bound id request s in
      (set_held tid (release_deferred (defer release (held_of tid w))) (upd s), evs)
  | BuildBegin => (upd (build_begin s), [])
  | BuildEnd answer => let '(s, evs) := build_end answer s in (upd s, evs)
  | StartWorker started => (upd (start_worker started s), [])
  | StartReclaimer started => (upd (start_reclaimer started s), [])
  | WorkerExit => (upd (worker_exit s), [])
  | ReclaimerExit => (upd (reclaimer_exit s), [])
  | ReclaimTake => (upd (reclaim_take s), [])
  | ReclaimDone => (upd (reclaim_done s), [])
  | DrainTurn tid bounded expired constructible =>
      let d := drain_turn bounded expired constructible s in
      let h := held_of tid w in
      (set_held tid (match d.2 with Returns _ => release_deferred h | _ => h end) (upd d.1), [])
  | Hold tid => (set_held tid (hold (held_of tid w)) w, [])
  | Unhold tid => (set_held tid (unhold (held_of tid w)) w, [])
  end.

(** The worlds an accumulator reaches, with the events so far. [legal] restricts what its
    callers may do. *)
Inductive reach (forced_at : Z) (legal : World → list event → op → Prop)
    : World → list event → Prop :=
  | reach_init : reach forced_at legal initial []
  | reach_step w log o w' evs :
      reach forced_at legal w log → legal w log o → exec forced_at o w = (w', evs) →
      reach forced_at legal w' (log ++ evs).

(** No restriction at all. *)
Definition any (w : World) (log : list event) (o : op) : Prop := True.

(** ** Accounting and bounds *)

Definition total (l : list Segment) : Z := foldr (λ g n, positions g + n) 0 l.

Lemma total_app l k : total (l ++ k) = total l + total k.
Proof. induction l as [|g l IH]; simpl; [done|]. rewrite IH. lia. Qed.

Lemma positions_nonneg g : 0 ≤ positions g.
Proof. unfold positions. lia. Qed.

Lemma total_nonneg l : 0 ≤ total l.
Proof. induction l as [|g l IH]; simpl; [done|]. pose proof (positions_nonneg g). lia. Qed.

(** The counters say what the queues hold, the queues are within their bounds, and work that
    is queued has a thread unless one could not be started (which is counted). *)
Record Accounted (s : Seals) : Prop := {
  acc_ready : ready_positions s = total (rd_segment <$> ready s);
  acc_reclaim : reclaim_positions s = total (reclaim s) + total (option_list (freeing s));
  acc_reclaim_segments :
    reclaim_segments s = Z.of_nat (length (reclaim s)) + Z.of_nat (length (option_list (freeing s)));
  acc_ready_bound : Z.of_nat (length (ready s)) ≤ MAX_PENDING_SEALS;
  acc_ready_positions_bound :
    (length (ready s) ≤ 1)%nat ∨ ready_positions s ≤ MAX_PENDING_SEAL_POSITIONS;
  acc_reclaim_bound : reclaim_positions s ≤ MAX_RECLAIM_POSITIONS;
  acc_reclaim_segments_bound : reclaim_segments s ≤ MAX_RECLAIM_SEGMENTS;
  acc_failures : 0 ≤ seal_worker_failures (stats s);
  acc_worker : ready s ≠ [] → worker s ≠ Absent ∨ 0 < seal_worker_failures (stats s);
  acc_reclaimer : reclaim s ≠ [] → reclaimer s ≠ Absent ∨ 0 < seal_worker_failures (stats s);
  acc_freeing : freeing s ≠ None → reclaimer s = Running;
}.

(** One outcome per position, and no negative count. *)
Definition segment_ok (g : Segment) : Prop := NoDup (sg_entries g).*1 ∧ 0 ≤ sg_outstanding g.

(** A segment that can seal now is not kept waiting. *)
Definition waiting (g : Segment) : Prop := sg_request g ≠ None → 0 < sg_outstanding g.

(** The segments handed off and not built yet. *)
Definition pending (s : Seals) : list Ready := option_list (building s) ++ ready s.

Definition ready_ok (r : Ready) : Prop :=
  segment_ok (rd_segment r) ∧ sg_outstanding (rd_segment r) = 0 ∧
  sg_request (rd_segment r) = Some (rd_request r).

Record Inv (s : Seals) : Prop := {
  inv_accounted : Accounted s;
  inv_keys : NoDup (segments s).*1;
  inv_segments : ∀ id g, (id, g) ∈ segments s → segment_ok g ∧ waiting g;
  inv_pending : Forall ready_ok (pending s);
}.

(** [s] and [s'] differ only in counters other than the thread failures. *)
Definition same_queues (s s' : Seals) : Prop :=
  ∃ d x, s' = set_dropped d (set_stats x s) ∧
         seal_worker_failures x = seal_worker_failures (stats s).

Lemma bump_same c s : c ≠ c_worker_failures → same_queues s (bump c s).
Proof.
  intros Hc. exists (dropped_since_drain s), (stats (bump c s)).
  destruct s as [?????????? ? [????????]]. destruct c; simpl; congruence || done.
Qed.

Lemma same_queues_trans s1 s2 s3 : same_queues s1 s2 → same_queues s2 s3 → same_queues s1 s3.
Proof.
  intros (d & x & -> & H1) (d' & x' & -> & H2). exists d', x'. simpl in *. split; [done|congruence].
Qed.

Lemma Accounted_same s s' : same_queues s s' → Accounted s → Accounted s'.
Proof. intros (d & x & -> & Hx) []. split; simpl; rewrite ?Hx; done. Qed.

Lemma Inv_same s s' : same_queues s s' → Inv s → Inv s'.
Proof.
  intros Hs [Ha ? ? ?]. pose proof (Accounted_same _ _ Hs Ha).
  destruct Hs as (d & x & -> & _). by split.
Qed.

Lemma Accounted_segments x s : Accounted s → Accounted (set_segments x s).
Proof. intros []. by split. Qed.

Lemma new_worker c s : Accounted (set_worker Starting s) → Accounted (new_thread c set_worker s).
Proof.
  intros []. unfold new_thread. destruct c; [by split; auto|].
  destruct s as [?????????? ? [????????]]. simpl in *. split; simpl; auto with lia.
Qed.

Lemma new_reclaimer c s :
  (reclaimer s = Absent → freeing s = None) →
  Accounted (set_reclaimer Starting s) → reclaimer s = Absent →
  Accounted (new_thread c set_reclaimer s).
Proof.
  intros Hf [] Hw. unfold new_thread. destruct c; [by split; auto|].
  destruct s as [?????????? ? [????????]]. simpl in *.
  split; simpl; auto with lia. intros. by rewrite Hf in *.
Qed.

Lemma bump_frame c s :
  segments (bump c s) = segments s ∧ ready (bump c s) = ready s ∧ building (bump c s) = building s.
Proof. by destruct s as [?????????? ? [????????]], c. Qed.

Lemma new_thread_frame c set s :
  (∀ t s, segments (set t s) = segments s ∧ ready (set t s) = ready s ∧
          building (set t s) = building s) →
  segments (new_thread c set s) = segments s ∧ ready (new_thread c set s) = ready s ∧
  building (new_thread c set s) = building s.
Proof.
  intros Hs. unfold new_thread. destruct c; [apply Hs|].
  destruct (bump_frame c_worker_failures (set Absent s)) as (-> & -> & ->). apply Hs.
Qed.

Lemma discard_frame c g s :
  segments (discard c g s).1 = segments s ∧ ready (discard c g s).1 = ready s ∧
  building (discard c g s).1 = building s.
Proof.
  unfold discard. case_match; [apply bump_frame|]. cbn [fst].
  set (s' := set_reclaim _ _ _ _ s). case_match; [|done..].
  by apply (new_thread_frame c set_reclaimer s').
Qed.

Lemma discard_accounted c g s : Accounted s → Accounted (discard c g s).1.
Proof.
  intros Ha. unfold discard. case_match eqn:Hb.
  { eapply Accounted_same; [by apply bump_same|done]. }
  to_prop. cbn [fst]. pose proof Ha as [].
  assert (Accounted (set_reclaimer Starting (set_reclaim (reclaim s ++ [g])
            (reclaim_positions s + positions g) (reclaim_segments s + 1) (freeing s) s)) ∨
          reclaimer s ≠ Absent) as Hst.
  { destruct (reclaimer s) eqn:Hr; [left|by right..].
    split; simpl; auto; rewrite ?total_app, ?length_app; simpl; try lia.
    intros Hf. discriminate (acc_freeing0 Hf). }
  destruct (reclaimer s) eqn:Hr; cbn [reclaimer set_reclaim]; rewrite Hr.
  - apply new_reclaimer; [|by destruct Hst|done]. simpl.
    intros _. destruct (freeing s); [|done]. discriminate (acc_freeing0 ltac:(done)).
  - split; simpl; auto; rewrite ?total_app, ?length_app; simpl; try lia; rewrite Hr; auto.
  - split; simpl; auto; rewrite ?total_app, ?length_app; simpl; try lia; rewrite Hr; auto.
Qed.

(** The queue after an admitted seal. *)
Definition enqueue (c : bool) (r : Ready) (s : Seals) : Seals :=
  let s := set_ready (ready s ++ [r]) (ready_positions s + positions (rd_segment r)) s in
  match worker s with Absent => new_thread c set_worker s | _ => s end.

Definition admitted (r : Ready) (s : Seals) : Prop :=
  ready s = [] ∨
  Z.of_nat (length (ready s)) < MAX_PENDING_SEALS ∧
  ready_positions s + reclaim_positions s + positions (rd_segment r) ≤ MAX_PENDING_SEAL_POSITIONS.

Lemma enqueue_frame c r s :
  segments (enqueue c r s) = segments s ∧ ready (enqueue c r s) = ready s ++ [r] ∧
  building (enqueue c r s) = building s.
Proof.
  unfold enqueue. set (s' := set_ready _ _ s). case_match; [|done..].
  by apply (new_thread_frame c set_worker s').
Qed.

Lemma enqueue_accounted c r s : admitted r s → Accounted s → Accounted (enqueue c r s).
Proof.
  intros Had Ha. unfold enqueue.
  assert (∀ t, t ≠ Absent → Accounted (set_worker t
      (set_ready (ready s ++ [r]) (ready_positions s + positions (rd_segment r)) s))) as Hq.
  { intros t Ht. pose proof (total_nonneg (reclaim s)).
    pose proof (total_nonneg (option_list (freeing s))). unfold admitted in Had.
    destruct Ha. split; simpl; auto; rewrite ?fmap_app, ?total_app, ?length_app; simpl; try lia.
    - destruct Had as [->|[? ?]]; simpl; unfold MAX_PENDING_SEALS in *; lia.
    - destruct Had as [->|[? ?]]; simpl; [lia|right; lia]. }
  set (s' := set_ready _ _ s) in *. destruct (worker s') eqn:Hw.
  - apply new_worker. by apply Hq.
  - specialize (Hq Starting ltac:(done)). destruct s'. simpl in *. by subst.
  - specialize (Hq Running ltac:(done)). destruct s'. simpl in *. by subst.
Qed.

(** The events of a hand-off, and the queue it leaves. *)
Definition handed (evs : list event) : list Ready :=
  omap (λ e, match e with EvHandedOff r => Some r | _ => None end) evs.
Definition built (evs : list event) : list Ready :=
  omap (λ e, match e with EvBuilt r _ => Some r | _ => None end) evs.
Definition drops (evs : list event) : list Ready :=
  omap (λ e, match e with EvDropped r => Some r | _ => None end) evs.

(** What [hand_off] does to a segment [g] just stored under [id]. *)
Lemma hand_off_spec c id g s s' release evs :
  dget id (segments s) = Some g → segment_ok g → Accounted s → NoDup (segments s).*1 →
  (∀ id' g', (id', g') ∈ segments s → id' ≠ id → segment_ok g' ∧ waiting g') →
  Forall ready_ok (pending s) →
  hand_off c id g s = (s', release, evs) →
  Inv s' ∧ pending s' = pending s ++ handed evs ∧ built evs = [] ∧
  ((evs = [] ∧ segments s' = segments s ∧ waiting g) ∨
   ∃ r, ready_ok r ∧ rd_id r = id ∧ rd_segment r = g ∧ segments s' = ddel id (segments s) ∧
        (evs = [EvHandedOff r] ∨ evs = [EvDropped r])).
Proof.
  intros Hg Hok Ha Hk Hothers Hp. unfold hand_off.
  destruct (sg_request g) as [q|] eqn:Hq.
  2: { intros [= <- <- <-]. rewrite app_nil_r. split_and!; [|done..|left; split_and!; done || by intros ?].
       split; try done. intros id' g' Hin. destruct (decide (id' = id)) as [->|]; [|by eauto].
       apply elem_dget in Hin; [|done]. simplify_eq. split; [done|]. by intros ?. }
  destruct (0 <? sg_outstanding g) eqn:Ho; to_prop.
  { intros [= <- <- <-]. rewrite app_nil_r. split_and!; [|done..|left; split_and!; done || by intros ?].
    split; try done. intros id' g' Hin. destruct (decide (id' = id)) as [->|]; [|by eauto].
    apply elem_dget in Hin; [|done]. simplify_eq. split; [done|]. by intros ?. }
  set (r := mk_ready id g q).
  assert (ready_ok r) as Hr by (split_and!; [done|destruct Hok; simpl; lia|done]).
  assert (NoDup (ddel id (segments s)).*1) as Hk' by auto with fabric.
  assert (∀ id' g', (id', g') ∈ ddel id (segments s) → segment_ok g' ∧ waiting g') as Hsegs.
  { intros id' g' [Hin Hne]%ddel_elem. by eapply Hothers. }
  cbn zeta. set (s1 := set_segments (ddel id (segments s)) s).
  assert (Accounted s1) as Ha1 by by apply Accounted_segments.
  change (ready s1) with (ready s) in *. change (ready_positions s1) with (ready_positions s) in *.
  change (reclaim_positions s1) with (reclaim_positions s) in *.
  destruct (negb (bool_decide (ready s = [])) && _) eqn:Hfull.
  - destruct (discard c g _) as [s2 rel] eqn:Hd. intros [= <- <- <-].
    set (s1' := set_dropped true (bump c_dropped s1)) in *.
    assert (Accounted s1') as Ha1'.
    { destruct (bump_same c_dropped s1) as (d & x & E & Hx); [done|].
      eapply Accounted_same; [|exact Ha1]. exists true, x. split; [|done].
      unfold s1'. by rewrite E. }
    pose proof (discard_frame c g s1') as (F1 & F2 & F3).
    pose proof (discard_accounted c g s1' Ha1') as Ha2. rewrite Hd in *. cbn [fst] in *.
    assert (segments s1' = ddel id (segments s) ∧ ready s1' = ready s ∧ building s1' = building s)
      as (G1 & G2 & G3).
    { unfold s1'. destruct (bump_frame c_dropped s1) as (E1 & E2 & E3). simpl. by rewrite E1, E2, E3. }
    assert (pending s2 = pending s) as Hpen by (unfold pending; by rewrite F2, F3, G2, G3).
    split_and!.
    + split; rewrite ?F1, ?G1, ?Hpen; done.
    + by rewrite app_nil_r.
    + done.
    + right. exists r. rewrite F1, G1. split_and!; try done. by right.
  - change (positions g) with (positions (rd_segment r)) in *.
    assert (admitted r s1) as Had.
    { unfold admitted. apply andb_false_iff in Hfull as [Hf|Hf].
      - left. apply negb_false_iff in Hf. by apply bool_decide_eq_true in Hf.
      - right. to_prop. done. }
    change (match _ with Absent => _ | _ => _ end) with (enqueue c r s1) at 1.
    intros [= <- <- <-].
    pose proof (enqueue_accounted c r s1 Had Ha1) as Ha2.
    destruct (enqueue_frame c r s1) as (F1 & F2 & F3).
    assert (pending (enqueue c r s1) = pending s ++ [r]) as Hpen.
    { unfold pending. rewrite F2, F3. by rewrite (assoc_L (++)). }
    split_and!; [|done..|].
    + split; rewrite ?F1, ?Hpen; try done. apply Forall_app_2; [done|by constructor].
    + right. exists r. rewrite F1. split_and!; try done. by left.
Qed.

(** Storing a segment under [id] leaves the others as they were. *)
Lemma others_ok id g s :
  Inv s → ∀ id' g', (id', g') ∈ dset id g (segments s) → id' ≠ id → segment_ok g' ∧ waiting g'.
Proof.
  intros Hi id' g' Hin Hne. apply (inv_segments _ Hi id').
  apply elem_dget in Hin; [|apply NoDup_dset, Hi]. rewrite dget_dset_ne in Hin by done.
  by apply dget_Some_elem.
Qed.

Lemma dget_ok id g s : Inv s → dget id (segments s) = Some g → segment_ok g ∧ waiting g.
Proof. intros Hi Hg. apply dget_Some_elem in Hg. by eapply inv_segments. Qed.

Lemma default_ok id src s : Inv s → segment_ok (default (new_segment src) (dget id (segments s))).
Proof.
  intros Hi. destruct (dget id (segments s)) eqn:Hg; [simpl; by eapply dget_ok|].
  split; [constructor|done].
Qed.

(** Every operation keeps the invariant, and the queue stays in hand-off order. *)
Definition keeps (s s' : Seals) (evs : list event) : Prop :=
  Inv s' ∧ built evs ++ pending s' = pending s ++ handed evs.

Lemma keeps_same s s' : same_queues s s' → Inv s → keeps s s' [].
Proof.
  intros Hs Hi. split; [by eapply Inv_same|]. rewrite app_nil_r.
  by destruct Hs as (d & x & -> & _).
Qed.

Lemma keeps_segment id g s :
  Inv s → segment_ok g → waiting g → keeps s (set_segments (dset id g (segments s)) s) [].
Proof.
  intros Hi Hok Hw. split; [|by rewrite app_nil_r]. split.
  - apply Accounted_segments, Hi.
  - apply NoDup_dset, Hi.
  - intros id' g' Hin. destruct (decide (id' = id)) as [->|]; [|by apply (others_ok id g s Hi id')].
    apply elem_dget in Hin; [|apply NoDup_dset, Hi]. simpl in Hin. rewrite dget_dset_eq in Hin. by injection Hin as <-.
  - apply Hi.
Qed.

Lemma keeps_hand_off c id g s s' release evs :
  Inv s → segment_ok g →
  hand_off c id g (set_segments (dset id g (segments s)) s) = (s', release, evs) →
  keeps s s' evs.
Proof.
  intros Hi Hok H. eapply hand_off_spec in H as (Hi' & Hp & Hb & _); simpl.
  - split; [done|]. by rewrite Hb, Hp.
  - by rewrite dget_dset_eq.
  - done.
  - apply Accounted_segments, Hi.
  - apply NoDup_dset, Hi.
  - by apply others_ok.
  - apply Hi.
Qed.

Lemma keeps_note_allocated fa src id n s :
  Inv s → keeps s (note_allocated fa src id n s).1 (note_allocated fa src id n s).2.
Proof.
  intros Hi. unfold note_allocated. set (g := default _ _).
  set (g' := mk_segment _ _ _ _ _ _).
  assert (keeps s (set_segments (dset id g' (segments s)) s) []) as [Hi' Hk].
  { pose proof (default_ok id src s Hi) as [Hn Ho]. apply keeps_segment; [done| |].
    - split; [done|]. simpl. fold g in Ho. lia.
    - intros _. simpl. fold g in Ho. lia. }
  case_match; cbn [fst snd]; [|by split].
  split; [eapply Inv_same; [by apply bump_same|exact Hi']|].
  unfold pending in *. destruct (bump_frame c_forced (set_segments (dset id g' (segments s)) s))
    as (_ & -> & ->). exact Hk.
Qed.

Lemma keeps_settle c id n e s s' release evs fin :
  Inv s → settle c id n e s = (s', release, evs, fin) → keeps s s' evs.
Proof.
  intros Hi. unfold settle. destruct (compact e) as [cc|].
  2: { intros [= <- <- <- <-]. by apply keeps_same, Hi; apply bump_same. }
  destruct (dget id (segments s)) as [g|] eqn:Hg.
  2: { intros [= <- <- <- <-]. by apply keeps_same, Hi; apply bump_same. }
  destruct (din n (sg_entries g)).
  { intros [= <- <- <- <-]. split; [done|by rewrite app_nil_r]. }
  destruct (hand_off _ _ _ _) as [[s1 r1] e1] eqn:Hh. intros [= <- <- <- <-].
  eapply keeps_hand_off; [done| |exact Hh].
  destruct (dget_ok _ _ _ Hi Hg) as [[Hn Ho] _]. split; simpl; [by apply NoDup_dset|lia].
Qed.

Lemma keeps_request_seal c b id q s s' release evs :
  Inv s → request_seal c b id q s = (s', release, evs) → keeps s s' evs.
Proof.
  intros Hi H. eapply keeps_hand_off; [done| |exact H]. by apply default_ok.
Qed.

Lemma keeps_note_job id src r s : Inv s → keeps s (note_job id src r s) [].
Proof.
  intros Hi. unfold note_job. destruct (dget id (segments s)) as [g|] eqn:Hg.
  - destruct (dget_ok _ _ _ Hi Hg) as [Hok Hw]. by apply keeps_segment.
  - split; [done|by rewrite app_nil_r].
Qed.

Lemma no_dup_entries g : segment_ok g → NoDup (seal_entries g).*1.
Proof. intros [Hn _]. unfold seal_entries. by rewrite <-list_fmap_compose. Qed.

Lemma build_end_cases a r s :
  building s = Some r →
  ∃ m s', build_end a s = (s', [EvBuilt r m]) ∧ same_queues (set_building None s) s'.
Proof.
  intros Hb. unfold build_end. rewrite Hb. repeat case_match;
    eexists _, _; (split; [done|]);
    first [by apply bump_same | eapply same_queues_trans; by apply bump_same].
Qed.

Lemma keeps_build_begin s : Inv s → keeps s (build_begin s) [].
Proof.
  intros Hi. unfold build_begin. destruct (building s) as [r0|] eqn:Hb;
    [split; [done|by rewrite app_nil_r]|].
  destruct (ready s) as [|r rest] eqn:Hr; [split; [done|by rewrite app_nil_r]|].
  destruct Hi as [Ha ? ? Hp]. unfold keeps, pending in *. simpl. rewrite Hb, Hr in *. split; [|by rewrite app_nil_r].
  split; [|done..]. pose proof (positions_nonneg (rd_segment r)).
  destruct Ha. rewrite Hr in *. csimpl in *. split; csimpl; auto; try lia.
Qed.

Lemma keeps_build_end a s : Inv s → keeps s (build_end a s).1 (build_end a s).2.
Proof.
  intros Hi. destruct (building s) as [r|] eqn:Hb.
  - destruct (build_end_cases a r s Hb) as (m & s' & -> & Hs). simpl.
    assert (Inv (set_building None s)) as Hi'.
    { destruct Hi as [[] ? ? Hp]. split; [by split|done..|].
      unfold pending in *. rewrite Hb in Hp. simpl in *. by inv Hp. }
    split; [by eapply Inv_same|]. destruct Hs as (d & x & -> & _).
    unfold pending. rewrite Hb. simpl. by rewrite app_nil_r.
  - unfold build_end. rewrite Hb. split; [done|]. by rewrite app_nil_r.
Qed.

(** Operations that move only threads and dropped state. *)
Lemma keeps_threads s s' :
  Inv s → Accounted s' → segments s' = segments s → pending s' = pending s → keeps s s' [].
Proof.
  intros [? ? ? ?] Ha Hs Hp. split; [|rewrite Hp; by rewrite app_nil_r].
  by split; rewrite ?Hs, ?Hp.
Qed.

Lemma keeps_refl s : Inv s → keeps s s [].
Proof. intros Hi. split; [done|]. by rewrite app_nil_r. Qed.

Lemma keeps_new_worker c s :
  Inv s → (worker s = Absent ∨ worker s = Starting) → keeps s (new_thread c set_worker s) [].
Proof.
  intros Hi Hw. destruct (new_thread_frame c set_worker s) as (F1 & F2 & F3); [done|].
  apply keeps_threads; [done| |done|by unfold pending; rewrite F2, F3].
  apply new_worker. destruct (inv_accounted _ Hi). by split; auto.
Qed.

Lemma keeps_start_worker b s : Inv s → keeps s (start_worker b s) [].
Proof.
  intros Hi. unfold start_worker. destruct (worker s) eqn:Hw; try by apply keeps_refl.
  destruct b; [|apply (keeps_new_worker false); auto].
  apply keeps_threads; [done| |done..]. destruct (inv_accounted _ Hi). by split; auto.
Qed.

Lemma keeps_start_reclaimer b s : Inv s → keeps s (start_reclaimer b s) [].
Proof.
  intros Hi. unfold start_reclaimer. destruct (reclaimer s) eqn:Hr; try by apply keeps_refl.
  pose proof (inv_accounted _ Hi) as Ha.
  assert (freeing s = None) as Hf.
  { destruct (freeing s) eqn:Hf; [|done].
    pose proof (acc_freeing _ Ha ltac:(by rewrite Hf)). congruence. }
  destruct b.
  - apply keeps_threads; [done| |done..]. destruct Ha. split; simpl; auto.
  - destruct (bump_frame c_worker_failures (set_reclaimer Absent s)) as (F1 & F2 & F3).
    apply keeps_threads; [done| |done|by unfold pending; rewrite F2, F3].
    destruct s as [?????????? ? [????????]]. simpl in *. subst. destruct Ha. simpl in *.
    split; simpl; auto with lia. done.
Qed.

Lemma keeps_exits s : Inv s → keeps s (worker_exit s) [] ∧ keeps s (reclaimer_exit s) [].
Proof.
  intros Hi. unfold worker_exit, reclaimer_exit. pose proof (inv_accounted _ Hi) as Ha. split.
  - destruct (worker s); try by apply keeps_refl. destruct (ready s) eqn:Hr; [|by apply keeps_refl].
    apply keeps_threads; [done| |done..]. destruct Ha. split; simpl; auto; try done.
  - destruct (reclaimer s); try by apply keeps_refl.
    destruct (freeing s) eqn:Hf; [by apply keeps_refl|].
    destruct (reclaim s) eqn:Hr; [|by apply keeps_refl].
    apply keeps_threads; [done| |done..]. destruct Ha. split; simpl; rewrite ?Hf, ?Hr in *; auto; try done.
Qed.

Lemma keeps_reclaim s : Inv s → keeps s (reclaim_take s) [] ∧ keeps s (reclaim_done s) [].
Proof.
  intros Hi. unfold reclaim_take, reclaim_done. pose proof (inv_accounted _ Hi) as Ha. split.
  - destruct (reclaimer s) eqn:Hrr; try by apply keeps_refl.
    destruct (freeing s) eqn:Hf; [by apply keeps_refl|].
    destruct (reclaim s) as [|g rest] eqn:Hr; [by apply keeps_refl|].
    apply keeps_threads; [done| |done..]. destruct Ha. rewrite Hf, Hr in *. simpl in *.
    split; simpl; auto; try lia.
  - destruct (freeing s) as [g|] eqn:Hf; [|by apply keeps_refl].
    apply keeps_threads; [done| |done..]. destruct Ha. rewrite Hf in *. simpl in *.
    pose proof (positions_nonneg g). split; simpl; auto; try lia.
Qed.

Lemma keeps_drain b e c s : Inv s → keeps s (drain_turn b e c s).1 [].
Proof.
  intros Hi. unfold drain_turn.
  destruct (ready s) as [|r rs] eqn:Hr, (building s) eqn:Hb, (worker s) eqn:Hw; simpl;
    try (by apply keeps_refl); try (apply keeps_new_worker; auto);
    apply keeps_same; try done; eexists false, (stats s); (split; [|done]); by destruct s.
Qed.

Lemma exec_keeps fa o w w' evs :
  Inv (seals w) → exec fa o w = (w', evs) → keeps (seals w) (seals w') evs.
Proof.
  intros Hi. destruct o; simpl; intros H.
  - injection H as <- <-. by apply keeps_note_job.
  - pose proof (keeps_note_allocated fa source id sequence (seals w) Hi) as Hk.
    destruct (note_allocated _ _ _ _ _). by injection H as <- <-.
  - destruct (settle _ _ _ _ _) as [[[s r] e] fin] eqn:Hs. injection H as <- <-.
    by eapply keeps_settle.
  - destruct (request_seal _ _ _ _ _) as [[s r] e] eqn:Hs. injection H as <- <-.
    by eapply keeps_request_seal.
  - injection H as <- <-. by apply keeps_build_begin.
  - pose proof (keeps_build_end answer (seals w) Hi) as Hk.
    destruct (build_end _ _). by injection H as <- <-.
  - injection H as <- <-. by apply keeps_start_worker.
  - injection H as <- <-. by apply keeps_start_reclaimer.
  - injection H as <- <-. by apply keeps_exits.
  - injection H as <- <-. by apply keeps_exits.
  - injection H as <- <-. by apply keeps_reclaim.
  - injection H as <- <-. by apply keeps_reclaim.
  - injection H as <- <-. by apply keeps_drain.
  - injection H as <- <-. by apply keeps_refl.
  - injection H as <- <-. by apply keeps_refl.
Qed.

Lemma Inv_initial : Inv init_state.
Proof.
  split; [|constructor|by intros ?? ?%not_elem_of_nil|constructor].
  split; simpl; unfold MAX_PENDING_SEALS, MAX_RECLAIM_SEGMENTS, MAX_PENDING_SEALS; try done; auto.
Qed.

Lemma reach_inv fa legal w log :
  reach fa legal w log → Inv (seals w) ∧ handed log = built log ++ pending (seals w).
Proof.
  induction 1 as [|w log o w' evs Hr [IHi IHl] Hl He]; [split; [apply Inv_initial|done]|].
  destruct (exec_keeps _ _ _ _ _ IHi He) as [Hi Hq]. split; [done|].
  unfold handed, built in *. rewrite !omap_app. rewrite IHl, <-!(assoc_L (++)). by f_equal.
Qed.

(** *** Nothing disappears uncounted *)

(** The seals built without a marker queued. *)
Definition unmarked (evs : list event) : list Ready :=
  omap (λ e, match e with EvBuilt r None => Some r | _ => None end) evs.

Definition unreported (s : Seals) : Z := seal_markers_unqueued (stats s) + internal_errors (stats s).

Definition counts (s s' : Seals) (evs : list event) : Prop :=
  seals_dropped (stats s') = seals_dropped (stats s) + Z.of_nat (length (drops evs)) ∧
  unreported s + Z.of_nat (length (unmarked evs)) ≤ unreported s'.

Lemma counts_stats s s' : stats s' = stats s → counts s s' [].
Proof. unfold counts, unreported. intros ->. simpl. lia. Qed.

Lemma counts_bump c s :
  counts s (bump c s) (match c with
    | c_dropped => [EvDropped (mk_ready "" (new_segment None) (mk_request 0 None false false [] None None))]
    | _ => [] end).
Proof.
  unfold counts, unreported. destruct s as [?????????? ? [????????]]. destruct c; simpl; lia.
Qed.

Lemma counts_trans s1 s2 s3 e1 e2 :
  counts s1 s2 e1 → counts s2 s3 e2 → counts s1 s3 (e1 ++ e2).
Proof.
  unfold counts, unreported, drops, unmarked. rewrite !omap_app, !length_app. lia.
Qed.

Lemma counts_new_thread c set s :
  (∀ t s, stats (set t s) = stats s) → counts s (new_thread c set s) [].
Proof.
  intros Hs. unfold new_thread. destruct c; [by apply counts_stats|].
  eapply (counts_trans _ (set Absent s) _ []); [by apply counts_stats|].
  apply (counts_bump c_worker_failures).
Qed.

Lemma counts_discard c g s : counts s (discard c g s).1 [].
Proof.
  unfold discard. case_match; [apply (counts_bump c_freed_inline)|]. cbn [fst].
  set (s' := set_reclaim _ _ _ _ s). case_match; try by apply counts_stats.
  eapply (counts_trans _ s' _ []); [by apply counts_stats|]. by apply counts_new_thread.
Qed.

Lemma counts_hand_off c id g s s' release evs :
  hand_off c id g s = (s', release, evs) → counts s s' evs.
Proof.
  unfold hand_off. destruct (sg_request g); [|by intros [= <- <- <-]; apply counts_stats].
  case_match; [by intros [= <- <- <-]; apply counts_stats|]. cbn zeta.
  set (s1 := set_segments _ s). case_match.
  - destruct (discard c g _) as [s2 rel] eqn:Hd. intros [= <- <- <-].
    pose proof (counts_discard c g (set_dropped true (bump c_dropped s1))) as Hc. rewrite Hd in Hc.
    pose proof (counts_bump c_dropped s1) as Hb. unfold counts, unreported in *. simpl in *. lia.
  - intros [= <- <- <-]. set (s2 := set_ready _ _ s1).
    change ([EvHandedOff ?r]) with ([] ++ [EvHandedOff r]).
    eapply (counts_trans _ s2 _ []); [by apply counts_stats|].
    case_match; try by apply counts_stats.
    by apply (counts_new_thread c set_worker s2).
Qed.

Lemma counts_note_allocated fa src id n s :
  counts s (note_allocated fa src id n s).1 (note_allocated fa src id n s).2.
Proof.
  unfold note_allocated. set (s1 := set_segments _ s). pose proof (counts_bump c_forced s1) as Hb.
  unfold counts, unreported in *. case_match; simpl in *; lia.
Qed.

Lemma counts_settle c id n e s s' release evs fin :
  settle c id n e s = (s', release, evs, fin) → counts s s' evs.
Proof.
  unfold settle. destruct (compact e); [|intros [= <- <- <- <-]; apply (counts_bump c_errors)].
  destruct (dget id _); [|intros [= <- <- <- <-]; apply (counts_bump c_late)].
  case_match; [intros [= <- <- <- <-]; by apply counts_stats|].
  destruct (hand_off _ _ _ _) as [[s1 r1] e1] eqn:Hh. intros [= <- <- <- <-].
  apply counts_hand_off in Hh. exact Hh.
Qed.

Lemma counts_build_end a s : counts s (build_end a s).1 (build_end a s).2.
Proof.
  unfold build_end. destruct (building s) as [r|]; [|by apply counts_stats].
  unfold counts, unreported. destruct s as [?????????? ? [????????]].
  repeat case_match; simpl; lia.
Qed.

(** The thread operations count nothing but thread failures. *)
Lemma counts_failure s t : stats t = stats s → counts s (bump c_worker_failures t) [].
Proof.
  intros Ht. eapply (counts_trans _ t _ []); [by apply counts_stats|].
  apply (counts_bump c_worker_failures).
Qed.

Lemma exec_counts fa o w w' evs :
  exec fa o w = (w', evs) → counts (seals w) (seals w') evs.
Proof.
  destruct o; simpl; intros H; try (injection H as <- <-).
  - unfold note_job. by case_match; apply counts_stats.
  - pose proof (counts_note_allocated fa source id sequence (seals w)) as Hk.
    destruct (note_allocated _ _ _ _ _). by injection H as <- <-.
  - destruct (settle _ _ _ _ _) as [[[s r] e] fin] eqn:Hs. injection H as <- <-.
    by eapply counts_settle.
  - destruct (request_seal _ _ _ _ _) as [[s r] e] eqn:Hs. injection H as <- <-.
    apply counts_hand_off in Hs. exact Hs.
  - unfold build_begin. by repeat case_match; apply counts_stats.
  - pose proof (counts_build_end answer (seals w)) as Hk.
    destruct (build_end _ _). by injection H as <- <-.
  - simpl. unfold start_worker. repeat case_match; first [by apply counts_stats | by apply counts_failure].
  - simpl. unfold start_reclaimer. repeat case_match; first [by apply counts_stats | by apply counts_failure].
  - simpl. unfold worker_exit. by repeat case_match; apply counts_stats.
  - simpl. unfold reclaimer_exit. by repeat case_match; apply counts_stats.
  - simpl. unfold reclaim_take. by repeat case_match; apply counts_stats.
  - simpl. unfold reclaim_done. by repeat case_match; apply counts_stats.
  - simpl. unfold drain_turn. repeat case_match; simpl;
      first [by apply counts_stats | by apply counts_new_thread].
  - by apply counts_stats.
  - by apply counts_stats.
Qed.

Lemma reach_counts fa legal w log :
  reach fa legal w log →
  seals_dropped (stats (seals w)) = Z.of_nat (length (drops log)) ∧
  Z.of_nat (length (unmarked log)) ≤ unreported (seals w).
Proof.
  induction 1 as [|w log o w' evs Hr [IH1 IH2] Hl He]; [done|].
  apply exec_counts in He as [H1 H2]. unfold drops, unmarked in *.
  rewrite !omap_app, !length_app. lia.
Qed.

(** ** What a seal covers *)

(** The positions allocated in a segment since it was last handed off. *)
Definition alloc_step (id : string) (l : list Z) (e : event) : list Z :=
  match e with
  | EvAllocated i n => if decide (i = id) then l ++ [n] else l
  | EvHandedOff r | EvDropped r => if decide (rd_id r = id) then [] else l
  | _ => l
  end.
Definition allocated (id : string) (log : list event) : list Z := foldl (alloc_step id) [] log.

(** The discipline of the allocator and the loss paths: a position is allocated once, and a
    position of an open segment is settled only after it was allocated there. *)
Definition disciplined (w : World) (log : list event) (o : op) : Prop :=
  match o with
  | NoteAllocated _ id n => n ∉ allocated id log
  | Settle _ _ id n _ => id ∈ (segments (seals w)).*1 → n ∈ allocated id log
  | _ => True
  end.

(** The settled positions of [g] are among [l], and the others are outstanding. *)
Definition covers (g : Segment) (l : list Z) : Prop :=
  NoDup l ∧ (∀ n, n ∈ (sg_entries g).*1 → n ∈ l) ∧
  sg_outstanding g = Z.of_nat (length l) - Z.of_nat (length (sg_entries g)).

Definition covered (s : Seals) (log : list event) : Prop :=
  ∀ id, match dget id (segments s) with
        | Some g => covers g (allocated id log)
        | None => allocated id log = []
        end.

Definition sealed_exactly (log : list event) : Prop :=
  ∀ l1 r l2, log = l1 ++ EvHandedOff r :: l2 →
    (sg_entries (rd_segment r)).*1 ≡ₚ allocated (rd_id r) l1.

Lemma allocated_app id l k : allocated id (l ++ k) = foldl (alloc_step id) (allocated id l) k.
Proof. apply foldl_app. Qed.

Lemma covered_default src id s log :
  covered s log → covers (default (new_segment src) (dget id (segments s))) (allocated id log).
Proof.
  intros Hc. specialize (Hc id). destruct (dget id (segments s)); [done|]. simpl. rewrite Hc.
  split_and!; [constructor|done|done].
Qed.

Lemma covered_set id g s log :
  covered s log → covers g (allocated id log) →
  covered (set_segments (dset id g (segments s)) s) log.
Proof.
  intros Hc Hg id'. simpl. rewrite dget_dset. case_decide; [by subst|]. apply Hc.
Qed.

Lemma covers_all g l :
  covers g l → segment_ok g → sg_outstanding g = 0 → (sg_entries g).*1 ≡ₚ l.
Proof.
  intros (Hn & Hin & Ho) [Hd _] Hz. apply submseteq_length_Permutation.
  - apply NoDup_submseteq; [done|]. apply Hin.
  - rewrite length_fmap. lia.
Qed.

Lemma sealed_exactly_app log evs :
  sealed_exactly log →
  (∀ l1 r l2, evs = l1 ++ EvHandedOff r :: l2 →
     (sg_entries (rd_segment r)).*1 ≡ₚ allocated (rd_id r) (log ++ l1)) →
  sealed_exactly (log ++ evs).
Proof.
  intros Hlog Hevs l1 r l2 [(k & -> & _)|(k & -> & ->)]%app_cons_inv.
  - by eapply Hlog.
  - by eapply Hevs.
Qed.

(** Storing [g] and handing it off when it is due keeps the coverage. *)
Lemma covered_hand_off c id g s s' release evs log :
  Inv s → segment_ok g → covered s log → sealed_exactly log → covers g (allocated id log) →
  hand_off c id g (set_segments (dset id g (segments s)) s) = (s', release, evs) →
  covered s' (log ++ evs) ∧ sealed_exactly (log ++ evs).
Proof.
  intros Hi Hok Hc Hx Hg H.
  eapply hand_off_spec in H as (_ & _ & _ & Hcase);
    [|by simpl; rewrite dget_dset_eq|done|apply Accounted_segments, Hi|apply NoDup_dset, Hi
     |by apply others_ok|apply Hi].
  destruct Hcase as [(-> & Hs & _)|(r & (_ & Hz & _) & Hid & Hr & Hs & Hev)].
  - rewrite app_nil_r. split; [|done]. intros id'. rewrite Hs. by apply covered_set.
  - assert (∀ id', alloc_step id' (allocated id' log) (EvHandedOff r) =
              alloc_step id' (allocated id' log) (EvDropped r)) as Hsame by done.
    assert (covered s' (log ++ [EvHandedOff r])) as Hcov.
    { intros id'. rewrite Hs, allocated_app. cbn [segments set_segments foldl alloc_step].
      rewrite dget_ddel, dget_dset, Hid. destruct (decide (id' = id)) as [->|Hne].
      - by rewrite decide_True.
      - rewrite decide_False by congruence. apply Hc. }
    split.
    + destruct Hev as [->| ->]; [done|]. intros id'. specialize (Hcov id').
      by rewrite allocated_app in *.
    + apply sealed_exactly_app; [done|]. intros l1 r' l2 E.
      destruct Hev as [->| ->]; destruct l1 as [|? [|??]]; simplify_eq/=.
      rewrite app_nil_r. apply covers_all; [done|done|]. done.
Qed.

Lemma covered_same s s' log : segments s' = segments s → covered s log → covered s' log.
Proof. intros Hs Hc id. rewrite Hs. apply Hc. Qed.

(** Events that concern no allocation and no hand-off. *)
Lemma covered_quiet s log evs :
  (∀ e id l, e ∈ evs → alloc_step id l e = l) → handed evs = [] →
  covered s log → sealed_exactly log → covered s (log ++ evs) ∧ sealed_exactly (log ++ evs).
Proof.
  intros He Hh Hc Hx. split.
  - intros id. rewrite allocated_app.
    assert (∀ l, foldl (alloc_step id) l evs = l) as ->; [|apply Hc].
    clear Hh. induction evs as [|e evs IH]; intros l; [done|]. simpl.
    rewrite He by (by left). apply IH. intros. apply He. by right.
  - apply sealed_exactly_app; [done|]. intros l1 r l2 ->.
    unfold handed in Hh. rewrite omap_app in Hh. by apply app_eq_nil in Hh as [_ ?].
Qed.

Lemma covered_silent s s' log :
  segments s' = segments s → covered s log → sealed_exactly log →
  covered s' (log ++ []) ∧ sealed_exactly (log ++ []).
Proof. rewrite app_nil_r. eauto using covered_same. Qed.

Lemma covered_note_allocated fa src id n s log :
  n ∉ allocated id log → covered s log → sealed_exactly log →
  covered (note_allocated fa src id n s).1 (log ++ (note_allocated fa src id n s).2) ∧
  sealed_exactly (log ++ (note_allocated fa src id n s).2).
Proof.
  intros Hn Hc Hx. pose proof (covered_default src id s log Hc) as (Hnd & Hin & Ho).
  unfold note_allocated. set (g := default _ _) in *. set (g' := mk_segment _ _ _ _ _ _).
  set (s1 := set_segments _ s).
  assert (covered s1 (log ++ [EvAllocated id n]) ∧ sealed_exactly (log ++ [EvAllocated id n]))
    as [Hc1 Hx1].
  { split.
    - intros id'. rewrite allocated_app. simpl. rewrite dget_dset. specialize (Hc id').
      destruct (decide (id' = id)) as [->|Hne]; [|by rewrite decide_False].
      rewrite decide_True by done. split_and!; simpl.
      + apply NoDup_app. split_and!; [done| |apply NoDup_singleton].
        intros x Hxx ->%list_elem_of_singleton. done.
      + intros m Hm. apply elem_of_app. auto.
      + rewrite length_app. simpl. lia.
    - apply sealed_exactly_app; [done|]. intros [|? [|??]] r l2; discriminate. }
  case_match; cbn [fst snd]; [|done].
  replace [EvAllocated id n; EvForced id] with ([EvAllocated id n] ++ [EvForced id]) by done.
  rewrite (assoc_L (++)). apply covered_quiet; [|done| |done].
  - intros e id' l ->%list_elem_of_singleton. done.
  - eapply covered_same; [|done]. apply bump_frame.
Qed.

Lemma covered_settle c id n e s s' release evs fin log :
  Inv s → (id ∈ (segments s).*1 → n ∈ allocated id log) → covered s log → sealed_exactly log →
  settle c id n e s = (s', release, evs, fin) →
  covered s' (log ++ evs) ∧ sealed_exactly (log ++ evs).
Proof.
  intros Hi Hn Hc Hx. unfold settle. destruct (compact e) as [cc|].
  2: { intros [= <- <- <- <-]. apply (covered_silent s); [apply bump_frame|done..]. }
  destruct (dget id (segments s)) as [g|] eqn:Hg.
  2: { intros [= <- <- <- <-]. apply (covered_silent s); [apply bump_frame|done..]. }
  destruct (din n (sg_entries g)) eqn:Hd.
  { intros [= <- <- <- <-]. by apply (covered_silent s). }
  destruct (hand_off _ _ _ _) as [[s1 r1] e1] eqn:Hh. intros [= <- <- <- <-].
  destruct (dget_ok _ _ _ Hi Hg) as [[Hnd Ho] _]. apply din_false in Hd.
  pose proof (Hc id) as Hcg. rewrite Hg in Hcg. destruct Hcg as (Hl & Hin & Hout).
  assert (n ∈ allocated id log) as Hna by (apply Hn, dget_is_Some; by rewrite Hg).
  eapply covered_hand_off; [done| |done|done| |exact Hh].
  - split; simpl; [by apply NoDup_dset|lia].
  - rewrite dset_new by done. split_and!; simpl; [done| |].
    + intros m. rewrite fmap_app, elem_of_app; csimpl; rewrite list_elem_of_singleton. intros [?| ->]; auto.
    + rewrite length_app. simpl.
      assert ((n :: (sg_entries g).*1) ⊆+ allocated id log) as Hsub.
      { apply NoDup_submseteq; [by constructor|]. intros m [->|?]%elem_of_cons; auto. }
      apply submseteq_length in Hsub. simpl in Hsub. rewrite length_fmap in Hsub. lia.
Qed.

Lemma covered_note_job id src r s log : covered s log → covered (note_job id src r s) log.
Proof.
  intros Hc. unfold note_job. destruct (dget id (segments s)) as [g|] eqn:Hg; [|done].
  apply covered_set; [done|]. specialize (Hc id). by rewrite Hg in Hc.
Qed.

Lemma exec_covered fa o w w' evs log :
  Inv (seals w) → disciplined w log o → covered (seals w) log → sealed_exactly log →
  exec fa o w = (w', evs) → covered (seals w') (log ++ evs) ∧ sealed_exactly (log ++ evs).
Proof.
  intros Hi Hd Hc Hx. destruct o; simpl; intros H;
    [injection H as <- <-; rewrite app_nil_r; split; [by apply covered_note_job|done]|..];
    try (injection H as <- <-; simpl; apply (covered_silent (seals w)); [|done..]).
  - pose proof (covered_note_allocated fa source id sequence (seals w) log Hd Hc Hx) as Hk.
    destruct (note_allocated _ _ _ _ _). by injection H as <- <-.
  - destruct (settle _ _ _ _ _) as [[[s r] e] fin] eqn:Hs. injection H as <- <-.
    by eapply covered_settle.
  - destruct (request_seal _ _ _ _ _) as [[s r] e] eqn:Hs. injection H as <- <-.
    pose proof (covered_default bound id _ _ Hc). eapply covered_hand_off; [..|exact Hs]; try done.
    by apply default_ok.
  - unfold build_begin. by repeat case_match.
  - destruct (building (seals w)) as [r|] eqn:Hb.
    + destruct (build_end_cases answer r _ Hb) as (m & s' & E & (d & x & -> & _)).
      rewrite E in H. injection H as <- <-.
      apply covered_quiet; [|done| |done]; [|by apply (covered_same (seals w))].
      intros e id l ->%list_elem_of_singleton. done.
    + unfold build_end in H. rewrite Hb in H. injection H as <- <-.
      by apply (covered_silent (seals w)).
  - unfold start_worker. repeat case_match; try done. by rewrite (proj1 (bump_frame _ _)).
  - unfold start_reclaimer. repeat case_match; try done. by rewrite (proj1 (bump_frame _ _)).
  - unfold worker_exit. by repeat case_match.
  - unfold reclaimer_exit. by repeat case_match.
  - unfold reclaim_take. by repeat case_match.
  - unfold reclaim_done. by repeat case_match.
  - unfold drain_turn. repeat case_match; try done; by apply (new_thread_frame _ set_worker).
  - done.
  - done.
Qed.

Lemma reach_covered fa w log :
  reach fa disciplined w log → covered (seals w) log ∧ sealed_exactly log.
Proof.
  induction 1 as [|w log o w' evs Hr [IHc IHx] Hl He].
  - split; [by intros id|]. by intros [] ? ?.
  - destruct (reach_inv _ _ _ _ Hr) as [Hi _]. by eapply exec_covered.
Qed.

(** A marker that was queued is the one [_emit] built. *)
Lemma reach_markers fa legal w log r m :
  reach fa legal w log → EvBuilt r (Some m) ∈ log → seal_marker r = Ok (Some m).
Proof.
  induction 1 as [|w log o w' evs Hr IH Hl He]; [by intros ?%not_elem_of_nil|].
  rewrite elem_of_app. intros [?|Hin]; [by apply IH|]. clear IH Hl Hr.
  assert (∀ c id g s s' rel es, hand_off c id g s = (s', rel, es) → EvBuilt r (Some m) ∉ es) as Hho.
  { intros c id g s s' rel es Hh Hes. unfold hand_off in Hh. repeat case_match; simplify_eq;
      by repeat (apply elem_of_cons in Hes as [?|Hes]; [done|]); apply not_elem_of_nil in Hes. }
  destruct o; simpl in He;
    try (injection He as <- <-; by apply not_elem_of_nil in Hin).
  - unfold note_allocated in He. cbn zeta in He. repeat case_match; simplify_eq;
      repeat (apply elem_of_cons in Hin as [?|Hin]; [done|]); by apply not_elem_of_nil in Hin.
  - destruct (settle _ _ _ _ _) as [[[s r1] e] fin] eqn:Hs. injection He as <- <-.
    unfold settle in Hs. repeat case_match; simplify_eq;
      try (by apply not_elem_of_nil in Hin).
    match goal with Hh : hand_off _ _ _ _ = _ |- _ => by apply Hho in Hh end.
  - destruct (request_seal _ _ _ _ _) as [[s r1] e] eqn:Hs. injection He as <- <-.
    by apply Hho in Hs.
  - unfold build_end in He. destruct (building _) as [r0|];
      [|by injection He as <- <-; apply not_elem_of_nil in Hin].
    repeat case_match; simplify_eq; apply list_elem_of_singleton in Hin; by simplify_eq.
Qed.

Lemma elem_of_handed r log : r ∈ handed log ↔ EvHandedOff r ∈ log.
Proof.
  unfold handed. rewrite list_elem_of_omap. split; [|by eexists].
  intros ([] & He & ?); by simplify_eq.
Qed.

Lemma elem_of_built r log : r ∈ built log ↔ ∃ m, EvBuilt r m ∈ log.
Proof.
  unfold built. rewrite list_elem_of_omap. split; [|intros [m ?]; by eexists].
  intros ([] & He & ?); simplify_eq. by eexists.
Qed.

Lemma seal_marker_ok r : segment_ok (rd_segment r) →
  ∃ d, seal_digest (seal_entries (rd_segment r)) = Ok d ∧
  ∃ m, seal_marker r = Ok m ∧
       match m with
       | Some m => mk_seal_digest m = d ∧ mk_segment_id m = rd_id r ∧
                   mk_sequence m = rq_last_sequence (rd_request r) ∧
                   mk_terminal m = rq_terminal (rd_request r) ∧
                   mk_branch_ids m = rq_branch_ids (rd_request r)
       | None => rq_source (rd_request r) = None ∧ sg_source (rd_segment r) = None
       end.
Proof.
  intros Hok. unfold seal_marker. rewrite seal_digest_eq, decide_True by (by apply no_dup_entries).
  eexists. split; [done|]. eexists. split; [done|]. unfold or_source.
  destruct (rq_source (rd_request r)); [done|]. by destruct (sg_source (rd_segment r)).
Qed.

(** C4: a seal covers exactly the positions of its segment: under the allocator's discipline
    (a position is allocated once, and settled only after it was allocated), every
    [segment_seal] marker that was queued carries the digest of a set of entries whose
    positions are exactly those allocated in the segment up to its hand-off, one entry
    each, however the threads interleaved. *)
Theorem seal_covers_allocated (fa : Z) (w : World) (log : list event) (r : Ready) (m : Marker) :
  reach fa disciplined w log → EvBuilt r (Some m) ∈ log →
  ∃ l1 l2, log = l1 ++ EvHandedOff r :: l2 ∧
    (seal_entries (rd_segment r)).*1 ≡ₚ allocated (rd_id r) l1 ∧
    NoDup (seal_entries (rd_segment r)).*1 ∧
    seal_digest (seal_entries (rd_segment r)) = Ok (mk_seal_digest m) ∧
    mk_segment_id m = rd_id r ∧ mk_sequence m = rq_last_sequence (rd_request r).
Proof.
  intros Hr Hm. destruct (reach_covered _ _ _ Hr) as [_ Hx].
  destruct (reach_inv _ _ _ _ Hr) as [Hi Hq].
  pose proof (reach_markers _ _ _ _ _ _ Hr Hm) as Hmk.
  assert (EvHandedOff r ∈ log) as (l1 & l2 & Hl)%list_elem_of_split.
  { apply elem_of_handed. rewrite Hq. apply elem_of_app. left. apply elem_of_built. eauto. }
  exists l1, l2. unfold seal_marker in Hmk.
  destruct (seal_digest (seal_entries (rd_segment r))) as [d|] eqn:Hd; [|done].
  split; [done|]. rewrite seal_digest_eq in Hd. case_decide as Hn; [|done].
  split; [|split; [done|]].
  - rewrite <-(Hx _ _ _ Hl). unfold seal_entries. by rewrite <-list_fmap_compose.
  - simpl in Hmk. destruct (or_source _ _); [|done]. by injection Hmk as <-.
Qed.

(** Seals leave in the order they were handed off and none disappears silently: what was
    handed off is what was built followed by what is still pending; every dropped seal is
    counted in [seals_dropped]; every seal built without queueing a marker is counted; and
    the digest of every pending seal is defined. *)
Theorem seals_fifo (fa : Z) (w : World) (log : list event) :
  reach fa any w log →
  handed log = built log ++ pending (seals w) ∧
  seals_pending (seals w) = Z.of_nat (length (pending (seals w))) ∧
  dropped (seals w) = Z.of_nat (length (drops log)) ∧
  Z.of_nat (length (unmarked log)) ≤ unreported (seals w) ∧
  (∀ r, r ∈ pending (seals w) → is_ok (seal_marker r) = true).
Proof.
  intros Hr. destruct (reach_inv _ _ _ _ Hr) as [Hi Hq].
  destruct (reach_counts _ _ _ _ Hr) as [Hd Hu]. split_and!; [done| |done|done|].
  - unfold seals_pending, pending. rewrite length_app. by destruct (building (seals w)); simpl; lia.
  - intros r Hin. pose proof (inv_pending _ Hi) as Hp. rewrite Forall_forall in Hp.
    destruct (Hp _ Hin) as [Hok _]. by destruct (seal_marker_ok r Hok) as (d & _ & m & -> & _).
Qed.

(** The accumulator's memory is bounded: at most [MAX_PENDING_SEALS] seals are queued,
    and when more than one is queued they retain at most [MAX_PENDING_SEAL_POSITIONS]
    positions; at most [MAX_RECLAIM_SEGMENTS] dropped segments and [MAX_RECLAIM_POSITIONS]
    positions wait for the reclaimer; the counters the bounds are checked with are exact;
    and no open segment holds two outcomes for a position or a negative count. *)
Theorem seals_bounded (fa : Z) (w : World) (log : list event) :
  reach fa any w log →
  let s := seals w in
  Z.of_nat (length (ready s)) ≤ MAX_PENDING_SEALS ∧
  ((length (ready s) ≤ 1)%nat ∨ total (rd_segment <$> ready s) ≤ MAX_PENDING_SEAL_POSITIONS) ∧
  total (reclaim s) + total (option_list (freeing s)) ≤ MAX_RECLAIM_POSITIONS ∧
  Z.of_nat (length (reclaim s)) + Z.of_nat (length (option_list (freeing s)))
    ≤ MAX_RECLAIM_SEGMENTS ∧
  ready_positions s = total (rd_segment <$> ready s) ∧
  (∀ id g, dget id (segments s) = Some g → segment_ok g).
Proof.
  intros Hr. destruct (reach_inv _ _ _ _ Hr) as [Hi _]. pose proof (inv_accounted _ Hi) as [].
  cbn zeta. split_and!; [done| |lia|lia|done|].
  - by rewrite <-acc_ready0.
  - intros id g Hg. by apply (dget_ok _ _ _ Hi) in Hg as [? _].
Qed.

(** [n] turns of a builder whose sink answers [a]. *)
Fixpoint build_turns (n : nat) (a : SinkAnswer) (s : Seals) : Seals :=
  match n with
  | O => s
  | S n => build_turns n a (build_end a (build_begin s)).1
  end.

Lemma build_turns_empty n a s :
  (length (pending s) ≤ n)%nat → pending (build_turns n a s) = [].
Proof.
  revert s. induction n as [|n IH]; intros s Hn; simpl.
  { apply length_zero_iff_nil. lia. }
  apply IH. unfold pending in *. unfold build_begin.
  destruct (building s) as [r|] eqn:Hb; simpl in Hn.
  - destruct (build_end_cases a r s Hb) as (m & s' & -> & (d & x & -> & _)). simpl. lia.
  - destruct (ready s) as [|r rest] eqn:Hr; simpl in Hn.
    + unfold build_end. rewrite Hb. cbn [fst]. rewrite Hb, Hr. simpl. lia.
    + set (s1 := set_building (Some r) _).
      destruct (build_end_cases a r s1 eq_refl) as (m & s' & -> & (d & x & -> & _)). simpl. lia.
Qed.

(** C5: sealing is prompt: a segment whose seal was requested is kept only while a position of
    it is outstanding, queued work always has a worker (or a counted failure to start one),
    and as many turns of the worker as there are pending seals build them all, after which
    a drain returns: [true] exactly when no seal was dropped since the last drain. *)
Theorem seals_prompt (fa : Z) (w : World) (log : list event) (a : SinkAnswer) (e c : bool) :
  reach fa any w log →
  let s := seals w in
  (∀ id g, dget id (segments s) = Some g → sg_request g ≠ None → 0 < sg_outstanding g) ∧
  (ready s ≠ [] → worker s ≠ Absent ∨ 0 < seal_worker_failures (stats s)) ∧
  pending (build_turns (length (pending s)) a s) = [] ∧
  (drain_turn true e c (build_turns (length (pending s)) a s)).2 =
    Returns (negb (dropped_since_drain (build_turns (length (pending s)) a s))).
Proof.
  intros Hr. destruct (reach_inv _ _ _ _ Hr) as [Hi _]. cbn zeta. split_and!.
  - intros id g Hg. apply (dget_ok _ _ _ Hi) in Hg as [_ Hw]. exact Hw.
  - apply (inv_accounted _ Hi).
  - by apply build_turns_empty.
  - assert (pending (build_turns (length (pending (seals w))) a (seals w)) = []) as Hp
      by (by apply build_turns_empty).
    unfold pending in Hp at 1. apply app_eq_nil in Hp as [Hb Hre]. unfold drain_turn.
    rewrite Hre. by destruct (building _).
Qed.

(** *** Dropped state and the allocator lock *)

Definition held_ok (w : World) : Prop :=
  ∀ tid, let h := held_of tid w in 0 ≤ depth h ∧ (depth h ≤ 0 → deferred h = []).

Lemma held_set tid h w :
  held_ok w → 0 ≤ depth h → (depth h ≤ 0 → deferred h = []) → held_ok (set_held tid h w).
Proof.
  intros Hw H1 H2 t. unfold held_of, set_held. simpl. rewrite dget_dset.
  case_decide; simpl; [done|]. apply Hw.
Qed.

Lemma release_ok r h :
  0 ≤ depth h → 0 ≤ depth (release_deferred (defer r h)) ∧
  (depth (release_deferred (defer r h)) ≤ 0 → deferred (release_deferred (defer r h)) = []).
Proof.
  unfold release_deferred. destruct r; simpl; case_match; simpl; to_prop; split; done || lia.
Qed.

Lemma settle_unfinished c id n e s s' release evs :
  settle c id n e s = (s', release, evs, false) → release = None.
Proof. unfold settle. intros H. repeat case_match; by simplify_eq. Qed.

Lemma reach_held fa legal w log : reach fa legal w log → held_ok w.
Proof.
  intros Hr.
  induction Hr as [|w log o w' evs Hr IH Hl He]; [by intros t|].
  destruct o; simpl in He; try (injection He as <- <-; exact IH).
  - destruct (note_allocated _ _ _ _ _). by injection He as <- <-.
  - destruct (settle _ _ _ _ _) as [[[s r] e] fin] eqn:Hs. injection He as <- <-.
    destruct (IH tid) as [Hd Hf]. destruct fin.
    + apply held_set; [done|..]; by apply release_ok.
    + apply settle_unfinished in Hs as ->. by apply held_set.
  - destruct (request_seal _ _ _ _ _) as [[s r] e] eqn:Hs. injection He as <- <-.
    destruct (IH tid) as [Hd Hf]. apply held_set; [done|..]; by apply release_ok.
  - destruct (build_end _ _). by injection He as <- <-.
  - injection He as <- <-. destruct (IH tid) as [Hd Hf]. destruct (drain_turn _ _ _ _).2; [|by apply held_set..].
    apply held_set; [done|..]; by apply (release_ok None).
  - injection He as <- <-. destruct (IH tid) as [Hd Hf]. apply held_set; simpl; [done|lia|lia].
  - injection He as <- <-. destruct (IH tid) as [Hd Hf]. unfold unhold.
    apply held_set; [done|..]; case_match; simpl; to_prop; done || lia.
Qed.

Lemma set_held_deferred tid t h w :
  0 < depth (held_of tid (set_held t h w)) →
  (t = tid → 0 < depth h → ∃ more, deferred h = deferred (held_of tid w) ++ more) →
  ∃ more, deferred (held_of tid (set_held t h w)) = deferred (held_of tid w) ++ more.
Proof.
  unfold held_of, set_held. simpl. rewrite dget_dset. case_decide; simpl.
  - intros ? Hh. by apply Hh.
  - intros _ _. exists []. by rewrite app_nil_r.
Qed.

Lemma release_deferred_more r (fin : bool) h :
  let h' := if fin then release_deferred (defer r h) else defer r h in
  0 < depth h' → ∃ more, deferred h' = deferred h ++ more.
Proof.
  unfold release_deferred. destruct r as [g|]; simpl; destruct fin; simpl;
    try (case_match; simpl; to_prop; [lia|]); intros _;
    first [by exists [g] | exists []; by rewrite app_nil_r].
Qed.

(** Dropped state is freed only outside the allocator lock and never kept after it: a
    thread that holds the lock keeps what it dropped, and as soon as a thread leaves the
    lock, or an entry point ends outside it, it has nothing left to release. *)
Theorem dropped_state_released (fa : Z) (w : World) (log : list event) (tid : Z) :
  reach fa any w log →
  let h := held_of tid w in
  (depth h ≤ 0 → deferred h = []) ∧
  (∀ o w' evs, exec fa o w = (w', evs) → 0 < depth (held_of tid w') →
     ∃ more, deferred (held_of tid w') = deferred h ++ more).
Proof.
  intros Hr. cbn zeta.
  split; [by apply (reach_held fa any w log)|]. intros o w' evs He Hpos.
  assert (∃ more, deferred (held_of tid w) = deferred (held_of tid w) ++ more) as Hid
    by (exists []; by rewrite app_nil_r).
  destruct o; simpl in He; try (injection He as <- <-; exact Hid).
  - destruct (note_allocated _ _ _ _ _). by injection He as <- <-.
  - destruct (settle _ _ _ _ _) as [[[s r] e] fin]. injection He as <- <-.
    apply (set_held_deferred tid tid0 _ w); [exact Hpos|]. intros ->. apply release_deferred_more.
  - destruct (request_seal _ _ _ _ _) as [[s r] e]. injection He as <- <-.
    apply (set_held_deferred tid tid0 _ w); [exact Hpos|]. intros ->. apply (release_deferred_more r true).
  - destruct (build_end _ _). by injection He as <- <-.
  - injection He as <- <-. apply (set_held_deferred tid tid0 _ w); [exact Hpos|]. intros ->.
    destruct (drain_turn _ _ _ _).2; [apply (release_deferred_more None true)|intros _; exact Hid..].
  - injection He as <- <-. apply (set_held_deferred tid tid0 _ w); [exact Hpos|]. intros -> _. exact Hid.
  - injection He as <- <-. apply (set_held_deferred tid tid0 _ w); [exact Hpos|]. intros ->. unfold unhold.
    case_match; simpl; [lia|done].
Qed.

(** ** Runs of the model *)

Fixpoint run (fa : Z) (ops : list op) (w : World) (log : list event) : World * list event :=
  match ops with
  | [] => (w, log)
  | o :: ops => let '(w, evs) := exec fa o w in run fa ops w (log ++ evs)
  end.

(** The discipline, decided. *)
Definition disciplinedb (w : World) (log : list event) (o : op) : bool :=
  match o with
  | NoteAllocated _ id n => bool_decide (n ∉ allocated id log)
  | Settle _ _ id n _ =>
      negb (din id (segments (seals w))) || bool_decide (n ∈ allocated id log)
  | _ => true
  end.

Fixpoint all_disciplined (fa : Z) (ops : list op) (w : World) (log : list event) : bool :=
  match ops with
  | [] => true
  | o :: ops =>
      disciplinedb w log o &&
      (let '(w, evs) := exec fa o w in all_disciplined fa ops w (log ++ evs))
  end.

Lemma disciplinedb_spec w log o : disciplinedb w log o = true → disciplined w log o.
Proof.
  destruct o; simpl; try done; intros H; to_prop; [done|].
  intros Hin. apply din_true in Hin. destruct H as [H|H]; to_prop; congruence || done.
Qed.

Lemma run_disciplined fa ops w log :
  reach fa disciplined w log → all_disciplined fa ops w log = true →
  reach fa disciplined (run fa ops w log).1 (run fa ops w log).2.
Proof.
  revert w log. induction ops as [|o ops IH]; intros w log Hr Hd; [done|]. simpl in *. to_prop.
  destruct (exec fa o w) as [w' evs] eqn:He. apply IH; [|done].
  eapply reach_step; [done| |done]. by apply disciplinedb_spec.
Qed.

Lemma run_any fa ops w log :
  reach fa any w log → reach fa any (run fa ops w log).1 (run fa ops w log).2.
Proof.
  revert w log. induction ops as [|o ops IH]; intros w log Hr; [done|]. simpl.
  destruct (exec fa o w) as [w' evs] eqn:He. apply IH. by eapply reach_step.
Qed.

Definition demo_request : SealRequest := mk_request 2 None true false [] (Some "r-1") None.
Definition demo_ops : list op :=
  [NoteAllocated (Some ("s-1", 1)) "seg-1" 1; NoteAllocated (Some ("s-1", 1)) "seg-1" 2;
   Settle 0 true "seg-1" 2 "loss:queue_full"; RequestSeal 0 true None "seg-1" demo_request;
   Settle 0 true "seg-1" 1 "loss:shutdown"; StartWorker true; BuildBegin; BuildEnd (Answered true)].
Definition demo_world : World := (run FORCED_SEAL_ENTRIES demo_ops initial []).1.
Definition demo_log : list event := (run FORCED_SEAL_ENTRIES demo_ops initial []).2.
Definition demo_ready : Ready :=
  mk_ready "seg-1"
    (mk_segment [(2, CLoss "queue_full"); (1, CLoss "shutdown")] 0 (Some demo_request) None
       (Some ("s-1", 1)) false) demo_request.
Definition demo_marker : Marker := Eval vm_compute in
  match seal_marker demo_ready with
  | Ok (Some m) => m
  | _ => mk_marker ("", 0) 0 None "" false false [] None ""
  end.

Lemma demo_any : reach FORCED_SEAL_ENTRIES any demo_world demo_log.
Proof. apply (run_any FORCED_SEAL_ENTRIES demo_ops). constructor. Qed.

Lemma seal_covers_allocated_witness :
  ∃ l1 l2, demo_log = l1 ++ EvHandedOff demo_ready :: l2 ∧
    (seal_entries (rd_segment demo_ready)).*1 ≡ₚ allocated "seg-1" l1.
Proof.
  destruct (seal_covers_allocated FORCED_SEAL_ENTRIES demo_world demo_log demo_ready demo_marker)
    as (l1 & l2 & H1 & H2 & _).
  - apply (run_disciplined FORCED_SEAL_ENTRIES demo_ops); [constructor|vm_compute; reflexivity].
  - apply (list_elem_of_lookup_2 _ 3%nat). vm_compute. reflexivity.
  - exists l1, l2. exact (conj H1 H2).
Defined.

Lemma seals_fifo_witness : handed demo_log = built demo_log ++ pending (seals demo_world).
Proof. apply (seals_fifo FORCED_SEAL_ENTRIES demo_world demo_log demo_any). Defined.

Lemma seals_bounded_witness : Z.of_nat (length (ready (seals demo_world))) ≤ MAX_PENDING_SEALS.
Proof. apply (seals_bounded FORCED_SEAL_ENTRIES demo_world demo_log demo_any). Qed.

Lemma seals_prompt_witness :
  pending (build_turns (length (pending (seals demo_world))) NoSink (seals demo_world)) = [].
Proof.
  apply (seals_prompt FORCED_SEAL_ENTRIES demo_world demo_log NoSink false true demo_any).
Defined.

Lemma dropped_state_released_witness :
  depth (held_of 0 demo_world) = 0 ∧ deferred (held_of 0 demo_world) = [].
Proof.
  assert (depth (held_of 0 demo_world) = 0) as Hd by (vm_compute; reflexivity).
  split; [exact Hd|].
  apply (dropped_state_released FORCED_SEAL_ENTRIES demo_world demo_log 0 demo_any).
  rewrite Hd. reflexivity.
Defined.
