(* ===== verification/Interfaces.v ===== *)
(** * The protocols between the allocator, the run table and the seal accumulator

    The types and protocols of [fabric/_capture_types.py] (spec 050 sections 3.3, 3.6 and
    3.7): run scopes, allocations, and the two interfaces the allocator calls under its lock
    as type classes. The no-op implementations used before the real ones are attached are
    instances; [Sequence] is proved against the classes. *)

From S2P Require Import Prelude.

(** [RunScope]: a scope is known by its place in the table of scopes created so far. *)
Record RunScope := mk_scope {
  sc_run_id : string;
  sc_scope_id : string;
  sc_parent : option nat;
  sc_closed : bool;
}.

(** [Allocation] ([manifest_seq] is never set by the allocator). *)
Record Allocation := mk_allocation {
  al_epoch : Z;
  al_sequence : Z;
  al_scope : option nat;
  al_segment_id : option string;
}.

#[export] Instance Allocation_eq_dec : EqDecision Allocation.
Proof. solve_decision. Defined.

(** [RunTable]: what the allocator calls of it. A hook that raises may still have changed
    the state of the table. *)
Class RunTable (T : Type) := on_allocate : Allocation → T → T * result (option string).

(** [SealAccumulator], with the per-thread notice of the allocator lock ([_seal.hold]). The
    boolean of [seal_settle] is [false] when it raised. *)
Class SealAccumulator (A : Type) := {
  seal_hold : Z → A → A;
  seal_unhold : Z → A → A;
  seal_note_allocated : string → Z → A → A;
  seal_settle : Z → string → Z → string → A → A * bool;
  seal_outstanding : string → A → Z;
}.

(** [NullRunTable], [NullSealAccumulator] *)
#[export] Instance NullRunTable : RunTable unit := λ _ t, (t, Ok None).

#[export] Instance NullSealAccumulator : SealAccumulator unit := {|
  seal_hold _ a := a;
  seal_unhold _ a := a;
  seal_note_allocated _ _ a := a;
  seal_settle _ _ _ _ a := (a, true);
  seal_outstanding _ _ := 0;
|}.
