(* ===== verification/Sequence.v ===== *)
(** * The source allocator

    [SourceAllocator] and the run scopes of [fabric/_sequence.py] (spec 050 section 3.3): one
    monotonic sequence per source and epoch. The operations that run under the allocator
    lock are one step each, so a list of operations is any interleaving of the process's
    threads. The run table and the seal accumulator are the interfaces of [Interfaces]; the
    operating system's random epochs and the outcome of a memory store are arguments. *)

From S2P Require Import Prelude PyDict Hash Decimal Ids Interfaces.

(** ** Run scopes *)

(** [_open_scope]: the innermost scope, from [s] outwards, that is not closed. *)
Fixpoint innermost_open (fuel : nat) (scopes : list RunScope) (s : option nat) : option nat :=
  match fuel, s with
  | S fuel, Some i =>
      match scopes !! i with
      | Some sc => if sc_closed sc then innermost_open fuel scopes (sc_parent sc) else Some i
      | None => None
      end
  | _, _ => None
  end.

Definition open_scope (scopes : list RunScope) (s : option nat) : option nat :=
  innermost_open (length scopes) scopes s.

(** A scope is created in the scope current at that time. *)
Definition scopes_ok (scopes : list RunScope) : Prop :=
  ∀ i sc p, scopes !! i = Some sc → sc_parent sc = Some p → (p < i)%nat.

Definition close (i : nat) (scopes : list RunScope) : list RunScope :=
  alter (λ sc, mk_scope (sc_run_id sc) (sc_scope_id sc) (sc_parent sc) true) i scopes.

(** ** The allocator *)

(** [EpochRegistration], with its identity. *)
Record Registration := mk_registration { reg_id : nat; reg_epoch : Z }.

#[export] Instance Registration_eq_dec : EqDecision Registration.
Proof. solve_decision. Defined.

(** The attributes of a [SourceAllocator] that change; [mirror] and [fork_note] are the maps
    it stores into, known by number. *)
Record Allocator := mk_allocator {
  source : string;
  next : Z;
  epoch : Z;
  registration : option Registration;
  mirror : option nat;
  fork_note : option nat;
  settled : Z;
  settle_failures : Z;
}.

(** [SourceAllocator.__init__] *)
Definition new_allocator (source_id : string) (component : string) (drawn : Z) : result Allocator :=
  if bool_decide (component ∈ ["process"; "wire"]) && opaque_id source_id
  then Ok (mk_allocator source_id 0 drawn None None None 0 0)
  else Raise ValueError.

Section allocator.
Context {T A : Type} `{!RunTable T} `{!SealAccumulator A}.

(** A process: its allocator, the scopes created so far, the memory behind the registration
    mirrors and the fork ledger, the run table and the seal accumulator. *)
Record Process := mk_process {
  allocator : Allocator;
  scopes : list RunScope;
  mirrors : list (nat * Z);
  ledger : list (nat * (Z * Z));
  table : T;
  seals : A;
}.

Definition set_allocator a p :=
  mk_process a (scopes p) (mirrors p) (ledger p) (table p) (seals p).
Definition set_scopes x p :=
  mk_process (allocator p) x (mirrors p) (ledger p) (table p) (seals p).
Definition set_mirrors x p :=
  mk_process (allocator p) (scopes p) x (ledger p) (table p) (seals p).
Definition set_ledger x p :=
  mk_process (allocator p) (scopes p) (mirrors p) x (table p) (seals p).
Definition set_table x p :=
  mk_process (allocator p) (scopes p) (mirrors p) (ledger p) x (seals p).
Definition set_seals x p :=
  mk_process (allocator p) (scopes p) (mirrors p) (ledger p) (table p) x.

Definition set_next n a := mk_allocator (source a) n (epoch a) (registration a) (mirror a)
  (fork_note a) (settled a) (settle_failures a).
Definition set_mirror m a := mk_allocator (source a) (next a) (epoch a) (registration a) m
  (fork_note a) (settled a) (settle_failures a).
Definition set_fork_note n a := mk_allocator (source a) (next a) (epoch a) (registration a)
  (mirror a) n (settled a) (settle_failures a).

(** The store into the registration mirror; one that fails stops the mirroring. *)
Definition store_mirror (ok : bool) (sequence : Z) (p : Process) : Process :=
  match mirror (allocator p) with
  | Some m =>
      if ok then set_mirrors (dset m (sequence + 1) (mirrors p)) p
      else set_allocator (set_mirror None (allocator p)) p
  | None => p
  end.

(** The store into the fork ledger. *)
Definition store_note (ok : bool) (ep sequence : Z) (p : Process) : Process :=
  match fork_note (allocator p) with
  | Some m =>
      if ok then set_ledger (dset m (ep, sequence) (ledger p)) p
      else set_allocator (set_fork_note None (allocator p)) p
  | None => p
  end.

(** [_allocated] *)
Definition allocated (mirror_ok note_ok : bool) (scope : option nat) (p : Process)
    : Process * Allocation :=
  let a := allocator p in
  let sequence := next a in
  let p := set_allocator (set_next (sequence + 1) a) p in
  let allocation := mk_allocation (epoch a) sequence scope None in
  let '(t, segment) := on_allocate allocation (table p) in
  let p := set_table t p in
  let segment := match segment with Ok s => s | Raise _ => None end in
  let p := store_mirror mirror_ok sequence p in
  let p := store_note note_ok (epoch a) sequence p in
  match segment with
  | Some s =>
      (set_seals (seal_note_allocated s sequence (seals p)) p,
       mk_allocation (epoch a) sequence scope (Some s))
  | None => (p, allocation)
  end.

(** [allocate] in a context whose innermost scope is [current]; [allocate_for] walks out of
    the closed scopes in the same way, so it is the same operation on a given scope. *)
Definition allocate (tid : Z) (mirror_ok note_ok : bool) (current : option nat) (p : Process)
    : Process * Allocation :=
  let p := set_seals (seal_hold tid (seals p)) p in
  let '(p, al) := allocated mirror_ok note_ok (open_scope (scopes p) current) p in
  (set_seals (seal_unhold tid (seals p)) p, al).

Definition allocate_for := allocate.

(** [SourceAllocator.settle] *)
Definition settle (tid : Z) (segment_id : option string) (sequence : Z) (entry : string)
    (p : Process) : Process :=
  match segment_id with
  | None => p
  | Some s =>
      let '(x, ok) := seal_settle tid s sequence entry (seals p) in
      let a := allocator p in
      let a := mk_allocator (source a) (next a) (epoch a) (registration a) (mirror a)
                 (fork_note a) (settled a + (if ok then 1 else 0))
                 (settle_failures a + (if ok then 0 else 1)) in
      set_allocator a (set_seals x p)
  end.

(** [last_sequence], the position a scope opens at *)
Definition last_sequence (p : Process) : Z * Z := (epoch (allocator p), next (allocator p) - 1).

(** [run_scope]: the block is entered with [current] innermost, and left. *)
Definition enter_scope (run_id scope_id : string) (current : option nat) (p : Process) : Process :=
  set_scopes (scopes p ++ [mk_scope run_id scope_id current false]) p.
Definition exit_scope (i : nat) (p : Process) : Process := set_scopes (close i (scopes p)) p.

(** [close_scope] *)
Definition close_scope (i : nat) (p : Process) : Process * (Z * Z) :=
  let p := set_scopes (close i (scopes p)) p in (p, last_sequence p).

(** [SourceAllocator.seal] with the epoch [_new_epoch] drew. *)
Definition seal (drawn : Z) (p : Process) : Process * (Z * Z) :=
  let a := allocator p in
  (set_allocator (mk_allocator (source a) 0 drawn None None (fork_note a) (settled a)
                    (settle_failures a)) p,
   (epoch a, next a - 1)).

(** [bind_registration] *)
Definition bind_registration (r : Registration) (m : option nat) (drawn_from : Z)
    (mirror_ok : bool) (p : Process) : Process * bool :=
  let a := allocator p in
  if negb (epoch a =? drawn_from) || (negb (reg_epoch r =? epoch a) && negb (next a =? 0))
  then (p, false)
  else
    let a := mk_allocator (source a) (next a) (reg_epoch r) (Some r) m (fork_note a)
               (settled a) (settle_failures a) in
    let p := set_allocator a p in
    (match m with
     | Some m => if mirror_ok then set_mirrors (dset m (next a) (mirrors p)) p else p
     | None => p
     end, true).

(** [unbind_registration] *)
Definition unbind_registration (r : option nat) (p : Process) : Process :=
  let a := allocator p in
  if match r with
     | None => true
     | Some r => bool_decide (reg_id <$> registration a = Some r)
     end
  then set_allocator (mk_allocator (source a) (next a) (epoch a) None None (fork_note a)
                        (settled a) (settle_failures a)) p
  else p.

(** [_after_fork_in_child] for the allocator *)
Definition after_fork (drawn : Z) (p : Process) : Process :=
  let a := allocator p in
  set_allocator (mk_allocator (source a) 0 drawn None None (fork_note a) (settled a)
                   (settle_failures a)) p.
End allocator.
Arguments Process : clear implicits.

(** ** Scopes *)

Lemma innermost_open_fuel scopes n m s :
  scopes_ok scopes → (∀ i, s = Some i → (i < n)%nat ∧ (i < m)%nat) →
  innermost_open n scopes s = innermost_open m scopes s.
Proof.
  intros Hok. revert m s. induction n as [|n IH]; intros m s Hs.
  - destruct s as [i|]; [destruct (Hs i); [done|lia]|]. by destruct m.
  - destruct s as [i|]; [|by destruct m]. destruct (Hs i) as [Hn Hm]; [done|].
    destruct m as [|m]; [lia|]. simpl. destruct (scopes !! i) as [sc|] eqn:Hsc; [|done].
    destruct (sc_closed sc); [|done]. apply IH. intros p Hp.
    pose proof (Hok _ _ _ Hsc Hp). lia.
Qed.

(** [_open_scope] terminates on the parents as the source walks them. *)
Lemma open_scope_eq scopes s :
  scopes_ok scopes →
  open_scope scopes s =
    match s with
    | None => None
    | Some i =>
        match scopes !! i with
        | Some sc => if sc_closed sc then open_scope scopes (sc_parent sc) else Some i
        | None => None
        end
    end.
Proof.
  intros Hok. unfold open_scope. destruct s as [i|]; [|by destruct scopes].
  destruct (scopes !! i) as [sc|] eqn:Hsc.
  - pose proof (lookup_lt_Some _ _ _ Hsc) as Hi.
    rewrite (innermost_open_fuel scopes (length scopes) (S i)) by (done || (intros; simplify_eq; lia)).
    simpl. rewrite Hsc. destruct (sc_closed sc); [|done].
    apply innermost_open_fuel; [done|]. intros p Hp. pose proof (Hok _ _ _ Hsc Hp). lia.
  - destruct (length scopes); simpl; [done|]. by rewrite Hsc.
Qed.

(** [i] is [s] or one of its enclosing scopes. *)
Inductive encloses (scopes : list RunScope) : nat → nat → Prop :=
  | encloses_refl i : encloses scopes i i
  | encloses_parent i s sc p :
      scopes !! s = Some sc → sc_parent sc = Some p → encloses scopes i p → encloses scopes i s.

Lemma open_scope_spec scopes s :
  scopes_ok scopes →
  match open_scope scopes (Some s) with
  | Some i => encloses scopes i s ∧
      ∃ sc, scopes !! i = Some sc ∧ sc_closed sc = false
  | None => ∀ i sc, encloses scopes i s → scopes !! i = Some sc → sc_closed sc = true
  end.
Proof.
  intros Hok. induction (lt_wf s) as [s _ IH]. rewrite open_scope_eq by done.
  destruct (scopes !! s) as [sc|] eqn:Hsc.
  - destruct (sc_closed sc) eqn:Hc; [|split; [constructor|by eexists]].
    destruct (sc_parent sc) as [p|] eqn:Hp.
    + specialize (IH p (Hok _ _ _ Hsc Hp)). destruct (open_scope scopes (Some p)) as [i|].
      * destruct IH as [He Hi]. split; [|done]. by eapply encloses_parent.
      * intros i sc' He Hi. inv He; simplify_eq; [done|]. by eapply IH.
    + rewrite open_scope_eq by done. intros i sc' He Hi. inv He; by simplify_eq.
  - intros i sc' He Hi. inv He; by simplify_eq.
Qed.

(** A position is never allocated in a closed scope: the walk of [_open_scope] ends, and
    gives the innermost scope around the given one that is still open, or none when every
    enclosing scope is closed; no open scope lies between. *)
Theorem open_scope_innermost (scopes : list RunScope) (s : nat) :
  scopes_ok scopes →
  match open_scope scopes (Some s) with
  | Some i =>
      encloses scopes i s ∧ (∃ sc, scopes !! i = Some sc ∧ sc_closed sc = false) ∧
      (∀ j sc, encloses scopes j s → scopes !! j = Some sc → sc_closed sc = false → (j ≤ i)%nat)
  | None => ∀ i sc, encloses scopes i s → scopes !! i = Some sc → sc_closed sc = true
  end.
Proof.
  intros Hok. pose proof (open_scope_spec scopes s Hok) as Hs.
  destruct (open_scope scopes (Some s)) as [i|] eqn:Hi; [|done]. destruct Hs as [He Hsc].
  split_and!; [done..|]. clear He Hsc. revert i Hi.
  induction (lt_wf s) as [s _ IH]. intros i Hi j sc He Hj Hc.
  rewrite open_scope_eq in Hi by done.
  destruct (scopes !! s) as [scs|] eqn:Hs; [|done]. destruct (sc_closed scs) eqn:Hcs.
  - inversion He as [|? ? sc' p Hs' Hp He']; [congruence|]. simplify_eq.
    rewrite Hp in Hi. by eapply (IH p); [eapply Hok|..].
  - injection Hi as <-. clear -Hok He.
    induction He as [|i s sc p Hs Hp He IHe]; [done|]. pose proof (Hok _ _ _ Hs Hp). lia.
Qed.

(** ** Runs of a process *)

(** One step of some thread under the allocator lock (or a fork). *)
Inductive op :=
  | Allocate (tid : Z) (mirror_ok note_ok : bool) (current : option nat)
  | Settle (tid : Z) (segment_id : option string) (sequence : Z) (entry : string)
  | EnterScope (run_id scope_id : string) (current : option nat)
  | CloseScope (i : nat)
  | ExitScope (i : nat)
  | Seal (drawn : Z)
  | Bind (r : Registration) (m : option nat) (drawn_from : Z) (mirror_ok : bool)
  | Unbind (r : option nat)
  | SetForkNote (m : option nat)
  | Fork (drawn : Z).

Inductive event :=
  | EvEpoch (e : Z)                    (** the allocator's epoch became [e] *)
  | EvAllocation (al : Allocation)
  | EvClosed (i : nat) (e last : Z)    (** the position [close_scope] returned *)
  | EvSealed (e last : Z).             (** the position [seal] returned *)

Section runs.
Context {T A : Type} `{!RunTable T} `{!SealAccumulator A}.
Implicit Types p : Process T A.

Definition exec (o : op) (p : Process T A) : Process T A * list event :=
  match o with
  | Allocate tid mok nok current =>
      let '(p, al) := allocate tid mok nok current p in (p, [EvAllocation al])
  | Settle tid s n e => (settle tid s n e p, [])
  | EnterScope r i current => (enter_scope r i current p, [])
  | CloseScope i => let '(p, (e, last)) := close_scope i p in (p, [EvClosed i e last])
  | ExitScope i => (exit_scope i p, [])
  | Seal drawn => let '(p, (e, last)) := seal drawn p in (p, [EvSealed e last; EvEpoch drawn])
  | Bind r m from ok =>
      let '(p', bound) := bind_registration r m from ok p in
      (p', if bound && negb (epoch (allocator p') =? epoch (allocator p))
           then [EvEpoch (reg_epoch r)] else [])
  | Unbind r => (unbind_registration r p, [])
  | SetForkNote m => (set_allocator (set_fork_note m (allocator p)) p, [])
  | Fork drawn => (after_fork drawn p, [EvEpoch drawn])
  end.

Definition epochs (log : list event) : list Z :=
  omap (λ e, match e with EvEpoch e => Some e | _ => None end) log.
Definition allocations (log : list event) : list Allocation :=
  omap (λ e, match e with EvAllocation al => Some al | _ => None end) log.

(** The sequences allocated in epoch [e], in order. *)
Definition sequences (e : Z) (log : list event) : list Z :=
  al_sequence <$> filter (λ al, al_epoch al = e) (allocations log).

(** What the environment provides: 63 random bits name an epoch never used before, and a
    block is entered in, and closes, a scope that exists. *)
Definition legal p (log : list event) (o : op) : Prop :=
  match o with
  | EnterScope _ _ (Some i) => (i < length (scopes p))%nat
  | Seal drawn | Fork drawn => drawn ∉ epochs log
  | Bind r _ _ _ => reg_epoch r = epoch (allocator p) ∨ reg_epoch r ∉ epochs log
  | CloseScope i | ExitScope i => (i < length (scopes p))%nat
  | _ => True
  end.

Inductive reach : Process T A → list event → Prop :=
  | reach_init src e t a :
      reach (mk_process (mk_allocator src 0 e None None None 0 0) [] [] [] t a) [EvEpoch e]
  | reach_step p log o p' evs :
      reach p log → legal p log o → exec o p = (p', evs) → reach p' (log ++ evs).

(** What an operation may change of the sequence. *)
Lemma store_frame mok nok e n p :
  let p' := store_note nok e n (store_mirror mok n p) in
  epoch (allocator p') = epoch (allocator p) ∧ next (allocator p') = next (allocator p) ∧
  scopes p' = scopes p.
Proof.
  unfold store_note, store_mirror. destruct (mirror (allocator p)); [destruct mok|]; simpl;
    case_match; try (destruct nok); done.
Qed.

Lemma allocate_spec tid mok nok current p p' al :
  allocate tid mok nok current p = (p', al) →
  al_epoch al = epoch (allocator p) ∧ al_sequence al = next (allocator p) ∧
  al_scope al = open_scope (scopes p) current ∧
  epoch (allocator p') = epoch (allocator p) ∧ next (allocator p') = next (allocator p) + 1 ∧
  scopes p' = scopes p.
Proof.
  unfold allocate, allocated. intros H.
  match type of H with context [on_allocate ?al ?t] => destruct (on_allocate al t) as [t' seg] end.
  match type of H with context [store_note ?nok ?e ?n (store_mirror ?mok ?n ?q)] =>
    pose proof (store_frame mok nok e n q) as (F1 & F2 & F3);
    set (q' := store_note nok e n (store_mirror mok n q)) in * end.
  destruct seg as [[s|]|]; injection H as <- <-; simpl in *; by rewrite F1, F2, F3.
Qed.

Lemma allocations_app l k : allocations (l ++ k) = allocations l ++ allocations k.
Proof. apply omap_app. Qed.
Lemma epochs_app l k : epochs (l ++ k) = epochs l ++ epochs k.
Proof. apply omap_app. Qed.
Lemma sequences_app e l k : sequences e (l ++ k) = sequences e l ++ sequences e k.
Proof. unfold sequences. by rewrite allocations_app, filter_app, fmap_app. Qed.

(** Every epoch holds the sequences 0, 1, 2, ... in the order they were handed out; the
    current one goes on at [next], and no other is ever added to. *)
Record Numbered p (log : list event) : Prop := {
  num_next : 0 ≤ next (allocator p);
  num_current : epoch (allocator p) ∈ epochs log;
  num_sequences : sequences (epoch (allocator p)) log = seqZ 0 (next (allocator p));
  num_all : ∀ e, ∃ n, 0 ≤ n ∧ sequences e log = seqZ 0 n;
  num_unused : ∀ e, e ∉ epochs log → sequences e log = [];
  num_scopes : scopes_ok (scopes p);
}.

(** An operation that allocates nothing and keeps the epoch and the next sequence. *)
Lemma numbered_quiet p p' log evs :
  allocations evs = [] → epoch (allocator p') = epoch (allocator p) →
  next (allocator p') = next (allocator p) → scopes_ok (scopes p') →
  Numbered p log → Numbered p' (log ++ evs).
Proof.
  intros He Hep Hn Hs [].
  assert (∀ e, sequences e (log ++ evs) = sequences e log) as Hseq.
  { intros e. rewrite sequences_app. unfold sequences at 2. rewrite He. simpl. by rewrite app_nil_r. }
  split; rewrite ?Hep, ?Hn, ?Hseq; try done.
  - rewrite epochs_app, elem_of_app. by left.
  - intros e. rewrite Hseq. done.
  - intros e He'. rewrite Hseq. apply num_unused0. rewrite epochs_app, elem_of_app in He'. tauto.
Qed.

(** A new epoch starts at 0. *)
Lemma numbered_epoch p p' log evs e :
  allocations evs = [] → EvEpoch e ∈ evs → e ∉ epochs log →
  epoch (allocator p') = e → next (allocator p') = 0 → scopes p' = scopes p →
  Numbered p log → Numbered p' (log ++ evs).
Proof.
  intros He Hin Hfresh Hep Hn Hs [].
  assert (∀ e, sequences e (log ++ evs) = sequences e log) as Hseq.
  { intros x. rewrite sequences_app. unfold sequences at 2. rewrite He. simpl. by rewrite app_nil_r. }
  split; rewrite ?Hep, ?Hn, ?Hs, ?Hseq; try done.
  - rewrite epochs_app, elem_of_app. right. unfold epochs. apply list_elem_of_omap. by eexists.
  - by apply num_unused0.
  - intros x. rewrite Hseq. done.
  - intros x Hx. rewrite Hseq. apply num_unused0. rewrite epochs_app, elem_of_app in Hx. tauto.
Qed.

Lemma scopes_ok_close i l : scopes_ok l → scopes_ok (close i l).
Proof.
  intros Hok j sc p. unfold close. rewrite list_lookup_alter.
  destruct (decide (i = j)) as [->|].
  - destruct (l !! j) as [sc0|] eqn:Hj; simpl; [|done]. intros [= <-]. simpl. by apply Hok.
  - apply Hok.
Qed.

Lemma scopes_ok_enter r i current p :
  scopes_ok (scopes p) → match current with Some c => (c < length (scopes p))%nat | None => True end →
  scopes_ok (scopes (enter_scope r i current p)).
Proof.
  intros Hok Hc j sc q Hj Hq. simpl in Hj. apply lookup_app_Some in Hj as [Hj|[Hl Hj]].
  - by eapply Hok.
  - destruct (j - length (scopes p))%nat as [|k] eqn:E; [|by destruct k].
    simpl in Hj. injection Hj as <-. simpl in Hq. subst current. lia.
Qed.

Lemma seqZ_snoc n : 0 ≤ n → seqZ 0 (n + 1) = seqZ 0 n ++ [n].
Proof. intros Hn. rewrite seqZ_app by lia. by rewrite Z.add_0_l. Qed.

(** Adopting a registration keeps the sequence, or starts a new epoch in which nothing was
    allocated. *)
Lemma bind_spec r m from ok p p' b :
  bind_registration r m from ok p = (p', b) →
  scopes p' = scopes p ∧ next (allocator p') = next (allocator p) ∧
  (epoch (allocator p') = epoch (allocator p) ∨
   b = true ∧ epoch (allocator p') = reg_epoch r ∧ next (allocator p) = 0).
Proof.
  unfold bind_registration. destruct (_ || _) eqn:Hc; intros [= <- <-]; [by auto|].
  apply orb_false_iff in Hc as [_ Hc].
  assert (epoch (allocator p) = reg_epoch r ∨ next (allocator p) = 0) as Hor.
  { apply andb_false_iff in Hc as [Hc|Hc]; to_prop; auto. }
  destruct m as [m|]; [destruct ok|]; simpl; naive_solver.
Qed.

Lemma exec_numbered o p p' log evs :
  legal p log o → exec o p = (p', evs) → Numbered p log → Numbered p' (log ++ evs).
Proof.
  intros Hl He Hn. pose proof (num_scopes _ _ Hn) as Hok.
  destruct o; simpl in He.
  - destruct (allocate _ _ _ _ _) as [q al] eqn:Ha. injection He as <- <-.
    apply allocate_spec in Ha as (H1 & H2 & H3 & H4 & H5 & H6).
    assert (∀ e, sequences e (log ++ [EvAllocation al]) =
              sequences e log ++ if decide (epoch (allocator p) = e) then [next (allocator p)] else [])
      as Hseq.
    { intros e. rewrite sequences_app. f_equal. unfold sequences, allocations. simpl.
      rewrite <-H1. destruct (decide (al_epoch al = e)).
      - rewrite filter_cons_True by done. simpl. by rewrite H2.
      - by rewrite filter_cons_False by done. }
    destruct Hn. split; rewrite ?H4, ?H5, ?H6; try done.
    + lia.
    + rewrite epochs_app, elem_of_app. by left.
    + rewrite Hseq, decide_True, num_sequences0 by done.
      by rewrite seqZ_snoc.
    + intros e. rewrite Hseq. case_decide as Hd.
      * exists (next (allocator p) + 1). split; [lia|]. rewrite <-Hd, num_sequences0.
        by rewrite seqZ_snoc.
      * rewrite app_nil_r. done.
    + intros e Hx. rewrite epochs_app, elem_of_app in Hx. rewrite Hseq, num_unused0 by tauto.
      rewrite decide_False; [done|]. intros <-. tauto.
  - injection He as <- <-. apply (numbered_quiet p); try done; unfold settle;
      destruct segment_id; try done; by destruct (seal_settle _ _ _ _ _).
  - injection He as <- <-. apply (numbered_quiet p); try done.
    apply scopes_ok_enter; [done|]. by destruct current.
  - injection He as <- <-. apply (numbered_quiet p); try done. by apply scopes_ok_close.
  - injection He as <- <-. apply (numbered_quiet p); try done. by apply scopes_ok_close.
  - injection He as <- <-. apply (numbered_epoch p _ _ _ drawn); try done. by right; left.
  - destruct (bind_registration _ _ _ _ _) as [q b] eqn:Hb. injection He as <- <-.
    apply bind_spec in Hb as (Hs & Hx & [He|(-> & He & H0)]).
    + rewrite He, Z.eqb_refl, andb_false_r. apply (numbered_quiet p); by rewrite ?Hs.
    + rewrite He. destruct (reg_epoch r =? epoch (allocator p)) eqn:Heq; to_prop.
      * apply (numbered_quiet p); rewrite ?Hs; first [done|congruence].
      * apply (numbered_epoch p _ _ _ (reg_epoch r)); try done; [by left| |congruence].
        destruct Hl as [Hl|Hl]; [by rewrite Hl in Heq|done].
  - injection He as <- <-. apply (numbered_quiet p); try done; unfold unbind_registration;
      by case_match.
  - injection He as <- <-. by apply (numbered_quiet p).
  - injection He as <- <-. apply (numbered_epoch p _ _ _ drawn); try done. by left.
Qed.

(** *** Epochs that ended, scopes that were closed *)

Definition closed_in p (i : nat) : Prop := ∃ sc, scopes p !! i = Some sc ∧ sc_closed sc = true.

Record Settled p (log : list event) : Prop := {
  set_sealed : ∀ l1 e last l2, log = l1 ++ EvSealed e last :: l2 →
    e ≠ epoch (allocator p) ∧ e ∈ epochs log ∧
    sequences e l1 = seqZ 0 (last + 1) ∧ sequences e log = seqZ 0 (last + 1);
  set_closed : ∀ l1 i e last l2, log = l1 ++ EvClosed i e last :: l2 →
    closed_in p i ∧ sequences e l1 = seqZ 0 (last + 1) ∧
    ∀ al, al ∈ allocations l2 → al_scope al ≠ Some i;
}.

Lemma closed_close i j p q :
  scopes q = close i (scopes p) → closed_in p j → closed_in q j.
Proof.
  intros Hq (sc & Hs & Hc). unfold closed_in. rewrite Hq. unfold close. rewrite list_lookup_alter.
  destruct (decide (i = j)) as [->|]; rewrite Hs; simpl; by eexists.
Qed.

Lemma exec_closed o p p' evs i :
  exec o p = (p', evs) → closed_in p i → closed_in p' i.
Proof.
  intros He Hc. destruct o; simpl in He.
  - destruct (allocate _ _ _ _ _) as [q al] eqn:Ha. injection He as <- <-.
    apply allocate_spec in Ha as (_ & _ & _ & _ & _ & H). unfold closed_in. by rewrite H.
  - injection He as <- <-. unfold settle. destruct segment_id; [|done].
    by destruct (seal_settle _ _ _ _ _).
  - injection He as <- <-. destruct Hc as (sc & Hs & Hc). exists sc. split; [|done].
    by apply lookup_app_l_Some.
  - injection He as <- <-. by eapply closed_close.
  - injection He as <- <-. by eapply closed_close.
  - by injection He as <- <-.
  - destruct (bind_registration _ _ _ _ _) as [q b] eqn:Hb. injection He as <- <-.
    apply bind_spec in Hb as (Hs & _). unfold closed_in. by rewrite Hs.
  - injection He as <- <-. unfold unbind_registration. by case_match.
  - by injection He as <- <-.
  - by injection He as <- <-.
Qed.

(** Only an allocation adds to a sequence, and only to the current epoch and an open scope. *)
Lemma exec_allocations o p p' log evs :
  Numbered p log → exec o p = (p', evs) →
  ∀ al, al ∈ allocations evs → al_epoch al = epoch (allocator p) ∧
    (∀ i, al_scope al = Some i → ¬ closed_in p i).
Proof.
  intros Hn He al Hal. destruct o; simpl in He;
    try (injection He as <- <-; by apply not_elem_of_nil in Hal).
  - destruct (allocate _ _ _ _ _) as [q al'] eqn:Ha. injection He as <- <-.
    apply list_elem_of_singleton in Hal as ->.
    apply allocate_spec in Ha as (H1 & _ & H3 & _). split; [done|]. intros i Hi (sc & Hs & Hc).
    destruct current as [c|]; [|by rewrite H3 in Hi; unfold open_scope in Hi; destruct (scopes p)].
    pose proof (open_scope_spec (scopes p) c (num_scopes _ _ Hn)) as Hsp.
    rewrite <-H3, Hi in Hsp. destruct Hsp as (_ & sc' & ? & ?). congruence.
  - destruct (bind_registration _ _ _ _ _) as [q b]. injection He as <- <-.
    destruct (_ && _); by apply not_elem_of_nil in Hal.
Qed.

(** The epoch after a step is the one before, or one not used before. *)
Lemma exec_epoch o p p' log evs :
  legal p log o → exec o p = (p', evs) →
  epoch (allocator p') = epoch (allocator p) ∨ epoch (allocator p') ∉ epochs log.
Proof.
  intros Hl He. destruct o; simpl in He.
  - destruct (allocate _ _ _ _ _) as [q al] eqn:Ha. injection He as <- <-.
    apply allocate_spec in Ha as (_ & _ & _ & H & _). auto.
  - injection He as <- <-. unfold settle. destruct segment_id; [|auto].
    destruct (seal_settle _ _ _ _ _). auto.
  - injection He as <- <-. auto.
  - injection He as <- <-. auto.
  - injection He as <- <-. auto.
  - injection He as <- <-. right. exact Hl.
  - destruct (bind_registration _ _ _ _ _) as [q b] eqn:Hb. injection He as <- <-.
    apply bind_spec in Hb as (_ & _ & [H|(_ & H & _)]); [auto|]. rewrite H. exact Hl.
  - injection He as <- <-. unfold unbind_registration. case_match; auto.
  - injection He as <- <-. auto.
  - injection He as <- <-. right. exact Hl.
Qed.

Lemma exec_sealed o p p' evs r e last l2 :
  exec o p = (p', evs) → evs = r ++ EvSealed e last :: l2 →
  ∃ drawn, o = Seal drawn ∧ r = [] ∧ evs = [EvSealed e last; EvEpoch drawn] ∧
    e = epoch (allocator p) ∧ last = next (allocator p) - 1 ∧ epoch (allocator p') = drawn.
Proof.
  intros He Hr. destruct o; simpl in He;
    try (injection He as <- <-; destruct r as [|? [|? [|??]]]; by simplify_eq/=).
  - destruct (allocate _ _ _ _ _). injection He as <- <-. destruct r as [|? [|??]]; by simplify_eq/=.
  - injection He as <- <-. destruct r as [|? [|? [|??]]]; simplify_eq/=. by eexists.
  - destruct (bind_registration _ _ _ _ _). injection He as <- <-.
    destruct (_ && _); destruct r as [|? [|??]]; by simplify_eq/=.
Qed.

Lemma exec_closes o p p' evs r i e last l2 :
  exec o p = (p', evs) → evs = r ++ EvClosed i e last :: l2 →
  o = CloseScope i ∧ r = [] ∧ l2 = [] ∧ e = epoch (allocator p) ∧
  last = next (allocator p) - 1 ∧ scopes p' = close i (scopes p).
Proof.
  intros He Hr. destruct o; simpl in He;
    try (injection He as <- <-; destruct r as [|? [|? [|??]]]; by simplify_eq/=).
  - destruct (allocate _ _ _ _ _). injection He as <- <-. destruct r as [|? [|??]]; by simplify_eq/=.
  - destruct (bind_registration _ _ _ _ _). injection He as <- <-.
    destruct (_ && _); destruct r as [|? [|??]]; by simplify_eq/=.
Qed.

Lemma sequences_other e p p' o log evs :
  Numbered p log → exec o p = (p', evs) → e ≠ epoch (allocator p) →
  sequences e (log ++ evs) = sequences e log.
Proof.
  intros Hn He Hne. rewrite sequences_app. unfold sequences at 2.
  assert (filter (λ al, al_epoch al = e) (allocations evs) = []) as ->; [|by rewrite app_nil_r].
  apply elem_of_nil_inv. intros al [Hal Hin]%list_elem_of_filter.
  destruct (exec_allocations _ _ _ _ _ Hn He al Hin) as [H _]. congruence.
Qed.

Lemma exec_settled o p p' log evs :
  legal p log o → exec o p = (p', evs) → Numbered p log → Settled p log →
  Settled p' (log ++ evs).
Proof.
  intros Hl He Hn [Hs Hc]. split.
  - intros l1 e last l2 [(r & -> & ->)|(r & -> & Hr)]%app_cons_inv.
    + destruct (Hs _ _ _ _ eq_refl) as (Hne & Hin & Hl1 & Hseq). split_and!; [..|done|].
      * destruct (exec_epoch _ _ _ _ _ Hl He) as [->|Hx]; [done|]. by intros ->.
      * rewrite epochs_app, elem_of_app. by left.
      * by rewrite (sequences_other _ _ _ _ _ _ Hn He Hne).
    + destruct (exec_sealed _ _ _ _ _ _ _ _ He Hr) as (d & -> & -> & -> & -> & -> & Hd).
      simpl in Hl. split_and!.
      * rewrite Hd. intros <-. by apply Hl, Hn.
      * rewrite epochs_app, elem_of_app. left. apply Hn.
      * rewrite app_nil_r, (num_sequences _ _ Hn). f_equal. lia.
      * rewrite sequences_app. unfold sequences at 2. simpl. rewrite app_nil_r.
        rewrite (num_sequences _ _ Hn). f_equal. lia.
  - intros l1 i e last l2 [(r & -> & ->)|(r & -> & Hr)]%app_cons_inv.
    + destruct (Hc _ _ _ _ _ eq_refl) as (Hcl & Hseq & Hal). split_and!.
      * by eapply exec_closed.
      * done.
      * intros al. rewrite allocations_app, elem_of_app. intros [?|Hin]; [by apply Hal|].
        destruct (exec_allocations _ _ _ _ _ Hn He al Hin) as [_ H]. intros Hi. by apply (H i).
    + destruct (exec_closes _ _ _ _ _ _ _ _ _ He Hr) as (-> & -> & -> & -> & -> & Hsc).
      simpl in Hl. split_and!.
      * destruct (lookup_lt_is_Some_2 _ _ Hl) as [sc Hsc']. unfold closed_in. rewrite Hsc.
        unfold close. rewrite list_lookup_alter, decide_True, Hsc' by done. simpl. by eexists.
      * rewrite app_nil_r, (num_sequences _ _ Hn). f_equal. lia.
      * intros al ?%not_elem_of_nil. done.
Qed.

Lemma reach_ok p log : reach p log → Numbered p log ∧ Settled p log.
Proof.
  induction 1 as [src e t a|p log o p' evs Hr [IHn IHs] Hl He].
  - split; split; simpl; try done.
    + apply list_elem_of_singleton. done.
    + by exists 0.
    + intros [|? [|??]]; naive_solver.
    + intros [|? [|??]]; naive_solver.
  - split; [by eapply exec_numbered|by eapply exec_settled].
Qed.

(** C7: the allocator numbers positions without gaps or repeats: in every run of a process,
    whatever the interleaving, the forks, the re-registrations and the failures of the run
    table, the mirror and the ledger, the sequences handed out in an epoch are 0, 1, 2, ...
    in order, no position is handed out twice, and [last_sequence] is the last one. *)
Theorem allocations_consecutive p (log : list event) :
  reach p log →
  (∀ e, sequences e log = seqZ 0 (Z.of_nat (length (sequences e log)))) ∧
  NoDup ((λ al, (al_epoch al, al_sequence al)) <$> allocations log) ∧
  last_sequence p = (epoch (allocator p),
                     Z.of_nat (length (sequences (epoch (allocator p)) log)) - 1).
Proof.
  intros Hr. destruct (reach_ok _ _ Hr) as [Hn _].
  assert (∀ e, sequences e log = seqZ 0 (Z.of_nat (length (sequences e log)))) as Hseq.
  { intros e. destruct (num_all _ _ Hn e) as (n & Hn0 & ->). rewrite length_seqZ. f_equal. lia. }
  split_and!; [done| |].
  - apply NoDup_by_key. intros e. fold (sequences e log). rewrite Hseq. apply NoDup_seqZ.
  - unfold last_sequence. rewrite (num_sequences _ _ Hn), length_seqZ.
    pose proof (num_next _ _ Hn). f_equal. lia.
Qed.

(** An epoch that was sealed is final: [seal] returns the epoch and the last position
    allocated in it, every position of the epoch is at or below it, and no position is
    allocated in the epoch ever after; this is what makes a [final] heartbeat true. *)
Theorem sealed_epoch_final p l1 (e last : Z) l2 :
  reach p (l1 ++ EvSealed e last :: l2) →
  sequences e l1 = seqZ 0 (last + 1) ∧ sequences e l2 = [] ∧ e ≠ epoch (allocator p).
Proof.
  intros Hr. destruct (reach_ok _ _ Hr) as [_ Hs].
  destruct (set_sealed _ _ Hs _ _ _ _ eq_refl) as (Hne & _ & Hl1 & Hseq).
  split_and!; [done| |done]. rewrite sequences_app, Hl1 in Hseq.
  rewrite <-(app_nil_r (seqZ _ _)) in Hseq at 2. by apply app_inv_head in Hseq.
Qed.

(** No position lies outside the markers of its closed scope: once [close_scope] returned
    a position for a scope, nothing is allocated in that scope any more, and everything
    allocated in its epoch before is at or below the returned position. *)
Theorem closed_scope_final p l1 (i : nat) (e last : Z) l2 :
  reach p (l1 ++ EvClosed i e last :: l2) →
  (∀ al, al ∈ allocations l2 → al_scope al ≠ Some i) ∧
  (∀ al, al ∈ allocations l1 → al_epoch al = e → al_sequence al ≤ last) ∧ closed_in p i.
Proof.
  intros Hr. destruct (reach_ok _ _ Hr) as [_ Hs].
  destruct (set_closed _ _ Hs _ _ _ _ _ eq_refl) as (Hc & Hseq & Hal). split_and!; [done| |done].
  intros al Hin He. assert (al_sequence al ∈ sequences e l1) as H.
  { apply list_elem_of_fmap_2. by apply list_elem_of_filter. }
  rewrite Hseq in H. apply elem_of_seqZ in H. lia.
Qed.

(** What the two stores leave. *)
Definition mirrored (ok : bool) (n : Z) p p' : Prop :=
  match mirror (allocator p) with
  | Some m => if ok then mirror (allocator p') = Some m ∧ dget m (mirrors p') = Some n
              else mirror (allocator p') = None ∧ mirrors p' = mirrors p
  | None => mirror (allocator p') = None ∧ mirrors p' = mirrors p
  end.
Definition noted (ok : bool) (n : Z * Z) p p' : Prop :=
  match fork_note (allocator p) with
  | Some m => if ok then fork_note (allocator p') = Some m ∧ dget m (ledger p') = Some n
              else fork_note (allocator p') = None ∧ ledger p' = ledger p
  | None => fork_note (allocator p') = None ∧ ledger p' = ledger p
  end.

Lemma store_mirror_spec ok n p :
  mirrored ok (n + 1) p (store_mirror ok n p) ∧
  fork_note (allocator (store_mirror ok n p)) = fork_note (allocator p) ∧
  ledger (store_mirror ok n p) = ledger p.
Proof.
  unfold mirrored, store_mirror. destruct (mirror (allocator p)) eqn:Hm; [destruct ok|]; simpl;
    rewrite ?dget_dset_eq; done.
Qed.

Lemma store_note_spec ok e n p :
  noted ok (e, n) p (store_note ok e n p) ∧
  mirror (allocator (store_note ok e n p)) = mirror (allocator p) ∧
  mirrors (store_note ok e n p) = mirrors p.
Proof.
  unfold noted, store_note. destruct (fork_note (allocator p)) eqn:Hm; [destruct ok|]; simpl;
    rewrite ?dget_dset_eq; done.
Qed.

Lemma stores_spec mok nok e n p :
  let p' := store_note nok e n (store_mirror mok n p) in
  mirrored mok (n + 1) p p' ∧ noted nok (e, n) p p'.
Proof.
  destruct (store_mirror_spec mok n p) as (H1 & H2 & H3).
  destruct (store_note_spec nok e n (store_mirror mok n p)) as (H4 & H5 & H6). cbn zeta.
  unfold mirrored, noted in *. by rewrite H2, H3, ?H5, ?H6 in *.
Qed.

(** An allocation never fails and the crash-recovery stores never lag behind it: whatever
    the run table does and whichever store fails, the next position of the current epoch is
    handed out; when it is returned, the registration mirror still bound holds the number
    of positions handed out, the fork ledger still bound holds this position, and a store
    that failed is not tried again. *)
Theorem allocate_stores tid (mirror_ok note_ok : bool) current p p' al :
  allocate tid mirror_ok note_ok current p = (p', al) →
  al_epoch al = epoch (allocator p) ∧ al_sequence al = next (allocator p) ∧
  last_sequence p' = (al_epoch al, al_sequence al) ∧
  mirrored mirror_ok (al_sequence al + 1) p p' ∧
  noted note_ok (al_epoch al, al_sequence al) p p'.
Proof.
  intros Ha. pose proof (allocate_spec _ _ _ _ _ _ _ Ha) as (H1 & H2 & _ & H4 & H5 & _).
  split_and!; [done..| | |]; rewrite ?H1, ?H2.
  - unfold last_sequence. rewrite H4, H5. f_equal. lia.
  - unfold allocate, allocated in Ha.
    match type of Ha with context [on_allocate ?x ?t] => destruct (on_allocate x t) as [t' seg] end.
    match type of Ha with context [store_note ?nok ?e ?n (store_mirror ?mok ?n ?q)] =>
      pose proof (stores_spec mok nok e n q) as [Hs _];
      set (q' := store_note nok e n (store_mirror mok n q)) in * end.
    destruct seg as [[s|]|]; injection Ha as <- <-; exact Hs.
  - unfold allocate, allocated in Ha.
    match type of Ha with context [on_allocate ?x ?t] => destruct (on_allocate x t) as [t' seg] end.
    match type of Ha with context [store_note ?nok ?e ?n (store_mirror ?mok ?n ?q)] =>
      pose proof (stores_spec mok nok e n q) as [_ Hs];
      set (q' := store_note nok e n (store_mirror mok n q)) in * end.
    destruct seg as [[s|]|]; injection Ha as <- <-; exact Hs.
Qed.

(** A registration replaces the epoch of the allocator only while nothing was allocated in
    the one it was drawn for, and then brings its mirror up to date at once. *)
Theorem bind_registration_safe p log (r : Registration) (m : option nat) (drawn_from : Z) p' :
  reach p log →
  (bind_registration r m drawn_from true p = (p', true) →
     drawn_from = epoch (allocator p) ∧ epoch (allocator p') = reg_epoch r ∧
     registration (allocator p') = Some r ∧
     (epoch (allocator p') = epoch (allocator p) ∨ sequences (epoch (allocator p)) log = []) ∧
     (∀ n, m = Some n → dget n (mirrors p') = Some (next (allocator p')))) ∧
  (bind_registration r m drawn_from true p = (p', false) → p' = p).
Proof.
  intros Hr. destruct (reach_ok _ _ Hr) as [Hn _]. unfold bind_registration.
  destruct (_ || _) eqn:Hc; (split; intros [= <-]); [done|].
  apply orb_false_iff in Hc as [Hc1 Hc2]. to_prop. split; [done|]. split; [by destruct m|].
  split; [by destruct m|]. split.
  - destruct Hc2 as [Hc2|Hc2]; to_prop; [left; by destruct m|right].
    rewrite (num_sequences _ _ Hn), Hc2. done.
  - intros n ->. simpl. by rewrite dget_dset_eq.
Qed.
End runs.

(** ** A run of the model *)

#[local] Notation Proc := (Process unit unit).
Definition demo_start : Proc :=
  mk_process (mk_allocator "s-1" 0 7 None None None 0 0) [] [] [] tt tt.

Fixpoint run (ops : list op) (p : Proc) (log : list event) : Proc * list event :=
  match ops with
  | [] => (p, log)
  | o :: ops => let '(p, evs) := exec o p in run ops p (log ++ evs)
  end.

Definition legalb (p : Proc) (log : list event) (o : op) : bool :=
  match o with
  | EnterScope _ _ (Some i) | CloseScope i | ExitScope i => (i <? length (scopes p))%nat
  | Seal drawn | Fork drawn => bool_decide (drawn ∉ epochs log)
  | Bind r _ _ _ => (reg_epoch r =? epoch (allocator p)) || bool_decide (reg_epoch r ∉ epochs log)
  | _ => true
  end.

Fixpoint all_legal (ops : list op) (p : Proc) (log : list event) : bool :=
  match ops with
  | [] => true
  | o :: ops => legalb p log o && (let '(p, evs) := exec o p in all_legal ops p (log ++ evs))
  end.

Lemma run_reach ops p log :
  reach p log → all_legal ops p log = true → reach (run ops p log).1 (run ops p log).2.
Proof.
  revert p log. induction ops as [|o ops IH]; intros p log Hr Hl; [done|]. simpl in *. to_prop.
  destruct (exec o p) as [p' evs] eqn:He. apply IH; [|done]. eapply reach_step; [done| |done].
  destruct o; simpl in *; try done; try (by apply Nat.ltb_lt); to_prop; try done.
  - destruct current; [|done]. by apply Nat.ltb_lt.
  - match goal with H : _ ∨ _ |- _ => destruct H as [H|H] end; to_prop; [by left|by right].
Qed.

Definition demo_ops : list op :=
  [EnterScope "r-a" "u-1" None; Allocate 0 true true (Some 0%nat); Allocate 1 true true None;
   CloseScope 0; Allocate 0 true true (Some 0%nat); Seal 9; Allocate 0 true true None].
Definition demo_process : Proc := (run demo_ops demo_start [EvEpoch 7]).1.
Definition demo_log : list event := (run demo_ops demo_start [EvEpoch 7]).2.

Lemma demo_reach : reach demo_process demo_log.
Proof.
  apply (run_reach demo_ops); [apply reach_init|]. vm_compute. reflexivity.
Qed.

Definition demo_scopes : list RunScope :=
  [mk_scope "r-a" "u-1" None false; mk_scope "r-b" "u-2" (Some 0%nat) true].

Lemma open_scope_innermost_witness :
  open_scope demo_scopes (Some 1%nat) = Some 0%nat ∧ encloses demo_scopes 0 1.
Proof.
  split; [reflexivity|].
  assert (scopes_ok demo_scopes) as Hok.
  { intros i sc q H1 H2. destruct i as [|[|i]].
    - change (Some (mk_scope "r-a" "u-1" None false) = Some sc) in H1. by simplify_eq/=.
    - change (Some (mk_scope "r-b" "u-2" (Some 0%nat) true) = Some sc) in H1. simplify_eq.
      simpl in H2. simplify_eq. lia.
    - discriminate H1. }
  pose proof (open_scope_innermost demo_scopes 1 Hok) as H. apply H.
Defined.

Lemma allocations_consecutive_witness : sequences 7 demo_log = [0; 1; 2].
Proof.
  destruct (allocations_consecutive demo_process demo_log demo_reach) as (H & _ & _).
  rewrite (H 7). reflexivity.
Defined.

Lemma sealed_epoch_final_witness :
  ∃ l1 l2, demo_log = l1 ++ EvSealed 7 2 :: l2 ∧ sequences 7 l2 = [].
Proof.
  assert (demo_log = take 5 demo_log ++ EvSealed 7 2 :: drop 6 demo_log) as E
    by (vm_compute; reflexivity).
  exists (take 5 demo_log), (drop 6 demo_log). split; [exact E|].
  apply (sealed_epoch_final demo_process (take 5 demo_log) 7 2 (drop 6 demo_log)).
  rewrite <-E. exact demo_reach.
Defined.

Lemma closed_scope_final_witness : closed_in demo_process 0.
Proof.
  assert (demo_log = take 3 demo_log ++ EvClosed 0 7 1 :: drop 4 demo_log) as E
    by (vm_compute; reflexivity).
  apply (closed_scope_final demo_process (take 3 demo_log) 0 7 1 (drop 4 demo_log)).
  rewrite <-E. exact demo_reach.
Defined.

Definition demo_mirrored : Proc :=
  mk_process (mk_allocator "s-1" 4 7 None (Some 1%nat) None 0 0) [] [(1%nat, 4)] [] tt tt.

Lemma allocate_stores_witness :
  dget 1%nat (mirrors (allocate 0 true true None demo_mirrored).1) = Some 5.
Proof.
  destruct (allocate 0 true true None demo_mirrored) as [p' al] eqn:H.
  destruct (allocate_stores 0 true true None demo_mirrored p' al H) as (_ & H2 & _ & [_ H3] & _).
  simpl. rewrite H3, H2. reflexivity.
Defined.

Lemma bind_registration_safe_witness :
  epoch (allocator (bind_registration (mk_registration 1 11) (Some 3%nat) 7 true demo_start).1) = 11.
Proof.
  pose proof (bind_registration_safe demo_start [EvEpoch 7] (mk_registration 1 11) (Some 3%nat) 7
    (bind_registration (mk_registration 1 11) (Some 3%nat) 7 true demo_start).1
    (reach_init "s-1" 7 tt tt)) as [H _].
  destruct (H eq_refl) as (_ & H1 & _). exact H1.
Defined.
