(* ===== verification/Emitted.v ===== *)
(** * Emitted identifiers

    How the recorder emits the identifiers its callers pass: [KeyedIds] and [GeneratedIds]
    of [fabric/_sequence.py] (spec 049 section 2.9), the run id of a position
    ([resolve_run_id]), the scope of a run block ([run_scope]), and [IdentityRule] of
    [fabric/_segments.py]. An [EmittedId] is a string with the issuer that minted it; a
    plain string has none. Random identifiers are arguments of the functions that draw them. *)

From S2P Require Import Prelude PyDict Hash Decimal Ids Interfaces.

(** ** Values *)

(** A [str], or an [EmittedId] with its issuer. *)
Record value := mk_value { text : string; issuer : option string }.

#[export] Instance value_eq_dec : EqDecision value.
Proof. solve_decision. Defined.

Definition plain (s : string) : value := mk_value s None.

(** [isinstance(value, EmittedId) and value.issued_by(issuer)] *)
Definition mine (self : string) (v : value) : bool := bool_decide (issuer v = Some self).
Definition mint (self : string) (s : string) : value := mk_value s (Some self).

(** ** [KeyedIds] *)

Section keyed.
Variable key : list Z.

Definition keyed_issuer : string := key_id key.

Definition keyed_source (v : value) : value :=
  if mine keyed_issuer v then v else mint keyed_issuer (source_label (text v) (Some key) false).

Definition keyed_run (v : value) : value :=
  if mine keyed_issuer v then v else mint keyed_issuer (run_pseudonym (text v) (Some key)).

(** The cast of the source assumes that a pseudonym is there; [TypeError] otherwise. *)
Definition keyed_agent (v : value) : result value :=
  if mine keyed_issuer v then Ok v
  else p ← pseudonym_v2 "agt" (text v) (Some key);
       s ← or_raise TypeError p; Ok (mint keyed_issuer s).

Definition keyed_other (v : value) : value :=
  if mine keyed_issuer v then v else mint keyed_issuer (label_pseudonym "lbl-" (text v) (Some key)).
End keyed.

(** ** [GeneratedIds] *)

Definition MAX_GENERATED_IDS : nat := 65536.

(** [_ids] and [_issuer] *)
Record Generated := mk_generated { gen_ids : list (string * value); gen_issuer : string }.

(** [process_source_id]: drawn once, then kept. *)
Definition process_source_id (hex : string) (drawn : option string) : string * option string :=
  match drawn with Some s => (s, drawn) | None => ("s-" +:+ hex, Some ("s-" +:+ hex)) end.

Definition generated_source (g : Generated) (process_source : string) : value :=
  mint (gen_issuer g) process_source.

Definition generated_run (g : Generated) (process_source : string) (epoch : Z) (v : value) : value :=
  if mine (gen_issuer g) v then v
  else mint (gen_issuer g) (encode_opaque_id ("source:" +:+ process_source +:+ ":" +:+ pretty epoch)).

(** [other] (and [agent]) with the random hex it draws when the value is new. *)
Definition generated_other (hex : string) (v : value) (g : Generated) : value * Generated :=
  if mine (gen_issuer g) v then (v, g)
  else match dget (text v) (gen_ids g) with
  | Some found => (found, g)
  | None =>
      let generated := mint (gen_issuer g) ("g-" +:+ hex) in
      (generated,
       if (length (gen_ids g) <? MAX_GENERATED_IDS)%nat
       then mk_generated (dset (text v) generated (gen_ids g)) (gen_issuer g) else g)
  end.

(** ** [emitted_ids] *)

Inductive EmittedIds := Generating | Keyed (key : list Z).

Definition emitted_ids (profile : string) (key : option (list Z)) (mode : IdentityMode)
    : option EmittedIds :=
  match key with
  | None => if bool_decide (profile = "production") then Some Generating else None
  | Some k => if bool_decide (mode = pseudonymous) then Some (Keyed k) else None
  end.

(** ** The run id of a position *)

(** [f"{n:032x}"] for [0 <= n < 1 << 128] *)
Definition hex32 (n : Z) : string := hex_of_bytes (be_bytes 16 n).

Definition resolve_run_id (scope_run_id : option string) (trace_id : option Z)
    (source_id : string) (epoch : Z) : string :=
  match scope_run_id with
  | Some r => r
  | None =>
      match trace_id with
      | Some t => if (0 <? t) && (t <? 2 ^ 128) then "trace:" +:+ hex32 t
                  else encode_opaque_id ("source:" +:+ source_id +:+ ":" +:+ pretty epoch)
      | None => encode_opaque_id ("source:" +:+ source_id +:+ ":" +:+ pretty epoch)
      end
  end.

(** [run_scope]: the scope a block is entered with. *)
Definition run_scope (run_id : string) (key : option (list Z)) (emitted : option string)
    (uuid : string) (current : option nat) : result RunScope :=
  if opaque_id run_id
  then Ok (mk_scope (or_str emitted (run_pseudonym run_id key)) uuid current false)
  else Raise ValueError.

(** ** [IdentityRule] *)

Record IdentityRule := mk_rule {
  rule_key : option (list Z);
  rule_mode : IdentityMode;
  production_without_key : bool;
  rule_issuer : string;
  rule_fallback : option string;   (** what [fallback()] returns, when there is one *)
}.

(** [__init__]: the issuer is the key's, or that of the rule's own [GeneratedIds]. *)
Definition identity_rule (key : option (list Z)) (mode : IdentityMode) (production : bool)
    (generated_issuer : string) (fallback : option string) : IdentityRule :=
  mk_rule key mode (production && bool_decide (key = None))
    (match key with
     | Some k => if bool_decide (mode = pseudonymous) then key_id k else generated_issuer
     | None => generated_issuer
     end) fallback.

Definition effective_mode (r : IdentityRule) : IdentityMode :=
  if bool_decide (rule_mode r = clear_mode) && negb (production_without_key r)
  then clear_mode else pseudonymous.

(** [mint_run] with the 32 hex digits it draws. *)
Definition mint_run (r : IdentityRule) (hex : string) : value := mint (rule_issuer r) ("r-" +:+ hex).

Definition rule_run (r : IdentityRule) (v : value) : string :=
  if mine (rule_issuer r) v then text v
  else match production_without_key r, rule_fallback r with
  | true, Some f => f
  | _, _ => if bool_decide (rule_mode r = clear_mode) then encode_opaque_id (text v)
            else run_pseudonym (text v) (rule_key r)
  end.

Definition rule_link (r : IdentityRule) (v : value) : option string :=
  if mine (rule_issuer r) v then Some (text v)
  else if production_without_key r then None
  else if bool_decide (rule_mode r = clear_mode) then Some (encode_opaque_id (text v))
  else Some (run_pseudonym (text v) (rule_key r)).

Definition rule_v2 (r : IdentityRule) (prefix : string) (v : value) : result (option string) :=
  if production_without_key r then Ok None
  else if bool_decide (rule_mode r = clear_mode) then Ok (Some (encode_opaque_id (text v)))
  else pseudonym_v2 prefix (text v) (rule_key r).

(** ** Properties *)

Lemma mine_mint self s : mine self (mint self s) = true.
Proof. unfold mine. by apply bool_decide_eq_true. Qed.

Lemma pseudonym_v2_agent v k :
  ∃ h, hex_n 32 h = true ∧ pseudonym_v2 "agt" v (Some k) = Ok (Some ("agt-" +:+ h)).
Proof.
  eexists. split; [|reflexivity].
  apply hex_n_substring; [apply all_chars_hex, hmac_sha256_bytes|].
  rewrite length_hex_of_bytes, length_hmac_sha256. lia.
Qed.

(** With a key, provenance and not shape decides what passes through: every emitted id is
    one of the key's own and passes unchanged through every function again, while a plain
    string, whatever it looks like, comes out as a keyed pseudonym of the right kind; no
    function of the class fails. *)
Theorem keyed_ids_provenance (key : list Z) (v : value) :
  (mine (keyed_issuer key) v = true →
     keyed_source key v = v ∧ keyed_run key v = v ∧ keyed_agent key v = Ok v ∧
     keyed_other key v = v) ∧
  (mine (keyed_issuer key) v = false →
     prefixed_hex "s-" 32 (text (keyed_source key v)) = true ∧
     prefixed_hex "r-" 32 (text (keyed_run key v)) = true ∧
     (∃ a, keyed_agent key v = Ok a ∧ prefixed_hex "agt-" 32 (text a) = true ∧
           mine (keyed_issuer key) a = true) ∧
     prefixed_hex "lbl-" 32 (text (keyed_other key v)) = true) ∧
  mine (keyed_issuer key) (keyed_source key v) = true ∧
  mine (keyed_issuer key) (keyed_run key v) = true ∧
  mine (keyed_issuer key) (keyed_other key v) = true.
Proof.
  unfold keyed_source, keyed_run, keyed_agent, keyed_other.
  destruct (mine (keyed_issuer key) v) eqn:Hm; split_and!;
    try done; try (intros _; split_and!; try done); rewrite ?mine_mint; try done;
    try apply label_pseudonym_shape.
  destruct (pseudonym_v2_agent (text v) key) as (h & Hh & ->). simpl.
  eexists. split; [done|]. split; [|apply mine_mint]. exact (prefixed_hex_app "agt-" 32 h Hh).
Qed.

(** Without a key in production, nothing of a caller's value leaves the process: the
    generated ids of two values the rule has not issued differ only by the random draws
    (equal draws give equal ids), run ids and source ids ignore the value altogether, an
    emitted id passes unchanged, a remembered value keeps its id, and at most
    [MAX_GENERATED_IDS] values are remembered. *)
Theorem generated_ids_derive_nothing (g : Generated) (hex src : string) (epoch : Z) (v w : value) :
  mine (gen_issuer g) v = false → mine (gen_issuer g) w = false →
  (length (gen_ids g) ≤ MAX_GENERATED_IDS)%nat →
  generated_run g src epoch v = generated_run g src epoch w ∧
  (dget (text v) (gen_ids g) = None → dget (text w) (gen_ids g) = None →
     (generated_other hex v g).1 = (generated_other hex w g).1) ∧
  (length (gen_ids (generated_other hex v g).2) ≤ MAX_GENERATED_IDS)%nat ∧
  (∀ u x, dget u (gen_ids g) = Some x → dget u (gen_ids (generated_other hex v g).2) = Some x) ∧
  ((length (gen_ids g) < MAX_GENERATED_IDS)%nat → ∀ hex',
     (generated_other hex' v (generated_other hex v g).2).1 = (generated_other hex v g).1).
Proof.
  intros Hv Hw Hlen. unfold generated_run, generated_other. rewrite Hv, Hw.
  split; [done|]. split; [by intros -> ->|].
  destruct (dget (text v) (gen_ids g)) as [x|] eqn:Hg; cbn [fst snd].
  { by rewrite Hv, Hg. }
  destruct (_ <? _)%nat eqn:Hl; cbn [gen_ids gen_issuer].
  - apply Nat.ltb_lt in Hl. split_and!.
    + rewrite dset_new by (by apply dget_None). rewrite length_app. simpl. lia.
    + intros u x Hu. rewrite dget_dset_ne; [done|]. congruence.
    + intros _ hex'. by rewrite Hv, dget_dset_eq.
  - apply Nat.ltb_ge in Hl. split_and!; [done|done|lia].
Qed.

Lemma keyed_run_text v k :
  k ≠ [] → run_pseudonym v (Some k) = "r-" +:+ String.substring 0 32 (hex_of_bytes (hmac_sha256 k (encode v))).
Proof. by destruct k. Qed.

Lemma caller_pseudonym_v2 v k p ty :
  (p, ty) ∈ [("sess", "session"); ("usr", "user")] →
  pseudonym_v2 p v (Some k) =
    Ok (Some (p +:+ "-" +:+ String.substring 0 32
      (hex_of_bytes (hmac_sha256 (hmac_sha256 k (encode ("fabric-id/v2/" +:+ ty))) (encode v))))).
Proof.
  rewrite !elem_of_cons. intros [[= -> ->]|[[= -> ->]|[]%not_elem_of_nil]]; reflexivity.
Qed.

(** C8: what the identity rule, with a key that is not empty or none and given the generated
    fallback it is built with, emits of a caller's value. In production without a key it is
    nothing: the run id is the generated fallback whatever the value, and links, session ids
    and user ids are omitted. Otherwise the clear mode, which is explicit, emits valid opaque
    ids; the pseudonymous mode with a key emits the first 32 hex digits of an HMAC of the value
    under that key - or, for session and user ids, under the key derived from it for their
    type - whatever the shape of the value; and without a key, which is not in production, the
    digest of a run id and no session or user id. Only a value that the rule's own issuer
    minted passes unchanged. *)
Theorem identity_rule_safe (key : option (list Z)) (mode : IdentityMode) (production : bool)
    (gi f : string) (v : value) :
  let r := identity_rule key mode production gi (Some f) in
  let out h := "r-" +:+ String.substring 0 32 (hex_of_bytes h) in
  key ≠ Some [] →
  (issuer v = Some (rule_issuer r) → rule_run r v = text v ∧ rule_link r v = Some (text v)) ∧
  (issuer v ≠ Some (rule_issuer r) →
     if production && bool_decide (key = None)
     then rule_run r v = f ∧ rule_link r v = None ∧ (∀ p, rule_v2 r p v = Ok None) ∧ effective_mode r = pseudonymous
     else
       rule_link r v = Some (rule_run r v) ∧ effective_mode r = mode ∧
       match mode, key with
       | clear_mode, _ =>
           rule_run r v = encode_opaque_id (text v) ∧ opaque_id (rule_run r v) = true ∧
           ∀ p, rule_v2 r p v = Ok (Some (rule_run r v))
       | pseudonymous, Some k =>
           rule_run r v = out (hmac_sha256 k (encode (text v))) ∧
           ∀ p ty, (p, ty) ∈ [("sess", "session"); ("usr", "user")] →
             rule_v2 r p v =
               Ok (Some (p +:+ "-" +:+ String.substring 0 32
                 (hex_of_bytes (hmac_sha256 (hmac_sha256 k (encode ("fabric-id/v2/" +:+ ty))) (encode (text v))))))
       | pseudonymous, None =>
           rule_run r v = out (sha256 (encode (text v))) ∧ ∀ p, rule_v2 r p v = Ok None
       end).
Proof.
  cbn zeta. intros Hk. unfold rule_run, rule_link, rule_v2, effective_mode, mine. split; [intros E; by rewrite (bool_decide_true (issuer v = _))|].
  intros E. rewrite (bool_decide_false (issuer v = _)) by done. cbn [identity_rule production_without_key rule_mode rule_key rule_fallback].
  destruct (production && bool_decide (key = None)) eqn:Hp.
  - split_and!; try done. by rewrite andb_false_r.
  - destruct mode.
    + change (bool_decide (pseudonymous = clear_mode)) with false. cbv iota. cbn [andb]. split; [reflexivity|]. split; [reflexivity|].
      destruct key as [k|]; (split; [|]).
      * apply keyed_run_text. congruence.
      * apply caller_pseudonym_v2.
      * reflexivity.
      * reflexivity.
    + change (bool_decide (clear_mode = clear_mode)) with true. cbv iota. cbn [andb negb].
      split_and!; try reflexivity. apply encode_opaque_id_ok.
Qed.

Lemma be_bytes_inj n z z' :
  be_bytes n z = be_bytes n z' → z mod 256 ^ Z.of_nat n = z' mod 256 ^ Z.of_nat n.
Proof.
  induction n as [|n IH]; [by rewrite !Z.mod_1_r|]. cbn [be_bytes]. intros [= H1 H2].
  rewrite Nat2Z.inj_succ, Z.pow_succ_r, Z.mul_comm by lia.
  rewrite !Z.rem_mul_r by lia. rewrite H1. by rewrite IH.
Qed.

Lemma hex32_shape n : hex_n 32 (hex32 n) = true.
Proof.
  unfold hex_n, hex32. rewrite all_chars_hex, length_hex_of_bytes, length_be_bytes; [done|].
  apply be_bytes_range.
Qed.

Lemma hex32_inj n m : 0 ≤ n < 2 ^ 128 → 0 ≤ m < 2 ^ 128 → hex32 n = hex32 m → n = m.
Proof.
  unfold hex32. intros Hn Hm H. apply (f_equal fromhex) in H.
  rewrite !fromhex_hex_of_bytes in H by apply be_bytes_range. apply (inj Some) in H.
  apply be_bytes_inj in H. change (256 ^ Z.of_nat 16) with (2 ^ 128) in H.
  by rewrite !Z.mod_small in H by done.
Qed.

(** Every position has a run id: the scope's own, else an id of its trace that is valid, is
    kept by the reports and differs between traces, else a valid source fallback; the scope
    itself carries the pseudonym of a valid run id, and a malformed one is refused. *)
Theorem resolve_run_id_total (scope : option string) (t t' : option Z) (source_id : string) (e : Z) :
  (∀ r, scope = Some r → resolve_run_id scope t source_id e = r) ∧
  (scope = None → opaque_id (resolve_run_id scope t source_id e) = true) ∧
  (∀ n n', scope = None → t = Some n → t' = Some n' → 0 < n < 2 ^ 128 → 0 < n' < 2 ^ 128 →
     kept_run_id (resolve_run_id scope t source_id e) = true ∧
     (resolve_run_id scope t source_id e = resolve_run_id scope t' source_id e → n = n')) ∧
  (∀ r key emitted uuid current,
     match run_scope r key emitted uuid current with
     | Ok sc => opaque_id r = true ∧ sc_closed sc = false ∧ sc_parent sc = current ∧
                (truthy_str emitted = false → prefixed_hex "r-" 32 (sc_run_id sc) = true)
     | Raise x => opaque_id r = false ∧ x = ValueError
     end).
Proof.
  assert (∀ n, opaque_id ("trace:" +:+ hex32 n) = true) as Ht.
  { intros n. apply (opaque_app_hex "trace:" 32); simpl; [done|lia|apply hex32_shape|lia]. }
  split_and!.
  - by intros r ->.
  - intros ->. unfold resolve_run_id. repeat case_match; auto using encode_opaque_id_ok.
  - intros n n' -> -> -> Hn Hn'. unfold resolve_run_id.
    assert (∀ k, 0 < k < 2 ^ 128 → (0 <? k) && (k <? 2 ^ 128) = true) as Hb
      by (intros; apply andb_true_iff; rewrite !Z.ltb_lt; done).
    rewrite !Hb by done. split.
    + unfold kept_run_id. by rewrite (prefixed_hex_app "trace:" 32 _ (hex32_shape n)), orb_true_r.
    + intros H. apply (f_equal (strip_prefix "trace:")) in H. rewrite !strip_prefix_app in H.
      apply (inj Some) in H. apply hex32_inj; [lia|lia|exact H].
  - intros r key emitted uuid current. unfold run_scope. destruct (opaque_id r); [|done]. simpl.
    split_and!; try done. intros He. unfold or_str. destruct emitted as [s|]; simpl in He.
    + to_prop. rewrite decide_True by done. apply label_pseudonym_shape.
    + apply label_pseudonym_shape.
Qed.

(** ** Witnesses *)

Definition demo_key : list Z := Eval vm_compute in encode "fabric-test-id-key-not-a-secret".
Definition demo_value : value :=
  mint (keyed_issuer demo_key) "r-93347307304ecb0a9bb1b51ae90ac326".

Lemma keyed_ids_provenance_witness :
  keyed_run demo_key (plain "run-travel-42") = demo_value ∧
  keyed_run demo_key demo_value = demo_value.
Proof.
  split; [vm_compute; reflexivity|].
  pose proof (keyed_ids_provenance demo_key demo_value) as [H _].
  destruct (H (mine_mint _ _)) as (_ & H2 & _). exact H2.
Defined.

Lemma generated_ids_derive_nothing_witness :
  generated_run (mk_generated [] "gen-1") "s-0" 3 (plain "a") =
  generated_run (mk_generated [] "gen-1") "s-0" 3 (plain "b").
Proof.
  apply (generated_ids_derive_nothing (mk_generated [] "gen-1") "00" "s-0" 3 (plain "a") (plain "b"));
    [reflexivity..|]. simpl. lia.
Defined.

Lemma identity_rule_safe_witness :
  rule_run (identity_rule None clear_mode true "gen-1" (Some "source:s:1")) (plain "jane") = "source:s:1" ∧
  rule_run (identity_rule (Some demo_key) pseudonymous true "gen-1" (Some "source:s:1")) (plain "r-93347307304ecb0a9bb1b51ae90ac326") =
    "r-" +:+ String.substring 0 32 (hex_of_bytes (hmac_sha256 demo_key (encode "r-93347307304ecb0a9bb1b51ae90ac326"))).
Proof.
  split.
  - destruct (identity_rule_safe None clear_mode true "gen-1" "source:s:1" (plain "jane")) as [_ H]; [discriminate|].
    destruct H as [H1 _]; [discriminate|]. exact H1.
  - destruct (identity_rule_safe (Some demo_key) pseudonymous true "gen-1" "source:s:1"
      (plain "r-93347307304ecb0a9bb1b51ae90ac326")) as [_ H]; [discriminate|].
    destruct H as (_ & _ & H1 & _); [discriminate|]. exact H1.
Defined.

Lemma resolve_run_id_total_witness :
  resolve_run_id None (Some 1) "agent" 5 = "trace:00000000000000000000000000000001" ∧
  opaque_id (resolve_run_id None (Some 1) "agent" 5) = true.
Proof.
  split; [vm_compute; reflexivity|].
  by apply (resolve_run_id_total None (Some 1) None "agent" 5).
Defined.
