(* ===== verification/Tokens.v ===== *)
(** * Resume tokens and run identity

    The predecessor entries and resume tokens of [fabric/_segments.py] (spec 049 section
    3.6, capture/v1 resume-token-v2): how an entry and a token are read and printed, how a
    carrier value is split, and how the tokens a segment opens with decide the identity of
    its run ([resolve_identity], the five rules). *)

From S2P Require Import Prelude Hash Decimal Ids.

(** ** Splitting at a separator *)

Fixpoint split_on (c : ascii) (s : string) : list string :=
  match s with
  | "" => [""]
  | String x rest =>
      if decide (x = c) then "" :: split_on c rest
      else match split_on c rest with
           | part :: parts => String x part :: parts
           | [] => [String x ""]
           end
  end.

Fixpoint join_with (c : ascii) (parts : list string) : string :=
  match parts with
  | [] => ""
  | [p] => p
  | p :: parts => p +:+ String c (join_with c parts)
  end.

Definition free_of (c : ascii) (s : string) : bool := all_chars (λ x, negb (bool_decide (x = c))) s.

(** [sub in s] *)
Fixpoint contains (sub s : string) : bool :=
  String.prefix sub s || match s with "" => false | String _ rest => contains sub rest end.

(** ** Patterns ([_capture_types.py], [_segments.py]) *)

Definition SEGMENT_ID_RE (s : string) : bool := prefixed_hex "seg-" 32 s.
Definition BRANCH_ID_RE (s : string) : bool := prefixed_hex "br-" 32 s.
Definition digest_re (s : string) : bool := prefixed_hex "sha256:" 64 s.
(** [-1|0|[1-9][0-9]{0,18}] *)
Definition last_dec (s : string) : bool := bool_decide (s = "-1") || nat_dec 18 s.
Definition last_value (s : string) : Z := if decide (s = "-1") then -1 else dec_value s.

(** The groups of [_ENTRY_RE]. *)
Record Entry := mk_entry {
  segment_id : string;
  source_id : string;
  epoch : Z;
  last_sequence : Z;
  manifest_digest : string;
}.

#[export] Instance Entry_eq_dec : EqDecision Entry.
Proof. solve_decision. Defined.

(** No group of the pattern holds a [/], so the parts between the slashes are the groups. *)
Definition entry_match (body : string) : option Entry :=
  match split_on slash body with
  | [seg; source; ep; last; digest] =>
      if SEGMENT_ID_RE seg && opaque_id source && pos_dec 18 ep && last_dec last
         && digest_re digest
      then Some (mk_entry seg source (dec_value ep) (last_value last) digest)
      else None
  | _ => None
  end.

Definition INT64_MAX : Z := 2 ^ 63 - 1.

(** [body.rpartition("/")]: no separator leaves the head empty. *)
Definition rpartition (s : string) : string * string := default ("", s) (rsplit slash s).

Definition parse_entry (body : string) : option (Entry * option string) :=
  let '(head, tail) := rpartition body in
  let '(body, branch) := if BRANCH_ID_RE tail then (head, Some tail) else (body, None) in
  e ← entry_match body;
  if (INT64_MAX <? epoch e) || (INT64_MAX <? last_sequence e) then None
  else Some (e, branch).

Definition format_entry (e : Entry) : string :=
  segment_id e +:+ "/" +:+ source_id e +:+ "/" +:+ pretty (epoch e) +:+ "/" +:+
  pretty (last_sequence e) +:+ "/" +:+ manifest_digest e.

(** ** Tokens *)

Record ResumeToken := mk_token {
  version : Z;
  correlation_id : option string;
  t_entry : Entry;   (** the five fields of the entry; [ResumeToken.entry] prints them *)
  branch_id : option string;
}.

#[export] Instance ResumeToken_eq_dec : EqDecision ResumeToken.
Proof. solve_decision. Defined.

(** [ResumeToken.entry] *)
Definition token_entry (t : ResumeToken) : string := format_entry (t_entry t).

Definition TOKEN_PREFIX : string := "fr3/".
Definition LEGACY_TOKEN_PREFIX : string := "fr2/".

(** [s.partition("/")] when the separator occurs. *)
Fixpoint partition_at (c : ascii) (s : string) : option (string * string) :=
  match s with
  | "" => None
  | String x rest =>
      if decide (x = c) then Some ("", rest)
      else '(a, b) ← partition_at c rest; Some (String x a, b)
  end.

Definition parse_token (token : string) : option ResumeToken :=
  match strip_prefix TOKEN_PREFIX token with
  | Some rest =>
      '(correlation, rest) ← partition_at slash rest;
      if opaque_id correlation then
        '(e, branch) ← parse_entry rest; Some (mk_token 3 (Some correlation) e branch)
      else None
  | None =>
      match strip_prefix LEGACY_TOKEN_PREFIX token with
      | Some rest => '(e, branch) ← parse_entry rest; Some (mk_token 2 None e branch)
      | None => None
      end
  end.

Definition branch_suffix (branch : option string) : string :=
  match branch with Some b => if decide (b = "") then "" else "/" +:+ b | None => "" end.

Definition format_token (correlation entry : string) (branch : option string) : option string :=
  if negb (opaque_id correlation) then None
  else if bool_decide (parse_entry entry = None) || contains "/br-" entry then None
  else if match branch with Some b => negb (BRANCH_ID_RE b) | None => false end then None
  else Some (TOKEN_PREFIX +:+ correlation +:+ "/" +:+ entry +:+ branch_suffix branch).

(** ** Run identity *)

Inductive IdBasis :=
  | id_token | id_caller_join | id_token_conflict | id_legacy | id_caller | id_minted.

#[export] Instance IdBasis_eq_dec : EqDecision IdBasis.
Proof. solve_decision. Defined.

Record Identity := mk_identity {
  i_run_id : string;
  i_id_basis : IdBasis;
  i_predecessors : list string;
  i_branch_ids : list string;
  i_tokens_rejected : Z;
  i_correlation_ids : list string;
  i_valid_tokens : Z;
}.

Section identity.
(** The callbacks [resolve_identity] is given: the identity rule for a clear run id, the
    minted correlation id, and the consumer's check of a token's correlation id. *)
Variable map_run : string → string.
Variable mint : string.
Variable correlation_ok : option (string → bool).

Definition token_ok (p : ResumeToken) : bool :=
  match correlation_id p, correlation_ok with
  | Some c, Some ok => ok c
  | _, _ => true
  end.

Definition parsed_tokens (tokens : list string) : list ResumeToken :=
  filter (λ p, token_ok p = true) (omap parse_token tokens).

Definition correlations_of (parsed : list ResumeToken) : list string :=
  sort_str (fromkeys (omap correlation_id parsed)).

(** The five rules: the run id and its basis. *)
Definition identity_basis (parsed : list ResumeToken) (run_id : option string) : string * IdBasis :=
  let legacy (b : IdBasis) := if decide (parsed = []) then b else id_legacy in
  match correlations_of parsed, run_id with
  | [c], _ => (c, id_token)
  | _ :: _, Some r => (map_run r, id_caller_join)
  | c :: _, None => (c, id_token_conflict)
  | [], Some r => (map_run r, legacy id_caller)
  | [], None => (mint, legacy id_minted)
  end.

(** [if entry not in predecessors: predecessors.append(entry)], and the same for branches. *)
Definition append_new (l : list string) (x : string) : list string :=
  if decide (x ∈ l) then l else l ++ [x].

Definition predecessor_step (s : list string * list string) (t : ResumeToken)
    : list string * list string :=
  (append_new s.1 (token_entry t),
   match branch_id t with Some b => append_new s.2 b | None => s.2 end).

Definition ROOT : list string := ["none"].

Definition resolve_identity (tokens : list string) (run_id : option string) : Identity :=
  let parsed := parsed_tokens tokens in
  let '(out, basis) := identity_basis parsed run_id in
  let '(predecessors, branches) := foldl predecessor_step ([], []) parsed in
  mk_identity out basis
    (if decide (predecessors = []) then ROOT else predecessors) branches
    (Z.of_nat (length tokens) - Z.of_nat (length parsed))
    (correlations_of parsed) (Z.of_nat (length parsed)).
End identity.

(** ** Splitting and joining *)

Lemma split_on_cons c s : ∃ p ps, split_on c s = p :: ps.
Proof.
  destruct s as [|x s]; simpl; [by eexists _, _|].
  case_decide; [by eexists _, _|]. destruct (split_on c s); by eexists _, _.
Qed.

Lemma split_on_spec c s ps :
  split_on c s = ps ↔ ps ≠ [] ∧ join_with c ps = s ∧ forallb (free_of c) ps = true.
Proof.
  revert ps. induction s as [|x s IH]; intros ps; simpl.
  - split; [by intros <-|]. intros (Hne & Hj & _).
    by destruct ps as [|[|??] [|? ?]]; simplify_eq/=.
  - case_decide as Hx.
    + subst. split.
      * intros <-. destruct (proj1 (IH (split_on c s)) eq_refl) as (Hne & Hj & Hf).
        split_and!; [done| |done]. destruct (split_on c s); [done|]. simpl in *. by rewrite Hj.
      * intros (Hne & Hj & Hf). destruct ps as [|p ps]; [done|]. simpl in Hj, Hf. to_prop.
        destruct p as [|y p].
        -- destruct ps as [|q ps]; [done|]. injection Hj as Hj. f_equal. by apply IH.
        -- exfalso. assert (y = c) as -> by (destruct ps; by injection Hj).
           unfold free_of, all_chars in *. simpl in *. to_prop. done.
    + destruct (proj1 (IH (split_on c s)) eq_refl) as (Hne & Hj & Hf).
      destruct (split_on c s) as [|p0 ps0] eqn:E; [done|]. simpl in Hj, Hf. to_prop. split.
      * intros <-. split_and!; [done| |].
        -- destruct ps0; simpl in *; by f_equal.
        -- simpl. unfold free_of, all_chars in *. simpl. rewrite bool_decide_false by done.
           simpl. by apply andb_true_iff.
      * intros (Hne' & Hj' & Hf'). destruct ps as [|p ps]; [done|]. simpl in Hj', Hf'. to_prop.
        destruct p as [|y p].
        { destruct ps; [done|]. by injection Hj' as -> ?. }
        unfold free_of, all_chars in *. simpl in *. to_prop.
        assert (p0 :: ps0 = p :: ps) as Heq.
        { apply IH. split_and!; [done| |by simpl; apply andb_true_iff].
          destruct ps; simpl in *; by injection Hj'. }
        injection Heq as <- <-. assert (y = x) as -> by (destruct ps0; by injection Hj'). done.
Qed.

Lemma partition_at_spec c s a b :
  partition_at c s = Some (a, b) ↔ s = a +:+ String c b ∧ free_of c a = true.
Proof.
  revert a. induction s as [|x s IH]; intros a; simpl.
  { split; [done|]. intros [H _]. by destruct a. }
  case_decide as Hx.
  - subst. split.
    + by intros [= <- <-].
    + intros [H Hf]. destruct a as [|y a]; simplify_eq/=; [done|].
      unfold free_of, all_chars in Hf. simpl in Hf. to_prop. done.
  - split.
    + destruct (partition_at c s) as [[a' b']|]; [|done]. simpl. intros [= <- <-].
      destruct (proj1 (IH a') eq_refl) as [-> Hf]. split; [done|].
      unfold free_of, all_chars in *. simpl. by rewrite bool_decide_false.
    + intros [H Hf]. destruct a as [|y a]; simplify_eq/=.
      unfold free_of, all_chars in Hf. simpl in Hf. to_prop.
      by rewrite (proj2 (IH a)).
Qed.

Lemma free_of_app c s t : free_of c (s +:+ t) = free_of c s && free_of c t.
Proof. apply all_chars_app. Qed.

Lemma opaque_no_slash s : opaque_id s = true → free_of slash s = true.
Proof.
  destruct s as [|c s]; [done|]. simpl. intros H. to_prop.
  unfold free_of, all_chars. simpl. apply andb_true_iff. split.
  - match goal with H : is_alnum c = true |- _ => revert H end.
    refine (char_implies is_alnum (λ x, negb (bool_decide (x = slash))) _ c).
    vm_compute. reflexivity.
  - eapply all_chars_mono; [|done]. apply char_implies. vm_compute. reflexivity.
Qed.

Lemma dec_no_slash s : all_chars is_dec s = true → free_of slash s = true.
Proof. intros H. eapply all_chars_mono; [|done]. apply char_implies. vm_compute. reflexivity. Qed.

Lemma prefixed_no_slash p n s :
  free_of slash p = true → prefixed_hex p n s = true → free_of slash s = true.
Proof.
  unfold prefixed_hex. intros Hp. destruct (strip_prefix p s) eqn:E; [|done].
  apply strip_prefix_Some in E as ->. unfold hex_n. intros H. to_prop.
  rewrite free_of_app, Hp. simpl. eapply all_chars_mono; [|done].
  apply char_implies. vm_compute. reflexivity.
Qed.

(** ** Entries read and printed *)

(** The entries the pattern matches. *)
Definition wf_entry (e : Entry) : bool :=
  SEGMENT_ID_RE (segment_id e) && opaque_id (source_id e) &&
  (0 <? epoch e) && (epoch e <? 10 ^ 19) &&
  (-1 <=? last_sequence e) && (last_sequence e <? 10 ^ 19) && digest_re (manifest_digest e).

Lemma format_entry_join e :
  format_entry e =
    join_with slash [segment_id e; source_id e; pretty (epoch e); pretty (last_sequence e);
                     manifest_digest e].
Proof. done. Qed.

Lemma pos_dec_18 z : 0 < z < 10 ^ 19 → pos_dec 18 (pretty z) = true ∧ dec_value (pretty z) = z.
Proof. intros H. split; [by apply pos_dec_pretty|]. apply dec_value_pretty. lia. Qed.

Lemma pos_dec_first k s : pos_dec k s = true → s ≠ "-1" ∧ s ≠ "0".
Proof. intros H. by split; intros ->. Qed.

Lemma last_dec_pretty z :
  -1 ≤ z < 10 ^ 19 → last_dec (pretty z) = true ∧ last_value (pretty z) = z.
Proof.
  intros [H1 H2]. destruct (decide (z = -1)) as [->|]; [done|].
  destruct (decide (z = 0)) as [->|]; [done|].
  destruct (pos_dec_18 z) as [Hd Hv]; [lia|]. unfold last_dec, nat_dec, last_value.
  destruct (pos_dec_first _ _ Hd). rewrite decide_False, Hd, !orb_true_r by done. done.
Qed.

Lemma last_dec_value s :
  last_dec s = true → -1 ≤ last_value s < 10 ^ 19 ∧ pretty (last_value s) = s.
Proof.
  unfold last_dec, last_value, nat_dec. case_decide as Hm; [by subst|].
  rewrite bool_decide_false by done. simpl. case_bool_decide; [by subst|]. simpl.
  intros Hd. pose proof (pos_dec_bound _ _ Hd). destruct (pos_dec_value _ _ Hd).
  change (Z.of_nat 18 + 1) with 19 in *. split; [lia|done].
Qed.

Lemma last_no_slash s : last_dec s = true → free_of slash s = true.
Proof.
  unfold last_dec, nat_dec. intros H. to_prop. destruct H as [H|H]; to_prop; [by subst|].
  destruct H as [H|H]; to_prop; [by subst|]. apply dec_no_slash. by apply pos_dec_digits in H.
Qed.

(** The pattern accepts exactly the printed forms of the well-formed entries. *)
Lemma entry_match_iff s e : entry_match s = Some e ↔ wf_entry e = true ∧ s = format_entry e.
Proof.
  split.
  - unfold entry_match. intros H.
    destruct (split_on slash s) as [|seg [|source [|ep [|last [|digest [|]]]]]] eqn:Hs; try done.
    destruct (_ && digest_re digest) eqn:Ht; [|done]. injection H as <-. to_prop.
    apply split_on_spec in Hs as (_ & Hj & _).
    destruct (pos_dec_value 18 ep) as [Hpos Hp]; [done|].
    pose proof (pos_dec_bound 18 ep ltac:(done)) as Hb. change (Z.of_nat 18 + 1) with 19 in Hb.
    destruct (last_dec_value last) as [[Hl1 Hl2] Hl]; [done|]. split.
    + unfold wf_entry; simpl. rewrite !andb_true_iff, !Z.ltb_lt, Z.leb_le. done.
    + rewrite format_entry_join; simpl. by rewrite Hp, Hl.
  - intros [Hwf ->]. destruct e as [seg source ep last digest]. unfold wf_entry in Hwf.
    simpl in Hwf. to_prop. unfold entry_match. rewrite format_entry_join. simpl.
    destruct (pos_dec_18 ep) as [Hp Hpv]; [lia|]. destruct (last_dec_pretty last) as [Hl Hlv]; [lia|].
    erewrite (proj2 (split_on_spec slash _ [seg; source; pretty ep; pretty last; digest])).
    + rewrite Hp, Hl, Hpv, Hlv. by use_true.
    + split_and!; [done..|]. simpl. rewrite !andb_true_iff. split_and!; [..|done].
      * by eapply (prefixed_no_slash "seg-" 32).
      * by apply opaque_no_slash.
      * apply dec_no_slash. by eapply pos_dec_digits.
      * by apply last_no_slash.
      * by eapply (prefixed_no_slash "sha256:" 64).
Qed.

Definition int64_entry (e : Entry) : bool :=
  (epoch e <=? INT64_MAX) && (last_sequence e <=? INT64_MAX).

Definition branch_ok (b : option string) : bool :=
  match b with Some b => BRANCH_ID_RE b | None => true end.

Lemma rpartition_some a b : free_of slash b = true → rpartition (a +:+ String slash b) = (a, b).
Proof. intros H. unfold rpartition. by rewrite (proj2 (rsplit_Some slash _ a b)). Qed.

Lemma branch_no_slash b : BRANCH_ID_RE b = true → free_of slash b = true.
Proof. by apply prefixed_no_slash. Qed.

Lemma branch_suffix_Some b : BRANCH_ID_RE b = true → branch_suffix (Some b) = String slash b.
Proof. intros Hb. simpl. rewrite decide_False; [done|]. by intros ->. Qed.

Lemma format_entry_split e :
  format_entry e =
    (segment_id e +:+ "/" +:+ source_id e +:+ "/" +:+ pretty (epoch e) +:+ "/" +:+
     pretty (last_sequence e)) +:+ String slash (manifest_digest e).
Proof. unfold format_entry. rewrite !string_app_assoc. done. Qed.

Lemma digest_not_branch d : digest_re d = true → BRANCH_ID_RE d = false.
Proof.
  unfold digest_re, BRANCH_ID_RE, prefixed_hex. destruct (strip_prefix "sha256:" d) eqn:E; [|done].
  apply strip_prefix_Some in E as ->. done.
Qed.

Lemma rsplit_None c s : rsplit c s = None → free_of c s = true.
Proof.
  induction s as [|x s IH]; [done|]. simpl. destruct (rsplit c s) as [[??]|]; [done|].
  case_decide; [done|]. intros _. unfold free_of, all_chars in *. simpl.
  rewrite bool_decide_false by done. by apply IH.
Qed.

Lemma rpartition_inv s a b :
  rpartition s = (a, b) → s = a +:+ String slash b ∨ a = "" ∧ b = s.
Proof.
  unfold rpartition. destruct (rsplit slash s) as [[a' b']|] eqn:E; simpl; intros [= <- <-].
  - left. by apply rsplit_Some in E as [-> _].
  - by right.
Qed.

(** [parse_entry] accepts exactly the printed entries within 64 bits, with their branch. *)
Lemma parse_entry_iff s e b :
  parse_entry s = Some (e, b) ↔
    wf_entry e = true ∧ int64_entry e = true ∧ branch_ok b = true ∧
    s = format_entry e +:+ branch_suffix b.
Proof.
  assert (∀ x, (INT64_MAX <? epoch x) || (INT64_MAX <? last_sequence x) = negb (int64_entry x))
    as Hi by (intros x; unfold int64_entry; by rewrite negb_andb, <-!Z.ltb_antisym).
  unfold parse_entry. split.
  - destruct (rpartition s) as [head tail] eqn:Hr. apply rpartition_inv in Hr.
    destruct (BRANCH_ID_RE tail) eqn:Hb.
    + destruct (entry_match head) as [e'|] eqn:He; [|done]. simpl. rewrite Hi.
      destruct (int64_entry e') eqn:Hi'; [|done]. intros [= <- <-].
      apply entry_match_iff in He as [? ->]. split_and!; [done..|].
      destruct Hr as [->|[Hr _]]; [by rewrite branch_suffix_Some|].
      rewrite format_entry_split in Hr. apply (f_equal String.length) in Hr.
      rewrite length_string_app in Hr. simpl in Hr. lia.
    + destruct (entry_match s) as [e'|] eqn:He; [|done]. simpl. rewrite Hi.
      destruct (int64_entry e') eqn:Hi'; [|done]. intros [= <- <-].
      apply entry_match_iff in He as [? ->]. split_and!; [done..|]. simpl.
      by rewrite string_app_nil.
  - intros (Hwf & H64 & Hb & ->). destruct b as [b|]; simpl in Hb.
    + rewrite branch_suffix_Some, rpartition_some, Hb by auto using branch_no_slash.
      rewrite (proj2 (entry_match_iff _ e)) by done. simpl. by rewrite Hi, H64.
    + simpl. rewrite string_app_nil. pose proof Hwf as Hd. unfold wf_entry in Hd. to_prop.
      rewrite format_entry_split at 1.
      rewrite rpartition_some by (by eapply (prefixed_no_slash "sha256:" 64)).
      rewrite digest_not_branch by done.
      rewrite (proj2 (entry_match_iff _ e)) by done. simpl. by rewrite Hi, H64.
Qed.

(** ** Tokens read and printed *)

(** The tokens a carrier can hold. *)
Definition valid_token (t : ResumeToken) : Prop :=
  wf_entry (t_entry t) = true ∧ int64_entry (t_entry t) = true ∧ branch_ok (branch_id t) = true ∧
  match correlation_id t with
  | Some c => version t = 3 ∧ opaque_id c = true
  | None => version t = 2
  end.

(** The one printed form of a token: the current one, or the legacy one without a run id. *)
Definition print_token (t : ResumeToken) : string :=
  match correlation_id t with
  | Some c => TOKEN_PREFIX +:+ c +:+ "/"
  | None => LEGACY_TOKEN_PREFIX
  end +:+ token_entry t +:+ branch_suffix (branch_id t).

Lemma parse_token_iff s t : parse_token s = Some t ↔ valid_token t ∧ s = print_token t.
Proof.
  unfold parse_token, print_token, valid_token. split.
  - destruct (strip_prefix TOKEN_PREFIX s) as [rest|] eqn:E3.
    + apply strip_prefix_Some in E3 as ->.
      destruct (partition_at slash rest) as [[c rest']|] eqn:Hp; [|done]. simpl.
      apply partition_at_spec in Hp as [-> _]. destruct (opaque_id c) eqn:Hc; [|done].
      destruct (parse_entry rest') as [[e b]|] eqn:He; [|done]. simpl. intros [= <-]. simpl.
      apply parse_entry_iff in He as (?&?&?&->). split; [done|]. unfold token_entry. simpl.
      by rewrite !string_app_assoc.
    + destruct (strip_prefix LEGACY_TOKEN_PREFIX s) as [rest|] eqn:E2; [|done].
      apply strip_prefix_Some in E2 as ->.
      destruct (parse_entry rest) as [[e b]|] eqn:He; [|done]. simpl. intros [= <-]. simpl.
      by apply parse_entry_iff in He as (?&?&?&->).
  - intros [(Hwf & H64 & Hb & Hc) ->]. destruct t as [v [c|] e b]; simpl in *.
    + destruct Hc as [-> Hc]. rewrite !string_app_assoc.
      rewrite (proj2 (partition_at_spec slash _ c (format_entry e +:+ branch_suffix b))) by
        (split; [done|by apply opaque_no_slash]).
      simpl. rewrite Hc. by rewrite (proj2 (parse_entry_iff _ e b)).
    + subst v. change (LEGACY_TOKEN_PREFIX +:+ token_entry (mk_token 2 None e b) +:+ branch_suffix b)
        with ("fr2/" +:+ (format_entry e +:+ branch_suffix b)).
      replace (strip_prefix TOKEN_PREFIX ("fr2/" +:+ (format_entry e +:+ branch_suffix b)))
        with (@None string) by done.
      by rewrite (proj2 (parse_entry_iff _ e b)).
Qed.

(** ** The substring test of [format_token] *)

#[local] Arguments Ascii.ascii_dec : simpl never.

Lemma contains_free p s : free_of slash s = true → contains (String slash p) s = false.
Proof.
  induction s as [|x s IH]; intros Hs; [done|]. unfold free_of, all_chars in *. simpl in *.
  to_prop. rewrite IH by done. by destruct (Ascii.ascii_dec slash x).
Qed.

Lemma contains_slash p a b :
  free_of slash a = true →
  contains (String slash p) (a +:+ String slash b) =
    String.prefix p b || contains (String slash p) b.
Proof.
  induction a as [|x a IH]; intros Ha.
  - simpl. by destruct (Ascii.ascii_dec slash slash).
  - unfold free_of, all_chars in *. simpl in *. to_prop. rewrite IH by done.
    by destruct (Ascii.ascii_dec slash x).
Qed.

Lemma prefix_slash p a b :
  free_of slash p = true → free_of slash a = true →
  String.prefix p (a +:+ String slash b) = String.prefix p a.
Proof.
  revert a. induction p as [|x p IH]; intros a Hp Ha; [by destruct a|].
  unfold free_of, all_chars in *. destruct a as [|y a]; simpl in *; to_prop.
  - by destruct (Ascii.ascii_dec x slash).
  - destruct (Ascii.ascii_dec x y); [|done]. by apply IH.
Qed.

Lemma dec_not_br s : all_chars is_dec s = true → String.prefix "br-" s = false.
Proof.
  destruct s as [|c s]; [done|]. unfold all_chars. simpl. intros H. to_prop.
  destruct (Ascii.ascii_dec "b" c) as [<-|]; [|done]. done.
Qed.

Lemma last_not_br s : last_dec s = true → String.prefix "br-" s = false.
Proof.
  unfold last_dec, nat_dec. intros H. to_prop. destruct H as [H|H]; to_prop; [by subst|].
  destruct H as [H|H]; to_prop; [by subst|]. eauto using dec_not_br, pos_dec_digits.
Qed.

Lemma prefixed_not_br p n s :
  String.prefix "br-" (p +:+ "") = false → (3 ≤ String.length p)%nat →
  prefixed_hex p n s = true → String.prefix "br-" s = false.
Proof.
  unfold prefixed_hex. intros Hp Hl. destruct (strip_prefix p s) eqn:E; [|done].
  apply strip_prefix_Some in E as ->. intros _.
  destruct p as [|c1 [|c2 [|c3 p]]]; simpl in *; try lia.
  destruct (Ascii.ascii_dec "b" c1); [|done]. destruct (Ascii.ascii_dec "r" c2); [|done].
  destruct (Ascii.ascii_dec "-" c3); [|done]. by destruct (p +:+ "").
Qed.

(** In a well-formed entry only the source id can follow a slash with [br-]. *)
Lemma contains_br_entry e :
  wf_entry e = true → contains "/br-" (format_entry e) = String.prefix "br-" (source_id e).
Proof.
  unfold wf_entry. intros H. to_prop.
  destruct (pos_dec_18 (epoch e)) as [Hp _]; [lia|].
  destruct (last_dec_pretty (last_sequence e)) as [Hl _]; [lia|].
  assert (free_of slash (segment_id e) = true) by by eapply (prefixed_no_slash "seg-" 32).
  assert (free_of slash (source_id e) = true) by by apply opaque_no_slash.
  assert (free_of slash (pretty (epoch e)) = true) by by eapply dec_no_slash, pos_dec_digits.
  assert (free_of slash (pretty (last_sequence e)) = true) by by apply last_no_slash.
  assert (free_of slash (manifest_digest e) = true) by by eapply (prefixed_no_slash "sha256:" 64).
  unfold format_entry. cbn [String.append].
  rewrite !contains_slash, !prefix_slash, contains_free by done.
  rewrite (dec_not_br (pretty (epoch e))) by by eapply pos_dec_digits.
  rewrite (last_not_br (pretty (last_sequence e))) by done.
  rewrite (prefixed_not_br "sha256:" 64 (manifest_digest e)) by (done || (simpl; lia)).
  by rewrite !orb_false_r.
Qed.

(** ** The token codec *)

(** C2: the token grammar is a bijection: a carrier value is read as a token exactly when it
    is the printed form of a valid one, so a valid token is read back as printed and no two
    carrier values are read as the same token. *)
Theorem token_roundtrip (s : string) (t : ResumeToken) :
  (parse_token s = Some t ↔ valid_token t ∧ s = print_token t) ∧
  (valid_token t → parse_token (print_token t) = Some t).
Proof.
  split; [apply parse_token_iff|]. intros Ht. by apply parse_token_iff.
Qed.

Lemma format_token_iff (c : string) (e : Entry) (b : option string) (s : string) :
  wf_entry e = true → int64_entry e = true →
  format_token c (format_entry e) b = Some s ↔
    opaque_id c = true ∧ branch_ok b = true ∧ String.prefix "br-" (source_id e) = false ∧
    s = print_token (mk_token 3 (Some c) e b).
Proof.
  intros Hwf H64. unfold format_token. rewrite contains_br_entry by done.
  rewrite (proj2 (parse_entry_iff _ e None)) by (simpl; by rewrite string_app_nil).
  rewrite bool_decide_false by done. cbn [orb].
  destruct (opaque_id c); [|naive_solver]. destruct (String.prefix _ _); [naive_solver|].
  assert ((match b with Some b => negb (BRANCH_ID_RE b) | None => false end)
            = negb (branch_ok b)) as -> by by destruct b.
  destruct (branch_ok b); [|naive_solver]. unfold print_token. cbn [negb correlation_id].
  rewrite !string_app_assoc. naive_solver.
Qed.

(** A token issued for a run, an entry and a branch is read back as exactly those; and
    [format_token] issues one for every valid entry, opaque run id and branch id, except
    that it refuses a valid entry whose source id begins with [br-]. *)
Theorem format_token_issues (c : string) (e : Entry) (b : option string) (s : string) :
  wf_entry e = true → int64_entry e = true →
  (format_token c (format_entry e) b = Some s ↔
     opaque_id c = true ∧ branch_ok b = true ∧ String.prefix "br-" (source_id e) = false ∧
     s = print_token (mk_token 3 (Some c) e b)) ∧
  (format_token c (format_entry e) b = Some s →
     parse_token s = Some (mk_token 3 (Some c) e b)).
Proof.
  intros Hwf H64. pose proof (format_token_iff c e b s Hwf H64) as Hiff.
  split; [done|]. intros (? & ? & _ & ->)%Hiff. by apply parse_token_iff.
Qed.

Definition demo_entry : Entry :=
  mk_entry "seg-0123456789abcdef0123456789abcdef" "agent.1" 3 (-1)
    "sha256:0000000000000000000000000000000000000000000000000000000000000000".

Lemma token_roundtrip_witness :
  parse_token (print_token (mk_token 2 None demo_entry None)) =
    Some (mk_token 2 None demo_entry None).
Proof. by apply (token_roundtrip "" (mk_token 2 None demo_entry None)). Defined.

Lemma format_token_issues_witness :
  wf_entry demo_entry = true ∧
  parse_token ("fr3/run-1/" +:+ format_entry demo_entry) =
    Some (mk_token 3 (Some "run-1") demo_entry None).
Proof.
  split; [vm_compute; reflexivity|].
  apply (format_token_issues "run-1" demo_entry None); vm_compute; reflexivity.
Defined.

(** The entry the rule on [br-] source ids refuses although the grammar accepts it. *)
Example format_token_refuses_br_source :
  let e := mk_entry "seg-0123456789abcdef0123456789abcdef" "br-west" 1 0
             "sha256:0000000000000000000000000000000000000000000000000000000000000000" in
  is_Some (parse_token ("fr3/run-1/" +:+ format_entry e)) ∧
  format_token "run-1" (format_entry e) None = None.
Proof. split; [eexists|]; vm_compute; reflexivity. Qed.

(** ** Run identity *)

Lemma append_new_fold acc l :
  foldl append_new acc l = acc ++ filter (λ x, x ∉ acc) (fromkeys l).
Proof.
  revert acc. induction l as [|x l IH]; intros acc; simpl; [by rewrite app_nil_r|].
  rewrite IH. unfold append_new. case_decide as Hx.
  - rewrite filter_cons_False by tauto. f_equal. rewrite list_filter_filter.
    apply list_filter_iff. intros y. split; [|tauto]. intros Hy. split; [done|]. by intros ->.
  - rewrite filter_cons_True by done. rewrite <-(assoc_L (++)). simpl. do 2 f_equal.
    rewrite list_filter_filter. apply list_filter_iff. intros y.
    rewrite elem_of_app, list_elem_of_singleton. tauto.
Qed.

Lemma append_new_fromkeys l : foldl append_new [] l = fromkeys l.
Proof.
  rewrite append_new_fold. simpl. induction (fromkeys l) as [|x xs IH]; [done|].
  rewrite filter_cons_True by (apply not_elem_of_nil). by rewrite IH.
Qed.

Lemma predecessor_fold l a b :
  foldl predecessor_step (a, b) l =
    (foldl append_new a (token_entry <$> l), foldl append_new b (omap branch_id l)).
Proof.
  revert a b. induction l as [|t l IH]; intros a b; [done|]. simpl.
  unfold predecessor_step at 2. simpl. rewrite IH. by destruct (branch_id t).
Qed.

Section identity_props.
Variable map_run : string → string.
Variable mint : string.
Variable correlation_ok : option (string → bool).
#[local] Notation parsed tokens := (parsed_tokens correlation_ok tokens).

Lemma elem_of_correlations c l : c ∈ correlations_of l ↔ ∃ t, t ∈ l ∧ correlation_id t = Some c.
Proof.
  unfold correlations_of, sort_str. by rewrite elem_of_py_sort, elem_of_fromkeys, list_elem_of_omap.
Qed.

Lemma correlations_canonical l l' :
  (∀ t, t ∈ l ↔ t ∈ l') → correlations_of l = correlations_of l'.
Proof.
  intros Hl. apply sort_str_unique, NoDup_Permutation; auto with fabric.
  intros c. rewrite !elem_of_fromkeys, !list_elem_of_omap. by setoid_rewrite Hl.
Qed.

Lemma elem_of_parsed t tokens :
  t ∈ parsed tokens ↔ token_ok correlation_ok t = true ∧ ∃ s, s ∈ tokens ∧ parse_token s = Some t.
Proof. unfold parsed_tokens. by rewrite list_elem_of_filter, list_elem_of_omap. Qed.

Lemma length_parsed tokens : (length (parsed tokens) ≤ length tokens)%nat.
Proof.
  unfold parsed_tokens. etrans; [apply length_filter|].
  induction tokens as [|s l IH]; csimpl; [done|]. destruct (parse_token s); csimpl; lia.
Qed.

Lemma parsed_omap tokens :
  parsed tokens =
    omap (λ s, match parse_token s with
               | Some t => if from_option (λ c, from_option (λ ok, ok c) true correlation_ok) true (correlation_id t)
                           then Some t else None
               | None => None
               end) tokens.
Proof.
  unfold parsed_tokens. induction tokens as [|s l IH]; csimpl; [done|]. destruct (parse_token s) as [t|]; csimpl; [|done].
  replace (from_option _ true (correlation_id t)) with (token_ok correlation_ok t)
    by (unfold token_ok; destruct (correlation_id t), correlation_ok; reflexivity).
  rewrite filter_cons. destruct (token_ok correlation_ok t); csimpl; by rewrite <-IH.
Qed.

(** C3: the identity of a segment is exactly what its tokens say. The valid tokens are those
    that parse and whose correlation id, if they have one, the consumer accepts; every other
    token is counted as rejected. The predecessors are the entries of the valid tokens, each
    once and in carrier order, or the root's when there is none; the branches likewise; the
    correlation ids are those of the valid tokens, each once, in order. The run id is the
    correlation id when there is one only; with several it is the caller's mapped id, or the
    first of them without a caller's; with none, the caller's mapped id or a minted one. *)
Theorem resolve_identity_exact (tokens : list string) (run_id : option string) :
  let i := resolve_identity map_run mint correlation_ok tokens run_id in
  let valid := omap (λ s, match parse_token s with
                          | Some t => if from_option (λ c, from_option (λ ok, ok c) true correlation_ok) true (correlation_id t)
                                      then Some t else None
                          | None => None
                          end) tokens in
  i_valid_tokens i = Z.of_nat (length valid) ∧
  i_tokens_rejected i + i_valid_tokens i = Z.of_nat (length tokens) ∧ 0 ≤ i_tokens_rejected i ∧
  i_predecessors i = (if decide (valid = []) then ["none"] else fromkeys (token_entry <$> valid)) ∧
  i_branch_ids i = fromkeys (omap branch_id valid) ∧
  NoDup (i_correlation_ids i) ∧ StronglySorted (λ a b, String.leb a b = true) (i_correlation_ids i) ∧
  (∀ c, c ∈ i_correlation_ids i ↔ ∃ t, t ∈ valid ∧ correlation_id t = Some c) ∧
  (i_run_id i, i_id_basis i) =
    match i_correlation_ids i, run_id with
    | [c], _ => (c, id_token)
    | _ :: _, Some r => (map_run r, id_caller_join)
    | c :: _, None => (c, id_token_conflict)
    | [], Some r => (map_run r, if decide (valid = []) then id_caller else id_legacy)
    | [], None => (mint, if decide (valid = []) then id_minted else id_legacy)
    end.
Proof.
  cbv zeta. rewrite <-parsed_omap. unfold resolve_identity. rewrite predecessor_fold, !append_new_fromkeys.
  destruct (identity_basis _ _ _ run_id) as [out basis] eqn:Hb. cbn.
  pose proof (length_parsed tokens) as Hlen.
  split_and!; [done|lia|lia| |done|apply NoDup_py_sort, NoDup_fromkeys|apply py_sort_sorted, _|intros; apply elem_of_correlations|].
  - destruct (decide (parsed tokens = [])) as [->|Hp]; [done|]. rewrite decide_False; [done|].
    rewrite fromkeys_nil. by destruct (parsed tokens).
  - rewrite <-Hb. unfold identity_basis.
    by destruct (correlations_of (parsed tokens)) as [|c [|c2 cs]]; destruct run_id as [r|]; try case_decide.
Qed.

(** Identity does not depend on how the tokens were carried: two carriers holding the
    same tokens, in any order and with any repetition, give the run the same id, the same
    basis, the same correlation ids, and the same set of predecessors. *)
Theorem resolve_identity_carrier_independent
    (tokens tokens' : list string) (run_id : option string) :
  (∀ s, s ∈ tokens ↔ s ∈ tokens') →
  let i := resolve_identity map_run mint correlation_ok tokens run_id in
  let i' := resolve_identity map_run mint correlation_ok tokens' run_id in
  i_run_id i = i_run_id i' ∧ i_id_basis i = i_id_basis i' ∧
  i_correlation_ids i = i_correlation_ids i' ∧ i_predecessors i ≡ₚ i_predecessors i'.
Proof.
  intros Hs.
  assert (∀ t, t ∈ parsed tokens ↔ t ∈ parsed tokens') as Hp.
  { intros t. rewrite !elem_of_parsed. by setoid_rewrite Hs. }
  assert (parsed tokens = [] ↔ parsed tokens' = []) as Hnil.
  { split; intros Hn; apply elem_of_nil_inv; intros t Ht; apply Hp in Ht; rewrite Hn in Ht;
      by apply not_elem_of_nil in Ht. }
  pose proof (correlations_canonical _ _ Hp) as Hc.
  assert (identity_basis map_run mint (parsed tokens) run_id
            = identity_basis map_run mint (parsed tokens') run_id) as Hb.
  { unfold identity_basis. rewrite Hc.
    destruct (decide (parsed tokens = [])), (decide (parsed tokens' = [])); tauto. }
  unfold resolve_identity. rewrite !predecessor_fold, !append_new_fromkeys, <-Hb, Hc.
  destruct (identity_basis map_run mint _ run_id). cbn. split_and!; [done..|].
  assert (∀ l : list ResumeToken, token_entry <$> l = [] ↔ l = []) as Hm by by intros [|??].
  destruct (decide (fromkeys (token_entry <$> parsed tokens) = [])) as [H1|H1];
    destruct (decide (fromkeys (token_entry <$> parsed tokens') = [])) as [H2|H2];
    rewrite fromkeys_nil, Hm in H1, H2; [done|tauto..|].
  apply NoDup_Permutation; auto with fabric.
  intros x. rewrite !elem_of_fromkeys, !list_elem_of_fmap. by setoid_rewrite Hp.
Qed.
End identity_props.

Definition demo_token (c b : string) : string :=
  "fr3/" +:+ c +:+ "/" +:+ format_entry demo_entry +:+ "/" +:+ b.
Definition demo_branch : string := "br-00000000000000000000000000000001".

Lemma resolve_identity_carrier_independent_witness :
  let t1 := demo_token "r-1" demo_branch in
  let t2 := demo_token "r-2" demo_branch in
  let i := resolve_identity (λ r, r) "r-minted" None [t1; t2; t1] None in
  i_correlation_ids i = ["r-1"; "r-2"] ∧
  i_id_basis i = i_id_basis (resolve_identity (λ r, r) "r-minted" None [t2; t1] None).
Proof.
  cbn zeta. split; [vm_compute; reflexivity|].
  apply (resolve_identity_carrier_independent (λ r, r) "r-minted" None).
  intros s. rewrite !elem_of_cons. tauto.
Defined.
