(* ===== verification/Markers.v ===== *)
(** * Markers

    The typed heartbeat and run markers of [fabric/_capture_types.py] (spec 050 section 3.5,
    capture/v1 marker branch): the [Marker] record, the placement rules its [__post_init__]
    checks, and the bridge to the legacy beats. *)

From S2P Require Import Prelude Hash Json Ids Tokens.

Inductive MarkerKind := periodic | run_start | run_end | final | segment_seal | manifest_kind.
Inductive RunOutcome := completed | failed | cancelled | suspended | unknown_outcome.
Inductive StopReason := goal_reached | max_steps | max_tokens | stop_error | stop_cancelled
  | handoff | awaiting_input | stop_other | stop_unknown.
Inductive ScopeStatus := scope_ok | scope_error | scope_cancelled.

#[export] Instance MarkerKind_eq_dec : EqDecision MarkerKind.
Proof. solve_decision. Defined.
#[export] Instance RunOutcome_eq_dec : EqDecision RunOutcome.
Proof. solve_decision. Defined.
#[export] Instance StopReason_eq_dec : EqDecision StopReason.
Proof. solve_decision. Defined.
#[export] Instance ScopeStatus_eq_dec : EqDecision ScopeStatus.
Proof. solve_decision. Defined.

(** [SealInfo] *)
Record SealInfo := mk_seal_info {
  si_last_sequence : Z;
  si_manifest_digest : option string;
  si_seal_digest : string;
  si_branch_ids : list string;
}.

(** [Marker]. The vocabularies of the kinds, outcomes, stop reasons, bases and statuses are
    types here, so the checks that a value lies in them cannot fail. *)
Record Marker := mk_marker {
  m_kind : MarkerKind;
  m_source_id : string;
  m_epoch : Z;
  m_last_sequence : Z;
  m_run_id : option string;
  m_scope_id : option string;
  m_segment_id : option string;
  m_predecessors : list string;
  m_resumable : option bool;
  m_open_deadline_s : option Z;
  m_declared_branches : list string;
  m_branch_ids : list string;
  m_terminal : option bool;
  m_seal : option SealInfo;
  m_manifest_id : option string;
  m_manifest_digest : option string;
  m_scope_status : option ScopeStatus;
  m_outcome : option RunOutcome;
  m_session_id : option string;
  m_user_id : option string;
  m_parent_run_id : option string;
  m_resumed_from : option string;
  m_links : list string;
  m_manifest : option (list (string * json));
  m_id_basis : option IdBasis;
  m_stop_reason : option StopReason;
}.

Definition MAX_BRANCHES : nat := 64.
Definition MAX_RUN_LINKS : nat := 16.

(** [_PREDECESSOR_ROOT] is [Tokens.ROOT]. *)
Definition is_root_start (m : Marker) : bool :=
  bool_decide (m_kind m = run_start) && bool_decide (m_predecessors m = ROOT).

Definition present {A} (o : option A) : bool := match o with Some _ => true | None => false end.

Definition all_ids (re : string → bool) (l : list string) : bool :=
  (length l <=? MAX_BRANCHES)%nat && forallb re l.

(** [Marker.__post_init__], [false] where it raises [ValueError]; the minted event id is a
    uuid by construction and the identity block is never set. *)
Definition marker_ok (m : Marker) : bool :=
  bool_decide (present (m_seal m) = bool_decide (m_kind m = segment_seal)) &&
  bool_decide (present (m_manifest m) = bool_decide (m_kind m = manifest_kind)) &&
  (bool_decide (m_kind m = run_end) || negb (present (m_outcome m) || present (m_stop_reason m))) &&
  (is_root_start m ||
   negb (present (m_session_id m) || present (m_user_id m) || present (m_parent_run_id m)
         || present (m_resumed_from m) || negb (bool_decide (m_links m = [])))) &&
  (length (m_links m) <=? MAX_RUN_LINKS)%nat &&
  (bool_decide (m_kind m = run_start) || negb (present (m_id_basis m))) &&
  match m_segment_id m with Some s => SEGMENT_ID_RE s | None => true end &&
  all_ids SEGMENT_ID_RE (m_declared_branches m) &&
  all_ids BRANCH_ID_RE (m_branch_ids m).

(** ** Legacy beats *)

(** [_loss._Beat] *)
Record Beat := mk_beat {
  b_source : string;
  b_epoch : Z;
  b_last : Z;
  b_run_id : option string;
  b_scope_id : option string;
  b_kind : MarkerKind;
}.

Definition LEGACY_KINDS : list MarkerKind := [periodic; run_start; run_end; final].
Definition RUN_MARKERS : list MarkerKind := [run_start; run_end].

Definition to_beat (m : Marker) : option Beat :=
  if decide (m_kind m ∈ LEGACY_KINDS) then
    let run := bool_decide (m_kind m ∈ RUN_MARKERS) in
    Some (mk_beat (m_source_id m) (m_epoch m) (m_last_sequence m)
            (if run then m_run_id m else None) (if run then m_scope_id m else None) (m_kind m))
  else None.

Definition from_beat (b : Beat) : result Marker :=
  if decide (b_kind b ∈ LEGACY_KINDS) then
    let run := bool_decide (b_kind b ∈ RUN_MARKERS) in
    Ok (mk_marker (b_kind b) (b_source b) (b_epoch b) (b_last b)
          (if run then b_run_id b else None) (if run then b_scope_id b else None) None [] None
          None [] [] None None None None None None None None None None [] None None None)
  else Raise ValueError.

(** Reading a legacy beat and writing it back changes nothing, and what is read is placed as
    the marker rules require. *)
Lemma beat_roundtrip m b :
  to_beat m = Some b → ∃ m', from_beat b = Ok m' ∧ to_beat m' = Some b ∧ marker_ok m' = true.
Proof.
  destruct m as [k src e l r sc]. unfold to_beat, from_beat. cbn [m_kind m_source_id m_epoch
    m_last_sequence m_run_id m_scope_id]. intros H.
  destruct k; vm_compute in H; try done; injection H as <-; eexists;
    (split; [reflexivity|split; reflexivity]).
Qed.
