(* ===== verification/Segments.v ===== *)
(** * The run table

    [SegmentTable] of [fabric/_segments.py] (spec 050 section 3.6): the runs a process has
    open, the segment each is recording, and how segments are opened, sealed and continued.
    Every method runs under the allocator lock, so each is one function on the table. What
    it reads of the allocator is a [Position]; the markers it queues and the seals it
    requests are its effects, in order; the identifiers it mints are arguments. *)

From S2P Require Import Prelude PyDict Hash Decimal Ids Tokens Markers.

Definition MAX_PREDECESSORS : nat := MAX_BRANCHES.
Definition MAX_SEALED_KEPT : nat := 64.
Definition MAX_RETIRED_RUNS : nat := 1024.
Definition NO_MANIFEST_DIGEST : string :=
  "sha256:0000000000000000000000000000000000000000000000000000000000000000".

(** ** State *)

(** [SealedSegment] *)
Record SealedSegment := mk_sealed {
  ss_segment_id : string;
  ss_last_sequence : Z;
  ss_manifest_digest : string;
  ss_terminal : bool;
  ss_resumable : bool;
  ss_branch_ids : list string;
}.

(** [RunEntry] and [_Run] *)
Record Run := mk_run {
  r_run_id : string;
  r_correlation_id : string;
  r_id_basis : IdBasis;
  r_open_segment : option string;
  r_sealed : list SealedSegment;
  r_depth : Z;
  r_resumable : bool;
  r_terminal_sealed : bool;
  r_final_block : bool;
  r_open_deadline_s : option Z;
  r_root_done : bool;
  r_outcome : option RunOutcome;
  r_stop_reason : option StopReason;
  r_open_epoch : Z;
  r_open_last : Z;
  r_open_basis : option IdBasis;
  r_open_scope : option string;
  r_pending_predecessors : list string;
  r_pending_branch_ids : list string;
  r_pending_declared : list string;
  r_fork_child : bool;
  r_block_scope : option string;
  r_last_entry : option string;
}.

(** [_SealOrder] *)
Record SealOrder := mk_order {
  o_segment_id : string;
  o_run_id : string;
  o_epoch : Z;
  o_last_sequence : Z;
  o_manifest_digest : string;
  o_terminal : bool;
  o_resumable : bool;
  o_branch_ids : list string;
}.

(** The manifest in force. *)
Record ManifestRef := mk_ref { ref_epoch : Z; ref_id : string; ref_digest : string }.

(** The attributes of [SegmentTable] its locked methods read and write. *)
Record Table := mk_table {
  runs : list (string * Run);
  retired : list (string * Run);
  segment_runs : list (string * string);
  closed : bool;
  manifest : option ManifestRef;
  fork : list (string * (string * list string));
  fork_seals : list SealOrder;
  stats : list (string * Z);
}.

Definition empty_table : Table := mk_table [] [] [] false None [] [] [].

(** What the table reads of the allocator: its source id, its epoch, and the last sequence
    allocated in it ([_last]). *)
Record Position := mk_position { p_source : string; p_epoch : Z; p_last : Z }.

(** What a method does outside the table. *)
Inductive effect :=
  | Queued (m : Marker)       (** [_queue]: to the loss emitter *)
  | Requested (o : SealOrder) (** [_request]: to the seal accumulator *).

(** [RunPlan] *)
Record RunPlan := mk_plan {
  pl_identity : Identity;
  pl_resumable : bool;
  pl_final : bool;
  pl_open_deadline_s : option Z;
  pl_session_id : option string;
  pl_user_id : option string;
  pl_parent_run_id : option string;
  pl_resumed_from : option string;
  pl_links : list string;
}.

(** *** Field updates *)

Definition set_open seg ep last scope (r : Run) : Run := mk_run (r_run_id r) (r_correlation_id r)
    (r_id_basis r) seg (r_sealed r) (r_depth r) (r_resumable r) (r_terminal_sealed r)
    (r_final_block r) (r_open_deadline_s r) (r_root_done r) (r_outcome r) (r_stop_reason r) ep
    last (r_open_basis r) scope (r_pending_predecessors r) (r_pending_branch_ids r)
    (r_pending_declared r) (r_fork_child r) (r_block_scope r) (r_last_entry r).
Definition set_open_last last (r : Run) : Run := mk_run (r_run_id r) (r_correlation_id r)
    (r_id_basis r) (r_open_segment r) (r_sealed r) (r_depth r) (r_resumable r)
    (r_terminal_sealed r) (r_final_block r) (r_open_deadline_s r) (r_root_done r) (r_outcome r)
    (r_stop_reason r) (r_open_epoch r) last (r_open_basis r) (r_open_scope r)
    (r_pending_predecessors r) (r_pending_branch_ids r) (r_pending_declared r) (r_fork_child r)
    (r_block_scope r) (r_last_entry r).
Definition set_closed_segment seg scope (r : Run) : Run := mk_run (r_run_id r)
    (r_correlation_id r) (r_id_basis r) seg (r_sealed r) (r_depth r) (r_resumable r)
    (r_terminal_sealed r) (r_final_block r) (r_open_deadline_s r) (r_root_done r) (r_outcome r)
    (r_stop_reason r) (r_open_epoch r) (r_open_last r) (r_open_basis r) scope
    (r_pending_predecessors r) (r_pending_branch_ids r) (r_pending_declared r) (r_fork_child r)
    (r_block_scope r) (r_last_entry r).
Definition set_open_basis b (r : Run) : Run := mk_run (r_run_id r) (r_correlation_id r)
    (r_id_basis r) (r_open_segment r) (r_sealed r) (r_depth r) (r_resumable r)
    (r_terminal_sealed r) (r_final_block r) (r_open_deadline_s r) (r_root_done r) (r_outcome r)
    (r_stop_reason r) (r_open_epoch r) (r_open_last r) b (r_open_scope r)
    (r_pending_predecessors r) (r_pending_branch_ids r) (r_pending_declared r) (r_fork_child r)
    (r_block_scope r) (r_last_entry r).
Definition set_pending preds branches (r : Run) : Run := mk_run (r_run_id r) (r_correlation_id r)
    (r_id_basis r) (r_open_segment r) (r_sealed r) (r_depth r) (r_resumable r)
    (r_terminal_sealed r) (r_final_block r) (r_open_deadline_s r) (r_root_done r) (r_outcome r)
    (r_stop_reason r) (r_open_epoch r) (r_open_last r) (r_open_basis r) (r_open_scope r) preds
    branches (r_pending_declared r) (r_fork_child r) (r_block_scope r) (r_last_entry r).
Definition set_pending_declared declared (r : Run) : Run := mk_run (r_run_id r)
    (r_correlation_id r) (r_id_basis r) (r_open_segment r) (r_sealed r) (r_depth r)
    (r_resumable r) (r_terminal_sealed r) (r_final_block r) (r_open_deadline_s r) (r_root_done r)
    (r_outcome r) (r_stop_reason r) (r_open_epoch r) (r_open_last r) (r_open_basis r)
    (r_open_scope r) (r_pending_predecessors r) (r_pending_branch_ids r) declared (r_fork_child r)
    (r_block_scope r) (r_last_entry r).
Definition set_sealed x (r : Run) : Run := mk_run (r_run_id r) (r_correlation_id r) (r_id_basis r)
    (r_open_segment r) x (r_depth r) (r_resumable r) (r_terminal_sealed r) (r_final_block r)
    (r_open_deadline_s r) (r_root_done r) (r_outcome r) (r_stop_reason r) (r_open_epoch r)
    (r_open_last r) (r_open_basis r) (r_open_scope r) (r_pending_predecessors r)
    (r_pending_branch_ids r) (r_pending_declared r) (r_fork_child r) (r_block_scope r)
    (r_last_entry r).
Definition set_last_entry x (r : Run) : Run := mk_run (r_run_id r) (r_correlation_id r)
    (r_id_basis r) (r_open_segment r) (r_sealed r) (r_depth r) (r_resumable r)
    (r_terminal_sealed r) (r_final_block r) (r_open_deadline_s r) (r_root_done r) (r_outcome r)
    (r_stop_reason r) (r_open_epoch r) (r_open_last r) (r_open_basis r) (r_open_scope r)
    (r_pending_predecessors r) (r_pending_branch_ids r) (r_pending_declared r) (r_fork_child r)
    (r_block_scope r) x.
Definition set_terminal_sealed b (r : Run) : Run := mk_run (r_run_id r) (r_correlation_id r)
    (r_id_basis r) (r_open_segment r) (r_sealed r) (r_depth r) (r_resumable r) b (r_final_block r)
    (r_open_deadline_s r) (r_root_done r) (r_outcome r) (r_stop_reason r) (r_open_epoch r)
    (r_open_last r) (r_open_basis r) (r_open_scope r) (r_pending_predecessors r)
    (r_pending_branch_ids r) (r_pending_declared r) (r_fork_child r) (r_block_scope r)
    (r_last_entry r).
Definition set_resumable b (r : Run) : Run := mk_run (r_run_id r) (r_correlation_id r)
    (r_id_basis r) (r_open_segment r) (r_sealed r) (r_depth r) b (r_terminal_sealed r)
    (r_final_block r) (r_open_deadline_s r) (r_root_done r) (r_outcome r) (r_stop_reason r)
    (r_open_epoch r) (r_open_last r) (r_open_basis r) (r_open_scope r) (r_pending_predecessors r)
    (r_pending_branch_ids r) (r_pending_declared r) (r_fork_child r) (r_block_scope r)
    (r_last_entry r).
Definition set_depth d (r : Run) : Run := mk_run (r_run_id r) (r_correlation_id r) (r_id_basis r)
    (r_open_segment r) (r_sealed r) d (r_resumable r) (r_terminal_sealed r) (r_final_block r)
    (r_open_deadline_s r) (r_root_done r) (r_outcome r) (r_stop_reason r) (r_open_epoch r)
    (r_open_last r) (r_open_basis r) (r_open_scope r) (r_pending_predecessors r)
    (r_pending_branch_ids r) (r_pending_declared r) (r_fork_child r) (r_block_scope r)
    (r_last_entry r).
Definition set_block_scope x (r : Run) : Run := mk_run (r_run_id r) (r_correlation_id r)
    (r_id_basis r) (r_open_segment r) (r_sealed r) (r_depth r) (r_resumable r)
    (r_terminal_sealed r) (r_final_block r) (r_open_deadline_s r) (r_root_done r) (r_outcome r)
    (r_stop_reason r) (r_open_epoch r) (r_open_last r) (r_open_basis r) (r_open_scope r)
    (r_pending_predecessors r) (r_pending_branch_ids r) (r_pending_declared r) (r_fork_child r) x
    (r_last_entry r).
Definition set_final_block b (r : Run) : Run := mk_run (r_run_id r) (r_correlation_id r)
    (r_id_basis r) (r_open_segment r) (r_sealed r) (r_depth r) (r_resumable r)
    (r_terminal_sealed r) b (r_open_deadline_s r) (r_root_done r) (r_outcome r) (r_stop_reason r)
    (r_open_epoch r) (r_open_last r) (r_open_basis r) (r_open_scope r) (r_pending_predecessors r)
    (r_pending_branch_ids r) (r_pending_declared r) (r_fork_child r) (r_block_scope r)
    (r_last_entry r).
Definition set_fork_child b (r : Run) : Run := mk_run (r_run_id r) (r_correlation_id r)
    (r_id_basis r) (r_open_segment r) (r_sealed r) (r_depth r) (r_resumable r)
    (r_terminal_sealed r) (r_final_block r) (r_open_deadline_s r) (r_root_done r) (r_outcome r)
    (r_stop_reason r) (r_open_epoch r) (r_open_last r) (r_open_basis r) (r_open_scope r)
    (r_pending_predecessors r) (r_pending_branch_ids r) (r_pending_declared r) b (r_block_scope r)
    (r_last_entry r).
Definition set_outcome_fields o x (r : Run) : Run := mk_run (r_run_id r) (r_correlation_id r)
    (r_id_basis r) (r_open_segment r) (r_sealed r) (r_depth r) (r_resumable r)
    (r_terminal_sealed r) (r_final_block r) (r_open_deadline_s r) (r_root_done r) o x
    (r_open_epoch r) (r_open_last r) (r_open_basis r) (r_open_scope r) (r_pending_predecessors r)
    (r_pending_branch_ids r) (r_pending_declared r) (r_fork_child r) (r_block_scope r)
    (r_last_entry r).
Definition set_root_done b (r : Run) : Run := mk_run (r_run_id r) (r_correlation_id r)
    (r_id_basis r) (r_open_segment r) (r_sealed r) (r_depth r) (r_resumable r)
    (r_terminal_sealed r) (r_final_block r) (r_open_deadline_s r) b (r_outcome r)
    (r_stop_reason r) (r_open_epoch r) (r_open_last r) (r_open_basis r) (r_open_scope r)
    (r_pending_predecessors r) (r_pending_branch_ids r) (r_pending_declared r) (r_fork_child r)
    (r_block_scope r) (r_last_entry r).

Definition set_runs x (t : Table) : Table := mk_table x (retired t) (segment_runs t) (closed t)
    (manifest t) (fork t) (fork_seals t) (stats t).
Definition set_retired x (t : Table) : Table := mk_table (runs t) x (segment_runs t) (closed t)
    (manifest t) (fork t) (fork_seals t) (stats t).
Definition set_segment_runs x (t : Table) : Table := mk_table (runs t) (retired t) x (closed t)
    (manifest t) (fork t) (fork_seals t) (stats t).
Definition set_closed b (t : Table) : Table := mk_table (runs t) (retired t) (segment_runs t) b
    (manifest t) (fork t) (fork_seals t) (stats t).
Definition set_fork x y (t : Table) : Table := mk_table (runs t) (retired t) (segment_runs t)
    (closed t) (manifest t) x y (stats t).
Definition set_stats x (t : Table) : Table := mk_table (runs t) (retired t) (segment_runs t)
    (closed t) (manifest t) (fork t) (fork_seals t) x.

Definition bump (name : string) (n : Z) (t : Table) : Table :=
  set_stats (dset name (default 0 (dget name (stats t)) + n) (stats t)) t.

Definition put_run (r : Run) (t : Table) : Table := set_runs (dset (r_run_id r) r (runs t)) t.

(** [_Run(run_id, run_id, basis, ...)] *)
Definition new_run (run_id : string) (basis : IdBasis) (deadline : option Z) (resumable : bool) : Run :=
  mk_run run_id run_id basis None [] 0 resumable false false deadline false None None 0 (-1) None
    None [] [] [] false None None.

(** ** Opening and sealing a segment *)

(** [a or b] on tuples: the empty one is false. *)
Definition or_list {A} (a b : list A) : list A := match a with [] => b | _ => a end.

Definition or_basis (a : option IdBasis) (b : IdBasis) : IdBasis := default b a.

(** [_manifest_for] *)
Definition manifest_for (epoch : Z) (t : Table) : option ManifestRef :=
  match manifest t with
  | Some ref => if decide (ref_epoch ref = epoch) then Some ref else None
  | None => None
  end.

(** [_last_entry] *)
Definition last_entry (r : Run) : list string := option_list (r_last_entry r).

(** [_run_start] *)
Definition run_start_marker (p : Position) (r : Run) (scope_id : string) (last epoch : Z)
    (segment_id : string) (predecessors branch_ids declared : list string)
    (basis : option IdBasis) (root : option RunPlan) (t : Table) : Marker :=
  let ref := manifest_for epoch t in
  let root := if decide (predecessors = ROOT) then root else None in
  mk_marker run_start (p_source p) epoch last (Some (r_run_id r)) (Some scope_id)
    (Some segment_id) predecessors
    (match root with Some _ => Some (r_resumable r) | None => None end)
    (root ≫= pl_open_deadline_s) declared branch_ids None None
    (ref_id <$> ref) (ref_digest <$> ref) None None
    (root ≫= pl_session_id) (root ≫= pl_user_id) (root ≫= pl_parent_run_id)
    (root ≫= pl_resumed_from)
    (match root with Some plan => pl_links plan | None => [] end) None
    (Some (or_basis basis (or_basis (r_open_basis r) (r_id_basis r)))) None.

(** [_open] with the segment id it mints. *)
Definition open_segment (p : Position) (minted : string) (r : Run) (scope_id : string)
    (last epoch : Z) (predecessors : list string) (branch_ids : list string)
    (basis : option IdBasis) (root : option RunPlan) (t : Table) : Run * Table * list effect :=
  let preds := or_list predecessors
                 (or_list (r_pending_predecessors r) (or_list (last_entry r) ROOT)) in
  let t := if (MAX_PREDECESSORS <? length preds)%nat
           then bump "predecessors_dropped" (Z.of_nat (length preds - MAX_PREDECESSORS)) t else t in
  let preds := take MAX_PREDECESSORS preds in
  let branches := take MAX_BRANCHES (or_list branch_ids (r_pending_branch_ids r)) in
  let declared := take MAX_BRANCHES (r_pending_declared r) in
  let r := set_open_basis (Some (or_basis basis (or_basis (r_open_basis r) (r_id_basis r)))) r in
  let marker := run_start_marker p r scope_id last epoch minted preds branches declared
                  (r_open_basis r) root t in
  let r := set_pending_declared [] (set_pending [] []
             (set_open (Some minted) epoch last (Some scope_id) r)) in
  let t := bump "segments_opened" 1
             (set_segment_runs (dset minted (r_run_id r) (segment_runs t)) t) in
  (r, t, [Queued marker]).

(** The last [n] elements: [del l\[:-n\]]. *)
Definition keep_last {A} (n : nat) (l : list A) : list A := drop (length l - n) l.

(** [_seal] *)
Definition seal_segment (p : Position) (terminal : bool) (branch_ids : list string) (r : Run)
    (t : Table) : Run * Table * option SealOrder :=
  match r_open_segment r with
  | None => (r, t, None)
  | Some segment =>
      let epoch := r_open_epoch r in
      let last := if decide (p_epoch p = epoch) then p_last p else r_open_last r in
      let digest := match manifest_for epoch t with
                    | Some ref => ref_digest ref | None => NO_MANIFEST_DIGEST end in
      let order := mk_order segment (r_run_id r) epoch (Z.max last (r_open_last r)) digest
                     terminal (r_resumable r) branch_ids in
      let r := set_sealed (keep_last MAX_SEALED_KEPT (r_sealed r ++
                 [mk_sealed segment (o_last_sequence order) digest terminal (r_resumable r)
                    branch_ids])) r in
      let entry := format_entry (mk_entry segment (p_source p) epoch (o_last_sequence order) digest) in
      let r := set_terminal_sealed (r_terminal_sealed r || terminal)
                 (set_pending [entry] (r_pending_branch_ids r)
                    (set_last_entry (Some entry) (set_closed_segment None None r))) in
      let t := bump "segments_sealed" 1 (set_segment_runs (ddel segment (segment_runs t)) t) in
      (r, t, Some order)
  end.

(** [_request] *)
Definition request (o : option SealOrder) : list effect := Requested <$> option_list o.

(** ** Live and ended runs *)

(** [_retire] *)
Definition retire (r : Run) (t : Table) : Table :=
  if bool_decide (0 < r_depth r) || present (r_open_segment r)
     || negb (bool_decide (r_pending_declared r = [])) then t
  else if negb (din (r_run_id r) (runs t)) then t
  else
    let r := set_sealed (keep_last 1 (r_sealed r)) r in
    let t := set_runs (ddel (r_run_id r) (runs t)) t in
    set_retired (keep_last MAX_RETIRED_RUNS (ddel (r_run_id r) (retired t) ++ [(r_run_id r, r)])) t.

(** [_revive] *)
Definition revive (run_id : string) (t : Table) : option Run * Table :=
  match dget run_id (runs t) with
  | Some r => (Some r, t)
  | None =>
      match dget run_id (retired t) with
      | Some r =>
          (Some r, set_runs (dset run_id r (runs t)) (set_retired (ddel run_id (retired t)) t))
      | None => (None, t)
      end
  end.

(** [get] *)
Definition get (run_id : string) (t : Table) : option Run :=
  match dget run_id (runs t) with Some r => Some r | None => dget run_id (retired t) end.

(** Seal the open segment when its epoch has ended. *)
Definition seal_old_epoch (p : Position) (epoch : Z) (r : Run) (t : Table)
    : Run * Table * option SealOrder :=
  if present (r_open_segment r) && negb (r_open_epoch r =? epoch)
  then seal_segment p false [] r t else (r, t, None).

(** ** The allocator hook *)

(** [on_allocate]: [p] is the allocator with the sequence already taken, [scope] the run and
    scope ids of the allocation's scope. *)
Definition on_allocate (p : Position) (minted : string) (scope : option (string * string)) (t : Table)
    : Table * list effect * option string :=
  match scope with
  | None => (t, [], None)
  | Some (run_id, scope_id) =>
      if closed t then (t, [], None)
      else match dget run_id (runs t) with
      | None => (t, [], None)
      | Some r =>
          let '(r, t, o) := seal_old_epoch p (p_epoch p) r t in
          let '(r, t, evs) :=
            match r_open_segment r with
            | None =>
                let t := if r_terminal_sealed r then bump "post_terminal_allocations" 1 t else t in
                open_segment p minted r scope_id (p_last p - 1) (p_epoch p) [] [] None None t
            | Some _ => (r, t, [])
            end in
          let r := set_open_last (p_last p) r in
          (put_run r t, request o ++ evs, r_open_segment r)
      end
  end.

(** [on_forced] *)
Definition on_forced (p : Position) (segment_id : string) (t : Table) : Table * list effect :=
  match dget segment_id (segment_runs t) ≫= λ run_id, dget run_id (runs t) with
  | None => (t, [])
  | Some r =>
      if negb (bool_decide (r_open_segment r = Some segment_id)) then (t, [])
      else
        let '(r, t, o) := seal_segment p false [] r (bump "forced_seals" 1 t) in
        (put_run r t, request o)
  end.

(** ** Block entry and exit *)

Definition enter (p : Position) (minted : string) (plan : RunPlan) (scope_id : string) (t : Table)
    : Table * list effect :=
  if closed t then (t, [])
  else
    let identity := pl_identity plan in
    let run_id := i_run_id identity in
    let resumed := 0 <? i_valid_tokens identity in
    let '(found, t) := revive run_id t in
    let is_new := negb (present found) in
    let '(r, t) :=
      match found with
      | None => (new_run run_id (i_id_basis identity) (pl_open_deadline_s plan) false, t)
      | Some r =>
          (r, if r_terminal_sealed r && (r_depth r =? 0)
              then bump "post_terminal_allocations" 1 t else t)
      end in
    let r := set_depth (r_depth r + 1) r in
    let r := set_block_scope (Some scope_id) r in
    let r := set_resumable (r_resumable r || pl_resumable plan || resumed) r in
    let r := set_final_block (r_final_block r || pl_final plan) r in
    let '(r, t, o1) := seal_old_epoch p (p_epoch p) r t in
    if resumed && present (r_open_segment r) then
      let '(r, t, o2) := seal_segment p false [] r t in
      let joined := r_pending_predecessors r ++ i_predecessors identity in
      let '(r, t, evs) := open_segment p minted r scope_id (p_last p) (p_epoch p) joined
                            (i_branch_ids identity) (Some (i_id_basis identity)) None t in
      (put_run r t, evs ++ request o1 ++ request o2)
    else
      match r_open_segment r with
      | None =>
          let preds := if resumed then i_predecessors identity else if is_new then ROOT else [] in
          let '(r, t, evs) := open_segment p minted r scope_id (p_last p) (p_epoch p) preds
                                (i_branch_ids identity) (Some (i_id_basis identity))
                                (if is_new then Some plan else None) t in
          (put_run (set_root_done true r) t, evs ++ request o1)
      | Some segment =>
          (put_run r t,
           Queued (run_start_marker p r scope_id (p_last p) (p_epoch p) segment [] [] [] None None t)
             :: request o1)
      end.

(** The [run_end] marker of a block. *)
Definition run_end_marker (p : Position) (run_id scope_id : string) (segment : option string)
    (status : ScopeStatus) (outcome : option RunOutcome) (stop : option StopReason) : Marker :=
  mk_marker run_end (p_source p) (p_epoch p) (p_last p) (Some run_id) (Some scope_id) segment []
    None None [] [] None None None None (Some status) outcome None None None None [] None None stop.

Definition exit (p : Position) (minted : string) (run_id scope_id : string) (status : ScopeStatus)
    (t : Table) : Table * list effect :=
  if closed t then (t, [])
  else match dget run_id (runs t) with
  | None => (t, [Queued (run_end_marker p run_id scope_id None status None None)])
  | Some r =>
      if r_depth r <=? 0
      then (t, [Queued (run_end_marker p run_id scope_id None status None None)])
      else
        let r := set_depth (r_depth r - 1) r in
        let outermost := r_depth r =? 0 in
        let terminal := outermost && negb (r_fork_child r)
                        && (negb (r_resumable r) || r_final_block r) in
        let needs := terminal || negb (bool_decide (r_pending_declared r = [])) in
        let '(r, t, evs1) :=
          if outermost && needs && (negb (present (r_open_segment r))
                                    || negb (r_open_epoch r =? p_epoch p)) then
            let '(r, t, o) := seal_segment p false [] r t in
            let '(r, t, evs) := open_segment p minted r scope_id (p_last p) (p_epoch p) [] []
                                  None None t in
            (r, t, request o ++ evs)
          else (r, t, []) in
        let m := run_end_marker p (r_run_id r) scope_id (r_open_segment r) status
                   (if outermost then r_outcome r else None)
                   (if outermost then r_stop_reason r else None) in
        if outermost then
          let '(r, t, o) := seal_segment p terminal [] r t in
          let r := set_outcome_fields None None (set_fork_child false (set_final_block false r)) in
          (retire r (put_run r t), evs1 ++ Queued m :: request o)
        else (put_run r t, evs1 ++ [Queued m])
  end.

(** [on_block_enter] and [on_block_exit]: the protocol forms for a scope whose run id is
    already emitted. *)
Definition on_block_enter (p : Position) (minted run_id scope_id : string) (t : Table) :=
  enter p minted
    (mk_plan (mk_identity run_id id_caller ROOT [] 0 [] 0) false false None None None None None [])
    scope_id t.
Definition on_block_exit (p : Position) (minted run_id scope_id : string) (t : Table) :=
  exit p minted run_id scope_id scope_ok t.

(** One run in the loop of [on_final]. *)
Definition final_run (p : Position) (minted : string) (r : Run) (t : Table)
    : Run * Table * list effect :=
  let '(r, t, evs) :=
    match r_open_segment r, r_pending_declared r, r_block_scope r with
    | None, _ :: _, Some scope =>
        if 0 <? r_depth r
        then open_segment p minted r scope (p_last p) (p_epoch p) [] [] None None t
        else (r, t, [])
    | _, _, _ => (r, t, [])
    end in
  let terminal := (r_depth r =? 0) && negb (r_resumable r) && negb (r_fork_child r) in
  let '(r, t, o) := seal_segment p terminal [] r t in
  (r, t, evs ++ request o).

(** The loop over the runs, each with the id of the segment it may need; each run is updated
    in place. *)
Fixpoint final_runs (p : Position) (l : list (string * string)) (t : Table)
    : Table * list effect :=
  match l with
  | [] => (t, [])
  | (run_id, minted) :: l =>
      match dget run_id (runs t) with
      | None => final_runs p l t
      | Some r =>
          let '(r, t, e1) := final_run p minted r t in
          let '(t, e2) := final_runs p l (put_run r t) in
          (t, e1 ++ e2)
      end
  end.

(** [on_final]; [minted] gives the ids of the segments it opens. *)
Definition on_final (p : Position) (minted : string → string) (t : Table) : Table * list effect :=
  if closed t then (t, [])
  else final_runs p ((λ k, (k, minted k)) <$> (runs t).*1) (set_closed true t).

(** ** Tokens and outcomes *)

(** [issue] with the branch ids it mints: [ValueError] is the misuse error it raises. *)
Definition issue (p : Position) (minted : string) (run_id scope_id : string) (branch_ids : list string)
    (t : Table) : result (Table * list effect * list string) :=
  if closed t then Ok (t, [], [])
  else match dget run_id (runs t) with
  | None => Ok (t, [], [])
  | Some r =>
      if r_depth r <=? 0 then Ok (t, [], [])
      else if negb (opaque_id (r_correlation_id r)) then Raise ValueError
      else
        let '(r, t, o1) := seal_old_epoch p (p_epoch p) r t in
        let '(r, t, evs) :=
          match r_open_segment r with
          | None => open_segment p minted r scope_id (p_last p) (p_epoch p) [] [] None None t
          | Some _ => (r, t, [])
          end in
        let r := set_resumable true r in
        let '(r, t, o) := seal_segment p false branch_ids r t in
        let t := put_run r t in
        let effects := request o1 ++ evs ++ request o in
        match o with
        | None => Ok (t, effects, [])
        | Some order =>
            let entry := format_entry (mk_entry (o_segment_id order) (p_source p) (o_epoch order)
                                         (o_last_sequence order) (o_manifest_digest order)) in
            let branches := match branch_ids with [] => [None] | _ => Some <$> branch_ids end in
            let tokens := (λ b, or_str (format_token (r_correlation_id r) entry b) "") <$> branches in
            Ok (bump "tokens_issued" (Z.of_nat (length tokens)) t, effects, tokens)
        end
  end.

(** [set_outcome] for the emitted run id. *)
Definition set_outcome (emitted : option string) (outcome : RunOutcome) (stop : option StopReason)
    (t : Table) : Table * bool :=
  if closed t then (t, false)
  else match emitted ≫= λ run_id, dget run_id (runs t) with
  | None => (t, false)
  | Some r =>
      if r_depth r <=? 0 then (t, false)
      else (put_run (set_outcome_fields (Some outcome) stop r) t, true)
  end.

Inductive EndRunStatus :=
  | ended | refused_no_token | refused_bad_token | refused_conflicting_tokens | not_capturing
  | end_failed.

#[export] Instance EndRunStatus_eq_dec : EqDecision EndRunStatus.
Proof. solve_decision. Defined.

(** [_rejected] (the warning it logs once is not modelled). *)
Definition rejected (n : Z) (t : Table) : Table := if n =? 0 then t else bump "tokens_rejected" n t.

Definition mark_terminal (run_id : string) (t : Table) : Table :=
  match dget run_id (runs t) with
  | Some r => set_runs (dset run_id (set_terminal_sealed true r) (runs t)) t
  | None =>
      match dget run_id (retired t) with
      | Some r => set_retired (dset run_id (set_terminal_sealed true r) (retired t)) t
      | None => t
      end
  end.

(** The zero-width terminal segment [end] records for a run. *)
Definition end_segment (p : Position) (minted scope_id : string) (i : Identity)
    (outcome : RunOutcome) (stop : option StopReason) (t : Table) : Table * list effect :=
  let r := new_run (i_run_id i) (i_id_basis i) None true in
  let '(r, t, evs) := open_segment p minted r scope_id (p_last p) (p_epoch p) (i_predecessors i)
                        (i_branch_ids i) (Some (i_id_basis i)) None t in
  let m := run_end_marker p (r_run_id r) scope_id (r_open_segment r) scope_ok (Some outcome) stop in
  let '(r, t, o) := seal_segment p true [] r t in
  (bump "end_runs" 1 (mark_terminal (i_run_id i) t), evs ++ Queued m :: request o).

(** [end]: [map_run], [minted_run] and [correlation_ok] are the identity rule. *)
Definition end_run (p : Position) (minted scope_id : string) (map_run : string → string)
    (minted_run : string) (correlation_ok : option (string → bool)) (run_id : option string)
    (outcome : RunOutcome) (tokens : list string) (stop : option StopReason) (t : Table)
    : Table * list effect * EndRunStatus :=
  if closed t then (t, [], not_capturing)
  else
    let parsed := parsed_tokens correlation_ok tokens in
    let t := rejected (Z.of_nat (length tokens) - Z.of_nat (length parsed)) t in
    if decide (parsed = []) then (t, [], refused_no_token)
    else
      let kept := filter (λ s, match parse_token s with
                               | Some k => bool_decide (k ∈ parsed) | None => false end = true)
                    tokens in
      if bool_decide (run_id = None) && (1 <? length (correlations_of parsed))%nat
      then (t, [], refused_conflicting_tokens)
      else
        let '(t, evs) := end_segment p minted scope_id
                           (resolve_identity map_run minted_run None kept run_id) outcome stop t in
        (t, evs, ended).

(** ** Fork *)

(** The loop of [before_fork] over the run ids of the forking thread's open scopes, each with
    the child segment id minted for it if one is needed. *)
Fixpoint fork_runs (p : Position) (chain : list (string * string)) (t : Table) : Table :=
  match chain with
  | (run_id, child) :: chain =>
      match dget run_id (runs t) with
      | None => fork_runs p chain t
      | Some r =>
          if din run_id (fork t) || (r_depth r <=? 0) then fork_runs p chain t
          else
            let '(r, t, o) := seal_segment p false [] r t in
            let t := set_fork (fork t) (fork_seals t ++ option_list o) t in
            match r_pending_predecessors r with
            | [] => fork_runs p chain (put_run r t)
            | preds =>
                let '(r, t) :=
                  if (length (r_pending_declared r) <? MAX_BRANCHES)%nat
                  then (set_pending_declared (r_pending_declared r ++ [child]) r, t)
                  else (r, bump "declared_branches_dropped" 1 t) in
                let t := set_fork (dset run_id (child, preds) (fork t)) (fork_seals t) t in
                fork_runs p chain (put_run r (bump "fork_branches" 1 t))
            end
      end
  | [] => t
  end.

(** [before_fork]; [acquired]: the allocator lock was taken within its second. *)
Definition before_fork (p : Position) (acquired : bool) (chain : list (string * string)) (t : Table)
    : Table :=
  let t := set_fork [] [] t in
  if closed t then t
  else if acquired then fork_runs p chain t else bump "fork_skipped" 1 t.

(** [after_fork_in_parent] *)
Definition after_fork_in_parent (t : Table) : Table * list effect :=
  (set_fork [] [] t, Requested <$> fork_seals t).

(** The loop of [after_fork_in_child] over the inherited scopes (their run ids with the fresh
    scope ids); [old] is the parent's table of runs and [plan] what the fork decided. *)
Fixpoint child_runs (p : Position) (all : list (string * string)) (old : list (string * Run))
    (plan : list (string * (string * list string))) (chain : list (string * string)) (t : Table)
    : Table * list effect :=
  match chain with
  | [] => (t, [])
  | (run_id, scope_id) :: chain =>
      match dget run_id (runs t), dget run_id old with
      | Some r, _ =>
          let e := match r_open_segment r with
                   | Some s => [Queued (run_start_marker p r scope_id (-1) (p_epoch p) s
                                          [] [] [] None None t)]
                   | None => []
                   end in
          let '(t, evs) := child_runs p all old plan chain t in (t, e ++ evs)
      | None, None => child_runs p all old plan chain t
      | None, Some r =>
          let n := length (filter (λ s, s.1 = run_id) all) in
          let r := set_block_scope (Some scope_id) (set_pending [] []
                     (set_pending_declared [] (set_closed_segment None (r_open_scope r)
                        (set_depth (Z.of_nat n) r)))) in
          match dget run_id plan with
          | None => child_runs p all old plan chain (put_run r t)
          | Some (child, preds) =>
              let r := set_fork_child true r in
              let m := run_start_marker p r scope_id (-1) (p_epoch p) child preds [] [] None None t in
              let r := set_open (Some child) (p_epoch p) (-1) (Some scope_id) r in
              let t := set_segment_runs (dset child run_id (segment_runs t)) (put_run r t) in
              let '(t, evs) := child_runs p all old plan chain t in (t, Queued m :: evs)
          end
      end
  end.

(** [after_fork_in_child] *)
Definition after_fork_in_child (p : Position) (chain : list (string * string)) (t : Table)
    : Table * list effect :=
  let plan := fork t in
  let t := set_fork [] [] t in
  if closed t then (t, [])
  else child_runs p chain (runs t) plan chain
         (set_segment_runs [] (set_retired [] (set_runs [] t))).
