(* ===== verification/SegmentRuns.v ===== *)
(** * The life of a segment

    The run table of [Segments] over whole executions: every operation as a step, with the
    allocator's position and the log of what was allocated, queued and requested. A segment
    follows one protocol: its opening [run_start], the positions and markers of one run and
    one epoch, and one [segment_seal] request that covers them all and after which nothing
    names it again. *)

From S2P Require Import Prelude PyDict Hash Decimal Ids Tokens Markers Segments.

(** ** Executions *)

Inductive event :=
  | EvEpoch (drawn : Z)
  | EvMinted (id : string)
  | EvAllocated (segment run_id : string) (epoch sequence : Z)
  | EvQueued (m : Marker)
  | EvRequested (o : SealOrder).

Definition ev (e : effect) : event :=
  match e with Queued m => EvQueued m | Requested o => EvRequested o end.

Record Sys := mk_sys { pos : Position; table : Table }.

(** The operations, with the identifiers each mints. A chain lists the open scopes of the
    forking thread: their run ids with the ids minted for them. *)
Inductive op :=
  | Epoch (drawn : Z)
  | Manifest (ref : option ManifestRef)
  | Allocate (minted : string) (scope : option (string * string))
  | Forced (segment : string)
  | Enter (minted : string) (plan : RunPlan) (scope_id : string)
  | Exit (minted run_id scope_id : string) (status : ScopeStatus)
  | Final (minted : string → string)
  | Issue (minted run_id scope_id : string) (branch_ids : list string)
  | SetOutcome (emitted : option string) (outcome : RunOutcome) (stop : option StopReason)
  | EndRun (minted scope_id : string) (map_run : string → string) (minted_run : string)
      (correlation_ok : option (string → bool)) (run_id : option string) (outcome : RunOutcome)
      (tokens : list string) (stop : option StopReason)
  | BeforeFork (acquired : bool) (chain : list (string * string))
  | AfterForkInParent
  | AfterForkInChild (drawn : Z) (chain : list (string * string)).

(** The segment ids an operation mints. *)
Definition minted_by (o : op) (t : Table) : list string :=
  match o with
  | Allocate m _ | Enter m _ _ | Exit m _ _ _ | Issue m _ _ _ | EndRun m _ _ _ _ _ _ _ _ => [m]
  | Final minted => minted <$> (runs t).*1
  | BeforeFork _ chain => chain.*2
  | _ => []
  end.

Definition drawn_by (o : op) : list Z :=
  match o with Epoch e | AfterForkInChild e _ => [e] | _ => [] end.

(** A new epoch starts before its first position. *)
Definition new_epoch (drawn : Z) (p : Position) : Position := mk_position (p_source p) drawn (-1).

Definition set_manifest (ref : option ManifestRef) (t : Table) : Table :=
  mk_table (runs t) (retired t) (segment_runs t) (closed t) ref (fork t) (fork_seals t) (stats t).

Definition exec_op (o : op) (s : Sys) : Sys * list event :=
  let p := pos s in
  let t := table s in
  let done (x : Table * list effect) : Sys * list event := (mk_sys p x.1, ev <$> x.2) in
  match o with
  | Epoch e => (mk_sys (new_epoch e p) t, [])
  | Manifest ref => (mk_sys p (set_manifest ref t), [])
  | Allocate minted scope =>
      let p := mk_position (p_source p) (p_epoch p) (p_last p + 1) in
      let '(t, effects, segment) := on_allocate p minted scope t in
      (mk_sys p t, (ev <$> effects) ++
         match segment, scope with
         | Some s, Some (run_id, _) => [EvAllocated s run_id (p_epoch p) (p_last p)]
         | _, _ => []
         end)
  | Forced segment => done (on_forced p segment t)
  | Enter minted plan scope_id => done (enter p minted plan scope_id t)
  | Exit minted run_id scope_id status => done (exit p minted run_id scope_id status t)
  | Final minted => done (on_final p minted t)
  | Issue minted run_id scope_id branch_ids =>
      match issue p minted run_id scope_id branch_ids t with
      | Ok (t, effects, _) => done (t, effects)
      | Raise _ => (s, [])
      end
  | SetOutcome emitted outcome stop => done ((set_outcome emitted outcome stop t).1, [])
  | EndRun minted scope_id map_run minted_run ok run_id outcome tokens stop =>
      done (end_run p minted scope_id map_run minted_run ok run_id outcome tokens stop t).1
  | BeforeFork acquired chain => done (before_fork p acquired chain t, [])
  | AfterForkInParent => done (after_fork_in_parent t)
  | AfterForkInChild e chain =>
      let p := new_epoch e p in
      let '(t, effects) := after_fork_in_child p chain t in (mk_sys p t, ev <$> effects)
  end.

(** The identifiers and epochs drawn so far. *)
Definition ids (log : list event) : list string :=
  omap (λ e, match e with EvMinted s => Some s | _ => None end) log.
Definition epochs (log : list event) : list Z :=
  omap (λ e, match e with EvEpoch z => Some z | _ => None end) log.

(** What a plan of [prepare] guarantees. *)
Definition plan_ok (plan : RunPlan) : bool :=
  (length (pl_links plan) <=? MAX_RUN_LINKS)%nat &&
  forallb BRANCH_ID_RE (i_branch_ids (pl_identity plan)).

(** Minted ids and drawn epochs are fresh; a minted id is [seg-] and 32 hex digits. *)
Definition legal (s : Sys) (log : list event) (o : op) : Prop :=
  NoDup (minted_by o (table s)) ∧
  Forall (λ i, SEGMENT_ID_RE i = true ∧ i ∉ ids log) (minted_by o (table s)) ∧
  Forall (λ e, e ∉ epochs log) (drawn_by o) ∧
  match o with Enter _ plan _ => plan_ok plan = true | _ => True end.

(** What an operation draws is logged before what it does. *)
Definition draws (o : op) (t : Table) : list event :=
  (EvMinted <$> minted_by o t) ++ (EvEpoch <$> drawn_by o).

Definition initial (source : string) (e : Z) : Sys :=
  mk_sys (mk_position source e (-1)) empty_table.

Inductive reach (source : string) (e : Z) : Sys → list event → Prop :=
  | reach_init : reach source e (initial source e) [EvEpoch e]
  | reach_step s log o s' evs :
      reach source e s log → legal s log o → exec_op o s = (s', evs) →
      reach source e s' (log ++ draws o (table s) ++ evs).

(** ** The protocol of one segment *)

Inductive Phase :=
  | Fresh
  | Opened (run_id : string) (epoch last : Z)
  | Sealed
  | Violated.

#[export] Instance Phase_eq_dec : EqDecision Phase.
Proof. solve_decision. Defined.

(** One event, seen by segment [s]. *)
Definition seg_step (s : string) (ph : Phase) (e : event) : Phase :=
  match e with
  | EvQueued m =>
      if negb (bool_decide (m_segment_id m = Some s)) then ph
      else match m_kind m, ph with
      | run_start, Fresh =>
          match m_predecessors m, m_run_id m with
          | _ :: _, Some run_id => Opened run_id (m_epoch m) (m_last_sequence m)
          | _, _ => Violated
          end
      | run_start, Opened run_id epoch _ =>
          if bool_decide (m_predecessors m = []) && bool_decide (m_run_id m = Some run_id)
             && (m_epoch m =? epoch) then ph else Violated
      | run_end, Opened run_id _ _ =>
          if bool_decide (m_run_id m = Some run_id) then ph else Violated
      | _, _ => Violated
      end
  | EvAllocated s' run_id' epoch' n =>
      if negb (bool_decide (s' = s)) then ph
      else match ph with
      | Opened run_id epoch last =>
          if bool_decide (run_id' = run_id) && (epoch' =? epoch) && (last <? n)
          then Opened run_id epoch n else Violated
      | _ => Violated
      end
  | EvRequested o =>
      if negb (bool_decide (o_segment_id o = s)) then ph
      else match ph with
      | Opened run_id epoch last =>
          if bool_decide (o_run_id o = run_id) && (o_epoch o =? epoch) && (last <=? o_last_sequence o)
          then Sealed else Violated
      | _ => Violated
      end
  | _ => ph
  end.

Definition phase (s : string) (log : list event) : Phase := foldl (seg_step s) Fresh log.

Lemma phase_app s log evs : phase s (log ++ evs) = foldl (seg_step s) (phase s log) evs.
Proof. apply foldl_app. Qed.

Lemma phase_snoc s log e : phase s (log ++ [e]) = seg_step s (phase s log) e.
Proof. apply phase_app. Qed.

(** A violation is never repaired. *)
Lemma seg_step_violated s e : seg_step s Violated e = Violated.
Proof. destruct e; simpl; repeat case_match; done. Qed.

Lemma phase_violated s evs : foldl (seg_step s) Violated evs = Violated.
Proof. induction evs as [|e evs IH]; simpl; [done|]. by rewrite seg_step_violated. Qed.

Lemma log_ids_app l k : ids (l ++ k) = ids l ++ ids k.
Proof. apply omap_app. Qed.
Lemma log_epochs_app l k : epochs (l ++ k) = epochs l ++ epochs k.
Proof. apply omap_app. Qed.

(** ** The invariant *)

(** What the table knows of a live run, against the protocol phase of its segment. *)
Record run_inv (p : Position) (sr : list (string * string)) (log : list event) (k : string)
    (r : Run) : Prop := {
  ri_key : r_run_id r = k;
  ri_correlation : r_correlation_id r = r_run_id r;
  ri_declared : Forall (λ i, SEGMENT_ID_RE i = true) (r_pending_declared r);
  ri_branches : Forall (λ i, BRANCH_ID_RE i = true) (r_pending_branch_ids r);
  ri_open : ∀ s, r_open_segment r = Some s →
    SEGMENT_ID_RE s = true ∧ dget s sr = Some k ∧ r_open_epoch r ∈ epochs log ∧
    (r_open_epoch r = p_epoch p → r_open_last r ≤ p_last p) ∧
    ∃ last, phase s log = Opened k (r_open_epoch r) last ∧ last ≤ r_open_last r;
}.

(** The invariant, with the seals decided but not requested yet. *)
Record J (p : Position) (rs rt : list (string * Run)) (sr : list (string * string))
    (fk : list (string * (string * list string))) (pend : list SealOrder) (log : list event)
    : Prop := {
  j_nodup : NoDup rs.*1;
  j_runs : ∀ k r, dget k rs = Some r → run_inv p sr log k r;
  j_retired : ∀ k r, dget k rt = Some r → r_open_segment r = None ∧ run_inv p sr log k r;
  j_segments : ∀ s k, dget s sr = Some k → ∃ r, dget k rs = Some r ∧ r_open_segment r = Some s;
  j_pend : ∀ o, o ∈ pend → dget (o_segment_id o) sr = None ∧
    ∃ last, phase (o_segment_id o) log = Opened (o_run_id o) (o_epoch o) last ∧
            last ≤ o_last_sequence o;
  j_pend_nodup : NoDup (o_segment_id <$> pend);
  j_fork : ∀ k c, dget k fk = Some c → c.2 ≠ [] ∧ c.1 ∈ ids log ∧ phase c.1 log = Fresh ∧
    SEGMENT_ID_RE c.1 = true;
  j_children : ∀ k k' c c', dget k fk = Some c → dget k' fk = Some c' → c.1 = c'.1 → k = k';
  j_epoch : p_epoch p ∈ epochs log;
  j_ids : ∀ s, phase s log ≠ Fresh → s ∈ ids log;
  j_ok : ∀ s, phase s log ≠ Violated;
  j_markers : ∀ m, EvQueued m ∈ log → marker_ok m = true;
  j_retired_nodup : NoDup rt.*1;
  j_retired_bound : (length rt ≤ MAX_RETIRED_RUNS)%nat;
}.

Lemma run_inv_same p sr log k r r' :
  run_inv p sr log k r → r_run_id r' = r_run_id r → r_correlation_id r' = r_correlation_id r →
  Forall (λ i, SEGMENT_ID_RE i = true) (r_pending_declared r') →
  r_pending_branch_ids r' = r_pending_branch_ids r →
  (r_open_segment r' = None ∨
   r_open_segment r' = r_open_segment r ∧ r_open_epoch r' = r_open_epoch r ∧
   r_open_last r' = r_open_last r) →
  run_inv p sr log k r'.
Proof.
  intros [H1 Hc H2 H3 H4] E1 Ec E2 E3 E4. split; [congruence|congruence|congruence|congruence|].
  destruct E4 as [->|(-> & -> & ->)]; [done|]. exact H4.
Qed.

(** A run replaced by one the invariant holds of. *)
Lemma J_put p rs rt sr fk pend log r :
  J p rs rt sr fk pend log → run_inv p sr log (r_run_id r) r →
  (∀ s, dget s sr = Some (r_run_id r) → r_open_segment r = Some s) →
  J p (dset (r_run_id r) r rs) rt sr fk pend log.
Proof.
  intros [] Hr Hs. split; try done.
  - by apply NoDup_dset.
  - intros k r' H. rewrite dget_dset in H. case_decide; [by simplify_eq|auto].
  - intros s k H. rewrite dget_dset. case_decide; subst; eauto.
Qed.

(** The run table's bookkeeping fields are free. *)
Lemma J_same p rs rt sr fk pend log r r' :
  J p (dset (r_run_id r) r rs) rt sr fk pend log → r_run_id r' = r_run_id r → r_correlation_id r' = r_correlation_id r →
  Forall (λ i, SEGMENT_ID_RE i = true) (r_pending_declared r') →
  r_pending_branch_ids r' = r_pending_branch_ids r → r_open_segment r' = r_open_segment r →
  r_open_epoch r' = r_open_epoch r → r_open_last r' = r_open_last r →
  J p (dset (r_run_id r') r' rs) rt sr fk pend log.
Proof.
  intros HJ E1 Ec E2 E3 E4 E5 E6. rewrite E1, <-(dset_dset _ r' r rs), <-E1.
  pose proof (j_runs _ _ _ _ _ _ _ HJ (r_run_id r) r (dget_dset_eq _ _ _)) as Hr.
  apply J_put; [by rewrite E1| |].
  - rewrite E1. eapply run_inv_same; [exact Hr|done..|]. by right.
  - intros s Hs. rewrite E1 in Hs.
    destruct (j_segments _ _ _ _ _ _ _ HJ s _ Hs) as (r0 & H0 & ?).
    rewrite dget_dset_eq in H0. simplify_eq. congruence.
Qed.

(** Only the position moves on. *)
Lemma J_advance p p' rs rt sr fk pend log :
  J p rs rt sr fk pend log → p_epoch p' ∈ epochs log →
  (p_epoch p' = p_epoch p → p_last p ≤ p_last p') →
  (p_epoch p' = p_epoch p ∨ ∀ k r, dget k rs = Some r → r_open_segment r = None ∨ r_open_epoch r ≠ p_epoch p') →
  J p' rs rt sr fk pend log.
Proof.
  intros [] He Hl Hn. split; try done.
  - intros k r Hk. destruct (j_runs0 k r Hk) as [? ? ? ? Ho]. split; [done..|].
    intros s Hs. destruct (Ho s Hs) as (? & ? & ? & Hb & ?). split_and!; [done..| |done].
    intros E. destruct Hn as [Hn|Hn]; [|destruct (Hn k r Hk); congruence].
    specialize (Hl Hn). rewrite Hn in E. specialize (Hb E). lia.
  - intros k r Hk. destruct (j_retired0 k r Hk) as [Ho [? ? ? ? _]].
    split; [done|]. split; [done..|]. intros s Hs. congruence.
Qed.

(** An event about no segment of the table, or one its phase allows. *)
Lemma J_log p rs rt sr fk pend log e :
  J p rs rt sr fk pend log →
  (∀ s, phase s (log ++ [e]) = phase s log) →
  (∀ m, e = EvQueued m → marker_ok m = true) →
  J p rs rt sr fk pend (log ++ [e]).
Proof.
  intros [] Hp Hm. split; try done.
  - intros k r Hk. destruct (j_runs0 k r Hk) as [? ? ? ? Ho]. split; [done..|].
    intros s Hs. rewrite Hp, log_epochs_app, elem_of_app. destruct (Ho s Hs) as (? & ? & ? & ?).
    split_and!; tauto.
  - intros k r Hk. destruct (j_retired0 k r Hk) as [Ho [? ? ? ? _]].
    split; [done|]. split; [done..|]. intros s Hs. congruence.
  - intros o Ho. rewrite Hp. auto.
  - intros k c Hc. rewrite Hp, log_ids_app, elem_of_app. destruct (j_fork0 k c Hc) as (? & ? & ? & ?).
    split_and!; tauto.
  - rewrite log_epochs_app, elem_of_app. tauto.
  - intros s. rewrite Hp, log_ids_app, elem_of_app. auto.
  - intros s. by rewrite Hp.
  - intros m [?|Hl]%elem_of_app; [auto|]. apply list_elem_of_singleton in Hl. auto.
Qed.

Lemma J_draw p rs rt sr fk pend log evs :
  J p rs rt sr fk pend log →
  (∀ e, e ∈ evs → (∃ i, e = EvMinted i) ∨ ∃ z, e = EvEpoch z) →
  J p rs rt sr fk pend (log ++ evs).
Proof.
  induction evs as [|e evs IH] using rev_ind; intros HJ He; [by rewrite app_nil_r|].
  rewrite (assoc_L (++)). apply J_log.
  - apply IH; [done|]. intros e' ?. apply He. set_solver.
  - intros s. rewrite phase_snoc. by destruct (He e) as [[? ->]|[? ->]]; [set_solver|..].
  - intros m ->. destruct (He (EvQueued m)) as [[]|[]]; [set_solver|done..].
Qed.

(** ** Markers are placed as the rules require *)

Definition root_ok (root : option RunPlan) : bool :=
  match root with Some plan => (length (pl_links plan) <=? MAX_RUN_LINKS)%nat | None => true end.

Lemma all_ids_take re l : Forall (λ i, re i = true) l → all_ids re (take MAX_BRANCHES l) = true.
Proof.
  intros Hl. apply andb_true_iff. split.
  - apply Nat.leb_le. rewrite length_take. lia.
  - apply forallb_elem_of. intros x Hx. rewrite Forall_forall in Hl. apply Hl.
    rewrite <-(take_drop MAX_BRANCHES l). apply elem_of_app. by left.
Qed.

Lemma all_ids_short re l :
  all_ids re l = true ↔ (length l ≤ MAX_BRANCHES)%nat ∧ Forall (λ i, re i = true) l.
Proof.
  unfold all_ids. rewrite andb_true_iff, Nat.leb_le, forallb_elem_of, Forall_forall. done.
Qed.

Lemma start_marker_ok p r scope_id last epoch s preds branches declared basis root t :
  SEGMENT_ID_RE s = true → all_ids BRANCH_ID_RE branches = true →
  all_ids SEGMENT_ID_RE declared = true → root_ok root = true →
  marker_ok (run_start_marker p r scope_id last epoch s preds branches declared basis root t) = true.
Proof.
  intros Hs Hb Hd Hr. unfold marker_ok, is_root_start, run_start_marker. cbn -[all_ids length].
  rewrite Hs, Hb, Hd. destruct (decide (preds = ROOT)) as [->|Hp].
  - destruct root as [plan|]; simpl in *; [|done]. by rewrite Hr.
  - rewrite (bool_decide_false _ Hp). done.
Qed.

Lemma end_marker_ok p run_id scope_id segment status outcome stop :
  (∀ s, segment = Some s → SEGMENT_ID_RE s = true) →
  marker_ok (run_end_marker p run_id scope_id segment status outcome stop) = true.
Proof.
  intros Hs. unfold marker_ok, run_end_marker. cbn -[all_ids]. destruct segment; simpl; [|done].
  by rewrite Hs.
Qed.

(** ** Opening, sealing, requesting *)

(** An id minted now: nothing has used it. *)
Definition usable (s : string) (fk : list (string * (string * list string))) (log : list event) : Prop :=
  SEGMENT_ID_RE s = true ∧ s ∈ ids log ∧ phase s log = Fresh ∧ ∀ k c, dget k fk = Some c → c.1 ≠ s.

Lemma usable_unknown p rs rt sr fk pend log s :
  J p rs rt sr fk pend log → phase s log = Fresh →
  dget s sr = None ∧ s ∉ o_segment_id <$> pend.
Proof.
  intros [] Hf. split.
  - destruct (dget s sr) as [k|] eqn:Hs; [|done].
    destruct (j_segments0 _ _ Hs) as (r & Hr & Ho).
    destruct (ri_open _ _ _ _ _ (j_runs0 _ _ Hr) _ Ho) as (_ & _ & _ & _ & l & Hl & _).
    congruence.
  - intros (o & -> & Ho)%list_elem_of_fmap. destruct (j_pend0 _ Ho) as (_ & l & Hl & _).
    congruence.
Qed.

Lemma phase_queued s log m :
  phase s (log ++ [EvQueued m]) = seg_step s (phase s log) (EvQueued m).
Proof. apply phase_snoc. Qed.

(** A marker of a block inside the run's open segment. *)
Lemma J_inside p rs rt sr fk pend log r m :
  J p rs rt sr fk pend log → dget (r_run_id r) rs = Some r →
  m_segment_id m = r_open_segment r → m_run_id m = Some (r_run_id r) → marker_ok m = true →
  (m_kind m = run_end ∨ m_kind m = run_start ∧ m_predecessors m = [] ∧ m_epoch m = r_open_epoch r) →
  J p rs rt sr fk pend (log ++ [EvQueued m]).
Proof.
  intros HJ Hr Hs Hm Hok Hk. apply J_log; [done| |by intros ? [= ->]].
  intros s. rewrite phase_queued. unfold seg_step. case_bool_decide as Hms; [|done]. simpl.
  rewrite Hs in Hms.
  destruct (ri_open _ _ _ _ _ (j_runs _ _ _ _ _ _ _ HJ _ _ Hr) _ Hms) as (_ & _ & _ & _ & l & -> & _).
  destruct Hk as [->|(-> & -> & ->)].
  - by rewrite bool_decide_true.
  - by rewrite !bool_decide_true, Z.eqb_refl.
Qed.

(** [_open] *)
Lemma J_open p rs rt sr fk pend log r s m last scope basis :
  J p rs rt sr fk pend log → dget (r_run_id r) rs = Some r → r_open_segment r = None →
  usable s fk log → m_epoch m ∈ epochs log → (m_epoch m = p_epoch p → last ≤ p_last p) →
  m_kind m = run_start → m_segment_id m = Some s → m_run_id m = Some (r_run_id r) →
  m_predecessors m ≠ [] → m_last_sequence m = last → marker_ok m = true →
  J p (dset (r_run_id r) (set_pending_declared [] (set_pending [] []
         (set_open (Some s) (m_epoch m) last (Some scope) (set_open_basis basis r)))) rs)
    rt (dset s (r_run_id r) sr) fk pend (log ++ [EvQueued m]).
Proof.
  intros HJ Hr Hn (Hid & Hin & Hf & Hfk) He Hl Hk Hms Hmr Hmp Hml Hok.
  destruct (usable_unknown _ _ _ _ _ _ _ _ HJ Hf) as [Hsr Hpd].
  assert (∀ s0, phase s0 (log ++ [EvQueued m]) =
            if decide (s0 = s) then Opened (r_run_id r) (m_epoch m) last else phase s0 log) as Hph.
  { intros s0. rewrite phase_queued. unfold seg_step. rewrite Hms. case_decide as Hs0.
    - subst s0. rewrite bool_decide_true by done. simpl. rewrite Hk, Hf, Hmr.
      destruct (m_predecessors m); [done|]. congruence.
    - by rewrite bool_decide_false by congruence. }
  destruct HJ as [J1 J2 J3 J4 J5 J6 J7 J8 J9 J10 J11 J12].
  assert (∀ k r0 s0, dget k rs = Some r0 → r_open_segment r0 = Some s0 → s0 ≠ s) as Hother.
  { intros k r0 s0 Hr0 Ho ->.
    destruct (ri_open _ _ _ _ _ (J2 _ _ Hr0) _ Ho) as (_ & ? & _). congruence. }
  split.
  - by apply NoDup_dset.
  - intros k r0 H0. rewrite dget_dset in H0. case_decide as Hkr.
    + subst k. injection H0 as <-. split; [done|apply (ri_correlation _ _ _ _ _ (J2 _ _ Hr))|by constructor|by constructor|].
      intros s0 [= <-]. rewrite dget_dset_eq, log_epochs_app, elem_of_app, Hph, decide_True by done.
      split_and!; [done|done|by left|done|]. by exists last.
    + destruct (J2 _ _ H0) as [? ? ? ? Ho]. split; [done..|]. intros s0 Hs0.
      pose proof (Hother _ _ _ H0 Hs0). destruct (Ho _ Hs0) as (? & ? & ? & ? & ?).
      rewrite dget_dset_ne, log_epochs_app, elem_of_app, Hph, decide_False by done. tauto.
  - intros k r0 H0. destruct (J3 _ _ H0) as [Ho [? ? ? ? _]].
    split; [done|]. split; [done..|]. intros ?; congruence.
  - intros s0 k H0. rewrite dget_dset in H0. case_decide as Hs0.
    + injection H0 as <-. rewrite dget_dset_eq. subst. eauto.
    + destruct (J4 _ _ H0) as (r0 & Hr0 & Ho). rewrite dget_dset_ne; [eauto|].
      intros ->. congruence.
  - intros o Ho. destruct (J5 _ Ho) as (Hd & l & ? & ?).
    assert (o_segment_id o ≠ s) as Hne.
    { intros E. apply Hpd. rewrite <-E. by apply list_elem_of_fmap_2. }
    rewrite dget_dset_ne, Hph, decide_False by done. eauto.
  - done.
  - intros k c Hc. destruct (J7 _ _ Hc) as (? & ? & ? & ?).
    rewrite log_ids_app, elem_of_app, Hph, decide_False by eauto. tauto.
  - done.
  - rewrite log_epochs_app, elem_of_app. by left.
  - intros s0. rewrite log_ids_app, elem_of_app, Hph. case_decide; [subst; by left|auto].
  - intros s0. rewrite Hph. by case_decide.
  - intros m0 [?|Hm]%elem_of_app; [auto|]. apply list_elem_of_singleton in Hm. congruence.
  - done.
  - done.
Qed.

(** [_seal] *)
Lemma J_seal p rs rt sr fk pend log r s r' o :
  J p rs rt sr fk pend log → dget (r_run_id r) rs = Some r → r_open_segment r = Some s →
  r_run_id r' = r_run_id r → r_correlation_id r' = r_correlation_id r → r_open_segment r' = None →
  r_pending_declared r' = r_pending_declared r → r_pending_branch_ids r' = r_pending_branch_ids r →
  o_segment_id o = s → o_run_id o = r_run_id r → o_epoch o = r_open_epoch r →
  r_open_last r ≤ o_last_sequence o →
  J p (dset (r_run_id r) r' rs) rt (ddel s sr) fk (pend ++ [o]) log.
Proof.
  intros [J1 J2 J3 J4 J5 J6 J7 J8 J9 J10 J11 J12] Hr Hs E1 Ec E2 E3 E4 Eo1 Eo2 Eo3 Hlast.
  destruct (ri_open _ _ _ _ _ (J2 _ _ Hr) _ Hs) as (Hx1 & Hsr & Hx2 & Hx3 & l & Hl & Hx4).
  assert (s ∉ o_segment_id <$> pend) as Hnp.
  { intros (o' & -> & Ho')%list_elem_of_fmap. destruct (J5 _ Ho') as [? _]. congruence. }
  split; try done.
  - by apply NoDup_dset.
  - intros k r0 H0. rewrite dget_dset in H0. case_decide as Hkr.
    + subst k. injection H0 as <-. destruct (J2 _ _ Hr) as [? ? ? ? _].
      split; [done|congruence|congruence|congruence|]. intros ?; congruence.
    + destruct (J2 _ _ H0) as [? ? ? ? Ho]. split; [done..|]. intros s0 Hs0.
      destruct (Ho _ Hs0) as (? & Hd & ? & ? & ?).
      rewrite dget_ddel, decide_False by (intros ->; congruence). tauto.
  - intros k r0 H0. destruct (J3 _ _ H0) as [Ho [? ? ? ? _]].
    split; [done|]. split; [done..|]. intros ?; congruence.
  - intros s0 k H0. rewrite dget_ddel in H0. case_decide as Hs0; [done|].
    destruct (J4 _ _ H0) as (r0 & Hr0 & Ho). rewrite dget_dset_ne; [eauto|].
    intros ->. congruence.
  - intros o' [Ho|Ho]%elem_of_app.
    + destruct (J5 _ Ho) as [Hd ?]. split; [|done]. rewrite dget_ddel. by case_decide.
    + apply list_elem_of_singleton in Ho as ->. rewrite Eo1, dget_ddel, decide_True by done.
      split; [done|]. exists l. rewrite Eo2, Eo3. split; [done|lia].
  - rewrite fmap_app. apply NoDup_app. split_and!; [done| |apply NoDup_singleton].
    intros x Hx Hxo. csimpl in Hxo. apply list_elem_of_singleton in Hxo. congruence.
Qed.

(** [_request] *)
Lemma J_request p rs rt sr fk pend1 pend2 log o :
  J p rs rt sr fk (pend1 ++ o :: pend2) log →
  J p rs rt sr fk (pend1 ++ pend2) (log ++ [EvRequested o]).
Proof.
  intros [J1 J2 J3 J4 J5 J6 J7 J8 J9 J10 J11 J12].
  destruct (J5 o) as (Hd & l & Hl & Hlast); [set_solver|].
  assert (∀ s0, phase s0 (log ++ [EvRequested o]) =
            if decide (s0 = o_segment_id o) then Sealed else phase s0 log) as Hph.
  { intros s0. rewrite phase_snoc. unfold seg_step. case_decide as Hs0.
    - subst s0. rewrite bool_decide_true by done. simpl. rewrite Hl.
      rewrite bool_decide_true, Z.eqb_refl by done. simpl.
      by rewrite (proj2 (Z.leb_le _ _) Hlast).
    - by rewrite bool_decide_false by congruence. }
  split; try done.
  - intros k r0 H0. destruct (J2 _ _ H0) as [? ? ? ? Ho]. split; [done..|]. intros s0 Hs0.
    destruct (Ho _ Hs0) as (? & Hd0 & ? & ? & ?).
    rewrite log_epochs_app, elem_of_app, Hph, decide_False by congruence. tauto.
  - intros k r0 H0. destruct (J3 _ _ H0) as [Ho [? ? ? ? _]].
    split; [done|]. split; [done..|]. intros ?; congruence.
  - intros o' Ho'. rewrite fmap_app, fmap_cons, NoDup_app, NoDup_cons in J6.
    destruct J6 as (? & J6 & J6' & ?). destruct (J5 o') as (? & ?); [set_solver|].
    rewrite Hph, decide_False; [done|]. intros E.
    apply elem_of_app in Ho' as [Ho'|Ho']; apply (list_elem_of_fmap_2 o_segment_id) in Ho'.
    + apply (J6 _ Ho'). rewrite E. set_solver.
    + apply J6'. by rewrite <-E.
  - rewrite fmap_app, fmap_cons, NoDup_app, NoDup_cons in J6. rewrite fmap_app, NoDup_app. set_solver.
  - intros k c Hc. destruct (J7 _ _ Hc) as (? & ? & ? & ?).
    rewrite log_ids_app, elem_of_app, Hph, decide_False by congruence. tauto.
  - rewrite log_epochs_app, elem_of_app. by left.
  - intros s0. rewrite log_ids_app, elem_of_app, Hph. case_decide; [|auto].
    subst. intros _. left. apply J10. congruence.
  - intros s0. rewrite Hph. by case_decide.
  - intros m0 [?|Hm]%elem_of_app; [auto|]. apply list_elem_of_singleton in Hm. congruence.
Qed.

(** A position allocated in the open segment. *)
Lemma J_allocate p rs rt sr fk pend log r s :
  J p rs rt sr fk pend log → dget (r_run_id r) rs = Some r → r_open_segment r = Some s →
  r_open_epoch r = p_epoch p → r_open_last r < p_last p →
  J p (dset (r_run_id r) (set_open_last (p_last p) r) rs) rt sr fk pend
    (log ++ [EvAllocated s (r_run_id r) (p_epoch p) (p_last p)]).
Proof.
  intros [J1 J2 J3 J4 J5 J6 J7 J8 J9 J10 J11 J12] Hr Hs He Hlast.
  destruct (ri_open _ _ _ _ _ (J2 _ _ Hr) _ Hs) as (Hx1 & Hsr & Hx2 & Hx3 & l & Hl & Hx4).
  set (e := EvAllocated _ _ _ _).
  assert (∀ s0, phase s0 (log ++ [e]) =
            if decide (s0 = s) then Opened (r_run_id r) (p_epoch p) (p_last p) else phase s0 log) as Hph.
  { intros s0. rewrite phase_snoc. unfold seg_step, e. case_decide as Hs0.
    - subst s0. rewrite bool_decide_true by done. simpl. rewrite Hl, He.
      rewrite bool_decide_true, Z.eqb_refl by done. simpl.
      by rewrite (proj2 (Z.ltb_lt _ _)) by lia.
    - by rewrite bool_decide_false by congruence. }
  split; try done.
  - by apply NoDup_dset.
  - intros k r0 H0. rewrite dget_dset in H0. case_decide as Hkr.
    + subst k. injection H0 as <-. destruct (J2 _ _ Hr) as [? ? ? ? _].
      split; [done..|]. simpl. intros s0 Hs0. assert (s0 = s) as -> by congruence.
      rewrite log_epochs_app, elem_of_app, Hph, decide_True, He by done.
      split_and!; [done..|left; congruence|lia|]. by exists (p_last p).
    + destruct (J2 _ _ H0) as [? ? ? ? Ho]. split; [done..|]. intros s0 Hs0.
      destruct (Ho _ Hs0) as (? & Hd & ? & ? & ?).
      rewrite log_epochs_app, elem_of_app, Hph, decide_False by (intros ->; congruence). tauto.
  - intros k r0 H0. destruct (J3 _ _ H0) as [Ho [? ? ? ? _]].
    split; [done|]. split; [done..|]. intros ?; congruence.
  - intros s0 k H0. destruct (J4 _ _ H0) as (r0 & Hr0 & Ho). rewrite dget_dset.
    case_decide; [|eauto]. eexists. split; [done|]. simpl. congruence.
  - intros o Ho. destruct (J5 _ Ho) as (Hd & ?). rewrite Hph, decide_False by congruence. done.
  - intros k c Hc. destruct (J7 _ _ Hc) as (? & ? & ? & ?).
    rewrite log_ids_app, elem_of_app, Hph, decide_False by congruence. tauto.
  - rewrite log_epochs_app, elem_of_app. by left.
  - intros s0. rewrite log_ids_app, elem_of_app, Hph. case_decide; [|auto].
    subst. intros _. left. apply J10. congruence.
  - intros s0. rewrite Hph. by case_decide.
  - intros m0 [?|Hm]%elem_of_app; [auto|]. by apply list_elem_of_singleton in Hm.
Qed.

(** ** The table's own steps *)

(** The invariant of a table, and of a table with the run being worked on put back. *)
Definition JW (p : Position) (t : Table) (pend : list SealOrder) (log : list event) : Prop :=
  J p (runs t) (retired t) (segment_runs t) (fork t) pend log.
Definition JT (p : Position) (r : Run) (t : Table) (pend : list SealOrder) (log : list event) : Prop :=
  JW p (put_run r t) pend log.

(** What a step on one run leaves alone. *)
Record same_frame (t t' : Table) : Prop := {
  sf_runs : runs t' = runs t;
  sf_retired : retired t' = retired t;
  sf_fork : fork t' = fork t;
  sf_fork_seals : fork_seals t' = fork_seals t;
  sf_closed : closed t' = closed t;
}.

Lemma or_list_ne {A} (a b : list A) : b ≠ [] → or_list a b ≠ [].
Proof. by destruct a. Qed.

Lemma take_ne {A} n (l : list A) : l ≠ [] → take (S n) l ≠ [].
Proof. by destruct l. Qed.

Lemma open_JT p q s r scope last epoch preds branches basis root t pend log r' t' evs :
  JT p r t pend log → r_open_segment r = None → usable s (fork t) log →
  epoch ∈ epochs log → (epoch = p_epoch p → last ≤ p_last p) →
  Forall (λ i, BRANCH_ID_RE i = true) branches → root_ok root = true →
  open_segment q s r scope last epoch preds branches basis root t = (r', t', evs) →
  JT p r' t' pend (log ++ (ev <$> evs)) ∧ same_frame t t' ∧
  r_run_id r' = r_run_id r ∧ r_open_segment r' = Some s ∧ r_open_epoch r' = epoch ∧
  r_open_last r' = last ∧ r_pending_declared r' = [] ∧ r_depth r' = r_depth r.
Proof.
  intros HJ Hn Hu He Hl Hb Hr. unfold open_segment. cbn zeta.
  set (preds0 := or_list preds _). set (t0 := if (_ <? _)%nat then _ else t).
  assert (same_frame t t0 ∧ segment_runs t0 = segment_runs t) as [Hf0 Hs0]
    by (unfold t0; by case_match).
  intros [= <- <- <-].
  assert (run_inv p (segment_runs t) log (r_run_id r) r) as Hri.
  { apply (j_runs _ _ _ _ _ _ _ HJ). apply dget_dset_eq. }
  split; [|split_and!; [destruct Hf0; by split|done..]].
  unfold JT, JW in *. cbn. set (m := run_start_marker _ _ _ _ _ _ _ _ _ _ _ _).
  rewrite (sf_runs _ _ Hf0), (sf_retired _ _ Hf0), (sf_fork _ _ Hf0), Hs0.
  rewrite <-(dset_dset _ _ r (runs t)).
  apply (J_open p _ _ _ _ _ _ r s m last scope
           (Some (or_basis basis (or_basis (r_open_basis r) (r_id_basis r)))) HJ); try done.
  - apply dget_dset_eq.
  - unfold m. simpl. apply take_ne. unfold preds0. repeat apply or_list_ne. done.
  - apply start_marker_ok; [by destruct Hu|apply all_ids_take|apply all_ids_take|done].
    + destruct branches; [apply (ri_branches _ _ _ _ _ Hri)|done].
    + apply (ri_declared _ _ _ _ _ Hri).
Qed.

Lemma seal_JT p q terminal branches r t pend log r' t' o :
  JT p r t pend log → seal_segment q terminal branches r t = (r', t', o) →
  JT p r' t' (pend ++ option_list o) log ∧ same_frame t t' ∧
  r_run_id r' = r_run_id r ∧ r_open_segment r' = None ∧
  r_pending_declared r' = r_pending_declared r ∧ r_depth r' = r_depth r.
Proof.
  intros HJ. unfold seal_segment. destruct (r_open_segment r) as [s|] eqn:Hs; intros [= <- <- <-].
  - split; [|done]. unfold JT, JW in *. cbn.
    rewrite <-(dset_dset _ _ r (runs t)). eapply J_seal; try done; [apply dget_dset_eq|].
    simpl. lia.
  - cbn. rewrite app_nil_r. done.
Qed.

Lemma request_JW p t pend log o :
  JW p t (pend ++ option_list o) log →
  JW p t pend (log ++ (ev <$> request o)) ∧
  (∀ s fk, usable s fk log → usable s fk (log ++ (ev <$> request o))) ∧
  ids (log ++ (ev <$> request o)) = ids log ∧ epochs (log ++ (ev <$> request o)) = epochs log.
Proof.
  destruct o as [o|]; cbn; [|rewrite !app_nil_r; auto]. intros HJ. split_and!.
  - pose proof (J_request _ _ _ _ _ _ _ _ _ HJ) as H. by rewrite app_nil_r in H.
  - intros s fk (? & ? & Hf & ?). split_and!; [done| | |done].
    + rewrite log_ids_app, elem_of_app. by left.
    + rewrite phase_snoc. unfold seg_step. case_bool_decide; [|done]. subst s.
      destruct (j_pend _ _ _ _ _ _ _ HJ o) as (_ & l & Hl & _); [set_solver|]. congruence.
  - rewrite log_ids_app. cbn. by rewrite app_nil_r.
  - rewrite log_epochs_app. cbn. by rewrite app_nil_r.
Qed.

Lemma put_JW p t pend log k r :
  JW p t pend log → dget k (runs t) = Some r → JT p r t pend log ∧ r_run_id r = k.
Proof.
  intros HJ Hr. pose proof (ri_key _ _ _ _ _ (j_runs _ _ _ _ _ _ _ HJ _ _ Hr)) as <-.
  split; [|done]. unfold JT, JW. cbn. by rewrite dset_get.
Qed.

Lemma same_JT p r r' t pend log :
  JT p r t pend log → r_run_id r' = r_run_id r → r_correlation_id r' = r_correlation_id r →
  r_pending_declared r' = r_pending_declared r →
  r_pending_branch_ids r' = r_pending_branch_ids r → r_open_segment r' = r_open_segment r →
  r_open_epoch r' = r_open_epoch r → r_open_last r' = r_open_last r → JT p r' t pend log.
Proof.
  intros HJ E1 Ec E2. intros. apply (J_same _ _ _ _ _ _ _ r r' HJ); try done. rewrite E2.
  apply (ri_declared p (segment_runs t) log (r_run_id r)). apply (j_runs _ _ _ _ _ _ _ HJ).
  apply dget_dset_eq.
Qed.

Lemma seal_old_JT p q epoch r t pend log r' t' o :
  JT p r t pend log → seal_old_epoch q epoch r t = (r', t', o) →
  JT p r' t' (pend ++ option_list o) log ∧ same_frame t t' ∧
  r_run_id r' = r_run_id r ∧ (r_open_segment r' = None ∨ r_open_epoch r' = epoch) ∧
  r_depth r' = r_depth r.
Proof.
  intros HJ. unfold seal_old_epoch. destruct (_ && _) eqn:Hc.
  - intros (? & ? & ? & ? & ? & ?)%(seal_JT _ _ _ _ _ _ _ _ _ _ _ HJ). split_and!; auto.
  - intros [= <- <- <-]. cbn. rewrite app_nil_r. split_and!; try done.
    destruct (r_open_segment r); [right|by left]. simpl in Hc. to_prop. lia.
Qed.

(** A run taken back is put back. *)
Lemma JT_epoch p r t pend log : JT p r t pend log → p_epoch p ∈ epochs log.
Proof. apply j_epoch. Qed.

Lemma frame_trans t1 t2 t3 : same_frame t1 t2 → same_frame t2 t3 → same_frame t1 t3.
Proof. intros [] []. split; congruence. Qed.

Lemma ev_app (l k : list effect) : ev <$> (l ++ k) = (ev <$> l) ++ (ev <$> k).
Proof. apply fmap_app. Qed.

(** [on_allocate] *)
Lemma allocate_JW p q s scope t log t' effects seg :
  p_epoch q = p_epoch p → p_last q = p_last p + 1 →
  JW p t (fork_seals t) log → usable s (fork t) log →
  on_allocate q s scope t = (t', effects, seg) →
  JW q t' (fork_seals t') (log ++ (ev <$> effects) ++
    match seg, scope with
    | Some s, Some (run_id, _) => [EvAllocated s run_id (p_epoch q) (p_last q)]
    | _, _ => []
    end).
Proof.
  intros Ee El HJ Hu. unfold on_allocate.
  assert (JW q t (fork_seals t) log) as Hadv.
  { apply (J_advance p); [done| |lia|by left]. rewrite Ee. apply (j_epoch _ _ _ _ _ _ _ HJ). }
  destruct scope as [[run_id scope_id]|]; [|by intros [= <- <- <-]; rewrite app_nil_r].
  destruct (closed t); [by intros [= <- <- <-]; rewrite app_nil_r|].
  destruct (dget run_id (runs t)) as [r|] eqn:Hr; [|by intros [= <- <- <-]; rewrite app_nil_r].
  destruct (put_JW _ _ _ _ _ _ HJ Hr) as [HT <-].
  destruct (seal_old_epoch _ _ _ _) as [[r1 t1] o] eqn:Hold.
  destruct (seal_old_JT _ _ _ _ _ _ _ _ _ _ HT Hold) as (HT1 & Hf1 & Hk1 & Ho1 & _).
  destruct (request_JW _ _ _ _ _ HT1) as (HT2 & Hu2 & _ & _).
  apply Hu2 in Hu. rewrite <-(sf_fork _ _ Hf1) in Hu.
  assert (fork_seals t = fork_seals t1) as Hfs by (symmetry; apply (sf_fork_seals _ _ Hf1)).
  set (log1 := log ++ (ev <$> request o)) in *.
  assert (∃ r2 t2 evs s2, (match r_open_segment r1 with
      | None => open_segment q s r1 scope_id (p_last q - 1) (p_epoch q) [] [] None None
                  (if r_terminal_sealed r1 then bump "post_terminal_allocations" 1 t1 else t1)
      | Some _ => (r1, t1, [])
      end) = (r2, t2, evs) ∧
    JT p r2 t2 (fork_seals t) (log1 ++ (ev <$> evs)) ∧ fork_seals t2 = fork_seals t ∧
    r_run_id r2 = r_run_id r ∧ r_open_segment r2 = Some s2 ∧ r_open_epoch r2 = p_epoch p) as H.
  { destruct (r_open_segment r1) as [s1|] eqn:Hs1.
    - exists r1, t1, [], s1. cbn. rewrite app_nil_r. split_and!; try done.
      rewrite <-Ee. by destruct Ho1.
    - set (t1' := if r_terminal_sealed r1 then _ else t1).
      destruct (open_segment _ _ _ _ _ _ _ _ _ _ _) as [[r2 t2] evs] eqn:Hop.
      exists r2, t2, evs, s.
      assert (same_frame t1 t1' ∧ segment_runs t1' = segment_runs t1) as [Hf' Hs']
        by (unfold t1'; by case_match).
      eapply (open_JT p) in Hop as (HT3 & Hf3 & ? & ? & ? & ? & ?).
      + split_and!; [done|exact HT3| | |done|congruence].
        * by rewrite (sf_fork_seals _ _ Hf3), (sf_fork_seals _ _ Hf').
        * congruence.
      + unfold t1'. by destruct (r_terminal_sealed r1).
      + done.
      + by rewrite (sf_fork _ _ Hf').
      + rewrite Ee. apply (j_epoch _ _ _ _ _ _ _ HT2).
      + lia.
      + done.
      + done. }
  destruct H as (r2 & t2 & evs & s2 & -> & HT3 & Hfs2 & Hk2 & Hs2 & He2).
  intros [= <- <- <-]. cbn. rewrite Hs2, ev_app. change (fork_seals (put_run _ _)) with (fork_seals t2).
  rewrite Hfs2. replace (log ++ ((ev <$> request o) ++ (ev <$> evs)) ++ _)
    with ((log1 ++ (ev <$> evs)) ++ [EvAllocated s2 (r_run_id r2) (p_epoch q) (p_last q)])
    by (unfold log1; rewrite <-!(assoc_L (++)), Hk2; done).
  assert (r_open_last r2 ≤ p_last p) as Hle.
  { pose proof (j_runs _ _ _ _ _ _ _ HT3 _ _ (dget_dset_eq _ _ _)) as Hri.
    destruct (ri_open _ _ _ _ _ Hri _ Hs2) as (_ & _ & _ & Hb & _). auto. }
  unfold JW. cbn. rewrite <-(dset_dset _ _ r2 (runs t2)).
  apply J_allocate; [|apply dget_dset_eq|done|congruence|lia].
  apply (J_advance p); [exact HT3| |lia|by left]. rewrite Ee. apply (j_epoch _ _ _ _ _ _ _ HT3).
Qed.

(** [on_forced] *)
Lemma forced_JW p s t log t' effects :
  JW p t (fork_seals t) log → on_forced p s t = (t', effects) →
  JW p t' (fork_seals t') (log ++ (ev <$> effects)).
Proof.
  intros HJ. unfold on_forced. destruct (_ ≫= _) as [r|] eqn:Hr;
    [|by intros [= <- <-]; cbn; rewrite app_nil_r].
  destruct (dget s (segment_runs t)) as [k|] eqn:Hs; [|done]. simpl in Hr.
  case_match; [by intros [= <- <-]; cbn; rewrite app_nil_r|].
  destruct (put_JW _ _ _ _ _ _ HJ Hr) as [HT <-].
  destruct (seal_segment _ _ _ _ _) as [[r1 t1] o] eqn:Hse. intros [= <- <-].
  assert (JT p r (bump "forced_seals" 1 t) (fork_seals t) log) as HT' by exact HT.
  destruct (seal_JT _ _ _ _ _ _ _ _ _ _ _ HT' Hse) as (HT1 & Hf1 & ? & _).
  destruct (request_JW _ _ _ _ _ HT1) as (HT2 & _).
  change (fork_seals (put_run _ _)) with (fork_seals t1).
  by rewrite (sf_fork_seals _ _ Hf1).
Qed.

(** A run with nothing open may be added or replaced. *)
Lemma JW_put_closed p t pend log r :
  JW p t pend log → r_open_segment r = None → r_correlation_id r = r_run_id r →
  Forall (λ i, SEGMENT_ID_RE i = true) (r_pending_declared r) →
  Forall (λ i, BRANCH_ID_RE i = true) (r_pending_branch_ids r) →
  (∀ r0, dget (r_run_id r) (runs t) = Some r0 → r_open_segment r0 = None) →
  JT p r t pend log.
Proof.
  intros HJ Hn Hc Hd Hb Hold. unfold JT, JW. cbn. apply J_put; [done| |].
  - split; [done..|]. intros ?; congruence.
  - intros s Hs. destruct (j_segments _ _ _ _ _ _ _ HJ _ _ Hs) as (r0 & Hr0 & Ho).
    rewrite (Hold _ Hr0) in Ho. done.
Qed.

(** [_revive] *)
Lemma revive_JW p t pend log run_id found t' :
  JW p t pend log → revive run_id t = (found, t') →
  JW p t' pend log ∧ fork t' = fork t ∧ fork_seals t' = fork_seals t ∧
  dget run_id (runs t') = found.
Proof.
  intros HJ. unfold revive. destruct (dget run_id (runs t)) as [r|] eqn:Hr; [by intros [= <- <-]|].
  destruct (dget run_id (retired t)) as [r|] eqn:Ht; intros [= <- <-]; [|done].
  destruct (j_retired _ _ _ _ _ _ _ HJ _ _ Ht) as [Hn [Hk Hc Hd Hb _]]. cbn.
  split_and!; [|done|done|by rewrite dget_dset_eq].
  assert (JT p r t pend log) as HT.
  { apply JW_put_closed; [done..|]. intros r0. rewrite Hk. congruence. }
  unfold JT, JW in *. cbn in *. rewrite Hk in HT.
  destruct HT as [J1 J2 J3 J4 J5 J6 J7 J8 J9 J10 J11 J12]. split; try done.
  - intros k r0 H0. rewrite dget_ddel in H0. case_decide; [done|]. by apply J3.
  - by apply NoDup_ddel.
  - unfold ddel. etrans; [apply length_filter|done].
Qed.

(** A marker of the run's block, queued while the run is out of the table. *)
Lemma inside_JT p r t pend log m :
  JT p r t pend log →
  m_segment_id m = r_open_segment r → m_run_id m = Some (r_run_id r) → marker_ok m = true →
  (m_kind m = run_end ∨ m_kind m = run_start ∧ m_predecessors m = [] ∧ m_epoch m = r_open_epoch r) →
  JT p r t pend (log ++ [EvQueued m]).
Proof. intros. eapply J_inside; try done. apply dget_dset_eq. Qed.

(** A marker that names no segment. *)
Lemma outside_JW p t pend log m :
  JW p t pend log → m_segment_id m = None → marker_ok m = true →
  JW p t pend (log ++ [EvQueued m]).
Proof.
  intros HJ Hs Hok. apply J_log; [done| |by intros ? [= ->]].
  intros s. rewrite phase_queued. unfold seg_step. by rewrite Hs, bool_decide_false.
Qed.

Lemma open_valid p r t pend log s :
  JT p r t pend log → r_open_segment r = Some s → SEGMENT_ID_RE s = true.
Proof.
  intros HJ Hs. pose proof (j_runs _ _ _ _ _ _ _ HJ _ _ (dget_dset_eq _ _ _)) as Hri.
  by destruct (ri_open _ _ _ _ _ Hri _ Hs).
Qed.

(** Two requests in a row. *)
Lemma requests_JW p t pend log o1 o2 :
  JW p t ((pend ++ option_list o1) ++ option_list o2) log →
  JW p t pend (log ++ (ev <$> (request o1 ++ request o2))).
Proof.
  intros HJ. rewrite ev_app, (assoc_L (++)). apply request_JW.
  destruct o1 as [o1|]; cbn in *; [|rewrite !app_nil_r in *; done].
  apply J_request. by rewrite <-(assoc_L (++)) in HJ.
Qed.

(** The part of [enter] after the run's own fields are set. *)
Lemma enter_JW p s plan scope_id t log t' effects :
  JW p t (fork_seals t) log → usable s (fork t) log → plan_ok plan = true →
  enter p s plan scope_id t = (t', effects) →
  JW p t' (fork_seals t') (log ++ (ev <$> effects)).
Proof.
  intros HJ Hu Hp. unfold enter. destruct (closed t); [by intros [= <- <-]; cbn; rewrite app_nil_r|].
  cbn zeta. destruct (revive _ t) as [found t0] eqn:Hrev.
  destruct (revive_JW _ _ _ _ _ _ _ HJ Hrev) as (HJ0 & Hfk0 & Hfs0 & Hfound).
  set (k := i_run_id (pl_identity plan)) in *. set (resumed := 0 <? _).
  rewrite <-Hfs0 in HJ0. rewrite <-Hfk0 in Hu. clear HJ Hrev.
  destruct (match found with None => _ | Some _ => _ end) as [r1 t1] eqn:Hm.
  assert (JT p r1 t1 (fork_seals t0) log ∧ same_frame t0 t1 ∧ r_run_id r1 = k) as (HT1 & Hf1 & Hk1).
  { destruct found as [r|].
    - destruct (put_JW _ _ _ _ _ _ HJ0 Hfound) as [HT ?].
      injection Hm as <- <-. destruct (_ && _); done.
    - injection Hm as <- <-. split_and!; [|done|done]. apply JW_put_closed; [done|done|done|by constructor..|].
      simpl. fold k. intros r0. congruence. }
  clear Hm. set (r2 := set_final_block _ _).
  assert (JT p r2 t1 (fork_seals t0) log) as HT2 by by eapply same_JT.
  assert (r_run_id r2 = k) as Hk2 by done. clearbody r2.
  destruct (seal_old_epoch _ _ _ _) as [[r3 t3] o1] eqn:Hold.
  destruct (seal_old_JT _ _ _ _ _ _ _ _ _ _ HT2 Hold) as (HT3 & Hf3 & Hk3 & Ho3 & _).
  assert (usable s (fork t3) log) as Hu3.
  { rewrite (sf_fork _ _ Hf3), (sf_fork _ _ Hf1). done. }
  assert (fork_seals t3 = fork_seals t0) as Hs3.
  { by rewrite (sf_fork_seals _ _ Hf3), (sf_fork_seals _ _ Hf1). }
  unfold plan_ok in Hp. to_prop. pose proof (JT_epoch _ _ _ _ _ HT3) as Hep.
  assert (Forall (λ i, BRANCH_ID_RE i = true) (i_branch_ids (pl_identity plan))) as Hbr.
  { apply Forall_forall. by apply forallb_elem_of. }
  destruct (resumed && present (r_open_segment r3)) eqn:Hjoin.
  - destruct (seal_segment _ _ _ _ _) as [[r4 t4] o2] eqn:Hse.
    destruct (seal_JT _ _ _ _ _ _ _ _ _ _ _ HT3 Hse) as (HT4 & Hf4 & Hk4 & Hn4 & _).
    destruct (open_segment _ _ _ _ _ _ _ _ _ _ _) as [[r5 t5] evs] eqn:Hop.
    eapply (open_JT p) in Hop as (HT5 & Hf5 & _); [|exact HT4|done| |done|done|done|done];
      [|by rewrite (sf_fork _ _ Hf4)].
    intros [= <- <-]. rewrite ev_app, (assoc_L (++)).
    replace (fork_seals (put_run r5 t5)) with (fork_seals t0).
    { by apply requests_JW. }
    cbn. by rewrite (sf_fork_seals _ _ Hf5), (sf_fork_seals _ _ Hf4).
  - destruct (r_open_segment r3) as [s3|] eqn:Hs3o.
    + intros [= <- <-]. cbn -[request]. rewrite (cons_middle (EvQueued _) log), (assoc_L (++)).
      rewrite Hs3.
      destruct Ho3 as [?|Ho3]; [congruence|].
      apply request_JW. apply inside_JT; [exact HT3|done|done| |].
      * apply start_marker_ok; [by eapply open_valid|done..].
      * right. done.
    + destruct (open_segment _ _ _ _ _ _ _ _ _ _ _) as [[r5 t5] evs] eqn:Hop.
      eapply (open_JT p) in Hop as (HT5 & Hf5 & _); [|exact HT3|done|exact Hu3|done|done|done|].
      2:{ by destruct (negb (present found)). }
      intros [= <- <-]. rewrite ev_app, (assoc_L (++)).
      change (fork_seals (put_run _ _)) with (fork_seals t5). rewrite (sf_fork_seals _ _ Hf5), Hs3.
      apply request_JW. by eapply same_JT.
Qed.

Lemma elem_of_keep_last {A} n (l : list A) x : x ∈ keep_last n l → x ∈ l.
Proof. unfold keep_last. intros H. rewrite <-(take_drop (length l - n) l). set_solver. Qed.

Lemma NoDup_keep_last {A} n (l : list A) : NoDup l → NoDup (keep_last n l).
Proof. unfold keep_last. rewrite <-(take_drop (length l - n) l) at 1. by intros (_ & _ & ?)%NoDup_app. Qed.

Lemma length_keep_last {A} n (l : list A) : (length (keep_last n l) ≤ n)%nat.
Proof. unfold keep_last. rewrite length_drop. lia. Qed.

(** [_retire] *)
Lemma retire_JW p r t pend log :
  JW p t pend log → dget (r_run_id r) (runs t) = Some r → JW p (retire r t) pend log.
Proof.
  intros HJ Hr. unfold retire. destruct (_ || _) eqn:Hc; [done|]. case_match; [done|].
  apply orb_false_iff in Hc as [[_ Ho]%orb_false_iff Hd]. to_prop.
  assert (r_open_segment r = None) as Hn by by destruct (r_open_segment r).
  assert (∀ s, dget s (segment_runs t) = Some (r_run_id r) → False) as Hns.
  { intros s Hs. destruct (j_segments _ _ _ _ _ _ _ HJ _ _ Hs) as (r0 & Hr0 & ?). congruence. }
  pose proof (j_runs _ _ _ _ _ _ _ HJ _ _ Hr) as [_ Hcor Hde Hbr _].
  destruct HJ as [J1 J2 J3 J4 J5 J6 J7 J8 J9 J10 J11 J12].
  split; cbn; try done.
  - by apply NoDup_ddel.
  - intros k r0 H0. rewrite dget_ddel in H0. case_decide; [done|]. by apply J2.
  - intros k r0 H0. apply dget_Some_elem, elem_of_keep_last in H0.
    apply elem_of_app in H0 as [[H0 Hne]%ddel_elem|H0].
    + apply J3. by apply elem_dget.
    + apply list_elem_of_singleton in H0. injection H0 as -> ->. simpl. split; [done|].
      split; [done..|]. simpl. intros ?; congruence.
  - intros s k Hs. destruct (J4 _ _ Hs) as (r0 & ? & ?). rewrite dget_ddel.
    rewrite decide_False; [eauto|]. intros ->. eauto.
  - unfold keep_last. rewrite fmap_drop, <-(length_fmap fst). apply NoDup_keep_last.
    rewrite fmap_app. apply NoDup_app. split_and!; [by apply NoDup_ddel| |apply NoDup_singleton].
    intros x ([k r0] & -> & [_ Hne]%ddel_elem)%list_elem_of_fmap. csimpl.
    by rewrite list_elem_of_singleton.
  - apply length_keep_last.
Qed.

(** [exit] *)
Lemma exit_JW p s run_id scope_id status t log t' effects :
  JW p t (fork_seals t) log → usable s (fork t) log →
  exit p s run_id scope_id status t = (t', effects) →
  JW p t' (fork_seals t') (log ++ (ev <$> effects)).
Proof.
  intros HJ Hu. unfold exit.
  destruct (closed t); [by intros [= <- <-]; cbn; rewrite app_nil_r|].
  assert (JW p t (fork_seals t) (log ++ (ev <$> [Queued
            (run_end_marker p run_id scope_id None status None None)]))) as Hlate.
  { by apply outside_JW. }
  destruct (dget run_id (runs t)) as [r|] eqn:Hr; [|by intros [= <- <-]].
  destruct (put_JW _ _ _ _ _ _ HJ Hr) as [HT Hk].
  case_match; [by intros [= <- <-]|]. cbn zeta.
  set (r1 := set_depth _ _). set (outermost := _ =? 0).
  assert (JT p r1 t (fork_seals t) log) as HT1 by by eapply same_JT.
  clearbody r1.
  destruct (if outermost && _ && _ then _ else _) as [[r2 t2] evs1] eqn:Hm.
  assert (JT p r2 t2 (fork_seals t2) (log ++ (ev <$> evs1))) as HT2.
  { destruct (outermost && _ && _); [|by injection Hm as <- <- <-; cbn; rewrite app_nil_r].
    destruct (seal_segment _ _ _ _ _) as [[r3 t3] o] eqn:Hse.
    destruct (seal_JT _ _ _ _ _ _ _ _ _ _ _ HT1 Hse) as (HT3 & Hf3 & _ & Hn3 & _).
    destruct (request_JW _ _ _ _ _ HT3) as (HT4 & Hu4 & _ & _). apply Hu4 in Hu.
    destruct (open_segment _ _ _ _ _ _ _ _ _ _ _) as [[r4 t4] evs] eqn:Hop.
    eapply (open_JT p) in Hop as (HT5 & Hf5 & _);
      [|exact HT4|done| |apply (j_epoch _ _ _ _ _ _ _ HT4)|done|done|done];
      [|by rewrite (sf_fork _ _ Hf3)].
    injection Hm as <- <- <-. rewrite ev_app, (assoc_L (++)).
    by rewrite (sf_fork_seals _ _ Hf5), (sf_fork_seals _ _ Hf3). }
  clear Hm. set (m := run_end_marker _ _ _ _ _ _ _).
  assert (JT p r2 t2 (fork_seals t2) ((log ++ (ev <$> evs1)) ++ [EvQueued m])) as HT3.
  { apply inside_JT; [done..| |by left]. apply end_marker_ok. intros s0. by apply (open_valid _ _ _ _ _ _ HT2). }
  destruct outermost.
  - destruct (seal_segment _ _ _ _ _) as [[r4 t4] o] eqn:Hse.
    destruct (seal_JT _ _ _ _ _ _ _ _ _ _ _ HT3 Hse) as (HT4 & Hf4 & _ & Hn4 & _).
    destruct (request_JW _ _ _ _ _ HT4) as (HT5 & _). cbn zeta. intros [= <- <-].
    set (r5 := set_outcome_fields _ _ _).
    assert (JT p r5 t4 (fork_seals t2) (((log ++ (ev <$> evs1)) ++ [EvQueued m]) ++ (ev <$> request o)))
      as HT6 by by eapply same_JT.
    rewrite ev_app, fmap_cons. cbn [ev].
    replace (log ++ _) with (((log ++ (ev <$> evs1)) ++ [EvQueued m]) ++ (ev <$> request o))
      by by rewrite <-!(assoc_L (++)).
    assert (fork_seals (retire r5 (put_run r5 t4)) = fork_seals t2) as ->.
    { rewrite <-(sf_fork_seals _ _ Hf4). unfold retire. by repeat case_match. }
    apply retire_JW; [exact HT6|apply dget_dset_eq].
  - intros [= <- <-]. rewrite ev_app, (assoc_L (++)). exact HT3.
Qed.

Lemma open_queues p s r scope last epoch preds branches basis root t r' t' evs :
  open_segment p s r scope last epoch preds branches basis root t = (r', t', evs) →
  ∃ m, evs = [Queued m] ∧ m_segment_id m = Some s.
Proof. unfold open_segment. intros [= <- <- <-]. eexists. done. Qed.

Lemma usable_other s s' fk log m :
  usable s fk log → m_segment_id m = Some s' → s ≠ s' → usable s fk (log ++ [EvQueued m]).
Proof.
  intros (? & ? & Hf & ?) Hm Hne. split_and!; [done| | |done].
  - rewrite log_ids_app, elem_of_app. by left.
  - rewrite phase_queued. unfold seg_step. by rewrite Hm, bool_decide_false by congruence.
Qed.

Lemma frame_open p s r scope last epoch preds branches basis root t r' t' evs :
  open_segment p s r scope last epoch preds branches basis root t = (r', t', evs) → same_frame t t'.
Proof. unfold open_segment. intros [= <- <- <-]. by case_match. Qed.

(** One run of [on_final]. *)
Lemma final_run_JT p s r t pend log r' t' evs :
  JT p r t pend log → usable s (fork t) log → final_run p s r t = (r', t', evs) →
  JT p r' t' pend (log ++ (ev <$> evs)) ∧ same_frame t t' ∧ r_run_id r' = r_run_id r ∧
  (∀ s', s' ≠ s → usable s' (fork t) log → usable s' (fork t) (log ++ (ev <$> evs))).
Proof.
  intros HJ Hu. unfold final_run.
  destruct (match r_open_segment r with Some _ => _ | None => _ end) as [[r1 t1] e1] eqn:Hop.
  assert (JT p r1 t1 pend (log ++ (ev <$> e1)) ∧ same_frame t t1 ∧ r_run_id r1 = r_run_id r ∧
    (∀ s', s' ≠ s → usable s' (fork t) log → usable s' (fork t) (log ++ (ev <$> e1))))
    as (HT1 & Hf1 & Hk1 & Hu1).
  { assert ((r1, t1, e1) = (r, t, []) ∨ ∃ scope, r_open_segment r = None ∧
      open_segment p s r scope (p_last p) (p_epoch p) [] [] None None t = (r1, t1, e1)) as [E|(scope & Hn & E)].
    { destruct (r_open_segment r); [by left|]. repeat case_match; eauto. }
    - injection E as -> -> ->. cbn. rewrite app_nil_r. done.
    - destruct (open_queues _ _ _ _ _ _ _ _ _ _ _ _ _ _ E) as (m & -> & Hm).
      eapply (open_JT p) in E as (? & ? & ? & _); [|exact HJ|done|done| |done|done|done].
      + split_and!; [done..|]. intros. cbn. by eapply usable_other.
      + apply (j_epoch _ _ _ _ _ _ _ HJ). }
  clear Hop. cbn zeta. destruct (seal_segment _ _ _ _ _) as [[r2 t2] o] eqn:Hse.
  destruct (seal_JT _ _ _ _ _ _ _ _ _ _ _ HT1 Hse) as (HT2 & Hf2 & Hk2 & _).
  destruct (request_JW _ _ _ _ _ HT2) as (HT3 & Hu3 & _). intros [= <- <- <-].
  rewrite ev_app, (assoc_L (++)). split_and!; [exact HT3|by eapply frame_trans|congruence|].
  auto.
Qed.

(** [on_final] *)
Lemma final_runs_JW p l t pend log t' evs :
  JW p t pend log → NoDup l.*2 → Forall (λ s, usable s (fork t) log) l.*2 →
  final_runs p l t = (t', evs) →
  JW p t' pend (log ++ (ev <$> evs)) ∧ fork_seals t' = fork_seals t.
Proof.
  revert t log t' evs. induction l as [|[k s] l IH]; intros t log t' evs HJ Hn Hu;
    [intros [= <- <-]; cbn; by rewrite app_nil_r|].
  csimpl in Hn. csimpl in Hu. apply NoDup_cons in Hn as [Hs Hn]. apply Forall_cons in Hu as [Hus Hu].
  simpl. destruct (dget k (runs t)) as [r|] eqn:Hr; [|by apply IH].
  destruct (put_JW _ _ _ _ _ _ HJ Hr) as [HT <-].
  destruct (final_run _ _ _ _) as [[r1 t1] e1] eqn:Hfr.
  destruct (final_run_JT _ _ _ _ _ _ _ _ _ HT Hus Hfr) as (HT1 & Hf1 & Hk1 & Hu1).
  destruct (final_runs p l (put_run r1 t1)) as [t2 e2] eqn:Hrest. intros [= <- <-].
  apply IH with (log := log ++ (ev <$> e1)) in Hrest as [HJ2 Hs2]; [|exact HT1|done|].
  - rewrite ev_app, (assoc_L (++)). split; [done|]. rewrite Hs2. apply (sf_fork_seals _ _ Hf1).
  - cbn. rewrite (sf_fork _ _ Hf1). rewrite Forall_forall in Hu |- *. intros s' Hs'.
    apply Hu1; [set_solver|auto].
Qed.

Lemma final_JW p minted t log t' evs :
  JW p t (fork_seals t) log → NoDup (minted <$> (runs t).*1) →
  Forall (λ s, usable s (fork t) log) (minted <$> (runs t).*1) →
  on_final p minted t = (t', evs) → JW p t' (fork_seals t') (log ++ (ev <$> evs)).
Proof.
  intros HJ Hn Hu. unfold on_final.
  destruct (closed t); [by intros [= <- <-]; cbn; rewrite app_nil_r|]. intros Hf.
  assert (((λ k, (k, minted k)) <$> (runs t).*1).*2 = minted <$> (runs t).*1) as E
    by by rewrite <-list_fmap_compose.
  eapply final_runs_JW in Hf as [HJ' ->]; [exact HJ'|exact HJ|by rewrite E|by rewrite E].
Qed.

(** [issue] *)
Lemma issue_JW p s run_id scope_id branch_ids t log t' effects tokens :
  JW p t (fork_seals t) log → usable s (fork t) log →
  issue p s run_id scope_id branch_ids t = Ok (t', effects, tokens) →
  JW p t' (fork_seals t') (log ++ (ev <$> effects)).
Proof.
  intros HJ Hu. unfold issue.
  destruct (closed t); [by intros [= <- <- <-]; cbn; rewrite app_nil_r|].
  destruct (dget run_id (runs t)) as [r|] eqn:Hr; [|by intros [= <- <- <-]; cbn; rewrite app_nil_r].
  case_match; [by intros [= <- <- <-]; cbn; rewrite app_nil_r|]. case_match; [done|].
  destruct (put_JW _ _ _ _ _ _ HJ Hr) as [HT _].
  destruct (seal_old_epoch _ _ _ _) as [[r1 t1] o1] eqn:Hold.
  destruct (seal_old_JT _ _ _ _ _ _ _ _ _ _ HT Hold) as (HT1 & Hf1 & _).
  destruct (request_JW _ _ _ _ _ HT1) as (HT2 & Hu2 & _). apply Hu2 in Hu.
  destruct (match r_open_segment r1 with Some _ => _ | None => _ end) as [[r2 t2] evs] eqn:Hop.
  assert (JT p r2 t2 (fork_seals t) ((log ++ (ev <$> request o1)) ++ (ev <$> evs)) ∧ same_frame t t2)
    as [HT3 Hf3].
  { destruct (r_open_segment r1) eqn:Hs1.
    - injection Hop as <- <- <-. cbn. by rewrite app_nil_r.
    - pose proof (frame_open _ _ _ _ _ _ _ _ _ _ _ _ _ _ Hop).
      eapply (open_JT p) in Hop as (? & ? & _);
        [|exact HT2|done| |apply (j_epoch _ _ _ _ _ _ _ HT2)|done|done|done].
      + split; [done|by eapply frame_trans].
      + by rewrite (sf_fork _ _ Hf1). }
  cbn zeta. set (r3 := set_resumable true r2).
  assert (JT p r3 t2 (fork_seals t) ((log ++ (ev <$> request o1)) ++ (ev <$> evs))) as HT3'
    by by eapply same_JT.
  destruct (seal_segment _ _ _ _ _) as [[r4 t4] o] eqn:Hse.
  destruct (seal_JT _ _ _ _ _ _ _ _ _ _ _ HT3' Hse) as (HT4 & Hf4 & _).
  destruct (request_JW _ _ _ _ _ HT4) as (HT5 & _).
  assert (log ++ (ev <$> (request o1 ++ evs ++ request o)) =
    ((log ++ (ev <$> request o1)) ++ (ev <$> evs)) ++ (ev <$> request o)) as E.
  { rewrite !ev_app. by rewrite <-!(assoc_L (++)). }
  assert (fork_seals t4 = fork_seals t) as Hfs by by rewrite (sf_fork_seals _ _ Hf4), (sf_fork_seals _ _ Hf3).
  destruct o as [o|]; intros [= <- <- <-]; rewrite E; cbn; rewrite Hfs; exact HT5.
Qed.

Lemma set_outcome_JW p emitted outcome stop t pend log :
  JW p t pend log →
  let t' := (set_outcome emitted outcome stop t).1 in
  JW p t' pend log ∧ fork_seals t' = fork_seals t.
Proof.
  intros HJ. unfold set_outcome. destruct (closed t); [done|].
  destruct (emitted ≫= _) as [r|] eqn:He; [|done]. case_match; [done|]. cbn.
  destruct emitted as [k|]; [|done]. simpl in He. destruct (put_JW _ _ _ _ _ _ HJ He) as [HT _].
  split; [|done]. by eapply (same_JT p r).
Qed.

(** Events that open and seal a segment the table never holds. *)
Lemma J_whole p rs rt sr fk pend log evs s :
  J p rs rt sr fk pend log → usable s fk log →
  (∀ s', s' ≠ s → phase s' (log ++ evs) = phase s' log) → phase s (log ++ evs) = Sealed →
  (∀ m, EvQueued m ∈ evs → marker_ok m = true) →
  J p rs rt sr fk pend (log ++ evs).
Proof.
  intros HJ (? & Hin & Hf & Hfk) Ho Hs Hm.
  destruct (usable_unknown _ _ _ _ _ _ _ _ HJ Hf) as [Hsr Hpd].
  destruct HJ as [J1 J2 J3 J4 J5 J6 J7 J8 J9 J10 J11 J12]. split; try done.
  - intros k r H0. destruct (J2 _ _ H0) as [? ? ? ? Hop]. split; [done..|]. intros s0 Hs0.
    destruct (Hop _ Hs0) as (? & ? & ? & ?). rewrite log_epochs_app, elem_of_app, Ho by congruence. tauto.
  - intros k r0 H0. destruct (J3 _ _ H0) as [Hc [? ? ? ? _]].
    split; [done|]. split; [done..|]. intros ?; congruence.
  - intros o Hin'. rewrite Ho; [auto|]. intros E. apply Hpd. rewrite <-E.
    by apply list_elem_of_fmap_2.
  - intros k c Hc. destruct (J7 _ _ Hc) as (? & ? & ? & ?).
    rewrite log_ids_app, elem_of_app, Ho by eauto. tauto.
  - rewrite log_epochs_app, elem_of_app. by left.
  - intros s0. rewrite log_ids_app, elem_of_app. destruct (decide (s0 = s)) as [->|]; [by left|].
    rewrite Ho by done. auto.
  - intros s0. destruct (decide (s0 = s)) as [->|]; [by rewrite Hs|by rewrite Ho].
  - intros m [?|Hin']%elem_of_app; auto.
Qed.

Lemma ddel_dset_new {V} (k : string) (v : V) d : dget k d = None → ddel k (dset k v d) = d.
Proof.
  intros Hk. apply dget_None in Hk. rewrite dset_new by done. unfold ddel.
  rewrite filter_app, filter_cons_False by tauto. rewrite filter_nil, app_nil_r.
  induction d as [|[k' w] d IH]; [done|]. csimpl in Hk. apply not_elem_of_cons in Hk as [? ?].
  rewrite filter_cons_True by (simpl; congruence). f_equal. auto.
Qed.

Lemma mark_terminal_JW p k t pend log :
  JW p t pend log → JW p (mark_terminal k t) pend log ∧
  segment_runs (mark_terminal k t) = segment_runs t ∧ fork (mark_terminal k t) = fork t ∧
  fork_seals (mark_terminal k t) = fork_seals t.
Proof.
  intros HJ. unfold mark_terminal. destruct (dget k (runs t)) as [r|] eqn:Hr.
  - destruct (put_JW _ _ _ _ _ _ HJ Hr) as [HT <-]. split; [|done].
    by apply (same_JT p r (set_terminal_sealed true r)).
  - destruct (dget k (retired t)) as [r|] eqn:Ht; [|done]. split; [|done].
    destruct HJ as [J1 J2 J3 J4 J5 J6 J7 J8 J9 J10 J11 J12 J13 J14]. split; cbn; try done.
    + intros k' r' H'. rewrite dget_dset in H'. case_decide; [|by apply J3]. subst k'.
      injection H' as <-. destruct (J3 _ _ Ht) as [Hc [? ? ? ? _]].
      split; [done|]. split; [done..|]. simpl. intros ?; congruence.
    + by apply NoDup_dset.
    + rewrite <-(length_fmap fst), dset_keys, length_fmap; [done|]. apply dget_is_Some. eauto.
Qed.

(** The events of [end]. *)
Lemma end_segment_events p s scope_id i outcome stop t t' effects :
  end_segment p s scope_id i outcome stop t = (t', effects) →
  ∃ m1 m2 o, effects = [Queued m1; Queued m2; Requested o] ∧
    m_kind m1 = run_start ∧ m_segment_id m1 = Some s ∧ m_run_id m1 = Some (i_run_id i) ∧
    m_predecessors m1 ≠ [] ∧ m_epoch m1 = p_epoch p ∧ m_last_sequence m1 = p_last p ∧
    m2 = run_end_marker p (i_run_id i) scope_id (Some s) scope_ok (Some outcome) stop ∧
    o_segment_id o = s ∧ o_run_id o = i_run_id i ∧ o_epoch o = p_epoch p ∧
    o_last_sequence o = p_last p ∧ o_terminal o = true ∧
    (Forall (λ b, BRANCH_ID_RE b = true) (i_branch_ids i) → SEGMENT_ID_RE s = true →
     marker_ok m1 = true) ∧
    (i_predecessors i ≠ [] → m_predecessors m1 = take MAX_PREDECESSORS (i_predecessors i)) ∧
    segment_runs t' = ddel s (dset s (i_run_id i) (segment_runs t)) ∧
    (∃ t0, same_frame t t0 ∧ segment_runs t0 = segment_runs t' ∧
       runs t' = runs (mark_terminal (i_run_id i) t0) ∧
       retired t' = retired (mark_terminal (i_run_id i) t0) ∧
       fork t' = fork t ∧ fork_seals t' = fork_seals t).
Proof.
  unfold end_segment, open_segment, seal_segment. cbn -[mark_terminal take bump].
  intros [= <- <-]. eexists _, _, _. split; [reflexivity|].
  split_and!; try reflexivity.
  - simpl. apply take_ne. by repeat apply or_list_ne.
  - cbn. rewrite decide_True by done. apply Z.max_id.
  - intros Hb Hs. apply start_marker_ok; [done| |done|done].
    apply all_ids_take. by destruct (i_branch_ids i).
  - intros Hp. simpl. by destruct (i_predecessors i).
  - unfold mark_terminal. by repeat case_match.
  - eexists. split; [|split; [|split; [reflexivity|split; [reflexivity|]]]].
    + by case_match.
    + unfold mark_terminal. by repeat case_match.
    + unfold mark_terminal. by repeat case_match.
Qed.

(** The branches of a resolved identity are valid. *)
Lemma parsed_branch tk b :
  (∃ s, parse_token s = Some tk) → branch_id tk = Some b → BRANCH_ID_RE b = true.
Proof.
  intros [s Hs] Hb. apply parse_token_iff in Hs as [Hv _]. unfold valid_token in Hv.
  rewrite Hb in Hv. naive_solver.
Qed.

Lemma resolve_branches map_run minted_run ok tokens run_id :
  Forall (λ b, BRANCH_ID_RE b = true)
    (i_branch_ids (resolve_identity map_run minted_run ok tokens run_id)).
Proof.
  unfold resolve_identity. rewrite predecessor_fold, !append_new_fromkeys.
  destruct (identity_basis _ _ _ _) as [out basis]. simpl. apply Forall_forall. intros b.
  rewrite elem_of_fromkeys, list_elem_of_omap. intros (tk & Htk & Hb).
  apply elem_of_parsed in Htk as (_ & x & _ & Hx). by eapply parsed_branch; eauto.
Qed.

(** [end] *)
Lemma end_segment_JW p s scope_id i outcome stop t log t' effects :
  JW p t (fork_seals t) log → usable s (fork t) log →
  Forall (λ b, BRANCH_ID_RE b = true) (i_branch_ids i) →
  end_segment p s scope_id i outcome stop t = (t', effects) →
  JW p t' (fork_seals t') (log ++ (ev <$> effects)).
Proof.
  intros HJ Hu Hbr He. apply end_segment_events in He
    as (m1 & m2 & o & -> & Hk & Hs1 & Hr1 & Hp1 & He1 & Hl1 & -> & Ho1 & Ho2 & Ho3 & Ho4 & _ & Hok
        & _ & Hsr & t0 & Hf0 & Hs0 & Hru & Hrt & Hfk & Hfs).
  assert (JW p t (fork_seals t) (log ++ (ev <$> [Queued m1; Queued (run_end_marker p (i_run_id i)
            scope_id (Some s) scope_ok (Some outcome) stop); Requested o]))) as HJ1.
  { destruct Hu as (Hid & Hu). apply (J_whole _ _ _ _ _ _ _ _ s HJ); [done|..].
    - intros s' Hne. rewrite phase_app. cbn -[bool_decide].
      rewrite Hs1, Ho1, !bool_decide_false by congruence. done.
    - rewrite phase_app, (proj1 (proj2 Hu)). cbn -[bool_decide Z.eqb Z.leb].
      rewrite Hs1, Ho1, Hk, Hr1, Ho2, Ho3, Ho4, He1, Hl1, !bool_decide_true by done. simpl.
      destruct (m_predecessors m1); [done|]. rewrite !bool_decide_true by done. simpl.
      by rewrite Z.eqb_refl, Z.leb_refl.
    - cbn. intros m [E|[E|[E|?%not_elem_of_nil]%elem_of_cons]%elem_of_cons]%elem_of_cons;
        [injection E as ->|injection E as ->|done..]; [by apply Hok|].
      apply end_marker_ok. by intros ? [= <-]. }
  destruct (usable_unknown _ _ _ _ _ _ _ _ HJ (proj1 (proj2 (proj2 Hu)))) as [Hsn _].
  rewrite ddel_dset_new in Hsr by done.
  assert (JW p t0 (fork_seals t) (log ++ (ev <$> [Queued m1; Queued (run_end_marker p (i_run_id i)
            scope_id (Some s) scope_ok (Some outcome) stop); Requested o]))) as HJ2.
  { unfold JW. rewrite Hs0, Hsr, (sf_runs _ _ Hf0), (sf_retired _ _ Hf0), (sf_fork _ _ Hf0). exact HJ1. }
  destruct (mark_terminal_JW _ (i_run_id i) _ _ _ HJ2) as (HJ3 & E1 & E2 & E3).
  unfold JW in *. rewrite Hru, Hrt, Hfk, Hfs, <-Hs0, <-(sf_fork _ _ Hf0), <-E1, <-E2. exact HJ3.
Qed.

Lemma end_run_JW p s scope_id map_run minted_run ok run_id outcome tokens stop t log t' effects st :
  JW p t (fork_seals t) log → usable s (fork t) log →
  end_run p s scope_id map_run minted_run ok run_id outcome tokens stop t = (t', effects, st) →
  JW p t' (fork_seals t') (log ++ (ev <$> effects)).
Proof.
  intros HJ Hu. unfold end_run. destruct (closed t); [by intros [= <- <- <-]; cbn; rewrite app_nil_r|].
  set (t1 := rejected _ t).
  assert (JW p t1 (fork_seals t1) log ∧ fork t1 = fork t) as [HJ1 Hf1].
  { unfold t1, rejected. by case_match. }
  cbn zeta. case_decide; [by intros [= <- <- <-]; cbn; rewrite app_nil_r|].
  case_match; [by intros [= <- <- <-]; cbn; rewrite app_nil_r|].
  destruct (end_segment _ _ _ _ _ _ _) as [t2 e2] eqn:He. intros [= <- <- <-].
  eapply end_segment_JW; [exact HJ1|by rewrite Hf1|apply resolve_branches|exact He].
Qed.

(** ** Fork *)

Lemma J_unfork p rs rt sr fk pend log pend' :
  J p rs rt sr fk pend log → pend' `sublist_of` pend → J p rs rt sr [] pend' log.
Proof.
  intros [J1 J2 J3 J4 J5 J6 J7 J8 J9 J10 J11 J12 J13 J14] Hsub. split; try done.
  - intros o Ho. apply J5. by eapply sublist_subseteq.
  - eapply sublist_NoDup; [exact J6|]. by apply fmap_sublist.
Qed.

Lemma J_plan p rs rt sr fk pend log k c :
  J p rs rt sr fk pend log → dget k fk = None → c.2 ≠ [] → usable c.1 fk log →
  J p rs rt sr (dset k c fk) pend log.
Proof.
  intros [J1 J2 J3 J4 J5 J6 J7 J8 J9 J10 J11 J12 J13 J14] Hk Hc (Hid & Hin & Hf & Hfk).
  split; try done.
  - intros k' c' H. rewrite dget_dset in H. case_decide; [by simplify_eq|]. by apply (J7 k').
  - intros k1 k2 c1 c2 H1 H2 E. rewrite dget_dset in H1, H2.
    repeat case_decide; simplify_eq; first
      [done|by eapply J8|by apply Hfk in H1|by apply Hfk in H2].
Qed.

(** [before_fork] *)
Lemma fork_runs_JW p l t log :
  JW p t (fork_seals t) log → NoDup l.*2 → Forall (λ s, usable s (fork t) log) l.*2 →
  JW p (fork_runs p l t) (fork_seals (fork_runs p l t)) log.
Proof.
  revert t. induction l as [|[k s] l IH]; intros t HJ Hn Hu; [done|].
  csimpl in Hn. csimpl in Hu. apply NoDup_cons in Hn as [Hs Hn]. apply Forall_cons in Hu as [Hus Hu].
  simpl. destruct (dget k (runs t)) as [r|] eqn:Hr; [|by apply IH].
  destruct (_ || _) eqn:Hskip; [by apply IH|]. apply orb_false_iff in Hskip as [Hdin _].
  destruct (put_JW _ _ _ _ _ _ HJ Hr) as [HT Hk].
  destruct (seal_segment _ _ _ _ _) as [[r1 t1] o] eqn:Hse.
  destruct (seal_JT _ _ _ _ _ _ _ _ _ _ _ HT Hse) as (HT1 & Hf1 & Hk1 & _). cbn zeta.
  set (t2 := set_fork (fork t1) (fork_seals t1 ++ option_list o) t1).
  assert (JT p r1 t2 (fork_seals t2) log) as HT2.
  { unfold JT, JW in *. cbn. rewrite (sf_fork_seals _ _ Hf1). exact HT1. }
  assert (fork t2 = fork t) as Hfk2 by apply (sf_fork _ _ Hf1).
  destruct (r_pending_predecessors r1) as [|pr prs] eqn:Hp.
  { apply IH; [exact HT2|done|]. change (fork (put_run r1 t2)) with (fork t2). by rewrite Hfk2. }
  destruct (if (_ <? _)%nat then _ else _) as [r3 t3] eqn:Hd.
  assert (JT p r3 t3 (fork_seals t3) log ∧ fork t3 = fork t) as [HT3 Hfk3].
  { case_match; injection Hd as <- <-; [|by rewrite <-Hfk2].
    split; [|by rewrite <-Hfk2]. apply (J_same _ _ _ _ _ _ _ r1); try done. simpl.
    apply Forall_app. split; [|apply Forall_singleton; by destruct Hus].
    eapply ri_declared. apply (j_runs _ _ _ _ _ _ _ HT2). apply dget_dset_eq. }
  apply IH; [|done|].
  - unfold JW. cbn. apply J_plan; [exact HT3| |done|].
    + rewrite Hfk3. unfold din in Hdin. by destruct (dget k (fork t)).
    + by rewrite Hfk3.
  - cbn. rewrite Hfk3. rewrite Forall_forall in Hu |- *. intros s' Hs'.
    destruct (Hu s' Hs') as (? & ? & ? & Hfks). split_and!; [done..|]. intros k' c.
    rewrite dget_dset. case_decide; [|apply Hfks]. intros [= <-] E. apply Hs. simpl in E. by subst.
Qed.

Lemma before_fork_JW p acquired l t log :
  JW p t (fork_seals t) log → NoDup l.*2 → Forall (λ s, usable s (fork t) log) l.*2 →
  let t' := before_fork p acquired l t in JW p t' (fork_seals t') log.
Proof.
  intros HJ Hn Hu. unfold before_fork. cbn zeta.
  assert (JW p (set_fork [] [] t) [] log) as HJ0.
  { eapply J_unfork; [exact HJ|]. apply sublist_nil_l. }
  case_match; [done|]. case_match; [|done]. apply fork_runs_JW; [done..|].
  eapply Forall_impl; [exact Hu|]. intros s (? & ? & ? & _). split_and!; done.
Qed.

(** [after_fork_in_parent] *)
Lemma parent_JW p t log t' effects :
  JW p t (fork_seals t) log → after_fork_in_parent t = (t', effects) →
  JW p t' (fork_seals t') (log ++ (ev <$> effects)).
Proof.
  intros HJ [= <- <-]. rewrite <-list_fmap_compose.
  assert (∀ os lg, J p (runs t) (retired t) (segment_runs t) [] os lg →
    J p (runs t) (retired t) (segment_runs t) [] [] (lg ++ (ev ∘ Requested <$> os))) as H.
  { induction os as [|o os IH]; intros lg H; [by rewrite app_nil_r|].
    csimpl. rewrite (cons_middle (EvRequested o)), (assoc_L (++)). apply IH.
    by apply (J_request _ _ _ _ _ [] os). }
  apply H. by eapply J_unfork.
Qed.

(** [after_fork_in_child]: the part of the plan not continued yet stays usable. *)
Definition plan_usable (plan : list (string * (string * list string))) (t : Table)
    (log : list event) : Prop :=
  ∀ k c, dget k plan = Some c → dget k (runs t) = None → c.2 ≠ [] ∧ usable c.1 [] log.

Lemma child_runs_JW p all old plan l t log t' evs :
  JW p t [] log → fork t = [] → p_last p = -1 →
  (∀ k k' c c', dget k plan = Some c → dget k' plan = Some c' → c.1 = c'.1 → k = k') →
  plan_usable plan t log →
  (∀ k r, dget k old = Some r → r_run_id r = k ∧ r_correlation_id r = r_run_id r ∧
     Forall (λ i, BRANCH_ID_RE i = true) (r_pending_branch_ids r)) →
  (∀ k r s, dget k (runs t) = Some r → r_open_segment r = Some s → r_open_epoch r = p_epoch p) →
  child_runs p all old plan l t = (t', evs) →
  JW p t' [] (log ++ (ev <$> evs)) ∧ fork_seals t' = fork_seals t.
Proof.
  intros HJ Hfk Hl Hdist Hplan Hold. revert t log t' evs HJ Hfk Hplan.
  induction l as [|[k scope] l IH]; intros t log t' evs HJ Hfk Hplan Hep;
    [intros [= <- <-]; cbn; by rewrite app_nil_r|]. simpl.
  destruct (dget k (runs t)) as [r|] eqn:Hr.
  - destruct (child_runs p all old plan l t) as [t1 e1] eqn:Hc. intros [= <- <-].
    destruct (put_JW _ _ _ _ _ _ HJ Hr) as [HT Hk].
    destruct (r_open_segment r) as [s|] eqn:Hs; [|by eapply IH].
    rewrite ev_app, (assoc_L (++)). set (m := run_start_marker _ _ _ _ _ _ _ _ _ _ _ _).
    eapply (IH t (log ++ [EvQueued m])) in Hc as [? ?]; [split; eassumption| |done| |done].
    + eapply J_inside; [exact HJ|by rewrite Hk|done|done| |].
      * apply start_marker_ok; [by eapply open_valid|done..].
      * right. split_and!; [done..|]. simpl. symmetry. by eapply Hep.
    + intros k' c Hk' Hn. destruct (Hplan _ _ Hk' Hn) as [? Hu]. split; [done|].
      eapply usable_other; [exact Hu|done|]. intros E.
      destruct Hu as (_ & _ & Hu & _). subst s.
      pose proof (j_runs _ _ _ _ _ _ _ HJ _ _ Hr) as Hri.
      destruct (ri_open _ _ _ _ _ Hri _ Hs) as (_ & _ & _ & _ & x & Hx & _). congruence.
  - destruct (dget k old) as [r|] eqn:Ho; [|by apply IH].
    destruct (Hold _ _ Ho) as (Hk & Hcor & Hbr). set (n := length _).
    set (r1 := set_block_scope (Some scope) _).
    assert (JT p r1 t [] log) as HT1.
    { apply JW_put_closed; [done|done|exact Hcor|by constructor|by constructor|]. simpl. rewrite Hk.
      congruence. }
    destruct (dget k plan) as [[child preds]|] eqn:Hp.
    + destruct (Hplan _ _ Hp Hr) as [Hpr Hu]. simpl in Hpr, Hu. cbn zeta.
      set (m := run_start_marker _ _ _ _ _ _ _ _ _ _ _ _).
      destruct (child_runs _ _ _ _ l _) as [t2 e2] eqn:Hc. intros [= <- <-].
      rewrite fmap_cons, (cons_middle (EvQueued m)), (assoc_L (++)).
      set (r2 := set_fork_child true r1) in *.
      assert (JT p r2 t [] log) as HT2 by by eapply same_JT.
      eapply (IH _ (log ++ [EvQueued m])) in Hc as [HJ' Hfs']; [split; [exact HJ'|done]|..]; cbn.
      * assert (J p (dset k r2 (runs t)) (retired t) (segment_runs t) (fork t) [] log) as HT2'.
        { rewrite <-Hk. exact HT2. }
        pose proof (J_open p _ _ _ _ _ _ r2 child m (-1) scope (r_open_basis r2) HT2') as HO.
        simpl in HO. rewrite Hk in HO. rewrite dset_dset in HO.
        unfold JW. cbn. rewrite Hk. apply HO; try done.
        -- apply dget_dset_eq.
        -- by rewrite Hfk.
        -- apply (j_epoch _ _ _ _ _ _ _ HJ).
        -- lia.
        -- apply start_marker_ok; [by destruct Hu|done..].
      * done.
      * intros k' c Hk' Hn. cbn in Hn. rewrite Hk, dget_dset in Hn. case_decide as Hne; [done|].
        destruct (Hplan _ _ Hk' Hn) as [? Hu']. split; [done|].
        eapply usable_other; [exact Hu'|done|]. intros E. apply Hne. by eapply Hdist.
      * intros k' r' s' H' Hs'. rewrite Hk, dget_dset in H'. case_decide; [by simplify_eq|].
        by eapply Hep.
    + intros Hc. eapply (IH (put_run r1 t)) in Hc; [exact Hc|exact HT1|done|..].
      * intros k' c Hk' Hn. cbn in Hn. rewrite Hk, dget_dset in Hn. case_decide; [done|].
        by apply (Hplan k').
      * intros k' r' s'. cbn. rewrite Hk, dget_dset. case_decide; [by intros [= <-]|]. apply Hep.
Qed.

(** ** The invariant of every execution *)

Definition Inv (s : Sys) (log : list event) : Prop :=
  JW (pos s) (table s) (fork_seals (table s)) log.

Lemma epoch_JW p t pend log e evs :
  JW p t pend log → e ∉ epochs log →
  (∀ x, x ∈ evs → (∃ i, x = EvMinted i) ∨ ∃ z, x = EvEpoch z) → e ∈ epochs evs →
  JW (new_epoch e p) t pend (log ++ evs).
Proof.
  intros HJ He Hev Hin.
  assert (e ∈ epochs (log ++ evs)) as Hin' by (rewrite log_epochs_app, elem_of_app; by right).
  apply (J_advance p); [by apply J_draw|done|..].
  - simpl. intros E. subst e. exfalso. apply He. apply (j_epoch _ _ _ _ _ _ _ HJ).
  - right. intros k r Hr. destruct (r_open_segment r) as [s|] eqn:Hs; [right|by left].
    simpl. intros E. apply He. rewrite <-E.
    by destruct (ri_open _ _ _ _ _ (j_runs _ _ _ _ _ _ _ HJ _ _ Hr) _ Hs) as (_ & _ & ? & _).
Qed.

Lemma J_empty p rs rt sr fk pend log : J p rs rt sr fk pend log → J p [] [] [] [] [] log.
Proof.
  intros [J1 J2 J3 J4 J5 J6 J7 J8 J9 J10 J11 J12 J13 J14]. split; try done; try by constructor.
  - by intros o ?%not_elem_of_nil.
  - simpl. unfold MAX_RETIRED_RUNS. lia.
Qed.

Lemma child_JW p chain t log t' effects :
  JW p t (fork_seals t) log → p_last p = -1 → after_fork_in_child p chain t = (t', effects) →
  JW p t' (fork_seals t') (log ++ (ev <$> effects)).
Proof.
  intros HJ Hl. unfold after_fork_in_child. cbn zeta. case_match.
  { intros [= <- <-]. cbn. rewrite app_nil_r. eapply J_unfork; [exact HJ|]. apply sublist_nil_l. }
  intros Hc. apply child_runs_JW with (log := log) in Hc as [Hc ->]; [exact Hc|..]; cbn.
  - by eapply J_empty.
  - done.
  - done.
  - intros k k' c c'. apply (j_children _ _ _ _ _ _ _ HJ).
  - intros k c Hk _. destruct (j_fork _ _ _ _ _ _ _ HJ _ _ Hk) as (? & ? & ? & ?). done.
  - intros k r Hr. pose proof (j_runs _ _ _ _ _ _ _ HJ _ _ Hr) as Hri. cbn in Hr, Hri.
    split_and!; [apply (ri_key _ _ _ _ _ Hri)|apply (ri_correlation _ _ _ _ _ Hri)|apply (ri_branches _ _ _ _ _ Hri)].
  - done.
Qed.

(** The ids an operation mints may be used by it. *)
Lemma draws_usable s log o :
  Inv s log → legal s log o →
  Forall (λ i, usable i (fork (table s)) (log ++ draws o (table s))) (minted_by o (table s)) ∧
  (∀ x, x ∈ draws o (table s) → (∃ i, x = EvMinted i) ∨ ∃ z, x = EvEpoch z).
Proof.
  intros HJ (_ & Hm & _ & _).
  assert (∀ x, x ∈ draws o (table s) → (∃ i, x = EvMinted i) ∨ ∃ z, x = EvEpoch z) as Hd.
  { intros x [(i & -> & _)%list_elem_of_fmap|(z & -> & _)%list_elem_of_fmap]%elem_of_app; eauto. }
  split; [|done]. rewrite Forall_forall in Hm |- *. intros i Hi. destruct (Hm _ Hi) as [Hok Hn].
  split_and!; [done|..].
  - rewrite log_ids_app, elem_of_app. right. apply list_elem_of_omap. exists (EvMinted i).
    split; [|done]. apply elem_of_app. left. by apply list_elem_of_fmap_2.
  - rewrite phase_app. assert (phase i log = Fresh) as ->.
    { destruct (decide (phase i log = Fresh)) as [|Hne]; [done|].
      by apply (j_ids _ _ _ _ _ _ _ HJ) in Hne. }
    clear -Hd. revert Hd. generalize (draws o (table s)). intros l.
    induction l as [|x l IH]; intros Hd; [done|]. simpl.
    destruct (Hd x) as [[? ->]|[? ->]]; [set_solver|apply IH; set_solver..].
  - intros k c Hc E. destruct (j_fork _ _ _ _ _ _ _ HJ _ _ Hc) as (_ & Hin & _). congruence.
Qed.

Lemma exec_Inv s log o s' evs :
  Inv s log → legal s log o → exec_op o s = (s', evs) →
  Inv s' (log ++ draws o (table s) ++ evs).
Proof.
  intros HI Hl He. destruct (draws_usable _ _ _ HI Hl) as [Hu Hd].
  assert (JW (pos s) (table s) (fork_seals (table s)) (log ++ draws o (table s))) as HJ
    by by apply J_draw.
  destruct Hl as (Hn & _ & Hdr & Hp). rewrite (assoc_L (++)). unfold Inv.
  destruct o; simpl in He.
  - injection He as <- <-. rewrite app_nil_r. simpl in Hdr. apply Forall_cons in Hdr as [Hdr _].
    apply epoch_JW; [exact HI|exact Hdr|exact Hd|]. cbn. set_solver.
  - injection He as <- <-. rewrite app_nil_r. exact HJ.
  - destruct (on_allocate _ _ _ _) as [[t effects] seg] eqn:Ha. injection He as <- <-.
    eapply (allocate_JW (pos s)); [done|done|exact HJ| |exact Ha]. by apply Forall_cons in Hu as [Hu _].
  - destruct (on_forced _ _ _) as [t effects] eqn:Ha. injection He as <- <-. by eapply forced_JW.
  - destruct (enter _ _ _ _ _) as [t effects] eqn:Ha. injection He as <- <-.
    eapply enter_JW; [exact HJ| |done|exact Ha]. by apply Forall_cons in Hu as [Hu _].
  - destruct (exit _ _ _ _ _ _) as [t effects] eqn:Ha. injection He as <- <-.
    eapply exit_JW; [exact HJ| |exact Ha]. by apply Forall_cons in Hu as [Hu _].
  - destruct (on_final _ _ _) as [t effects] eqn:Ha. injection He as <- <-. by eapply final_JW.
  - destruct (issue _ _ _ _ _ _) as [[[t effects] tokens]|] eqn:Ha; injection He as <- <-;
      [|rewrite app_nil_r; exact HJ].
    eapply issue_JW; [exact HJ| |exact Ha]. by apply Forall_cons in Hu as [Hu _].
  - injection He as <- <-. rewrite app_nil_r.
    destruct (set_outcome_JW _ emitted outcome stop _ _ _ HJ) as [? E]. cbn in *. by rewrite E.
  - destruct (end_run _ _ _ _ _ _ _ _ _ _ _) as [[t effects] st] eqn:Ha. injection He as <- <-.
    eapply end_run_JW; [exact HJ| |exact Ha]. by apply Forall_cons in Hu as [Hu _].
  - injection He as <- <-. rewrite app_nil_r. by apply before_fork_JW.
  - injection He as <- <-. by eapply parent_JW.
  - destruct (after_fork_in_child _ _ _) as [t effects] eqn:Ha. injection He as <- <-.
    simpl in Hdr. apply Forall_cons in Hdr as [Hdr _].
    eapply child_JW; [|done|exact Ha]. apply epoch_JW; [exact HI|exact Hdr|exact Hd|]. cbn. set_solver.
Qed.

Lemma initial_Inv source e : Inv (initial source e) [EvEpoch e].
Proof.
  split; cbn; try done; try by constructor.
  - by intros o ?%not_elem_of_nil.
  - intros m Hm. by apply list_elem_of_singleton in Hm.
  - unfold MAX_RETIRED_RUNS. lia.
Qed.

Lemma reach_Inv source e s log : reach source e s log → Inv s log.
Proof. induction 1; [apply initial_Inv|by eapply exec_Inv]. Qed.

(** An id no one has drawn may be used once it is drawn. *)
Lemma mint_usable s log i :
  Inv s log → i ∉ ids log → SEGMENT_ID_RE i = true →
  Inv s (log ++ [EvMinted i]) ∧ usable i (fork (table s)) (log ++ [EvMinted i]).
Proof.
  intros HI Hn Hok.
  assert (legal s log (Allocate i None)) as Hl.
  { split_and!; [apply NoDup_singleton|by repeat constructor|constructor|done]. }
  destruct (draws_usable _ _ _ HI Hl) as [Hu Hd]. cbn in Hu. apply Forall_cons in Hu as [Hu _].
  split; [|done]. apply J_draw; [done|]. intros x ->%list_elem_of_singleton. eauto.
Qed.

(** ** What the protocol says of a log *)

(** The positions allocated in segment [s], in order. *)
Definition positions (s : string) (log : list event) : list Z :=
  omap (λ e, match e with EvAllocated s' _ _ n => if decide (s' = s) then Some n else None
                        | _ => None end) log.

(** The event names segment [s]. *)
Definition names (s : string) (e : event) : Prop :=
  match e with
  | EvAllocated s' _ _ _ => s' = s
  | EvQueued m => m_segment_id m = Some s
  | EvRequested o => o_segment_id o = s
  | _ => False
  end.

Definition opening (s run_id : string) (epoch : Z) (m : Marker) : Prop :=
  m_kind m = run_start ∧ m_segment_id m = Some s ∧ m_run_id m = Some run_id ∧
  m_epoch m = epoch ∧ m_predecessors m ≠ [].

(** A segment that is not violated holds the positions of one run and one epoch, in
    increasing order. *)
Definition phase_facts (s : string) (log : list event) : Prop :=
  match phase s log with
  | Fresh => ∀ e, e ∈ log → ¬ names s e
  | Opened run_id epoch last =>
      (∃ m, EvQueued m ∈ log ∧ opening s run_id epoch m ∧ m_last_sequence m ≤ last ∧
            ∀ n, n ∈ positions s log → m_last_sequence m < n) ∧
      (∀ r ep n, EvAllocated s r ep n ∈ log → r = run_id ∧ ep = epoch) ∧
      (∀ n, n ∈ positions s log → n ≤ last) ∧ StronglySorted Z.lt (positions s log)
  | _ => True
  end.

Lemma positions_snoc s log e :
  positions s (log ++ [e]) = positions s log ++ positions s [e].
Proof. apply omap_app. Qed.

Lemma step_unnamed s ph e : ¬ names s e → seg_step s ph e = ph.
Proof. destruct e; simpl; intros Hn; try done; by rewrite bool_decide_false. Qed.

Lemma positions_unnamed s e : ¬ names s e → positions s [e] = [].
Proof. destruct e; simpl; intros; try done. by rewrite decide_False. Qed.

#[export] Instance names_dec s e : Decision (names s e).
Proof. destruct e; simpl; apply _. Defined.

Lemma fresh_positions s log : (∀ e, e ∈ log → ¬ names s e) → positions s log = [].
Proof.
  induction log as [|e log IH] using rev_ind; intros Hn; [done|].
  rewrite positions_snoc, IH, positions_unnamed by set_solver. done.
Qed.

Lemma phase_facts_ok s log : phase_facts s log.
Proof.
  induction log as [|e log IH] using rev_ind; [by intros ? ?%not_elem_of_nil|].
  unfold phase_facts in *. rewrite phase_snoc.
  destruct (decide (names s e)) as [Hn|Hn].
  2:{ rewrite step_unnamed, positions_snoc, positions_unnamed, app_nil_r by done.
      destruct (phase s log); [set_solver| |done..].
      destruct IH as ((m & ? & ? & ? & ?) & Ha & ? & ?). split_and!; [|..|done|done].
      - exists m. set_solver.
      - intros r ep n [Hin|Hin]%elem_of_app; [eauto|].
        apply list_elem_of_singleton in Hin. subst. by destruct Hn. }
  destruct e as [| |s' r ep n|m|o]; simpl in Hn; try done.
  - subst s'. simpl. rewrite bool_decide_true by done. simpl.
    destruct (phase s log) as [|run_id epoch last| |]; [done| |done..].
    destruct (_ && _ && _) eqn:Hc; [|done]. to_prop. subst.
    destruct IH as ((m & Hm & Ho & Hml & Hb) & Ha & Hle & Hs).
    rewrite positions_snoc. cbn. rewrite decide_True by done. split_and!.
    + exists m. split_and!; [set_solver|done|lia|]. intros x [?|Hx]%elem_of_app; [auto|].
      apply list_elem_of_singleton in Hx as ->. lia.
    + intros r' ep' n' [?|Hx]%elem_of_app; [eauto|]. apply list_elem_of_singleton in Hx.
      by injection Hx as -> -> ->.
    + intros x [Hx|Hx]%elem_of_app; [specialize (Hle _ Hx); lia|].
      apply list_elem_of_singleton in Hx as ->. lia.
    + apply StronglySorted_snoc; [done|]. intros x Hx. specialize (Hle _ Hx). lia.
  - assert (positions s (log ++ [EvQueued m]) = positions s log) as Hpos.
    { rewrite positions_snoc. cbn. apply app_nil_r. }
    simpl. rewrite bool_decide_true by done. simpl. rewrite Hpos.
    destruct (m_kind m) eqn:Hk, (phase s log) as [|run_id epoch last| |]; try done.
    + destruct (m_predecessors m) eqn:Hp; [done|]. destruct (m_run_id m) eqn:Hr; [|done].
      rewrite (fresh_positions s log) by done. split_and!.
      * exists m. unfold opening. rewrite Hp. split_and!; try done; [set_solver|].
        by intros ? ?%not_elem_of_nil.
      * intros r ep n [Hx|Hx]%elem_of_app; [by apply IH in Hx|].
        by apply list_elem_of_singleton in Hx.
      * by intros ? ?%not_elem_of_nil.
      * constructor.
    + destruct (_ && _); [|done]. destruct IH as ((m0 & ? & ? & ? & ?) & Ha & ? & ?).
      split_and!; [exists m0; set_solver|..|done|done].
      intros r ep n [Hx|Hx]%elem_of_app; [by eapply Ha|]. by apply list_elem_of_singleton in Hx.
    + destruct (bool_decide _); [|done]. destruct IH as ((m0 & ? & ? & ? & ?) & Ha & ? & ?).
      split_and!; [exists m0; set_solver|..|done|done].
      intros r ep n [Hx|Hx]%elem_of_app; [by eapply Ha|]. by apply list_elem_of_singleton in Hx.
  - simpl. rewrite bool_decide_true by done. simpl. by repeat case_match.
Qed.

(** Nothing names a sealed segment without violating the protocol. *)
Lemma sealed_names s e : names s e → seg_step s Sealed e = Violated.
Proof.
  destruct e; simpl; intros Hn; try done; rewrite bool_decide_true by done; simpl; try done.
  by destruct (m_kind m).
Qed.

Lemma sealed_last s l2 :
  foldl (seg_step s) Sealed l2 ≠ Violated → ∀ e, e ∈ l2 → ¬ names s e.
Proof.
  induction l2 as [|e l2 IH]; simpl; intros Hv e' He'; [by apply not_elem_of_nil in He'|].
  destruct (decide (names s e)) as [Hn|Hn].
  - by rewrite sealed_names, phase_violated in Hv.
  - rewrite step_unnamed in Hv by done. apply elem_of_cons in He' as [->|?]; [done|]. by apply IH.
Qed.

(** The phase before each event of a log without violations. *)
Lemma phase_before s l1 e l2 :
  phase s (l1 ++ e :: l2) ≠ Violated → seg_step s (phase s l1) e ≠ Violated.
Proof.
  rewrite phase_app. simpl. intros Hv E. by rewrite E, phase_violated in Hv.
Qed.

(** C9: every segment follows the protocol of a segment in every execution, whatever the
    order of allocations, block entries and exits, forced seals, token issues, forks and
    epoch ends: it is opened once, by a [run_start] with predecessors; every position and
    marker in it belongs to the run that opened it, every position to one epoch and to
    increasing sequences; and it is sealed at most once, after which no position, marker or
    second request names it. *)
Theorem segment_lifecycle (source : string) (e : Z) (st : Sys) (log : list event) (s : string) :
  reach source e st log → phase s log ≠ Violated.
Proof. intros Hr. apply (j_ok _ _ _ _ _ _ _ (reach_Inv _ _ _ _ Hr)). Qed.

(** C10: a segment seal covers its segment: when a seal is requested, the segment was opened
    before by a [run_start] of the same run and epoch; every position allocated in it has
    the run and epoch of the seal and lies after the opening and not above the seal's
    [last_sequence]; positions strictly increase; and nothing names the segment
    afterwards. *)
Theorem seal_covers_segment (source : string) (e : Z) (st : Sys) (l1 l2 : list event)
    (o : SealOrder) :
  reach source e st (l1 ++ EvRequested o :: l2) →
  let s := o_segment_id o in
  (∃ m, EvQueued m ∈ l1 ∧ opening s (o_run_id o) (o_epoch o) m ∧
        ∀ n, n ∈ positions s l1 → m_last_sequence m < n ≤ o_last_sequence o) ∧
  (∀ r ep n, EvAllocated s r ep n ∈ l1 → r = o_run_id o ∧ ep = o_epoch o) ∧
  StronglySorted Z.lt (positions s l1) ∧
  (∀ x, x ∈ l2 → ¬ names s x).
Proof.
  intros Hr s. pose proof (j_ok _ _ _ _ _ _ _ (reach_Inv _ _ _ _ Hr) s) as Hok.
  pose proof (phase_before _ _ _ _ Hok) as Hb. pose proof (phase_facts_ok s l1) as Hf.
  unfold phase_facts in Hf. rewrite phase_app in Hok. simpl in Hok, Hb.
  rewrite bool_decide_true in Hok, Hb by done. simpl in Hok, Hb.
  destruct (phase s l1) as [|run_id epoch last| |]; [done| |done..].
  destruct (_ && _ && _) eqn:Hc; [|done]. to_prop. subst.
  destruct Hf as ((m & Hm & Ho & ? & Hlt) & Ha & Hle & Hs).
  split_and!; [|done|done|by apply sealed_last].
  exists m. split_and!; [done|done|]. intros n Hn. specialize (Hle _ Hn). specialize (Hlt _ Hn). lia.
Qed.

(** C11: every marker the run table queues satisfies the placement rules of the marker type,
    so building one never raises: predecessors, declared branches and branch ids are within
    their bounds and well formed, and root fields are only on roots. *)
Theorem markers_well_placed (source : string) (e : Z) (st : Sys) (log : list event) (m : Marker) :
  reach source e st log → EvQueued m ∈ log → marker_ok m = true.
Proof. intros Hr. apply (j_markers _ _ _ _ _ _ _ (reach_Inv _ _ _ _ Hr)). Qed.

(** The run table is consistent in every execution: the open-segment index is exactly
    the open segments of the live runs, each run under its own id; a remembered ended run
    has nothing open; and at most 1,024 ended runs are remembered. *)
Theorem run_table_consistent (source : string) (e : Z) (st : Sys) (log : list event) :
  reach source e st log →
  (∀ s k, dget s (segment_runs (table st)) = Some k ↔
          ∃ r, dget k (runs (table st)) = Some r ∧ r_run_id r = k ∧ r_open_segment r = Some s) ∧
  (∀ k r, dget k (retired (table st)) = Some r → r_run_id r = k ∧ r_open_segment r = None) ∧
  (length (retired (table st)) ≤ MAX_RETIRED_RUNS)%nat.
Proof.
  intros Hr. apply reach_Inv in Hr. split_and!; [|..|apply (j_retired_bound _ _ _ _ _ _ _ Hr)].
  - intros s k. split.
    + intros (r & Hk & Hs)%(j_segments _ _ _ _ _ _ _ Hr). exists r.
      split_and!; [done| |done]. by apply (ri_key _ _ _ _ _ (j_runs _ _ _ _ _ _ _ Hr _ _ Hk)).
    + intros (r & Hk & _ & Hs).
      by destruct (ri_open _ _ _ _ _ (j_runs _ _ _ _ _ _ _ Hr _ _ Hk) _ Hs) as (_ & ? & _).
  - intros k r Hk. destruct (j_retired _ _ _ _ _ _ _ Hr _ _ Hk) as [? Hri].
    split; [apply (ri_key _ _ _ _ _ Hri)|done].
Qed.

(** ** A concrete execution *)

#[export] Instance legal_dec s log o : Decision (legal s log o).
Proof. unfold legal. destruct o; apply _. Defined.

Fixpoint run_ops (ops : list op) (x : Sys * list event) : Sys * list event :=
  match ops with
  | [] => x
  | o :: ops =>
      let '(s, log) := x in
      let '(s', evs) := exec_op o s in
      run_ops ops (s', log ++ draws o (table s) ++ evs)
  end.

Fixpoint all_legal (ops : list op) (x : Sys * list event) : bool :=
  match ops with
  | [] => true
  | o :: ops =>
      let '(s, log) := x in
      bool_decide (legal s log o) &&
      (let '(s', evs) := exec_op o s in all_legal ops (s', log ++ draws o (table s) ++ evs))
  end.

Lemma run_ops_reach source e ops x :
  reach source e x.1 x.2 → all_legal ops x = true →
  reach source e (run_ops ops x).1 (run_ops ops x).2.
Proof.
  revert x. induction ops as [|o ops IH]; intros [s log] Hr Hl; [done|].
  simpl in *. destruct (exec_op o s) as [s' evs] eqn:He. to_prop.
  apply IH; [|done]. by eapply reach_step.
Qed.

Definition demo_segment (c : ascii) : string := "seg-0000000000000000000000000000000" +:+ String c "".
Definition demo_branches : list string :=
  ["br-00000000000000000000000000000001"; "br-00000000000000000000000000000002"].
Definition demo_plan : RunPlan :=
  mk_plan (mk_identity "r-1" id_caller ROOT [] 0 [] 0) false false None None None None None [].

(** A root block records two positions, hands two branches out, forks, and goes on. *)
Definition demo_ops : list op :=
  [Enter (demo_segment "1") demo_plan "scope-1";
   Allocate (demo_segment "2") (Some ("r-1", "scope-1"));
   Allocate (demo_segment "3") (Some ("r-1", "scope-1"));
   Issue (demo_segment "4") "r-1" "scope-1" demo_branches;
   Allocate (demo_segment "5") (Some ("r-1", "scope-1"));
   BeforeFork true [("r-1", demo_segment "6")]; AfterForkInParent;
   Allocate (demo_segment "7") (Some ("r-1", "scope-1"))].

Definition demo_run : Sys * list event := run_ops demo_ops (initial "agent.1" 5, [EvEpoch 5]).
Definition demo_state : Sys := demo_run.1.
Definition demo_trace : list event := demo_run.2.

Lemma demo_table_reach : reach "agent.1" 5 demo_state demo_trace.
Proof. apply run_ops_reach; [constructor|]. vm_compute. reflexivity. Qed.

(** The log around its first seal request. *)
Fixpoint first_request (l : list event) : option (list event * SealOrder * list event) :=
  match l with
  | [] => None
  | EvRequested o :: l => Some ([], o, l)
  | x :: l => '(l1, o, l2) ← first_request l; Some (x :: l1, o, l2)
  end.

Lemma first_request_spec l l1 o l2 :
  first_request l = Some (l1, o, l2) → l = l1 ++ EvRequested o :: l2.
Proof.
  revert l1. induction l as [|x l IH]; intros l1; simpl; [done|].
  destruct x; try (intros [= <- <- <-]; done);
    (destruct (first_request l) as [[[k1 p] k2]|]; [|done]; simpl; intros [= <- <- <-];
     simpl; f_equal; by apply IH).
Qed.

Lemma segment_lifecycle_witness :
  phase (demo_segment "7") demo_trace = Opened "r-1" 5 3 ∧
  phase (demo_segment "1") demo_trace ≠ Violated.
Proof.
  split; [vm_compute; reflexivity|].
  apply (segment_lifecycle "agent.1" 5 demo_state demo_trace (demo_segment "1")), demo_table_reach.
Defined.

Lemma seal_covers_segment_witness :
  match first_request demo_trace with
  | Some (l1, o, l2) => positions (o_segment_id o) l1 = [0; 1] ∧ o_last_sequence o = 1 ∧
                        ∀ x, x ∈ l2 → ¬ names (o_segment_id o) x
  | None => False
  end.
Proof.
  assert (match first_request demo_trace with
          | Some (l1, o, l2) => positions (o_segment_id o) l1 = [0; 1] ∧ o_last_sequence o = 1
          | None => False end) as H by (vm_compute; split; reflexivity).
  destruct (first_request demo_trace) as [[[l1 o] l2]|] eqn:E; [|exact H].
  apply first_request_spec in E. pose proof demo_table_reach as Hr. rewrite E in Hr.
  destruct H as [H1 H2]. split; [exact H1|]. split; [exact H2|].
  apply (seal_covers_segment "agent.1" 5 demo_state l1 l2 o Hr).
Defined.

Lemma markers_well_placed_witness :
  ∃ m, EvQueued m ∈ demo_trace ∧ m_declared_branches m = [demo_segment "6"] ∧ marker_ok m = true.
Proof.
  assert (existsb (λ x, match x with
            | EvQueued m => bool_decide (m_declared_branches m = [demo_segment "6"])
            | _ => false end) demo_trace = true) as H by (vm_compute; reflexivity).
  apply existsb_elem_of in H as (x & Hx & Hd). destruct x as [| | |m|]; try discriminate Hd.
  apply bool_decide_eq_true in Hd. rename Hx into Hm.
  exists m. split; [exact Hm|]. split; [exact Hd|].
  apply (markers_well_placed "agent.1" 5 demo_state demo_trace m demo_table_reach Hm).
Defined.

Lemma run_table_consistent_witness :
  ∃ r, dget "r-1" (runs (table demo_state)) = Some r ∧ r_open_segment r = Some (demo_segment "7").
Proof.
  destruct (proj1 (run_table_consistent "agent.1" 5 demo_state demo_trace demo_table_reach)
              (demo_segment "7") "r-1") as [H _].
  destruct H as (r & Hr & _ & Ho); [vm_compute; reflexivity|]. exists r. split; [exact Hr|exact Ho].
Defined.
