(* ===== verification/Handoff.v ===== *)
(** * Blocks, tokens and hand-over of a run

    What the run table's operations do at the points where a run changes hands: a block's
    exit, a token issued in one process and resumed in another, and a run ended from its
    tokens. *)

From S2P Require Import Prelude PyDict Decimal Ids Tokens Markers Segments SegmentRuns.

(** ** Block exit *)

(** A live run of a reachable table. *)
Definition live (st : Sys) (k : string) (r : Run) : Prop :=
  closed (table st) = false ∧ dget k (runs (table st)) = Some r ∧ 0 < r_depth r.

(** The run ends here when its outermost block exits. *)
Definition ends (r : Run) : bool :=
  negb (r_fork_child r) && (negb (r_resumable r) || r_final_block r).

Definition requests (effects : list effect) : list SealOrder :=
  omap (λ e, match e with Requested o => Some o | _ => None end) effects.

Lemma requests_app l k : requests (l ++ k) = requests l ++ requests k.
Proof. apply omap_app. Qed.
Lemma requests_request o : requests (request o) = option_list o.
Proof. by destruct o. Qed.

Lemma open_requests p s r scope last epoch preds branches basis root t r' t' evs :
  open_segment p s r scope last epoch preds branches basis root t = (r', t', evs) →
  requests evs = [].
Proof. unfold open_segment. by intros [= <- <- <-]. Qed.

Lemma seal_terminal p terminal branches r t r' t' o :
  seal_segment p terminal branches r t = (r', t', Some o) →
  o_terminal o = terminal ∧ r_open_segment r = Some (o_segment_id o) ∧
  o_epoch o = r_open_epoch r ∧ o_run_id o = r_run_id r ∧ o_resumable o = r_resumable r ∧
  o_branch_ids o = branches ∧ r_terminal_sealed r' = r_terminal_sealed r || terminal ∧
  o_last_sequence o = Z.max (if decide (p_epoch p = r_open_epoch r) then p_last p else r_open_last r)
                        (r_open_last r) ∧
  r_resumable r' = r_resumable r ∧ r_final_block r' = r_final_block r ∧
  r_fork_child r' = r_fork_child r ∧
  r_outcome r' = r_outcome r ∧ r_stop_reason r' = r_stop_reason r ∧ r_run_id r' = r_run_id r ∧
  o_manifest_digest o = match manifest_for (r_open_epoch r) t with
                        | Some ref => ref_digest ref | None => NO_MANIFEST_DIGEST end.
Proof.
  unfold seal_segment. destruct (r_open_segment r) as [s|]; [|done]. by intros [= <- <- <-].
Qed.

(** The run the last seal of an exit sees: it has a segment of this epoch when the exit needs
    a seal. *)
Lemma exit_segment p s scope_id r t r2 t2 evs needs pend log :
  JT p r t pend log → usable s (fork t) log →
  (if needs && (negb (present (r_open_segment r)) || negb (r_open_epoch r =? p_epoch p)) then
     let '(r, t, o) := seal_segment p false [] r t in
     let '(r, t, evs) := open_segment p s r scope_id (p_last p) (p_epoch p) [] [] None None t in
     (r, t, request o ++ evs)
   else (r, t, [])) = (r2, t2, evs) →
  (needs = true → ∃ seg, r_open_segment r2 = Some seg ∧ r_open_epoch r2 = p_epoch p ∧
                         r_open_last r2 ≤ p_last p) ∧
  r_run_id r2 = r_run_id r ∧ r_resumable r2 = r_resumable r ∧
  (∀ o, o ∈ requests evs → o_terminal o = false).
Proof.
  intros HJ Hu. destruct (needs && _) eqn:Hc.
  - destruct (seal_segment _ _ _ _ _) as [[r1 t1] o] eqn:Hs.
    destruct (seal_JT _ _ _ _ _ _ _ _ _ _ _ HJ Hs) as (HJ1 & Hf1 & Hk1 & Hn1 & _).
    assert (r_resumable r1 = r_resumable r) as Hr1.
    { unfold seal_segment in Hs. by destruct (r_open_segment r); injection Hs as <- <- <-. }
    destruct (request_JW _ _ _ _ _ HJ1) as (HJ2 & Hu2 & _). apply Hu2 in Hu.
    destruct (open_segment _ _ _ _ _ _ _ _ _ _ _) as [[r3 t3] e3] eqn:Ho. intros [= <- <- <-].
    pose proof (open_requests _ _ _ _ _ _ _ _ _ _ _ _ _ _ Ho) as Hq.
    assert (r_resumable r3 = r_resumable r1) as Hr3.
    { unfold open_segment in Ho. by injection Ho as <- _ _. }
    eapply (open_JT p) in Ho as (_ & _ & Hk3 & Hs3 & He3 & Hl3 & _);
      [|exact HJ2|done| |apply (j_epoch _ _ _ _ _ _ _ HJ2)|done|done|done];
      [|by rewrite (sf_fork _ _ Hf1)].
    split_and!; [|congruence|congruence|].
    + intros _. exists s. split_and!; [done..|lia].
    + intros x. rewrite requests_app, requests_request, Hq, app_nil_r.
      destruct o as [o|]; [|by intros ?%not_elem_of_nil].
      intros ->%list_elem_of_singleton. by apply seal_terminal in Hs as (-> & _).
  - intros [= <- <- <-]. split_and!; [|done|done|by intros ? ?%not_elem_of_nil].
    intros ->. apply orb_false_iff in Hc as [Ho He]. to_prop.
    destruct (r_open_segment r) as [seg|] eqn:Hs; [|done]. exists seg. split_and!; [done..|].
    pose proof (j_runs _ _ _ _ _ _ _ HJ _ _ (dget_dset_eq _ _ _)) as Hri.
    destruct (ri_open _ _ _ _ _ Hri _ Hs) as (_ & _ & _ & Hb & _). auto.
Qed.

(** A block exit of a live run does exactly this. An inner block only records its
    [run_end]. The outermost one records the outcome that was set, and the run ends here,
    by a terminal seal of the segment its [run_end] names, up to the last position of the
    source, exactly when the run is not resumable or the block was final, and this process
    is not a fork child inside an inherited block; otherwise no terminal seal is
    requested. *)
Theorem exit_exact (source : string) (e : Z) (st : Sys) (log : list event)
    (s run_id scope_id : string) (status : ScopeStatus) (r : Run) (t' : Table)
    (effects : list effect) :
  reach source e st log → live st run_id r → s ∉ ids log → SEGMENT_ID_RE s = true →
  exit (pos st) s run_id scope_id status (table st) = (t', effects) →
  let p := pos st in
  (r_depth r ≠ 1 →
     effects = [Queued (run_end_marker p run_id scope_id (r_open_segment r) status None None)] ∧
     dget run_id (runs t') = Some (set_depth (r_depth r - 1) r)) ∧
  (r_depth r = 1 → ∃ segment pre post,
     effects = pre ++ Queued (run_end_marker p run_id scope_id segment status
                                (r_outcome r) (r_stop_reason r)) :: post ∧
     (∀ o, o ∈ requests pre → o_terminal o = false) ∧
     if ends r then ∃ o, post = [Requested o] ∧ o_terminal o = true ∧ o_run_id o = run_id ∧
          segment = Some (o_segment_id o) ∧ o_epoch o = p_epoch p ∧ o_last_sequence o = p_last p
     else ∀ o, o ∈ requests post → o_terminal o = false).
Proof.
  intros Hreach (Hcl & Hr & Hd) Hfresh Hid.
  pose proof (reach_Inv _ _ _ _ Hreach) as HI.
  assert (Inv st (log ++ [EvMinted s]) ∧ usable s (fork (table st)) (log ++ [EvMinted s]))
    as [HJ Hu] by by apply mint_usable.
  destruct (put_JW _ _ _ _ _ _ HJ Hr) as [HT Hk].
  unfold exit. rewrite Hcl, Hr, (proj2 (Z.leb_gt _ _)) by done. cbn zeta.
  change (r_depth (set_depth (r_depth r - 1) r)) with (r_depth r - 1).
  set (r1 := set_depth (r_depth r - 1) r).
  assert (JT (pos st) r1 (table st) (fork_seals (table st)) (log ++ [EvMinted s])) as HT1
    by by eapply same_JT.
  destruct (r_depth r - 1 =? 0) eqn:Hout; to_prop; cbn [andb].
  2:{ intros [= <- <-]. split; [|intros; lia]. intros _. cbn. rewrite Hk. split; [done|].
      by rewrite dget_dset_eq. }
  intros H. split; [intros; lia|]. intros _. revert H.
  change (negb (r_fork_child r1) && (negb (r_resumable r1) || r_final_block r1)) with (ends r).
  set (needs := ends r || _).
  destruct (if needs && _ then _ else _) as [[r2 t2] e1] eqn:Hm.
  pose proof (exit_segment _ _ _ _ _ _ _ _ _ _ _ HT1 Hu Hm) as (Hseg & Hk2 & _ & Hq).
  destruct (seal_segment _ (ends r) _ _ _) as [[r4 t4] o] eqn:Hs. intros [= <- <-].
  change (r_run_id r1) with (r_run_id r) in Hk2. rewrite Hk2, Hk.
  exists (r_open_segment r2), e1, (request o).
  assert (r_outcome r2 = r_outcome r ∧ r_stop_reason r2 = r_stop_reason r) as [-> ->].
  { revert Hm. destruct (needs && _); [|by intros [= <- _ _]].
    unfold seal_segment, open_segment. destruct (r_open_segment r1); by intros [= <- _ _]. }
  split_and!; [done..|].
  destruct (ends r) eqn:He.
  - destruct Hseg as (seg & Hseg & Hep & Hlast); [done|].
    destruct o as [o|]; [|unfold seal_segment in Hs; by rewrite Hseg in Hs].
    apply seal_terminal in Hs as (? & Ho & ? & ? & _ & _ & _ & Hl & _).
    exists o. split_and!; [done|done|congruence|done|congruence|].
    rewrite Hl, decide_True by done. lia.
  - intros x. rewrite requests_request. destruct o as [o|]; [|by intros ?%not_elem_of_nil].
    intros ->%list_elem_of_singleton. by apply seal_terminal in Hs as (-> & _).
Qed.

(** ** Issuing a token and resuming with it *)

(** The source, epoch and manifest an entry can carry. *)
Definition carries (st : Sys) : Prop :=
  opaque_id (p_source (pos st)) = true ∧ String.prefix "br-" (p_source (pos st)) = false ∧
  0 < p_epoch (pos st) ≤ INT64_MAX ∧ -1 ≤ p_last (pos st) ≤ INT64_MAX ∧
  match manifest (table st) with Some ref => digest_re (ref_digest ref) = true | None => True end.

Definition order_entry (source : string) (o : SealOrder) : Entry :=
  mk_entry (o_segment_id o) source (o_epoch o) (o_last_sequence o) (o_manifest_digest o).

(** The branches of the tokens one call issues. *)
Definition token_branches (branch_ids : list string) : list (option string) :=
  match branch_ids with [] => [None] | _ => Some <$> branch_ids end.

Lemma manifest_frame p epoch r t r' t' o :
  seal_old_epoch p epoch r t = (r', t', o) → manifest t' = manifest t.
Proof.
  unfold seal_old_epoch, seal_segment. case_match; [|by intros [= <- <- <-]].
  by destruct (r_open_segment r); intros [= <- <- <-].
Qed.

Lemma open_manifest p s r scope last epoch preds branches basis root t r' t' evs :
  open_segment p s r scope last epoch preds branches basis root t = (r', t', evs) →
  manifest t' = manifest t ∧ r_correlation_id r' = r_correlation_id r ∧
  r_resumable r' = r_resumable r.
Proof. unfold open_segment. intros [= <- <- <-]. by case_match. Qed.

(** A token resumed alone gives the identity it was issued for. *)
Lemma resolve_one map_run minted_run ok c e b run_id tok :
  parse_token tok = Some (mk_token 3 (Some c) e b) → from_option (λ f, f c) true ok = true →
  resolve_identity map_run minted_run ok [tok] run_id =
    mk_identity c id_token [format_entry e] (option_list b) 0 [c] 1.
Proof.
  intros Hp Hok. unfold resolve_identity.
  assert (parsed_tokens ok [tok] = [mk_token 3 (Some c) e b]) as ->.
  { unfold parsed_tokens. cbn [omap list_omap]. rewrite Hp. rewrite filter_cons_True; [done|].
    unfold token_ok. simpl. by destruct ok. }
  by destruct b.
Qed.

(** The run a token is issued from has a segment of this epoch, up to the source's last
    position. *)
Lemma issue_segment p s scope_id r t t1 r1 o1 r2 t2 evs pend log :
  JT p r t pend log → usable s (fork t) log →
  seal_old_epoch p (p_epoch p) r t = (r1, t1, o1) →
  match r_open_segment r1 with
  | None => open_segment p s r1 scope_id (p_last p) (p_epoch p) [] [] None None t1
  | Some _ => (r1, t1, [])
  end = (r2, t2, evs) →
  r_run_id r2 = r_run_id r ∧ r_correlation_id r2 = r_correlation_id r ∧
  manifest t2 = manifest t ∧ requests evs = [] ∧ r_open_epoch r2 = p_epoch p ∧
  ∃ seg, r_open_segment r2 = Some seg ∧ SEGMENT_ID_RE seg = true ∧ r_open_last r2 ≤ p_last p.
Proof.
  intros HT Hu Hold Hopn.
  destruct (seal_old_JT _ _ _ _ _ _ _ _ _ _ HT Hold) as (HT1 & Hf1 & Hk1 & Ho1 & _).
  pose proof (manifest_frame _ _ _ _ _ _ _ Hold) as Hm1.
  assert (r_correlation_id r1 = r_correlation_id r) as Hc1.
  { revert Hold. unfold seal_old_epoch, seal_segment.
    destruct (_ && _); [destruct (r_open_segment r)|]; intros E; by injection E as <-. }
  destruct (request_JW _ _ _ _ _ HT1) as (HT2 & Hu2 & _). apply Hu2 in Hu.
  assert (∃ lg, JT p r2 t2 pend lg ∧ r_run_id r2 = r_run_id r ∧
    r_correlation_id r2 = r_correlation_id r ∧ manifest t2 = manifest t ∧
    requests evs = [] ∧ r_open_epoch r2 = p_epoch p ∧
    ∃ seg, r_open_segment r2 = Some seg) as (lg & HT3 & Hk3 & Hc3 & Hm3 & Hq & He3 & seg & Hseg).
  { destruct (r_open_segment r1) as [seg|] eqn:Hs1.
    - injection Hopn as <- <- <-. eexists. split; [exact HT2|].
      destruct Ho1 as [Ho1|Ho1]; [congruence|]. split_and!; try congruence; [done|eauto].
    - pose proof (open_requests _ _ _ _ _ _ _ _ _ _ _ _ _ _ Hopn) as Hq.
      destruct (open_manifest _ _ _ _ _ _ _ _ _ _ _ _ _ _ Hopn) as (? & ? & ?).
      eapply (open_JT p) in Hopn as (HT3 & _ & ? & Hs & He & _);
        [|exact HT2|done| |apply (j_epoch _ _ _ _ _ _ _ HT2)|done|done|done].
      + eexists. split; [exact HT3|]. split_and!; try congruence. eauto.
      + by rewrite (sf_fork _ _ Hf1). }
  pose proof (j_runs _ _ _ _ _ _ _ HT3 _ _ (dget_dset_eq _ _ _)) as Hri.
  destruct (ri_open _ _ _ _ _ Hri _ Hseg) as (? & _ & _ & Hb & _).
  split_and!; [done..|]. exists seg. split_and!; auto.
Qed.

(** The entry of a seal up to the last position is well formed. *)
Lemma order_entry_wf st o t epoch :
  carries st → SEGMENT_ID_RE (o_segment_id o) = true → o_epoch o = p_epoch (pos st) →
  o_last_sequence o = p_last (pos st) → manifest t = manifest (table st) →
  o_manifest_digest o = match manifest_for epoch t with
                        | Some ref => ref_digest ref | None => NO_MANIFEST_DIGEST end →
  wf_entry (order_entry (p_source (pos st)) o) = true ∧
  int64_entry (order_entry (p_source (pos st)) o) = true.
Proof.
  intros (Hsrc & _ & Hep & Hlast & Hman) Hsid Hoe Hol Hm Hdg.
  assert (digest_re (o_manifest_digest o) = true) as Hdig.
  { rewrite Hdg. unfold manifest_for. rewrite Hm. destruct (manifest (table st)); [|done].
    by case_decide. }
  unfold wf_entry, int64_entry, order_entry, INT64_MAX in *. cbn.
  rewrite Hsid, Hoe, Hol, Hsrc, Hdig. split; repeat (apply andb_true_iff; split); try done; lia.
Qed.

Lemma token_branch_ok branch_ids i b :
  Forall (λ b, BRANCH_ID_RE b = true) branch_ids → token_branches branch_ids !! i = Some b →
  branch_ok b = true.
Proof.
  intros Hbr Hb. rewrite Forall_forall in Hbr. destruct b as [b|]; [|done].
  apply list_elem_of_lookup_2 in Hb. unfold token_branches in Hb. simpl. apply Hbr.
  destruct branch_ids; [by apply list_elem_of_singleton in Hb|].
  by apply list_elem_of_fmap in Hb as (x & [= ->] & ?).
Qed.

(** C12: a token carries a run to another process. When a live run of a source whose id,
    epoch, last position and manifest digest an entry can carry ([carries]: an opaque id that
    does not begin like a branch id, 64-bit numbers, a well-formed digest) issues tokens
    under a fresh segment id and well-formed branch ids, its open segment (or a zero-width one)
    is sealed, non-terminal and resumable, at the last position of the source, listing the
    branch ids; there is one token per branch, or one token without branches; and whoever resumes with one of them and accepts the run id
    resolves to the very id the run has here, with the basis [token], that sealed segment as
    the only predecessor, and that branch. *)
Theorem token_handoff (source : string) (e : Z) (st : Sys) (log : list event)
    (s run_id scope_id : string) (branch_ids : list string) (r : Run) (t' : Table)
    (effects : list effect) (tokens : list string) :
  reach source e st log → live st run_id r → s ∉ ids log → SEGMENT_ID_RE s = true →
  carries st → Forall (λ b, BRANCH_ID_RE b = true) branch_ids →
  issue (pos st) s run_id scope_id branch_ids (table st) = Ok (t', effects, tokens) →
  ∃ (o : SealOrder) (pre : list SealOrder),
    requests effects = pre ++ [o] ∧
    o_run_id o = run_id ∧ o_terminal o = false ∧ o_resumable o = true ∧
    o_branch_ids o = branch_ids ∧ o_epoch o = p_epoch (pos st) ∧
    o_last_sequence o = p_last (pos st) ∧
    length tokens = length (token_branches branch_ids) ∧
    ∀ i b tok, token_branches branch_ids !! i = Some b → tokens !! i = Some tok →
      ∀ map_run minted_run ok caller,
        from_option (λ f, f run_id) true ok = true →
        resolve_identity map_run minted_run ok [tok] caller =
          mk_identity run_id id_token
            [format_entry (order_entry (p_source (pos st)) o)] (option_list b) 0 [run_id] 1.
Proof.
  intros Hreach (Hcl & Hr & Hd) Hfresh Hid Hcar Hbr.
  destruct (mint_usable _ _ _ (reach_Inv _ _ _ _ Hreach) Hfresh Hid) as [HJ Hu].
  destruct (put_JW _ _ _ _ _ _ HJ Hr) as [HT Hk].
  assert (r_correlation_id r = run_id) as Hcor.
  { rewrite <-Hk. apply (ri_correlation _ _ _ _ _ (j_runs _ _ _ _ _ _ _ HJ _ _ Hr)). }
  unfold issue. rewrite Hcl, Hr, (proj2 (Z.leb_gt _ _)) by done.
  destruct (opaque_id (r_correlation_id r)) eqn:Hop; [|done]. cbn [negb].
  destruct (seal_old_epoch _ _ _ _) as [[r1 t1] o1] eqn:Hold.
  destruct (match r_open_segment r1 with Some _ => _ | None => _ end) as [[r2 t2] evs] eqn:Hopn.
  destruct (issue_segment _ _ _ _ _ _ _ _ _ _ _ _ _ HT Hu Hold Hopn)
    as (Hk3 & Hc3 & Hm3 & Hq & He3 & seg & Hseg & Hsid & Hle).
  destruct (seal_segment _ _ _ _ _) as [[r4 t4] [o|]] eqn:Hs;
    [|by unfold seal_segment in Hs; simpl in Hs; rewrite Hseg in Hs].
  assert (r_correlation_id r4 = r_correlation_id r2) as Hc4.
  { unfold seal_segment in Hs. simpl in Hs. rewrite Hseg in Hs. by injection Hs as <- _ _. }
  apply seal_terminal in Hs as (Ht & Hs2 & Hoe & Hor & Hres & Hbo & _ & Hol & _ & _ & _ & _ & _ & _ & Hdg).
  simpl in *. rewrite decide_True in Hol by done. intros [= <- <- <-]. exists o, (option_list o1).
  split_and!; try congruence; [by rewrite !requests_app, !requests_request, Hq|lia|..].
  { unfold token_branches. by rewrite length_fmap. }
  intros i b tok Hb Htok map_run minted_run ok caller Hok. rewrite <-Hcor in Hok |- *. apply resolve_one; [|done].
  rewrite list_lookup_fmap in Htok. fold (token_branches branch_ids) in Htok.
  rewrite Hb in Htok. injection Htok as <-.
  destruct (order_entry_wf st o t2 (r_open_epoch r2)) as [Hwf H64]; try congruence; [lia|].
  pose proof (token_branch_ok _ _ _ Hbr Hb) as Hbok. destruct Hcar as (_ & Hnbr & _).
  change (mk_entry (o_segment_id o) _ _ _ _) with (order_entry (p_source (pos st)) o).
  rewrite (proj2 (format_token_iff (r_correlation_id r4) _ b
    (print_token (mk_token 3 (Some (r_correlation_id r)) (order_entry (p_source (pos st)) o) b)) Hwf H64)).
  - apply parse_token_iff. split; [|by unfold or_str; rewrite decide_False]. split_and!; done.
  - split_and!; [congruence|done|exact Hnbr|congruence].
Qed.

(** ** Ending a run from its tokens *)

Lemma omap_filter_parsed (parsed : list ResumeToken) (tokens : list string) :
  omap parse_token (filter (λ s, match parse_token s with
                    | Some k => bool_decide (k ∈ parsed) | None => false end = true) tokens) =
  filter (λ k, k ∈ parsed) (omap parse_token tokens).
Proof.
  induction tokens as [|s l IH]; [done|]. rewrite filter_cons. csimpl.
  destruct (parse_token s) as [k|] eqn:Hs.
  - rewrite filter_cons. case_decide as H1; to_prop.
    + rewrite decide_True by done. csimpl. by rewrite Hs, IH.
    + rewrite decide_False; [done|]. intros H2. apply H1. by apply bool_decide_eq_true.
  - by rewrite decide_False.
Qed.

(** The tokens [end] keeps are the ones it parsed. *)
Lemma kept_parsed ok tokens :
  let parsed := parsed_tokens ok tokens in
  parsed_tokens None (filter (λ s, match parse_token s with
                    | Some k => bool_decide (k ∈ parsed) | None => false end = true) tokens) = parsed.
Proof.
  cbn zeta. unfold parsed_tokens at 1. rewrite omap_filter_parsed, list_filter_filter.
  apply filter_iff_in. intros k Hk. unfold parsed_tokens. rewrite list_elem_of_filter.
  split; [tauto|]. intros ?. split; [|tauto]. unfold token_ok. by destruct (correlation_id k).
Qed.

(** [end] refuses without doing anything, or ends the run its valid tokens name with
    exactly three effects: a [run_start] whose predecessors are the tokens' entries, a
    [run_end] with the outcome, and a terminal seal of that zero-width segment; a local
    run of that id is then known to be ended. *)
Theorem end_run_exact (p : Position) (s scope_id : string) (map_run : string → string)
    (minted_run : string) (ok : option (string → bool)) (caller : option string)
    (outcome : RunOutcome) (tokens : list string) (stop : option StopReason) (t t' : Table)
    (effects : list effect) (status : EndRunStatus) :
  end_run p s scope_id map_run minted_run ok caller outcome tokens stop t = (t', effects, status) →
  let parsed := parsed_tokens ok tokens in
  let i := resolve_identity map_run minted_run ok tokens caller in
  match status with
  | not_capturing => closed t = true ∧ effects = []
  | refused_no_token => parsed = [] ∧ effects = []
  | refused_conflicting_tokens =>
      caller = None ∧ (1 < length (correlations_of parsed))%nat ∧ effects = []
  | ended =>
      parsed ≠ [] ∧ ∃ m1 m2 o, effects = [Queued m1; Queued m2; Requested o] ∧
        requests effects = [o] ∧ m_kind m1 = run_start ∧ m_segment_id m1 = Some s ∧ m_run_id m1 = Some (i_run_id i) ∧
        m_predecessors m1 = take MAX_PREDECESSORS (fromkeys (token_entry <$> parsed)) ∧
        m2 = run_end_marker p (i_run_id i) scope_id (Some s) scope_ok (Some outcome) stop ∧
        o_segment_id o = s ∧ o_run_id o = i_run_id i ∧ o_terminal o = true ∧
        o_last_sequence o = p_last p ∧
        ∀ r, get (i_run_id i) t' = Some r → r_terminal_sealed r = true
  | refused_bad_token | end_failed => False
  end.
Proof.
  unfold end_run. destruct (closed t) eqn:Hcl; [by intros [= <- <- <-]|]. cbn zeta.
  set (parsed := parsed_tokens ok tokens). set (t1 := rejected _ t).
  case_decide as Hp; [by intros [= <- <- <-]|].
  destruct (bool_decide (caller = None) && _) eqn:Hc.
  { intros [= <- <- <-]. to_prop. apply Nat.ltb_lt in H0. done. }
  set (i' := resolve_identity _ _ None _ _).
  assert (i_run_id i' = i_run_id (resolve_identity map_run minted_run ok tokens caller) ∧
          i_predecessors i' = fromkeys (token_entry <$> parsed)) as [Hid Hpreds].
  { unfold i', resolve_identity. pose proof (kept_parsed ok tokens) as Hkept. cbn zeta in Hkept. fold parsed in Hkept. rewrite Hkept. fold parsed.
    destruct (identity_basis _ _ parsed caller) as [out basis].
    rewrite predecessor_fold, !append_new_fromkeys. cbn. split; [done|].
    rewrite decide_False; [done|]. rewrite fromkeys_nil. by destruct parsed. }
  destruct (end_segment _ _ _ _ _ _ _) as [t2 e2] eqn:He. intros [= <- <- <-].
  split; [done|].
  apply end_segment_events in He as (m1 & m2 & o & -> & Hk & Hs1 & Hr1 & _ & He1 & Hl1 & -> & Ho1
    & Ho2 & Ho3 & Ho4 & Ht & _ & Hpr & Hsr & t0 & Hf0 & Hs0 & Hru & Hrt & _).
  exists m1, (run_end_marker p (i_run_id i') scope_id (Some s) scope_ok (Some outcome) stop), o.
  rewrite <-Hid. split_and!; try done.
  - rewrite Hpr, Hpreds; [done|]. rewrite Hpreds, fromkeys_nil. by destruct parsed.
  - intros r. unfold get. rewrite Hru, Hrt. unfold mark_terminal.
    destruct (dget (i_run_id i') (runs t0)) as [r0|] eqn:H0; cbn; [by rewrite dget_dset_eq; intros [= <-]|].
    destruct (dget (i_run_id i') (retired t0)) as [r0|] eqn:H1; cbn; rewrite H0;
      [by rewrite dget_dset_eq; intros [= <-]|]. by rewrite H1.
Qed.

(** ** Witnesses *)

Lemma demo_live : ∃ r, live demo_state "r-1" r ∧ r_depth r = 1 ∧ ends r = false ∧
  r_correlation_id r = "r-1".
Proof. eexists. split; [|split; [|split]]; [split; [|split]|..]; vm_compute; reflexivity. Qed.

Lemma demo_fresh : demo_segment "8" ∉ ids demo_trace.
Proof. apply (bool_decide_unpack (demo_segment "8" ∉ ids demo_trace)). vm_compute. exact I. Qed.

(** A resumable run's outermost exit seals without ending the run. *)
Lemma exit_exact_witness :
  ∃ t' effects, exit (pos demo_state) (demo_segment "8") "r-1" "scope-1" scope_ok (table demo_state)
                = (t', effects) ∧
    ∃ segment pre post, effects = pre ++ Queued (run_end_marker (pos demo_state) "r-1" "scope-1"
                                                  segment scope_ok None None) :: post ∧
      ∀ o, o ∈ requests post → o_terminal o = false.
Proof.
  destruct demo_live as (r & Hl & Hd & He & _).
  destruct (exit (pos demo_state) (demo_segment "8") "r-1" "scope-1" scope_ok (table demo_state))
    as [t' effects] eqn:Hx.
  exists t', effects. split; [reflexivity|].
  pose proof (exit_exact "agent.1" 5 demo_state demo_trace (demo_segment "8") "r-1" "scope-1" scope_ok
                r t' effects demo_table_reach Hl) as H.
  destruct H as [_ H]; [exact demo_fresh|vm_compute; reflexivity|exact Hx|].
  destruct (H Hd) as (segment & pre & post & Heq & _ & Hp). rewrite He in Hp.
  assert (r_outcome r = None ∧ r_stop_reason r = None) as [Ho Hs].
  { destruct Hl as (_ & Hr & _).
    assert ((r_outcome <$> dget "r-1" (runs (table demo_state))) = Some None ∧
            (r_stop_reason <$> dget "r-1" (runs (table demo_state))) = Some None) as [H1 H2]
      by (split; vm_compute; reflexivity).
    rewrite Hr in H1, H2. injection H1 as H1. injection H2 as H2. split; assumption. }
  rewrite Ho, Hs in Heq. exists segment, pre, post. split; [exact Heq|exact Hp].
Qed.

Lemma token_handoff_witness :
  ∃ tok, match issue (pos demo_state) (demo_segment "8") "r-1" "scope-1" [] (table demo_state) with
         | Ok (_, _, tokens) => tokens = [tok]
         | Raise _ => False
         end ∧
    i_run_id (resolve_identity (λ x, x) "r-minted" None [tok] None) = "r-1".
Proof.
  destruct demo_live as (r & Hl & _ & _ & Hc).
  destruct (issue (pos demo_state) (demo_segment "8") "r-1" "scope-1" [] (table demo_state))
    as [[[t' effects] tokens]|x] eqn:Hi; [|vm_compute in Hi; discriminate Hi].
  destruct (token_handoff "agent.1" 5 demo_state demo_trace (demo_segment "8") "r-1" "scope-1" [] r t'
              effects tokens demo_table_reach Hl) as (o & pre & _ & _ & _ & _ & _ & _ & _ & Hn & Ht).
  - exact demo_fresh.
  - vm_compute. reflexivity.
  - vm_compute. repeat split; discriminate.
  - constructor.
  - exact Hi.
  - destruct tokens as [|tok [|? ?]]; [discriminate Hn| |discriminate Hn].
    exists tok. split; [reflexivity|].
    rewrite (Ht 0%nat None tok eq_refl eq_refl (λ x, x) "r-minted" None None eq_refl). reflexivity.
Defined.

Lemma end_run_exact_witness :
  let token := "fr3/r-1/" +:+ format_entry demo_entry in
  let run := end_run (pos demo_state) (demo_segment "8") "scope-2" (λ x, x) "r-minted" None None
               failed [token; "junk"] None (table demo_state) in
  run.2 = ended ∧
  ∃ m1 m2 o, run.1.2 = [Queued m1; Queued m2; Requested o] ∧ o_terminal o = true ∧
    m_predecessors m1 = [format_entry demo_entry].
Proof.
  cbn zeta. set (token := "fr3/r-1/" +:+ format_entry demo_entry).
  destruct (end_run (pos demo_state) (demo_segment "8") "scope-2" (λ x, x) "r-minted" None None
              failed [token; "junk"] None (table demo_state)) as [[t' effects] status] eqn:He.
  assert (status = ended) as ->.
  { apply (f_equal snd) in He. vm_compute in He. symmetry. exact He. }
  split; [reflexivity|].
  destruct (end_run_exact _ _ _ _ _ _ _ _ _ _ _ _ _ _ He)
    as (_ & m1 & m2 & o & Heff & _ & _ & _ & _ & Hp & _ & _ & _ & Ht & _).
  exists m1, m2, o. split; [exact Heff|]. split; [exact Ht|]. rewrite Hp. vm_compute. reflexivity.
Qed.
