(* ===== verification/Graph.v ===== *)
(** * The segment graph

    [fabric/reconstruct/_graph.py] (spec 050 section 3.12, spec 049 section 2.10): segments
    are grouped into runs ([merge_runs]), and the first of the rules G1 to G10 that fires
    decides the state of a run ([decide_run]). The graph loops carry fuel; [GraphSearch]
    proves the fuel given here enough. An indexed look-up has a default here; [GraphStrict] and
    [GraphTotal] write each as the code does, raising, and show that none fails.

    Times are nanoseconds since the Unix epoch, datetimes microseconds since it; a set is a
    finite set, and a loop over a set takes its elements in any fixed order. *)

From S2P Require Import Prelude PyDict Hash Json Report Decimal Ids Tokens.

(** ** Data *)

Inductive RunState :=
  | terminated | run_is_open | unterminated | conflicted | not_resumable_unclosed
  | deadline_uncertain.
Inductive SegmentState := seg_sealed | seg_unsealed | seg_missing | seg_conflict.
Inductive Rule := G1 | G2 | G3 | G4 | G5 | G7 | G8 | G9 | G10 | clock.

#[export] Instance RunState_eq_dec : EqDecision RunState.
Proof. solve_decision. Defined.
#[export] Instance SegmentState_eq_dec : EqDecision SegmentState.
Proof. solve_decision. Defined.
#[export] Instance Rule_eq_dec : EqDecision Rule.
Proof. solve_decision. Defined.

Definition DEFAULT_OPEN_RUN_DEADLINE_S : Z := 604800.
Definition DEFAULT_MAX_CLOCK_UNCERTAINTY_NS : Z := 300000000000.
Definition NS_PER_S : Z := 1000000000.
Definition NS_PER_US : Z := 1000.

Record SegmentNode := mk_node {
  n_segment_id : string;
  n_run_id : string;
  n_source_id : string;
  n_epoch : Z;
  n_predecessors : list string;
  n_id_basis : option IdBasis;
  n_branch_ids : list string;
  n_declared_branches : list string;
  n_start_ns : option Z;
  n_last_sequence : option Z;
  n_terminal : option bool;
  n_resumable : option bool;
  n_clock_uncertainty_ns : option Z;
  n_issued_branch_ids : list string;
  n_manifest_digest : option string;
  n_state : option SegmentState;
  n_start_resumable : option bool;
  n_open_deadline_s : option Z;
  n_manifest_open_run_deadline_s : option Z;
  n_sealed_ns : option Z;
}.

#[export] Instance SegmentNode_eq_dec : EqDecision SegmentNode.
Proof. solve_decision. Defined.

(** [SegmentNode.seal_state] *)
Definition seal_state (n : SegmentNode) : SegmentState :=
  match n_state n with
  | Some s => s
  | None => match n_last_sequence n with None => seg_unsealed | Some _ => seg_sealed end
  end.

(** [SegmentNode.is_root] *)
Definition is_root (n : SegmentNode) : bool := bool_decide (n_predecessors n = ROOT).

Record IdBasisConflict := mk_conflict { ic_segment_id : string; ic_run_ids : list string }.

Record RunGraph := mk_graph {
  g_run_id : string;
  g_segments : list SegmentNode;
  g_run_state : RunState;
  g_run_aliases : list string;
  g_id_basis_conflicts : list IdBasisConflict;
  g_gaps : list Gap;
  g_deadline_at : option Z;
  g_resumable : bool;
  g_open_run_deadline_s : option Z;
  g_rule : Rule;
  g_terminal_segment_id : option string;
}.

(** [RunGraph.member_run_ids] *)
Definition member_run_ids (g : RunGraph) : list string := g_run_id g :: g_run_aliases g.

(** [_graph.parse_entry]: the pattern of the resume tokens, without their 64-bit bound. *)
Definition graph_entry (s : string) : option Entry := entry_match s.

(** [_entries] *)
Definition entries (n : SegmentNode) : list Entry :=
  omap graph_entry (filter (λ p, p ≠ "none") (n_predecessors n)).

Notation nodes_of := (list (string * SegmentNode)) (only parsing).

(** ** Edges and order *)

(** A set of a dictionary of sets. *)
Definition sget (k : string) (d : list (string * gset string)) : gset string :=
  default ∅ (dget k d).

Definition add_edge (nodes : nodes_of) (n : SegmentNode) (out : list (string * gset string))
    (e : Entry) : list (string * gset string) :=
  if din (segment_id e) nodes
  then dset (segment_id e) ({[n_segment_id n]} ∪ sget (segment_id e) out) out else out.

Definition successors (nodes : nodes_of) : list (string * gset string) :=
  foldl (λ out n, foldl (add_edge nodes n) out (entries n)) ((λ p, (p.1, ∅)) <$> nodes) nodes.*2.

(** [indegree\[s\]], and one round of the loop over the successors of the current segment. *)
Definition iget (k : string) (d : list (string * Z)) : Z := default 0 (dget k d).

Definition count_in (ind : list (string * Z)) (following : gset string) : list (string * Z) :=
  foldl (λ ind s, dset s (iget s ind + 1) ind) ind (elements following).

Definition release (st : list (string * Z) * list string) (s : string)
    : list (string * Z) * list string :=
  let '(ind, ready) := st in
  let d := iget s ind - 1 in
  (dset s d ind, if d =? 0 then ready ++ [s] else ready).

Fixpoint kahn (fuel : nat) (succ : list (string * gset string)) (ind : list (string * Z))
    (ready out : list string) : list string :=
  match fuel, ready with
  | S fuel, current :: ready =>
      let '(ind, ready) := foldl release (ind, ready) (elements (sget current succ)) in
      kahn fuel succ ind (sort_str ready) (out ++ [current])
  | _, _ => out
  end.

(** [_topological] *)
Definition topological (nodes : nodes_of) : list string :=
  let succ := successors nodes in
  let ind := foldl count_in ((λ p, (p.1, 0)) <$> nodes) succ.*2 in
  let ready := sort_str (filter (λ p, p.2 = 0) ind).*1 in
  let out := kahn (length nodes) succ ind ready [] in
  out ++ sort_str (filter (λ s, s ∉ out) nodes.*1).

(** ** Run grouping *)

(** [find], with path halving: the new parents and the root. *)
Fixpoint find (fuel : nat) (parent : list (string * string)) (x : string)
    : list (string * string) * string :=
  let up y := default y (dget y parent) in
  match fuel with
  | O => (parent, x)
  | S fuel =>
      if decide (up x = x) then (parent, x)
      else find fuel (dset x (up (up x)) parent) (up (up x))
  end.

(** [find] with fuel for any chain of parents. *)
Definition find_root (parent : list (string * string)) (x : string) :=
  find (length parent) parent x.

Definition union (winner loser : string) (parent : list (string * string))
    : list (string * string) :=
  let '(parent, win) := find_root parent winner in
  let '(parent, lose) := find_root parent loser in
  if decide (win = lose) then parent else dset lose win parent.

(** [_MERGING_BASES] *)
Definition merging (b : option IdBasis) : bool :=
  match b with Some id_caller_join | Some id_legacy | None => true | _ => false end.

(** One predecessor of a merging segment. *)
Definition merge_entry (nodes : nodes_of) (n : SegmentNode) (parent : list (string * string))
    (e : Entry) : list (string * string) :=
  match dget (segment_id e) nodes with
  | None => parent
  | Some predecessor =>
      if decide (n_run_id predecessor = n_run_id n) then parent
      else if decide (n_id_basis n = Some id_caller_join)
      then union (n_run_id n) (n_run_id predecessor) parent
      else union (n_run_id predecessor) (n_run_id n) parent
  end.

Definition merge_segment (nodes : nodes_of) (parent : list (string * string)) (s : string)
    : list (string * string) :=
  match dget s nodes with
  | Some n => if merging (n_id_basis n) then foldl (merge_entry nodes n) parent (entries n) else parent
  | None => parent
  end.

(** The final dictionary comprehension: one [find] per run id, each on the parents the
    previous one left. *)
Fixpoint canonical_ids (ids : list string) (parent : list (string * string))
    : list (string * string) :=
  match ids with
  | [] => []
  | x :: ids => let '(parent, root) := find_root parent x in (x, root) :: canonical_ids ids parent
  end.

Definition initial_parents (nodes : nodes_of) : list (string * string) :=
  foldl (λ d n, dset (n_run_id n) (n_run_id n) d) [] nodes.*2.

(** [_merge_runs] *)
Definition merge_runs (nodes : nodes_of) : list (string * string) :=
  let parent := foldl (merge_segment nodes) (initial_parents nodes) (topological nodes) in
  canonical_ids parent.*1 parent.

(** ** Cycles: [_on_cycles], Tarjan's algorithm without recursion *)

Record Tarjan := mk_tarjan {
  tj_index : list (string * Z);
  tj_low : list (string * Z);
  tj_stack : list string;            (** the top first *)
  tj_on_stack : gset string;
  tj_out : list string;
  tj_work : list (string * list string);  (** the top first, with the children still to visit *)
}.

(** Number a node and start on it. *)
Definition tj_enter (succ : list (string * gset string)) (v : string) (st : Tarjan) : Tarjan :=
  let n := Z.of_nat (length (tj_index st)) in
  mk_tarjan (dset v n (tj_index st)) (dset v n (tj_low st)) (v :: tj_stack st)
    ({[v]} ∪ tj_on_stack st) (tj_out st) ((v, sort_set (sget v succ)) :: tj_work st).

Definition tj_lower (v : string) (n : Z) (low : list (string * Z)) : list (string * Z) :=
  dset v (Z.min (iget v low) n) low.

(** Pop the stack down to [v]: the component, as popped, and the rest. *)
Fixpoint pop_to (v : string) (stack : list string) : list string * list string :=
  match stack with
  | [] => ([], [])
  | x :: stack =>
      if decide (x = v) then ([x], stack)
      else let '(component, rest) := pop_to v stack in (x :: component, rest)
  end.

(** One round of [while work]. *)
Definition tj_step (succ : list (string * gset string)) (st : Tarjan) : Tarjan :=
  match tj_work st with
  | [] => st
  | (current, child :: children) :: work =>
      let st := mk_tarjan (tj_index st) (tj_low st) (tj_stack st) (tj_on_stack st) (tj_out st)
                  ((current, children) :: work) in
      if negb (din child (tj_index st)) then tj_enter succ child st
      else if bool_decide (child ∈ tj_on_stack st)
      then mk_tarjan (tj_index st) (tj_lower current (iget child (tj_index st)) (tj_low st))
             (tj_stack st) (tj_on_stack st) (tj_out st) (tj_work st)
      else st
  | (current, []) :: work =>
      let low := match work with
                 | (parent, _) :: _ => tj_lower parent (iget current (tj_low st)) (tj_low st)
                 | [] => tj_low st
                 end in
      if negb (iget current low =? iget current (tj_index st))
      then mk_tarjan (tj_index st) low (tj_stack st) (tj_on_stack st) (tj_out st) work
      else
        let '(component, stack) := pop_to current (tj_stack st) in
        let out := if (1 <? length component)%nat || bool_decide (current ∈ sget current succ)
                   then tj_out st ++ component else tj_out st in
        mk_tarjan (tj_index st) low stack (tj_on_stack st ∖ list_to_set component) out work
  end.

Fixpoint tj_loop (fuel : nat) (succ : list (string * gset string)) (st : Tarjan) : Tarjan :=
  match fuel with
  | O => st
  | S fuel => match tj_work st with [] => st | _ => tj_loop fuel succ (tj_step succ st) end
  end.

(** One round for each child, and two for each node. *)
Definition tj_fuel (succ : list (string * gset string)) : nat :=
  list_sum ((λ p, S (S (size p.2))) <$> succ).

Definition on_cycles (succ : list (string * gset string)) : list string :=
  let st := foldl (λ st start,
      if din start (tj_index st) then st else tj_loop (tj_fuel succ) succ (tj_enter succ start st))
    (mk_tarjan [] [] [] ∅ [] []) (sort_str succ.*1) in
  sort_str (tj_out st).

(** ** Datetimes *)

(** [_ns_of] of a UTC datetime given in microseconds. *)
Definition ns_of (us : Z) : Z := us * NS_PER_US.

(** [_datetime_of]: a datetime lies in the years 1 to 9999, and a timedelta within 999,999,999
    days. *)
Definition MIN_DATETIME_US : Z := -62135596800000000.
Definition MAX_DATETIME_US : Z := 253402300799999999.

Definition datetime_of (ns : Z) : result Z :=
  let us := ns / NS_PER_US in
  if (MIN_DATETIME_US <=? us) && (us <=? MAX_DATETIME_US) then Ok us else Raise OverflowError.

Record Clocks := mk_clocks { c_evaluated_ns : Z; c_verifier_ns : Z; c_bound_ns : Z }.

(** [_Decision] *)
Record Decision_ := mk_decision {
  d_rule : Rule;
  d_state : RunState;
  d_gaps : list Gap;
  d_deadline_at : option Z;
  d_deadline_s : option Z;
}.

(** ** One run: [_RunBuilder] *)

Record Builder := mk_builder {
  b_run_id : string;
  b_members : list SegmentNode;
  b_aliases : list string;
  b_everything : list (string * SegmentNode);
  b_clocks : Clocks;
  b_present : list (string * SegmentNode);
  b_missing : list (string * SegmentNode);
  b_successors : list (string * gset string);
}.

Definition missing_node (run_id : string) (e : Entry) : SegmentNode :=
  mk_node (segment_id e) run_id (source_id e) (epoch e) [] None [] [] None None None None None []
    None (Some seg_missing) None None None None.

Definition note_missing (run_id : string) (everything missing : nodes_of) (e : Entry) : nodes_of :=
  if din (segment_id e) everything || din (segment_id e) missing then missing
  else dset (segment_id e) (missing_node run_id e) missing.

Definition node_leb (a b : SegmentNode) : bool := String.leb (n_segment_id a) (n_segment_id b).

(** [__post_init__] *)
Definition new_builder (run_id : string) (members : list SegmentNode) (aliases : list string)
    (everything : nodes_of) (clocks : Clocks) : Builder :=
  let members := py_sort node_leb members in
  let present := foldl (λ d n, dset (n_segment_id n) n d) [] members in
  mk_builder run_id members aliases everything clocks present
    (foldl (λ missing n, foldl (note_missing run_id everything) missing (entries n)) [] members)
    (successors present).

Definition gap_at (t : GapType) (e : Effect) (n : SegmentNode) (why : string) : Gap :=
  mkGap t e None (Some (n_source_id n)) (Some (n_epoch n)) None None None None None (Some why)
    (Some (n_segment_id n)).

(** [_disagrees] *)
Definition disagrees (e : Entry) (named : SegmentNode) : bool :=
  if negb (bool_decide (source_id e = n_source_id named ∧ epoch e = n_epoch named)) then true
  else if match n_last_sequence named with
          | Some last => negb (last_sequence e =? last) | None => false end then true
  else match n_manifest_digest named with
       | Some d => negb (bool_decide (manifest_digest e = d)) | None => false end.

Section builder.
Variable b : Builder.

Definition is_terminal (n : SegmentNode) : bool := truthy (n_terminal n).

(** [_root]: the earliest root; a root without a start time comes last. *)
Definition root_leb (x y : SegmentNode) : bool :=
  match n_start_ns x, n_start_ns y with
  | Some s, Some t => if s =? t then node_leb x y else s <? t
  | Some _, None => true
  | None, Some _ => false
  | None, None => node_leb x y
  end.

Definition run_root : option SegmentNode :=
  head (py_sort root_leb (filter (λ n, is_root n = true) (b_members b))).

(** [_resumable] *)
Definition run_resumable : bool :=
  existsb (λ n, truthy (n_resumable n) || (is_root n && truthy (n_start_resumable n))) (b_members b).

(** *** G1 *)

(** [_list_conflict] *)
Definition list_conflict (n : SegmentNode) : list IdBasisConflict :=
  let run_ids : gset string := list_to_set (n_run_id n :: omap (λ e,
        n_run_id <$> dget (segment_id e) (b_everything b)) (entries n)) in
  if (1 <? size run_ids)%nat then [mk_conflict (n_segment_id n) (sort_set run_ids)] else [].

Definition entry_gap (n : SegmentNode) (e : Entry) : list Gap :=
  match dget (segment_id e) (b_present b) with
  | None => if din (segment_id e) (b_everything b)
            then [gap_at segment_conflict partial n "predecessor_in_other_run"] else []
  | Some named => if disagrees e named
                  then [gap_at segment_conflict partial n "predecessor_mismatch"] else []
  end.

(** [_entry_conflicts]: the gaps, and the conflicts it lists. *)
Definition entry_conflicts : list Gap * list IdBasisConflict :=
  foldl (λ acc n,
      if decide (n_id_basis n = Some id_token_conflict)
      then (acc.1 ++ [gap_at segment_conflict partial n "token_conflict"], acc.2 ++ list_conflict n)
      else (acc.1 ++ (entries n ≫= entry_gap n), acc.2))
    ([], []) (b_members b).

(** [_branches_not_issued] *)
Definition branches_not_issued (n : SegmentNode) : list Gap :=
  match n_branch_ids n with
  | [] => []
  | _ =>
      let named := (λ e, dget (segment_id e) (b_present b)) <$> entries n in
      if existsb (λ i, match i with
                       | None => true
                       | Some i => negb (bool_decide (seal_state i = seg_sealed)) end) named then []
      else
        let issued := omap (λ i, i) named ≫= n_issued_branch_ids in
        if forallb (λ x, bool_decide (x ∈ issued)) (n_branch_ids n) then []
        else [gap_at segment_conflict partial n "branch_not_issued"]
  end.

Definition roots_by_run : list (string * list SegmentNode) :=
  foldl (λ d n, if is_root n then dappend (n_run_id n) n d else d) [] (b_members b).

Definition branch_consumers : list (string * list SegmentNode) :=
  foldl (λ d n, foldl (λ d branch, dappend branch n d) d (fromkeys (n_branch_ids n))) [] (b_members b).

(** The nodes listed more than once under a key, with the same gap each. *)
Definition repeated (d : list (string * list SegmentNode)) (why : string) : list Gap :=
  sort_str d.*1 ≫= λ k, let ns := default [] (dget k d) in
    if (1 <? length ns)%nat then (λ n, gap_at segment_conflict partial n why) <$> ns else [].

Definition cycle_gaps : list Gap :=
  omap (λ s, (λ n, gap_at segment_conflict partial n "cycle") <$> dget s (b_present b))
    (on_cycles (b_successors b)).

(** [None] from a check means that it does not fire. *)
Definition or_none (gaps : list Gap) : option (list Gap) :=
  match gaps with [] => None | _ => Some gaps end.

(** [_g1] *)
Definition g1 : option (list Gap) :=
  let conflicting := existsb (λ n, bool_decide (seal_state n = seg_conflict)) (b_members b) in
  let gaps := entry_conflicts.1 ++ repeated roots_by_run "multiple_roots" ++ cycle_gaps
              ++ (b_members b ≫= branches_not_issued)
              ++ repeated branch_consumers "branch_replayed" in
  if conflicting then Some gaps else or_none gaps.

(** *** G2, G3 *)

Definition g2 : option (list Gap) :=
  or_none (omap (λ s, (λ n, gap_at segment_missing partial n "predecessor_missing")
                        <$> dget s (b_missing b)) (sort_str (b_missing b).*1)).

Definition g3 : option (list Gap) :=
  or_none ((λ n, gap_at segment_missing partial n "no_predecessor_entry") <$>
             filter (λ n, n_predecessors n = []) (b_members b)).

(** *** Closures *)

(** The loop of [_descendants]. *)
Fixpoint desc_loop (fuel : nat) (start : string) (out : gset string) (todo : list string)
    : gset string :=
  match fuel, todo with
  | S fuel, current :: todo =>
      if decide (current ∉ out ∧ current ≠ start)
      then desc_loop fuel start ({[current]} ∪ out)
             (elements (sget current (b_successors b)) ++ todo)
      else desc_loop fuel start out todo
  | _, _ => out
  end.

(** Every node is entered at most once, and each edge pushed at most twice. *)
Definition desc_fuel : nat :=
  2 * list_sum ((λ p, S (size p.2)) <$> b_successors b).

Definition descendants (s : string) : gset string :=
  desc_loop desc_fuel s ∅ (elements (sget s (b_successors b))).

Definition entries_of (s : string) : list Entry :=
  match dget s (b_present b) with Some n => entries n | None => [] end.

Definition anc_push (st : gset string * list string) (e : Entry) : gset string * list string :=
  if din (segment_id e) (b_present b) && negb (bool_decide (segment_id e ∈ st.1))
  then ({[segment_id e]} ∪ st.1, segment_id e :: st.2) else st.

(** The loop of [_ancestors]; the stack's top is first. *)
Fixpoint anc_loop (fuel : nat) (out : gset string) (todo : list string) : gset string :=
  match fuel, todo with
  | S fuel, current :: todo =>
      let '(out, todo) := foldl anc_push (out, todo) (entries_of current) in anc_loop fuel out todo
  | _, _ => out
  end.

Definition ancestors (s : string) : gset string :=
  anc_loop (S (length (b_present b))) {[s]} [s].
End builder.

Section rules.
Variable b : Builder.

(** *** G4 *)

Definition uncertainty (n : SegmentNode) : Z := or_int (n_clock_uncertainty_ns n) 0.

(** A member outside the terminal's closure, compared with the terminal's seal. *)
Definition late_gap (terminal n : SegmentNode) (terminal_ns : Z) : list Gap :=
  let sealed := bool_decide (seal_state n = seg_sealed) && bool_decide (is_Some (n_sealed_ns n)) in
  match (if sealed then n_sealed_ns n else n_start_ns n) with
  | None => []
  | Some at_ns =>
      let window := uncertainty n + uncertainty terminal in
      let late := at_ns - terminal_ns in
      if window <? late
      then [gap_at post_terminal_activity partial n
              (if sealed then "sealed_after_terminal" else "started_after_terminal")]
      else if (0 <? window) && (- window <=? late)
      then [gap_at clock_uncertain unverified n "terminal_order_uncertain"] else []
  end.

Definition terminal_gaps (terminal : SegmentNode) : list Gap :=
  let after := descendants b (n_segment_id terminal) in
  omap (λ s, (λ n, gap_at post_terminal_activity partial n "continues_terminal")
               <$> dget s (b_present b)) (sort_set after)
  ++ match n_sealed_ns terminal with
     | None => []
     | Some terminal_ns =>
         let closure := ancestors b (n_segment_id terminal) in
         b_members b ≫= λ n,
           if bool_decide (n_segment_id n ∈ closure ∨ n_segment_id n ∈ after) then []
           else late_gap terminal n terminal_ns
     end.

Definition terminals : list SegmentNode := filter (λ n, is_terminal n = true) (b_members b).

Definition g4 : option (list Gap) := or_none (terminals ≫= terminal_gaps).

(** *** G5 and G7 *)

Definition declared_by (n : SegmentNode) : gset string := list_to_set (n_declared_branches n).

Definition node_at (s : string) : option SegmentNode := dget s (b_present b).

Record ForkState := mk_fork_state {
  fs_out : gset string;
  fs_gaps : list Gap;
  fs_seen : gset string;
  fs_todo : list string;
}.

(** One segment of a fork child's closure. *)
Definition fork_member (closure : gset string) (st : ForkState) (s : string) : ForkState :=
  match node_at s with
  | None => st
  | Some member =>
      let fresh := bool_decide (s ∉ closure) && bool_decide (s ∉ fs_out st) in
      mk_fork_state ({[s]} ∪ fs_out st)
        (if fresh && negb (bool_decide (seal_state member = seg_sealed))
         then fs_gaps st ++ [gap_at segment_missing partial member "branch_unsealed"] else fs_gaps st)
        (fs_seen st) (fs_todo st ++ sort_set (declared_by member ∖ fs_seen st))
  end.

(** The node that declares [child]: the code takes the first one, and there is one. *)
Definition declarer (child : string) : option SegmentNode :=
  head (filter (λ n, child ∈ n_declared_branches n) (b_members b)).

Definition fork_step (closure : gset string) (st : ForkState) (child : string) : ForkState :=
  if decide (child ∈ fs_seen st) then st
  else
    let st := mk_fork_state (fs_out st) (fs_gaps st) ({[child]} ∪ fs_seen st) (fs_todo st) in
    match node_at child with
    | None =>
        mk_fork_state (fs_out st)
          (fs_gaps st ++ option_list ((λ n, gap_at segment_missing partial n "fork_child_missing")
                                       <$> declarer child))
          (fs_seen st) (fs_todo st)
    | Some _ => foldl (fork_member closure) st (sort_set ({[child]} ∪ descendants b child))
    end.

Fixpoint fork_loop (fuel : nat) (closure : gset string) (st : ForkState) : ForkState :=
  match fuel, fs_todo st with
  | S fuel, child :: todo =>
      fork_loop fuel closure
        (fork_step closure (mk_fork_state (fs_out st) (fs_gaps st) (fs_seen st) todo) child)
  | _, _ => st
  end.

(** Every member's declared branches are queued at most once for each child, and once more
    at the start. *)
Definition fork_fuel : nat :=
  let declared := list_sum ((λ n, length (n_declared_branches n)) <$> b_members b) in
  S (length (b_present b)) * S declared.

Definition declared_in (closure : gset string) : gset string :=
  ⋃ ((λ n, declared_by n) <$> omap node_at (elements closure)).

(** [_fork_closures] *)
Definition fork_closures (closure : gset string) : gset string * list Gap :=
  let st := fork_loop fork_fuel closure
              (mk_fork_state ∅ [] ∅ (sort_set (declared_in closure))) in
  (fs_out st, fs_gaps st).

(** One issued branch of a segment in the terminated part of the run. *)
Definition issued_gap (n : SegmentNode) (branch : string) : list Gap :=
  match filter (λ m, branch ∈ n_branch_ids m) (b_members b) with
  | [] => [gap_at segment_missing partial n "branch_consumer_missing"]
  | consumer :: _ =>
      if bool_decide (seal_state consumer = seg_sealed) then []
      else [gap_at segment_missing partial consumer "branch_unsealed"]
  end.

(** [_g5_failures] *)
Definition g5_failures (ts : list SegmentNode) : list Gap :=
  match ts with
  | [] => []
  | [t] =>
      let closure := ancestors b (n_segment_id t) in
      let unsealed := omap (λ s, n ← node_at s;
                          if bool_decide (seal_state n = seg_sealed) then None
                          else Some (gap_at segment_missing partial n "predecessor_unsealed"))
                        (sort_set closure) in
      let '(forked, gaps) := fork_closures closure in
      let joined := closure ∪ forked in
      unsealed ++ gaps
      ++ ((λ n, gap_at segment_missing partial n "branch_not_joined")
            <$> filter (λ n, n_segment_id n ∉ joined) (b_members b))
      ++ (filter (λ n, n_segment_id n ∈ joined) (b_members b)
            ≫= λ n, n_issued_branch_ids n ≫= issued_gap n)
  | ts => (λ n, gap_at segment_conflict partial n "multiple_terminals") <$> ts
  end.

(** *** G9, G10 and the clock *)

Definition deadline_seconds (root : SegmentNode) : Z :=
  or_int (n_open_deadline_s root)
    (or_int (n_manifest_open_run_deadline_s root) DEFAULT_OPEN_RUN_DEADLINE_S).

(** [_deadline] *)
Definition deadline : result Decision_ :=
  match run_root b, (r ← run_root b; n_start_ns r) with
  | Some root, Some start =>
      let seconds := deadline_seconds root in
      let deadline_ns := start + seconds * NS_PER_S in
      at_us ← datetime_of deadline_ns;
      let u := uncertainty root + c_verifier_ns (b_clocks b) in
      let late := c_evaluated_ns (b_clocks b) - deadline_ns in
      let unclear (why : string) := Ok (mk_decision clock deadline_uncertain
            [gap_at clock_uncertain unverified root why] (Some at_us) (Some seconds)) in
      if c_bound_ns (b_clocks b) <? u then unclear "uncertainty_exceeds_bound"
      else if (0 <? u) && (Z.abs late <=? u) then unclear "deadline_within_uncertainty"
      else if late <? 0
      then Ok (mk_decision G9 run_is_open [gap_at run_open info root "before_deadline"]
                 (Some at_us) (Some seconds))
      else Ok (mk_decision G10 unterminated [gap_at run_unterminated partial root "deadline_passed"]
                 (Some at_us) (Some seconds))
  | root, _ =>
      match (match root with Some r => Some r | None => head (b_members b) end) with
      | Some n => Ok (mk_decision clock deadline_uncertain
                        [gap_at clock_uncertain unverified n "no_root_time"] None None)
      | None => Raise IndexError
      end
  end.

(** [_decide]: the first rule that fires. *)
Definition decide_run : result Decision_ :=
  let fired (r : Rule) (gaps : list Gap) := Ok (mk_decision r conflicted gaps None None) in
  match g1 b with Some gaps => fired G1 gaps | None =>
  match g2 b with Some gaps => fired G2 gaps | None =>
  match g3 b with Some gaps => fired G3 gaps | None =>
  match g4 with Some gaps => fired G4 gaps | None =>
  match terminals with
  | _ :: _ =>
      match g5_failures terminals with
      | [] => Ok (mk_decision G5 terminated [] None None)
      | gaps => fired G7 gaps
      end
  | [] => if run_resumable b then deadline
          else Ok (mk_decision G8 not_resumable_unclosed [] None None)
  end end end end end.

(** [build] *)
Definition build : result RunGraph :=
  d ← decide_run;
  Ok (mk_graph (b_run_id b)
        (b_members b ++ omap (λ s, dget s (b_missing b)) (sort_str (b_missing b).*1))
        (d_state d) (b_aliases b) (entry_conflicts b).2 (fromkeys (d_gaps d)) (d_deadline_at d)
        (run_resumable b) (d_deadline_s d) (d_rule d)
        (match terminals with [t] => Some (n_segment_id t) | _ => None end)).
End rules.

(** ** Entry point: [build_run_graphs], with [evaluated_at] in microseconds *)

Definition node_map (segments : list SegmentNode) : nodes_of :=
  foldl (λ d n, dsetdefault (n_segment_id n) n d) [] segments.

Definition canonical_of (canonical : list (string * string)) (run_id : string) : string :=
  default run_id (dget run_id canonical).

Definition members_by_run (canonical : list (string * string)) (nodes : nodes_of)
    : list (string * list SegmentNode) :=
  foldl (λ d n, dappend (canonical_of canonical (n_run_id n)) n d) [] nodes.*2.

Definition aliases_of (canonical : list (string * string)) (nodes : nodes_of) (run_id : string)
    : gset string :=
  list_to_set (n_run_id <$> filter (λ n, canonical_of canonical (n_run_id n) = run_id ∧
                                          n_run_id n ≠ run_id) nodes.*2).

Fixpoint mapM_result {A B} (f : A → result B) (l : list A) : result (list B) :=
  match l with
  | [] => Ok []
  | x :: l => y ← f x; ys ← mapM_result f l; Ok (y :: ys)
  end.

Definition build_run_graphs (segments : list SegmentNode) (evaluated_us verifier_ns bound_ns : Z)
    : result (list RunGraph) :=
  let nodes := node_map segments in
  let canonical := merge_runs nodes in
  let members := members_by_run canonical nodes in
  let clocks := mk_clocks (ns_of evaluated_us) verifier_ns bound_ns in
  mapM_result (λ run_id, build (new_builder run_id (default [] (dget run_id members))
                   (sort_set (aliases_of canonical nodes run_id)) nodes clocks))
    (sort_str members.*1).
