(* ===== verification/GraphSearch.v ===== *)
(** * The graph searches of the segment graph

    The loops of [Graph] compute what they mean to: the edges between segments, the
    descendants and ancestors of a segment, and the order with predecessors first. The fuel
    each loop is given is enough. *)

From stdpp Require Import relations.
From S2P Require Import Prelude PyDict Hash Json Report Decimal Ids Tokens Graph.

(** ** Edges *)

(** [nodes] is a dictionary of segments by their ids. *)
Definition node_dict (nodes : list (string * SegmentNode)) : Prop :=
  NoDup nodes.*1 ∧ ∀ k n, (k, n) ∈ nodes → n_segment_id n = k.

(** [v] names [u], a segment of [nodes], as a predecessor. *)
Definition edge (nodes : list (string * SegmentNode)) (u v : string) : Prop :=
  u ∈ nodes.*1 ∧ ∃ n e, n ∈ nodes.*2 ∧ n_segment_id n = v ∧ e ∈ entries n ∧ segment_id e = u.

Definition follows (succ : list (string * gset string)) (u v : string) : Prop := v ∈ sget u succ.

Lemma sget_dset k k' s d : sget k (dset k' s d) = if decide (k = k') then s else sget k d.
Proof. unfold sget. rewrite dget_dset. by case_decide. Qed.

Lemma add_edge_spec nodes n out e u v :
  v ∈ sget u (add_edge nodes n out e) ↔
    v ∈ sget u out ∨ (u ∈ nodes.*1 ∧ u = segment_id e ∧ v = n_segment_id n).
Proof.
  unfold add_edge. destruct (din (segment_id e) nodes) eqn:Hd.
  - apply din_true in Hd. rewrite sget_dset. case_decide as Hu; [|tauto]. subst.
    rewrite elem_of_union, elem_of_singleton. naive_solver.
  - apply din_false in Hd. split; [tauto|]. intros [?|(? & -> & _)]; [done|]. done.
Qed.

Lemma add_edges_spec nodes n es out u v :
  v ∈ sget u (foldl (add_edge nodes n) out es) ↔
    v ∈ sget u out ∨ (u ∈ nodes.*1 ∧ v = n_segment_id n ∧ ∃ e, e ∈ es ∧ segment_id e = u).
Proof.
  revert out. induction es as [|e es IH]; intros out; simpl; [set_solver|].
  rewrite IH, add_edge_spec. set_solver.
Qed.

Lemma successors_fold nodes ns out u v :
  v ∈ sget u (foldl (λ out n, foldl (add_edge nodes n) out (entries n)) out ns) ↔
    v ∈ sget u out ∨
    (u ∈ nodes.*1 ∧ ∃ n e, n ∈ ns ∧ n_segment_id n = v ∧ e ∈ entries n ∧ segment_id e = u).
Proof.
  revert out. induction ns as [|n ns IH]; intros out; simpl; [set_solver|].
  rewrite IH, add_edges_spec. split.
  - intros [[?|(? & -> & e & ? & ?)]|(? & n' & e & ? & ? & ? & ?)]; [by left|right|right].
    + split; [done|]. exists n, e. set_solver.
    + split; [done|]. exists n', e. set_solver.
  - intros [?|(? & n' & e & [->|?]%elem_of_cons & ? & ? & ?)]; [by left; left|left; right|right].
    + split_and!; [done..|]. by exists e.
    + split; [done|]. by exists n', e.
Qed.

Lemma sget_empty {A} (f : A → string) l u : sget u ((λ p, (f p, ∅)) <$> l) = ∅.
Proof. unfold sget. induction l as [|x l IH]; csimpl; [done|]. by case_decide. Qed.

Lemma follows_edge nodes u v : follows (successors nodes) u v ↔ edge nodes u v.
Proof.
  unfold follows, edge, successors. rewrite successors_fold, sget_empty. set_solver.
Qed.

Lemma successors_keys nodes : (successors nodes).*1 = nodes.*1.
Proof.
  unfold successors.
  assert (∀ ns out, (∀ k, k ∈ nodes.*1 → k ∈ out.*1) →
    (foldl (λ out n, foldl (add_edge nodes n) out (entries n)) out ns).*1 = out.*1) as H.
  { induction ns as [|n ns IH]; intros out Hout; simpl; [done|].
    assert (∀ es out, (∀ k, k ∈ nodes.*1 → k ∈ out.*1) →
      (foldl (add_edge nodes n) out es).*1 = out.*1) as Hes.
    { clear out Hout. induction es as [|e es IHe]; intros out Hout; simpl; [done|].
      assert ((add_edge nodes n out e).*1 = out.*1) as E.
      { unfold add_edge. destruct (din _ nodes) eqn:Hd; [|done]. apply din_true in Hd.
        apply dset_keys. auto. }
      rewrite IHe; [done|]. by rewrite E. }
    rewrite IH; [by apply Hes|]. by rewrite Hes. }
  rewrite H; rewrite <-list_fmap_compose; done.
Qed.

(** ** Search loops *)

Section search.
Context (succ : list (string * gset string)).

(** The edges out of the nodes a search has not entered yet. *)
Definition unexplored (out : gset string) : nat :=
  list_sum ((λ p, size p.2) <$> filter (λ p, p.1 ∉ out) succ).

Lemma unexplored_mono out out' : out ⊆ out' → (unexplored out' ≤ unexplored out)%nat.
Proof.
  unfold unexplored. intros Hs. induction succ as [|[k s] d IH]; [done|].
  rewrite !filter_cons. simpl. repeat case_decide; csimpl; try lia. set_solver.
Qed.

Lemma unexplored_enter out c :
  c ∉ out → (unexplored ({[c]} ∪ out) + size (sget c succ) ≤ unexplored out)%nat.
Proof.
  intros Hc. unfold unexplored, sget. induction succ as [|[k s] d IH]; [change (0 + size (∅ : gset string) ≤ 0)%nat; rewrite size_empty; lia|].
  rewrite !filter_cons. simpl. destruct (decide (c = k)) as [<-|Hne].
  - rewrite decide_False by set_solver. rewrite decide_True by done. csimpl.
    assert ((list_sum ((λ p, size p.2) <$> filter (λ p, p.1 ∉ {[c]} ∪ out) d)) ≤
            list_sum ((λ p, size p.2) <$> filter (λ p, p.1 ∉ out) d))%nat; [|lia].
    clear. induction d as [|[k' s'] d IH]; [done|].
    rewrite !filter_cons. simpl. repeat case_decide; csimpl; try lia. set_solver.
  - case_decide as H1; case_decide as H2; csimpl; try lia; set_solver.
Qed.
End search.

(** *** [_descendants] *)

Section descendants.
Context (b : Builder).
#[local] Notation succ := (b_successors b).
#[local] Notation R := (follows succ).

Definition desc_measure (out : gset string) (todo : list string) : nat :=
  length todo + unexplored succ out.

Lemma desc_step start out c todo :
  let st := if decide (c ∉ out ∧ c ≠ start)
            then ({[c]} ∪ out, elements (sget c succ) ++ todo) else (out, todo) in
  (desc_measure st.1 st.2 < desc_measure out (c :: todo))%nat.
Proof.
  cbn zeta. unfold desc_measure. case_decide as H; simpl; [|lia].
  pose proof (unexplored_enter succ out c (proj1 H)) as He.
  rewrite length_app. change (length (elements (sget c succ))) with (size (sget c succ)). lia.
Qed.

(** What the loop keeps: everything entered is a descendant, and what follows it is entered,
    queued, or the start. *)
Definition desc_inv (start : string) (out : gset string) (todo : list string) : Prop :=
  (∀ x, x ∈ out → tc R start x ∧ x ≠ start) ∧ (∀ x, x ∈ todo → tc R start x) ∧
  (∀ x y, x ∈ out ∨ x = start → R x y → y ∈ out ∨ y ∈ todo ∨ y = start).

Lemma desc_loop_spec fuel start out todo :
  (desc_measure out todo ≤ fuel)%nat → desc_inv start out todo →
  ∃ out', desc_loop b fuel start out todo = out' ∧ desc_inv start out' [].
Proof.
  revert out todo. induction fuel as [|fuel IH]; intros out todo Hm Hi.
  - destruct todo; [by exists out|]. unfold desc_measure in Hm. simpl in Hm. lia.
  - destruct todo as [|c todo]; [by exists out|]. simpl.
    pose proof (desc_step start out c todo) as Hst. cbn zeta in Hst.
    destruct Hi as (H1 & H2 & H3).
    destruct (decide (c ∉ out ∧ c ≠ start)) as [[Hc Hs]|Hc]; simpl in Hst; (apply IH; [lia|]).
    + split_and!.
      * intros x [->%elem_of_singleton|?]%elem_of_union; [|auto].
        split; [|done]. apply H2. constructor.
      * intros x [Hx%elem_of_elements|Hx]%elem_of_app; [|apply H2; by constructor].
        eapply tc_r; [|exact Hx]. apply H2. constructor.
      * intros x y Hx Hy.
        destruct (decide (x = c)) as [->|Hne].
        { right; left. apply elem_of_app. left. by apply elem_of_elements. }
        destruct (H3 x y) as [?|[?|?]]; [set_solver|done|set_solver| |tauto].
        set_solver.
    + split_and!; [done|intros x ?; apply H2; by constructor|].
      intros x y Hx Hy. destruct (H3 x y Hx Hy) as [?|[[->|?]%elem_of_cons|?]]; [tauto| |tauto|tauto].
      destruct (decide (c ∈ out)); [tauto|]. destruct (decide (c = start)); tauto.
Qed.

Lemma list_sum_S {A} (f : A → nat) l : list_sum ((λ x, S (f x)) <$> l) = (length l + list_sum (f <$> l))%nat.
Proof. induction l as [|x l IH]; csimpl; [done|]. simpl. lia. Qed.

Lemma unexplored_le out : (unexplored succ out ≤ list_sum ((λ p, size p.2) <$> succ))%nat.
Proof.
  unfold unexplored. induction succ as [|p d IH]; [done|]. rewrite filter_cons.
  case_decide; csimpl; simpl; lia.
Qed.

Lemma size_sget_le s : (size (sget s succ) ≤ list_sum ((λ p, size p.2) <$> succ))%nat.
Proof.
  unfold sget. induction succ as [|[k x] d IH].
  - change (size (∅ : gset string) ≤ 0)%nat. by rewrite size_empty.
  - rewrite fmap_cons. simpl. case_decide; simpl; [lia|]. etrans; [exact IH|]. lia.
Qed.

(** The descendants are the nodes reachable by at least one edge, but the start itself. *)
Lemma elem_of_descendants s x : x ∈ descendants b s ↔ tc R s x ∧ x ≠ s.
Proof.
  unfold descendants.
  destruct (desc_loop_spec (desc_fuel b) s ∅ (elements (sget s succ))) as (out & -> & H1 & _ & H3).
  - unfold desc_measure, desc_fuel. rewrite list_sum_S.
    change (length (elements (sget s succ))) with (size (sget s succ)).
    pose proof (unexplored_le ∅). pose proof (size_sget_le s). lia.
  - split_and!; [set_solver| |].
    + intros y Hy%elem_of_elements. by apply tc_once.
    + intros y z [?| ->] Hz; [set_solver|]. right; left. by apply elem_of_elements.
  - split; [apply H1|]. intros [Hx Hne].
    assert (∀ u v, tc R u v → u ∈ out ∨ u = s → v ∈ out ∨ v = s) as Hclosed.
    { intros u v Huv Hu. induction Huv as [u v Huv|u v w Huv Hvw IH].
      - destruct (H3 u v Hu Huv) as [?|[[]%not_elem_of_nil|?]]; tauto.
      - apply IH. destruct (H3 u v Hu Huv) as [?|[[]%not_elem_of_nil|?]]; tauto. }
    destruct (Hclosed _ _ Hx) as [?|?]; [by right|done|done].
Qed.
End descendants.

(** *** [_ancestors] *)

Section ancestors.
Context (b : Builder).

(** [c] names the member [u] as a predecessor. *)
Definition names_member (c u : string) : Prop :=
  u ∈ (b_present b).*1 ∧ ∃ e, e ∈ entries_of b c ∧ segment_id e = u.

Definition unentered (out : gset string) : nat :=
  length (filter (λ k, k ∉ out) (b_present b).*1).

Lemma unentered_enter out k :
  k ∈ (b_present b).*1 → k ∉ out → (S (unentered ({[k]} ∪ out)) ≤ unentered out)%nat.
Proof.
  unfold unentered. generalize (b_present b).*1. intros l Hk Hout.
  assert (∀ l', (length (filter (λ k0, k0 ∉ {[k]} ∪ out) l') ≤
                 length (filter (λ k0, k0 ∉ out) l'))%nat) as Hle.
  { induction l' as [|x l' IH]; [done|]. rewrite !filter_cons.
    repeat case_decide; simpl; try lia. set_solver. }
  induction l as [|x l IH]; [set_solver|]. rewrite !filter_cons.
  destruct (decide (x = k)) as [->|Hne].
  - rewrite decide_False, decide_True by set_solver. simpl. specialize (Hle l). lia.
  - assert (k ∈ l) as Hk' by set_solver. specialize (IH Hk').
    repeat case_decide; simpl; try lia; set_solver.
Qed.

Lemma anc_push_eq out todo e :
  anc_push b (out, todo) e =
    if din (segment_id e) (b_present b) && negb (bool_decide (segment_id e ∈ out))
    then ({[segment_id e]} ∪ out, segment_id e :: todo) else (out, todo).
Proof. done. Qed.

(** Queueing the predecessors of one segment. *)
Lemma anc_push_spec es out todo :
  let st := foldl (anc_push b) (out, todo) es in
  (∀ x, x ∈ st.1 ↔ x ∈ out ∨ (x ∈ (b_present b).*1 ∧ ∃ e, e ∈ es ∧ segment_id e = x)) ∧
  (∀ x, x ∈ st.2 → x ∈ todo ∨ x ∈ st.1) ∧ (∀ x, x ∈ todo → x ∈ st.2) ∧
  (∀ x, x ∈ st.1 → x ∈ out ∨ x ∈ st.2) ∧
  (length st.2 + unentered st.1 ≤ length todo + unentered out)%nat.
Proof.
  revert out todo. induction es as [|e es IH]; intros out todo; simpl.
  { split_and!; [set_solver|auto..|lia]. }
  rewrite anc_push_eq. destruct (din (segment_id e) (b_present b) && _) eqn:Hc.
  - to_prop. apply din_true in H.
    destruct (IH ({[segment_id e]} ∪ out) (segment_id e :: todo)) as (I1 & I2 & I3 & I4 & I5).
    pose proof (unentered_enter out (segment_id e) H H0) as Hu. split_and!.
    + intros x. rewrite I1. set_solver.
    + intros x Hx. destruct (I2 x Hx) as [[->|?]%elem_of_cons|?]; [right|by left|by right].
      apply I1. set_solver.
    + intros x Hx. apply I3. by constructor.
    + intros x Hx. destruct (I4 x Hx) as [[->%elem_of_singleton|?]%elem_of_union|?]; [right|by left|by right].
      apply I3. constructor.
    + cbn [length] in *. lia.
  - destruct (IH out todo) as (I1 & I2 & I3 & I4 & I5). split_and!; [|done..].
    intros x. rewrite I1. apply andb_false_iff in Hc. split.
    + intros [?|(? & e' & ? & ?)]; [by left|right]. split; [done|]. exists e'. set_solver.
    + intros [?|(Hx & e' & [->|?]%elem_of_cons & <-)]; [by left| |right; set_solver].
      left. destruct Hc as [Hc|Hc]; to_prop; [by apply din_false in Hc|].
      exact Hc.
Qed.

Definition anc_inv (s : string) (out : gset string) (todo : list string) : Prop :=
  s ∈ out ∧ (∀ x, x ∈ out → rtc names_member s x) ∧ (∀ x, x ∈ todo → x ∈ out) ∧
  (∀ x u, x ∈ out → names_member x u → u ∈ out ∨ x ∈ todo).

Lemma anc_loop_spec fuel s out todo :
  (length todo + unentered out ≤ fuel)%nat → anc_inv s out todo →
  anc_inv s (anc_loop b fuel out todo) [].
Proof.
  revert out todo. induction fuel as [|fuel IH]; intros out todo Hm Hi.
  - destruct todo; [done|]. simpl in Hm. lia.
  - destruct todo as [|c todo]; [done|]. simpl.
    pose proof (anc_push_spec (entries_of b c) out todo) as Hp. cbn zeta in Hp.
    destruct (foldl (anc_push b) (out, todo) (entries_of b c)) as [out' todo'] eqn:Hf.
    simpl in Hp. destruct Hp as (I1 & I2 & I3 & I4 & I5). destruct Hi as (H0 & H1 & H2 & H3).
    apply IH; [simpl in Hm; lia|]. split_and!.
    + apply I1. by left.
    + intros x [?|(Hx & e & He & <-)]%I1; [auto|]. eapply rtc_r; [apply H1, H2; constructor|].
      split; [done|]. by exists e.
    + intros x Hx. destruct (I2 x Hx) as [?|?]; [|done]. apply I1. left. apply H2. by constructor.
    + intros x u Hx Hn. destruct (decide (x = c)) as [->|Hne].
      { left. apply I1. right. destruct Hn as (? & e & ? & ?). split; [done|]. by exists e. }
      destruct (I4 x Hx) as [Hxo|?]; [|by right].
      destruct (H3 x u Hxo Hn) as [?|[?|?]%elem_of_cons]; [|done|].
      * left. apply I1. by left.
      * right. by apply I3.
Qed.

(** The ancestors are the segment itself and everything it names, directly or through
    others. *)
Lemma elem_of_ancestors s x : x ∈ ancestors b s ↔ rtc names_member s x.
Proof.
  unfold ancestors.
  destruct (anc_loop_spec (S (length (b_present b))) s {[s]} [s]) as (H0 & H1 & _ & H3).
  - unfold unentered. simpl. apply le_n_S. etrans; [apply length_filter|]. by rewrite length_fmap.
  - split_and!; [set_solver|intros y ->%elem_of_singleton; apply rtc_refl|set_solver|].
    intros y u ->%elem_of_singleton _. right. constructor.
  - split; [apply H1|]. revert x. apply (rtc_ind_r (λ x, x ∈ _)); [done|].
    intros y z _ Hyz IH. by destruct (H3 y z IH Hyz) as [?|?%not_elem_of_nil].
Qed.
End ancestors.

(** ** Predecessors first: [_topological] *)

Lemma iget_dset k k' z d : iget k (dset k' z d) = if decide (k = k') then z else iget k d.
Proof. unfold iget. rewrite dget_dset. by case_decide. Qed.

Lemma count_in_list ind l v :
  NoDup l →
  iget v (foldl (λ ind s, dset s (iget s ind + 1) ind) ind l) =
    iget v ind + if decide (v ∈ l) then 1 else 0.
Proof.
  revert ind. induction l as [|s l IH]; intros ind Hl; simpl; [lia|].
  apply NoDup_cons in Hl as [Hs Hl]. rewrite IH, iget_dset by done.
  destruct (decide (v = s)) as [->|Hne].
  - rewrite decide_False, decide_True by set_solver. lia.
  - destruct (decide (v ∈ l)); [rewrite decide_True by set_solver|rewrite decide_False by set_solver]; done.
Qed.

Lemma count_in_spec ind f v :
  iget v (count_in ind f) = iget v ind + if decide (v ∈ f) then 1 else 0.
Proof.
  unfold count_in. rewrite count_in_list by apply NoDup_elements.
  destruct (decide (v ∈ f)); [rewrite decide_True by by apply elem_of_elements|
    rewrite decide_False by by rewrite elem_of_elements]; done.
Qed.

Lemma indegrees_fold fs ind v :
  iget v (foldl count_in ind fs) = iget v ind + Z.of_nat (length (filter (λ f, v ∈ f) fs)).
Proof.
  revert ind. induction fs as [|f fs IH]; intros ind; simpl; [lia|].
  rewrite IH, count_in_spec, filter_cons. case_decide; simpl; lia.
Qed.

Section kahn.
Context (succ : list (string * gset string)).
Context (Hnd : NoDup succ.*1).
Context (Hin : ∀ u v, v ∈ sget u succ → v ∈ succ.*1).
#[local] Notation R := (follows succ).

(** The predecessors of [v] not sorted yet. *)
Definition pending_preds (out : list string) (v : string) : list string :=
  filter (λ u, v ∈ sget u succ ∧ u ∉ out) succ.*1.

Lemma sget_nodup p : p ∈ succ → sget p.1 succ = p.2.
Proof. destruct p as [k s]. intros Hp. unfold sget. by rewrite (elem_dget k s). Qed.

Lemma indegrees v :
  Z.of_nat (length (filter (λ f, v ∈ f) succ.*2)) = Z.of_nat (length (pending_preds [] v)).
Proof.
  f_equal. unfold pending_preds.
  assert (∀ d, (∀ p, p ∈ d → sget p.1 succ = p.2) →
    length (filter (λ f, v ∈ f) d.*2) = length (filter (λ u, v ∈ sget u succ) d.*1)) as H.
  { induction d as [|[k s] d IH]; intros Hs; [done|]. csimpl. rewrite !filter_cons.
    assert (sget k succ = s) as E by (apply (Hs (k, s)); constructor). rewrite E.
    assert (∀ p, p ∈ d → sget p.1 succ = p.2) as Hs' by (intros; apply Hs; by constructor).
    case_decide; simpl; by rewrite IH. }
  rewrite (H succ sget_nodup). f_equal. apply filter_iff_in. intros u _.
  split; [intros; by split; [|apply not_elem_of_nil]|tauto].
Qed.

Record kahn_inv (ind : list (string * Z)) (ready out : list string) : Prop := {
  kn_nodup : NoDup (out ++ ready);
  kn_keys : ∀ v, v ∈ out ++ ready → v ∈ succ.*1;
  kn_count : ∀ v, iget v ind = Z.of_nat (length (pending_preds out v));
  kn_ready : ∀ v, v ∈ succ.*1 → v ∈ out ++ ready ↔ pending_preds out v = [];
  kn_order : ∀ l1 v l2, out = l1 ++ v :: l2 → ∀ u, R u v → u ∈ l1;
}.

Lemma release_fold l ind ready :
  NoDup l →
  let st := foldl release (ind, ready) l in
  (∀ v, iget v st.1 = iget v ind - if decide (v ∈ l) then 1 else 0) ∧
  st.2 = ready ++ filter (λ v, iget v ind = 1) l.
Proof.
  revert ind ready. induction l as [|s l IH]; intros ind ready Hl; simpl.
  { rewrite app_nil_r. split; [|done]. intros v. lia. }
  apply NoDup_cons in Hl as [Hs Hl].
  destruct (IH (dset s (iget s ind - 1) ind)
              (if iget s ind - 1 =? 0 then ready ++ [s] else ready) Hl) as [H1 H2].
  split.
  - intros v. rewrite H1, iget_dset. destruct (decide (v = s)) as [->|Hne].
    + rewrite decide_False, decide_True by set_solver. lia.
    + destruct (decide (v ∈ l)); [rewrite decide_True by set_solver|rewrite decide_False by set_solver]; done.
  - rewrite H2, filter_cons.
    rewrite (filter_iff_in _ (λ v, iget v ind = 1)) by
      (intros v Hv; rewrite iget_dset, decide_False by congruence; done).
    destruct (decide (iget s ind = 1)) as [E|E].
    + rewrite (proj2 (Z.eqb_eq _ _)) by lia. by rewrite <-(assoc_L (++)).
    + by rewrite (proj2 (Z.eqb_neq _ _)) by lia.
Qed.

Lemma pending_out out c v :
  c ∈ succ.*1 → c ∉ out →
  length (pending_preds out v) =
    (length (pending_preds (out ++ [c]) v) + if decide (v ∈ sget c succ) then 1 else 0)%nat.
Proof.
  unfold pending_preds. generalize Hnd. generalize (succ.*1). intros l Hl Hc Hout.
  assert (∀ l' : list string, c ∉ l' → filter (λ u, v ∈ sget u succ ∧ u ∉ out ++ [c]) l' =
                         filter (λ u, v ∈ sget u succ ∧ u ∉ out) l') as Hsame.
  { intros l' Hl'. apply filter_iff_in. intros u Hu. rewrite not_elem_of_app. set_solver. }
  induction l as [|u l IH]; [by apply not_elem_of_nil in Hc|].
  apply NoDup_cons in Hl as [Hu Hl]. rewrite !filter_cons.
  destruct (decide (u = c)) as [->|Hne].
  - rewrite (decide_False (P := _ ∧ c ∉ out ++ [c])) by set_solver. rewrite Hsame by done.
    destruct (decide (v ∈ sget c succ)).
    + rewrite decide_True by done. simpl. lia.
    + rewrite decide_False by tauto. lia.
  - specialize (IH Hl ltac:(set_solver)).
    destruct (decide (v ∈ sget u succ ∧ u ∉ out)) as [[? ?]|?].
    + rewrite decide_True by set_solver. simpl. lia.
    + rewrite decide_False by set_solver. lia.
Qed.

Lemma kahn_step c ind ready out :
  kahn_inv ind (c :: ready) out →
  let st := foldl release (ind, ready) (elements (sget c succ)) in
  kahn_inv st.1 (sort_str st.2) (out ++ [c]).
Proof.
  intros [N1 N2 N3 N4 N5]. cbn zeta.
  destruct (release_fold (elements (sget c succ)) ind ready (NoDup_elements _)) as [H1 H2].
  assert (c ∈ succ.*1) as Hc by (apply N2; set_solver).
  assert (c ∉ out) as Hco.
  { apply NoDup_app in N1 as (_ & N1 & _). intros Hco. by apply (N1 c Hco), list_elem_of_here. }
  pose proof (λ v, pending_out out c v Hc Hco) as Hp.
  set (st := foldl release _ _) in *.
  assert (sort_str st.2 ≡ₚ ready ++ filter (λ v, iget v ind = 1) (elements (sget c succ))) as Hperm.
  { rewrite <-H2. apply py_sort_Permutation. }
  assert (∀ v, v ∈ filter (λ v, iget v ind = 1) (elements (sget c succ)) ↔
               v ∈ sget c succ ∧ length (pending_preds out v) = 1%nat) as Hf.
  { intros v. rewrite list_elem_of_filter, elem_of_elements, N3. split; intros [? ?]; split; try done; lia. }
  assert (∀ v, pending_preds (out ++ [c]) v = [] ↔
            pending_preds out v = [] ∨ v ∈ sget c succ ∧ length (pending_preds out v) = 1%nat) as Hnil.
  { intros v. specialize (Hp v). rewrite <-!length_zero_iff_nil.
    destruct (decide (v ∈ sget c succ)) as [Hd|Hd]; split.
    - intros. right. split; [done|lia].
    - intros [?|[_ ?]]; lia.
    - intros. left. lia.
    - intros [?|[? ?]]; [lia|done]. }
  split.
  - rewrite Hperm, <-(assoc_L (++)). simpl. rewrite (cons_middle c), !(assoc_L (++)).
    rewrite <-(assoc_L (++) out). apply NoDup_app. split_and!; [exact N1| |by apply NoDup_filter, NoDup_elements].
    intros v Hv Hfv. apply Hf in Hfv as [_ Hl]. apply N4 in Hv; [|by apply N2].
    by rewrite Hv in Hl.
  - intros v. rewrite Hperm, !elem_of_app. intros [[?|?]|[?|Hv]]; [apply N2; set_solver..|].
    apply Hf in Hv as [Hv _]. by eapply Hin.
  - intros v. rewrite H1, N3. specialize (Hp v).
    destruct (decide (v ∈ sget c succ)).
    + rewrite decide_True by (by apply elem_of_elements). lia.
    + rewrite decide_False by (by rewrite elem_of_elements). lia.
  - intros v Hv. rewrite Hperm, Hnil, <-(N4 v Hv), <-Hf. set_solver.
  - intros l1 v l2 Heq u Hu. destruct l2 as [|x l2 _] using rev_ind.
    + apply app_inj_tail in Heq as [<- <-].
      assert (u ∈ succ.*1) as Hus.
      { apply dget_is_Some. unfold follows, sget in Hu. destruct (dget u succ); [eauto|set_solver]. }
      assert (pending_preds out c = []) as Hpc by (apply N4; set_solver).
      destruct (decide (u ∈ out)) as [|Hn]; [done|].
      assert (u ∈ pending_preds out c) as Hin'.
      { apply list_elem_of_filter. split; [by split|done]. }
      rewrite Hpc in Hin'. by apply not_elem_of_nil in Hin'.
    + rewrite app_comm_cons, (assoc_L (++)) in Heq. apply app_inj_tail in Heq as [-> _].
      by eapply N5.
Qed.

Lemma kahn_spec fuel ind ready out :
  (length succ ≤ fuel + length out)%nat → kahn_inv ind ready out →
  ∃ ind', kahn_inv ind' [] (kahn fuel succ ind ready out).
Proof.
  revert ind ready out. induction fuel as [|fuel IH]; intros ind ready out Hf Hi.
  - assert (ready = []) as ->; [|by exists ind].
    destruct Hi as [N1 N2 _ _ _].
    assert (length (out ++ ready) ≤ length succ.*1)%nat as Hle.
    { apply submseteq_length, NoDup_submseteq; [done|]. intros v. apply N2. }
    rewrite length_app, length_fmap in Hle. destruct ready; [done|]. simpl in *. lia.
  - destruct ready as [|c ready]; [by exists ind|]. simpl.
    pose proof (kahn_step c ind ready out Hi) as Hs. cbn zeta in Hs.
    destruct (foldl release _ _) as [ind' ready']. apply IH; [|done].
    rewrite length_app. simpl. lia.
Qed.
End kahn.

(** A finite set in which everything has a predecessor holds a cycle. *)
Section chain.
Context {A : Type} (R : relation A) `{!EqDecision A} `{!∀ x y, Decision (R x y)}.

Definition back (rest : list A) (v : A) : A := default v (head (filter (λ u, R u v) rest)).

Lemma back_spec rest v : (∃ u, u ∈ rest ∧ R u v) → back rest v ∈ rest ∧ R (back rest v) v.
Proof.
  intros (u & Hu & HR). unfold back. destruct (filter (λ u, R u v) rest) as [|x xs] eqn:Hf.
  - assert (u ∈ filter (λ u, R u v) rest) as Hin by by apply list_elem_of_filter.
    rewrite Hf in Hin. by apply not_elem_of_nil in Hin.
  - simpl. assert (x ∈ filter (λ u, R u v) rest) as Hin by (rewrite Hf; constructor).
    by apply list_elem_of_filter in Hin as [? ?].
Qed.

Lemma acyclic_no_chain rest :
  (∀ x, ¬ tc R x x) → (∀ v, v ∈ rest → ∃ u, u ∈ rest ∧ R u v) → rest = [].
Proof.
  intros Hac Hpred. destruct rest as [|v0 rest0] eqn:Hr; [done|]. rewrite <-Hr in *. exfalso.
  set (f i := Nat.iter i (back rest) v0).
  assert (∀ i, f i ∈ rest) as Hf.
  { induction i as [|i IH]; [rewrite Hr; constructor|]. apply back_spec. by apply Hpred. }
  assert (∀ i k, tc R (f (S k + i)%nat) (f i)) as Hlt.
  { intros i k. induction k as [|k IH].
    - apply tc_once, back_spec. by apply Hpred.
    - eapply tc_l; [|exact IH]. apply (back_spec rest (f (S k + i)%nat)). apply Hpred, Hf. }
  assert (NoDup (f <$> seq 0 (S (length rest)))) as Hnd.
  { apply NoDup_fmap_2_strong; [|apply NoDup_seq]. intros i j _ _ Hij.
    destruct (Nat.lt_trichotomy i j) as [Hl|[->|Hl]]; [|done|]; exfalso.
    - apply (Hac (f i)). rewrite Hij at 1. replace j with (S (j - i - 1) + i)%nat by lia. apply Hlt.
    - apply (Hac (f j)). rewrite <-Hij at 1. replace i with (S (i - j - 1) + j)%nat by lia. apply Hlt. }
  assert (length (f <$> seq 0 (S (length rest))) ≤ length rest)%nat as Hle.
  { apply submseteq_length, NoDup_submseteq; [done|]. by intros x (i & -> & _)%list_elem_of_fmap. }
  rewrite length_fmap, length_seq in Hle. lia.
Qed.
End chain.

Lemma follows_node nodes u v :
  node_dict nodes → follows (successors nodes) u v → v ∈ (successors nodes).*1.
Proof.
  intros [_ Hk] (_ & n & e & Hn & <- & _)%follows_edge. rewrite successors_keys.
  apply list_elem_of_fmap in Hn as ([k n'] & -> & Hn). simpl. rewrite (Hk _ _ Hn).
  apply list_elem_of_fmap. by exists (k, n').
Qed.

Lemma count_in_keys fs ind :
  (∀ f v, f ∈ fs → v ∈ f → v ∈ ind.*1) → (foldl count_in ind fs).*1 = ind.*1.
Proof.
  revert ind. induction fs as [|f fs IH]; intros ind Hf; simpl; [done|].
  assert ((count_in ind f).*1 = ind.*1) as E.
  { unfold count_in. assert (∀ v, v ∈ elements f → v ∈ ind.*1) as He
      by (intros v Hv%elem_of_elements; eapply Hf; [constructor|done]).
    revert ind He Hf. induction (elements f) as [|v l IHl]; intros ind He Hf; simpl; [done|].
    assert ((dset v (iget v ind + 1) ind).*1 = ind.*1) as Ed by (apply dset_keys; apply He; constructor).
    rewrite IHl; [done| |]; rewrite Ed; [|done]. intros w ?. apply He. by constructor. }
  rewrite IH; [done|]. rewrite E. intros g v ?. apply Hf. by constructor.
Qed.

Lemma zero_keys ind v :
  NoDup ind.*1 → v ∈ (filter (λ p, p.2 = 0) ind).*1 ↔ v ∈ ind.*1 ∧ iget v ind = 0.
Proof.
  intros Hnd. rewrite !list_elem_of_fmap. split.
  - intros ([k z] & -> & [Hz Hp]%list_elem_of_filter). simpl in *. subst. split; [by exists (k, 0)|].
    unfold iget. by rewrite (elem_dget k 0).
  - intros [([k z] & -> & Hp) Hz]. simpl in *. unfold iget in Hz. rewrite (elem_dget k z) in Hz by done.
    exists (k, z). split; [done|]. by apply list_elem_of_filter.
Qed.

(** The order is a part sorted with predecessors first, and a rest in which every segment has
    a predecessor. *)
Lemma topological_split nodes :
  node_dict nodes →
  ∃ out rest, topological nodes = out ++ rest ∧ out ++ rest ≡ₚ nodes.*1 ∧
    (∀ l1 v l2, out = l1 ++ v :: l2 → ∀ u, edge nodes u v → u ∈ l1) ∧
    (∀ v, v ∈ rest → ∃ u, u ∈ rest ∧ edge nodes u v).
Proof.
  intros Hd. pose proof Hd as [Hnd Hk]. set (succ := successors nodes).
  assert (NoDup succ.*1) as Hs by by unfold succ; rewrite successors_keys.
  assert (∀ u v, v ∈ sget u succ → v ∈ succ.*1) as Hin by (intros u v; by apply follows_node).
  set (ind := foldl count_in ((λ p, (p.1, 0)) <$> nodes) succ.*2).
  assert (∀ v, iget v ind = Z.of_nat (length (pending_preds succ [] v))) as Hind.
  { intros v. unfold ind. rewrite indegrees_fold, (indegrees succ Hs).
    assert (iget v ((λ p, (p.1, 0)) <$> nodes) = 0) as ->; [|lia].
    unfold iget. clear. induction nodes as [|p l IH]; csimpl; [done|]. by case_decide. }
  assert (ind.*1 = nodes.*1) as Hkeys.
  { unfold ind. rewrite count_in_keys, <-list_fmap_compose; [done|].
    intros f v ([u f'] & -> & Hf)%list_elem_of_fmap Hv. rewrite <-list_fmap_compose.
    change (v ∈ nodes.*1). rewrite <-successors_keys. fold succ. apply (Hin u).
    unfold sget. by rewrite (elem_dget u f'). }
  assert (∀ v, v ∈ (filter (λ p, p.2 = 0) ind).*1 ↔ v ∈ nodes.*1 ∧ pending_preds succ [] v = []) as Hzero.
  { intros v. rewrite zero_keys by by rewrite Hkeys. rewrite Hkeys, Hind, <-length_zero_iff_nil.
    split; intros [? ?]; split; try done; lia. }
  destruct (kahn_spec succ Hs Hin (length nodes) ind (sort_str (filter (λ p, p.2 = 0) ind).*1) [])
    as (ind' & [N1 N2 N3 N4 N5]).
  - simpl. rewrite <-(length_fmap fst succ). unfold succ. rewrite successors_keys, length_fmap. lia.
  - split; simpl; [|..|by intros [|??] ? ? ?].
    + apply NoDup_py_sort. eapply sublist_NoDup; [by rewrite <-Hkeys in Hnd; exact Hnd|].
      apply fmap_sublist, sublist_filter.
    + intros v. unfold sort_str. rewrite elem_of_py_sort, Hzero. unfold succ. rewrite successors_keys. tauto.
    + done.
    + intros v Hv. unfold sort_str. rewrite elem_of_py_sort, Hzero.
      unfold succ in Hv. rewrite successors_keys in Hv. tauto.
  - fold succ in N1 |- *. rewrite app_nil_r in N1, N2, N4. set (out := kahn _ _ _ _ _) in *.
    exists out, (sort_str (filter (λ s, s ∉ out) nodes.*1)). unfold succ in N2, N4.
    rewrite successors_keys in N2, N4. fold succ in N4. split_and!.
    + done.
    + apply NoDup_Permutation; [|done|].
      * apply NoDup_app. split_and!; [done| |by apply NoDup_py_sort, NoDup_filter].
        intros v Hv Hr. unfold sort_str in Hr. rewrite elem_of_py_sort, list_elem_of_filter in Hr. tauto.
      * intros v. rewrite elem_of_app. unfold sort_str. rewrite elem_of_py_sort, list_elem_of_filter.
        destruct (decide (v ∈ out)) as [Hv|]; [|tauto]. specialize (N2 v Hv). tauto.
    + intros l1 v l2 Heq u Hu. eapply N5; [exact Heq|]. by apply follows_edge.
    + intros v. unfold sort_str. rewrite elem_of_py_sort, list_elem_of_filter. intros [Hv Hvn].
      destruct (pending_preds succ out v) as [|u us] eqn:Hp; [by apply N4 in Hp|].
      assert (u ∈ pending_preds succ out v) as Hu by (rewrite Hp; constructor).
      apply list_elem_of_filter in Hu as [[Huv Huo] Huk]. exists u.
      rewrite elem_of_py_sort, list_elem_of_filter. unfold succ in Huk. rewrite successors_keys in Huk.
      split; [done|]. by apply follows_edge.
Qed.

Lemma tc_follows_edge nodes u v : tc (follows (successors nodes)) u v ↔ tc (edge nodes) u v.
Proof.
  split; induction 1 as [x y H|x y z H _ IH]; try (apply tc_once; by apply follows_edge);
    (eapply tc_l; [by apply follows_edge|done]).
Qed.

#[export] Instance follows_dec succ u v : Decision (follows succ u v).
Proof. unfold follows. apply _. Defined.

(** The topological order lists every segment once; in a graph without cycles every
    segment comes after all the segments it names. *)
Theorem topological_order (nodes : list (string * SegmentNode)) :
  node_dict nodes →
  topological nodes ≡ₚ nodes.*1 ∧
  ((∀ u, ¬ tc (edge nodes) u u) →
   ∀ l1 v l2, topological nodes = l1 ++ v :: l2 → ∀ u, edge nodes u v → u ∈ l1).
Proof.
  intros Hd. destruct (topological_split nodes Hd) as (out & rest & -> & Hp & Ho & Hr).
  split; [done|]. intros Hac.
  assert (rest = []) as ->.
  { apply (acyclic_no_chain (follows (successors nodes))).
    - intros u Hu. apply (Hac u). by apply tc_follows_edge.
    - intros v Hv. destruct (Hr v Hv) as (u & ? & ?). exists u. split; [done|]. by apply follows_edge. }
  intros l1 v l2. rewrite app_nil_r. apply Ho.
Qed.

Definition demo_node (id run : string) (preds : list string) (basis : IdBasis) : SegmentNode :=
  mk_node id run "agent.1" 5 preds (Some basis) [] [] (Some 0) (Some 3) None None None [] None None None
    None None (Some 9).
Definition demo_id (c : ascii) : string := "seg-0000000000000000000000000000000" +:+ String c "".
Definition demo_entry_of (id : string) : string :=
  id +:+ "/agent.1/5/3/sha256:0000000000000000000000000000000000000000000000000000000000000000".
Definition demo_nodes : list (string * SegmentNode) :=
  (λ n, (n_segment_id n, n)) <$>
    [demo_node (demo_id "3") "r-b" [demo_entry_of (demo_id "2")] id_caller_join;
     demo_node (demo_id "1") "r-a" ROOT id_caller;
     demo_node (demo_id "2") "r-a" [demo_entry_of (demo_id "1")] id_token;
     demo_node (demo_id "4") "r-c" ROOT id_caller].

Lemma demo_node_dict : node_dict demo_nodes.
Proof.
  split.
  - apply (bool_decide_unpack (NoDup demo_nodes.*1)). vm_compute. exact I.
  - intros k n (m & E & _)%list_elem_of_fmap. by injection E as -> ->.
Qed.

Lemma topological_order_witness :
  topological demo_nodes = [demo_id "1"; demo_id "2"; demo_id "3"; demo_id "4"] ∧
  topological demo_nodes ≡ₚ demo_nodes.*1.
Proof.
  split; [vm_compute; reflexivity|]. apply (topological_order demo_nodes demo_node_dict).
Defined.
