(* ===== verification/GraphMerge.v ===== *)
(** * The run-identity merge

    [_merge_runs] of [fabric/reconstruct/_graph.py]: union-find with path halving over the run
    ids of joined segments. Two runs get one canonical id exactly when merging segments
    connect them. *)

From stdpp Require Import relations.
From S2P Require Import Prelude PyDict Hash Json Report Decimal Ids Tokens Graph GraphSearch.

(** ** Parents as a forest *)

(** [r] is the root of [x], [n] parents above it. *)
Inductive root_at (parent : list (string * string)) : nat → string → string → Prop :=
  | root_here x : dget x parent = Some x → root_at parent 0 x x
  | root_up n x y r : dget x parent = Some y → y ≠ x → root_at parent n y r →
      root_at parent (S n) x r.

Definition root_of (parent : list (string * string)) (x r : string) : Prop :=
  ∃ n, root_at parent n x r.

(** Every parent chain ends. *)
Definition forest (parent : list (string * string)) : Prop :=
  NoDup parent.*1 ∧ ∀ x, x ∈ parent.*1 → ∃ r, root_of parent x r.

Lemma root_at_fun parent n x r n' r' :
  root_at parent n x r → root_at parent n' x r' → n = n' ∧ r = r'.
Proof.
  intros H. revert n' r'. induction H as [x Hx|n x y r Hx Hy H IH]; intros n' r' H'.
  - inv H'; try congruence. done.
  - inv H'; try congruence. simplify_eq.
    match goal with H0 : root_at parent _ _ r' |- _ => destruct (IH _ _ H0) as [-> ->] end. done.
Qed.

Lemma root_of_fun parent x r r' : root_of parent x r → root_of parent x r' → r = r'.
Proof. intros [n H] [n' H']. by destruct (root_at_fun _ _ _ _ _ _ H H'). Qed.

Lemma root_at_root parent n x r : root_at parent n x r → root_at parent 0 r r.
Proof. induction 1; [by constructor|done]. Qed.

Lemma root_at_key parent n x r : root_at parent n x r → x ∈ parent.*1.
Proof. intros H. apply dget_is_Some. inv H; eauto. Qed.

(** A chain visits distinct keys. *)
Lemma root_at_path parent n x r :
  root_at parent n x r →
  ∃ l, NoDup l ∧ length l = S n ∧
       ∀ y, y ∈ l → y ∈ parent.*1 ∧ ∃ k, (k ≤ n)%nat ∧ root_at parent k y r.
Proof.
  induction 1 as [x Hx|n x y r Hx Hy H IH].
  - exists [x]. split_and!; [apply NoDup_singleton|done|]. intros y ->%list_elem_of_singleton.
    split; [apply dget_is_Some; eauto|]. exists 0%nat. split; [done|by constructor].
  - destruct IH as (l & Hl & Hlen & Hmem). exists (x :: l). split_and!.
    + constructor; [|done]. intros Hin. destruct (Hmem _ Hin) as (_ & k & Hk & Hrk).
      assert (root_at parent (S n) x r) as Hr by by eapply root_up.
      destruct (root_at_fun _ _ _ _ _ _ Hr Hrk). lia.
    + simpl. lia.
    + intros z [->|Hz]%elem_of_cons.
      * split; [apply dget_is_Some; eauto|]. exists (S n). split; [done|by eapply root_up].
      * destruct (Hmem _ Hz) as (? & k & ? & ?). split; [done|]. exists k. split; [lia|done].
Qed.

Lemma root_at_bound parent n x r :
  root_at parent n x r → (n < length parent)%nat.
Proof.
  intros (l & Hl & Hlen & Hmem)%root_at_path.
  assert (length l ≤ length parent.*1)%nat as Hle.
  { apply submseteq_length, NoDup_submseteq; [done|]. intros y Hy. by apply Hmem. }
  rewrite length_fmap in Hle. lia.
Qed.

(** Pointing a node higher up on its own chain keeps every root. *)
Lemma root_at_compress parent x g r k j :
  root_at parent k x r → root_at parent j g r → (j < k)%nat →
  ∀ n y s, root_at parent n y s → ∃ m, (m ≤ n)%nat ∧ root_at (dset x g parent) m y s.
Proof.
  intros Hx Hg Hjk. induction n as [n IH] using lt_wf_ind. intros y s Hy.
  destruct (decide (y = x)) as [->|Hne].
  - destruct (root_at_fun _ _ _ _ _ _ Hx Hy) as [<- <-].
    destruct (IH j Hjk _ _ Hg) as (m & Hm & Hmg). exists (S m). split; [lia|].
    apply (root_up _ _ _ g); [by rewrite dget_dset_eq| |done].
    intros ->. destruct (root_at_fun _ _ _ _ _ _ Hx Hg). lia.
  - inv Hy.
    + exists 0%nat. split; [done|]. constructor. by rewrite dget_dset_ne.
    + match goal with H : root_at parent ?n0 _ s |- _ => destruct (IH n0 ltac:(lia) _ _ H) as (m & Hm & Hmy) end.
      exists (S m). split; [lia|]. eapply root_up; [|done|exact Hmy]. by rewrite dget_dset_ne.
Qed.

(** ** [find] *)

(** [find] returns the root, and keeps the keys and every root. *)
Lemma find_spec fuel parent x n r :
  root_at parent n x r → (n ≤ fuel)%nat →
  ∃ parent', find fuel parent x = (parent', r) ∧ parent'.*1 = parent.*1 ∧
    ∀ k y s, root_at parent k y s → ∃ m, (m ≤ k)%nat ∧ root_at parent' m y s.
Proof.
  revert parent x n. induction fuel as [|fuel IH]; intros parent x n Hr Hn; simpl.
  - inv Hr; [|lia]. exists parent. split_and!; eauto.
  - destruct Hr as [x Hx|n x y r Hx Hy Hr].
    + rewrite Hx. simpl. rewrite decide_True by done. exists parent. split_and!; eauto.
    + rewrite Hx. simpl. rewrite decide_False by done.
      assert (∃ g j, default y (dget y parent) = g ∧ root_at parent j g r ∧ (j < S n)%nat)
        as (g & j & -> & Hg & Hj).
      { destruct Hr as [y Hy'|n y z r Hz Hne Hr].
        - exists y, 0%nat. rewrite Hy'. split_and!; [done|by constructor|lia].
        - exists z, n. rewrite Hz. split_and!; [done|done|lia]. }
      assert (root_at parent (S n) x r) as Hxr by by eapply root_up.
      pose proof (root_at_compress _ _ _ _ _ _ Hxr Hg Hj) as Hc.
      destruct (Hc _ _ _ Hg) as (m & Hm & Hmg).
      destruct (IH (dset x g parent) g m Hmg) as (parent' & Hf & Hk & Hroots); [lia|].
      exists parent'. split_and!; [done| |].
      * rewrite Hk. apply dset_keys. apply dget_is_Some. eauto.
      * intros k w s Hw. destruct (Hc _ _ _ Hw) as (m1 & ? & H1).
        destruct (Hroots _ _ _ H1) as (m2 & ? & ?). exists m2. split; [lia|done].
Qed.

Lemma find_root_spec parent x r :
  root_of parent x r →
  ∃ parent', find_root parent x = (parent', r) ∧ parent'.*1 = parent.*1 ∧
    ∀ y s, root_of parent y s → root_of parent' y s.
Proof.
  intros [n Hn]. pose proof (root_at_bound _ _ _ _ Hn).
  destruct (find_spec (length parent) parent x n r Hn) as (parent' & Hf & Hk & Hr); [lia|].
  exists parent'. split_and!; [done..|]. intros y s [k Hy]. destruct (Hr _ _ _ Hy) as (m & _ & ?).
  by exists m.
Qed.

(** Linking one root below another. *)
Lemma root_link parent win lose n y s :
  root_at parent 0 win win → root_at parent 0 lose lose → lose ≠ win → root_at parent n y s →
  root_of (dset lose win parent) y (if decide (s = lose) then win else s).
Proof.
  intros Hw Hl0 Hne. induction 1 as [x Hx|n x y r Hx Hy H IH].
  - case_decide as Hl.
    + subst. exists 1%nat. apply (root_up _ _ _ win); [by rewrite dget_dset_eq|done|].
      constructor. rewrite dget_dset_ne by done. by inv Hw.
    + exists 0%nat. constructor. by rewrite dget_dset_ne.
  - destruct IH as [m Hm]. destruct (decide (x = lose)) as [->|Hxl].
    + by inv Hl0.
    + exists (S m). eapply root_up; [|done|exact Hm]. by rewrite dget_dset_ne.
Qed.

(** ** [union] *)

Lemma union_spec parent winner loser w l :
  root_of parent winner w → root_of parent loser l →
  (union winner loser parent).*1 = parent.*1 ∧
  ∀ y s, root_of parent y s → root_of (union winner loser parent) y (if decide (s = l) then w else s).
Proof.
  intros Hw Hl. unfold union.
  destruct (find_root_spec _ _ _ Hw) as (p1 & -> & Hk1 & H1).
  destruct (find_root_spec _ _ _ (H1 _ _ Hl)) as (p2 & -> & Hk2 & H2).
  case_decide as Hwl.
  - subst. rewrite Hk2, Hk1. split; [done|]. intros y s Hy. case_decide; subst; auto.
  - assert (root_at p2 0 w w ∧ root_at p2 0 l l) as [Hw0 Hl0].
    { destruct (H2 _ _ (H1 _ _ Hw)) as [n Hn]. destruct (H2 _ _ (H1 _ _ Hl)) as [m Hm].
      split; by eapply root_at_root. }
    split.
    + rewrite dset_keys; [by rewrite Hk2, Hk1|]. by eapply root_at_key.
    + intros y s Hy. destruct (H2 _ _ (H1 _ _ Hy)) as [n Hn]. by eapply root_link.
Qed.

Definition merge_pairs (ps : list (string * string)) (parent : list (string * string)) :=
  foldl (λ parent p, union p.1 p.2 parent) parent ps.

(** The runs are connected by merges. *)
Definition connected (E : relation string) : relation string := rtsc E.

Lemma rtsc_mono (E E' : relation string) x y :
  (∀ a b, E a b → E' a b) → rtsc E x y → rtsc E' x y.
Proof.
  intros H Hxy. induction Hxy as [|x y z [?|?] Hyz IH]; [constructor|..];
    (eapply rtc_l; [|exact IH]); [left|right]; auto.
Qed.

(** The classes of the forest are the classes of the pairs merged so far. *)
Definition classes (keys : list string) (parent : list (string * string)) (E : relation string) : Prop :=
  parent.*1 = keys ∧ NoDup keys ∧ (∀ x, x ∈ keys → ∃ r, root_of parent x r ∧ r ∈ keys) ∧
  ∀ x y rx ry, root_of parent x rx → root_of parent y ry → rx = ry ↔ connected E x y.

Lemma classes_union keys parent (E E' : relation string) w l :
  classes keys parent E → w ∈ keys → l ∈ keys → (∀ a b, E a b → a ∈ keys ∧ b ∈ keys) →
  (∀ a b, E' a b ↔ E a b ∨ (a = w ∧ b = l)) →
  classes keys (union w l parent) E'.
Proof.
  intros (Hk & Hnd & Hroot & Hc) Hw Hl HE HE'.
  destruct (Hroot _ Hw) as (rw & Hrw & Hrwk). destruct (Hroot _ Hl) as (rl & Hrl & Hrlk).
  destruct (union_spec _ _ _ _ _ Hrw Hrl) as [Hk' Hr'].
  assert (∀ x y, connected E x y → connected E' x y) as Hmono.
  { intros x y. apply rtsc_mono. intros a b ?. apply HE'. by left. }
  assert (connected E' w l) as Hwl by (apply rtc_once; left; apply HE'; by right).
  assert (∀ x y, connected E' x y → connected E' y x) as Hsym.
  { intros x y Hxy. symmetry. exact Hxy. }
  split_and!; [congruence|done|..].
  - intros x Hx. destruct (Hroot _ Hx) as (r & Hr & Hrk). exists (if decide (r = rl) then rw else r).
    split; [auto|by case_decide].
  - intros x y sx sy Hsx Hsy.
    assert (∀ z sz, root_of (union w l parent) z sz → ∃ r, root_of parent z r ∧ r ∈ keys ∧
              sz = if decide (r = rl) then rw else r) as Hold.
    { intros z sz Hz. assert (z ∈ keys) as Hzk.
      { rewrite <-Hk, <-Hk'. destruct Hz. by eapply root_at_key. }
      destruct (Hroot _ Hzk) as (r & Hr & ?). exists r. split_and!; [done..|].
      eapply root_of_fun; [exact Hz|]. auto. }
    destruct (Hold _ _ Hsx) as (rx & Hrx & _ & ->). destruct (Hold _ _ Hsy) as (ry & Hry & _ & ->).
    clear Hold Hsx Hsy. split.
    + assert (∀ z, root_of parent z rl → connected E' z w) as Hzl.
      { intros z Hz. etrans; [apply Hmono; by apply (proj1 (Hc z l rl rl Hz Hrl))|]. by apply Hsym. }
      assert (∀ z, root_of parent z rw → connected E' z w) as Hzw.
      { intros z Hz. apply Hmono. by apply (proj1 (Hc z w rw rw Hz Hrw)). }
      intros Heq. destruct (decide (rx = rl)) as [->|Hx]; destruct (decide (ry = rl)) as [->|Hy].
      * etrans; [by apply Hzl|]. apply Hsym. auto.
      * subst ry. etrans; [by apply Hzl|]. apply Hsym. auto.
      * subst rx. etrans; [by apply Hzw|]. apply Hsym. auto.
      * apply Hmono. by apply (proj1 (Hc x y rx ry Hrx Hry)).
    + intros Hxy. revert ry Hry.
      assert (∃ r, root_of parent y r ∧ (if decide (rx = rl) then rw else rx) =
                                       (if decide (r = rl) then rw else r)) as (r & Hr & Heq).
      { revert y Hxy. apply rtc_ind_r; [by exists rx|].
        intros y z _ Hyz (r & Hr & Heq). destruct Hyz as [Hyz|Hyz]; apply HE' in Hyz as [Hyz|[-> ->]].
        - destruct (HE _ _ Hyz) as [_ Hz]. destruct (Hroot _ Hz) as (s & Hs & _). exists s. split; [done|].
          assert (r = s) as ->; [|done]. apply (proj2 (Hc y z r s Hr Hs)). apply rtc_once. by left.
        - exists rl. split; [done|]. rewrite Heq, (decide_True (P := rl = rl)) by done.
          rewrite (root_of_fun _ _ _ _ Hr Hrw). repeat case_decide; congruence.
        - destruct (HE _ _ Hyz) as [Hz _]. destruct (Hroot _ Hz) as (s & Hs & _). exists s. split; [done|].
          assert (r = s) as ->; [|done]. apply (proj2 (Hc y z r s Hr Hs)). apply rtc_once. by right.
        - exists rw. split; [done|]. rewrite Heq.
          rewrite (root_of_fun _ _ _ _ Hr Hrl). rewrite (decide_True (P := rl = rl)) by done.
          repeat case_decide; congruence. }
      intros ry Hry. by rewrite (root_of_fun _ _ _ _ Hry Hr).
Qed.

Lemma classes_pairs keys parent (E : relation string) ps :
  classes keys parent E → (∀ a b, E a b → a ∈ keys ∧ b ∈ keys) →
  (∀ p, p ∈ ps → p.1 ∈ keys ∧ p.2 ∈ keys) →
  classes keys (merge_pairs ps parent) (λ a b, E a b ∨ (a, b) ∈ ps).
Proof.
  revert parent E. induction ps as [|[w l] ps IH]; intros parent E Hc HE Hps; simpl.
  - destruct Hc as (? & ? & ? & Hc). split_and!; [done..|]. intros x y rx ry Hx Hy.
    rewrite (Hc x y rx ry Hx Hy). split; apply rtsc_mono; [by left|].
    intros a b [?|?%not_elem_of_nil]; done.
  - destruct (Hps (w, l)) as [Hw Hl]; [constructor|]. simpl in Hw, Hl.
    assert (classes keys (union w l parent) (λ a b, E a b ∨ (a = w ∧ b = l))) as Hu
      by by eapply classes_union.
    specialize (IH _ _ Hu). destruct IH as (? & ? & ? & IH).
    + intros a b [?|[-> ->]]; auto.
    + intros p Hp. apply Hps. by constructor.
    + split_and!; [done..|]. intros x y rx ry Hx Hy. rewrite (IH x y rx ry Hx Hy).
      split; apply rtsc_mono; intros a b; rewrite elem_of_cons; naive_solver.
Qed.

(** The roots the last comprehension reads. *)
Lemma canonical_ids_spec ids parent :
  (∀ x, x ∈ ids → ∃ r, root_of parent x r) →
  (canonical_ids ids parent).*1 = ids ∧
  ∀ x r, x ∈ ids → root_of parent x r → dget x (canonical_ids ids parent) = Some r.
Proof.
  revert parent. induction ids as [|x ids IH]; intros parent Hr; simpl.
  { split; [done|]. by intros ? ? ?%not_elem_of_nil. }
  destruct (Hr x) as [r Hx]; [constructor|].
  destruct (find_root_spec _ _ _ Hx) as (p & -> & Hk & Hp).
  destruct (IH p) as [I1 I2].
  { intros y Hy. destruct (Hr y) as [s Hs]; [by constructor|]. eauto. }
  csimpl. split; [by rewrite I1|]. intros y s Hy Hs. case_decide as Hyx.
  - subst. f_equal. by eapply root_of_fun.
  - apply elem_of_cons in Hy as [?|Hy]; [done|]. apply I2; auto.
Qed.

(** ** [_merge_runs] *)

(** Segment [n] of a merging basis joins its run [a] with the run [b] of a present segment
    it names. *)
Definition joins (nodes : list (string * SegmentNode)) (a b : string) : Prop :=
  ∃ n e m, n ∈ nodes.*2 ∧ merging (n_id_basis n) = true ∧ e ∈ entries n ∧
    dget (segment_id e) nodes = Some m ∧ a = n_run_id n ∧ b = n_run_id m.

Definition merge_pair (nodes : list (string * SegmentNode)) (n : SegmentNode) (e : Entry)
    : option (string * string) :=
  m ← dget (segment_id e) nodes;
  if decide (n_run_id m = n_run_id n) then None
  else if decide (n_id_basis n = Some id_caller_join) then Some (n_run_id n, n_run_id m)
  else Some (n_run_id m, n_run_id n).

Definition merges (nodes : list (string * SegmentNode)) (s : string) : list (string * string) :=
  match dget s nodes with
  | Some n => if merging (n_id_basis n) then omap (merge_pair nodes n) (entries n) else []
  | None => []
  end.

Lemma merge_segments_pairs nodes order parent :
  foldl (merge_segment nodes) parent order = merge_pairs (order ≫= merges nodes) parent.
Proof.
  revert parent. induction order as [|s order IH]; intros parent; [done|].
  simpl. unfold merge_pairs. rewrite foldl_app, IH. fold (merge_pairs (order ≫= merges nodes)).
  f_equal. unfold merge_segment, merges. destruct (dget s nodes) as [n|]; [|done].
  destruct (merging _); [|done]. revert parent.
  induction (entries n) as [|e es IHe]; intros parent; [done|]. simpl. rewrite IHe.
  unfold merge_entry, merge_pair. destruct (dget _ nodes) as [m|]; simpl; [|done].
  by repeat case_decide.
Qed.

Lemma initial_parents_fold (ns : list SegmentNode) d :
  (∀ x y, dget x d = Some y → x = y) → NoDup d.*1 →
  let d' := foldl (λ d n, dset (n_run_id n) (n_run_id n) d) d ns in
  (∀ x y, dget x d' = Some y → x = y) ∧ NoDup d'.*1 ∧
  ∀ x, x ∈ d'.*1 ↔ x ∈ d.*1 ∨ ∃ n, n ∈ ns ∧ n_run_id n = x.
Proof.
  revert d. induction ns as [|n ns IH]; intros d Hd Hnd; simpl; [set_solver|].
  destruct (IH (dset (n_run_id n) (n_run_id n) d)) as (H1 & H2 & H3).
  - intros x y. rewrite dget_dset. case_decide; [by intros [= <-]|]. auto.
  - by apply NoDup_dset.
  - split_and!; [done..|]. intros x. rewrite H3, elem_of_dset_keys. set_solver.
Qed.

Lemma merge_pair_joins nodes n e p :
  n ∈ nodes.*2 → merging (n_id_basis n) = true → e ∈ entries n → merge_pair nodes n e = Some p →
  joins nodes p.1 p.2 ∨ joins nodes p.2 p.1.
Proof.
  intros Hn Hm He. unfold merge_pair. destruct (dget _ nodes) as [m|] eqn:Hg; [|done]. simpl.
  case_decide; [done|]. case_decide; intros [= <-]; simpl; [left|right]; by exists n, e, m.
Qed.

(** What the merge computes: the classes of [joins]. *)
Lemma merge_classes nodes :
  node_dict nodes →
  let keys := (initial_parents nodes).*1 in
  (∀ x, x ∈ keys ↔ ∃ n, n ∈ nodes.*2 ∧ n_run_id n = x) ∧
  classes keys (foldl (merge_segment nodes) (initial_parents nodes) (topological nodes)) (joins nodes).
Proof.
  intros Hd. cbn zeta. pose proof Hd as [Hnd Hkey].
  destruct (initial_parents_fold nodes.*2 []) as (H1 & H2 & H3); [done|constructor|].
  fold (initial_parents nodes) in H1, H2, H3. simpl in H3.
  assert (∀ x, x ∈ (initial_parents nodes).*1 ↔ ∃ n, n ∈ nodes.*2 ∧ n_run_id n = x) as Hk.
  { intros x. rewrite H3. split; [intros [?%not_elem_of_nil|?]; done|by right]. }
  split; [exact Hk|]. set (keys := (initial_parents nodes).*1) in *.
  rewrite merge_segments_pairs. set (ps := topological nodes ≫= merges nodes).
  assert (∀ x y, x ∈ keys → dget x (initial_parents nodes) = Some y ↔ y = x) as Hid.
  { intros x y Hx. split; [intros E; symmetry; auto|]. intros ->.
    apply dget_is_Some in Hx as [z Hz]. by rewrite Hz, (H1 _ _ Hz). }
  assert (classes keys (initial_parents nodes) (λ _ _, False)) as H0.
  { split_and!; [done..| |].
    - intros x Hx. exists x. split; [|done]. exists 0%nat. constructor. by apply Hid.
    - assert (∀ x r, root_of (initial_parents nodes) x r → r = x) as Hroot.
      { intros x r [n Hn]. inv Hn; [done|]. match goal with H : dget x _ = _ |- _ => by apply H1 in H end. }
      intros x y rx ry Hx%Hroot Hy%Hroot. subst. split; [intros ->; apply rtc_refl|].
      intros Hxy. by destruct Hxy as [|? ? ? [[]|[]] _]. }
  assert (∀ p, p ∈ ps → joins nodes p.1 p.2 ∨ joins nodes p.2 p.1) as Hps.
  { intros p (s & Hp & _)%list_elem_of_bind. unfold merges in Hp.
    destruct (dget s nodes) as [n|] eqn:Hs; [|by apply not_elem_of_nil in Hp].
    destruct (merging _) eqn:Hm; [|by apply not_elem_of_nil in Hp].
    apply list_elem_of_omap in Hp as (e & He & Hp). eapply merge_pair_joins; [|done..].
    apply list_elem_of_fmap. exists (s, n). split; [done|]. by apply dget_Some_elem. }
  assert (∀ a b, joins nodes a b → a ∈ keys ∧ b ∈ keys) as Hjk.
  { intros a b (n & e & m & Hn & _ & _ & Hm & -> & ->). split; apply Hk; [by exists n|].
    exists m. split; [|done]. apply dget_Some_elem in Hm. apply list_elem_of_fmap.
    by exists (segment_id e, m). }
  destruct (classes_pairs keys _ _ ps H0) as (C1 & C2 & C3 & C4); [done|..].
  { intros p Hp. destruct (Hps p Hp) as [Hj|Hj]; apply Hjk in Hj; tauto. }
  split_and!; [done..|]. intros x y rx ry Hx Hy. rewrite (C4 x y rx ry Hx Hy).
  clear rx ry Hx Hy. split; intros Hc.
  - induction Hc as [|x' y' z' Hxy _ IH]; [constructor|]. eapply rtc_l; [|exact IH].
    destruct Hxy as [[[]|Hxy]|[[]|Hxy]]; apply Hps in Hxy as [?|?]; simpl in *; first [by left|by right].
  - induction Hc as [|x' y' z' Hxy _ IH]; [constructor|].
    destruct (decide (x' = y')) as [->|Hne]; [done|]. eapply rtc_l; [|exact IH].
    assert (∀ a b, a ≠ b → joins nodes a b → (a, b) ∈ ps ∨ (b, a) ∈ ps) as Hjp.
    { intros a b Hab (n & e & m & Hn & Hmg & He & Hm & -> & ->).
      apply list_elem_of_fmap in Hn as ([s n'] & -> & Hn). simpl in *.
      assert (s ∈ topological nodes) as Hs.
      { destruct (topological_split nodes Hd) as (out & rest & -> & Hp & _). rewrite Hp.
        apply list_elem_of_fmap. by exists (s, n'). }
      assert (∀ p, merge_pair nodes n' e = Some p → p ∈ ps) as Hin.
      { intros p Hp. apply list_elem_of_bind. exists s. split; [|done]. unfold merges.
        rewrite (elem_dget s n') by done. rewrite Hmg. apply list_elem_of_omap. eauto. }
      unfold merge_pair in Hin. rewrite Hm in Hin. simpl in Hin.
      rewrite decide_False in Hin by congruence. case_decide; [left|right]; by apply Hin. }
    destruct Hxy as [Hxy|Hxy]; apply Hjp in Hxy as [?|?]; try done; first [by left; right|by right; right].
Qed.

(** Every run has the root of its class as its canonical id. *)
Lemma merge_runs_spec (nodes : list (string * SegmentNode)) :
  node_dict nodes →
  (∀ n, n ∈ nodes.*2 → ∃ c m, dget (n_run_id n) (merge_runs nodes) = Some c ∧
     m ∈ nodes.*2 ∧ n_run_id m = c ∧ connected (joins nodes) (n_run_id n) c) ∧
  (∀ n m, n ∈ nodes.*2 → m ∈ nodes.*2 →
     dget (n_run_id n) (merge_runs nodes) = dget (n_run_id m) (merge_runs nodes) ↔
     connected (joins nodes) (n_run_id n) (n_run_id m)).
Proof.
  intros Hd. destruct (merge_classes nodes Hd) as [Hk (C1 & C2 & C3 & C4)].
  unfold merge_runs. set (parent := foldl _ _ _) in *. rewrite C1. set (keys := (_).*1) in *.
  destruct (canonical_ids_spec keys parent) as [_ Hc].
  { intros x Hx. destruct (C3 x Hx) as (r & ? & _). by exists r. }
  assert (∀ n, n ∈ nodes.*2 → n_run_id n ∈ keys) as Hin by (intros n Hn; apply Hk; by exists n).
  split.
  - intros n Hn. destruct (C3 _ (Hin n Hn)) as (r & Hr & Hrk).
    pose proof Hrk as (m & Hm & Hmr)%Hk. exists r, m. split_and!; [auto|done|done|].
    destruct (C3 r Hrk) as (r' & Hr' & _).
    assert (root_of parent r r) as Hrr.
    { destruct Hr as [k Hr]. exists 0%nat. by eapply root_at_root. }
    by apply (proj1 (C4 _ r r r Hr Hrr)).
  - intros n m Hn Hm. destruct (C3 _ (Hin n Hn)) as (r & Hr & _).
    destruct (C3 _ (Hin m Hm)) as (s & Hs & _).
    rewrite (Hc _ r), (Hc _ s) by auto. rewrite <-(C4 _ _ r s Hr Hs). split; congruence.
Qed.

(** C16: the run-identity merge computes exactly the runs that merging segments connect:
    every run of the graph has one canonical id, which is one of the runs it is connected
    with; and two runs have the same canonical id if and only if a chain of [caller_join]
    or [legacy] segments and the segments they name leads from one to the other. *)
Theorem merge_runs_exact (nodes : list (string * SegmentNode)) :
  node_dict nodes →
  (∀ n, n ∈ nodes.*2 → ∃ c m, dget (n_run_id n) (merge_runs nodes) = Some c ∧
     m ∈ nodes.*2 ∧ n_run_id m = c ∧ connected (joins nodes) (n_run_id n) c) ∧
  (∀ n m, n ∈ nodes.*2 → m ∈ nodes.*2 →
     dget (n_run_id n) (merge_runs nodes) = dget (n_run_id m) (merge_runs nodes) ↔
     connected (joins nodes) (n_run_id n) (n_run_id m)).
Proof. apply merge_runs_spec. Qed.

Lemma merge_runs_exact_witness :
  dget "r-a" (merge_runs demo_nodes) = Some "r-b" ∧ connected (joins demo_nodes) "r-b" "r-a".
Proof.
  split; [vm_compute; reflexivity|].
  destruct (merge_runs_exact demo_nodes demo_node_dict) as [_ H].
  apply (H (demo_node (demo_id "3") "r-b" [demo_entry_of (demo_id "2")] id_caller_join)
           (demo_node (demo_id "1") "r-a" ROOT id_caller)); [left|right; left|vm_compute; reflexivity].
Defined.
