(* ===== verification/GraphCycles.v ===== *)
(** * The cycles of the segment graph

    [_on_cycles] of [fabric/reconstruct/_graph.py], Tarjan's algorithm with an explicit work
    list, returns exactly the nodes that lie on a cycle. The proof keeps the usual picture
    of the search: the nodes being worked on form a path, the stack holds them and what they
    reached and did not leave, and the nodes off the stack are finished components that
    nothing leads out of. *)

From stdpp Require Import relations.
From S2P Require Import Prelude PyDict Hash Json Report Decimal Ids Tokens Graph GraphSearch.

Lemma length_dset_new {K V} `{EqDecision K} (k : K) (v : V) d : k ∉ d.*1 → length (dset k v d) = S (length d).
Proof. intros Hk. rewrite dset_new by done. rewrite length_app. simpl. lia. Qed.

Lemma tc_inv_l {A} (P : relation A) x y : tc P x y → ∃ z, P x z ∧ rtc P z y.
Proof. intros H. destruct H; eexists; (split; [done|]); [done|by apply tc_rtc]. Qed.

Lemma tc_inv_r {A} (P : relation A) x y : tc P x y → ∃ z, rtc P x z ∧ P z y.
Proof.
  induction 1 as [x y H|x z y H _ (u & Hu & ?)]; [by exists x|]. exists u. split; [|done].
  by eapply rtc_l.
Qed.

Section tarjan.
Context (succ : list (string * gset string)).
#[local] Notation R := (follows succ).

Definition idx (st : Tarjan) (x : string) : Z := iget x (tj_index st).
Definition low (st : Tarjan) (x : string) : Z := iget x (tj_low st).
Definition visited (st : Tarjan) (x : string) : Prop := x ∈ (tj_index st).*1.
Definition gray (st : Tarjan) : list string := (tj_work st).*1.

(** The edge to [w] has been looked at. *)
Definition explored (st : Tarjan) (x w : string) : Prop :=
  visited st w ∧ (w ∈ tj_stack st → low st x ≤ idx st w).

Record tj_inv (st : Tarjan) : Prop := {
  t_inj : ∀ x y, visited st x → visited st y → idx st x = idx st y → x = y;
  t_num : ∀ x, visited st x → idx st x < Z.of_nat (length (tj_index st));
  t_visited : ∀ x, x ∈ tj_stack st → visited st x;
  t_sorted : StronglySorted (λ x y, idx st y < idx st x) (tj_stack st);
  t_on_stack : ∀ x, x ∈ tj_on_stack st ↔ x ∈ tj_stack st;
  t_gray : ∀ x, x ∈ gray st → x ∈ tj_stack st;
  t_gray_sorted : StronglySorted (λ x y, idx st y < idx st x) (gray st);
  t_black : ∀ x w, visited st x → x ∉ tj_stack st → R x w → visited st w ∧ w ∉ tj_stack st;
  t_low_le : ∀ x, x ∈ tj_stack st → low st x ≤ idx st x;
  t_low : ∀ x, x ∈ tj_stack st → ∃ y, y ∈ tj_stack st ∧ idx st y = low st x ∧ rtc R x y;
  t_low_lt : ∀ x, x ∈ tj_stack st → x ∉ gray st → low st x < idx st x;
  t_reach : ∀ g x, g ∈ gray st → x ∈ tj_stack st → idx st g ≤ idx st x → rtc R g x;
  t_owner : ∀ x, x ∈ tj_stack st → x ∉ gray st → ∃ g, g ∈ gray st ∧ idx st g < idx st x ∧
    low st g ≤ low st x ∧ ∀ g', g' ∈ gray st → idx st g' < idx st x → idx st g' ≤ idx st g;
  t_done : ∀ x w, x ∈ tj_stack st → x ∉ gray st → R x w → explored st x w;
  t_work : ∀ x c w, (x, c) ∈ tj_work st → R x w → w ∈ c ∨ explored st x w;
  t_children : ∀ x c w, (x, c) ∈ tj_work st → w ∈ c → R x w;
  t_out : ∀ x, x ∈ tj_out st ↔ visited st x ∧ x ∉ tj_stack st ∧ tc R x x;
  t_out_nodup : NoDup (tj_out st);
}.

Lemma idx_enter st v x : idx (tj_enter succ v st) x =
  if decide (x = v) then Z.of_nat (length (tj_index st)) else idx st x.
Proof. unfold idx, tj_enter. simpl. apply iget_dset. Qed.
Lemma low_enter st v x : low (tj_enter succ v st) x =
  if decide (x = v) then Z.of_nat (length (tj_index st)) else low st x.
Proof. unfold low, tj_enter. simpl. apply iget_dset. Qed.
Lemma visited_enter st v x : visited (tj_enter succ v st) x ↔ x = v ∨ visited st x.
Proof. unfold visited, tj_enter. simpl. apply elem_of_dset_keys. Qed.

(** Entering an unvisited node: a start with no work, or a child of the top. *)
Lemma enter_inv st v :
  tj_inv st → ¬ visited st v →
  match tj_work st with [] => True | (p, _) :: _ => R p v end →
  tj_inv (tj_enter succ v st).
Proof.
  intros [] Hv Hp.
  assert (v ∉ tj_stack st) as Hvs by (intros ?; by apply Hv, t_visited0).
  assert (∀ x, x ∈ tj_stack st → x ≠ v) as Hne by (intros x ? ->; done).
  assert (∀ x, visited st x → x ≠ v) as Hnev by (intros x ? ->; done).
  assert (∀ x, visited st x → idx (tj_enter succ v st) x = idx st x) as Hidx.
  { intros x Hx. rewrite idx_enter, decide_False by auto. done. }
  assert (∀ x, visited st x → low (tj_enter succ v st) x = low st x) as Hlow.
  { intros x Hx. rewrite low_enter, decide_False by auto. done. }
  assert (idx (tj_enter succ v st) v = Z.of_nat (length (tj_index st))) as Hiv.
  { rewrite idx_enter. by rewrite decide_True. }
  assert (low (tj_enter succ v st) v = Z.of_nat (length (tj_index st))) as Hlv.
  { rewrite low_enter. by rewrite decide_True. }
  assert (∀ x, x ∈ gray (tj_enter succ v st) ↔ x = v ∨ x ∈ gray st) as Hgray.
  { intros x. unfold gray. simpl. apply elem_of_cons. }
  assert (∀ x, x ∈ tj_stack (tj_enter succ v st) ↔ x = v ∨ x ∈ tj_stack st) as Hstack.
  { intros x. simpl. apply elem_of_cons. }
  assert (∀ x w, visited st x → explored st x w → explored (tj_enter succ v st) x w) as Hexp.
  { intros x w Hx [Hw Hlw]. split; [apply visited_enter; by right|]. intros Hws.
    apply Hstack in Hws as [->|Hws]; [done|]. rewrite Hlow, Hidx by done. auto. }
  split.
  - intros x y Hx Hy. apply visited_enter in Hx as [->|Hx]; apply visited_enter in Hy as [->|Hy].
    + done.
    + rewrite Hiv, Hidx by done. specialize (t_num0 _ Hy). lia.
    + rewrite Hiv, Hidx by done. specialize (t_num0 _ Hx). lia.
    + rewrite !Hidx by done. auto.
  - intros x. simpl. rewrite length_dset_new by done. intros Hx.
    apply visited_enter in Hx as [->|Hx]; [rewrite Hiv; lia|]. rewrite Hidx by done.
    specialize (t_num0 _ Hx). lia.
  - intros x [->|Hx]%Hstack; apply visited_enter; auto.
  - simpl. constructor.
    + eapply StronglySorted_iff; [|exact t_sorted0]. intros x y Hx Hy.
      by rewrite !Hidx by auto.
    + apply Forall_forall. intros y Hy. rewrite Hiv, Hidx by auto. apply t_num0. auto.
  - intros x. rewrite Hstack. simpl. rewrite elem_of_union, elem_of_singleton, t_on_stack0. done.
  - intros x [->|Hx]%Hgray; apply Hstack; auto.
  - unfold gray. simpl. constructor.
    + eapply StronglySorted_iff; [|exact t_gray_sorted0]. intros x y Hx Hy.
      by rewrite !Hidx by auto.
    + apply Forall_forall. intros y Hy. rewrite Hiv, Hidx by auto. apply t_num0. auto.
  - intros x w Hx Hxs Hxw. rewrite Hstack in Hxs. apply visited_enter in Hx as [->|Hx]; [tauto|].
    destruct (t_black0 x w) as [? ?]; [done|tauto|done|]. split; [apply visited_enter; auto|].
    rewrite Hstack. intros [->|?]; done.
  - intros x [->|Hx]%Hstack; [rewrite Hiv, Hlv; lia|]. rewrite Hlow, Hidx by auto. auto.
  - intros x [->|Hx]%Hstack.
    + exists v. rewrite Hiv, Hlv. split_and!; [apply Hstack; auto|done|apply rtc_refl].
    + destruct (t_low0 x Hx) as (y & ? & ? & ?). exists y. rewrite Hlow, Hidx by auto.
      split_and!; [apply Hstack; auto|done..].
  - intros x [->|Hx]%Hstack Hg; rewrite Hgray in Hg; [tauto|]. rewrite Hlow, Hidx by auto.
    apply t_low_lt0; tauto.
  - intros g x Hg Hx Hle. apply Hgray in Hg as [->|Hg]; apply Hstack in Hx as [->|Hx].
    + apply rtc_refl.
    + rewrite Hiv, Hidx in Hle by auto. specialize (t_num0 x (t_visited0 x Hx)). lia.
    + unfold gray in Hg. destruct (tj_work st) as [|[p c] work] eqn:Hw; [by apply not_elem_of_nil in Hg|].
      eapply rtc_r; [|exact Hp]. apply t_reach0; [unfold gray; by rewrite Hw| |].
      * apply t_gray0. unfold gray. rewrite Hw. constructor.
      * unfold gray in t_gray_sorted0. rewrite Hw in t_gray_sorted0. csimpl in t_gray_sorted0.
        csimpl in Hg. apply elem_of_cons in Hg as [->|Hg]; [done|]. inv t_gray_sorted0.
        match goal with H : Forall _ _ |- _ => rewrite Forall_forall in H; specialize (H _ Hg) end. lia.
    + rewrite !Hidx in Hle by auto. auto.
  - intros x [->|Hx]%Hstack Hg; rewrite Hgray in Hg; [tauto|].
    destruct (t_owner0 x Hx) as (g & Hgg & ? & ? & Hmax); [tauto|]. exists g.
    rewrite (Hidx x), (Hidx g), (Hlow g), (Hlow x) by auto. split_and!; [apply Hgray; auto|done..|].
    intros g' [->|Hg']%Hgray.
    + rewrite Hiv. specialize (t_num0 x (t_visited0 x Hx)). lia.
    + rewrite Hidx by auto. auto.
  - intros x w [->|Hx]%Hstack Hg Hxw; rewrite Hgray in Hg; [tauto|]. apply Hexp; [auto|]. apply t_done0; tauto.
  - intros x c w Hxc Hxw. simpl in Hxc. apply elem_of_cons in Hxc as [[= -> ->]|Hxc].
    + left. unfold sort_set, sort_str. by rewrite elem_of_py_sort, elem_of_elements.
    + destruct (t_work0 x c w Hxc Hxw); [by left|right]. apply Hexp; [|done].
      apply t_visited0, t_gray0. apply list_elem_of_fmap. by exists (x, c).
  - intros x c w Hxc Hw. simpl in Hxc. apply elem_of_cons in Hxc as [[= -> ->]|Hxc]; [|by eapply t_children0].
    unfold sort_set, sort_str in Hw. by rewrite elem_of_py_sort, elem_of_elements in Hw.
  - intros x. simpl. rewrite t_out0, visited_enter, elem_of_cons. split.
    + intros (? & ? & ?). split_and!; [by right| |done]. intros [->|?]; done.
    + intros ([->|?] & ? & ?); [tauto|]. tauto.
  - done.
Qed.

(** ** Lowering a node that is being worked on *)

Definition set_low (v : string) (n : Z) (st : Tarjan) : Tarjan :=
  mk_tarjan (tj_index st) (tj_lower v n (tj_low st)) (tj_stack st) (tj_on_stack st) (tj_out st)
    (tj_work st).

Lemma low_set v n st x :
  low (set_low v n st) x = if decide (x = v) then Z.min (low st v) n else low st x.
Proof. unfold low, set_low, tj_lower. simpl. apply iget_dset. Qed.

Lemma low_set_le v n st x : low (set_low v n st) x ≤ low st x.
Proof. rewrite low_set. case_decide as E; [subst; lia|lia]. Qed.

Lemma set_low_inv st v n y :
  tj_inv st → v ∈ gray st → y ∈ tj_stack st → idx st y = n → rtc R v y →
  tj_inv (set_low v n st).
Proof.
  intros [] Hv Hy Hn Hvy.
  assert (∀ x w, explored st x w → explored (set_low v n st) x w) as Hexp.
  { intros x w [Hw Hlw]. split; [done|]. intros Hws. etrans; [apply low_set_le|auto]. }
  split; try done.
  - intros x Hx. etrans; [apply low_set_le|auto].
  - intros x Hx. rewrite low_set. case_decide as E; [subst x|by apply t_low0].
    destruct (Z.min_spec (low st v) n) as [[_ ->]|[_ ->]]; [by apply t_low0|by exists y].
  - intros x Hx Hg. rewrite low_set, decide_False; [by apply t_low_lt0|]. intros ->. done.
  - intros x Hx Hg. destruct (t_owner0 x Hx Hg) as (g & ? & ? & ? & ?). exists g.
    split_and!; [done..| |done]. rewrite (low_set v n st x), decide_False by (intros ->; done).
    etrans; [apply low_set_le|done].
  - intros x w ? ? ?. apply Hexp. auto.
  - intros x c w ? ?. destruct (t_work0 x c w); auto.
Qed.

(** ** Dropping the first of the children to visit *)

Definition set_work (work : list (string * list string)) (st : Tarjan) : Tarjan :=
  mk_tarjan (tj_index st) (tj_low st) (tj_stack st) (tj_on_stack st) (tj_out st) work.

Lemma drop_child_inv st v w c pre work :
  tj_inv st → tj_work st = pre ++ (v, w :: c) :: work → explored st v w →
  tj_inv (set_work (pre ++ (v, c) :: work) st).
Proof.
  intros [] Hw He.
  assert (gray (set_work (pre ++ (v, c) :: work) st) = gray st) as Hg.
  { unfold gray. rewrite Hw. simpl. by rewrite !fmap_app. }
  assert (∀ x c', (x, c') ∈ pre ++ (v, c) :: work → (x, c') = (v, c) ∨ (x, c') ∈ tj_work st) as Hor.
  { intros x c'. rewrite Hw. set_solver. }
  assert ((v, w :: c) ∈ tj_work st) as Hin by (rewrite Hw; set_solver).
  split; rewrite ?Hg; try done.
  - intros x c' y [[= -> ->]|Hxc]%Hor Hxy; [|by eapply t_work0].
    destruct (t_work0 _ _ y Hin) as [[->|?]%elem_of_cons|?]; auto.
  - intros x c' y [[= -> ->]|Hxc]%Hor Hy; [|by eapply t_children0].
    apply (t_children0 _ _ _ Hin). by constructor.
Qed.

(** ** The end of a node that reaches lower *)

Lemma gray_cons st v c work : tj_work st = (v, c) :: work → gray st = v :: work.*1.
Proof. intros H. unfold gray. by rewrite H. Qed.

(** The top is above the other nodes being worked on. *)
Lemma top_gray st v c work g :
  tj_inv st → tj_work st = (v, c) :: work → g ∈ work.*1 → idx st g < idx st v.
Proof.
  intros [] Hw Hg. rewrite (gray_cons _ _ _ _ Hw) in t_gray_sorted0.
  apply StronglySorted_inv in t_gray_sorted0 as [_ H]. rewrite Forall_forall in H. auto.
Qed.

Lemma next_gray st v c p cp work g :
  tj_inv st → tj_work st = (v, c) :: (p, cp) :: work → g ∈ p :: work.*1 → idx st g ≤ idx st p.
Proof.
  intros [] Hw Hg. rewrite (gray_cons _ _ _ _ Hw) in t_gray_sorted0. csimpl in t_gray_sorted0.
  apply StronglySorted_inv in t_gray_sorted0 as [H _].
  apply StronglySorted_inv in H as [_ H]. rewrite Forall_forall in H.
  apply elem_of_cons in Hg as [->|Hg]; [done|]. specialize (H _ Hg). lia.
Qed.

(** A node that reaches lower than itself is not the only one being worked on. *)
Lemma lower_parent st v c work :
  tj_inv st → tj_work st = (v, c) :: work → low st v < idx st v → work ≠ [].
Proof.
  intros Hi Hw Hlt ->. pose proof (gray_cons _ _ _ _ Hw) as Hg. csimpl in Hg. destruct Hi.
  assert (v ∈ tj_stack st) as Hv by (apply t_gray0; rewrite Hg; constructor).
  destruct (t_low0 v Hv) as (y & Hy & Hyl & _).
  destruct (decide (y ∈ gray st)) as [Hyg|Hyg].
  - rewrite Hg in Hyg. apply list_elem_of_singleton in Hyg as ->. lia.
  - destruct (t_owner0 y Hy Hyg) as (g & Hgg & ? & _).
    rewrite Hg in Hgg. apply list_elem_of_singleton in Hgg as ->. lia.
Qed.

Lemma finish_low_inv st v p cp work :
  tj_inv st → tj_work st = (v, []) :: (p, cp) :: work → low st v < idx st v →
  low st p ≤ low st v → tj_inv (set_work ((p, cp) :: work) st).
Proof.
  intros Hi Hw Hlt Hlp. pose proof (gray_cons _ _ _ _ Hw) as Hg. csimpl in Hg.
  pose proof (λ g, top_gray _ _ _ _ g Hi Hw) as Htop. csimpl in Htop.
  pose proof (λ g, next_gray _ _ _ _ _ _ g Hi Hw) as Hnext.
  assert (gray (set_work ((p, cp) :: work) st) = p :: work.*1) as Hg' by done.
  assert (∀ x, x ∉ p :: work.*1 → x = v ∨ x ∉ gray st) as Hor.
  { intros x ?. rewrite Hg. destruct (decide (x = v)); [by left|right]. set_solver. }
  destruct Hi. split; rewrite ?Hg'; try done.
  - intros x Hx. apply t_gray0. rewrite Hg. by constructor.
  - rewrite Hg in t_gray_sorted0. by apply StronglySorted_inv in t_gray_sorted0 as [? _].
  - intros x Hx [->|?]%Hor; [done|]. by apply t_low_lt0.
  - intros g x Hgg. apply t_reach0. rewrite Hg. by constructor.
  - intros x Hx Hxg. destruct (Hor _ Hxg) as [->|Hxg'].
    + exists p. split_and!; [constructor|apply Htop; constructor|done|]. intros g' ? _. by apply Hnext.
    + destruct (t_owner0 x Hx Hxg') as (g & Hgg & ? & ? & Hmax). rewrite Hg in Hgg.
      assert (∀ g', g' ∈ p :: work.*1 → idx st g' < idx st x → idx st g' ≤ idx st g) as Hmax'.
      { intros g' ?. apply Hmax. rewrite Hg. by constructor. }
      apply elem_of_cons in Hgg as [->|?]; [|by exists g].
      exists p. assert (idx st p < idx st v) by (apply Htop; constructor).
      change (idx (set_work ((p, cp) :: work) st)) with (idx st).
      change (low (set_work ((p, cp) :: work) st)) with (low st).
      split_and!; [constructor|lia|lia|].
      intros g' ? _. by apply Hnext.
  - intros x w Hx Hxg Hxw. destruct (Hor _ Hxg) as [->|?]; [|by apply t_done0].
    destruct (t_work0 v [] w) as [H|H]; [rewrite Hw; constructor|done| |done]. by apply not_elem_of_nil in H.
  - intros x c w Hxc. apply t_work0. rewrite Hw. by constructor.
  - intros x c w Hxc. apply t_children0. rewrite Hw. by constructor.
Qed.

(** ** A finished component *)

Lemma pop_to_split v stack : v ∈ stack →
  ∃ l rest, stack = l ++ v :: rest ∧ pop_to v stack = (l ++ [v], rest).
Proof.
  induction stack as [|x stack IH]; intros Hv; [by apply not_elem_of_nil in Hv|]. simpl.
  case_decide as E; [subst; by exists [], stack|].
  apply elem_of_cons in Hv as [->|Hv]; [done|].
  destruct (IH Hv) as (l & rest & -> & ->). by exists (x :: l), rest.
Qed.

Lemma pop_to_spec st v component rest :
  tj_inv st → v ∈ tj_stack st → pop_to v (tj_stack st) = (component, rest) →
  (∀ x, x ∈ component ↔ x ∈ tj_stack st ∧ idx st v ≤ idx st x) ∧
  (∀ x, x ∈ rest ↔ x ∈ tj_stack st ∧ idx st x < idx st v) ∧
  NoDup component ∧ StronglySorted (λ x y, idx st y < idx st x) rest.
Proof.
  intros [] Hv Hp. destruct (pop_to_split v _ Hv) as (l & r & Hs & Hp'). rewrite Hp in Hp'.
  injection Hp' as -> ->. rewrite Hs in t_sorted0 |- *. clear -t_sorted0.
  assert (NoDup (l ++ v :: r)) as Hnd.
  { clear -t_sorted0. induction t_sorted0 as [|x k _ IH Hx]; constructor; [|done].
    rewrite Forall_forall in Hx. intros Hk. specialize (Hx _ Hk). lia. }
  apply StronglySorted_app_inv in t_sorted0 as (_ & Hr & Hl).
  apply StronglySorted_inv in Hr as [Hr Hv]. rewrite Forall_forall in Hv.
  assert (∀ x, x ∈ l → idx st v < idx st x) as Hlv by (intros x Hx; apply Hl; [done|constructor]).
  split_and!; [| | |done].
  - intros x. rewrite !elem_of_app, list_elem_of_singleton, elem_of_cons. split.
    + intros [Hx| ->]; [specialize (Hlv _ Hx); split; [by left|lia]|split; [auto|lia]].
    + intros [[?|[?|Hx]] ?]; [by left|by right|]. specialize (Hv _ Hx). lia.
  - intros x. rewrite !elem_of_app, elem_of_cons. split.
    + intros Hx. specialize (Hv _ Hx). auto.
    + intros [[Hx|[->|Hx]] ?]; [specialize (Hlv _ Hx)| |done]; lia.
  - apply (NoDup_app) in Hnd as (? & Hd & Hnd). apply NoDup_app. split_and!; [done| |apply NoDup_singleton].
    intros x Hx ->%list_elem_of_singleton. apply (Hd v Hx). constructor.
Qed.

(** What is off the stack leads only to what is off the stack. *)
Lemma off_stack st x y :
  tj_inv st → visited st x → x ∉ tj_stack st → rtc R x y → visited st y ∧ y ∉ tj_stack st.
Proof.
  intros [] Hx Hxs Hxy. revert Hx Hxs. induction Hxy as [x|x z y Hxz _ IH]; intros Hx Hxs; [done|].
  destruct (t_black0 x z); auto.
Qed.

Section component.
Context (st : Tarjan) (v : string) (work : list (string * list string)) (Hi : tj_inv st).
Context (Hwork : tj_work st = (v, []) :: work) (Hlow : low st v = idx st v).

Lemma root_gray : v ∈ gray st.
Proof. rewrite (gray_cons _ _ _ _ Hwork). constructor. Qed.

Lemma root_stack : v ∈ tj_stack st.
Proof. apply (t_gray _ Hi), root_gray. Qed.

Lemma component_black x : x ∈ tj_stack st → idx st v < idx st x → x ∉ gray st.
Proof.
  intros Hx Hlt Hg. rewrite (gray_cons _ _ _ _ Hwork) in Hg.
  apply elem_of_cons in Hg as [->|Hg]; [lia|]. pose proof (top_gray _ _ _ _ _ Hi Hwork Hg). lia.
Qed.

(** The component reaches no lower than its root. *)
Lemma component_low x : x ∈ tj_stack st → idx st v ≤ idx st x → idx st v ≤ low st x.
Proof.
  intros Hx Hle. destruct (decide (idx st v = idx st x)) as [E|E].
  { apply (t_inj _ Hi) in E as <-; [lia|by apply (t_visited _ Hi), root_stack|by apply (t_visited _ Hi)]. }
  destruct (t_owner _ Hi x Hx) as (g & Hg & ? & ? & Hmax); [apply component_black; [done|lia]|].
  rewrite (gray_cons _ _ _ _ Hwork) in Hg. apply elem_of_cons in Hg as [->|Hg]; [lia|].
  pose proof (top_gray _ _ _ _ _ Hi Hwork Hg). specialize (Hmax v root_gray). lia.
Qed.

Lemma component_reaches x : x ∈ tj_stack st → idx st v ≤ idx st x → rtc R x v.
Proof.
  remember (Z.to_nat (idx st x - idx st v)) as n eqn:Hn. revert x Hn.
  induction n as [n IH] using lt_wf_ind. intros x Hn Hx Hle.
  destruct (decide (idx st v = idx st x)) as [E|E].
  { apply (t_inj _ Hi) in E as <-; [done|by apply (t_visited _ Hi), root_stack|by apply (t_visited _ Hi)]. }
  destruct (t_low _ Hi x Hx) as (y & Hy & Hyl & Hxy).
  pose proof (component_low x Hx Hle).
  assert (low st x < idx st x) by (apply (t_low_lt _ Hi); [done|apply component_black; [done|lia]]).
  etrans; [exact Hxy|]. apply (IH (Z.to_nat (idx st y - idx st v))); [lia|done..|lia].
Qed.

(** An edge out of the component stays in it or leads to a finished node. *)
Lemma component_edge x w :
  x ∈ tj_stack st → idx st v ≤ idx st x → R x w →
  visited st w ∧ (w ∈ tj_stack st → idx st v ≤ idx st w).
Proof.
  intros Hx Hle Hxw. assert (explored st x w) as [Hw Hlw].
  { destruct (decide (x = v)) as [->|Hne].
    - destruct (t_work _ Hi v [] w) as [H|H]; [rewrite Hwork; constructor|done| |done].
      by apply not_elem_of_nil in H.
    - apply (t_done _ Hi); [done| |done]. apply component_black; [done|].
      assert (idx st v ≠ idx st x); [|lia]. intros E. apply Hne. symmetry.
      apply (t_inj _ Hi); [apply (t_visited _ Hi), root_stack|by apply (t_visited _ Hi)|done]. }
  split; [done|]. intros Hws. specialize (Hlw Hws). pose proof (component_low x Hx Hle). lia.
Qed.

Lemma component_cycle component rest x :
  pop_to v (tj_stack st) = (component, rest) → x ∈ component →
  tc R x x ↔ (1 < length component)%nat ∨ R v v.
Proof.
  intros Hp Hxc. destruct (pop_to_spec _ _ _ _ Hi root_stack Hp) as (Hc & Hr & Hnd & _).
  assert (∀ y z, y ∈ component → z ∈ component → rtc R y z) as Hrr.
  { intros y z [Hy Hyl]%Hc [Hz Hzl]%Hc. etrans; [by apply component_reaches|].
    apply (t_reach _ Hi); [apply root_gray|done..]. }
  assert (v ∈ component) as Hv by (apply Hc; split; [apply root_stack|lia]). split.
  - intros Hcyc. destruct (decide (1 < length component)%nat) as [|Hlen]; [by left|right].
    assert (component = [v]) as ->.
    { destruct component as [|a [|b l]]; simpl in *; [by apply not_elem_of_nil in Hv| |lia].
      by apply list_elem_of_singleton in Hv as ->. }
    apply list_elem_of_singleton in Hxc as ->. apply tc_inv_l in Hcyc as (w & Hvw & Hwv).
    destruct (component_edge v w root_stack) as [Hw Hwi]; [lia|done|].
    destruct (decide (w ∈ tj_stack st)) as [Hws|Hws].
    + assert (w ∈ [v]) as ->%list_elem_of_singleton by (apply Hc; auto). done.
    + destruct (off_stack _ _ _ Hi Hw Hws Hwv) as [_ []]. apply root_stack.
  - intros [Hlen|Hvv].
    + assert (∃ y, y ∈ component ∧ y ≠ x) as (y & Hy & Hyx).
      { destruct component as [|a [|b l]]; simpl in *; [lia..|].
        destruct (decide (a = x)) as [->|]; [|exists a; split; [constructor|done]].
        exists b. split; [right; constructor|]. intros ->. inv Hnd. set_solver. }
      pose proof (Hrr x y Hxc Hy) as H1. pose proof (Hrr y x Hy Hxc) as H2.
      apply rtc_tc in H1 as [<-|H1]; [done|]. by eapply tc_rtc_r.
    + eapply tc_rtc_l; [by apply Hrr|]. eapply tc_rtc_r; [by apply tc_once|]. by apply Hrr.
Qed.
End component.

Definition set_lows (low : list (string * Z)) (st : Tarjan) : Tarjan :=
  mk_tarjan (tj_index st) low (tj_stack st) (tj_on_stack st) (tj_out st) (tj_work st).

Definition set_finished (rest : list string) (on_stack : gset string) (out : list string)
    (work : list (string * list string)) (st : Tarjan) : Tarjan :=
  mk_tarjan (tj_index st) (tj_low st) rest on_stack out work.

Lemma finished_out st v component x :
  x ∈ (if (1 <? length component)%nat || bool_decide (v ∈ sget v succ)
       then tj_out st ++ component else tj_out st) ↔
  x ∈ tj_out st ∨ (x ∈ component ∧ ((1 < length component)%nat ∨ R v v)).
Proof.
  destruct ((1 <? length component)%nat || _) eqn:E.
  - apply orb_true_iff in E. rewrite Nat.ltb_lt, bool_decide_eq_true in E.
    rewrite elem_of_app. unfold follows. tauto.
  - apply orb_false_iff in E. rewrite Nat.ltb_ge, bool_decide_eq_false in E.
    unfold follows. split; [tauto|]. intros [?|[_ [?|?]]]; [done|lia|tauto].
Qed.

Lemma finished_nodup (out component : list string) (b : bool) :
  NoDup out → NoDup component → (∀ x, x ∈ component → x ∉ out) →
  NoDup (if b then out ++ component else out).
Proof.
  intros ? ? H. destruct b; [|done]. apply NoDup_app. split_and!; [done| |done].
  intros x ? ?. by apply (H x).
Qed.

Lemma finish_root_inv st v work component rest :
  tj_inv st → tj_work st = (v, []) :: work → low st v = idx st v →
  pop_to v (tj_stack st) = (component, rest) →
  tj_inv (set_finished rest (tj_on_stack st ∖ list_to_set component)
    (if (1 <? length component)%nat || bool_decide (v ∈ sget v succ)
     then tj_out st ++ component else tj_out st) work st).
Proof.
  intros Hi Hw Hl Hp. pose proof (root_stack _ _ _ Hi Hw) as Hv.
  destruct (pop_to_spec _ _ _ _ Hi Hv Hp) as (Hc & Hr & Hnd & Hsorted).
  pose proof (λ g, top_gray _ _ _ _ g Hi Hw) as Htop.
  pose proof (λ x, component_black _ _ _ Hi Hw x) as Hblack.
  pose proof (λ x w, component_edge _ _ _ Hi Hw Hl x w) as Hedge.
  pose proof (λ x, component_cycle _ _ _ Hi Hw Hl component rest x Hp) as Hcycle.
  pose proof (gray_cons _ _ _ _ Hw) as Hg.
  set (st' := set_finished _ _ _ _ _).
  assert (gray st' = work.*1) as Hg' by done.
  assert (∀ x, x ∈ tj_stack st → x ∈ component ∨ x ∈ rest) as Hsplit.
  { intros x ?. destruct (decide (idx st v ≤ idx st x)); [left; apply Hc|right; apply Hr]; split; [done..|done|lia]. }
  assert (∀ x, x ∈ rest → x ∉ work.*1 → x ∉ gray st) as Hgr.
  { intros x [_ Hx]%Hr Hxg. rewrite Hg. intros [->|?]%elem_of_cons; [lia|done]. }
  assert (∀ x w, explored st x w → explored st' x w) as Hexp.
  { intros x w [? He]. split; [done|]. intros [? _]%Hr. by apply He. }
  assert (∀ x, x ∈ rest → x ∈ tj_stack st) as Hrs by (intros x ?%Hr; tauto).
  assert (∀ x, x ∈ tj_stack st → x ∉ rest → x ∈ component) as Hcomp.
  { intros x Hx ?. destruct (Hsplit x Hx); tauto. }
  destruct Hi. split; rewrite ?Hg'.
  - done.
  - done.
  - intros x Hx. apply t_visited0. auto.
  - done.
  - intros x. simpl. rewrite elem_of_difference, t_on_stack0, elem_of_list_to_set, Hr, Hc. split.
    + intros [? Hn]. split; [done|]. destruct (decide (idx st x < idx st v)); [done|]. destruct Hn. split; [done|lia].
    + intros [? ?]. split; [done|]. intros [_ ?]. lia.
  - intros x Hx. apply Hr. split; [|by apply Htop]. apply t_gray0. rewrite Hg. by constructor.
  - rewrite Hg in t_gray_sorted0. by apply StronglySorted_inv in t_gray_sorted0 as [? _].
  - intros x w Hx Hxs Hxw. simpl in Hxs |- *. destruct (decide (x ∈ tj_stack st)) as [Hxst|Hxst].
    + assert (x ∈ component) as [_ Hxc]%Hc by auto. destruct (Hedge x w Hxst Hxc Hxw) as [? Hwl].
      split; [done|]. intros [Hws Hlt]%Hr. specialize (Hwl Hws). lia.
    + destruct (t_black0 x w Hx Hxst Hxw). split; [done|]. auto.
  - intros x Hx. apply t_low_le0. auto.
  - intros x Hx. destruct (t_low0 x (Hrs _ Hx)) as (y & Hy & Hyl & Hxy). exists y.
    split_and!; [|done..]. apply Hr. apply Hr in Hx as [Hx Hlt]. specialize (t_low_le0 x Hx).
    split; [done|]. lia.
  - intros x Hx Hxg. apply t_low_lt0; auto.
  - intros g x Hgg Hx. apply t_reach0; [rewrite Hg; by constructor|auto].
  - intros x Hx Hxg. destruct (t_owner0 x) as (g & Hgg & ? & ? & Hmax); [auto..|]. exists g.
    rewrite Hg in Hgg. apply Hr in Hx as [_ Hx]. apply elem_of_cons in Hgg as [->|Hgg]; [lia|].
    split_and!; [done..|]. intros g' ?. apply Hmax. rewrite Hg. by constructor.
  - intros x w Hx Hxg Hxw. apply Hexp. auto.
  - intros x c w Hxc Hxw. destruct (t_work0 x c w) as [?|?]; [rewrite Hw; by constructor|done|by left|right; auto].
  - intros x c w Hxc. apply t_children0. rewrite Hw. by constructor.
  - intros x. simpl. rewrite finished_out, t_out0. split.
    + intros [(? & ? & ?)|[Hx ?]]; [split_and!; auto|]. apply Hcycle in Hx as ?.
      apply Hc in Hx as [Hx ?]. split_and!; [by apply t_visited0| |tauto]. rewrite Hr. lia.
    + intros (? & ? & ?). destruct (decide (x ∈ tj_stack st)); [right|by left].
      split; [auto|]. apply (Hcycle x); auto.
  - apply finished_nodup; [done..|]. intros x [? _]%Hc Hx. apply t_out0 in Hx. tauto.
Qed.

(** ** The loop *)

(** The low links once the top is done: its parent reaches what it reaches. *)
Definition parent_low (v : string) (work : list (string * list string)) (st : Tarjan)
    : list (string * Z) :=
  match work with
  | (parent, _) :: _ => tj_lower parent (iget v (tj_low st)) (tj_low st)
  | [] => tj_low st
  end.

Lemma parent_low_inv st v work :
  tj_inv st → tj_work st = (v, []) :: work →
  let st' := set_lows (parent_low v work st) st in
  tj_inv st' ∧ match work with [] => True | (p, _) :: _ => low st' p ≤ low st' v end.
Proof.
  intros Hi Hw st'. assert (v ∈ gray st) as Hv by (rewrite (gray_cons _ _ _ _ Hw); constructor).
  destruct work as [|[p cp] work]; [split; [by destruct st|done]|].
  assert (idx st p < idx st v) as Hlt by (apply (top_gray _ _ _ _ _ Hi Hw); constructor).
  assert (v ∈ tj_stack st) as Hvs by by apply (t_gray _ Hi).
  assert (p ∈ gray st) as Hpg by (rewrite (gray_cons _ _ _ _ Hw); right; constructor).
  destruct (t_low _ Hi v Hvs) as (y & Hy & Hyl & Hvy). split.
  - apply (set_low_inv st p (low st v) y); [done..|]. etrans; [|exact Hvy].
    apply (t_reach _ Hi); [done..|lia].
  - change st' with (set_low p (low st v) st).
    rewrite !low_set, decide_True, decide_False by (done || intros ->; lia). lia.
Qed.

Lemma step_finish_inv st v work :
  tj_inv st → tj_work st = (v, []) :: work → tj_inv (tj_step succ st).
Proof.
  intros Hi Hw. destruct (parent_low_inv st v work Hi Hw) as [Hi' Hp].
  unfold tj_step. rewrite Hw. fold (parent_low v work st).
  set (st' := set_lows (parent_low v work st) st) in *.
  assert (tj_work st' = (v, []) :: work) as Hw' by done.
  assert (v ∈ gray st') as Hv' by (rewrite (gray_cons _ _ _ _ Hw'); constructor).
  pose proof (t_low_le _ Hi' v (t_gray _ Hi' v Hv')) as Hle.
  change (iget v (parent_low v work st)) with (low st' v).
  change (iget v (tj_index st)) with (idx st' v).
  destruct (Z.eqb_spec (low st' v) (idx st' v)) as [Heq|Hne]; simpl.
  - destruct (pop_to v (tj_stack st)) as [component rest] eqn:Hpop.
    exact (finish_root_inv st' v work component rest Hi' Hw' Heq Hpop).
  - assert (low st' v < idx st' v) as Hlt by lia.
    pose proof (lower_parent st' v [] work Hi' Hw' Hlt) as Hnil.
    destruct work as [|[p cp] work]; [done|].
    exact (finish_low_inv st' v p cp work Hi' Hw' Hlt Hp).
Qed.

Lemma step_child_inv st v w c work :
  tj_inv st → tj_work st = (v, w :: c) :: work → tj_inv (tj_step succ st).
Proof.
  intros Hi Hw. unfold tj_step. rewrite Hw.
  cbn [tj_index tj_low tj_stack tj_on_stack tj_out tj_work].
  assert (v ∈ gray st) as Hg by (rewrite (gray_cons _ _ _ _ Hw); constructor).
  assert (v ∈ tj_stack st) as Hv by by apply (t_gray _ Hi).
  assert (R v w) as Hvw by (apply (t_children _ Hi v (w :: c)); [rewrite Hw|]; constructor).
  destruct (din w (tj_index st)) eqn:Hd; simpl.
  - apply din_true in Hd. case_bool_decide as Hs.
    + apply (t_on_stack _ Hi) in Hs.
      assert (tj_inv (set_low v (iget w (tj_index st)) st)) as Hi'.
      { by apply (set_low_inv st v _ w); [..|apply rtc_once]. }
      apply (drop_child_inv _ v w c [] work Hi'); [done|]. split; [done|]. intros _.
      rewrite low_set, decide_True by done. unfold idx. simpl. lia.
    + apply (drop_child_inv st v w c [] work Hi Hw). split; [done|].
      intros Hws. by apply (t_on_stack _ Hi) in Hws.
  - apply din_false in Hd.
    assert (tj_inv (tj_enter succ w st)) as Hi' by (apply enter_inv; [done..|by rewrite Hw]).
    pose proof (t_visited _ Hi v Hv) as Hvv.
    apply (drop_child_inv _ v w c [(w, sort_set (sget w succ))] work Hi'); [simpl; by rewrite Hw|].
    split; [apply visited_enter; by left|]. intros _.
    rewrite low_enter, idx_enter, decide_False, decide_True by (done || by intros ->).
    pose proof (t_low_le _ Hi v Hv). pose proof (t_num _ Hi v Hvv). lia.
Qed.

Lemma step_inv st : tj_inv st → tj_inv (tj_step succ st).
Proof.
  intros Hi. destruct (tj_work st) as [|[v [|w c]] work] eqn:Hw.
  - unfold tj_step. by rewrite Hw.
  - by eapply step_finish_inv.
  - by eapply step_child_inv.
Qed.

Lemma loop_inv fuel st : tj_inv st → tj_inv (tj_loop fuel succ st).
Proof.
  revert st. induction fuel as [|fuel IH]; intros st Hi; simpl; [done|].
  destruct (tj_work st); [done|]. by apply IH, step_inv.
Qed.

(** ** Termination *)

(** The rounds left: one for each child and two for each node not yet numbered, and what is
    left of the nodes being worked on. *)
Definition unnumbered (index : list (string * Z)) (l : list (string * gset string)) : nat :=
  list_sum ((λ p, if din p.1 index then O else S (S (size p.2))) <$> l).
Definition rounds (st : Tarjan) : nat :=
  (unnumbered (tj_index st) succ + list_sum ((λ p, S (length p.2)) <$> tj_work st))%nat.

Lemma din_dset {K V} `{EqDecision K} (k k' : K) (v : V) d :
  din k (dset k' v d) = bool_decide (k = k') || din k d.
Proof. unfold din. rewrite dget_dset. by case_decide; case_bool_decide. Qed.

Lemma unnumbered_le v n index l : (unnumbered (dset v n index) l ≤ unnumbered index l)%nat.
Proof.
  unfold unnumbered. induction l as [|[k s] l IH]; csimpl; [done|].
  rewrite din_dset. destruct (din k index); [rewrite orb_true_r; lia|].
  case_bool_decide; simpl; lia.
Qed.

Lemma unnumbered_enter v n index l : v ∉ index.*1 → v ∈ l.*1 →
  (unnumbered (dset v n index) l + S (S (size (sget v l))) ≤ unnumbered index l)%nat.
Proof.
  intros Hv. apply din_false in Hv. pose proof (unnumbered_le v n index) as Hle.
  unfold unnumbered, sget in *. induction l as [|[k s] l IH]; csimpl; [by intros ?%not_elem_of_nil|].
  rewrite din_dset. intros Hk. specialize (Hle l). destruct (decide (v = k)) as [<-|Hne].
  - rewrite Hv, bool_decide_true by done. simpl. lia.
  - apply elem_of_cons in Hk as [|Hk]; [done|]. rewrite bool_decide_false by done. simpl.
    specialize (IH Hk). destruct (din k index); lia.
Qed.

Lemma rounds_enter st v : ¬ visited st v → v ∈ succ.*1 →
  (S (rounds (tj_enter succ v st)) ≤ rounds st)%nat.
Proof.
  intros Hv Hk. unfold rounds, tj_enter. csimpl.
  pose proof (unnumbered_enter v (Z.of_nat (length (tj_index st))) _ _ Hv Hk) as H.
  unfold sort_set, sort_str. rewrite length_py_sort. unfold size, set_size in H. simpl in H. lia.
Qed.

Hypothesis succ_closed : ∀ u v, R u v → v ∈ succ.*1.

Lemma step_rounds st : tj_inv st → tj_work st ≠ [] → (S (rounds (tj_step succ st)) ≤ rounds st)%nat.
Proof.
  intros Hi Hne. unfold tj_step. destruct (tj_work st) as [|[v [|w c]] work] eqn:Hw; [done| |].
  - destruct (negb _); [|destruct (pop_to _ _)]; unfold rounds; simpl; rewrite Hw; csimpl; lia.
  - cbn [tj_index tj_low tj_stack tj_on_stack tj_out tj_work].
    set (st0 := mk_tarjan _ _ _ _ _ _).
    assert (S (rounds st0) = rounds st) as E by (unfold rounds; simpl; rewrite Hw; csimpl; lia).
    destruct (din w (tj_index st)) eqn:Hd; simpl; [|].
    + unfold rounds in *. rewrite Hw in *. case_bool_decide; csimpl in *; lia.
    + apply din_false in Hd. assert (w ∈ succ.*1) as Hws.
      { apply (succ_closed v), (t_children _ Hi v (w :: c)); [rewrite Hw|]; constructor. }
      pose proof (rounds_enter st0 w Hd Hws). lia.
Qed.

Lemma loop_done fuel st : tj_inv st → (rounds st ≤ fuel)%nat → tj_work (tj_loop fuel succ st) = [].
Proof.
  revert st. induction fuel as [|fuel IH]; intros st Hi Hf; simpl.
  - destruct (tj_work st) as [|p work] eqn:Hw; [done|]. unfold rounds in Hf. rewrite Hw in Hf. csimpl in Hf. lia.
  - destruct (tj_work st) eqn:Hw; [done|]. assert (tj_work st ≠ []) as Hne by by rewrite Hw.
    pose proof (step_rounds st Hi Hne). apply IH; [by apply step_inv|lia].
Qed.

Lemma no_work_no_stack st : tj_inv st → tj_work st = [] → tj_stack st = [].
Proof.
  intros [] Hw. destruct (tj_stack st) as [|x l] eqn:Hs; [done|]. exfalso.
  assert (gray st = []) as Hg by (unfold gray; by rewrite Hw).
  destruct (t_owner0 x) as (g & Hgg & _); [constructor|rewrite Hg; apply not_elem_of_nil|].
  rewrite Hg in Hgg. by apply not_elem_of_nil in Hgg.
Qed.

Lemma step_visited st x : visited st x → visited (tj_step succ st) x.
Proof.
  unfold tj_step. destruct (tj_work st) as [|[v [|w c]] work]; [done| |].
  - destruct (negb _); [done|]. destruct (pop_to _ _); done.
  - destruct (negb _); [|by case_bool_decide]. intros ?. apply visited_enter. by right.
Qed.

Lemma loop_visited fuel st x : visited st x → visited (tj_loop fuel succ st) x.
Proof.
  revert st. induction fuel as [|fuel IH]; intros st Hx; simpl; [done|].
  destruct (tj_work st); [done|]. by apply IH, step_visited.
Qed.

(** ** The searches from every start *)

Definition idle (st : Tarjan) : Prop := tj_inv st ∧ tj_work st = [].

Definition search (st : Tarjan) (start : string) : Tarjan :=
  if din start (tj_index st) then st else tj_loop (tj_fuel succ) succ (tj_enter succ start st).

Lemma unnumbered_fuel index : (unnumbered index succ ≤ tj_fuel succ)%nat.
Proof.
  unfold unnumbered, tj_fuel. clear succ_closed. induction succ as [|[k s] l IH]; csimpl; [done|].
  destruct (din k index); lia.
Qed.

Lemma search_idle st start : idle st → start ∈ succ.*1 →
  idle (search st start) ∧ visited (search st start) start ∧
  ∀ x, visited st x → visited (search st start) x.
Proof.
  intros [Hi Hw] Hs. unfold search. destruct (din start (tj_index st)) eqn:Hd.
  { apply din_true in Hd. done. }
  apply din_false in Hd.
  assert (tj_inv (tj_enter succ start st)) as He by (apply enter_inv; [done..|by rewrite Hw]).
  split; [split|split].
  - by apply loop_inv.
  - apply loop_done; [done|]. pose proof (rounds_enter st start Hd Hs) as Hr.
    pose proof (unnumbered_fuel (tj_index st)). unfold rounds in Hr at 2. rewrite Hw in Hr. simpl in Hr. lia.
  - apply loop_visited, visited_enter. by left.
  - intros x Hx. apply loop_visited, visited_enter. by right.
Qed.

Lemma searches starts st : idle st → (∀ s, s ∈ starts → s ∈ succ.*1) →
  idle (foldl search st starts) ∧ ∀ x, x ∈ starts ∨ visited st x → visited (foldl search st starts) x.
Proof.
  revert st. induction starts as [|s starts IH]; intros st Hi Hs; simpl.
  - split; [done|]. intros x [Hx|?]; [by apply not_elem_of_nil in Hx|done].
  - destruct (search_idle st s Hi) as (Hi' & Hv & Hmono); [apply Hs; constructor|].
    destruct (IH _ Hi') as [H1 H2]; [intros s' ?; apply Hs; by constructor|].
    split; [done|]. intros x [[->|Hx]%elem_of_cons|Hx]; apply H2; auto.
Qed.

Lemma empty_idle : idle (mk_tarjan [] [] [] ∅ [] []).
Proof.
  split; [|done]. assert (∀ x, ¬ visited (mk_tarjan [] [] [] ∅ [] []) x) as Hv.
  { intros x. apply not_elem_of_nil. }
  split; simpl; try solve [constructor]; intros; set_solver.
Qed.

Lemma on_cycles_spec x : x ∈ on_cycles succ ↔ tc R x x.
Proof.
  unfold on_cycles, sort_str. rewrite elem_of_py_sort. fold search.
  destruct (searches (py_sort String.leb succ.*1) _ empty_idle) as [[Hi Hw] Hv].
  { intros s. by rewrite elem_of_py_sort. }
  change (λ st start, _) with search. rewrite (t_out _ Hi), (no_work_no_stack _ Hi Hw).
  split; [tauto|]. intros Hx. split_and!; [|apply not_elem_of_nil|done]. apply Hv. left.
  rewrite elem_of_py_sort. apply tc_inv_l in Hx as (y & Hxy & _).
  unfold follows, sget in Hxy. destruct (dget x succ) eqn:E; [|set_solver].
  apply dget_Some_elem in E. apply list_elem_of_fmap. by exists (x, g).
Qed.

Lemma on_cycles_nodup : NoDup (on_cycles succ).
Proof.
  unfold on_cycles, sort_str. rewrite NoDup_py_sort. change (λ st start, _) with search.
  destruct (searches (py_sort String.leb succ.*1) _ empty_idle) as [[Hi _] _].
  - intros s. by rewrite elem_of_py_sort.
  - exact (t_out_nodup _ Hi).
Qed.

End tarjan.

(** ** The property *)

(** [x] comes after itself. *)
Definition cyclic (nodes : list (string * SegmentNode)) (x : string) : Prop := tc (edge nodes) x x.

(** C17: [_on_cycles] returns exactly the segments that lie on a cycle of the graph, each once
    and in the order of their ids, however the components interleave on the stack: a segment
    that merely leads to a cycle or is reached from one is not among them. *)
Theorem on_cycles_exact (nodes : list (string * SegmentNode)) (Hn : node_dict nodes) :
  let found := on_cycles (successors nodes) in
  (∀ x, x ∈ found ↔ cyclic nodes x) ∧ NoDup found ∧
  StronglySorted (λ a b, String.leb a b = true) found.
Proof.
  assert (∀ u v, follows (successors nodes) u v → v ∈ (successors nodes).*1) as Hc.
  { intros u v. by apply follows_node. }
  split_and!.
  - intros x. rewrite (on_cycles_spec _ Hc). apply tc_follows_edge.
  - by apply on_cycles_nodup.
  - unfold on_cycles, sort_str. apply py_sort_sorted, _.
Qed.

(** Two cycles that share a segment, a segment that leads to them, and one below them. *)
Definition cyclic_nodes : list (string * SegmentNode) :=
  (λ n, (n_segment_id n, n)) <$>
    [demo_node (demo_id "0") "r" ROOT id_caller;
     demo_node (demo_id "1") "r" [demo_entry_of (demo_id "0"); demo_entry_of (demo_id "3")] id_caller_join;
     demo_node (demo_id "2") "r" [demo_entry_of (demo_id "1"); demo_entry_of (demo_id "4")] id_token;
     demo_node (demo_id "3") "r" [demo_entry_of (demo_id "2")] id_token;
     demo_node (demo_id "4") "r" [demo_entry_of (demo_id "2")] id_token;
     demo_node (demo_id "5") "r" [demo_entry_of (demo_id "4")] id_token].

Lemma on_cycles_exact_witness :
  on_cycles (successors cyclic_nodes) = [demo_id "1"; demo_id "2"; demo_id "3"; demo_id "4"] ∧
  NoDup (on_cycles (successors cyclic_nodes)).
Proof.
  split; [vm_compute; reflexivity|]. apply (on_cycles_exact cyclic_nodes). split.
  - apply (bool_decide_unpack (NoDup cyclic_nodes.*1)). vm_compute. exact I.
  - intros k n (m & E & _)%list_elem_of_fmap. by injection E as -> ->.
Defined.
