(* ===== verification/GraphForks.v ===== *)
(** * Forked branches

    A segment that forks declares the children it starts; the run joins them when the terminal
    segment does not name them. [_fork_closures] of [fabric/reconstruct/_graph.py] follows
    those declarations, through any depth of children that fork again and through shared or
    mutually declared children: the segments it joins and the gaps it finds are exactly what
    the declarations say, and its work list drains. The file also states what [__post_init__]
    of [_RunBuilder] establishes. *)

From stdpp Require Import relations.
From S2P Require Import Prelude PyDict Hash Json Report Decimal Ids Tokens Graph GraphSearch GraphCycles.

(** ** The builder's tables *)

Lemma fold_dset_fresh (ns : list SegmentNode) d :
  NoDup (d.*1 ++ (n_segment_id <$> ns)) →
  foldl (λ d n, dset (n_segment_id n) n d) d ns = d ++ ((λ n, (n_segment_id n, n)) <$> ns).
Proof.
  revert d. induction ns as [|n ns IH]; intros d Hd; csimpl; [by rewrite app_nil_r|].
  csimpl in Hd. assert (n_segment_id n ∉ d.*1) as Hn.
  { intros ?. apply NoDup_app in Hd as (_ & Hd & _). apply (Hd (n_segment_id n)); [done|constructor]. }
  rewrite dset_new by done. rewrite IH; [by rewrite <-app_assoc|].
  rewrite fmap_app. csimpl. by rewrite <-app_assoc.
Qed.

Section tables.
Context (run_id : string) (members : list SegmentNode) (aliases : list string).
Context (everything : list (string * SegmentNode)) (clocks : Clocks).
Context (Hids : NoDup (n_segment_id <$> members)).
#[local] Notation b := (new_builder run_id members aliases everything clocks).

Lemma members_perm : b_members b ≡ₚ members.
Proof. apply py_sort_Permutation. Qed.

Lemma present_members : b_present b = (λ n, (n_segment_id n, n)) <$> b_members b.
Proof.
  simpl. rewrite fold_dset_fresh; [done|]. simpl. by rewrite py_sort_Permutation.
Qed.

Lemma present_dict : node_dict (b_present b).
Proof.
  rewrite present_members. split.
  - rewrite <-list_fmap_compose. simpl. by rewrite py_sort_Permutation.
  - intros k n (m & E & _)%list_elem_of_fmap. by injection E as -> ->.
Qed.

Lemma present_elem k n : (k, n) ∈ b_present b ↔ n ∈ b_members b ∧ n_segment_id n = k.
Proof. rewrite present_members, list_elem_of_fmap. naive_solver. Qed.

Lemma present_dget k n : dget k (b_present b) = Some n ↔ n ∈ b_members b ∧ n_segment_id n = k.
Proof.
  rewrite <-present_elem. split; [apply dget_Some_elem|]. apply elem_dget, present_dict.
Qed.

Lemma present_key k : k ∈ (b_present b).*1 ↔ ∃ n, n ∈ b_members b ∧ n_segment_id n = k.
Proof.
  rewrite present_members, <-list_fmap_compose, list_elem_of_fmap. naive_solver.
Qed.

(** The first missing node of every entry that names no segment at all. *)
Lemma missing_keys k : k ∈ (b_missing b).*1 ↔
  k ∉ everything.*1 ∧ ∃ n e, n ∈ b_members b ∧ e ∈ entries n ∧ segment_id e = k.
Proof.
  simpl. set (ms := py_sort node_leb members). clearbody ms.
  assert (∀ es d, k ∈ (foldl (note_missing run_id everything) d es).*1 ↔
    k ∈ d.*1 ∨ (k ∉ everything.*1 ∧ ∃ e, e ∈ es ∧ segment_id e = k)) as Hes.
  { induction es as [|e es IH]; intros d; simpl; [set_solver|]. rewrite IH.
    unfold note_missing. destruct (din (segment_id e) everything) eqn:He; simpl.
    - apply din_true in He. set_solver.
    - apply din_false in He. destruct (din (segment_id e) d) eqn:Hd.
      + apply din_true in Hd. set_solver.
      + rewrite elem_of_dset_keys. set_solver. }
  assert (∀ d, k ∈ (foldl (λ missing n, foldl (note_missing run_id everything) missing (entries n)) d ms).*1 ↔
    k ∈ d.*1 ∨ (k ∉ everything.*1 ∧ ∃ n e, n ∈ ms ∧ e ∈ entries n ∧ segment_id e = k)) as Hms.
  { clear Hids. induction ms as [|n ms IH]; intros d; simpl; [set_solver|]. rewrite IH, Hes. set_solver. }
  rewrite Hms. set_solver.
Qed.

End tables.

(** What [__post_init__] establishes, in terms of the members alone. *)
Record builder_ok (everything : list (string * SegmentNode)) (b : Builder) : Prop := {
  ok_ids : NoDup (n_segment_id <$> b_members b);
  ok_everything : b_everything b = everything;
  ok_succ : b_successors b = successors (b_present b);
  ok_dict : node_dict (b_present b);
  ok_present : ∀ k n, dget k (b_present b) = Some n ↔ n ∈ b_members b ∧ n_segment_id n = k;
  ok_key : ∀ k, k ∈ (b_present b).*1 ↔ ∃ n, n ∈ b_members b ∧ n_segment_id n = k;
  ok_missing : ∀ k, k ∈ (b_missing b).*1 ↔
    k ∉ everything.*1 ∧ ∃ n e, n ∈ b_members b ∧ e ∈ entries n ∧ segment_id e = k;
}.

Lemma new_builder_ok run_id members aliases everything clocks :
  NoDup (n_segment_id <$> members) →
  builder_ok everything (new_builder run_id members aliases everything clocks).
Proof.
  intros Hids. split; [|done|done|by apply present_dict|by apply present_dget|by apply present_key|
                       by apply missing_keys].
  simpl. by rewrite py_sort_Permutation.
Qed.

(** ** The closures *)

Lemma list_sum_submseteq (l k : list nat) : l ⊆+ k → (list_sum l ≤ list_sum k)%nat.
Proof. induction 1; simpl; lia. Qed.

Lemma size_union_list (Xs : list (gset string)) :
  (size (⋃ Xs) ≤ list_sum (size <$> Xs))%nat.
Proof.
  induction Xs as [|X Xs IH]; [change (size (∅ : gset string) ≤ 0)%nat; by rewrite size_empty|].
  csimpl. rewrite size_union_alt. assert (⋃ Xs ∖ X ⊆ ⋃ Xs) as Hs by set_solver.
  apply subseteq_size in Hs. lia.
Qed.

Lemma size_list_le (l : list string) : (size (list_to_set l : gset string) ≤ length l)%nat.
Proof.
  induction l as [|x l IH]; [change (size (∅ : gset string) ≤ 0)%nat; by rewrite size_empty|].
  csimpl. rewrite size_union_alt, size_singleton.
  assert ((list_to_set l ∖ {[x]} : gset string) ⊆ list_to_set l) as Hs by set_solver.
  apply subseteq_size in Hs. lia.
Qed.

Lemma rtc_flip {A} (R : relation A) x y : rtc R x y ↔ rtc (flip R) y x.
Proof.
  split; induction 1 as [|? ? ? ? _ IH]; [done| |done|]; (eapply rtc_r; [exact IH|done]).
Qed.

Section closures.
Context (everything : list (string * SegmentNode)) (b : Builder) (Hb : builder_ok everything b).

Lemma follows_b u v : follows (b_successors b) u v ↔ edge (b_present b) u v.
Proof. rewrite (ok_succ _ _ Hb). apply follows_edge. Qed.

Lemma names_edge c u : names_member b c u ↔ edge (b_present b) u c.
Proof.
  unfold names_member, edge, entries_of. apply and_iff_compat_l. split.
  - intros (e & He & <-). destruct (dget c (b_present b)) as [n|] eqn:E; [|by apply not_elem_of_nil in He].
    exists n, e. split_and!; [|by apply (ok_present _ _ Hb) in E as [_ ?]|done|done].
    apply dget_Some_elem in E. apply list_elem_of_fmap. by exists (c, n).
  - intros (n & e & Hn & <- & He & <-). apply list_elem_of_fmap in Hn as ([k n'] & -> & Hn). simpl in *.
    destruct (ok_dict _ _ Hb) as [Hnd Hk]. apply Hk in Hn as Hid. rewrite Hid.
    apply elem_dget in Hn; [|done]. rewrite Hn. by exists e.
Qed.

(** The ancestors of a segment, itself included, and the segments after it. *)
Lemma ancestors_edge s x : x ∈ ancestors b s ↔ rtc (edge (b_present b)) x s.
Proof.
  rewrite elem_of_ancestors. split.
  - intros H. apply rtc_flip. revert H. apply rtc_congruence with (f := id). intros ??. apply names_edge.
  - intros H. apply rtc_flip in H. revert H. apply rtc_congruence with (f := id). intros ??. apply names_edge.
Qed.

Lemma descendants_edge s x :
  x ∈ descendants b s ↔ tc (edge (b_present b)) s x ∧ x ≠ s.
Proof.
  rewrite elem_of_descendants. apply and_iff_compat_r. rewrite (ok_succ _ _ Hb). apply tc_follows_edge.
Qed.

Lemma self_descendants c x :
  x ∈ {[c]} ∪ descendants b c ↔ rtc (edge (b_present b)) c x.
Proof.
  rewrite elem_of_union, elem_of_singleton, descendants_edge, rtc_tc.
  destruct (decide (x = c)); naive_solver.
Qed.

Lemma edge_target u v : edge (b_present b) u v → v ∈ (b_present b).*1.
Proof.
  intros (_ & n & e & Hn & <- & _). apply (ok_key _ _ Hb). exists n. split; [|done].
  apply list_elem_of_fmap in Hn as ([k n'] & -> & Hn). apply elem_dget in Hn; [|apply (ok_dict _ _ Hb)].
  by apply (ok_present _ _ Hb) in Hn as [? _].
Qed.

Lemma rtc_present c x : c ∈ (b_present b).*1 → rtc (edge (b_present b)) c x → x ∈ (b_present b).*1.
Proof. intros Hc H. revert Hc. induction H as [|? ? ? H _ IH]; [done|]. intros _. by eapply IH, edge_target. Qed.

Lemma node_at_present s : is_Some (node_at b s) ↔ s ∈ (b_present b).*1.
Proof. unfold node_at. apply dget_is_Some. Qed.
(** ** The fork closures *)

(** The children the loop ever queues: those declared in the terminal's closure, and those
    declared behind a queued child that sealed something. *)
Inductive queued (closure : gset string) : string → Prop :=
  | queued_start s n c : s ∈ closure → node_at b s = Some n → c ∈ n_declared_branches n →
      queued closure c
  | queued_more c s n d : queued closure c → c ∈ (b_present b).*1 →
      rtc (edge (b_present b)) c s → node_at b s = Some n → d ∈ n_declared_branches n →
      queued closure d.

(** The segments joined through the forks. *)
Definition forked (closure : gset string) (s : string) : Prop :=
  ∃ c, queued closure c ∧ c ∈ (b_present b).*1 ∧ rtc (edge (b_present b)) c s.

Definition sealed_node (n : SegmentNode) : Prop := seal_state n = seg_sealed.

Definition declared_count : nat := list_sum ((λ n, length (n_declared_branches n)) <$> b_members b).
Definition declares (s : string) : nat :=
  match node_at b s with Some n => length (n_declared_branches n) | None => O end.

Lemma length_declared n X : (length (sort_set (declared_by n ∖ X)) ≤ length (n_declared_branches n))%nat.
Proof.
  unfold sort_set, sort_str. rewrite length_py_sort.
  change (size (declared_by n ∖ X) ≤ length (n_declared_branches n))%nat.
  assert (declared_by n ∖ X ⊆ declared_by n) as H by set_solver. apply subseteq_size in H.
  etrans; [exact H|]. unfold declared_by. apply size_list_le.
Qed.

Lemma node_at_members l : NoDup l → omap (node_at b) l ⊆+ b_members b.
Proof.
  intros Hl. apply NoDup_submseteq.
  - induction Hl as [|s l Hs Hl IH]; csimpl; [constructor|].
    destruct (node_at b s) as [n|] eqn:E; [|done]. constructor; [|done].
    intros (s' & Hs' & E')%list_elem_of_omap.
    apply (ok_present _ _ Hb) in E as [_ <-]. apply (ok_present _ _ Hb) in E' as [_ <-]. done.
  - intros n (s & _ & E)%list_elem_of_omap. by apply (ok_present _ _ Hb) in E as [? _].
Qed.

Lemma declares_bound l : NoDup l → (list_sum (declares <$> l) ≤ declared_count)%nat.
Proof.
  intros Hl. assert (list_sum (declares <$> l) =
    list_sum ((λ n, length (n_declared_branches n)) <$> omap (node_at b) l)) as ->.
  { clear Hl. unfold declares. induction l as [|s l IH]; csimpl; [done|].
    destruct (node_at b s); csimpl; by rewrite IH. }
  apply list_sum_submseteq. unfold declared_count.
  apply (fmap_submseteq (λ n : SegmentNode, length (n_declared_branches n))). by apply node_at_members.
Qed.

Section fork_fold.
Context (closure : gset string).
#[local] Notation fold := (foldl (fork_member b closure)).

Lemma fork_member_seen l st : fs_seen (fold st l) = fs_seen st.
Proof.
  revert st. induction l as [|s l IH]; intros st; simpl; [done|]. rewrite IH.
  unfold fork_member. by destruct (node_at b s).
Qed.

Lemma fork_member_out l st x :
  x ∈ fs_out (fold st l) ↔ x ∈ fs_out st ∨ (x ∈ l ∧ x ∈ (b_present b).*1).
Proof.
  revert st. induction l as [|s l IH]; intros st; simpl; [set_solver|]. rewrite IH.
  pose proof (node_at_present s) as Hp. unfold fork_member.
  destruct (node_at b s) as [n|] eqn:E; simpl; [|set_solver].
  assert (s ∈ (b_present b).*1) by by apply Hp. set_solver.
Qed.

Lemma fork_member_todo l st x :
  x ∈ fs_todo (fold st l) ↔ x ∈ fs_todo st ∨
    (x ∉ fs_seen st ∧ ∃ s n, s ∈ l ∧ node_at b s = Some n ∧ x ∈ n_declared_branches n).
Proof.
  revert st. induction l as [|s l IH]; intros st; simpl; [set_solver|]. rewrite IH.
  unfold fork_member. destruct (node_at b s) as [n|] eqn:E; simpl; [|set_solver].
  rewrite elem_of_app. unfold sort_set, sort_str.
  rewrite elem_of_py_sort, elem_of_elements, elem_of_difference. unfold declared_by.
  rewrite elem_of_list_to_set. set_solver.
Qed.

Lemma fork_member_length l st :
  (length (fs_todo (fold st l)) ≤ length (fs_todo st) + list_sum (declares <$> l))%nat.
Proof.
  revert st. induction l as [|s l IH]; intros st; csimpl; [lia|]. etrans; [apply IH|].
  unfold fork_member, declares at 2. destruct (node_at b s) as [n|] eqn:E; simpl; [|lia].
  rewrite length_app. pose proof (length_declared n (fs_seen st)). lia.
Qed.

Lemma fork_member_gaps l st :
  fs_gaps (fold st l) = [] ↔ fs_gaps st = [] ∧
    ∀ s n, s ∈ l → s ∉ closure → s ∉ fs_out st → node_at b s = Some n → sealed_node n.
Proof.
  revert st. induction l as [|s l IH]; intros st; simpl; [set_solver|]. rewrite IH.
  unfold fork_member. destruct (node_at b s) as [n|] eqn:E; simpl; [|set_solver].
  destruct (bool_decide (s ∉ closure) && bool_decide (s ∉ fs_out st) &&
            negb (bool_decide (seal_state n = seg_sealed))) eqn:Hc.
  - rewrite !andb_true_iff, negb_true_iff, !bool_decide_eq_true, bool_decide_eq_false in Hc.
    split; [|set_solver]. intros [H _]. by destruct (fs_gaps st).
  - apply and_iff_compat_l. split; intros H s' n' Hs' Hc' Ho' E'.
    + destruct (decide (s' = s)) as [->|Hne]; [|apply (H s'); set_solver].
      rewrite !andb_false_iff, negb_false_iff, !bool_decide_eq_false, bool_decide_eq_true in Hc.
      rewrite E in E'. injection E' as <-. unfold sealed_node. tauto.
    + apply (H s'); set_solver.
Qed.
#[local] Notation present := (b_present b).*1.
#[local] Notation after := (rtc (edge (b_present b))).

Lemma marked_or_left (seen : gset string) c d todo :
  d ∈ seen ∨ d ∈ c :: todo → d ∈ {[c]} ∪ seen ∨ d ∈ todo.
Proof. rewrite elem_of_cons, elem_of_union, elem_of_singleton. tauto. Qed.

Lemma left_or_marked (seen : gset string) c d todo :
  d ∈ {[c]} ∪ seen ∨ d ∈ todo → d ∈ seen ∨ d ∈ c :: todo.
Proof. rewrite elem_of_cons, elem_of_union, elem_of_singleton. tauto. Qed.

Record fork_inv (st : ForkState) : Prop := {
  f_queued : ∀ c, c ∈ fs_seen st ∨ c ∈ fs_todo st → queued closure c;
  f_start : ∀ s n c, s ∈ closure → node_at b s = Some n → c ∈ n_declared_branches n →
    c ∈ fs_seen st ∨ c ∈ fs_todo st;
  f_more : ∀ c s n d, c ∈ fs_seen st → c ∈ present → after c s → node_at b s = Some n →
    d ∈ n_declared_branches n → d ∈ fs_seen st ∨ d ∈ fs_todo st;
  f_out : ∀ s, s ∈ fs_out st ↔ ∃ c, c ∈ fs_seen st ∧ c ∈ present ∧ after c s;
  f_gaps : fs_gaps st = [] ↔ (∀ c, c ∈ fs_seen st → c ∈ present) ∧
    ∀ s n, s ∈ fs_out st → s ∉ closure → node_at b s = Some n → sealed_node n;
}.

Definition popped (st : ForkState) (todo : list string) : ForkState :=
  mk_fork_state (fs_out st) (fs_gaps st) (fs_seen st) todo.
Definition marked (st : ForkState) (c : string) : ForkState :=
  mk_fork_state (fs_out st) (fs_gaps st) ({[c]} ∪ fs_seen st) (fs_todo st).

Lemma sort_set_elem x (X : gset string) : x ∈ sort_set X ↔ x ∈ X.
Proof. unfold sort_set, sort_str. by rewrite elem_of_py_sort, elem_of_elements. Qed.

Lemma sort_set_nodup (X : gset string) : NoDup (sort_set X).
Proof. unfold sort_set, sort_str. rewrite NoDup_py_sort. apply NoDup_elements. Qed.

Lemma queued_declarer c : queued closure c → ∃ n, declarer b c = Some n.
Proof.
  intros Hc. assert (∃ n, n ∈ filter (λ n, c ∈ n_declared_branches n) (b_members b)) as [n Hn].
  { destruct Hc as [s n c _ E ?|c' s n d _ _ _ E ?]; exists n; apply list_elem_of_filter;
      (split; [done|by apply (ok_present _ _ Hb) in E as [? _]]). }
  unfold declarer. destruct (filter _ _) as [|m l]; [by apply not_elem_of_nil in Hn|by exists m].
Qed.

Lemma fork_skip_inv st c todo :
  fork_inv st → fs_todo st = c :: todo → c ∈ fs_seen st → fork_inv (popped st todo).
Proof.
  intros [] Ht Hc. rewrite Ht in *.
  assert (∀ d, d ∈ fs_seen st ∨ d ∈ c :: todo → d ∈ fs_seen st ∨ d ∈ todo) as Hd by set_solver.
  split; simpl; [| |by intros; eapply Hd, f_more0|done|done].
  - intros d ?. apply f_queued0. set_solver.
  - intros s n d ? ? ?. apply Hd. by eapply f_start0.
Qed.

Lemma fork_missing_inv st c todo n :
  fork_inv st → fs_todo st = c :: todo → node_at b c = None →
  fork_inv (mk_fork_state (fs_out st) (fs_gaps st ++ [gap_at segment_missing partial n "fork_child_missing"])
              ({[c]} ∪ fs_seen st) todo).
Proof.
  intros [] Ht Hc. rewrite Ht in *.
  assert (c ∉ present) as Hcp by (rewrite <-node_at_present, Hc; intros [? ?]; done).
  pose proof (λ d, marked_or_left (fs_seen st) c d todo) as Hd.
  pose proof (λ d, left_or_marked (fs_seen st) c d todo) as Hd'.
  assert (∀ x, x ∈ {[c]} ∪ fs_seen st → x ∈ present → x ∈ fs_seen st) as Hp.
  { intros x [->%elem_of_singleton|?]%elem_of_union ?; done. }
  split; simpl.
  - intros d ?. by apply f_queued0, Hd'.
  - intros s m d ? ? ?. apply Hd. by eapply f_start0.
  - intros x s m d Hx Hxp ? ? ?. apply Hd. by eapply (f_more0 x); [apply Hp|..].
  - intros s. rewrite f_out0. split; intros (x & ? & ? & ?); exists x; [|by auto].
    split; [apply elem_of_union; by right|done].
  - split; [by destruct (fs_gaps st)|]. intros [H _]. destruct Hcp. apply H.
    apply elem_of_union. left. by apply elem_of_singleton.
Qed.

Lemma fork_present_inv st c todo :
  fork_inv st → fs_todo st = c :: todo → c ∉ fs_seen st → c ∈ present →
  fork_inv (fold (marked (popped st todo) c) (sort_set ({[c]} ∪ descendants b c))).
Proof.
  intros [] Ht Hcs Hc. rewrite Ht in *. set (L := sort_set _).
  assert (∀ s, s ∈ L ↔ after c s) as HL by (intros s; unfold L; rewrite sort_set_elem; apply self_descendants).
  assert (∀ s, after c s → s ∈ present) as Hap by (intros s; by apply rtc_present).
  pose proof (λ d, marked_or_left (fs_seen st) c d todo) as Hd.
  pose proof (λ d, left_or_marked (fs_seen st) c d todo) as Hd'.
  assert (∀ s, s ∈ fs_out (fold (marked (popped st todo) c) L) ↔ s ∈ fs_out st ∨ after c s) as Hout.
  { intros s. rewrite fork_member_out. simpl. rewrite HL. naive_solver. }
  split.
  - intros d. rewrite fork_member_seen, fork_member_todo. simpl. rewrite elem_of_union, elem_of_singleton.
    assert (queued closure c) as Hq by (apply f_queued0; right; constructor).
    intros [[->|?]|[?|(_ & s & n & Hs%HL & ? & ?)]]; [done|by apply f_queued0; left| |by eapply queued_more].
    apply f_queued0. right. by constructor.
  - intros s n d ? ? ?. rewrite fork_member_seen, fork_member_todo. simpl.
    destruct (Hd d) as [?|?]; [by eapply f_start0|by left|by right; left].
  - intros x s n d. rewrite fork_member_seen, fork_member_todo. simpl. intros Hx Hxp Has E Hdn.
    destruct (decide (d ∈ {[c]} ∪ fs_seen st)) as [|Hnd]; [by left|right].
    apply elem_of_union in Hx as [->%elem_of_singleton|Hx].
    + right. split; [done|]. exists s, n. by rewrite HL.
    + destruct (Hd d); [by eapply (f_more0 x)|done|by left].
  - intros s. rewrite Hout, fork_member_seen. simpl. rewrite f_out0. split.
    + intros [(x & ? & ?)|?]; [exists x|exists c]; (split; [|done]); apply elem_of_union; [by right|left].
      by apply elem_of_singleton.
    + intros (x & [->%elem_of_singleton|?]%elem_of_union & ? & ?); [by right|left; by exists x].
  - rewrite fork_member_gaps, fork_member_seen. simpl. rewrite f_gaps0. split.
    + intros [[H1 H2] H3]. split; [intros x [->%elem_of_singleton|?]%elem_of_union; auto|]. intros s n [Hs|Hs]%Hout Hsc E; [by apply (H2 s)|].
      destruct (decide (s ∈ fs_out st)); [by apply (H2 s)|]. apply (H3 s); [by apply HL|done..].
    + intros [H1 H2]. split_and!; [intros x Hx; apply H1, elem_of_union; by right| |].
      * intros s n Hs. apply (H2 s). apply Hout. by left.
      * intros s n Hs Hsc _. apply (H2 s); [|done]. apply Hout. right. by apply HL.
Qed.

Lemma fork_step_inv st c todo :
  fork_inv st → fs_todo st = c :: todo → fork_inv (fork_step b closure (popped st todo) c).
Proof.
  intros Hi Ht. unfold fork_step. simpl. case_decide as Hc; [by eapply fork_skip_inv|].
  destruct (node_at b c) as [n|] eqn:E.
  - apply fork_present_inv; [done..|]. by apply node_at_present.
  - destruct (queued_declarer c) as [n ->]; [apply (f_queued _ Hi); right; rewrite Ht; constructor|].
    by apply fork_missing_inv.
Qed.
(** Each round takes one child off the queue; only a child that sealed something, met for the
    first time, queues more. *)
Definition fork_rounds (st : ForkState) : nat :=
  (length (fs_todo st) + unentered b (fs_seen st) * declared_count)%nat.

Lemma fork_step_rounds st c todo :
  fs_todo st = c :: todo →
  (S (fork_rounds (fork_step b closure (popped st todo) c)) ≤ fork_rounds st)%nat.
Proof.
  intros Ht. unfold fork_rounds. rewrite Ht. unfold fork_step. simpl. case_decide as Hc; simpl; [unfold popped; simpl; lia|].
  assert (unentered b ({[c]} ∪ fs_seen st) ≤ unentered b (fs_seen st))%nat as Hle.
  { unfold unentered. generalize (present). intros l. induction l as [|k l IH]; [done|].
    rewrite !filter_cons. destruct (decide (k ∉ {[c]} ∪ fs_seen st)) as [Hk|Hk], (decide (k ∉ fs_seen st));
      simpl; [lia| |lia|lia]. destruct Hk. apply elem_of_union. right. by apply dec_stable. }
  destruct (node_at b c) as [n|] eqn:E; simpl; [|nia].
  assert (c ∈ present) as Hp by (apply node_at_present; by rewrite E).
  pose proof (unentered_enter b (fs_seen st) c Hp Hc) as Hu.
  rewrite fork_member_seen. simpl.
  pose proof (fork_member_length (sort_set ({[c]} ∪ descendants b c)) (marked (popped st todo) c)) as Hl.
  pose proof (declares_bound _ (sort_set_nodup ({[c]} ∪ descendants b c))).
  unfold marked, popped in Hl. simpl in Hl.
  apply (Nat.mul_le_mono_r _ _ declared_count) in Hu. simpl in Hu. lia.
Qed.

Lemma fork_loop_spec fuel st :
  fork_inv st → (fork_rounds st ≤ fuel)%nat →
  fork_inv (fork_loop b fuel closure st) ∧ fs_todo (fork_loop b fuel closure st) = [].
Proof.
  revert st. induction fuel as [|fuel IH]; intros st Hi Hf; simpl.
  - split; [done|]. unfold fork_rounds in Hf. by destruct (fs_todo st); [|simpl in Hf; lia].
  - destruct (fs_todo st) as [|c todo] eqn:Ht; [done|].
    pose proof (fork_step_rounds st c todo Ht). apply IH; [by apply fork_step_inv|]. unfold popped in *. lia.
Qed.

Lemma declared_in_elem c : c ∈ declared_in b closure ↔
  ∃ s n, s ∈ closure ∧ node_at b s = Some n ∧ c ∈ n_declared_branches n.
Proof.
  unfold declared_in. rewrite elem_of_union_list. split.
  - intros (X & (n & -> & (s & Hs & E)%list_elem_of_omap)%list_elem_of_fmap & Hc).
    exists s, n. apply elem_of_elements in Hs. unfold declared_by in Hc.
    apply elem_of_list_to_set in Hc. done.
  - intros (s & n & Hs & E & Hc). exists (declared_by n). split; [|by apply elem_of_list_to_set].
    apply list_elem_of_fmap. exists n. split; [done|]. apply list_elem_of_omap. exists s.
    by rewrite elem_of_elements.
Qed.

Lemma length_declared_in : (length (sort_set (declared_in b closure)) ≤ declared_count)%nat.
Proof.
  unfold sort_set, sort_str. rewrite length_py_sort. unfold declared_in.
  etrans; [apply size_union_list|]. rewrite <-list_fmap_compose. unfold declared_count.
  etrans; [|apply list_sum_submseteq, (fmap_submseteq (λ n : SegmentNode, length (n_declared_branches n))),
            (node_at_members (elements closure)), NoDup_elements].
  generalize (omap (node_at b) (elements closure)). intros l.
  induction l as [|n l IH]; csimpl; [done|]. pose proof (size_list_le (n_declared_branches n)).
  unfold declared_by in *. simpl in *. lia.
Qed.

(** The queue at the start. *)
Lemma fork_start_inv : fork_inv (mk_fork_state ∅ [] ∅ (sort_set (declared_in b closure))).
Proof.
  split; simpl.
  - intros c [?|Hc]; [set_solver|]. apply sort_set_elem, declared_in_elem in Hc as (s & n & ? & ? & ?).
    by eapply queued_start.
  - intros s n c ? ? ?. right. apply sort_set_elem, declared_in_elem. by exists s, n.
  - intros c s n d ?. set_solver.
  - set_solver.
  - set_solver.
Qed.

Lemma fork_closures_spec :
  (∀ s, s ∈ (fork_closures b closure).1 ↔ forked closure s) ∧
  ((fork_closures b closure).2 = [] ↔
    (∀ c, queued closure c → c ∈ present) ∧
    ∀ s n, forked closure s → s ∉ closure → node_at b s = Some n → sealed_node n).
Proof.
  set (st0 := mk_fork_state ∅ [] ∅ (sort_set (declared_in b closure))).
  pose proof fork_start_inv as Hi. fold st0 in Hi.
  destruct (fork_loop_spec (fork_fuel b) st0 Hi) as [[] Ht].
  { unfold fork_rounds, fork_fuel, st0. simpl. fold declared_count. pose proof length_declared_in.
    assert (unentered b ∅ ≤ length (b_present b))%nat.
    { unfold unentered. etrans; [apply length_filter|]. by rewrite length_fmap. } nia. }
  change (fork_closures b closure) with
    (fs_out (fork_loop b (fork_fuel b) closure st0), fs_gaps (fork_loop b (fork_fuel b) closure st0)).
  set (st := fork_loop _ _ _ _) in *. cbn [fst snd]. rewrite Ht in *.
  assert (∀ c, queued closure c ↔ c ∈ fs_seen st) as Hq.
  { intros c. split; [|intros ?; apply f_queued0; by left].
    induction 1 as [s n c ? ? ?|c s n d _ IH ? ? ? ?].
    - by destruct (f_start0 s n c) as [?|?%not_elem_of_nil].
    - by destruct (f_more0 c s n d) as [?|?%not_elem_of_nil]. }
  assert (∀ s, s ∈ fs_out st ↔ forked closure s) as Hout.
  { intros s. rewrite f_out0. unfold forked. by setoid_rewrite Hq. }
  split; [done|]. rewrite f_gaps0. setoid_rewrite Hout. by setoid_rewrite Hq.
Qed.
End fork_fold.
End closures.

(** ** The property *)

(** C15: [_fork_closures] joins exactly the segments behind the children declared in the
    terminal's closure, or declared behind another such child, and finds no gap exactly when
    every child it follows sealed a segment of the run and every segment it joins outside the
    closure is sealed. *)
Theorem fork_closures_exact (run_id : string) (members : list SegmentNode) (aliases : list string)
    (everything : list (string * SegmentNode)) (clocks : Clocks) (closure : gset string)
    (Hids : NoDup (n_segment_id <$> members)) :
  let b := new_builder run_id members aliases everything clocks in
  (∀ s, s ∈ (fork_closures b closure).1 ↔ forked b closure s) ∧
  ((fork_closures b closure).2 = [] ↔
    (∀ c, queued b closure c → c ∈ (b_present b).*1) ∧
    ∀ s n, forked b closure s → s ∉ closure → node_at b s = Some n → sealed_node n).
Proof. intros b. apply (fork_closures_spec everything). by apply new_builder_ok. Qed.

Definition forking_node (id : string) (preds declared : list string) : SegmentNode :=
  mk_node id "r" "agent.1" 5 preds (Some id_caller) [] declared (Some 0) (Some 3) None None None []
    None None None None None (Some 9).

(** Two children that declare each other, and one that was never sealed. *)
Definition forking_members : list SegmentNode :=
  [forking_node (demo_id "1") ROOT [demo_id "2"; demo_id "9"];
   forking_node (demo_id "2") ROOT [demo_id "3"];
   forking_node (demo_id "3") ROOT [demo_id "2"];
   forking_node (demo_id "4") [demo_entry_of (demo_id "3")] []].

Definition no_clocks : Clocks := mk_clocks 0 0 DEFAULT_MAX_CLOCK_UNCERTAINTY_NS.

Lemma fork_closures_exact_witness :
  let b := new_builder "r" forking_members [] [] no_clocks in
  (forked b {[demo_id "1"]} (demo_id "4") ∧ ¬ forked b {[demo_id "1"]} (demo_id "1")) ∧
  length (fork_closures b {[demo_id "1"]}).2 = 1%nat.
Proof.
  intros b. split; [|vm_compute; reflexivity].
  destruct (fork_closures_exact "r" forking_members [] [] no_clocks {[demo_id "1"]}) as [H _].
  - apply (bool_decide_unpack (NoDup (n_segment_id <$> forking_members))). vm_compute. exact I.
  - fold b in H. split; [apply H|rewrite <-H].
    + apply (bool_decide_unpack (demo_id "4" ∈ (fork_closures b {[demo_id "1"]}).1)). vm_compute. exact I.
    + apply (bool_decide_unpack (demo_id "1" ∉ (fork_closures b {[demo_id "1"]}).1)). vm_compute. exact I.
Defined.
