(* ===== verification/GraphVerdict.v ===== *)
(** * When a run is reported as terminated

    [_decide] of [fabric/reconstruct/_graph.py] walks through the rules in order and reports a
    run as terminated when none before G5 fires and G5 finds nothing. Here that outcome is
    characterised by the run alone: one terminal segment, every named predecessor present and
    agreeing, no cycle, no doubled root or branch, nothing after the terminal segment, and
    every segment sealed and joined to it. *)

From stdpp Require Import relations.
From S2P Require Import Prelude PyDict Hash Json Report Decimal Ids Tokens Graph GraphSearch GraphCycles GraphForks.

(** ** Lists of gaps *)

Lemma or_none_None (gs : list Gap) : or_none gs = None ↔ gs = [].
Proof. by destruct gs. Qed.

Lemma bind_nil {A B} (f : A → list B) l : l ≫= f = [] ↔ ∀ x, x ∈ l → f x = [].
Proof.
  induction l as [|x l IH]; csimpl; [split; [intros _ ? ?%not_elem_of_nil; done|done]|].
  split.
  - intros [Hx Hl]%app_eq_nil y [->|Hy]%elem_of_cons; [done|]. by apply IH.
  - intros H. rewrite H by constructor. apply IH. intros y Hy. apply H. by constructor.
Qed.

Lemma omap_nil {A B} (f : A → option B) l : omap f l = [] ↔ ∀ x, x ∈ l → f x = None.
Proof.
  induction l as [|x l IH]; csimpl; [split; [intros _ ? ?%not_elem_of_nil; done|done]|].
  split.
  - destruct (f x) eqn:E; [done|]. intros Hl y [->|Hy]%elem_of_cons; [done|]. by apply IH.
  - intros H. rewrite H by constructor. apply IH. intros y Hy. apply H. by constructor.
Qed.

Lemma filter_nil_iff {A} (P : A → Prop) `{∀ x, Decision (P x)} l :
  filter P l = [] ↔ ∀ x, x ∈ l → ¬ P x.
Proof.
  split.
  - intros Hl x Hx HP. assert (x ∈ filter P l) as Hf by by apply list_elem_of_filter.
    rewrite Hl in Hf. by apply not_elem_of_nil in Hf.
  - intros Hl. destruct (filter P l) as [|x k] eqn:E; [done|].
    assert (x ∈ filter P l) as Hf by (rewrite E; constructor).
    apply list_elem_of_filter in Hf as [? ?]. by destruct (Hl x).
Qed.

Lemma filter_at_most_one {A} (P : A → Prop) `{∀ x, Decision (P x)} l : NoDup l →
  (length (filter P l) ≤ 1)%nat ↔ ∀ x y, x ∈ l → y ∈ l → P x → P y → x = y.
Proof.
  intros Hl. assert (∀ x, x ∈ filter P l ↔ P x ∧ x ∈ l) as Hf by (intros; apply list_elem_of_filter).
  assert (NoDup (filter P l)) as Hnd by by apply NoDup_filter. split.
  - intros Hlen x y Hx Hy HPx HPy. assert (x ∈ filter P l) as Hfx by by apply Hf.
    assert (y ∈ filter P l) as Hfy by by apply Hf.
    destruct (filter P l) as [|a [|c k]]; simpl in Hlen; [|..|lia].
    + by apply not_elem_of_nil in Hfx.
    + apply list_elem_of_singleton in Hfx as ->. by apply list_elem_of_singleton in Hfy as ->.
  - intros H1. destruct (filter P l) as [|a [|c k]]; simpl; [lia..|].
    assert (a = c) as ->; [|inv Hnd; set_solver].
    destruct (proj1 (Hf a)) as [? ?]; [constructor|]. destruct (proj1 (Hf c)) as [? ?]; [right; constructor|].
    auto.
Qed.

(** ** Grouping into lists under a key *)

Definition group_of {A} (k : string) (d : list (string * list A)) : list A := default [] (dget k d).

Lemma group_dappend {A} k k' (x : A) d :
  group_of k (dappend k' x d) = group_of k d ++ (if decide (k = k') then [x] else []).
Proof.
  unfold group_of, dappend. rewrite dget_dset. case_decide as E; [subst|by rewrite app_nil_r]. done.
Qed.

Lemma group_keys {A} (k : string) (x : A) ks d : NoDup ks →
  group_of k (foldl (λ d k', dappend k' x d) d ks) = group_of k d ++ (if decide (k ∈ ks) then [x] else []).
Proof.
  intros Hks. revert d. induction Hks as [|k' ks Hk' Hks IH]; intros d; simpl; [by rewrite app_nil_r|].
  rewrite IH, group_dappend. rewrite <-app_assoc. f_equal.
  repeat case_decide; subst; try set_solver; done.
Qed.

Lemma group_fold {A} (keys : A → list string) k l d : (∀ x, NoDup (keys x)) →
  group_of k (foldl (λ d x, foldl (λ d k', dappend k' x d) d (keys x)) d l) =
    group_of k d ++ filter (λ x, k ∈ keys x) l.
Proof.
  intros Hk. revert d. induction l as [|x l IH]; intros d; simpl; [by rewrite app_nil_r|].
  rewrite IH, group_keys by done. rewrite <-app_assoc, filter_cons. f_equal. by case_decide.
Qed.

Lemma repeated_nil (d : list (string * list SegmentNode)) why :
  repeated d why = [] ↔ ∀ k, (length (group_of k d) ≤ 1)%nat.
Proof.
  unfold repeated. rewrite bind_nil. split.
  - intros H k. unfold group_of. destruct (dget k d) as [ns|] eqn:E; simpl; [|lia].
    specialize (H k). rewrite E in H. simpl in H. destruct (Nat.ltb_spec 1 (length ns)); [|lia].
    assert ((λ n, gap_at segment_conflict partial n why) <$> ns = []) as Hn.
    { apply H. unfold sort_str. rewrite elem_of_py_sort. apply dget_is_Some. by rewrite E. }
    destruct ns; [simpl in *; lia|done].
  - intros H k _. specialize (H k). unfold group_of in H.
    destruct (Nat.ltb_spec 1 (length (default [] (dget k d)))); [lia|done].
Qed.

Section verdict.
Context (everything : list (string * SegmentNode)) (b : Builder) (Hb : builder_ok everything b).
Context (Hsub : ∀ n, n ∈ b_members b → n_segment_id n ∈ everything.*1).
#[local] Notation members := (b_members b).
#[local] Notation follow := (edge (b_present b)).

Lemma members_nodup : NoDup members.
Proof. eapply NoDup_fmap_1, (ok_ids _ _ Hb). Qed.

(** ** What a terminated run is *)

(** A predecessor entry is the segment it names: present in the run, and as described. *)
Definition names_truly (e : Entry) : Prop :=
  ∃ m, m ∈ members ∧ n_segment_id m = segment_id e ∧ disagrees e m = false.

(** When the activity outside the terminal's history is known to come before its seal. *)
Definition before_terminal (t n : SegmentNode) : Prop :=
  let at_ns := if decide (seal_state n = seg_sealed ∧ is_Some (n_sealed_ns n))
               then n_sealed_ns n else n_start_ns n in
  let window := uncertainty n + uncertainty t in
  ∀ at_n at_t, at_ns = Some at_n → n_sealed_ns t = Some at_t →
    at_n - at_t ≤ window ∧ (0 < window → at_n - at_t < - window).

Record terminated_run (t : SegmentNode) : Prop := {
  v_terminal : t ∈ members ∧ truthy (n_terminal t) = true;
  v_only : ∀ n, n ∈ members → truthy (n_terminal n) = true → n = t;
  v_seals : ∀ n, n ∈ members → seal_state n ≠ seg_conflict;
  v_lists : ∀ n, n ∈ members → n_predecessors n ≠ [];
  v_tokens : ∀ n, n ∈ members → n_id_basis n ≠ Some id_token_conflict;
  v_named : ∀ n e, n ∈ members → e ∈ entries n → names_truly e;
  v_acyclic : ∀ s, ¬ tc follow s s;
  v_roots : ∀ n m, n ∈ members → m ∈ members → is_root n = true → is_root m = true →
    n_run_id n = n_run_id m → n = m;
  v_branches : ∀ n branch, n ∈ members → branch ∈ n_branch_ids n →
    (∀ e, e ∈ entries n → ∃ m, node_at b (segment_id e) = Some m ∧ sealed_node m) →
    ∃ e m, e ∈ entries n ∧ node_at b (segment_id e) = Some m ∧ branch ∈ n_issued_branch_ids m;
  v_once : ∀ n m branch, n ∈ members → m ∈ members → branch ∈ n_branch_ids n →
    branch ∈ n_branch_ids m → n = m;
  v_last : ∀ s, ¬ follow (n_segment_id t) s;
  v_before : ∀ n, n ∈ members → ¬ rtc follow (n_segment_id n) (n_segment_id t) → before_terminal t n;
  v_sealed : ∀ n, n ∈ members → rtc follow (n_segment_id n) (n_segment_id t) → sealed_node n;
  v_children : ∀ c, queued b (ancestors b (n_segment_id t)) c → c ∈ (b_present b).*1;
  v_forked : ∀ n, n ∈ members → forked b (ancestors b (n_segment_id t)) (n_segment_id n) → sealed_node n;
  v_joined : ∀ n, n ∈ members → rtc follow (n_segment_id n) (n_segment_id t) ∨
    forked b (ancestors b (n_segment_id t)) (n_segment_id n);
  v_consumed : ∀ n branch, n ∈ members → branch ∈ n_issued_branch_ids n →
    ∃ m, m ∈ members ∧ branch ∈ n_branch_ids m ∧ sealed_node m;
}.

(** ** The rules *)

Lemma cycle_gaps_nil : cycle_gaps b = [] ↔ ∀ s, ¬ tc follow s s.
Proof.
  unfold cycle_gaps. rewrite omap_nil, (ok_succ _ _ Hb).
  assert (∀ s, s ∈ on_cycles (successors (b_present b)) ↔ tc follow s s) as Hc.
  { intros s. rewrite (on_cycles_spec (successors (b_present b))); [apply tc_follows_edge|].
    intros u v. apply follows_node, (ok_dict _ _ Hb). }
  split.
  - intros H s Hs. apply Hc in Hs as Hs'. specialize (H s Hs').
    apply tc_inv_l in Hs as (y & (Hp & _) & _). apply dget_is_Some in Hp as [n E].
    by rewrite E in H.
  - intros H s Hs. apply Hc in Hs. by destruct (H s).
Qed.

Lemma at_most_one_each (P : string → SegmentNode → Prop) (dec : ∀ k n, Decision (P k n)) d :
  (∀ k, group_of k d = filter (P k) members) → ∀ why, repeated d why = [] ↔
    ∀ k n m, n ∈ members → m ∈ members → P k n → P k m → n = m.
Proof.
  intros Hg why. rewrite repeated_nil. setoid_rewrite Hg. split.
  - intros H1 k. specialize (H1 k). by rewrite filter_at_most_one in H1 by apply members_nodup.
  - intros H1 k. apply filter_at_most_one; [apply members_nodup|]. apply H1.
Qed.

Lemma roots_nil why : repeated (roots_by_run b) why = [] ↔
  ∀ n m, n ∈ members → m ∈ members → is_root n = true → is_root m = true →
    n_run_id n = n_run_id m → n = m.
Proof.
  rewrite (at_most_one_each (λ k n, is_root n = true ∧ n_run_id n = k) (λ _ _, _)); [naive_solver|].
  intros k. unfold roots_by_run.
  assert (∀ l d, group_of k (foldl (λ d n, if is_root n then dappend (n_run_id n) n d else d) d l)
    = group_of k d ++ filter (λ n, is_root n = true ∧ n_run_id n = k) l) as Hg.
  { induction l as [|n l IH]; intros d; simpl; [by rewrite app_nil_r|].
    rewrite IH, filter_cons. destruct (is_root n) eqn:E.
    - rewrite group_dappend, <-app_assoc. f_equal. by repeat case_decide; naive_solver.
    - rewrite decide_False by (intros [? _]; done). done. }
  by rewrite Hg.
Qed.

Lemma consumers_nil why : repeated (branch_consumers b) why = [] ↔
  ∀ n m branch, n ∈ members → m ∈ members → branch ∈ n_branch_ids n →
    branch ∈ n_branch_ids m → n = m.
Proof.
  rewrite (at_most_one_each (λ k n, k ∈ n_branch_ids n) (λ k n, decide_rel (∈) k (n_branch_ids n))); [naive_solver|].
  intros k. unfold branch_consumers.
  rewrite (group_fold (λ n, fromkeys (n_branch_ids n))) by (intros; apply NoDup_fromkeys).
  simpl. apply list_filter_iff. intros n. apply elem_of_fromkeys.
Qed.

Lemma conflicts_gaps :
  (entry_conflicts b).1 = members ≫= λ n,
    if decide (n_id_basis n = Some id_token_conflict)
    then [gap_at segment_conflict partial n "token_conflict"] else entries n ≫= entry_gap b n.
Proof.
  unfold entry_conflicts. generalize members. intros l.
  match goal with |- (foldl ?f _ _).1 = _ => set (step := f) end.
  assert (∀ acc, (foldl step acc l).1 = acc.1 ++ (l ≫= λ n,
    if decide (n_id_basis n = Some id_token_conflict)
    then [gap_at segment_conflict partial n "token_conflict"] else entries n ≫= entry_gap b n)) as H.
  { induction l as [|n l IH]; intros acc; csimpl; [by rewrite app_nil_r|]. rewrite IH.
    unfold step. case_decide; simpl; by rewrite <-app_assoc. }
  by rewrite H.
Qed.

Lemma entry_gap_nil n e : entry_gap b n e = [] ↔
  (node_at b (segment_id e) = None ∧ segment_id e ∉ everything.*1) ∨
  ∃ m, node_at b (segment_id e) = Some m ∧ disagrees e m = false.
Proof.
  unfold entry_gap, node_at. rewrite (ok_everything _ _ Hb).
  destruct (dget (segment_id e) (b_present b)) as [m|] eqn:E.
  - destruct (disagrees e m) eqn:Hd; [|naive_solver].
    split; [done|]. intros [[? ?]|(? & [= <-] & ?)]; congruence.
  - destruct (din (segment_id e) everything) eqn:Hd.
    + apply din_true in Hd. split; [done|]. intros [[_ ?]|(? & ? & ?)]; done.
    + apply din_false in Hd. split; [by left|done].
Qed.

Lemma g2_None : g2 b = None ↔ ∀ n e, n ∈ members → e ∈ entries n → segment_id e ∈ everything.*1.
Proof.
  unfold g2. rewrite or_none_None, omap_nil. split.
  - intros H n e Hn He. destruct (decide (segment_id e ∈ everything.*1)) as [|Hne]; [done|].
    assert (segment_id e ∈ (b_missing b).*1) as Hk.
    { apply (ok_missing _ _ Hb). split; [done|]. by exists n, e. }
    specialize (H (segment_id e)). apply dget_is_Some in Hk as Hk'. destruct Hk' as [m E].
    rewrite E in H. simpl in H. unfold sort_str in H. by discriminate H; apply elem_of_py_sort.
  - intros H s Hs. unfold sort_str in Hs. rewrite elem_of_py_sort in Hs.
    apply (ok_missing _ _ Hb) in Hs as [Hs (n & e & ? & ? & <-)]. destruct Hs. eauto.
Qed.

Lemma names_truly_at e : names_truly e ↔ ∃ m, node_at b (segment_id e) = Some m ∧ disagrees e m = false.
Proof. unfold names_truly, node_at. setoid_rewrite (ok_present _ _ Hb). naive_solver. Qed.

(** G1's check of the predecessors and G2's together. *)
Lemma named_nil :
  ((entry_conflicts b).1 = [] ∧ g2 b = None) ↔
    ∀ n, n ∈ members → n_id_basis n ≠ Some id_token_conflict ∧ ∀ e, e ∈ entries n → names_truly e.
Proof.
  rewrite conflicts_gaps, bind_nil, g2_None. setoid_rewrite names_truly_at. split.
  - intros [H1 H2] n Hn. specialize (H1 n Hn). case_decide as Hc; [done|]. split; [done|].
    intros e He. rewrite bind_nil in H1. specialize (H1 e He).
    apply entry_gap_nil in H1 as [[_ Hne]|?]; [|done]. destruct Hne. by eapply H2.
  - intros H. split.
    + intros n Hn. destruct (H n Hn) as [? He]. rewrite decide_False by done. apply bind_nil.
      intros e ?. apply entry_gap_nil. right. by apply He.
    + intros n e Hn He. destruct (H n Hn) as [_ H']. destruct (H' e He) as (m & E & _).
      unfold node_at in E. apply (ok_present _ _ Hb) in E as [? <-]. auto.
Qed.

Lemma issued_named es branch :
  branch ∈ (omap (λ i, i) ((λ e, dget (segment_id e) (b_present b)) <$> es) ≫= n_issued_branch_ids) ↔
  ∃ e m, e ∈ es ∧ node_at b (segment_id e) = Some m ∧ branch ∈ n_issued_branch_ids m.
Proof.
  rewrite list_elem_of_bind. setoid_rewrite list_elem_of_omap. setoid_rewrite list_elem_of_fmap.
  unfold node_at. split.
  - intros (m & Hbr & _ & (e & -> & He) & E). by exists e, m.
  - intros (e & m & He & E & Hbr). exists m. split; [done|]. eexists. split; [by exists e|done].
Qed.

Lemma branch_nil n : branches_not_issued b n = [] ↔
  ∀ branch, branch ∈ n_branch_ids n →
    (∀ e, e ∈ entries n → ∃ m, node_at b (segment_id e) = Some m ∧ sealed_node m) →
    ∃ e m, e ∈ entries n ∧ node_at b (segment_id e) = Some m ∧ branch ∈ n_issued_branch_ids m.
Proof.
  unfold branches_not_issued. destruct (n_branch_ids n) as [|b0 bs] eqn:Hbs; [set_solver|].
  set (named := _ <$> entries n). destruct (existsb _ named) eqn:Hex.
  - split; [|done]. intros _ branch _ H. apply existsb_exists in Hex as (i & Hi & Hbad).
    apply list_elem_of_In, list_elem_of_fmap in Hi as (e & -> & He).
    destruct (H e He) as (m & E & Hs). unfold node_at in E. rewrite E in Hbad.
    apply negb_true_iff in Hbad. by apply bool_decide_eq_false in Hbad.
  - assert (∀ branch, branch ∈ (omap (λ i, i) named ≫= n_issued_branch_ids) ↔
      ∃ e m, e ∈ entries n ∧ node_at b (segment_id e) = Some m ∧ branch ∈ n_issued_branch_ids m) as Hi.
    { intros branch. apply issued_named. }
    assert (∀ e, e ∈ entries n → ∃ m, node_at b (segment_id e) = Some m ∧ sealed_node m) as Hse.
    { intros e He. rewrite <-not_true_iff_false in Hex.
      destruct (node_at b (segment_id e)) as [m|] eqn:E; unfold node_at in E.
      - exists m. split; [done|]. destruct (decide (sealed_node m)) as [|Hns]; [done|].
        destruct Hex. apply existsb_exists. exists (Some m). split.
        + apply list_elem_of_In, list_elem_of_fmap. by exists e.
        + by rewrite bool_decide_eq_false_2.
      - destruct Hex. apply existsb_exists. exists None. split; [|done].
        apply list_elem_of_In, list_elem_of_fmap. by exists e. }
    setoid_rewrite <-Hi. destruct (forallb _ (b0 :: bs)) eqn:Hall; [|].
    + split; [|done]. intros _ branch Hbr _. rewrite forallb_forall in Hall.
      apply list_elem_of_In in Hbr. specialize (Hall _ Hbr). by apply bool_decide_eq_true in Hall.
    + split; [done|]. intros H. rewrite <-not_true_iff_false in Hall. destruct Hall.
      apply forallb_forall. intros branch Hbr%list_elem_of_In. apply bool_decide_eq_true. auto.
Qed.
Lemma g1_None : g1 b = None ↔
  (∀ n, n ∈ members → seal_state n ≠ seg_conflict) ∧ (entry_conflicts b).1 = [] ∧
  repeated (roots_by_run b) "multiple_roots" = [] ∧ cycle_gaps b = [] ∧
  (∀ n, n ∈ members → branches_not_issued b n = []) ∧
  repeated (branch_consumers b) "branch_replayed" = [].
Proof.
  unfold g1. rewrite <-bind_nil. destruct (existsb _ members) eqn:Hc.
  - split; [done|]. intros [H _]. apply existsb_exists in Hc as (n & Hn%list_elem_of_In & Hs).
    apply bool_decide_eq_true in Hs. by destruct (H n).
  - rewrite or_none_None, !app_nil. assert (∀ n, n ∈ members → seal_state n ≠ seg_conflict); [|tauto].
    intros n Hn Hs. rewrite <-not_true_iff_false in Hc. destruct Hc. apply existsb_exists.
    exists n. split; [by apply list_elem_of_In|by apply bool_decide_eq_true].
Qed.

Lemma g3_None : g3 b = None ↔ ∀ n, n ∈ members → n_predecessors n ≠ [].
Proof.
  unfold g3. rewrite or_none_None. split.
  - intros H%fmap_nil_inv n Hn. by apply (proj1 (filter_nil_iff _ _) H n).
  - intros H. by rewrite (proj2 (filter_nil_iff _ _) H).
Qed.

Lemma late_nil t n at_t : n_sealed_ns t = Some at_t →
  late_gap t n at_t = [] ↔ before_terminal t n.
Proof.
  intros Ht. unfold late_gap, before_terminal. rewrite Ht.
  assert (bool_decide (seal_state n = seg_sealed) && bool_decide (is_Some (n_sealed_ns n)) =
    bool_decide (seal_state n = seg_sealed ∧ is_Some (n_sealed_ns n))) as ->.
  { by rewrite bool_decide_and. }
  set (sealed := bool_decide (_ ∧ _)).
  assert ((if decide (seal_state n = seg_sealed ∧ is_Some (n_sealed_ns n)) then n_sealed_ns n
           else n_start_ns n) = if sealed then n_sealed_ns n else n_start_ns n) as ->.
  { unfold sealed. by case_decide; case_bool_decide. }
  destruct (if sealed then n_sealed_ns n else n_start_ns n) as [at_n|]; [|naive_solver].
  set (w := uncertainty n + uncertainty t).
  destruct (Z.ltb_spec w (at_n - at_t)) as [Hlt|Hle].
  { split; [done|]. intros H. destruct (H at_n at_t) as [? _]; [done..|]. lia. }
  destruct (Z.ltb_spec 0 w) as [Hw|Hw]; simpl.
  - destruct (Z.leb_spec (- w) (at_n - at_t)) as [Hl|Hl].
    + split; [done|]. intros H. destruct (H at_n at_t) as [_ ?]; [done..|]. lia.
    + split; [|done]. intros _ x y [= <-] [= <-]. lia.
  - split; [|done]. intros _ x y [= <-] [= <-]. lia.
Qed.

Lemma descendants_none s : (∀ x, ¬ tc follow x x) →
  (∀ x, x ∉ descendants b s) ↔ ∀ x, ¬ follow s x.
Proof.
  intros Hac. split.
  - intros H x Hx. apply (H x). apply (descendants_edge _ _ Hb). split; [by apply tc_once|].
    intros ->. by apply (Hac s), tc_once.
  - intros H x Hx. apply (descendants_edge _ _ Hb) in Hx as [Hx _].
    apply tc_inv_l in Hx as (y & Hy & _). by apply (H y).
Qed.

Lemma terminal_gaps_nil t : (∀ x, ¬ tc follow x x) →
  terminal_gaps b t = [] ↔ (∀ x, ¬ follow (n_segment_id t) x) ∧
    ∀ n, n ∈ members → ¬ rtc follow (n_segment_id n) (n_segment_id t) → before_terminal t n.
Proof.
  intros Hac. unfold terminal_gaps. rewrite app_nil, omap_nil, <-(descendants_none _ Hac).
  assert ((∀ s, s ∈ sort_set (descendants b (n_segment_id t)) →
      (λ n, gap_at post_terminal_activity partial n "continues_terminal") <$> dget s (b_present b) = None) ↔
    ∀ s, s ∉ descendants b (n_segment_id t)) as ->.
  { setoid_rewrite sort_set_elem. split; intros H s Hs; [|by destruct (H s)].
    apply (descendants_edge _ _ Hb) in Hs as Ht. destruct Ht as [Ht _].
    assert (s ∈ (b_present b).*1) as Hp.
    { apply tc_inv_r in Ht as (y & _ & Hy). by eapply edge_target. }
    apply dget_is_Some in Hp as [m E]. specialize (H s Hs). by rewrite E in H. }
  split; intros [Hd H]; split; [done| |done|]; destruct (n_sealed_ns t) as [at_t|] eqn:Ht.
  - rewrite bind_nil in H. intros n Hn Hnot. specialize (H n Hn).
    rewrite bool_decide_false in H; [by apply late_nil in H|].
    rewrite (ancestors_edge _ _ Hb). intros [?|?]; [done|by eapply Hd].
  - intros n _ _ x y _. by rewrite Ht.
  - apply bind_nil. intros n Hn. case_bool_decide as Hc; [done|]. apply late_nil; [done|].
    apply H; [done|]. rewrite <-(ancestors_edge _ _ Hb). tauto.
  - done.
Qed.
Lemma terminals_one t : terminals b = [t] ↔
  (t ∈ members ∧ truthy (n_terminal t) = true) ∧
  ∀ n, n ∈ members → truthy (n_terminal n) = true → n = t.
Proof.
  assert (∀ n, n ∈ terminals b ↔ truthy (n_terminal n) = true ∧ n ∈ members) as Ht.
  { intros n. unfold terminals, is_terminal. by rewrite list_elem_of_filter. }
  assert (NoDup (terminals b)) as Hnd by apply NoDup_filter, members_nodup. split.
  - intros E. rewrite E in Ht. split; [apply and_comm, Ht; constructor|].
    intros n ? ?. by apply list_elem_of_singleton, Ht.
  - intros [[Hm Htt] Ho]. assert (t ∈ terminals b) as Hin by by apply Ht.
    destruct (terminals b) as [|x [|y l]]; [by apply not_elem_of_nil in Hin| |].
    + by apply list_elem_of_singleton in Hin as ->.
    + assert (x = t) as -> by (apply Ho; apply Ht; constructor).
      assert (y = t) as -> by (apply Ho; apply Ht; right; constructor). inv Hnd. set_solver.
Qed.

Lemma members_at n : n ∈ members → node_at b (n_segment_id n) = Some n.
Proof. intros ?. unfold node_at. by apply (ok_present _ _ Hb). Qed.

Lemma at_members s n : node_at b s = Some n → n ∈ members ∧ n_segment_id n = s.
Proof. apply (ok_present _ _ Hb). Qed.

Lemma issued_nil n branch :
  (∀ m m', m ∈ members → m' ∈ members → branch ∈ n_branch_ids m → branch ∈ n_branch_ids m' → m = m') →
  issued_gap b n branch = [] ↔ ∃ m, m ∈ members ∧ branch ∈ n_branch_ids m ∧ sealed_node m.
Proof.
  intros Honce. unfold issued_gap, sealed_node.
  destruct (filter _ members) as [|consumer l] eqn:E.
  - split; [done|]. intros (m & Hm & Hbr & _). by destruct (proj1 (filter_nil_iff _ _) E m Hm).
  - assert (consumer ∈ filter (λ m, branch ∈ n_branch_ids m) members) as Hc by (rewrite E; constructor).
    apply list_elem_of_filter in Hc as [Hcb Hcm]. case_bool_decide as Hs.
    + split; [|done]. intros _. by exists consumer.
    + split; [done|]. intros (m & Hm & Hbr & Hms). by rewrite <-(Honce m consumer) in Hs.
Qed.

(** The parts of [_g5_failures], for a terminal closure and the segments joined to it. *)
Section g5.
Context (closure joined : gset string).

Lemma unsealed_nil :
  omap (λ s, n ← node_at b s; if bool_decide (seal_state n = seg_sealed) then None
             else Some (gap_at segment_missing partial n "predecessor_unsealed")) (sort_set closure) = [] ↔
  ∀ n, n ∈ members → n_segment_id n ∈ closure → sealed_node n.
Proof.
  rewrite omap_nil. setoid_rewrite sort_set_elem. split.
  - intros H n Hn Hs. specialize (H _ Hs). rewrite (members_at _ Hn) in H. simpl in H.
    by case_bool_decide.
  - intros H s Hs. destruct (node_at b s) as [n|] eqn:E; [|done]. simpl.
    apply at_members in E as [Hn <-]. rewrite bool_decide_true; [done|]. by apply H.
Qed.

Lemma unjoined_nil :
  (λ n, gap_at segment_missing partial n "branch_not_joined") <$>
    filter (λ n, n_segment_id n ∉ closure ∪ joined) members = [] ↔
  ∀ n, n ∈ members → n_segment_id n ∈ closure ∪ joined.
Proof.
  split.
  - intros H%fmap_nil_inv n Hn. apply dec_stable. by apply (proj1 (filter_nil_iff _ _) H n).
  - intros H. rewrite (proj2 (filter_nil_iff _ _)); [done|]. intros n Hn Hnot. auto.
Qed.

Lemma consumed_nil :
  (∀ n m branch, n ∈ members → m ∈ members → branch ∈ n_branch_ids n → branch ∈ n_branch_ids m → n = m) →
  (filter (λ n, n_segment_id n ∈ closure ∪ joined) members
     ≫= λ n, n_issued_branch_ids n ≫= issued_gap b n) = [] ↔
  ∀ n branch, n_segment_id n ∈ closure ∪ joined → n ∈ members → branch ∈ n_issued_branch_ids n →
    ∃ m, m ∈ members ∧ branch ∈ n_branch_ids m ∧ sealed_node m.
Proof.
  intros Honce. rewrite bind_nil. setoid_rewrite list_elem_of_filter. split.
  - intros H n branch Hin Hn Hbr. apply (issued_nil n branch); [intros m m'; by apply Honce|].
    by apply (proj1 (bind_nil _ _) (H n (conj Hin Hn))).
  - intros H n [Hin Hn]. apply bind_nil. intros branch Hbr.
    apply issued_nil; [intros m m'; by apply Honce|]. by eapply H.
Qed.
End g5.

(** [_g5_failures] with one terminal segment. *)
Lemma g5_nil t :
  (∀ n m branch, n ∈ members → m ∈ members → branch ∈ n_branch_ids n → branch ∈ n_branch_ids m → n = m) →
  let closure := ancestors b (n_segment_id t) in
  g5_failures b [t] = [] ↔
    (∀ n, n ∈ members → rtc follow (n_segment_id n) (n_segment_id t) → sealed_node n) ∧
    (∀ c, queued b closure c → c ∈ (b_present b).*1) ∧
    (∀ n, n ∈ members → forked b closure (n_segment_id n) → sealed_node n) ∧
    (∀ n, n ∈ members → rtc follow (n_segment_id n) (n_segment_id t) ∨ forked b closure (n_segment_id n)) ∧
    ∀ n branch, n ∈ members → branch ∈ n_issued_branch_ids n →
      ∃ m, m ∈ members ∧ branch ∈ n_branch_ids m ∧ sealed_node m.
Proof.
  intros Honce closure. unfold g5_failures. fold closure.
  destruct (fork_closures b closure) as [joined gaps] eqn:Hf.
  destruct (fork_closures_spec everything b Hb closure) as [Hj Hg]. rewrite Hf in Hj, Hg. cbn [fst snd] in Hj, Hg.
  rewrite !app_nil, unsealed_nil, unjoined_nil, (consumed_nil _ _ Honce), Hg.
  setoid_rewrite elem_of_union. setoid_rewrite Hj.
  assert (∀ s, s ∈ closure ↔ rtc follow s (n_segment_id t)) as Hc by (intros; by apply (ancestors_edge _ _ Hb)).
  setoid_rewrite Hc. split.
  - intros (H1 & [H2 H3] & H4 & H5). split_and!; [done..| |done|].
    + intros n Hn Hfk. destruct (decide (n_segment_id n ∈ closure)) as [Hin|Hin]; [apply H1; [done|by apply Hc]|].
      apply (H3 (n_segment_id n)); [done|by rewrite <-Hc|by apply members_at].
    + intros n branch Hn. apply H5; auto.
  - intros (H1 & H2 & H3 & H4 & H5). split_and!; [done..| |done|].
    + intros s n Hfk _ E. apply at_members in E as [? <-]. auto.
    + intros n branch _. apply H5.
Qed.

Lemma terminated_rule d : decide_run b = Ok d → d_state d = terminated →
  d = mk_decision G5 terminated [] None None ∧ g1 b = None ∧ g2 b = None ∧ g3 b = None ∧ g4 b = None ∧
  ∃ t, terminals b = [t] ∧ g5_failures b [t] = [].
Proof.
  unfold decide_run. destruct (g1 b); [by intros [= <-]|]. destruct (g2 b); [by intros [= <-]|].
  destruct (g3 b); [by intros [= <-]|]. destruct (g4 b); [by intros [= <-]|].
  destruct (terminals b) as [|t ts] eqn:Ht.
  - destruct (run_resumable b); [|by intros [= <-]]. unfold deadline.
    intros Hd Hs. exfalso. revert Hd Hs.
    destruct (run_root b) as [root|]; [|destruct (head members); intros [= <-]; done].
    simpl. destruct (n_start_ns root); [|by intros [= <-]].
    destruct (datetime_of _); simpl; [|done]. by repeat case_match; intros [= <-].
  - destruct (g5_failures b (t :: ts)) as [|g gs] eqn:Hg; [|by intros [= <-]].
    intros [= <-] _. split_and!; [done..|]. exists t. destruct ts; [done|].
    unfold g5_failures in Hg. done.
Qed.

Lemma g4_one t : terminals b = [t] → g4 b = None ↔ terminal_gaps b t = [].
Proof. intros Ht. unfold g4. rewrite or_none_None, Ht. simpl. by rewrite app_nil_r. Qed.

Lemma terminated_iff :
  decide_run b = Ok (mk_decision G5 terminated [] None None) ↔ ∃ t, terminated_run t.
Proof.
  split.
  - intros H. destruct (terminated_rule _ H) as (_ & H1 & H2 & H3 & H4 & t & Ht & H5); [done|].
    apply g1_None in H1 as (Hs & He & Hr & Hcy & Hbr & Hco). rewrite g3_None in H3.
    pose proof (proj1 named_nil (conj He H2)) as Hn. rewrite cycle_gaps_nil in Hcy.
    rewrite roots_nil in Hr. rewrite consumers_nil in Hco. apply g5_nil in H5 as (? & ? & ? & ? & ?); [|done].
    apply (g4_one t Ht) in H4. apply terminal_gaps_nil in H4 as [? ?]; [|done].
    apply terminals_one in Ht as [? ?]. exists t.
    split; try done; [intros n ?; by apply Hn|intros n e ?; by apply Hn|].
    intros n branch Hmem. by apply branch_nil, Hbr.
  - intros [t []].
    assert (terminals b = [t]) as Ht by by apply terminals_one.
    assert ((entry_conflicts b).1 = [] ∧ g2 b = None) as [He H2].
    { apply named_nil. intros n Hn. split; [by apply v_tokens0|]. intros e. by apply v_named0. }
    assert (g1 b = None) as H1.
    { apply g1_None. rewrite roots_nil, cycle_gaps_nil, consumers_nil. split_and!; try done.
      intros n Hn. apply branch_nil. intros branch Hbr. by apply v_branches0. }
    assert (g4 b = None) as H4 by (apply (g4_one t Ht), terminal_gaps_nil; done).
    assert (g5_failures b [t] = []) as H5 by (apply g5_nil; [done|]; done).
    assert (g3 b = None) as H3 by by apply g3_None.
    unfold decide_run. by rewrite H1, H2, H3, H4, Ht, H5.
Qed.
End verdict.

(** ** The properties *)

(** C13: a run is reported as terminated exactly when it has one terminal segment and its
    record is complete and consistent around it: every predecessor entry names a present
    segment truly, no cycle, no second root or consumer, nothing after the terminal segment
    or uncertain about it, every segment in the terminal's history or behind its forks sealed,
    every other segment absent, and every issued branch consumed by a sealed segment. Such a
    report has no gaps and names that segment. *)
Theorem terminated_exact (run_id : string) (members : list SegmentNode) (aliases : list string)
    (everything : list (string * SegmentNode)) (clocks : Clocks)
    (Hids : NoDup (n_segment_id <$> members))
    (Hsub : ∀ n, n ∈ members → n_segment_id n ∈ everything.*1) :
  let b := new_builder run_id members aliases everything clocks in
  ((∃ g, build b = Ok g ∧ g_run_state g = terminated) ↔ ∃ t, terminated_run b t) ∧
  ∀ g, build b = Ok g → g_run_state g = terminated →
    g_rule g = G5 ∧ g_gaps g = [] ∧ g_deadline_at g = None ∧
    ∃ t, terminated_run b t ∧ g_terminal_segment_id g = Some (n_segment_id t).
Proof.
  intros b. assert (builder_ok everything b) as Hb by by apply new_builder_ok.
  assert (∀ n, n ∈ b_members b → n_segment_id n ∈ everything.*1) as Hsub'.
  { intros n Hn. apply Hsub. by apply elem_of_py_sort in Hn. }
  assert (∀ g, build b = Ok g → g_run_state g = terminated →
    decide_run b = Ok (mk_decision G5 terminated [] None None) ∧
    g_rule g = G5 ∧ g_gaps g = [] ∧ g_deadline_at g = None) as Hd.
  { intros g Hg Hs. unfold build in Hg. destruct (decide_run b) as [d|] eqn:E; [|done].
    injection Hg as <-. simpl in Hs. destruct (terminated_rule b d E Hs) as [-> _]. done. }
  assert (∀ t, terminated_run b t → terminals b = [t]) as Ht.
  { intros t []. by apply (terminals_one everything). }
  split.
  - rewrite <-(terminated_iff everything b Hb Hsub'). split.
    + intros (g & Hg & Hs). by apply (Hd g).
    + intros E. eexists. unfold build. by rewrite E.
  - intros g Hg Hs. destruct (Hd g Hg Hs) as (E & ? & ? & ?). split_and!; [done..|].
    pose proof E as E'. apply (terminated_iff everything b Hb Hsub') in E' as [t Ht']. exists t. split; [done|].
    unfold build in Hg. rewrite E in Hg. injection Hg as <-. simpl. by rewrite (Ht t Ht').
Qed.

Definition finished_node (id : string) (preds branches issued : list string) (final : option bool) :=
  mk_node id "r" "agent.1" 5 preds (Some id_token) branches [] (Some 0) (Some 3) final None None issued
    None None None None None (Some 9).

(** A segment that forks and issues two branches; the fork's child; the consumers of the
    branches, of which the last one names both predecessors and ends the run. *)
Definition finished_members : list SegmentNode :=
  [mk_node (demo_id "1") "r" "agent.1" 5 ROOT (Some id_caller) [] [demo_id "2"] (Some 0) (Some 3) None None
     None ["b1"; "b2"] None None None None None (Some 9);
   finished_node (demo_id "2") [demo_entry_of (demo_id "1")] [] [] None;
   finished_node (demo_id "3") [demo_entry_of (demo_id "1"); demo_entry_of (demo_id "4")] ["b1"] [] (Some true);
   finished_node (demo_id "4") [demo_entry_of (demo_id "1")] ["b2"] [] None].
Definition keyed (ns : list SegmentNode) : list (string * SegmentNode) :=
  (λ n, (n_segment_id n, n)) <$> ns.

Lemma terminated_exact_witness :
  let b := new_builder "r" finished_members [] (keyed finished_members) no_clocks in
  ∃ t, terminated_run b t.
Proof.
  apply (terminated_exact "r" finished_members [] (keyed finished_members) no_clocks).
  - apply (bool_decide_unpack (NoDup (n_segment_id <$> finished_members))). vm_compute. exact I.
  - intros n Hn. unfold keyed. rewrite <-list_fmap_compose. apply list_elem_of_fmap. by exists n.
  - eexists. split; [vm_compute; reflexivity|reflexivity].
Defined.

(** *** The deadline *)

Lemma datetime_of_spec ns : datetime_of ns =
  if decide (MIN_DATETIME_US ≤ ns / NS_PER_US ≤ MAX_DATETIME_US) then Ok (ns / NS_PER_US) else Raise OverflowError.
Proof. unfold datetime_of. repeat case_decide; repeat case_match; to_prop; try done; lia. Qed.

(** The start and evaluation times that the clocks' uncertainties leave possible. *)
Definition possible_times (b : Builder) (root : SegmentNode) (start s n : Z) : Prop :=
  Z.abs (s - start) ≤ uncertainty root ∧
  Z.abs (n - c_evaluated_ns (b_clocks b)) ≤ c_verifier_ns (b_clocks b).

(** A run without a terminal segment is divided by its deadline, the earliest root's
    start and its seconds: it is reported as open only if the deadline lies ahead and as
    unterminated only if it has passed for every start and evaluation time within the clocks'
    uncertainties; in between, or with uncertainties above the bound, the report leaves it
    uncertain. A deadline that is no datetime raises. *)
Theorem deadline_exact (b : Builder) (root : SegmentNode) (start : Z)
    (Hroot : run_root b = Some root) (Hstart : n_start_ns root = Some start) :
  let due := start + deadline_seconds root * NS_PER_S in
  let now := c_evaluated_ns (b_clocks b) in
  let u := uncertainty root + c_verifier_ns (b_clocks b) in
  (deadline b = Raise OverflowError ↔
     ¬ (MIN_DATETIME_US ≤ due / NS_PER_US ≤ MAX_DATETIME_US)) ∧
  ∀ d, deadline b = Ok d →
    d_deadline_at d = Some (due / NS_PER_US) ∧
    (d_state d = run_is_open →
       now < due ∧ ∀ s n, possible_times b root start s n → n < s + deadline_seconds root * NS_PER_S) ∧
    (d_state d = unterminated →
       due ≤ now ∧ ∀ s n, possible_times b root start s n → s + deadline_seconds root * NS_PER_S ≤ n) ∧
    (d_state d = deadline_uncertain ↔
       c_bound_ns (b_clocks b) < u ∨ 0 < u ∧ due - u ≤ now ≤ due + u).
Proof.
  intros due now u. unfold deadline, possible_times. rewrite Hroot. simpl. rewrite Hstart. fold due.
  rewrite datetime_of_spec. case_decide as Hr; simpl; [|split; [done|intros d; done]].
  split; [split; [by repeat case_match|done]|].
  fold now u. intros d.
  destruct (Z.ltb_spec (c_bound_ns (b_clocks b)) u) as [Hb|Hb];
    [|destruct (Z.ltb_spec 0 u) as [Hu|Hu]; simpl;
      [destruct (Z.leb_spec (Z.abs (now - due)) u) as [Ha|Ha]|]];
    try (destruct (Z.ltb_spec (now - due) 0)); intros [= <-]; simpl;
    (split_and!; [done| | |]); try done; try (split; [done|lia]); try (intros _; split; [lia|];
      intros s n []; unfold due, u in *; lia).
  all: split; [intros _; lia|done].
Qed.

Definition open_root : SegmentNode :=
  mk_node (demo_id "1") "r" "agent.1" 5 ROOT (Some id_caller) [] [] (Some 1000) (Some 3) None (Some true)
    (Some 7) [] None None None (Some 60) None (Some 9).
Definition open_builder (now : Z) : Builder :=
  new_builder "r" [open_root] [] (keyed [open_root]) (mk_clocks now 5 DEFAULT_MAX_CLOCK_UNCERTAINTY_NS).

Lemma deadline_exact_witness :
  (∃ d, deadline (open_builder 60000000987) = Ok d ∧ d_state d = run_is_open) ∧
  (∃ d, deadline (open_builder 60000000988) = Ok d ∧ d_state d = deadline_uncertain) ∧
  (∃ d, deadline (open_builder 60000001013) = Ok d ∧ d_state d = unterminated ∧
    d_deadline_at d = Some 60000001).
Proof.
  split; [|split].
  - eexists. split; vm_compute; reflexivity.
  - eexists. split; vm_compute; reflexivity.
  - destruct (deadline (open_builder 60000001013)) as [d|] eqn:E; [|vm_compute in E; discriminate].
    exists d. split; [reflexivity|]. split; [vm_compute in E; injection E as <-; reflexivity|].
    destruct (deadline_exact (open_builder 60000001013) open_root 1000) as [_ H];
      [vm_compute; reflexivity|reflexivity|]. apply (H d E).
Qed.
