(* ===== verification/GraphRuns.v ===== *)
(** * The runs of a set of segments

    [build_run_graphs] of [fabric/reconstruct/_graph.py] divides the segments it is given into
    runs: no segment is lost or reported twice, and two segments are in one report exactly
    when a merge connects their run ids. *)

From stdpp Require Import relations.
From S2P Require Import Prelude PyDict Hash Json Report Decimal Ids Tokens Graph GraphSearch GraphMerge GraphCycles GraphForks GraphVerdict.

(** ** The segments by their ids *)

Lemma node_map_fold segments d : node_dict d →
  let nodes := foldl (λ d n, dsetdefault (n_segment_id n) n d) d segments in
  node_dict nodes ∧ (∀ k, k ∈ nodes.*1 ↔ k ∈ d.*1 ∨ ∃ n, n ∈ segments ∧ n_segment_id n = k) ∧
  ∀ n, n ∈ nodes.*2 → n ∈ d.*2 ∨ n ∈ segments.
Proof.
  revert d. induction segments as [|n l IH]; intros d Hd nodes.
  { split_and!; [done|set_solver|set_solver]. }
  destruct (IH (dsetdefault (n_segment_id n) n d)) as (H1 & H2 & H3).
  { destruct Hd as [Hnd Hk]. split; [by apply NoDup_dsetdefault|].
    intros k m. unfold dsetdefault. destruct (dget (n_segment_id n) d); [apply Hk|].
    rewrite elem_of_app, list_elem_of_singleton. intros [?|[= -> ->]]; auto. }
  split_and!; [done| |].
  - intros k. subst nodes. simpl. rewrite H2, elem_of_dsetdefault_keys. set_solver.
  - intros m Hm. destruct (H3 m Hm) as [Hm'|?]; [|right; by constructor].
    unfold dsetdefault in Hm'. destruct (dget _ d); [by left|].
    rewrite fmap_app, elem_of_app in Hm'. destruct Hm' as [?|Hm']; [by left|right].
    apply list_elem_of_singleton in Hm' as ->. constructor.
Qed.

Lemma node_map_dict segments : node_dict (node_map segments).
Proof. apply node_map_fold. split; [constructor|]. intros k n ?%not_elem_of_nil. done. Qed.

Lemma node_map_keys segments k : k ∈ (node_map segments).*1 ↔ ∃ n, n ∈ segments ∧ n_segment_id n = k.
Proof.
  destruct (node_map_fold segments []) as (_ & H & _).
  - split; [constructor|]. intros k' n Hn. by apply not_elem_of_nil in Hn.
  - unfold node_map. rewrite H. set_solver.
Qed.

Lemma mapM_result_Ok {A B} (f : A → result B) l ys :
  mapM_result f l = Ok ys ↔ Forall2 (λ x y, f x = Ok y) l ys.
Proof.
  revert ys. induction l as [|x l IH]; intros ys; simpl.
  - split; [intros [= <-]; constructor|]. by inversion 1.
  - destruct (f x) as [y|e] eqn:E; simpl; [|split; [done|inversion 1; congruence]].
    destruct (mapM_result f l) as [zs|e] eqn:El; simpl.
    + split; [intros [= <-]; constructor; [done|by apply IH]|].
      inversion 1 as [|? y' ? ys' Hy Hl]; subst. apply IH in Hl. congruence.
    + split; [done|]. inversion 1 as [|? y' ? ys' Hy Hl]; subst. apply IH in Hl. congruence.
Qed.

Lemma mapM_result_Raise {A B} (f : A → result B) l e :
  mapM_result f l = Raise e → ∃ x, x ∈ l ∧ f x = Raise e.
Proof.
  induction l as [|x l IH]; simpl; [done|]. destruct (f x) as [y|e'] eqn:E; simpl.
  - destruct (mapM_result f l); simpl; [done|]. intros [= ->]. destruct IH as (z & ? & ?); [done|].
    exists z. split; [by constructor|done].
  - intros [= ->]. exists x. split; [constructor|done].
Qed.

(** ** The members of each run *)

Lemma members_group canonical nodes c :
  group_of c (members_by_run canonical nodes) =
    filter (λ n, canonical_of canonical (n_run_id n) = c) nodes.*2.
Proof.
  unfold members_by_run. generalize nodes.*2. intros l.
  assert (∀ d, group_of c (foldl (λ d n, dappend (canonical_of canonical (n_run_id n)) n d) d l) =
    group_of c d ++ filter (λ n, canonical_of canonical (n_run_id n) = c) l) as H.
  { induction l as [|n l IH]; intros d; simpl; [by rewrite app_nil_r|].
    rewrite IH, group_dappend, filter_cons, <-app_assoc. f_equal. by repeat case_decide; subst. }
  by rewrite H.
Qed.

Lemma members_keys canonical nodes :
  NoDup (members_by_run canonical nodes).*1 ∧
  ∀ c, c ∈ (members_by_run canonical nodes).*1 ↔
    ∃ n, n ∈ nodes.*2 ∧ canonical_of canonical (n_run_id n) = c.
Proof.
  unfold members_by_run. generalize nodes.*2. intros l.
  assert (∀ d, NoDup d.*1 →
    let r := foldl (λ d n, dappend (canonical_of canonical (n_run_id n)) n d) d l in
    NoDup r.*1 ∧ ∀ c, c ∈ r.*1 ↔ c ∈ d.*1 ∨ ∃ n, n ∈ l ∧ canonical_of canonical (n_run_id n) = c) as H.
  { induction l as [|n l IH]; intros d Hd; simpl; [set_solver|].
    destruct (IH (dappend (canonical_of canonical (n_run_id n)) n d)) as [H1 H2].
    - by apply NoDup_dset.
    - split; [done|]. intros c. rewrite H2. unfold dappend. rewrite elem_of_dset_keys. set_solver. }
  destruct (H [] (NoDup_nil_2)) as [H1 H2]. split; [done|]. intros c. rewrite H2. set_solver.
Qed.

(** ** The placeholders of missing segments *)

Lemma missing_values run_id everything ms d :
  (∀ k m, (k, m) ∈ d → seal_state m = seg_missing ∧ n_segment_id m = k) →
  ∀ k m, (k, m) ∈ foldl (λ missing n, foldl (note_missing run_id everything) missing (entries n)) d ms →
    seal_state m = seg_missing ∧ n_segment_id m = k.
Proof.
  assert (∀ es d, (∀ k m, (k, m) ∈ d → seal_state m = seg_missing ∧ n_segment_id m = k) →
    ∀ k m, (k, m) ∈ foldl (note_missing run_id everything) d es →
      seal_state m = seg_missing ∧ n_segment_id m = k) as Hes.
  { clear d. induction es as [|e es IH]; intros d Hd; simpl; [done|]. apply IH.
    unfold note_missing. destruct (_ || _) eqn:E; [done|]. intros k m.
    apply orb_false_iff in E as [_ E%din_false]. rewrite dset_new by done.
    rewrite elem_of_app, list_elem_of_singleton. intros [?|[= -> ->]]; auto. }
  revert d. induction ms as [|n ms IH]; intros d Hd; simpl; [done|]. by apply IH, Hes.
Qed.

Lemma build_segments run_id members aliases everything clocks g :
  NoDup (n_segment_id <$> members) →
  build (new_builder run_id members aliases everything clocks) = Ok g →
  g_run_id g = run_id ∧ g_run_aliases g = aliases ∧
  ∀ n, n ∈ g_segments g → n ∈ members ∨ seal_state n = seg_missing ∧ n_segment_id n ∉ everything.*1.
Proof.
  intros Hids Hg. unfold build in Hg. destruct (decide_run _) as [d|]; [|done]. injection Hg as <-.
  split_and!; [done..|]. intros n Hn. cbn [g_segments] in Hn.
  apply elem_of_app in Hn as [Hn|Hn]; [left; by apply elem_of_py_sort in Hn|right].
  apply list_elem_of_omap in Hn as (k & Hk & E).
  assert (k ∉ everything.*1) as Hne.
  { unfold sort_str in Hk. rewrite elem_of_py_sort in Hk.
    by destruct (proj1 (missing_keys run_id members aliases everything clocks Hids k) Hk). }
  apply dget_Some_elem in E. apply missing_values in E as [? ->]; [done|].
  intros k' m Hm. by apply not_elem_of_nil in Hm.
Qed.

Lemma build_members run_id members aliases everything clocks g n :
  build (new_builder run_id members aliases everything clocks) = Ok g → n ∈ members → n ∈ g_segments g.
Proof.
  intros Hg Hn. unfold build in Hg. destruct (decide_run _) as [d|]; [|done]. injection Hg as <-.
  apply elem_of_app. left. simpl. by rewrite elem_of_py_sort.
Qed.

(** ** The reports *)

Section runs.
Context (segments : list SegmentNode) (evaluated_us verifier_ns bound_ns : Z).
#[local] Notation nodes := (node_map segments).
#[local] Notation canonical := (merge_runs nodes).
#[local] Notation clocks := (mk_clocks (ns_of evaluated_us) verifier_ns bound_ns).

Definition run_members (c : string) : list SegmentNode :=
  filter (λ n, canonical_of canonical (n_run_id n) = c) nodes.*2.
Definition run_builder (c : string) : Builder :=
  new_builder c (run_members c) (sort_set (aliases_of canonical nodes c)) nodes clocks.
Definition run_ids : list string := sort_str (members_by_run canonical nodes).*1.

Lemma build_run_graphs_eq :
  build_run_graphs segments evaluated_us verifier_ns bound_ns =
    mapM_result (λ c, build (run_builder c)) run_ids.
Proof.
  unfold build_run_graphs, run_ids. generalize (sort_str (members_by_run canonical nodes).*1).
  intros l. induction l as [|c l IH]; simpl; [done|]. rewrite IH. unfold run_builder.
  pose proof (members_group canonical nodes c) as E. unfold group_of in E. by rewrite E.
Qed.

Lemma run_ids_nodup : NoDup run_ids.
Proof. unfold run_ids, sort_str. rewrite NoDup_py_sort. apply members_keys. Qed.

Lemma elem_of_run_ids c : c ∈ run_ids ↔ ∃ n, n ∈ nodes.*2 ∧ canonical_of canonical (n_run_id n) = c.
Proof. unfold run_ids, sort_str. rewrite elem_of_py_sort. apply members_keys. Qed.

Lemma node_ids : n_segment_id <$> nodes.*2 = nodes.*1.
Proof.
  destruct (node_map_dict segments) as [_ H]. revert H. generalize nodes. intros l Hl.
  induction l as [|[k n] l IH]; csimpl; [done|]. rewrite (Hl k n) by constructor. f_equal. apply IH.
  intros k' n' ?. apply Hl. by constructor.
Qed.

Lemma run_members_ids c : NoDup (n_segment_id <$> run_members c).
Proof.
  eapply sublist_NoDup; [|apply fmap_sublist, sublist_filter].
  rewrite node_ids. apply node_map_dict.
Qed.

Lemma elem_of_run_members c n : n ∈ run_members c ↔ canonical_of canonical (n_run_id n) = c ∧ n ∈ nodes.*2.
Proof. unfold run_members. by rewrite list_elem_of_filter. Qed.

Lemma same_run n m : n ∈ nodes.*2 → m ∈ nodes.*2 →
  canonical_of canonical (n_run_id n) = canonical_of canonical (n_run_id m) ↔
    connected (joins nodes) (n_run_id n) (n_run_id m).
Proof.
  intros Hn Hm. destruct (merge_runs_spec nodes (node_map_dict segments)) as [H1 H2].
  rewrite <-(H2 n m) by done. unfold canonical_of.
  destruct (H1 n Hn) as (c & _ & -> & _). destruct (H1 m Hm) as (c' & _ & -> & _). simpl. split; congruence.
Qed.

(** A run's id is the id of one of its segments. *)
Lemma run_id_member c : c ∈ run_ids → ∃ m, m ∈ run_members c ∧ n_run_id m = c.
Proof.
  intros (n & Hn & <-)%elem_of_run_ids.
  destruct (merge_runs_spec nodes (node_map_dict segments)) as [H1 _].
  destruct (H1 n Hn) as (c & m & E & Hm & Hmc & Hc). exists m.
  assert (canonical_of canonical (n_run_id n) = c) as -> by (unfold canonical_of; by rewrite E).
  split; [|done]. apply elem_of_run_members. split; [|done].
  transitivity (canonical_of canonical (n_run_id n)); [|unfold canonical_of; by rewrite E].
  symmetry. apply same_run; [done..|]. by rewrite Hmc.
Qed.

Lemma run_aliases c x : c ∈ run_ids →
  x ∈ c :: sort_set (aliases_of canonical nodes c) ↔ ∃ n, n ∈ run_members c ∧ n_run_id n = x.
Proof.
  intros Hc. rewrite elem_of_cons, sort_set_elem. unfold aliases_of.
  rewrite elem_of_list_to_set, list_elem_of_fmap. split.
  - intros [->|(n & -> & [[? ?] ?]%list_elem_of_filter)]; [by apply run_id_member|]. exists n.
    split; [by apply elem_of_run_members|done].
  - intros (n & Hn & <-). destruct (decide (n_run_id n = c)) as [|Hne]; [by left|right].
    apply elem_of_run_members in Hn as [? ?]. exists n. split; [done|]. by apply list_elem_of_filter.
Qed.
End runs.

(** What [mapM_result] gives for the runs. *)
Lemma run_graphs_spec segments evaluated_us verifier_ns bound_ns graphs :
  build_run_graphs segments evaluated_us verifier_ns bound_ns = Ok graphs →
  let nodes := node_map segments in
  g_run_id <$> graphs = run_ids segments ∧
  (∀ g, g ∈ graphs → g_run_id g ∈ run_ids segments ∧
     build (run_builder segments evaluated_us verifier_ns bound_ns (g_run_id g)) = Ok g) ∧
  (∀ c, c ∈ run_ids segments → ∃ g, g ∈ graphs ∧ g_run_id g = c).
Proof.
  intros Hg nodes. rewrite build_run_graphs_eq in Hg. apply mapM_result_Ok in Hg.
  set (build_one := λ c, build (run_builder segments evaluated_us verifier_ns bound_ns c)) in *.
  assert (∀ c g, build_one c = Ok g → g_run_id g = c) as Hid.
  { intros c g E. by apply build_segments in E as [? _]; [|apply run_members_ids]. }
  assert (g_run_id <$> graphs = run_ids segments) as Hids.
  { clear -Hg Hid. induction Hg as [|c g cs gs H _ IH]; csimpl; [done|]. by rewrite IH, (Hid c g). }
  split_and!; [done| |].
  - intros g Hgg. apply list_elem_of_lookup in Hgg as [i Hi].
    destruct (Forall2_lookup_r _ _ _ _ _ Hg Hi) as (c & Hc & E). rewrite (Hid c g E).
    split; [by eapply list_elem_of_lookup_2|done].
  - intros c Hc. rewrite <-Hids in Hc. apply list_elem_of_fmap in Hc as (g & -> & ?). by exists g.
Qed.

(** The segments of a report: those of its run, and placeholders. *)
Lemma run_graphs_segments segments evaluated_us verifier_ns bound_ns graphs g :
  build_run_graphs segments evaluated_us verifier_ns bound_ns = Ok graphs → g ∈ graphs →
  (∀ n, n ∈ run_members segments (g_run_id g) → n ∈ g_segments g) ∧
  (∀ n, n ∈ g_segments g → n ∈ run_members segments (g_run_id g) ∨
     seal_state n = seg_missing ∧ n_segment_id n ∉ (node_map segments).*1) ∧
  ∀ x, x ∈ member_run_ids g ↔ ∃ n, n ∈ run_members segments (g_run_id g) ∧ n_run_id n = x.
Proof.
  intros Hg Hgg. destruct (run_graphs_spec _ _ _ _ _ Hg) as (_ & Hb & _).
  destruct (Hb g Hgg) as [Hid E]. split_and!.
  - intros n. by eapply build_members.
  - by apply build_segments in E as (_ & _ & ?); [|apply run_members_ids].
  - intros x. apply build_segments in E as (_ & Ha & _); [|apply run_members_ids].
    unfold member_run_ids. rewrite Ha. by apply run_aliases.
Qed.

(** The segments reported on: the first one given with each id. *)
Definition given (segments : list SegmentNode) : list SegmentNode := (node_map segments).*2.

(** C14: the reports divide the segments. The runs have distinct ids, in order; the first
    segment given with an id is in exactly one report, and what else a report lists is the
    placeholder of a segment that was named and not given; two segments are in one report
    exactly when segments of a merging basis connect their run ids; and a report lists the
    run ids of its segments and no others. *)
Theorem run_graphs_partition (segments : list SegmentNode) (evaluated_us verifier_ns bound_ns : Z)
    (graphs : list RunGraph)
    (Hg : build_run_graphs segments evaluated_us verifier_ns bound_ns = Ok graphs) :
  NoDup (g_run_id <$> graphs) ∧ StronglySorted (λ a b, String.leb a b = true) (g_run_id <$> graphs) ∧
  (∀ n, n ∈ given segments → ∃ g, g ∈ graphs ∧ n ∈ g_segments g ∧ ∀ g', g' ∈ graphs → n ∈ g_segments g' → g' = g) ∧
  (∀ g n, g ∈ graphs → n ∈ g_segments g →
    n ∈ given segments ∨ seal_state n = seg_missing ∧ ∀ m, m ∈ segments → n_segment_id m ≠ n_segment_id n) ∧
  (∀ g n m, g ∈ graphs → n ∈ given segments → m ∈ given segments → n ∈ g_segments g →
    m ∈ g_segments g ↔ connected (joins (node_map segments)) (n_run_id n) (n_run_id m)) ∧
  (∀ g x, g ∈ graphs → x ∈ member_run_ids g ↔ ∃ n, n ∈ given segments ∧ n ∈ g_segments g ∧ n_run_id n = x).
Proof.
  unfold given. set (nodes := node_map segments). destruct (run_graphs_spec _ _ _ _ _ Hg) as (Hids & Hb & Hcover). rewrite Hids.
  pose proof (λ g, run_graphs_segments _ _ _ _ _ g Hg) as Hsegs.
  assert (∀ g n, g ∈ graphs → n ∈ nodes.*2 → n ∈ g_segments g ↔
    canonical_of (merge_runs nodes) (n_run_id n) = g_run_id g) as Hin.
  { intros g n Hgg Hn. destruct (Hsegs g Hgg) as (H1 & H2 & _). split.
    - intros [Hr|[_ Hno]]%H2; [by apply elem_of_run_members in Hr as [? _]|].
      destruct Hno. rewrite <-node_ids. apply list_elem_of_fmap. by exists n.
    - intros Hc. apply H1. by apply elem_of_run_members. }
  assert (∀ g g', g ∈ graphs → g' ∈ graphs → g_run_id g = g_run_id g' → g = g') as Hinj.
  { intros g g' Hgg Hgg' E. apply Hb in Hgg as [_ E1]. apply Hb in Hgg' as [_ E2]. congruence. }
  split_and!.
  - apply run_ids_nodup.
  - unfold run_ids, sort_str. apply py_sort_sorted, _.
  - intros n Hn. destruct (Hcover (canonical_of (merge_runs nodes) (n_run_id n))) as (g & Hgg & E).
    { apply elem_of_run_ids. by exists n. }
    exists g. split_and!; [done|by apply Hin|]. intros g' Hg' Hs. apply Hinj; [done..|].
    apply Hin in Hs; [|done..]. congruence.
  - intros g n Hgg Hn. destruct (Hsegs g Hgg) as (_ & H2 & _).
    destruct (H2 n Hn) as [[_ ?]%elem_of_run_members|[? Hno]]; [by left|right]. split; [done|].
    intros m Hm E. apply Hno, node_map_keys. by exists m.
  - intros g n m Hgg Hn Hm Hng. pose proof (same_run segments n m Hn Hm) as Hsr.
    fold nodes in Hsr. rewrite (Hin g m), <-Hsr by done. apply Hin in Hng; [|done..]. split; congruence.
  - intros g x Hgg. destruct (Hsegs g Hgg) as (H1 & _ & H3). rewrite H3. split.
    + intros (n & Hn & ?). exists n. split_and!; [by apply elem_of_run_members in Hn as [_ ?]|by apply H1|done].
    + intros (n & Hn & Hs & ?). exists n. split; [|done]. apply elem_of_run_members. split; [by apply Hin|done].
Qed.


(** Two runs that a join connects, a segment given twice, and one that was only named. *)
Definition demo_segments : list SegmentNode :=
  demo_nodes.*2 ++ [demo_node (demo_id "4") "r-d" [demo_entry_of (demo_id "7")] id_token].

Lemma run_graphs_partition_witness :
  ∃ graphs, build_run_graphs demo_segments 0 0 DEFAULT_MAX_CLOCK_UNCERTAINTY_NS = Ok graphs ∧
  NoDup (g_run_id <$> graphs) ∧ (member_run_ids <$> graphs) = [["r-b"; "r-a"]; ["r-c"]].
Proof.
  destruct (build_run_graphs demo_segments 0 0 DEFAULT_MAX_CLOCK_UNCERTAINTY_NS) as [graphs|e] eqn:E;
    [|vm_compute in E; discriminate].
  exists graphs. split; [reflexivity|]. split.
  - exact (proj1 (run_graphs_partition demo_segments 0 0 DEFAULT_MAX_CLOCK_UNCERTAINTY_NS graphs E)).
  - vm_compute in E. injection E as <-. vm_compute. reflexivity.
Defined.

(** ** What a run may raise *)

(** The deadline that a root would set is a datetime. *)
Definition deadline_in_calendar (n : SegmentNode) (start : Z) : Prop :=
  MIN_DATETIME_US ≤ (start + deadline_seconds n * NS_PER_S) / NS_PER_US ≤ MAX_DATETIME_US.

Lemma root_member b root : run_root b = Some root → root ∈ b_members b ∧ is_root root = true.
Proof.
  unfold run_root. intros H.
  assert (root ∈ py_sort root_leb (filter (λ n, is_root n = true) (b_members b))) as Hin.
  { destruct (py_sort _ _); [done|]. injection H as ->. constructor. }
  rewrite elem_of_py_sort in Hin. by apply list_elem_of_filter in Hin as [? ?].
Qed.

Lemma deadline_raises b e : b_members b ≠ [] → deadline b = Raise e →
  e = OverflowError ∧ ∃ n start, n ∈ b_members b ∧ is_root n = true ∧ n_start_ns n = Some start ∧
    ¬ deadline_in_calendar n start.
Proof.
  intros Hne. unfold deadline. destruct (run_root b) as [root|] eqn:Hr.
  - simpl. destruct (n_start_ns root) as [start|] eqn:Hs; [|done].
    rewrite datetime_of_spec. case_decide as Hin; simpl; [by repeat case_match|].
    intros [= <-]. split; [done|]. apply root_member in Hr as [? ?]. by exists root, start.
  - by destruct (b_members b).
Qed.

Lemma run_raises segments evaluated_us verifier_ns bound_ns c e :
  c ∈ run_ids segments → build (run_builder segments evaluated_us verifier_ns bound_ns c) = Raise e →
  e = OverflowError ∧ ∃ n start, n ∈ segments ∧ is_root n = true ∧ n_start_ns n = Some start ∧
    ¬ deadline_in_calendar n start.
Proof.
  intros Hc E. set (b := run_builder _ _ _ _ c) in *.
  assert (∀ n, n ∈ b_members b ↔ n ∈ run_members segments c) as Hm by (intros; apply elem_of_py_sort).
  assert (∀ n, n ∈ b_members b → n ∈ segments) as Hseg.
  { intros n [_ Hn]%Hm%elem_of_run_members. destruct (node_map_fold segments []) as (_ & _ & H).
    - split; [constructor|]. intros k m Hk. by apply not_elem_of_nil in Hk.
    - destruct (H n Hn) as [Hnil|?]; [by apply not_elem_of_nil in Hnil|done]. }
  unfold build in E. destruct (decide_run b) as [d|e'] eqn:Ed; [done|]. injection E as <-.
  unfold decide_run in Ed. destruct (g1 b); [done|]. destruct (g2 b); [done|].
  destruct (g3 b); [done|]. destruct (g4 b); [done|]. destruct (terminals b).
  - destruct (run_resumable b); [|done]. apply deadline_raises in Ed as [-> (n & start & Hn & ?)].
    + split; [done|]. exists n, start. auto.
    + destruct (run_id_member segments c Hc) as (m & Hmem & _). apply Hm in Hmem.
      intros E. rewrite E in Hmem. by apply not_elem_of_nil in Hmem.
  - by destruct (g5_failures b _).
Qed.
