(* ===== verification/GraphStrict.v ===== *)
(** * The look-ups of the segment graph: searches and merges

    [Graph.v] reads its tables with a default where the code indexes them. Here the same
    functions of [fabric/reconstruct/_graph.py] are written with every indexed look-up, every
    [pop] and every [next] raising what Python raises, and each is shown to return what its
    counterpart of [Graph.v] returns: the tables always hold what is asked of them. This file
    has the edges, the order, the run merge and the cycles; [GraphTotal] the rest. *)

From stdpp Require Import relations.
From S2P Require Import Prelude PyDict Hash Json Report Decimal Ids Tokens Graph GraphSearch GraphMerge GraphCycles.

(** [d\[k\]] *)
Definition look {V} (k : string) (d : list (string * V)) : result V := or_raise KeyError (dget k d).

Lemma look_Some {V} k (v : V) d : dget k d = Some v → look k d = Ok v.
Proof. intros H. unfold look. by rewrite H. Qed.

Lemma look_key {V} k (d : list (string * V)) : k ∈ d.*1 → ∃ v, dget k d = Some v ∧ look k d = Ok v.
Proof. intros [v H]%dget_is_Some. exists v. split; [done|by apply look_Some]. Qed.

Lemma foldM_pure {S A} (f : S → A → result S) (g : S → A → S) (P : S → Prop) l : ∀ s,
  P s → (∀ s x, P s → x ∈ l → f s x = Ok (g s x) ∧ P (g s x)) →
  foldM f s l = Ok (foldl g s l) ∧ P (foldl g s l).
Proof.
  induction l as [|x l IH]; intros s Hs Hf; [done|]. simpl. destruct (Hf s x Hs) as [-> Hx]; [constructor|].
  apply IH; [done|]. intros s' y Hs' Hy. apply Hf; [done|by constructor].
Qed.

(** ** Edges and order *)

Definition strict_add_edge (nodes : list (string * SegmentNode)) (n : SegmentNode) (out : list (string * gset string))
    (e : Entry) : result (list (string * gset string)) :=
  if din (segment_id e) nodes
  then s ← look (segment_id e) out; Ok (dset (segment_id e) ({[n_segment_id n]} ∪ s) out)
  else Ok out.

(** [_successors] *)
Definition strict_successors (nodes : list (string * SegmentNode)) : result (list (string * gset string)) :=
  foldM (λ out n, foldM (strict_add_edge nodes n) out (entries n)) ((λ p, (p.1, ∅)) <$> nodes) nodes.*2.

Lemma strict_add_edge_eq nodes n out e : out.*1 = nodes.*1 →
  strict_add_edge nodes n out e = Ok (add_edge nodes n out e) ∧ (add_edge nodes n out e).*1 = nodes.*1.
Proof.
  intros Hk. unfold strict_add_edge, add_edge. destruct (din (segment_id e) nodes) eqn:Hd; [|done].
  apply din_true in Hd. rewrite <-Hk in Hd. destruct (look_key _ _ Hd) as (s & Hs & ->). simpl.
  unfold sget. rewrite Hs. split; [done|]. by rewrite dset_keys.
Qed.

Lemma strict_successors_eq nodes : strict_successors nodes = Ok (successors nodes).
Proof.
  unfold strict_successors, successors.
  refine (proj1 (foldM_pure _ _ (λ out, out.*1 = nodes.*1) _ _ _ _)).
  - by rewrite <-list_fmap_compose.
  - intros out n Hout _. apply (foldM_pure (strict_add_edge nodes n) (add_edge nodes n) (λ out, out.*1 = nodes.*1)); [done|].
    intros out' e Hout' _. by apply strict_add_edge_eq.
Qed.

Definition strict_count_in (ind : list (string * Z)) (following : gset string) : result (list (string * Z)) :=
  foldM (λ ind s, z ← look s ind; Ok (dset s (z + 1) ind)) ind (elements following).

Definition strict_release (st : list (string * Z) * list string) (s : string)
    : result (list (string * Z) * list string) :=
  let '(ind, ready) := st in
  z ← look s ind;
  Ok (dset s (z - 1) ind, if z - 1 =? 0 then ready ++ [s] else ready).

Fixpoint strict_kahn (fuel : nat) (succ : list (string * gset string)) (ind : list (string * Z))
    (ready out : list string) : result (list string) :=
  match fuel, ready with
  | S fuel, current :: ready =>
      following ← look current succ;
      '(ind, ready) ← foldM strict_release (ind, ready) (elements following);
      strict_kahn fuel succ ind (sort_str ready) (out ++ [current])
  | _, _ => Ok out
  end.

(** [_topological] *)
Definition strict_topological (nodes : list (string * SegmentNode)) : result (list string) :=
  succ ← strict_successors nodes;
  ind ← foldM strict_count_in ((λ p, (p.1, 0)) <$> nodes) succ.*2;
  out ← strict_kahn (length nodes) succ ind (sort_str (filter (λ p, p.2 = 0) ind).*1) [];
  Ok (out ++ sort_str (filter (λ s, s ∉ out) nodes.*1)).

Section order.
Context (keys : list string).

Lemma strict_count_in_eq ind f : ind.*1 = keys → (∀ v, v ∈ f → v ∈ keys) →
  strict_count_in ind f = Ok (count_in ind f) ∧ (count_in ind f).*1 = keys.
Proof.
  intros Hk Hf. apply (foldM_pure _ (λ ind s, dset s (iget s ind + 1) ind) (λ ind, ind.*1 = keys)); [done|].
  intros ind' s Hi Hs%elem_of_elements. assert (s ∈ ind'.*1) as Hs' by (rewrite Hi; auto).
  destruct (look_key _ _ Hs') as (z & Hz & ->). simpl. unfold iget. rewrite Hz. simpl. split; [done|].
  by rewrite dset_keys.
Qed.

Lemma strict_release_eq l ind ready : ind.*1 = keys → (∀ v, v ∈ l → v ∈ keys) →
  foldM strict_release (ind, ready) l = Ok (foldl release (ind, ready) l) ∧
  (foldl release (ind, ready) l).1.*1 = keys ∧ ∀ v, v ∈ (foldl release (ind, ready) l).2 → v ∈ ready ∨ v ∈ l.
Proof.
  intros Hk Hl.
  destruct (foldM_pure strict_release release (λ st, st.1.*1 = keys ∧ ∀ v, v ∈ st.2 → v ∈ ready ∨ v ∈ l) l (ind, ready))
    as [-> ?]; [split; [done|by left]| |done].
  intros [ind' ready'] s [Hi Hr] Hs. cbn [fst snd] in *. assert (s ∈ ind'.*1) as Hs' by (rewrite Hi; auto).
  unfold strict_release, release. destruct (look_key _ _ Hs') as (z & Hz & ->). simpl. unfold iget. rewrite Hz. simpl.
  split; [done|]. split; [by rewrite dset_keys|]. intros v. destruct (z - 1 =? 0); [|apply Hr].
  intros [?| ->%list_elem_of_singleton]%elem_of_app; [by apply Hr|by right].
Qed.

Lemma strict_kahn_eq fuel succ ind ready out :
  succ.*1 = keys → ind.*1 = keys → (∀ u v, v ∈ sget u succ → v ∈ keys) → (∀ v, v ∈ ready → v ∈ keys) →
  strict_kahn fuel succ ind ready out = Ok (kahn fuel succ ind ready out).
Proof.
  intros Hs Hi Hin. revert ind ready out Hi. induction fuel as [|fuel IH]; intros ind ready out Hi Hr; [done|].
  destruct ready as [|c ready]; [done|]. simpl.
  assert (c ∈ succ.*1) as Hc by (rewrite Hs; apply Hr; constructor).
  destruct (look_key _ _ Hc) as (f & Hf & ->). simpl.
  assert (f = sget c succ) as -> by (unfold sget; by rewrite Hf).
  destruct (strict_release_eq (elements (sget c succ)) ind ready Hi) as (-> & Hk & Hready).
  { intros v Hv%elem_of_elements. eauto. }
  destruct (foldl release _ _) as [ind' ready']. apply IH; [done|]. intros v. unfold sort_str. rewrite elem_of_py_sort.
  intros [?|Hv%elem_of_elements]%Hready; [apply Hr; by constructor|eauto].
Qed.
End order.

Lemma strict_topological_eq nodes : node_dict nodes → strict_topological nodes = Ok (topological nodes).
Proof.
  intros Hd. unfold strict_topological, topological. rewrite strict_successors_eq. simpl.
  set (succ := successors nodes). assert (succ.*1 = nodes.*1) as Hs by apply successors_keys.
  assert (∀ u v, v ∈ sget u succ → v ∈ nodes.*1) as Hin.
  { intros u v Hv. rewrite <-Hs. by apply (follows_node nodes u v Hd). }
  destruct (foldM_pure strict_count_in count_in (λ ind, ind.*1 = nodes.*1) succ.*2 ((λ p, (p.1, 0)) <$> nodes)) as [-> Hk].
  { by rewrite <-list_fmap_compose. }
  { intros ind f Hi ([u f'] & -> & Hf)%list_elem_of_fmap. apply strict_count_in_eq; [done|]. intros v Hv. apply (Hin u).
    unfold sget. rewrite (elem_dget u f'); [done| |done]. rewrite Hs. apply Hd. }
  simpl. set (ind := foldl count_in _ _) in *.
  rewrite (strict_kahn_eq nodes.*1); [done|done|done|done|].
  intros v. unfold sort_str. rewrite elem_of_py_sort, <-Hk, !list_elem_of_fmap.
  intros (p & -> & [_ Hp]%list_elem_of_filter). by exists p.
Qed.

(** ** The run merge *)

Fixpoint strict_find (fuel : nat) (parent : list (string * string)) (x : string)
    : result (list (string * string) * string) :=
  y ← look x parent;
  match fuel with
  | O => Ok (parent, x)
  | S fuel =>
      if decide (y = x) then Ok (parent, x)
      else g ← look y parent; strict_find fuel (dset x g parent) g
  end.

Definition strict_union (winner loser : string) (parent : list (string * string)) : result (list (string * string)) :=
  '(parent, win) ← strict_find (length parent) parent winner;
  '(parent, lose) ← strict_find (length parent) parent loser;
  Ok (if decide (win = lose) then parent else dset lose win parent).

Definition strict_merge_entry (nodes : list (string * SegmentNode)) (n : SegmentNode) (parent : list (string * string))
    (e : Entry) : result (list (string * string)) :=
  match dget (segment_id e) nodes with
  | None => Ok parent
  | Some predecessor =>
      if decide (n_run_id predecessor = n_run_id n) then Ok parent
      else if decide (n_id_basis n = Some id_caller_join)
      then strict_union (n_run_id n) (n_run_id predecessor) parent
      else strict_union (n_run_id predecessor) (n_run_id n) parent
  end.

Definition strict_merge_segment (nodes : list (string * SegmentNode)) (parent : list (string * string)) (s : string)
    : result (list (string * string)) :=
  n ← look s nodes;
  if merging (n_id_basis n) then foldM (strict_merge_entry nodes n) parent (entries n) else Ok parent.

Fixpoint strict_canonical_ids (ids : list string) (parent : list (string * string)) : result (list (string * string)) :=
  match ids with
  | [] => Ok []
  | x :: ids =>
      '(parent, root) ← strict_find (length parent) parent x;
      rest ← strict_canonical_ids ids parent;
      Ok ((x, root) :: rest)
  end.

(** [_merge_runs] *)
Definition strict_merge_runs (nodes : list (string * SegmentNode)) : result (list (string * string)) :=
  order ← strict_topological nodes;
  parent ← foldM (strict_merge_segment nodes) (initial_parents nodes) order;
  strict_canonical_ids parent.*1 parent.

(** Every parent chain of the keys ends at a root. *)
Definition rooted (keys : list string) (parent : list (string * string)) : Prop :=
  parent.*1 = keys ∧ ∀ x, x ∈ keys → ∃ r, root_of parent x r.

Lemma strict_find_eq fuel parent x n r :
  root_at parent n x r → (n ≤ fuel)%nat → strict_find fuel parent x = Ok (find fuel parent x).
Proof.
  revert parent x n. induction fuel as [|fuel IH]; intros parent x n Hr Hn; simpl.
  - inv Hr; [|lia]. by erewrite look_Some.
  - destruct Hr as [x Hx|n x y r Hx Hy Hr].
    + rewrite (look_Some _ _ _ Hx), Hx. simpl. by rewrite !decide_True.
    + rewrite (look_Some _ _ _ Hx), Hx. simpl. rewrite !decide_False by done.
      assert (∃ g j, dget y parent = Some g ∧ root_at parent j g r ∧ (j < S n)%nat) as (g & j & Hg & Hgr & Hj).
      { destruct Hr as [y Hy'|n y z r Hz Hne Hr]; [|by exists z, n; split_and!; [..|lia]].
        exists y, 0%nat. split_and!; [done|by constructor|lia]. }
      rewrite (look_Some _ _ _ Hg), Hg. simpl.
      assert (root_at parent (S n) x r) as Hxr by by eapply root_up.
      destruct (root_at_compress _ _ _ _ _ _ Hxr Hgr Hj _ _ _ Hgr) as (m & Hm & Hmg). apply (IH _ _ m Hmg). lia.
Qed.

Lemma strict_find_root keys parent x : rooted keys parent → x ∈ keys →
  strict_find (length parent) parent x = Ok (find_root parent x) ∧
  ∃ parent' r, find_root parent x = (parent', r) ∧ rooted keys parent' ∧ root_of parent x r.
Proof.
  intros [Hk Hr] Hx. destruct (Hr x Hx) as [r Hxr]. pose proof Hxr as [n Hn]. split.
  - eapply strict_find_eq; [exact Hn|]. apply root_at_bound in Hn. lia.
  - destruct (find_root_spec _ _ _ Hxr) as (parent' & E & Hk' & H'). exists parent', r. split_and!; [done| |done].
    split; [by rewrite Hk'|]. intros y Hy. destruct (Hr y Hy) as [s Hs]. eauto.
Qed.

Lemma strict_union_eq keys parent winner loser : rooted keys parent → winner ∈ keys → loser ∈ keys →
  strict_union winner loser parent = Ok (union winner loser parent) ∧ rooted keys (union winner loser parent).
Proof.
  intros Hp Hw Hl. split.
  - unfold strict_union, union. destruct (strict_find_root _ _ _ Hp Hw) as [-> (p1 & w & -> & Hp1 & _)]. simpl.
    destruct (strict_find_root _ _ _ Hp1 Hl) as [-> (p2 & l & -> & _)]. done.
  - destruct Hp as [Hk Hr]. destruct (Hr _ Hw) as [w Hww], (Hr _ Hl) as [l Hll].
    destruct (union_spec _ _ _ _ _ Hww Hll) as [Hk' H']. split; [by rewrite Hk'|].
    intros y Hy. destruct (Hr y Hy) as [s Hs]. eauto.
Qed.

Section merge.
Context (nodes : list (string * SegmentNode)) (Hd : node_dict nodes).
#[local] Notation keys := ((initial_parents nodes).*1).

Lemma run_id_key n : n ∈ nodes.*2 → n_run_id n ∈ keys.
Proof. intros Hn. destruct (merge_classes nodes Hd) as [Hk _]. apply Hk. by exists n. Qed.

Lemma strict_merge_entry_eq n parent e : rooted keys parent → n ∈ nodes.*2 →
  strict_merge_entry nodes n parent e = Ok (merge_entry nodes n parent e) ∧ rooted keys (merge_entry nodes n parent e).
Proof.
  intros Hp Hn. unfold strict_merge_entry, merge_entry. destruct (dget (segment_id e) nodes) as [m|] eqn:Hm; [|done].
  assert (m ∈ nodes.*2) as Hm' by (apply list_elem_of_fmap; exists (segment_id e, m); split; [done|by apply dget_Some_elem]).
  apply run_id_key in Hn, Hm'. case_decide; [done|]. case_decide; by apply strict_union_eq.
Qed.

Lemma strict_merge_segment_eq parent s : rooted keys parent → s ∈ nodes.*1 →
  strict_merge_segment nodes parent s = Ok (merge_segment nodes parent s) ∧ rooted keys (merge_segment nodes parent s).
Proof.
  intros Hp Hs. unfold strict_merge_segment, merge_segment. destruct (look_key _ _ Hs) as (n & Hn & ->). rewrite Hn. simpl.
  destruct (merging _); [|done]. apply foldM_pure; [done|]. intros parent' e Hp' _. apply strict_merge_entry_eq; [done|].
  apply list_elem_of_fmap. exists (s, n). split; [done|by apply dget_Some_elem].
Qed.

Lemma strict_canonical_ids_eq ids parent : rooted keys parent → (∀ x, x ∈ ids → x ∈ keys) →
  strict_canonical_ids ids parent = Ok (canonical_ids ids parent).
Proof.
  revert parent. induction ids as [|x ids IH]; intros parent Hp Hx; [done|]. simpl.
  destruct (strict_find_root _ _ _ Hp (Hx x (list_elem_of_here _ _))) as [-> (p' & r & -> & Hp' & _)]. simpl.
  rewrite IH; [done|done|]. intros y ?. apply Hx. by constructor.
Qed.

Lemma strict_merge_runs_eq : strict_merge_runs nodes = Ok (merge_runs nodes).
Proof.
  unfold strict_merge_runs, merge_runs. rewrite (strict_topological_eq nodes Hd). simpl.
  destruct (initial_parents_fold nodes.*2 []) as (H1 & _); [done|constructor|]. fold (initial_parents nodes) in H1.
  destruct (foldM_pure (strict_merge_segment nodes) (merge_segment nodes) (rooted keys) (topological nodes) (initial_parents nodes))
    as [-> Hp].
  - split; [done|]. intros x Hx. exists x, 0%nat. apply dget_is_Some in Hx as [y Hy]. pose proof (H1 _ _ Hy) as <-. by constructor.
  - intros parent s Hp Hs. apply strict_merge_segment_eq; [done|].
    destruct (topological_split nodes Hd) as (out & rest & E & Hperm & _). rewrite E in Hs. by rewrite <-Hperm.
  - simpl. apply strict_canonical_ids_eq; [done|]. destruct Hp as [-> _]. done.
Qed.
End merge.

(** ** Cycles *)

Definition strict_enter (succ : list (string * gset string)) (v : string) (st : Tarjan) : result Tarjan :=
  following ← look v succ;
  let n := Z.of_nat (length (tj_index st)) in
  Ok (mk_tarjan (dset v n (tj_index st)) (dset v n (tj_low st)) (v :: tj_stack st)
        ({[v]} ∪ tj_on_stack st) (tj_out st) ((v, sort_set following) :: tj_work st)).

Definition strict_lower (v : string) (n : Z) (low : list (string * Z)) : result (list (string * Z)) :=
  z ← look v low; Ok (dset v (Z.min z n) low).

(** [stack.pop()] raises on an empty stack. *)
Fixpoint strict_pop_to (v : string) (stack : list string) : result (list string * list string) :=
  match stack with
  | [] => Raise IndexError
  | x :: stack =>
      if decide (x = v) then Ok ([x], stack)
      else '(component, rest) ← strict_pop_to v stack; Ok (x :: component, rest)
  end.

Definition strict_step (succ : list (string * gset string)) (st : Tarjan) : result Tarjan :=
  match tj_work st with
  | [] => Ok st
  | (current, child :: children) :: work =>
      let st := mk_tarjan (tj_index st) (tj_low st) (tj_stack st) (tj_on_stack st) (tj_out st)
                  ((current, children) :: work) in
      if negb (din child (tj_index st)) then strict_enter succ child st
      else if bool_decide (child ∈ tj_on_stack st)
      then
        i ← look child (tj_index st);
        low ← strict_lower current i (tj_low st);
        Ok (mk_tarjan (tj_index st) low (tj_stack st) (tj_on_stack st) (tj_out st) (tj_work st))
      else Ok st
  | (current, []) :: work =>
      low ← match work with
            | (parent, _) :: _ => z ← look current (tj_low st); strict_lower parent z (tj_low st)
            | [] => Ok (tj_low st)
            end;
      l ← look current low;
      i ← look current (tj_index st);
      if negb (l =? i)
      then Ok (mk_tarjan (tj_index st) low (tj_stack st) (tj_on_stack st) (tj_out st) work)
      else
        '(component, stack) ← strict_pop_to current (tj_stack st);
        following ← look current succ;
        let out := if (1 <? length component)%nat || bool_decide (current ∈ following)
                   then tj_out st ++ component else tj_out st in
        Ok (mk_tarjan (tj_index st) low stack (tj_on_stack st ∖ list_to_set component) out work)
  end.

Fixpoint strict_loop (fuel : nat) (succ : list (string * gset string)) (st : Tarjan) : result Tarjan :=
  match fuel with
  | O => Ok st
  | S fuel => match tj_work st with [] => Ok st | _ => st ← strict_step succ st; strict_loop fuel succ st end
  end.

(** [_on_cycles] *)
Definition strict_on_cycles (succ : list (string * gset string)) : result (list string) :=
  st ← foldM (λ st start,
      if din start (tj_index st) then Ok st
      else st ← strict_enter succ start st; strict_loop (tj_fuel succ) succ st)
    (mk_tarjan [] [] [] ∅ [] []) (sort_str succ.*1);
  Ok (sort_str (tj_out st)).

Section cycles.
Context (succ : list (string * gset string)) (succ_closed : ∀ u v, follows succ u v → v ∈ succ.*1).

(** What the tables of the search hold. *)
Record tables (st : Tarjan) : Prop := {
  tb_inv : tj_inv succ st;
  tb_low : (tj_low st).*1 = (tj_index st).*1;
  tb_known : ∀ x, visited st x → x ∈ succ.*1;
}.

Lemma iget_look k d : k ∈ d.*1 → look k d = Ok (iget k d).
Proof. intros (z & Hz & ->)%look_key. unfold iget. by rewrite Hz. Qed.

Lemma sget_look k : k ∈ succ.*1 → look k succ = Ok (sget k succ).
Proof. intros (s & Hs & ->)%look_key. unfold sget. by rewrite Hs. Qed.

Lemma strict_enter_eq v st : v ∈ succ.*1 → strict_enter succ v st = Ok (tj_enter succ v st).
Proof. intros Hv. unfold strict_enter. by rewrite sget_look. Qed.

Lemma dset_same_keys {V W} (k : string) (v : V) (w : W) d d' : d.*1 = d'.*1 → (dset k v d).*1 = (dset k w d').*1.
Proof.
  revert d'. induction d as [|[x y] d IH]; intros [|[x' y'] d']; csimpl; try done. intros [= <- E].
  case_decide; csimpl; [by rewrite E|]. by rewrite (IH _ E).
Qed.

Lemma enter_tables v st : tables st → v ∈ succ.*1 → tj_inv succ (tj_enter succ v st) → tables (tj_enter succ v st).
Proof.
  intros [_ Hl Hk] Hv Hi. split; [done| |].
  - by apply dset_same_keys.
  - intros x [->|?]%visited_enter; auto.
Qed.

Lemma strict_pop_to_eq v stack : v ∈ stack → strict_pop_to v stack = Ok (pop_to v stack).
Proof.
  induction stack as [|x stack IH]; intros Hv; [by apply not_elem_of_nil in Hv|]. simpl.
  case_decide as E; [done|]. apply elem_of_cons in Hv as [->|Hv]; [done|]. rewrite (IH Hv). simpl.
  by destruct (pop_to v stack).
Qed.

Lemma strict_lower_eq v n low : v ∈ low.*1 →
  strict_lower v n low = Ok (tj_lower v n low) ∧ (tj_lower v n low).*1 = low.*1.
Proof. intros Hv. unfold strict_lower, tj_lower. rewrite iget_look by done. split; [done|]. by apply dset_keys. Qed.

(** The tables after a round, whatever it did to the rest. *)
Lemma step_tables st : tables st →
  (tj_low (tj_step succ st)).*1 = (tj_index (tj_step succ st)).*1 →
  (∀ x, visited (tj_step succ st) x → visited st x ∨ x ∈ succ.*1) → tables (tj_step succ st).
Proof. intros [Hi _ Hk] Hl Hv. split; [by apply step_inv|done|]. intros x [?|?]%Hv; auto. Qed.

Lemma strict_child_eq st v w c work : tables st → tj_work st = (v, w :: c) :: work →
  strict_step succ st = Ok (tj_step succ st) ∧ tables (tj_step succ st).
Proof.
  intros Ht Hw. pose proof Ht as [Hi Hl Hk].
  assert (v ∈ gray st) as Hg by (rewrite (gray_cons _ _ _ _ Hw); constructor).
  assert (v ∈ (tj_low st).*1) as Hv by (rewrite Hl; by apply (t_visited _ _ Hi), (t_gray _ _ Hi)).
  assert (w ∈ succ.*1) as Hws.
  { apply (succ_closed v), (t_children _ _ Hi v (w :: c)); [rewrite Hw|]; constructor. }
  split.
  - unfold strict_step, tj_step. rewrite Hw. cbn [tj_index tj_low tj_stack tj_on_stack tj_out tj_work].
    destruct (din w (tj_index st)) eqn:Hd; cbn [negb]; [|by apply strict_enter_eq].
    apply din_true in Hd. case_bool_decide; [|done]. rewrite iget_look by done. cbn [mbind result_bind].
    by rewrite (proj1 (strict_lower_eq _ _ _ Hv)).
  - apply step_tables; [done| |]; unfold tj_step; rewrite Hw; cbn [tj_index tj_low tj_stack tj_on_stack tj_out tj_work].
    + destruct (negb _); [by apply dset_same_keys|]. case_bool_decide; [|done]. simpl.
      by rewrite (proj2 (strict_lower_eq _ _ _ Hv)).
    + intros x. destruct (negb _); [|by case_bool_decide; left]. intros [->|?]%visited_enter; [by right|by left].
Qed.

Lemma strict_finish_eq st v work : tables st → tj_work st = (v, []) :: work →
  strict_step succ st = Ok (tj_step succ st) ∧ tables (tj_step succ st).
Proof.
  intros Ht Hw. pose proof Ht as [Hi Hl Hk].
  assert (∀ x, x ∈ gray st → x ∈ (tj_low st).*1) as Hin.
  { intros x Hx. rewrite Hl. by apply (t_visited _ _ Hi), (t_gray _ _ Hi). }
  assert (v ∈ gray st) as Hg by (rewrite (gray_cons _ _ _ _ Hw); constructor).
  pose proof (Hin v Hg) as Hv. assert (v ∈ (tj_index st).*1) as Hvi by by rewrite <-Hl.
  set (low' := match work with (parent, _) :: _ => tj_lower parent (iget v (tj_low st)) (tj_low st) | [] => tj_low st end).
  assert ((match work with
            | (parent, _) :: _ => z ← look v (tj_low st); strict_lower parent z (tj_low st)
            | [] => Ok (tj_low st) end) = Ok low' ∧ low'.*1 = (tj_low st).*1) as [Hlow Hkeys].
  { unfold low'. destruct work as [|[p cp] work]; [done|]. rewrite iget_look by done. apply strict_lower_eq, Hin.
    rewrite (gray_cons _ _ _ _ Hw). right. constructor. }
  split.
  - unfold strict_step, tj_step. rewrite Hw, Hlow. fold low'. cbn [mbind result_bind].
    rewrite (iget_look v low') by by rewrite Hkeys. rewrite (iget_look v (tj_index st)) by done. cbn [mbind result_bind].
    destruct (negb _); [done|]. rewrite strict_pop_to_eq by by apply (t_gray _ _ Hi). cbn [mbind result_bind].
    destruct (pop_to v (tj_stack st)) as [component rest]. by rewrite sget_look by (by apply Hk).
  - apply step_tables; [done| |]; unfold tj_step; rewrite Hw; fold low'.
    + destruct (negb _); [simpl; congruence|]. destruct (pop_to _ _). simpl. congruence.
    + intros x. destruct (negb _); [by left|]. destruct (pop_to _ _). by left.
Qed.

Lemma strict_step_eq st : tables st → strict_step succ st = Ok (tj_step succ st) ∧ tables (tj_step succ st).
Proof.
  intros Ht. destruct (tj_work st) as [|[v [|w c]] work] eqn:Hw; [|by eapply strict_finish_eq|by eapply strict_child_eq].
  unfold strict_step, tj_step. by rewrite Hw.
Qed.

Lemma strict_loop_eq fuel st : tables st →
  strict_loop fuel succ st = Ok (tj_loop fuel succ st) ∧ tables (tj_loop fuel succ st).
Proof.
  revert st. induction fuel as [|fuel IH]; intros st Ht; simpl; [done|]. destruct (tj_work st) eqn:Hw; [done|].
  destruct (strict_step_eq st Ht) as [-> Ht']. by apply IH.
Qed.

Lemma strict_on_cycles_eq : strict_on_cycles succ = Ok (on_cycles succ).
Proof.
  unfold strict_on_cycles, on_cycles.
  destruct (foldM_pure (λ st start, if din start (tj_index st) then Ok st
      else st ← strict_enter succ start st; strict_loop (tj_fuel succ) succ st) (search succ)
      (λ st, tables st ∧ idle succ st) (sort_str succ.*1) (mk_tarjan [] [] [] ∅ [] [])) as [-> _]; [| |done].
  - assert (idle succ (mk_tarjan [] [] [] ∅ [] [])) as [Hi Hw] by by apply empty_idle. split; [|done].
    split; [done|done|]. intros x Hx. by apply not_elem_of_nil in Hx.
  - intros st s [Ht Hid] Hs. unfold sort_str in Hs. rewrite elem_of_py_sort in Hs.
    pose proof (search_idle succ succ_closed st s Hid Hs) as [Hid' _]. unfold search in *.
    destruct (din s (tj_index st)) eqn:Hd; [done|]. rewrite strict_enter_eq by done. cbn [mbind result_bind].
    apply din_false in Hd. destruct Hid as [Hi Hw].
    assert (tables (tj_enter succ s st)) as He.
    { apply enter_tables; [done..|]. apply enter_inv; [done..|by rewrite Hw]. }
    destruct (strict_loop_eq (tj_fuel succ) _ He) as [-> ?]. done.
Qed.
End cycles.
