(* ===== verification/GraphTotal.v ===== *)
(** * The reports are total

    The builder of a run and [build_run_graphs] ([fabric/reconstruct/_graph.py]) with every
    indexed look-up, every [next] and every element of a list that may be empty raising what
    Python raises, on the searches of [GraphStrict]. They return what [Graph.v] returns, so the
    only exception of [build_run_graphs] is the overflow of a deadline. *)

From stdpp Require Import relations.
From S2P Require Import Prelude PyDict Hash Json Report Decimal Ids Tokens Graph GraphSearch GraphMerge GraphCycles GraphForks GraphVerdict GraphRuns GraphStrict.

(** ** The builder of a run *)

(** [_RunBuilder], with its dictionary of entries. *)
Record StrictBuilder := mk_strict { sb : Builder; sb_entries : list (string * list Entry) }.

(** [__post_init__] *)
Definition strict_note (run_id : string) (everything : list (string * SegmentNode))
    (st : list (string * list Entry) * list (string * SegmentNode)) (n : SegmentNode)
    : result (list (string * list Entry) * list (string * SegmentNode)) :=
  let ents := dset (n_segment_id n) (entries n) st.1 in
  es ← look (n_segment_id n) ents;
  Ok (ents, foldl (note_missing run_id everything) st.2 es).

Definition strict_builder (run_id : string) (members : list SegmentNode) (aliases : list string)
    (everything : list (string * SegmentNode)) (clocks : Clocks) : result StrictBuilder :=
  let members := py_sort node_leb members in
  let present := foldl (λ d n, dset (n_segment_id n) n d) [] members in
  succ ← strict_successors present;
  '(ents, missing) ← foldM (strict_note run_id everything) ([], []) members;
  Ok (mk_strict (mk_builder run_id members aliases everything clocks present missing succ) ents).

Section strict_rules.
Variable s : StrictBuilder.
#[local] Notation b := (sb s).

Definition entries_at (id : string) : result (list Entry) := look id (sb_entries s).
Definition present_at (id : string) : result SegmentNode := look id (b_present b).

(** *** G1, G2 *)

Definition strict_list_conflict (n : SegmentNode) : result (list IdBasisConflict) :=
  es ← entries_at (n_segment_id n);
  let run_ids : gset string := list_to_set (n_run_id n :: omap (λ e,
        n_run_id <$> dget (segment_id e) (b_everything b)) es) in
  Ok (if (1 <? size run_ids)%nat then [mk_conflict (n_segment_id n) (sort_set run_ids)] else []).

(** [_entry_conflicts] *)
Definition strict_entry_conflicts : result (list Gap * list IdBasisConflict) :=
  foldM (λ acc n,
      if decide (n_id_basis n = Some id_token_conflict)
      then
        listed ← strict_list_conflict n;
        Ok (acc.1 ++ [gap_at segment_conflict partial n "token_conflict"], acc.2 ++ listed)
      else
        es ← entries_at (n_segment_id n);
        Ok (acc.1 ++ (es ≫= entry_gap b n), acc.2))
    ([], []) (b_members b).

(** [_branches_not_issued] *)
Definition strict_branches_not_issued (n : SegmentNode) : result (list Gap) :=
  match n_branch_ids n with
  | [] => Ok []
  | _ =>
      es ← entries_at (n_segment_id n);
      let named := (λ e, dget (segment_id e) (b_present b)) <$> es in
      Ok (if existsb (λ i, match i with
                           | None => true
                           | Some i => negb (bool_decide (seal_state i = seg_sealed)) end) named then []
          else
            let issued := omap (λ i, i) named ≫= n_issued_branch_ids in
            if forallb (λ x, bool_decide (x ∈ issued)) (n_branch_ids n) then []
            else [gap_at segment_conflict partial n "branch_not_issued"])
  end.

Definition strict_cycle_gaps : result (list Gap) :=
  found ← strict_on_cycles (b_successors b);
  mapM_result (λ id, n ← present_at id; Ok (gap_at segment_conflict partial n "cycle")) found.

(** [_g1], with the conflicts it lists. *)
Definition strict_g1 : result (option (list Gap) * list IdBasisConflict) :=
  '(gaps, conflicts) ← strict_entry_conflicts;
  cycles ← strict_cycle_gaps;
  unissued ← mapM_result strict_branches_not_issued (b_members b);
  let conflicting := existsb (λ n, bool_decide (seal_state n = seg_conflict)) (b_members b) in
  let gaps := gaps ++ repeated (roots_by_run b) "multiple_roots" ++ cycles ++ mjoin unissued
              ++ repeated (branch_consumers b) "branch_replayed" in
  Ok (if conflicting then Some gaps else or_none gaps, conflicts).

(** [_g2] *)
Definition strict_g2 : result (option (list Gap)) :=
  gaps ← mapM_result (λ id, n ← look id (b_missing b); Ok (gap_at segment_missing partial n "predecessor_missing"))
           (sort_str (b_missing b).*1);
  Ok (or_none gaps).

(** *** The closures and G4 *)

Fixpoint strict_desc_loop (fuel : nat) (start : string) (out : gset string) (todo : list string)
    : result (gset string) :=
  match fuel, todo with
  | S fuel, current :: todo =>
      if decide (current ∉ out ∧ current ≠ start)
      then
        following ← look current (b_successors b);
        strict_desc_loop fuel start ({[current]} ∪ out) (elements following ++ todo)
      else strict_desc_loop fuel start out todo
  | _, _ => Ok out
  end.

(** [_descendants] *)
Definition strict_descendants (id : string) : result (gset string) :=
  following ← look id (b_successors b);
  strict_desc_loop (desc_fuel b) id ∅ (elements following).

Fixpoint strict_anc_loop (fuel : nat) (out : gset string) (todo : list string) : result (gset string) :=
  match fuel, todo with
  | S fuel, current :: todo =>
      es ← entries_at current;
      let '(out, todo) := foldl (anc_push b) (out, todo) es in strict_anc_loop fuel out todo
  | _, _ => Ok out
  end.

(** [_ancestors] *)
Definition strict_ancestors (id : string) : result (gset string) :=
  strict_anc_loop (S (length (b_present b))) {[id]} [id].

Definition strict_terminal_gaps (terminal : SegmentNode) : result (list Gap) :=
  after ← strict_descendants (n_segment_id terminal);
  gaps ← mapM_result (λ id, n ← present_at id; Ok (gap_at post_terminal_activity partial n "continues_terminal"))
           (sort_set after);
  match n_sealed_ns terminal with
  | None => Ok gaps
  | Some terminal_ns =>
      closure ← strict_ancestors (n_segment_id terminal);
      Ok (gaps ++ (b_members b ≫= λ n,
            if bool_decide (n_segment_id n ∈ closure ∨ n_segment_id n ∈ after) then []
            else late_gap terminal n terminal_ns))
  end.

(** [_g4] *)
Definition strict_g4 : result (option (list Gap)) :=
  gaps ← mapM_result strict_terminal_gaps (terminals b);
  Ok (or_none (mjoin gaps)).

(** *** G5 and G7 *)

Definition strict_fork_member (closure : gset string) (st : ForkState) (id : string) : result ForkState :=
  member ← present_at id;
  let fresh := bool_decide (id ∉ closure) && bool_decide (id ∉ fs_out st) in
  Ok (mk_fork_state ({[id]} ∪ fs_out st)
        (if fresh && negb (bool_decide (seal_state member = seg_sealed))
         then fs_gaps st ++ [gap_at segment_missing partial member "branch_unsealed"] else fs_gaps st)
        (fs_seen st) (fs_todo st ++ sort_set (declared_by member ∖ fs_seen st))).

(** [next(n for n in self.members if ...)] *)
Definition strict_declarer (child : string) : result SegmentNode :=
  or_raise StopIteration (head (filter (λ n, child ∈ n_declared_branches n) (b_members b))).

Definition strict_fork_step (closure : gset string) (st : ForkState) (child : string) : result ForkState :=
  if decide (child ∈ fs_seen st) then Ok st
  else
    let st := mk_fork_state (fs_out st) (fs_gaps st) ({[child]} ∪ fs_seen st) (fs_todo st) in
    if negb (din child (b_present b)) then
      n ← strict_declarer child;
      Ok (mk_fork_state (fs_out st) (fs_gaps st ++ [gap_at segment_missing partial n "fork_child_missing"])
            (fs_seen st) (fs_todo st))
    else
      after ← strict_descendants child;
      foldM (strict_fork_member closure) st (sort_set ({[child]} ∪ after)).

Fixpoint strict_fork_loop (fuel : nat) (closure : gset string) (st : ForkState) : result ForkState :=
  match fuel, fs_todo st with
  | S fuel, child :: todo =>
      st ← strict_fork_step closure (mk_fork_state (fs_out st) (fs_gaps st) (fs_seen st) todo) child;
      strict_fork_loop fuel closure st
  | _, _ => Ok st
  end.

(** [_fork_closures] *)
Definition strict_fork_closures (closure : gset string) : result (gset string * list Gap) :=
  declared ← mapM_result (λ id, n ← present_at id; Ok (declared_by n)) (elements closure);
  st ← strict_fork_loop (fork_fuel b) closure (mk_fork_state ∅ [] ∅ (sort_set (⋃ declared)));
  Ok (fs_out st, fs_gaps st).

(** [_g5_failures] *)
Definition strict_g5_failures (ts : list SegmentNode) : result (list Gap) :=
  match ts with
  | [] => Raise IndexError
  | [t] =>
      closure ← strict_ancestors (n_segment_id t);
      unsealed ← mapM_result (λ id, n ← present_at id;
                   Ok (if bool_decide (seal_state n = seg_sealed) then []
                       else [gap_at segment_missing partial n "predecessor_unsealed"])) (sort_set closure);
      '(forked, gaps) ← strict_fork_closures closure;
      let joined := closure ∪ forked in
      Ok (mjoin unsealed ++ gaps
          ++ ((λ n, gap_at segment_missing partial n "branch_not_joined")
                <$> filter (λ n, n_segment_id n ∉ joined) (b_members b))
          ++ (filter (λ n, n_segment_id n ∈ joined) (b_members b)
                ≫= λ n, n_issued_branch_ids n ≫= issued_gap b n))
  | ts => Ok ((λ n, gap_at segment_conflict partial n "multiple_terminals") <$> ts)
  end.

(** *** The decision and the report *)

(** [_decide], with the conflicts listed on the way. *)
Definition strict_decide : result (Decision_ * list IdBasisConflict) :=
  let fired (r : Rule) (gaps : list Gap) := Ok (mk_decision r conflicted gaps None None) in
  '(gaps1, conflicts) ← strict_g1;
  d ← match gaps1 with Some gaps => fired G1 gaps | None =>
      gaps2 ← strict_g2;
      match gaps2 with Some gaps => fired G2 gaps | None =>
      match g3 b with Some gaps => fired G3 gaps | None =>
      gaps4 ← strict_g4;
      match gaps4 with Some gaps => fired G4 gaps | None =>
      match terminals b with
      | _ :: _ =>
          failures ← strict_g5_failures (terminals b);
          match failures with
          | [] => Ok (mk_decision G5 terminated [] None None)
          | gaps => fired G7 gaps
          end
      | [] => if run_resumable b then deadline b
              else Ok (mk_decision G8 not_resumable_unclosed [] None None)
      end end end end end;
  Ok (d, conflicts).

(** [build] *)
Definition strict_build : result RunGraph :=
  '(d, conflicts) ← strict_decide;
  missing ← mapM_result (λ id, look id (b_missing b)) (sort_str (b_missing b).*1);
  Ok (mk_graph (b_run_id b) (b_members b ++ missing) (d_state d) (b_aliases b) conflicts (fromkeys (d_gaps d))
        (d_deadline_at d) (run_resumable b) (d_deadline_s d) (d_rule d)
        (match terminals b with [t] => Some (n_segment_id t) | _ => None end)).
End strict_rules.

(** ** [build_run_graphs] *)

(** The members and the other run ids of each run: dictionaries with a default. *)
Definition strict_group (canonical : list (string * string))
    (st : list (string * list SegmentNode) * list (string * gset string)) (n : SegmentNode)
    : result (list (string * list SegmentNode) * list (string * gset string)) :=
  run_id ← look (n_run_id n) canonical;
  Ok (dappend run_id n st.1,
      if decide (n_run_id n = run_id) then st.2 else dset run_id ({[n_run_id n]} ∪ sget run_id st.2) st.2).

Definition strict_build_run_graphs (segments : list SegmentNode) (evaluated_us verifier_ns bound_ns : Z)
    : result (list RunGraph) :=
  let nodes := node_map segments in
  canonical ← strict_merge_runs nodes;
  '(members, aliases) ← foldM (strict_group canonical) ([], []) nodes.*2;
  let clocks := mk_clocks (ns_of evaluated_us) verifier_ns bound_ns in
  mapM_result (λ run_id,
      s ← strict_builder run_id (default [] (dget run_id members)) (sort_set (sget run_id aliases)) nodes clocks;
      strict_build s)
    (sort_str members.*1).

(** ** Lists of look-ups *)

Lemma mapM_pure {A B} (f : A → result B) (g : A → B) l : (∀ x, x ∈ l → f x = Ok (g x)) → mapM_result f l = Ok (g <$> l).
Proof.
  intros H. induction l as [|x l IH]; [done|]. simpl. rewrite (H x) by constructor. simpl.
  rewrite IH; [done|]. intros y ?. apply H. by constructor.
Qed.

Lemma mapM_look {V B} (d : list (string * V)) (h : V → B) l : (∀ k, k ∈ l → k ∈ d.*1) →
  mapM_result (λ k, v ← look k d; Ok (h v)) l = Ok (omap (λ k, h <$> dget k d) l).
Proof.
  intros H. induction l as [|k l IH]; [done|]. simpl. destruct (look_key k d) as (v & Hv & ->); [apply H; constructor|].
  rewrite Hv. simpl. rewrite IH; [done|]. intros y ?. apply H. by constructor.
Qed.

Lemma mjoin_bind {A B} (f : A → list B) l : mjoin (f <$> l) = l ≫= f.
Proof. induction l as [|x l IH]; [done|]. csimpl. by rewrite IH. Qed.

(** The tables of [__post_init__]: the entries of the members, under their ids. *)
Lemma entry_table (ms : list SegmentNode) d d' : (∀ k, dget k d' = entries <$> dget k d) →
  ∀ k, dget k (foldl (λ d n, dset (n_segment_id n) (entries n) d) d' ms) =
    entries <$> dget k (foldl (λ d n, dset (n_segment_id n) n d) d ms).
Proof.
  revert d d'. induction ms as [|n ms IH]; intros d d' H k; [apply H|]. simpl. apply IH. intros k'.
  rewrite !dget_dset. by case_decide.
Qed.

Lemma strict_notes run_id everything ms st :
  foldM (strict_note run_id everything) st ms = Ok (foldl (λ d n, dset (n_segment_id n) (entries n) d) st.1 ms,
    foldl (λ missing n, foldl (note_missing run_id everything) missing (entries n)) st.2 ms).
Proof.
  revert st. induction ms as [|n ms IH]; intros st; [by destruct st|]. simpl. unfold strict_note at 1.
  rewrite (look_Some _ (entries n)) by apply dget_dset_eq. cbn [mbind result_bind]. by rewrite IH.
Qed.

Lemma strict_builder_eq run_id members aliases everything clocks : ∃ ents,
  strict_builder run_id members aliases everything clocks =
    Ok (mk_strict (new_builder run_id members aliases everything clocks) ents) ∧
  ∀ k, dget k ents = entries <$> dget k (b_present (new_builder run_id members aliases everything clocks)).
Proof.
  unfold strict_builder. rewrite strict_successors_eq. cbn [mbind result_bind]. rewrite strict_notes. cbn [mbind result_bind].
  eexists. split; [reflexivity|]. intros k. apply entry_table. done.
Qed.

(** ** One run *)

Section run.
Context (everything : list (string * SegmentNode)) (b : Builder) (Hb : builder_ok everything b).
Context (ents : list (string * list Entry)) (Hents : ∀ k, dget k ents = entries <$> dget k (b_present b)).
#[local] Notation s := (mk_strict b ents).
#[local] Notation present := ((b_present b).*1).

Lemma member_present n : n ∈ b_members b → n_segment_id n ∈ present.
Proof. intros Hn. apply (ok_key _ _ Hb). by exists n. Qed.

Lemma entries_at_member n : n ∈ b_members b → entries_at s (n_segment_id n) = Ok (entries n).
Proof.
  intros Hn. unfold entries_at. simpl. apply look_Some. rewrite Hents.
  by rewrite (proj2 (ok_present _ _ Hb (n_segment_id n) n)).
Qed.

Lemma entries_at_present k : k ∈ present → entries_at s k = Ok (entries_of b k).
Proof.
  intros (n & Hn & _)%look_key. unfold entries_at, entries_of. simpl. rewrite Hn. apply look_Some. by rewrite Hents, Hn.
Qed.

Lemma present_look k : k ∈ present → ∃ n, node_at b k = Some n ∧ present_at s k = Ok n.
Proof. intros (n & Hn & E)%look_key. by exists n. Qed.

Lemma succ_key k : k ∈ (b_successors b).*1 ↔ k ∈ present.
Proof. by rewrite (ok_succ _ _ Hb), successors_keys. Qed.

Lemma succ_closed k x : x ∈ sget k (b_successors b) → x ∈ present.
Proof.
  rewrite (ok_succ _ _ Hb). intros H. rewrite <-successors_keys. by eapply (follows_node _ k), H; apply (ok_dict _ _ Hb).
Qed.

Lemma succ_look k : k ∈ present → look k (b_successors b) = Ok (sget k (b_successors b)).
Proof. intros Hk. by apply sget_look, succ_key. Qed.

(** *** G1, G2 *)

Lemma strict_list_conflict_eq n : n ∈ b_members b → strict_list_conflict s n = Ok (list_conflict b n).
Proof. intros Hn. unfold strict_list_conflict. by rewrite entries_at_member. Qed.

Lemma strict_entry_conflicts_eq : strict_entry_conflicts s = Ok (entry_conflicts b).
Proof.
  unfold strict_entry_conflicts, entry_conflicts. refine (proj1 (foldM_pure _ _ (λ _, True) _ _ I _)).
  intros acc n _ Hn. split; [|done]. case_decide; [by rewrite strict_list_conflict_eq|by rewrite entries_at_member].
Qed.

Lemma strict_branches_eq n : n ∈ b_members b → strict_branches_not_issued s n = Ok (branches_not_issued b n).
Proof.
  intros Hn. unfold strict_branches_not_issued, branches_not_issued. destruct (n_branch_ids n); [done|].
  by rewrite entries_at_member.
Qed.

Lemma strict_cycle_gaps_eq : strict_cycle_gaps s = Ok (cycle_gaps b).
Proof.
  unfold strict_cycle_gaps, cycle_gaps. simpl.
  assert (∀ u v, follows (b_successors b) u v → v ∈ (b_successors b).*1) as Hc.
  { intros u v Hv. by apply succ_key, (succ_closed u). }
  rewrite (strict_on_cycles_eq _ Hc). cbn [mbind result_bind]. unfold present_at. apply mapM_look.
  intros k Hk. apply (on_cycles_spec _ Hc) in Hk. apply tc_inv_r in Hk as (z & _ & Hz). by apply (succ_closed z).
Qed.

Lemma strict_g1_eq : strict_g1 s = Ok (g1 b, (entry_conflicts b).2).
Proof.
  unfold strict_g1. rewrite strict_entry_conflicts_eq. destruct (entry_conflicts b) as [gaps conflicts] eqn:E.
  cbn [mbind result_bind]. rewrite strict_cycle_gaps_eq. cbn [mbind result_bind].
  rewrite (mapM_pure _ (branches_not_issued b)) by apply strict_branches_eq. cbn [mbind result_bind].
  unfold g1. rewrite E, mjoin_bind. done.
Qed.

Lemma strict_g2_eq : strict_g2 s = Ok (g2 b).
Proof.
  unfold strict_g2, g2. rewrite mapM_look; [done|]. intros k. unfold sort_str. by rewrite elem_of_py_sort.
Qed.

(** *** The closures *)

Lemma strict_desc_loop_eq fuel start out todo : (∀ x, x ∈ todo → x ∈ present) →
  strict_desc_loop s fuel start out todo = Ok (desc_loop b fuel start out todo).
Proof.
  revert out todo. induction fuel as [|fuel IH]; intros out [|c todo] Ht; try done. simpl.
  case_decide; [|apply IH; intros x ?; apply Ht; by constructor].
  rewrite succ_look by (apply Ht; constructor). cbn [mbind result_bind]. apply IH.
  intros x [Hx%elem_of_elements|?]%elem_of_app; [by eapply succ_closed|apply Ht; by constructor].
Qed.

Lemma strict_descendants_eq k : k ∈ present → strict_descendants s k = Ok (descendants b k).
Proof.
  intros Hk. unfold strict_descendants, descendants. simpl. rewrite succ_look by done. cbn [mbind result_bind].
  apply strict_desc_loop_eq. intros x Hx%elem_of_elements. by eapply succ_closed.
Qed.

Lemma descendants_present k x : k ∈ present → x ∈ {[k]} ∪ descendants b k → x ∈ present.
Proof. intros Hk Hx. apply (self_descendants everything b Hb) in Hx. by eapply rtc_present. Qed.

Lemma anc_push_present es out todo : (∀ x, x ∈ todo → x ∈ present) →
  ∀ x, x ∈ (foldl (anc_push b) (out, todo) es).2 → x ∈ present.
Proof.
  revert out todo. induction es as [|e es IH]; intros out todo Ht; [done|]. simpl. unfold anc_push at 2.
  destruct (din _ _ && _) eqn:Hd; cbn [fst snd]; apply IH; [|done]. apply andb_true_iff in Hd as [Hd%din_true _].
  by intros x [-> |?]%elem_of_cons; [|apply Ht].
Qed.

Lemma strict_anc_loop_eq fuel out todo : (∀ x, x ∈ todo → x ∈ present) →
  strict_anc_loop s fuel out todo = Ok (anc_loop b fuel out todo).
Proof.
  revert out todo. induction fuel as [|fuel IH]; intros out [|c todo] Ht; try done. simpl.
  rewrite entries_at_present by (apply Ht; constructor). cbn [mbind result_bind].
  pose proof (anc_push_present (entries_of b c) out todo) as Hp.
  destruct (foldl _ _ _) as [out' todo']. apply IH, Hp. intros x ?. apply Ht. by constructor.
Qed.

Lemma strict_ancestors_eq k : k ∈ present → strict_ancestors s k = Ok (ancestors b k).
Proof. intros Hk. apply strict_anc_loop_eq. by intros x ->%list_elem_of_singleton. Qed.

Lemma ancestors_present k x : k ∈ present → x ∈ ancestors b k → x ∈ present.
Proof. intros Hk H%(ancestors_edge everything b Hb). by destruct H as [|x y z [Hx _] _]. Qed.

(** *** G4 *)

Lemma strict_terminal_gaps_eq t : t ∈ b_members b → strict_terminal_gaps s t = Ok (terminal_gaps b t).
Proof.
  intros Ht%member_present. unfold strict_terminal_gaps, terminal_gaps. rewrite strict_descendants_eq by done.
  cbn [mbind result_bind]. unfold present_at. rewrite mapM_look; cbn [mbind result_bind]; cycle 1.
  { intros k Hk%sort_set_elem. apply (descendants_present (n_segment_id t)); [done|]. apply elem_of_union. by right. }
  destruct (n_sealed_ns t); [|by rewrite app_nil_r]. by rewrite strict_ancestors_eq.
Qed.

Lemma strict_g4_eq : strict_g4 s = Ok (g4 b).
Proof.
  unfold strict_g4, g4. rewrite (mapM_pure _ (terminal_gaps b)); [by rewrite <-mjoin_bind|].
  intros t [_ Ht]%list_elem_of_filter. by apply strict_terminal_gaps_eq.
Qed.

(** *** G5 *)

Lemma strict_fork_members closure l st : (∀ k, k ∈ l → k ∈ present) →
  foldM (strict_fork_member s closure) st l = Ok (foldl (fork_member b closure) st l).
Proof.
  intros Hl. refine (proj1 (foldM_pure _ _ (λ _, True) _ _ I _)). intros st' k _ Hk. split; [|done].
  unfold strict_fork_member, fork_member. destruct (present_look k (Hl k Hk)) as (n & -> & ->). done.
Qed.

Lemma strict_fork_step_eq closure st c todo : fork_inv b closure st → fs_todo st = c :: todo →
  strict_fork_step s closure (popped st todo) c = Ok (fork_step b closure (popped st todo) c).
Proof.
  intros Hi Ht. unfold strict_fork_step, fork_step. case_decide as Hc; [done|]. unfold node_at. cbn [sb].
  destruct (din c (b_present b)) eqn:Hd; cbn [negb].
  - apply din_true in Hd. destruct (look_key _ _ Hd) as (n & -> & _). rewrite strict_descendants_eq by done.
    cbn [mbind result_bind]. apply strict_fork_members. intros k Hk%sort_set_elem. by eapply descendants_present.
  - apply din_false in Hd. rewrite (proj2 (dget_None c (b_present b)) Hd).
    destruct (queued_declarer everything b Hb closure c) as [n Hn].
    { apply (f_queued _ _ _ Hi). right. rewrite Ht. constructor. }
    unfold strict_declarer. unfold declarer in Hn |- *. cbn [sb]. by rewrite Hn.
Qed.

Lemma strict_fork_loop_eq fuel closure st : fork_inv b closure st →
  strict_fork_loop s fuel closure st = Ok (fork_loop b fuel closure st).
Proof.
  revert st. induction fuel as [|fuel IH]; intros st Hi; [done|]. simpl. destruct (fs_todo st) as [|c todo] eqn:Ht; [done|].
  change (mk_fork_state (fs_out st) (fs_gaps st) (fs_seen st) todo) with (popped st todo).
  rewrite (strict_fork_step_eq closure st c todo Hi Ht). cbn [mbind result_bind].
  apply IH. by apply (fork_step_inv everything b Hb).
Qed.

Lemma declared_pure (closure : gset string) : (∀ k, k ∈ closure → k ∈ present) →
  mapM_result (λ k, n ← present_at s k; Ok (declared_by n)) (elements closure) =
    Ok ((λ n, declared_by n) <$> omap (node_at b) (elements closure)).
Proof.
  intros Hc. unfold present_at. rewrite mapM_look by (intros k Hk%elem_of_elements; auto). f_equal.
  cbn [sb]. generalize (elements closure) as l. intros l. induction l as [|k l IH]; [done|]. csimpl. unfold node_at at 1.
  destruct (dget k (b_present b)); csimpl; by rewrite IH.
Qed.

Lemma strict_fork_closures_eq (closure : gset string) : (∀ k, k ∈ closure → k ∈ present) →
  strict_fork_closures s closure = Ok (fork_closures b closure).
Proof.
  intros Hc. unfold strict_fork_closures, fork_closures. rewrite declared_pure by done. cbn [mbind result_bind].
  fold (declared_in b closure). rewrite strict_fork_loop_eq; [done|]. by apply (fork_start_inv everything b Hb).
Qed.

Lemma unsealed_pure (closure : gset string) : (∀ k, k ∈ closure → k ∈ present) →
  ∃ gs, mapM_result (λ k, n ← present_at s k;
      Ok (if bool_decide (seal_state n = seg_sealed) then []
          else [gap_at segment_missing partial n "predecessor_unsealed"])) (sort_set closure) = Ok gs ∧
    mjoin gs = omap (λ k, n ← node_at b k; if bool_decide (seal_state n = seg_sealed) then None
                 else Some (gap_at segment_missing partial n "predecessor_unsealed")) (sort_set closure).
Proof.
  intros Hc. unfold present_at. eexists. split.
  { apply mapM_look. intros k Hk%sort_set_elem. auto. }
  cbn [sb]. generalize (sort_set closure) as l. intros l. induction l as [|k l IH]; [done|]. csimpl. unfold node_at at 1.
  destruct (dget k (b_present b)) as [n|]; csimpl; [|done]. case_bool_decide; simpl; by rewrite IH.
Qed.

Lemma strict_g5_failures_eq t ts : (∀ n, n ∈ t :: ts → n ∈ b_members b) →
  strict_g5_failures s (t :: ts) = Ok (g5_failures b (t :: ts)).
Proof.
  intros Hts. destruct ts as [|t' ts]; [|done]. unfold strict_g5_failures, g5_failures.
  assert (n_segment_id t ∈ present) as Ht by (apply member_present, Hts; constructor).
  rewrite strict_ancestors_eq by done. cbn [mbind result_bind].
  assert (∀ k, k ∈ ancestors b (n_segment_id t) → k ∈ present) as Hc by by intros k; apply ancestors_present.
  destruct (unsealed_pure _ Hc) as (gs & -> & Hgs). cbn [mbind result_bind].
  rewrite strict_fork_closures_eq by done. destruct (fork_closures _ _) as [forked gaps]. cbn [mbind result_bind].
  by rewrite Hgs.
Qed.

(** *** The report *)

Lemma strict_decide_eq : strict_decide s = d ← decide_run b; Ok (d, (entry_conflicts b).2).
Proof.
  unfold strict_decide, decide_run. rewrite strict_g1_eq. cbn [mbind result_bind]. destruct (g1 b); [done|].
  rewrite strict_g2_eq. cbn [mbind result_bind]. destruct (g2 b); [done|]. cbn [sb]. destruct (g3 b); [done|].
  rewrite strict_g4_eq. cbn [mbind result_bind]. destruct (g4 b); [done|].
  destruct (terminals b) as [|t ts] eqn:Et; [done|]. rewrite strict_g5_failures_eq; [by destruct (g5_failures _ _)|].
  intros n Hn. rewrite <-Et in Hn. by apply list_elem_of_filter in Hn as [_ ?].
Qed.

Lemma strict_build_eq : strict_build s = build b.
Proof.
  unfold strict_build, build. rewrite strict_decide_eq. destruct (decide_run b) as [d|e]; [|done]. cbn [mbind result_bind sb].
  assert (mapM_result (λ id, look id (b_missing b)) (sort_str (b_missing b).*1) =
    Ok (omap (λ k, dget k (b_missing b)) (sort_str (b_missing b).*1))) as ->; [|done].
  assert (∀ k, k ∈ sort_str (b_missing b).*1 → k ∈ (b_missing b).*1) as H.
  { intros k. unfold sort_str. by rewrite elem_of_py_sort. }
  revert H. generalize (sort_str (b_missing b).*1) as l. intros l H. induction l as [|k l IH]; [done|]. simpl.
  destruct (look_key k (b_missing b)) as (n & -> & ->); [apply H; constructor|]. simpl. rewrite IH; [done|].
  intros k' ?. apply H. by constructor.
Qed.
End run.

(** ** Every run *)

Lemma strict_groups canonical (ns : list SegmentNode) st : (∀ n, n ∈ ns → is_Some (dget (n_run_id n) canonical)) →
  ∃ aliases, foldM (strict_group canonical) st ns =
    Ok (foldl (λ d n, dappend (canonical_of canonical (n_run_id n)) n d) st.1 ns, aliases) ∧
  ∀ c, sget c aliases = sget c st.2 ∪
    list_to_set (n_run_id <$> filter (λ n, canonical_of canonical (n_run_id n) = c ∧ n_run_id n ≠ c) ns).
Proof.
  revert st. induction ns as [|n ns IH]; intros st Hns.
  { exists st.2. split; [by destruct st|]. intros c. set_solver. }
  simpl. destruct (Hns n) as [r Hr]; [constructor|]. unfold strict_group at 1. rewrite (look_Some _ _ _ Hr). cbn [mbind result_bind].
  edestruct IH as (aliases & -> & Ha); [intros m ?; apply Hns; by constructor|]. cbn [fst snd] in *.
  assert (canonical_of canonical (n_run_id n) = r) as Hc by (unfold canonical_of; by rewrite Hr).
  exists aliases. rewrite Hc. split; [done|]. intros c. rewrite Ha, filter_cons, Hc. case_decide as Hn.
  - rewrite (decide_False (P := r = c ∧ n_run_id n ≠ c)) by naive_solver. done.
  - rewrite sget_dset. destruct (decide (c = r)) as [->|Hne].
    + rewrite (decide_True (P := r = r ∧ n_run_id n ≠ r)) by done. csimpl. set_solver.
    + rewrite (decide_False (P := r = c ∧ n_run_id n ≠ c)) by naive_solver. done.
Qed.

Lemma mapM_result_ext {A B} (f g : A → result B) l : (∀ x, x ∈ l → f x = g x) → mapM_result f l = mapM_result g l.
Proof.
  intros H. induction l as [|x l IH]; [done|]. simpl. rewrite (H x) by constructor. destruct (g x); [|done]. simpl.
  rewrite IH; [done|]. intros y ?. apply H. by constructor.
Qed.

(** No look-up fails: the code returns what the tables with a default give. *)
Lemma strict_graphs_eq segments evaluated_us verifier_ns bound_ns :
  strict_build_run_graphs segments evaluated_us verifier_ns bound_ns =
    build_run_graphs segments evaluated_us verifier_ns bound_ns.
Proof.
  unfold strict_build_run_graphs. pose proof (node_map_dict segments) as Hd. rewrite (strict_merge_runs_eq _ Hd).
  cbn [mbind result_bind]. destruct (merge_runs_spec _ Hd) as [Hm _].
  destruct (strict_groups (merge_runs (node_map segments)) (node_map segments).*2 ([], [])) as (aliases & -> & Ha).
  { intros n Hn. destruct (Hm n Hn) as (c & _ & -> & _). by eexists. }
  cbn [mbind result_bind fst]. fold (members_by_run (merge_runs (node_map segments)) (node_map segments)).
  unfold build_run_graphs. apply mapM_result_ext. intros c _.
  pose proof (members_group (merge_runs (node_map segments)) (node_map segments) c) as Eg. unfold group_of in Eg.
  assert (sget c aliases = aliases_of (merge_runs (node_map segments)) (node_map segments) c) as ->.
  { rewrite Ha. unfold aliases_of. cbn [snd]. change (sget c []) with (∅ : gset string). by rewrite (left_id_L ∅ (∪)). }
  set (ms := default [] _) in *. set (al := sort_set _). set (ck := mk_clocks _ _ _).
  destruct (strict_builder_eq c ms al (node_map segments) ck) as (ents & -> & Hents). cbn [mbind result_bind].
  apply (strict_build_eq (node_map segments)); [|done]. apply new_builder_ok. rewrite Eg. apply run_members_ids.
Qed.

(** C18: [build_run_graphs], with every indexed look-up, [pop] and [next] of the module raising
    what it raises in Python, never raises anything but the overflow of a deadline that is no
    datetime, not at all when the deadlines of the roots lie within the calendar, and returns
    the reports that the other theorems speak of: no table is ever asked for a key it lacks. *)
Theorem build_run_graphs_total (segments : list SegmentNode) (evaluated_us verifier_ns bound_ns : Z) :
  (∀ e, strict_build_run_graphs segments evaluated_us verifier_ns bound_ns = Raise e → e = OverflowError) ∧
  ((∀ n start, n ∈ segments → is_root n = true → n_start_ns n = Some start →
      deadline_in_calendar n start) →
   ∃ graphs, strict_build_run_graphs segments evaluated_us verifier_ns bound_ns = Ok graphs) ∧
  strict_build_run_graphs segments evaluated_us verifier_ns bound_ns =
    build_run_graphs segments evaluated_us verifier_ns bound_ns.
Proof.
  rewrite strict_graphs_eq, build_run_graphs_eq. split_and!; [| |done].
  - intros e (c & Hc & E)%mapM_result_Raise. apply run_raises in E as [? _]; done.
  - intros Hr. destruct (mapM_result _ _) as [graphs|e] eqn:E; [by exists graphs|exfalso].
    apply mapM_result_Raise in E as (c & Hc & E). apply run_raises in E as [_ (n & start & Hn & ? & ? & Hno)]; [|done].
    apply Hno. apply (Hr n start); done.
Qed.
