(* ===== verification/MarkerForm.v ===== *)
(** * The written form of a marker

    [marker_fields] and [marker_span] of [fabric/_loss.py] (spec 050 section 3.5, capture/v1
    marker branch): a typed marker is spooled as an object of the fields its kind may carry,
    and exported as the attributes of a span made from that object. The kinds decide both
    times; the export of what was written is the marker. *)

From S2P Require Import Prelude PyDict Hash Json Ids Tokens Markers.

(** A marker with the parts the run table does not set: the manifest's sequence, the identity
    block of a run start, and the event id minted when it was built. *)
Record MarkerRecord := mk_marker_record {
  mr_marker : Marker;
  mr_manifest_seq : option Z;
  mr_identity : option (list (string * string));
  mr_event_id : string;
}.

(** ** Vocabularies *)

Definition kind_text (k : MarkerKind) : string :=
  match k with
  | periodic => "periodic" | run_start => "run_start" | run_end => "run_end" | final => "final"
  | segment_seal => "segment_seal" | manifest_kind => "manifest"
  end.
Definition outcome_text (o : RunOutcome) : string :=
  match o with
  | completed => "completed" | failed => "failed" | cancelled => "cancelled"
  | suspended => "suspended" | unknown_outcome => "unknown"
  end.
Definition stop_text (s : StopReason) : string :=
  match s with
  | goal_reached => "goal_reached" | max_steps => "max_steps" | max_tokens => "max_tokens"
  | stop_error => "error" | stop_cancelled => "cancelled" | handoff => "handoff"
  | awaiting_input => "awaiting_input" | stop_other => "other" | stop_unknown => "unknown"
  end.
Definition scope_text (s : ScopeStatus) : string :=
  match s with scope_ok => "ok" | scope_error => "error" | scope_cancelled => "cancelled" end.
Definition basis_text (b : IdBasis) : string :=
  match b with
  | id_caller => "caller" | id_caller_join => "caller_join" | id_token => "token"
  | id_token_conflict => "token_conflict" | id_minted => "minted" | id_legacy => "legacy"
  end.

(** ** The fields of a kind *)

Definition ROOT_FIELDS : list string := ["session_id"; "user_id"; "parent_run_id"; "resumed_from"; "links"].
Definition ALL_FIELDS : list string :=
  ["run_id"; "scope_id"; "segment_id"; "predecessors"; "resumable"; "open_deadline_s";
   "declared_branches"; "branch_ids"; "terminal"; "seal"; "manifest_id"; "manifest_digest";
   "manifest_seq"; "scope_status"; "manifest"; "event_id"; "id_basis"] ++ ROOT_FIELDS ++
  ["outcome"; "stop_reason"; "identity"].

Definition minus (l k : list string) : list string := filter (λ x, x ∉ k) l.

Definition MARKER_FIELDS (k : MarkerKind) : list string :=
  match k with
  | run_start => minus ALL_FIELDS ["terminal"; "seal"; "scope_status"; "manifest"; "outcome"; "stop_reason"]
  | run_end =>
      minus ALL_FIELDS (["predecessors"; "resumable"; "open_deadline_s"; "declared_branches"; "branch_ids";
                         "terminal"; "seal"; "manifest"; "id_basis"] ++ ROOT_FIELDS ++ ["identity"])
  | segment_seal =>
      ["run_id"; "scope_id"; "segment_id"; "resumable"; "terminal"; "seal"; "manifest_seq"; "event_id"]
  | final | periodic => ["manifest_seq"; "event_id"]
  | manifest_kind => ["manifest"; "event_id"]
  end.

(** [_SPAN_KEYS], [_SEAL_KEYS] *)
Definition SPAN_KEYS : list (string * string) :=
  [("run_id", "fabric.run.id"); ("scope_id", "fabric.run.scope_id");
   ("segment_id", "fabric.run.segment_id"); ("predecessors", "fabric.run.predecessors");
   ("resumable", "fabric.run.resumable"); ("open_deadline_s", "fabric.run.open_deadline_s");
   ("declared_branches", "fabric.run.declared_branches"); ("branch_ids", "fabric.run.branch_ids");
   ("terminal", "fabric.run.terminal"); ("manifest_id", "fabric.capture.manifest_id");
   ("manifest_digest", "fabric.capture.manifest_digest"); ("manifest_seq", "fabric.capture.manifest_seq");
   ("scope_status", "fabric.run.scope_status"); ("outcome", "fabric.run.outcome");
   ("stop_reason", "fabric.run.stop_reason"); ("session_id", "fabric.session_id");
   ("user_id", "fabric.user_id"); ("parent_run_id", "fabric.run.parent_id");
   ("resumed_from", "fabric.run.resumed_from"); ("links", "fabric.run.links");
   ("id_basis", "fabric.run.id_basis"); ("event_id", "fabric.event_id")].
Definition SEAL_KEYS : list (string * string) :=
  [("last_sequence", "fabric.segment.last_sequence"); ("manifest_digest", "fabric.segment.manifest_digest");
   ("seal_digest", "fabric.segment.seal_digest"); ("branch_ids", "fabric.segment.branch_ids")].

Definition SPAN_HEARTBEAT : string := "fabric.capture_heartbeat".
Definition SPAN_MANIFEST : string := "fabric.capture_manifest".

(** ** Writing *)

(** A tuple as a value, [None] when it is empty. *)
Definition strings_value (l : list string) : option json :=
  match l with [] => None | _ => Some (JArr (JStr <$> l)) end.

(** The value of a marker's attribute, [None] for [None] and for an empty tuple. *)
Definition field_value (r : MarkerRecord) (name : string) : option json :=
  let m := mr_marker r in
  let named (s : string) := bool_decide (name = s) in
  if named "run_id" then JStr <$> m_run_id m
  else if named "scope_id" then JStr <$> m_scope_id m
  else if named "segment_id" then JStr <$> m_segment_id m
  else if named "predecessors" then strings_value (m_predecessors m)
  else if named "resumable" then JBool <$> m_resumable m
  else if named "open_deadline_s" then JInt <$> m_open_deadline_s m
  else if named "declared_branches" then strings_value (m_declared_branches m)
  else if named "branch_ids" then strings_value (m_branch_ids m)
  else if named "terminal" then JBool <$> m_terminal m
  else if named "manifest_id" then JStr <$> m_manifest_id m
  else if named "manifest_digest" then JStr <$> m_manifest_digest m
  else if named "manifest_seq" then JInt <$> mr_manifest_seq r
  else if named "scope_status" then (λ s, JStr (scope_text s)) <$> m_scope_status m
  else if named "outcome" then (λ o, JStr (outcome_text o)) <$> m_outcome m
  else if named "session_id" then JStr <$> m_session_id m
  else if named "user_id" then JStr <$> m_user_id m
  else if named "parent_run_id" then JStr <$> m_parent_run_id m
  else if named "resumed_from" then JStr <$> m_resumed_from m
  else if named "links" then strings_value (m_links m)
  else if named "id_basis" then (λ b, JStr (basis_text b)) <$> m_id_basis m
  else if named "stop_reason" then (λ s, JStr (stop_text s)) <$> m_stop_reason m
  else None.

Definition seal_value (seal : SealInfo) : list (string * json) :=
  [("last_sequence", JInt (si_last_sequence seal)); ("seal_digest", JStr (si_seal_digest seal))]
  ++ match si_manifest_digest seal with Some d => [("manifest_digest", JStr d)] | None => [] end
  ++ match strings_value (si_branch_ids seal) with Some v => [("branch_ids", v)] | None => [] end.

(** The names [marker_fields] writes by [getattr]. *)
Definition plain_names (k : MarkerKind) : list string :=
  sort_str (minus (MARKER_FIELDS k) ["seal"; "manifest"; "identity"; "event_id"]).

(** Whether the marker's kind carries a field. *)
Definition carries (r : MarkerRecord) (name : string) : bool :=
  bool_decide (name ∈ MARKER_FIELDS (m_kind (mr_marker r))).

(** The parts of the object after the plain fields. *)
Definition identity_part (r : MarkerRecord) : list (string * json) :=
  match mr_identity r with
  | Some (p :: d) => if carries r "identity" then [("identity", JObj (prod_map id JStr <$> p :: d))] else []
  | _ => []
  end.
Definition seal_part (r : MarkerRecord) : list (string * json) :=
  match m_seal (mr_marker r) with
  | Some seal => if carries r "seal" then [("seal", JObj (seal_value seal))] else []
  | None => []
  end.
Definition manifest_part (r : MarkerRecord) : list (string * json) :=
  match m_manifest (mr_marker r) with
  | Some d => if carries r "manifest" then [("manifest", JObj d)] else []
  | None => []
  end.

(** A manifest marker's event id is the manifest's own. *)
Definition written_event_id (r : MarkerRecord) : string :=
  match m_manifest (mr_marker r) with
  | Some d => if carries r "manifest"
              then match dget "fabric.event_id" d with Some (JStr own) => own | _ => mr_event_id r end
              else mr_event_id r
  | None => mr_event_id r
  end.

(** [marker_fields] *)
Definition marker_fields (r : MarkerRecord) : list (string * json) :=
  let m := mr_marker r in
  [("kind", JStr (kind_text (m_kind m))); ("last_sequence", JInt (m_last_sequence m))]
  ++ omap (λ name, pair name <$> field_value r name) (plain_names (m_kind m))
  ++ identity_part r ++ seal_part r ++ manifest_part r
  ++ [("event_id", JStr (written_event_id r))].

(** ** Exporting *)

(** [fields.get(name)], [None] for [null]. *)
Definition get_value (name : string) (fields : list (string * json)) : option json :=
  match dget name fields with Some JNull | None => None | Some v => Some v end.

Definition kind_of_text (s : string) : option MarkerKind :=
  list_find (λ k, kind_text k = s) [periodic; run_start; run_end; final; segment_seal; manifest_kind]
    ≫= λ p, Some p.2.

(** [for name, key in keys.items(): if value is not None: attrs\[key\] = value] *)
Definition export (keys : list (string * string)) (allowed : string → bool) (fields : list (string * json))
    (attrs : list (string * json)) : list (string * json) :=
  foldl (λ attrs p, match (if allowed p.1 then get_value p.1 fields else None) with
                    | Some v => dset p.2 v attrs | None => attrs end) attrs keys.

(** [marker_span] *)
Definition marker_span (source_id : string) (epoch : Z) (fields : list (string * json))
    : result (string * list (string * json)) :=
  match dget "kind" fields with
  | None => Raise KeyError
  | Some kind =>
      if decide (kind = JStr "manifest") then
        match dget "manifest" fields with
        | Some (JObj attrs) =>
            let attrs := match dget "event_id" fields with
                         | Some e => dsetdefault "fabric.event_id" e attrs | None => attrs end in
            Ok (SPAN_MANIFEST, dsetdefault "fabric.source.epoch" (JInt epoch)
                                 (dsetdefault "fabric.source_id" (JStr source_id) attrs))
        | Some _ => Raise AttributeError
        | None => Raise KeyError
        end
      else if match kind with JArr _ | JObj _ => true | _ => false end then Raise TypeError
      else
        let known := match kind with JStr s => kind_of_text s | _ => None end in
        let allowed (name : string) :=
          match known with Some k => bool_decide (name ∈ MARKER_FIELDS k) | None => false end in
        match dget "last_sequence" fields with
        | None => Raise KeyError
        | Some last =>
            let attrs := export SPAN_KEYS allowed fields
                 [("fabric.source_id", JStr source_id); ("fabric.source.epoch", JInt epoch);
                  ("fabric.heartbeat.last_sequence", last); ("fabric.heartbeat.kind", kind)] in
            let attrs := match dget "seal" fields with
                         | Some (JObj seal) => if allowed "seal" then export SEAL_KEYS (λ _, true) seal attrs
                                               else attrs
                         | _ => attrs end in
            Ok (SPAN_HEARTBEAT, match dget "identity" fields with
                                | Some (JObj identity) =>
                                    if allowed "identity"
                                    then foldl (λ a p, dset ("fabric." +:+ p.1) p.2 a) attrs identity else attrs
                                | _ => attrs end)
        end
  end.

(** ** What is read back *)

Lemma dget_omap_pair (f : string → option json) names name :
  dget name (omap (λ n, pair n <$> f n) names) = if decide (name ∈ names) then f name else None.
Proof.
  induction names as [|n names IH]; csimpl; [done|].
  destruct (decide (name = n)) as [->|Hne].
  - rewrite decide_True by constructor. destruct (f n) as [v|] eqn:E; csimpl; [by rewrite decide_True|].
    rewrite IH. by case_decide.
  - assert (name ∈ n :: names ↔ name ∈ names) as Hin by set_solver.
    rewrite (decide_ext _ _ _ _ Hin), <-IH. destruct (f n); csimpl; [|done]. by rewrite decide_False.
Qed.

Lemma field_value_not_null r name : field_value r name ≠ Some JNull.
Proof.
  assert (∀ l, strings_value l ≠ Some JNull) as Hs by (intros []; done).
  assert (∀ A (o : option A) (f : A → json), (∀ a, f a ≠ JNull) → f <$> o ≠ Some JNull) as Ho.
  { intros A [a|] f Hf; [|done]. intros [= E]. by apply (Hf a). }
  unfold field_value. repeat case_match; try apply Hs; try apply Ho; done.
Qed.

Lemma get_value_of name fields : dget name fields ≠ Some JNull → get_value name fields = dget name fields.
Proof. unfold get_value. by destruct (dget name fields) as [[]|]. Qed.

Lemma plain_names_elem k name : name ∈ plain_names k ↔
  name ∈ MARKER_FIELDS k ∧ name ∉ ["seal"; "manifest"; "identity"; "event_id"].
Proof.
  unfold plain_names, sort_str, minus. rewrite elem_of_py_sort, list_elem_of_filter. tauto.
Qed.

(** The names with a place of their own in the object. *)
Definition placed (name : string) : Prop :=
  name ∈ ["kind"; "last_sequence"; "seal"; "manifest"; "identity"; "event_id"].

Lemma part_cases r :
  (identity_part r = [] ∨ ∃ v, identity_part r = [("identity", v)]) ∧
  (seal_part r = [] ∨ ∃ v, seal_part r = [("seal", v)]) ∧
  (manifest_part r = [] ∨ ∃ v, manifest_part r = [("manifest", v)]).
Proof.
  unfold identity_part, seal_part, manifest_part.
  split_and!; repeat case_match; try (by left); right; by eexists.
Qed.

Lemma fields_plain r name : ¬ placed name →
  dget name (marker_fields r) =
    if decide (name ∈ MARKER_FIELDS (m_kind (mr_marker r))) then field_value r name else None.
Proof.
  intros Hn. assert (∀ s, s ∈ ["kind"; "last_sequence"; "seal"; "manifest"; "identity"; "event_id"] → name ≠ s)
    as Hne by (intros s Hs ->; done).
  unfold marker_fields. rewrite !dget_app, dget_omap_pair. simpl.
  rewrite !(decide_False (P := name = _)) by (apply Hne; set_solver).
  assert (name ∈ plain_names (m_kind (mr_marker r)) ↔ name ∈ MARKER_FIELDS (m_kind (mr_marker r))) as Hp.
  { rewrite plain_names_elem. split; [tauto|]. intros ?. split; [done|]. intros ?. apply Hn. unfold placed. set_solver. }
  rewrite (decide_ext _ _ _ _ Hp). destruct (if decide _ then _ else _) eqn:E; [done|].
  destruct (part_cases r) as ([->|[? ->]] & [->|[? ->]] & [->|[? ->]]); simpl;
    by rewrite ?(decide_False (P := name = _)) by (apply Hne; set_solver).
Qed.

Lemma dget_plain_names r name : placed name → name ≠ "kind" → name ≠ "last_sequence" →
  dget name (omap (λ n, pair n <$> field_value r n) (plain_names (m_kind (mr_marker r)))) = None.
Proof.
  intros Hp Hk Hl. rewrite dget_omap_pair. case_decide as H; [|done].
  apply plain_names_elem in H as [_ H]. exfalso. unfold placed in Hp. set_solver.
Qed.

Ltac placed_field :=
  unfold marker_fields; rewrite !dget_app; rewrite dget_plain_names by (done || unfold placed; set_solver).

Lemma fields_event r : dget "event_id" (marker_fields r) = Some (JStr (written_event_id r)).
Proof.
  placed_field. by destruct (part_cases r) as ([->|[? ->]] & [->|[? ->]] & [->|[? ->]]).
Qed.

Lemma fields_seal r : dget "seal" (marker_fields r) = dget "seal" (seal_part r).
Proof.
  placed_field. destruct (part_cases r) as ([->|[? ->]] & [->|[? ->]] & [->|[? ->]]); reflexivity.
Qed.

Lemma fields_identity r : dget "identity" (marker_fields r) = dget "identity" (identity_part r).
Proof.
  placed_field. destruct (part_cases r) as ([->|[? ->]] & [->|[? ->]] & [->|[? ->]]); reflexivity.
Qed.

Lemma fields_manifest r : dget "manifest" (marker_fields r) = dget "manifest" (manifest_part r).
Proof.
  placed_field. destruct (part_cases r) as ([->|[? ->]] & [->|[? ->]] & [->|[? ->]]); reflexivity.
Qed.

(** ** The exported attributes *)

Lemma kind_of_text_text k : kind_of_text (kind_text k) = Some k.
Proof. by destruct k. Qed.

Section export.
Context (allowed : string → bool) (fields : list (string * json)).

Definition exported (name : string) : option json := if allowed name then get_value name fields else None.

Lemma export_cons n k keys attrs : export ((n, k) :: keys) allowed fields attrs =
  export keys allowed fields (match exported n with Some v => dset k v attrs | None => attrs end).
Proof. done. Qed.

Lemma export_other keys attrs key : key ∉ keys.*2 → dget key (export keys allowed fields attrs) = dget key attrs.
Proof.
  revert attrs. induction keys as [|[n k] keys IH]; intros attrs Hk; [done|].
  apply not_elem_of_cons in Hk as [Hne Hk]. rewrite export_cons, IH by done.
  destruct (exported n); [|done]. by rewrite dget_dset_ne.
Qed.

Lemma export_get keys attrs name key : NoDup keys.*2 → (name, key) ∈ keys →
  dget key (export keys allowed fields attrs) =
    match exported name with Some v => Some v | None => dget key attrs end.
Proof.
  revert attrs. induction keys as [|[n k] keys IH]; intros attrs Hnd Hin; [by apply not_elem_of_nil in Hin|].
  rewrite export_cons. apply NoDup_cons in Hnd as [Hk Hnd]. apply elem_of_cons in Hin as [[= -> ->]|Hin].
  - rewrite export_other by done. destruct (exported n); [|done]. by rewrite dget_dset_eq.
  - rewrite IH by done. destruct (exported name); [done|]. destruct (exported n); [|done].
    rewrite dget_dset_ne; [done|]. intros ->. apply Hk, list_elem_of_fmap. by exists (name, k).
Qed.

Lemma export_keys keys attrs key :
  key ∈ (export keys allowed fields attrs).*1 → key ∈ attrs.*1 ∨ ∃ name, (name, key) ∈ keys ∧ is_Some (exported name).
Proof.
  revert attrs. induction keys as [|[n k] keys IH]; intros attrs Hk; [by left|].
  rewrite export_cons in Hk. destruct (IH _ Hk) as [H|(name & ? & ?)]; [|right; exists name; split; [by constructor|done]].
  destruct (exported n) as [v|] eqn:E; [|by left].
  apply elem_of_dset_keys in H as [->|?]; [right|by left]. exists n. split; [constructor|by exists v].
Qed.
End export.

Definition BASE_KEYS : list string :=
  ["fabric.source_id"; "fabric.source.epoch"; "fabric.heartbeat.last_sequence"; "fabric.heartbeat.kind"].

Lemma identity_other identity attrs key :
  (∀ name, name ∈ identity.*1 → key ≠ "fabric." +:+ name) →
  dget key (foldl (λ a p, dset ("fabric." +:+ p.1) p.2 a) attrs (identity : list (string * json))) = dget key attrs.
Proof.
  revert attrs. induction identity as [|[n v] l IH]; intros attrs H; csimpl; [done|].
  rewrite IH by (intros; apply H; by constructor). apply dget_dset_ne, H. constructor.
Qed.

Lemma identity_keys identity attrs key :
  key ∈ (foldl (λ a p, dset ("fabric." +:+ p.1) p.2 a) attrs (identity : list (string * json))).*1 →
  key ∈ attrs.*1 ∨ ∃ name, name ∈ identity.*1 ∧ key = "fabric." +:+ name.
Proof.
  revert attrs. induction identity as [|[n v] l IH]; intros attrs H; csimpl in *; [by left|].
  destruct (IH _ H) as [[->|?]%elem_of_dset_keys|(name & ? & ->)]; [right|by left|right].
  - exists n. split; [constructor|done].
  - exists name. split; [by constructor|done].
Qed.

Definition identity_of (r : MarkerRecord) : list (string * string) :=
  if carries r "identity" then default [] (mr_identity r) else [].

(** The attributes before the identity block is added, and all of them. *)
Definition base_attributes (source_id : string) (epoch : Z) (r : MarkerRecord) : list (string * json) :=
  [("fabric.source_id", JStr source_id); ("fabric.source.epoch", JInt epoch);
   ("fabric.heartbeat.last_sequence", JInt (m_last_sequence (mr_marker r)));
   ("fabric.heartbeat.kind", JStr (kind_text (m_kind (mr_marker r))))].
Definition field_attributes (source_id : string) (epoch : Z) (r : MarkerRecord) : list (string * json) :=
  export SPAN_KEYS (carries r) (marker_fields r) (base_attributes source_id epoch r).
Definition seal_attributes (source_id : string) (epoch : Z) (r : MarkerRecord) : list (string * json) :=
  match m_seal (mr_marker r) with
  | Some seal => if carries r "seal" then export SEAL_KEYS (λ _, true) (seal_value seal)
                                            (field_attributes source_id epoch r)
                 else field_attributes source_id epoch r
  | None => field_attributes source_id epoch r
  end.
Definition heartbeat_attributes (source_id : string) (epoch : Z) (r : MarkerRecord) : list (string * json) :=
  foldl (λ a p, dset ("fabric." +:+ p.1) p.2 a) (seal_attributes source_id epoch r)
    (prod_map id JStr <$> identity_of r).

Lemma seal_of r : dget "seal" (seal_part r) =
  if carries r "seal" then (λ seal, JObj (seal_value seal)) <$> m_seal (mr_marker r) else None.
Proof. unfold seal_part. by destruct (m_seal (mr_marker r)), (carries r "seal"). Qed.

Lemma identity_part_of r : dget "identity" (identity_part r) =
  match identity_of r with [] => None | d => Some (JObj (prod_map id JStr <$> d)) end.
Proof. unfold identity_part, identity_of. by destruct (mr_identity r) as [[|p d]|], (carries r "identity"). Qed.

Lemma identity_carried r p d : identity_of r = p :: d → carries r "identity" = true.
Proof. unfold identity_of. by destruct (carries r "identity"). Qed.

Lemma marker_span_heartbeat source_id epoch r :
  m_kind (mr_marker r) ≠ manifest_kind →
  marker_span source_id epoch (marker_fields r) = Ok (SPAN_HEARTBEAT, heartbeat_attributes source_id epoch r).
Proof.
  intros Hk. unfold marker_span. rewrite fields_seal, fields_identity, seal_of, identity_part_of.
  change (dget "kind" (marker_fields r)) with (Some (JStr (kind_text (m_kind (mr_marker r))))).
  change (dget "last_sequence" (marker_fields r)) with (Some (JInt (m_last_sequence (mr_marker r)))).
  cbv iota. rewrite decide_False by (destruct (m_kind (mr_marker r)); done).
  rewrite kind_of_text_text. unfold heartbeat_attributes, seal_attributes, field_attributes.
  fold (base_attributes source_id epoch r).
  cbv beta zeta. f_equal. f_equal. pose proof (identity_carried r) as Hc. unfold carries in *.
  generalize (export SPAN_KEYS (λ name, bool_decide (name ∈ MARKER_FIELDS (m_kind (mr_marker r))))
                (marker_fields r) (base_attributes source_id epoch r)).
  intros attrs.
  destruct (identity_of r) as [|p d]; [|rewrite (Hc p d eq_refl)];
    destruct (m_seal (mr_marker r)) as [seal|];
    destruct (bool_decide ("seal" ∈ MARKER_FIELDS (m_kind (mr_marker r)))); done.
Qed.

(** *** The tables do not overlap *)

Lemma span_keys_nodup : NoDup SPAN_KEYS.*2.
Proof. apply (bool_decide_unpack (NoDup SPAN_KEYS.*2)). vm_compute. exact I. Qed.

Lemma seal_keys_nodup : NoDup SEAL_KEYS.*2.
Proof. apply (bool_decide_unpack (NoDup SEAL_KEYS.*2)). vm_compute. exact I. Qed.

Lemma keys_disjoint : NoDup (BASE_KEYS ++ SPAN_KEYS.*2 ++ SEAL_KEYS.*2).
Proof. apply (bool_decide_unpack (NoDup _)). vm_compute. exact I. Qed.

Lemma span_name_plain name key : (name, key) ∈ SPAN_KEYS → name ≠ "event_id" → ¬ placed name.
Proof.
  assert (Forall (λ p, p.1 = "event_id" ∨ p.1 ∉ ["kind"; "last_sequence"; "seal"; "manifest"; "identity"; "event_id"])
    SPAN_KEYS) as H by (apply (bool_decide_unpack (Forall _ _)); vm_compute; exact I).
  rewrite Forall_forall in H. intros Hin Hne Hp. by destruct (H _ Hin).
Qed.

Lemma carries_event r : carries r "event_id" = true.
Proof. unfold carries. destruct (m_kind (mr_marker r)); vm_compute; reflexivity. Qed.

Lemma span_elem (name key : string) keys : (name, key) ∈ keys → key ∈ keys.*2.
Proof. intros H. apply list_elem_of_fmap. by exists (name, key). Qed.

Lemma span_known name key : (name, key) ∈ SPAN_KEYS → key ∈ BASE_KEYS ++ SPAN_KEYS.*2 ++ SEAL_KEYS.*2.
Proof. intros H%span_elem. apply elem_of_app. right. apply elem_of_app. by left. Qed.

Lemma seal_known name key : (name, key) ∈ SEAL_KEYS → key ∈ BASE_KEYS ++ SPAN_KEYS.*2 ++ SEAL_KEYS.*2.
Proof. intros H%span_elem. apply elem_of_app. right. apply elem_of_app. by right. Qed.

Lemma event_span : ("event_id", "fabric.event_id") ∈ SPAN_KEYS.
Proof. apply (bool_decide_unpack (_ ∈ SPAN_KEYS)). vm_compute. exact I. Qed.

Lemma field_attributes_get source_id epoch r name key : (name, key) ∈ SPAN_KEYS →
  dget key (field_attributes source_id epoch r) = exported (carries r) (marker_fields r) name.
Proof.
  intros Hin. unfold field_attributes. rewrite (export_get _ _ _ _ _ _ span_keys_nodup Hin).
  destruct (exported _ _ name); [done|]. apply dget_None. change (key ∉ BASE_KEYS). intros Hb.
  pose proof keys_disjoint as Hd. apply NoDup_app in Hd as (_ & Hd & _). apply (Hd key Hb).
  apply elem_of_app. left. by eapply span_elem.
Qed.

Lemma field_attributes_seal source_id epoch r name key : (name, key) ∈ SEAL_KEYS →
  dget key (field_attributes source_id epoch r) = None.
Proof.
  intros Hin%span_elem. pose proof keys_disjoint as Hd. apply NoDup_app in Hd as (_ & Hb & Hd).
  apply NoDup_app in Hd as (_ & Hd & _). unfold field_attributes. rewrite export_other.
  - apply dget_None. change (key ∉ BASE_KEYS). intros H. apply (Hb key H), elem_of_app. by right.
  - intros H. by apply (Hd key H).
Qed.

Lemma seal_attributes_span source_id epoch r name key : (name, key) ∈ SPAN_KEYS →
  dget key (seal_attributes source_id epoch r) = dget key (field_attributes source_id epoch r).
Proof.
  intros Hin%span_elem. pose proof keys_disjoint as Hd. apply NoDup_app in Hd as (_ & _ & Hd).
  apply NoDup_app in Hd as (_ & Hd & _). unfold seal_attributes.
  destruct (m_seal (mr_marker r)); [|done]. destruct (carries r "seal"); [|done].
  apply export_other. by apply Hd.
Qed.

Lemma seal_value_not_null seal name : dget name (seal_value seal) ≠ Some JNull.
Proof.
  intros H%dget_Some_elem. unfold seal_value in H.
  assert (Forall (λ p, p.2 ≠ JNull) (seal_value seal)) as Hf.
  { unfold seal_value. destruct (si_manifest_digest seal), (si_branch_ids seal); repeat constructor; done. }
  rewrite Forall_forall in Hf. by apply (Hf _ H).
Qed.

Lemma ok_seal m : marker_ok m = true → is_Some (m_seal m) ↔ m_kind m = segment_seal.
Proof.
  unfold marker_ok. rewrite !andb_true_iff. intros H.
  destruct H as [[[[[[[[H _] _] _] _] _] _] _] _]. apply bool_decide_eq_true in H.
  destruct (m_seal m); simpl in H; symmetry in H.
  - apply bool_decide_eq_true in H. split; [done|by eexists].
  - apply bool_decide_eq_false in H. split; [by intros []|done].
Qed.

Lemma ok_manifest m : marker_ok m = true → m_kind m ≠ manifest_kind → m_manifest m = None.
Proof.
  unfold marker_ok. rewrite !andb_true_iff. intros H Hk.
  destruct H as [[[[[[[[_ H] _] _] _] _] _] _] _]. apply bool_decide_eq_true in H.
  destruct (m_manifest m); [|done]. simpl in H. symmetry in H. by apply bool_decide_eq_true in H.
Qed.

(** ** The property *)

(** What is exported for a marker that is no manifest is the marker. Every span attribute
    of its kind holds the field it stands for and is absent when the marker has none, the
    event id is the one minted with the marker, and nothing else is exported but the
    position, the seal of a [segment_seal] and the identity block of a [run_start]. *)
Theorem marker_export_exact (source_id : string) (epoch : Z) (r : MarkerRecord)
    (Hok : marker_ok (mr_marker r) = true) (Hkind : m_kind (mr_marker r) ≠ manifest_kind)
    (Hid : ∀ name, name ∈ (identity_of r).*1 → "fabric." +:+ name ∉ BASE_KEYS ++ SPAN_KEYS.*2 ++ SEAL_KEYS.*2) :
  ∃ attrs, marker_span source_id epoch (marker_fields r) = Ok (SPAN_HEARTBEAT, attrs) ∧
    (∀ name key, (name, key) ∈ SPAN_KEYS → name ≠ "event_id" →
       dget key attrs = if carries r name then field_value r name else None) ∧
    dget "fabric.event_id" attrs = Some (JStr (mr_event_id r)) ∧
    (∀ name key, (name, key) ∈ SEAL_KEYS →
       dget key attrs = m_seal (mr_marker r) ≫= λ seal, dget name (seal_value seal)) ∧
    (∀ key, key ∈ attrs.*1 → key ∈ BASE_KEYS ∨ (∃ name, (name, key) ∈ SPAN_KEYS ∧ carries r name = true) ∨
       (m_kind (mr_marker r) = segment_seal ∧ key ∈ SEAL_KEYS.*2) ∨
       ∃ name, name ∈ (identity_of r).*1 ∧ key = "fabric." +:+ name).
Proof.
  exists (heartbeat_attributes source_id epoch r). split; [by apply marker_span_heartbeat|].
  assert (∀ key, key ∈ BASE_KEYS ++ SPAN_KEYS.*2 ++ SEAL_KEYS.*2 →
    dget key (heartbeat_attributes source_id epoch r) = dget key (seal_attributes source_id epoch r)) as Hkey.
  { intros key Hin. unfold heartbeat_attributes. apply identity_other. rewrite <-list_fmap_compose. intros name Hname ->.
    by apply (Hid name). }
  assert (∀ name key, (name, key) ∈ SPAN_KEYS → dget key (heartbeat_attributes source_id epoch r) =
    exported (carries r) (marker_fields r) name) as Hspan.
  { intros name key Hin. rewrite Hkey by (by eapply span_known).
    by rewrite (seal_attributes_span _ _ _ name), (field_attributes_get _ _ _ name). }
  split_and!.
  - intros name key Hin Hne. rewrite (Hspan name) by done. unfold exported. destruct (carries r name) eqn:Hc; [|done].
    unfold carries in Hc. apply bool_decide_eq_true in Hc.
    pose proof (fields_plain r name (span_name_plain _ _ Hin Hne)) as Hf. rewrite decide_True in Hf by done.
    rewrite get_value_of; rewrite Hf; [done|apply field_value_not_null].
  - rewrite (Hspan "event_id") by exact event_span. unfold exported. rewrite carries_event. unfold get_value.
    rewrite fields_event. unfold written_event_id. by rewrite ok_manifest.
  - intros name key Hin. rewrite Hkey by (by eapply seal_known). unfold seal_attributes.
    destruct (m_seal (mr_marker r)) as [seal|] eqn:Es; [|by apply (field_attributes_seal _ _ _ name)].
    assert (carries r "seal" = true) as ->.
    { assert (m_kind (mr_marker r) = segment_seal) as Hk by (apply ok_seal; [done|by eexists]).
      unfold carries. rewrite Hk. by vm_compute. }
    rewrite (export_get _ _ _ _ _ _ seal_keys_nodup Hin), (field_attributes_seal _ _ _ name) by done.
    unfold exported. rewrite get_value_of by apply seal_value_not_null. change (Some seal ≫= λ s, dget name (seal_value s)) with (dget name (seal_value seal)).
    by destruct (dget name (seal_value seal)).
  - intros key Hin. unfold heartbeat_attributes in Hin. apply identity_keys in Hin as [Hin|(name & Hname & ->)];
      [|do 3 right; exists name; by rewrite <-list_fmap_compose in Hname].
    assert (key ∈ (field_attributes source_id epoch r).*1 → key ∈ BASE_KEYS ∨
      ∃ name, (name, key) ∈ SPAN_KEYS ∧ carries r name = true) as Hfa.
    { unfold field_attributes. intros [?|(name & ? & [v E])]%export_keys; [by left|right]. exists name. unfold exported in E.
      by destruct (carries r name). }
    unfold seal_attributes in Hin. destruct (m_seal (mr_marker r)) as [seal|] eqn:Es; [|destruct (Hfa Hin) as [?|?]; [by left|by right; left]].
    destruct (carries r "seal"); [|destruct (Hfa Hin) as [?|?]; [by left|by right; left]].
    apply export_keys in Hin as [Hin|(name & Hin & _)]; [by destruct (Hfa Hin); auto|].
    do 2 right. left. split; [|by eapply span_elem]. apply ok_seal; [done|by eexists].
Qed.

Definition demo_record : MarkerRecord :=
  mk_marker_record
    (mk_marker segment_seal "agent.1" 5 9 (Some "r") None (Some "seg-00000000000000000000000000000001") [] (Some false)
       None [] [] (Some true) (Some (mk_seal_info 9 None "sha256:aa" ["br-00000000000000000000000000000002"]))
       None None None None None None None None [] None None None)
    (Some 3) None "5f0c2a52-0000-4000-8000-000000000000".

Lemma marker_export_exact_witness :
  ∃ attrs, marker_span "agent.1" 5 (marker_fields demo_record) = Ok (SPAN_HEARTBEAT, attrs) ∧
    dget "fabric.run.terminal" attrs = Some (JBool true) ∧
    dget "fabric.segment.seal_digest" attrs = Some (JStr "sha256:aa") ∧
    dget "fabric.event_id" attrs = Some (JStr "5f0c2a52-0000-4000-8000-000000000000").
Proof.
  destruct (marker_export_exact "agent.1" 5 demo_record) as (attrs & E & _ & He & _).
  - vm_compute. reflexivity.
  - discriminate.
  - intros name H. apply (not_elem_of_nil name) in H. destruct H.
  - exists attrs. split; [exact E|]. assert (E' := E). vm_compute in E'. injection E' as <-.
    split; [vm_compute; reflexivity|]. split; [vm_compute; reflexivity|exact He].
Qed.
