(* ===== verification/LossTable.v ===== *)
(** * The loss table

    [LossEmitter] of [fabric/_loss.py] (specs 047 section 6 and 050 section 3.5): positions
    lost before they reach the record are coalesced into ranges, one table entry for each
    source, epoch, reason and segment, and typed markers wait in a bounded queue. Every
    operation here is one critical section of the emitter's lock; [take] hands the table and
    the queue to whoever drains them. Threads, providers and exporting are not modelled: a
    wake-up changes nothing here. *)

From S2P Require Import Prelude PyDict Hash Json Ids Tokens Markers SealDigest.

(** ** Loss keys and ranges *)

Inductive LossReason :=
  | queue_full | internal_error | shutdown | span_dropped | uninstrumented_client | disk_full.

#[export] Instance LossReason_eq_dec : EqDecision LossReason.
Proof. solve_decision. Defined.

Definition reason_text (r : LossReason) : string :=
  match r with
  | queue_full => "queue_full" | internal_error => "internal_error" | shutdown => "shutdown"
  | span_dropped => "span_dropped" | uninstrumented_client => "uninstrumented_client"
  | disk_full => "disk_full"
  end.

Record LossKey := mk_loss_key {
  lk_source : string; lk_epoch : Z; lk_reason : LossReason; lk_segment : option string }.

#[export] Instance LossKey_eq_dec : EqDecision LossKey.
Proof. solve_decision. Defined.

(** A key as it is given: a segment may follow the reason. *)
Definition RawKey : Type := string * Z * LossReason * list (option string).

(** [loss_key] *)
Definition loss_key (k : RawKey) : LossKey :=
  let '(source, epoch, reason, rest) := k in
  mk_loss_key source epoch reason (match rest with [] => None | segment :: _ => segment end).

(** [(first, last, count)] *)
Record LossRange := mk_range { lr_first : Z; lr_last : Z; lr_count : Z }.

#[export] Instance LossRange_eq_dec : EqDecision LossRange.
Proof. solve_decision. Defined.

(** The order of tuples. *)
Definition range_leb (a b : LossRange) : bool :=
  if negb (lr_first a =? lr_first b) then lr_first a <? lr_first b
  else if negb (lr_last a =? lr_last b) then lr_last a <? lr_last b
  else lr_count a <=? lr_count b.

(** [loss_attributes], with the names of the attributes. *)
Definition loss_attributes (loss : RawKey * LossRange) : list (string * json) :=
  let key := loss_key loss.1 in
  let r := loss.2 in
  [("fabric.source_id", JStr (lk_source key)); ("fabric.source.epoch", JInt (lk_epoch key));
   ("fabric.loss.reason", JStr (reason_text (lk_reason key)));
   ("fabric.loss.count", JInt (Z.min (lr_count r) (lr_last r - lr_first r + 1)));
   ("fabric.loss.first_sequence", JInt (lr_first r)); ("fabric.loss.last_sequence", JInt (lr_last r))]
  ++ match lk_segment key with Some s => [("fabric.run.segment_id", JStr s)] | None => [] end.

(** ** The emitter *)

Definition MAX_PENDING_RANGES : Z := 1024.
Definition MAX_QUEUED_MARKERS : Z := 16384.
Definition MAX_QUEUED_MARKER_BYTES : Z := 16 * 1024 * 1024.
Definition MARKER_BYTES : Z := 768.
Definition ITEM_BYTES : Z := 128.

(** What the emitter's lock guards; [le_sources] holds the allocators that can beat, by their
    source, with whether they were active since the last periodic beat. *)
Record Emitter := mk_emitter {
  le_pending : list (LossKey * list LossRange);
  le_ranges : Z;
  le_beats : list Marker;
  le_beat_bytes : Z;
  le_sources : list (string * bool);
  le_dropped : Z;
  le_recorded : Z;
  le_internal_errors : Z;
}.

(** [_init_state]: also what a forked child starts from. *)
Definition new_emitter : Emitter := mk_emitter [] 0 [] 0 [] 0 0 0.

Definition set_table (pending : list (LossKey * list LossRange)) (ranges : Z) (s : Emitter) : Emitter :=
  mk_emitter pending ranges (le_beats s) (le_beat_bytes s) (le_sources s) (le_dropped s)
    (le_recorded s) (le_internal_errors s).
Definition set_sources (sources : list (string * bool)) (s : Emitter) : Emitter :=
  mk_emitter (le_pending s) (le_ranges s) (le_beats s) (le_beat_bytes s) sources (le_dropped s)
    (le_recorded s) (le_internal_errors s).

(** ** Losses *)

(** One range of [_merge_exact]'s loop: it joins the new range or is kept. *)
Definition absorb (st : LossRange * list LossRange) (r : LossRange) : LossRange * list LossRange :=
  let '(m, kept) := st in
  if (lr_first r <=? lr_last m + 1) && (lr_first m <=? lr_last r + 1)
  then (mk_range (Z.min (lr_first m) (lr_first r)) (Z.max (lr_last m) (lr_last r))
          (lr_count m + lr_count r), kept)
  else (m, kept ++ [r]).

(** [_merge_exact]: the ranges and the table's count, or [None] past the cap. *)
Definition merge_exact (ranges : Z) (rs : list LossRange) (new : LossRange)
    : option (list LossRange * Z) :=
  let '(m, kept) := foldl absorb (new, []) rs in
  if (length rs <? length kept + 1)%nat && (MAX_PENDING_RANGES <=? ranges) then None
  else Some (py_sort range_leb (kept ++ [m]),
             ranges + Z.of_nat (length kept) + 1 - Z.of_nat (length rs)).

(** [retain]: whether the range is in the table now. An error is counted. *)
Definition retain (loss : RawKey * LossRange) (s : Emitter) : Emitter * bool :=
  let key := loss_key loss.1 in
  let r := loss.2 in
  match dget key (le_pending s) with
  | None =>
      if MAX_PENDING_RANGES <=? le_ranges s then (s, false)
      else (set_table (dset key [r] (le_pending s)) (le_ranges s + 1) s, true)
  | Some rs =>
      match lk_segment key with
      | None =>
          match rs with
          | [] => (mk_emitter (le_pending s) (le_ranges s) (le_beats s) (le_beat_bytes s)
                     (le_sources s) (le_dropped s) (le_recorded s) (le_internal_errors s + 1), false)
          | m :: rest =>
              (set_table (dset key (mk_range (Z.min (lr_first m) (lr_first r))
                            (Z.max (lr_last m) (lr_last r)) (lr_count m + lr_count r) :: rest)
                          (le_pending s)) (le_ranges s) s, true)
          end
      | Some _ =>
          match merge_exact (le_ranges s) rs r with
          | None => (s, false)
          | Some (rs, ranges) => (set_table (dset key rs (le_pending s)) ranges s, true)
          end
      end
  end.

(** [record]: also the settle call, with the segment, the position and the seal's entry. *)
Definition record (source : string) (epoch : Z) (reason : LossReason) (sequence : Z)
    (segment : option string) (s : Emitter) : Emitter * bool * (option string * Z * string) :=
  let s := mk_emitter (le_pending s) (le_ranges s) (le_beats s) (le_beat_bytes s) (le_sources s)
             (le_dropped s) (le_recorded s + 1) (le_internal_errors s) in
  (retain ((source, epoch, reason, [segment]), mk_range sequence sequence 1) s,
   (segment, sequence, loss_entry (reason_text reason))).

Definition has_pending_losses (s : Emitter) : bool := negb (bool_decide (le_pending s = [])).

(** ** Markers *)

(** [marker_bytes] *)
Definition marker_bytes (m : Marker) : Z :=
  MARKER_BYTES + ITEM_BYTES * Z.of_nat
    (length (m_predecessors m) + length (m_declared_branches m) + length (m_branch_ids m)
     + length (m_links m) + match m_manifest m with Some d => length d | None => O end
     + match m_seal m with Some seal => S (length (si_branch_ids seal)) | None => O end).

(** [_queue]: whether the marker was queued. *)
Definition queue (m : Marker) (s : Emitter) : Emitter * bool :=
  let size := marker_bytes m in
  if (Z.of_nat (length (le_beats s)) <? MAX_QUEUED_MARKERS)
     && (le_beat_bytes s + size <=? MAX_QUEUED_MARKER_BYTES)
  then (mk_emitter (le_pending s) (le_ranges s) (le_beats s ++ [m]) (le_beat_bytes s + size)
          (le_sources s) (le_dropped s) (le_recorded s) (le_internal_errors s), true)
  else (mk_emitter (le_pending s) (le_ranges s) (le_beats s) (le_beat_bytes s) (le_sources s)
          (le_dropped s + 1) (le_recorded s) (le_internal_errors s), false).

(** A marker with only a position, and the scope of a run marker. *)
Definition beat_marker (kind : MarkerKind) (source : string) (at_ : Z * Z)
    (scope : option (option string * option string)) : Marker :=
  mk_marker kind source at_.1 at_.2
    (match scope with Some s => s.1 | None => None end)
    (match scope with Some s => s.2 | None => None end)
    None [] None None [] [] None None None None None None None None None None [] None None None.

(** [heartbeat]: [at_] is the position the allocator gave, which opened or closed the scope
    of a run marker. *)
Definition heartbeat (source : string) (kind : MarkerKind) (at_ : Z * Z)
    (scope : option (option string * option string)) (s : Emitter) : result (Emitter * bool) :=
  if negb (bool_decide (kind ∈ periodic :: RUN_MARKERS))
     || bool_decide (is_Some scope ↔ kind ∉ RUN_MARKERS)
  then Raise ValueError
  else Ok (queue (beat_marker kind source at_ scope) (set_sources (dset source true (le_sources s)) s)).

(** [final]: [at_] is the epoch the allocator sealed and its last position. *)
Definition final_beat (source : string) (at_ : Z * Z) (s : Emitter) : Emitter * bool :=
  queue (beat_marker final source at_ None) (set_sources (ddel source (le_sources s)) s).

Definition note_activity (source : string) (s : Emitter) : Emitter :=
  set_sources (dset source true (le_sources s)) s.

(** [queue_beat]: a legacy beat is converted, and one without a marker form is ignored. *)
Definition queue_beat (beat : Marker + Beat) (s : Emitter) : Emitter * bool :=
  match beat with
  | inl m => queue m s
  | inr b => match from_beat b with Ok m => queue m s | Raise _ => (s, false) end
  end.

(** ** Draining *)

(** [take]: the pending ranges and the queued markers, then a periodic beat of each source
    that is due ([position] is what its allocator answers, [None] when it raises), then the
    markers of the other beat sources. *)
Definition take (periodic_due every_source : bool) (position : string → option (Z * Z))
    (others : list (option (list Marker))) (s : Emitter)
    : Emitter * list (LossKey * LossRange) * list Marker :=
  let due := (filter (λ p, every_source || (periodic_due && p.2) = true) (le_sources s)).*1 in
  (mk_emitter [] 0 [] 0 (foldl (λ d a, dset a false d) (le_sources s) due) (le_dropped s)
     (le_recorded s) (le_internal_errors s),
   le_pending s ≫= λ p, (λ r, (p.1, r)) <$> p.2,
   le_beats s
   ++ omap (λ a, (λ at_, beat_marker periodic a at_ None) <$> position a) due
   ++ (others ≫= default [])).

(** ** Exact ranges *)

(** [b] lies after [a] and does not touch it. *)
Definition before (a b : LossRange) : Prop := lr_last a + 1 < lr_first b.
Definition real (r : LossRange) : Prop := lr_first r ≤ lr_last r.
Definition covers (rs : list LossRange) (p : Z) : Prop :=
  ∃ r, r ∈ rs ∧ lr_first r ≤ p ≤ lr_last r.
Definition exact (r : LossRange) : Prop := lr_count r = lr_last r - lr_first r + 1.
Definition apart (a b : LossRange) : Prop := lr_last a < lr_first b ∨ lr_last b < lr_first a.
Definition total (rs : list LossRange) : Z := foldr (λ r n, lr_count r + n) 0 rs.

(** The form of a segment's ranges: in order, and no two of them touch. *)
Definition separated (rs : list LossRange) : Prop := StronglySorted before rs ∧ Forall real rs.

Lemma covers_app l k p : covers (l ++ k) p ↔ covers l p ∨ covers k p.
Proof. unfold covers. set_solver. Qed.

Lemma covers_perm l k p : l ≡ₚ k → covers l p ↔ covers k p.
Proof. intros H. unfold covers. by setoid_rewrite H. Qed.

Lemma covers_one r p : covers [r] p ↔ lr_first r ≤ p ≤ lr_last r.
Proof. unfold covers. set_solver. Qed.

Lemma loss_total_app l k : total (l ++ k) = total l + total k.
Proof. unfold total. induction l as [|r l IH]; simpl; [done|]. rewrite IH. lia. Qed.

Lemma loss_total_perm l k : l ≡ₚ k → total l = total k.
Proof. unfold total. induction 1; simpl; lia. Qed.

(** What the loop has made of the ranges it has seen. *)
Record absorbed (new : LossRange) (seen : list LossRange) (m : LossRange) (kept : list LossRange)
    : Prop := {
  a_real : real m;
  a_kept : Forall real kept;
  a_apart : ∀ k, k ∈ kept → before k m ∨ before m k;
  a_covers : ∀ p, covers (kept ++ [m]) p ↔ covers seen p ∨ lr_first new ≤ p ≤ lr_last new;
  a_total : total kept + lr_count m = total seen + lr_count new;
  a_exact : exact new → Forall exact seen → Forall (apart new) seen → exact m ∧ Forall exact kept;
  a_future : ∀ r, real r → (∀ s, s ∈ seen → before s r) → apart new r → apart m r;
}.

Lemma absorb_step new seen m kept r :
  absorbed new seen m kept → real r → (∀ s, s ∈ seen → before s r) → (∀ k, k ∈ kept → before k r) →
  let '(m', kept') := absorb (m, kept) r in
  absorbed new (seen ++ [r]) m' kept' ∧
  (kept' = kept ∨ kept' = kept ++ [r]).
Proof.
  intros [] Hr Hs Hk. unfold absorb. unfold real, before, apart, exact in *.
  destruct ((lr_first r <=? lr_last m + 1) && (lr_first m <=? lr_last r + 1)) eqn:E.
  - apply andb_true_iff in E as [E1%Z.leb_le E2%Z.leb_le]. split; [|by left].
    split; unfold real, before, apart, exact in *; simpl.
    + lia.
    + done.
    + intros k Hkk. specialize (Hk k Hkk). rewrite Forall_forall in a_kept0.
      specialize (a_kept0 k Hkk). destruct (a_apart0 k Hkk); [left; lia|]. lia.
    + intros p. rewrite !covers_app, !covers_one in *. simpl.
      specialize (a_covers0 p). rewrite covers_app, covers_one in a_covers0.
      destruct (decide (lr_first m ≤ p ≤ lr_last m)), (decide (lr_first r ≤ p ≤ lr_last r)),
        (decide (Z.min (lr_first m) (lr_first r) ≤ p ≤ Z.max (lr_last m) (lr_last r))); try lia; tauto.
    + rewrite loss_total_app. simpl. lia.
    + intros Hn Hex Hap. apply Forall_app in Hex as [Hex Hr']. apply Forall_app in Hap as [Hap Hapr].
      destruct (a_exact0 Hn Hex Hap) as [Hm ?]. split; [|done].
      apply Forall_cons in Hr' as [Hr' _]. apply Forall_cons in Hapr as [Hapr _].
      destruct (a_future0 r Hr Hs Hapr); lia.
    + intros x Hxr Hx Hnx. assert (apart m x) as Hmx by (apply a_future0; [done|set_solver|done]).
      assert (lr_last r + 1 < lr_first x) by (apply Hx; set_solver). unfold apart in *. lia.
  - split; [|by right]. apply andb_false_iff in E. rewrite !Z.leb_gt in E.
    split; unfold real, before, apart, exact in *.
    + done.
    + apply Forall_app. split; [done|]. by apply Forall_singleton.
    + intros k [?| ->%list_elem_of_singleton]%elem_of_app; [auto|]. lia.
    + intros p. specialize (a_covers0 p). rewrite !covers_app, !covers_one in *. tauto.
    + rewrite !loss_total_app. simpl. lia.
    + intros Hn Hex Hap. apply Forall_app in Hex as [Hex Hr']. apply Forall_app in Hap as [Hap _].
      destruct (a_exact0 Hn Hex Hap) as [Hm ?]. split; [done|]. by apply Forall_app.
    + intros x Hxr Hx Hnx. apply a_future0; [done|set_solver|done].
Qed.

Lemma absorb_all new rest seen m kept :
  absorbed new seen m kept → separated (seen ++ rest) → (∀ k r, k ∈ kept → r ∈ rest → before k r) →
  StronglySorted before kept →
  let '(m', kept') := foldl absorb (m, kept) rest in
  absorbed new (seen ++ rest) m' kept' ∧ StronglySorted before kept' ∧
  (length kept' ≤ length kept + length rest)%nat.
Proof.
  revert seen m kept. induction rest as [|r rest IH]; intros seen m kept Ha Hs Hkr Hks.
  { simpl. rewrite app_nil_r. split_and!; [done..|lia]. }
  assert (separated ((seen ++ [r]) ++ rest)) as Hs' by by rewrite <-app_assoc.
  destruct Hs as [Hsorted Hreal]. apply StronglySorted_app_inv in Hsorted as (_ & Hr & Hsr).
  apply StronglySorted_inv in Hr as [_ Hrr]. rewrite Forall_forall in Hrr.
  assert (real r) as Hrl by (rewrite Forall_forall in Hreal; apply Hreal; set_solver).
  assert (∀ k, k ∈ kept → before k r) as Hkr' by (intros k ?; apply Hkr; set_solver).
  pose proof (absorb_step new seen m kept r Ha Hrl (λ s Hin, Hsr s r Hin (list_elem_of_here _ _)) Hkr') as Hstep.
  cbn [foldl]. destruct (absorb (m, kept) r) as [m1 kept1]. destruct Hstep as [Ha1 Hk1].
  assert (StronglySorted before kept1 ∧ (length kept1 ≤ S (length kept))%nat ∧
    ∀ k x, k ∈ kept1 → x ∈ rest → before k x) as (Hks1 & Hlen & Hkr1).
  { destruct Hk1 as [->| ->].
    - split_and!; [done|lia|]. intros k x ? ?. apply Hkr; set_solver.
    - rewrite length_app. simpl. split_and!; [|lia|].
      + by apply StronglySorted_snoc.
      + intros k x [?| ->%list_elem_of_singleton]%elem_of_app ?; [apply Hkr|apply Hrr]; set_solver. }
  specialize (IH (seen ++ [r]) m1 kept1 Ha1 Hs' Hkr1 Hks1).
  destruct (foldl absorb (m1, kept1) rest) as [m' kept']. destruct IH as (H1 & H2 & H3).
  rewrite <-app_assoc in H1. split_and!; [done..|]. simpl. lia.
Qed.

#[export] Instance range_leb_order : TotalPreorder range_leb.
Proof.
  split; unfold range_leb.
  - intros x y. destruct (Z.eqb_spec (lr_first x) (lr_first y)), (Z.eqb_spec (lr_first y) (lr_first x)),
      (Z.eqb_spec (lr_last x) (lr_last y)), (Z.eqb_spec (lr_last y) (lr_last x)); simpl;
      rewrite ?Z.ltb_lt, ?Z.leb_le; lia.
  - intros x y z. repeat match goal with |- context [Z.eqb ?a ?b] => destruct (Z.eqb_spec a b) end; simpl;
      rewrite ?Z.ltb_lt, ?Z.leb_le; lia.
Qed.

Lemma range_leb_first a b : range_leb a b = true → lr_first a ≤ lr_first b.
Proof.
  unfold range_leb. destruct (Z.eqb_spec (lr_first a) (lr_first b)); simpl; [lia|].
  intros ?%Z.ltb_lt. lia.
Qed.

(** Sorting ranges that pairwise do not touch. *)
Lemma sort_separated l :
  Forall real l → NoDup l → (∀ a b, a ∈ l → b ∈ l → a ≠ b → before a b ∨ before b a) →
  separated (py_sort range_leb l).
Proof.
  intros Hr Hnd Hp. split; [|by rewrite py_sort_Permutation].
  assert (∀ a b, a ∈ py_sort range_leb l → b ∈ py_sort range_leb l → a ≠ b → before a b ∨ before b a) as Hp'.
  { intros a b. rewrite !elem_of_py_sort. apply Hp. }
  assert (Forall real (py_sort range_leb l)) as Hr' by by rewrite py_sort_Permutation.
  apply (NoDup_py_sort range_leb) in Hnd. pose proof (py_sort_sorted range_leb l) as Hs.
  induction Hs as [|x k Hs IH Hx]; constructor.
  - apply IH; [by inv Hnd|intros a b ? ?; apply Hp'; by constructor|by inv Hr'].
  - rewrite Forall_forall in Hx, Hr' |- *. intros y Hy. unfold before, real in *.
    destruct (Hp' x y) as [?|H]; [constructor|by constructor|intros ->; inv Hnd; done|done|].
    specialize (Hx y Hy). apply range_leb_first in Hx.
    pose proof (Hr' y ltac:(by constructor)). pose proof (Hr' x ltac:(by constructor)). lia.
Qed.

Lemma separated_nodup rs : separated rs → NoDup rs.
Proof.
  intros [Hs Hr]. induction Hs as [|x l Hs IH Hx]; constructor; [|by apply IH; inv Hr].
  rewrite Forall_forall in Hx, Hr. intros Hin. specialize (Hx x Hin). specialize (Hr x ltac:(by constructor)).
  unfold before, real in *. lia.
Qed.

(** [_merge_exact] on a segment's ranges: they keep their form and cover one range more, and
    exact ranges of different positions stay exact. *)
Lemma merge_exact_spec n rs new rs' n' :
  separated rs → real new → merge_exact n rs new = Some (rs', n') →
  separated rs' ∧ rs' ≠ [] ∧ (∀ p, covers rs' p ↔ covers rs p ∨ lr_first new ≤ p ≤ lr_last new) ∧
  total rs' = total rs + lr_count new ∧ n' = n + Z.of_nat (length rs') - Z.of_nat (length rs) ∧
  (n < MAX_PENDING_RANGES ∨ (length rs' ≤ length rs)%nat) ∧ (length rs' ≤ S (length rs))%nat ∧
  (exact new → Forall exact rs → Forall (apart new) rs → Forall exact rs').
Proof.
  intros Hs Hn Hm. unfold merge_exact in Hm.
  assert (absorbed new [] new []) as H0.
  { split; [done|constructor|set_solver| | |by intros|by intros].
    - intros p. simpl. rewrite covers_one. unfold covers. set_solver.
    - done. }
  pose proof (absorb_all new rs [] new [] H0 Hs) as Ha.
  destruct (foldl absorb (new, []) rs) as [m kept].
  destruct Ha as (Ha & Hks & Hlen); [set_solver|constructor|]. simpl in Ha, Hlen. destruct Ha.
  destruct ((length rs <? length kept + 1)%nat && (MAX_PENDING_RANGES <=? n)) eqn:Hcap; [done|].
  injection Hm as <- <-. assert (py_sort range_leb (kept ++ [m]) ≡ₚ kept ++ [m]) as Hperm
    by apply py_sort_Permutation.
  assert (separated kept) as Hsk by done.
  assert (∀ k, k ∈ kept → k ≠ m) as Hkm.
  { intros k Hk ->. unfold before, real in *. destruct (a_apart0 m Hk); lia. }
  split_and!.
  - apply sort_separated.
    + apply Forall_app. split; [done|]. constructor; [done|constructor].
    + apply NoDup_app. split_and!; [by apply separated_nodup| |apply NoDup_singleton].
      intros k Hk ->%list_elem_of_singleton. by apply (Hkm m).
    + assert (∀ a b, a ∈ kept → b ∈ kept → a ≠ b → before a b ∨ before b a) as Hkk.
      { clear -Hks. induction Hks as [|x l Hl IH Hx]; [set_solver|]. rewrite Forall_forall in Hx.
        intros a b [->|Ha]%elem_of_cons [->|Hb]%elem_of_cons Hne; [done|left|right|]; auto. }
      intros a b [Ha| ->%list_elem_of_singleton]%elem_of_app [Hb| ->%list_elem_of_singleton]%elem_of_app Hne;
        [by apply Hkk|by apply a_apart0|destruct (a_apart0 b Hb); auto|done].
  - intros E. assert (m ∈ py_sort range_leb (kept ++ [m])) as Hin by (rewrite elem_of_py_sort; set_solver).
    rewrite E in Hin. by apply not_elem_of_nil in Hin.
  - intros p. rewrite (covers_perm _ _ _ Hperm). apply a_covers0.
  - rewrite (loss_total_perm _ _ Hperm), loss_total_app. simpl. lia.
  - rewrite length_py_sort, length_app. simpl. lia.
  - rewrite length_py_sort, length_app. simpl. apply andb_false_iff in Hcap as [H|H].
    + apply Nat.ltb_ge in H. right. lia.
    + apply Z.leb_gt in H. by left.
  - rewrite length_py_sort, length_app. simpl. lia.
  - intros ? ? ?. rewrite Hperm. apply Forall_app. destruct a_exact0 as [? ?]; [done..|].
    split; [done|]. constructor; [done|constructor].
Qed.

(** ** The emitter as a machine *)

(** Critical sections of the emitter's lock, in the order they happen. *)
Inductive loss_op :=
  | OpRetain (loss : RawKey * LossRange)
  | OpRecord (source : string) (epoch : Z) (reason : LossReason) (sequence : Z) (segment : option string)
  | OpQueue (m : Marker)
  | OpBeat (beat : Marker + Beat)
  | OpHeartbeat (source : string) (kind : MarkerKind) (at_ : Z * Z)
      (scope : option (option string * option string))
  | OpFinal (source : string) (at_ : Z * Z)
  | OpNote (source : string)
  | OpTake (periodic_due every_source : bool) (position : string → option (Z * Z))
      (others : list (option (list Marker))).

(** What an operation did: a range entered the table or was dropped past its cap, a marker
    was queued or dropped, or the table and the queue were handed out. *)
Inductive loss_event :=
  | EvKept (k : LossKey) (r : LossRange)
  | EvUncounted (k : LossKey) (r : LossRange)
  | EvQueued (m : Marker)
  | EvDropped (m : Marker)
  | EvTaken (losses : list (LossKey * LossRange)) (markers : list Marker).

Definition retain_event (loss : RawKey * LossRange) (kept : bool) : loss_event :=
  if kept then EvKept (loss_key loss.1) loss.2 else EvUncounted (loss_key loss.1) loss.2.
Definition queue_event (m : Marker) (queued : bool) : loss_event :=
  if queued then EvQueued m else EvDropped m.

Definition exec_loss (s : Emitter) (o : loss_op) : Emitter * list loss_event :=
  match o with
  | OpRetain loss => let '(s, kept) := retain loss s in (s, [retain_event loss kept])
  | OpRecord source epoch reason sequence segment =>
      let '(s, kept, _) := record source epoch reason sequence segment s in
      (s, [retain_event ((source, epoch, reason, [segment]), mk_range sequence sequence 1) kept])
  | OpQueue m => let '(s, queued) := queue m s in (s, [queue_event m queued])
  | OpBeat (inl m) => let '(s, queued) := queue_beat (inl m) s in (s, [queue_event m queued])
  | OpBeat (inr b) =>
      let '(s, queued) := queue_beat (inr b) s in
      (s, match from_beat b with Ok m => [queue_event m queued] | Raise _ => [] end)
  | OpHeartbeat source kind at_ scope =>
      match heartbeat source kind at_ scope s with
      | Ok (s, queued) => (s, [queue_event (beat_marker kind source at_ scope) queued])
      | Raise _ => (s, [])
      end
  | OpFinal source at_ =>
      let '(s, queued) := final_beat source at_ s in
      (s, [queue_event (beat_marker final source at_ None) queued])
  | OpNote source => (note_activity source s, [])
  | OpTake periodic_due every_source position others =>
      let '(s, losses, markers) := take periodic_due every_source position others s in
      (s, [EvTaken losses markers])
  end.

Definition run_loss (ops : list loss_op) : Emitter * list loss_event :=
  foldl (λ acc o, let '(s, evs) := exec_loss acc.1 o in (s, acc.2 ++ evs)) (new_emitter, []) ops.

(** A range has a first and a last position, in this order. *)
Definition op_real (o : loss_op) : Prop :=
  match o with OpRetain loss => real loss.2 | _ => True end.

(** The ranges of a key that entered the table since it was last handed out. *)
Definition kept_since (k : LossKey) (evs : list loss_event) : list LossRange :=
  foldl (λ acc e, match e with
      | EvKept k' r => if decide (k' = k) then acc ++ [r] else acc
      | EvTaken _ _ => []
      | _ => acc end) [] evs.

(** The markers queued since the queue was last handed out. *)
Definition queued_since (evs : list loss_event) : list Marker :=
  foldl (λ acc e, match e with EvQueued m => acc ++ [m] | EvTaken _ _ => [] | _ => acc end) [] evs.

Definition dropped_markers (evs : list loss_event) : list Marker :=
  omap (λ e, match e with EvDropped m => Some m | _ => None end) evs.

Definition hull (a b : LossRange) : LossRange :=
  mk_range (Z.min (lr_first a) (lr_first b)) (Z.max (lr_last a) (lr_last b)) (lr_count a + lr_count b).

(** What the table holds under a key, given the ranges [A] it took in. *)
Definition table_entry (k : LossKey) (A rs : list LossRange) : Prop :=
  match lk_segment k with
  | None => rs = match A with [] => [] | a :: A => [foldl hull a A] end
  | Some _ =>
      separated rs ∧ (∀ p, covers rs p ↔ covers A p) ∧ total rs = total A ∧
      (Forall exact A → StronglySorted apart A → Forall exact rs)
  end.

Definition held (k : LossKey) (s : Emitter) : list LossRange := default [] (dget k (le_pending s)).
Definition held_count (d : list (LossKey * list LossRange)) : Z :=
  foldr (λ p n, Z.of_nat (length p.2) + n) 0 d.
Definition beats_bytes (l : list Marker) : Z := foldr (λ m n, marker_bytes m + n) 0 l.

Record loss_inv (s : Emitter) (evs : list loss_event) : Prop := {
  li_keys : NoDup (le_pending s).*1;
  li_ranges : le_ranges s = held_count (le_pending s);
  li_cap : le_ranges s ≤ MAX_PENDING_RANGES;
  li_entries : ∀ k rs, dget k (le_pending s) = Some rs → rs ≠ [] ∧ kept_since k evs ≠ [];
  li_held : ∀ k, table_entry k (kept_since k evs) (held k s);
  li_real : ∀ k, Forall real (kept_since k evs);
  li_beats : le_beats s = queued_since evs;
  li_bytes : le_beat_bytes s = beats_bytes (le_beats s);
  li_full : Z.of_nat (length (le_beats s)) ≤ MAX_QUEUED_MARKERS ∧ le_beat_bytes s ≤ MAX_QUEUED_MARKER_BYTES;
  li_dropped : le_dropped s = Z.of_nat (length (dropped_markers evs));
  li_errors : le_internal_errors s = 0;
}.

Lemma held_count_dset k rs d :
  held_count (dset k rs d) = held_count d + Z.of_nat (length rs) - Z.of_nat (length (default [] (dget k d))).
Proof.
  unfold held_count. induction d as [|[k' rs'] d IH]; csimpl; [lia|].
  case_decide; csimpl; [subst; lia|]. rewrite IH. lia.
Qed.

Lemma kept_since_app k evs e : kept_since k (evs ++ [e]) =
  match e with
  | EvKept k' r => if decide (k' = k) then kept_since k evs ++ [r] else kept_since k evs
  | EvTaken _ _ => [] | _ => kept_since k evs end.
Proof. unfold kept_since. rewrite foldl_app. by destruct e. Qed.

Lemma queued_since_app evs e : queued_since (evs ++ [e]) =
  match e with EvQueued m => queued_since evs ++ [m] | EvTaken _ _ => [] | _ => queued_since evs end.
Proof. unfold queued_since. rewrite foldl_app. by destruct e. Qed.

Lemma dropped_markers_app evs e : dropped_markers (evs ++ [e]) =
  dropped_markers evs ++ match e with EvDropped m => [m] | _ => [] end.
Proof. unfold dropped_markers. rewrite omap_app. by destruct e. Qed.

Lemma beats_bytes_app l m : beats_bytes (l ++ [m]) = beats_bytes l + marker_bytes m.
Proof. unfold beats_bytes. induction l as [|x l IH]; simpl; [lia|]. rewrite IH. lia. Qed.

(** *** Losses *)

Lemma entry_first k r : real r → table_entry k [r] [r].
Proof.
  intros Hr. unfold table_entry. destruct (lk_segment k); [|done].
  split_and!; [split; [repeat constructor|by constructor]|done|done|done].
Qed.

Lemma entry_hull k A m rest r :
  lk_segment k = None → A ≠ [] → table_entry k A (m :: rest) → table_entry k (A ++ [r]) (hull m r :: rest).
Proof.
  unfold table_entry. intros -> HA. destruct A as [|a A]; [done|]. simpl. intros [= -> ->].
  by rewrite foldl_app.
Qed.

Lemma pairwise_new A rs r :
  Forall real rs → real r → (∀ p, covers rs p ↔ covers A p) → StronglySorted apart (A ++ [r]) →
  Forall (apart r) rs.
Proof.
  intros Hrs Hr Hc HA. apply StronglySorted_app_inv in HA as (_ & _ & HA). rewrite Forall_forall in Hrs |- *.
  intros x Hx. specialize (Hrs x Hx). unfold real, apart in *.
  destruct (decide (lr_last r < lr_first x ∨ lr_last x < lr_first r)) as [|Hov]; [done|exfalso].
  assert (covers A (Z.max (lr_first r) (lr_first x))) as (a & Ha & ?).
  { apply Hc. exists x. split; [done|]. lia. }
  destruct (HA a r Ha) as [?|?]; [set_solver|lia|lia].
Qed.

Lemma entry_merge k A rs r n rs' n' :
  is_Some (lk_segment k) → real r → merge_exact n rs r = Some (rs', n') →
  table_entry k A rs → table_entry k (A ++ [r]) rs'.
Proof.
  unfold table_entry. intros [seg ->] Hr Hm (Hs & Hc & Ht & He).
  destruct (merge_exact_spec _ _ _ _ _ Hs Hr Hm) as (Hs' & _ & Hc' & Ht' & _ & _ & _ & He').
  split_and!; [done| | |].
  - intros p. by rewrite Hc', covers_app, covers_one, Hc.
  - rewrite Ht', Ht, loss_total_app. simpl. lia.
  - intros HA Hap. apply Forall_app in HA as [HA Hx]. apply Forall_cons in Hx as [Hx _].
    apply He'; [done| |].
    + apply He; [done|]. by apply StronglySorted_app_inv in Hap as (? & _).
    + eapply pairwise_new; [apply Hs|done|exact Hc|done].
Qed.

(** Writing one entry of the table. *)
Lemma put_entry s evs k r rs n :
  loss_inv s evs → real r → rs ≠ [] → table_entry k (kept_since k evs ++ [r]) rs →
  n = le_ranges s + Z.of_nat (length rs) - Z.of_nat (length (held k s)) → n ≤ MAX_PENDING_RANGES →
  loss_inv (set_table (dset k rs (le_pending s)) n s) (evs ++ [EvKept k r]).
Proof.
  intros [] Hr Hrs He Hn Hcap.
  assert (∀ k', kept_since k' (evs ++ [EvKept k r]) =
    if decide (k = k') then kept_since k' evs ++ [r] else kept_since k' evs) as Hk.
  { intros k'. by rewrite kept_since_app. }
  split; simpl; try done.
  - by apply NoDup_dset.
  - rewrite held_count_dset. unfold held in Hn. lia.
  - intros k' rs'. rewrite dget_dset, Hk. repeat case_decide; subst; try done; [|by auto].
    intros [= <-]. split; [done|]. by destruct (kept_since _ evs).
  - intros k'. unfold held. simpl. rewrite dget_dset, Hk. repeat case_decide; subst; try done; apply li_held0.
  - intros k'. rewrite Hk. case_decide; [|done]. apply Forall_app. split; [done|]. by constructor.
  - rewrite queued_since_app. done.
  - rewrite dropped_markers_app, app_nil_r. done.
Qed.

Lemma uncounted_inv s evs k r : loss_inv s evs → loss_inv s (evs ++ [EvUncounted k r]).
Proof.
  intros []. split; try done; intros; rewrite ?kept_since_app, ?queued_since_app, ?dropped_markers_app, ?app_nil_r; try done.
  all: eauto.
Qed.

Lemma retain_inv s evs loss :
  loss_inv s evs → real loss.2 →
  loss_inv (retain loss s).1 (evs ++ [retain_event loss (retain loss s).2]).
Proof.
  intros Hi Hr. unfold retain, retain_event. destruct loss as [raw r]. cbn [fst snd] in *.
  set (k := loss_key raw). pose proof (li_held _ _ Hi k) as Hk. pose proof (li_cap _ _ Hi) as Hcap.
  destruct (dget k (le_pending s)) as [rs|] eqn:E.
  - destruct (li_entries _ _ Hi k rs E) as [Hne HA]. unfold held in Hk. rewrite E in Hk. simpl in Hk.
    assert (length (held k s) = length rs) as Hlen by (unfold held; by rewrite E).
    destruct (lk_segment k) as [seg|] eqn:Eseg.
    + destruct (merge_exact (le_ranges s) rs r) as [[rs' n]|] eqn:Em; cbn [fst snd]; [|by apply uncounted_inv].
      destruct (merge_exact_spec _ _ _ _ _ ltac:(unfold table_entry in Hk; rewrite Eseg in Hk; apply Hk) Hr Em)
        as (_ & Hne' & _ & _ & Hn & Hc & Hl & _).
      apply put_entry; [done..| | |].
      * eapply entry_merge; [by rewrite Eseg|done|exact Em|done].
      * rewrite Hlen. done.
      * unfold MAX_PENDING_RANGES in *. lia.
    + destruct rs as [|m rest]; [done|]. cbn [fst snd]. apply put_entry; [done..| | |].
      * by apply entry_hull.
      * rewrite Hlen. simpl. lia.
      * done.
  - unfold held in Hk. rewrite E in Hk. simpl in Hk.
    assert (kept_since k evs = []) as HA.
    { unfold table_entry in Hk. destruct (lk_segment k).
      - destruct Hk as (_ & Hc & _). destruct (kept_since k evs) as [|a A] eqn:EA; [done|].
        pose proof (li_real _ _ Hi k) as Hra. rewrite EA in Hra. apply Forall_cons in Hra as [Hra _].
        destruct (proj2 (Hc (lr_first a))) as (x & Hx & _); [|by apply not_elem_of_nil in Hx].
        exists a. split; [constructor|]. unfold real in Hra. lia.
      - by destruct (kept_since k evs). }
    destruct (Z.leb_spec MAX_PENDING_RANGES (le_ranges s)); cbn [fst snd]; [by apply uncounted_inv|].
    apply put_entry; [done..| | |].
    + rewrite HA. by apply entry_first.
    + unfold held. rewrite E. simpl. lia.
    + lia.
Qed.

(** *** Markers and draining *)

Lemma set_sources_inv s evs d : loss_inv s evs → loss_inv (set_sources d s) evs.
Proof. intros []. by split. Qed.

Lemma queue_inv s evs m :
  loss_inv s evs → loss_inv (queue m s).1 (evs ++ [queue_event m (queue m s).2]).
Proof.
  intros Hi. unfold queue, queue_event.
  destruct ((_ <? _) && (_ <=? _)) eqn:E; destruct Hi; cbn [fst snd].
  - apply andb_true_iff in E as [E1%Z.ltb_lt E2%Z.leb_le].
    split; simpl; try done; intros; rewrite ?kept_since_app, ?queued_since_app, ?dropped_markers_app, ?app_nil_r;
      try done; eauto.
    + by rewrite li_beats0.
    + by rewrite beats_bytes_app, li_bytes0.
    + rewrite length_app. simpl. lia.
  - split; simpl; try done; intros; rewrite ?kept_since_app, ?queued_since_app, ?dropped_markers_app, ?app_nil_r;
      try done; eauto.
    rewrite length_app, li_dropped0. simpl. lia.
Qed.

Lemma recorded_inv s evs n :
  loss_inv s evs →
  loss_inv (mk_emitter (le_pending s) (le_ranges s) (le_beats s) (le_beat_bytes s) (le_sources s)
              (le_dropped s) n (le_internal_errors s)) evs.
Proof. intros []. by split. Qed.

Lemma take_inv s evs p e position others :
  loss_inv s evs →
  loss_inv (take p e position others s).1.1
    (evs ++ [EvTaken (take p e position others s).1.2 (take p e position others s).2]).
Proof.
  intros []. unfold take. cbn [fst snd].
  split; simpl; intros; rewrite ?kept_since_app, ?queued_since_app, ?dropped_markers_app, ?app_nil_r; try done.
  - constructor.
  - unfold table_entry, held. simpl. destruct (lk_segment k); [|done].
    split_and!; [split; constructor|done|done|done].
Qed.

Lemma exec_loss_inv s evs o :
  loss_inv s evs → op_real o → loss_inv (exec_loss s o).1 (evs ++ (exec_loss s o).2).
Proof.
  intros Hi Ho. destruct o as [loss|src ep reason n seg|m|[m|b]|src kind at_ scope|src at_|src|p e position others];
    simpl in Ho |- *.
  - pose proof (retain_inv s evs loss Hi Ho) as H. by destruct (retain loss s).
  - set (loss := (_, _)). set (s1 := mk_emitter _ _ _ _ _ _ _ _).
    pose proof (retain_inv s1 evs loss (recorded_inv _ _ _ Hi)) as H.
    destruct (retain loss s1) as [s2 kept]. apply H. unfold real. simpl. lia.
  - pose proof (queue_inv s evs m Hi) as H. by destruct (queue m s).
  - pose proof (queue_inv s evs m Hi) as H. by destruct (queue m s).
  - destruct (from_beat b) as [m|]; [|by rewrite app_nil_r].
    pose proof (queue_inv s evs m Hi) as H. by destruct (queue m s).
  - unfold heartbeat. destruct (_ || _); [by rewrite app_nil_r|].
    match goal with |- context [queue ?m ?s'] => pose proof (queue_inv s' evs m (set_sources_inv _ _ _ Hi)) as H end.
    by destruct (queue _ _).
  - unfold final_beat.
    match goal with |- context [queue ?m ?s'] => pose proof (queue_inv s' evs m (set_sources_inv _ _ _ Hi)) as H end.
    by destruct (queue _ _).
  - rewrite app_nil_r. by apply set_sources_inv.
  - pose proof (take_inv s evs p e position others Hi) as H.
    exact H.
Qed.

Lemma new_emitter_inv : loss_inv new_emitter [].
Proof.
  split; simpl; try done; try constructor; try done.
  - intros k. unfold table_entry, held. simpl. destruct (lk_segment k); [|done].
    split_and!; [split; constructor|done|done|done].
Qed.

Lemma run_loss_inv ops : Forall op_real ops → loss_inv (run_loss ops).1 (run_loss ops).2.
Proof.
  unfold run_loss. intros Hops.
  assert (∀ s evs, loss_inv s evs →
    let r := foldl (λ acc o, let '(s, evs) := exec_loss acc.1 o in (s, acc.2 ++ evs)) (s, evs) ops in
    loss_inv r.1 r.2) as H; [|apply H, new_emitter_inv].
  induction Hops as [|o ops Ho _ IH]; intros s evs Hi; simpl; [done|].
  pose proof (exec_loss_inv s evs o Hi Ho) as Hi'. destruct (exec_loss s o) as [s' es]. by apply IH.
Qed.

(** *** What was told *)

(** What an operation tells the table, and what it was told since it was last handed out: of
    one key, and how often in all. *)
Definition told_by (o : loss_op) : option (LossKey * LossRange) :=
  match o with
  | OpRetain loss => Some (loss_key loss.1, loss.2)
  | OpRecord source epoch reason sequence segment =>
      Some (mk_loss_key source epoch reason segment, mk_range sequence sequence 1)
  | _ => None
  end.
Definition hands_out (o : loss_op) : bool := match o with OpTake _ _ _ _ => true | _ => false end.
Definition told_since (k : LossKey) (ops : list loss_op) : list LossRange :=
  foldl (λ acc o, if hands_out o then [] else
    match told_by o with Some (k', r) => if decide (k' = k) then acc ++ [r] else acc | None => acc end) [] ops.
Definition told_count (ops : list loss_op) : nat :=
  foldl (λ n o, if hands_out o then O else match told_by o with Some _ => S n | None => n end) O ops.

(** Two ranges overlap or touch; a range joins one that a key has already. *)
Definition touches (a b : LossRange) : bool := (lr_first a <=? lr_last b + 1) && (lr_first b <=? lr_last a + 1).
Definition joins_held (k : LossKey) (rs : list LossRange) (r : LossRange) : bool :=
  match lk_segment k with None => negb (bool_decide (rs = [])) | Some _ => existsb (touches r) rs end.

Lemma absorb_none m kept rs :
  existsb (touches m) rs = false → foldl absorb (m, kept) rs = (m, kept ++ rs).
Proof.
  revert kept. induction rs as [|r rs IH]; intros kept; simpl; [by rewrite app_nil_r|].
  intros [Hr Hrs]%orb_false_iff. unfold touches in Hr. rewrite andb_comm in Hr. rewrite Hr, IH by done.
  by rewrite <-(assoc_L (++)).
Qed.

Lemma absorb_length m kept rs : (length (foldl absorb (m, kept) rs).2 ≤ length kept + length rs)%nat.
Proof.
  revert m kept. induction rs as [|r rs IH]; intros m kept; simpl; [lia|].
  destruct (_ && _); [etrans; [apply IH|lia]|]. etrans; [apply IH|]. rewrite length_app. simpl. lia.
Qed.

Lemma absorb_some m kept rs :
  existsb (touches m) rs = true → (length (foldl absorb (m, kept) rs).2 < length kept + length rs)%nat.
Proof.
  revert kept. induction rs as [|r rs IH]; intros kept; simpl; [done|].
  unfold touches at 1. rewrite (andb_comm (lr_first m <=? _)). destruct (_ && _) eqn:E; simpl.
  - intros _. eapply Nat.le_lt_trans; [apply absorb_length|lia].
  - intros H%(IH (kept ++ [r])). rewrite length_app in H. simpl in H. lia.
Qed.

(** [_merge_exact] refuses a range exactly when the table is full and the range would be one
    more. *)
Lemma merge_exact_None n rs r :
  merge_exact n rs r = None ↔ existsb (touches r) rs = false ∧ MAX_PENDING_RANGES ≤ n.
Proof.
  unfold merge_exact. destruct (existsb (touches r) rs) eqn:E.
  - pose proof (absorb_some r [] rs E) as H. destruct (foldl absorb (r, []) rs) as [m kept]. simpl in H.
    rewrite (proj2 (Nat.ltb_ge _ _)) by lia. simpl. naive_solver.
  - rewrite absorb_none by done. simpl. rewrite (proj2 (Nat.ltb_lt _ _)) by lia. simpl.
    destruct (Z.leb_spec MAX_PENDING_RANGES n); naive_solver lia.
Qed.

(** When a range is taken in, and what it does to what is held. *)
Lemma retain_spec s evs loss :
  loss_inv s evs → real loss.2 →
  let k := loss_key loss.1 in
  let s' := (retain loss s).1 in
  (retain loss s).2 = joins_held k (held k s) loss.2 || (held_count (le_pending s) <? MAX_PENDING_RANGES) ∧
  ((retain loss s).2 = false → s' = s) ∧
  ((retain loss s).2 = true →
     (∀ k', k' ≠ k → held k' s' = held k' s) ∧
     match lk_segment k with
     | None => held k s' = match held k s with [] => [loss.2] | m :: rest => hull m loss.2 :: rest end
     | Some _ => separated (held k s') ∧
                 ∀ p, covers (held k s') p ↔ covers (held k s) p ∨ lr_first loss.2 ≤ p ≤ lr_last loss.2
     end).
Proof.
  intros Hi Hr. destruct loss as [raw r]. cbn [fst snd] in *. set (k := loss_key raw). rewrite <-(li_ranges _ _ Hi).
  pose proof (li_held _ _ Hi k) as Hk. unfold retain. cbn [fst snd]. fold k.
  assert (∀ rs n k', k' ≠ k → held k' (set_table (dset k rs (le_pending s)) n s) = held k' s) as Hoth.
  { intros rs n k' Hne. unfold held. simpl. by rewrite dget_dset_ne. }
  assert (∀ rs n, held k (set_table (dset k rs (le_pending s)) n s) = rs) as Hown.
  { intros rs n. unfold held. simpl. by rewrite dget_dset_eq. }
  destruct (dget k (le_pending s)) as [rs|] eqn:E.
  - destruct (li_entries _ _ Hi k rs E) as [Hne _]. unfold joins_held.
    assert (held k s = rs) as Hh by (unfold held; by rewrite E). rewrite Hh in Hk |- *.
    destruct (lk_segment k) as [seg|] eqn:Eseg.
    + destruct (merge_exact (le_ranges s) rs r) as [[rs' n]|] eqn:Em; cbn [fst snd].
      * destruct (merge_exact_spec _ _ _ _ _ ltac:(unfold table_entry in Hk; rewrite Eseg in Hk; apply Hk) Hr Em)
          as (Hs' & _ & Hc' & _). rewrite Hown. split_and!; [|done|].
        { destruct (existsb (touches r) rs) eqn:Ex; [done|]. symmetry. apply Z.ltb_lt.
          destruct (decide (le_ranges s < MAX_PENDING_RANGES)) as [|Hge]; [done|].
          assert (merge_exact (le_ranges s) rs r = None) by (apply merge_exact_None; split; [done|lia]). congruence. }
        intros _. split; [by apply Hoth|done].
      * apply merge_exact_None in Em as [-> Hcap]. split_and!; [|done|done]. simpl. symmetry. by apply Z.ltb_ge.
    + destruct rs as [|m rest]; [done|]. cbn [fst snd]. rewrite Hown. split_and!; [|done|].
      { by rewrite bool_decide_false. }
      intros _. split; [by apply Hoth|done].
  - assert (held k s = []) as Hh by (unfold held; by rewrite E).
    rewrite Hh. assert (joins_held k [] r = false) as -> by (unfold joins_held; by destruct (lk_segment k)).
    destruct (Z.leb_spec MAX_PENDING_RANGES (le_ranges s)); cbn [fst snd]; rewrite ?Hown; simpl.
    + split_and!; [|done|done]. symmetry. by apply Z.ltb_ge.
    + split_and!; [by symmetry; apply Z.ltb_lt|done|]. intros _. split; [by apply Hoth|].
      destruct (lk_segment k); [|done]. split; [split; [repeat constructor|by constructor]|].
      intros p. rewrite covers_one. unfold covers. set_solver.
Qed.

Lemma retain_grows s evs loss :
  loss_inv s evs → real loss.2 → held_count (le_pending (retain loss s).1) ≤ held_count (le_pending s) + 1.
Proof.
  intros Hi Hr. pose proof (retain_inv s evs loss Hi Hr) as Hi'. rewrite <-(li_ranges _ _ Hi), <-(li_ranges _ _ Hi').
  unfold retain. repeat case_match; cbn [fst le_ranges set_table] in *; try lia.
  match goal with H : merge_exact _ _ _ = Some _ |- _ => revert H end. unfold merge_exact.
  destruct (foldl absorb _ _) as [m kept] eqn:E. case_match; [done|]. intros [= _ <-].
  match type of E with foldl _ (?r, _) ?rs = _ => pose proof (absorb_length r [] rs) as Hl end. rewrite E in Hl. simpl in Hl. lia.
Qed.

Lemma run_loss_snoc ops o :
  run_loss (ops ++ [o]) = let '(s, evs) := run_loss ops in let '(s', es) := exec_loss s o in (s', evs ++ es).
Proof.
  unfold run_loss. rewrite foldl_app. simpl. destruct (foldl _ _ ops) as [s evs]. simpl. by destruct (exec_loss s o).
Qed.

(** What one operation does to what was kept: the range it tells, unless it was refused. *)
Lemma exec_loss_told s evs o :
  loss_inv s evs → op_real o →
  let s' := (exec_loss s o).1 in
  let es := (exec_loss s o).2 in
  match hands_out o, told_by o with
  | true, _ => le_pending s' = [] ∧ ∀ k, kept_since k (evs ++ es) = []
  | false, Some (k', r) =>
      ((∀ k, kept_since k (evs ++ es) = if decide (k' = k) then kept_since k evs ++ [r] else kept_since k evs) ∧
       held_count (le_pending s') ≤ held_count (le_pending s) + 1) ∨
      (MAX_PENDING_RANGES ≤ held_count (le_pending s) ∧ le_pending s' = le_pending s ∧
       ∀ k, kept_since k (evs ++ es) = kept_since k evs)
  | false, None => le_pending s' = le_pending s ∧ ∀ k, kept_since k (evs ++ es) = kept_since k evs
  end.
Proof.
  intros Hi Ho.
  assert (∀ loss s0, loss_inv s0 evs → le_pending s0 = le_pending s → real loss.2 →
    let s' := (retain loss s0).1 in let es := [retain_event loss (retain loss s0).2] in
    ((∀ k, kept_since k (evs ++ es) = if decide (loss_key loss.1 = k) then kept_since k evs ++ [loss.2] else kept_since k evs) ∧
       held_count (le_pending s') ≤ held_count (le_pending s) + 1) ∨
      (MAX_PENDING_RANGES ≤ held_count (le_pending s) ∧ le_pending s' = le_pending s ∧
       ∀ k, kept_since k (evs ++ es) = kept_since k evs)) as Hretain.
  { intros loss s0 Hi0 E0 Hr. cbv zeta. destruct (retain_spec s0 evs loss Hi0 Hr) as (Hk & Hf & _).
    pose proof (retain_grows s0 evs loss Hi0 Hr) as Hg. rewrite E0 in Hk, Hg. unfold retain_event.
    destruct (retain loss s0) as [s' [|]]; cbn [fst snd] in *; [left|right].
    - split; [|done]. intros k. by rewrite kept_since_app.
    - symmetry in Hk. apply orb_false_iff in Hk as [_ Hk%Z.ltb_ge]. rewrite (Hf eq_refl). split_and!; [done..|].
      intros k. by rewrite kept_since_app. }
  destruct o as [loss|src ep reason n seg|m|[m|b]|src kind at_ scope|src at_|src|p e position others];
    simpl in Ho |- *.
  - specialize (Hretain loss s Hi eq_refl Ho). by destruct (retain loss s).
  - set (loss := (_, _)). set (s1 := mk_emitter _ _ _ _ _ _ _ _).
    specialize (Hretain loss s1 (recorded_inv _ _ _ Hi) eq_refl). destruct (retain loss s1) as [s2 kept].
    apply Hretain. unfold real. simpl. lia.
  - unfold queue. destruct (_ && _); cbn; (split; [done|]; intros k; by rewrite kept_since_app).
  - unfold queue. destruct (_ && _); cbn; (split; [done|]; intros k; by rewrite kept_since_app).
  - destruct (from_beat b) as [m|]; [|by rewrite app_nil_r].
    unfold queue. destruct (_ && _); cbn; (split; [done|]; intros k; by rewrite kept_since_app).
  - unfold heartbeat. destruct (_ || _); [by rewrite app_nil_r|].
    unfold queue. destruct (_ && _); cbn; (split; [done|]; intros k; by rewrite kept_since_app).
  - unfold final_beat, queue. destruct (_ && _); cbn; (split; [done|]; intros k; by rewrite kept_since_app).
  - by rewrite app_nil_r.
  - split; [done|]. intros k. by rewrite kept_since_app.
Qed.

Lemma told_since_snoc k ops o :
  told_since k (ops ++ [o]) = if hands_out o then [] else
    match told_by o with Some (k', r) => if decide (k' = k) then told_since k ops ++ [r] else told_since k ops | None => told_since k ops end.
Proof. unfold told_since. by rewrite foldl_app. Qed.

Lemma told_count_snoc ops o :
  told_count (ops ++ [o]) = if hands_out o then O else match told_by o with Some _ => S (told_count ops) | None => told_count ops end.
Proof. unfold told_count. by rewrite foldl_app. Qed.

(** Until 1,024 ranges were told nothing is refused; what is kept was told. *)
Lemma run_loss_told ops :
  Forall op_real ops →
  let '(s, evs) := run_loss ops in
  held_count (le_pending s) ≤ Z.of_nat (told_count ops) ∧
  (∀ k r, r ∈ kept_since k evs → r ∈ told_since k ops) ∧
  (Z.of_nat (told_count ops) ≤ MAX_PENDING_RANGES → ∀ k, kept_since k evs = told_since k ops).
Proof.
  induction ops as [|o ops IH] using rev_ind; intros Hops; [by split_and!|].
  apply Forall_app in Hops as [Hops Ho]. apply Forall_cons in Ho as [Ho _].
  pose proof (run_loss_inv ops Hops) as Hi. specialize (IH Hops). rewrite run_loss_snoc.
  destruct (run_loss ops) as [s evs]. cbn [fst snd] in Hi. destruct IH as (Hc & Hsub & Heq).
  pose proof (exec_loss_told s evs o Hi Ho) as Ht. destruct (exec_loss s o) as [s' es]. cbn [fst snd] in Ht.
  rewrite told_count_snoc. setoid_rewrite told_since_snoc. destruct (hands_out o).
  - destruct Ht as [-> Hk]. split_and!; [done| |intros _ k; apply Hk]. intros k r. rewrite Hk. by intros ?%not_elem_of_nil.
  - destruct (told_by o) as [[k' x]|].
    + destruct Ht as [[Hk Hg]|(Hcap & -> & Hk)].
      * split_and!; [lia| |].
        -- intros k r. rewrite Hk. case_decide; [|apply Hsub]. rewrite !elem_of_app. naive_solver.
        -- intros Hn k. rewrite Hk, Heq by lia. done.
      * split_and!; [lia| |lia]. intros k r. rewrite Hk. intros Hr%Hsub. case_decide; [|done]. apply elem_of_app. by left.
    + destruct Ht as [-> Hk]. split_and!; [done| |].
      * intros k r. rewrite Hk. apply Hsub.
      * intros Hn k. rewrite Hk. by apply Heq.
Qed.

(** ** The properties *)

(** C19: the loss table against what it was told since it was last handed out, in every
    sequence of losses, retained ranges, markers and drains ([told_since] reads the operations
    only). Of a segment's key it never holds a position that was not told, and its ranges are in
    order and do not touch. While at most 1,024 ranges were told in all, it holds all of them:
    a segment's ranges cover exactly the positions told, their counts add up, and when the
    ranges told were exact and of different positions every range is exact; a key without a
    segment has one range, the hull. And whatever was told before, a further range is refused
    only when the table has its 1,024 ranges and the range would be one more - it touches none
    of its segment, or its key has none; otherwise its positions are held too. *)
Theorem loss_ranges_exact (ops : list loss_op) (Hops : Forall op_real ops) (k : LossKey) :
  let s := (run_loss ops).1 in
  (is_Some (lk_segment k) →
     separated (held k s) ∧ ∀ p, covers (held k s) p → covers (told_since k ops) p) ∧
  (Z.of_nat (told_count ops) ≤ MAX_PENDING_RANGES → table_entry k (told_since k ops) (held k s)) ∧
  ∀ loss, real loss.2 → loss_key loss.1 = k →
    let s' := (retain loss s).1 in
    if negb (joins_held k (held k s) loss.2) && (MAX_PENDING_RANGES <=? held_count (le_pending s)) then s' = s
    else
      (∀ k', k' ≠ k → held k' s' = held k' s) ∧
      match lk_segment k with
      | None => held k s' = match held k s with [] => [loss.2] | m :: rest => hull m loss.2 :: rest end
      | Some _ => separated (held k s') ∧
                  ∀ p, covers (held k s') p ↔ covers (held k s) p ∨ lr_first loss.2 ≤ p ≤ lr_last loss.2
      end.
Proof.
  pose proof (run_loss_inv ops Hops) as Hi. pose proof (run_loss_told ops Hops) as Ht.
  destruct (run_loss ops) as [s evs]. cbn [fst snd] in *. destruct Ht as (_ & Hsub & Heq).
  pose proof (li_held _ _ Hi k) as Hk. split_and!.
  - intros [seg E]. unfold table_entry in Hk. rewrite E in Hk. destruct Hk as (Hs & Hc & _). split; [done|].
    intros p (r & Hr & Hp)%Hc. exists r. split; [by apply Hsub|done].
  - intros Hn. by rewrite <-Heq.
  - intros loss Hr <-. destruct (retain_spec s evs loss Hi Hr) as (Hkept & Hf & Hkt).
    rewrite Z.leb_antisym, <-negb_orb, <-Hkept. destruct (retain loss s) as [s' [|]]; cbn [fst snd negb] in *; auto.
Qed.

(** The loss table and the marker queue stay within their bounds in every sequence of
    operations. The table's count is the number of its ranges, at most 1,024, and no
    operation fails; the queue holds exactly the markers queued since it was last handed out,
    at most 16,384 in at most 16 MiB, and every other marker was dropped and counted. *)
Theorem loss_emitter_bounded (ops : list loss_op) (Hops : Forall op_real ops) :
  let '(s, evs) := run_loss ops in
  le_ranges s = held_count (le_pending s) ∧ held_count (le_pending s) ≤ MAX_PENDING_RANGES ∧
  le_internal_errors s = 0 ∧ le_beats s = queued_since evs ∧
  Z.of_nat (length (le_beats s)) ≤ MAX_QUEUED_MARKERS ∧
  beats_bytes (le_beats s) ≤ MAX_QUEUED_MARKER_BYTES ∧
  le_dropped s = Z.of_nat (length (dropped_markers evs)).
Proof.
  pose proof (run_loss_inv ops Hops) as H. destruct (run_loss ops) as [s evs]. destruct H.
  cbn [fst snd] in *. split_and!; try done; [by rewrite <-li_ranges0|apply li_full0|].
  rewrite <-li_bytes0. apply li_full0.
Qed.

Definition demo_losses : list loss_op :=
  [OpRecord "s" 1 queue_full 4 (Some "seg"); OpRecord "s" 1 queue_full 6 (Some "seg");
   OpRecord "s" 1 queue_full 9 (Some "seg"); OpRecord "s" 1 queue_full 5 (Some "seg");
   OpRecord "s" 1 queue_full 7 None; OpRecord "s" 1 queue_full 3 None;
   OpHeartbeat "s" periodic (1, 9) None].
Definition demo_loss_key : LossKey := mk_loss_key "s" 1 queue_full (Some "seg").

Lemma demo_losses_real : Forall op_real demo_losses.
Proof. repeat constructor. Defined.

Lemma loss_ranges_exact_witness :
  held demo_loss_key (run_loss demo_losses).1 = [mk_range 4 6 3; mk_range 9 9 1] ∧
  separated [mk_range 4 6 3; mk_range 9 9 1].
Proof.
  split; [vm_compute; reflexivity|].
  pose proof (loss_ranges_exact demo_losses demo_losses_real demo_loss_key) as H.
  assert (held demo_loss_key (run_loss demo_losses).1 = [mk_range 4 6 3; mk_range 9 9 1]) as E
    by (vm_compute; reflexivity).
  cbv zeta in H. rewrite E in H. apply H. vm_compute. discriminate.
Defined.

Lemma loss_emitter_bounded_witness :
  let s := (run_loss demo_losses).1 in le_ranges s = 3 ∧ held_count (le_pending s) ≤ MAX_PENDING_RANGES.
Proof.
  split; [vm_compute; reflexivity|].
  pose proof (loss_emitter_bounded demo_losses demo_losses_real) as H.
  destruct (run_loss demo_losses) as [s evs]. apply H.
Qed.
