(* ===== verification/Ledger.v ===== *)
(** * The loss ledger

    [fabric/wire/_ledger.py]: a file of 64 slots shared by the processes of a spool, where a
    process mirrors the loss and marker records it could not spool, and from which another
    process recovers them when it dies. A process writes only slots it holds a record lock
    on; the kernel frees the locks of a process that dies.

    The 4,096 bytes of a slot are given by what [decode_slot] makes of them: empty, records
    that verify, or torn; that a partly written slot does not verify is the digest's part. A
    method is one step: what it writes is locked by its process throughout. What the kernel
    answers to a lock of the header, to a write and to a sync is an argument of the step; a
    process that dies inside a method dies after a write that failed. *)

From S2P Require Import Prelude PyDict Hash Json Canonical.

(** ** Slots *)

Definition SLOT_BYTES : Z := 4096.
Definition SLOTS : nat := 64.
Definition MAX_OWN_SLOTS : nat := 16.
#[local] Opaque SLOTS.
(** The magic, the length and the digest. *)
Definition PAYLOAD_MAX : Z := SLOT_BYTES - 8 - 4 - 32.

(** A spool record header. *)
Definition Doc : Type := list (string * json).

Inductive slot :=
  | Blank
  | Holding (owner : string) (records : list Doc)
  | Torn.

#[export] Instance slot_eq_dec : EqDecision slot.
Proof. solve_decision. Defined.

(** *** [json.dumps] with its default [ensure_ascii] *)

Definition u_escape (n : Z) : string := backslash +:+ "u" +:+ hex_of_bytes [n / 256; n mod 256].

(** A code point outside printable ASCII. *)
Definition escape_point (n : Z) : string :=
  if n <? 65536 then u_escape n
  else u_escape (55296 + (n - 65536) / 1024) +:+ u_escape (56320 + (n - 65536) mod 1024).

(** The UTF-8 bytes of a string, a code point at a time. *)
Fixpoint escape_ascii (s : string) : string :=
  match s with
  | "" => ""
  | String c s =>
      let n := byte_of_ascii c in
      if n <? 127 then escape_char c +:+ escape_ascii s
      else if n <? 192 then escape_point n +:+ escape_ascii s
      else match s with
           | String c1 s =>
               let n1 := byte_of_ascii c1 mod 64 in
               if n <? 224 then escape_point (n mod 32 * 64 + n1) +:+ escape_ascii s
               else match s with
                    | String c2 s =>
                        let n2 := byte_of_ascii c2 mod 64 in
                        if n <? 240 then escape_point ((n mod 16 * 64 + n1) * 64 + n2) +:+ escape_ascii s
                        else match s with
                             | String c3 s =>
                                 escape_point (((n mod 8 * 64 + n1) * 64 + n2) * 64 + byte_of_ascii c3 mod 64)
                                 +:+ escape_ascii s
                             | "" => ""
                             end
                    | "" => ""
                    end
           | "" => ""
           end
  end.

Definition quote_ascii (s : string) : string := dquote +:+ escape_ascii s +:+ dquote.

Fixpoint dumps_ascii (v : json) : string :=
  match v with
  | JStr s => quote_ascii s
  | JArr l => "[" +:+ join_comma (dumps_ascii <$> l) +:+ "]"
  | JObj l =>
      let items := (λ p, (p.1, dumps_ascii p.2)) <$> l in
      "{" +:+ join_comma ((λ p, quote_ascii p.1 +:+ ":" +:+ p.2) <$> py_sort key_leb items) +:+ "}"
  | v => dumps v
  end.

(** What [json.loads] reads back: the keys are in the order they were written. *)
Definition sort_doc (d : Doc) : Doc := py_sort key_leb ((λ p, (p.1, canon p.2)) <$> d).

(** [_encode] *)
Definition encode (owner : string) (records : list Doc) : option slot :=
  let payload := dumps_ascii (JObj [("owner", JStr owner); ("records", JArr (JObj <$> records))]) in
  if PAYLOAD_MAX <? Z.of_nat (String.length payload) then None
  else Some (Holding owner (sort_doc <$> records)).

(** [decode_slot] *)
Definition decode_slot (s : slot) : option (list Doc) :=
  match s with Blank => Some [] | Holding _ records => Some records | Torn => None end.

(** [_manifest] *)
Definition is_manifest (record : Doc) : bool :=
  bool_decide (dget "record_kind" record = Some (JStr "marker")) &&
  match dget "marker" record with
  | Some (JObj marker) => bool_decide (dget "kind" marker = Some (JStr "manifest"))
  | _ => false
  end.

(** The event id that counts a manifest once. *)
Definition manifest_event (record : Doc) : option json :=
  match dget "marker" record with Some (JObj marker) => dget "event_id" marker | _ => None end.

(** ** Processes and the file *)

Record Ledger := mk_ledger {
  ld_own : list nat;            (** the slots held, in use order *)
  ld_stored : list slot;        (** what each own slot holds now *)
  ld_held : list nat;           (** orphan slots locked by the drainer *)
  ld_dirty : bool;
  ld_owner : string;
  ld_overflows : Z;
  ld_failures : Z;
  ld_corrupt : Z;
  ld_unledgered : list (option json);
}.

(** [_init_state]; [owner] is drawn. *)
Definition init_ledger (owner : string) : Ledger := mk_ledger [] [] [] false owner 0 0 0 [].

(** [after_fork]: a forked child holds no lock and starts with no slots. *)
Definition after_fork (owner : string) (p : Ledger) : Ledger := init_ledger owner.

(** The file's slots, the process that holds each slot's record lock, and the handles of the
    processes that are alive. *)
Record World := mk_world {
  w_slots : list slot;
  w_locks : list (option nat);
  w_procs : gmap nat Ledger;
}.

(** [_create] *)
Definition new_world : World := mk_world (replicate SLOTS Blank) (replicate SLOTS None) ∅.

Definition read (i : nat) (w : World) : slot := default Blank (w_slots w !! i).
Definition holder (i : nat) (w : World) : option nat := default None (w_locks w !! i).
Definition write (i : nat) (s : slot) (w : World) : World :=
  mk_world (<[i := s]> (w_slots w)) (w_locks w) (w_procs w).
Definition lock (i : nat) (o : option nat) (w : World) : World :=
  mk_world (w_slots w) (<[i := o]> (w_locks w)) (w_procs w).
Definition put (pid : nat) (p : Ledger) (w : World) : World :=
  mk_world (w_slots w) (w_locks w) (<[pid := p]> (w_procs w)).

(** [_try_lock]: a lock that the process holds itself is granted again. *)
Definition try_lock (pid i : nat) (w : World) : option World :=
  match holder i w with
  | Some q => if decide (q = pid) then Some w else None
  | None => Some (lock i (Some pid) w)
  end.

(** [_unlock]: nothing happens to the lock of another process. *)
Definition unlock (pid i : nat) (w : World) : World :=
  if decide (holder i w = Some pid) then lock i None w else w.

(** [_claim], over the remaining indices; [None] when a slot cannot be read, which leaves its
    lock. *)
Fixpoint claim (pid : nat) (p : Ledger) (indices : list nat) (readable : nat → bool) (w : World)
    : World * option (option nat) :=
  match indices with
  | [] => (w, Some None)
  | i :: indices =>
      if decide (i ∈ ld_own p ∨ i ∈ ld_held p) then claim pid p indices readable w
      else match try_lock pid i w with
           | None => claim pid p indices readable w
           | Some w =>
               if negb (readable i) then (w, None)
               else if decide (read i w = Blank) then (w, Some (Some i))
               else claim pid p indices readable (unlock pid i w)
           end
  end.

Definition set_own (own : list nat) (stored : list slot) (p : Ledger) : Ledger :=
  mk_ledger own stored (ld_held p) (ld_dirty p) (ld_owner p) (ld_overflows p) (ld_failures p)
    (ld_corrupt p) (ld_unledgered p).
Definition set_held (held : list nat) (p : Ledger) : Ledger :=
  mk_ledger (ld_own p) (ld_stored p) held (ld_dirty p) (ld_owner p) (ld_overflows p) (ld_failures p)
    (ld_corrupt p) (ld_unledgered p).
Definition set_dirty (dirty : bool) (p : Ledger) : Ledger :=
  mk_ledger (ld_own p) (ld_stored p) (ld_held p) dirty (ld_owner p) (ld_overflows p) (ld_failures p)
    (ld_corrupt p) (ld_unledgered p).
Definition add_counts (overflows failures corrupt : Z) (p : Ledger) : Ledger :=
  mk_ledger (ld_own p) (ld_stored p) (ld_held p) (ld_dirty p) (ld_owner p) (ld_overflows p + overflows)
    (ld_failures p + failures) (ld_corrupt p + corrupt) (ld_unledgered p).

(** ** [store] *)

(** What the records become: the chunks, the batch being filled, whether all of them fit, and
    the manifests left out. *)
Record Chunks := mk_chunks {
  ck_chunks : list slot;
  ck_batch : list Doc;
  ck_fits : bool;
  ck_unledgered : list (option json);
}.

(** The loop over the records; [encode batch or b''] never falls back, since a batch is only
    grown when it encodes. *)
Fixpoint fill (owner : string) (records : list Doc) (c : Chunks) : Chunks :=
  match records with
  | [] => c
  | record :: records =>
      let full := bool_decide (encode owner (ck_batch c ++ [record]) = None)
                  && negb (bool_decide (ck_batch c = [])) in
      let c := if full then mk_chunks (ck_chunks c ++ [default Blank (encode owner (ck_batch c))]) []
                              (ck_fits c) (ck_unledgered c)
               else c in
      if full && (MAX_OWN_SLOTS <=? length (ck_chunks c))%nat
      then mk_chunks (ck_chunks c) (ck_batch c) false (ck_unledgered c)
      else if decide (encode owner [record] = None)
      then fill owner records
             (mk_chunks (ck_chunks c) (ck_batch c) (is_manifest record && ck_fits c)
                (if is_manifest record then ck_unledgered c ++ [manifest_event record] else ck_unledgered c))
      else fill owner records
             (mk_chunks (ck_chunks c) (ck_batch c ++ [record]) (ck_fits c) (ck_unledgered c))
  end.

(** The chunks with the last batch, whether all records fit, and the ids of the manifests
    left out so far. *)
Definition chunked (p : Ledger) (records : list Doc) : list slot * bool * list (option json) :=
  let c := fill (ld_owner p) records (mk_chunks [] [] true (ld_unledgered p)) in
  (match ck_batch c with [] => ck_chunks c
   | batch => ck_chunks c ++ [default Blank (encode (ld_owner p) batch)] end,
   ck_fits c, fromkeys (ck_unledgered c)).

(** What the kernel answers to a write: done, or an error after some of it was written. *)
Inductive write_result := WOk | WFail (left_ : slot).

(** What the kernel answers to a claim: the header's lock, then the reads. *)
Definition header_answer : Type := bool * (nat → bool).
Definition header_ok : header_answer := (true, λ _, true).

(** [while len(self._own) < len(chunks)]: whether there were slots enough, [None] when a claim
    raises. *)
Fixpoint claim_all (missing : nat) (headers : list header_answer) (pid : nat) (p : Ledger) (w : World)
    : World * Ledger * option bool :=
  match missing with
  | O => (w, p, Some true)
  | S missing =>
      let '(locked, readable) := default header_ok (head headers) in
      if locked then
        match claim pid p (seq 0 SLOTS) readable w with
        | (w, None) => (w, p, None)
        | (w, Some None) => (w, p, Some false)
        | (w, Some (Some i)) =>
            claim_all missing (tail headers) pid (set_own (ld_own p ++ [i]) (ld_stored p ++ [Blank]) p) w
        end
      else (w, p, None)
  end.

(** The loop over the chunks; [false] when a write raises. *)
Fixpoint write_all (position : nat) (chunks : list slot) (answers : list write_result) (p : Ledger)
    (w : World) : World * Ledger * bool :=
  match chunks with
  | [] => (w, p, true)
  | data :: chunks =>
      if decide (ld_stored p !! position = Some data) then write_all (S position) chunks answers p w
      else
        let p := set_dirty true p in
        let i := default O (ld_own p !! position) in
        match default WOk (head answers) with
        | WFail left_ => (write i left_ w, p, false)
        | WOk =>
            write_all (S position) chunks (tail answers)
              (set_own (ld_own p) (<[position := data]> (ld_stored p)) p) (write i data w)
        end
  end.

(** [while self._own and self._stored\[-1\] == _blank()] *)
Fixpoint release_blank (fuel : nat) (pid : nat) (p : Ledger) (w : World) : World * Ledger :=
  match fuel with
  | O => (w, p)
  | S fuel =>
      match last (ld_own p), last (ld_stored p) with
      | Some i, Some Blank =>
          release_blank fuel pid
            (set_own (take (pred (length (ld_own p))) (ld_own p))
               (take (pred (length (ld_stored p))) (ld_stored p)) p)
            (unlock pid i w)
      | _, _ => (w, p)
      end
  end.

(** [store] after the claims: the writes, the sync and the release of cleared slots *)
Definition store_chunks (pid : nat) (p : Ledger) (chunks : list slot) (fits : bool)
    (answers : list write_result) (sync : bool) (w : World) : World * Ledger * bool :=
  match write_all 0 chunks answers p w with
  | (w, p, false) => (w, add_counts 0 1 0 p, false)
  | (w, p, true) =>
      if ld_dirty p && negb sync then (w, add_counts 0 1 0 p, false)
      else
        let '(w, p) := release_blank (length (ld_own p)) pid (set_dirty false p) w in
        (w, add_counts (if fits then 0 else 1) 0 0 p, fits)
  end.

(** [store], on the handle of process [pid] *)
Definition store_with (pid : nat) (p : Ledger) (records : list Doc) (headers : list header_answer)
    (answers : list write_result) (sync : bool) (w : World) : World * Ledger * bool :=
  let '(chunks, fits, unledgered) := chunked p records in
  let p := mk_ledger (ld_own p) (ld_stored p) (ld_held p) (ld_dirty p) (ld_owner p) (ld_overflows p)
             (ld_failures p) (ld_corrupt p) unledgered in
  match claim_all (length chunks - length (ld_own p)) headers pid p w with
  | (w, p, None) => (w, add_counts 0 1 0 p, false)
  | (w, p, Some found) =>
      let chunks := if found then chunks else take (length (ld_own p)) chunks in
      let fits := found && fits in
      let chunks := chunks ++ replicate (length (ld_own p) - length chunks) Blank in
      store_chunks pid p chunks fits answers sync w
  end.

(** ** [orphans], [clear] and [release] *)

(** [_clear] *)
Definition clear_slot (i : nat) (answer : write_result) (sync : bool) (p : Ledger) (w : World)
    : World * Ledger * bool :=
  let p := set_dirty true p in
  match answer with
  | WFail left_ => (write i left_ w, add_counts 0 1 0 p, false)
  | WOk => if sync then (write i Blank w, set_dirty false p, true)
           else (write i Blank w, add_counts 0 1 0 p, false)
  end.

(** The loop of [orphans]: [reads] says whether the first and the second read of a slot
    succeed (a lock is kept when the second does not), [answers] how clearing a torn slot
    goes. *)
Fixpoint orphans_from (pid : nat) (indices : list nat) (reads : nat → bool * bool)
    (answers : nat → write_result * bool) (p : Ledger) (w : World)
    : World * Ledger * list (nat * list Doc) :=
  match indices with
  | [] => (w, p, [])
  | i :: indices =>
      if decide (i ∈ ld_own p ∨ i ∈ ld_held p) then orphans_from pid indices reads answers p w
      else if negb (reads i).1 then orphans_from pid indices reads answers p w
      else if decide (read i w = Blank) then orphans_from pid indices reads answers p w
      else match try_lock pid i w with
           | None => orphans_from pid indices reads answers p w
           | Some w =>
               if negb (reads i).2 then orphans_from pid indices reads answers p w
               else match decode_slot (read i w) with
               | None =>
                   let '(w, p, _) := clear_slot i (answers i).1 (answers i).2 (add_counts 0 0 1 p) w in
                   orphans_from pid indices reads answers p (unlock pid i w)
               | Some [] => orphans_from pid indices reads answers p (unlock pid i w)
               | Some records =>
                   let '(w, p, found) :=
                     orphans_from pid indices reads answers (set_held (i :: ld_held p) p) w in
                   (w, p, (i, records) :: found)
               end
           end
  end.

Definition orphans (pid : nat) (reads : nat → bool * bool) (answers : nat → write_result * bool) (p : Ledger)
    (w : World) : World * Ledger * list (nat * list Doc) :=
  orphans_from pid (seq 0 SLOTS) reads answers p w.

(** [self._held.discard(index)] and [self._unlock(index)] *)
Definition release (pid i : nat) (p : Ledger) (w : World) : World * Ledger :=
  (unlock pid i w, set_held (filter (λ j, j ≠ i) (ld_held p)) p).

Definition clear (pid i : nat) (answer : write_result) (sync : bool) (p : Ledger) (w : World)
    : World * Ledger * bool :=
  let '(w, p, cleared) := clear_slot i answer sync p w in
  let '(w, p) := release pid i p w in (w, p, cleared).

(** ** The processes of a spool *)

(** [LDie] is the end of a process, however it ends; the kernel frees its locks. *)
Inductive ledger_op :=
  | LOpen (pid : nat) (owner : string)
  | LFork (pid child : nat) (owner : string)
  | LDie (pid : nat)
  | LStore (pid : nat) (records : list Doc) (headers : list header_answer) (answers : list write_result)
      (sync : bool)
  | LOrphans (pid : nat) (reads : nat → bool * bool) (answers : nat → write_result * bool)
  | LClear (pid i : nat) (answer : write_result) (sync : bool)
  | LRelease (pid i : nat).

Definition actor (o : ledger_op) : nat :=
  match o with
  | LOpen pid _ | LFork pid _ _ | LDie pid | LStore pid _ _ _ _ | LOrphans pid _ _
  | LClear pid _ _ _ | LRelease pid _ => pid
  end.

(** The kernel frees the record locks of a process that is gone. *)
Definition free_locks (pid : nat) (w : World) : World :=
  mk_world (w_slots w) ((λ o, if decide (o = Some pid) then None else o) <$> w_locks w) (w_procs w).

Definition exec_ledger (w : World) (o : ledger_op) : World :=
  match o with
  | LOpen pid owner => put pid (init_ledger owner) w
  | LFork pid child owner =>
      match w_procs w !! pid with None => w | Some p => put child (after_fork owner p) w end
  | LDie pid => let w := free_locks pid w in mk_world (w_slots w) (w_locks w) (delete pid (w_procs w))
  | LStore pid records headers answers sync =>
      match w_procs w !! pid with
      | None => w
      | Some p => let '(w, p, _) := store_with pid p records headers answers sync w in put pid p w
      end
  | LOrphans pid reads answers =>
      match w_procs w !! pid with
      | None => w
      | Some p => let '(w, p, _) := orphans pid reads answers p w in put pid p w
      end
  | LClear pid i answer sync =>
      match w_procs w !! pid with
      | None => w
      | Some p => let '(w, p, _) := clear pid i answer sync p w in put pid p w
      end
  | LRelease pid i =>
      match w_procs w !! pid with
      | None => w
      | Some p => let '(w, p) := release pid i p w in put pid p w
      end
  end.

(** A process is new when it starts, and the drainer clears and releases what it was given. *)
Definition ledger_legal (w : World) (o : ledger_op) : Prop :=
  match o with
  | LOpen pid _ => w_procs w !! pid = None
  | LFork pid child _ => is_Some (w_procs w !! pid) ∧ w_procs w !! child = None
  | LClear pid i _ _ | LRelease pid i => ∀ p, w_procs w !! pid = Some p → i ∈ ld_held p
  | _ => True
  end.

Inductive ledger_reach : World → Prop :=
  | reach_new : ledger_reach new_world
  | reach_exec w o : ledger_reach w → ledger_legal w o → ledger_reach (exec_ledger w o).

(** ** What a step of a process leaves alone *)

Definition wf_world (w : World) : Prop := length (w_slots w) = SLOTS ∧ length (w_locks w) = SLOTS.

Lemma holder_lock i j o w : wf_world w → (i < SLOTS)%nat →
  holder j (lock i o w) = if decide (j = i) then o else holder j w.
Proof.
  intros [_ Hl] Hi. unfold holder, lock. simpl. case_decide as Hj; [subst|].
  - by rewrite list_lookup_insert_eq by lia.
  - by rewrite list_lookup_insert_ne.
Qed.

Lemma read_write i j s w : wf_world w → (i < SLOTS)%nat →
  read j (write i s w) = if decide (j = i) then s else read j w.
Proof.
  intros [Hl _] Hi. unfold read, write. simpl. case_decide as Hj; [subst|].
  - by rewrite list_lookup_insert_eq by lia.
  - by rewrite list_lookup_insert_ne.
Qed.

(** The locks of the other processes and what they guard stay as they are. *)
Record leaves_others (pid : nat) (w w' : World) : Prop := {
  lo_procs : w_procs w' = w_procs w;
  lo_locks : ∀ i q, q ≠ pid → holder i w' = Some q ↔ holder i w = Some q;
  lo_slots : ∀ i q, q ≠ pid → holder i w = Some q → read i w' = read i w;
}.

Lemma leaves_refl pid w : leaves_others pid w w.
Proof. by split. Qed.

Lemma leaves_trans pid w1 w2 w3 :
  leaves_others pid w1 w2 → leaves_others pid w2 w3 → leaves_others pid w1 w3.
Proof.
  intros [P1 L1 S1] [P2 L2 S2]. split.
  - congruence.
  - intros i q Hq. by rewrite L2, L1.
  - intros i q Hq Hi. rewrite (S2 i q), (S1 i q); [done..|]. by apply L1.
Qed.

(** What a process holds is locked by it. *)
Record owns (pid : nat) (p : Ledger) (w : World) : Prop := {
  o_wf : wf_world w;
  o_nodup : NoDup (ld_own p ++ ld_held p);
  o_locked : ∀ i, i ∈ ld_own p ++ ld_held p → (i < SLOTS)%nat ∧ holder i w = Some pid;
  o_stored : length (ld_stored p) = length (ld_own p);
}.

Lemma lock_wf i o w : wf_world w → wf_world (lock i o w).
Proof. intros []. split; simpl; [done|by rewrite length_insert]. Qed.

Lemma write_wf i s w : wf_world w → wf_world (write i s w).
Proof. intros []. split; simpl; [by rewrite length_insert|done]. Qed.

Lemma try_lock_spec pid i w w' : wf_world w → (i < SLOTS)%nat → try_lock pid i w = Some w' →
  wf_world w' ∧ leaves_others pid w w' ∧ holder i w' = Some pid ∧
  (∀ j, holder j w = Some pid → holder j w' = Some pid) ∧ ∀ j, read j w' = read j w.
Proof.
  intros Hw Hi. unfold try_lock. destruct (holder i w) as [q|] eqn:E.
  - case_decide; [|done]. intros [= <-]. subst. split_and!; [done|apply leaves_refl|done..].
  - intros [= <-]. split_and!; [by apply lock_wf| |by rewrite holder_lock, decide_True| |done].
    + split; [done| |done]. intros j q Hq. rewrite holder_lock by done. case_decide; [|done]. subst.
      rewrite E. split; congruence.
    + intros j Hj. rewrite holder_lock by done. by case_decide.
Qed.

Lemma unlock_spec pid i w : wf_world w → (i < SLOTS)%nat →
  wf_world (unlock pid i w) ∧ leaves_others pid w (unlock pid i w) ∧
  (∀ j, j ≠ i → holder j (unlock pid i w) = holder j w) ∧ ∀ j, read j (unlock pid i w) = read j w.
Proof.
  intros Hw Hi. unfold unlock. case_decide as E; [|split_and!; [done|apply leaves_refl|done..]].
  split_and!; [by apply lock_wf| | |done].
  - split; [done| |done]. intros j q Hq. rewrite holder_lock by done. case_decide; [|done]. subst.
    rewrite E. split; congruence.
  - intros j Hj. by rewrite holder_lock, decide_False.
Qed.

Lemma write_spec pid i s w : wf_world w → (i < SLOTS)%nat → holder i w = Some pid →
  wf_world (write i s w) ∧ leaves_others pid w (write i s w) ∧ ∀ j, holder j (write i s w) = holder j w.
Proof.
  intros Hw Hi Hh. split_and!; [by apply write_wf| |done]. split; [done|done|].
  intros j q Hq Hj. rewrite read_write by done. case_decide; [subst; congruence|done].
Qed.

Lemma owns_step pid p w w' :
  owns pid p w → wf_world w' → (∀ i, i ∈ ld_own p ++ ld_held p → holder i w = Some pid → holder i w' = Some pid) →
  owns pid p w'.
Proof.
  intros [] Hw Hh. split; try done. intros i Hi. destruct (o_locked0 i Hi). split; [done|]. auto.
Qed.

Lemma claim_spec pid p indices readable w :
  owns pid p w → (∀ i, i ∈ indices → (i < SLOTS)%nat) →
  let '(w', r) := claim pid p indices readable w in
  leaves_others pid w w' ∧ owns pid p w' ∧ (∀ j, read j w' = read j w) ∧
  ∀ i, r = Some (Some i) → i ∉ ld_own p ++ ld_held p ∧ (i < SLOTS)%nat ∧ holder i w' = Some pid ∧ read i w' = Blank.
Proof.
  revert w. induction indices as [|i indices IH]; intros w Ho Hi; simpl.
  { split_and!; [apply leaves_refl|done..]. }
  assert (∀ j, j ∈ indices → (j < SLOTS)%nat) as Hi' by (intros; apply Hi; by constructor).
  assert (i < SLOTS)%nat as Hii by (apply Hi; constructor).
  case_decide as Hown; [by apply IH|].
  destruct (try_lock pid i w) as [w1|] eqn:Ht; [|by apply IH].
  destruct (try_lock_spec _ _ _ _ (o_wf _ _ _ Ho) Hii Ht) as (Hw1 & Hl1 & Hh1 & Hk1 & Hr1).
  assert (owns pid p w1) as Ho1 by (eapply owns_step; eauto).
  destruct (negb (readable i)).
  { split_and!; [done..|]. done. }
  case_decide as Hb.
  - split_and!; [done..|]. intros j [= <-]. split_and!; [|done..]. rewrite elem_of_app. done.
  - destruct (unlock_spec pid i w1 Hw1 Hii) as (Hw2 & Hl2 & Hh2 & Hr2).
    assert (owns pid p (unlock pid i w1)) as Ho2.
    { eapply owns_step; [exact Ho1|done|]. intros j Hj Hjh. rewrite Hh2; [done|]. intros ->.
      apply Hown. by apply elem_of_app in Hj. }
    specialize (IH _ Ho2 Hi'). destruct (claim pid p indices readable (unlock pid i w1)) as [w' r].
    destruct IH as (Hl & Ho' & Hr & Hf). split_and!; [|done| |done].
    + eapply leaves_trans; [exact Hl1|]. by eapply leaves_trans.
    + intros j. by rewrite Hr, Hr2, Hr1.
Qed.

(** ** What a process believes of its slots *)

(** What [_stored] says is what the file holds. *)
Definition mirrored (p : Ledger) (w : World) : Prop :=
  ∀ k i, ld_own p !! k = Some i → ld_stored p !! k = Some (read i w).

Lemma mirrored_read p w w' :
  mirrored p w → (∀ i, i ∈ ld_own p → read i w' = read i w) → mirrored p w'.
Proof.
  intros Hm Hr k i Hk. rewrite (Hm k i Hk), Hr; [done|]. by eapply list_elem_of_lookup_2.
Qed.

Lemma claim_all_spec missing headers pid p w :
  owns pid p w →
  let '(w', p', r) := claim_all missing headers pid p w in
  leaves_others pid w w' ∧ owns pid p' w' ∧ (∀ j, read j w' = read j w) ∧
  (mirrored p w → mirrored p' w') ∧
  ∃ l, p' = set_own (ld_own p ++ l) (ld_stored p ++ replicate (length l) Blank) p ∧
       (length l <= missing)%nat ∧ (r = Some true → length l = missing).
Proof.
  revert headers p w. induction missing as [|missing IH]; intros headers p w Ho; cbn [claim_all].
  { split_and!; [apply leaves_refl|done..|]. exists []. by rewrite !app_nil_r; destruct p. }
  assert (∀ r, r ≠ Some true → ∃ l, p = set_own (ld_own p ++ l) (ld_stored p ++ replicate (length l) Blank) p ∧
    (length l <= S missing)%nat ∧ (r = Some true → length l = S missing)) as Hstop.
  { intros r Hr. exists []. rewrite !app_nil_r. destruct p. split_and!; [done|simpl; lia|done]. }
  destruct (default header_ok (head headers)) as [[] readable]; cycle 1.
  { split_and!; [apply leaves_refl|done..|]. by apply Hstop. }
  pose proof (claim_spec pid p (seq 0 SLOTS) readable w Ho) as Hc.
  destruct (claim pid p (seq 0 SLOTS) readable w) as [w1 r].
  destruct Hc as (Hl & Ho1 & Hr & Hf). { intros i [_ Hi]%elem_of_seq. lia. }
  assert (mirrored p w → mirrored p w1) as Hm by (intros ?; eapply mirrored_read; eauto).
  destruct r as [[i|]|]; [|split_and!; [done..|]; by apply Hstop|split_and!; [done..|]; by apply Hstop].
  destruct (Hf i eq_refl) as (Hnew & Hi & Hh & Hb).
  assert (owns pid (set_own (ld_own p ++ [i]) (ld_stored p ++ [Blank]) p) w1) as Ho2.
  { destruct Ho1. split; simpl; [done| | |rewrite !length_app; simpl; lia].
    - rewrite <-app_assoc. simpl. rewrite <-Permutation_middle. by constructor.
    - intros j. rewrite !elem_of_app, list_elem_of_singleton.
      intros [[Hj|Hj]|Hj]; [|by subst|]; apply o_locked0, elem_of_app; auto. }
  specialize (IH (tail headers) _ _ Ho2).
  destruct (claim_all missing (tail headers) pid _ w1) as [[w2 p2] r2].
  destruct IH as (Hl2 & Ho3 & Hr2 & Hm2 & l & -> & Hlen & Hfull).
  split_and!; [by eapply leaves_trans|done|intros j; by rewrite Hr2, Hr| |].
  - intros Hm0. apply Hm2. intros k j. simpl. intros Hk%lookup_app_Some.
    destruct Hk as [Hk|[Hk1 Hk]]; [by apply lookup_app_l_Some, Hm|].
    apply list_lookup_singleton_Some in Hk as [Hk <-].
    rewrite lookup_app_r by (rewrite (o_stored _ _ _ Ho1); lia).
    rewrite (o_stored _ _ _ Ho1), Hk, Hb. done.
  - exists (i :: l). simpl. rewrite <-!app_assoc. split_and!; [done|lia|]. intros ?. rewrite Hfull; done.
Qed.

Lemma write_all_spec pid chunks position answers p w :
  owns pid p w → (position + length chunks = length (ld_own p))%nat →
  let '(w', p', done) := write_all position chunks answers p w in
  leaves_others pid w w' ∧ owns pid p' w' ∧
  ∃ stored d, p' = set_dirty d (set_own (ld_own p) stored p) ∧
  (done = true → stored = take position (ld_stored p) ++ chunks ∧ (mirrored p w → mirrored p' w')).
Proof.
  revert position answers p w. induction chunks as [|data chunks IH]; intros position answers p w Ho Hlen; simpl in *.
  { split_and!; [apply leaves_refl|done|]. exists (ld_stored p), (ld_dirty p). split; [by destruct p|].
    intros _. split; [|done]. rewrite app_nil_r, take_ge; [done|]. rewrite (o_stored _ _ _ Ho). lia. }
  case_decide as Hs.
  - specialize (IH (S position) answers p w Ho ltac:(lia)).
    destruct (write_all (S position) chunks answers p w) as [[w' p'] b].
    destruct IH as (Hl & Ho' & stored & d & -> & Hb). split_and!; [done..|]. exists stored, d. split; [done|].
    intros Hbt. destruct (Hb Hbt) as [-> Hm]. split; [|done]. by rewrite (take_S_r _ _ data), <-app_assoc.
  - destruct (lookup_lt_is_Some_2 (ld_own p) position ltac:(lia)) as [i Hi]. rewrite Hi. simpl.
    destruct (o_locked _ _ _ Ho i) as [Hii Hh].
    { apply elem_of_app. left. by eapply list_elem_of_lookup_2. }
    destruct (default WOk (head answers)) as [|left_]; cycle 1.
    { destruct (write_spec pid i left_ w (o_wf _ _ _ Ho) Hii Hh) as (Hw & Hl & Hk).
      split_and!; [done| |exists (ld_stored p), true; split; [by destruct p|done]].
      eapply (owns_step pid _ w); [by destruct Ho|done|]. intros j _. by rewrite Hk. }
    destruct (write_spec pid i data w (o_wf _ _ _ Ho) Hii Hh) as (Hw & Hl & Hk).
    set (p1 := set_own _ _ (set_dirty true p)).
    assert (owns pid p1 (write i data w)) as Ho1.
    { eapply (owns_step pid _ w); [|done|intros j _; by rewrite Hk].
      destruct Ho. split; simpl; [done..|]. by rewrite length_insert. }
    specialize (IH (S position) (tail answers) p1 _ Ho1 ltac:(simpl; lia)).
    destruct (write_all (S position) chunks (tail answers) p1 (write i data w)) as [[w' p'] b].
    destruct IH as (Hl2 & Ho2 & stored & d & -> & Hb).
    split_and!; [by eapply leaves_trans|done|]. exists stored, d. split; [by destruct p|].
    intros Hbt. destruct (Hb Hbt) as [-> Hm]. split.
    { simpl. rewrite (take_S_r _ _ data), take_insert_ge by
        (rewrite ?list_lookup_insert_eq; rewrite ?(o_stored _ _ _ Ho); done || lia).
      by rewrite <-app_assoc. }
    intros Hm0. apply Hm. intros k j. simpl. intros Hj. rewrite read_write by (destruct Ho; done).
    destruct (decide (k = position)) as [->|Hne].
    + rewrite list_lookup_insert_eq by (rewrite (o_stored _ _ _ Ho); lia). rewrite Hi in Hj.
      injection Hj as ->. by rewrite decide_True.
    + rewrite list_lookup_insert_ne by done. rewrite decide_False; [by apply Hm0|]. intros ->.
      apply Hne. destruct Ho. apply NoDup_app in o_nodup0 as [Hnd _]. by eapply NoDup_lookup.
Qed.

Lemma owns_unlock pid own stored i p w :
  owns pid p w → (i < SLOTS)%nat → NoDup (own ++ ld_held p) → i ∉ own ++ ld_held p →
  own ⊆ ld_own p → length stored = length own →
  owns pid (set_own own stored p) (unlock pid i w).
Proof.
  intros [Hw Hnd Hl Hs] Hi Hnd' Hnew Hsub Hlen. destruct (unlock_spec pid i w Hw Hi) as (Hw' & _ & Hh & _).
  split; simpl; [done..| |done]. intros j Hj. rewrite Hh by (intros ->; done).
  apply Hl. rewrite elem_of_app in Hj |- *. destruct Hj; auto.
Qed.

Lemma release_blank_spec fuel pid p w :
  owns pid p w →
  let '(w', p') := release_blank fuel pid p w in
  leaves_others pid w w' ∧ owns pid p' w' ∧ (∀ j, read j w' = read j w) ∧
  ∃ own stored gone, p' = set_own own stored p ∧ ld_own p = own ++ gone ∧
    ld_stored p = stored ++ replicate (length gone) Blank ∧
    ((length (ld_own p) <= fuel)%nat → last stored ≠ Some Blank).
Proof.
  revert p w. induction fuel as [|fuel IH]; intros p w Ho; cbn [release_blank].
  { split_and!; [apply leaves_refl|done..|]. exists (ld_own p), (ld_stored p), []. simpl. rewrite !app_nil_r.
    split_and!; [by destruct p|done..|]. intros Hz. pose proof (o_stored _ _ _ Ho).
    destruct (ld_stored p); [done|simpl in *; lia]. }
  assert (last (ld_stored p) ≠ Some Blank →
    leaves_others pid w w ∧ owns pid p w ∧ (∀ j, read j w = read j w) ∧
    ∃ own stored gone, p = set_own own stored p ∧ ld_own p = own ++ gone ∧
      ld_stored p = stored ++ replicate (length gone) Blank ∧
      ((length (ld_own p) <= S fuel)%nat → last stored ≠ Some Blank)) as Hstop.
  { intros Hb. split_and!; [apply leaves_refl|done..|]. exists (ld_own p), (ld_stored p), []. simpl.
    rewrite !app_nil_r. by destruct p. }
  destruct (last (ld_own p)) as [i|] eqn:Hown; cycle 1.
  { apply Hstop. apply last_None in Hown. pose proof (o_stored _ _ _ Ho) as Hl. rewrite Hown in Hl.
    by destruct (ld_stored p). }
  destruct (last (ld_stored p)) as [[]|] eqn:Hst; try by apply Hstop.
  apply last_Some in Hown as [own Hown], Hst as [st Hst]. rewrite Hown, Hst.
  pose proof (o_stored _ _ _ Ho) as Hl. rewrite Hown, Hst, !length_app in Hl. simpl in Hl.
  assert (∀ A (l : list A) x, take (pred (length (l ++ [x]))) (l ++ [x]) = l) as Htake.
  { intros A l x. rewrite length_app, Nat.add_comm. apply take_app_length. }
  rewrite !Htake.
  pose proof (o_nodup _ _ _ Ho) as Hnd. rewrite Hown, <-app_assoc in Hnd. simpl in Hnd.
  rewrite <-Permutation_middle in Hnd. apply NoDup_cons in Hnd as [Hnew Hnd].
  assert (i < SLOTS)%nat as Hi.
  { apply (o_locked _ _ _ Ho). rewrite Hown. set_solver. }
  assert (owns pid (set_own own st p) (unlock pid i w)) as Ho1.
  { apply owns_unlock; [done..| |lia]. rewrite Hown. set_solver. }
  destruct (unlock_spec pid i w (o_wf _ _ _ Ho) Hi) as (_ & Hl1 & _ & Hr1).
  specialize (IH _ _ Ho1). destruct (release_blank fuel pid (set_own own st p) (unlock pid i w)) as [w' p'].
  destruct IH as (Hl2 & Ho2 & Hr2 & own' & st' & gone & -> & Hown' & Hst' & Hlast). simpl in *. subst own st.
  split_and!; [by eapply leaves_trans|done|intros j; by rewrite Hr2, Hr1|].
  exists own', st', (gone ++ [i]). split_and!; [done|by rewrite app_assoc| |].
  - by rewrite length_app, replicate_add, app_assoc.
  - intros Hf. apply Hlast. rewrite length_app in Hf. simpl in Hf. lia.
Qed.

(** ** What the chunks hold *)

Lemma encode_Some owner records s : encode owner records = Some s → s = Holding owner (sort_doc <$> records).
Proof. unfold encode. case_match; [done|]. by intros [= <-]. Qed.

(** The records of some slots, in order. *)
Definition slot_docs (slots : list slot) : list Doc := slots ≫= λ s, default [] (decode_slot s).

Lemma slot_docs_app l k : slot_docs (l ++ k) = slot_docs l ++ slot_docs k.
Proof. apply bind_app. Qed.

Lemma slot_docs_blank n : slot_docs (replicate n Blank) = [].
Proof. by induction n. Qed.

Lemma slot_docs_one owner rs : slot_docs [Holding owner rs] = rs.
Proof. apply app_nil_r. Qed.

(** A record that no slot is large enough for. *)
Definition oversized (owner : string) (record : Doc) : Prop := encode owner [record] = None.
#[export] Instance oversized_dec owner record : Decision (oversized owner record).
Proof. unfold oversized. apply _. Defined.

(** The records the ledger is to hold, as they are read back. *)
Definition to_mirror (owner : string) (records : list Doc) : list Doc :=
  sort_doc <$> filter (λ r, ¬ oversized owner r) records.

Record filled (owner : string) (seen : list Doc) (c : Chunks) : Prop := {
  fi_chunks : Forall (λ s, ∃ rs, rs ≠ [] ∧ s = Holding owner rs) (ck_chunks c);
  fi_batch : ck_batch c = [] ∨ ∃ s, encode owner (ck_batch c) = Some s;
  fi_room : (length (ck_chunks c) <= MAX_OWN_SLOTS)%nat;
  fi_grow : ck_batch c ≠ [] → (length (ck_chunks c) < MAX_OWN_SLOTS)%nat;
  fi_docs : ck_fits c = true →
    slot_docs (ck_chunks c) ++ (sort_doc <$> ck_batch c) = to_mirror owner seen;
  fi_left : ck_fits c = true → ∀ r, r ∈ seen → oversized owner r → is_manifest r = true;
}.

(** The batch becomes a chunk. *)
Definition flush (owner : string) (c : Chunks) : Chunks :=
  mk_chunks (ck_chunks c ++ [default Blank (encode owner (ck_batch c))]) [] (ck_fits c) (ck_unledgered c).

Lemma filled_flush owner seen c : filled owner seen c → ck_batch c ≠ [] → filled owner seen (flush owner c).
Proof.
  intros [Hc Hb Hr Hg Hd Hl] Hne. destruct Hb as [?|[s Hs]]; [done|]. pose proof (encode_Some _ _ _ Hs) as ->.
  specialize (Hg Hne). unfold flush. rewrite Hs. split; simpl.
  - apply Forall_app. split; [done|]. apply Forall_singleton. eexists; split; [|done].
    by destruct (ck_batch c).
  - by left.
  - rewrite length_app. simpl. lia.
  - done.
  - intros Hf. cbn [default]. by rewrite slot_docs_app, slot_docs_one, app_nil_r, <-Hd.
  - done.
Qed.

Lemma to_mirror_snoc owner seen r : to_mirror owner (seen ++ [r]) =
  to_mirror owner seen ++ if decide (oversized owner r) then [] else [sort_doc r].
Proof.
  unfold to_mirror. rewrite filter_app, fmap_app. f_equal. rewrite filter_cons, filter_nil.
  destruct (decide (oversized owner r)); by repeat case_decide.
Qed.

Lemma fill_spec owner records seen c :
  filled owner seen c → (length (ck_chunks c) < MAX_OWN_SLOTS)%nat →
  filled owner (seen ++ records) (fill owner records c).
Proof.
  revert seen c. induction records as [|r records IH]; intros seen c Hf Hroom; cbn [fill].
  { by rewrite app_nil_r. }
  rewrite cons_middle, app_assoc.
  assert (∀ c', filled owner seen c' → (length (ck_chunks c') < MAX_OWN_SLOTS)%nat →
      (is_Some (encode owner (ck_batch c' ++ [r])) ∨ ck_batch c' = []) →
      filled owner ((seen ++ [r]) ++ records)
       (if decide (encode owner [r] = None)
        then fill owner records
               (mk_chunks (ck_chunks c') (ck_batch c') (is_manifest r && ck_fits c')
                  (if is_manifest r then ck_unledgered c' ++ [manifest_event r] else ck_unledgered c'))
        else fill owner records
               (mk_chunks (ck_chunks c') (ck_batch c' ++ [r]) (ck_fits c') (ck_unledgered c')))) as Hnext.
  { intros c' [Hc Hb Hr Hg Hd Hl] Hroom' Henc. case_decide as Ho; apply IH; try done; split; simpl; try done.
    - intros [_ Hfit]%andb_true_iff. rewrite to_mirror_snoc, decide_True, app_nil_r by done. by apply Hd.
    - intros [Hm Hfit]%andb_true_iff q [Hq| ->%list_elem_of_singleton]%elem_of_app Hq'; [by eapply Hl|done].
    - right. destruct Henc as [Henc| ->]; [done|]. simpl. by apply not_eq_None_Some.
    - intros Hfit. rewrite to_mirror_snoc, decide_False, fmap_app, app_assoc, Hd by done. done.
    - intros Hfit q [Hq| ->%list_elem_of_singleton]%elem_of_app Hq'; [by eapply Hl|done]. }
  destruct (bool_decide (encode owner (ck_batch c ++ [r]) = None)) eqn:Hfull;
    [apply bool_decide_eq_true in Hfull|apply bool_decide_eq_false in Hfull]; cbn [andb negb]; cycle 1.
  { apply Hnext; [done..|]. left. by apply not_eq_None_Some. }
  destruct (bool_decide (ck_batch c = [])) eqn:Hne;
    [apply bool_decide_eq_true in Hne|apply bool_decide_eq_false in Hne]; cbn [andb negb].
  { apply Hnext; auto. }
  fold (flush owner c). pose proof (filled_flush _ _ _ Hf Hne) as Hff.
  destruct (MAX_OWN_SLOTS <=? length (ck_chunks (flush owner c)))%nat eqn:Hmax.
  - destruct Hff. by split.
  - apply Nat.leb_gt in Hmax. apply Hnext; auto.
Qed.

Lemma chunked_spec p records :
  let '(chunks, fits, unledgered) := chunked p records in
  Forall (λ s, ∃ rs, rs ≠ [] ∧ s = Holding (ld_owner p) rs) chunks ∧ (length chunks <= MAX_OWN_SLOTS)%nat ∧
  (fits = true → slot_docs chunks = to_mirror (ld_owner p) records ∧
     ∀ r, r ∈ records → oversized (ld_owner p) r → is_manifest r = true).
Proof.
  unfold chunked. pose proof (fill_spec (ld_owner p) records [] (mk_chunks [] [] true (ld_unledgered p))) as Hf.
  destruct Hf as [Hc Hb Hr Hg Hd Hl]; simpl in *.
  - split; simpl; [done|by left|unfold MAX_OWN_SLOTS; lia|done..|]. by intros _ r ?%not_elem_of_nil.
  - unfold MAX_OWN_SLOTS. lia.
  - set (c := fill _ _ _) in *. destruct (ck_batch c) as [|r batch] eqn:Eb.
    { split_and!; [done..|]. intros Hfit. rewrite <-(Hd Hfit). simpl. rewrite app_nil_r. split; [done|by apply Hl]. }
    destruct Hb as [?|[s Hs]]; [done|]. rewrite Hs. pose proof (encode_Some _ _ _ Hs) as ->.
    split_and!.
    + apply Forall_app. split; [done|]. apply Forall_singleton. eexists. split; [|done]. done.
    + rewrite length_app. simpl. assert (length (ck_chunks c) < MAX_OWN_SLOTS)%nat by (by apply Hg). lia.
    + intros Hfit. split; [|by apply Hl]. simpl. by rewrite <-(Hd Hfit), slot_docs_app, slot_docs_one.
Qed.

(** ** [store] keeps the books *)

(** What holds of the handle of a process between two steps. *)
Record sound (pid : nat) (p : Ledger) (w : World) : Prop := {
  s_owns : owns pid p w;
  s_bound : (length (ld_own p) <= MAX_OWN_SLOTS)%nat;
  s_count : 0 ≤ ld_failures p;
  s_mirror : ld_failures p = 0 → mirrored p w;
}.

Lemma owns_same pid p p' w :
  ld_own p' = ld_own p → ld_held p' = ld_held p → ld_stored p' = ld_stored p → owns pid p w → owns pid p' w.
Proof. intros Ho Hh Hs []. split; rewrite ?Ho, ?Hh, ?Hs; done. Qed.

Lemma mirrored_same p p' w :
  ld_own p' = ld_own p → ld_stored p' = ld_stored p → mirrored p w → mirrored p' w.
Proof. unfold mirrored. by intros -> ->. Qed.

Lemma sound_failed pid p w o c :
  owns pid p w → (length (ld_own p) <= MAX_OWN_SLOTS)%nat → 0 ≤ ld_failures p →
  sound pid (add_counts o 1 c p) w.
Proof. intros Ho Hb Hf. split; simpl; [by apply (owns_same pid p)|done|lia|]. intros. lia. Qed.

Lemma mirrored_stored pid p w :
  owns pid p w → mirrored p w → ld_stored p = (λ i, read i w) <$> ld_own p.
Proof.
  intros Ho Hm. apply list_eq. intros k. rewrite list_lookup_fmap.
  destruct (ld_own p !! k) as [i|] eqn:Hk; simpl; [by apply Hm|].
  apply lookup_ge_None. rewrite (o_stored _ _ _ Ho). by apply lookup_ge_None.
Qed.

Lemma release_mirrored own stored gone p w :
  ld_own p = own ++ gone → ld_stored p = stored ++ replicate (length gone) Blank →
  length stored = length own → mirrored p w → mirrored (set_own own stored p) w.
Proof.
  intros Ho Hs Hl Hm k i Hk. simpl in *. pose proof (lookup_lt_Some _ _ _ Hk).
  pose proof (Hm k i) as H'. rewrite Ho, Hs in H'. rewrite <-H' by (by apply lookup_app_l_Some).
  by rewrite lookup_app_l by lia.
Qed.

(** What a store that succeeds has done. *)
Record stored_all (p : Ledger) (records : list Doc) (p' : Ledger) : Prop := {
  sa_dirty : ld_dirty p' = false;
  sa_failures : ld_failures p' = ld_failures p;
  sa_docs : slot_docs (ld_stored p') = to_mirror (ld_owner p) records;
  sa_left : ∀ r, r ∈ records → oversized (ld_owner p) r → is_manifest r = true;
  sa_last : last (ld_stored p') ≠ Some Blank;
}.

Lemma store_chunks_spec pid p chunks (fits : bool) answers (sync : bool) w :
  owns pid p w → (length (ld_own p) <= MAX_OWN_SLOTS)%nat → 0 ≤ ld_failures p →
  (ld_failures p = 0 → mirrored p w) → length chunks = length (ld_own p) →
  let '(w', p', r) := store_chunks pid p chunks fits answers sync w in
  leaves_others pid w w' ∧ sound pid p' w' ∧ ld_owner p' = ld_owner p ∧ ld_held p' = ld_held p ∧
  (r = true → fits = true ∧ ld_dirty p' = false ∧ ld_failures p' = ld_failures p ∧
    slot_docs (ld_stored p') = slot_docs chunks ∧ last (ld_stored p') ≠ Some Blank).
Proof.
  intros Ho Hb Hc Hm Hlen. unfold store_chunks. pose proof (write_all_spec pid chunks 0 answers p w Ho Hlen) as Hw.
  destruct (write_all 0 chunks answers p w) as [[w1 p1] []]; destruct Hw as (Hl1 & Ho1 & stored & d & -> & Hw);
    [|by split_and!; [|apply sound_failed|..]].
  destruct (Hw eq_refl) as [Hst Hm1]. simpl in Hst. subst stored. cbn [ld_dirty set_dirty].
  destruct (d && negb sync); [by split_and!; [|apply sound_failed|..]|].
  set (p1 := set_own (ld_own p) chunks p) in *.
  assert (owns pid (set_dirty false (set_dirty d p1)) w1) as Ho2 by (by eapply owns_same; [..|exact Ho1]).
  pose proof (release_blank_spec (length (ld_own p)) pid _ _ Ho2) as Hr. cbn [ld_own set_dirty p1 set_own] in *.
  destruct (release_blank (length (ld_own p)) pid _ w1) as [w2 p2].
  destruct Hr as (Hl2 & Ho3 & Hr2 & own & st & gone & -> & Hown & Hst & Hlast). simpl in Hown, Hst.
  pose proof (o_stored _ _ _ Ho3) as Hls. simpl in Hls.
  split_and!; [by eapply leaves_trans| |done|done|].
  - split; simpl; [by eapply owns_same; [..|exact Ho3]| |lia|].
    + rewrite Hown, length_app in Hb. lia.
    + intros Hz k i Hk. simpl in *. rewrite Hr2.
      eapply (release_mirrored own st gone p1 w1); [done..| |exact Hk].
      apply (mirrored_same (set_dirty d p1)); [done..|]. apply Hm1, Hm. lia.
  - intros ->. simpl. split_and!; [done..|lia| |by apply Hlast].
    by rewrite Hst, slot_docs_app, slot_docs_blank, app_nil_r.
Qed.

Lemma store_spec pid p records headers answers sync w :
  sound pid p w →
  let '(w', p', r) := store_with pid p records headers answers sync w in
  leaves_others pid w w' ∧ sound pid p' w' ∧ ld_owner p' = ld_owner p ∧ ld_held p' = ld_held p ∧
  (r = true → stored_all p records p').
Proof.
  intros [Ho Hb Hc Hm]. unfold store_with. pose proof (chunked_spec p records) as Hch.
  destruct (chunked p records) as [[chunks fits] unl]. destruct Hch as (_ & Hmax & Hdocs).
  set (p0 := mk_ledger _ _ _ _ _ _ _ _ _).
  assert (owns pid p0 w) as Ho0 by (by apply (owns_same pid p)).
  pose proof (claim_all_spec (length chunks - length (ld_own p)) headers pid p0 w Ho0) as Hcl.
  destruct (claim_all _ _ _ _ _) as [[w1 p1] r]. destruct Hcl as (Hl1 & Ho1 & Hr1 & Hm1 & l & -> & Hlen & Hfull).
  set (p1 := set_own _ _ p0) in *.
  assert (length (ld_own p1) <= MAX_OWN_SLOTS)%nat as Hb1 by (simpl; rewrite length_app; lia).
  destruct r as [found|]; [|by split_and!; [|apply sound_failed|..]].
  set (kept := if found then chunks else take (length (ld_own p1)) chunks).
  assert (length kept ≤ length (ld_own p1))%nat as Hk.
  { subst kept. destruct found; [|rewrite length_take; lia]. simpl. rewrite length_app, Hfull by done. lia. }
  pose proof (store_chunks_spec pid p1 (kept ++ replicate (length (ld_own p1) - length kept) Blank) (found && fits)
    answers sync w1) as Hw.
  destruct (store_chunks _ _ _ _ _ _ _) as [[w2 p2] b].
  destruct Hw as (Hl2 & Hs2 & Ho2 & Hh2 & Hr2); [done..|by intros Hz; apply Hm1, Hm| |].
  { rewrite length_app, length_replicate. lia. }
  split_and!; [by eapply leaves_trans|done..|]. intros Hr. destruct (Hr2 Hr) as (Hf & Hd & Hfl & Hsd & Hlast).
  apply andb_true_iff in Hf as [-> Hf]. destruct (Hdocs Hf) as [Hdoc Hleft]. split; [done..| |done|done].
  by rewrite Hsd, slot_docs_app, slot_docs_blank, app_nil_r.
Qed.

(** What is on disk after a step of the process: in each of its slots what [_stored] says, or
    what [_stored] said and the disk held before. *)
Definition believed (p : Ledger) (w : World) (p' : Ledger) (w' : World) : Prop :=
  ∀ k i, ld_own p' !! k = Some i →
    ld_stored p' !! k = Some (read i w') ∨
    ld_own p !! k = Some i ∧ ld_stored p !! k = ld_stored p' !! k ∧ read i w' = read i w.

Lemma believed_trans p w p1 w1 p2 w2 : believed p w p1 w1 → believed p1 w1 p2 w2 → believed p w p2 w2.
Proof.
  intros H1 H2 k i Hk. destruct (H2 k i Hk) as [?|(Ho & Hs & Hr)]; [by left|].
  destruct (H1 k i Ho) as [E|(Ho1 & Hs1 & Hr1)]; [left|right]; [by rewrite <-Hs, Hr|].
  split_and!; [done|congruence..].
Qed.

Lemma claim_all_believed missing headers pid p w :
  owns pid p w →
  let '(w', p', _) := claim_all missing headers pid p w in believed p w p' w'.
Proof.
  intros Ho.
  assert (∀ p0 w0 hs m, owns pid p0 w0 → believed p w p0 w0 →
    let '(w', p', _) := claim_all m hs pid p0 w0 in believed p w p' w') as H.
  2:{ apply H; [done|]. intros k i Hk. by right. }
  clear missing headers. intros p0 w0 hs m. revert p0 w0 hs.
  induction m as [|m IH]; intros p0 w0 hs Ho0 Hb; cbn [claim_all]; [done|].
  destruct (default header_ok (head hs)) as [[] readable]; [|done].
  pose proof (claim_spec pid p0 (seq 0 SLOTS) readable w0 Ho0) as Hc.
  destruct (claim pid p0 (seq 0 SLOTS) readable w0) as [w1 r].
  destruct Hc as (Hl & Ho1 & Hr & Hf). { intros i [_ Hi]%elem_of_seq. lia. }
  assert (believed p w p0 w1) as Hb1.
  { intros k i Hk. destruct (Hb k i Hk) as [?|(? & ? & ?)]; [left|right; split_and!]; by rewrite ?Hr. }
  destruct r as [[i|]|]; [|done..]. destruct (Hf i eq_refl) as (Hnew & Hi & Hh & Hbl).
  apply IH.
  - destruct Ho1. split; simpl; [done| | |rewrite !length_app; simpl; lia].
    + rewrite <-app_assoc. simpl. rewrite <-Permutation_middle. by constructor.
    + intros j. rewrite !elem_of_app, list_elem_of_singleton.
      intros [[Hj|Hj]|Hj]; [|by subst|]; apply o_locked0, elem_of_app; auto.
  - intros k j. simpl. intros Hk%lookup_app_Some. pose proof (o_stored _ _ _ Ho0) as Hst.
    destruct Hk as [Hk|[Hk1 Hk]].
    + pose proof (lookup_lt_Some _ _ _ Hk). rewrite lookup_app_l by lia. by apply Hb1.
    + apply list_lookup_singleton_Some in Hk as [Hk <-]. left.
      rewrite lookup_app_r by lia. replace (k - length (ld_stored p0))%nat with 0%nat by lia. simpl. by rewrite Hbl.
Qed.

Lemma write_all_believed pid chunks position answers p w :
  owns pid p w → (position + length chunks = length (ld_own p))%nat →
  let '(w', p', _) := write_all position chunks answers p w in
  (∀ k i, (k < position)%nat → ld_own p !! k = Some i → read i w' = read i w ∧ ld_stored p' !! k = ld_stored p !! k) ∧
  ((write_all position chunks answers p w).2 = true → believed p w p' w').
Proof.
  revert position answers p w. induction chunks as [|data chunks IH]; intros position answers p w Ho Hlen; simpl in *.
  { split; [done|]. intros _ k i Hk. by right. }
  case_decide as Hs.
  - specialize (IH (S position) answers p w Ho ltac:(lia)).
    destruct (write_all (S position) chunks answers p w) as [[w' p'] b]. destruct IH as [H1 H2].
    split; [|done]. intros k i Hk. apply H1. lia.
  - destruct (lookup_lt_is_Some_2 (ld_own p) position ltac:(lia)) as [i Hi]. rewrite Hi. simpl.
    destruct (o_locked _ _ _ Ho i) as [Hii Hh]; [apply elem_of_app; left; by eapply list_elem_of_lookup_2|].
    assert (∀ s k j, (k ≠ position)%nat → ld_own p !! k = Some j → read j (write i s w) = read j w) as Hother.
    { intros s k j Hk Hj. rewrite (read_write _ _ _ _ (o_wf _ _ _ Ho) Hii), decide_False; [done|]. intros ->. apply Hk.
      pose proof (o_nodup _ _ _ Ho) as Hnd. apply NoDup_app in Hnd as [Hnd _]. by eapply NoDup_lookup. }
    destruct (default WOk (head answers)) as [|left_]; [|split; [intros k j Hk Hj; split; [apply (Hother _ k); [lia|done]|done]|done]].
    destruct (write_spec pid i data w (o_wf _ _ _ Ho) Hii Hh) as (Hw & Hl & Hk).
    set (p1 := set_own _ _ (set_dirty true p)).
    assert (owns pid p1 (write i data w)) as Ho1.
    { eapply (owns_step pid _ w); [|done|intros j _; by rewrite Hk].
      destruct Ho. split; simpl; [done..|]. by rewrite length_insert. }
    specialize (IH (S position) (tail answers) p1 _ Ho1 ltac:(simpl; lia)).
    destruct (write_all (S position) chunks (tail answers) p1 (write i data w)) as [[w' p'] b]. destruct IH as [H1 H2].
    assert (∀ k j, (k < position)%nat → ld_own p !! k = Some j → read j w' = read j w ∧ ld_stored p' !! k = ld_stored p !! k) as Hlow.
    { intros k j Hlt Hj. destruct (H1 k j ltac:(lia) Hj) as [Hr Hst]. rewrite Hr, Hst, (Hother data k) by (done || lia).
      split; [done|]. simpl. rewrite list_lookup_insert_ne by lia. done. }
    split; [done|]. simpl. intros Hb. eapply believed_trans; [|by apply H2]. intros k j Hj. simpl in Hj |- *.
    pose proof (o_stored _ _ _ Ho) as Hst. pose proof (lookup_lt_Some _ _ _ Hj).
    destruct (decide (k = position)) as [->|Hne].
    + left. assert (j = i) as -> by congruence. rewrite list_lookup_insert_eq by (rewrite Hst; done).
      by rewrite (read_write _ _ _ _ (o_wf _ _ _ Ho) Hii), decide_True.
    + right. rewrite list_lookup_insert_ne by done. split_and!; [done..|]. by apply (Hother data k).
Qed.

Lemma store_chunks_believed pid p chunks (fits : bool) answers (sync : bool) w w' p' :
  owns pid p w → length chunks = length (ld_own p) →
  store_chunks pid p chunks fits answers sync w = (w', p', true) → believed p w p' w'.
Proof.
  intros Ho Hlen. unfold store_chunks. pose proof (write_all_spec pid chunks 0 answers p w Ho Hlen) as Hw.
  pose proof (write_all_believed pid chunks 0 answers p w Ho Hlen) as Hb.
  destruct (write_all 0 chunks answers p w) as [[w1 p1] []]; [|done]. destruct Hb as [_ Hb]. specialize (Hb eq_refl).
  destruct Hw as (_ & Ho1 & _). destruct (ld_dirty p1 && negb sync); [done|].
  assert (owns pid (set_dirty false p1) w1) as Ho2 by (by eapply owns_same; [..|exact Ho1]).
  pose proof (release_blank_spec (length (ld_own p1)) pid _ _ Ho2) as Hr.
  destruct (release_blank (length (ld_own p1)) pid _ w1) as [w2 p2].
  destruct Hr as (_ & Ho3 & Hr2 & own & st & gone & -> & Hown & Hst & _). simpl in Hown, Hst. pose proof (o_stored _ _ _ Ho3) as Hls. simpl in Hls.
  intros [= <- <- _]. eapply believed_trans; [exact Hb|]. intros k i. simpl. intros Hk. right.
  pose proof (lookup_lt_Some _ _ _ Hk). rewrite Hown, Hst, !lookup_app_l by lia. split_and!; [done..|]. apply Hr2.
Qed.

Lemma store_believed pid p records headers answers sync w w' p' :
  sound pid p w → store_with pid p records headers answers sync w = (w', p', true) → believed p w p' w'.
Proof.
  intros [Ho _ _ _]. unfold store_with. destruct (chunked p records) as [[chunks fits] unl].
  set (p0 := mk_ledger _ _ _ _ _ _ _ _ _).
  assert (owns pid p0 w) as Ho0 by (by apply (owns_same pid p)).
  pose proof (claim_all_spec (length chunks - length (ld_own p)) headers pid p0 w Ho0) as Hcl.
  pose proof (claim_all_believed (length chunks - length (ld_own p)) headers pid p0 w Ho0) as Hb.
  destruct (claim_all _ _ _ _ _) as [[w1 p1] [found|]]; [|done].
  destruct Hcl as (_ & Ho1 & _ & _ & l & -> & Hlen & Hfull). set (p1 := set_own _ _ p0) in *.
  set (kept := if found then chunks else take (length (ld_own p1)) chunks).
  assert (length kept ≤ length (ld_own p1))%nat as Hk.
  { subst kept. destruct found; [|rewrite length_take; lia]. simpl. rewrite length_app, Hfull by done. lia. }
  intros Hst. eapply believed_trans; [exact Hb|]. eapply store_chunks_believed; [exact Ho1| |exact Hst].
  rewrite length_app, length_replicate. lia.
Qed.

(** ** The drainer's steps *)

(** A step that changes nothing a process holds. *)
Lemma sound_step pid p w w' :
  sound pid p w → wf_world w' →
  (∀ i, i ∈ ld_own p ++ ld_held p → holder i w = Some pid → holder i w' = Some pid) →
  (∀ i, i ∈ ld_own p → read i w' = read i w) → sound pid p w'.
Proof.
  intros [Ho Hb Hc Hm] Hw Hh Hr. split; [by eapply owns_step|done..|].
  intros Hz. eapply mirrored_read; [by apply Hm|done].
Qed.

Lemma sound_same pid p p' w :
  sound pid p w → ld_own p' = ld_own p → ld_held p' = ld_held p → ld_stored p' = ld_stored p →
  ld_failures p ≤ ld_failures p' → sound pid p' w.
Proof.
  intros [Ho Hb Hc Hm] Eo Eh Es Hf. split.
  - by apply (owns_same pid p).
  - by rewrite Eo.
  - lia.
  - intros Hz. apply (mirrored_same p); [done..|]. apply Hm. lia.
Qed.

Lemma sound_try_lock pid i p w w' :
  sound pid p w → (i < SLOTS)%nat → try_lock pid i w = Some w' →
  sound pid p w' ∧ leaves_others pid w w' ∧ holder i w' = Some pid ∧ ∀ j, read j w' = read j w.
Proof.
  intros Hs Hi Ht. destruct (try_lock_spec pid i w w' (o_wf _ _ _ (s_owns _ _ _ Hs)) Hi Ht) as (Hw & Hl & Hh & Hk & Hr).
  split_and!; [|done..]. apply (sound_step pid p w); auto.
Qed.

Lemma sound_unlock pid i p w :
  sound pid p w → (i < SLOTS)%nat → i ∉ ld_own p ++ ld_held p →
  sound pid p (unlock pid i w) ∧ leaves_others pid w (unlock pid i w) ∧ ∀ j, read j (unlock pid i w) = read j w.
Proof.
  intros Hs Hi Hn. destruct (unlock_spec pid i w (o_wf _ _ _ (s_owns _ _ _ Hs)) Hi) as (Hw & Hl & Hh & Hr).
  split_and!; [|done..]. apply (sound_step pid p w); auto. intros j Hj Hjh. rewrite Hh; [done|]. by intros ->.
Qed.

Lemma sound_clear_slot pid i answer sync p w :
  sound pid p w → (i < SLOTS)%nat → holder i w = Some pid → i ∉ ld_own p →
  let '(w', p', cleared) := clear_slot i answer sync p w in
  sound pid p' w' ∧ leaves_others pid w w' ∧ ld_own p' = ld_own p ∧ ld_held p' = ld_held p ∧
  (∀ j, j ≠ i → read j w' = read j w) ∧ (cleared = true → read i w' = Blank ∧ ld_dirty p' = false).
Proof.
  intros Hs Hi Hh Hn. pose proof (o_wf _ _ _ (s_owns _ _ _ Hs)) as Hw.
  assert (∀ s, sound pid p (write i s w) ∧ leaves_others pid w (write i s w) ∧
    (∀ j, j ≠ i → read j (write i s w) = read j w)) as Hwr.
  { intros s. destruct (write_spec pid i s w Hw Hi Hh) as (Hw' & Hl & Hk).
    assert (∀ j, j ≠ i → read j (write i s w) = read j w) as Hr.
    { intros j Hj. by rewrite read_write, decide_False. }
    split_and!; [|done..]. apply (sound_step pid p w); [done..| |].
    - intros j _. by rewrite Hk.
    - intros j Hj. apply Hr. by intros ->. }
  assert (∀ s, read i (write i s w) = s) as Hri by (intros s; by rewrite read_write, decide_True).
  unfold clear_slot. destruct answer as [|s].
  - destruct (Hwr Blank) as (? & ? & ?). destruct sync; split_and!; try done.
    all: eapply sound_same; [done..|simpl; lia].
  - destruct (Hwr s) as (? & ? & ?). split_and!; try done. eapply sound_same; [done..|simpl; lia].
Qed.

Lemma sound_hold pid i p w :
  sound pid p w → (i < SLOTS)%nat → holder i w = Some pid → i ∉ ld_own p ++ ld_held p →
  sound pid (set_held (i :: ld_held p) p) w.
Proof.
  intros [[Hw Hnd Hl Hs] Hb Hc Hm] Hi Hh Hn. split; [|done..]. split; simpl; [done| | |done].
  - rewrite <-Permutation_middle. by constructor.
  - intros j. rewrite <-Permutation_middle, elem_of_cons. intros [->|Hj]; auto.
Qed.

(** The drainer gives a slot back. *)
Lemma sound_release pid i p w :
  sound pid p w → i ∈ ld_held p →
  let '(w', p') := release pid i p w in
  sound pid p' w' ∧ leaves_others pid w w' ∧ (∀ j, read j w' = read j w) ∧ holder i w' ≠ Some pid ∧ i ∉ ld_held p'.
Proof.
  intros Hs Hi. unfold release. pose proof Hs as [[Hw Hnd Hl Hst] Hb Hc Hm].
  assert (i < SLOTS)%nat as Hii by (apply Hl, elem_of_app; auto).
  set (p' := set_held _ p).
  assert (sound pid p' w) as Hs'.
  { split; [|done..]. apply NoDup_app in Hnd as (Hn1 & Hn2 & Hn3). split; simpl; [done| | |done].
    - apply NoDup_app. split_and!; [done| |by apply NoDup_filter].
      intros j Hj [_ Hj']%list_elem_of_filter. by apply (Hn2 j).
    - intros j [Hj|[_ Hj]%list_elem_of_filter]%elem_of_app; apply Hl, elem_of_app; auto. }
  assert (i ∉ ld_own p' ++ ld_held p') as Hn.
  { apply NoDup_app in Hnd as (_ & Hn2 & _). simpl. intros [Hj|[? _]%list_elem_of_filter]%elem_of_app; [|done].
    by apply (Hn2 i). }
  destruct (sound_unlock pid i p' w Hs' Hii Hn) as (Hs2 & Hl2 & Hr2). split_and!; [done..| |].
  - unfold unlock. case_decide; [|done]. by rewrite holder_lock, decide_True.
  - intros Hj. apply Hn, elem_of_app. auto.
Qed.

Lemma sound_clear pid i answer sync p w :
  sound pid p w → i ∈ ld_held p →
  let '(w', p', cleared) := clear pid i answer sync p w in
  sound pid p' w' ∧ leaves_others pid w w' ∧ (cleared = true → read i w' = Blank ∧ ld_dirty p' = false).
Proof.
  intros Hs Hi. unfold clear. pose proof (s_owns _ _ _ Hs) as [Hw Hnd Hl _].
  destruct (Hl i ltac:(apply elem_of_app; auto)) as [Hii Hh].
  assert (i ∉ ld_own p) as Hn. { apply NoDup_app in Hnd as (_ & Hn & _). intros Hj. by apply (Hn i). }
  pose proof (sound_clear_slot pid i answer sync p w Hs Hii Hh Hn) as Hc.
  destruct (clear_slot i answer sync p w) as [[w1 p1] c]. destruct Hc as (Hs1 & Hl1 & _ & Hhe & _ & Hc).
  pose proof (sound_release pid i p1 w1 Hs1 ltac:(by rewrite Hhe)) as Hr. unfold release in *.
  destruct Hr as (Hs2 & Hl2 & Hr2 & _). split_and!; [done|by eapply leaves_trans|].
  intros Hct. rewrite Hr2. by apply Hc.
Qed.

(** A slot that no other live process holds. *)
Definition unheld (pid i : nat) (w : World) : Prop := ∀ q, q ≠ pid → holder i w ≠ Some q.

Lemma unheld_others pid i w w' : leaves_others pid w w' → unheld pid i w → unheld pid i w'.
Proof. intros [_ Hl _] Hu q Hq Hh. apply (Hu q Hq). by apply Hl. Qed.

Lemma unheld_try_lock pid i w : unheld pid i w → ∃ w', try_lock pid i w = Some w'.
Proof.
  intros Hu. unfold try_lock. destruct (holder i w) as [q|] eqn:E; [|by eexists].
  case_decide; [by eexists|]. by destruct (Hu q).
Qed.

(** What [orphans] returns, and what it leaves on disk. *)
Record drained (pid : nat) (indices : list nat) (reads : nat → bool * bool) (p : Ledger) (w : World)
    (found : list (nat * list Doc)) (p' : Ledger) (w' : World) : Prop := {
  dr_sound : sound pid p' w';
  dr_others : leaves_others pid w w';
  dr_own : ld_own p' = ld_own p;
  dr_kept : ∀ j, j ∉ indices → read j w' = read j w;
  dr_held : ∀ j, j ∈ ld_held p' ↔ j ∈ found.*1 ∨ j ∈ ld_held p;
  dr_read : ∀ j records, (j, records) ∈ found → j ∈ indices ∧ records ≠ [] ∧ unheld pid j w ∧
    decode_slot (read j w) = Some records ∧ read j w' = read j w;
  dr_found : ∀ j, j ∈ indices → j ∉ ld_own p ++ ld_held p → reads j = (true, true) → unheld pid j w →
    ∀ r records, decode_slot (read j w) = Some (r :: records) → (j, r :: records) ∈ found;
}.

(** The slot [i] is dealt with, then the rest. *)
Lemma drained_step pid i indices reads p w p1 w1 found p' w' :
  drained pid indices reads p1 w1 found p' w' → i ∉ indices → leaves_others pid w w1 →
  ld_own p1 = ld_own p → ld_held p1 = ld_held p → (∀ j, j ≠ i → read j w1 = read j w) →
  (i ∉ ld_own p ++ ld_held p → reads i = (true, true) → unheld pid i w →
   ∀ r records, decode_slot (read i w) ≠ Some (r :: records)) →
  drained pid (i :: indices) reads p w found p' w'.
Proof.
  intros [] Hi Hl Eo Eh Hr Hskip. split; [done|by eapply leaves_trans|congruence|..].
  - intros j [Hj1 Hj2]%not_elem_of_cons. by rewrite dr_kept0, Hr.
  - intros j. by rewrite dr_held0, Eh.
  - intros j rs Hj. destruct (dr_read0 j rs Hj) as (Hin & ? & Hu & ? & ?).
    assert (j ≠ i) as Hne by (by intros ->).
    rewrite <-(Hr j Hne). split_and!; [by constructor|done| |done..].
    intros q Hq Hq'. apply (Hu q Hq). by apply (lo_locks _ _ _ Hl).
  - intros j [->|Hj]%elem_of_cons Hn Hrd Hu r rs E; [by destruct (Hskip Hn Hrd Hu r rs)|].
    apply dr_found0; [done|by rewrite Eo, Eh|done|by eapply unheld_others|].
    rewrite Hr; [done|]. by intros ->.
Qed.

(** The slot [i] is taken over, then the rest. *)
Lemma drained_hold pid i indices reads p w w1 r records found p' w' :
  drained pid indices reads (set_held (i :: ld_held p) p) w1 found p' w' → i ∉ indices →
  leaves_others pid w w1 → holder i w1 = Some pid → (∀ j, read j w1 = read j w) →
  decode_slot (read i w) = Some (r :: records) →
  drained pid (i :: indices) reads p w ((i, r :: records) :: found) p' w'.
Proof.
  intros [] Hi Hl Hh Hr Ed. split; [done|by eapply leaves_trans|done|..].
  - intros j [_ Hj]%not_elem_of_cons. by rewrite dr_kept0, Hr.
  - intros j. rewrite dr_held0. simpl. rewrite !elem_of_cons. naive_solver.
  - intros j rs [[= -> ->]|Hj]%elem_of_cons.
    + split_and!; [constructor|done| |done|by rewrite dr_kept0, Hr].
      intros q Hq Hq'. apply (lo_locks _ _ _ Hl) in Hq'; [|done]. congruence.
    + destruct (dr_read0 j rs Hj) as (Hin & ? & Hu & ? & ?). rewrite <-(Hr j).
      split_and!; [by constructor|done| |done..].
      intros q Hq Hq'. apply (Hu q Hq). by apply (lo_locks _ _ _ Hl).
  - intros j Hj Hn Hrd Hu r' rs E. destruct (decide (j = i)) as [->|Hne].
    { rewrite Ed in E. injection E as -> ->. constructor. }
    apply elem_of_cons in Hj as [?|Hj]; [done|]. constructor.
    apply dr_found0; [done| |done|by eapply unheld_others|by rewrite Hr].
    simpl. rewrite <-Permutation_middle. by apply not_elem_of_cons.
Qed.

Lemma orphans_from_spec pid indices reads answers p w :
  sound pid p w → NoDup indices → (∀ i, i ∈ indices → (i < SLOTS)%nat) →
  let '(w', p', found) := orphans_from pid indices reads answers p w in
  drained pid indices reads p w found p' w'.
Proof.
  revert p w. induction indices as [|i indices IH]; intros p w Hs Hnd Hlt; cbn [orphans_from].
  { split; [done|apply leaves_refl|done..| | |].
    - intros j. simpl. rewrite elem_of_nil. naive_solver.
    - by intros j rs ?%elem_of_nil.
    - by intros j ?%elem_of_nil. }
  apply NoDup_cons in Hnd as [Hi Hnd].
  assert (i < SLOTS)%nat as Hii by (apply Hlt; constructor).
  assert (∀ j, j ∈ indices → (j < SLOTS)%nat) as Hlt' by (intros; apply Hlt; by constructor).
  assert (∀ P : Prop, (i ∉ ld_own p ++ ld_held p → reads i = (true, true) → unheld pid i w →
     ∀ r records, decode_slot (read i w) ≠ Some (r :: records)) →
    let '(w', p', found) := orphans_from pid indices reads answers p w in
    drained pid (i :: indices) reads p w found p' w') as Hskip.
  { intros _ Hsk. specialize (IH p w Hs Hnd Hlt'). destruct (orphans_from _ _ _ _ _ _) as [[w' p'] found].
    by apply (drained_step pid i indices reads p w p w). }
  case_decide as Hown; [apply (Hskip True); rewrite elem_of_app; intros Hn; by destruct (Hn Hown)|].
  destruct (reads i) as [r1 r2] eqn:Er. cbn [fst snd].
  destruct r1; cbn [negb]; [|by apply (Hskip True)].
  case_decide as Hb; [apply (Hskip True); by rewrite Hb|].
  destruct (try_lock pid i w) as [w1|] eqn:Ht; cycle 1.
  { apply (Hskip True). intros _ _ Hu. destruct (unheld_try_lock pid i w Hu) as [? E]. congruence. }
  destruct (sound_try_lock pid i p w w1 Hs Hii Ht) as (Hs1 & Hl1 & Hh1 & Hr1).
  rewrite <-elem_of_app in Hown.
  assert (∀ p2 w2, sound pid p2 w2 → leaves_others pid w w2 → ld_own p2 = ld_own p → ld_held p2 = ld_held p →
    (∀ j, j ≠ i → read j w2 = read j w) →
    ((true, r2) = (true, true) → ∀ r records, decode_slot (read i w) ≠ Some (r :: records)) →
    let '(w', p', found) := orphans_from pid indices reads answers p2 w2 in
    drained pid (i :: indices) reads p w found p' w') as Hrest.
  { intros p2 w2 Hs2 Hl2 Eo Eh Hr2 Hsk. specialize (IH p2 w2 Hs2 Hnd Hlt').
    destruct (orphans_from _ _ _ _ _ _) as [[w' p'] found]. eapply drained_step; try done.
    intros _ ? _. apply Hsk. congruence. }
  destruct r2; cbn [negb]; [|by apply Hrest].
  rewrite (Hr1 i). destruct (decode_slot (read i w)) as [[|r records]|] eqn:Ed.
  - destruct (sound_unlock pid i p w1 Hs1 Hii Hown) as (Hs2 & Hl2 & Hr2).
    apply Hrest; [done|by eapply leaves_trans|done..| |done]. intros j _. by rewrite Hr2, Hr1.
  - pose proof (sound_hold pid i p w1 Hs1 Hii Hh1 Hown) as Hs2.
    specialize (IH _ _ Hs2 Hnd Hlt'). destruct (orphans_from _ _ _ _ _ _) as [[w' p'] found].
    by apply (drained_hold pid i indices reads p w w1).
  - set (pc := add_counts 0 0 1 p). assert (sound pid pc w1) as Hsc by (by apply (sound_same pid p); simpl; [..|lia]).
    pose proof (sound_clear_slot pid i (answers i).1 (answers i).2 pc w1 Hsc Hii Hh1) as Hc.
    destruct (clear_slot _ _ _ _ _) as [[w2 p2] c].
    destruct Hc as (Hs2 & Hl2 & Eo & Eh & Hr2 & _). { intros ?. apply Hown, elem_of_app. by left. }
    destruct (sound_unlock pid i p2 w2 Hs2 Hii ltac:(by rewrite Eo, Eh)) as (Hs3 & Hl3 & Hr3).
    apply Hrest; [done| |done..| |done].
    + eapply leaves_trans; [exact Hl1|]. by eapply leaves_trans.
    + intros j Hj. by rewrite Hr3, Hr2, Hr1.
Qed.

(** ** The processes together *)

Record ledger_inv (w : World) : Prop := {
  li_wf : wf_world w;
  li_sound : ∀ pid (p : Ledger), w_procs w !! pid = Some p → sound pid p w;
  li_live : ∀ i q, holder i w = Some q → is_Some (w_procs w !! q);
}.

(** A process that does not act is as sound as before. *)
Lemma sound_others pid q p w w' :
  sound q p w → q ≠ pid → leaves_others pid w w' → wf_world w' → sound q p w'.
Proof.
  intros Hs Hq [_ Hl Hr] Hw. apply (sound_step q p w); [done..| |].
  - intros i _ Hh. by apply Hl.
  - intros i Hi. apply (Hr i q); [done|].
    by apply (o_locked _ _ _ (s_owns _ _ _ Hs)), elem_of_app; left.
Qed.

Lemma sound_procs pid p w procs : sound pid p w → sound pid p (mk_world (w_slots w) (w_locks w) procs).
Proof. intros [[] ? ? ?]. constructor; [constructor|..]; assumption. Qed.

Lemma ledger_inv_put pid w w' p' :
  ledger_inv w → leaves_others pid w w' → sound pid p' w' → ledger_inv (put pid p' w').
Proof.
  intros [Hw Hs Hl] Ho Hp. pose proof (o_wf _ _ _ (s_owns _ _ _ Hp)) as Hw'. split; [done| |].
  - intros q r. simpl. rewrite (lo_procs _ _ _ Ho). destruct (decide (q = pid)) as [->|Hq].
    + rewrite lookup_insert_eq. intros [= <-]. by apply sound_procs.
    + rewrite lookup_insert_ne by done. intros Hr.
      by apply sound_procs, (sound_others pid q r w w' (Hs _ _ Hr)).
  - intros i q Hh. simpl. rewrite (lo_procs _ _ _ Ho). destruct (decide (q = pid)) as [->|Hq].
    + rewrite lookup_insert_eq. by eexists.
    + rewrite lookup_insert_ne by done. apply (Hl i). by apply (lo_locks _ _ _ Ho).
Qed.

Lemma init_sound pid owner w : wf_world w → sound pid (init_ledger owner) w.
Proof.
  intros Hw. split; simpl; [|unfold MAX_OWN_SLOTS; lia|lia|by intros _ k i ?].
  split; simpl; [done|constructor| |done]. by intros i ?%elem_of_nil.
Qed.

Lemma holder_free pid i w :
  holder i (free_locks pid w) = if decide (holder i w = Some pid) then None else holder i w.
Proof.
  unfold holder, free_locks. simpl. rewrite list_lookup_fmap.
  destruct (w_locks w !! i) as [o|]; simpl; [by case_decide|done].
Qed.

Lemma free_locks_others pid w : leaves_others pid w (free_locks pid w).
Proof.
  split; [done| |done]. intros i q Hq. rewrite holder_free. case_decide as Hh; [|done].
  rewrite Hh. split; congruence.
Qed.

Lemma free_locks_wf pid w : wf_world w → wf_world (free_locks pid w).
Proof. intros []. split; simpl; [done|by rewrite length_fmap]. Qed.

Lemma ledger_inv_die pid w : ledger_inv w → ledger_inv (exec_ledger w (LDie pid)).
Proof.
  intros [Hw Hs Hlive]. pose proof (free_locks_wf pid _ Hw) as Hw'. split; [done|..].
  - intros q p. simpl. intros [Hq Hp]%lookup_delete_Some.
    apply (sound_procs q p (free_locks pid w)).
    exact (sound_others pid q p w _ (Hs _ _ Hp) (not_eq_sym Hq) (free_locks_others pid w) Hw').
  - intros i q Hh. simpl. change (holder i (free_locks pid w) = Some q) in Hh.
    rewrite holder_free in Hh. case_decide as Hp; [done|].
    rewrite lookup_delete_ne by (intros ->; done). by apply (Hlive i).
Qed.

(** A step leaves the other processes alone and every handle sound. *)
Lemma exec_ledger_spec w o :
  ledger_inv w → ledger_legal w o →
  ledger_inv (exec_ledger w o) ∧
  (∀ i q, q ≠ actor o → holder i w = Some q → holder i (exec_ledger w o) = Some q ∧ read i (exec_ledger w o) = read i w) ∧
  (∀ q (p : Ledger), q ≠ actor o → w_procs w !! q = Some p → w_procs (exec_ledger w o) !! q = Some p).
Proof.
  intros Hi Hl.
  assert (∀ pid p' w', actor o = pid → leaves_others pid w w' → sound pid p' w' → 
    ledger_inv (put pid p' w') ∧
    (∀ i q, q ≠ actor o → holder i w = Some q → holder i (put pid p' w') = Some q ∧ read i (put pid p' w') = read i w) ∧
    (∀ q (p : Ledger), q ≠ actor o → w_procs w !! q = Some p → w_procs (put pid p' w') !! q = Some p)) as Hput.
  { intros pid p' w' -> Ho Hs. split_and!; [by eapply ledger_inv_put|..].
    - intros i q Hq Hh. split; [by apply (lo_locks _ _ _ Ho)|by apply (lo_slots _ _ _ Ho i q)].
    - intros q p Hq Hp. simpl. by rewrite (lo_procs _ _ _ Ho), lookup_insert_ne. }
  pose proof Hi as [Hw Hs Hlive].
  assert (ledger_inv w ∧
    (∀ i q, q ≠ actor o → holder i w = Some q → holder i w = Some q ∧ read i w = read i w) ∧
    (∀ q (p : Ledger), q ≠ actor o → w_procs w !! q = Some p → w_procs w !! q = Some p)) as Hsame by done.
  destruct o as [pid owner|pid child owner|pid|pid records headers answers sync|pid reads answers|pid i answer sync|pid i];
    simpl in *.
  - apply Hput; [done|apply leaves_refl|by apply init_sound].
  - destruct Hl as [[p Hp] Hc]. rewrite Hp. unfold after_fork. split_and!; [|done|].
    + eapply ledger_inv_put; [done|apply leaves_refl|by apply init_sound].
    + intros q p' Hq Hq'. simpl. rewrite lookup_insert_ne; [done|]. intros <-. congruence.
  - pose proof (free_locks_others pid w) as Ho. split_and!; [by apply ledger_inv_die|..].
    + intros i q Hq Hh. split; [|done]. by apply (lo_locks _ _ _ Ho).
    + intros q p Hq Hp. simpl. by rewrite lookup_delete_ne.
  - destruct (w_procs w !! pid) as [p|] eqn:Hp; [|done].
    pose proof (store_spec pid p records headers answers sync w (Hs _ _ Hp)) as H.
    destruct (store_with _ _ _ _ _ _ _) as [[w1 p1] r]. destruct H as (? & ? & _). by apply Hput.
  - destruct (w_procs w !! pid) as [p|] eqn:Hp; [|done]. unfold orphans.
    pose proof (orphans_from_spec pid (seq 0 SLOTS) reads answers p w (Hs _ _ Hp) (NoDup_seq _ _)) as H.
    destruct (orphans_from _ _ _ _ _ _) as [[w1 p1] r]. destruct H; [by intros i [_ ?]%elem_of_seq|]. by apply Hput.
  - destruct (w_procs w !! pid) as [p|] eqn:Hp; [|done].
    pose proof (sound_clear pid i answer sync p w (Hs _ _ Hp) (Hl p eq_refl)) as H.
    destruct (clear _ _ _ _ _ _) as [[w1 p1] r]. destruct H as (? & ? & _). by apply Hput.
  - destruct (w_procs w !! pid) as [p|] eqn:Hp; [|done].
    pose proof (sound_release pid i p w (Hs _ _ Hp) (Hl p eq_refl)) as H.
    destruct H as (? & ? & _). by apply Hput.
Qed.

Lemma new_world_inv : ledger_inv new_world.
Proof.
  split; [split; apply length_replicate|..].
  - intros pid p. simpl. by rewrite lookup_empty.
  - intros i q. unfold holder, new_world. simpl.
    destruct (replicate SLOTS None !! i) eqn:E; [apply lookup_replicate in E as [-> _]|]; done.
Qed.

Lemma ledger_reach_inv w : ledger_reach w → ledger_inv w.
Proof. induction 1; [apply new_world_inv|]. by apply exec_ledger_spec. Qed.

(** Steps one after another. *)
Inductive ledger_run : World → list ledger_op → World → Prop :=
  | run_nil w : ledger_run w [] w
  | run_cons w o ops w' :
      ledger_legal w o → ledger_run (exec_ledger w o) ops w' → ledger_run w (o :: ops) w'.

(** The steps of others leave a process with its handle and its slots. *)
Lemma ledger_run_keeps pid p ops w w' :
  ledger_run w ops w' → ledger_inv w → Forall (λ o, actor o ≠ pid) ops → w_procs w !! pid = Some p →
  ledger_inv w' ∧ w_procs w' !! pid = Some p ∧ ∀ i, holder i w = Some pid → holder i w' = Some pid ∧ read i w' = read i w.
Proof.
  induction 1 as [|w o ops w' Hl _ IH]; intros Hi Hf Hp; [done|].
  apply Forall_cons in Hf as [Ho Hf]. destruct (exec_ledger_spec w o Hi Hl) as (Hi' & Hk & Hpr).
  destruct (IH Hi' Hf (Hpr _ _ (not_eq_sym Ho) Hp)) as (Hi2 & Hp2 & Hk2). split_and!; [done..|].
  intros i Hh. destruct (Hk i pid (not_eq_sym Ho) Hh) as [Hh1 Hr1]. destruct (Hk2 i Hh1) as [? ->]. done.
Qed.

Lemma elem_of_slot_docs r slots :
  r ∈ slot_docs slots ↔ ∃ s r' rs, s ∈ slots ∧ decode_slot s = Some (r' :: rs) ∧ r ∈ r' :: rs.
Proof.
  unfold slot_docs. rewrite list_elem_of_bind. split.
  - intros (s & Hr & Hs). exists s. destruct (decode_slot s) as [[|r' rs]|]; simpl in Hr; try by apply elem_of_nil in Hr.
    by exists r', rs.
  - intros (s & r' & rs & Hs & E & Hr). exists s. by rewrite E.
Qed.

(** ** Properties *)

(** C26: a process of the spool touches only its own: in every reachable state, what a step of
    one process does leaves every slot another live process holds, its lock and that process's
    handle as they were; two live processes never use the same slot; and none uses more than
    sixteen. *)
Theorem ledger_isolation w o :
  ledger_reach w → ledger_legal w o →
  (∀ i q, q ≠ actor o → holder i w = Some q → holder i (exec_ledger w o) = Some q ∧ read i (exec_ledger w o) = read i w) ∧
  (∀ q p, q ≠ actor o → w_procs w !! q = Some p → w_procs (exec_ledger w o) !! q = Some p) ∧
  (∀ q p, w_procs (exec_ledger w o) !! q = Some p →
     (length (ld_own p) <= MAX_OWN_SLOTS)%nat ∧ NoDup (ld_own p ++ ld_held p) ∧
     ∀ q' p' i, w_procs (exec_ledger w o) !! q' = Some p' →
       i ∈ ld_own p ++ ld_held p → i ∈ ld_own p' ++ ld_held p' → q = q').
Proof.
  intros Hr Hl. destruct (exec_ledger_spec w o (ledger_reach_inv w Hr) Hl) as (Hi & Hk & Hpr).
  split; [exact Hk|]. split; [exact Hpr|]. intros q p Hq. destruct (li_sound _ Hi q p Hq) as [Ho Hb _ _].
  split_and!; [done|apply Ho|]. intros q' p' i Hq' Hin Hin'.
  destruct (li_sound _ Hi q' p' Hq') as [Ho' _ _ _].
  destruct (o_locked _ _ _ Ho i Hin) as [_ H1], (o_locked _ _ _ Ho' i Hin') as [_ H2]. congruence.
Qed.

(** C25: what a store that returns true has done. What the process takes its slots to hold
    ([_stored]) is, in order, exactly the records small enough for a slot, everything else given
    was a manifest, nothing is left to sync, and no cleared slot is kept. On disk a slot holds
    what the process takes it to hold, unless the process took it to hold that already and left
    it as it was; so as long as no write or sync of the process has failed, the slots read back
    exactly those records. (After a failed write it may be otherwise: [stale_mirror].) *)
Theorem store_mirrors w pid p records headers answers sync w' p' :
  ledger_reach w → w_procs w !! pid = Some p →
  store_with pid p records headers answers sync w = (w', p', true) →
  slot_docs (ld_stored p') = to_mirror (ld_owner p) records ∧
  (∀ r, r ∈ records → oversized (ld_owner p) r → is_manifest r = true) ∧
  ld_dirty p' = false ∧ last (ld_stored p') ≠ Some Blank ∧ length (ld_stored p') = length (ld_own p') ∧
  (∀ k i, ld_own p' !! k = Some i →
     ld_stored p' !! k = Some (read i w') ∨
     ld_own p !! k = Some i ∧ ld_stored p !! k = ld_stored p' !! k ∧ read i w' = read i w) ∧
  (ld_failures p = 0 → slot_docs ((λ i, read i w') <$> ld_own p') = to_mirror (ld_owner p) records).
Proof.
  intros Hr Hp Hst. pose proof (li_sound _ (ledger_reach_inv w Hr) _ _ Hp) as Hsound.
  pose proof (store_spec pid p records headers answers sync w Hsound) as H.
  pose proof (store_believed _ _ _ _ _ _ _ _ _ Hsound Hst) as Hb.
  rewrite Hst in H. destruct H as (_ & [Ho _ _ Hm] & _ & _ & Hs). destruct (Hs eq_refl) as [Hd Hf Hdoc Hleft Hlast].
  split_and!; [done..|apply (o_stored _ _ _ Ho)|done|]. intros Hz.
  by rewrite <-(mirrored_stored pid p' w') by (done || apply Hm; lia).
Qed.

(** C24: what was mirrored survives its process: after a store that returned true, of a process
    none of whose writes and syncs had failed before, whatever the other processes do and however
    the process then dies, another live process that can read the file finds every mirrored
    record in the slots it takes over. (After a write that failed, a store may return true over
    a torn slot: [stale_mirror].) *)
Theorem mirror_survives w0 pid p records headers answers sync w1 p1 ops w2 q pq reads clears :
  ledger_reach w0 → w_procs w0 !! pid = Some p → ld_failures p = 0 →
  store_with pid p records headers answers sync w0 = (w1, p1, true) →
  ledger_run (put pid p1 w1) ops w2 → Forall (λ o, actor o ≠ pid) ops →
  w_procs w2 !! q = Some pq → q ≠ pid → (∀ i, reads i = (true, true)) →
  let '(_, _, found) := orphans q reads clears pq (exec_ledger w2 (LDie pid)) in
  ∀ r, r ∈ to_mirror (ld_owner p) records → ∃ i rs, (i, rs) ∈ found ∧ r ∈ rs.
Proof.
  intros Hr Hp Hz Hst Hrun Hops Hq Hne Hreads. pose proof (ledger_reach_inv _ Hr) as Hi.
  pose proof (store_spec pid p records headers answers sync w0 (li_sound _ Hi _ _ Hp)) as H.
  rewrite Hst in H. destruct H as (Hl & Hs & _ & _ & Hall). destruct (Hall eq_refl) as [_ Hf Hdoc _ _].
  pose proof (mirrored_stored _ _ _ (s_owns _ _ _ Hs) (s_mirror _ _ _ Hs ltac:(lia))) as Hmir.
  destruct (ledger_run_keeps pid p1 _ _ _ Hrun (ledger_inv_put _ _ _ _ Hi Hl Hs) Hops) as (Hi2 & _ & Hk).
  { simpl. apply lookup_insert_eq. }
  pose proof (ledger_inv_die pid w2 Hi2) as Hi3. set (w3 := exec_ledger w2 (LDie pid)) in *.
  assert (w_procs w3 !! q = Some pq) as Hq3 by (simpl; by rewrite lookup_delete_ne).
  pose proof (orphans_from_spec q (seq 0 SLOTS) reads clears pq w3 (li_sound _ Hi3 _ _ Hq3) (NoDup_seq _ _)) as Ho.
  unfold orphans. destruct (orphans_from _ _ _ _ _ _) as [[w4 p4] found]. intros r Hin.
  rewrite <-Hdoc, Hmir in Hin. apply elem_of_slot_docs in Hin as (s & r' & rs & Hin & Hdec & Hrs).
  apply list_elem_of_fmap in Hin as (i & -> & Hin). exists i, (r' :: rs). split; [|done].
  assert (i ∈ ld_own p1 ++ ld_held p1) as Hin1 by (by apply elem_of_app; left).
  destruct (o_locked _ _ _ (s_owns _ _ _ Hs) i Hin1) as [Hii Hh1]. destruct (Hk i Hh1) as [Hh2 Hr2].
  destruct Ho as [_ _ _ _ _ _ Hfound]; [by intros j [_ ?]%elem_of_seq|]. apply Hfound.
  - apply elem_of_seq. lia.
  - intros Hin2. pose proof (o_locked _ _ _ (s_owns _ _ _ (li_sound _ Hi2 _ _ Hq)) i Hin2) as [_ Hh]. congruence.
  - done.
  - intros j Hj Hh. change (holder i (free_locks pid w2) = Some j) in Hh. rewrite holder_free in Hh.
    case_decide; congruence.
  - change (read i w3) with (read i w2). rewrite Hr2. exact Hdec.
Qed.

(** *** Instances *)

Definition a_record : Doc := [("record_kind", JStr "loss"); ("count", JInt 2)].
Definition b_record : Doc := [("record_kind", JStr "loss"); ("count", JInt 3)].

(** Two processes, the first of which has stored a record. *)
Definition two_open : World := exec_ledger (exec_ledger new_world (LOpen 1 "one")) (LOpen 2 "two").
Definition a_stored : World := exec_ledger two_open (LStore 1 [a_record] [] [] true).

Lemma two_open_reach : ledger_reach two_open.
Proof. apply reach_exec; [apply reach_exec; [apply reach_new|]|]; reflexivity. Qed.

Lemma a_stored_reach : ledger_reach a_stored.
Proof. apply reach_exec; [apply two_open_reach|done]. Qed.

Lemma ledger_isolation_witness :
  holder 0 (exec_ledger a_stored (LStore 2 [b_record] [] [WFail Torn] true)) = Some 1%nat ∧
  read 0 (exec_ledger a_stored (LStore 2 [b_record] [] [WFail Torn] true)) = read 0 a_stored.
Proof.
  destruct (ledger_isolation a_stored (LStore 2 [b_record] [] [WFail Torn] true) a_stored_reach I) as [Hk _].
  apply (Hk 0%nat 1%nat); [done|]. vm_compute. reflexivity.
Defined.

(** The outcome of a store by the first process. *)
Definition one_store (records : list Doc) (w : World) : World * Ledger * bool :=
  store_with 1 (default (init_ledger "one") (w_procs w !! 1%nat)) records [] [] true w.

Lemma store_mirrors_witness :
  let r := one_store [a_record; b_record] two_open in
  slot_docs ((λ i, read i r.1.1) <$> ld_own r.1.2) = [sort_doc a_record; sort_doc b_record].
Proof.
  intros r.
  destruct (store_mirrors two_open 1 (init_ledger "one") [a_record; b_record] [] [] true r.1.1 r.1.2
    two_open_reach eq_refl ltac:(vm_compute; reflexivity)) as (_ & _ & _ & _ & _ & _ & H).
  rewrite (H eq_refl). vm_compute. reflexivity.
Defined.

(** The second process stores another record after the first. *)
Definition both_stored : World :=
  let r := one_store [a_record] two_open in
  exec_ledger (put 1 r.1.2 r.1.1) (LStore 2 [b_record] [] [] true).

Lemma mirror_survives_witness :
  let '(_, _, found) := orphans 2 (λ _, (true, true)) (λ _, (WOk, true))
    (default (init_ledger "two") (w_procs both_stored !! 2%nat)) (exec_ledger both_stored (LDie 1)) in
  ∀ r, r ∈ to_mirror "one" [a_record] → ∃ i rs, (i, rs) ∈ found ∧ r ∈ rs.
Proof.
  assert (one_store [a_record] two_open =
    ((one_store [a_record] two_open).1.1, (one_store [a_record] two_open).1.2, true)) as Hs
    by (vm_compute; reflexivity).
  assert (w_procs both_stored !! 2%nat = Some (default (init_ledger "two") (w_procs both_stored !! 2%nat))) as Hq
    by (vm_compute; reflexivity).
  assert (ledger_run (put 1 (one_store [a_record] two_open).1.2 (one_store [a_record] two_open).1.1)
    [LStore 2 [b_record] [] [] true] both_stored) as Hrun by (apply run_cons; [done|apply run_nil]).
  apply (mirror_survives two_open 1 (init_ledger "one") [a_record] [] [] true _ _
    [LStore 2 [b_record] [] [] true] both_stored 2 _ (λ _, (true, true)) (λ _, (WOk, true))
    two_open_reach eq_refl eq_refl Hs Hrun); [by apply Forall_singleton|exact Hq|done|done].
Defined.

(** After a write that failed, [_stored] still says what the slot held before it: a store of
    that older content finds nothing to write and returns true, although the slot is torn. *)
Lemma stale_mirror :
  ∃ w, ledger_reach w ∧
  let '(w', p', ok) := one_store [a_record] w in
  ok = true ∧ ld_own p' = [0%nat] ∧ read 0 w' = Torn ∧ ld_dirty p' = false.
Proof.
  exists (exec_ledger a_stored (LStore 1 [a_record; b_record] [] [WFail Torn] true)). split.
  - apply reach_exec; [apply a_stored_reach|done].
  - vm_compute. by split_and!.
Qed.
