(* ===== verification/ContentCoding.v ===== *)
(** * Content codings ([fabric/_content_coding.py])

    [decode_content] undoes a [Content-Encoding] token list, the last coding first, each
    stage bounded. [zlib] and the optional modules are parameters: what one call of a
    decompressor answers. A body is the [string] of its bytes. *)

From S2P Require Import Prelude Hash Decimal Ids JsonRead Tokens.

(** ** [str.strip] and [str.lower] *)

(** The rest of a text after one white-space character in front. *)
Definition drop_space (s : string) : option string :=
  match s with
  | "" => None
  | String a r =>
      if is_blank a then Some r
      else match r with
      | String b r =>
          let n := byte_of_ascii a in let m := byte_of_ascii b in
          if (n =? 194) && ((m =? 133) || (m =? 160)) then Some r
          else match r with
          | String c r =>
              let p := byte_of_ascii c in
              if ((n =? 225) && (m =? 154) && (p =? 128))
                 || ((n =? 226) && (m =? 128)
                     && (((128 <=? p) && (p <=? 138)) || (p =? 168) || (p =? 169) || (p =? 175)))
                 || ((n =? 226) && (m =? 129) && (p =? 159))
                 || ((n =? 227) && (m =? 128) && (p =? 128))
              then Some r else None
          | "" => None
          end
      | "" => None
      end
  end.

Fixpoint drop_spaces (fuel : nat) (s : string) : string :=
  match fuel with
  | O => s
  | S fuel => match drop_space s with Some r => drop_spaces fuel r | None => s end
  end.

Definition ulstrip (s : string) : string := drop_spaces (String.length s) s.

Fixpoint urstrip (s : string) : string :=
  match s with
  | "" => ""
  | String c r => if decide (ulstrip s = "") then "" else String c (urstrip r)
  end.

(** [s.strip()] *)
Definition ustrip (s : string) : string := urstrip (ulstrip s).

(** [s.lower()] as far as it can equal one of the names compared with: a letter outside ASCII
    never becomes a letter of one. *)
Fixpoint lower (s : string) : string :=
  match s with
  | "" => ""
  | String c r =>
      String (if in_range 65 90 c then ascii_of_byte (byte_of_ascii c + 32) else c) (lower r)
  end.

(** ** Errors *)

Inductive coding_error := Undecodable | TooLarge | ZlibError | OtherError.

#[export] Instance coding_error_eq_dec : EqDecision coding_error.
Proof. solve_decision. Defined.

Inductive decoded (A : Type) := Decoded (a : A) | Undone (e : coding_error).
Arguments Decoded {A} a.
Arguments Undone {A} e.

#[export] Instance decoded_bind : MBind decoded := λ A B f m,
  match m with Decoded a => f a | Undone e => Undone e end.

(** ** The decompressors *)

Definition blen (s : string) : Z := Z.of_nat (String.length s).

(** What [zlib.decompressobj(wbits).decompress(data, max_length)] gives: the output, whether
    input is left over and whether the stream ended; [None] for [zlib.error]. *)
Record Inflated := mk_inflated { if_out : string; if_tail : bool; if_eof : bool }.

(** The modules that the code calls when they are there. A call that raises gives [None]. *)
Class Decompressors := {
  zlib_decompress : Z → string → Z → option Inflated;
  (** [brotli.Decompressor()]: its state, [process] and [is_finished]. *)
  brotli_state : Type;
  brotli_new : option brotli_state;
  brotli_process : brotli_state → string → Z → option (brotli_state * string);
  brotli_finished : brotli_state → bool;
  (** [ZstdDecompressor().stream_reader(data).read(n)] *)
  zstandard_read : option (string → Z → option string);
  (** [compression.zstd]: the output and [eof]. *)
  zstd_stdlib : option (string → Z → option (string * bool));
}.

Definition MAX_WBITS : Z := 15.

Section coding.
Context {DC : Decompressors}.

(** [_codings] *)
Definition codings (encoding : option string) : list string :=
  omap (λ part, if decide (ustrip part = "") then None else Some (lower (ustrip part)))
    (split_on (char 44) (default "" encoding)).

Definition is_identity (encoding : option string) : bool :=
  forallb (λ coding, bool_decide (coding = "identity")) (codings encoding).

(** [_bounded] *)
Definition bounded (chunks : Z → decoded string) (limit : Z) : decoded string :=
  data ← chunks (limit + 1);
  if limit <? blen data then Undone TooLarge else Decoded data.

(** [_inflate] *)
Definition inflate (data : string) (wbits limit : Z) : decoded string :=
  match zlib_decompress wbits data (limit + 1) with
  | None => Undone ZlibError
  | Some out =>
      if (limit <? blen (if_out out)) || if_tail out then Undone TooLarge
      else if negb (if_eof out) then Undone ZlibError
      else Decoded (if_out out)
  end.

(** The loop of [_brotli]: the output, the decompressor afterwards and whether the fuel was
    enough. *)
Fixpoint brotli_loop (fuel : nat) (d : brotli_state) (out : string) (limit : Z)
    : decoded (brotli_state * string * bool) :=
  if (blen out <=? limit) && negb (brotli_finished d) then
    match fuel with
    | O => Decoded (d, out, false)
    | S fuel =>
        match brotli_process d "" (limit + 1 - blen out) with
        | None => Undone OtherError
        | Some (d, more) =>
            if decide (more = "") then Decoded (d, out, true)
            else brotli_loop fuel d (out +:+ more) limit
        end
    end
  else Decoded (d, out, true).

(** [_brotli]; every round of the loop adds a byte, so [limit + 1] rounds pass the limit. *)
Definition brotli (d : brotli_state) (data : string) (limit : Z) : decoded string :=
  match brotli_process d data (limit + 1) with
  | None => Undone OtherError
  | Some (d, out) =>
      '(d, out, _) ← brotli_loop (Z.to_nat (limit + 1)) d out limit;
      if limit <? blen out then Undone TooLarge
      else if negb (brotli_finished d) then Undone OtherError
      else Decoded out
  end.

(** [_zstd_decoder] *)
Definition zstd_decoder : option (string → Z → decoded string) :=
  match zstandard_read with
  | Some read =>
      Some (λ data limit,
        bounded (λ n, match read data n with Some out => Decoded out | None => Undone OtherError end) limit)
  | None =>
      match zstd_stdlib with
      | None => None
      | Some decompress =>
          Some (λ data limit,
            bounded (λ n,
              match decompress data n with
              | None => Undone OtherError
              | Some (out, eof) => if (blen out <? n) && negb eof then Undone OtherError else Decoded out
              end) limit)
      end
  end.

Definition optional_decoder (coding : string) : option (string → Z → decoded string) :=
  if decide (coding = "br") then brotli <$> brotli_new
  else if decide (coding = "zstd") then zstd_decoder
  else None.

(** One round of the loop of [decode_content] before its [except] clauses. *)
Definition undo (coding data : string) (limit : Z) : decoded string :=
  if bool_decide (coding ∈ ["gzip"; "x-gzip"]) then inflate data (16 + MAX_WBITS) limit
  else if decide (coding = "deflate") then
    match inflate data MAX_WBITS limit with
    | Undone ZlibError => inflate data (- MAX_WBITS) limit
    | r => r
    end
  else match optional_decoder coding with None => Undone Undecodable | Some decoder => decoder data limit end.

(** The [except] clauses: [TooLargeError] is an [UndecodableError]. *)
Definition as_undecodable (e : coding_error) : coding_error :=
  match e with TooLarge => TooLarge | _ => Undecodable end.

Fixpoint undo_all (codings : list string) (data : string) (limit : Z) : decoded string :=
  match codings with
  | [] => Decoded data
  | coding :: codings =>
      if decide (coding = "identity") then undo_all codings data limit
      else match undo coding data limit with
           | Decoded data => undo_all codings data limit
           | Undone e => Undone (as_undecodable e)
           end
  end.

Definition decode_content (data : string) (encoding : option string) (limit : Z) : decoded string :=
  undo_all (rev (codings encoding)) data limit.
End coding.

(** ** Bounds *)

Section bounds.
Context {DC : Decompressors}.

(** Each round of the loop of [_brotli] passes at least one byte nearer to the limit, so the
    loop ends by itself before its fuel does. *)
Lemma brotli_loop_ends fuel d out limit d' out' enough :
  limit < blen out + Z.of_nat fuel → brotli_loop fuel d out limit = Decoded (d', out', enough) → enough = true.
Proof.
  revert d out. induction fuel as [|fuel IH]; intros d out Hf; simpl.
  - destruct (blen out <=? limit) eqn:E; [to_prop; lia|]. simpl. naive_solver.
  - destruct (_ && _); [|naive_solver]. destruct (brotli_process _ _ _) as [[d1 more]|]; [|done].
    case_decide as Hm; [naive_solver|]. apply IH. unfold blen in *. rewrite length_string_app.
    destruct more; [done|]. simpl. lia.
Qed.

Lemma bounded_limit chunks limit out : bounded chunks limit = Decoded out → blen out ≤ limit.
Proof.
  unfold bounded. destruct (chunks _) as [data|e]; [|done]. simpl.
  destruct (limit <? blen data) eqn:E; [done|]. intros [= <-]. by apply Z.ltb_ge.
Qed.

Lemma inflate_limit data wbits limit out : inflate data wbits limit = Decoded out → blen out ≤ limit.
Proof.
  unfold inflate. destruct (zlib_decompress _ _ _) as [i|]; [|done].
  destruct (limit <? blen (if_out i)) eqn:E; [done|]. simpl. destruct (if_tail i); [done|].
  destruct (negb _); [done|]. intros [= <-]. by apply Z.ltb_ge.
Qed.

Lemma brotli_limit d data limit out : brotli d data limit = Decoded out → blen out ≤ limit.
Proof.
  unfold brotli. destruct (brotli_process _ _ _) as [[d1 o]|]; [|done].
  destruct (brotli_loop _ _ _ _) as [[[d2 o2] b]|]; [|done]. simpl.
  destruct (limit <? blen o2) eqn:E; [done|]. destruct (negb _); [done|]. intros [= <-]. by apply Z.ltb_ge.
Qed.

Lemma undo_limit coding data limit out : undo coding data limit = Decoded out → blen out ≤ limit.
Proof.
  unfold undo. destruct (bool_decide _); [apply inflate_limit|]. case_decide.
  - destruct (inflate data MAX_WBITS limit) as [o|[]] eqn:E; try done; [intros [= <-]; by eapply inflate_limit|].
    apply inflate_limit.
  - unfold optional_decoder, zstd_decoder. case_decide; [destruct brotli_new; [apply brotli_limit|done]|].
    case_decide; [|done].
    destruct zstandard_read; [apply bounded_limit|]. destruct zstd_stdlib; [apply bounded_limit|done].
Qed.

Lemma undo_all_spec codings data limit :
  match undo_all codings data limit with
  | Decoded out => (forallb (λ c, bool_decide (c = "identity")) codings = true ∧ out = data) ∨
      (forallb (λ c, bool_decide (c = "identity")) codings = false ∧ blen out ≤ limit)
  | Undone e => (e = Undecodable ∨ e = TooLarge) ∧
      forallb (λ c, bool_decide (c = "identity")) codings = false
  end.
Proof.
  revert data. induction codings as [|c codings IH]; intros data; simpl; [by left|].
  case_decide as Hc; [rewrite bool_decide_eq_true_2 by done; apply IH|].
  rewrite bool_decide_eq_false_2 by done. simpl.
  destruct (undo c data limit) as [o|e] eqn:E; [|by destruct e; simpl; auto].
  specialize (IH o). destruct (undo_all codings o limit) as [out|e]; [|naive_solver].
  right. split; [done|]. destruct IH as [[_ ->]|[_ ?]]; [by eapply undo_limit|done].
Qed.

(** C27: what a body decodes to is bounded: with a coding to undo, whatever a decompressor
    answers, either an error that says undecodable or too large, or at most [limit] bytes;
    without one, the body unchanged and no error. The loop of the brotli decoder ends before
    its fuel. *)
Theorem decode_content_bounded data encoding limit :
  match decode_content data encoding limit with
  | Decoded out => if is_identity encoding then out = data else blen out ≤ limit
  | Undone e => is_identity encoding = false ∧ (e = Undecodable ∨ e = TooLarge)
  end ∧
  (∀ d out d' out' enough, 0 ≤ blen out →
     brotli_loop (Z.to_nat (limit + 1)) d out limit = Decoded (d', out', enough) → enough = true).
Proof.
  split.
  - unfold decode_content, is_identity.
    pose proof (undo_all_spec (rev (codings encoding)) data limit) as H.
    assert (∀ l, forallb (λ c, bool_decide (c = "identity")) (rev l) =
      forallb (λ c, bool_decide (c = "identity")) l) as Hrev.
    { intros l. apply eq_true_iff_eq. rewrite !forallb_forall. split; intros Hf x Hx; apply Hf; revert Hx;
        rewrite <-in_rev; done. }
    rewrite Hrev in H. destruct (undo_all _ _ _) as [out|e]; [|naive_solver].
    destruct H as [[-> ->]|[-> ?]]; done.
  - intros d out d' out' enough Ho. apply brotli_loop_ends. lia.
Qed.
End bounds.
