(* ===== verification/StitchKeys.v ===== *)
(** * Stitching keys: projection and requests ([fabric/reconstruct/_stitch.py])

    The first half of the module: the projection [P(m)] of a message and its digest, the
    decoding of stored bodies and server-sent events, and the keys of a request body. The
    digests are what [Stitch] compares to continue a thread. [_UnparsedError] carries a parse
    status; any other exception of the code is [Failed]. A value of [json.loads] is a [json];
    Python's [None] is [JNull], and so is a missing key for [.get]. On such a value
    [project_message] and [message_digest] raise nothing but for the depth of the recursion (the
    encoding passes surrogates), so their [except] branches are not in the model. *)

From S2P Require Import Prelude PyDict Hash Json Decimal Canonical Ids JsonRead JsonValues Tokens ContentCoding.

Inductive WireApi :=
  | chat_completions | responses_api | completions | embeddings_api | anthropic_messages.

#[export] Instance WireApi_eq_dec : EqDecision WireApi.
Proof. solve_decision. Defined.

Inductive ParseStatus :=
  | ps_ok | not_json | undecodable_encoding | unrecognized_shape | ps_truncated | not_parsed
  | parse_failed.

#[export] Instance ParseStatus_eq_dec : EqDecision ParseStatus.
Proof. solve_decision. Defined.

Inductive side := request_side | response_side.

(** ** Computations that may not parse *)

Inductive failure := Unparsed (status : ParseStatus) | Failed.

Inductive parsed (A : Type) := Done (a : A) | Stop (f : failure).
Arguments Done {A} a.
Arguments Stop {A} f.

#[export] Instance parsed_bind : MBind parsed := λ A B f m,
  match m with Done a => f a | Stop e => Stop e end.

(** [for x in v or ():] *)
Definition iterate (v : json) : parsed (list json) :=
  if negb (jtrue v) then Done []
  else match v with
  | JArr l => Done l
  | JStr s => Done (JStr <$> characters s)
  | JObj l => Done (JStr <$> l.*1)
  | _ => Stop Failed
  end.

(** [v in frozenset(names)]: a list or a dictionary is not hashable. *)
Definition in_set (names : list string) (v : json) : parsed bool :=
  match v with
  | JStr s => Done (bool_decide (s ∈ names))
  | JArr _ | JObj _ => Stop Failed
  | _ => Done false
  end.

(** [filter] with a test that may raise. *)
Fixpoint pfilter {A} (f : A → parsed bool) (l : list A) : parsed (list A) :=
  match l with
  | [] => Done []
  | x :: l => b ← f x; k ← pfilter f l; Done (if (b : bool) then x :: k else k)
  end.

(** ** The projection *)

Definition canonical_json (v : json) : string := dumps v.

(** [_sha256_json] *)
Definition sha256_json (v : json) : string := "sha256:" +:+ hexdigest (encode (canonical_json v)).

(** [_strip_nulls] *)
Fixpoint strip_nulls (v : json) : json :=
  match v with
  | JObj l => JObj (filter (λ p, is_null p.2 = false) ((λ p, (p.1, strip_nulls p.2)) <$> l))
  | JArr l => JArr (strip_nulls <$> l)
  | v => v
  end.

Definition CHAT_KEEP : list string :=
  ["role"; "content"; "name"; "tool_calls"; "tool_call_id"; "function_call"; "refusal"].
Definition RESPONSES_CONSUMED : list string := ["function_call_output"; "custom_tool_call_output"].
Definition RESPONSES_EMITTED : list string := ["function_call"; "custom_tool_call"].

Definition keep_keys (keys : list string) (d : list (string * json)) : list (string * json) :=
  filter (λ p, p.1 ∈ keys) d.

(** [{k: d\[k\] for k in keys if k in d}] *)
Definition pick (keys : list string) (d : list (string * json)) : list (string * json) :=
  omap (λ k, (k,.) <$> dget k d) keys.

(** The loop over the tool calls of a message *)
Definition call_entry (call : json) : json :=
  match call with
  | JObj c =>
      JObj (match dget "id" c with Some v => [("id", v)] | None => [] end
            ++ [("type", default (JStr "function") (dget "type" c))]
            ++ match get "function" c with
               | JNull => []
               | JObj f => [("function", JObj (pick ["name"; "arguments"] f))]
               | v => [("function", v)]
               end)
  | _ => call
  end.

(** [_project_chat] *)
Definition project_chat (message : json) : json :=
  match message with
  | JObj m =>
      let projected := keep_keys CHAT_KEEP m in
      match get "tool_calls" projected with
      | JArr [] => JObj (ddel "tool_calls" projected)
      | JArr calls =>
          let projected := dset "tool_calls" (JArr (call_entry <$> calls)) projected in
          if bool_decide (get "role" projected = JStr "assistant")
             && bool_decide (get "content" projected = JStr "")
          then JObj (ddel "content" projected) else JObj projected
      | _ => JObj projected
      end
  | _ => message
  end.

(** A content part without empty annotations and log probabilities. *)
Definition part_entry (part : json) : json :=
  match part with
  | JObj p => JObj (filter (λ q, ¬ (q.1 ∈ ["annotations"; "logprobs"] ∧ q.2 = JArr [])) p)
  | _ => part
  end.

(** [_project_responses] *)
Definition project_responses (item : json) (s : side) : json :=
  match item, s with
  | JStr text, request_side => JObj [("type", JStr "message"); ("role", JStr "user"); ("content", JStr text)]
  | JObj d, _ =>
      let projected := filter (λ p, p.1 ≠ "status") d in
      match get "content" projected with
      | JArr parts => JObj (dset "content" (JArr (part_entry <$> parts)) projected)
      | _ => JObj projected
      end
  | _, _ => item
  end.

(** [_project_anthropic] *)
Definition project_anthropic (message : json) : json :=
  match message with
  | JObj m =>
      let projected := keep_keys ["role"; "content"] m in
      match get "content" projected with
      | JStr text => JObj (dset "content" (JArr [JObj [("type", JStr "text"); ("text", JStr text)]]) projected)
      | _ => JObj projected
      end
  | _ => message
  end.

Definition project_message (api : WireApi) (s : side) (message : json) : json :=
  if bool_decide (api = responses_api) && is_str message then project_responses message s
  else
    let stripped := strip_nulls message in
    match api with
    | chat_completions => project_chat stripped
    | responses_api => project_responses stripped s
    | anthropic_messages => project_anthropic stripped
    | _ => stripped
    end.

Definition message_digest (api : WireApi) (s : side) (message : json) : string :=
  sha256_json (project_message api s message).

Definition continuation_digests (api : WireApi) (output_digests : list string) : list string :=
  match api with
  | chat_completions | completions => take 1 output_digests
  | responses_api | anthropic_messages => output_digests
  | embeddings_api => []
  end.

(** ** Bodies *)

Definition MAX_DECODED_BYTES : Z := 64 * 1024 * 1024.

Section bodies.
Context {FT : FloatText} {DC : Decompressors}.

(** [_decode], with its default limit *)
Definition decode_body (data : string) (encoding : option string) : parsed string :=
  match encoding with
  | None | Some "" => Done data
  | Some _ =>
      match decode_content data encoding MAX_DECODED_BYTES with
      | Decoded data => Done data
      | Undone _ => Stop (Unparsed undecodable_encoding)
      end
  end.

(** [_load_json] *)
Definition load_json (strict : bool) (data : string) : parsed json :=
  if utf8_valid data then
    match loads strict data with Some v => Done v | None => Stop (Unparsed not_json) end
  else Stop (Unparsed not_json).

(** [text.replace("\r\n", "\n").replace("\r", "\n")] *)
Fixpoint newlines (s : string) : string :=
  match s with
  | "" => ""
  | String c r =>
      if is_char 13 c then
        String (char 10) (match r with String d r' => if is_char 10 d then newlines r' else newlines r | "" => "" end)
      else String c (newlines r)
  end.

(** [text.split("\n\n")] *)
Fixpoint split_blank (s : string) : list string :=
  match s with
  | "" => [""]
  | String c r =>
      match r with
      | String d r' =>
          if is_char 10 c && is_char 10 d then "" :: split_blank r'
          else match split_blank r with
               | block :: blocks => String c block :: blocks
               | [] => [String c ""]
               end
      | "" => [String c ""]
      end
  end.

(** [line.lstrip(" ")] *)
Fixpoint lstrip_spaces (s : string) : string :=
  match s with "" => "" | String c r => if is_char 32 c then lstrip_spaces r else s end.

(** The data lines of a block. *)
Definition data_lines (block : string) : list string :=
  omap (λ line, lstrip_spaces <$> strip_prefix "data:" line) (split_on (char 10) block).

Fixpoint sse_blocks (strict : bool) (blocks : list string) : parsed (list json) :=
  match blocks with
  | [] => Done []
  | block :: blocks =>
      let lines := data_lines block in
      let payload := join_with (char 10) lines in
      if decide (lines = []) then sse_blocks strict blocks
      else if decide (ustrip payload = "[DONE]") then sse_blocks strict blocks
      else match loads strict payload with
           | Some event => events ← sse_blocks strict blocks; Done (event :: events)
           | None =>
               if negb strict && bool_decide (blocks = []) then Done [] else Stop (Unparsed not_json)
           end
  end.

(** [_sse_events] *)
Definition sse_events (strict : bool) (data : string) : parsed (list json) :=
  if utf8_valid data then sse_blocks strict (split_blank (newlines data))
  else Stop (Unparsed not_json).

(** [_STREAM_ENDS]: [None] for an API without an end event of its own. *)
Definition STREAM_ENDS (api : WireApi) : option (list string) :=
  match api with
  | anthropic_messages => Some ["message_stop"; "error"]
  | responses_api => Some ["response.completed"; "response.incomplete"; "response.failed"; "error"]
  | _ => None
  end.

(** The loop of [_sse_ended] over the blocks, the last first. *)
Fixpoint sse_ended_blocks (api : WireApi) (blocks : list string) : parsed bool :=
  match blocks with
  | [] => Done false
  | block :: blocks =>
      let lines := data_lines block in
      if decide (lines = []) then sse_ended_blocks api blocks
      else
        let payload := ustrip (join_with (char 10) lines) in
        if decide (payload = "[DONE]") then Done true
        else match loads false payload with
             | None => Done false
             | Some (JObj event) =>
                 match STREAM_ENDS api with
                 | Some ends => in_set ends (get "type" event)
                 | None => Done false
                 end
             | Some _ => Done false
             end
  end.

(** [_sse_ended], on data that [_sse_events] has decoded. *)
Definition sse_ended (api : WireApi) (data : string) : parsed bool :=
  sse_ended_blocks api (rev (split_blank (newlines data))).

(** [data.lstrip()] on bytes *)
Fixpoint bytes_lstrip (s : string) : string :=
  match s with "" => "" | String c r => if is_space c then bytes_lstrip r else s end.

Definition looks_like_sse (data : string) (media_type : option string) : bool :=
  bool_decide (media_type = Some "text/event-stream")
  || (let head := String.substring 0 16 (bytes_lstrip data) in
      String.prefix "data:" head || String.prefix "event:" head || String.prefix ":" head).
End bodies.

(** ** Helpers *)

(** [_inputs.pseudonym] *)
Definition pseudonym (value : string) (key : option (list Z)) : string :=
  match pseudonym_v2 "p" value key with
  | Ok (Some keyed) => keyed
  | _ => "p-" +:+ String.substring 0 16 (hexdigest (encode value))
  end.

(** [_opt_str] *)
Definition opt_str (v : json) : option string :=
  match v with JStr s => if decide (s = "") then None else Some s | _ => None end.

(** [_roles] *)
Fixpoint roles (items : list json) (fallback_type : bool) : option (list string) :=
  match items with
  | [] => Some []
  | item :: items =>
      let role := vget "role" item in
      let role := if is_null role && fallback_type && is_dict item then vget "type" item else role in
      r ← opt_str role; rs ← roles items fallback_type; Some (r :: rs)
  end.

(** [_index]: a boolean is not an index. *)
Definition index_of (item : list (string * json)) (d : Z) : Z :=
  match get "index" item with JInt z => z | _ => d end.

(** [_int] *)
Definition int_of (v : json) : option Z :=
  match v with JInt z => if 0 <=? z then Some z else None | _ => None end.

Definition Usage : Type := list (string * Z).

(** [number = _int(v); if number is not None: out\[key\] = number] *)
Definition set_usage (key : string) (v : json) (out : Usage) : Usage :=
  match int_of v with Some z => dset key z out | None => out end.

(** [d.get(k, d.get(alternative))] *)
Definition get_or (k alternative : string) (d : list (string * json)) : json :=
  default (get alternative d) (dget k d).

(** [_usage_openai] *)
Definition usage_openai (usage : json) : Usage :=
  match usage with
  | JObj u =>
      let out := set_usage "input_tokens" (get_or "prompt_tokens" "input_tokens" u) [] in
      let out := set_usage "output_tokens" (get_or "completion_tokens" "output_tokens" u) out in
      let out := foldl (λ out k, set_usage "cache_read_input_tokens" (vget "cached_tokens" (get k u)) out)
                   out ["prompt_tokens_details"; "input_tokens_details"] in
      foldl (λ out k, set_usage "reasoning_output_tokens" (vget "reasoning_tokens" (get k u)) out)
        out ["completion_tokens_details"; "output_tokens_details"]
  | _ => []
  end.

(** [_usage_anthropic] *)
Definition usage_anthropic (usage : json) (into : Usage) : Usage :=
  match usage with
  | JObj u =>
      foldl (λ out k, set_usage k (get k u) out) into
        ["input_tokens"; "output_tokens"; "cache_read_input_tokens"; "cache_creation_input_tokens"]
  | _ => into
  end.

(** [_is_error_document] *)
Definition is_error_document (document : json) : bool :=
  match document with
  | JObj d =>
      bool_decide (get "type" d = JStr "error")
      || (din "error" d && negb (din "choices" d) && negb (din "output" d))
  | _ => false
  end.

Section keys.
Context (key : option (list Z)).

(** [_opaque] and [_opt_id] *)
Definition opaque (value : string) : string := pseudonym value key.
Definition opt_id (v : json) : option string := opaque <$> opt_str v.

(** [_ids] *)
Definition ids (values : list json) : list string := fromkeys (omap opt_id values).

(** ** The request side *)

Record Request := mk_request {
  rq_model : option string;
  rq_stream : bool;
  rq_previous_response_id : option string;
  rq_digests : list string;
  rq_roles : option (list string);
  rq_system_digest : option string;
  rq_tools_digest : option string;
  rq_consumed : list string;
  rq_status : ParseStatus;
}.

(** [_Request()] *)
Definition new_request (status : ParseStatus) : Request :=
  mk_request None false None [] None None None [] status.

(** The items of an [input]. *)
Definition input_items (raw_input : json) : parsed (list json) :=
  match raw_input with
  | JNull => Done []
  | JStr _ => Done [raw_input]
  | JArr l => Done l
  | _ => Stop (Unparsed unrecognized_shape)
  end.

(** The tool results in the content of a message. *)
Definition tool_results (message : json) : list json :=
  match vget "content" message with
  | JArr content =>
      omap (λ block, if bool_decide (vget "type" block = JStr "tool_result") && is_dict block
                     then Some (vget "tool_use_id" block) else None) content
  | _ => []
  end.

Definition is_int (v : json) : bool := match v with JInt _ => true | _ => false end.

(** The inputs of an embeddings request: a flat token array is one input. *)
Definition embedding_elements (raw_input : json) : list json :=
  match raw_input with
  | JArr l => if negb (bool_decide (l = [])) && forallb is_int l then [raw_input] else l
  | _ => [raw_input]
  end.

(** [_parse_request] *)
Definition parse_request (api : WireApi) (document : json) : parsed Request :=
  match document with
  | JObj d =>
      let model := opt_str (get "model" d) in
      let stream := bool_decide (get "stream" d = JBool true) in
      let tools := match get "tools" d with
                   | JNull => None
                   | tools => if decide (api = embeddings_api) then None else Some (sha256_json tools)
                   end in
      match api with
      | chat_completions =>
          match get "messages" d with
          | JArr messages =>
              Done (mk_request model stream None (message_digest api request_side <$> messages)
                      (roles messages false) None tools
                      (ids (omap (λ m, if is_dict m && bool_decide (vget "role" m = JStr "tool")
                                       then Some (vget "tool_call_id" m) else None) messages)) ps_ok)
          | _ => Stop (Unparsed unrecognized_shape)
          end
      | responses_api =>
          items ← input_items (get "input" d);
          consumed ← pfilter (λ item, if is_dict item then in_set RESPONSES_CONSUMED (vget "type" item)
                                      else Done false) items;
          Done (mk_request model stream (opt_id (get "previous_response_id" d))
                  (message_digest api request_side <$> items)
                  (roles (project_message api request_side <$> items) true)
                  (match get "instructions" d with
                   | JNull => None | v => Some (sha256_json (strip_nulls v)) end) tools
                  (ids (vget "call_id" <$> consumed)) ps_ok)
      | anthropic_messages =>
          match get "messages" d with
          | JArr messages =>
              let system := match get "system" d with
                            | JStr text => JArr [JObj [("type", JStr "text"); ("text", JStr text)]]
                            | v => v
                            end in
              Done (mk_request model stream None (message_digest api request_side <$> messages)
                      (roles messages false)
                      (match system with JNull => None | v => Some (sha256_json (strip_nulls v)) end) tools
                      (ids (messages ≫= tool_results)) ps_ok)
          | _ => Stop (Unparsed unrecognized_shape)
          end
      | completions =>
          match dget "prompt" d with
          | None => Stop (Unparsed unrecognized_shape)
          | Some prompt =>
              Done (mk_request model stream None [message_digest api request_side (JObj [("prompt", prompt)])]
                      None None tools [] ps_ok)
          end
      | embeddings_api =>
          match get "input" d with
          | JNull => Stop (Unparsed unrecognized_shape)
          | raw_input =>
              Done (mk_request model stream None
                      (message_digest api request_side <$> embedding_elements raw_input) None None tools [] ps_ok)
          end
      end
  | _ => Stop (Unparsed unrecognized_shape)
  end.
End keys.

(** ** Reading back what was written *)

(** Reading back what was written canonically gives the same document, its keys sorted, for
    every document of distinct keys without floats, and digesting it again gives the same
    digest. *)
Theorem load_json_canonical {FT : FloatText} (strict : bool) (v : json) :
  plain v = true → utf8_valid (canonical_json v) = true →
  load_json strict (canonical_json v) = Done (canon v) ∧ sha256_json (canon v) = sha256_json v.
Proof.
  intros Hv Hu. unfold load_json. rewrite Hu. unfold canonical_json. rewrite loads_dumps by done.
  split; [done|]. unfold sha256_json, canonical_json. by rewrite dumps_canon.
Qed.

Lemma load_json_canonical_witness :
  @load_json (λ s, s) true (canonical_json (JObj [("b", JInt (-7)); ("a", JArr [JNull; JStr "x"])])) =
  Done (JObj [("a", JArr [JNull; JStr "x"]); ("b", JInt (-7))]).
Proof.
  set (v := JObj [("b", JInt (-7)); ("a", JArr [JNull; JStr "x"])]).
  destruct (@load_json_canonical (λ s, s) true v) as [H _]; [vm_compute; reflexivity|vm_compute; reflexivity|].
  rewrite H. vm_compute. reflexivity.
Defined.
