(* ===== verification/StitchStream.v ===== *)
(** * Stitching keys: responses ([fabric/reconstruct/_stitch.py])

    The second half of the module: the documents and the event streams of each wire API, the
    response side, and [extract_stitch_keys]. The functions that fill a [_Response] return it;
    where the code raises half-way the response is thrown away. *)

From S2P Require Import Prelude PyDict Hash Json Decimal Canonical Ids JsonRead JsonValues ContentCoding StitchKeys.

(** ** Pieces of streams *)

(** [d.get(k, "") + piece] put back; [(d.get(k) or "") + piece] when the value may be null. *)
Definition add_piece (k piece : string) (d : list (string * json)) : parsed (list (string * json)) :=
  match get k d with
  | JStr s => Done (dset k (JStr (s +:+ piece)) d)
  | v => if jtrue v then Stop Failed else Done (dset k (JStr piece) d)
  end.

(** [for key in keys: if isinstance(source.get(key), str): d\[key\] = d.get(key, "") + ...], where
    [d] only holds strings. *)
Definition add_strings (keys : list string) (source d : list (string * json)) : list (string * json) :=
  foldl (λ d k, match get k source with
                | JStr piece =>
                    dset k (JStr (match get k d with JStr s => s +:+ piece | _ => piece end)) d
                | _ => d
                end) d keys.

(** [sorted(d)] on integer keys, and the values in that order. *)
Definition key_le {A} (p q : Z * A) : bool := p.1 <=? q.1.
Definition by_index {A} (d : list (Z * A)) : list A := (py_sort key_le d).*2.

Record Response := mk_response {
  rs_response_id : option string;
  rs_model : option string;
  rs_finish_reasons : list string;
  rs_outputs : list json;
  rs_roles : option (list string);
  rs_tool_calls : list (string * option string);
  rs_usage : Usage;
  rs_status : ParseStatus;
}.

(** [_Response()] *)
Definition new_response (status : ParseStatus) : Response :=
  mk_response None None [] [] None [] [] status.

(** [_finish] *)
Definition finish (values : list json) : list string := omap opt_str values.

(** *** The state of one choice of a chat stream *)

Record Choice := mk_choice {
  ch_role : option string;
  ch_content : option string;
  ch_refusal : option string;
  ch_tools : list (Z * list (string * json));
  ch_fc : option (list (string * json));
  ch_finish : json;
}.

Definition new_choice : Choice := mk_choice None None None [] None JNull.

(** A string piece of a delta, added to what is there. *)
Definition grow (old : option string) (piece : json) : option string :=
  match piece with JStr s => Some (default "" old +:+ s) | _ => old end.

(** [if isinstance(v, str) and k not in entry: entry\[k\] = v] *)
Definition set_first (k : string) (v : json) (entry : list (string * json)) : list (string * json) :=
  if is_str v && negb (din k entry) then dset k v entry else entry.

(** One call of a delta's [tool_calls]. *)
Definition tool_delta (tools : list (Z * list (string * json))) (call : json)
    : list (Z * list (string * json)) :=
  match call with
  | JObj c =>
      let i := index_of c 0 in
      let entry := default [("function", JObj [])] (dget i tools) in
      let entry := set_first "type" (get "type" c) (set_first "id" (get "id" c) entry) in
      let entry :=
        match get "function" c, get "function" entry with
        | JObj f, JObj g => dset "function" (JObj (add_strings ["name"; "arguments"] f g)) entry
        | _, _ => entry
        end in
      dset i entry tools
  | _ => tools
  end.

(** The delta of one choice. *)
Definition choice_delta (c : Choice) (delta : list (string * json)) : parsed Choice :=
  calls ← iterate (get "tool_calls" delta);
  Done (mk_choice
    (match ch_role c, get "role" delta with None, JStr s => Some s | r, _ => r end)
    (grow (ch_content c) (get "content" delta))
    (grow (ch_refusal c) (get "refusal" delta))
    (foldl tool_delta (ch_tools c) calls)
    (match get "function_call" delta with
     | JObj f => Some (add_strings ["name"; "arguments"] f (default [] (ch_fc c)))
     | _ => ch_fc c
     end)
    (ch_finish c)).

Definition set_finish (v : json) (c : Choice) : Choice :=
  mk_choice (ch_role c) (ch_content c) (ch_refusal c) (ch_tools c) (ch_fc c) (if jtrue v then v else ch_finish c).

(** One choice of an event. *)
Definition choice_event (choices : list (Z * Choice)) (choice : json) : parsed (list (Z * Choice)) :=
  match choice with
  | JObj c =>
      let i := index_of c 0 in
      let state := set_finish (get "finish_reason" c) (default new_choice (dget i choices)) in
      match get "delta" c with
      | JObj delta => state ← choice_delta state delta; Done (dset i state choices)
      | _ => Done (dset i state choices)
      end
  | _ => Done choices
  end.

Fixpoint pfold {S A} (f : S → A → parsed S) (s : S) (l : list A) : parsed S :=
  match l with [] => Done s | x :: l => s ← f s x; pfold f s l end.

Definition option_json (o : option string) : json := match o with Some s => JStr s | None => JNull end.

(** The message of a choice when the stream is over. *)
Definition choice_message (c : Choice) : json :=
  JObj ([("role", JStr (or_str (ch_role c) "assistant")); ("content", option_json (ch_content c))]
        ++ match ch_refusal c with Some s => [("refusal", JStr s)] | None => [] end
        ++ match ch_fc c with Some fc => [("function_call", JObj fc)] | None => [] end
        ++ match ch_tools c with
           | [] => []
           | tools => [("tool_calls", JArr (JObj <$> by_index tools))]
           end).

Section streams.
Context {FT : FloatText} (key : option (list Z)).

(** What the events of a stream say besides their choices. *)
Record Head := mk_head { hd_id : option string; hd_model : option string; hd_usage : Usage }.

Definition new_head : Head := mk_head None None [].

(** [if out.x is None: out.x = ...], and the usage of the last event that has one. *)
Definition head_event (h : Head) (event : list (string * json)) : Head :=
  mk_head
    (match hd_id h with None => opt_id key (get "id" event) | id => id end)
    (match hd_model h with None => opt_str (get "model" event) | m => m end)
    (match get "usage" event with JObj u => usage_openai (JObj u) | _ => hd_usage h end).

(** One event of [_chat_stream]. *)
Definition chat_event (s : Head * list (Z * Choice)) (event : json) : parsed (Head * list (Z * Choice)) :=
  match event with
  | JObj e =>
      event_choices ← iterate (get "choices" e);
      choices ← pfold choice_event s.2 event_choices;
      Done (head_event s.1 e, choices)
  | _ => Done s
  end.

(** [_chat_stream] *)
Definition chat_stream (events : list json) : parsed Response :=
  '(h, choices) ← pfold chat_event (new_head, []) events;
  Done (mk_response (hd_id h) (hd_model h) (finish (ch_finish <$> by_index choices))
          (choice_message <$> by_index choices) None [] (hd_usage h) ps_ok).

Definition index_le (c d : json) : bool :=
  let i v := match v with JObj l => index_of l 0 | _ => 0 end in i c <=? i d.

(** [_chat_document] *)
Definition chat_document (d : list (string * json)) : parsed Response :=
  match get "choices" d with
  | JArr choices =>
      let ordered := py_sort index_le (filter (λ c, is_dict c = true) choices) in
      Done (mk_response (opt_id key (get "id" d)) (opt_str (get "model" d))
              (finish (vget "finish_reason" <$> ordered))
              (filter (λ m, is_dict m = true) (vget "message" <$> ordered)) None []
              (usage_openai (get "usage" d)) ps_ok)
  | _ => Stop (Unparsed unrecognized_shape)
  end.

(** [reason or other] *)
Definition or_else (v w : json) : json := if jtrue v then v else w.

(** [_responses_document] *)
Definition responses_document (d : list (string * json)) : parsed Response :=
  match get "output" d with
  | JArr output =>
      Done (mk_response (opt_id key (get "id" d)) (opt_str (get "model" d))
              (finish [or_else (vget "reason" (get "incomplete_details" d)) (get "status" d)])
              output None [] (usage_openai (get "usage" d)) ps_ok)
  | _ => Stop (Unparsed unrecognized_shape)
  end.

(** The final and the created response of a stream, and its finished items. *)
Record Items := mk_items {
  it_final : option (list (string * json));
  it_created : option (list (string * json));
  it_items : list (Z * json);
}.

(** A finished item; a boolean index is an integer here. *)
Definition item_done (s : Items) (e : list (string * json)) : Items :=
  if bool_decide (get "type" e = JStr "response.output_item.done")
  then mk_items (it_final s) (it_created s)
         (dset (match get "output_index" e with
                | JInt z => z | JBool b => Z.b2z b | _ => Z.of_nat (length (it_items s)) end)
            (get "item" e) (it_items s))
  else s.

(** One event of [_responses_stream]. *)
Definition responses_event (s : Items) (event : json) : Items :=
  match event with
  | JObj e =>
      let kind := get "type" e in
      match get "response" e with
      | JObj r =>
          if bool_decide (kind ∈ [JStr "response.completed"; JStr "response.incomplete"; JStr "response.failed"])
          then mk_items (Some r) (it_created s) (it_items s)
          else if bool_decide (kind ∈ [JStr "response.created"; JStr "response.in_progress"])
          then mk_items (it_final s) (Some r) (it_items s)
          else item_done s e
      | _ => item_done s e
      end
  | _ => s
  end.

(** [final or created or {}] *)
Definition source_of (s : Items) : list (string * json) :=
  match it_final s with
  | Some ((_ :: _) as final) => final
  | _ => default [] (it_created s)
  end.

(** [_responses_stream] *)
Definition responses_stream (events : list json) : parsed Response :=
  let s := foldl responses_event (mk_items None None []) events in
  let source := source_of s in
  let rest := Done (mk_response (opt_id key (get "id" source)) (opt_str (get "model" source))
    (match it_final s with Some final => finish [get "status" final] | None => [] end)
    (by_index (it_items s)) None [] (usage_openai (get "usage" source)) ps_ok) in
  match it_final s with
  | Some final => if is_list (get "output" final) then responses_document final else rest
  | None => rest
  end.

(** [_anthropic_document] *)
Definition anthropic_document (d : list (string * json)) : parsed Response :=
  let content := get "content" d in
  if negb (is_list content) && negb (is_str content) then Stop (Unparsed unrecognized_shape)
  else Done (mk_response (opt_id key (get "id" d)) (opt_str (get "model" d)) (finish [get "stop_reason" d])
               [JObj [("role", or_else (get "role" d) (JStr "assistant")); ("content", content)]] None []
               (usage_anthropic (get "usage" d) []) ps_ok).

(** *** The Anthropic stream *)

Record Blocks := mk_blocks {
  bl_id : option string;
  bl_model : option string;
  bl_role : json;
  bl_blocks : list (Z * list (string * json));
  bl_partial : list (Z * string);
  bl_usage : Usage;
  bl_stop : json;
  bl_seen : bool;
}.

Definition new_blocks : Blocks := mk_blocks None None (JStr "assistant") [] [] [] JNull false.

Definition set_block (i : Z) (block : list (string * json)) (s : Blocks) : Blocks :=
  mk_blocks (bl_id s) (bl_model s) (bl_role s) (dset i block (bl_blocks s)) (bl_partial s) (bl_usage s)
    (bl_stop s) (bl_seen s).

(** [message_start] *)
Definition message_start (s : Blocks) (m : list (string * json)) : parsed Blocks :=
  content ← iterate (get "content" m);
  Done (mk_blocks (opt_id key (get "id" m)) (opt_str (get "model" m))
    (if is_str (get "role" m) then get "role" m else bl_role s)
    (foldl (λ blocks p, match p.2 with JObj b => dset p.1 b blocks | _ => blocks end)
       (bl_blocks s) (imap (λ n v, (Z.of_nat n, v)) content))
    (bl_partial s) (usage_anthropic (get "usage" m) (bl_usage s)) (bl_stop s) true).

(** [content_block_delta]: what a delta does to its block, and the partial JSON it adds. *)
Definition block_delta (d block : list (string * json)) (partial : string)
    : parsed (list (string * json) * option string) :=
  let piece k := block ← add_piece k (match get k d with JStr t => t | _ => "" end) block; Done (block, None) in
  let kind := get "type" d in
  if bool_decide (kind = JStr "text_delta") && is_str (get "text" d) then piece "text"
  else if bool_decide (kind = JStr "input_json_delta") && is_str (get "partial_json" d)
  then Done (block, match get "partial_json" d with JStr t => Some (partial +:+ t) | _ => None end)
  else if bool_decide (kind = JStr "thinking_delta") && is_str (get "thinking" d) then piece "thinking"
  else if bool_decide (kind = JStr "signature_delta") && is_str (get "signature" d) then piece "signature"
  else if bool_decide (kind = JStr "citations_delta") then
    match dget "citation" d with
    | Some c => old ← iterate (get "citations" block); Done (dset "citations" (JArr (old ++ [c])) block, None)
    | None => Done (block, None)
    end
  else Done (block, None).

Definition set_partial (i : Z) (text : option string) (s : Blocks) : Blocks :=
  mk_blocks (bl_id s) (bl_model s) (bl_role s) (bl_blocks s)
    (match text with Some t => dset i t (bl_partial s) | None => bl_partial s end) (bl_usage s) (bl_stop s)
    (bl_seen s).

(** [message_delta] *)
Definition message_delta (s : Blocks) (e : list (string * json)) : Blocks :=
  mk_blocks (bl_id s) (bl_model s) (bl_role s) (bl_blocks s) (bl_partial s)
    (usage_anthropic (get "usage" e) (bl_usage s)) (or_else (vget "stop_reason" (get "delta" e)) (bl_stop s))
    (bl_seen s).

(** One event of [_anthropic_stream]. *)
Definition anthropic_event (s : Blocks) (event : json) : parsed Blocks :=
  match event with
  | JObj e =>
      let kind := get "type" e in
      if bool_decide (kind = JStr "message_start") then
        match get "message" e with JObj m => message_start s m | _ => Done s end
      else if bool_decide (kind = JStr "content_block_start") then
        match get "content_block" e with
        | JObj b => Done (set_block (index_of e (Z.of_nat (length (bl_blocks s)))) b s)
        | _ => Done s
        end
      else if bool_decide (kind = JStr "content_block_delta") then
        match get "delta" e with
        | JObj d =>
            let i := index_of e 0 in
            '(block, text) ← block_delta d (default [] (dget i (bl_blocks s))) (default "" (dget i (bl_partial s)));
            Done (set_partial i text (set_block i block s))
        | _ => Done s
        end
      else if bool_decide (kind = JStr "message_delta") then Done (message_delta s e)
      else Done s
  | _ => Done s
  end.

(** The input of a block from its partial JSON. *)
Definition partial_input (text : string) : json :=
  if decide (text = "") then JObj []
  else match loads false text with Some v => v | None => JStr text end.

Definition put_input (blocks : list (Z * list (string * json))) (p : Z * string) : list (Z * list (string * json)) :=
  match dget p.1 blocks with
  | Some block => dset p.1 (dset "input" (partial_input p.2) block) blocks
  | None => blocks
  end.

(** A tool use without an input. *)
Definition default_input (block : list (string * json)) : list (string * json) :=
  if bool_decide (get "type" block ∈ [JStr "tool_use"; JStr "server_tool_use"]) && negb (din "input" block)
  then dset "input" (JObj []) block else block.

(** The blocks when the stream is over. *)
Definition final_blocks (s : Blocks) : list (Z * list (string * json)) :=
  (λ p, (p.1, default_input p.2)) <$> foldl put_input (bl_blocks s) (bl_partial s).

(** [_anthropic_stream] *)
Definition anthropic_stream (events : list json) : parsed Response :=
  s ← pfold anthropic_event new_blocks events;
  if negb (bl_seen s) && bool_decide (bl_blocks s = []) then Stop (Unparsed unrecognized_shape)
  else Done (mk_response (bl_id s) (bl_model s) (finish [bl_stop s])
    [JObj [("role", bl_role s); ("content", JArr (JObj <$> by_index (final_blocks s)))]] None [] (bl_usage s) ps_ok).

(** *** Text completions *)

Record Texts := mk_texts {
  tx_head : Head;
  tx_texts : list (Z * string);
  tx_finish : list (Z * json);
  tx_seen : bool;
}.

Definition text_choice (s : list (Z * string) * list (Z * json)) (choice : json)
    : list (Z * string) * list (Z * json) :=
  match choice with
  | JObj c =>
      let i := index_of c 0 in
      (match get "text" c with
       | JStr t => dset i (default "" (dget i s.1) +:+ t) s.1
       | _ => dsetdefault i "" s.1
       end,
       if jtrue (get "finish_reason" c) then dset i (get "finish_reason" c) s.2 else s.2)
  | _ => s
  end.

Definition text_document (stream : bool) (s : Texts) (document : json) : parsed Texts :=
  match document with
  | JObj d =>
      match get "choices" d with
      | JArr choices =>
          let '(texts, finished) := foldl text_choice (tx_texts s, tx_finish s) choices in
          Done (mk_texts (head_event (tx_head s) d) texts finished true)
      | _ => if stream then Done s else Stop (Unparsed unrecognized_shape)
      end
  | _ => Done s
  end.

(** [_completions] *)
Definition completions_response (documents : list json) (stream : bool) : parsed Response :=
  s ← pfold (text_document stream) (mk_texts new_head [] [] false) documents;
  if negb (tx_seen s) && negb stream then Stop (Unparsed unrecognized_shape)
  else
    let h := tx_head s in
    let texts := py_sort key_le (tx_texts s) in
    Done (mk_response (hd_id h) (hd_model h)
      (finish ((λ p, default JNull (dget p.1 (tx_finish s))) <$> texts))
      ((λ p, JObj [("text", JStr p.2)]) <$> texts) None [] (hd_usage h) ps_ok).

(** ** The response side *)

(** [_tool_calls] *)
Definition tool_calls (pairs : list (json * json)) : list (string * option string) :=
  foldl (λ seen p, match opt_id key p.1 with
                   | Some id => dsetdefault id (match p.2 with JStr name => Some name | _ => None end) seen
                   | None => seen
                   end) [] pairs.

(** The tool calls and the roles of the outputs. *)
Definition call_pair (call : json) : option (json * json) :=
  if is_dict call then Some (vget "id" call, vget "name" (vget "function" call)) else None.

Definition chat_calls (message : json) : parsed (list (json * json)) :=
  calls ← iterate (vget "tool_calls" message); Done (omap call_pair (calls : list json)).

Fixpoint pconcat {A B} (f : A → parsed (list B)) (l : list A) : parsed (list B) :=
  match l with [] => Done [] | x :: l => k ← f x; r ← pconcat f l; Done (k ++ r) end.

Definition responses_calls (items : list json) : parsed (list (json * json)) :=
  emitted ← pfilter (λ item, if is_dict item then in_set RESPONSES_EMITTED (vget "type" item) else Done false) items;
  Done ((λ item, (vget "call_id" item, vget "name" item)) <$> (emitted : list json)).

Definition anthropic_calls (message : json) : list (json * json) :=
  match vget "content" message with
  | JArr content =>
      omap (λ block, if is_dict block && bool_decide (vget "type" block = JStr "tool_use")
                     then Some (vget "id" block, vget "name" block) else None) content
  | _ => []
  end.

(** The end of [_parse_response] *)
Definition with_calls (api : WireApi) (r : Response) : parsed Response :=
  let set calls role_list :=
    Done (mk_response (rs_response_id r) (rs_model r) (rs_finish_reasons r) (rs_outputs r) role_list
            (tool_calls calls) (rs_usage r) (rs_status r)) in
  match api with
  | chat_completions => calls ← pconcat chat_calls (rs_outputs r); set calls (roles (rs_outputs r) false)
  | responses_api => calls ← responses_calls (rs_outputs r); set calls (roles (rs_outputs r) true)
  | anthropic_messages => set (rs_outputs r ≫= anthropic_calls) (roles (rs_outputs r) false)
  | _ => set [] (rs_roles r)
  end.

Definition stream_response (api : WireApi) (events : list json) : parsed Response :=
  match api with
  | chat_completions => chat_stream events
  | responses_api => responses_stream events
  | anthropic_messages => anthropic_stream events
  | completions => completions_response events true
  | embeddings_api => Stop (Unparsed unrecognized_shape)
  end.

Definition document_response (api : WireApi) (d : list (string * json)) : parsed Response :=
  match api with
  | chat_completions => chat_document d
  | responses_api => responses_document d
  | anthropic_messages => anthropic_document d
  | completions => completions_response [JObj d] false
  | embeddings_api =>
      Done (mk_response (opt_id key (get "id" d)) (opt_str (get "model" d)) [] [] None []
              (usage_openai (get "usage" d)) ps_ok)
  end.

(** [_parse_response] *)
Definition parse_response (api : WireApi) (data : string) (media_type : option string) (cut : bool)
    : parsed Response :=
  if looks_like_sse data media_type then
    events ← sse_events false data;
    if negb (bool_decide (events = [])) && forallb is_error_document events then Done (new_response ps_ok)
    else
      ended ← (if cut then sse_ended api data else Done true);
      if negb ended then Stop (Unparsed ps_truncated)
      else r ← stream_response api events; with_calls api r
  else
    match load_json false data with
    | Stop (Unparsed s) => Stop (Unparsed (if cut then ps_truncated else s))
    | Stop Failed => Stop Failed
    | Done document =>
        match document with
        | JObj d =>
            if is_error_document document then Done (new_response ps_ok)
            else r ← document_response api d; with_calls api r
        | _ => Stop (Unparsed unrecognized_shape)
        end
    end.
End streams.

(** ** [extract_stitch_keys] *)

Record StitchKeys := mk_keys {
  sk_model : option string;
  sk_stream : bool;
  sk_previous_response_id : option string;
  sk_input_digests : list string;
  sk_input_roles : option (list string);
  sk_system_digest : option string;
  sk_tools_digest : option string;
  sk_tool_call_ids_consumed : list string;
  sk_request_parse_status : ParseStatus;
  sk_response_id : option string;
  sk_response_model : option string;
  sk_finish_reasons : list string;
  sk_output_digests : list string;
  sk_output_roles : option (list string);
  sk_tool_calls : list (string * option string);
  sk_usage : Usage;
  sk_response_parse_status : ParseStatus;
}.

Definition USAGE_KEYS : list string :=
  ["input_tokens"; "output_tokens"; "cache_read_input_tokens"; "cache_creation_input_tokens";
   "reasoning_output_tokens"].

(** A stored body: its bytes, media type, content coding, and whether it was cut short. *)
Record Body := mk_body {
  bd_bytes : string;
  bd_media_type : option string;
  bd_encoding : option string;
  bd_truncated : bool;
}.

(** The status an exception leaves. *)
Definition status_of (f : failure) : ParseStatus :=
  match f with Unparsed s => s | Failed => unrecognized_shape end.

Section extract.
Context {FT : FloatText} {DC : Decompressors}.

(** The request side of [_extract_stitch_keys] *)
Definition request_keys (key : option (list Z)) (api : WireApi) (b : Body) : Request :=
  if bd_truncated b then new_request ps_truncated
  else
    let r := data ← decode_body (bd_bytes b) (bd_encoding b);
             document ← load_json false data;
             parse_request key api document in
    match r with Done r => r | Stop f => new_request (status_of f) end.

(** The response side *)
Definition response_keys (key : option (list Z)) (api : WireApi) (b : option Body) (cut : bool) : Response :=
  match b with
  | None => new_response not_parsed
  | Some b =>
      if bd_truncated b then new_response ps_truncated
      else
        let r := data ← decode_body (bd_bytes b) (bd_encoding b);
                 parse_response key api data (bd_media_type b) cut in
        match r with Done r => r | Stop f => new_response (status_of f) end
  end.

(** [extract_stitch_keys]; the context variable of the code is the argument [id_key]. *)
Definition extract_stitch_keys (api : WireApi) (request : Body) (response : option Body)
    (id_key : option (list Z)) (response_cut : bool) : StitchKeys :=
  let rq := request_keys id_key api request in
  let rs := response_keys id_key api response response_cut in
  let ok := bool_decide (rs_status rs = ps_ok) in
  mk_keys (rq_model rq) (rq_stream rq) (rq_previous_response_id rq) (rq_digests rq) (rq_roles rq)
    (rq_system_digest rq) (rq_tools_digest rq) (rq_consumed rq) (rq_status rq)
    (rs_response_id rs) (rs_model rs) (rs_finish_reasons rs)
    (if ok then message_digest api response_side <$> rs_outputs rs else [])
    (if ok then rs_roles rs else None) (rs_tool_calls rs)
    (omap (λ k, (k,.) <$> dget k (rs_usage rs)) USAGE_KEYS) (rs_status rs).
End extract.

(** ** Instances *)

(** Parameters for concrete runs: no decompressor, and numerals print as they are written. *)
Definition plain_floats : FloatText := λ s, s.

Example chat_pieces :
  match @parse_response plain_floats None chat_completions
    ("data: {" +:+ quote "choices" +:+ ":[{" +:+ quote "delta" +:+ ":{" +:+ quote "content" +:+ ":"
     +:+ quote "Hel" +:+ "}}]}" +:+ String (char 10) (String (char 10) "data: {")
     +:+ quote "choices" +:+ ":[{" +:+ quote "delta" +:+ ":{" +:+ quote "content" +:+ ":"
     +:+ quote "lo" +:+ "}}]}" +:+ String (char 13) (String (char 10) (String (char 10) "data: [DONE]")))
    None true with
  | Done r => rs_outputs r
  | Stop _ => []
  end = [JObj [("role", JStr "assistant"); ("content", JStr "Hello")]].
Proof. vm_compute. reflexivity. Qed.
