(* ===== verification/StitchProject.v ===== *)
(** * What a message digest depends on

    The digest of a message is taken after its projection. It does not depend on the order
    in which a provider, a client or a stream writes the keys of an object, on explicit
    nulls, or on the side the message is read from; and what is written canonically is read
    back. *)

From S2P Require Import Prelude PyDict Hash Json Decimal Canonical Ids JsonRead JsonValues ContentCoding StitchKeys.

(** ** The projections respect it *)

Lemma null_of_strip v : is_null (strip_nulls v) = is_null v.
Proof. by destruct v. Qed.

Lemma keyed_strip v : keyed v = true → keyed (strip_nulls v) = true.
Proof.
  induction v as [| | | | |l IH|l IH] using json_nested_ind; try done.
  - simpl. rewrite !forallb_elem_of. rewrite Forall_forall in IH. intros H v (w & -> & Hw)%list_elem_of_fmap. auto.
  - intros [Hnd H]%keyed_obj. apply keyed_obj. rewrite Forall_forall in IH. split.
    + apply NoDup_filter_keys. by rewrite <-list_fmap_compose.
    + intros k v [_ ([k' w] & [= -> ->] & Hw)%list_elem_of_fmap]%list_elem_of_filter.
      apply (IH (k', w)); [done|]. by apply (H k').
Qed.

Lemma dget_strip k (d : list (string * json)) : NoDup d.*1 →
  dget k (filter (λ p, is_null p.2 = false) ((λ p, (p.1, strip_nulls p.2)) <$> d)) =
    (v ← dget k d; if is_null v then None else Some (strip_nulls v)).
Proof.
  intros Hnd. rewrite dget_filter by (by rewrite <-list_fmap_compose). rewrite dget_fmap.
  destruct (dget k d) as [v|]; [|done]. simpl. rewrite null_of_strip. destruct (is_null v); by case_decide.
Qed.

Lemma strip_jeq v w : keyed v = true → keyed w = true → jeq v w → jeq (strip_nulls v) (strip_nulls w).
Proof.
  revert w. induction v as [| | | | |l IH|l IH] using json_nested_ind; intros w Hv Hw H;
    try (unfold jeq in *; by destruct w; simplify_eq/=).
  - destruct w as [| | | | |k|]; try done. apply jeq_arr in H. simpl in *. rewrite forallb_elem_of in Hv, Hw.
    apply jeq_arr. apply Forall2_fmap. rewrite Forall_forall in IH.
    induction H as [|x y l k Hxy H IHl]; constructor.
    + apply IH; [constructor|apply Hv; constructor|apply Hw; constructor|done].
    + apply IHl; intros; [apply IH|apply Hv|apply Hw]; by try constructor.
  - destruct w as [| | | | | |k]; try done. rewrite Forall_forall in IH.
    pose proof (keyed_strip _ Hv) as [Hsv _]%keyed_obj. pose proof (keyed_strip _ Hw) as [Hsw _]%keyed_obj.
    apply keyed_obj in Hv as [Hnv Hv], Hw as [Hnw Hw]. apply dict_jeq in H; [|done..].
    apply dict_jeq; [done..|]. intros x. rewrite !dget_strip by done. specialize (H x).
    destruct (dget x l) as [v|] eqn:E1, (dget x k) as [u|] eqn:E2; simpl in *; [|done..].
    apply dget_Some_elem in E1, E2. assert (jeq v u) as Hvu by (unfold jeq; congruence).
    rewrite (jeq_null v u) by done. destruct (is_null u); [done|]. simpl. f_equal.
    apply (IH (x, v)); [done|by apply (Hv x)|by apply (Hw x)|done].
Qed.

Lemma strip_idem v : keyed v = true → strip_nulls (strip_nulls v) = strip_nulls v.
Proof.
  induction v as [| | | | |l IH|l IH] using json_nested_ind; try done; intros Hv.
  - simpl in *. f_equal. rewrite <-list_fmap_compose. rewrite forallb_elem_of in Hv. rewrite Forall_forall in IH.
    apply list_fmap_ext. intros i x Hx. apply list_elem_of_lookup_2 in Hx. apply IH; auto.
  - apply keyed_obj in Hv as [_ Hv]. rewrite Forall_forall in IH. simpl. f_equal.
    induction l as [|[k v] l IHl]; [done|]. csimpl. rewrite filter_cons. simpl. rewrite null_of_strip.
    assert (strip_nulls (strip_nulls v) = strip_nulls v) as Hs.
    { apply (IH (k, v)); [constructor|]. apply (Hv k). constructor. }
    assert (∀ p, p ∈ l → keyed p.2 = true → strip_nulls (strip_nulls p.2) = strip_nulls p.2) as IH'.
    { intros p Hp. apply IH. by constructor. }
    assert (∀ k v, (k, v) ∈ l → keyed v = true) as Hv' by (intros ???; eapply Hv; by constructor).
    case_decide as Hn; [|by apply IHl]. csimpl. rewrite filter_cons. simpl. rewrite !null_of_strip, Hs.
    rewrite decide_True by done. f_equal. by apply IHl.
Qed.

Lemma deq_keep ks d1 d2 : NoDup d1.*1 → NoDup d2.*1 → deq d1 d2 → deq (keep_keys ks d1) (keep_keys ks d2).
Proof. intros H1 H2 Hd. apply deq_filter; done. Qed.

Lemma deq_pick ks d1 d2 : NoDup ks → deq d1 d2 → deq (pick ks d1) (pick ks d2).
Proof.
  intros Hks Hd. unfold pick. induction Hks as [|k ks Hk Hks IH]; csimpl; [done|].
  pose proof (Hd k) as Hk'. destruct (dget k d1), (dget k d2); simpl in *; try done.
  intros x. simpl. case_decide; [exact Hk'|apply IH].
Qed.

Lemma NoDup_pick ks d : NoDup ks → NoDup (pick ks d).*1.
Proof.
  unfold pick. induction 1 as [|k ks Hk Hks IH]; csimpl; [constructor|].
  destruct (dget k d); csimpl; [|done]. apply NoDup_cons. split; [|done].
  intros (p & -> & Hp)%list_elem_of_fmap. apply list_elem_of_omap in Hp as (k' & Hk' & E).
  destruct (dget k' d); simplify_eq/=. done.
Qed.

(** Objects written with the same keys in the same order. *)
Lemma pointwise_jeq l k :
  NoDup l.*1 → Forall2 (λ p q, p.1 = q.1 ∧ jeq p.2 q.2) l k → jeq (JObj l) (JObj k).
Proof.
  intros Hnd H. assert (l.*1 = k.*1) as Hk by (clear Hnd; induction H as [|?? ?? [??]]; csimpl; congruence).
  apply dict_jeq; [done|by rewrite <-Hk|]. intros x. clear Hnd Hk.
  induction H as [|[a v] [b w] l k [E Hv] _ IH]; simpl in *; [done|]. subst b. case_decide; [simpl; by rewrite Hv|done].
Qed.

Lemma call_entry_jeq v w :
  keyed v = true → keyed w = true → jeq v w → jeq (call_entry v) (call_entry w).
Proof.
  intros Hv Hw H. destruct v as [| | | | | |c1], w as [| | | | | |c2]; try exact H; try (by unfold jeq in H; simplify_eq/=).
  apply keyed_obj in Hv as [N1 K1], Hw as [N2 K2]. apply dict_jeq in H; [|done..].
  pose proof (H "id") as Hid. pose proof (H "type") as Hty. pose proof (deq_get "function" _ _ H) as Hfn.
  assert (keyed (get "function" c1) = true) as Kf1 by (apply keyed_get, keyed_obj; done).
  assert (keyed (get "function" c2) = true) as Kf2 by (apply keyed_get, keyed_obj; done).
  unfold call_entry. apply pointwise_jeq.
  - destruct (dget "id" c1); [|clear Hid]; (destruct (get "function" c1);
      apply (bool_decide_unpack _); vm_compute; exact I).
  - apply Forall2_app; [|apply Forall2_app].
    + destruct (dget "id" c1), (dget "id" c2); simpl in *; try done. constructor; [|done]. split; [done|].
      unfold jeq. simpl. congruence.
    + constructor; [|done]. split; [done|]. unfold jeq. simpl. destruct (dget "type" c1), (dget "type" c2); simpl in *; congruence.
    + destruct (get "function" c1) as [| | | | | |f1], (get "function" c2) as [| | | | | |f2];
        try (by unfold jeq in Hfn; simplify_eq/=); try (constructor; [|done]; split; done).
      constructor; [|done]. split; [done|]. apply keyed_obj in Kf1 as [? _], Kf2 as [? _].
      assert (NoDup ["name"; "arguments"]) as Hks by (apply (bool_decide_unpack _); vm_compute; exact I).
      apply dict_jeq; [by apply NoDup_pick..|]. apply deq_pick; [done|]. by apply dict_jeq.
Qed.

Lemma entries_jeq (f : json → json) l k :
  (∀ v w, keyed v = true → keyed w = true → jeq v w → jeq (f v) (f w)) →
  keyed (JArr l) = true → keyed (JArr k) = true → jeq (JArr l) (JArr k) → jeq (JArr (f <$> l)) (JArr (f <$> k)).
Proof.
  intros Hf Kl Kk H. simpl in Kl, Kk. rewrite forallb_elem_of in Kl, Kk. apply jeq_arr in H. apply jeq_arr, Forall2_fmap.
  induction H as [|x y l k Hxy H IH]; constructor.
  - apply Hf; [apply Kl; constructor|apply Kk; constructor|done].
  - apply IH; intros; [apply Kl|apply Kk]; by constructor.
Qed.

Lemma keyed_filter (P : string * json → Prop) `{∀ p, Decision (P p)} d :
  keyed (JObj d) = true → keyed (JObj (filter P d)) = true.
Proof.
  intros [Hn Hk]%keyed_obj. apply keyed_obj. split; [by apply NoDup_filter_keys|].
  intros k v [_ Hin]%list_elem_of_filter. by eapply Hk.
Qed.

Lemma chat_jeq v w : keyed v = true → keyed w = true → jeq v w → jeq (project_chat v) (project_chat w).
Proof.
  intros Hv Hw H. destruct v as [| | | | | |m1], w as [| | | | | |m2]; try exact H; try (by unfold jeq in H; simplify_eq/=).
  unfold project_chat. pose proof (keyed_filter (λ p, p.1 ∈ CHAT_KEEP) _ Hv) as K1.
  pose proof (keyed_filter (λ p, p.1 ∈ CHAT_KEEP) _ Hw) as K2. fold (keep_keys CHAT_KEEP m1) in K1.
  fold (keep_keys CHAT_KEEP m2) in K2.
  apply keyed_obj in Hv as [N1 _], Hw as [N2 _]. apply dict_jeq in H; [|done..].
  pose proof (deq_keep CHAT_KEEP _ _ N1 N2 H) as Hd. clear H N1 N2.
  set (p1 := keep_keys CHAT_KEEP m1) in *. set (p2 := keep_keys CHAT_KEEP m2) in *.
  pose proof (deq_get "tool_calls" _ _ Hd) as Ht.
  pose proof (keyed_get "tool_calls" _ K1) as T1. pose proof (keyed_get "tool_calls" _ K2) as T2.
  pose proof K1 as [N1 _]%keyed_obj. pose proof K2 as [N2 _]%keyed_obj.
  assert (jeq (JObj p1) (JObj p2)) as Hp by by apply dict_jeq.
  destruct (get "tool_calls" p1) as [| | | | |l1|] eqn:E1, (get "tool_calls" p2) as [| | | | |l2|] eqn:E2;
    try done; try (by unfold jeq in Ht; simplify_eq/=).
  destruct l1 as [|x1 l1], l2 as [|x2 l2]; try (by apply jeq_arr in Ht; inversion Ht).
  { apply dict_jeq; [by apply NoDup_ddel..|]. by apply deq_ddel. }
  pose proof (entries_jeq call_entry _ _ call_entry_jeq T1 T2 Ht) as Hc.
  pose proof (deq_dset "tool_calls" _ _ _ _ Hd Hc) as Hd2.
  set (q1 := dset "tool_calls" _ p1) in *. set (q2 := dset "tool_calls" _ p2) in *.
  assert (NoDup q1.*1) as M1 by by apply NoDup_dset. assert (NoDup q2.*1) as M2 by by apply NoDup_dset.
  assert (∀ k s, bool_decide (get k q1 = JStr s) = bool_decide (get k q2 = JStr s)) as Hb.
  { intros k s. apply bool_decide_ext. rewrite <-!jeq_str. by rewrite (deq_get k _ _ Hd2). }
  rewrite !Hb. destruct (_ && _); apply dict_jeq; try apply NoDup_ddel; try done. by apply deq_ddel.
Qed.

Lemma part_jeq v w : keyed v = true → keyed w = true → jeq v w → jeq (part_entry v) (part_entry w).
Proof.
  intros Hv Hw H. destruct v as [| | | | | |m1], w as [| | | | | |m2]; try exact H; try (by unfold jeq in H; simplify_eq/=).
  apply keyed_obj in Hv as [N1 _], Hw as [N2 _]. apply dict_jeq in H; [|done..]. unfold part_entry.
  apply dict_jeq; [by apply NoDup_filter_keys..|]. apply deq_filter; [done..| |done].
  intros k v w Hvw. simpl. by rewrite (jeq_nil v w).
Qed.

Lemma responses_jeq s v w :
  keyed v = true → keyed w = true → jeq v w → jeq (project_responses v s) (project_responses w s).
Proof.
  intros Hv Hw H. destruct v as [| | | |t| |m1], w as [| | | |u| |m2]; try exact H; try (by unfold jeq in H; simplify_eq/=).
  assert (jeq (JObj m1) (JObj m2)) as H' by done. clear H.
  unfold project_responses. pose proof (keyed_filter (λ p, p.1 ≠ "status") _ Hv) as K1.
  pose proof (keyed_filter (λ p, p.1 ≠ "status") _ Hw) as K2.
  apply keyed_obj in Hv as [N1 _], Hw as [N2 _]. apply dict_jeq in H'; [|done..].
  assert (deq (filter (λ p, p.1 ≠ "status") m1) (filter (λ p, p.1 ≠ "status") m2)) as Hd by by apply deq_filter.
  clear H' N1 N2. set (p1 := filter _ m1) in *. set (p2 := filter _ m2) in *.
  pose proof (deq_get "content" _ _ Hd) as Hc.
  pose proof (keyed_get "content" _ K1) as T1. pose proof (keyed_get "content" _ K2) as T2.
  apply keyed_obj in K1 as [N1 _], K2 as [N2 _].
  assert (jeq (JObj p1) (JObj p2)) as Hp by by apply dict_jeq.
  destruct (get "content" p1) as [| | | | |l1|], (get "content" p2) as [| | | | |l2|];
    try (destruct s; exact Hp); try (by unfold jeq in Hc; simplify_eq/=).
  pose proof (entries_jeq part_entry _ _ part_jeq T1 T2 Hc) as Hc'.
  destruct s; (apply dict_jeq; [by apply NoDup_dset..|]; by apply deq_dset).
Qed.

Lemma anthropic_jeq v w : keyed v = true → keyed w = true → jeq v w → jeq (project_anthropic v) (project_anthropic w).
Proof.
  intros Hv Hw H. destruct v as [| | | | | |m1], w as [| | | | | |m2]; try exact H; try (by unfold jeq in H; simplify_eq/=).
  apply keyed_obj in Hv as [N1 _], Hw as [N2 _]. apply dict_jeq in H; [|done..].
  pose proof (deq_keep ["role"; "content"] _ _ N1 N2 H) as Hd. unfold project_anthropic.
  assert (NoDup (keep_keys ["role"; "content"] m1).*1) as M1 by (unfold keep_keys; by apply NoDup_filter_keys).
  assert (NoDup (keep_keys ["role"; "content"] m2).*1) as M2 by (unfold keep_keys; by apply NoDup_filter_keys).
  pose proof (deq_get "content" _ _ Hd) as Hc.
  assert (jeq (JObj (keep_keys ["role"; "content"] m1)) (JObj (keep_keys ["role"; "content"] m2))) as Hp by by apply dict_jeq.
  destruct (get "content" (keep_keys _ m1)), (get "content" (keep_keys _ m2)); try exact Hp; try (by unfold jeq in Hc; simplify_eq/=).
  apply (proj1 (jeq_str _ _)) in Hc. simplify_eq. apply dict_jeq; [by apply NoDup_dset..|]. apply deq_dset; [done|reflexivity].
Qed.

Lemma project_jeq api s v w :
  keyed v = true → keyed w = true → jeq v w → jeq (project_message api s v) (project_message api s w).
Proof.
  intros Hv Hw H. unfold project_message.
  assert (is_str v = is_str w) as <- by (unfold jeq in H; by destruct v, w).
  pose proof (strip_jeq v w Hv Hw H) as Hs. pose proof (keyed_strip v Hv). pose proof (keyed_strip w Hw).
  destruct (_ && _) eqn:E; [by apply responses_jeq|].
  destruct api; [by apply chat_jeq|by apply responses_jeq|done|done|by apply anthropic_jeq].
Qed.

Lemma digest_jeq v w : jeq v w → sha256_json v = sha256_json w.
Proof. unfold sha256_json, canonical_json, jeq. intros H. by rewrite <-(dumps_canon v), H, dumps_canon. Qed.

(** The same message: up to the order of keys and to nulls left out or written out. *)
Definition same_message (m m' : json) : Prop := jeq (strip_nulls m) (strip_nulls m').

Lemma digest_strip api s m : keyed m = true → message_digest api s (strip_nulls m) = message_digest api s m.
Proof.
  intros Hm. unfold message_digest. f_equal. unfold project_message.
  replace (is_str (strip_nulls m)) with (is_str m) by (by destruct m).
  rewrite strip_idem by done. destruct m; simpl is_str; by rewrite ?andb_false_r.
Qed.

(** C29: A message digest is canonical: messages that differ only in the order of keys and in
    nulls left out or written out have the same digest, and an object has the same digest in
    the response that carries it and in the request that sends it again. *)
Theorem message_digest_canonical (api : WireApi) (s : side) (m : json) :
  keyed m = true →
  (∀ m', keyed m' = true → same_message m m' → message_digest api s m' = message_digest api s m) ∧
  (is_dict m = true → message_digest api request_side m = message_digest api response_side m).
Proof.
  intros Hm. split.
  - intros m' Hm' H. rewrite <-(digest_strip api s m'), <-(digest_strip api s m) by done.
    apply digest_jeq. by apply project_jeq; [apply keyed_strip..|].
  - intros Hd. unfold message_digest. f_equal. unfold project_message. replace (is_str m) with false by (by destruct m).
    rewrite andb_false_r. by destruct m, api.
Qed.

Lemma message_digest_canonical_witness :
  message_digest chat_completions request_side
    (JObj [("content", JStr "hi"); ("role", JStr "assistant"); ("name", JNull)]) =
  message_digest chat_completions response_side
    (JObj [("role", JStr "assistant"); ("content", JStr "hi")]).
Proof.
  set (m := JObj [("role", JStr "assistant"); ("content", JStr "hi")]).
  assert (keyed m = true) as Hm by (vm_compute; reflexivity).
  destruct (message_digest_canonical chat_completions request_side m Hm) as (Ho & Hs).
  rewrite <-Hs by reflexivity. apply Ho; vm_compute; reflexivity.
Defined.
