(* ===== verification/StitchAssembly.v ===== *)
(** * A chat stream is the document it streams

    The events of a chat completion stream - each with any number of choices, each choice with
    any of its fields - put together by [_chat_stream], against the choices of the whole
    document read by [_chat_document]: the ids, the usage, the digests, roles, finish reasons
    and tool calls agree, so a thread is stitched in the same way whether a reply was streamed
    or not. [says_event] relates a document to the record of what it says; [pieces_of] lists the
    pieces of text and calls of a choice in the order in which the code takes them. *)

From S2P Require Import Prelude PyDict Hash Json Decimal Canonical Ids JsonRead JsonValues ContentCoding StitchKeys StitchStream StitchProject.

(** ** Folding into a dictionary *)

Section group.
Context {K S A : Type} `{EqDecision K} (key : A → K) (step : S → A → S) (s0 : S).

Lemma fromkeys_snoc (l : list K) x :
  fromkeys (l ++ [x]) = if decide (x ∈ l) then fromkeys l else fromkeys l ++ [x].
Proof.
  induction l as [|y l IH]; simpl; [destruct (decide (x ∈ [])) as [[]%elem_of_nil|]; done|].
  rewrite IH. destruct (decide (x ∈ y :: l)) as [Hx|Hx].
  - apply elem_of_cons in Hx as [->|Hx]; [|by rewrite decide_True].
    destruct (decide (y ∈ l)); [done|]. rewrite filter_app, (filter_cons_False _ y) by (intros H; by apply H).
    by rewrite filter_nil, app_nil_r.
  - apply not_elem_of_cons in Hx as [Hxy Hx]. rewrite decide_False by done.
    by rewrite filter_app, filter_cons_True, filter_nil by done.
Qed.

Lemma dget_keys (f : K → S) (l : list K) k :
  dget k ((λ k, (k, f k)) <$> l) = if decide (k ∈ l) then Some (f k) else None.
Proof.
  induction l as [|x l IH]; csimpl; [destruct (decide (k ∈ [])) as [[]%elem_of_nil|]; done|].
  rewrite IH. destruct (decide (k = x)) as [->|Hne]; [by rewrite decide_True by constructor|].
  destruct (decide (k ∈ l)) as [Hk|Hk]; [by rewrite decide_True by (by constructor)|].
  rewrite decide_False; [done|]. by apply not_elem_of_cons.
Qed.

Lemma dset_keys_fun (f : K → S) (l : list K) k v : NoDup l → k ∈ l →
  dset k v ((λ k, (k, f k)) <$> l) = (λ k', (k', if decide (k' = k) then v else f k')) <$> l.
Proof.
  induction 1 as [|x l Hx Hl IH]; [by intros ?%elem_of_nil|]. csimpl. intros Hk.
  destruct (decide (k = x)) as [->|Hne].
  - rewrite decide_True by done. f_equal. apply list_fmap_ext. intros i y Hy%list_elem_of_lookup_2.
    rewrite decide_False; [done|]. by intros ->.
  - rewrite decide_False by done. f_equal. apply IH. by apply elem_of_cons in Hk as [?|?].
Qed.

(** A fold that keeps a state per key keeps the fold over the key's elements. *)
Lemma dict_group (l : list A) :
  foldl (λ d x, dset (key x) (step (default s0 (dget (key x) d)) x) d) [] l =
  (λ k, (k, foldl step s0 (filter (λ x, key x = k) l))) <$> fromkeys (key <$> l).
Proof.
  induction l as [|x l IH] using rev_ind; [done|].
  rewrite foldl_app. simpl. rewrite IH, dget_keys, fmap_app. change (key <$> [x]) with [key x]. rewrite fromkeys_snoc.
  assert (∀ k, foldl step s0 (filter (λ x, key x = k) (l ++ [x])) =
    if decide (k = key x) then step (foldl step s0 (filter (λ x, key x = k) l)) x
    else foldl step s0 (filter (λ x, key x = k) l)) as Hf.
  { intros k. rewrite filter_app, foldl_app, filter_cons, filter_nil.
    destruct (decide (k = key x)) as [->|Hne]; [by rewrite decide_True|by rewrite decide_False]. }
  destruct (decide (key x ∈ key <$> l)) as [Hx|Hx].
  - rewrite decide_True by (by apply elem_of_fromkeys). simpl.
    rewrite dset_keys_fun by (apply NoDup_fromkeys || by apply elem_of_fromkeys).
    apply list_fmap_ext. intros i k _. rewrite Hf. by destruct (decide (k = key x)) as [->|].
  - rewrite decide_False by (by rewrite elem_of_fromkeys). simpl. rewrite fmap_app. csimpl.
    rewrite dset_new; cycle 1.
    { rewrite <-list_fmap_compose. simpl. by rewrite list_fmap_id, elem_of_fromkeys. }
    f_equal.
    + apply list_fmap_ext. intros i k Hk%list_elem_of_lookup_2. rewrite Hf, decide_False; [done|]. intros ->.
      by apply Hx, elem_of_fromkeys.
    + rewrite Hf, decide_True by done. do 4 f_equal. clear -Hx. induction l as [|y l IHl]; [done|].
      csimpl in Hx. apply not_elem_of_cons in Hx as [Hy Hx]. rewrite filter_cons_False by congruence. auto.
Qed.
End group.

(** ** The ends of lists *)

Lemma head_omap {A B} (f : A → option B) l x :
  head (omap f (l ++ [x])) = match head (omap f l) with Some y => Some y | None => f x end.
Proof.
  rewrite omap_app. csimpl. destruct (omap f l); simpl; [by destruct (f x)|done].
Qed.

Lemma last_omap {A B} (f : A → option B) l x :
  last (omap f (l ++ [x])) = match f x with Some y => Some y | None => last (omap f l) end.
Proof.
  rewrite omap_app. csimpl. destruct (f x); simpl; [by rewrite last_snoc|by rewrite app_nil_r].
Qed.

(** ** What the events of a stream say *)

Definition field (k : string) (o : option string) : list (string * json) :=
  match o with Some s => [(k, JStr s)] | None => [] end.

(** One piece of a tool call. *)
Record Call := mk_call {
  pc_index : Z; pc_id : option string; pc_kind : option string;
  pc_function : option (option string * option string);
}.
Definition pc_name (c : Call) : option string := pc_function c ≫= fst.
Definition pc_arguments (c : Call) : option string := pc_function c ≫= snd.

(** A delta, with any of its fields. *)
Record Delta := mk_delta {
  dl_role : option string;
  dl_content : option string;
  dl_refusal : option string;
  dl_function : option (option string * option string);
  dl_calls : list Call;
}.

(** What an event says of one choice. *)
Record Part := mk_part { pt_index : Z; pt_delta : option Delta; pt_finish : option string }.

(** One event of a stream: any number of choices. *)
Record Event := mk_event {
  ev_id : option string;
  ev_model : option string;
  ev_usage : option (list (string * json));
  ev_parts : list Part;
}.

(** The documents that say so: absent keys and nulls, in any order, among any other keys. *)
Definition says_function (v : json) (f : option (option string * option string)) : Prop :=
  match f with
  | Some (n, a) => ∃ d, v = JObj d ∧ get "name" d = option_json n ∧ get "arguments" d = option_json a
  | None => is_dict v = false
  end.

Definition says_call (v : json) (c : Call) : Prop :=
  ∃ d, v = JObj d ∧ get "index" d = JInt (pc_index c) ∧ get "id" d = option_json (pc_id c) ∧
    get "type" d = option_json (pc_kind c) ∧ says_function (get "function" d) (pc_function c).

Definition says_list {A} (says : json → A → Prop) (v : json) (l : list A) : Prop :=
  (v = JNull ∧ l = []) ∨ ∃ vs, v = JArr vs ∧ Forall2 says vs l.

Definition says_delta (v : json) (dl : option Delta) : Prop :=
  match dl with
  | Some dl => ∃ d, v = JObj d ∧ get "role" d = option_json (dl_role dl) ∧
      get "content" d = option_json (dl_content dl) ∧ get "refusal" d = option_json (dl_refusal dl) ∧
      says_function (get "function_call" d) (dl_function dl) ∧ says_list says_call (get "tool_calls" d) (dl_calls dl)
  | None => is_dict v = false
  end.

Definition says_part (v : json) (p : Part) : Prop :=
  ∃ d, v = JObj d ∧ get "index" d = JInt (pt_index p) ∧ get "finish_reason" d = option_json (pt_finish p) ∧
    says_delta (get "delta" d) (pt_delta p).

Definition says_usage (v : json) (u : option (list (string * json))) : Prop :=
  match u with Some u => v = JObj u | None => is_dict v = false end.

Definition says_event (v : json) (e : Event) : Prop :=
  ∃ d, v = JObj d ∧ get "id" d = option_json (ev_id e) ∧ get "model" d = option_json (ev_model e) ∧
    says_usage (get "usage" d) (ev_usage e) ∧ says_list says_part (get "choices" d) (ev_parts e).

(** *** The pieces of an event *)

Inductive piece :=
  | PRole (role : string)
  | PContent (text : string)
  | PRefusal (text : string)
  | PFunction (name arguments : option string)
  | PCall (call : Call)
  | PFinish (reason : string).

Definition piece_of {A} (f : A → piece) (o : option A) : list piece := match o with Some x => [f x] | None => [] end.

Definition pieces_of (p : Part) : list piece :=
  piece_of PFinish (pt_finish p) ++
  match pt_delta p with
  | Some d => piece_of PRole (dl_role d) ++ piece_of PContent (dl_content d) ++ piece_of PRefusal (dl_refusal d)
                ++ piece_of (λ f, PFunction f.1 f.2) (dl_function d) ++ (PCall <$> dl_calls d)
  | None => []
  end.

(** ** What the pieces say *)

(** The text that pieces add up to; no piece is no text. *)
Definition joined (l : list string) : option string :=
  match l with [] => None | _ => Some (foldr String.append "" l) end.

Definition role_of (ps : list piece) : option string :=
  head (omap (λ p, match p with PRole r => Some r | _ => None end) ps).
Definition content_of (ps : list piece) : option string :=
  joined (omap (λ p, match p with PContent s => Some s | _ => None end) ps).
Definition refusal_of (ps : list piece) : option string :=
  joined (omap (λ p, match p with PRefusal s => Some s | _ => None end) ps).
Definition functions_of (ps : list piece) : list (option string * option string) :=
  omap (λ p, match p with PFunction n a => Some (n, a) | _ => None end) ps.
Definition finish_of (ps : list piece) : option string :=
  last (omap (λ p, match p with PFinish s => if decide (s = "") then None else Some s | _ => None end) ps).

Definition calls_of (ps : list piece) : list Call :=
  omap (λ p, match p with PCall c => Some c | _ => None end) ps.

Definition call_of (cs : list Call) : json :=
  JObj (field "id" (head (omap pc_id cs)) ++ field "type" (head (omap pc_kind cs)) ++
    [("function", JObj (field "name" (joined (omap pc_name cs)) ++ field "arguments" (joined (omap pc_arguments cs))))]).

(** The message of a whole document with these pieces. *)
Definition message_of (ps : list piece) : json :=
  let cs := calls_of ps in
  JObj ([("role", JStr (or_str (role_of ps) "assistant")); ("content", option_json (content_of ps))]
    ++ field "refusal" (refusal_of ps)
    ++ match functions_of ps with
       | [] => []
       | fs => [("function_call", JObj (field "name" (joined (omap fst fs)) ++ field "arguments" (joined (omap snd fs))))]
       end
    ++ match cs with
       | [] => []
       | _ => [("tool_calls", JArr ((λ i, call_of (filter (λ c, pc_index c = i) cs)) <$>
                 py_sort Z.leb (fromkeys (pc_index <$> cs))))]
       end).

(** The choices that a stream names, in order, and the pieces of each, in the order in which
    the stream says them. *)
Definition parts_of (l : list Event) : list Part := l ≫= ev_parts.
Definition indices (l : list Part) : list Z := py_sort Z.leb (fromkeys (pt_index <$> l)).
Definition pieces (i : Z) (l : list Part) : list piece := filter (λ p, pt_index p = i) l ≫= pieces_of.

(** The first id and the first model that are not empty, and the last usage. *)
Definition first_text (l : list (option string)) : option string :=
  head (omap (λ o, s ← o; if decide (s = "") then None else Some s) l).
Definition last_usage (l : list Event) : option (list (string * json)) := last (omap ev_usage l).

Definition choice_of (l : list Part) (i : Z) : json :=
  JObj [("index", JInt i); ("message", message_of (pieces i l)); ("finish_reason", option_json (finish_of (pieces i l)))].

(** The whole document of a streamed reply. *)
Definition document_of (l : list Event) : list (string * json) :=
  [("id", option_json (first_text (ev_id <$> l))); ("model", option_json (first_text (ev_model <$> l)));
   ("choices", JArr (choice_of (parts_of l) <$> indices (parts_of l)));
   ("usage", match last_usage l with Some u => JObj u | None => JNull end)].

(** ** One choice *)

Lemma iterate_arr l : iterate (JArr l) = Done l.
Proof. unfold iterate. simpl. destruct l; [by rewrite bool_decide_eq_true_2|by rewrite bool_decide_eq_false_2]. Qed.

(** *** Tool calls *)

Definition new_entry : list (string * json) := [("function", JObj [])].

(** What a piece of a call does to its entry. *)
Definition call_step (entry : list (string * json)) (q : Call) : list (string * json) :=
  let entry := set_first "type" (option_json (pc_kind q)) (set_first "id" (option_json (pc_id q)) entry) in
  match pc_function q, get "function" entry with
  | Some (n, a), JObj g =>
      dset "function" (JObj (add_strings ["name"; "arguments"] (field "name" n ++ field "arguments" a) g)) entry
  | _, _ => entry
  end.

Definition tool_step (tools : list (Z * list (string * json))) (q : Call) : list (Z * list (string * json)) :=
  dset (pc_index q) (call_step (default new_entry (dget (pc_index q) tools)) q) tools.

Lemma add_strings_says f n a g : get "name" f = option_json n → get "arguments" f = option_json a →
  add_strings ["name"; "arguments"] f g = add_strings ["name"; "arguments"] (field "name" n ++ field "arguments" a) g.
Proof. intros Hn Ha. unfold add_strings. cbn [foldl]. rewrite Hn, Ha. by destruct n, a. Qed.

Lemma tool_delta_says v q tools : says_call v q → tool_delta tools v = tool_step tools q.
Proof.
  intros (d & -> & Hi & Hid & Hk & Hf). unfold tool_delta, tool_step, index_of. rewrite Hi, Hid, Hk. cbv zeta.
  f_equal. unfold call_step. fold new_entry. set (e := set_first "type" _ _).
  destruct (pc_function q) as [[n a]|]; simpl in Hf.
  - destruct Hf as (f & -> & Hn & Ha). destruct (get "function" e); try done. by rewrite (add_strings_says f n a).
  - by destruct (get "function" d).
Qed.

Lemma tools_says vs qs tools : Forall2 says_call vs qs → foldl tool_delta tools vs = foldl tool_step tools qs.
Proof.
  intros H. revert tools. induction H as [|v q vs qs Hv _ IH]; intros tools; [done|]. simpl.
  by rewrite (tool_delta_says _ _ _ Hv).
Qed.

Lemma iterate_says {A} (says : json → A → Prop) v l : says_list says v l → ∃ vs, iterate v = Done vs ∧ Forall2 says vs l.
Proof. intros [[-> ->]|(vs & -> & H)]; [by exists []|]. exists vs. by rewrite iterate_arr. Qed.

(** What a piece does to the state of its choice. *)
Definition apply_piece (c : Choice) (p : piece) : Choice :=
  match p with
  | PRole r => mk_choice (Some (default r (ch_role c))) (ch_content c) (ch_refusal c) (ch_tools c) (ch_fc c) (ch_finish c)
  | PContent s => mk_choice (ch_role c) (Some (default "" (ch_content c) +:+ s)) (ch_refusal c) (ch_tools c) (ch_fc c) (ch_finish c)
  | PRefusal s => mk_choice (ch_role c) (ch_content c) (Some (default "" (ch_refusal c) +:+ s)) (ch_tools c) (ch_fc c) (ch_finish c)
  | PFunction n a =>
      mk_choice (ch_role c) (ch_content c) (ch_refusal c) (ch_tools c)
        (Some (add_strings ["name"; "arguments"] (field "name" n ++ field "arguments" a) (default [] (ch_fc c)))) (ch_finish c)
  | PCall q => mk_choice (ch_role c) (ch_content c) (ch_refusal c) (tool_step (ch_tools c) q) (ch_fc c) (ch_finish c)
  | PFinish s => set_finish (JStr s) c
  end.

Definition apply_part (c : Choice) (p : Part) : Choice := foldl apply_piece c (pieces_of p).

Lemma apply_calls qs c : foldl apply_piece c (PCall <$> qs) =
  mk_choice (ch_role c) (ch_content c) (ch_refusal c) (foldl tool_step (ch_tools c) qs) (ch_fc c) (ch_finish c).
Proof. revert c. induction qs as [|q qs IH]; intros c; [by destruct c|]. rewrite fmap_cons. simpl. by rewrite IH. Qed.

Lemma finish_says c o : set_finish (option_json o) c = foldl apply_piece c (piece_of PFinish o).
Proof. destruct c, o; done. Qed.

(** A delta does all that its fields say. *)
Lemma choice_delta_says c d dl : says_delta (JObj d) (Some dl) →
  choice_delta c d = Done (foldl apply_piece c (pieces_of (mk_part 0 (Some dl) None))).
Proof.
  intros (d' & [= <-] & Hr & Hc & Hf & Hfn & Ht). destruct (iterate_says _ _ _ Ht) as (vs & Hvs & Hall).
  unfold choice_delta. rewrite Hvs. cbn [mbind parsed_bind]. rewrite Hr, Hc, Hf, (tools_says _ _ _ Hall).
  unfold pieces_of. cbn [pt_finish pt_delta piece_of app]. rewrite !foldl_app, apply_calls.
  destruct dl as [r t f fn qs]; cbn [dl_role dl_content dl_refusal dl_function dl_calls] in *.
  assert (∀ e : option (list (string * json)), match get "function_call" d with
      | JObj f => Some (add_strings ["name"; "arguments"] f (default [] e)) | _ => e end =
    match fn with Some (n, a) => Some (add_strings ["name"; "arguments"] (field "name" n ++ field "arguments" a)
      (default [] e)) | None => e end) as Hfc.
  { intros e. destruct fn as [[n a]|]; [|by destruct (get "function_call" d)].
    destruct Hfn as (f' & -> & Hn & Ha). by rewrite (add_strings_says f' n a). }
  rewrite Hfc. destruct c as [cr cc cf ct cfc cfin], r, t, f, fn as [[n a]|]; try done; by destruct cr.
Qed.

Lemma choice_event_says v p choices : says_part v p →
  choice_event choices v = Done (dset (pt_index p) (apply_part (default new_choice (dget (pt_index p) choices)) p) choices).
Proof.
  intros (d & -> & Hi & Hf & Hd). unfold choice_event, index_of. rewrite Hi, Hf. cbv zeta.
  set (c := default new_choice _). unfold apply_part, pieces_of. rewrite foldl_app, <-finish_says.
  destruct (pt_delta p) as [dl|].
  - pose proof Hd as (d' & Hd' & _). rewrite Hd' in *.
    by rewrite (choice_delta_says _ _ _ Hd).
  - by destruct (get "delta" d).
Qed.

Lemma choices_says vs ps choices : Forall2 says_part vs ps → pfold choice_event choices vs =
  Done (foldl (λ d p, dset (pt_index p) (apply_part (default new_choice (dget (pt_index p) d)) p) d) choices ps).
Proof.
  intros H. revert choices. induction H as [|v p vs ps Hv _ IH]; intros choices; [done|]. cbn [pfold].
  rewrite (choice_event_says _ _ _ Hv). cbn [mbind parsed_bind]. by rewrite IH.
Qed.

Section chunks.
Context (key : option (list Z)).

Definition event_head (h : Head) (e : Event) : Head :=
  mk_head (match hd_id h with Some i => Some i | None => opt_id key (option_json (ev_id e)) end)
    (match hd_model h with Some m => Some m | None => opt_str (option_json (ev_model e)) end)
    (match ev_usage e with Some u => usage_openai (JObj u) | None => hd_usage h end).

Lemma head_says d e h : says_event (JObj d) e → head_event key h d = event_head h e.
Proof.
  intros (d' & [= <-] & Hi & Hm & Hu & _). unfold head_event, event_head. rewrite Hi, Hm. f_equal.
  - unfold says_usage in Hu. destruct (ev_usage e); [by rewrite Hu|]. revert Hu. by destruct (get "usage" d).
Qed.

Lemma events_says vs l s : Forall2 says_event vs l → pfold (chat_event key) s vs =
  Done (foldl event_head s.1 l,
    foldl (λ d p, dset (pt_index p) (apply_part (default new_choice (dget (pt_index p) d)) p) d) s.2 (parts_of l)).
Proof.
  intros H. revert s. induction H as [|v e vs l Hv _ IH]; intros s; [by destruct s|]. cbn [pfold].
  pose proof Hv as (d & -> & _ & _ & _ & Hp). destruct (iterate_says _ _ _ Hp) as (ps & Hps & Hall).
  change (chat_event key s (JObj d)) with
    (ec ← iterate (get "choices" d); cs ← pfold choice_event s.2 ec; Done (head_event key s.1 d, cs)).
  rewrite Hps. cbn [mbind parsed_bind]. rewrite (choices_says _ _ _ Hall). cbn [mbind parsed_bind].
  rewrite IH, (head_says _ _ _ Hv). cbn [fst snd]. unfold parts_of. cbn [mbind list_bind]. by rewrite foldl_app.
Qed.

Lemma head_stream l : foldl event_head new_head l =
  mk_head (opaque key <$> first_text (ev_id <$> l)) (first_text (ev_model <$> l))
    (match last_usage l with Some u => usage_openai (JObj u) | None => [] end).
Proof.
  induction l as [|e l IH] using rev_ind; [done|]. rewrite foldl_app. simpl. rewrite IH. unfold event_head. cbn [hd_id hd_model hd_usage].
  unfold first_text, last_usage. rewrite !fmap_app. change (?f <$> [e]) with [f e]. f_equal.
  - rewrite head_omap. destruct (head (omap _ (ev_id <$> l))); [done|]. cbn [fmap option_fmap option_map]. unfold opt_id.
    destruct (ev_id e) as [s|]; [|done]. cbn. by destruct (decide (s = "")).
  - rewrite head_omap. destruct (head (omap _ (ev_model <$> l))); [done|]. by destruct (ev_model e).
  - rewrite last_omap. by destruct (ev_usage e).
Qed.

(** The choices of a stream are put together one by one. *)
Lemma parts_fold (l : list Part) :
  foldl (λ d p, dset (pt_index p) (apply_part (default new_choice (dget (pt_index p) d)) p) d) [] l =
  (λ i, (i, foldl apply_piece new_choice (pieces i l))) <$> fromkeys (pt_index <$> l).
Proof.
  rewrite (dict_group pt_index apply_part new_choice l). apply list_fmap_ext. intros j i _. f_equal. unfold pieces.
  generalize (filter (λ p, pt_index p = i) l) as k. intros k. generalize new_choice as c.
  induction k as [|p k IH]; intros c; [done|]. cbn [foldl mbind list_bind]. by rewrite foldl_app, IH.
Qed.
End chunks.

(** *** Texts that grow *)

(** A piece of text, or none, after what there was. *)
Definition plus (old new : option string) : option string :=
  match new with Some s => Some (default "" old +:+ s) | None => old end.

Lemma joined_snoc l s : joined (l ++ [s]) = plus (joined l) (Some s).
Proof.
  assert (∀ l, foldr String.append "" (l ++ [s]) = foldr String.append "" l +:+ s) as H.
  { clear l. intros l. induction l as [|x l IH]; simpl; [apply string_app_nil|]. by rewrite IH, string_app_assoc. }
  destruct l as [|x l]; simpl; [by rewrite string_app_nil|]. by rewrite H, string_app_assoc.
Qed.

Lemma joined_omap {A} (f : A → option string) l x : joined (omap f (l ++ [x])) = plus (joined (omap f l)) (f x).
Proof.
  rewrite omap_app. csimpl. destruct (f x); simpl; [apply joined_snoc|by rewrite app_nil_r].
Qed.

(** A dictionary that holds a name and arguments. *)
Definition texts (g : list (string * json)) (n a : option string) : Prop :=
  NoDup g.*1 ∧ ∀ k, dget k g = dget k (field "name" n ++ field "arguments" a).

Lemma dget_fields k n a :
  dget k (field "name" n ++ field "arguments" a) =
    if decide (k = "name") then JStr <$> n else if decide (k = "arguments") then JStr <$> a else None.
Proof.
  destruct n, a; simpl; repeat (case_decide; subst); try done.
Qed.

Lemma texts_nil : texts [] None None.
Proof. split; [constructor|done]. Qed.

Lemma add_texts g n a n' a' :
  texts g n a →
  texts (add_strings ["name"; "arguments"] (field "name" n' ++ field "arguments" a') g) (plus n n') (plus a a').
Proof.
  intros [Hnd Hg]. unfold add_strings. cbn [foldl].
  assert (get "name" (field "name" n' ++ field "arguments" a') = default JNull (JStr <$> n')) as ->
    by (unfold get; by rewrite dget_fields).
  assert (get "arguments" (field "name" n' ++ field "arguments" a') = default JNull (JStr <$> a')) as ->
    by (unfold get; by rewrite dget_fields).
  assert (get "name" g = default JNull (JStr <$> n)) as Hn by (unfold get; by rewrite Hg, dget_fields).
  assert (get "arguments" g = default JNull (JStr <$> a)) as Ha by (unfold get; by rewrite Hg, dget_fields).
  assert (∀ o v, match default JNull (JStr <$> o) with JStr s => s +:+ v | _ => v end = default "" o +:+ v) as Hd
    by (intros [] v; done).
  destruct n' as [x|]; cbn [fmap option_fmap option_map default from_option id plus].
  - rewrite Hn, Hd. set (g1 := dset "name" _ g).
    assert (NoDup g1.*1) as Hnd1 by by apply NoDup_dset.
    assert (get "arguments" g1 = default JNull (JStr <$> a)) as Ha1.
    { unfold g1, get. rewrite dget_dset_ne by done. exact Ha. }
    destruct a' as [y|]; cbn [fmap option_fmap option_map default from_option id plus].
    + rewrite Ha1, Hd. split; [by apply NoDup_dset|]. intros k. unfold g1. rewrite !dget_dset, Hg, !dget_fields.
      repeat (case_decide; subst); done.
    + split; [done|]. intros k. unfold g1. rewrite !dget_dset, Hg, !dget_fields. repeat (case_decide; subst); done.
  - destruct a' as [y|]; cbn [fmap option_fmap option_map default from_option id plus].
    + rewrite Ha, Hd. split; [by apply NoDup_dset|]. intros k. rewrite !dget_dset, Hg, !dget_fields.
      repeat (case_decide; subst); done.
    + split; [done|]. intros k. by rewrite Hg.
Qed.

Lemma texts_jeq g n a : texts g n a → jeq (JObj g) (JObj (field "name" n ++ field "arguments" a)).
Proof.
  intros [Hnd Hg]. apply dict_jeq; [done| |].
  - destruct n, a; apply (bool_decide_unpack _); vm_compute; exact I.
  - intros k. by rewrite Hg.
Qed.

(** An entry that says what the pieces of its call said. *)
Definition entry_ok (cs : list Call) (e : list (string * json)) : Prop :=
  NoDup e.*1 ∧ dget "id" e = JStr <$> head (omap pc_id cs) ∧ dget "type" e = JStr <$> head (omap pc_kind cs) ∧
  (∃ g, dget "function" e = Some (JObj g) ∧ texts g (joined (omap pc_name cs)) (joined (omap pc_arguments cs))) ∧
  ∀ k, k ∉ ["id"; "type"; "function"] → dget k e = None.

Lemma dget_set_first k k' o e :
  dget k (set_first k' (option_json o) e) =
    if decide (k = k') then match dget k e with Some v => Some v | None => JStr <$> o end else dget k e.
Proof.
  unfold set_first, din. destruct o as [s|]; simpl; case_decide as Hk; subst.
  - destruct (dget k' e) eqn:E; simpl; [done|]. by rewrite dget_dset_eq.
  - destruct (dget k' e); simpl; [done|]. by rewrite dget_dset_ne.
  - by destruct (dget k' e).
  - done.
Qed.

Lemma NoDup_set_first k v (e : list (string * json)) : NoDup e.*1 → NoDup (set_first k v e).*1.
Proof. intros H. unfold set_first. destruct (_ && _); [by apply NoDup_dset|done]. Qed.

Lemma call_step_ok cs e q : entry_ok cs e → entry_ok (cs ++ [q]) (call_step e q).
Proof.
  intros (Hnd & Hid & Hty & (g & Hfn & Hg) & Hrest).
  unfold call_step. set (e1 := set_first "type" _ (set_first "id" _ e)).
  assert (NoDup e1.*1) as Hnd1 by by apply NoDup_set_first, NoDup_set_first.
  assert (∀ k, dget k e1 = if decide (k = "type") then JStr <$> head (omap pc_kind (cs ++ [q]))
    else if decide (k = "id") then JStr <$> head (omap pc_id (cs ++ [q])) else dget k e) as He1.
  { intros k. unfold e1. rewrite !dget_set_first, !head_omap. destruct (decide (k = "type")) as [->|].
    - rewrite decide_False by done. rewrite Hty. by destruct (head (omap pc_kind cs)).
    - destruct (decide (k = "id")) as [->|]; [|done]. rewrite Hid. by destruct (head (omap pc_id cs)). }
  assert (get "function" e1 = JObj g) as ->.
  { unfold get. rewrite He1. rewrite !decide_False by done. by rewrite Hfn. }
  assert (∃ g', match pc_function q with Some (n, a) =>
      dset "function" (JObj (add_strings ["name"; "arguments"] (field "name" n ++ field "arguments" a) g)) e1
      | None => e1 end = dset "function" (JObj g') e1 ∧
    texts g' (joined (omap pc_name (cs ++ [q]))) (joined (omap pc_arguments (cs ++ [q])))) as (g' & -> & Hg').
  { rewrite !joined_omap. unfold pc_name at 2, pc_arguments at 2. destruct (pc_function q) as [[n a]|]; simpl.
    - eexists. split; [done|]. by apply add_texts.
    - exists g. split; [|done]. by rewrite dset_get by (by rewrite He1, !decide_False). }
  split_and!.
  - by apply NoDup_dset.
  - by rewrite dget_dset_ne, He1.
  - by rewrite dget_dset_ne, He1.
  - eexists. split; [apply dget_dset_eq|exact Hg'].
  - intros k Hk. assert (k ≠ "id" ∧ k ≠ "type" ∧ k ≠ "function") as (? & ? & ?) by set_solver.
    rewrite dget_dset_ne, He1, !decide_False by done. by apply Hrest.
Qed.

Lemma entry_run cs : entry_ok cs (foldl call_step new_entry cs).
Proof.
  induction cs as [|q cs IH] using rev_ind.
  - split_and!; [apply (bool_decide_unpack _); vm_compute; exact I|done|done| |].
    + exists []. split; [done|apply texts_nil].
    + intros k Hk. simpl. rewrite decide_False; [done|]. intros ->. apply Hk. set_solver.
  - rewrite foldl_app. simpl. by apply call_step_ok.
Qed.

Lemma entry_jeq cs e : entry_ok cs e → jeq (JObj e) (call_of cs).
Proof.
  intros (Hnd & Hid & Hty & (g & Hfn & Hg) & Hrest). unfold call_of.
  set (n := joined _) in *. set (a := joined (omap pc_arguments cs)) in *.
  apply dict_jeq; [done| |].
  { destruct (head (omap pc_id cs)), (head (omap pc_kind cs)); apply (bool_decide_unpack _); vm_compute; exact I. }
  intros k. destruct (decide (k ∈ ["id"; "type"; "function"])) as [Hk|Hk].
  - apply elem_of_cons in Hk as [->|[->|[->|[]%elem_of_nil]%elem_of_cons]%elem_of_cons].
    + rewrite Hid. by destruct (head (omap pc_id cs)), (head (omap pc_kind cs)).
    + rewrite Hty. by destruct (head (omap pc_id cs)), (head (omap pc_kind cs)).
    + rewrite Hfn. pose proof (texts_jeq g n a Hg) as Hj. unfold jeq in Hj. simpl in Hj |- *.
      rewrite !dget_app. destruct (head (omap pc_id cs)), (head (omap pc_kind cs)); simpl; by rewrite Hj.
  - rewrite Hrest by done. assert (k ≠ "id" ∧ k ≠ "type" ∧ k ≠ "function") as (? & ? & ?) by set_solver.
    symmetry. destruct (head (omap pc_id cs)), (head (omap pc_kind cs)); simpl; by rewrite !decide_False by done.
Qed.

(** *** The whole choice *)

Definition run (ps : list piece) : Choice := foldl apply_piece new_choice ps.

Definition fc_run (fs : list (option string * option string)) : option (list (string * json)) :=
  match fs with
  | [] => None
  | _ => Some (foldl (λ d f, add_strings ["name"; "arguments"] (field "name" f.1 ++ field "arguments" f.2) d) [] fs)
  end.

Lemma fc_run_snoc fs f : fc_run (fs ++ [f]) =
  Some (add_strings ["name"; "arguments"] (field "name" f.1 ++ field "arguments" f.2) (default [] (fc_run fs))).
Proof. unfold fc_run. destruct fs as [|x fs]; [done|]. simpl app. cbn iota. rewrite app_comm_cons, foldl_app. done. Qed.

Lemma fc_run_texts fs : fs ≠ [] →
  ∃ d, fc_run fs = Some d ∧ texts d (joined (omap fst fs)) (joined (omap snd fs)).
Proof.
  intros Hne. unfold fc_run. destruct fs as [|x fs]; [done|]. eexists. split; [done|]. clear Hne.
  generalize (x :: fs) as l. clear. intros l. induction l as [|f l IH] using rev_ind; [apply texts_nil|].
  rewrite foldl_app, !joined_omap. simpl. by apply add_texts.
Qed.

(** The state of a choice, field by field. *)
Record built (ps : list piece) (c : Choice) : Prop := {
  bu_role : ch_role c = role_of ps;
  bu_content : ch_content c = content_of ps;
  bu_refusal : ch_refusal c = refusal_of ps;
  bu_fc : ch_fc c = fc_run (functions_of ps);
  bu_tools : ch_tools c = foldl tool_step [] (calls_of ps);
  bu_finish : opt_str (ch_finish c) = finish_of ps ∧ (finish_of ps = None → ch_finish c = JNull);
}.

Lemma run_built ps : built ps (run ps).
Proof.
  unfold run. induction ps as [|p ps IH] using rev_ind; [by split|].
  rewrite foldl_app. simpl. destruct IH as [Hr Hc Hf Hfc Ht [Hfin Hnull]].
  set (c := foldl apply_piece new_choice ps) in *.
  destruct p as [r|t|t|n a|q|reason]; split; cbn [apply_piece ch_role ch_content ch_refusal ch_fc ch_tools ch_finish set_finish jtrue];
    unfold role_of, content_of, refusal_of, functions_of, calls_of, finish_of in *;
    rewrite ?head_omap, ?joined_omap, ?last_omap, ?omap_app, ?foldl_app; cbn [plus];
    rewrite ?app_nil_r; try done; try (rewrite Hr; by destruct (head _)); try (by rewrite ?Hc, ?Hf).
  - rewrite Hfc. symmetry. exact (fc_run_snoc _ (n, a)).
  - by rewrite Ht.
  - case_decide as Hs; [subst; done|]. rewrite bool_decide_eq_false_2 by done. simpl. by rewrite decide_False.
Qed.

Lemma by_index_fmap {A} (f : Z → A) l : by_index ((λ i, (i, f i)) <$> l) = f <$> py_sort Z.leb l.
Proof.
  unfold by_index. rewrite (py_sort_fmap (λ i, (i, f i)) Z.leb key_le) by done. by rewrite <-list_fmap_compose.
Qed.

Lemma tools_jeq cs :
  let tools := foldl tool_step [] cs in
  Forall2 jeq (JObj <$> by_index tools)
    ((λ i, call_of (filter (λ c, pc_index c = i) cs)) <$> py_sort Z.leb (fromkeys (pc_index <$> cs))) ∧
  (tools = [] ↔ cs = []).
Proof.
  simpl. unfold tool_step. rewrite (dict_group pc_index call_step new_entry cs). split.
  - rewrite by_index_fmap, <-list_fmap_compose. apply Forall2_fmap, Forall_Forall2_diag, Forall_true. intros i.
    apply entry_jeq, entry_run.
  - split; [|by intros ->]. intros H%fmap_nil_inv. apply fromkeys_nil, fmap_nil_inv in H. done.
Qed.

Lemma message_jeq ps : jeq (choice_message (run ps)) (message_of ps).
Proof.
  destruct (run_built ps) as [Hr Hc Hf Hfc Ht _]. unfold choice_message, message_of.
  rewrite Hr, Hc, Hf, Hfc, Ht. pose proof (tools_jeq (calls_of ps)) as [Hj Hn].
  set (tools := foldl _ [] (calls_of ps)) in *.
  assert (Forall2 (λ p q, p.1 = q.1 ∧ jeq p.2 q.2)
    (match tools with [] => [] | ts => [("tool_calls", JArr (JObj <$> by_index ts))] end)
    (match calls_of ps with [] => [] | _ => [("tool_calls", JArr ((λ i, call_of (filter (λ c, pc_index c = i) (calls_of ps))) <$>
        py_sort Z.leb (fromkeys (pc_index <$> calls_of ps))))] end)) as Htools.
  { destruct tools as [|t tools], (calls_of ps) as [|q cs]; [done|by destruct Hn as [H _]; discriminate H|
      by destruct Hn as [_ H]; discriminate H|].
    constructor; [|done]. split; [done|]. by apply jeq_arr. }
  assert (Forall2 (λ p q, p.1 = q.1 ∧ jeq p.2 q.2)
    (match fc_run (functions_of ps) with Some fc => [("function_call", JObj fc)] | None => [] end)
    (match functions_of ps with [] => [] | fs => [("function_call", JObj (field "name" (joined (omap fst fs)) ++
        field "arguments" (joined (omap snd fs))))] end)) as Hfun.
  { destruct (functions_of ps) as [|f fs] eqn:E; [done|]. destruct (fc_run_texts (f :: fs)) as (d & -> & Hd); [done|].
    constructor; [|done]. split; [done|]. by apply texts_jeq. }
  apply pointwise_jeq.
  - destruct (refusal_of ps), (fc_run _), tools; apply (bool_decide_unpack _); vm_compute; exact I.
  - apply Forall2_app; [repeat constructor; reflexivity|].
    apply Forall2_app; [destruct (refusal_of ps); repeat constructor; reflexivity|].
    apply Forall2_app; [exact Hfun|by destruct tools].
Qed.

(** *** Well-formed messages *)

Lemma keyed_lookup d : NoDup d.*1 → (∀ k v, dget k d = Some v → keyed v = true) → keyed (JObj d) = true.
Proof. intros Hnd H. apply keyed_obj. split; [done|]. intros k v Hin. apply (H k). by apply elem_dget. Qed.

Lemma texts_keyed g n a : texts g n a → keyed (JObj g) = true.
Proof.
  intros [Hnd Hg]. apply keyed_lookup; [done|]. intros k v. rewrite Hg, dget_fields.
  destruct n, a; repeat case_decide; by intros [= <-].
Qed.

Lemma fields_texts n a : texts (field "name" n ++ field "arguments" a) n a.
Proof. split; [|done]. destruct n, a; apply (bool_decide_unpack _); vm_compute; exact I. Qed.

Lemma entry_keyed cs e : entry_ok cs e → keyed (JObj e) = true.
Proof.
  intros (Hnd & Hid & Hty & (g & Hfn & Hg) & Hrest). apply keyed_lookup; [done|]. intros k v Hk.
  destruct (decide (k ∈ ["id"; "type"; "function"])) as [Hin|Hin]; [|by rewrite Hrest in Hk].
  apply elem_of_cons in Hin as [->|[->|[->|[]%elem_of_nil]%elem_of_cons]%elem_of_cons].
  - rewrite Hid in Hk. destruct (head (omap pc_id cs)); simpl in Hk; [by injection Hk as <-|done].
  - rewrite Hty in Hk. destruct (head (omap pc_kind cs)); simpl in Hk; [by injection Hk as <-|done].
  - rewrite Hfn in Hk. simplify_eq. by eapply texts_keyed.
Qed.

Lemma call_keyed cs : keyed (call_of cs) = true.
Proof.
  unfold call_of. pose proof (texts_keyed _ _ _ (fields_texts (joined (omap pc_name cs)) (joined (omap pc_arguments cs)))) as H.
  set (f := JObj (field "name" _ ++ _)) in *. clearbody f.
  destruct (head (omap pc_id cs)), (head (omap pc_kind cs)); cbn [field app keyed forallb fst snd fmap list_fmap];
    rewrite H; apply andb_true_iff; (split; [|done]); apply bool_decide_eq_true, (bool_decide_unpack _); vm_compute; exact I.
Qed.

(** The parts of a message, whatever they are. *)
Lemma message_keyed role content refusal (fc : option (list (string * json))) (calls : option (list json)) :
  (∀ d, fc = Some d → keyed (JObj d) = true) → (∀ l, calls = Some l → forallb keyed l = true) →
  keyed (JObj ([("role", JStr role); ("content", option_json content)] ++ field "refusal" refusal ++
    match fc with Some d => [("function_call", JObj d)] | None => [] end ++
    match calls with Some l => [("tool_calls", JArr l)] | None => [] end)) = true.
Proof.
  intros Hfc Hcalls. assert (keyed (option_json content) = true) as Hc by by destruct content.
  destruct refusal as [s|], fc as [d|], calls as [l|];
    try specialize (Hfc _ eq_refl); try specialize (Hcalls _ eq_refl);
    change (keyed (JArr ?l)) with (forallb keyed l) in *;
    cbn [field app fmap list_fmap fst snd forallb]; apply keyed_obj; (split;
      [apply (bool_decide_unpack _); vm_compute; exact I|]);
    intros k v; rewrite !elem_of_cons, elem_of_nil; intros Hin; destruct_or! Hin; simplify_eq; done.
Qed.

Lemma keyed_calls (f : Z → json) (l : list Z) : (∀ i, keyed (f i) = true) → forallb keyed (f <$> l) = true.
Proof. intros H. apply forallb_elem_of. intros v (i & -> & _)%list_elem_of_fmap. apply H. Qed.

(** The tool calls of both messages. *)
Definition run_calls (ps : list piece) : option (list json) :=
  match ch_tools (run ps) with [] => None | ts => Some (JObj <$> by_index ts) end.
Definition whole_calls (ps : list piece) : option (list json) :=
  match calls_of ps with
  | [] => None
  | cs => Some ((λ i, call_of (filter (λ c, pc_index c = i) cs)) <$> py_sort Z.leb (fromkeys (pc_index <$> cs)))
  end.

Lemma run_calls_form ps : run_calls ps =
  match calls_of ps with
  | [] => None
  | cs => Some ((λ i, JObj (foldl call_step new_entry (filter (λ c, pc_index c = i) cs))) <$>
                  py_sort Z.leb (fromkeys (pc_index <$> cs)))
  end.
Proof.
  unfold run_calls. rewrite (bu_tools _ _ (run_built ps)). unfold tool_step. rewrite (dict_group pc_index call_step new_entry).
  set (f := λ k, foldl call_step new_entry (filter (λ x, pc_index x = k) (calls_of ps))).
  transitivity (match fromkeys (pc_index <$> calls_of ps) with [] => None
    | ks => Some (JObj <$> by_index ((λ k, (k, f k)) <$> ks)) end); [by destruct (fromkeys _)|].
  destruct (calls_of ps) as [|q cs] eqn:E; [done|]. destruct (fromkeys _) as [|k ks] eqn:Ek; [by apply fromkeys_nil in Ek|].
  by rewrite by_index_fmap, <-list_fmap_compose.
Qed.

Lemma choice_message_keyed ps : keyed (choice_message (run ps)) = true.
Proof.
  pose proof (message_keyed (or_str (ch_role (run ps)) "assistant") (ch_content (run ps)) (ch_refusal (run ps))
    (ch_fc (run ps)) (run_calls ps)) as H.
  unfold choice_message, run_calls in *. destruct (ch_tools (run ps)) eqn:E; apply H; clear H; try done.
  all: rewrite ?(bu_fc _ _ (run_built ps)).
  1, 2: intros d Hd; destruct (functions_of ps) as [|f fs] eqn:Ef; [done|];
    destruct (fc_run_texts (f :: fs)) as (d' & Hd' & Ht); [done|]; rewrite Hd in Hd'; simplify_eq; by eapply texts_keyed.
  intros k Hl. pose proof (run_calls_form ps) as Hr. unfold run_calls in Hr. rewrite E, Hl in Hr.
  destruct (calls_of ps) eqn:Ec; [done|]. injection Hr as ->. apply keyed_calls. intros i.
  eapply entry_keyed, entry_run.
Qed.

Lemma message_of_keyed ps : keyed (message_of ps) = true.
Proof.
  pose proof (message_keyed (or_str (role_of ps) "assistant") (content_of ps) (refusal_of ps)
    (match functions_of ps with [] => None
     | fs => Some (field "name" (joined (omap fst fs)) ++ field "arguments" (joined (omap snd fs))) end)
    (whole_calls ps)) as H.
  unfold message_of, whole_calls in *. destruct (functions_of ps) eqn:Ef, (calls_of ps) eqn:Ec; apply H; clear H; try done.
  all: try (intros d [= <-]; by eapply texts_keyed, fields_texts).
  all: intros k [= <-]; apply keyed_calls; intros i; apply call_keyed.
Qed.

Lemma message_digests ps api s : message_digest api s (choice_message (run ps)) = message_digest api s (message_of ps).
Proof. apply digest_jeq, project_jeq; [apply choice_message_keyed|apply message_of_keyed|apply message_jeq]. Qed.

(** *** What [with_calls] reads of a message *)

Lemma entry_pair cs e : entry_ok cs e → call_pair (JObj e) = call_pair (call_of cs).
Proof.
  intros (_ & Hid & _ & (g & Hfn & [_ Hg]) & _). unfold call_pair, call_of, get. simpl. unfold get. rewrite Hid, Hfn. simpl.
  unfold get. rewrite Hg.
  by destruct (head (omap pc_id cs)), (head (omap pc_kind cs)), (joined (omap pc_name cs)).
Qed.

Lemma message_vget_calls ps :
  vget "tool_calls" (choice_message (run ps)) = match run_calls ps with Some l => JArr l | None => JNull end ∧
  vget "tool_calls" (message_of ps) = match whole_calls ps with Some l => JArr l | None => JNull end.
Proof.
  unfold choice_message, message_of, run_calls, whole_calls. split.
  - by destruct (ch_refusal (run ps)), (ch_fc (run ps)), (ch_tools (run ps)).
  - by destruct (refusal_of ps), (functions_of ps), (calls_of ps).
Qed.

Lemma message_calls ps : chat_calls (choice_message (run ps)) = chat_calls (message_of ps).
Proof.
  destruct (message_vget_calls ps) as [H1 H2]. unfold chat_calls. rewrite H1, H2, run_calls_form. unfold whole_calls.
  destruct (calls_of ps) as [|q cs]; [done|]. rewrite !iterate_arr. cbn [mbind parsed_bind]. f_equal.
  induction (py_sort Z.leb _) as [|i k IH]; [done|]. rewrite !fmap_cons. cbn [omap list_omap]. rewrite IH.
  by rewrite (entry_pair _ _ (entry_run (filter (λ c, pc_index c = i) (q :: cs)))).
Qed.

Lemma message_role ps :
  vget "role" (choice_message (run ps)) = JStr (or_str (role_of ps) "assistant") ∧
  vget "role" (message_of ps) = JStr (or_str (role_of ps) "assistant").
Proof. unfold choice_message. by rewrite (bu_role _ _ (run_built ps)). Qed.

(** *** The whole document *)

Section whole.
Context {FT : FloatText} (key : option (list Z)).

(** The choices are read in the order of their indices, which is how they stand. *)
Lemma ordered_choices l :
  py_sort index_le (filter (λ c, is_dict c = true) (choice_of l <$> indices l)) = choice_of l <$> indices l.
Proof.
  assert (∀ k, filter (λ c, is_dict c = true) (choice_of l <$> k) = choice_of l <$> k) as ->.
  { intros k. induction k as [|i k IH]; [done|]. by rewrite fmap_cons, filter_cons_True, IH. }
  unfold indices. rewrite (py_sort_fmap (choice_of l) Z.leb index_le).
  - by rewrite py_sort_idemp by apply _.
  - by intros x y.
Qed.

Lemma pconcat_ext {A B C} (f : A → parsed (list C)) (g : B → parsed (list C)) l k :
  Forall2 (λ x y, f x = g y) l k → pconcat f l = pconcat g k.
Proof. induction 1 as [|x y l k Hxy _ IH]; [done|]. simpl. by rewrite Hxy, IH. Qed.

Lemma roles_const b (f : Z → json) l (r : Z → string) :
  (∀ i, vget "role" (f i) = JStr (r i)) → roles (f <$> l) b = mapM (λ i, opt_str (JStr (r i))) l.
Proof.
  intros H. induction l as [|i l IH]; [done|]. rewrite fmap_cons. cbn [roles]. rewrite H, IH. done.
Qed.

(** The calls of a list of messages never fail to be read. *)
Lemma run_calls_done ps : ∃ cs, chat_calls (message_of ps) = Done cs.
Proof.
  destruct (message_vget_calls ps) as [_ H]. unfold chat_calls. rewrite H.
  destruct (whole_calls ps); [rewrite iterate_arr|]; by eexists.
Qed.

Lemma pconcat_done l k : ∃ cs, pconcat chat_calls ((λ i, message_of (pieces i l)) <$> k) = Done cs.
Proof.
  induction k as [|i k [cs IH]]; [by eexists|]. rewrite fmap_cons. cbn [pconcat].
  destruct (run_calls_done (pieces i l)) as [c ->]. cbn [mbind parsed_bind]. rewrite IH. by eexists.
Qed.

Lemma finish_indices (f : Z → json) (g : Z → option string) l :
  (∀ i, opt_str (f i) = g i) → finish (f <$> l) = omap g l.
Proof.
  intros H. unfold finish. induction l as [|i l IH]; [done|]. rewrite fmap_cons. cbn [omap list_omap]. by rewrite H, IH.
Qed.

(** The reading of a stream, with the given message for each choice. *)
Definition streamed (l : list Event) (message : list piece → json) : Response :=
  mk_response (opaque key <$> first_text (ev_id <$> l)) (first_text (ev_model <$> l))
    (omap (λ i, finish_of (pieces i (parts_of l))) (indices (parts_of l)))
    ((λ i, message (pieces i (parts_of l))) <$> indices (parts_of l)) None []
    (match last_usage l with Some u => usage_openai (JObj u) | None => [] end) ps_ok.

Lemma chat_stream_form vs l : Forall2 says_event vs l →
  stream_response key chat_completions vs = Done (streamed l (λ ps, choice_message (run ps))).
Proof.
  intros H. unfold stream_response, chat_stream. rewrite (events_says _ _ _ _ H). cbn [mbind parsed_bind fst snd].
  rewrite head_stream, parts_fold, by_index_fmap. rewrite <-!list_fmap_compose. unfold streamed. do 2 f_equal.
  apply finish_indices. intros i. apply (bu_finish _ _ (run_built (pieces i _))).
Qed.

Lemma opt_str_finish ps : opt_str (option_json (finish_of ps)) = finish_of ps.
Proof.
  unfold finish_of. induction ps as [|p ps IH] using rev_ind; [done|]. rewrite last_omap.
  destruct p; try exact IH. case_decide as Hs; [exact IH|]. simpl. by rewrite decide_False.
Qed.

Lemma opt_str_first l : opt_str (option_json (first_text l)) = first_text l.
Proof.
  unfold first_text. induction l as [|o l IH]; [done|]. csimpl. destruct o as [s|]; csimpl; [|done].
  case_decide as Hs; [done|]. simpl. by rewrite decide_False.
Qed.

Lemma opt_id_first l : opt_id key (option_json (first_text l)) = opaque key <$> first_text l.
Proof. unfold opt_id. by rewrite opt_str_first. Qed.

Lemma chat_document_form l :
  document_response key chat_completions (document_of l) = Done (streamed l message_of).
Proof.
  unfold document_response, chat_document.
  change (get "choices" (document_of l)) with (JArr (choice_of (parts_of l) <$> indices (parts_of l))).
  change (get "id" (document_of l)) with (option_json (first_text (ev_id <$> l))).
  change (get "model" (document_of l)) with (option_json (first_text (ev_model <$> l))).
  change (get "usage" (document_of l)) with (match last_usage l with Some u => JObj u | None => JNull end). cbn iota.
  rewrite ordered_choices, <-!list_fmap_compose, opt_id_first, opt_str_first. unfold streamed. f_equal. f_equal.
  - apply finish_indices. intros i. apply opt_str_finish.
  - induction (indices (parts_of l)) as [|i k IH]; [done|]. rewrite fmap_cons, filter_cons. rewrite decide_True by done.
    by rewrite IH.
  - by destruct (last_usage l).
Qed.

(** C28: a reply streamed in events - any number of choices in an event, any of its fields in a
    delta (a role with content, content with a finish reason, several tool calls), the texts and
    the pieces of the tool calls cut anywhere and interleaved in any way, other keys and nulls
    among them - and the same reply as one document are stitched alike: both are parsed, with
    the same id, model and usage, the same digests of their messages, roles, tool calls and
    finish reasons; the messages are those the pieces add up to. *)
Theorem chat_stream_is_document (vs : list json) (l : list Event) : Forall2 says_event vs l → ∃ r r',
  (r ← stream_response key chat_completions vs; with_calls key chat_completions r) = Done r ∧
  (r ← document_response key chat_completions (document_of l); with_calls key chat_completions r) = Done r' ∧
  (message_digest chat_completions response_side <$> rs_outputs r) =
    (message_digest chat_completions response_side <$> rs_outputs r') ∧
  rs_roles r = rs_roles r' ∧ rs_tool_calls r = rs_tool_calls r' ∧ rs_finish_reasons r = rs_finish_reasons r' ∧
  rs_response_id r = rs_response_id r' ∧ rs_model r = rs_model r' ∧ rs_usage r = rs_usage r' ∧
  rs_outputs r' = (λ i, message_of (pieces i (parts_of l))) <$> indices (parts_of l) ∧
  rs_status r = ps_ok ∧ rs_status r' = ps_ok.
Proof.
  intros H. rewrite (chat_stream_form _ _ H), chat_document_form. cbn [mbind parsed_bind].
  destruct (pconcat_done (parts_of l) (indices (parts_of l))) as [cs Hcs].
  assert (pconcat chat_calls (rs_outputs (streamed l (λ ps, choice_message (run ps)))) = Done cs) as Hcs'.
  { rewrite <-Hcs. apply pconcat_ext, Forall2_fmap, Forall_Forall2_diag, Forall_true. intros i. apply message_calls. }
  unfold with_calls. change (rs_outputs (streamed l message_of)) with
    ((λ i, message_of (pieces i (parts_of l))) <$> indices (parts_of l)).
  rewrite Hcs, Hcs'. cbn [mbind parsed_bind]. eexists _, _. split; [done|]. split; [done|]. cbn. split_and!; try done.
  - rewrite <-!list_fmap_compose. apply list_fmap_ext. intros _ i _. apply message_digests.
  - rewrite !(roles_const false _ _ (λ i, or_str (role_of (pieces i (parts_of l))) "assistant")); [done| |];
      intros i; apply (message_role (pieces i (parts_of l))).
Qed.
End whole.

(** A stream of two choices: a role with content, two calls in one delta, content with a finish
    reason, a null and a usage at the end. *)
Definition sample_call (i : Z) (id text : string) : json :=
  JObj [("index", JInt i); ("id", JStr id); ("type", JStr "function"); ("function", JObj [("arguments", JStr text)])].

Definition sample_stream : list json :=
  let event choices := JObj [("id", JStr "chat-1"); ("model", JStr "m"); ("choices", JArr choices)] in
  [event [JObj [("index", JInt 1); ("delta", JObj [("role", JStr "assistant"); ("content", JStr "Hel"); ("refusal", JNull)])];
          JObj [("index", JInt 0); ("delta", JObj [("tool_calls", JArr [sample_call 1 "b" "{"; sample_call 0 "a" "{}"])]);
                ("finish_reason", JNull)]];
   event [JObj [("index", JInt 1); ("delta", JObj [("content", JStr "lo")]); ("finish_reason", JStr "stop")];
          JObj [("index", JInt 0); ("finish_reason", JStr "tool_calls"); ("logprobs", JNull);
                ("delta", JObj [("tool_calls", JArr [JObj [("index", JInt 1); ("function", JObj [("arguments", JStr "}")])]])])]];
   JObj [("choices", JArr []); ("usage", JObj [("prompt_tokens", JInt 3)])]].

Definition sample_events : list Event :=
  let call i id text := mk_call i (Some id) (Some "function") (Some (None, Some text)) in
  let event := mk_event (Some "chat-1") (Some "m") None in
  [event [mk_part 1 (Some (mk_delta (Some "assistant") (Some "Hel") None None [])) None;
          mk_part 0 (Some (mk_delta None None None None [call 1 "b" "{"; call 0 "a" "{}"])) None];
   event [mk_part 1 (Some (mk_delta None (Some "lo") None None [])) (Some "stop");
          mk_part 0 (Some (mk_delta None None None None [mk_call 1 None None (Some (None, Some "}"))])) (Some "tool_calls")];
   mk_event None None (Some [("prompt_tokens", JInt 3)]) []].

Lemma sample_says : Forall2 says_event sample_stream sample_events.
Proof.
  unfold sample_stream, sample_events, sample_call.
  repeat first [apply Forall2_nil_2 | apply Forall2_cons_2 | split | eexists | reflexivity
    | (left; split; reflexivity) | (right; eexists; split; [reflexivity|])].
Qed.

Lemma chat_stream_is_document_witness : ∃ r r',
  (r ← @stream_response plain_floats None chat_completions sample_stream; with_calls None chat_completions r) = Done r ∧
  (message_digest chat_completions response_side <$> rs_outputs r) =
    (message_digest chat_completions response_side <$> rs_outputs r') ∧
  rs_outputs r' =
    [JObj [("role", JStr "assistant"); ("content", JNull); ("tool_calls", JArr
       [JObj [("id", JStr "a"); ("type", JStr "function"); ("function", JObj [("arguments", JStr "{}")])];
        JObj [("id", JStr "b"); ("type", JStr "function"); ("function", JObj [("arguments", JStr "{}")])]])];
     JObj [("role", JStr "assistant"); ("content", JStr "Hello")]].
Proof.
  destruct (@chat_stream_is_document plain_floats None sample_stream sample_events sample_says)
    as (r & r' & Hr & _ & Hd & _ & _ & _ & _ & _ & _ & Ho & _).
  exists r, r'. split; [exact Hr|]. split; [exact Hd|]. rewrite Ho. vm_compute. reflexivity.
Defined.
