(* ===== verification/SpoolHeader.v ===== *)
(** * Spool records: headers

    The first half of [fabric/wire/_spool.py] (spec 048 section 2, capture/v1 1.3.0): the
    entries a process writes to the spool - a wire exchange, a records-input record, a loss
    range or a marker - and [valid_header], the reader's check of a header it decoded. The
    reader treats an exception of the check as a refusal, so the check is a conjunction and
    [false] stands for both. [re.fullmatch] checks the whole string. *)

From S2P Require Import Prelude PyDict Hash Json Decimal Canonical Ids JsonRead JsonValues Tokens Markers MarkerForm LossTable.

(** The integer that the float of a numeral is equal to, if there is one. *)
Class FloatInt := float_int : string → option Z.

(** ** Vocabularies and patterns *)

Definition SCHEMA : string := "fabric.wire-spool-record/v1".
Definition MAX_BODIES : nat := 260.
Definition MAX_RECORD_BODIES : nat := 8.

Definition KEYS (kind : string) : option (list string) :=
  dget kind [("exchange", ["service_name"; "span"; "bodies"]); ("record", ["span"]);
             ("loss", ["loss"]); ("marker", ["marker"])].
Definition OPTIONAL (kind : string) : list string :=
  default [] (dget kind [("record", ["service_name"; "bodies"])]).
Definition COMMON : list string := ["schema_version"; "record_kind"; "source"; "order"; "written_at_unix_nano"].
Definition REASONS : list string :=
  ["queue_full"; "internal_error"; "shutdown"; "span_dropped"; "uninstrumented_client"; "disk_full"].
Definition LOSS_KEYS : list string := ["reason"; "count"; "first_sequence"; "last_sequence"; "segment_id"].
Definition DESCRIPTOR_ONLY : list string := ["not_captured"; "unsupported"].
Definition SPAN_KINDS : list string := ["internal"; "client"; "server"; "producer"; "consumer"].
Definition ROOT_ONLY : list string := ["session_id"; "user_id"; "parent_run_id"; "resumed_from"; "links"].
Definition IDENTITY : list string := ["agent_id"; "system_id"; "deployment_id"; "release_id"; "environment"].
Definition REQUIRED_MARKER (k : MarkerKind) : list string :=
  match k with
  | run_start | run_end => ["run_id"; "scope_id"]
  | segment_seal => ["run_id"; "segment_id"; "terminal"; "seal"]
  | final => []
  | manifest_kind => ["manifest"]
  | periodic => []
  end.

Definition SCOPE_STATUSES : list string := scope_text <$> [scope_ok; scope_error; scope_cancelled].
Definition ID_BASES : list string :=
  basis_text <$> [id_caller; id_caller_join; id_token; id_token_conflict; id_minted; id_legacy].
Definition RUN_OUTCOMES : list string := outcome_text <$> [completed; failed; cancelled; suspended; unknown_outcome].
Definition STOP_REASONS : list string :=
  stop_text <$> [goal_reached; max_steps; max_tokens; stop_error; stop_cancelled; handoff; awaiting_input;
                 stop_other; stop_unknown].

(** [_HEX\[n\]]: [n] digits, not all of them zero. *)
Definition hex_id (n : nat) (s : string) : bool :=
  hex_n n s && negb (all_chars (λ c, byte_of_ascii c =? 48) s).

(** [UUID4_RE] *)
Definition uuid4 (s : string) : bool :=
  match split_on (char 45) s with
  | [a; b; c; d; e] =>
      hex_n 8 a && hex_n 4 b && hex_n 4 c && match c with String x _ => byte_of_ascii x =? 52 | "" => false end
      && hex_n 4 d && match d with String x _ => existsb (Z.eqb (byte_of_ascii x)) [56; 57; 97; 98] | "" => false end
      && hex_n 12 e
  | _ => false
  end.

(** [_PREDECESSOR] *)
Definition predecessor_re (s : string) : bool := bool_decide (s = "none") || present (entry_match s).

(** [_IDENTITY_VALUE] *)
Definition identity_value (s : string) : bool :=
  match s with
  | "" => false
  | String c rest =>
      is_alnum c && all_chars (λ c, is_opaque_char c || (byte_of_ascii c =? 47)) rest
      && (String.length rest <=? 127)%nat
  end.

(** ** Values *)

(** [_int] *)
Definition int_in (low : Z) (high : option Z) (v : json) : bool :=
  match v with
  | JInt z => (low <=? z) && match high with Some h => z <=? h | None => true end
  | _ => false
  end.
Definition int_from (low : Z) : json → bool := int_in low None.

(** [isinstance(v, str) and p(v)]; a [None] for [v] fails. *)
Definition str_ok (p : string → bool) (v : json) : bool := match v with JStr s => p s | _ => false end.

(** [_ids] *)
Definition ids_ok (p : string → bool) (low high : nat) (v : json) : bool :=
  match v with
  | JArr l => (low <=? length l)%nat && (length l <=? high)%nat && forallb (str_ok p) l
  | _ => false
  end.

(** [_text] *)
Definition text_ok (v : json) : bool :=
  str_ok (λ s, (1 <=? length (characters s))%nat && (length (characters s) <=? 256)%nat) v.

(** [v in vocabulary] *)
Definition one_of (words : list string) : json → bool := str_ok (λ s, bool_decide (s ∈ words)).

Definition is_bool (v : json) : bool := match v with JBool _ => true | _ => false end.

(** [d\[k\]] with a check of the value; a missing key raises. *)
Definition at_key (k : string) (p : json → bool) (d : list (string * json)) : bool :=
  match dget k d with Some v => p v | None => false end.
(** [k not in d or p(d\[k\])] *)
Definition if_key (k : string) (p : json → bool) (d : list (string * json)) : bool :=
  match dget k d with Some v => p v | None => true end.
(** [isinstance(v, dict) and p(v)] *)
Definition dict_ok (p : list (string * json) → bool) (v : json) : bool :=
  match v with JObj d => p d | _ => false end.
Definition subset (l k : list string) : bool := forallb (λ x, bool_decide (x ∈ k)) l.

Section values.
Context {FI : FloatInt}.

(** [v == z] for an integer [z]. *)
Definition equals_int (z : Z) (v : json) : bool :=
  match v with
  | JInt x => x =? z
  | JBool b => Z.b2z b =? z
  | JFloat r => bool_decide (float_int r = Some z)
  | _ => false
  end.

Definition int_value (v : json) : option Z :=
  match v with JInt z => Some z | JBool b => Some (Z.b2z b) | JFloat r => float_int r | _ => None end.

(** [v == w] where [w] is a string, a number or [None]. *)
Definition equals_scalar (v w : json) : bool :=
  match v, w with
  | JStr s, JStr t => bool_decide (s = t)
  | JNull, JNull => true
  | JFloat r, JFloat q =>
      bool_decide (r = q ∧ r ≠ "NaN") || (bool_decide (float_int r = float_int q) && present (float_int r))
  | (JInt _ | JBool _), _ | _, (JInt _ | JBool _) =>
      bool_decide (int_value v = int_value w) && present (int_value v)
  | _, _ => false
  end.
End values.

(** [_scalar], [_attribute_value] *)
Definition scalar_ok (v : json) : bool :=
  match v with
  | JStr _ | JInt _ | JBool _ => true
  | JFloat r => negb (bool_decide (r ∈ ["NaN"; "Infinity"; "-Infinity"]))
  | _ => false
  end.
Definition attribute_value (v : json) : bool :=
  scalar_ok v || match v with JArr l => (length l <=? 64)%nat && forallb scalar_ok l | _ => false end.

(** ** Markers *)

Definition seal_keys : list string := ["last_sequence"; "manifest_digest"; "seal_digest"; "branch_ids"].

Definition seal_ok (v : list (string * json)) : bool :=
  subset ["last_sequence"; "seal_digest"] v.*1 && subset v.*1 seal_keys
  && at_key "last_sequence" (int_from (-1)) v && at_key "seal_digest" (str_ok digest_re) v
  && if_key "manifest_digest" (str_ok digest_re) v && if_key "branch_ids" (ids_ok BRANCH_ID_RE 0 MAX_BRANCHES) v.

Definition identity_ok (v : list (string * json)) : bool :=
  negb (bool_decide (v = [])) && subset v.*1 IDENTITY && forallb (str_ok identity_value) v.*2.

(** [_MARKER_CHECKS] *)
Definition MARKER_CHECKS (name : string) : json → bool :=
  default (λ _, false) (dget name
    [("run_id", str_ok opaque_id);
     ("scope_id", str_ok (λ s, negb (bool_decide (s = ""))));
     ("segment_id", str_ok SEGMENT_ID_RE);
     ("predecessors", ids_ok predecessor_re 1 MAX_BRANCHES);
     ("resumable", is_bool);
     ("open_deadline_s", int_in 60 (Some 31536000));
     ("declared_branches", ids_ok SEGMENT_ID_RE 0 MAX_BRANCHES);
     ("branch_ids", ids_ok BRANCH_ID_RE 0 MAX_BRANCHES);
     ("terminal", is_bool);
     ("manifest_id", str_ok uuid4);
     ("manifest_digest", str_ok digest_re);
     ("manifest_seq", int_from 0);
     ("scope_status", one_of SCOPE_STATUSES);
     ("manifest", is_dict);
     ("event_id", str_ok uuid4);
     ("id_basis", one_of ID_BASES);
     ("session_id", text_ok); ("user_id", text_ok);
     ("parent_run_id", str_ok opaque_id);
     ("resumed_from", str_ok opaque_id);
     ("links", ids_ok opaque_id 0 MAX_RUN_LINKS);
     ("outcome", one_of RUN_OUTCOMES);
     ("stop_reason", one_of STOP_REASONS);
     ("identity", dict_ok identity_ok);
     ("seal", dict_ok seal_ok)]).

Section check.
Context {FI : FloatInt}.

(** [_manifest_ok] *)
Definition manifest_ok (marker manifest : list (string * json)) : bool :=
  match dget "event_id" marker with
  | Some e => match get "fabric.event_id" manifest with JNull => true | own => bool_decide (own = e) end
  | None => true
  end &&
  match get "fabric.manifest.after_source_sequence" manifest with
  | JNull => true
  | after => at_key "last_sequence" (λ last, match last with JInt z => equals_int z after | _ => false end) marker
  end.

(** [_marker_ok] *)
Definition marker_doc_ok (marker : list (string * json)) : bool :=
  match dget "kind" marker with
  | Some (JStr text) =>
      match kind_of_text text with
      | None | Some periodic => false
      | Some kind =>
          let fields := filter (λ p, p.1 ∉ ["kind"; "last_sequence"]) marker in
          at_key "last_sequence" (int_from (-1)) marker
          && subset fields.*1 (MARKER_FIELDS kind)
          && (negb (existsb (λ name, bool_decide (name ∈ ROOT_ONLY)) fields.*1)
              || bool_decide (dget "predecessors" marker = Some (JArr [JStr "none"])))
          && forallb (λ name, din name marker) (REQUIRED_MARKER kind)
          && forallb (λ p, MARKER_CHECKS p.1 p.2) fields
          && (negb (bool_decide (kind = manifest_kind))
              || at_key "manifest" (dict_ok (manifest_ok marker)) marker)
      end
  | _ => false
  end.

(** ** Spans and bodies *)

(** One body, given the end of the bodies before it. *)
Definition body_ok (offset : Z) (body : json) : option Z :=
  match body with
  | JObj b =>
      match dget "descriptor" b, dget "length" b with
      | Some (JObj descriptor), Some (JInt n) =>
          if at_key "offset" (equals_int offset) b && (0 <=? n)
             && equals_int n (default (JInt 0) (dget "stored_byte_length" descriptor))
             && match get "status" descriptor with
                | JArr _ | JObj _ => false
                | JStr s =>
                    negb (bool_decide (s ∈ DESCRIPTOR_ONLY))
                    || negb (din "stored_byte_length" descriptor) && negb (din "stored_sha256" descriptor)
                | _ => true
                end
          then Some (offset + n) else None
      | _, _ => None
      end
  | _ => None
  end.

Fixpoint bodies_end (offset : Z) (bodies : list json) : option Z :=
  match bodies with [] => Some offset | b :: bodies => o ← body_ok offset b; bodies_end o bodies end.

(** [list(v)] *)
Definition list_of (v : json) : option (list json) :=
  match v with
  | JArr l => Some l
  | JStr s => Some (JStr <$> characters s)
  | JObj l => Some (JStr <$> l.*1)
  | _ => None
  end.

Definition object_id_of (body : json) : json := vget "object_id" (vget "descriptor" body).

(** What the span of a record has beyond the span of an exchange. *)
Definition record_span_ok (span attrs source : list (string * json)) (bodies : list json) : bool :=
  at_key "status" (one_of ["unset"; "ok"; "error"]) span
  && at_key "name" is_str span && if_key "kind" (one_of SPAN_KINDS) span
  && at_key "fabric.capture.input" (one_of ["records"]) attrs
  && at_key "source_epoch" (λ e, match e with JInt z => equals_int z (get "fabric.source.epoch" attrs) | _ => false end)
       source
  && at_key "fabric.event_id" (str_ok uuid4) attrs && at_key "fabric.attempt.uid" (str_ok uuid4) attrs
  && negb (din "fabric.wire.exchange_id" attrs) && negb (din "fabric.source.authenticated" attrs)
  && forallb attribute_value attrs.*2
  && (bool_decide (bodies = [])
      || match list_of (default (JArr []) (dget "fabric.content.object_ids" attrs)) with
         | Some ids => (length bodies =? length ids)%nat
                       && forallb (λ p, equals_scalar p.1 p.2) (zip (object_id_of <$> bodies) ids)
         | None => false
         end).

(** [_span_ok] *)
Definition span_ok (doc : list (string * json)) (blob_length : Z) (is_record : bool) : bool :=
  match dget "span" doc, dget "source" doc, default (JArr []) (dget "bodies" doc) with
  | Some (JObj span), Some (JObj source), JArr bodies =>
      match dget "attributes" span with
      | Some (JObj attrs) =>
          if_key "service_name" is_str doc
          && (length bodies <=? (if is_record then MAX_RECORD_BODIES else MAX_BODIES))%nat
          && bool_decide (bodies_end 0 bodies = Some blob_length)
          && at_key "trace_id" (str_ok (hex_id 32)) span && at_key "span_id" (str_ok (hex_id 16)) span
          && if_key "parent_span_id" (str_ok (hex_id 16)) span
          && at_key "start_time_unix_nano" (int_from 0) span && at_key "end_time_unix_nano" (int_from 0) span
          && at_key "trace_flags" (int_from 0) span
          && at_key "fabric.source_id" (λ v, at_key "source_id" (equals_scalar v) source) attrs
          && at_key "fabric.source.sequence" (int_from 0) attrs
          && (if is_record then record_span_ok span attrs source bodies
              else at_key "status" (one_of ["unset"; "error"]) span
                   && if_key "fabric.capture.input" (one_of ["wire"]) attrs)
      | _ => false
      end
  | _, _, _ => false
  end.

(** ** The check of a header *)

Definition loss_ok (loss : list (string * json)) : bool :=
  subset loss.*1 LOSS_KEYS && at_key "reason" (one_of REASONS) loss && at_key "count" (int_from 1) loss
  && at_key "first_sequence" (λ f, match f with
       | JInt first => (0 <=? first) && at_key "last_sequence" (int_from first) loss
       | _ => false end) loss
  && if_key "segment_id" (str_ok SEGMENT_ID_RE) loss.

Definition source_ok (source : list (string * json)) : bool :=
  at_key "source_id" is_str source && at_key "source_epoch" (int_from 0) source.

(** [valid_header] *)
Definition valid_header (doc : list (string * json)) (blob_length : Z) : bool :=
  match dget "record_kind" doc with
  | Some (JStr kind) =>
      match KEYS kind with
      | Some required =>
          let keys := filter (λ k, k ∉ COMMON) doc.*1 in
          at_key "schema_version" (one_of [SCHEMA]) doc && subset COMMON doc.*1
          && subset required keys && subset keys (required ++ OPTIONAL kind)
          && at_key "source" (dict_ok source_ok) doc
          && at_key "order" (int_from 0) doc && at_key "written_at_unix_nano" (int_from 0) doc
          && (if bool_decide (kind = "loss") then at_key "loss" (dict_ok loss_ok) doc
              else if bool_decide (kind = "marker") then at_key "marker" (dict_ok marker_doc_ok) doc
              else span_ok doc blob_length (bool_decide (kind = "record")))
      | None => false
      end
  | _ => false
  end.
End check.

(** ** The entries a process writes *)

(** [_doc] *)
Definition entry_doc (kind source_id : string) (epoch : Z) (body : list (string * json)) : list (string * json) :=
  [("record_kind", JStr kind);
   ("source", JObj [("source_id", JStr source_id); ("source_epoch", JInt epoch)])] ++ body.

Definition loss_doc (loss : RawKey * LossRange) : list (string * json) :=
  let key := loss_key loss.1 in
  let r := loss.2 in
  entry_doc "loss" (lk_source key) (lk_epoch key)
    [("loss", JObj ([("reason", JStr (reason_text (lk_reason key))); ("first_sequence", JInt (lr_first r));
        ("count", JInt (Z.min (lr_count r) (lr_last r - lr_first r + 1))); ("last_sequence", JInt (lr_last r))]
        ++ match lk_segment key with Some s => [("segment_id", JStr s)] | None => [] end))].

(** [loss_range], [None] where it raises: the key and the range, as the entry holds them. *)
Definition loss_range (doc : list (string * json)) : option (list json * list json) :=
  match dget "source" doc, dget "loss" doc with
  | Some (JObj source), Some (JObj loss) =>
      s ← dget "source_id" source; e ← dget "source_epoch" source; r ← dget "reason" loss;
      f ← dget "first_sequence" loss; l ← dget "last_sequence" loss; c ← dget "count" loss;
      Some ([s; e; r; get "segment_id" loss], [f; l; c])
  | _, _ => None
  end.

(** [marker_doc]; a legacy beat has been made a marker ([Markers.from_beat]). *)
Definition marker_doc (r : MarkerRecord) : list (string * json) :=
  let m := mr_marker r in
  entry_doc "marker" (m_source_id m) (m_epoch m) [("marker", JObj (marker_fields r))].

(** A staged body: its descriptor and its bytes. *)
Definition Staged : Type := list (list (string * json) * string).

(** [_bodies] *)
Fixpoint bodies_from (offset : Z) (staged : Staged) : list json :=
  match staged with
  | [] => []
  | (descriptor, data) :: staged =>
      let n := Z.of_nat (String.length data) in
      JObj [("descriptor", JObj descriptor); ("length", JInt n); ("offset", JInt offset)]
      :: bodies_from (offset + n) staged
  end.
Definition bodies_of (staged : Staged) : list json := bodies_from 0 staged.

Definition exchange_doc (source_id : string) (epoch : Z) (service_name : string) (span : list (string * json))
    (staged : Staged) : list (string * json) :=
  entry_doc "exchange" source_id epoch
    [("service_name", JStr service_name); ("span", JObj span); ("bodies", JArr (bodies_of staged))].
Definition record_doc (source_id : string) (epoch : Z) (service_name : string) (span : list (string * json))
    (staged : Staged) : list (string * json) :=
  entry_doc "record" source_id epoch
    [("service_name", JStr service_name); ("span", JObj span); ("bodies", JArr (bodies_of staged))].

(** [over_bound] *)
Definition over_bound (doc : list (string * json)) : bool :=
  let n := match get "bodies" doc with JArr l => length l | JObj l => length l | JStr s => length (characters s) | _ => 0%nat end in
  match dget "record_kind" doc with
  | Some (JStr "exchange") => (MAX_BODIES <? n)%nat
  | Some (JStr "record") => (MAX_RECORD_BODIES <? n)%nat
  | _ => false
  end.

(** [{**record, "schema_version": SCHEMA, "order": order, "written_at_unix_nano": at}] *)
Definition stamp (order at_ : Z) (doc : list (string * json)) : list (string * json) :=
  dset "written_at_unix_nano" (JInt at_) (dset "order" (JInt order) (dset "schema_version" (JStr SCHEMA) doc)).
