(* ===== verification/SpoolFrame.v ===== *)
(** * Spool records: frames, batch files and the envelope

    The bytes of a spool file ([frame], [unframe], [batch_frame], [unframe_all], [unseal] of
    [fabric/wire/_spool.py]): a header of canonical JSON and the bodies behind it, closed by
    a digest; several frames in one batch file; and the AES-256-GCM envelope of a spool with
    a key, whose cipher is a parameter. Bytes are strings. *)

From S2P Require Import Prelude PyDict Hash Json Decimal Canonical Ids JsonRead JsonValues SpoolHeader.

Definition Doc : Type := list (string * json).

(** ** Bytes *)

Definition len (s : string) : Z := Z.of_nat (String.length s).

(** [s\[a:b\]] for [0 <= a <= b] *)
Definition slice (a b : Z) (s : string) : string := String.substring (Z.to_nat a) (Z.to_nat (b - a)) s.

(** [struct.pack(">I", z)], [struct.pack(">Q", z)]; [None] is [struct.error]. *)
Definition pack (n : nat) (z : Z) : option string :=
  if (0 <=? z) && (z <? 256 ^ Z.of_nat n) then Some (decode_bytes (be_bytes n z)) else None.
Definition unpack (s : string) : Z := word_of_bytes (encode s).

Definition digest (s : string) : string := decode_bytes (sha256 (encode s)).

Fixpoint concat_bytes (l : list string) : string :=
  match l with [] => "" | s :: l => s +:+ concat_bytes l end.

(** ** [json.loads] of bytes *)

(** [bytes.decode("utf-8", "surrogatepass")] succeeds: the code points of surrogates may be
    written out. *)
Fixpoint utf8_surrogates (s : string) : bool :=
  match s with
  | "" => true
  | String a s =>
      if in_range 0 127 a then utf8_surrogates s
      else match s with
      | String b s =>
          if in_range 194 223 a then is_cont b && utf8_surrogates s
          else match s with
          | String c s =>
              if in_range 224 239 a
              then (if bool_decide (byte_of_ascii a = 224) then in_range 160 191 b else is_cont b)
                   && is_cont c && utf8_surrogates s
              else match s with
              | String d s =>
                  in_range 240 244 a
                  && (if bool_decide (byte_of_ascii a = 240) then in_range 144 191 b
                      else if bool_decide (byte_of_ascii a = 244) then in_range 128 143 b else is_cont b)
                  && is_cont c && is_cont d && utf8_surrogates s
              | "" => false
              end
          | "" => false
          end
      | "" => false
      end
  end.

(** UTF-16 and UTF-32 as UTF-8, [unit] bytes a unit, [None] where [decode] raises. *)
Definition unit_of (big : bool) (l : list Z) : Z := word_of_bytes (if big then l else rev l).

Fixpoint units16 (big : bool) (l : list Z) : option (list Z) :=
  match l with
  | [] => Some []
  | a :: b :: l => u ← units16 big l; Some (unit_of big [a; b] :: u)
  | _ => None
  end.
Fixpoint units32 (big : bool) (l : list Z) : option (list Z) :=
  match l with
  | [] => Some []
  | a :: b :: c :: d :: l => u ← units32 big l; Some (unit_of big [a; b; c; d] :: u)
  | _ => None
  end.
Fixpoint join16 (l : list Z) : string :=
  match l with
  | [] => ""
  | h :: ((u :: r) as k) =>
      if is_high h && is_low u then utf8 (join_surrogates h u) +:+ join16 r else utf8 h +:+ join16 k
  | h :: [] => utf8 h
  end.
Definition decode16 (big : bool) (l : list Z) : option string := join16 <$> units16 big l.
Definition decode32 (big : bool) (l : list Z) : option string :=
  u ← units32 big l;
  if forallb (λ z, z <=? 1114111) u then Some (concat_bytes (utf8 <$> u)) else None.

(** [s.decode(detect_encoding(s), "surrogatepass")] *)
Definition decode_json (s : string) : option string :=
  let utf8_text s := if utf8_surrogates s then Some s else None in
  match encode s with
  | 0 :: 0 :: 254 :: 255 :: l => decode32 true l
  | 255 :: 254 :: 0 :: 0 :: l => decode32 false l
  | 254 :: 255 :: l => decode16 true l
  | 255 :: 254 :: l => decode16 false l
  | 239 :: 187 :: 191 :: l => utf8_text (decode_bytes l)
  | 0 :: 0 :: _ :: _ :: _ => decode32 true (encode s)
  | 0 :: _ :: _ :: _ :: _ => decode16 true (encode s)
  | _ :: 0 :: 0 :: 0 :: _ => decode32 false (encode s)
  | _ :: 0 :: _ :: _ :: _ => decode16 false (encode s)
  | [0; _] => decode16 true (encode s)
  | [_; 0] => decode16 false (encode s)
  | _ => utf8_text s
  end.

Section frames.
Context {FT : FloatText} {FI : FloatInt}.

(** [json.loads(data)] *)
Definition loads_bytes (s : string) : option json := t ← decode_json s; loads false t.

(** ** Frames *)

Definition MAGIC : string := "FWSPOOL1".
Definition BATCH_MAGIC : string := "FWSPOOLB".
Definition MAX_BATCH : Z := 4096.

(** [frame]: the pieces, the digest last; [None] where [encode] or [struct.pack] raises. *)
Definition frame (doc : Doc) (bodies : list string) : option (list string) :=
  let header := dumps (JObj doc) in
  if utf8_valid header then
    size ← pack 4 (len header);
    let pieces := (MAGIC +:+ size) :: header :: bodies in
    Some (pieces ++ [digest (concat_bytes pieces)])
  else None.

(** [CorruptRecordError]: the headers that did parse. *)
Definition unframe (data : string) : (Doc * string) + list Doc :=
  if (len data <? 44) || negb (bool_decide (slice 0 8 data = MAGIC)) then inr []
  else
    let size := unpack (slice 8 12 data) in
    let end_ := len data - 32 in
    match (if 12 + size <=? end_ then loads_bytes (slice 12 (12 + size) data) else None) with
    | Some (JObj doc) =>
        if negb (bool_decide (digest (slice 0 end_ data) = slice end_ (len data) data))
           || negb (valid_header doc (end_ - 12 - size))
        then inr [doc]
        else inl (doc, slice (12 + size) end_ data)
    | _ => inr []
    end.

(** [batch_frame] *)
Fixpoint batch_pieces (frames : list (list string)) : option (list string) :=
  match frames with
  | [] => Some []
  | pieces :: frames =>
      size ← pack 8 (len (concat_bytes pieces)); rest ← batch_pieces frames; Some (size :: pieces ++ rest)
  end.
Definition batch_frame (frames : list (list string)) : option (list string) :=
  count ← pack 4 (Z.of_nat (length frames)); rest ← batch_pieces frames;
  let pieces := (BATCH_MAGIC +:+ count) :: rest in
  Some (pieces ++ [digest (concat_bytes pieces)]).

(** The loop of [unframe_all] over at most [n] records: what was read and where it stopped,
    or the headers read when a frame did not verify. *)
Fixpoint unframe_batch (n : nat) (data : string) (end_ offset : Z) (records : list (Doc * string))
    : (list (Doc * string) * Z) + list Doc :=
  match n with
  | O => inl (records, offset)
  | S n =>
      if end_ <=? offset then inl (records, offset)
      else
        let size := unpack (slice offset (offset + 8) data) in
        if end_ <? offset + 8 + size then inl (records, offset)
        else match unframe (slice (offset + 8) (offset + 8 + size) data) with
             | inl record => unframe_batch n data end_ (offset + 8 + size) (records ++ [record])
             | inr docs => inr (records.*1 ++ docs)
             end
  end.

(** [unframe_all] *)
Definition unframe_all (data : string) : list (Doc * string) + list Doc :=
  if negb (bool_decide (slice 0 8 data = BATCH_MAGIC)) then
    match unframe data with inl record => inl [record] | inr docs => inr docs end
  else if len data <? 12 then inr []
  else
    let end_ := len data - 32 in
    let count := unpack (slice 8 12 data) in
    match unframe_batch (Z.to_nat (Z.min count MAX_BATCH)) data end_ 12 [] with
    | inr docs => inr docs
    | inl (records, offset) =>
        if negb (bool_decide (digest (slice 0 end_ data) = slice end_ (len data) data))
           || negb (offset =? end_) || negb (Z.of_nat (length records) =? count)
           || negb ((1 <=? count) && (count <=? MAX_BATCH))
        then inr records.*1
        else inl records
    end.

(** ** The envelope *)

Definition ENVELOPE_MAGIC : string := "FWSPENC1".
Definition KID_LEN : Z := 12.
Definition NONCE_LEN : Z := 12.
Definition TAG_LEN : Z := 16.

(** The [AESGCM] of a key; [decrypt] raises [InvalidTag] for [None]. *)
Record Cipher := mk_cipher {
  encrypt : string → string → string → string;
  decrypt : string → string → string → option string;
}.

(** What reading a record file may raise. *)
Inductive read_error :=
  | Corrupt (docs : list Doc)
  | Plaintext (docs : list Doc)   (** a [CorruptRecordError] too *)
  | Undecryptable.

Definition aad (kid name : string) : string := ENVELOPE_MAGIC +:+ kid +:+ name.

(** [unseal]; [key] is the cipher and the key id of a spool with a key. *)
Definition unseal (data name : string) (key : option (Cipher * string)) : string + read_error :=
  let head := len ENVELOPE_MAGIC in
  if negb (bool_decide (slice 0 head data = ENVELOPE_MAGIC)) then
    match key with
    | None => inl data
    | Some _ => inr (Plaintext (match unframe_all data with inl ((doc, _) :: _) => [doc] | _ => [] end))
    end
  else
    let kid := slice head (head + KID_LEN) data in
    match key with
    | Some (cipher, key_id) =>
        if negb (bool_decide (kid = key_id)) then inr Undecryptable
        else if len data <? head + KID_LEN + NONCE_LEN + TAG_LEN then inr (Corrupt [])
        else
          let nonce := slice (head + KID_LEN) (head + KID_LEN + NONCE_LEN) data in
          match decrypt cipher nonce (slice (head + KID_LEN + NONCE_LEN) (len data) data) (aad kid name) with
          | Some text => inl text
          | None => inr (Corrupt [])
          end
    | None => inr Undecryptable
    end.

(** [Spool._seal] *)
Definition seal_pieces (cipher : Cipher) (key_id nonce name : string) (pieces : list string) : list string :=
  [ENVELOPE_MAGIC; key_id; nonce; encrypt cipher nonce (concat_bytes pieces) (aad key_id name)].

(** What the drainer makes of a file: [unframe_all(self.spool.read(name))]. *)
Definition read_records (data name : string) (key : option (Cipher * string)) : list (Doc * string) + read_error :=
  match unseal data name key with
  | inl text => match unframe_all text with inl records => inl records | inr docs => inr (Corrupt docs) end
  | inr e => inr e
  end.
End frames.

(** ** Slices of concatenations *)

Lemma len_app s t : len (s +:+ t) = len s + len t.
Proof. unfold len. rewrite length_string_app. lia. Qed.

Lemma substring_app a b c : String.substring (String.length a) (String.length b) (a +:+ b +:+ c) = b.
Proof.
  induction a as [|x a IH]; simpl; [|exact IH]. induction b as [|y b IH]; simpl; [by destruct c|]. by rewrite IH.
Qed.

Lemma slice_mid x y a b c : x = len a → y = len a + len b → slice x y (a +:+ b +:+ c) = b.
Proof.
  intros -> ->. unfold slice, len. replace (Z.to_nat (Z.of_nat _ + _ - _)) with (String.length b) by lia.
  rewrite Nat2Z.id. apply substring_app.
Qed.

Lemma slice_end x y a b : x = len a → y = len a + len b → slice x y (a +:+ b) = b.
Proof. intros. rewrite <-(string_app_nil b) at 1. by apply slice_mid. Qed.

Lemma slice_start y b c : y = len b → slice 0 y (b +:+ c) = b.
Proof. intros. by apply (slice_mid 0 y "" b c). Qed.

Lemma concat_app l k : concat_bytes (l ++ k) = concat_bytes l +:+ concat_bytes k.
Proof. induction l as [|s l IH]; simpl; [done|]. by rewrite IH, string_app_assoc. Qed.

Lemma concat_one s : concat_bytes [s] = s.
Proof. apply string_app_nil. Qed.

(** *** Integers *)

Lemma word_be_bytes n z : word_of_bytes (be_bytes n z) = z mod 256 ^ Z.of_nat n.
Proof.
  unfold word_of_bytes. assert (∀ acc, foldl (λ acc x, acc * 256 + x) acc (be_bytes n z) =
    acc * 256 ^ Z.of_nat n + z mod 256 ^ Z.of_nat n) as H; [|apply H].
  induction n as [|n IH]; intros acc; cbn [be_bytes foldl].
  - rewrite Z.mod_1_r. lia.
  - rewrite IH, Nat2Z.inj_succ, Z.pow_succ_r, (Z.mul_comm 256), Z.rem_mul_r by lia. lia.
Qed.

Lemma length_decode b : String.length (decode_bytes b) = length b.
Proof. unfold decode_bytes. induction b as [|x b IH]; simpl; [done|]. f_equal. exact IH. Qed.

Lemma pack_Some n z s : pack n z = Some s → 0 ≤ z ∧ unpack s = z ∧ len s = Z.of_nat n.
Proof.
  unfold pack. destruct (_ && _) eqn:E; [|done]. apply andb_true_iff in E as [H1%Z.leb_le H2%Z.ltb_lt].
  intros [= <-]. unfold unpack, len. rewrite encode_decode by apply be_bytes_range.
  rewrite word_be_bytes, length_decode, length_be_bytes, Z.mod_small by lia. done.
Qed.

Lemma len_digest s : len (digest s) = 32.
Proof. unfold len, digest. by rewrite length_decode, length_sha256. Qed.

Lemma len_nonneg s : 0 ≤ len s.
Proof. unfold len. lia. Qed.

(** *** Text *)

Lemma utf8_valid_surrogates s : utf8_valid s = true → utf8_surrogates s = true.
Proof.
  assert (∀ n s, (String.length s <= n)%nat → utf8_valid s = true → utf8_surrogates s = true) as H; [|by eapply H].
  clear s. induction n as [|n IH]; intros s Hn.
  { by destruct s; [|simpl in Hn; lia]. }
  destruct s as [|a s]; [done|]. simpl in Hn. cbn [utf8_valid utf8_surrogates].
  destruct (in_range 0 127 a); [apply IH; lia|]. destruct s as [|b s]; [done|]. simpl in Hn.
  destruct (in_range 194 223 a). { rewrite !andb_true_iff. intros [? ?]. split; [done|]. apply IH; [lia|done]. }
  destruct s as [|c s]; [done|]. simpl in Hn. destruct (in_range 224 239 a).
  { rewrite !andb_true_iff. intros [[Hb Hc] Hs]. split_and!; [|done|apply IH; [lia|done]].
    case_bool_decide; [done|]. case_bool_decide; [|done]. unfold is_cont, in_range in *.
    rewrite andb_true_iff, !Z.leb_le in *. lia. }
  destruct s as [|d s]; [done|]. simpl in Hn. rewrite !andb_true_iff. intros [[[[? ?] ?] ?] ?].
  split_and!; try done. apply IH; [lia|done].
Qed.

Lemma decode_json_brace c r : byte_of_ascii c ≠ 0 →
  utf8_valid (String "{" (String c r)) = true →
  decode_json (String "{" (String c r)) = Some (String "{" (String c r)).
Proof.
  intros Hc Hu. apply utf8_valid_surrogates in Hu. unfold decode_json.
  change (encode (String "{" (String c r))) with (123 :: byte_of_ascii c :: encode r). rewrite Hu.
  pose proof (byte_of_ascii_range c) as Hr. unfold is_byte in Hr.
  destruct (byte_of_ascii c) as [|p|p]; [done| |lia]. by destruct (encode r) as [|? [|? ?]].
Qed.

Lemma decode_json_dumps d : utf8_valid (dumps (JObj d)) = true → decode_json (dumps (JObj d)) = Some (dumps (JObj d)).
Proof.
  rewrite dumps_obj. destruct (py_sort key_leb d) as [|p l].
  - intros Hu. by apply (decode_json_brace "}" "").
  - assert (∃ r, join_comma ((λ p, obj_item (p.1, dumps p.2)) <$> p :: l) +:+ "}" = String (ascii_of_byte 34) r) as [r ->].
    { rewrite fmap_cons. unfold join_comma. simpl. destruct ((λ _, _) <$> l); eexists; reflexivity. }
    intros Hu. by apply decode_json_brace.
Qed.

(** ** Reading back what was framed *)

(** The header as it is read back: its keys sorted. *)
Definition canon_doc (d : list (string * json)) : list (string * json) := py_sort key_leb ((λ p, (p.1, canon p.2)) <$> d).

Section roundtrip.
Context {FT : FloatText} {FI : FloatInt}.

Lemma loads_bytes_dumps d :
  plain (JObj d) = true → utf8_valid (dumps (JObj d)) = true → loads_bytes (dumps (JObj d)) = Some (JObj (canon_doc d)).
Proof.
  intros Hp Hu. unfold loads_bytes. rewrite decode_json_dumps by done. cbn [mbind option_bind]. by rewrite loads_dumps.
Qed.

(** A record that can be framed, and that its reader accepts. *)
Definition framed (doc : Doc) (bodies : list string) (pieces : list string) : Prop :=
  frame doc bodies = Some pieces ∧ plain (JObj doc) = true ∧
  valid_header (canon_doc doc) (len (concat_bytes bodies)) = true.

Lemma unframe_parts doc header size blob :
  pack 4 (len header) = Some size → loads_bytes header = Some (JObj doc) → valid_header doc (len blob) = true →
  let P := (MAGIC +:+ size) +:+ header +:+ blob in unframe (P +:+ digest P) = inl (doc, blob).
Proof.
  intros (_ & Hsize & Hlen)%pack_Some Hh Hv P.
  assert (len (MAGIC +:+ size) = 12) as H12 by (rewrite len_app, Hlen; done).
  assert (len P = 12 + len header + len blob) as HP by (unfold P; rewrite !len_app, Hlen; simpl; change (len MAGIC) with 8; lia).
  pose proof (len_digest P) as HD. pose proof (len_nonneg blob). pose proof (len_nonneg header). unfold unframe.
  rewrite len_app, HD, HP. replace (_ <? 44) with false by (symmetry; apply Z.ltb_ge; lia).
  assert (slice 0 8 (P +:+ digest P) = MAGIC) as ->.
  { unfold P. rewrite !string_app_assoc. by apply slice_start. }
  rewrite bool_decide_eq_true_2 by done. cbn [orb negb].
  assert (slice 8 12 (P +:+ digest P) = size) as ->.
  { unfold P. rewrite !string_app_assoc. apply slice_mid; [done|]. rewrite Hlen. done. }
  rewrite Hsize. replace (12 + len header + len blob + 32 - 32) with (len P) by lia.
  replace (12 + len header <=? len P) with true by (symmetry; apply Z.leb_le; lia).
  assert (slice 12 (12 + len header) (P +:+ digest P) = header) as ->.
  { unfold P. rewrite (string_app_assoc _ (header +:+ blob)), (string_app_assoc header). apply slice_mid; rewrite H12; lia. }
  rewrite Hh. cbn iota.
  assert (slice (12 + len header) (len P) (P +:+ digest P) = blob) as ->.
  { unfold P at 2. rewrite <-(string_app_assoc _ header blob), (string_app_assoc _ blob).
    apply slice_mid; rewrite len_app, H12; lia. }
  rewrite (slice_start (len P) P) by done.
  rewrite (slice_end (len P)) by lia. rewrite bool_decide_eq_true_2 by done.
  replace (len P - 12 - len header) with (len blob) by lia. by rewrite Hv.
Qed.

Lemma unframe_frame doc bodies pieces :
  framed doc bodies pieces → unframe (concat_bytes pieces) = inl (canon_doc doc, concat_bytes bodies).
Proof.
  intros (Hf & Hp & Hv). unfold frame in Hf.
  destruct (utf8_valid _) eqn:Hu; [|done]. destruct (pack 4 _) as [size|] eqn:Es; [|done].
  apply Some_inj in Hf as <-. rewrite concat_app, concat_one.
  apply (unframe_parts _ (dumps (JObj doc))); [done|by apply loads_bytes_dumps|done].
Qed.

(** The frames of a batch. *)
Definition Frames : Type := list (Doc * list string * list string).

Lemma unframe_batch_frames (l : Frames) n pre tail rest offset records end_ :
  Forall (λ r, framed r.1.1 r.1.2 r.2) l →
  batch_pieces l.*2 = Some rest → offset = len pre → end_ = len pre + len (concat_bytes rest) →
  (length l <= n)%nat →
  unframe_batch n (pre +:+ concat_bytes rest +:+ tail) end_ offset records =
    inl (records ++ ((λ r, (canon_doc r.1.1, concat_bytes r.1.2)) <$> l), end_).
Proof.
  intros Hl. revert n pre rest offset records. induction Hl as [|[[doc bodies] pieces] l Hr Hl IH];
    intros n pre rest offset records Hrest -> Hend Hn.
  - injection Hrest as <-. change (len (concat_bytes [])) with 0 in Hend. rewrite fmap_nil, app_nil_r.
    destruct n; cbn [unframe_batch]; [do 2 f_equal; lia|].
    replace (end_ <=? len pre) with true by (symmetry; apply Z.leb_le; lia). do 2 f_equal. lia.
  - rewrite fmap_cons in Hrest. cbn [batch_pieces snd] in Hrest.
    destruct (pack 8 _) as [size|] eqn:Es; [|done]. destruct (batch_pieces l.*2) as [k|] eqn:Ek; [|done].
    injection Hrest as <-. apply pack_Some in Es as (_ & Hsize & Hlen). simpl in Hn. destruct n as [|n]; [lia|].
    cbn [concat_bytes] in *. rewrite concat_app in *. cbn [unframe_batch].
    set (file := concat_bytes pieces) in *. set (more := concat_bytes k) in *.
    rewrite !len_app, Hlen in Hend. pose proof (len_nonneg file). pose proof (len_nonneg more).
    replace (end_ <=? len pre) with false by (symmetry; apply Z.leb_gt; lia).
    rewrite !string_app_assoc. rewrite (slice_mid (len pre) (len pre + 8) pre size) by lia.
    rewrite Hsize. replace (end_ <? len pre + 8 + len file) with false by (symmetry; apply Z.ltb_ge; lia).
    rewrite <-(string_app_assoc pre), (slice_mid (len pre + 8) (len pre + 8 + len file) (pre +:+ size) file)
      by (rewrite len_app; lia).
    unfold file at 1. rewrite (unframe_frame doc bodies pieces) by done.
    rewrite <-(string_app_assoc (pre +:+ size)). unfold more.
    rewrite (IH n ((pre +:+ size) +:+ file) k); [by rewrite <-app_assoc|done|..].
    + rewrite !len_app, Hlen. lia.
    + rewrite !len_app, Hlen. fold more. lia.
    + lia.
Qed.

Lemma unframe_all_one doc bodies pieces :
  framed doc bodies pieces → unframe_all (concat_bytes pieces) = inl [(canon_doc doc, concat_bytes bodies)].
Proof.
  intros H. pose proof (unframe_frame _ _ _ H) as Hu. destruct H as [Hf _]. unfold unframe_all.
  unfold frame in Hf. destruct (utf8_valid _); [|done]. destruct (pack 4 _) as [size|]; [|done]. apply Some_inj in Hf as <-.
  assert (∀ s, slice 0 8 ((MAGIC +:+ size) +:+ s) = MAGIC) as Hs.
  { intros s. rewrite string_app_assoc. by apply slice_start. }
  simpl app. cbn [concat_bytes]. rewrite Hs. rewrite bool_decide_eq_false_2 by done. cbn [negb].
  simpl app in Hu. cbn [concat_bytes] in Hu. by rewrite Hu.
Qed.

Lemma unframe_all_batch (l : Frames) pieces :
  Forall (λ r, framed r.1.1 r.1.2 r.2) l → l ≠ [] → Z.of_nat (length l) ≤ MAX_BATCH →
  batch_frame l.*2 = Some pieces →
  unframe_all (concat_bytes pieces) = inl ((λ r, (canon_doc r.1.1, concat_bytes r.1.2)) <$> l).
Proof.
  intros Hl Hne Hmax Hb. unfold batch_frame in Hb. rewrite length_fmap in Hb.
  destruct (pack 4 _) as [count|] eqn:Ec; [|done]. destruct (batch_pieces l.*2) as [rest|] eqn:Er; [|done].
  apply Some_inj in Hb as <-. apply pack_Some in Ec as (_ & Hcount & Hlen).
  rewrite concat_app, concat_one. change (concat_bytes ((BATCH_MAGIC +:+ count) :: rest)) with
    ((BATCH_MAGIC +:+ count) +:+ concat_bytes rest).
  set (P := (BATCH_MAGIC +:+ count) +:+ concat_bytes rest).
  assert (len (BATCH_MAGIC +:+ count) = 12) as H12 by (rewrite len_app, Hlen; done).
  assert (len P = 12 + len (concat_bytes rest)) as HP by (unfold P; rewrite len_app, H12; done).
  pose proof (len_digest P) as HD. pose proof (len_nonneg (concat_bytes rest)). unfold unframe_all.
  assert (slice 0 8 (P +:+ digest P) = BATCH_MAGIC) as ->.
  { unfold P. rewrite !string_app_assoc. by apply slice_start. }
  rewrite bool_decide_eq_true_2 by done. cbn [negb]. rewrite len_app, HD, HP.
  replace (_ <? 12) with false by (symmetry; apply Z.ltb_ge; lia).
  assert (slice 8 12 (P +:+ digest P) = count) as ->.
  { unfold P. rewrite !string_app_assoc. apply slice_mid; [done|]. rewrite Hlen. done. }
  rewrite Hcount. replace (12 + len (concat_bytes rest) + 32 - 32) with (len P) by lia.
  assert (unframe_batch (Z.to_nat (Z.min (Z.of_nat (length l)) MAX_BATCH)) (P +:+ digest P) (len P) 12 [] =
    inl ([] ++ ((λ r, (canon_doc r.1.1, concat_bytes r.1.2)) <$> l), len P)) as ->.
  { unfold P. rewrite string_app_assoc. apply unframe_batch_frames; [done|done|by rewrite H12| |lia].
    by rewrite len_app. }
  rewrite (slice_start (len P) P) by done. rewrite (slice_end (len P)) by lia.
  rewrite bool_decide_eq_true_2 by done. rewrite Z.eqb_refl, app_nil_l, length_fmap, Z.eqb_refl.
  assert (1 <= length l)%nat by (destruct l; [done|simpl; lia]).
  replace (1 <=? Z.of_nat (length l)) with true by (symmetry; apply Z.leb_le; lia).
  by replace (Z.of_nat (length l) <=? MAX_BATCH) with true by (symmetry; apply Z.leb_le; lia).
Qed.
End roundtrip.

(** ** Cutting a string *)

Lemma substring_split a b n s : (n + a + b <= String.length s)%nat →
  String.substring n (a + b) s = String.substring n a s +:+ String.substring (n + a) b s.
Proof.
  revert a n. induction s as [|c s IH]; intros a n; simpl; intros H.
  - assert (n = 0 ∧ a = 0 ∧ b = 0)%nat as (-> & -> & ->) by lia. done.
  - destruct n as [|n]; simpl.
    + destruct a as [|a]; simpl; [done|]. f_equal. exact (IH a 0%nat ltac:(lia)).
    + apply IH. lia.
Qed.

Lemma slice_join x y z s : 0 ≤ x ≤ y → y ≤ z ≤ len s → slice x z s = slice x y s +:+ slice y z s.
Proof.
  intros H1 H2. unfold slice, len in *.
  replace (Z.to_nat (z - x)) with (Z.to_nat (y - x) + Z.to_nat (z - y))%nat by lia.
  rewrite substring_split by lia. do 2 f_equal. lia.
Qed.

Lemma slice_all s : slice 0 (len s) s = s.
Proof. rewrite <-(string_app_nil s) at 2. by apply slice_start. Qed.

Lemma len_slice x y s : 0 ≤ x ≤ y → y ≤ len s → len (slice x y s) = y - x.
Proof.
  intros H1 H2. unfold slice, len in *. assert (∀ n m s, (n + m <= String.length s)%nat →
    String.length (String.substring n m s) = m) as H.
  { clear. intros n m s. revert n m. induction s as [|c s IH]; intros [|n] [|m]; simpl; intros H; try lia.
    - f_equal. apply (IH 0%nat). lia.
    - apply IH. lia.
    - apply IH. lia. }
  rewrite H by lia. lia.
Qed.

Lemma slice_slice x y a s : 0 ≤ x ≤ y → y ≤ a → a ≤ len s → slice x y (slice 0 a s) = slice x y s.
Proof.
  intros H1 H2 H3.
  rewrite <-(slice_all s) at 2. rewrite (slice_join 0 a (len s) s) by lia.
  assert (len (slice 0 a s) = a) as Hp by (rewrite len_slice; lia). set (p := slice 0 a s) in *. clearbody p.
  rewrite <-(slice_all p) at 2. rewrite (slice_join 0 y (len p) p) by lia.
  rewrite (slice_join 0 x y p) by lia.
  rewrite !string_app_assoc. symmetry. apply slice_mid; rewrite !len_slice; lia.
Qed.

Lemma unpack_bound s : 0 ≤ unpack s < 256 ^ len s.
Proof.
  unfold unpack, word_of_bytes, len. assert (∀ b, Forall is_byte b → ∀ acc, 0 ≤ acc →
    0 ≤ foldl (λ acc x, acc * 256 + x) acc b < (acc + 1) * 256 ^ Z.of_nat (length b)) as H.
  { induction 1 as [|x b Hx Hb IH]; intros acc Hacc; cbn [foldl length].
    - change (256 ^ Z.of_nat 0) with 1. lia.
    - unfold is_byte in Hx. specialize (IH (acc * 256 + x) ltac:(lia)). rewrite Nat2Z.inj_succ, Z.pow_succ_r by lia.
      pose proof (Z.pow_pos_nonneg 256 (Z.of_nat (length b)) ltac:(lia) ltac:(lia)). nia. }
  assert (length (encode s) = String.length s) as Hl.
  { unfold encode. rewrite length_fmap. induction s; simpl; congruence. }
  pose proof (H (encode s) (encode_bytes s) 0 ltac:(lia)) as Hb. rewrite Hl in Hb. lia.
Qed.

Lemma be_bytes_word b : Forall is_byte b → be_bytes (length b) (word_of_bytes b) = b.
Proof.
  unfold word_of_bytes. intros Hb. assert (∀ acc, be_bytes (length b) (foldl (λ acc x, acc * 256 + x) acc b) = b) as H; [|apply H].
  induction Hb as [|x b Hx Hb IH]; intros acc; [done|]. cbn [length be_bytes foldl]. f_equal; [|apply IH].
  clear IH. assert (∀ acc, foldl (λ acc x, acc * 256 + x) acc b / 256 ^ Z.of_nat (length b) = acc) as H.
  { clear -Hb. induction Hb as [|x b Hx Hb IH]; intros acc; [apply Z.div_1_r|]. cbn [foldl length]. unfold is_byte in Hx.
    rewrite Nat2Z.inj_succ, Z.pow_succ_r, (Z.mul_comm 256) by lia. rewrite <-Z.div_div by lia. rewrite IH.
    rewrite Z.div_add_l by lia. rewrite Z.div_small by lia. lia. }
  rewrite H. unfold is_byte in Hx. rewrite Z.add_comm, Z.mod_add by lia. apply Z.mod_small. lia.
Qed.

Lemma pack_unpack n s : len s = Z.of_nat n → pack n (unpack s) = Some s.
Proof.
  intros Hn. pose proof (unpack_bound s) as Hb. unfold pack. rewrite Hn in Hb.
  replace (0 <=? unpack s) with true by (symmetry; apply Z.leb_le; lia).
  replace (unpack s <? _) with true by (symmetry; apply Z.ltb_lt; lia). simpl. f_equal. unfold unpack.
  assert (n = length (encode s)) as ->.
  { unfold len in Hn. apply Nat2Z.inj in Hn. rewrite <-Hn. unfold encode. rewrite length_fmap. clear. induction s; simpl; congruence. }
  rewrite be_bytes_word by apply encode_bytes. apply decode_encode.
Qed.

(** ** The theorems *)

Section theorems.
Context {FT : FloatText} {FI : FloatInt}.

Lemma cut_frame data : 44 ≤ len data → let end_ := len data - 32 in
  let size := unpack (slice 8 12 data) in 12 + size ≤ end_ →
  data = (slice 0 8 data +:+ slice 8 12 data) +:+ slice 12 (12 + size) data +:+ slice (12 + size) end_ data
           +:+ slice end_ (len data) data ∧
  slice 0 end_ data = (slice 0 8 data +:+ slice 8 12 data) +:+ slice 12 (12 + size) data +:+ slice (12 + size) end_ data.
Proof.
  intros Hl end_ size Hs. pose proof (unpack_bound (slice 8 12 data)) as [Hb _]. fold size in Hb.
  assert (end_ = len data - 32) as He by done. clearbody end_ size.
  assert (slice 0 end_ data = (slice 0 8 data +:+ slice 8 12 data) +:+ slice 12 (12 + size) data +:+ slice (12 + size) end_ data) as Hp.
  { rewrite <-(slice_join 0 8 12), <-(slice_join 12 (12 + size) end_), <-(slice_join 0 12 end_) by lia. done. }
  split; [|done]. rewrite <-(slice_all data) at 1. rewrite (slice_join 0 end_ (len data)), Hp, !string_app_assoc by lia. done.
Qed.

(** A record is read from exactly the bytes of a frame: the magic, the length of the
    header, a header that parses and passes the check, the bodies, and the digest of all of
    it. *)
Theorem unframe_exact (data : string) (doc : Doc) (blob : string) :
  unframe data = inl (doc, blob) ↔
  ∃ header size, pack 4 (len header) = Some size ∧ loads_bytes header = Some (JObj doc) ∧
    valid_header doc (len blob) = true ∧
    data = (MAGIC +:+ size +:+ header +:+ blob) +:+ digest (MAGIC +:+ size +:+ header +:+ blob).
Proof.
  split.
  - unfold unframe. destruct (_ || _) eqn:E; [done|]. apply orb_false_iff in E as [Hl%Z.ltb_ge Hm].
    apply negb_false_iff, bool_decide_eq_true in Hm. set (size := unpack (slice 8 12 data)).
    destruct (Z.leb_spec (12 + size) (len data - 32)) as [Hs|]; [|done].
    destruct (loads_bytes _) as [[| | | | | |d]|] eqn:Eh; try done.
    destruct (_ || _) eqn:E; [done|]. apply orb_false_iff in E as [Hd Hv]. intros [= <- <-].
    apply negb_false_iff in Hd, Hv. apply bool_decide_eq_true in Hd.
    pose proof (unpack_bound (slice 8 12 data)) as [Hb _]. fold size in Hb.
    destruct (cut_frame data Hl Hs) as [Hdata Hstart]. fold size in Hdata, Hstart.
    exists (slice 12 (12 + size) data), (slice 8 12 data). split_and!.
    + rewrite len_slice by lia. replace (12 + size - 12) with size by lia. apply pack_unpack. by rewrite len_slice by lia.
    + done.
    + rewrite len_slice by lia. by replace (len data - 32 - (12 + size)) with (len data - 32 - 12 - size) by lia.
    + rewrite Hdata at 1. rewrite <-Hd, Hstart, Hm. by rewrite !string_app_assoc.
  - intros (header & size & Hp & Hh & Hv & ->). rewrite <-(string_app_assoc MAGIC size). by apply unframe_parts.
Qed.

(** The bytes of the file that [write_group] and [write_batch] make of some records. *)
Definition file_pieces (l : Frames) (pieces : list string) : Prop :=
  batch_frame l.*2 = Some pieces ∨ ∃ r, l = [r] ∧ pieces = r.2.

Definition file_bytes (key : option (Cipher * string)) (nonce name : string) (pieces : list string) : string :=
  match key with
  | None => concat_bytes pieces
  | Some (cipher, key_id) => concat_bytes (seal_pieces cipher key_id nonce name pieces)
  end.

(** What AES-GCM promises, and the lengths of a key id and a nonce. *)
Definition key_ok (key : option (Cipher * string)) (nonce : string) : Prop :=
  match key with
  | None => True
  | Some (cipher, key_id) =>
      len key_id = KID_LEN ∧ len nonce = NONCE_LEN ∧
      (∀ n d a, decrypt cipher n (encrypt cipher n d a) a = Some d) ∧ (∀ n d a, TAG_LEN ≤ len (encrypt cipher n d a))
  end.

Lemma unframe_all_file l pieces :
  Forall (λ r, framed r.1.1 r.1.2 r.2) l → l ≠ [] → Z.of_nat (length l) ≤ MAX_BATCH → file_pieces l pieces →
  unframe_all (concat_bytes pieces) = inl ((λ r, (canon_doc r.1.1, concat_bytes r.1.2)) <$> l).
Proof.
  intros Hl Hne Hmax [Hb|([[doc bodies] fr] & -> & ->)]; [by apply unframe_all_batch|].
  apply (proj1 (Forall_singleton _ _)) in Hl. by apply unframe_all_one.
Qed.

(** A file without the envelope does not start like one. *)
Lemma file_no_envelope l pieces :
  Forall (λ r, framed r.1.1 r.1.2 r.2) l → file_pieces l pieces → slice 0 8 (concat_bytes pieces) ≠ ENVELOPE_MAGIC.
Proof.
  intros Hl [Hb|([[doc bodies] fr] & -> & ->)].
  - unfold batch_frame in Hb. destruct (pack 4 _) as [count|]; [|done]. destruct (batch_pieces _) as [rest|]; [|done].
    apply Some_inj in Hb as <-. cbn [app concat_bytes]. rewrite string_app_assoc.
    by rewrite (slice_start 8 BATCH_MAGIC).
  - apply (proj1 (Forall_singleton _ _)) in Hl as [Hf _]. unfold frame in Hf. cbn [fst snd] in *. destruct (utf8_valid _); [|done].
    destruct (pack 4 _) as [size|]; [|done]. apply Some_inj in Hf as <-. cbn [app concat_bytes].
    rewrite string_app_assoc. by rewrite (slice_start 8 MAGIC).
Qed.

Lemma unseal_file l pieces name key nonce :
  Forall (λ r, framed r.1.1 r.1.2 r.2) l → file_pieces l pieces → key_ok key nonce →
  unseal (file_bytes key nonce name pieces) name key = inl (concat_bytes pieces).
Proof.
  intros Hl Hp Hk. unfold unseal, file_bytes. destruct key as [[cipher key_id]|].
  - destruct Hk as (Hkid & Hnonce & Hdec & Htag). unfold seal_pieces. cbn [concat_bytes]. rewrite string_app_nil.
    set (ct := encrypt _ _ _ _). pose proof (Htag nonce (concat_bytes pieces) (aad key_id name)) as Hct. fold ct in Hct.
    change (len ENVELOPE_MAGIC) with 8. unfold KID_LEN, NONCE_LEN, TAG_LEN in *.
    rewrite (slice_start 8 ENVELOPE_MAGIC) by done. rewrite bool_decide_eq_true_2 by done. cbn [negb].
    rewrite (slice_mid 8 (8 + 12) ENVELOPE_MAGIC key_id) by (done || by rewrite Hkid).
    rewrite bool_decide_eq_true_2 by done. cbn [negb].
    assert (len (ENVELOPE_MAGIC +:+ key_id +:+ nonce +:+ ct) = 32 + len ct) as Hlen.
    { rewrite !len_app, Hkid, Hnonce. change (len ENVELOPE_MAGIC) with 8. lia. }
    rewrite Hlen. replace (_ <? _) with false by (symmetry; apply Z.ltb_ge; lia).
    rewrite <-(string_app_assoc ENVELOPE_MAGIC key_id). assert (len (ENVELOPE_MAGIC +:+ key_id) = 20) as H20 by (rewrite len_app, Hkid; done).
    rewrite (slice_mid (8 + 12) (8 + 12 + 12) (ENVELOPE_MAGIC +:+ key_id) nonce) by (rewrite H20, ?Hnonce; done).
    rewrite <-(string_app_assoc _ nonce ct). rewrite (slice_end (8 + 12 + 12) (32 + len ct)) by (rewrite len_app, H20, Hnonce; lia).
    unfold ct. by rewrite Hdec.
  - rewrite bool_decide_eq_false_2; [done|]. by eapply file_no_envelope.
Qed.

(** C34: A record file gives back what was written to it, one record or a batch, in the
    clear or sealed under the spool's key: every header with its keys sorted, and the bytes
    of every record's bodies. *)
Theorem record_file_roundtrip (l : Frames) (pieces : list string) (name nonce : string) (key : option (Cipher * string)) :
  Forall (λ r, framed r.1.1 r.1.2 r.2) l → l ≠ [] → Z.of_nat (length l) ≤ MAX_BATCH → file_pieces l pieces →
  key_ok key nonce →
  read_records (file_bytes key nonce name pieces) name key =
    inl ((λ r, (canon_doc r.1.1, concat_bytes r.1.2)) <$> l).
Proof.
  intros Hl Hne Hmax Hp Hk. unfold read_records. rewrite (unseal_file l) by done. by rewrite (unframe_all_file l).
Qed.

(** C35: A spool with a key reads a record only out of an envelope: whatever is on disk, what
    it reads was decrypted under its own key and key id with the name of the file
    authenticated; a frame in the clear is refused as corrupt, and another key's record is
    left alone. *)
Theorem sealed_spool_reads_sealed (data name key_id : string) (cipher : Cipher) :
  len key_id = KID_LEN →
  match read_records data name (Some (cipher, key_id)) with
  | inl records => ∃ nonce text sealed, data = ENVELOPE_MAGIC +:+ key_id +:+ nonce +:+ sealed ∧
      len nonce = NONCE_LEN ∧ decrypt cipher nonce sealed (ENVELOPE_MAGIC +:+ key_id +:+ name) = Some text ∧
      unframe_all text = inl records
  | inr (Plaintext _) => slice 0 8 data ≠ ENVELOPE_MAGIC
  | inr Undecryptable => slice 0 8 data = ENVELOPE_MAGIC ∧ slice 8 20 data ≠ key_id
  | inr (Corrupt _) => slice 0 8 data = ENVELOPE_MAGIC ∧ slice 8 20 data = key_id
  end.
Proof.
  intros Hkid. unfold read_records, unseal. change (len ENVELOPE_MAGIC) with 8. unfold KID_LEN, NONCE_LEN, TAG_LEN in *.
  change (8 + 12) with 20. change (20 + 12) with 32. change (32 + 16) with 48.
  destruct (decide (slice 0 8 data = ENVELOPE_MAGIC)) as [Hm|Hm]; cycle 1.
  { by rewrite bool_decide_eq_false_2. }
  rewrite bool_decide_eq_true_2 by done. cbn [negb].
  destruct (decide (slice 8 20 data = key_id)) as [Hk|Hk]; cycle 1.
  { by rewrite bool_decide_eq_false_2. }
  rewrite bool_decide_eq_true_2 by done. cbn [negb].
  destruct (Z.ltb_spec (len data) 48) as [|Hl]; [done|].
  destruct (decrypt _ _ _ _) as [text|] eqn:Ed; [|done]. destruct (unframe_all text) as [records|docs] eqn:Eu; [|done].
  exists (slice 20 32 data), text, (slice 32 (len data) data). split_and!; [|by rewrite len_slice by lia| |done].
  - rewrite <-Hm, <-Hk, <-!slice_join by lia. by rewrite slice_all.
  - unfold aad in Ed. by rewrite Hk in Ed.
Qed.
End theorems.

(** ** Instances *)

Definition no_float_texts : FloatText := λ s, s.
Definition no_float_ints : FloatInt := λ _, None.

(** A cipher that hides nothing and authenticates nothing, with the laws of one that does. *)
Definition open_cipher : Cipher :=
  mk_cipher (λ _ text _, text +:+ "0123456789abcdef")
    (λ _ sealed _, Some (String.substring 0 (String.length sealed - 16) sealed)).

Lemma open_cipher_ok key_id nonce : len key_id = KID_LEN → len nonce = NONCE_LEN → key_ok (Some (open_cipher, key_id)) nonce.
Proof.
  intros Hk Hn. split_and!; [done|done| |].
  - intros n d a. simpl. rewrite length_string_app. simpl.
    replace (String.length d + 16 - 16)%nat with (String.length d) by lia. f_equal. apply (substring_app "" d).
  - intros n d a. simpl. rewrite len_app. pose proof (len_nonneg d). change (len _) with 16 at 2. unfold TAG_LEN. lia.
Qed.

Definition demo_loss : Doc :=
  stamp 0 1700000000000000000
    (loss_doc (("src-1", 7, LossTable.queue_full, [Some "seg-00000000000000000000000000000001"]), LossTable.mk_range 3 5 9)).
Definition demo_exchange : Doc :=
  stamp 1 1700000000000000001
    (exchange_doc "src-1" 7 "svc"
      [("trace_id", JStr "0000000000000000000000000000000a"); ("span_id", JStr "000000000000000b");
       ("start_time_unix_nano", JInt 1); ("end_time_unix_nano", JInt 2); ("trace_flags", JInt 1);
       ("status", JStr "unset");
       ("attributes", JObj [("fabric.source_id", JStr "src-1"); ("fabric.source.sequence", JInt 6)])]
      [([("object_id", JStr "o1"); ("stored_byte_length", JInt 5)], "hello"); ([("status", JStr "not_captured")], "")]).

Definition demo_frames : Frames :=
  (λ r, (r, default [] (frame r.1 r.2))) <$> ([(demo_loss, []); (demo_exchange, ["hello"; ""])] : list (Doc * list string)).

Definition demo_pieces : list string := default [] (batch_frame demo_frames.*2).

Lemma demo_framed : Forall (λ r, @framed no_float_ints r.1.1 r.1.2 r.2) demo_frames.
Proof. repeat constructor; vm_compute; reflexivity. Qed.

Lemma record_file_roundtrip_witness :
  @read_records no_float_texts no_float_ints
    (file_bytes (Some (open_cipher, "kid-0a1b2c3d")) "abcdefghijkl" "r.rec" demo_pieces) "r.rec"
    (Some (open_cipher, "kid-0a1b2c3d")) =
  inl [(canon_doc demo_loss, ""); (canon_doc demo_exchange, "hello")].
Proof.
  rewrite (@record_file_roundtrip no_float_texts no_float_ints demo_frames demo_pieces).
  - reflexivity.
  - exact demo_framed.
  - discriminate.
  - vm_compute. discriminate.
  - left. vm_compute. reflexivity.
  - apply open_cipher_ok; reflexivity.
Defined.

(** The same file in the clear is refused by a spool with a key. *)
Lemma sealed_spool_reads_sealed_witness :
  slice 0 8 (file_bytes None "" "r.rec" demo_pieces) ≠ ENVELOPE_MAGIC.
Proof.
  pose proof (@sealed_spool_reads_sealed no_float_texts no_float_ints (file_bytes None "" "r.rec" demo_pieces) "r.rec"
    "kid-0a1b2c3d" open_cipher eq_refl) as H.
  assert (@read_records no_float_texts no_float_ints (file_bytes None "" "r.rec" demo_pieces) "r.rec"
    (Some (open_cipher, "kid-0a1b2c3d")) = inr (Plaintext [canon_doc demo_loss])) as E by (vm_compute; reflexivity).
  rewrite E in H. exact H.
Defined.
