(* ===== verification/SpoolEntries.v ===== *)
(** * Spool records: what is written can be read

    A header is written with its keys sorted, and [valid_header] does not look at the order of
    keys; so an entry that passes the check when it is written passes it when it is read.
    Loss entries always pass, and are read back as the range they were made from; a marker is
    checked before it is written; the bodies of an exchange tile its blob. *)

From S2P Require Import Prelude PyDict Hash Json Decimal Canonical Ids JsonRead JsonValues Tokens Markers MarkerForm LossTable SpoolHeader SpoolFrame.

(** ** Sorting the keys of a dictionary *)

Lemma canon_doc_keys d : (canon_doc d).*1 ≡ₚ d.*1.
Proof. unfold canon_doc. rewrite py_sort_Permutation, <-list_fmap_compose. done. Qed.

Lemma canon_doc_NoDup d : NoDup d.*1 → NoDup (canon_doc d).*1.
Proof. intros H. by rewrite canon_doc_keys. Qed.

Lemma canon_doc_get k d : NoDup d.*1 → dget k (canon_doc d) = canon <$> dget k d.
Proof.
  intros H. rewrite <-dget_fmap. set (c := (λ p : string * json, (p.1, canon p.2)) <$> d).
  assert (NoDup c.*1) as Hc by (unfold c; rewrite <-list_fmap_compose; exact H).
  assert (NoDup (canon_doc d).*1) as Hs by by apply canon_doc_NoDup.
  unfold canon_doc in *. fold c in Hs |- *.
  destruct (dget k c) as [v|] eqn:E.
  - apply elem_dget; [done|]. apply elem_of_py_sort. by apply dget_Some_elem.
  - apply dget_None. apply dget_None in E. by rewrite py_sort_Permutation.
Qed.

Lemma canon_obj d : canon (JObj d) = JObj (canon_doc d).
Proof. done. Qed.

(** A check that does not look at the order of keys. *)
Definition blind (p : json → bool) : Prop := ∀ v, keyed v = true → p (canon v) = p v.

Lemma blind_at k p d : keyed (JObj d) = true → blind p → at_key k p (canon_doc d) = at_key k p d.
Proof.
  intros [Hnd Hd]%keyed_obj Hp. unfold at_key. rewrite canon_doc_get by done.
  destruct (dget k d) as [v|] eqn:E; [|done]. simpl. apply Hp. eapply Hd. by apply dget_Some_elem.
Qed.

Lemma blind_if k p d : keyed (JObj d) = true → blind p → if_key k p (canon_doc d) = if_key k p d.
Proof.
  intros [Hnd Hd]%keyed_obj Hp. unfold if_key. rewrite canon_doc_get by done.
  destruct (dget k d) as [v|] eqn:E; [|done]. simpl. apply Hp. eapply Hd. by apply dget_Some_elem.
Qed.

Lemma blind_dict p : (∀ d, keyed (JObj d) = true → p (canon_doc d) = p d) → blind (dict_ok p).
Proof. intros Hp [] Hv; try done. by apply Hp. Qed.

Lemma blind_din k d : NoDup d.*1 → din k (canon_doc d) = din k d.
Proof. intros H. unfold din. rewrite canon_doc_get by done. by destruct (dget k d). Qed.

Lemma subset_in l d : subset l (canon_doc d).*1 = subset l d.*1.
Proof.
  unfold subset. induction l as [|x l IH]; simpl; [done|]. rewrite IH. f_equal. apply bool_decide_ext.
  by rewrite canon_doc_keys.
Qed.

Lemma forallb_Permutation {A} (p : A → bool) l k : l ≡ₚ k → forallb p l = forallb p k.
Proof.
  intros H. apply eq_true_iff_eq. rewrite !forallb_elem_of. by setoid_rewrite H.
Qed.

Lemma existsb_Permutation {A} (p : A → bool) l k : l ≡ₚ k → existsb p l = existsb p k.
Proof. intros H. apply eq_true_iff_eq. rewrite !existsb_elem_of. by setoid_rewrite H. Qed.

Lemma subset_keys d k : subset (canon_doc d).*1 k = subset d.*1 k.
Proof. apply forallb_Permutation, canon_doc_keys. Qed.

Lemma canon_doc_values p d : keyed (JObj d) = true → blind p → forallb p (canon_doc d).*2 = forallb p d.*2.
Proof.
  intros [_ Hd]%keyed_obj Hp. unfold canon_doc.
  rewrite (forallb_Permutation p _ (((λ p : string * json, (p.1, canon p.2)) <$> d).*2)) by by rewrite py_sort_Permutation.
  induction d as [|[k v] d IH]; [done|]. csimpl. rewrite IH; [|intros k' w Hw; apply (Hd k' w); by constructor].
  f_equal. apply Hp, (Hd k v). constructor.
Qed.

Lemma canon_doc_nil d : bool_decide (canon_doc d = []) = bool_decide (d = []).
Proof.
  apply bool_decide_ext. unfold canon_doc. split; [|by intros ->]. intros H.
  apply (f_equal length) in H. rewrite length_py_sort, length_fmap in H. by destruct d.
Qed.

(** *** Leaves *)

Lemma blind_str p : blind (str_ok p).
Proof. by intros []. Qed.
Lemma blind_int lo hi : blind (int_in lo hi).
Proof. by intros []. Qed.
Lemma blind_bool : blind is_bool.
Proof. by intros []. Qed.
Lemma blind_is_str : blind is_str.
Proof. by intros []. Qed.
Lemma blind_is_dict : blind is_dict.
Proof. by intros []. Qed.
Lemma blind_ids p lo hi : blind (ids_ok p lo hi).
Proof.
  intros [| | | | |l|] Hv; try done. simpl. rewrite length_fmap. do 1 f_equal. clear Hv.
  induction l as [|v l IH]; [done|]. csimpl. rewrite IH. f_equal. by destruct v.
Qed.
Lemma blind_scalar : blind scalar_ok.
Proof. by intros []. Qed.
Lemma blind_attribute : blind attribute_value.
Proof.
  intros [| | | | |l|] Hv; try done. unfold attribute_value. simpl. rewrite length_fmap. f_equal. clear Hv.
  induction l as [|v l IH]; [done|]. csimpl. rewrite IH. f_equal. by destruct v.
Qed.

#[export] Hint Resolve blind_str blind_int blind_bool blind_is_str blind_is_dict blind_ids blind_attribute : fabric.

(** *** Markers *)

Lemma blind_seal d : keyed (JObj d) = true → seal_ok (canon_doc d) = seal_ok d.
Proof.
  intros Hd. unfold seal_ok, one_of, int_from. rewrite subset_in, subset_keys, !blind_at, !blind_if by (done || auto with fabric).
  done.
Qed.

Lemma blind_identity d : keyed (JObj d) = true → identity_ok (canon_doc d) = identity_ok d.
Proof.
  intros Hd. unfold identity_ok. rewrite canon_doc_nil, subset_keys, canon_doc_values by (done || auto with fabric). done.
Qed.

Lemma blind_checks name : blind (MARKER_CHECKS name).
Proof.
  unfold MARKER_CHECKS, one_of, text_ok, int_from.
  assert (∀ d : list (string * (json → bool)), Forall (λ p, blind p.2) d → blind (default (λ _, false) (dget name d))) as H.
  { induction 1 as [|[k p] d Hp Hd IH]; simpl; [by intros v|]. case_decide; [exact Hp|exact IH]. }
  apply H. repeat constructor; simpl; auto with fabric; apply blind_dict; [apply blind_identity|apply blind_seal].
Qed.

Section check.
Context {FI : FloatInt}.

Lemma equals_int_canon z v : equals_int z (canon v) = equals_int z v.
Proof. by destruct v. Qed.
Lemma equals_scalar_canon v w : equals_scalar (canon v) (canon w) = equals_scalar v w.
Proof. by destruct v, w. Qed.

Lemma canon_get k d : NoDup d.*1 → get k (canon_doc d) = canon (get k d).
Proof. intros H. unfold get. rewrite canon_doc_get by done. by destruct (dget k d). Qed.

Lemma blind_manifest marker d : keyed (JObj marker) = true → keyed (JObj d) = true →
  match dget "event_id" marker with Some (JStr _) | None => True | _ => False end →
  manifest_ok (canon_doc marker) (canon_doc d) = manifest_ok marker d.
Proof.
  intros Hm Hd He. unfold manifest_ok. apply keyed_obj in Hd as [Hnd _]. pose proof (proj1 (keyed_obj _) Hm) as [Hndm _].
  rewrite canon_doc_get, !canon_get by done. f_equal.
  - destruct (dget "event_id" marker) as [e|]; [|done]. simpl. destruct e; try done.
    destruct (get "fabric.event_id" d); simpl; try done; by rewrite ?bool_decide_eq_false_2.
  - destruct (get "fabric.manifest.after_source_sequence" d) eqn:E; cbn [canon]; try done;
      rewrite (blind_at "last_sequence"); try done; intros []; done.
Qed.

Lemma filter_canon (P : string → Prop) `{∀ k, Decision (P k)} (d : list (string * json)) :
  filter (λ p : string * json, P p.1) (canon_doc d) ≡ₚ (λ p, (p.1, canon p.2)) <$> filter (λ p : string * json, P p.1) d.
Proof.
  unfold canon_doc. rewrite py_sort_Permutation. induction d as [|[k v] d IH]; [done|].
  rewrite fmap_cons, !filter_cons. cbn [fst snd]. destruct (decide (P k)); [rewrite fmap_cons; by rewrite IH|done].
Qed.

Lemma checks_canon (f : list (string * json)) : (∀ p, p ∈ f → keyed p.2 = true) →
  forallb (λ p, MARKER_CHECKS p.1 p.2) ((λ p, (p.1, canon p.2)) <$> f) = forallb (λ p, MARKER_CHECKS p.1 p.2) f.
Proof.
  induction f as [|[n v] f IH]; [done|]. intros Hf. csimpl. rewrite IH by (intros p Hp; apply Hf; by constructor).
  f_equal. apply blind_checks. apply (Hf (n, v)). constructor.
Qed.

Lemma event_id_str marker d : subset (filter (λ p : string * json, p.1 ∉ ["kind"; "last_sequence"]) marker).*1 d = true →
  forallb (λ p, MARKER_CHECKS p.1 p.2) (filter (λ p : string * json, p.1 ∉ ["kind"; "last_sequence"]) marker) = true →
  match dget "event_id" marker with Some (JStr _) | None => True | _ => False end.
Proof.
  intros _ H. destruct (dget "event_id" marker) as [e|] eqn:E; [|done]. apply dget_Some_elem in E.
  rewrite forallb_elem_of in H. specialize (H ("event_id", e)). simpl in H.
  assert (MARKER_CHECKS "event_id" e = true) as He.
  { apply H. apply list_elem_of_filter. split; [|done]. simpl. apply (bool_decide_unpack _). vm_compute. exact I. }
  by destruct e.
Qed.

Lemma blind_marker d : keyed (JObj d) = true → marker_doc_ok (canon_doc d) = marker_doc_ok d.
Proof.
  intros Hd. pose proof (proj1 (keyed_obj _) Hd) as [Hnd Hv]. unfold marker_doc_ok. rewrite canon_doc_get by done.
  destruct (dget "kind" d) as [[| | | |text| |]|]; try done. cbn [fmap option_fmap option_map canon].
  destruct (kind_of_text text) as [k|]; [|done].
  set (f := filter (λ p : string * json, p.1 ∉ ["kind"; "last_sequence"]) d).
  pose proof (filter_canon (λ k, k ∉ ["kind"; "last_sequence"]) d) as Hf. fold f in Hf.
  set (f' := filter _ (canon_doc d)) in *.
  assert (f'.*1 ≡ₚ f.*1) as Hk by (rewrite Hf, <-list_fmap_compose; done).
  assert (forallb (λ p, MARKER_CHECKS p.1 p.2) f' = forallb (λ p, MARKER_CHECKS p.1 p.2) f) as Hc.
  { rewrite (forallb_Permutation _ _ _ Hf). apply checks_canon. intros [k' v] [_ Hp]%list_elem_of_filter. by apply (Hv k'). }
  assert (subset f'.*1 (MARKER_FIELDS k) = subset f.*1 (MARKER_FIELDS k)) as Hs by by apply forallb_Permutation.
  assert (bool_decide (dget "predecessors" (canon_doc d) = Some (JArr [JStr "none"])) =
    bool_decide (dget "predecessors" d = Some (JArr [JStr "none"]))) as Hp.
  { rewrite canon_doc_get by done. apply bool_decide_ext. destruct (dget "predecessors" d) as [[| | | | |l|]|]; simpl; try naive_solver.
    split; [|naive_solver]. intros [= H]. destruct l as [|[] [|]]; simpl in H; naive_solver. }
  assert (forallb (λ name, din name (canon_doc d)) (REQUIRED_MARKER k) = forallb (λ name, din name d) (REQUIRED_MARKER k)) as Hr.
  { generalize (REQUIRED_MARKER k) as l. intros l. induction l as [|x l IH]; [done|]. simpl. by rewrite blind_din, IH. }
  rewrite Hs, Hc, Hp, Hr, (existsb_Permutation _ _ _ Hk), blind_at by (done || apply blind_int).
  assert (subset f.*1 (MARKER_FIELDS k) = true → forallb (λ p, MARKER_CHECKS p.1 p.2) f = true →
    at_key "manifest" (dict_ok (manifest_ok (canon_doc d))) (canon_doc d) = at_key "manifest" (dict_ok (manifest_ok d)) d) as Hm.
  { intros H1 H2. pose proof (event_id_str d _ H1 H2) as He. unfold at_key. rewrite canon_doc_get by done.
    destruct (dget "manifest" d) as [m|] eqn:E; [|done]. cbn [fmap option_fmap option_map]. apply dget_Some_elem, Hv in E.
    destruct m; try done. cbn [canon]. fold (canon_doc l). by apply blind_manifest. }
  destruct (subset f.*1 (MARKER_FIELDS k)), (forallb (λ p, MARKER_CHECKS p.1 p.2) f); rewrite ?andb_false_r; cbn [andb]; try done.
  by rewrite Hm.
Qed.
End check.

(** *** Spans and bodies *)

Section spans.
Context {FI : FloatInt}.

Lemma blind_equals z : blind (equals_int z).
Proof. intros v _. apply equals_int_canon. Qed.

Lemma blind_body offset b : keyed b = true → body_ok offset (canon b) = body_ok offset b.
Proof.
  destruct b as [| | | | | |b]; try done. intros Hb. pose proof (proj1 (keyed_obj _) Hb) as [Hnd Hv].
  cbn [canon]. fold (canon_doc b). unfold body_ok. rewrite !canon_doc_get by done.
  destruct (dget "descriptor" b) as [[| | | | | |des]|] eqn:Ed; cbn [fmap option_fmap option_map canon]; try done.
  fold (canon_doc des). apply dget_Some_elem, Hv in Ed. pose proof (proj1 (keyed_obj _) Ed) as [Hnd' _].
  destruct (dget "length" b) as [[| |n| | | |]|]; cbn [fmap option_fmap option_map canon]; try done.
  rewrite blind_at by (done || apply blind_equals). rewrite canon_get, canon_doc_get, !blind_din by done.
  assert (equals_int n (default (JInt 0) (canon <$> dget "stored_byte_length" des)) =
    equals_int n (default (JInt 0) (dget "stored_byte_length" des))) as ->.
  { destruct (dget "stored_byte_length" des); [|done]. apply equals_int_canon. }
  by destruct (get "status" des).
Qed.

Lemma blind_bodies offset l : forallb keyed l = true → bodies_end offset (canon <$> l) = bodies_end offset l.
Proof.
  revert offset. induction l as [|b l IH]; intros offset; [done|]. rewrite fmap_cons. cbn [forallb bodies_end].
  intros [Hb Hl]%andb_true_iff. rewrite blind_body by done. destruct (body_ok offset b); [|done]. simpl. by apply IH.
Qed.

Lemma canon_vget k v : keyed v = true → vget k (canon v) = canon (vget k v).
Proof. destruct v; try done. intros [Hnd _]%keyed_obj. by apply canon_get. Qed.

Lemma keyed_vget k v : keyed v = true → keyed (vget k v) = true.
Proof. destruct v; try done. apply keyed_get. Qed.

Lemma canon_object_id b : keyed b = true → object_id_of (canon b) = canon (object_id_of b).
Proof.
  intros Hb. unfold object_id_of. by rewrite !canon_vget by (done || by apply keyed_vget).
Qed.

Lemma equal_ids (l : list json) ids : forallb keyed l = true →
  forallb (λ p, equals_scalar p.1 p.2) (zip (object_id_of <$> (canon <$> l)) (canon <$> ids)) =
  forallb (λ p, equals_scalar p.1 p.2) (zip (object_id_of <$> l) ids).
Proof.
  revert ids. induction l as [|b l IH]; intros [|i ids]; try done. cbn [forallb].
  intros [Hb Hl]%andb_true_iff. csimpl. rewrite IH, canon_object_id, equals_scalar_canon by done. done.
Qed.

Lemma blind_record span attrs source l :
  keyed (JObj span) = true → keyed (JObj attrs) = true → keyed (JObj source) = true → forallb keyed l = true →
  record_span_ok (canon_doc span) (canon_doc attrs) (canon_doc source) (canon <$> l) =
  record_span_ok span attrs source l.
Proof.
  intros Hs Ha Hsrc Hl. pose proof (proj1 (keyed_obj _) Ha) as [Hnd _]. unfold record_span_ok, one_of.
  rewrite !(blind_at _ _ span), !(blind_if _ _ span), !(blind_at _ _ attrs) by (done || auto with fabric).
  rewrite (blind_at _ _ source), !blind_din, (canon_doc_values attribute_value), canon_get by
    (done || auto with fabric || (intros []; done)).
  assert (at_key "source_epoch" (λ e, match e with JInt z => equals_int z (canon (get "fabric.source.epoch" attrs)) | _ => false end)
    source = at_key "source_epoch" (λ e, match e with JInt z => equals_int z (get "fabric.source.epoch" attrs) | _ => false end)
    source) as ->.
  { unfold at_key. destruct (dget "source_epoch" source) as [[]|]; try done. apply equals_int_canon. }
  destruct (forallb attribute_value attrs.*2) eqn:Ev; [|by rewrite !andb_false_r]. f_equal. f_equal.
  - apply bool_decide_ext. by destruct l.
  - rewrite canon_doc_get by done. destruct (dget "fabric.content.object_ids" attrs) as [v|] eqn:E; simpl.
    + assert (attribute_value v = true) as Hv.
      { rewrite forallb_elem_of in Ev. apply Ev. apply dget_Some_elem in E.
        apply list_elem_of_fmap. by exists ("fabric.content.object_ids", v). }
      destruct v as [| | | |s|ids|]; try done; simpl; rewrite !length_fmap.
      * f_equal. rewrite <-(equal_ids l (JStr <$> characters s)) by done. do 2 f_equal.
        rewrite <-list_fmap_compose. done.
      * f_equal. by apply equal_ids.
    + rewrite !length_fmap. by destruct l.
Qed.

Lemma blind_span doc n r : keyed (JObj doc) = true → span_ok (canon_doc doc) n r = span_ok doc n r.
Proof.
  intros Hd. pose proof (proj1 (keyed_obj _) Hd) as [Hnd Hv]. unfold span_ok. rewrite !canon_doc_get by done.
  destruct (dget "span" doc) as [[| | | | | |span]|] eqn:Es; cbn [fmap option_fmap option_map canon]; try done.
  fold (canon_doc span). apply dget_Some_elem, Hv in Es. pose proof (proj1 (keyed_obj _) Es) as [Hnd' Hvs].
  destruct (dget "source" doc) as [[| | | | | |source]|] eqn:Eo; cbn [fmap option_fmap option_map canon]; try done.
  fold (canon_doc source). apply dget_Some_elem, Hv in Eo.
  assert (keyed (default (JArr []) (dget "bodies" doc)) = true) as Hb.
  { destruct (dget "bodies" doc) eqn:E; [|done]. apply dget_Some_elem in E. by eapply Hv. }
  replace (default (JArr []) (canon <$> dget "bodies" doc)) with (canon (default (JArr []) (dget "bodies" doc)))
    by (by destruct (dget "bodies" doc)).
  destruct (default (JArr []) (dget "bodies" doc)) as [| | | | |l|] eqn:El; cbn [canon]; try done.
  change (forallb keyed l = true) in Hb.
  rewrite canon_doc_get by done.
  destruct (dget "attributes" span) as [[| | | | | |attrs]|] eqn:Ea; cbn [fmap option_fmap option_map canon]; try done.
  fold (canon_doc attrs). apply dget_Some_elem, Hvs in Ea.
  rewrite blind_bodies, length_fmap, blind_record by done. unfold one_of, int_from.
  rewrite !(blind_at _ _ span), !(blind_if _ _ span), !(blind_if _ _ doc), !(blind_if _ _ attrs) by (done || auto with fabric).
  rewrite (blind_at "fabric.source.sequence") by (done || auto with fabric).
  replace (at_key "fabric.source_id" _ (canon_doc attrs)) with
    (at_key "fabric.source_id" (λ v, at_key "source_id" (equals_scalar v) source) attrs); [done|].
  unfold at_key. rewrite !canon_doc_get by (apply keyed_obj in Ea, Eo; by apply Ea || by apply Eo).
  destruct (dget "fabric.source_id" attrs), (dget "source_id" source); try done. simpl. by rewrite equals_scalar_canon.
Qed.

(** ** The check of a header does not look at the order of keys *)

Lemma valid_header_canon doc n : keyed (JObj doc) = true → valid_header (canon_doc doc) n = valid_header doc n.
Proof.
  intros Hd. pose proof (proj1 (keyed_obj _) Hd) as [Hnd Hv]. unfold valid_header. rewrite canon_doc_get by done.
  destruct (dget "record_kind" doc) as [[| | | |kind| |]|]; cbn [fmap option_fmap option_map canon]; try done.
  destruct (KEYS kind) as [required|]; [|done].
  assert (filter (λ k, k ∉ COMMON) (canon_doc doc).*1 ≡ₚ filter (λ k, k ∉ COMMON) doc.*1) as Hk by by rewrite canon_doc_keys.
  assert (∀ l, subset l (filter (λ k, k ∉ COMMON) (canon_doc doc).*1) = subset l (filter (λ k, k ∉ COMMON) doc.*1)) as Hs.
  { intros l. unfold subset. induction l as [|x l IH]; [done|]. simpl. rewrite IH. f_equal. apply bool_decide_ext. by rewrite Hk. }
  assert (∀ l, subset (filter (λ k, k ∉ COMMON) (canon_doc doc).*1) l = subset (filter (λ k, k ∉ COMMON) doc.*1) l) as Hs'
    by (intros; by apply forallb_Permutation).
  rewrite Hs, Hs', subset_in, blind_span by done. unfold one_of, int_from.
  rewrite !blind_at; try done; auto with fabric; apply blind_dict.
  - apply blind_marker.
  - intros d Hkd. unfold loss_ok, one_of, int_from. rewrite subset_keys, !blind_at, blind_if by (done || auto with fabric || (intros []; done)).
    unfold at_key. pose proof (proj1 (keyed_obj _) Hkd) as [Hnd' _]. f_equal. f_equal.
    destruct (dget "first_sequence" d) as [[]|]; try done. f_equal. rewrite canon_doc_get by done.
    by destruct (dget "last_sequence" d) as [[]|].
  - intros d Hkd. unfold source_ok, int_from. by rewrite !blind_at by (done || auto with fabric).
Qed.
End spans.

(** ** What is written can be read *)

Lemma plain_keyed v : plain v = true → keyed v = true.
Proof.
  induction v as [| | | | |l IH|l IH] using json_nested_ind; try done; simpl.
  - rewrite !forallb_elem_of. rewrite Forall_forall in IH. auto.
  - rewrite !andb_true_iff, !forallb_elem_of. rewrite Forall_forall in IH. intros [Hnd Hl]. split; [done|].
    intros p Hp. by apply IH, Hl.
Qed.

Lemma dset_keys_ext {A} k (v w : A) (d d' : list (string * A)) : d.*1 = d'.*1 → (dset k v d).*1 = (dset k w d').*1.
Proof.
  revert d'. induction d as [|[x a] d IH]; intros [|[y b] d']; csimpl; try done. intros [= <- H].
  case_decide; csimpl; [by rewrite H|]. f_equal. by apply IH.
Qed.

Lemma stamp_keys o a o' a' d : (stamp o a d).*1 = (stamp o' a' d).*1.
Proof. unfold stamp. by repeat apply dset_keys_ext. Qed.

Lemma stamp_get k o a d : k ≠ "order" → k ≠ "written_at_unix_nano" →
  dget k (stamp o a d) = if decide (k = "schema_version") then Some (JStr SCHEMA) else dget k d.
Proof. intros H1 H2. unfold stamp. rewrite dget_dset_ne by done. rewrite dget_dset_ne by done. apply dget_dset. Qed.

Section entries.
Context {FT : FloatText} {FI : FloatInt}.

(** The check of an entry does not depend on its order and time. *)
Lemma valid_header_stamp o a o' a' d n : 0 ≤ o → 0 ≤ a → 0 ≤ o' → 0 ≤ a' →
  valid_header (stamp o a d) n = valid_header (stamp o' a' d) n.
Proof.
  intros Ho Ha Ho' Ha'. unfold valid_header, span_ok, at_key, if_key, COMMON. rewrite (stamp_keys o a o' a').
  assert (∀ o a d, dget "order" (stamp o a d) = Some (JInt o)) as Hord.
  { intros. unfold stamp. by rewrite dget_dset_ne, dget_dset_eq by done. }
  assert (∀ o a d, dget "written_at_unix_nano" (stamp o a d) = Some (JInt a)) as Hat by (intros; apply dget_dset_eq).
  rewrite !Hord, !Hat, !stamp_get by done. unfold int_from, int_in.
  replace (0 <=? o) with true by (symmetry; apply Z.leb_le; lia). replace (0 <=? a) with true by (symmetry; apply Z.leb_le; lia).
  replace (0 <=? o') with true by (symmetry; apply Z.leb_le; lia). by replace (0 <=? a') with true by (symmetry; apply Z.leb_le; lia).
Qed.

(** The check of [Sender._marker_doc]: the entry with the order and the time still unset. *)
Definition checked (doc : Doc) (blob_length : Z) : bool := valid_header (stamp 0 0 doc) blob_length.

(** An entry that passes the reader's check before it is written - as the sender checks
    every marker, with the order and the time still unset - is read back from its frame, with
    its bodies: the reader never finds it corrupt. *)
Theorem checked_entry_readable (doc : Doc) (bodies pieces : list string) (order at_ : Z) :
  checked doc (len (concat_bytes bodies)) = true → 0 ≤ order → 0 ≤ at_ →
  plain (JObj (stamp order at_ doc)) = true → frame (stamp order at_ doc) bodies = Some pieces →
  unframe_all (concat_bytes pieces) = inl [(canon_doc (stamp order at_ doc), concat_bytes bodies)] ∧
  valid_header (canon_doc (stamp order at_ doc)) (len (concat_bytes bodies)) = true.
Proof.
  intros Hv Ho Ha Hp Hf. unfold checked in Hv.
  assert (valid_header (canon_doc (stamp order at_ doc)) (len (concat_bytes bodies)) = true) as Hc.
  { rewrite valid_header_canon by by apply plain_keyed. by rewrite (valid_header_stamp order at_ 0 0). }
  split; [|done]. by apply unframe_all_one.
Qed.

(** *** Losses *)

Definition loss_sound (loss : RawKey * LossRange) : Prop :=
  let key := loss_key loss.1 in
  0 ≤ lk_epoch key ∧ 0 ≤ lr_first loss.2 ≤ lr_last loss.2 ∧ 1 ≤ lr_count loss.2 ∧
  match lk_segment key with Some s => SEGMENT_ID_RE s = true | None => True end.

Lemma loss_ok_doc (key : LossKey) (r : LossRange) :
  0 ≤ lr_first r ≤ lr_last r → 1 ≤ lr_count r →
  match lk_segment key with Some s => SEGMENT_ID_RE s = true | None => True end →
  loss_ok ([("reason", JStr (reason_text (lk_reason key))); ("first_sequence", JInt (lr_first r));
        ("count", JInt (Z.min (lr_count r) (lr_last r - lr_first r + 1))); ("last_sequence", JInt (lr_last r))]
        ++ match lk_segment key with Some s => [("segment_id", JStr s)] | None => [] end) = true.
Proof.
  intros Hr Hc Hs. assert (1 ≤ Z.min (lr_count r) (lr_last r - lr_first r + 1)) as Hm by lia.
  set (m := Z.min _ _) in *. clearbody m. destruct Hr as [H1 H2]. unfold loss_ok.
  assert (1 <=? m = true) as Hm' by by apply Z.leb_le. assert (0 <=? lr_first r = true) as H1' by by apply Z.leb_le.
  assert (lr_first r <=? lr_last r = true) as H2' by by apply Z.leb_le.
  destruct (lk_segment key) as [s|]; repeat (apply andb_true_iff; split);
    first [exact Hs|exact Hm'|exact H2'|exact H1'|by destruct (lk_reason key)|reflexivity].
Qed.

Lemma loss_doc_valid loss : loss_sound loss → valid_header (stamp 0 0 (loss_doc loss)) 0 = true.
Proof.
  intros (He & Hr & Hc & Hs). unfold loss_doc. set (key := loss_key loss.1) in *.
  pose proof (loss_ok_doc key loss.2 Hr Hc Hs) as Hl. set (l := _ ++ _) in *. unfold valid_header.
  change (dget "record_kind" _) with (Some (JStr "loss")). cbn iota. unfold KEYS.
  change (dget "loss" _) with (Some ["loss"]) at 1. cbn iota zeta.
  change (at_key "loss" (dict_ok loss_ok) _) with (loss_ok l). rewrite Hl.
  change (at_key "source" _ _) with (true && (0 <=? lk_epoch key) && true).
  replace (0 <=? lk_epoch key) with true by (symmetry; apply Z.leb_le; lia). vm_compute. reflexivity.
Qed.

Lemma loss_range_canon d : keyed (JObj d) = true →
  loss_range (canon_doc d) = option_map (λ r : list json * list json, (canon <$> r.1, canon <$> r.2)) (loss_range d).
Proof.
  intros Hd. pose proof (proj1 (keyed_obj _) Hd) as [Hnd Hv]. unfold loss_range. rewrite !canon_doc_get by done.
  destruct (dget "source" d) as [[| | | | | |source]|] eqn:Es; cbn [fmap option_fmap option_map canon]; try done.
  destruct (dget "loss" d) as [[| | | | | |loss]|] eqn:El; cbn [fmap option_fmap option_map canon]; try done.
  fold (canon_doc source) (canon_doc loss).
  apply dget_Some_elem, Hv in Es, El. apply keyed_obj in Es as [Hs _]. apply keyed_obj in El as [Hl _].
  rewrite canon_get, !canon_doc_get by done.
  destruct (dget "source_id" source), (dget "source_epoch" source), (dget "reason" loss), (dget "first_sequence" loss),
    (dget "last_sequence" loss), (dget "count" loss); done.
Qed.

(** A loss range comes back from the spool as the range that was written: every sound
    range is written as an entry its reader accepts, and reading the entry gives its source,
    epoch, reason, segment and bounds, with a count of at most the positions of the range. *)
Theorem loss_entry_roundtrip (loss : RawKey * LossRange) (order at_ : Z) (pieces : list string) :
  loss_sound loss → 0 ≤ order → 0 ≤ at_ → plain (JObj (stamp order at_ (loss_doc loss))) = true →
  frame (stamp order at_ (loss_doc loss)) [] = Some pieces →
  ∃ d, unframe_all (concat_bytes pieces) = inl [(d, "")] ∧
    let key := loss_key loss.1 in
    loss_range d = Some
      ([JStr (lk_source key); JInt (lk_epoch key); JStr (reason_text (lk_reason key));
        match lk_segment key with Some s => JStr s | None => JNull end],
       [JInt (lr_first loss.2); JInt (lr_last loss.2);
        JInt (Z.min (lr_count loss.2) (lr_last loss.2 - lr_first loss.2 + 1))]).
Proof.
  intros Hl Ho Ha Hp Hf. exists (canon_doc (stamp order at_ (loss_doc loss))). split.
  - apply (unframe_all_one _ [] _). split_and!; [done..|].
    rewrite valid_header_canon by by apply plain_keyed. rewrite (valid_header_stamp order at_ 0 0) by done.
    by apply loss_doc_valid.
  - rewrite loss_range_canon by by apply plain_keyed. unfold loss_doc. by destruct (lk_segment (loss_key loss.1)).
Qed.

(** *** Bodies *)

(** A descriptor that says how many bytes its body has, none when there is no body. *)
Definition honest (body : Doc * string) : Prop :=
  match get "status" body.1 with
  | JStr s => if decide (s ∈ DESCRIPTOR_ONLY)
              then body.2 = "" ∧ din "stored_byte_length" body.1 = false ∧ din "stored_sha256" body.1 = false
              else dget "stored_byte_length" body.1 = Some (JInt (len body.2))
  | JArr _ | JObj _ => False
  | _ => dget "stored_byte_length" body.1 = Some (JInt (len body.2))
  end.

Lemma honest_body offset body : honest body →
  body_ok offset (JObj [("descriptor", JObj body.1); ("length", JInt (len body.2)); ("offset", JInt offset)]) =
    Some (offset + len body.2).
Proof.
  destruct body as [d data]. unfold honest, body_ok. cbn [fst snd].
  change (dget "descriptor" _) with (Some (JObj d)). change (dget "length" _) with (Some (JInt (len data))). cbn iota.
  change (at_key "offset" _ _) with (offset =? offset). rewrite Z.eqb_refl.
  replace (0 <=? len data) with true by (symmetry; apply Z.leb_le, len_nonneg). cbn [andb].
  intros H. assert (equals_int (len data) (default (JInt 0) (dget "stored_byte_length" d)) = true) as ->.
  { unfold din in H. destruct (get "status" d) as [| | | |s| |]; try done; try (rewrite H; apply Z.eqb_refl).
    case_decide; [|rewrite H; apply Z.eqb_refl]. destruct H as (-> & H & _). by destruct (dget "stored_byte_length" d). }
  destruct (get "status" d) as [| | | |s| |]; try done. case_decide as Hs.
  - destruct H as (_ & H1 & H2). by rewrite H1, H2, orb_true_r.
  - by rewrite bool_decide_eq_false_2.
Qed.

(** The bodies of an exchange tile its blob: for descriptors that say the lengths of their
    bodies the reader's check of the bodies passes, and cutting the blob at the offset and
    the length of a body gives that body's bytes. *)
Theorem bodies_tile (staged : Staged) :
  Forall honest staged → let blob := concat_bytes staged.*2 in
  bodies_end 0 (bodies_of staged) = Some (len blob) ∧ length (bodies_of staged) = length staged ∧
  ∀ i descriptor data, staged !! i = Some (descriptor, data) → ∃ offset,
    bodies_of staged !! i = Some (JObj [("descriptor", JObj descriptor); ("length", JInt (len data)); ("offset", JInt offset)]) ∧
    slice offset (offset + len data) blob = data.
Proof.
  intros Hh. unfold bodies_of.
  assert (∀ pre, bodies_end (len pre) (bodies_from (len pre) staged) = Some (len pre + len (concat_bytes staged.*2)) ∧
    length (bodies_from (len pre) staged) = length staged ∧
    ∀ i descriptor data, staged !! i = Some (descriptor, data) → ∃ offset,
      bodies_from (len pre) staged !! i =
        Some (JObj [("descriptor", JObj descriptor); ("length", JInt (len data)); ("offset", JInt offset)]) ∧
      slice offset (offset + len data) (pre +:+ concat_bytes staged.*2) = data) as H.
  { induction Hh as [|[d data] staged Hb Hh IH]; intros pre.
    - split_and!; [simpl; f_equal; change (len "") with 0; lia|done|done].
    - rewrite fmap_cons. cbn [bodies_from bodies_end concat_bytes snd]. fold (len data).
      destruct (IH (pre +:+ data)) as (H1 & H2 & H3). rewrite (len_app pre data) in H1, H2, H3.
      split_and!.
      + rewrite (honest_body _ (d, data)) by done. cbn [mbind option_bind snd]. rewrite H1. f_equal. rewrite len_app. lia.
      + simpl. by rewrite H2.
      + intros [|i] d' data' Hi; simpl in Hi.
        * injection Hi as <- <-. exists (len pre). split; [done|]. by apply slice_mid.
        * destruct (H3 i d' data' Hi) as (o & Ho & Hd). exists o. split; [exact Ho|]. by rewrite <-string_app_assoc. }
  destruct (H "") as (H1 & H2 & H3). split_and!; [exact H1|exact H2|exact H3].
Qed.
End entries.

(** ** Instances *)

Definition demo_range : RawKey * LossRange :=
  (("src-1", 7, LossTable.queue_full, [Some "seg-00000000000000000000000000000001"]), mk_range 3 5 9).

Lemma loss_entry_roundtrip_witness :
  ∃ d, @unframe_all no_float_texts no_float_ints (concat_bytes (default [] (frame (stamp 4 5 (loss_doc demo_range)) []))) = inl [(d, "")] ∧
    loss_range d = Some ([JStr "src-1"; JInt 7; JStr "queue_full"; JStr "seg-00000000000000000000000000000001"],
                         [JInt 3; JInt 5; JInt 3]).
Proof.
  apply (@loss_entry_roundtrip no_float_texts no_float_ints demo_range 4 5).
  - unfold loss_sound. simpl. split_and!; lia || reflexivity.
  - lia.
  - lia.
  - reflexivity.
  - vm_compute. reflexivity.
Defined.

(** A marker that the sender's check lets through. *)
Definition demo_seal : MarkerRecord :=
  mk_marker_record
    (mk_marker segment_seal "src-1" 7 41 (Some "run-1") None (Some "seg-00000000000000000000000000000001") [] None None
       [] [] (Some false)
       (Some (mk_seal_info 41 None ("sha256:" +:+ hexdigest (encode "a")) ["br-0000000000000000000000000000000b"]))
       None None None None None None None None [] None None None)
    (Some 2) None "0a1b2c3d-0000-4000-8000-0123456789ab".

Lemma checked_entry_readable_witness :
  @unframe_all no_float_texts no_float_ints (concat_bytes (default [] (frame (stamp 9 17 (marker_doc demo_seal)) []))) =
  inl [(canon_doc (stamp 9 17 (marker_doc demo_seal)), "")].
Proof.
  refine (proj1 (@checked_entry_readable no_float_texts no_float_ints (marker_doc demo_seal) [] _ 9 17 _ _ _ _ _)).
  - vm_compute. reflexivity.
  - lia.
  - lia.
  - vm_compute. reflexivity.
  - vm_compute. reflexivity.
Qed.

Lemma bodies_tile_witness :
  @bodies_end no_float_ints 0 (bodies_of [([("stored_byte_length", JInt 5)], "hello"); ([("status", JStr "unsupported")], "");
     ([("stored_byte_length", JInt 2)], "!!")]) = Some 7 ∧ slice 5 7 "hello!!" = "!!".
Proof.
  set (staged := [([("stored_byte_length", JInt 5)], "hello"); ([("status", JStr "unsupported")], "");
    ([("stored_byte_length", JInt 2)], "!!")] : Staged).
  assert (Forall honest staged) as Hh by (repeat constructor; vm_compute; repeat split; reflexivity).
  destruct (@bodies_tile no_float_ints staged Hh) as (H1 & _ & H3). split; [exact H1|].
  destruct (H3 2%nat _ _ eq_refl) as (o & Ho & Hs). injection Ho as <-. exact Hs.
Defined.
