(* ===== verification/Spool.v ===== *)
(** * The spool directory

    [Spool] of [fabric/wire/_spool.py] (spec 048 section 2): the bounded directory of record
    files that the processes of a host share. Any process writes; the holder of the drain lock
    reads, retires and quarantines. The directory is a map of names to files. A definition
    here is one section of the code that no other section interrupts - under the ledger lock,
    under the cross-process admission lock, or one system call - and a method composes its
    sections; what the kernel answers is an argument. The migration of plaintext records is in
    [SpoolMigrate]; the walk that makes the directory durable and interrupts are not modelled. *)

From stdpp Require Import gmap.
From S2P Require Import Prelude PyDict Hash Json Decimal Ids SpoolHeader SpoolFrame.

(** ** The directory *)

Record File := mk_file { f_inode : Z; f_size : Z; f_mtime : Z }.
Notation Disk := (gmap string File).

Definition RESERVE_BYTES : Z := 1024 * 1024.
Definition ACK_SUFFIX : string := ".ack".
Definition REC_SUFFIX : string := ".rec".
Definition QUARANTINE_SUFFIX : string := ".corrupt".
Definition TMP_PREFIX : string := ".tmp-".
Definition RECEIPT_OVERHEAD : Z := 128.
Definition DEFAULT_MAX_RECEIPTS : Z := 4096.

Fixpoint endswith (suffix s : string) : bool :=
  bool_decide (s = suffix) || match s with "" => false | String _ r => endswith suffix r end.
Definition startswith (prefix s : string) : bool := String.prefix prefix s.
Definition is_ack (name : string) : bool := endswith ACK_SUFFIX name.
Definition tmp_of (name : string) : string := TMP_PREFIX +:+ name.
Definition ack_of (name : string) : string := name +:+ ACK_SUFFIX.
Definition corrupt_of (name : string) : string := name +:+ QUARANTINE_SUFFIX.

(** [f"{z:0kd}"] of a number that is not negative. *)
Definition zpad (k : nat) (z : Z) : string :=
  let s := pretty z in concat_bytes (replicate (k - String.length s) "0") +:+ s.

(** The name of a record file. *)
Definition record_name (epoch pid order : Z) : string :=
  zpad 20 epoch +:+ "-" +:+ zpad 10 pid +:+ "-" +:+ zpad 12 order +:+ REC_SUFFIX.

(** [_accounted] *)
Definition accounted (name : string) (size : Z) : option Z :=
  if is_ack name then Some (Z.max size RECEIPT_OVERHEAD)
  else if startswith TMP_PREFIX name || endswith REC_SUFFIX name || endswith QUARANTINE_SUFFIX name then Some size
  else None.

(** What [os.lstat(path).st_size] gives: the file is missing, or the call fails. *)
Inductive stat := Missing | Unknown | Size (n : Z).
Definition lstat (fails : bool) (name : string) (d : Disk) : stat :=
  if fails then Unknown else match d !! name with Some f => Size (f_size f) | None => Missing end.

(** [os.unlink]; true when it succeeds. *)
Definition unlink (fails : bool) (name : string) (d : Disk) : Disk * bool :=
  if fails then (d, false)
  else match d !! name with Some _ => (delete name d, true) | None => (d, false) end.

(** [os.rename]: false where it raises; a missing source is told apart. *)
Inductive moved := Moved | NoSource | MoveFailed.

#[export] Instance moved_eq_dec : EqDecision moved.
Proof. solve_decision. Defined.

Definition rename (fails : bool) (src dst : string) (d : Disk) : Disk * moved :=
  if fails then (d, MoveFailed)
  else match d !! src with
       | Some f => (<[dst := f]> (delete src d), Moved)
       | None => (d, NoSource)
       end.

(** ** The state of a process *)

(** The ledger: what each file this process knows counts against the bound. *)
Record Charges := mk_charges {
  c_files : gmap string Z;
  c_bytes : Z;
  c_receipts : Z;
  c_writing : gset string;
  c_touched : option (gset string);
}.

(** Own records until their outcome is known. *)
Record Outcomes := mk_outcomes {
  o_mine : gset string;
  o_retiring : gset string;
  o_failed : Z;
}.

(** What the last admission saw of the directory. *)
Record Admission := mk_admission {
  a_disk : gmap (string * Z) Z;
  a_shared : Z;
  a_timeouts : Z;
}.

Record Spool := mk_spool {
  sp_pid : Z;
  sp_max : Z;
  sp_reserve : Z;
  sp_max_receipts : Z;
  sp_order : Z;
  sp_holder : bool;
  sp_charges : Charges;
  sp_outcomes : Outcomes;
  sp_admission : Admission;
}.

Definition set_order (z : Z) (s : Spool) : Spool :=
  mk_spool (sp_pid s) (sp_max s) (sp_reserve s) (sp_max_receipts s) z (sp_holder s) (sp_charges s) (sp_outcomes s)
    (sp_admission s).
Definition set_holder (b : bool) (s : Spool) : Spool :=
  mk_spool (sp_pid s) (sp_max s) (sp_reserve s) (sp_max_receipts s) (sp_order s) b (sp_charges s) (sp_outcomes s)
    (sp_admission s).
Definition set_charges (c : Charges) (s : Spool) : Spool :=
  mk_spool (sp_pid s) (sp_max s) (sp_reserve s) (sp_max_receipts s) (sp_order s) (sp_holder s) c (sp_outcomes s)
    (sp_admission s).
Definition set_outcomes (o : Outcomes) (s : Spool) : Spool :=
  mk_spool (sp_pid s) (sp_max s) (sp_reserve s) (sp_max_receipts s) (sp_order s) (sp_holder s) (sp_charges s) o
    (sp_admission s).
Definition set_admission (a : Admission) (s : Spool) : Spool :=
  mk_spool (sp_pid s) (sp_max s) (sp_reserve s) (sp_max_receipts s) (sp_order s) (sp_holder s) (sp_charges s)
    (sp_outcomes s) a.

(** [_init_state] and the configuration of [__init__]; the ledger's bytes come out of the
    reserve. *)
Definition init_spool (pid max_bytes max_receipts ledger_bytes : Z) : Spool :=
  mk_spool pid max_bytes (RESERVE_BYTES - ledger_bytes)
    (Z.max 1 (Z.min max_receipts (max_bytes / (8 * RECEIPT_OVERHEAD)))) 0 false
    (mk_charges ∅ 0 0 ∅ None) (mk_outcomes ∅ ∅ 0) (mk_admission ∅ 0 0).

(** [after_fork]: the child starts over and only writes. *)
Definition after_fork (pid : Z) (s : Spool) : Spool :=
  mk_spool pid (sp_max s) (sp_reserve s) (sp_max_receipts s) 0 false
    (mk_charges ∅ 0 0 ∅ None) (mk_outcomes ∅ ∅ 0) (mk_admission ∅ 0 0).

(** [try_lock], [release]: [free] is whether no other description holds the lock. *)
Definition try_lock (free : bool) (s : Spool) : Spool := if free then set_holder true s else s.
Definition release (s : Spool) : Spool := set_holder false s.

(** ** Charges *)

Definition b2z (b : bool) : Z := if b then 1 else 0.

(** [_account] *)
Definition account (name : string) (size : option Z) (c : Charges) : Charges :=
  let old := c_files c !! name in
  mk_charges
    (match size with Some n => <[name := n]> (c_files c) | None => delete name (c_files c) end)
    (c_bytes c + default 0 size - default 0 old)
    (c_receipts c + (if is_ack name then b2z (bool_decide (is_Some size)) - b2z (bool_decide (is_Some old)) else 0))
    (c_writing c)
    (match c_touched c with Some t => Some ({[name]} ∪ t) | None => None end).

Definition start_writing (name : string) (c : Charges) : Charges :=
  mk_charges (c_files c) (c_bytes c) (c_receipts c) ({[name]} ∪ c_writing c) (c_touched c).
Definition stop_writing (name : string) (c : Charges) : Charges :=
  mk_charges (c_files c) (c_bytes c) (c_receipts c) (c_writing c ∖ {[name]}) (c_touched c).

(** [_observe] *)
Definition observe (fails : bool) (name : string) (d : Disk) (c : Charges) : Charges :=
  match lstat fails name d with
  | Size n => account name (accounted name n) c
  | Missing => account name None c
  | Unknown => c
  end.

(** [_move]: the charge first, then what can be observed. *)
Definition move_charge (src dst : string) (c : Charges) : Charges :=
  match c_files c !! src with
  | Some charge =>
      let c := account src None c in
      account dst (Some (Z.max charge (default 0 (c_files c !! dst)))) c
  | None => c
  end.
Definition move (fails : bool) (src dst : string) (d : Disk) (c : Charges) : Charges :=
  let c := move_charge src dst c in
  match lstat fails dst d with Size n => account dst (accounted dst n) c | _ => c end.

(** ** Admission *)

(** Whether a file is looked at again although it was seen before. *)
Definition looks_again (name : string) (size : Z) : bool :=
  startswith TMP_PREFIX name || is_ack name && (RECEIPT_OVERHEAD <? size).

(** The size of a directory entry: [None] where the code raises. *)
Definition entry_size (fails : bool) (cached : option Z) (name : string) (f : File) : option (option Z) :=
  match cached with
  | Some size =>
      if looks_again name size then if fails then Some (Some size) else Some (accounted name (f_size f))
      else Some (Some size)
  | None => if fails then None else Some (accounted name (f_size f))
  end.

Fixpoint scan (errs : string → bool) (cache : gmap (string * Z) Z) (entries : list (string * File))
    : option (list ((string * Z) * Z)) :=
  match entries with
  | [] => Some []
  | (name, f) :: entries =>
      match accounted name 0 with
      | None => scan errs cache entries
      | Some _ =>
          v ← entry_size (errs name) (cache !! (name, f_inode f)) name f;
          rest ← scan errs cache entries;
          Some (match v with Some size => ((name, f_inode f), size) :: rest | None => rest end)
      end
  end.

Definition sum (l : list Z) : Z := foldr Z.add 0 l.

(** [_shared_total] *)
Definition shared_total (errs : string → bool) (d : Disk) (a : Admission) : option (Admission * Z) :=
  seen ← scan errs (a_disk a) (map_to_list d);
  Some (mk_admission (list_to_map seen) (a_shared a) (a_timeouts a), sum seen.*2).

(** What creating and reserving a temp file met. *)
Inductive open_answer :=
  | Opened (inode now : Z)
  | OpenFailed
  | PwriteFailed (inode now : Z) (unlink_fails : bool).

Inductive reserve_answer :=
  | AdmissionBusy
  | ScanFailed
  | Granted (errs : string → bool) (opens : list open_answer).

(** A reservation: the descriptor, a refusal, or an error. *)
Inductive reserved := Descriptor | Refused | Errored.

Fixpoint reserve_each (d : Disk) (total limit : Z) (wanted : list (string * Z)) (opens : list open_answer)
    : Disk * Z * list reserved :=
  match wanted with
  | [] => (d, total, [])
  | (tmp, size) :: wanted =>
      let answer := default OpenFailed (head opens) in
      let opens := tail opens in
      if limit <? total + size then
        let '(d, total, r) := reserve_each d total limit wanted opens in (d, total, Refused :: r)
      else
        match d !! tmp, answer with
        | None, Opened inode now =>
            let '(d, total, r) :=
              reserve_each (<[tmp := mk_file inode size now]> d) (total + size) limit wanted opens in
            (d, total, Descriptor :: r)
        | None, PwriteFailed inode now unlink_fails =>
            let d := (unlink unlink_fails tmp (<[tmp := mk_file inode 0 now]> d)).1 in
            let '(d, total, r) := reserve_each d total limit wanted opens in (d, total, Errored :: r)
        | _, _ => let '(d, total, r) := reserve_each d total limit wanted opens in (d, total, Errored :: r)
        end
  end.

Definition set_shared (z : Z) (a : Admission) : Admission := mk_admission (a_disk a) z (a_timeouts a).
Definition add_timeout (a : Admission) : Admission := mk_admission (a_disk a) (a_shared a) (a_timeouts a + 1).

(** [_reserve_many] *)
Definition reserve_many (answer : reserve_answer) (wanted : list (string * Z)) (limit : Z) (d : Disk) (a : Admission)
    : Disk * Admission * list reserved :=
  match wanted with
  | [] => (d, a, [])
  | _ =>
      match answer with
      | AdmissionBusy => (d, add_timeout a, (λ _, Refused) <$> wanted)
      | ScanFailed => (d, a, (λ _, Errored) <$> wanted)
      | Granted errs opens =>
          match shared_total errs d a with
          | None => (d, a, (λ _, Errored) <$> wanted)
          | Some (a, total) =>
              let '(d, total, r) := reserve_each d total limit wanted opens in (d, set_shared total a, r)
          end
      end
  end.

(** [_rename_many]; [None] is a busy admission lock. *)
Fixpoint rename_each (d : Disk) (names : list string) (fails : list bool) : Disk * list bool :=
  match names with
  | [] => (d, [])
  | name :: names =>
      let '(d, m) := rename (default false (head fails)) (tmp_of name) name d in
      let '(d, r) := rename_each d names (tail fails) in
      (d, bool_decide (m = Moved) :: r)
  end.
Definition rename_many (fails : option (list bool)) (names : list string) (d : Disk) : Disk * list bool :=
  match fails with
  | None => (d, (λ _, false) <$> names)
  | Some fails => rename_each d names fails
  end.

(** ** Writing *)

(** What the kernel answers to the steps of writing one record after its reservation, and to
    the steps that clean up when one fails. *)
Record write_answer := mk_answer {
  w_data_fails : bool;    (** [writev], [fsync] *)
  w_rename_fails : bool;
  w_unlink_fails : bool;
  w_stat_fails : bool;
  w_observe_fails : bool;
}.

(** A record of a batch on its way: its name, its size and what it will meet. *)
Record Entry := mk_entry { e_name : string; e_size : Z; e_answer : write_answer }.

Inductive outcome := Wrote (name : string) | NoRoom | TooManyBodies | WriteFailed.

#[export] Instance outcome_eq_dec : EqDecision outcome.
Proof. solve_decision. Defined.

(** The local admission of a batch: what stays within the bound is charged and in flight. *)
Fixpoint admit_local (limit : Z) (batch : list Entry) (c : Charges) : Charges * list Entry :=
  match batch with
  | [] => (c, [])
  | e :: batch =>
      if c_bytes c + e_size e <=? limit
      then let '(c, live) := admit_local limit batch (account (e_name e) (Some (e_size e)) (start_writing (e_name e) c)) in
           (c, e :: live)
      else admit_local limit batch c
  end.

(** [_failed_write]: the charge goes where the bytes are. *)
Definition failed_write (e : Entry) (d : Disk) (c : Charges) : Charges :=
  let name := e_name e in
  match lstat (w_stat_fails (e_answer e)) (tmp_of name) d with
  | Missing => observe (w_observe_fails (e_answer e)) name d c
  | Unknown => c
  | Size _ => move (w_observe_fails (e_answer e)) name (tmp_of name) d c
  end.

(** [fail] of [write_batch] *)
Definition fail_write (e : Entry) (d : Disk) (c : Charges) : Disk * Charges :=
  let d := (unlink (w_unlink_fails (e_answer e)) (tmp_of (e_name e)) d).1 in
  (d, stop_writing (e_name e) (failed_write e d c)).

Definition Results : Type := list (string * outcome).

(** The reservations of the live records: what failed is cleaned up, what was refused is no
    longer charged. *)
Fixpoint after_reserve (live : list Entry) (got : list reserved) (d : Disk) (c : Charges)
    : Disk * Charges * list Entry * Results :=
  match live, got with
  | e :: live, r :: got =>
      match r with
      | Descriptor =>
          let '(d, c, live, res) := after_reserve live got d c in (d, c, e :: live, res)
      | Refused =>
          let '(d, c, live, res) := after_reserve live got d (account (e_name e) None (stop_writing (e_name e) c)) in
          (d, c, live, res)
      | Errored =>
          let '(d, c) := fail_write e d c in
          let '(d, c, live, res) := after_reserve live got d c in (d, c, live, (e_name e, WriteFailed) :: res)
      end
  | _, _ => (d, c, [], [])
  end.

(** Keep the records a step succeeds for; the others fail. *)
Fixpoint keep_live (ok : list (Entry * bool)) (d : Disk) (c : Charges) : Disk * Charges * list Entry * Results :=
  match ok with
  | [] => (d, c, [], [])
  | (e, true) :: ok => let '(d, c, live, res) := keep_live ok d c in (d, c, e :: live, res)
  | (e, false) :: ok =>
      let '(d, c) := fail_write e d c in
      let '(d, c, live, res) := keep_live ok d c in (d, c, live, (e_name e, WriteFailed) :: res)
  end.

(** The end of a write: charged, and its outcome awaited. *)
Definition finish_charge (c : Charges) (e : Entry) : Charges :=
  account (e_name e) (Some (e_size e)) (stop_writing (e_name e) c).
Definition finish_mine (o : Outcomes) (e : Entry) : Outcomes :=
  mk_outcomes ({[e_name e]} ∪ o_mine o) (o_retiring o) (o_failed o).

(** What the shared steps of a batch meet: the admission, the admission lock for the renames
    and the directory's [fsync]. *)
Record batch_answer := mk_batch_answer {
  b_reserve : reserve_answer;
  b_rename_busy : bool;
  b_sync_fails : bool;
}.

(** [write_batch] on prepared records. *)
Definition write_prepared (batch : list Entry) (reserve : bool) (answer : batch_answer) (d : Disk) (s : Spool)
    : Disk * Spool * list outcome :=
  let limit := sp_max s + (if reserve then sp_reserve s else 0) in
  let '(c, live) := admit_local limit batch (sp_charges s) in
  let '(d, a, got) := reserve_many (b_reserve answer) ((λ e, (tmp_of (e_name e), e_size e)) <$> live) limit d (sp_admission s) in
  let '(d, c, live, res1) := after_reserve live got d c in
  let '(d, c, live, res2) := keep_live ((λ e, (e, negb (w_data_fails (e_answer e)))) <$> live) d c in
  let '(d, moved) :=
    rename_many (if b_rename_busy answer then None else Some ((λ e, w_rename_fails (e_answer e)) <$> live))
      (e_name <$> live) d in
  let '(d, c, live, res3) := keep_live (zip live moved) d c in
  let '(d, c, live, res4) := keep_live ((λ e, (e, negb (b_sync_fails answer))) <$> live) d c in
  let c := foldl finish_charge c live in
  let res := res1 ++ res2 ++ res3 ++ res4 ++ ((λ e, (e_name e, Wrote (e_name e))) <$> live) in
  (d, set_admission a (set_outcomes (foldl finish_mine (sp_outcomes s) live) (set_charges c s)),
   (λ e, default NoRoom (dget (e_name e) res)) <$> batch).

(** *** Preparing records *)

(** A record to write: its entry and its bodies; the time and the nonce it gets. *)
Record Job := mk_job { j_doc : Doc; j_bodies : list string; j_at : Z; j_nonce : string; j_answer : write_answer }.

Definition epoch_of (doc : Doc) : Z :=
  match JsonValues.vget "source_epoch" (JsonValues.get "source" doc) with JInt z => z | _ => 0 end.

(** The names and the frames of [_prepare]: an order is used up for every record; [None] where
    framing raises. *)
Fixpoint frame_all (pid order : Z) (jobs : list Job) : Z * option (list (Job * string * list string)) :=
  match jobs with
  | [] => (order, Some [])
  | j :: jobs =>
      match frame (stamp order (j_at j) (j_doc j)) (j_bodies j) with
      | None => (order + 1, None)
      | Some pieces =>
          let '(next, rest) := frame_all pid (order + 1) jobs in
          (next, rest ← rest; Some ((j, record_name (epoch_of (j_doc j)) pid order, pieces) :: rest))
      end
  end.

Definition sealed (key : option (Cipher * string)) (j : Job) (name : string) (pieces : list string) : list string :=
  match key with Some (cipher, kid) => seal_pieces cipher kid (j_nonce j) name pieces | None => pieces end.

Definition prepared_entry (key : option (Cipher * string)) (p : Job * string * list string) : Entry :=
  let '(j, name, pieces) := p in mk_entry name (len (concat_bytes (sealed key j name pieces))) (j_answer j).

(** [_prepare] *)
Definition prepare (key : option (Cipher * string)) (group : bool) (jobs : list Job) (s : Spool)
    : Spool * option (list Entry) :=
  let '(next, framed) := frame_all (sp_pid s) (sp_order s) jobs in
  (set_order next s,
   named ← framed;
   named ← match named with
           | (j, name, _) :: _ =>
               if group then pieces ← batch_frame (snd <$> named); Some [(j, name, pieces)] else Some named
           | [] => Some []
           end;
   Some (prepared_entry key <$> (named : list (Job * string * list string)))).

(** [write_batch]; [None] where preparing raises, before anything is written. Records over
    their body bound are refused in place. *)
Definition write_kept (key : option (Cipher * string)) (reserve group : bool) (jobs : list Job) (answer : batch_answer)
    (d : Disk) (s : Spool) : Disk * Spool * option (list outcome) :=
  let '(s, prepared) := prepare key group jobs s in
  match prepared with
  | None => (d, s, None)
  | Some batch => let '(d, s, res) := write_prepared batch reserve answer d s in (d, s, Some res)
  end.

(** The outcomes of the records that were kept, put between the refusals ([_merge_refused]). *)
Fixpoint merge_refused (jobs : list Job) (written : list outcome) : list outcome :=
  match jobs with
  | [] => []
  | j :: jobs =>
      if over_bound (j_doc j) then TooManyBodies :: merge_refused jobs written
      else default WriteFailed (head written) :: merge_refused jobs (tail written)
  end.

Definition write_batch (key : option (Cipher * string)) (reserve : bool) (jobs : list Job) (answer : batch_answer)
    (d : Disk) (s : Spool) : Disk * Spool * option (list outcome) :=
  match filter (λ j, over_bound (j_doc j) = false) jobs with
  | [] => (d, s, Some (merge_refused jobs []))
  | kept =>
      let '(d, s, res) := write_kept key reserve false kept answer d s in
      (d, s, merge_refused jobs <$> res)
  end.

(** [write_group]: one batch file, else a file for each record. *)
Definition write_group (key : option (Cipher * string)) (jobs : list Job) (answer answer2 : batch_answer) (d : Disk) (s : Spool)
    : Disk * Spool * option (list outcome) :=
  match filter (λ j, over_bound (j_doc j) = false) jobs with
  | [] => (d, s, Some (merge_refused jobs []))
  | [j] => let '(d, s, res) := write_kept key false false [j] answer d s in (d, s, merge_refused jobs <$> res)
  | kept =>
      let '(d, s, res) := write_kept key false true kept answer d s in
      match res with
      | Some [NoRoom] =>
          let '(d, s, res) := write_kept key false false kept answer2 d s in (d, s, merge_refused jobs <$> res)
      | Some [result] => (d, s, Some (merge_refused jobs ((λ _, result) <$> kept)))
      | _ => (d, s, None)
      end
  end.

(** ** Retiring, quarantining, settling *)

(** What retiring one record meets. *)
Record retire_answer := mk_retire_answer {
  t_unlink_fails : bool;    (** other than a missing file *)
  t_lock_busy : bool;       (** the admission lock of the rename *)
  t_rename_fails : bool;
  t_truncate_fails : bool;
  t_now : Z;
  t_observe_fails : bool;
}.

(** [_truncate]: nothing when the file is gone. *)
Definition truncate (fails : bool) (now : Z) (name : string) (d : Disk) : Disk * bool :=
  match d !! name with
  | None => (d, true)
  | Some f => if fails then (d, false) else (<[name := mk_file (f_inode f) 0 now]> d, true)
  end.

(** An own record is settled before it disappears; a retry still unlinks it. *)
Definition claim_retiring (name : string) (o : Outcomes) : Outcomes * bool :=
  let o := if decide (name ∈ o_mine o)
           then mk_outcomes (o_mine o ∖ {[name]}) ({[name]} ∪ o_retiring o) (o_failed o) else o in
  (o, bool_decide (name ∈ o_retiring o)).

(** The files of one retirement: whether it is done, and whether the receipt was made. *)
Definition retire_file (a : retire_answer) (own : bool) (name : string) (d : Disk) : Disk * bool * bool :=
  if own then
    if t_unlink_fails a then (d, false, false) else ((unlink false name d).1, true, false)
  else
    let '(d, m) := rename (t_lock_busy a || t_rename_fails a) name (ack_of name) d in
    match m with
    | MoveFailed => (d, false, false)
    | _ => let '(d, ok) := truncate (t_truncate_fails a) (t_now a) (ack_of name) d in (d, ok, true)
    end.

(** [_settle_retired] *)
Definition settle_retired (a : retire_answer) (own renamed : bool) (name : string) (d : Disk) (c : Charges) : Charges :=
  if own then observe (t_observe_fails a) name d c
  else if renamed then move (t_observe_fails a) name (ack_of name) d c
  else c.

(** One turn of the loop of [retire_many]. *)
Definition retire_one (a : retire_answer) (name : string) (d : Disk) (s : Spool) : Disk * Spool * bool * (bool * bool) :=
  let '(o, own) := claim_retiring name (sp_outcomes s) in
  let '(d, ok, renamed) := retire_file a own name d in
  let s := set_outcomes o s in
  (d, if ok then s else set_charges (settle_retired a own renamed name d (sp_charges s)) s, ok, (own, renamed)).

(** The loop: what is done, until one fails. *)
Fixpoint retire_each (names : list string) (answers : list retire_answer) (d : Disk) (s : Spool)
    : Disk * Spool * list (string * retire_answer * (bool * bool)) * bool :=
  match names, answers with
  | name :: names, a :: answers =>
      let '(d, s, ok, how) := retire_one a name d s in
      if ok then
        let '(d, s, done, fine) := retire_each names answers d s in (d, s, (name, a, how) :: done, fine)
      else (d, s, [], false)
  | _, _ => (d, s, [], true)
  end.

(** What looking at, truncating and removing a file of the directory meets. *)
Record scan_answer := mk_scan_answer { n_stat_fails : bool; n_truncate_fails : bool; n_unlink_fails : bool }.

(** [_trim]: the oldest receipts over the count go. *)
Definition receipt_leb (p q : Z * string) : bool := (p.1 <? q.1) || ((p.1 =? q.1) && String.leb p.2 q.2).

Definition receipts_of (answers : string → scan_answer) (d : Disk) : list (Z * string) :=
  omap (λ p, if is_ack p.1 && negb (startswith "." p.1) && negb (n_stat_fails (answers p.1))
             then Some (f_mtime p.2, p.1) else None) (map_to_list d).

Definition trim_one (answers : string → scan_answer) (st : Disk * Charges) (p : Z * string) : Disk * Charges :=
  if n_unlink_fails (answers p.2) then st else ((unlink false p.2 st.1).1, account p.2 None st.2).

Definition trim (answers : string → scan_answer) (d : Disk) (s : Spool) : Disk * Spool :=
  if negb (sp_holder s) || (c_receipts (sp_charges s) <=? sp_max_receipts s) then (d, s)
  else
    let entries := py_sort receipt_leb (receipts_of answers d) in
    let n := Z.to_nat (Z.max 0 (Z.of_nat (length entries) - sp_max_receipts s)) in
    let '(d, c) := foldl (trim_one answers) (d, sp_charges s) (take n entries) in
    (d, set_charges c s).

(** [retire_many]: how many of the names are retired, and whether nothing failed. *)
Definition retire_many (names : list string) (answers : list retire_answer) (sync_fails : bool) (answers' : string → scan_answer)
    (d : Disk) (s : Spool) : Disk * Spool * Z * bool :=
  let '(d, s, done, fine) := retire_each names answers d s in
  let synced := bool_decide (done = []) || negb sync_fails in
  let c := foldl (λ c p, settle_retired p.1.2 p.2.1 p.2.2 p.1.1 d c) (sp_charges s) done in
  let s := set_charges c s in
  let o := sp_outcomes s in
  let s := if synced
           then set_outcomes (mk_outcomes (o_mine o) (o_retiring o ∖ list_to_set done.*1.*1) (o_failed o)) s else s in
  let '(d, s) := trim answers' d s in
  (d, s, if synced then Z.of_nat (length done) else 0, fine && synced).

(** An own record that is quarantined is a failure now. *)
Definition claim_corrupt (name : string) (o : Outcomes) : Outcomes :=
  if decide (name ∈ o_mine o) then mk_outcomes (o_mine o ∖ {[name]}) (o_retiring o) (o_failed o + 1) else o.

(** [quarantine]; false where it raises. *)
Definition quarantine (busy rename_fails sync_fails observe_fails : bool) (name : string) (d : Disk) (s : Spool)
    : Disk * Spool * bool :=
  let s := set_outcomes (claim_corrupt name (sp_outcomes s)) s in
  let '(d, m) := rename (busy || rename_fails) name (corrupt_of name) d in
  if decide (m = Moved) then
    (d, set_charges (move observe_fails name (corrupt_of name) d (sp_charges s)) s, negb sync_fails)
  else (d, s, false).

(** One name of [settle]: gone with a receipt is delivered, gone without one has failed;
    [unlink_fails] is an error other than a missing receipt, which [settle] raises. *)
Definition settle_one (unlink_fails : bool) (name : string) (d : Disk) (s : Spool) : Disk * Spool * bool :=
  if bool_decide (is_Some (d !! name)) then (d, s, true)
  else if unlink_fails then (d, s, false)
  else
    let '(d, receipt) := unlink false (ack_of name) d in
    let s := set_charges (account (ack_of name) None (sp_charges s)) s in
    let o := sp_outcomes s in
    (d, if decide (name ∈ o_mine o)
        then set_outcomes (mk_outcomes (o_mine o ∖ {[name]}) (o_retiring o) (o_failed o + b2z (negb receipt))) s
        else s, true).

Fixpoint settle_each (unlink_fails : string → bool) (names : list string) (d : Disk) (s : Spool) : Disk * Spool * bool :=
  match names with
  | [] => (d, s, true)
  | name :: names =>
      let '(d, s, ok) := settle_one (unlink_fails name) name d s in
      if ok then settle_each unlink_fails names d s else (d, s, false)
  end.

(** [settle]: how many of the names are pending; [None] where it raises. *)
Definition settle (unlink_fails : string → bool) (names : option (gset string)) (d : Disk) (s : Spool)
    : Disk * Spool * option Z :=
  let '(d, s, ok) := settle_each unlink_fails (elements (o_mine (sp_outcomes s))) d s in
  let mine := o_mine (sp_outcomes s) in
  (d, s, if ok then Some (Z.of_nat (size (match names with None => mine | Some names => mine ∩ names end))) else None).

(** [pending], [names]: an own write in flight is not read. *)
Definition pending (s : Spool) : gset string := o_mine (sp_outcomes s).
Definition names (d : Disk) (s : Spool) : list string :=
  sort_str (filter (λ n, endswith REC_SUFFIX n = true ∧ startswith "." n = false ∧ n ∉ c_writing (sp_charges s))
    (map_to_list d).*1).

(** ** Rebuilding the ledger *)

Definition RECEIPT_TTL_NS : Z := 3600 * 1000000000.

(** One name of [_rescan]: the scanned sizes and whether one could not be observed. *)
Definition rescan_one (holder : bool) (ledger_prefix : string) (now : Z) (answers : string → scan_answer)
    (st : Disk * gmap string Z * bool) (name : string) : Disk * gmap string Z * bool :=
  let '(d, scanned, unknown) := st in
  let a := answers name in
  let ack := is_ack name in
  let tmp := startswith TMP_PREFIX name || startswith ledger_prefix name in
  match d !! name with
  | None => st
  | Some f =>
      if n_stat_fails a then (d, scanned, unknown || bool_decide (is_Some (accounted name 0)))
      else
        let d := if ack && holder && negb (f_size f =? 0) then (truncate (n_truncate_fails a) now name d).1 else d in
        let f := default f (d !! name) in
        if (tmp || ack) && holder && (f_mtime f <? now - RECEIPT_TTL_NS) && negb (n_unlink_fails a)
        then (delete name d, scanned, unknown)
        else (d, match accounted name (f_size f) with Some n => <[name := n]> scanned | None => scanned end, unknown)
  end.

(** The start of a rescan: what is in flight is newer than what it will see. *)
Definition rescan_start (c : Charges) : Charges :=
  mk_charges (c_files c) (c_bytes c) (c_receipts c) (c_writing c) (Some (c_writing c)).

Definition sum_charges (m : gmap string Z) : Z := sum (map_to_list m).*2.
Definition count_receipts (m : gmap string Z) : Z :=
  Z.of_nat (length (filter (λ p, is_ack p.1 = true) (map_to_list m))).

(** The end of a rescan: newer entries stay; an incomplete scan releases nothing. *)
Definition rescan_end (scanned : gmap string Z) (unknown : bool) (c : Charges) : Charges :=
  let scanned := if unknown then scanned ∪ c_files c else scanned in
  let newer := default ∅ (c_touched c) ∪ c_writing c in
  let charged := filter (λ n, is_Some (c_files c !! n)) newer in
  let scanned := foldr delete scanned (tmp_of <$> elements charged) in
  let scanned := foldr (λ n m, match c_files c !! n with Some v => <[n := v]> m | None => delete n m end) scanned
                   (elements newer) in
  mk_charges scanned (sum_charges scanned) (count_receipts scanned) (c_writing c) None.

(** [rescan] when nothing else happens meanwhile. *)
Definition rescan (ledger_prefix : string) (now : Z) (answers answers' : string → scan_answer)
    (d : Disk) (s : Spool) : Disk * Spool :=
  let c := rescan_start (sp_charges s) in
  let '(d, scanned, unknown) :=
    foldl (rescan_one (sp_holder s) ledger_prefix now answers) (d, ∅, false) (map_to_list d).*1 in
  trim answers' d (set_charges (rescan_end scanned unknown c) s).
