(* ===== verification/SpoolNames.v ===== *)
(** * The names of the spool directory

    The names a record takes - its temp file, the record, its receipt, its quarantined file -
    are different, different for different records, and each counts against the bound
    ([_accounted] of [fabric/wire/_spool.py]). *)

From stdpp Require Import gmap relations.
From S2P Require Import Prelude PyDict Hash Json Decimal Ids SpoolHeader SpoolFrame Spool.

(** ** Sums and lists *)

Lemma sum_perm l l' : l ≡ₚ l' → sum l = sum l'.
Proof. induction 1; simpl; lia. Qed.

Lemma sum_app l k : sum (l ++ k) = sum l + sum k.
Proof. induction l as [|x l IH]; simpl; lia. Qed.

Lemma fst_pair_map {A} (f : A → A * bool) (l : list A) : (∀ a, (f a).1 = a) → (f <$> l).*1 = l.
Proof. intros H. rewrite <-list_fmap_compose. rewrite <-(list_fmap_id l) at 2. apply list_fmap_ext. intros ? ? _. apply H. Qed.

(** ** Names *)

Lemma endswith_spec suffix s : endswith suffix s = true ↔ ∃ t, s = t +:+ suffix.
Proof.
  split.
  - induction s as [|c s IH]; simpl; rewrite orb_true_iff, bool_decide_eq_true.
    + intros [H|]; [|done]. by exists "".
    + intros [<-|H]; [by exists ""|]. destruct (IH H) as [t ->]. by exists (String c t).
  - intros [t ->]. induction t as [|c t IH]; simpl.
    + destruct suffix; cbn [endswith]; apply orb_true_iff; left; by apply bool_decide_eq_true.
    + rewrite IH. by rewrite orb_true_r.
Qed.

Lemma app_suffix_inj a b s t : String.length s = String.length t → a +:+ s = b +:+ t → a = b ∧ s = t.
Proof.
  intros Hl H. apply (f_equal String.list_ascii_of_string) in H.
  assert (∀ x y, String.list_ascii_of_string (x +:+ y) = String.list_ascii_of_string x ++ String.list_ascii_of_string y) as Ha.
  { intros x y. induction x; simpl; congruence. }
  assert (∀ x, length (String.list_ascii_of_string x) = String.length x) as Hs by (intros x; induction x; simpl; congruence).
  rewrite !Ha in H. apply app_inj_2 in H as [H1 H2]; [|by rewrite !Hs].
  split; rewrite <-String.string_of_list_ascii_of_string; [rewrite <-H1|rewrite <-H2];
    by rewrite String.string_of_list_ascii_of_string.
Qed.

(** A record name: it ends in [.rec] and is not hidden. *)
Definition good (n : string) : Prop := endswith REC_SUFFIX n = true ∧ startswith "." n = false.

Lemma good_not_ack n : good n → is_ack n = false.
Proof.
  intros [(t & ->)%endswith_spec _]. destruct (is_ack _) eqn:E; [|done].
  apply endswith_spec in E as [u E]. by apply app_suffix_inj in E as [_ ?].
Qed.

Lemma tmp_not_ack n : good n → is_ack (tmp_of n) = false.
Proof.
  intros [(t & ->)%endswith_spec _]. unfold tmp_of. destruct (is_ack _) eqn:E; [|done].
  apply endswith_spec in E as [u E]. rewrite <-string_app_assoc in E. by apply app_suffix_inj in E as [_ ?].
Qed.

Lemma is_ack_of n : is_ack (ack_of n) = true.
Proof. apply endswith_spec. by exists n. Qed.

Lemma corrupt_not_ack n : is_ack (corrupt_of n) = false.
Proof.
  destruct (is_ack _) eqn:E; [|done]. apply endswith_spec in E as [u E]. unfold corrupt_of in E.
  change QUARANTINE_SUFFIX with (".cor" +:+ "rupt") in E. rewrite <-string_app_assoc in E.
  change ACK_SUFFIX with ("" +:+ ".ack") in E. rewrite <-string_app_assoc in E. by apply app_suffix_inj in E as [_ ?].
Qed.

Lemma prefix_tmp n : startswith TMP_PREFIX (tmp_of n) = true.
Proof. vm_compute. by destruct n. Qed.

Lemma not_tmp_good n : startswith "." n = false → startswith TMP_PREFIX n = false.
Proof.
  destruct n as [|c n]; [done|]. unfold startswith. cbn [String.prefix TMP_PREFIX].
  destruct (ascii_dec _ c); [by destruct n|done].
Qed.

Lemma accounted_tmp n z : good n → accounted (tmp_of n) z = Some z.
Proof. intros H. unfold accounted. by rewrite tmp_not_ack, prefix_tmp. Qed.
Lemma accounted_good n z : good n → accounted n z = Some z.
Proof. intros H. unfold accounted. rewrite good_not_ack by done. destruct H as [-> _]. by rewrite orb_true_r. Qed.
Lemma accounted_ack n z : accounted (ack_of n) z = Some (Z.max z RECEIPT_OVERHEAD).
Proof. unfold accounted. by rewrite is_ack_of. Qed.
Lemma accounted_corrupt n z : accounted (corrupt_of n) z = Some z.
Proof.
  unfold accounted. rewrite corrupt_not_ack.
  assert (endswith QUARANTINE_SUFFIX (corrupt_of n) = true) as -> by (apply endswith_spec; by exists n).
  by rewrite orb_true_r.
Qed.

Lemma tmp_inj n m : tmp_of n = tmp_of m → n = m.
Proof. unfold tmp_of. simpl. by intros [= ->]. Qed.
Lemma ack_inj n m : ack_of n = ack_of m → n = m.
Proof. intros H. by apply app_suffix_inj in H as [? _]. Qed.
Lemma corrupt_inj n m : corrupt_of n = corrupt_of m → n = m.
Proof. intros H. by apply app_suffix_inj in H as [? _]. Qed.
Lemma good_ne_tmp n m : good n → n ≠ tmp_of m.
Proof. intros [_ H] ->. apply not_tmp_good in H. by rewrite prefix_tmp in H. Qed.
Lemma good_ne_ack n m : good n → n ≠ ack_of m.
Proof. intros H ->. pose proof (is_ack_of m) as Ha. by rewrite good_not_ack in Ha. Qed.
Lemma good_ne_corrupt n m : good n → n ≠ corrupt_of m.
Proof.
  intros [(t & ->)%endswith_spec _] H. unfold corrupt_of in H. change QUARANTINE_SUFFIX with (".cor" +:+ "rupt") in H.
  rewrite <-string_app_assoc in H. by apply app_suffix_inj in H as [_ ?].
Qed.
Lemma ack_ne_corrupt n m : ack_of n ≠ corrupt_of m.
Proof. intros H. pose proof (is_ack_of n) as Ha. by rewrite H, corrupt_not_ack in Ha. Qed.
Lemma tmp_ne_ack n m : good n → tmp_of n ≠ ack_of m.
Proof. intros Hg H. pose proof (is_ack_of m) as Ha. by rewrite <-H, tmp_not_ack in Ha. Qed.
Lemma tmp_ne_corrupt n m : good n → tmp_of n ≠ corrupt_of m.
Proof.
  intros [(t & ->)%endswith_spec _] H. unfold corrupt_of, tmp_of in H. change QUARANTINE_SUFFIX with (".cor" +:+ "rupt") in H.
  rewrite <-!string_app_assoc in H. by apply app_suffix_inj in H as [_ ?].
Qed.
