(* ===== verification/SpoolCharges.v ===== *)
(** * The spool's ledger of charges

    Every method of [Spool] ([fabric/wire/_spool.py]) keeps [bytes] the sum of the charges and
    [receipts] the number of charged receipts, and leaves no write in flight, whatever the
    kernel answers and whatever other processes do to the directory between two calls. *)

From stdpp Require Import gmap relations.
From S2P Require Import Prelude PyDict Hash Json Decimal Ids SpoolHeader SpoolFrame Spool SpoolNames.

(** ** Sums over a ledger *)

Lemma sum_charges_insert m n v : m !! n = None → sum_charges (<[n := v]> m) = v + sum_charges m.
Proof. intros H. unfold sum_charges. by rewrite (sum_perm _ (v :: (map_to_list m).*2)) by (by rewrite map_to_list_insert). Qed.

Lemma sum_charges_delete m n : sum_charges (delete n m) = sum_charges m - default 0 (m !! n).
Proof.
  destruct (m !! n) as [v|] eqn:E; simpl; [|rewrite delete_id by done; lia].
  rewrite <-(insert_delete_id m n v E) at 2. rewrite sum_charges_insert by apply lookup_delete_eq. lia.
Qed.

Lemma count_receipts_insert m n v :
  m !! n = None → count_receipts (<[n := v]> m) = b2z (is_ack n) + count_receipts m.
Proof.
  intros H. unfold count_receipts. rewrite (map_to_list_insert m n v H), filter_cons. simpl.
  destruct (is_ack n) eqn:E; [rewrite decide_True by done|rewrite decide_False by done]; simpl; lia.
Qed.

Lemma count_receipts_delete m n :
  count_receipts (delete n m) = count_receipts m - b2z (is_ack n && bool_decide (is_Some (m !! n))).
Proof.
  destruct (m !! n) as [v|] eqn:E.
  - rewrite (bool_decide_true (is_Some (Some v))), andb_true_r by eauto.
    rewrite <-(insert_delete_id m n v E) at 2. rewrite count_receipts_insert by apply lookup_delete_eq. lia.
  - rewrite (bool_decide_false (is_Some None)), andb_false_r by (intros [? ?]; done). rewrite delete_id by done. simpl. lia.
Qed.

(** ** The ledger is exact *)

Definition charges_ok (c : Charges) : Prop :=
  c_bytes c = sum_charges (c_files c) ∧ c_receipts c = count_receipts (c_files c).

Lemma account_ok name size c : charges_ok c → charges_ok (account name size c).
Proof.
  intros [Hb Hr]. split; unfold account; cbn [c_bytes c_receipts c_files].
  - rewrite Hb. destruct size as [n|]; simpl; [|rewrite sum_charges_delete; lia].
    rewrite <-insert_delete_eq, sum_charges_insert by apply lookup_delete_eq. rewrite sum_charges_delete. lia.
  - rewrite Hr. destruct size as [n|].
    + rewrite <-insert_delete_eq, count_receipts_insert by apply lookup_delete_eq. rewrite count_receipts_delete.
      destruct (is_ack name), (c_files c !! name); cbn; lia.
    + rewrite count_receipts_delete. destruct (is_ack name), (c_files c !! name); cbn; lia.
Qed.

(** ** What every step of the ledger keeps

    [keeps X c c']: exact stays exact, no rescan appears or ends, and what is in flight after
    was in flight before or is in [X]. *)
Definition keeps (X : gset string) (c c' : Charges) : Prop :=
  (charges_ok c → charges_ok c') ∧ (c_touched c = None → c_touched c' = None) ∧ c_writing c' ⊆ c_writing c ∪ X.

#[export] Instance keeps_refl X : Reflexive (keeps X).
Proof. intros c. split_and!; [done|done|set_solver]. Qed.

#[export] Instance keeps_trans X : Transitive (keeps X).
Proof. intros a b c (H1 & H2 & H3) (H4 & H5 & H6). split_and!; [auto|auto|set_solver]. Qed.

Create HintDb ledger.

Lemma account_keeps X name size c : keeps X c (account name size c).
Proof. split_and!; [apply account_ok|by intros H; simpl; rewrite H|set_solver]. Qed.
#[export] Hint Resolve account_keeps : ledger.

Lemma observe_keeps X fails name d c : keeps X c (observe fails name d c).
Proof. unfold observe. destruct (lstat _ _ _); [apply account_keeps|done|apply account_keeps]. Qed.
#[export] Hint Resolve observe_keeps : ledger.

Lemma move_keeps X fails src dst d c : keeps X c (move fails src dst d c).
Proof.
  unfold move. trans (move_charge src dst c).
  - unfold move_charge. destruct (c_files c !! src); [|done]. by etrans; [|apply account_keeps]; auto with ledger.
  - destruct (lstat _ _ _); auto with ledger; done.
Qed.
#[export] Hint Resolve move_keeps : ledger.

Lemma stop_writing_keeps X name c : keeps X c (stop_writing name c).
Proof. split_and!; [done|done|simpl; set_solver]. Qed.
#[export] Hint Resolve stop_writing_keeps : ledger.

Lemma start_writing_keeps (X : gset string) name c : name ∈ X → keeps X c (start_writing name c).
Proof. intros H. split_and!; [done|done|simpl; set_solver]. Qed.

Lemma foldl_keeps {A} X (f : Charges → A → Charges) l c : (∀ c a, keeps X c (f c a)) → keeps X c (foldl f c l).
Proof. intros Hf. revert c. induction l as [|a l IH]; intros c; simpl; [done|]. by etrans; [apply Hf|]. Qed.

(** *** Writes in flight

    [passes live c live' c']: a step of a batch that leaves [live'] of the writes [live] in
    flight, and takes nothing else out of flight or into it. *)
Definition names_of (live : list Entry) : gset string := list_to_set (e_name <$> live).

Definition passes (live : list Entry) (c : Charges) (live' : list Entry) (c' : Charges) : Prop :=
  (charges_ok c → charges_ok c') ∧ (c_touched c = None → c_touched c' = None)
  ∧ ∀ X, c_writing c ⊆ names_of live ∪ X → c_writing c' ⊆ names_of live' ∪ X.

Lemma passes_refl live c : passes live c live c.
Proof. by split_and!. Qed.

Lemma passes_trans l c l' c' l'' c'' : passes l c l' c' → passes l' c' l'' c'' → passes l c l'' c''.
Proof. intros (H1 & H2 & H3) (H4 & H5 & H6). split_and!; auto. Qed.

Lemma passes_cons e l c l' c' : passes l c l' c' → passes (e :: l) c (e :: l') c'.
Proof.
  intros (H1 & H2 & H3). split_and!; [done|done|]. intros X HX.
  specialize (H3 ({[e_name e]} ∪ X)). unfold names_of in *. simpl in *. set_solver.
Qed.

Lemma passes_drop e l c c' : keeps ∅ c c' → e_name e ∉ c_writing c' → passes (e :: l) c l c'.
Proof.
  intros (H1 & H2 & H3) He. split_and!; [done|done|]. intros X HX. unfold names_of in *. simpl in *. set_solver.
Qed.

Lemma passes_keeps l c c' : keeps ∅ c c' → passes l c l c'.
Proof. intros (H1 & H2 & H3). split_and!; [done|done|]. set_solver. Qed.

Lemma fail_write_passes e l d c d' c' : fail_write e d c = (d', c') → passes (e :: l) c l c'.
Proof.
  unfold fail_write. intros [= <- <-]. apply passes_drop; [|simpl; set_solver].
  etrans; [|apply stop_writing_keeps]. unfold failed_write. destruct (lstat _ _ _); [apply observe_keeps|reflexivity|apply move_keeps].
Qed.

Lemma refuse_passes e l c : passes (e :: l) c l (account (e_name e) None (stop_writing (e_name e) c)).
Proof. apply passes_drop; [|simpl; set_solver]. etrans; [apply stop_writing_keeps|apply account_keeps]. Qed.

Lemma finish_passes e l c : passes (e :: l) c l (finish_charge c e).
Proof. apply passes_drop; [|simpl; set_solver]. etrans; [apply stop_writing_keeps|apply account_keeps]. Qed.

Lemma finish_all_passes l c : passes l c [] (foldl finish_charge c l).
Proof. revert c. induction l as [|e l IH]; intros c; simpl; [apply passes_refl|]. by eapply passes_trans; [apply finish_passes|]. Qed.

Lemma admit_local_passes limit batch c c' live : admit_local limit batch c = (c', live) → passes [] c live c'.
Proof.
  revert c c' live. induction batch as [|e batch IH]; intros c c' live; simpl; [intros [= <- <-]; apply passes_refl|].
  destruct (_ <=? _); [|apply IH]. destruct (admit_local _ _ _) as [c1 l1] eqn:E. intros [= <- <-].
  apply passes_trans with [e] (account (e_name e) (Some (e_size e)) (start_writing (e_name e) c)); [|apply passes_cons, (IH _ _ _ E)].
  pose proof (account_keeps ∅ (e_name e) (Some (e_size e)) (start_writing (e_name e) c)) as (H1 & H2 & _).
  split_and!; [by intros; apply H1|by intros; apply H2|]. intros X. unfold names_of. simpl. set_solver.
Qed.

Lemma after_reserve_passes live got d c d' c' live' res :
  length got = length live → after_reserve live got d c = (d', c', live', res) → passes live c live' c'.
Proof.
  revert got d c d' c' live' res. induction live as [|e live IH]; intros [|r got] d c d' c' live' res;
    cbn [after_reserve length]; try done;
    intros Hl; [intros [= <- <- <- <-]; apply passes_refl|]. apply Nat.succ_inj in Hl. destruct r.
  - destruct (after_reserve live got d c) as [[[d1 c1] l1] r1] eqn:E. intros [= <- <- <- <-].
    by eapply passes_cons, IH.
  - destruct (after_reserve live got d _) as [[[d1 c1] l1] r1] eqn:E. intros [= <- <- <- <-].
    eapply passes_trans; [apply refuse_passes|by eapply IH].
  - destruct (fail_write e d c) as [d1 c1] eqn:F. destruct (after_reserve live got d1 c1) as [[[d2 c2] l2] r2] eqn:E.
    intros [= <- <- <- <-]. eapply passes_trans; [by eapply fail_write_passes|by eapply IH].
Qed.

Lemma keep_live_passes ok d c d' c' live' res : keep_live ok d c = (d', c', live', res) → passes ok.*1 c live' c'.
Proof.
  revert d c d' c' live' res. induction ok as [|[e b] ok IH]; intros d c d' c' live' res; cbn [keep_live];
    [intros [= <- <- <- <-]; apply passes_refl|]. destruct b.
  - destruct (keep_live ok d c) as [[[d1 c1] l1] r1] eqn:E. intros [= <- <- <- <-]. by eapply passes_cons, IH.
  - destruct (fail_write e d c) as [d1 c1] eqn:F. destruct (keep_live ok d1 c1) as [[[d2 c2] l2] r2] eqn:E.
    intros [= <- <- <- <-]. eapply passes_trans; [by eapply fail_write_passes|by eapply IH].
Qed.

Lemma reserve_each_length d total limit wanted opens :
  length (reserve_each d total limit wanted opens).2 = length wanted.
Proof.
  revert d total opens. induction wanted as [|[t z] wanted IH]; intros d total opens; simpl; [done|].
  destruct (_ <? _); [by rewrite <-(IH d total (tail opens)); destruct (reserve_each d total _ _ _) as [[? ?] ?]|].
  destruct (d !! t), (default OpenFailed (head opens));
    match goal with |- context [reserve_each ?d ?t ?l ?w ?o] => rewrite <-(IH d t o); by destruct (reserve_each d t l w o) as [[? ?] ?] end.
Qed.

Lemma reserve_many_length answer wanted limit d a : length (reserve_many answer wanted limit d a).2 = length wanted.
Proof.
  unfold reserve_many. destruct wanted as [|w wanted]; [done|]. destruct answer as [| |errs opens]; [by simpl; rewrite length_fmap..|].
  destruct (shared_total errs d a) as [[a' total]|]; [|by simpl; rewrite length_fmap].
  pose proof (reserve_each_length d total limit (w :: wanted) opens) as H.
  destruct (reserve_each _ _ _ (w :: wanted) _) as [[? ?] r]. done.
Qed.

Lemma rename_each_length d names fails : length (rename_each d names fails).2 = length names.
Proof.
  revert d fails. induction names as [|n names IH]; intros d fails; simpl; [done|].
  destruct (rename _ _ _ _) as [d1 m]. specialize (IH d1 (tail fails)). destruct (rename_each d1 names _) as [d2 r]. simpl in *. lia.
Qed.
Lemma rename_many_length fails names d : length (rename_many fails names d).2 = length names.
Proof. unfold rename_many. destruct fails; [apply rename_each_length|by simpl; rewrite length_fmap]. Qed.

(** ** The methods *)

(** [steady s s']: a method's effect on the charges when no other method runs meanwhile. *)
Definition steady (s s' : Spool) : Prop := keeps ∅ (sp_charges s) (sp_charges s').

#[export] Instance steady_refl : Reflexive steady.
Proof. intros s. apply keeps_refl. Qed.
#[export] Instance steady_trans : Transitive steady.
Proof. intros a b c. apply keeps_trans. Qed.

Lemma prepare_charges key group jobs s : sp_charges (prepare key group jobs s).1 = sp_charges s.
Proof. unfold prepare. by destruct (frame_all _ _ _). Qed.

Lemma write_prepared_steady batch reserve answer d s : steady s (write_prepared batch reserve answer d s).1.2.
Proof.
  unfold write_prepared, steady. destruct (admit_local _ _ _) as [c1 l1] eqn:E1. apply admit_local_passes in E1.
  set (w := _ <$> l1). pose proof (reserve_many_length (b_reserve answer) w
    (sp_max s + (if reserve then sp_reserve s else 0)) d (sp_admission s)) as Hl.
  destruct (reserve_many _ w _ _ _) as [[d2 a2] got] eqn:E2. subst w. simpl in Hl. rewrite length_fmap in Hl.
  destruct (after_reserve _ _ _ _) as [[[d3 c3] l3] r3] eqn:E3. apply after_reserve_passes in E3; [|done].
  destruct (keep_live _ _ _) as [[[d4 c4] l4] r4] eqn:E4. apply keep_live_passes in E4. rewrite fst_pair_map in E4 by done.
  pose proof (rename_many_length (if b_rename_busy answer then None else Some ((λ e, w_rename_fails (e_answer e)) <$> l4))
    (e_name <$> l4) d4) as Hm. destruct (rename_many _ _ _) as [d5 moved] eqn:E5. simpl in Hm. rewrite length_fmap in Hm.
  destruct (keep_live _ _ c4) as [[[d6 c6] l6] r6] eqn:E6. apply keep_live_passes in E6.
  rewrite (fst_zip l4 moved) in E6 by (by rewrite Hm).
  destruct (keep_live _ _ c6) as [[[d7 c7] l7] r7] eqn:E7. apply keep_live_passes in E7. rewrite fst_pair_map in E7 by done.
  simpl. pose proof (passes_trans _ _ _ _ _ _ E1 (passes_trans _ _ _ _ _ _ E3 (passes_trans _ _ _ _ _ _ E4
    (passes_trans _ _ _ _ _ _ E6 (passes_trans _ _ _ _ _ _ E7 (finish_all_passes l7 c7)))))) as (H1 & H2 & H3).
  split_and!; [done|done|]. specialize (H3 (c_writing (sp_charges s))). unfold names_of in H3. simpl in H3. set_solver.
Qed.

Lemma write_kept_steady key reserve group jobs answer d s : steady s (write_kept key reserve group jobs answer d s).1.2.
Proof.
  unfold write_kept, steady. pose proof (prepare_charges key group jobs s) as Hc.
  destruct (prepare _ _ _ _) as [s1 [batch|]]; simpl in Hc |- *; [|by rewrite Hc].
  pose proof (write_prepared_steady batch reserve answer d s1) as H. unfold steady in H. rewrite Hc in H.
  by destruct (write_prepared _ _ _ _ _) as [[d2 s2] r2].
Qed.

Lemma write_batch_steady key reserve jobs answer d s : steady s (write_batch key reserve jobs answer d s).1.2.
Proof.
  unfold write_batch. destruct (filter _ jobs) as [|j kept]; [reflexivity|].
  pose proof (write_kept_steady key reserve false (j :: kept) answer d s) as H.
  by destruct (write_kept _ _ _ _ _ _ _) as [[d2 s2] r2].
Qed.

Lemma write_group_steady key jobs answer answer2 d s : steady s (write_group key jobs answer answer2 d s).1.2.
Proof.
  unfold write_group. destruct (filter _ jobs) as [|j [|j' kept]]; [reflexivity| |].
  - pose proof (write_kept_steady key false false [j] answer d s) as H.
    by destruct (write_kept _ _ _ _ _ _ _) as [[d2 s2] r2].
  - pose proof (write_kept_steady key false true (j :: j' :: kept) answer d s) as H.
    destruct (write_kept _ _ _ _ _ _ _) as [[d2 s2] r2].
    pose proof (write_kept_steady key false false (j :: j' :: kept) answer2 d2 s2) as H2.
    destruct (write_kept _ _ _ _ _ _ s2) as [[d3 s3] r3].
    destruct r2 as [[|[] [|? ?]]|]; try done. unfold steady in *. simpl in *. by etrans.
Qed.

Lemma settle_retired_keeps a own renamed name d c : keeps ∅ c (settle_retired a own renamed name d c).
Proof. unfold settle_retired. destruct own; [apply observe_keeps|]. destruct renamed; [apply move_keeps|reflexivity]. Qed.

Lemma retire_one_steady a name d s : steady s (retire_one a name d s).1.1.2.
Proof.
  unfold retire_one, steady. destruct (claim_retiring _ _) as [o own]. destruct (retire_file _ _ _ _) as [[d1 ok] renamed].
  destruct ok; simpl; [reflexivity|apply settle_retired_keeps].
Qed.

Lemma retire_each_steady names answers d s : steady s (retire_each names answers d s).1.1.2.
Proof.
  revert answers d s. induction names as [|n names IH]; intros [|a answers] d s; try reflexivity. cbn [retire_each].
  pose proof (retire_one_steady a n d s) as H. destruct (retire_one a n d s) as [[[d1 s1] ok] how]. destruct ok; [|done].
  specialize (IH answers d1 s1). destruct (retire_each _ _ _ _) as [[[d2 s2] done'] fine]. unfold steady in *. simpl in *. by etrans.
Qed.

Lemma trim_steady answers d s : steady s (trim answers d s).2.
Proof.
  unfold trim, steady. destruct (_ || _); [reflexivity|]. generalize (take (Z.to_nat (Z.max 0
    (Z.of_nat (length (py_sort receipt_leb (receipts_of answers d))) - sp_max_receipts s)))
    (py_sort receipt_leb (receipts_of answers d))) as l. intros l.
  assert (∀ st, keeps ∅ st.2 (foldl (trim_one answers) st l).2) as H.
  { induction l as [|p l IH]; intros st; simpl; [reflexivity|]. etrans; [|apply IH]. unfold trim_one.
    destruct (n_unlink_fails _); [reflexivity|apply account_keeps]. }
  specialize (H (d, sp_charges s)). by destruct (foldl _ _ _).
Qed.

Lemma retire_many_steady names answers sync answers' d s : steady s (retire_many names answers sync answers' d s).1.1.2.
Proof.
  unfold retire_many. pose proof (retire_each_steady names answers d s) as H.
  destruct (retire_each _ _ _ _) as [[[d1 s1] done'] fine].
  set (s2 := set_charges _ s1). assert (steady s s2) as H2.
  { unfold steady in *. simpl in *. etrans; [apply H|]. apply foldl_keeps. intros. apply settle_retired_keeps. }
  clearbody s2. set (s3 := if bool_decide _ || _ then _ else s2).
  assert (sp_charges s3 = sp_charges s2) as E by (unfold s3; by destruct (bool_decide _ || _)). clearbody s3.
  pose proof (trim_steady answers' d1 s3) as Ht. destruct (trim _ _ _) as [d4 s4]. unfold steady in *. simpl in *.
  rewrite E in Ht. by etrans.
Qed.

Lemma quarantine_steady busy fails sync obs name d s : steady s (quarantine busy fails sync obs name d s).1.2.
Proof.
  unfold quarantine. destruct (rename _ _ _ _) as [d1 m]. destruct (decide (m = Moved)); unfold steady; simpl; [|reflexivity].
  apply move_keeps.
Qed.

Lemma settle_one_steady fails name d s : steady s (settle_one fails name d s).1.2.
Proof.
  unfold settle_one. destruct (bool_decide _); [reflexivity|]. destruct fails; [reflexivity|].
  destruct (unlink _ _ _) as [d1 r]. destruct (decide _); unfold steady; simpl; apply account_keeps.
Qed.

Lemma settle_each_steady fails names d s : steady s (settle_each fails names d s).1.2.
Proof.
  revert d s. induction names as [|n names IH]; intros d s; [reflexivity|]. cbn [settle_each].
  pose proof (settle_one_steady (fails n) n d s) as H. destruct (settle_one _ _ _ _) as [[d1 s1] ok].
  destruct ok; [|done]. specialize (IH d1 s1). unfold steady in *. simpl in *. by etrans.
Qed.

Lemma settle_steady fails names d s : steady s (settle fails names d s).1.2.
Proof.
  unfold settle. pose proof (settle_each_steady fails (elements (o_mine (sp_outcomes s))) d s) as H.
  by destruct (settle_each _ _ _ _) as [[d1 s1] ok].
Qed.

Lemma rescan_end_exact scanned unknown c :
  charges_ok (rescan_end scanned unknown c) ∧ c_touched (rescan_end scanned unknown c) = None
  ∧ c_writing (rescan_end scanned unknown c) = c_writing c.
Proof. done. Qed.

Lemma rescan_steady lprefix now answers answers' d s : steady s (rescan lprefix now answers answers' d s).2.
Proof.
  unfold rescan. destruct (foldl _ _ _) as [[d1 scanned] unknown].
  unfold steady. etrans; [|apply trim_steady]. simpl. split_and!; [done|done|set_solver].
Qed.

(** ** One process's calls, other processes' effects between them *)

Inductive call : Disk * Spool → Disk * Spool → Prop :=
  | Elsewhere d d' s : call (d, s) (d', s)
  | WriteBatch key reserve jobs answer d s d' s' r :
      write_batch key reserve jobs answer d s = (d', s', r) → call (d, s) (d', s')
  | WriteGroup key jobs answer answer2 d s d' s' r :
      write_group key jobs answer answer2 d s = (d', s', r) → call (d, s) (d', s')
  | RetireMany names answers sync answers' d s d' s' n b :
      retire_many names answers sync answers' d s = (d', s', n, b) → call (d, s) (d', s')
  | Quarantine busy fails sync obs name d s d' s' b :
      quarantine busy fails sync obs name d s = (d', s', b) → call (d, s) (d', s')
  | Settle fails names d s d' s' n : settle fails names d s = (d', s', n) → call (d, s) (d', s')
  | Rescan lprefix now answers answers' d s d' s' :
      rescan lprefix now answers answers' d s = (d', s') → call (d, s) (d', s')
  | TryLock free d s : call (d, s) (d, try_lock free s)
  | Release d s : call (d, s) (d, release s)
  | Fork pid d s : call (d, s) (d, after_fork pid s).

Definition exact (c : Charges) : Prop := charges_ok c ∧ c_touched c = None ∧ c_writing c = ∅.

Lemma steady_exact s s' : steady s s' → exact (sp_charges s) → exact (sp_charges s').
Proof. intros (H1 & H2 & H3) (E1 & E2 & E3). split_and!; [auto|auto|]. apply set_eq. set_solver. Qed.

Ltac by_steady H lemma :=
  intros E; eapply steady_exact; [|exact E];
  match type of H with ?m = _ => let L := fresh in pose proof lemma as L; rewrite H in L; exact L end.

Lemma call_exact x y : call x y → exact (sp_charges x.2) → exact (sp_charges y.2).
Proof.
  destruct 1 as [| | | | | | |free d s| |]; cbn [snd]; try done.
  - by_steady H (write_batch_steady key reserve jobs answer d s).
  - by_steady H (write_group_steady key jobs answer answer2 d s).
  - by_steady H (retire_many_steady names answers sync answers' d s).
  - by_steady H (quarantine_steady busy fails sync obs name d s).
  - by_steady H (settle_steady fails names d s).
  - by_steady H (rescan_steady lprefix now answers answers' d s).
  - by destruct free.
Qed.

Lemma calls_exact x y : rtc call x y → exact (sp_charges x.2) → exact (sp_charges y.2).
Proof. induction 1 as [|x y z H _ IH]; [done|]. intros E. by apply IH, (call_exact x). Qed.

(** C33: Whatever a process calls, whatever the kernel answers to each step and whatever other
    processes do to the directory between two calls, the ledger of charges is exact: its total
    is the sum of the charges, its count of receipts is the number of charged receipts, no
    write is left in flight and no rescan open. *)
Theorem ledger_exact pid mx rc lb d d' s :
  rtc call (d, init_spool pid mx rc lb) (d', s) →
  c_bytes (sp_charges s) = sum_charges (c_files (sp_charges s))
  ∧ c_receipts (sp_charges s) = count_receipts (c_files (sp_charges s))
  ∧ c_writing (sp_charges s) = ∅ ∧ c_touched (sp_charges s) = None.
Proof.
  intros H. destruct (calls_exact _ _ H) as ((? & ?) & ? & ?); [done|by simpl in *].
Qed.

(** ** A complete rescan *)

(** What the files of a directory count against the bound, by name. *)
Definition accounts (d : Disk) (n : string) : option Z := f ← d !! n; accounted n (f_size f).

Definition fine : scan_answer := mk_scan_answer false false false.

Lemma rescan_one_spec holder lprefix now answers d scanned unknown n :
  (∀ m, n_stat_fails (answers m) = false) →
  let '(d', scanned', unknown') := rescan_one holder lprefix now answers (d, scanned, unknown) n in
  unknown' = unknown ∧ (∀ m, m ≠ n → d' !! m = d !! m ∧ scanned' !! m = scanned !! m)
  ∧ (scanned !! n = None → scanned' !! n = accounts d' n).
Proof.
  intros Hs. unfold rescan_one, accounts. destruct (d !! n) as [f|] eqn:E; [|by rewrite E].
  rewrite Hs. set (d1 := if _ && _ && _ then _ else d).
  assert (is_Some (d1 !! n) ∧ ∀ m, m ≠ n → d1 !! m = d !! m) as [[f1 E1] Hd].
  { unfold d1. destruct (_ && _ && _); [|by rewrite E]. unfold truncate. rewrite E.
    destruct (n_truncate_fails _); cbn [fst]; [by rewrite E|]. split; [eexists; apply lookup_insert_eq|].
    intros m Hm. by apply lookup_insert_ne. }
  clearbody d1. rewrite E1. simpl. destruct (_ && _ && _ && _).
  - split_and!; [done| |intros ->; by rewrite lookup_delete_eq]. intros m Hm. rewrite lookup_delete_ne by done. by rewrite Hd.
  - split_and!; [done| |].
    + intros m Hm. rewrite Hd by done. destruct (accounted _ _); [by rewrite lookup_insert_ne|done].
    + intros Hn. rewrite E1. simpl. destruct (accounted _ _); [by rewrite lookup_insert_eq|done].
Qed.

Lemma rescan_scan holder lprefix now answers l d scanned unknown :
  (∀ m, n_stat_fails (answers m) = false) → NoDup l → (∀ n, n ∈ l → scanned !! n = None) →
  let '(d', scanned', unknown') := foldl (rescan_one holder lprefix now answers) (d, scanned, unknown) l in
  unknown' = unknown ∧ (∀ n, n ∈ l → scanned' !! n = accounts d' n)
  ∧ ∀ n, n ∉ l → d' !! n = d !! n ∧ scanned' !! n = scanned !! n.
Proof.
  intros Hs. revert d scanned unknown. induction l as [|n l IH]; intros d scanned unknown Hl Hn; cbn [foldl].
  { split_and!; [done| |done]. intros n Hn'. by apply elem_of_nil in Hn'. }
  apply NoDup_cons in Hl as [Hnl Hl].
  pose proof (rescan_one_spec holder lprefix now answers d scanned unknown n Hs) as H.
  destruct (rescan_one _ _ _ _ _ _) as [[d1 s1] u1]. destruct H as (-> & Ho & Hx).
  specialize (IH d1 s1 unknown Hl). destruct (foldl _ _ _) as [[d2 s2] u2]. destruct IH as (-> & Hin & Hout).
  { intros m Hm. destruct (Ho m) as [_ ->]; [by intros ->|]. apply Hn. set_solver. }
  split_and!; [done| |].
  - intros m Hm. apply elem_of_cons in Hm as [->|Hm]; [|by apply Hin].
    destruct (Hout n Hnl) as [E1 E2]. rewrite E2, Hx by (apply Hn; set_solver). unfold accounts. by rewrite E1.
  - intros m Hm. apply not_elem_of_cons in Hm as [H1 H2]. destruct (Hout m H2) as [-> ->]. by apply Ho.
Qed.

Definition observed (d : Disk) (c : Charges) : Prop := ∀ n, c_files c !! n = accounts d n.

Lemma trim_one_observed answers st p : observed st.1 st.2 → observed (trim_one answers st p).1 (trim_one answers st p).2.
Proof.
  unfold trim_one, observed, accounts. intros H n. destruct (n_unlink_fails _); [apply H|]. cbn [fst snd account c_files].
  assert ((unlink false p.2 st.1).1 = delete p.2 st.1) as ->.
  { unfold unlink. destruct (st.1 !! p.2) eqn:E; [done|]. simpl. by rewrite delete_id. }
  destruct (decide (n = p.2)) as [->|Hn]; [by rewrite !lookup_delete_eq|]. rewrite !lookup_delete_ne by done. apply H.
Qed.

Lemma trim_observed answers d s : observed d (sp_charges s) → observed (trim answers d s).1 (sp_charges (trim answers d s).2).
Proof.
  unfold trim. destruct (_ || _); [done|]. generalize (take (Z.to_nat (Z.max 0
    (Z.of_nat (length (py_sort receipt_leb (receipts_of answers d))) - sp_max_receipts s)))
    (py_sort receipt_leb (receipts_of answers d))) as l. intros l H.
  assert (∀ st, observed st.1 st.2 → observed (foldl (trim_one answers) st l).1 (foldl (trim_one answers) st l).2) as Hf.
  { clear H. induction l as [|p l IH]; intros st Hst; [done|]. by apply IH, trim_one_observed. }
  specialize (Hf (d, sp_charges s) H). by destruct (foldl _ _ _).
Qed.

(** A rescan that can look at every file, while no write is in flight, leaves a ledger of
    charges that is the directory: each name is charged what its file, as it is after the
    rescan expired and truncated receipts, counts against the bound, and nothing else is
    charged - even where files cannot be truncated or removed. *)
Theorem rescan_observes lprefix now answers answers' d s :
  (∀ n, n_stat_fails (answers n) = false) → c_writing (sp_charges s) = ∅ →
  let '(d', s') := rescan lprefix now answers answers' d s in
  ∀ n, c_files (sp_charges s') !! n = accounts d' n.
Proof.
  intros Hs Hw. unfold rescan.
  pose proof (rescan_scan (sp_holder s) lprefix now answers (map_to_list d).*1 d ∅ false Hs (NoDup_fst_map_to_list d)) as H.
  destruct (foldl _ _ _) as [[d1 scanned] unknown]. destruct H as (-> & Hin & Hout); [intros; apply lookup_empty|].
  pose proof (trim_observed answers' d1 (set_charges (rescan_end scanned false (rescan_start (sp_charges s))) s)) as Ht.
  destruct (trim _ _ _) as [d2 s2]. simpl in Ht. apply Ht. clear Ht. intros n. unfold rescan_end. simpl. rewrite Hw.
  assert (elements (∅ ∪ ∅ : gset string) = []) as -> by (rewrite union_empty_l_L; apply elements_empty).
  rewrite union_empty_l_L, filter_empty_L, elements_empty by apply _. cbn [fmap list_fmap foldr].
  destruct (decide (n ∈ (map_to_list d).*1)) as [Hn|Hn]; [by apply Hin|]. destruct (Hout n Hn) as [E ->].
  unfold accounts. rewrite E, lookup_empty. destruct (d !! n) as [f|] eqn:Ed; [|done]. destruct Hn.
  apply list_elem_of_fmap. exists (n, f). split; [done|]. by apply elem_of_map_to_list.
Qed.

(** ** Examples *)

Definition demo_answer : write_answer := mk_answer false false false false false.
Definition demo_job (body : string) : Job := mk_job demo_loss [body] 17 "" demo_answer.
Definition demo_batch : batch_answer :=
  mk_batch_answer (Granted (λ _, false) [Opened 3 17; Opened 4 17]) false false.

(** A process that wrote two records and quarantined the first. *)
Definition demo_written : Disk * Spool * option (list outcome) :=
  write_batch None false [demo_job ""; demo_job "x"] demo_batch ∅ (init_spool 7 4096 8 0).
Definition demo_quarantined : Disk * Spool * bool :=
  quarantine false false false false (record_name 7 7 0) demo_written.1.1 demo_written.1.2.

Lemma demo_calls : rtc call (∅, init_spool 7 4096 8 0) (demo_quarantined.1.1, demo_quarantined.1.2).
Proof.
  apply rtc_l with (demo_written.1.1, demo_written.1.2).
  - apply (WriteBatch None false [demo_job ""; demo_job "x"] demo_batch _ _ _ _ demo_written.2).
    unfold demo_written. by destruct (write_batch _ _ _ _ _ _) as [[? ?] ?].
  - apply rtc_once. apply (Quarantine false false false false (record_name 7 7 0) _ _ _ _ demo_quarantined.2).
    unfold demo_quarantined. by destruct (quarantine _ _ _ _ _ _ _) as [[? ?] ?].
Qed.

Lemma ledger_exact_witness :
  c_bytes (sp_charges demo_quarantined.1.2) = 655 ∧ sum_charges (c_files (sp_charges demo_quarantined.1.2)) = 655
  ∧ c_writing (sp_charges demo_quarantined.1.2) = ∅.
Proof.
  assert (c_bytes (sp_charges demo_quarantined.1.2) = 655) as E by (vm_compute; reflexivity).
  destruct (ledger_exact _ _ _ _ _ _ _ demo_calls) as (H & _ & Hw & _). split_and!; [exact E|congruence|exact Hw].
Defined.

Lemma rescan_observes_witness :
  c_files (sp_charges (rescan ".fwl-" 20 (λ _, fine) (λ _, fine) demo_quarantined.1.1 (init_spool 8 4096 8 0)).2)
    !! corrupt_of (record_name 7 7 0) = Some 327.
Proof.
  pose proof (rescan_observes ".fwl-" 20 (λ _, fine) (λ _, fine) demo_quarantined.1.1 (init_spool 8 4096 8 0)
    (λ _, eq_refl) eq_refl) as H.
  assert (accounts (rescan ".fwl-" 20 (λ _, fine) (λ _, fine) demo_quarantined.1.1 (init_spool 8 4096 8 0)).1
    (corrupt_of (record_name 7 7 0)) = Some 327) as E by (vm_compute; reflexivity).
  destruct (rescan _ _ _ _ _ _) as [d s]. rewrite H. exact E.
Defined.
