(* ===== verification/SpoolBound.v ===== *)
(** * The shared bound of the spool directory

    The processes that share a directory ([fabric/wire/_spool.py], "Shared bound") as a step
    relation on the directory and on what each process remembers of it: an admission with its
    reservations, a rename, a truncation, a removal, in any interleaving. The total the files
    count never exceeds the largest limit an admission is given. *)

From stdpp Require Import gmap relations functions.
From S2P Require Import Prelude PyDict Hash Json Decimal Ids SpoolHeader SpoolFrame Spool SpoolNames.

(** ** What a directory counts *)

Definition charge_of (p : string * File) : option Z := accounted p.1 (f_size p.2).
Definition disk_total (d : Disk) : Z := sum (omap charge_of (map_to_list d)).

Lemma disk_total_insert d n f :
  d !! n = None → disk_total (<[n := f]> d) = default 0 (accounted n (f_size f)) + disk_total d.
Proof.
  intros H. unfold disk_total. rewrite (sum_perm _ (omap charge_of ((n, f) :: map_to_list d))) by (by rewrite map_to_list_insert).
  simpl. unfold charge_of at 1. simpl. by destruct (accounted _ _).
Qed.

Lemma disk_total_delete d n f :
  d !! n = Some f → disk_total (delete n d) = disk_total d - default 0 (accounted n (f_size f)).
Proof.
  intros H. rewrite <-(insert_delete_id d n f H) at 2. rewrite disk_total_insert by apply lookup_delete_eq. lia.
Qed.

(** Sizes are not negative: what the kernel says of a file. *)
Definition sized (d : Disk) : Prop := ∀ n f, d !! n = Some f → 0 ≤ f_size f.

Lemma accounted_nonneg n z k : accounted n z = Some k → 0 ≤ z → z ≤ k ∧ 0 ≤ k.
Proof. unfold accounted, RECEIPT_OVERHEAD. intros H Hz. repeat case_match; simplify_eq; lia. Qed.

Lemma accounted_mono n z z' k : accounted n z = Some k → z' ≤ z → ∃ k', accounted n z' = Some k' ∧ k' ≤ k.
Proof. unfold accounted, RECEIPT_OVERHEAD. intros H Hz. repeat case_match; simplify_eq; eexists; split; [done|lia|done|lia]. Qed.

Lemma accounted_dom n z z' : is_Some (accounted n z) → is_Some (accounted n z').
Proof. unfold accounted. repeat case_match; eauto. Qed.

(** ** The scan of an admission *)

(** What a process remembers of a file is never less than what the file counts. *)
Definition cache_ok (d : Disk) (a : Admission) : Prop :=
  ∀ n f v k, a_disk a !! (n, f_inode f) = Some v → d !! n = Some f → accounted n (f_size f) = Some k → k ≤ v.

Lemma entry_size_covers fails a d n f v :
  cache_ok d a → d !! n = Some f → is_Some (accounted n 0) → entry_size fails (a_disk a !! (n, f_inode f)) n f = Some v →
  ∃ k z, v = Some z ∧ accounted n (f_size f) = Some k ∧ k ≤ z.
Proof.
  intros Hc Hd Hn H. destruct (accounted_dom n 0 (f_size f) Hn) as [k Hk]. exists k.
  unfold entry_size in H. destruct (a_disk a !! (n, f_inode f)) as [z|] eqn:E.
  - pose proof (Hc n f z k E Hd Hk) as Hz.
    destruct (looks_again n z); [destruct fails|]; injection H as <-; [by exists z|exists k; by rewrite Hk|by exists z].
  - destruct fails; [done|]. injection H as <-. exists k. by rewrite Hk.
Qed.

Lemma scan_covers errs a d entries seen :
  cache_ok d a → (∀ n f, (n, f) ∈ entries → d !! n = Some f) → scan errs (a_disk a) entries = Some seen →
  sum (omap charge_of entries) ≤ sum seen.*2
  ∧ ∀ n i v, ((n, i), v) ∈ seen → ∃ f k, (n, f) ∈ entries ∧ f_inode f = i ∧ accounted n (f_size f) = Some k ∧ k ≤ v.
Proof.
  intros Hc. revert seen. induction entries as [|[n f] entries IH]; intros seen Hin; simpl.
  { intros [= <-]. split; [done|]. intros n i v H. by apply elem_of_nil in H. }
  assert (∀ m g, (m, g) ∈ entries → d !! m = Some g) as Hin' by (intros; apply Hin; by right).
  unfold charge_of at 1. simpl. destruct (accounted n 0) as [z0|] eqn:E0.
  - destruct (entry_size _ _ _ _) as [v|] eqn:Ev; [|done]. simpl.
    destruct (entry_size_covers _ a d n f v Hc (Hin n f ltac:(by left)) ltac:(eauto) Ev) as (k & z & -> & Hk & Hz).
    destruct (scan _ _ entries) as [rest|]; [|done]. simpl. intros [= <-]. destruct (IH rest Hin' eq_refl) as [Hs Hf].
    rewrite Hk. simpl. split; [by apply Z.add_le_mono|]. intros m i v [[= -> -> ->]|H]%elem_of_cons.
    + exists f, k. split_and!; [by left|done|done|done].
    + destruct (Hf m i v H) as (g & k' & ? & ? & ? & ?). exists g, k'. split_and!; [by right|done|done|done].
  - destruct (accounted n (f_size f)) as [k|] eqn:E; [destruct (accounted_dom n (f_size f) 0) as [? ?]; [eauto|congruence]|].
    intros H. destruct (IH seen Hin' H) as [Hs Hf]. split; [done|]. intros m i v Hm.
    destruct (Hf m i v Hm) as (g & k' & ? & ? & ? & ?). exists g, k'. split_and!; [by right|done|done|done].
Qed.

(** The total an admission reckons with covers what is on disk, and what it remembers stays
    covering; it remembers only files it saw. *)
Lemma shared_total_covers errs d a a' total :
  cache_ok d a → shared_total errs d a = Some (a', total) →
  disk_total d ≤ total ∧ cache_ok d a' ∧ ∀ n i, is_Some (a_disk a' !! (n, i)) → is_Some (d !! n).
Proof.
  intros Hc. unfold shared_total. destruct (scan _ _ _) as [seen|] eqn:E; [|done]. simpl. intros [= <- <-].
  apply (scan_covers errs a d) in E as [Hs Hf]; [|done|intros n f; by rewrite elem_of_map_to_list].
  split_and!; [done| |].
  - intros n f v k Hv Hd Hk. simpl in Hv. apply elem_of_list_to_map_2 in Hv.
    destruct (Hf _ _ _ Hv) as (g & k' & Hg & _ & Hk' & Hle). apply elem_of_map_to_list in Hg. congruence.
  - intros n i [v Hv]. simpl in Hv. apply elem_of_list_to_map_2 in Hv.
    destruct (Hf _ _ _ Hv) as (g & k' & Hg & _). apply elem_of_map_to_list in Hg. eauto.
Qed.

(** ** The directory and the processes *)

(** The directory, what each process remembers of it, and the record names that were ever
    reserved (no step reads those: a name is never given twice). *)
Record World := mk_world { w_disk : Disk; w_memory : Z → Admission; w_used : gset string }.

Definition fresh_admission : Admission := mk_admission ∅ 0 0.

(** A record asked for: its name and its size. *)
Definition wanted_of (rs : list (string * Z)) : list (string * Z) := (λ r, (tmp_of r.1, r.2)) <$> rs.

(** What [_reserve_many] is asked for: new record names, sizes no smaller than a receipt. *)
Definition askable (used : gset string) (rs : list (string * Z)) : Prop :=
  ∀ n z, (n, z) ∈ rs → good n ∧ n ∉ used ∧ RECEIPT_OVERHEAD ≤ z.

(** The steps, with limits up to [L]: each is one system call, or a section under the admission
    lock. What a rename publishes is a reservation at its full size. *)
Inductive spool_step (L : Z) : World → World → Prop :=
  | S_reserve p answer rs limit d mem used d' a' r :
      limit ≤ L → askable used rs → reserve_many answer (wanted_of rs) limit d (mem p) = (d', a', r) →
      spool_step L (mk_world d mem used) (mk_world d' (<[p := a']> mem) (list_to_set rs.*1 ∪ used))
  | S_publish fails n d mem used :
      good n → (∀ f, d !! tmp_of n = Some f → RECEIPT_OVERHEAD ≤ f_size f) →
      spool_step L (mk_world d mem used) (mk_world (rename fails (tmp_of n) n d).1 mem used)
  | S_receipt fails n d mem used :
      good n → spool_step L (mk_world d mem used) (mk_world (rename fails n (ack_of n) d).1 mem used)
  | S_quarantine fails n d mem used :
      good n → spool_step L (mk_world d mem used) (mk_world (rename fails n (corrupt_of n) d).1 mem used)
  | S_truncate fails now n d mem used :
      is_ack n → spool_step L (mk_world d mem used) (mk_world (truncate fails now n d).1 mem used)
  | S_remove fails n d mem used :
      spool_step L (mk_world d mem used) (mk_world (unlink fails n d).1 mem used)
  | S_foreign n f d mem used :
      accounted n 0 = None → 0 ≤ f_size f → spool_step L (mk_world d mem used) (mk_world (<[n := f]> d) mem used)
  | S_start p d mem used : spool_step L (mk_world d mem used) (mk_world d (<[p := fresh_admission]> mem) used).

Definition empty_world : World := mk_world ∅ (λ _, fresh_admission) ∅.

(** *** The invariant *)

(** A name on the disk or in what a process remembers. *)
Definition known (d : Disk) (mem : Z → Admission) (x : string) : Prop :=
  is_Some (d !! x) ∨ ∃ p i, is_Some (a_disk (mem p) !! (x, i)).

(** The names of a record in the order it takes them: its temp file, the record, its receipt
    or its quarantined file. *)
Definition stage (n : string) (k : nat) (x : string) : Prop :=
  match k with
  | 0%nat => x = tmp_of n
  | 1%nat => x = n
  | 2%nat => x = ack_of n ∨ x = corrupt_of n
  | _ => False
  end.

Lemma stage_inj n m j k x : good n → good m → stage n j x → stage m k x → n = m ∧ j = k.
Proof.
  intros Hn Hm. pose proof (good_ne_tmp n m Hn). pose proof (good_ne_tmp m n Hm).
  pose proof (good_ne_ack n m Hn). pose proof (good_ne_ack m n Hm).
  pose proof (good_ne_corrupt n m Hn). pose proof (good_ne_corrupt m n Hm).
  pose proof (ack_ne_corrupt n m). pose proof (ack_ne_corrupt m n). pose proof (tmp_inj n m). pose proof (ack_inj n m).
  pose proof (corrupt_inj n m). pose proof (tmp_ne_ack n m Hn). pose proof (tmp_ne_ack m n Hm).
  pose proof (tmp_ne_corrupt n m Hn). pose proof (tmp_ne_corrupt m n Hm).
  destruct j as [|[|[|j]]], k as [|[|[|k]]]; simpl; intros Hx Hy; try done;
    repeat match goal with H : _ ∨ _ |- _ => destruct H end; subst; split; solve [done | auto | congruence | by exfalso; auto].
Qed.

(** A record takes its names one after the other, each once, and a new record none of them. *)
Record staged (d : Disk) (mem : Z → Admission) (used : gset string) : Prop := mk_staged {
  st_new n k x : good n → n ∉ used → stage n k x → ¬ known d mem x;
  st_order n j k x y : good n → stage n j x → stage n k y → (j < k)%nat → is_Some (d !! x) → ¬ known d mem y;
  st_size n f : good n → d !! n = Some f → RECEIPT_OVERHEAD ≤ f_size f;
}.

Record bound_inv (L : Z) (w : World) : Prop := mk_bound_inv {
  bi_total : disk_total (w_disk w) ≤ L;
  bi_sized : sized (w_disk w);
  bi_cache p : cache_ok (w_disk w) (w_memory w p);
  bi_staged : staged (w_disk w) (w_memory w) (w_used w);
}.

(** *** Removing and shrinking *)

Definition shrinks (d d' : Disk) : Prop :=
  ∀ n f', d' !! n = Some f' → ∃ f, d !! n = Some f ∧ f_inode f' = f_inode f ∧ f_size f' ≤ f_size f
    ∧ (is_ack n = false → f_size f' = f_size f).

Lemma shrinks_cache d d' a : shrinks d d' → cache_ok d a → cache_ok d' a.
Proof.
  intros Hs Hc n f' v k Hv Hd Hk. destruct (Hs n f' Hd) as (f & Hf & Hi & Hz & _).
  destruct (accounted_dom n (f_size f') (f_size f)) as [k0 Hk0]; [eauto|].
  destruct (accounted_mono n _ _ k0 Hk0 Hz) as (k1 & Hk1 & Hle). rewrite Hi in Hv.
  pose proof (Hc n f v k0 Hv Hf Hk0). assert (k1 = k) by congruence. lia.
Qed.

Lemma shrinks_staged d d' mem used : shrinks d d' → staged d mem used → staged d' mem used.
Proof.
  intros Hs H. assert (∀ x, is_Some (d' !! x) → is_Some (d !! x)) as Hd.
  { intros x [f' Hf]. destruct (Hs x f' Hf) as (f & ? & _). eauto. }
  assert (∀ x, known d' mem x → known d mem x) as Hk by (intros x [?|?]; [left; auto|by right]).
  split.
  - intros n k x Hg Hn Hx Hc. by eapply (st_new d mem used H n k x Hg Hn Hx), Hk.
  - intros n j k x y Hg Hx Hy Hj Hi Hc. by eapply (st_order d mem used H n j k x y Hg Hx Hy Hj (Hd _ Hi)), Hk.
  - intros n f' Hg Hf. destruct (Hs n f' Hf) as (f & Hf' & _ & _ & Hz). rewrite Hz by by apply good_not_ack.
    by eapply st_size.
Qed.

Lemma shrinks_same (d : Disk) n f :
  d !! n = Some f → ∃ g, d !! n = Some g ∧ f_inode f = f_inode g ∧ f_size f ≤ f_size g ∧ (is_ack n = false → f_size f = f_size g).
Proof. intros H. by exists f. Qed.

Lemma unlink_shrinks fails n d : shrinks d (unlink fails n d).1.
Proof.
  intros m f. unfold unlink. destruct fails; [apply shrinks_same|]. destruct (d !! n) eqn:E; simpl; [|apply shrinks_same].
  intros [_ H]%lookup_delete_Some. by apply shrinks_same.
Qed.

Lemma truncate_shrinks fails now n d : is_ack n → sized d → shrinks d (truncate fails now n d).1.
Proof.
  intros Ha Hz m f. unfold truncate. destruct (d !! n) as [g|] eqn:E; simpl; [|apply shrinks_same].
  destruct fails; simpl; [apply shrinks_same|]. intros [[<- <-]|[_ H]]%lookup_insert_Some; [|by apply shrinks_same]. exists g. split_and!; [done|done|by apply (Hz n)|].
  intros Hf. by rewrite Hf in Ha.
Qed.

Lemma unlink_total fails n d : sized d → disk_total (unlink fails n d).1 ≤ disk_total d.
Proof.
  intros Hz. unfold unlink. destruct fails; [done|]. destruct (d !! n) as [f|] eqn:E; simpl; [|done].
  rewrite (disk_total_delete d n f E). destruct (accounted n (f_size f)) as [k|] eqn:Ek; simpl; [|lia].
  apply accounted_nonneg in Ek; [lia|by apply (Hz n)].
Qed.

Lemma truncate_total fails now n d : sized d → disk_total (truncate fails now n d).1 ≤ disk_total d.
Proof.
  intros Hz. unfold truncate. destruct (d !! n) as [f|] eqn:E; [|done]. destruct fails; simpl; [done|].
  rewrite <-insert_delete_eq, disk_total_insert, (disk_total_delete d n f E) by apply lookup_delete_eq. simpl.
  destruct (accounted n (f_size f)) as [k|] eqn:Ek.
  - destruct (accounted_mono n _ 0 k Ek) as (k' & -> & ?); [by apply (Hz n)|]. simpl. lia.
  - destruct (accounted n 0) eqn:E0; [|simpl; lia]. destruct (accounted_dom n 0 (f_size f)); [eauto|congruence].
Qed.

Lemma shrinks_inv L d d' mem used :
  shrinks d d' → sized d' → disk_total d' ≤ disk_total d → bound_inv L (mk_world d mem used) → bound_inv L (mk_world d' mem used).
Proof.
  intros Hs Hz Ht [H1 H2 H3 H4]. simpl in *. split; simpl; [lia|done| |by eapply shrinks_staged].
  intros p. by eapply shrinks_cache, H3.
Qed.

(** *** Renaming *)

Lemma known_rename d mem src dst f x : known (<[dst := f]> (delete src d)) mem x → known d mem x ∨ x = dst.
Proof.
  intros [[g [[<- _]|[_ H]]%lookup_insert_Some]|H]; [by right| |by left; right].
  apply lookup_delete_Some in H as [_ H]. left. left. eauto.
Qed.

Lemma rename_staged d mem used n j k src dst f :
  good n → stage n j src → stage n k dst → (j < k)%nat → d !! src = Some f →
  (dst = n → RECEIPT_OVERHEAD ≤ f_size f) →
  staged d mem used → staged (<[dst := f]> (delete src d)) mem used.
Proof.
  intros Hg Hj Hk Hlt Hf Hz H.
  assert (¬ known d mem dst) as Hnd by (by eapply (st_order _ _ _ H n j k)).
  split.
  - intros m i x Hm Hu Hx [Hc| ->]%known_rename; [by eapply st_new|].
    destruct (stage_inj n m k i dst Hg Hm Hk Hx) as [<- _]. eapply (st_new _ _ _ H n j src); [done..|]. left. eauto.
  - intros m i l x y Hm Hx Hy Hl Hi Hc. destruct Hi as [g [[<- _]|[_ Hi]]%lookup_insert_Some].
    + destruct (stage_inj n m k i dst Hg Hm Hk Hx) as [<- <-]. apply known_rename in Hc as [Hc| ->].
      * eapply (st_order _ _ _ H n j l src y); [done..|lia|eauto|done].
      * destruct (stage_inj n n k l dst Hg Hg Hk Hy). lia.
    + apply lookup_delete_Some in Hi as [Hs Hi]. apply known_rename in Hc as [Hc| ->].
      * eapply (st_order _ _ _ H m i l x y); eauto.
      * destruct (stage_inj n m k l dst Hg Hm Hk Hy) as [<- <-].
        destruct (lt_eq_lt_dec i j) as [[Hij| ->]|Hij].
        -- eapply (st_order _ _ _ H n i j x src); [done..|eauto|]. left. eauto.
        -- destruct j as [|[|[|j]]]; [simpl in *; congruence|simpl in *; congruence|destruct k as [|[|[|k]]]; [lia|lia|lia|done]|done].
        -- eapply (st_order _ _ _ H n j i src x); [done..|eauto|]. left. eauto.
  - intros m g Hm [[<- <-]|[_ Hi]]%lookup_insert_Some.
    + apply Hz. by destruct (stage_inj n dst k 1 dst Hg Hm Hk eq_refl) as [-> _].
    + apply lookup_delete_Some in Hi as [_ Hi]. by eapply st_size.
Qed.

Lemma rename_inv L d mem used n j k src dst fails :
  good n → stage n j src → stage n k dst → (j < k)%nat →
  (∀ f, d !! src = Some f → (dst = n → RECEIPT_OVERHEAD ≤ f_size f)
     ∧ default 0 (accounted dst (f_size f)) ≤ default 0 (accounted src (f_size f))) →
  bound_inv L (mk_world d mem used) → bound_inv L (mk_world (rename fails src dst d).1 mem used).
Proof.
  intros Hg Hj Hk Hlt Hsz Hi. unfold rename. destruct fails; [done|]. destruct (d !! src) as [f|] eqn:Hf; [|done].
  destruct (Hsz f eq_refl) as [Hz Ha]. destruct Hi as [H1 H2 H3 H4]. simpl in *.
  assert (¬ known d mem dst) as Hnd by (eapply (st_order _ _ _ H4 n j k src); eauto).
  assert (delete src d !! dst = None) as Hdst.
  { apply eq_None_not_Some. intros [g [_ Hgd]%lookup_delete_Some]. apply Hnd. left. eauto. }
  split; simpl.
  - rewrite disk_total_insert, (disk_total_delete d src f Hf) by done. lia.
  - intros m g [[<- <-]|[_ [_ Hm]%lookup_delete_Some]]%lookup_insert_Some; [by apply (H2 src)|by apply (H2 m)].
  - intros p m g v c Hv [[<- <-]|[_ [_ Hm]%lookup_delete_Some]]%lookup_insert_Some Hc; [|by eapply (H3 p m g)].
    destruct Hnd. right. eauto.
  - by eapply (rename_staged d mem used n j k).
Qed.

(** *** Reserving *)

(** [grows rs d d']: only temp files of [rs] were created. *)
Definition grows (rs : list (string * Z)) (d d' : Disk) : Prop :=
  ∀ x f, d' !! x = Some f → d !! x = Some f ∨ 0 ≤ f_size f ∧ ∃ n z, (n, z) ∈ rs ∧ x = tmp_of n.

Lemma grows_trans rs d d' d'' : grows rs d d' → grows rs d' d'' → grows rs d d''.
Proof. intros H1 H2 x f H. destruct (H2 x f H) as [H'|H']; [by apply H1|by right]. Qed.

Lemma grows_insert (rs : list (string * Z)) n z d f :
  (n, z) ∈ rs → 0 ≤ f_size f → grows rs d (<[tmp_of n := f]> d).
Proof. intros Hr Hf x g [[<- <-]|[_ H]]%lookup_insert_Some; [right; split; [done|by exists n, z]|by left]. Qed.

Lemma grows_unlink rs d n fails : grows rs d (unlink fails n d).1.
Proof.
  intros x g. unfold unlink. destruct fails; [by left|]. destruct (d !! n); simpl; [|by left].
  intros [_ H]%lookup_delete_Some. by left.
Qed.

Lemma reserve_each_grows rs' rs d total limit opens d' total' r :
  (∀ n z, (n, z) ∈ rs → (n, z) ∈ rs' ∧ 0 ≤ z) →
  reserve_each d total limit (wanted_of rs) opens = (d', total', r) → grows rs' d d'.
Proof.
  revert d total opens d' total' r. induction rs as [|[n z] rs IH]; intros d total opens d' total' r Hrs; simpl.
  { intros [= <- _ _] x f. by left. }
  assert (∀ m y, (m, y) ∈ rs → (m, y) ∈ rs' ∧ 0 ≤ y) as Hrs' by (intros; apply Hrs; by right).
  destruct (Hrs n z) as [Hn Hz]; [by left|].
  assert (∀ d1 t1, grows rs' d d1 → ∀ x1, reserve_each d1 t1 limit (wanted_of rs) (tail opens) = x1 → grows rs' d x1.1.1) as H.
  { intros d1 t1 Hg [[d2 t2] r2] E. by eapply grows_trans, IH. }
  destruct (limit <? total + z).
  { specialize (H d total ltac:(intros x f; by left) _ eq_refl). destruct (reserve_each _ _ _ _ _) as [[? ?] ?]. by intros [= <- _ _]. }
  destruct (d !! tmp_of n) eqn:E; [|destruct (default OpenFailed (head opens)) as [i now| |i now uf]].
  - specialize (H d total ltac:(intros x g; by left) _ eq_refl). destruct (reserve_each _ _ _ _ _) as [[? ?] ?]. by intros [= <- _ _].
  - specialize (H (<[tmp_of n := mk_file i z now]> d) (total + z) ltac:(by eapply grows_insert) _ eq_refl).
    destruct (reserve_each _ _ _ _ _) as [[? ?] ?]. by intros [= <- _ _].
  - specialize (H d total ltac:(intros x g; by left) _ eq_refl). destruct (reserve_each _ _ _ _ _) as [[? ?] ?]. by intros [= <- _ _].
  - assert (grows rs' d (unlink uf (tmp_of n) (<[tmp_of n := mk_file i 0 now]> d)).1) as Hd.
    { eapply grows_trans; [by apply (grows_insert rs' n z d (mk_file i 0 now))|apply grows_unlink]. }
    specialize (H _ total Hd _ eq_refl).
    destruct (reserve_each _ _ _ _ _) as [[? ?] ?]. by intros [= <- _ _].
Qed.

Lemma half_reserved_total d n i now uf :
  good n → d !! tmp_of n = None → disk_total (unlink uf (tmp_of n) (<[tmp_of n := mk_file i 0 now]> d)).1 = disk_total d.
Proof.
  intros Hg E. unfold unlink. rewrite lookup_insert_eq. destruct uf; simpl.
  - by rewrite disk_total_insert, accounted_tmp by done.
  - by rewrite delete_insert_id.
Qed.

Lemma reserve_each_total L rs d total limit opens d' total' r :
  (∀ n z, (n, z) ∈ rs → good n) → disk_total d ≤ total → disk_total d ≤ L → limit ≤ L →
  reserve_each d total limit (wanted_of rs) opens = (d', total', r) → disk_total d' ≤ total' ∧ disk_total d' ≤ L.
Proof.
  revert d total opens d' total' r. induction rs as [|[n z] rs IH]; intros d total opens d' total' r Hrs Ht Hl HL; simpl.
  { by intros [= <- <- _]. }
  assert (∀ m y, (m, y) ∈ rs → good m) as Hrs' by (intros; eapply Hrs; by right).
  pose proof (Hrs n z ltac:(by left)) as Hg.
  assert (∀ d1 t1, disk_total d1 ≤ t1 → disk_total d1 ≤ L → ∀ x1, reserve_each d1 t1 limit (wanted_of rs) (tail opens) = x1 →
    disk_total x1.1.1 ≤ x1.1.2 ∧ disk_total x1.1.1 ≤ L) as H by (intros d1 t1 ? ? [[d2 t2] r2] E; by apply (IH d1 t1 (tail opens) d2 t2 r2)).
  destruct (limit <? total + z) eqn:Elim.
  { specialize (H d total Ht Hl _ eq_refl). destruct (reserve_each _ _ _ _ _) as [[? ?] ?]. by intros [= <- <- _]. }
  apply Z.ltb_ge in Elim.
  destruct (d !! tmp_of n) eqn:E; [|destruct (default OpenFailed (head opens)) as [i now| |i now uf]].
  - specialize (H d total Ht Hl _ eq_refl). destruct (reserve_each _ _ _ _ _) as [[? ?] ?]. by intros [= <- <- _].
  - specialize (H (<[tmp_of n := mk_file i z now]> d) (total + z)). rewrite disk_total_insert, accounted_tmp in H by done. simpl in H.
    specialize (H ltac:(lia) ltac:(lia) _ eq_refl). destruct (reserve_each _ _ _ _ _) as [[? ?] ?]. by intros [= <- <- _].
  - specialize (H d total Ht Hl _ eq_refl). destruct (reserve_each _ _ _ _ _) as [[? ?] ?]. by intros [= <- <- _].
  - specialize (H (unlink uf (tmp_of n) (<[tmp_of n := mk_file i 0 now]> d)).1 total). rewrite half_reserved_total in H by done.
    specialize (H Ht Hl _ eq_refl). destruct (reserve_each _ _ _ _ _) as [[? ?] ?]. by intros [= <- <- _].
Qed.

Lemma askable_new used rs n z k x d mem :
  askable used rs → (n, z) ∈ rs → staged d mem used → stage n k x → ¬ known d mem x.
Proof. intros Ha Hr Hs Hx. destruct (Ha n z Hr) as (Hg & Hu & _). by eapply st_new. Qed.

(** What a process may remember after an admission of the directory. *)
Definition recalls (d : Disk) (mem : Z → Admission) (a : Admission) : Prop :=
  cache_ok d a ∧ ∀ x i, is_Some (a_disk a !! (x, i)) → known d mem x.

Lemma grows_known rs d d' mem p a x :
  grows rs d d' → recalls d mem a → known d' (<[p := a]> mem) x → known d mem x ∨ ∃ n z, (n, z) ∈ rs ∧ x = tmp_of n.
Proof.
  intros Hg [_ Ha] [[f Hf]|(q & i & Hq)].
  - destruct (Hg x f Hf) as [H|[_ H]]; [left; left; eauto|by right].
  - left. destruct (decide (p = q)) as [<-|Hne].
    + rewrite fn_lookup_insert in Hq. by eapply Ha.
    + rewrite fn_lookup_insert_ne in Hq by done. right. eauto.
Qed.

Lemma reserve_staged rs d d' mem used p a :
  askable used rs → grows rs d d' → recalls d mem a → staged d mem used →
  staged d' (<[p := a]> mem) (list_to_set rs.*1 ∪ used).
Proof.
  intros Hk Hg Ha Hs. split.
  - intros n k x Hn Hu Hx Hc. apply not_elem_of_union in Hu as [Hr Hu].
    destruct (grows_known rs d d' mem p a x Hg Ha Hc) as [Hc'|(m & z & Hm & ->)]; [by eapply st_new|].
    destruct (stage_inj n m k 0 (tmp_of m) Hn (proj1 (Hk m z Hm)) Hx eq_refl) as [-> _]. apply Hr.
    apply elem_of_list_to_set, list_elem_of_fmap. by exists (m, z).
  - intros n j k x y Hn Hx Hy Hlt [f Hf] Hc.
    assert (∀ z, (n, z) ∈ rs → False) as Hold.
    { intros z Hz. destruct (grows_known rs d d' mem p a y Hg Ha Hc) as [Hc'|(m & z' & Hm & ->)].
      - eapply (askable_new used rs n z k y d mem); eauto.
      - destruct (stage_inj n m k 0 (tmp_of m) Hn (proj1 (Hk m z' Hm)) Hy eq_refl) as [_ ->]. lia. }
    destruct (Hg x f Hf) as [Hd|(_ & m & z & Hm & ->)].
    + destruct (grows_known rs d d' mem p a y Hg Ha Hc) as [Hc'|(m & z & Hm & ->)]; [by eapply (st_order _ _ _ Hs n j k x)|].
      destruct (stage_inj n m k 0 (tmp_of m) Hn (proj1 (Hk m z Hm)) Hy eq_refl) as [_ ->]. lia.
    + destruct (stage_inj n m j 0 (tmp_of m) Hn (proj1 (Hk m z Hm)) Hx eq_refl) as [-> _]. by eapply Hold.
  - intros n f Hn Hf. destruct (Hg n f Hf) as [Hd|(_ & m & z & Hm & ->)]; [by eapply st_size|].
    by destruct (good_ne_tmp (tmp_of m) m Hn).
Qed.

Lemma reserve_inv L rs d d' mem used p a :
  askable used rs → grows rs d d' → recalls d mem a → disk_total d' ≤ L →
  bound_inv L (mk_world d mem used) → bound_inv L (mk_world d' (<[p := a]> mem) (list_to_set rs.*1 ∪ used)).
Proof.
  intros Hk Hg Ha Ht [_ H2 H3 H4]. simpl in *. split; simpl; [done| | |by eapply reserve_staged].
  - intros x f Hf. destruct (Hg x f Hf) as [Hd|[Hz _]]; [by eapply H2|done].
  - intros q x f v k Hv Hf Hc. destruct (Hg x f Hf) as [Hd|(_ & m & z & Hm & ->)].
    + destruct (decide (p = q)) as [<-|Hne]; [rewrite fn_lookup_insert in Hv; by eapply (proj1 Ha)|].
      rewrite fn_lookup_insert_ne in Hv by done. by eapply (H3 q).
    + destruct (askable_new used rs m z 0 (tmp_of m) d mem Hk Hm H4 eq_refl).
      destruct (decide (p = q)) as [<-|Hne]; [rewrite fn_lookup_insert in Hv; eapply (proj2 Ha); eauto|].
      rewrite fn_lookup_insert_ne in Hv by done. right. eauto.
Qed.

Lemma recalls_own L d mem used p a : bound_inv L (mk_world d mem used) → a_disk a = a_disk (mem p) → recalls d mem a.
Proof.
  intros H E. split.
  - intros x f v k. rewrite E. by apply (bi_cache L _ H p).
  - intros x i. rewrite E. intros Hx. right. eauto.
Qed.

Lemma reserve_many_inv L answer rs limit d mem used p d' a' r :
  limit ≤ L → askable used rs → reserve_many answer (wanted_of rs) limit d (mem p) = (d', a', r) →
  bound_inv L (mk_world d mem used) → bound_inv L (mk_world d' (<[p := a']> mem) (list_to_set rs.*1 ∪ used)).
Proof.
  intros HL Hk E Hi. pose proof (bi_total L _ Hi) as Ht. simpl in Ht.
  assert (∀ a, a_disk a = a_disk (mem p) → bound_inv L (mk_world d (<[p := a]> mem) (list_to_set rs.*1 ∪ used))) as Hsame.
  { intros a Ea. eapply (reserve_inv L rs d d); [done|intros x f; by left|by eapply recalls_own|done|done]. }
  unfold reserve_many in E. destruct (wanted_of rs) as [|w ws] eqn:Ew; [injection E as <- <- _; by apply Hsame|].
  rewrite <-Ew in E. destruct answer as [| |errs opens]; [injection E as <- <- _; by apply Hsame..|].
  destruct (shared_total errs d (mem p)) as [[a1 total]|] eqn:Es; [|injection E as <- <- _; by apply Hsame].
  destruct (shared_total_covers errs d (mem p) a1 total (bi_cache L _ Hi p) Es) as (Hc & Ha & Hd).
  destruct (reserve_each d total limit (wanted_of rs) opens) as [[d2 t2] r2] eqn:Er. injection E as <- <- _.
  destruct (reserve_each_total L rs d total limit opens d2 t2 r2) as [_ Hl]; [|done..|].
  { intros n z Hn. by destruct (Hk n z Hn). }
  eapply (reserve_inv L rs d); [done| |split; [done|]|done|done].
  - eapply (reserve_each_grows rs rs); [|exact Er]. intros n z Hn. split; [done|].
    destruct (Hk n z Hn) as (_ & _ & Hz). unfold RECEIPT_OVERHEAD in Hz. lia.
  - intros x i Hx. left. by eapply Hd.
Qed.

Lemma stage_accounted n k x : good n → stage n k x → is_Some (accounted x 0).
Proof.
  intros Hg. destruct k as [|[|[|k]]]; simpl; [intros ->|intros ->|intros [-> | ->]|done];
    [rewrite accounted_tmp|rewrite accounted_good|rewrite accounted_ack|rewrite accounted_corrupt]; eauto.
Qed.

Lemma foreign_inv L n f d mem used :
  accounted n 0 = None → 0 ≤ f_size f → bound_inv L (mk_world d mem used) → bound_inv L (mk_world (<[n := f]> d) mem used).
Proof.
  intros Hn Hz [H1 H2 H3 H4]. simpl in *.
  assert (∀ z, accounted n z = None) as Hnone.
  { intros z. destruct (accounted n z) eqn:E; [|done]. destruct (accounted_dom n z 0); [eauto|congruence]. }
  assert (∀ m k x, good m → stage m k x → x ≠ n) as Hne.
  { intros m k x Hm Hx ->. destruct (stage_accounted m k n Hm Hx). congruence. }
  assert (∀ x, x ≠ n → (<[n := f]> d !! x = d !! x)) as Hd by (intros; by apply lookup_insert_ne).
  assert (∀ x, x ≠ n → known (<[n := f]> d) mem x → known d mem x) as Hk.
  { intros x Hx. unfold known. by rewrite Hd. }
  split; simpl.
  - rewrite <-insert_delete_eq, disk_total_insert, Hnone by apply lookup_delete_eq.
    destruct (d !! n) as [g|] eqn:E; [rewrite (disk_total_delete d n g E), Hnone|rewrite delete_id by done]; simpl; lia.
  - intros x g [[<- <-]|[_ H]]%lookup_insert_Some; [done|by eapply H2].
  - intros p x g v k Hv [[<- <-]|[_ H]]%lookup_insert_Some; [by rewrite Hnone|by eapply H3].
  - split.
    + intros m k x Hm Hu Hx Hc%Hk; [by eapply st_new|by eapply Hne].
    + intros m j k x y Hm Hx Hy Hlt Hi Hc%Hk; [|by eapply Hne]. rewrite Hd in Hi by (by eapply Hne).
      by eapply (st_order _ _ _ H4 m j k x y).
    + intros m g Hm Hg. rewrite Hd in Hg by (by apply (Hne m 1%nat)). by eapply st_size.
Qed.

Lemma fresh_empty k : a_disk fresh_admission !! k = None.
Proof. apply lookup_empty. Qed.

Lemma start_inv L p d mem used :
  bound_inv L (mk_world d mem used) → bound_inv L (mk_world d (<[p := fresh_admission]> mem) used).
Proof.
  intros Hi. pose proof (bi_total L _ Hi). rewrite <-(left_id_L ∅ (∪) used). apply (reserve_inv L [] d); [|by left| |done|done].
  - by intros n z ?%elem_of_nil.
  - split; [intros x f v k H'; by rewrite fresh_empty in H'|]. intros x i [? H']. by rewrite fresh_empty in H'.
Qed.

Lemma spool_step_inv L w w' : spool_step L w w' → bound_inv L w → bound_inv L w'.
Proof.
  intros Hs Hi. destruct Hs as [p answer rs limit d mem used d' a' r HL Hk Hr|fails n d mem used Hg Hz|fails n d mem used Hg|
    fails n d mem used Hg|fails now n d mem used Ha|fails n d mem used|n f d mem used Hn Hz|p d mem used].
  - by eapply reserve_many_inv.
  - apply (rename_inv L d mem used n 0 1); [done|done|done|lia| |done]. intros f Hf. rewrite accounted_tmp, accounted_good by done.
    split; [intros _; by apply Hz|done].
  - apply (rename_inv L d mem used n 1 2); [done|done|by left|lia| |done]. intros f Hf. rewrite accounted_ack, accounted_good by done.
    split; [by intros ?%eq_sym%good_ne_ack|]. pose proof (st_size _ _ _ (bi_staged L _ Hi) n f Hg Hf). simpl. lia.
  - apply (rename_inv L d mem used n 1 2); [done|done|by right|lia| |done]. intros f Hf.
    rewrite accounted_corrupt, accounted_good by done. split; [by intros ?%eq_sym%good_ne_corrupt|done].
  - pose proof (bi_sized L _ Hi) as Hz. apply (shrinks_inv L d); [by apply truncate_shrinks| |by apply truncate_total|done].
    intros m f. unfold truncate. destruct (d !! n) as [g|] eqn:E; [|apply Hz]. destruct fails; [apply Hz|].
    simpl. intros [[<- <-]|[_ H]]%lookup_insert_Some; [done|by apply (Hz m)].
  - pose proof (bi_sized L _ Hi) as Hz. apply (shrinks_inv L d); [apply unlink_shrinks| |by apply unlink_total|done].
    intros m f. unfold unlink.
    destruct fails; [apply Hz|]. destruct (d !! n); [|apply Hz]. simpl. intros [_ Hf]%lookup_delete_Some. by eapply Hz.
  - by apply foreign_inv.
  - by apply start_inv.
Qed.

Lemma empty_disk (x : string) : (∅ : Disk) !! x = None.
Proof. apply lookup_empty. Qed.

Lemma empty_inv L : 0 ≤ L → bound_inv L empty_world.
Proof.
  intros HL. split; cbn [w_disk w_memory w_used empty_world]; [done|intros n f H; by rewrite empty_disk in H| |].
  - intros p n f v k H. by rewrite fresh_empty in H.
  - assert (∀ x, ¬ known ∅ (λ _, fresh_admission) x) as Hk.
    { intros x [[? H]|(p & i & [? H])]; [by rewrite empty_disk in H|by rewrite fresh_empty in H]. }
    split; [by intros; apply Hk|by intros; apply Hk|]. intros n f _ H. by rewrite empty_disk in H.
Qed.

Lemma steps_inv L w w' : rtc (spool_step L) w w' → bound_inv L w → bound_inv L w'.
Proof. induction 1 as [|x y z H _ IH]; [done|]. intros Hi. by apply IH, (spool_step_inv L x). Qed.

(** C30: The shared bound holds across processes: however the admissions, reservations, renames,
    truncations, removals, process starts and foreign files of the processes that share a
    directory interleave, whatever the kernel answers (errors while looking at a file
    included), the bytes the directory counts never exceed the largest limit an admission was
    given. Turning a record into its receipt, or quarantining it, never needs room. *)
Theorem shared_bound L w : 0 ≤ L → rtc (spool_step L) empty_world w → disk_total (w_disk w) ≤ L.
Proof. intros HL H. exact (bi_total L w (steps_inv L _ _ H (empty_inv L HL))). Qed.

(** *** An example *)

Definition demo_name : string := record_name 7 7 0.
Definition demo_reserved : Disk * Admission * list reserved :=
  reserve_many (Granted (λ _, false) [Opened 3 17]) (wanted_of [(demo_name, 327)]) 4096 ∅ fresh_admission.
Definition demo_world : World :=
  mk_world (rename false (tmp_of demo_name) demo_name demo_reserved.1.1).1
    (<[7 := demo_reserved.1.2]> (λ _, fresh_admission)) (list_to_set [demo_name] ∪ ∅).

Lemma demo_good : good demo_name.
Proof. by split; vm_compute. Qed.

Lemma demo_askable : askable ∅ [(demo_name, 327)].
Proof.
  intros n z H. apply list_elem_of_singleton in H. injection H as -> ->.
  split_and!; [apply demo_good|apply not_elem_of_empty|by vm_compute].
Qed.

Lemma demo_steps : rtc (spool_step 4096) empty_world demo_world.
Proof.
  eapply rtc_l.
  - apply (S_reserve 4096 7 (Granted (λ _, false) [Opened 3 17]) [(demo_name, 327)] 4096 ∅ (λ _, fresh_admission) ∅
      demo_reserved.1.1 demo_reserved.1.2 demo_reserved.2); [lia|apply demo_askable|].
    by unfold demo_reserved; destruct (reserve_many _ _ _ _ _) as [[? ?] ?].
  - apply rtc_once. apply (S_publish 4096 false); [apply demo_good|].
    assert (demo_reserved.1.1 !! tmp_of demo_name = Some (mk_file 3 327 17)) as -> by (vm_compute; reflexivity).
    by intros f [= <-].
Qed.

Lemma shared_bound_witness : disk_total (w_disk demo_world) ≤ 4096 ∧ disk_total (w_disk demo_world) = 327.
Proof.
  assert (disk_total (w_disk demo_world) = 327) as E by (vm_compute; reflexivity).
  split; [|exact E]. apply (shared_bound 4096 demo_world); [lia|exact demo_steps].
Defined.
