(* ===== verification/SpoolMigrate.v ===== *)
(** * The migration of plaintext records

    [Spool.migrate_plaintext] ([fabric/wire/_spool.py]): the drainer of a spool with a key seals
    every intact plaintext record in place - a sealed copy under the temp name, renamed over the
    record - before it reads any. The copy is created outside the admission, so it is the one
    file of the directory that no admission counted; [dir_step] adds it to the steps of
    [SpoolBound.v]. The directory ([Spool.Disk]) has sizes and no contents: what reading a record
    gives is an argument, as every other answer of the kernel. *)

From stdpp Require Import gmap relations.
From S2P Require Import Prelude PyDict Hash Json Decimal Ids JsonRead JsonValues SpoolHeader SpoolFrame Spool SpoolNames SpoolBound.

(** What the kernel answers while one record is migrated. *)
Record migrate_answer := mk_migrate_answer {
  g_read : option string;    (** the bytes; [None] is an error other than a missing file *)
  g_clear_fails : bool;      (** removing a leftover, other than a missing one *)
  g_nonce : string;
  g_open_fails : bool;
  g_inode : Z;
  g_now : Z;
  g_written : option nat;    (** writing or [fsync] fails after so many bytes *)
  g_rename_fails : bool;     (** the admission lock is busy, or the rename fails *)
  g_cleanup_fails : bool;
  g_sync_fails : bool;
  g_observe_fails : bool;
}.

Section migrate.
Context {FT : FloatText} {FI : FloatInt}.

(** Whether a record is sealed: it has no envelope yet, and its frame verifies. *)
Definition migrates (raw : string) : bool :=
  negb (startswith ENVELOPE_MAGIC raw) && match unframe_all raw with inl _ => true | inr _ => false end.

(** The sealed copy, renamed over the record: the directory, and whether nothing raised. *)
Definition seal_in_place (cipher : Cipher) (kid : string) (a : migrate_answer) (name raw : string) (d : Disk) : Disk * bool :=
  let tmp := tmp_of name in
  if g_clear_fails a then (d, false)
  else
    let d := (unlink false tmp d).1 in
    if g_open_fails a then (d, false)
    else
      let size := len (concat_bytes (seal_pieces cipher kid (g_nonce a) name [raw])) in
      let cleanup d := (unlink (g_cleanup_fails a) tmp d).1 in
      match g_written a with
      | Some n => (cleanup (<[tmp := mk_file (g_inode a) (Z.min (Z.of_nat n) size) (g_now a)]> d), false)
      | None =>
          let '(d, m) := rename (g_rename_fails a) tmp name (<[tmp := mk_file (g_inode a) size (g_now a)]> d) in
          if decide (m = Moved) then (d, negb (g_sync_fails a)) else (cleanup d, false)
      end.

(** One turn of the loop: [None] where it raises, else whether the record was sealed. *)
Definition migrate_one (cipher : Cipher) (kid : string) (a : migrate_answer) (name : string) (d : Disk) (s : Spool)
    : Disk * Spool * option bool :=
  match d !! name, g_read a with
  | None, _ => (d, s, Some false)
  | Some _, None => (d, s, None)
  | Some _, Some raw =>
      if migrates raw then
        let '(d, ok) := seal_in_place cipher kid a name raw d in
        if ok then (d, set_charges (observe (g_observe_fails a) name d (sp_charges s)) s, Some true) else (d, s, None)
      else (d, s, Some false)
  end.

Fixpoint migrate_each (cipher : Cipher) (kid : string) (answers : string → migrate_answer) (names : list string) (sealed : Z)
    (d : Disk) (s : Spool) : Disk * Spool * option Z :=
  match names with
  | [] => (d, s, Some sealed)
  | name :: names =>
      let '(d, s, r) := migrate_one cipher kid (answers name) name d s in
      match r with
      | Some b => migrate_each cipher kid answers names (sealed + b2z b) d s
      | None => (d, s, None)
      end
  end.

(** [migrate_plaintext]: how many were sealed; [None] where it raises. *)
Definition migrate_plaintext (key : option (Cipher * string)) (answers : string → migrate_answer) (d : Disk) (s : Spool)
    : Disk * Spool * option Z :=
  match key with
  | None => (d, s, Some 0)
  | Some (cipher, kid) => migrate_each cipher kid answers (names d s) 0 d s
  end.
End migrate.

(** ** The steps of a migration *)

(** The steps of the directory, and the sealed copy of a migration: created under a temp name
    that is free, uncounted by any admission, and renamed over its record. *)
Inductive dir_step (L : Z) : World → World → Prop :=
  | D_step w w' : spool_step L w w' → dir_step L w w'
  | D_copy n f d mem used :
      good n → d !! tmp_of n = None → 0 ≤ f_size f →
      dir_step L (mk_world d mem used) (mk_world (<[tmp_of n := f]> d) mem used)
  | D_swap n d mem used :
      good n → is_Some (d !! n) →
      dir_step L (mk_world d mem used) (mk_world (rename false (tmp_of n) n d).1 mem used).

Lemma names_good d s n : n ∈ names d s → good n.
Proof.
  unfold names, sort_str. rewrite elem_of_py_sort. intros (H & _)%list_elem_of_filter. split; apply H.
Qed.

Section steps.
Context {FT : FloatText} {FI : FloatInt} (L : Z) (mem : Z → Admission) (used : gset string).

Notation steps d d' := (rtc (dir_step L) (mk_world d mem used) (mk_world d' mem used)).

Lemma unlink_step fails n d : steps d (unlink fails n d).1.
Proof. apply rtc_once, D_step, S_remove. Qed.

Lemma unlink_free n d : (unlink false n d).1 !! n = None.
Proof. unfold unlink. destruct (d !! n) eqn:E; simpl; [apply lookup_delete_eq|done]. Qed.

Lemma unlink_other fails n m d : n ≠ m → (unlink fails n d).1 !! m = d !! m.
Proof. intros H. unfold unlink. destruct fails, (d !! n); try done. by apply lookup_delete_ne. Qed.

Lemma seal_in_place_steps cipher kid a name raw d : good name → is_Some (d !! name) →
  steps d (seal_in_place cipher kid a name raw d).1.
Proof.
  intros Hg Hd. unfold seal_in_place. destruct (g_clear_fails a); [done|].
  etrans; [apply (unlink_step false (tmp_of name))|]. pose proof (unlink_free (tmp_of name) d) as Hfree.
  assert (is_Some ((unlink false (tmp_of name) d).1 !! name)) as Hd1.
  { rewrite unlink_other; [done|]. intros E. by eapply good_ne_tmp. }
  set (d1 := (unlink false (tmp_of name) d).1) in *. destruct (g_open_fails a); [done|].
  assert (∀ z, 0 ≤ z → steps d1 (<[tmp_of name := mk_file (g_inode a) z (g_now a)]> d1)) as Hcopy.
  { intros z Hz. by apply rtc_once, D_copy. }
  set (size := len _). assert (0 ≤ size) as Hsize by (unfold size, len; lia). clearbody size.
  destruct (g_written a) as [k|].
  - etrans; [apply (Hcopy (Z.min (Z.of_nat k) size)); lia|]. apply unlink_step.
  - etrans; [by apply (Hcopy size)|]. set (d2 := <[tmp_of name := _]> d1).
    assert (d2 !! tmp_of name = Some (mk_file (g_inode a) size (g_now a))) as Hd2 by apply lookup_insert_eq.
    destruct (g_rename_fails a); [apply unlink_step|].
    assert (steps d2 (rename false (tmp_of name) name d2).1) as Hswap.
    { apply rtc_once, D_swap; [done|]. unfold d2. rewrite lookup_insert_ne; [done|].
      intros E. by eapply good_ne_tmp. }
    unfold rename in *. rewrite Hd2 in *. exact Hswap.
Qed.

Lemma migrate_one_steps cipher kid a name d s : good name →
  steps d (migrate_one cipher kid a name d s).1.1 ∧ sp_admission (migrate_one cipher kid a name d s).1.2 = sp_admission s.
Proof.
  intros Hg. unfold migrate_one. destruct (d !! name) as [f|] eqn:Hd; [|done]. destruct (g_read a) as [raw|]; [|done].
  destruct (migrates raw); [|done]. pose proof (seal_in_place_steps cipher kid a name raw d Hg ltac:(eauto)) as H.
  destruct (seal_in_place _ _ _ _ _ _) as [d1 []]; done.
Qed.

Lemma migrate_each_steps cipher kid answers l z d s : Forall good l →
  steps d (migrate_each cipher kid answers l z d s).1.1
  ∧ sp_admission (migrate_each cipher kid answers l z d s).1.2 = sp_admission s.
Proof.
  revert z d s. induction l as [|n l IH]; intros z d s; [done|]. intros [Hn Hl]%Forall_cons. cbn [migrate_each].
  destruct (migrate_one_steps cipher kid (answers n) n d s Hn) as [H E].
  destruct (migrate_one _ _ _ _ _ _) as [[d1 s1] [b|]]; [|done]. simpl in H, E.
  destruct (IH (z + b2z b) d1 s1 Hl) as [H' E']. split; [by etrans|]. congruence.
Qed.

Lemma migrate_steps key answers d s :
  steps d (migrate_plaintext key answers d s).1.1 ∧ sp_admission (migrate_plaintext key answers d s).1.2 = sp_admission s.
Proof.
  unfold migrate_plaintext. destruct key as [[cipher kid]|]; [|done]. apply migrate_each_steps, Forall_forall.
  intros n. apply names_good.
Qed.
End steps.

(** *** What a migration leaves *)

Section leaves.
Context {FT : FloatText} {FI : FloatInt}.

(** A record that is sealed keeps its name, has the size of its envelope, and opens to what it
    was. *)
Lemma seal_in_place_done cipher kid a name raw d d' : good name →
  seal_in_place cipher kid a name raw d = (d', true) →
  d' !! tmp_of name = None ∧
  d' !! name = Some (mk_file (g_inode a) (len (concat_bytes (seal_pieces cipher kid (g_nonce a) name [raw]))) (g_now a)) ∧
  ∀ m, m ≠ name → m ≠ tmp_of name → d' !! m = d !! m.
Proof.
  intros Hg. unfold seal_in_place. destruct (g_clear_fails a), (g_open_fails a); try done.
  set (size := len _). destruct (g_written a); [done|]. unfold rename. destruct (g_rename_fails a); [done|].
  rewrite lookup_insert_eq. rewrite decide_True by done. intros [= <- _]. split_and!.
  - rewrite lookup_insert_ne by by apply good_ne_tmp. apply lookup_delete_eq.
  - apply lookup_insert_eq.
  - intros m Hn Ht. rewrite lookup_insert_ne, lookup_delete_ne, lookup_insert_ne by done.
    by apply (unlink_other false (tmp_of name) m d).
Qed.
End leaves.

(** *** An example: a migration that leaves the bound

    A directory of one plaintext record at its bound: no admission is asked, and the sealed
    record is larger. *)

Definition demo_answer : migrate_answer :=
  mk_migrate_answer (concat_bytes <$> frame demo_loss []) false "nonce-123456" false 9 19 None false false false false.

Definition demo_full : Disk := {[record_name 7 7 0 := mk_file 3 344 17]}.

Lemma migration_exceeds :
  disk_total demo_full = 344 ∧
  disk_total (@migrate_plaintext no_float_texts no_float_ints (Some (open_cipher, "key-id-12345")) (λ _, demo_answer)
    demo_full (init_spool 7 344 8 0)).1.1 = 392.
Proof. split; vm_compute; reflexivity. Qed.
