(* ===== verification/SpoolRefine.v ===== *)
(** * The methods of a spool are steps of the shared directory

    The methods of [Spool] that change the directory ([fabric/wire/_spool.py]), as [Spool.v]
    has them: writing prepared records, retiring, quarantining, settling and rescanning are
    sequences of the steps of [SpoolBound.v], so what holds of every interleaving of those steps
    holds of the code; migrating plaintext records is one of the steps of [SpoolMigrate.v],
    which also has the sealed copy that no admission counted. Each method is taken by itself:
    what other processes do between two of its steps is in the steps, not in the method. *)

From stdpp Require Import gmap relations functions.
From S2P Require Import Prelude PyDict Hash Json Decimal Ids JsonRead JsonValues SpoolHeader SpoolFrame Spool SpoolNames SpoolBound SpoolMigrate.

(** ** Removals *)

Definition removes : relation Disk := rtc (λ d d', ∃ fails n, d' = (unlink fails n d).1).

Lemma removes_refl d : removes d d.
Proof. apply rtc_refl. Qed.

Lemma removes_trans d1 d2 d3 : removes d1 d2 → removes d2 d3 → removes d1 d3.
Proof. intros H1 H2. unfold removes in *. by etrans. Qed.

Lemma removes_unlink fails n d : removes d (unlink fails n d).1.
Proof. apply rtc_once. eauto. Qed.

Lemma removes_delete n d : removes d (delete n d).
Proof.
  destruct (d !! n) as [f|] eqn:E; [|rewrite delete_id by done; apply removes_refl].
  replace (delete n d) with (unlink false n d).1; [apply removes_unlink|]. unfold unlink. by rewrite E.
Qed.

Lemma removes_lookup d d' n f : removes d d' → d' !! n = Some f → d !! n = Some f.
Proof.
  induction 1 as [|d d1 d2 (fails & m & ->) _ IH]; [done|]. intros H%IH. revert H. unfold unlink. destruct fails; [done|].
  destruct (d !! m); [|done]. simpl. by intros [_ ?]%lookup_delete_Some.
Qed.

Section steps.
Context (L : Z) (mem : Z → Admission) (used : gset string).

Notation steps d d' := (rtc (spool_step L) (mk_world d mem used) (mk_world d' mem used)).

Lemma removes_steps d d' : removes d d' → steps d d'.
Proof. induction 1 as [|d d1 d2 (fails & n & ->) _ IH]; [done|]. eapply rtc_l; [apply S_remove|exact IH]. Qed.

(** *** Publishing *)

(** What is published was reserved at its full size. *)
Definition held (d : Disk) (n : string) : Prop := good n ∧ ∀ f, d !! tmp_of n = Some f → RECEIPT_OVERHEAD ≤ f_size f.

Lemma held_removes d d' n : removes d d' → held d n → held d' n.
Proof. intros Hr [Hg H]. split; [done|]. intros f Hf. eapply H, removes_lookup; eauto. Qed.

Lemma held_publish d n m fails : good n → held d m → held (rename fails (tmp_of n) n d).1 m.
Proof.
  intros Hn [Hg H]. split; [done|]. intros f. unfold rename. destruct fails; [apply H|].
  destruct (d !! tmp_of n) as [g|]; [|apply H]. simpl.
  intros [[E _]|[_ [_ Hf]%lookup_delete_Some]]%lookup_insert_Some; [by apply good_ne_tmp in E|by apply H].
Qed.

Lemma rename_each_steps names fails d : Forall (held d) names → steps d (rename_each d names fails).1.
Proof.
  revert d fails. induction names as [|n names IH]; intros d fails; [done|]. intros [Hn Hs]%Forall_cons. cbn [rename_each].
  destruct (rename _ _ _ _) as [d1 m] eqn:E.
  assert (d1 = (rename (default false (head fails)) (tmp_of n) n d).1) as Ed by (by rewrite E).
  specialize (IH d1 (tail fails)). destruct (rename_each d1 names (tail fails)) as [d2 r]. simpl in *.
  eapply rtc_l; [apply (S_publish L (default false (head fails)) n); [apply Hn|apply Hn]|]. rewrite <-Ed. apply IH.
  eapply Forall_impl; [exact Hs|]. intros m' Hm. rewrite Ed. apply held_publish; [apply Hn|done].
Qed.

Lemma rename_many_steps fails names d : Forall (held d) names → steps d (rename_many fails names d).1.
Proof. unfold rename_many. destruct fails; [apply rename_each_steps|done]. Qed.
End steps.

(** *** The failures of a write *)

Lemma after_reserve_removes live got d c d' c' live' res :
  after_reserve live got d c = (d', c', live', res) →
  removes d d' ∧ ∀ e, e ∈ live' → ∃ i, live !! i = Some e ∧ got !! i = Some Descriptor.
Proof.
  revert got d c d' c' live' res.
  induction live as [|e live IH]; intros [|r got] d c d' c' live' res; cbn [after_reserve];
    [by intros [= <- _ <- _]; split; [apply removes_refl|intros ? ?%elem_of_nil]..|].
  assert (∀ d1 c1 d2 c2 l2 r2, after_reserve live got d1 c1 = (d2, c2, l2, r2) → removes d1 d2 ∧
    ∀ e', e' ∈ l2 → ∃ i, (e :: live) !! i = Some e' ∧ (r :: got) !! i = Some Descriptor) as H.
  { intros d1 c1 d2 c2 l2 r2 E. destruct (IH _ _ _ _ _ _ _ E) as [Hr Hl]. split; [done|]. intros e' He.
    destruct (Hl e' He) as (i & ? & ?). by exists (S i). }
  destruct r.
  - destruct (after_reserve live got d c) as [[[d1 c1] l1] r1] eqn:E. intros [= <- _ <- _].
    destruct (H _ _ _ _ _ _ E) as [Hr Hl]. split; [done|]. intros e' [-> |He]%elem_of_cons; [by exists 0%nat|by apply Hl].
  - destruct (after_reserve live got d _) as [[[d1 c1] l1] r1] eqn:E. intros [= <- _ <- _]. by eapply H.
  - unfold fail_write. destruct (after_reserve live got _ _) as [[[d2 c2] l2] r2] eqn:E.
    intros [= <- _ <- _]. destruct (H _ _ _ _ _ _ E) as [Hr Hl]. split; [|done].
    eapply removes_trans; [apply removes_unlink|done].
Qed.

Lemma keep_live_removes ok d c d' c' live' res :
  keep_live ok d c = (d', c', live', res) → removes d d' ∧ ∀ e, e ∈ live' → e ∈ ok.*1.
Proof.
  revert d c d' c' live' res. induction ok as [|[e b] ok IH]; intros d c d' c' live' res; cbn [keep_live].
  { by intros [= <- _ <- _]. }
  destruct b; [|unfold fail_write].
  - destruct (keep_live ok d c) as [[[d1 c1] l1] r1] eqn:E. intros [= <- _ <- _]. apply IH in E as [Hr Hl].
    split; [done|]. intros e' [-> |He]%elem_of_cons; [by left|right; by apply Hl].
  - destruct (keep_live ok _ _) as [[[d2 c2] l2] r2] eqn:E. intros [= <- _ <- _]. apply IH in E as [Hr Hl].
    split; [eapply removes_trans; [apply removes_unlink|done]|]. intros e' He. right. by apply Hl.
Qed.

(** *** Reservations are at their full size *)

Lemma reserve_each_held rs d total limit opens d' total' r :
  (∀ n z, (n, z) ∈ rs → good n ∧ RECEIPT_OVERHEAD ≤ z ∧ d !! tmp_of n = None) → NoDup rs.*1 →
  reserve_each d total limit (wanted_of rs) opens = (d', total', r) →
  ∀ i n z, rs !! i = Some (n, z) → r !! i = Some Descriptor → held d' n.
Proof.
  revert d total opens d' total' r. induction rs as [|[n z] rs IH]; intros d total opens d' total' r Hrs Hnd; [done|].
  cbn [fmap list_fmap fst] in Hnd. apply NoDup_cons in Hnd as [Hn Hnd].
  assert (∀ m y, (m, y) ∈ rs → m ≠ n) as Hne.
  { intros m y Hm ->. apply Hn, list_elem_of_fmap. by exists (n, y). }
  destruct (Hrs n z) as (Hg & Hz & Hd); [by left|].
  assert (∀ d1 t1 d2 t2 r2 x, (∀ m, m ≠ n → good m → d1 !! tmp_of m = d !! tmp_of m) →
    reserve_each d1 t1 limit (wanted_of rs) (tail opens) = (d2, t2, r2) → (x = Descriptor → held d1 n) →
    ∀ i m y, ((n, z) :: rs) !! i = Some (m, y) → (x :: r2) !! i = Some Descriptor → held d2 m) as H.
  { intros d1 t1 d2 t2 r2 x H1 E Hx [|i] m y; simpl.
    - intros [= <- <-] [= ->]. destruct (Hx eq_refl) as [_ Hh]. split; [done|]. intros f Hf.
      apply (reserve_each_grows rs rs) in E; [|intros m' y' Hm'; destruct (Hrs m' y') as (? & Hy & _); [by right|]; unfold RECEIPT_OVERHEAD in Hy; by split; [|lia]].
      destruct (E _ f Hf) as [?|(_ & m' & y' & Hm' & Ht%tmp_inj)]; [by apply Hh|]. by destruct (Hne m' y' Hm').
    - eapply (IH d1); [|done|exact E]. intros m' y' Hm'. destruct (Hrs m' y') as (? & ? & ?); [by right|].
      split_and!; [done|done|]. rewrite H1; [done|by eapply Hne|done]. }
  change (wanted_of ((n, z) :: rs)) with ((tmp_of n, z) :: wanted_of rs). cbn [reserve_each]. rewrite Hd.
  destruct (limit <? total + z); [|destruct (default OpenFailed (head opens)) as [i now| |i now uf]];
    (match goal with |- context [reserve_each ?d1 ?t1 limit (wanted_of rs) (tail opens)] =>
      destruct (reserve_each d1 t1 limit (wanted_of rs) (tail opens)) as [[d2 t2] r2] eqn:E end; intros [= <- <- <-];
      refine (H _ _ _ _ _ _ _ E _)); try done.
  - intros m Hm Hgm. by rewrite lookup_insert_ne by (by intros ->%tmp_inj).
  - intros _. split; [done|]. intros f. rewrite lookup_insert_eq. by intros [= <-].
  - intros m Hm Hgm. unfold unlink. rewrite lookup_insert_eq. destruct uf; simpl; [|rewrite lookup_delete_ne by (by intros ->%tmp_inj)];
      by rewrite lookup_insert_ne by (by intros ->%tmp_inj).
Qed.

(** ** The methods *)

Section methods.
Context {FT : FloatText} {FI : FloatInt}.

Inductive method :=
  | MWrite (batch : list Entry) (reserve : bool) (answer : batch_answer)
  | MRetire (names : list string) (answers : list retire_answer) (sync : bool) (answers' : string → scan_answer)
  | MQuarantine (busy fails sync obs : bool) (name : string)
  | MSettle (fails : string → bool) (names : option (gset string))
  | MRescan (ledger : string) (now : Z) (answers answers' : string → scan_answer)
  | MMigrate (key : option (Cipher * string)) (answers : string → migrate_answer).

Definition run_method (m : method) (d : Disk) (s : Spool) : Disk * Spool :=
  match m with
  | MWrite batch reserve answer => (write_prepared batch reserve answer d s).1
  | MRetire names answers sync answers' => (retire_many names answers sync answers' d s).1.1
  | MQuarantine busy fails sync obs name => (quarantine busy fails sync obs name d s).1
  | MSettle fails names => (settle fails names d s).1
  | MRescan ledger now answers answers' => rescan ledger now answers answers' d s
  | MMigrate key answers => (migrate_plaintext key answers d s).1
  end.

Definition wants (batch : list Entry) : list (string * Z) := (λ e, (e_name e, e_size e)) <$> batch.

(** When a process calls a method: it writes records under new names, each of at least the
    size of a receipt, with a limit up to [L], and retires and quarantines what [names] lists. *)
Definition callable (L : Z) (used : gset string) (s : Spool) (m : method) : Prop :=
  match m with
  | MWrite batch reserve _ =>
      askable used (wants batch) ∧ NoDup (e_name <$> batch) ∧ sp_max s + (if reserve then sp_reserve s else 0) ≤ L
  | MRetire names _ _ _ => Forall good names
  | MQuarantine _ _ _ _ name => good name
  | _ => True
  end.

(** The steps a method may take. *)
Definition step_of (L : Z) (m : method) : relation World :=
  match m with MMigrate _ _ => dir_step L | _ => spool_step L end.
End methods.

(** *** Retiring, quarantining, settling, rescanning *)

Section steady_admission.
Context (L : Z) (mem : Z → Admission) (used : gset string).

Notation steps d d' := (rtc (spool_step L) (mk_world d mem used) (mk_world d' mem used)).

(** The steps of a method that asks for nothing: what it remembers of the directory is kept. *)
Definition runs (d : Disk) (s : Spool) (y : Disk * Spool) : Prop := steps d y.1 ∧ sp_admission y.2 = sp_admission s.

Lemma runs_trans d s d1 s1 y : runs d s (d1, s1) → runs d1 s1 y → runs d s y.
Proof. intros [H1 E1] [H2 E2]. split; [by etrans|]. simpl in *. congruence. Qed.

Lemma retire_file_steps a own name d : good name → steps d (retire_file a own name d).1.1.
Proof.
  intros Hg. unfold retire_file. destruct own.
  { destruct (t_unlink_fails a); [done|]. apply removes_steps, removes_unlink. }
  set (fails := t_lock_busy a || t_rename_fails a).
  assert (steps d (rename fails name (ack_of name) d).1) as H1 by (apply rtc_once, S_receipt; done).
  destruct (rename fails name (ack_of name) d) as [d1 m]. simpl in H1.
  assert (steps d (truncate (t_truncate_fails a) (t_now a) (ack_of name) d1).1) as H2.
  { etrans; [exact H1|]. apply rtc_once, S_truncate. by rewrite is_ack_of. }
  destruct m; [|destruct (truncate _ _ _ _)|exact H1]; [destruct (truncate _ _ _ _)|]; exact H2.
Qed.

Lemma retire_one_runs a name d s : good name → runs d s (retire_one a name d s).1.1.
Proof.
  intros Hg. unfold retire_one. destruct (claim_retiring _ _) as [o own].
  pose proof (retire_file_steps a own name d Hg) as H. destruct (retire_file _ _ _ _) as [[d1 ok] renamed]. split; [exact H|].
  by destruct ok.
Qed.

Lemma retire_each_runs names answers d s : Forall good names → runs d s (retire_each names answers d s).1.1.
Proof.
  revert answers d s. induction names as [|n names IH]; intros [|a answers] d s; try (by split). intros [Hn Hs]%Forall_cons.
  cbn [retire_each]. pose proof (retire_one_runs a n d s Hn) as H. destruct (retire_one a n d s) as [[[d1 s1] ok] how].
  destruct ok; [|exact H]. specialize (IH answers d1 s1 Hs). destruct (retire_each _ _ _ _) as [[[d2 s2] l] b].
  by eapply runs_trans.
Qed.

Lemma trim_runs answers d s : runs d s (trim answers d s).
Proof.
  unfold trim. destruct (_ || _); [by split|]. generalize (take (Z.to_nat (Z.max 0
    (Z.of_nat (length (py_sort receipt_leb (receipts_of answers d))) - sp_max_receipts s)))
    (py_sort receipt_leb (receipts_of answers d))) as l. intros l.
  assert (∀ st, steps st.1 (foldl (trim_one answers) st l).1) as H.
  { induction l as [|p l IH]; intros st; [done|]. cbn [foldl]. etrans; [|apply IH]. unfold trim_one.
    destruct (n_unlink_fails _); [done|]. apply removes_steps, removes_unlink. }
  specialize (H (d, sp_charges s)). destruct (foldl _ _ _). by split.
Qed.

Lemma retire_many_runs names answers sync answers' d s :
  Forall good names → runs d s (retire_many names answers sync answers' d s).1.1.
Proof.
  intros Hg. unfold retire_many. pose proof (retire_each_runs names answers d s Hg) as H.
  destruct (retire_each _ _ _ _) as [[[d1 s1] done'] fine]. simpl in H.
  set (s2 := if bool_decide _ || _ then _ else _).
  assert (runs d1 s1 (d1, s2)) as H2 by (split; [done|]; unfold s2; by destruct (bool_decide _ || _)). clearbody s2.
  pose proof (trim_runs answers' d1 s2) as H3. destruct (trim _ _ _) as [d4 s4].
  eapply runs_trans; [exact H|]. by eapply runs_trans.
Qed.

Lemma quarantine_runs busy fails sync obs name d s : good name → runs d s (quarantine busy fails sync obs name d s).1.
Proof.
  intros Hg. unfold quarantine.
  assert (steps d (rename (busy || fails) name (corrupt_of name) d).1) as H by (apply rtc_once, S_quarantine; done).
  destruct (rename _ _ _ _) as [d1 m]. by destruct (decide (m = Moved)); split.
Qed.

Lemma settle_one_runs fails name d s : runs d s (settle_one fails name d s).1.
Proof.
  unfold settle_one. destruct (bool_decide _); [by split|]. destruct fails; [by split|].
  pose proof (removes_steps L mem used _ _ (removes_unlink false (ack_of name) d)) as H.
  destruct (unlink _ _ _) as [d1 r]. by destruct (decide _); split.
Qed.

Lemma settle_each_runs fails names d s : runs d s (settle_each fails names d s).1.
Proof.
  revert d s. induction names as [|n names IH]; intros d s; [by split|]. cbn [settle_each].
  pose proof (settle_one_runs (fails n) n d s) as H. destruct (settle_one _ _ _ _) as [[d1 s1] ok].
  destruct ok; [|exact H]. by eapply runs_trans, IH.
Qed.

Lemma settle_runs fails names d s : runs d s (settle fails names d s).1.
Proof.
  unfold settle. pose proof (settle_each_runs fails (elements (o_mine (sp_outcomes s))) d s) as H.
  by destruct (settle_each _ _ _ _) as [[d1 s1] ok].
Qed.

Lemma rescan_one_steps holder lprefix now answers st name :
  steps st.1.1 (rescan_one holder lprefix now answers st name).1.1.
Proof.
  destruct st as [[d scanned] unknown]. unfold rescan_one. destruct (d !! name) as [f|]; [|done].
  destruct (n_stat_fails _); [done|]. set (d1 := if _ && _ && _ then _ else d).
  assert (steps d d1) as H.
  { unfold d1. destruct (is_ack name) eqn:Ea; [|done]. destruct (true && holder && _); [|done].
    apply rtc_once, S_truncate. by rewrite Ea. }
  clearbody d1. destruct (_ && _ && _ && _); [|exact H]. etrans; [exact H|]. apply removes_steps, removes_delete.
Qed.

Lemma rescan_runs lprefix now answers answers' d s : runs d s (rescan lprefix now answers answers' d s).
Proof.
  unfold rescan. assert (∀ l st, steps st.1.1 (foldl (rescan_one (sp_holder s) lprefix now answers) st l).1.1) as H.
  { induction l as [|n l IH]; intros st; [done|]. cbn [foldl]. etrans; [apply rescan_one_steps|apply IH]. }
  specialize (H (map_to_list d).*1 (d, ∅, false)). destruct (foldl _ _ _) as [[d1 scanned] unknown].
  eapply runs_trans; [split; [exact H|]|apply trim_runs]. done.
Qed.
End steady_admission.

(** *** Writing *)

Lemma admit_local_sub limit batch c : (admit_local limit batch c).2 `sublist_of` batch.
Proof.
  revert c. induction batch as [|e batch IH]; intros c; simpl; [constructor|].
  destruct (_ <=? _); [|by constructor]. specialize (IH (account (e_name e) (Some (e_size e)) (start_writing (e_name e) c))).
  destruct (admit_local _ _ _) as [c1 l1]. by constructor.
Qed.

Lemma wanted_of_wants live : (λ e, (tmp_of (e_name e), e_size e)) <$> live = wanted_of (wants live).
Proof. unfold wanted_of, wants. by rewrite <-list_fmap_compose. Qed.

Lemma elem_of_wants n z batch : (n, z) ∈ wants batch ↔ ∃ e, e ∈ batch ∧ n = e_name e ∧ z = e_size e.
Proof. unfold wants. rewrite list_elem_of_fmap. split; [intros (e & [= -> ->] & ?)|intros (e & ? & -> & ->)]; eauto. Qed.

Lemma reserve_many_held answer rs limit d a d' a' r :
  (∀ n z, (n, z) ∈ rs → good n ∧ RECEIPT_OVERHEAD ≤ z ∧ d !! tmp_of n = None) → NoDup rs.*1 →
  reserve_many answer (wanted_of rs) limit d a = (d', a', r) →
  ∀ i n z, rs !! i = Some (n, z) → r !! i = Some Descriptor → held d' n.
Proof.
  intros Hrs Hnd. unfold reserve_many. destruct (wanted_of rs) as [|w ws] eqn:Ew.
  { intros [= _ _ <-] i n z _ H. by rewrite lookup_nil in H. }
  rewrite <-Ew.
  assert (∀ x i, x ≠ Descriptor → ((λ _, x) <$> wanted_of rs) !! i = Some Descriptor → False) as Hno.
  { intros x i Hx H. apply list_lookup_fmap_Some in H as (y & H & _). congruence. }
  destruct answer as [| |errs opens]; [by intros [= _ _ <-] i n z _ ?%Hno..|].
  destruct (shared_total errs d a) as [[a1 total]|]; [|by intros [= _ _ <-] i n z _ ?%Hno].
  destruct (reserve_each _ _ _ _ _) as [[d2 t2] r2] eqn:E. intros [= <- _ <-]. by eapply reserve_each_held.
Qed.

Section refinement.
Context {FT : FloatText} {FI : FloatInt} (L : Z) (p : Z).

Lemma write_steps batch reserve answer d s mem used :
  callable L used s (MWrite batch reserve answer) → mem p = sp_admission s → staged d mem used →
  let '(d', s', _) := write_prepared batch reserve answer d s in
  ∃ live : gset string,
    rtc (spool_step L) (mk_world d mem used) (mk_world d' (<[p := sp_admission s']> mem) (live ∪ used))
    ∧ live ⊆ list_to_set (e_name <$> batch).
Proof.
  intros (Hask & Hnd & HL) Hmem Hst. unfold write_prepared.
  set (limit := sp_max s + (if reserve then sp_reserve s else 0)) in *. clearbody limit.
  pose proof (admit_local_sub limit batch (sp_charges s)) as Hsub.
  destruct (admit_local limit batch (sp_charges s)) as [c1 l1]. cbn [snd] in Hsub.
  rewrite wanted_of_wants. destruct (reserve_many _ _ limit d (sp_admission s)) as [[d2 a2] got] eqn:E2.
  assert (∀ n z, (n, z) ∈ wants l1 → (n, z) ∈ wants batch) as Hin.
  { intros n z (e & He & Hn)%elem_of_wants. apply elem_of_wants. exists e. split; [|done].
    by eapply elem_of_sublist. }
  assert (∀ i e, l1 !! i = Some e → got !! i = Some Descriptor → held d2 (e_name e)) as Hheld.
  { intros i e Hi Hg. eapply (reserve_many_held _ (wants l1)); [| |exact E2| |exact Hg].
    - intros n z Hn. destruct (Hask n z (Hin n z Hn)) as (? & ? & ?). split_and!; [done..|].
      apply eq_None_not_Some. intros Hold. eapply (askable_new used (wants batch) n z 0); [done|by apply Hin|done|done|by left].
    - unfold wants. rewrite <-list_fmap_compose. cbn. apply (sublist_NoDup _ _ Hnd). by apply (fmap_sublist e_name).
    - unfold wants. rewrite list_lookup_fmap, Hi. done. }
  destruct (after_reserve _ _ _ _) as [[[d3 c3] l3] r3] eqn:E3. apply after_reserve_removes in E3 as [R3 H3].
  destruct (keep_live _ _ _) as [[[d4 c4] l4] r4] eqn:E4. apply keep_live_removes in E4 as [R4 H4].
  pose proof (rename_many_steps L (<[p := a2]> mem) (list_to_set (wants l1).*1 ∪ used)
    (if b_rename_busy answer then None else Some ((λ e, w_rename_fails (e_answer e)) <$> l4)) (e_name <$> l4) d4) as R5.
  destruct (rename_many _ _ _) as [d5 moved].
  destruct (keep_live _ _ c4) as [[[d6 c6] l6] r6] eqn:E6. apply keep_live_removes in E6 as [R6 _].
  destruct (keep_live _ _ c6) as [[[d7 c7] l7] r7] eqn:E7. apply keep_live_removes in E7 as [R7 _].
  exists (list_to_set (wants l1).*1). split; cbn [sp_admission set_admission].
  - eapply rtc_l; [eapply (S_reserve L p); [exact HL| |rewrite Hmem; exact E2]|].
    + intros n z Hn. by apply Hask, Hin.
    + trans (mk_world d4 (<[p := a2]> mem) (list_to_set (wants l1).*1 ∪ used)).
      { apply removes_steps. by eapply removes_trans. }
      trans (mk_world d5 (<[p := a2]> mem) (list_to_set (wants l1).*1 ∪ used)); [apply R5|].
      { apply Forall_fmap, Forall_forall. intros e He. apply (held_removes d2); [by eapply removes_trans|].
        apply H4 in He. rewrite fst_pair_map in He by done. apply H3 in He as (i & Hi & Hg). by eapply Hheld. }
      apply removes_steps. by eapply removes_trans.
  - intros n. rewrite !elem_of_list_to_set, !list_elem_of_fmap. intros ([? z] & -> & (e & He & -> & ->)%elem_of_wants).
    exists e. split; [done|]. by eapply elem_of_sublist.
Qed.

(** C32: Writing prepared records, retiring, quarantining, settling and rescanning - called with
    new record names, sizes of at least a receipt, limits up to [L] and listed names
    ([callable]), on a directory in which no unused name is taken ([staged], which
    [spool_step] keeps), with no other process in between - are sequences of the steps of the
    shared directory, and migrating plaintext records is a sequence of those steps and of
    sealed copies that no admission counted, whatever the kernel answers: a method changes only
    what its own process remembers, and only a write takes names. *)
Theorem methods_are_steps m d s mem used :
  callable L used s m → mem p = sp_admission s → staged d mem used →
  let '(d', s') := run_method m d s in
  ∃ mem' used', rtc (step_of L m) (mk_world d mem used) (mk_world d' mem' used')
    ∧ mem' p = sp_admission s' ∧ (∀ q, q ≠ p → mem' q = mem q)
    ∧ match m with
      | MWrite batch _ _ => used ⊆ used' ∧ used' ⊆ list_to_set (e_name <$> batch) ∪ used
      | _ => used' = used
      end.
Proof.
  intros Hc Hm Hst.
  assert (∀ (R : relation World) d' s', rtc R (mk_world d mem used) (mk_world d' mem used) → sp_admission s' = sp_admission s →
    ∃ mem' used', rtc R (mk_world d mem used) (mk_world d' mem' used')
      ∧ mem' p = sp_admission s' ∧ (∀ q, q ≠ p → mem' q = mem q) ∧ used' = used) as Hrun.
  { intros R d' s' H E. exists mem, used. split_and!; [done|congruence|done|done]. }
  destruct m as [batch reserve answer|names answers sync answers'|busy fails sync obs name|fails names|ledger now answers answers'
    |key answers]; cbn [run_method step_of].
  - pose proof (write_steps batch reserve answer d s mem used Hc Hm Hst) as H.
    destruct (write_prepared _ _ _ _ _) as [[d' s'] r]. destruct H as (live & H & Hl).
    exists (<[p := sp_admission s']> mem), (live ∪ used). split_and!; [done| | |set_solver|set_solver].
    + apply fn_lookup_insert.
    + intros q Hq. by apply fn_lookup_insert_ne.
  - pose proof (retire_many_runs L mem used names answers sync answers' d s Hc) as [H E].
    destruct (retire_many _ _ _ _ _ _) as [[[d' s'] z] b]. by apply Hrun.
  - pose proof (quarantine_runs L mem used busy fails sync obs name d s Hc) as [H E].
    destruct (quarantine _ _ _ _ _ _ _) as [[d' s'] b]. by apply Hrun.
  - pose proof (settle_runs L mem used fails names d s) as [H E]. destruct (settle _ _ _ _) as [[d' s'] z]. by apply Hrun.
  - pose proof (rescan_runs L mem used ledger now answers answers' d s) as [H E]. destruct (rescan _ _ _ _ _ _). by apply Hrun.
  - pose proof (migrate_steps L mem used key answers d s) as [H E]. destruct (migrate_plaintext _ _ _ _) as [[d' s'] z].
    by apply Hrun.
Qed.
End refinement.

(** *** An example *)

Definition demo_entry : Entry := mk_entry demo_name 327 (mk_answer false false false false false).
Definition demo_method : method :=
  MWrite [demo_entry] false (mk_batch_answer (Granted (λ _, false) [Opened 3 17]) false false).
Definition demo_spool : Spool := init_spool 7 4096 8 0.

Lemma demo_callable : callable 4096 ∅ demo_spool demo_method.
Proof. split_and!; [apply demo_askable|apply NoDup_singleton|done]. Qed.

Definition demo_run : Disk * Spool := @run_method no_float_texts no_float_ints demo_method ∅ demo_spool.

Lemma methods_are_steps_witness :
  (∃ mem' used', rtc (step_of 4096 demo_method) empty_world (mk_world demo_run.1 mem' used'))
  ∧ demo_run.1 !! demo_name = Some (mk_file 3 327 17).
Proof.
  assert (demo_run.1 !! demo_name = Some (mk_file 3 327 17)) as E by (vm_compute; reflexivity).
  split; [|exact E].
  pose proof (@methods_are_steps no_float_texts no_float_ints 4096 7 demo_method ∅ demo_spool (λ _, fresh_admission) ∅ demo_callable eq_refl
    (bi_staged 4096 _ (empty_inv 4096 (Zle_0_pos 4096)))) as H.
  change (run_method demo_method ∅ demo_spool) with demo_run in H. destruct demo_run as [d s]. destruct H as (mem' & used' & H & _). by exists mem', used'.
Defined.
