(* ===== verification/SpoolOrder.v ===== *)
(** * The names and the sizes of prepared records

    A record's name ([_prepare] of [fabric/wire/_spool.py]) says its epoch, its process and its
    order in zero-padded decimals: the names of one process are all different, and their order
    as strings - the order a drainer reads them in - is the order of those numbers. A prepared
    record is never smaller than a receipt. *)

From stdpp Require Import gmap.
From S2P Require Import Prelude PyDict Hash Json Decimal Canonical Ids SpoolHeader SpoolFrame Spool SpoolNames SpoolBound SpoolRefine.

(** ** Padded decimals *)

Lemma pretty_nonneg z : 0 ≤ z → all_chars is_dec (pretty z) = true ∧ ∃ c r, pretty z = String c r.
Proof.
  intros Hz. destruct z as [|p|p]; [split; [done|by eexists _, _]| |lia].
  change (pretty (Zpos p)) with (pretty_N_go (Npos p) ""). split; [by apply go_digits|].
  destruct (go_first (Npos p) "") as (c & r & -> & _); [done|eauto].
Qed.

Lemma zeros_dec k s : dec_acc 0 (concat_bytes (replicate k "0") +:+ s) = dec_acc 0 s.
Proof. induction k as [|k IH]; [done|]. simpl. exact IH. Qed.

Lemma zeros_digits k : all_chars is_dec (concat_bytes (replicate k "0")) = true.
Proof. induction k as [|k IH]; [done|]. exact IH. Qed.

Lemma zeros_length k : String.length (concat_bytes (replicate k "0")) = k.
Proof. induction k as [|k IH]; [done|]. simpl. by rewrite IH. Qed.

Lemma zpad_digits k z : 0 ≤ z → all_chars is_dec (zpad k z) = true.
Proof. intros Hz. unfold zpad. rewrite all_chars_app, zeros_digits. by apply pretty_nonneg. Qed.

Lemma zpad_value k z : 0 ≤ z → dec_value (zpad k z) = z.
Proof. intros Hz. unfold zpad, dec_value. rewrite zeros_dec. by apply dec_value_pretty. Qed.

Lemma pretty_length k z : 0 ≤ z < 10 ^ Z.of_nat k → (1 ≤ k)%nat → (String.length (pretty z) ≤ k)%nat.
Proof.
  intros Hz Hk. destruct z as [|p|p]; [done| |lia]. change (pretty (Zpos p)) with (pretty_N_go (Npos p) "").
  etrans; [apply (go_length _ _ k)|simpl; lia]. apply N2Z.inj_lt. rewrite N2Z.inj_pow, nat_N_Z. apply Hz.
Qed.

Lemma zpad_length k z : 0 ≤ z < 10 ^ Z.of_nat k → (1 ≤ k)%nat → String.length (zpad k z) = k.
Proof.
  intros Hz Hk. pose proof (pretty_length k z Hz Hk). unfold zpad. rewrite length_string_app, zeros_length. lia.
Qed.

Lemma zpad_inj k z z' r r' :
  0 ≤ z → 0 ≤ z' → first_is is_dec r = false → first_is is_dec r' = false →
  zpad k z +:+ r = zpad k z' +:+ r' → z = z' ∧ r = r'.
Proof.
  intros Hz Hz' Hr Hr' H. apply (span_inj is_dec) in H as [H ->]; [|by apply zpad_digits..|done|done].
  split; [|done]. by rewrite <-(zpad_value k z Hz), H, zpad_value.
Qed.

(** ** Record names *)

Lemma record_name_good epoch pid order : 0 ≤ epoch → good (record_name epoch pid order).
Proof.
  intros He. split.
  - apply endswith_spec. exists (zpad 20 epoch +:+ "-" +:+ zpad 10 pid +:+ "-" +:+ zpad 12 order).
    unfold record_name. by rewrite !string_app_assoc.
  - unfold record_name. pose proof (zpad_digits 20 epoch He) as Hd.
    destruct (zpad 20 epoch) as [|c s] eqn:E; [done|]. unfold all_chars in Hd. simpl in Hd. apply andb_true_iff in Hd as [Hd _].
    unfold startswith. cbn [String.prefix String.append]. destruct (ascii_dec _ c) as [<-|]; [by vm_compute in Hd|done].
Qed.

Lemma record_name_inj e p o e' p' o' :
  0 ≤ e → 0 ≤ p → 0 ≤ o → 0 ≤ e' → 0 ≤ p' → 0 ≤ o' → record_name e p o = record_name e' p' o' → e = e' ∧ p = p' ∧ o = o'.
Proof.
  intros ? ? ? ? ? ? H. unfold record_name in H.
  apply zpad_inj in H as [-> H]; [|done..]. injection H as H.
  apply zpad_inj in H as [-> H]; [|done..]. injection H as H.
  by apply zpad_inj in H as [-> _].
Qed.

(** *** Their order *)

Lemma compare_app s t r r' :
  String.length s = String.length t →
  String.compare (s +:+ r) (t +:+ r') = match String.compare s t with Eq => String.compare r r' | c => c end.
Proof.
  revert t. induction s as [|c s IH]; intros [|d t]; simpl; try done. intros [= H].
  destruct (Ascii.compare c d); [by apply IH|done|done].
Qed.

Lemma compare_dec_acc s t a b :
  String.length s = String.length t → all_chars is_dec s = true → all_chars is_dec t = true →
  (dec_acc a s ?= dec_acc b t)%N = match (a ?= b)%N with Eq => String.compare s t | c => c end.
Proof.
  unfold all_chars. revert t a b. induction s as [|c s IH]; intros [|d t] a b; simpl; try done.
  { intros _ _ _. by destruct (a ?= b)%N. }
  intros [= H] Hs Ht. apply andb_true_iff in Hs as [Hc Hs]. apply andb_true_iff in Ht as [Hd Ht].
  rewrite IH by done. pose proof (digit_N_lt c Hc). pose proof (digit_N_lt d Hd).
  assert (Ascii.compare c d = (digit_N c ?= digit_N d)%N) as E.
  { unfold Ascii.compare, digit_N. unfold is_dec, in_range, byte_of_ascii in Hc, Hd. to_prop.
    destruct (N.compare_spec (N_of_ascii c) (N_of_ascii d)) as [->|Hlt|Hlt];
      [by rewrite N.compare_refl|symmetry; apply N.compare_lt_iff; lia|symmetry; apply N.compare_gt_iff; lia]. }
  destruct (N.compare_spec a b) as [->|Hlt|Hlt].
  - rewrite E. destruct (N.compare_spec (digit_N c) (digit_N d)) as [->|Hl|Hl].
    + by rewrite N.compare_refl.
    + rewrite (proj2 (N.compare_lt_iff _ _)) by lia. done.
    + rewrite (proj2 (N.compare_gt_iff _ _)) by lia. done.
  - rewrite (proj2 (N.compare_lt_iff _ _)) by lia. done.
  - rewrite (proj2 (N.compare_gt_iff _ _)) by lia. done.
Qed.

Lemma zpad_compare k z z' :
  0 ≤ z < 10 ^ Z.of_nat k → 0 ≤ z' < 10 ^ Z.of_nat k → (1 ≤ k)%nat → String.compare (zpad k z) (zpad k z') = (z ?= z').
Proof.
  intros Hz Hz' Hk. rewrite <-(zpad_value k z) at 2 by lia. rewrite <-(zpad_value k z') at 2 by lia.
  unfold dec_value. rewrite N2Z.inj_compare, (compare_dec_acc (zpad k z) (zpad k z')); [done| | |].
  - by rewrite !zpad_length by done.
  - apply zpad_digits. lia.
  - apply zpad_digits. lia.
Qed.

Lemma zpad_next k z z' r r' :
  0 ≤ z < 10 ^ Z.of_nat k → 0 ≤ z' < 10 ^ Z.of_nat k → (1 ≤ k)%nat →
  String.compare (zpad k z +:+ r) (zpad k z' +:+ r') = match z ?= z' with Eq => String.compare r r' | c => c end.
Proof. intros Hz Hz' Hk. rewrite compare_app by (by rewrite !zpad_length). by rewrite zpad_compare. Qed.

Definition lex (c c' : comparison) : comparison := match c with Eq => c' | c => c end.

(** The order of record names is the drain order: while epochs, process ids and orders keep
    to the digits their names have, names compare as strings - what [names] sorts by - the way
    their epochs, then their process ids, then their orders compare as numbers. *)
Theorem drain_order e p o e' p' o' :
  0 ≤ e < 10 ^ 20 → 0 ≤ e' < 10 ^ 20 → 0 ≤ p < 10 ^ 10 → 0 ≤ p' < 10 ^ 10 → 0 ≤ o < 10 ^ 12 → 0 ≤ o' < 10 ^ 12 →
  String.compare (record_name e p o) (record_name e' p' o') = lex (e ?= e') (lex (p ?= p') (o ?= o')).
Proof.
  intros He He' Hp Hp' Ho Ho'. unfold record_name.
  rewrite (zpad_next 20) by (done || lia). destruct (e ?= e'); [|done|done]. cbn [lex].
  rewrite compare_app by done. change (String.compare "-" "-") with Eq. cbn iota.
  rewrite (zpad_next 10) by (done || lia). destruct (p ?= p'); [|done|done]. cbn [lex].
  rewrite compare_app by done. change (String.compare "-" "-") with Eq. cbn iota.
  rewrite (zpad_next 12) by (done || lia). by destruct (o ?= o').
Qed.

(** ** Sizes *)

Definition width (items : list string) : nat := foldr (λ s n, (S (String.length s) + n)%nat) 0%nat items.

Lemma width_perm l l' : l ≡ₚ l' → width l = width l'.
Proof. induction 1; simpl; lia. Qed.

Lemma width_submseteq l l' : l ⊆+ l' → (width l ≤ width l')%nat.
Proof. induction 1; simpl; lia. Qed.

Lemma join_comma_length l : l ≠ [] → S (String.length (join_comma l)) = width l.
Proof.
  induction l as [|x l IH]; [done|]. intros _. destruct l as [|y l]; [unfold join_comma; simpl; lia|]. specialize (IH ltac:(done)).
  change (join_comma (x :: y :: l)) with (x +:+ "," +:+ join_comma (y :: l)).
  change (width (x :: y :: l)) with (S (String.length x) + width (y :: l))%nat. rewrite !length_string_app.
  change (String.length ",") with 1%nat. lia.
Qed.

Definition members (d : Doc) : list string := (λ p, obj_item (p.1, dumps p.2)) <$> d.

Lemma dumps_obj_length d : d ≠ [] → String.length (dumps (JObj d)) = S (width (members d)).
Proof.
  intros Hd. cbn [dumps]. rewrite !length_string_app. set (items := _ <$> d).
  assert (obj_item <$> py_sort key_leb items ≡ₚ members d) as Hp.
  { rewrite py_sort_Permutation. unfold items, members. by rewrite <-list_fmap_compose. }
  pose proof (join_comma_length (obj_item <$> py_sort key_leb items)) as Hl.
  rewrite (width_perm _ _ Hp) in Hl. simpl. rewrite <-Hl; [lia|]. intros E. rewrite E in Hp.
  apply Permutation_nil in Hp. unfold members in Hp. by destruct d.
Qed.

Lemma dumps_nonempty v : no_floats v = true → (1 ≤ String.length (dumps v))%nat.
Proof. intros H. destruct (dumps_first v H) as (c & s & -> & _). simpl. lia. Qed.

(** A member takes its key, two quotes, a colon and at least one byte. *)
Lemma member_length (k : string) v n :
  no_floats v = true → (String.length (quote k) = n)%nat → (n + 2 ≤ String.length (obj_item (k, dumps v)))%nat.
Proof.
  intros Hv Hk. pose proof (dumps_nonempty v Hv). unfold obj_item. cbn [fst snd]. rewrite !length_string_app, Hk.
  change (String.length ":") with 1%nat. lia.
Qed.

Lemma members_width (d : Doc) ks : NoDup ks.*1 → (∀ k v, (k, v) ∈ ks → dget k d = Some v) → (width (members ks) ≤ width (members d))%nat.
Proof.
  intros Hn Hk. apply width_submseteq, fmap_submseteq, NoDup_submseteq; [by apply NoDup_fmap_1 in Hn|].
  intros [k v] H. by apply dget_Some_elem, Hk.
Qed.

(** A stamped record that says its kind takes at least 99 bytes. *)
Lemma stamp_length order at_ doc kind :
  dget "record_kind" doc = Some kind → no_floats kind = true → 99 ≤ len (dumps (JObj (stamp order at_ doc))).
Proof.
  intros Hk Hf. set (d := stamp order at_ doc).
  set (ks := [("schema_version", JStr SCHEMA); ("order", JInt order); ("written_at_unix_nano", JInt at_); ("record_kind", kind)]).
  assert (width (members ks) ≤ width (members d))%nat as Hw.
  { apply members_width; [by apply (bool_decide_unpack _); vm_compute|]. intros k v H. unfold d, stamp.
    repeat apply elem_of_cons in H as [[= -> ->]|H]; [..|by apply elem_of_nil in H]; by rewrite !dget_dset. }
  unfold len. rewrite dumps_obj_length by (unfold d, stamp; intros E; apply (f_equal (dget "written_at_unix_nano")) in E; by rewrite dget_dset_eq in E).
  pose proof (member_length "schema_version" (JStr SCHEMA) 16 eq_refl eq_refl).
  pose proof (member_length "order" (JInt order) 7 eq_refl eq_refl).
  pose proof (member_length "written_at_unix_nano" (JInt at_) 22 eq_refl eq_refl).
  pose proof (member_length "record_kind" kind 13 Hf eq_refl).
  assert (String.length (obj_item ("schema_version", dumps (JStr SCHEMA))) = 46)%nat by reflexivity.
  generalize dependent (width (members d)). intros w Hw. unfold members, ks in Hw.
  cbn [fmap list_fmap width foldr fst snd] in Hw. lia.
Qed.

(** A record says what kind it is: so do all the records the process makes. *)
Definition has_kind (doc : Doc) : Prop := ∃ kind, dget "record_kind" doc = Some kind ∧ no_floats kind = true.

Lemma frame_length order at_ doc bodies pieces :
  has_kind doc → frame (stamp order at_ doc) bodies = Some pieces → RECEIPT_OVERHEAD ≤ len (concat_bytes pieces).
Proof.
  intros (kind & Hk & Hf) H. pose proof (stamp_length order at_ doc kind Hk Hf) as Hl. unfold frame in H.
  case_match; [|done]. destruct (pack 4 _) as [size|] eqn:E; [|done]. apply pack_Some in E as (_ & _ & E).
  apply Some_inj in H as <-. rewrite concat_app, concat_one. cbn [concat_bytes]. rewrite !len_app, E, len_digest.
  pose proof (len_nonneg (concat_bytes bodies)). change (len MAGIC) with 8. unfold RECEIPT_OVERHEAD. lia.
Qed.

Lemma batch_length p frames pieces :
  p ∈ frames → batch_frame frames = Some pieces → len (concat_bytes p) ≤ len (concat_bytes pieces).
Proof.
  intros Hp. unfold batch_frame. destruct (pack 4 _) as [count|]; [|done]. cbn [mbind option_bind].
  destruct (batch_pieces frames) as [rest|] eqn:E; [|done]. cbn [mbind option_bind]. intros H.
  apply Some_inj in H as <-. rewrite concat_app, concat_one, len_app. cbn [concat_bytes]. rewrite len_app, len_digest.
  assert (len (concat_bytes p) ≤ len (concat_bytes rest)) as H.
  { revert rest E. induction frames as [|q frames IH]; intros rest; [by apply elem_of_nil in Hp|]. cbn [batch_pieces].
    destruct (pack 8 _) as [size|]; [|done]. cbn [mbind option_bind]. destruct (batch_pieces frames) as [r|] eqn:Er; [|done].
    cbn [mbind option_bind]. intros H. apply Some_inj in H as <-. cbn [concat_bytes]. rewrite concat_app, !len_app. pose proof (len_nonneg size). pose proof (len_nonneg (concat_bytes r)).
    pose proof (len_nonneg (concat_bytes q)).
    apply elem_of_cons in Hp as [<-|Hp]; [lia|]. specialize (IH Hp r eq_refl). lia. }
  pose proof (len_nonneg (BATCH_MAGIC +:+ count)). lia.
Qed.

(** A cipher's text is no shorter than what it seals. *)
Definition widening (key : option (Cipher * string)) : Prop :=
  match key with Some (cipher, _) => ∀ n d a, len d ≤ len (encrypt cipher n d a) | None => True end.

Lemma sealed_length key j name pieces :
  widening key → len (concat_bytes pieces) ≤ len (concat_bytes (sealed key j name pieces)).
Proof.
  unfold sealed. destruct key as [[cipher kid]|]; [|done]. intros Hw. unfold seal_pieces. cbn [concat_bytes].
  rewrite !len_app. pose proof (Hw (j_nonce j) (concat_bytes pieces) (aad kid name)).
  pose proof (len_nonneg ENVELOPE_MAGIC). pose proof (len_nonneg kid). pose proof (len_nonneg (j_nonce j)).
  change (len "") with 0. lia.
Qed.

(** *** What is prepared *)

Lemma frame_all_spec pid order jobs next named :
  frame_all pid order jobs = (next, Some named) →
  order ≤ next ∧ ∀ i j name pieces, named !! i = Some (j, name, pieces) → j ∈ jobs
    ∧ name = record_name (epoch_of (j_doc j)) pid (order + Z.of_nat i)
    ∧ frame (stamp (order + Z.of_nat i) (j_at j) (j_doc j)) (j_bodies j) = Some pieces.
Proof.
  revert order next named. induction jobs as [|j jobs IH]; intros order next named; cbn [frame_all].
  { intros [= <- <-]. split; [done|]. intros i ? ? ? H. by rewrite lookup_nil in H. }
  destruct (frame _ _) as [pieces|] eqn:Ef; [|done]. destruct (frame_all pid (order + 1) jobs) as [next' rest] eqn:E.
  destruct rest as [rest|]; [|done]. intros [= <- <-]. destruct (IH _ _ _ E) as [Hle Hi]. split; [lia|].
  intros [|i] j' name pieces' H.
  - injection H as <- <- <-. rewrite Z.add_0_r. split_and!; [by left|done|done].
  - destruct (Hi i j' name pieces' H) as (? & ? & ?). replace (order + Z.of_nat (S i)) with (order + 1 + Z.of_nat i) by lia.
    split_and!; [by right|done|done].
Qed.

Lemma sealed_entry key (p : Job * string * list string) :
  widening key → RECEIPT_OVERHEAD ≤ len (concat_bytes p.2) → RECEIPT_OVERHEAD ≤ e_size (prepared_entry key p).
Proof.
  destruct p as [[j name] pieces]. intros Hw Hl. simpl. pose proof (sealed_length key j name pieces Hw). simpl in Hl. lia.
Qed.

Definition askable_file (used : gset string) (p : Job * string * list string) : Prop :=
  good p.1.2 ∧ p.1.2 ∉ used ∧ RECEIPT_OVERHEAD ≤ len (concat_bytes p.2).

Lemma entries_askable key used (files : list (Job * string * list string)) :
  widening key → (∀ p, p ∈ files → askable_file used p) → NoDup ((λ p, p.1.2) <$> files) →
  askable used (wants (prepared_entry key <$> files)) ∧ NoDup (e_name <$> (prepared_entry key <$> files)).
Proof.
  intros Hw Hok Hnd. split.
  - intros n z (e & (p & -> & Hp)%list_elem_of_fmap & -> & ->)%elem_of_wants. destruct (Hok p Hp) as (Hg & Hu & Hl).
    split_and!; [by destruct p as [[? ?] ?]..|by apply sealed_entry].
  - rewrite <-list_fmap_compose. erewrite list_fmap_ext; [exact Hnd|]. by intros _ [[? ?] ?] _.
Qed.

Lemma named_files pid order jobs next named used :
  frame_all pid order jobs = (next, Some named) → 0 ≤ order → 0 ≤ pid →
  (∀ j, j ∈ jobs → has_kind (j_doc j) ∧ 0 ≤ epoch_of (j_doc j)) →
  (∀ epoch o, order ≤ o → record_name epoch pid o ∉ used) →
  (∀ p, p ∈ named → askable_file used p) ∧ NoDup ((λ p, p.1.2) <$> named).
Proof.
  intros E Ho Hp Hj Hu. destruct (frame_all_spec _ _ _ _ _ E) as [_ Hn]. split.
  - intros [[j name] pieces] [i Hi]%list_elem_of_lookup. destruct (Hn i j name pieces Hi) as (Hin & -> & Hf).
    destruct (Hj j Hin) as [Hk He]. split_and!; [by apply record_name_good|apply Hu; lia|by eapply frame_length].
  - apply NoDup_alt. intros i k x Hi Hk. rewrite list_lookup_fmap in Hi, Hk.
    destruct (named !! i) as [[[j name] pieces]|] eqn:Ei; [|done]. destruct (named !! k) as [[[j' name'] pieces']|] eqn:Ek; [|done].
    destruct (Hn i _ _ _ Ei) as (Hin & -> & _). destruct (Hn k _ _ _ Ek) as (Hin' & -> & _).
    simpl in Hi, Hk. apply Some_inj in Hi as <-. apply Some_inj in Hk.
    apply record_name_inj in Hk as (_ & _ & Hk); [lia|by apply Hj|done|lia|by apply Hj|done|lia].
Qed.

(** What [_prepare] hands to a write can be admitted: the names are record names of this
    process, no two records of a batch have the same name, and every prepared record - framed,
    batched or sealed - takes at least the bytes of a receipt, so that none of the steps of its
    life ever needs room. *)
Theorem prepared_askable key group jobs s s' batch used :
  prepare key group jobs s = (s', Some batch) → widening key → 0 ≤ sp_order s → 0 ≤ sp_pid s →
  (∀ j, j ∈ jobs → has_kind (j_doc j) ∧ 0 ≤ epoch_of (j_doc j)) →
  (∀ epoch order, sp_order s ≤ order → record_name epoch (sp_pid s) order ∉ used) →
  askable used (wants batch) ∧ NoDup (e_name <$> batch).
Proof.
  intros H Hw Ho Hp Hj Hu. unfold prepare in H. destruct (frame_all _ _ _) as [next [named|]] eqn:E; [|done].
  destruct (named_files _ _ _ _ _ used E Ho Hp Hj Hu) as [Hok Hnd]. cbn [mbind option_bind] in H.
  destruct named as [|[[j name] pieces] named].
  { apply (f_equal snd), Some_inj in H as <-. by apply (entries_askable key used []). }
  destruct group; cbn [mbind option_bind] in H; [|apply (f_equal snd), Some_inj in H as <-; by apply (entries_askable key used ((j, name, pieces) :: named))].
  destruct (batch_frame _) as [file|] eqn:Eb; [|done]. apply (f_equal snd), Some_inj in H as <-.
  apply (entries_askable key used [(j, name, file)]); [done| |apply NoDup_singleton].
  intros p ->%list_elem_of_singleton. destruct (Hok (j, name, pieces)) as (? & ? & Hl); [by left|].
  split_and!; [done|done|]. etrans; [exact Hl|]. eapply batch_length; [|exact Eb]. by left.
Qed.

(** *** Examples *)

Lemma drain_order_witness : String.compare (record_name 7 90 3) (record_name 7 9 12) = Gt.
Proof. rewrite (@drain_order 7 90 3 7 9 12) by lia. reflexivity. Qed.

Definition demo_jobs : list Job := [mk_job demo_loss [""] 17 "" (mk_answer false false false false false)].

Lemma prepared_askable_witness : ∃ s batch,
  prepare None true demo_jobs demo_spool = (s, Some batch) ∧ askable ∅ (wants batch) ∧ e_name <$> batch = [demo_name].
Proof.
  destruct (prepare None true demo_jobs demo_spool) as [s batch] eqn:E. destruct batch as [batch|]; [|by vm_compute in E].
  exists s, batch. split; [done|]. split; [|by vm_compute in E; injection E as _ <-].
  refine (proj1 (prepared_askable None true demo_jobs demo_spool s batch ∅ E I _ _ _ _)); [done|done| |].
  - intros j ->%list_elem_of_singleton. split; [by eexists|by vm_compute].
  - intros. apply not_elem_of_empty.
Defined.
