(* ===== verification/SpoolOutcome.v ===== *)
(** * What becomes of a record

    The outcomes of the records the processes of a spool write ([mine], [failed] of
    [fabric/wire/_spool.py]): writers, the drainer and the settling writer in any interleaving.
    A writer counts a record as failed exactly when it was not delivered, as long as no
    receipt is removed before its writer saw it. *)

From stdpp Require Import gmap relations functions.
From S2P Require Import Prelude PyDict Hash Json Decimal Ids SpoolHeader SpoolFrame Spool SpoolNames SpoolBound.

(** The directory and the processes; and what happened: who published a name, whose write is
    not over, whose write succeeded, what was delivered, what was found corrupt, and whose
    receipt was removed by other than its writer. No step reads what happened but to say that
    a name is new, whose it is, and that what is corrupt is not delivered. *)
Record Fates := mk_fates {
  ft_disk : Disk;
  ft_spools : Z → Spool;
  ft_writer : gmap string Z;
  ft_flying : gset string;
  ft_finished : gset string;
  ft_delivered : gset string;
  ft_corrupt : gset string;
  ft_expired : gset string;
}.

Definition outcomes_of (w : Fates) (p : Z) : Outcomes := sp_outcomes (ft_spools w p).
Definition put_outcomes (p : Z) (o : Outcomes) (sp : Z → Spool) : Z → Spool := <[p := set_outcomes o (sp p)]> sp.

Definition only_if (b : bool) (n : string) : gset string := if b then {[n]} else ∅.

Inductive fate_step : Fates → Fates → Prop :=
  (** a rename makes a new name a record *)
  | F_publish p n f d sp wr fl fi de co ex :
      good n → wr !! n = None →
      fate_step (mk_fates d sp wr fl fi de co ex) (mk_fates (<[n := f]> d) sp (<[n := p]> wr) ({[n]} ∪ fl) fi de co ex)
  (** the end of its write, or its failure *)
  | F_finish p e d sp wr fl fi de co ex :
      wr !! e_name e = Some p → e_name e ∈ fl →
      fate_step (mk_fates d sp wr fl fi de co ex)
        (mk_fates d (put_outcomes p (finish_mine (sp_outcomes (sp p)) e) sp) wr (fl ∖ {[e_name e]}) ({[e_name e]} ∪ fi) de co ex)
  | F_abandon n d sp wr fl fi de co ex :
      fate_step (mk_fates d sp wr fl fi de co ex) (mk_fates d sp wr (fl ∖ {[n]}) fi de co ex)
  (** retiring a delivered record: the claim, the removal of an own one, the receipt of
      another's *)
  | F_claim p n d sp wr fl fi de co ex :
      good n → n ∉ co →
      fate_step (mk_fates d sp wr fl fi de co ex)
        (mk_fates d (put_outcomes p (claim_retiring n (sp_outcomes (sp p))).1 sp) wr fl fi
           (only_if (claim_retiring n (sp_outcomes (sp p))).2 n ∪ de) co ex)
  | F_unlink fails p n d sp wr fl fi de co ex :
      n ∈ o_retiring (sp_outcomes (sp p)) →
      fate_step (mk_fates d sp wr fl fi de co ex) (mk_fates (unlink fails n d).1 sp wr fl fi de co ex)
  | F_retired p (names : gset string) d sp wr fl fi de co ex :
      fate_step (mk_fates d sp wr fl fi de co ex)
        (mk_fates d (put_outcomes p (mk_outcomes (o_mine (sp_outcomes (sp p))) (o_retiring (sp_outcomes (sp p)) ∖ names)
           (o_failed (sp_outcomes (sp p)))) sp) wr fl fi de co ex)
  | F_receipt fails n d sp wr fl fi de co ex :
      good n → n ∉ co →
      fate_step (mk_fates d sp wr fl fi de co ex)
        (mk_fates (rename fails n (ack_of n) d).1 sp wr fl fi
           (only_if (bool_decide ((rename fails n (ack_of n) d).2 = Moved)) n ∪ de) co ex)
  | F_truncate fails now n d sp wr fl fi de co ex :
      is_ack n →
      fate_step (mk_fates d sp wr fl fi de co ex) (mk_fates (truncate fails now n d).1 sp wr fl fi de co ex)
  (** quarantining a record that was read *)
  | F_corrupt p n d sp wr fl fi de co ex :
      good n → is_Some (d !! n) →
      fate_step (mk_fates d sp wr fl fi de co ex)
        (mk_fates d (put_outcomes p (claim_corrupt n (sp_outcomes (sp p))) sp) wr fl fi de ({[n]} ∪ co) ex)
  | F_quarantine fails n d sp wr fl fi de co ex :
      good n → n ∈ co →
      fate_step (mk_fates d sp wr fl fi de co ex) (mk_fates (rename fails n (corrupt_of n) d).1 sp wr fl fi de co ex)
  (** the writer settles a pending record *)
  | F_settle p fails n d sp wr fl fi de co ex :
      n ∈ pending (sp p) →
      fate_step (mk_fates d sp wr fl fi de co ex)
        (mk_fates (settle_one fails n d (sp p)).1.1 (<[p := (settle_one fails n d (sp p)).1.2]> sp) wr fl fi de co ex)
  (** a receipt is removed by expiry or by hand, any other file by hand *)
  | F_expire n d sp wr fl fi de co ex :
      fate_step (mk_fates d sp wr fl fi de co ex) (mk_fates (delete (ack_of n) d) sp wr fl fi de co ({[n]} ∪ ex))
  | F_remove x d sp wr fl fi de co ex :
      is_ack x = false →
      fate_step (mk_fates d sp wr fl fi de co ex) (mk_fates (delete x d) sp wr fl fi de co ex).

Definition start (mx rc lb : Z) : Fates := mk_fates ∅ (λ p, init_spool p mx rc lb) ∅ ∅ ∅ ∅ ∅ ∅.

(** The records of [p] that will never be delivered: written, no longer pending, not delivered. *)
Definition lost (w : Fates) (p : Z) : gset string :=
  filter (λ n, ft_writer w !! n = Some p ∧ n ∉ o_mine (outcomes_of w p) ∧ n ∉ ft_delivered w) (ft_finished w).

(** *** The invariant, name by name *)

Definition on_disk (w : Fates) (n : string) : Prop := is_Some (ft_disk w !! n).
Definition receipt (w : Fates) (n : string) : Prop := is_Some (ft_disk w !! ack_of n).
Definition is_mine (w : Fates) (p : Z) (n : string) : Prop := n ∈ o_mine (outcomes_of w p).
Definition is_retiring (w : Fates) (p : Z) (n : string) : Prop := n ∈ o_retiring (outcomes_of w p).

Record name_ok (w : Fates) (n : string) : Prop := mk_name_ok {
  ok_mine p : is_mine w p n → ft_writer w !! n = Some p ∧ n ∈ ft_finished w;
  ok_flying : n ∈ ft_flying w → is_Some (ft_writer w !! n) ∧ n ∉ ft_finished w;
  ok_finished : n ∈ ft_finished w → is_Some (ft_writer w !! n);
  ok_disk : on_disk w n → is_Some (ft_writer w !! n);
  ok_delivered : n ∈ ft_delivered w → is_Some (ft_writer w !! n);
  ok_receipt : receipt w n → n ∈ ft_delivered w;
  ok_kept : n ∈ ft_delivered w → n ∉ ft_expired w → n ∈ ft_flying w ∨ (∃ p, is_mine w p n) → ¬ on_disk w n ∧ receipt w n;
  ok_lost p : n ∈ lost w p → n ∈ ft_corrupt w ∨ ¬ on_disk w n;
  ok_retiring p : is_retiring w p n → n ∈ ft_delivered w;
}.

(** The count: every lost record once, as long as no receipt was taken away. *)
Definition counted (w : Fates) : Prop := ft_expired w = ∅ → ∀ p, o_failed (outcomes_of w p) = Z.of_nat (size (lost w p)).

Definition same_name (w w' : Fates) (n : string) : Prop :=
  (on_disk w' n ↔ on_disk w n) ∧ (receipt w' n ↔ receipt w n) ∧ ft_writer w' !! n = ft_writer w !! n
  ∧ (n ∈ ft_flying w' ↔ n ∈ ft_flying w) ∧ (n ∈ ft_finished w' ↔ n ∈ ft_finished w)
  ∧ (n ∈ ft_delivered w' ↔ n ∈ ft_delivered w) ∧ (n ∈ ft_corrupt w' ↔ n ∈ ft_corrupt w)
  ∧ (n ∈ ft_expired w' ↔ n ∈ ft_expired w)
  ∧ (∀ p, is_mine w' p n ↔ is_mine w p n) ∧ (∀ p, is_retiring w' p n ↔ is_retiring w p n).

Lemma elem_of_lost w p n :
  n ∈ lost w p ↔ n ∈ ft_finished w ∧ ft_writer w !! n = Some p ∧ ¬ is_mine w p n ∧ n ∉ ft_delivered w.
Proof. unfold lost. rewrite elem_of_filter. unfold is_mine. tauto. Qed.

Lemma same_lost w w' n p : same_name w w' n → n ∈ lost w' p ↔ n ∈ lost w p.
Proof. intros (_ & _ & E & _ & Hfi & Hde & _ & _ & Hm & _). rewrite !elem_of_lost, E, Hfi, Hde, (Hm p). tauto. Qed.

Lemma same_name_ok w w' n : same_name w w' n → name_ok w n → name_ok w' n.
Proof.
  intros Hs [H1 H2 H3 H4 H5 H6 H7 H8 H9].
  assert (∀ p, n ∈ lost w' p ↔ n ∈ lost w p) as Hl by (intros p; by apply same_lost).
  destruct Hs as (Hd & Hr & E & Hfl & Hfi & Hde & Hco & Hex & Hm & Ht).
  assert ((∃ p, is_mine w' p n) ↔ ∃ p, is_mine w p n) as Hem by (by setoid_rewrite Hm).
  split; intros *; rewrite ?E, ?Hfi, ?Hfl, ?Hde, ?Hco, ?Hex, ?Hm, ?Ht, ?Hl, ?Hem, ?Hd, ?Hr; eauto.
Qed.

Definition own_good (w : Fates) : Prop :=
  (∀ n p, ft_writer w !! n = Some p → good n) ∧ ∀ n p, is_mine w p n ∨ is_retiring w p n → good n.

Record fates_ok (w : Fates) : Prop := mk_fates_ok {
  fo_own : own_good w;
  fo_names n : good n → name_ok w n;
  fo_counted : counted w;
}.

(** A step is about one name: the others keep theirs. *)
Lemma focus w w' n :
  (∀ m, good m → m ≠ n → same_name w w' m) → (name_ok w n → name_ok w' n) →
  (∀ m, good m → name_ok w m) → ∀ m, good m → name_ok w' m.
Proof.
  intros Hs Hn Ho m Hm. destruct (decide (m = n)) as [->|Hne]; [by apply Hn, Ho|]. eapply same_name_ok; eauto.
Qed.

Lemma lost_good w p n : own_good w → n ∈ lost w p → good n.
Proof. intros [H _] (_ & E & _)%elem_of_lost. by eapply H. Qed.

Lemma counted_same w w' :
  own_good w → own_good w' →
  (ft_expired w' = ∅ → ft_expired w = ∅ ∧ (∀ p, o_failed (outcomes_of w' p) = o_failed (outcomes_of w p))
     ∧ ∀ n p, good n → n ∈ lost w' p ↔ n ∈ lost w p) →
  counted w → counted w'.
Proof.
  intros Ho Ho' H Hc He. destruct (H He) as (He' & Hf & Hl). intros p. rewrite Hf, (Hc He' p). do 2 f_equal. apply set_eq. intros n.
  split; intros Hn; apply Hl; eauto using lost_good.
Qed.

Lemma counted_gain w w' n p :
  own_good w → own_good w' →
  (ft_expired w' = ∅ → ft_expired w = ∅ ∧ (∀ q, o_failed (outcomes_of w' q) = o_failed (outcomes_of w q) + b2z (bool_decide (q = p)))
     ∧ n ∉ lost w p ∧ ∀ m q, good m → m ∈ lost w' q ↔ m ∈ lost w q ∨ (m = n ∧ q = p)) →
  good n → counted w → counted w'.
Proof.
  intros Ho Ho' H Hn Hc He. destruct (H He) as (He' & Hf & Hnl & Hl). intros q. rewrite Hf, (Hc He' q).
  destruct (decide (q = p)) as [->|Hne].
  - rewrite bool_decide_true by done. assert (lost w' p = {[n]} ∪ lost w p) as ->.
    { apply set_eq. intros m. rewrite elem_of_union, elem_of_singleton. split.
      - intros Hm. apply Hl in Hm; [naive_solver|eauto using lost_good].
      - intros [->|Hm]; apply Hl; eauto using lost_good. }
    rewrite size_union by set_solver. rewrite size_singleton. cbn. lia.
  - rewrite bool_decide_false by done. cbn. rewrite Z.add_0_r. do 2 f_equal. apply set_eq. intros m. split; intros Hm.
    + apply Hl; eauto using lost_good.
    + apply Hl in Hm as [?|[_ ?]]; [done|done|eauto using lost_good].
Qed.

(** *** What a step does to the other names *)

Definition keeps_file (d d' : Disk) (n : string) : Prop :=
  ∀ m, good m → m ≠ n → (is_Some (d' !! m) ↔ is_Some (d !! m)) ∧ (is_Some (d' !! ack_of m) ↔ is_Some (d !! ack_of m)).

Lemma insert_keeps d n f : good n → keeps_file d (<[n := f]> d) n.
Proof.
  intros Hg m Hm Hne. rewrite !lookup_insert_ne; [done|by intros ?%good_ne_ack|done].
Qed.

Lemma delete_keeps d x n : x = n ∧ good n ∨ x = ack_of n → keeps_file d (delete x d) n.
Proof.
  intros [[-> Hg]| ->] m Hm Hne.
  - rewrite !lookup_delete_ne; [done|by intros ?%good_ne_ack|done].
  - rewrite !lookup_delete_ne; [done|by intros ?%ack_inj|by intros ?%eq_sym%good_ne_ack].
Qed.

Lemma unlink_keeps fails d x n : x = n ∧ good n ∨ x = ack_of n → keeps_file d (unlink fails x d).1 n.
Proof.
  intros H. unfold unlink. destruct fails; [done|]. destruct (d !! x); [|done]. by apply delete_keeps.
Qed.

Lemma rename_keeps fails d n x : good n → x = ack_of n ∨ x = corrupt_of n → keeps_file d (rename fails n x d).1 n.
Proof.
  intros Hg Hx m Hm Hne. unfold rename. destruct fails; [done|]. destruct (d !! n) as [f|]; [|done]. cbn [fst].
  assert (x ≠ m) by (destruct Hx as [-> | ->]; [by intros ?%eq_sym%good_ne_ack|by intros ?%eq_sym%good_ne_corrupt]).
  assert (x ≠ ack_of m) by (destruct Hx as [-> | ->]; [by intros ?%ack_inj|by intros ?%eq_sym%ack_ne_corrupt]).
  rewrite !lookup_insert_ne, !lookup_delete_ne by (done || by intros ?%good_ne_ack). done.
Qed.

Lemma truncate_dom fails now x d m : is_Some ((truncate fails now x d).1 !! m) ↔ is_Some (d !! m).
Proof.
  unfold truncate. destruct (d !! x) eqn:E; [|done]. destruct fails; [done|]. cbn [fst].
  destruct (decide (m = x)) as [->|Hne]; [rewrite lookup_insert_eq, E; by split; eauto|by rewrite lookup_insert_ne].
Qed.

Lemma put_outcomes_eq p o sp : sp_outcomes (put_outcomes p o sp p) = o.
Proof. unfold put_outcomes. by rewrite fn_lookup_insert. Qed.
Lemma put_outcomes_ne p q o sp : q ≠ p → put_outcomes p o sp q = sp q.
Proof. intros H. unfold put_outcomes. by rewrite fn_lookup_insert_ne. Qed.

(** *** The steps *)

Ltac fields := unfold on_disk, receipt, is_mine, is_retiring, outcomes_of in *;
  cbn [ft_disk ft_spools ft_writer ft_flying ft_finished ft_delivered ft_corrupt ft_expired] in *.

(** The files of one name change; the rest but what was delivered, found corrupt or expired
    stays. *)
Lemma file_step d d' sp wr fl fi de de' co ex ex' n :
  let w := mk_fates d sp wr fl fi de co ex in
  let w' := mk_fates d' sp wr fl fi de' co ex' in
  good n → keeps_file d d' n → (∀ m, m ≠ n → (m ∈ de' ↔ m ∈ de) ∧ (m ∈ ex' ↔ m ∈ ex)) →
  (name_ok w n → name_ok w' n) →
  (ex' = ∅ → ex = ∅ ∧ (name_ok w n → ∀ p, n ∈ lost w' p ↔ n ∈ lost w p)) →
  fates_ok w → fates_ok w'.
Proof.
  intros w w' Hg Hk Hs Hn Hc [Ho Hok Hct].
  assert (∀ m, good m → m ≠ n → same_name w w' m) as Hsame.
  { intros m Hm Hne. destruct (Hk m Hm Hne) as [? ?]. destruct (Hs m Hne) as [? ?]. by split_and!. }
  split; [exact Ho|by eapply focus; eauto|]. eapply counted_same; [exact Ho|exact Ho| |exact Hct].
  intros He. destruct (Hc He) as [He' Hl]. split_and!; [done|done|]. intros m p Hm.
  destruct (decide (m = n)) as [->|Hne]; [by apply Hl, Hok|by apply same_lost, Hsame].
Qed.

Lemma fates_publish p n f d sp wr fl fi de co ex :
  good n → wr !! n = None → fates_ok (mk_fates d sp wr fl fi de co ex) →
  fates_ok (mk_fates (<[n := f]> d) sp (<[n := p]> wr) ({[n]} ∪ fl) fi de co ex).
Proof.
  intros Hg Hw [Ho Hok Hct]. set (w := mk_fates _ _ _ _ _ _ _ _) in *. set (w' := mk_fates _ _ _ _ _ _ _ _).
  destruct (Hok n Hg) as [H1 H2 H3 H4 H5 H6 H7 H8 H9]. 
  assert (is_Some (wr !! n) → False) as Hnew by (rewrite Hw; by intros [? ?]).
  assert (∀ m, good m → m ≠ n → same_name w w' m) as Hsame.
  { intros m Hm Hne. destruct (insert_keeps d n f Hg m Hm Hne) as [? ?]. split_and!; try done; cbn.
    - by rewrite lookup_insert_ne.
    - set_solver. }
  assert (own_good w') as Ho'.
  { split; [|apply Ho]. intros m q. cbn. intros [[<- _]|[_ H]]%lookup_insert_Some; [done|by eapply (proj1 Ho)]. }
  split; [exact Ho'|eapply focus; [exact Hsame| |exact Hok]|].
  - intros _. clear Hsame. subst w w'. split; fields.
    + intros q Hq. destruct Hnew. destruct (H1 q Hq) as [E _]. eauto.
    + intros _. split; [rewrite lookup_insert_eq; eauto|]. by intros ?%H3.
    + by intros ?%H3.
    + intros _. rewrite lookup_insert_eq. eauto.
    + by intros ?%H5.
    + rewrite lookup_insert_ne by (by apply good_ne_ack). apply H6.
    + by intros ?%H5.
    + intros q (Hq & _)%elem_of_lost. by apply H3 in Hq.
    + intros q Hq. by apply H9 in Hq.
  - eapply counted_same; [exact Ho|exact Ho'| |exact Hct]. intros He. split_and!; [done|done|]. intros m q Hm.
    destruct (decide (m = n)) as [->|Hne]; [|by apply same_lost, Hsame].
    rewrite !elem_of_lost. split; intros (Hq & _); by apply H3 in Hq.
Qed.

Lemma fates_abandon n d sp wr fl fi de co ex :
  fates_ok (mk_fates d sp wr fl fi de co ex) → fates_ok (mk_fates d sp wr (fl ∖ {[n]}) fi de co ex).
Proof.
  intros [Ho Hok Hct]. split; [exact Ho| |exact Hct]. intros m Hm. destruct (Hok m Hm) as [H1 H2 H3 H4 H5 H6 H7 H8 H9].
  split; fields; auto.
  - intros Hf. apply H2. set_solver.
  - intros Hd He Hk. apply H7; [done|done|]. set_solver.
Qed.

Lemma fates_gone d d' sp wr fl fi de co ex n :
  good n → keeps_file d d' n → (is_Some (d' !! n) → is_Some (d !! n)) → (is_Some (d' !! ack_of n) ↔ is_Some (d !! ack_of n)) →
  fates_ok (mk_fates d sp wr fl fi de co ex) → fates_ok (mk_fates d' sp wr fl fi de co ex).
Proof.
  intros Hg Hk Hn Ha. eapply file_step; [exact Hg|exact Hk|done| |].
  - intros [H1 H2 H3 H4 H5 H6 H7 H8 H9]. split; fields; auto.
    + by rewrite Ha.
    + rewrite Ha. intros Hd He Hq. destruct (H7 Hd He Hq) as [? ?]. split; [by intros ?%Hn|done].
    + intros p Hp. destruct (H8 p Hp) as [?|Hx]; [by left|right]. by intros ?%Hn.
  - by intros He.
Qed.

Lemma fates_receipt fails n d sp wr fl fi de co ex :
  good n → n ∉ co → fates_ok (mk_fates d sp wr fl fi de co ex) →
  fates_ok (mk_fates (rename fails n (ack_of n) d).1 sp wr fl fi
    (only_if (bool_decide ((rename fails n (ack_of n) d).2 = Moved)) n ∪ de) co ex).
Proof.
  intros Hg Hco. assert (n ≠ ack_of n) as Hna by (by apply good_ne_ack).
  apply (file_step _ _ _ _ _ _ _ _ _ _ _ n); [done|apply rename_keeps; [done|by left]| | |].
  - intros m Hne. unfold only_if. case_bool_decide; [|set_solver]. set_solver.
  - intros [H1 H2 H3 H4 H5 H6 H7 H8 H9]. unfold rename, only_if. destruct fails; cbn [fst snd].
    { rewrite bool_decide_false, (left_id_L ∅ (∪)) by done. by split. }
    destruct (d !! n) as [f|] eqn:E; cbn [fst snd]; [|rewrite bool_decide_false, (left_id_L ∅ (∪)) by done; by split].
    rewrite bool_decide_true by done.
    assert (is_Some (wr !! n)) as Hw by (apply H4; fields; by rewrite E).
    split; fields; auto.
    + intros _. set_solver.
    + intros _ _ _. rewrite lookup_insert_ne, lookup_delete_eq, lookup_insert_eq by done. split; [by intros [? ?]|eauto].
    + intros p (_ & _ & _ & Hx)%elem_of_lost. cbn in Hx. set_solver.
    + intros p Hq. set_solver.
  - intros He. split; [done|]. intros [_ _ _ H4 _ _ _ H8 _] p. rewrite !elem_of_lost. cbn. unfold only_if. case_bool_decide as Hm; [|set_solver].
    split; [set_solver|]. intros (Hf & Hw & Hmine & Hd). destruct (H8 p) as [?|Hx]; [by apply elem_of_lost|done|].
    destruct Hx. unfold rename in Hm. destruct fails; [done|]. fields. destruct (d !! n); [eauto|done].
Qed.

Lemma fates_expire n d sp wr fl fi de co ex :
  fates_ok (mk_fates d sp wr fl fi de co ex) → fates_ok (mk_fates (delete (ack_of n) d) sp wr fl fi de co ({[n]} ∪ ex)).
Proof.
  intros [Ho Hok Hct]. split; [exact Ho| |intros He; cbn in He; set_solver].
  intros m Hm. destruct (decide (m = n)) as [->|Hne].
  - destruct (Hok n Hm) as [H1 H2 H3 H4 H5 H6 H7 H8 H9]. assert (ack_of n ≠ n) by (by intros ?%eq_sym%good_ne_ack).
    split; fields; auto.
    + by rewrite lookup_delete_ne.
    + rewrite lookup_delete_eq. by intros [? ?].
    + set_solver.
    + intros p. rewrite lookup_delete_ne by done. by apply H8.
  - destruct (delete_keeps d (ack_of n) n (or_intror eq_refl) m Hm Hne) as [? ?].
    eapply same_name_ok; [|by apply Hok]. split_and!; try done. cbn. set_solver.
Qed.

Lemma fates_quarantine fails n d sp wr fl fi de co ex :
  good n → fates_ok (mk_fates d sp wr fl fi de co ex) →
  fates_ok (mk_fates (rename fails n (corrupt_of n) d).1 sp wr fl fi de co ex).
Proof.
  intros Hg. apply (fates_gone _ _ _ _ _ _ _ _ _ n); [done|apply rename_keeps; [done|by right]|..];
    (unfold rename; destruct fails; [done|]; destruct (d !! n) as [f|] eqn:E; cbn [fst]; rewrite ?E; [|done]).
  - rewrite lookup_insert_ne by (by intros ?%eq_sym%good_ne_corrupt). eauto.
  - rewrite lookup_insert_ne, lookup_delete_ne; [done|by apply good_ne_ack|by intros ?%eq_sym%ack_ne_corrupt].
Qed.

Lemma fates_unlink fails n d sp wr fl fi de co ex :
  good n → fates_ok (mk_fates d sp wr fl fi de co ex) → fates_ok (mk_fates (unlink fails n d).1 sp wr fl fi de co ex).
Proof.
  intros Hg. apply (fates_gone _ _ _ _ _ _ _ _ _ n); [done|apply unlink_keeps; by left|..];
    (unfold unlink; destruct fails; [done|]; destruct (d !! n) as [f|] eqn:E; cbn [fst]; rewrite ?E; [|done]).
  - rewrite lookup_delete_eq. by intros [? ?].
  - rewrite lookup_delete_ne by (by apply good_ne_ack). done.
Qed.

(** A change of the directory that keeps which files there are, but for some that are no
    receipts. *)
Lemma fates_fewer d d' sp wr fl fi de co ex :
  (∀ m, good m → is_Some (d' !! m) → is_Some (d !! m)) → (∀ m, is_Some (d' !! ack_of m) ↔ is_Some (d !! ack_of m)) →
  fates_ok (mk_fates d sp wr fl fi de co ex) → fates_ok (mk_fates d' sp wr fl fi de co ex).
Proof.
  intros Hf Ha [Ho Hok Hct]. split; [exact Ho| |exact Hct]. intros n Hg. destruct (Hok n Hg) as [H1 H2 H3 H4 H5 H6 H7 H8 H9].
  split; fields; auto.
  - by rewrite Ha.
  - rewrite Ha. intros Hd He Hq. destruct (H7 Hd He Hq) as [? ?]. split; [by intros ?%Hf|done].
  - intros p Hp. destruct (H8 p Hp) as [?|Hx]; [by left|right]. by intros ?%Hf.
Qed.

(** *** What a process does with its outcomes *)

Section outcomes.
Context (p : Z) (n : string) (d : Disk) (sp sp' : Z → Spool) (wr : gmap string Z).
Context (Hothers : ∀ q, q ≠ p → sp_outcomes (sp' q) = sp_outcomes (sp q)).

Notation o := (sp_outcomes (sp p)).
Notation o' := (sp_outcomes (sp' p)).

(** Only what is known of [n] changes. *)
Definition only_name : Prop :=
  ∀ m, m ≠ n → (m ∈ o_mine o' ↔ m ∈ o_mine o) ∧ (m ∈ o_retiring o' ↔ m ∈ o_retiring o).

Lemma outcome_names d' fl fl' fi fi' de de' co co' ex m :
  only_name → keeps_file d d' n → good m → m ≠ n →
  (m ∈ fl' ↔ m ∈ fl) → (m ∈ fi' ↔ m ∈ fi) → (m ∈ de' ↔ m ∈ de) → (m ∈ co' ↔ m ∈ co) →
  same_name (mk_fates d sp wr fl fi de co ex) (mk_fates d' sp' wr fl' fi' de' co' ex) m.
Proof.
  intros Hn Hk Hm Hne ? ? ? ?. destruct (Hk m Hm Hne) as [? ?]. destruct (Hn m Hne) as [? ?].
  split_and!; try done; fields; intros q; (destruct (decide (q = p)) as [->|Hq]; [done|by rewrite Hothers]).
Qed.

Lemma outcome_own d' fl fl' fi fi' de de' co co' ex :
  only_name → (n ∈ o_mine o' ∨ n ∈ o_retiring o' → good n) →
  own_good (mk_fates d sp wr fl fi de co ex) → own_good (mk_fates d' sp' wr fl' fi' de' co' ex).
Proof.
  intros Hn Hg [H1 H2]. split; [exact H1|]. fields. intros m q H.
  destruct (decide (q = p)) as [->|Hq]; [|rewrite Hothers in H by done; by eapply H2].
  destruct (decide (m = n)) as [->|Hne]; [by apply Hg|]. destruct (Hn m Hne) as [E1 E2]. rewrite E1, E2 in H. by eapply H2.
Qed.
End outcomes.

Lemma put_others p o (sp : Z → Spool) q : q ≠ p → sp_outcomes (put_outcomes p o sp q) = sp_outcomes (sp q).
Proof. intros Hq. by rewrite put_outcomes_ne. Qed.

Lemma lost_other p m d sp sp' wr fi fi' de de' d' fl fl' co co' ex q :
  (∀ q, q ≠ p → sp_outcomes (sp' q) = sp_outcomes (sp q)) →
  (m ∈ fi' ↔ m ∈ fi) → (m ∈ de' ↔ m ∈ de) → (q = p → m ∈ o_mine (sp_outcomes (sp' p)) ↔ m ∈ o_mine (sp_outcomes (sp p))) →
  m ∈ lost (mk_fates d' sp' wr fl' fi' de' co' ex) q ↔ m ∈ lost (mk_fates d sp wr fl fi de co ex) q.
Proof.
  intros Hq Hf Hd Hm. rewrite !elem_of_lost. fields. rewrite Hf, Hd.
  destruct (decide (q = p)) as [->|Hne]; [rewrite (Hm eq_refl)|rewrite Hq by done]; tauto.
Qed.

Lemma fates_finish p e d sp wr fl fi de co ex :
  wr !! e_name e = Some p → e_name e ∈ fl → fates_ok (mk_fates d sp wr fl fi de co ex) →
  fates_ok (mk_fates d (put_outcomes p (finish_mine (sp_outcomes (sp p)) e) sp) wr (fl ∖ {[e_name e]}) ({[e_name e]} ∪ fi) de co ex).
Proof.
  set (n := e_name e). intros Hw Hfl [Ho Hok Hct]. assert (good n) as Hg by (by eapply (proj1 Ho)).
  set (sp' := put_outcomes _ _ _).
  assert (∀ q, q ≠ p → sp_outcomes (sp' q) = sp_outcomes (sp q)) as Hq by (intros; by apply put_others).
  assert (sp_outcomes (sp' p) = finish_mine (sp_outcomes (sp p)) e) as Hp by apply put_outcomes_eq. clearbody sp'.
  assert (only_name p n sp sp') as Hon by (intros m Hm; rewrite Hp; simpl; fold n; set_solver).
  assert (own_good (mk_fates d sp' wr (fl ∖ {[n]}) ({[n]} ∪ fi) de co ex)) as Ho' by (by eapply outcome_own).
  split; [exact Ho'|eapply (focus _ _ n); [| |exact Hok]|].
  - intros m Hm Hne. eapply outcome_names; eauto; [done|set_solver..].
  - intros [H1 H2 H3 H4 H5 H6 H7 H8 H9]. fields. split; fields; auto.
    + intros q. destruct (decide (q = p)) as [->|Hne]; [by intros _; split; [|set_solver]|rewrite Hq by done].
      intros Hm. destruct (H1 q Hm). split; [done|set_solver].
    + set_solver.
    + intros q (_ & Hwq & Hm & Hd)%elem_of_lost. fields. destruct Hm. assert (q = p) as -> by congruence. rewrite Hp. simpl. set_solver.
    + intros q. destruct (decide (q = p)) as [->|Hne]; [rewrite Hp|rewrite Hq by done]; apply H9.
  - eapply counted_same; [exact Ho|exact Ho'| |exact Hct]. intros He. split_and!; [done| |].
    + intros q. fields. destruct (decide (q = p)) as [->|Hne]; [by rewrite Hp|by rewrite Hq].
    + intros m q Hm. destruct (decide (m = n)) as [->|Hne].
      * destruct (ok_flying _ _ (Hok n Hg) Hfl) as [_ Hnf]. rewrite !elem_of_lost. fields. split; [|set_solver].
        intros (_ & Hwq & Hm' & _). destruct Hm'. assert (q = p) as -> by congruence. rewrite Hp. simpl. set_solver.
      * apply (lost_other p); [done|set_solver|done|intros ->; apply Hon; done].
Qed.

Lemma fates_claim p n d sp wr fl fi de co ex :
  good n → fates_ok (mk_fates d sp wr fl fi de co ex) →
  fates_ok (mk_fates d (put_outcomes p (claim_retiring n (sp_outcomes (sp p))).1 sp) wr fl fi
    (only_if (claim_retiring n (sp_outcomes (sp p))).2 n ∪ de) co ex).
Proof.
  intros Hg [Ho Hok Hct]. pose proof (Hok n Hg) as [H1 H2 H3 H4 H5 H6 H7 H8 H9]. fields.
  assert (∃ de', only_if (claim_retiring n (sp_outcomes (sp p))).2 n ∪ de = de' ∧ (∀ m, m ∈ de' ↔ m ∈ de ∨ m = n ∧ n ∈ o_mine (sp_outcomes (sp p))))
    as (de' & -> & Hde).
  { eexists. split; [done|]. intros m. unfold claim_retiring, only_if. specialize (H9 p).
    destruct (decide (n ∈ o_mine (sp_outcomes (sp p)))); cbn [fst snd o_retiring]; case_bool_decide; set_solver. }
  set (sp' := put_outcomes _ _ _).
  assert (∀ q, q ≠ p → sp_outcomes (sp' q) = sp_outcomes (sp q)) as Hq by (intros; by apply put_others).
  assert (sp_outcomes (sp' p) = (claim_retiring n (sp_outcomes (sp p))).1) as Hp by apply put_outcomes_eq. clearbody sp'.
  assert (o_failed (sp_outcomes (sp' p)) = o_failed (sp_outcomes (sp p)) ∧ n ∉ o_mine (sp_outcomes (sp' p))
    ∧ (n ∈ o_retiring (sp_outcomes (sp' p)) → n ∈ de') ∧ only_name p n sp sp') as (Hfail & Hnm & Hret & Hon).
  { unfold only_name. rewrite Hp. unfold claim_retiring. specialize (H9 p).
    destruct (decide (n ∈ o_mine (sp_outcomes (sp p)))); cbn [fst o_failed o_mine o_retiring]; split_and!; set_solver. }
  assert (own_good (mk_fates d sp' wr fl fi de' co ex)) as Ho' by (by eapply outcome_own).
  split; [exact Ho'|eapply (focus _ _ n); [| |exact Hok]|].
  - intros m Hm Hne. eapply outcome_names; eauto; [done|]. rewrite Hde. set_solver.
  - intros _. split; fields; auto.
    + intros q. destruct (decide (q = p)) as [->|Hne]; [by intros ?%Hnm|rewrite Hq by done; apply H1].
    + intros [Hd|[_ Hd]]%Hde; [by apply H5|]. destruct (H1 p Hd) as [-> _]. eauto.
    + intros Hr. apply Hde. auto.
    + intros Hd He [Hf|[q Hm]].
      * apply Hde in Hd as [Hd|[_ Hd]]; [by apply H7; auto|]. destruct (H1 p Hd) as [_ ?]. by apply H2 in Hf as [_ ?].
      * destruct (decide (q = p)) as [->|Hne]; [done|]. rewrite Hq in Hm by done.
        apply Hde in Hd as [Hd|[_ Hd]]; [by apply H7; eauto|]. destruct (H1 p Hd) as [E _]. destruct (H1 q Hm) as [E' _]. congruence.
    + intros q (Hf & Hw & Hm & Hd)%elem_of_lost. fields. apply (H8 q), elem_of_lost. fields. split_and!; [done|done| |set_solver].
      destruct (decide (q = p)) as [->|Hne]; [set_solver|by rewrite Hq in Hm].
    + intros q. destruct (decide (q = p)) as [->|Hne]; [done|rewrite Hq by done]. intros ?%H9. apply Hde. auto.
  - eapply counted_same; [exact Ho|exact Ho'| |exact Hct]. intros He. split_and!; [done| |].
    + intros q. fields. destruct (decide (q = p)) as [->|Hne]; [done|by rewrite Hq].
    + intros m q Hm. destruct (decide (m = n)) as [->|Hne].
      * rewrite !elem_of_lost. fields. rewrite Hde. destruct (decide (q = p)) as [->|Hne]; [set_solver|]. rewrite Hq by done.
        split; [set_solver|]. intros (? & Hw & ? & ?). split_and!; [done..|]. intros [?|[_ Hx]]; [done|].
        destruct (H1 p Hx) as [E _]. congruence.
      * apply (lost_other p); [done|done|rewrite Hde; set_solver|intros ->; by apply Hon].
Qed.

Lemma fates_retired p (names : gset string) d sp wr fl fi de co ex :
  fates_ok (mk_fates d sp wr fl fi de co ex) →
  fates_ok (mk_fates d (put_outcomes p (mk_outcomes (o_mine (sp_outcomes (sp p))) (o_retiring (sp_outcomes (sp p)) ∖ names)
    (o_failed (sp_outcomes (sp p)))) sp) wr fl fi de co ex).
Proof.
  intros [Ho Hok Hct]. set (sp' := put_outcomes _ _ _).
  assert (∀ q, o_mine (sp_outcomes (sp' q)) = o_mine (sp_outcomes (sp q)) ∧ o_failed (sp_outcomes (sp' q)) = o_failed (sp_outcomes (sp q))
    ∧ o_retiring (sp_outcomes (sp' q)) ⊆ o_retiring (sp_outcomes (sp q))) as Hs.
  { intros q. destruct (decide (q = p)) as [->|Hne]; [subst sp'; rewrite put_outcomes_eq; simpl; set_solver|].
    subst sp'. by rewrite put_outcomes_ne. }
  clearbody sp'.
  assert (∀ m q, m ∈ lost (mk_fates d sp' wr fl fi de co ex) q ↔ m ∈ lost (mk_fates d sp wr fl fi de co ex) q) as Hl.
  { intros m q. rewrite !elem_of_lost. fields. by rewrite (proj1 (Hs q)). }
  split.
  - destruct Ho as [H1 H2]. split; [exact H1|]. fields. intros m q H. apply (H2 m q). destruct (Hs q) as (E & _ & Hr).
    rewrite <-E. set_solver.
  - intros n Hg. destruct (Hok n Hg) as [H1 H2 H3 H4 H5 H6 H7 H8 H9]. split; fields; auto.
    + intros q. rewrite (proj1 (Hs q)). apply H1.
    + intros Hd He Hk. apply H7; [done|done|]. destruct Hk as [?|[q Hq]]; [by left|right]. exists q. by rewrite <-(proj1 (Hs q)).
    + intros q Hq. apply (H8 q). by apply Hl.
    + intros q Hq. apply (H9 q). destruct (Hs q) as (_ & _ & Hr). set_solver.
  - intros He q. pose proof (Hct He q) as Hc. fields. rewrite (proj1 (proj2 (Hs q))), Hc. do 2 f_equal. apply set_eq. intros m. by rewrite Hl.
Qed.

(** A pending record leaves [mine]: counted as failed unless it was delivered. *)
Lemma fates_leave p n d d' sp sp' wr fl fi de co co' ex :
  good n → keeps_file d d' n →
  (∀ q, q ≠ p → sp_outcomes (sp' q) = sp_outcomes (sp q)) →
  n ∈ o_mine (sp_outcomes (sp p)) → n ∉ o_mine (sp_outcomes (sp' p)) →
  o_retiring (sp_outcomes (sp' p)) = o_retiring (sp_outcomes (sp p)) → only_name p n sp sp' →
  (ex = ∅ → o_failed (sp_outcomes (sp' p)) = o_failed (sp_outcomes (sp p)) + b2z (bool_decide (n ∉ de))) →
  (is_Some (d' !! n) → is_Some (d !! n)) → (is_Some (d' !! ack_of n) → is_Some (d !! ack_of n)) →
  n ∈ co' ∨ d' !! n = None → (∀ m, m ≠ n → (m ∈ co' ↔ m ∈ co)) →
  fates_ok (mk_fates d sp wr fl fi de co ex) → fates_ok (mk_fates d' sp' wr fl fi de co' ex).
Proof.
  intros Hg Hk Hq Hm Hnm Hret Hon Hfail Hdn Hda Hco Hcos [Ho Hok Hct]. pose proof (Hok n Hg) as [H1 H2 H3 H4 H5 H6 H7 H8 H9]. fields.
  destruct (H1 p Hm) as [Hw Hfin].
  assert (own_good (mk_fates d' sp' wr fl fi de co' ex)) as Ho' by (by eapply outcome_own).
  assert (∀ m, good m → m ≠ n → same_name (mk_fates d sp wr fl fi de co ex) (mk_fates d' sp' wr fl fi de co' ex) m) as Hsame.
  { intros m Hmg Hne. eapply outcome_names; eauto. }
  split; [exact Ho'|eapply (focus _ _ n); [exact Hsame| |exact Hok]|].
  - intros _. split; fields; auto.
    + intros q. destruct (decide (q = p)) as [->|Hne]; [done|rewrite Hq by done; apply H1].
    + intros Hd He [Hf|[q Hmq]]; [by apply H2 in Hf as [_ ?]|].
      destruct (decide (q = p)) as [->|Hne]; [done|]. rewrite Hq in Hmq by done. destruct (H1 q Hmq). congruence.
    + intros q _. destruct Hco as [?|Hx]; [by left|right]. rewrite Hx. by intros [? ?].
    + intros q. destruct (decide (q = p)) as [->|Hne]; [rewrite Hret|rewrite Hq by done]; apply H9.
  - assert (∀ q, n ∈ lost (mk_fates d' sp' wr fl fi de co' ex) q ↔ n ∉ de ∧ q = p) as Hl'.
    { intros q. rewrite elem_of_lost. fields. split; [intros (_ & E & _ & ?); split; [done|congruence]|by intros [? ->]]. }
    assert (∀ q, n ∉ lost (mk_fates d sp wr fl fi de co ex) q) as Hl.
    { intros q (_ & E & Hx & _)%elem_of_lost. fields. by assert (q = p) as -> by congruence. }
    destruct (decide (n ∈ de)) as [Hd|Hd].
    + eapply counted_same; [exact Ho|exact Ho'| |exact Hct]. intros He. cbn in He. split_and!; [done| |].
      * intros q. fields. destruct (decide (q = p)) as [->|Hne]; [|by rewrite Hq]. rewrite Hfail by done.
        rewrite bool_decide_false by (intros Hx; by apply Hx). cbn. lia.
      * intros m q Hmg. destruct (decide (m = n)) as [->|Hne]; [rewrite Hl'; split; [by intros [? _]|by intros ?%Hl]|by apply same_lost, Hsame].
    + eapply (counted_gain _ _ n p); [exact Ho|exact Ho'| |exact Hg|exact Hct]. intros He. cbn in He. split_and!; [done| |apply Hl|].
      * intros q. fields. destruct (decide (q = p)) as [->|Hne].
        -- rewrite Hfail, !bool_decide_true by done. done.
        -- rewrite Hq, bool_decide_false by done. cbn. lia.
      * intros m q Hmg. destruct (decide (m = n)) as [->|Hne]; [rewrite Hl'; split; [by intros [_ ->]; right|]|].
        -- intros [?%Hl|[_ ->]]; [done|]. done.
        -- rewrite (same_lost _ _ m q (Hsame m Hmg Hne)). naive_solver.
Qed.

(** Nothing is known anew. *)
Lemma fates_still d sp sp' wr fl fi de co co' ex :
  (∀ q, sp_outcomes (sp' q) = sp_outcomes (sp q)) → co ⊆ co' →
  fates_ok (mk_fates d sp wr fl fi de co ex) → fates_ok (mk_fates d sp' wr fl fi de co' ex).
Proof.
  intros Hs Hco [Ho Hok Hct].
  assert (∀ m q, m ∈ lost (mk_fates d sp' wr fl fi de co' ex) q ↔ m ∈ lost (mk_fates d sp wr fl fi de co ex) q) as Hl.
  { intros m q. rewrite !elem_of_lost. fields. by rewrite Hs. }
  split.
  - destruct Ho as [H1 H2]. split; [exact H1|]. fields. intros m q. rewrite Hs. apply H2.
  - intros n Hg. destruct (Hok n Hg) as [H1 H2 H3 H4 H5 H6 H7 H8 H9]. split; fields; auto.
    + intros q. rewrite Hs. apply H1.
    + intros Hd He Hk. apply H7; [done|done|]. destruct Hk as [?|[q Hq]]; [by left|right]. exists q. by rewrite <-Hs.
    + intros q Hq. apply Hl in Hq. destruct (H8 q Hq) as [?|?]; [left; set_solver|by right].
    + intros q. rewrite Hs. apply H9.
  - intros He q. pose proof (Hct He q) as Hc. fields. rewrite Hs, Hc. do 2 f_equal. apply set_eq. intros m. by rewrite Hl.
Qed.

Lemma fates_corrupt p n d sp wr fl fi de co ex :
  good n → is_Some (d !! n) → fates_ok (mk_fates d sp wr fl fi de co ex) →
  fates_ok (mk_fates d (put_outcomes p (claim_corrupt n (sp_outcomes (sp p))) sp) wr fl fi de ({[n]} ∪ co) ex).
Proof.
  intros Hg Hd Hok. destruct (decide (n ∈ o_mine (sp_outcomes (sp p)))) as [Hm|Hm].
  - apply (fates_leave p n d _ sp _ _ _ _ _ co); try done; try (rewrite put_outcomes_eq; unfold claim_corrupt; rewrite decide_True by done).
    + intros q Hne. by rewrite put_outcomes_ne.
    + simpl. set_solver.
    + done.
    + intros m Hne. rewrite put_outcomes_eq. unfold claim_corrupt. rewrite decide_True by done. simpl. set_solver.
    + intros ->. rewrite bool_decide_true; [done|]. intros Hde. destruct (fo_names _ Hok n Hg) as [_ _ _ _ _ _ H7 _ _].
      destruct (H7 Hde (not_elem_of_empty n)) as [Hx _]; [right; by exists p|by apply Hx].
    + left. set_solver.
    + set_solver.
  - eapply fates_still; [|apply union_subseteq_r|exact Hok]. intros q. destruct (decide (q = p)) as [->|Hne]; [|by rewrite put_outcomes_ne].
    rewrite put_outcomes_eq. unfold claim_corrupt. by rewrite decide_False.
Qed.

Lemma fates_settle p fails n d sp wr fl fi de co ex :
  n ∈ pending (sp p) → fates_ok (mk_fates d sp wr fl fi de co ex) →
  fates_ok (mk_fates (settle_one fails n d (sp p)).1.1 (<[p := (settle_one fails n d (sp p)).1.2]> sp) wr fl fi de co ex).
Proof.
  intros Hm Hok. unfold pending in Hm. assert (good n) as Hg by (apply (proj2 (fo_own _ Hok) n p); by left).
  unfold settle_one. case_bool_decide as Hd; cbn [fst snd].
  { eapply fates_still; [|done|exact Hok]. intros q. destruct (decide (q = p)) as [->|Hne]; [by rewrite fn_lookup_insert|by rewrite fn_lookup_insert_ne]. }
  destruct fails; cbn [fst snd].
  { eapply fates_still; [|done|exact Hok]. intros q. destruct (decide (q = p)) as [->|Hne]; [by rewrite fn_lookup_insert|by rewrite fn_lookup_insert_ne]. }
  destruct (unlink false (ack_of n) d) as [d' b] eqn:E. cbn [fst snd].
  rewrite decide_True by done. set (s' := set_outcomes _ _).
  assert (sp_outcomes s' = mk_outcomes (o_mine (sp_outcomes (sp p)) ∖ {[n]}) (o_retiring (sp_outcomes (sp p)))
    (o_failed (sp_outcomes (sp p)) + b2z (negb b))) as Hs by done. clearbody s'.
  assert (keeps_file d d' n ∧ (is_Some (d' !! n) → is_Some (d !! n)) ∧ d' !! ack_of n = None ∧ (b = true ↔ is_Some (d !! ack_of n))) as (Hk & Hdn & Hda & Hb).
  { pose proof (unlink_keeps false d (ack_of n) n (or_intror eq_refl)) as Hk. rewrite E in Hk. split; [exact Hk|].
    unfold unlink in E. destruct (d !! ack_of n) eqn:Ea; injection E as <- <-.
    - split_and!; [rewrite lookup_delete_ne by (by intros ?%eq_sym%good_ne_ack); done|apply lookup_delete_eq|by split; eauto].
    - split_and!; [done|done|by split; [|intros [? ?]]]. }
  destruct (fo_names _ Hok n Hg) as [_ _ _ _ _ H6 H7 _ _]. fields.
  apply (fates_leave p n d d' sp _ _ _ _ _ co); try done; rewrite ?fn_lookup_insert, ?Hs; try done.
  - intros q Hne. by rewrite fn_lookup_insert_ne.
  - simpl. set_solver.
  - intros m Hne. rewrite fn_lookup_insert, Hs. simpl. set_solver.
  - intros ->. simpl. f_equal. destruct b.
    + rewrite bool_decide_false; [done|]. intros Hx. apply Hx, H6. by apply Hb.
    + rewrite bool_decide_true; [done|]. intros Hx. destruct (H7 Hx (not_elem_of_empty n)) as [_ Hr]; [right; by exists p|]. by apply Hb in Hr.
  - rewrite Hda. by intros [? ?].
  - right. destruct (d' !! n) eqn:En; [destruct Hd; apply Hdn; eauto|done].
Qed.

Lemma fate_step_ok w w' : fate_step w w' → fates_ok w → fates_ok w'.
Proof.
  intros Hs Hok. destruct Hs.
  - by apply fates_publish.
  - by apply fates_finish.
  - by apply fates_abandon.
  - by apply fates_claim.
  - apply fates_unlink; [|done]. apply (proj2 (fo_own _ Hok) n p). by right.
  - by apply fates_retired.
  - by apply fates_receipt.
  - by apply (fates_fewer d); [intros m _ ?%truncate_dom|intros m; apply truncate_dom|].
  - by apply fates_corrupt.
  - by apply fates_quarantine.
  - by apply fates_settle.
  - by apply fates_expire.
  - apply (fates_fewer d); [|intros m|done].
    + intros m _ [f Hf]. apply lookup_delete_Some in Hf as [_ Hf]. eauto.
    + rewrite lookup_delete_ne; [done|]. intros ->. by rewrite is_ack_of in *.
Qed.

Lemma nothing_in (n : string) : n ∈ (∅ : gset string) → False.
Proof. apply not_elem_of_empty. Qed.

Lemma start_ok mx rc lb : fates_ok (start mx rc lb).
Proof.
  assert (∀ n p, is_mine (start mx rc lb) p n → False) as Hm by (intros n p; apply nothing_in).
  assert (∀ x, is_Some (ft_disk (start mx rc lb) !! x) → False) as Hd by (intros x [? H]; by rewrite empty_disk in H).
  assert (∀ p n, n ∈ lost (start mx rc lb) p → False) as Hl by (intros p n [Hf _]%elem_of_lost; by apply nothing_in in Hf).
  split.
  - split; [intros n p H; cbn in H; by rewrite lookup_empty in H|]. intros n p [?%Hm|H]; [done|by apply nothing_in in H].
  - intros n Hg. split; try (intros H; by apply nothing_in in H).
    + by intros p ?%Hm.
    + by intros ?%Hd.
    + by intros ?%Hd.
    + by intros p ?%Hl.
    + intros p H. by apply nothing_in in H.
  - intros _ p. cbn. replace (lost (start mx rc lb) p) with (∅ : gset string); [done|]. apply set_eq. intros n.
    split; [intros H; by apply nothing_in in H|by intros ?%Hl].
Qed.

Lemma fates_reach mx rc lb w : rtc fate_step (start mx rc lb) w → fates_ok w.
Proof.
  assert (∀ v, rtc fate_step v w → fates_ok v → fates_ok w) as H.
  { induction 1 as [|x y z Hs _ IH]; [done|]. intros Hok. by apply IH, (fate_step_ok x). }
  intros Hr. eapply H, start_ok. exact Hr.
Qed.

(** C31: What a writer counts as failed is what was not delivered: in every interleaving of
    writers, of the drainer's deliveries and quarantines, of settling writers and of files
    removed by hand, as long as no receipt is removed before its writer saw it, [failed] is
    exactly the number of a process's written records that are neither pending nor delivered;
    each of those was found corrupt or removed by others. A delivered record that its writer
    has not settled has its receipt, so settling never counts it as failed. *)
Theorem outcomes_exact mx rc lb w p :
  rtc fate_step (start mx rc lb) w → ft_expired w = ∅ →
  o_failed (outcomes_of w p) = Z.of_nat (size (lost w p))
  ∧ (∀ n, n ∈ lost w p → n ∈ ft_corrupt w ∨ ¬ on_disk w n)
  ∧ (∀ n, n ∈ pending (ft_spools w p) → n ∈ ft_delivered w → ¬ on_disk w n ∧ receipt w n).
Proof.
  intros Hr He. pose proof (fates_reach mx rc lb w Hr) as Hok. pose proof (fo_own _ Hok) as Ho. split_and!.
  - by apply (fo_counted _ Hok).
  - intros n Hn. apply (ok_lost _ _ (fo_names _ Hok n (lost_good _ _ _ Ho Hn)) p Hn).
  - intros n Hn Hd. assert (good n) as Hg by (apply (proj2 Ho n p); by left).
    apply (ok_kept _ _ (fo_names _ Hok n Hg)); [done|rewrite He; apply not_elem_of_empty|right; by exists p].
Qed.

(** *** An example *)

(** Process 7 wrote two records; process 9 delivered the one, the other was removed by hand,
    and process 7 settles both. *)
Definition first_name : string := record_name 7 7 0.
Definition second_name : string := record_name 7 7 1.
Definition whole : write_answer := mk_answer false false false false false.
Definition first_entry : Entry := mk_entry first_name 327 whole.
Definition second_entry : Entry := mk_entry second_name 328 whole.

Definition publish p n w :=
  mk_fates (<[n := mk_file 3 327 17]> (ft_disk w)) (ft_spools w) (<[n := p]> (ft_writer w)) ({[n]} ∪ ft_flying w)
    (ft_finished w) (ft_delivered w) (ft_corrupt w) (ft_expired w).
Definition ended p e w :=
  mk_fates (ft_disk w) (put_outcomes p (finish_mine (sp_outcomes (ft_spools w p)) e) (ft_spools w)) (ft_writer w)
    (ft_flying w ∖ {[e_name e]}) ({[e_name e]} ∪ ft_finished w) (ft_delivered w) (ft_corrupt w) (ft_expired w).
Definition deliver n w :=
  mk_fates (rename false n (ack_of n) (ft_disk w)).1 (ft_spools w) (ft_writer w) (ft_flying w) (ft_finished w)
    (only_if (bool_decide ((rename false n (ack_of n) (ft_disk w)).2 = Moved)) n ∪ ft_delivered w) (ft_corrupt w) (ft_expired w).
Definition remove x w :=
  mk_fates (delete x (ft_disk w)) (ft_spools w) (ft_writer w) (ft_flying w) (ft_finished w) (ft_delivered w) (ft_corrupt w)
    (ft_expired w).
Definition settled p n w :=
  mk_fates (settle_one false n (ft_disk w) (ft_spools w p)).1.1
    (<[p := (settle_one false n (ft_disk w) (ft_spools w p)).1.2]> (ft_spools w)) (ft_writer w) (ft_flying w) (ft_finished w)
    (ft_delivered w) (ft_corrupt w) (ft_expired w).

Definition written_fates : Fates :=
  ended 7 second_entry (publish 7 second_name (ended 7 first_entry (publish 7 first_name (start 4096 8 0)))).
Definition drained_fates : Fates := remove second_name (deliver first_name written_fates).
Definition settled_fates : Fates := settled 7 second_name (settled 7 first_name drained_fates).

Lemma settled_reach : rtc fate_step (start 4096 8 0) settled_fates.
Proof.
  assert (good first_name ∧ good second_name) as [H1 H2] by (split; by split; vm_compute).
  eapply rtc_l; [by apply (F_publish 7 first_name (mk_file 3 327 17))|].
  eapply rtc_l; [apply (F_finish 7 first_entry); [by vm_compute|by apply (bool_decide_unpack _); vm_compute]|].
  eapply rtc_l; [apply (F_publish 7 second_name (mk_file 3 327 17)); [done|by vm_compute]|].
  eapply rtc_l; [apply (F_finish 7 second_entry); [by vm_compute|by apply (bool_decide_unpack _); vm_compute]|].
  eapply rtc_l; [apply (F_receipt false first_name); [done|apply not_elem_of_empty]|].
  eapply rtc_l; [by apply (F_remove second_name)|].
  eapply rtc_l; [apply (F_settle 7 false first_name); by apply (bool_decide_unpack _); vm_compute|].
  apply rtc_once. apply (F_settle 7 false second_name). by apply (bool_decide_unpack _); vm_compute.
Qed.

Lemma outcomes_exact_witness :
  o_failed (outcomes_of settled_fates 7) = 1 ∧ size (lost settled_fates 7) = 1%nat.
Proof.
  assert (o_failed (outcomes_of settled_fates 7) = 1) as E by (vm_compute; reflexivity).
  destruct (outcomes_exact 4096 8 0 settled_fates 7 settled_reach eq_refl) as (H & _). rewrite E in H. split; [exact E|lia].
Defined.
