(* ===== verification/SenderPump.v ===== *)
(** * Spooling losses and markers

    The pump of the spool's sender ([fabric/wire/_sender.py]): the loss ranges and markers the
    emitter holds become spool records, 64 to a batch file and in queue order; what the spool
    cannot take is held in memory, within bounds, and written before anything newer. The lock of
    the pump, deadlines and the thread that calls it are not modelled; the export of the
    periodic heartbeats and what the system calls answer are arguments. *)

From stdpp Require Import gmap.
From S2P Require Import Prelude PyDict Hash Json Ids Markers MarkerForm LossTable SpoolHeader SpoolFrame SpoolEntries Spool SpoolNames SpoolCharges.

(** ** Writing documents in order *)

Definition BATCH : nat := 64.

(** What writing an entry draws and meets: its time, its nonce and the kernel's answers. *)
Definition Draw : Type := Doc → Z * string * write_answer.
Definition job (draw : Draw) (doc : Doc) : Job :=
  let '(at_, nonce, answer) := draw doc in mk_job doc [] at_ nonce answer.

(** A written file: its name and the entries it holds. *)
Definition Written : Type := list (string * list Doc).

Definition no_answer : batch_answer := mk_batch_answer AdmissionBusy true true.

Section write_docs.
Context (key : option (Cipher * string)) (draw again : Draw).

(** One file for each entry, until one is not written. *)
Fixpoint write_singles (chunk : list Doc) (answers : list batch_answer) (d : Disk) (s : Spool)
    : Disk * Spool * list batch_answer * list bool * Written :=
  match chunk with
  | [] => (d, s, answers, [], [])
  | doc :: chunk =>
      let '(d, s, res) := write_batch key true [job again doc] (default no_answer (head answers)) d s in
      match res with
      | Some [Wrote name] =>
          let '(d, s, answers, done, log) := write_singles chunk (tail answers) d s in
          (d, s, answers, true :: done, (name, [doc]) :: log)
      | _ => (d, s, tail answers, false :: ((λ _, false) <$> chunk), [])
      end
  end.

(** A chunk: one file for all, else, when it is merely over the bound, a file for each. *)
Definition write_chunk (chunk : list Doc) (answers : list batch_answer) (d : Disk) (s : Spool)
    : Disk * Spool * list batch_answer * list bool * Written :=
  if (1 <? length chunk)%nat then
    let '(d, s, res) := write_kept key true true (job draw <$> chunk) (default no_answer (head answers)) d s in
    match res with
    | Some [Wrote name] => (d, s, tail answers, (λ _, true) <$> chunk, [(name, chunk)])
    | Some [NoRoom] => write_singles chunk (tail answers) d s
    | _ => (d, s, tail answers, (λ _, false) <$> chunk, [])
    end
  else write_singles chunk answers d s.

(** Nothing after an unwritten entry is written. *)
Fixpoint write_chunks (chunks : list (list Doc)) (answers : list batch_answer) (d : Disk) (s : Spool)
    : Disk * Spool * list bool * Written :=
  match chunks with
  | [] => (d, s, [], [])
  | chunk :: chunks =>
      let '(d, s, answers, done, log) := write_chunk chunk answers d s in
      if forallb id done then
        let '(d, s, done', log') := write_chunks chunks answers d s in (d, s, done ++ done', log ++ log')
      else (d, s, done ++ ((λ _, false) <$> concat chunks), log)
  end.

(** [docs[start : start + _BATCH]] for each [start]; there are no more chunks than entries. *)
Fixpoint chunks_of (fuel : nat) (docs : list Doc) : list (list Doc) :=
  match fuel, docs with
  | S fuel, _ :: _ => firstn BATCH docs :: chunks_of fuel (skipn BATCH docs)
  | _, _ => []
  end.

(** [_write_docs]: for each entry whether it was spooled, and the files that were written. *)
Definition write_docs (docs : list Doc) (answers : list batch_answer) (d : Disk) (s : Spool)
    : Disk * Spool * list bool * Written :=
  write_chunks (chunks_of (length docs) docs) answers d s.
End write_docs.

(** ** The pump *)

(** What the sender keeps for its pump. *)
Record Pump := mk_pump {
  pm_held : list MarkerRecord;
  pm_held_bytes : Z;
  pm_finals : gset (string * Z);
  pm_orphans : list MarkerRecord;
  pm_ids : list (json * (Z * Z));
  pm_order : Z;
  pm_spooled : Z;
  pm_dropped : Z;
  pm_invalid : Z;
}.

Definition new_pump : Pump := mk_pump [] 0 ∅ [] [] 0 0 0 0.

Definition set_held (held : list MarkerRecord) (bytes : Z) (p : Pump) : Pump :=
  mk_pump held bytes (pm_finals p) (pm_orphans p) (pm_ids p) (pm_order p) (pm_spooled p) (pm_dropped p) (pm_invalid p).
Definition set_finals (finals : gset (string * Z)) (p : Pump) : Pump :=
  mk_pump (pm_held p) (pm_held_bytes p) finals (pm_orphans p) (pm_ids p) (pm_order p) (pm_spooled p) (pm_dropped p)
    (pm_invalid p).
Definition set_orphans (orphans : list MarkerRecord) (p : Pump) : Pump :=
  mk_pump (pm_held p) (pm_held_bytes p) (pm_finals p) orphans (pm_ids p) (pm_order p) (pm_spooled p) (pm_dropped p)
    (pm_invalid p).
Definition set_ids (ids : list (json * (Z * Z))) (order : Z) (p : Pump) : Pump :=
  mk_pump (pm_held p) (pm_held_bytes p) (pm_finals p) (pm_orphans p) ids order (pm_spooled p) (pm_dropped p)
    (pm_invalid p).
Definition count_pump (spooled dropped invalid : Z) (p : Pump) : Pump :=
  mk_pump (pm_held p) (pm_held_bytes p) (pm_finals p) (pm_orphans p) (pm_ids p) (pm_order p) (pm_spooled p + spooled)
    (pm_dropped p + dropped) (pm_invalid p + invalid).

(** [_MAX_HELD_MARKERS], [_MAX_HELD_MARKER_BYTES] *)
Definition MAX_HELD_MARKERS : Z := MAX_QUEUED_MARKERS.
Definition MAX_HELD_MARKER_BYTES : Z := MAX_QUEUED_MARKER_BYTES.

(** [_hold] *)
Definition hold (m : MarkerRecord) (p : Pump) : Pump :=
  let size := marker_bytes (mr_marker m) in
  if (Z.of_nat (length (pm_held p)) <? MAX_HELD_MARKERS) && (pm_held_bytes p + size <=? MAX_HELD_MARKER_BYTES)
  then set_held (pm_held p ++ [m]) (pm_held_bytes p + size) p
  else count_pump 0 1 0 p.

Section reading.
Context `{FloatInt}.

(** [_marker_doc] *)
Definition marker_entry (m : MarkerRecord) : option Doc :=
  let doc := marker_doc m in if checked doc 0 then Some doc else None.

(** The markers that can be written, each with its entry. *)
Definition offers (markers : list MarkerRecord) : list (MarkerRecord * Doc) :=
  omap (λ m, (λ doc, (m, doc)) <$> marker_entry m) markers.

(** The key [take] gave a range, as [loss_key] takes it. *)
Definition raw_key (k : LossKey) : RawKey := (lk_source k, lk_epoch k, lk_reason k, [lk_segment k]).
Definition raw (loss : LossKey * LossRange) : RawKey * LossRange := (raw_key loss.1, loss.2).

Definition is_periodic (m : MarkerRecord) : bool := bool_decide (m_kind (mr_marker m) = periodic).

(** What becomes of a marker that was offered. *)
Definition settle_marker (p : Pump) (r : MarkerRecord * bool) : Pump :=
  let '(m, spooled) := r in
  if spooled then
    if bool_decide (m_kind (mr_marker m) = final)
    then set_finals ({[(m_source_id (mr_marker m), m_epoch (mr_marker m))]} ∪ pm_finals p) p
    else p
  else hold m p.

(** [_mirror]: the records for the ledger, each with the order and the time it was first held. *)
Definition mirror_key_loss (loss : LossKey * LossRange) : json :=
  let k := loss.1 in
  JArr [JStr "loss"; JArr [JStr (lk_source k); JInt (lk_epoch k); JStr (reason_text (lk_reason k));
    match lk_segment k with Some s => JStr s | None => JNull end]; JInt (lr_first loss.2)].
Definition mirror_key_marker (m : MarkerRecord) : json := JArr [JStr "marker"; JStr (mr_event_id m)].

Definition mirror_step (now : json → Z) (old : list (json * (Z * Z))) (st : list (json * (Z * Z)) * Z * list Doc)
    (k : json * Doc) : list (json * (Z * Z)) * Z * list Doc :=
  let '(ids, order, records) := st in
  let '(fixed, order) := match dget k.1 old with Some f => (f, order) | None => ((order, now k.1), order + 1) end in
  (dset k.1 fixed ids, order, records ++ [stamp fixed.1 fixed.2 k.2]).

(** [ledger] is whether the spool has one. *)
Definition mirror (ledger : bool) (now : json → Z) (losses : list (LossKey * LossRange)) (p : Pump) : Pump * list Doc :=
  if negb ledger then (p, [])
  else
    let keyed := ((λ l, (mirror_key_loss l, loss_doc (raw l))) <$> losses)
                 ++ ((λ m, (mirror_key_marker m, marker_doc m)) <$> pm_held p) in
    let '(ids, order, records) := foldl (mirror_step now (pm_ids p)) ([], pm_order p, []) keyed in
    (set_ids ids order p, records).

(** [pump] on what [take] gave: the losses and the markers. Also the written files, the records
    mirrored to the ledger and what is returned. *)
Definition pump_taken (key : option (Cipher * string)) (draw again : Draw) (answers : list batch_answer) (ledger : bool)
    (now : json → Z) (export : list MarkerRecord → bool) (losses : list (LossKey * LossRange)) (beats : list MarkerRecord)
    (e : Emitter) (p : Pump) (d : Disk) (s : Spool) : Emitter * Pump * Disk * Spool * Written * list Doc * bool :=
  let fresh := filter (λ m, is_periodic m = false) beats in
  let markers := offers (pm_held p ++ fresh) in
  let refused := Z.of_nat (length (pm_held p ++ fresh)) - Z.of_nat (length markers) in
  let p := count_pump 0 refused refused (set_held [] 0 p) in
  let docs := ((λ l, loss_doc (raw l)) <$> losses) ++ markers.*2 in
  let '(d, s, done, log) := write_docs key draw again docs answers d s in
  let unspooled := (filter (λ r, r.2 = false) (zip losses (firstn (length losses) done))).*1 in
  let e := foldl (λ e l, (retain (raw l) e).1) e unspooled in
  let p := foldl settle_marker p (zip markers.*1 (skipn (length losses) done)) in
  let p := count_pump (Z.of_nat (length (filter (λ b, b = true) done))) 0 0 p in
  let '(p, records) := mirror ledger now unspooled p in
  let periodic := filter (λ m, is_periodic m = true) beats ++ pm_orphans p in
  let exported := bool_decide (periodic = []) || export periodic in
  let p := if exported then set_orphans [] p else p in
  (e, p, d, s, log, records, exported).

(** What the emitter's queue leaves out of a marker: its manifest and its event id. *)
Definition Extra : Type := option Z * option (list (string * string)) * string.
Definition dressed (markers : list Marker) (extras : list Extra) : list MarkerRecord :=
  zip_with (λ m x, mk_marker_record m x.1.1 x.1.2 x.2) markers extras.

Definition pump (key : option (Cipher * string)) (draw again : Draw) (answers : list batch_answer) (ledger : bool)
    (now : json → Z) (export : list MarkerRecord → bool) (due every_source : bool) (position : string → option (Z * Z))
    (others : list (option (list Marker))) (extras : list Extra)
    (e : Emitter) (p : Pump) (d : Disk) (s : Spool) : Emitter * Pump * Disk * Spool * Written * list Doc * bool :=
  let '(e, losses, beats) := LossTable.take (every_source || due) every_source position others e in
  pump_taken key draw again answers ledger now export losses (dressed beats extras) e p d s.
End reading.

(** [final_durable] *)
Definition final_durable (durable : bool) (source_id : string) (epoch : Z) (p : Pump) : bool :=
  bool_decide ((source_id, epoch) ∈ pm_finals p) && durable
  && negb (existsb (λ m, bool_decide (m_source_id (mr_marker m) = source_id) && bool_decide (m_epoch (mr_marker m) = epoch))
       (pm_held p)).

(** ** What is written *)

Lemma finish_mine_all live o : ∀ n, n ∈ o_mine (foldl finish_mine o live) ↔ n ∈ o_mine o ∨ ∃ e, e ∈ live ∧ n = e_name e.
Proof.
  revert o. induction live as [|e live IH]; intros o n; cbn [foldl].
  - split; [by left|]. intros [?|(e & He & _)]; [done|by apply elem_of_nil in He].
  - rewrite IH. unfold finish_mine at 1. cbn [o_mine]. rewrite elem_of_union, elem_of_singleton. split.
    + intros [[->|?]|(e' & ? & ->)]; [right; exists e; split; [by left|done]|by left|right; exists e'; split; [by right|done]].
    + intros [?|(e' & [->|?]%elem_of_cons & ->)]; [by left; right|by left; left|right; eauto].
Qed.

Definition no_wrote (res : Results) : Prop := ∀ n o, (n, o) ∈ res → o = WriteFailed.

Lemma no_wrote_app r r' : no_wrote r → no_wrote r' → no_wrote (r ++ r').
Proof. intros H H' n o [?|?]%elem_of_app; eauto. Qed.

Lemma after_reserve_no_wrote live got d c : no_wrote (after_reserve live got d c).2.
Proof.
  revert got d c. induction live as [|e live IH]; intros [|r got] d c; cbn [after_reserve]; try (by intros n o ?%elem_of_nil).
  destruct r; [specialize (IH got d c)| |unfold fail_write];
    match goal with |- context [after_reserve live got ?d1 ?c1] =>
      try specialize (IH got d1 c1); destruct (after_reserve live got d1 c1) as [[[? ?] ?] ?] end; cbn [snd] in *; [done|done|].
  intros n o [[= _ ->]|?]%elem_of_cons; [done|by eapply IH].
Qed.

Lemma keep_live_no_wrote ok d c : no_wrote (keep_live ok d c).2.
Proof.
  revert d c. induction ok as [|[e b] ok IH]; intros d c; cbn [keep_live]; [by intros n o ?%elem_of_nil|].
  destruct b; [specialize (IH d c); by destruct (keep_live ok d c) as [[[? ?] ?] ?]|]. unfold fail_write.
  match goal with |- context [keep_live ok ?d1 ?c1] => specialize (IH d1 c1); destruct (keep_live ok d1 c1) as [[[? ?] ?] ?] end.
  cbn [snd] in *. intros n o [[= _ ->]|?]%elem_of_cons; [done|by eapply IH].
Qed.

Lemma write_prepared_mine batch reserve answer d s :
  let '(_, s', res) := write_prepared batch reserve answer d s in
  (∀ n, Wrote n ∈ res → n ∈ pending s') ∧ pending s ⊆ pending s'.
Proof.
  unfold write_prepared, pending. destruct (admit_local _ _ _) as [c1 l1]. destruct (reserve_many _ _ _ _ _) as [[d2 a2] got].
  pose proof (after_reserve_no_wrote l1 got d2 c1) as H1. destruct (after_reserve _ _ _ _) as [[[d3 c3] l3] r3].
  pose proof (keep_live_no_wrote ((λ e, (e, negb (w_data_fails (e_answer e)))) <$> l3) d3 c3) as H2.
  destruct (keep_live _ _ _) as [[[d4 c4] l4] r4]. destruct (rename_many _ _ _) as [d5 moved].
  pose proof (keep_live_no_wrote (zip l4 moved) d5 c4) as H3. destruct (keep_live _ _ c4) as [[[d6 c6] l6] r6].
  pose proof (keep_live_no_wrote ((λ e, (e, negb (b_sync_fails answer))) <$> l6) d6 c6) as H4.
  destruct (keep_live _ _ c6) as [[[d7 c7] l7] r7]. cbn [snd] in *. cbn [sp_outcomes set_admission set_outcomes]. split.
  - intros n Hn. apply list_elem_of_fmap in Hn as (e & He & _). apply finish_mine_all. right.
    destruct (dget (e_name e) _) as [o|] eqn:E; [|done]. simpl in He. subst o. apply dget_Some_elem in E.
    repeat apply elem_of_app in E as [E|E]; try (by first [apply H1 in E|apply H2 in E|apply H3 in E|apply H4 in E]).
    apply list_elem_of_fmap in E as (e' & [= _ ->] & ?). eauto.
  - intros n Hn. apply finish_mine_all. by left.
Qed.

Lemma prepare_pending key group jobs s : sp_outcomes (prepare key group jobs s).1 = sp_outcomes s.
Proof. unfold prepare. by destruct (frame_all _ _ _). Qed.

Lemma write_kept_mine key reserve group jobs answer d s :
  let '(_, s', res) := write_kept key reserve group jobs answer d s in
  (∀ l n, res = Some l → Wrote n ∈ l → n ∈ pending s') ∧ pending s ⊆ pending s'.
Proof.
  unfold write_kept, pending. pose proof (prepare_pending key group jobs s) as Hc.
  destruct (prepare _ _ _ _) as [s1 [batch|]]; cbn [fst] in Hc; [|by rewrite Hc].
  pose proof (write_prepared_mine batch reserve answer d s1) as H.
  destruct (write_prepared _ _ _ _ _) as [[d2 s2] r2]. destruct H as [H1 H2]. unfold pending in *. rewrite Hc in H2.
  split; [|done]. intros l n [= <-]. apply H1.
Qed.

Lemma write_one_mine key reserve j answer d s :
  let '(_, s', res) := write_batch key reserve [j] answer d s in
  (∀ n, res = Some [Wrote n] → n ∈ pending s') ∧ pending s ⊆ pending s'.
Proof.
  unfold write_batch. rewrite filter_cons. destruct (decide _) as [Ho|Ho]; cbn [filter list_filter].
  - pose proof (write_kept_mine key reserve false [j] answer d s) as H.
    destruct (write_kept _ _ _ _ _ _ _) as [[d2 s2] r2]. destruct H as [H1 H2]. split; [|done].
    intros n. destruct r2 as [l|]; [|done]. cbn [fmap option_fmap merge_refused]. rewrite Ho. intros H.
    apply Some_inj in H. injection H as H. destruct l as [|o l]; [done|]. cbn in H. subst o. apply (H1 _ _ eq_refl). by left.
  - split; [|done]. intros n. cbn [merge_refused]. by destruct (over_bound (j_doc j)).
Qed.

(** ** The prefix *)

(** [prefix n k]: the first [k] of [n] were written. *)
Definition marks (n k : nat) : list bool := replicate k true ++ replicate (n - k) false.

Record wrote_prefix (docs : list Doc) (done : list bool) (log : Written) (k : nat) (s s' : Spool) : Prop := mk_wrote_prefix {
  wp_le : (k ≤ length docs)%nat;
  wp_done : done = marks (length docs) k;
  wp_docs : concat log.*2 = firstn k docs;
  wp_pending n : n ∈ log.*1 → n ∈ pending s';
  wp_kept : pending s ⊆ pending s';
}.

Lemma const_map {A B} (b : B) (l : list A) : (λ _, b) <$> l = replicate (length l) b.
Proof. induction l as [|a l IH]; [done|]. cbn. by f_equal. Qed.

Lemma none_written docs s s' : pending s ⊆ pending s' → wrote_prefix docs ((λ _, false) <$> docs) [] 0 s s'.
Proof.
  intros H. split; [lia| |done|by intros n ?%elem_of_nil|done]. unfold marks. rewrite Nat.sub_0_r. cbn [replicate app].
  by rewrite const_map.
Qed.

Lemma wrote_app docs docs' done done' log log' k s s1 s2 :
  wrote_prefix docs done log (length docs) s s1 → wrote_prefix docs' done' log' k s1 s2 →
  wrote_prefix (docs ++ docs') (done ++ done') (log ++ log') (length docs + k) s s2.
Proof.
  intros [_ H2 H3 H4 H5] [G1 G2 G3 G4 G5]. split.
  - rewrite length_app. lia.
  - rewrite H2, G2, length_app. unfold marks. rewrite Nat.sub_diag, app_nil_r, app_assoc, <-replicate_add. do 2 f_equal. lia.
  - rewrite fmap_app, List.concat_app, H3, G3, List.firstn_all, List.firstn_app_2. done.
  - intros n. rewrite fmap_app, elem_of_app. intros [?|?]; [by apply G5, H4|by apply G4].
  - by etrans.
Qed.

Lemma wrote_stop docs docs' done log k s s' :
  wrote_prefix docs done log k s s' → (k < length docs)%nat →
  wrote_prefix (docs ++ docs') (done ++ ((λ _, false) <$> docs')) log k s s'.
Proof.
  intros [H1 H2 H3 H4 H5] Hk. split; [rewrite length_app; lia| | |done|done].
  - rewrite H2, const_map, length_app. unfold marks. rewrite <-app_assoc, <-replicate_add. do 2 f_equal. lia.
  - rewrite H3, List.firstn_app. replace (k - length docs)%nat with 0%nat by lia. by rewrite List.firstn_O, app_nil_r.
Qed.

Lemma marks_all n k : (k ≤ n)%nat → forallb id (marks n k) = bool_decide (k = n).
Proof.
  intros H. unfold marks. rewrite forallb_app. assert (∀ i, forallb id (replicate i true) = true) as -> by (intros i; by induction i).
  destruct (decide (k = n)) as [->|Hne]; [by rewrite Nat.sub_diag, bool_decide_true|].
  rewrite bool_decide_false by done. destruct (n - k)%nat eqn:E; [lia|done].
Qed.

Section prefix.
Context (key : option (Cipher * string)) (draw again : Draw).

Lemma write_singles_prefix chunk answers d s :
  let '(_, s', _, done, log) := write_singles key again chunk answers d s in ∃ k, wrote_prefix chunk done log k s s'.
Proof.
  revert answers d s. induction chunk as [|doc chunk IH]; intros answers d s; cbn [write_singles].
  { exists 0%nat. by apply (none_written []). }
  pose proof (write_one_mine key true (job again doc) (default no_answer (head answers)) d s) as H.
  destruct (write_batch _ _ _ _ _ _) as [[d1 s1] res]. destruct H as [H1 H2].
  assert (∃ k, wrote_prefix (doc :: chunk) (false :: ((λ _, false) <$> chunk)) [] k s s1) as Hstop.
  { exists 0%nat. by apply (none_written (doc :: chunk)). }
  destruct res as [[|[name| | |] [|? ?]]|]; try exact Hstop.
  specialize (IH (tail answers) d1 s1). destruct (write_singles _ _ _ _ _ _) as [[[[d2 s2] a2] done] log].
  destruct IH as [k Hk]. exists (S k). apply (wrote_app [doc] chunk [true] done [(name, [doc])] log k s s1 s2); [|done].
  split; [done|done|done|intros n ->%list_elem_of_singleton; by apply H1|done].
Qed.

Lemma write_chunk_prefix chunk answers d s :
  let '(_, s', _, done, log) := write_chunk key draw again chunk answers d s in ∃ k, wrote_prefix chunk done log k s s'.
Proof.
  unfold write_chunk. destruct (1 <? length chunk)%nat eqn:El; [|apply write_singles_prefix].
  pose proof (write_kept_mine key true true (job draw <$> chunk) (default no_answer (head answers)) d s) as H.
  destruct (write_kept _ _ _ _ _ _ _) as [[d1 s1] res]. destruct H as [H1 H2].
  assert (∃ k, wrote_prefix chunk ((λ _, false) <$> chunk) [] k s s1) as Hstop by (exists 0%nat; by apply none_written).
  destruct res as [[|[name| | |] [|? ?]]|]; try exact Hstop.
  - exists (length chunk). split; [done| | |intros n ->%list_elem_of_singleton; eapply H1; [done|by left]|done].
    + unfold marks. by rewrite const_map, Nat.sub_diag, app_nil_r.
    + cbn. by rewrite app_nil_r, List.firstn_all.
  - pose proof (write_singles_prefix chunk (tail answers) d1 s1) as Hs.
    destruct (write_singles _ _ _ _ _ _) as [[[[d2 s2] a2] done] log]. destruct Hs as [k [G1 G2 G3 G4 G5]].
    exists k. split; [done..|by etrans].
Qed.

Lemma write_chunks_prefix chunks answers d s :
  let '(_, s', done, log) := write_chunks key draw again chunks answers d s in ∃ k, wrote_prefix (concat chunks) done log k s s'.
Proof.
  revert answers d s. induction chunks as [|chunk chunks IH]; intros answers d s; cbn [write_chunks].
  { exists 0%nat. by apply (none_written []). }
  pose proof (write_chunk_prefix chunk answers d s) as H.
  destruct (write_chunk _ _ _ _ _ _ _) as [[[[d1 s1] a1] done] log]. destruct H as [k Hk].
  pose proof Hk as [G1 G2 _ _ _]. rewrite G2, marks_all, <-G2 by done. cbn [concat].
  destruct (decide (k = length chunk)) as [->|Hne]; [rewrite bool_decide_true by done|rewrite bool_decide_false by done].
  - specialize (IH a1 d1 s1). destruct (write_chunks _ _ _ _ _ _ _) as [[[d2 s2] done'] log']. destruct IH as [k' Hk'].
    exists (length chunk + k')%nat. by eapply wrote_app.
  - exists k. apply wrote_stop; [done|lia].
Qed.

Lemma chunks_concat fuel docs : (length docs ≤ fuel)%nat → concat (chunks_of fuel docs) = docs.
Proof.
  revert docs. induction fuel as [|fuel IH]; intros docs Hl; [destruct docs; [done|simpl in Hl; lia]|].
  destruct docs as [|doc docs]; [done|]. cbn [chunks_of concat]. rewrite IH; [by rewrite List.firstn_skipn|].
  rewrite List.length_skipn. unfold BATCH. simpl in *. lia.
Qed.

Lemma write_docs_prefix docs answers d s :
  let '(_, s', done, log) := write_docs key draw again docs answers d s in ∃ k, wrote_prefix docs done log k s s'.
Proof.
  unfold write_docs. pose proof (write_chunks_prefix (chunks_of (length docs) docs) answers d s) as H.
  by rewrite chunks_concat in H.
Qed.
End prefix.

(** ** Markers leave in the order they arrived *)

Section order.
Context `{FloatInt}.

Definition final_key (m : MarkerRecord) : string * Z := (m_source_id (mr_marker m), m_epoch (mr_marker m)).
Definition is_final (m : MarkerRecord) : Prop := m_kind (mr_marker m) = final.
Definition held_bytes (l : list MarkerRecord) : Z := foldr (λ m n, marker_bytes (mr_marker m) + n) 0 l.

(** What is held is within its bounds. *)
Definition held_ok (p : Pump) : Prop :=
  pm_held_bytes p = held_bytes (pm_held p) ∧ Z.of_nat (length (pm_held p)) ≤ MAX_HELD_MARKERS
  ∧ pm_held_bytes p ≤ MAX_HELD_MARKER_BYTES.

Lemma held_bytes_app l k : held_bytes (l ++ k) = held_bytes l + held_bytes k.
Proof. induction l as [|m l IH]; simpl; lia. Qed.

(** What offering markers does: the first [j] are spooled, the rest is held as far as it fits. *)
Lemma settle_markers p ms j :
  (j ≤ length ms)%nat → held_ok p →
  let p' := foldl settle_marker p (zip ms (marks (length ms) j)) in
  ∃ h, pm_held p' = pm_held p ++ h ∧ h `sublist_of` skipn j ms ∧ held_ok p'
    ∧ pm_dropped p' = pm_dropped p + Z.of_nat (length (skipn j ms)) - Z.of_nat (length h)
    ∧ (∀ k, k ∈ pm_finals p' ↔ k ∈ pm_finals p ∨ ∃ m, m ∈ firstn j ms ∧ is_final m ∧ k = final_key m).
Proof.
  revert p j. induction ms as [|m ms IH]; intros p j Hj Hok; cbn zeta.
  { exists []. replace j with 0%nat by (simpl in Hj; lia). cbn. rewrite app_nil_r. split_and!; [done|constructor|done|lia|].
    intros k. split; [by left|]. intros [?|(m & Hm & _)]; [done|by apply elem_of_nil in Hm]. }
  destruct j as [|j]; unfold marks; cbn [length replicate Nat.sub app zip zip_with foldl settle_marker firstn skipn].
  - specialize (IH (hold m p) 0%nat). unfold marks in IH. rewrite Nat.sub_0_r in IH. cbn [replicate app firstn skipn] in IH.
    assert (held_ok (hold m p) ∧ ((pm_held (hold m p) = pm_held p ++ [m] ∧ pm_dropped (hold m p) = pm_dropped p)
      ∨ (pm_held (hold m p) = pm_held p ∧ pm_dropped (hold m p) = pm_dropped p + 1)) ∧ pm_finals (hold m p) = pm_finals p)
      as (Hok' & Hh & Hf).
    { unfold hold. destruct Hok as (H1 & H2 & H3). destruct (_ && _) eqn:E; split_and!; try done.
      - apply andb_true_iff in E as [E1%Z.ltb_lt E2%Z.leb_le]. unfold held_ok. cbn.
        rewrite held_bytes_app, length_app. cbn. split_and!; [lia|lia|done].
      - by left.
      - by right. }
    destruct (IH ltac:(lia) Hok') as (h & E1 & E2 & E3 & E4 & E5). rewrite drop_0 in E2, E4.
    destruct Hh as [[Hh Hd]|[Hh Hd]].
    + exists (m :: h). rewrite E1, Hh, <-app_assoc. split_and!; [done|by constructor|done| |].
      * rewrite E4, Hd. simpl. lia.
      * intros k. by rewrite E5, Hf.
    + exists h. rewrite E1, Hh. split_and!; [done|by constructor|done| |].
      * rewrite E4, Hd. simpl. lia.
      * intros k. by rewrite E5, Hf.
  - set (p1 := if bool_decide _ then _ else p).
    assert (held_ok p1 ∧ pm_held p1 = pm_held p ∧ pm_dropped p1 = pm_dropped p
      ∧ ∀ k, k ∈ pm_finals p1 ↔ k ∈ pm_finals p ∨ is_final m ∧ k = final_key m) as (Hok' & Hh & Hd & Hf).
    { unfold p1, is_final, final_key. case_bool_decide; split_and!; try done; intros k; cbn; set_solver. }
    clearbody p1. destruct (IH p1 j ltac:(simpl in Hj; lia) Hok') as (h & E1 & E2 & E3 & E4 & E5).
    exists h. unfold marks in *. rewrite E1, Hh. split_and!; [done|done|done|by rewrite E4, Hd|].
    intros k. rewrite E5, Hf. split.
    + intros [[?|[? ->]]|(m' & ? & ? & ->)]; [by left|right; exists m; split; [by left|done]|right; exists m'; split; [by right|done]].
    + intros [?|(m' & [->|?]%elem_of_cons & ? & ->)]; [by left; left|by left; right|right; eauto].
Qed.

Lemma offers_sublist l : (offers l).*1 `sublist_of` l.
Proof.
  unfold offers. induction l as [|m l IH]; [constructor|]. cbn [omap list_omap]. destruct (marker_entry m); cbn; by constructor.
Qed.

Lemma offers_docs l : (offers l).*2 = marker_doc <$> (offers l).*1.
Proof.
  unfold offers. induction l as [|m l IH]; [done|]. cbn [omap list_omap]. destruct (marker_entry m) as [doc|] eqn:E; cbn; [|done].
  assert (doc = marker_doc m) as -> by (unfold marker_entry in E; destruct (checked _ _); by simplify_eq). by f_equal.
Qed.

(** *** The pump of a process *)

(** A process and what happened: the markers that arrived at the sender, those it spooled, and
    the files it wrote. *)
Record Line := mk_line {
  ln_emitter : Emitter;
  ln_pump : Pump;
  ln_disk : Disk;
  ln_spool : Spool;
  ln_arrived : list MarkerRecord;
  ln_spooled : list MarkerRecord;
  ln_written : Written;
}.

(** The markers a pump spooled: their entries follow those of the losses in what it wrote. *)
Definition spooled_now (losses : nat) (log : Written) (offered : list MarkerRecord) : list MarkerRecord :=
  firstn (length (concat log.*2) - losses) (offers offered).*1.

Inductive line_step : Line → Line → Prop :=
  | L_pump key draw again answers ledger now export losses beats e p d s ar sp wr e' p' d' s' log records exported :
      pump_taken key draw again answers ledger now export losses beats e p d s = (e', p', d', s', log, records, exported) →
      line_step (mk_line e p d s ar sp wr)
        (mk_line e' p' d' s' (ar ++ filter (λ m, is_periodic m = false) beats)
           (sp ++ spooled_now (length losses) log (pm_held p ++ filter (λ m, is_periodic m = false) beats)) (wr ++ log))
  (** other threads and processes; [scan_epochs] *)
  | L_other e d s orphans e' p d' s' ar sp wr :
      line_step (mk_line e p d s ar sp wr) (mk_line e' (set_orphans orphans p) d' s' ar sp wr).

Record line_ok (l : Line) : Prop := mk_line_ok {
  lo_order : ln_spooled l ++ pm_held (ln_pump l) `sublist_of` ln_arrived l;
  lo_count : Z.of_nat (length (ln_arrived l)) =
    Z.of_nat (length (ln_spooled l)) + Z.of_nat (length (pm_held (ln_pump l))) + pm_dropped (ln_pump l);
  lo_finals k : k ∈ pm_finals (ln_pump l) ↔ ∃ m, m ∈ ln_spooled l ∧ is_final m ∧ k = final_key m;
  lo_held : held_ok (ln_pump l);
  lo_written : marker_doc <$> ln_spooled l `sublist_of` concat (ln_written l).*2;
}.

Lemma skipn_marks (a b k : nat) : skipn a (marks (a + b) k) = marks b (k - a).
Proof.
  unfold marks. destruct (decide (k ≤ a)%nat) as [Hk|Hk].
  - rewrite drop_app_ge by (rewrite length_replicate; lia). rewrite length_replicate, drop_replicate.
    replace (k - a)%nat with 0%nat by lia. cbn [replicate app]. f_equal. lia.
  - rewrite drop_app_le by (rewrite length_replicate; lia). rewrite drop_replicate. do 2 f_equal. lia.
Qed.

Lemma mirror_pump ledger now losses p :
  pm_held (mirror ledger now losses p).1 = pm_held p ∧ pm_held_bytes (mirror ledger now losses p).1 = pm_held_bytes p
  ∧ pm_dropped (mirror ledger now losses p).1 = pm_dropped p ∧ pm_finals (mirror ledger now losses p).1 = pm_finals p.
Proof. unfold mirror. destruct ledger; [|done]. simpl. by destruct (foldl _ _ _) as [[? ?] ?]. Qed.

(** One pump: of what was held and what came, in order, some first markers are spooled, of the
    rest some are held, and all others are counted. *)
Lemma pump_spec key draw again answers ledger now export losses beats e p d s :
  held_ok p →
  let offered := pm_held p ++ filter (λ m, is_periodic m = false) beats in
  let '(_, p', _, _, log, _, _) := pump_taken key draw again answers ledger now export losses beats e p d s in
  let sp := spooled_now (length losses) log offered in
  held_ok p' ∧ sp ++ pm_held p' `sublist_of` offered
  ∧ pm_dropped p' = pm_dropped p + Z.of_nat (length offered) - Z.of_nat (length sp) - Z.of_nat (length (pm_held p'))
  ∧ (∀ k, k ∈ pm_finals p' ↔ k ∈ pm_finals p ∨ ∃ m, m ∈ sp ∧ is_final m ∧ k = final_key m)
  ∧ marker_doc <$> sp `sublist_of` concat log.*2.
Proof.
  intros Hok offered. unfold pump_taken. fold offered.
  set (docs := ((λ l, loss_doc (raw l)) <$> losses) ++ (offers offered).*2).
  pose proof (write_docs_prefix key draw again docs answers d s) as Hw.
  destruct (write_docs _ _ _ _ _ _ _) as [[[d1 s1] done] log]. destruct Hw as [k [Hk Hdone Hdocs _ _]].
  set (ms := (offers offered).*1). assert (length docs = (length losses + length ms)%nat) as Hl.
  { unfold docs, ms. by rewrite length_app, !length_fmap. }
  assert (skipn (length losses) done = marks (length ms) (k - length losses)) as Hskip.
  { rewrite Hdone, Hl. apply skipn_marks. }
  rewrite Hskip. set (p0 := count_pump 0 _ _ _).
  destruct (settle_markers p0 ms (k - length losses)) as (h & E1 & E2 & E3 & E4 & E5); [lia|by split_and!|].
  set (p1 := foldl settle_marker p0 _) in *. cbn zeta in E1, E3, E4, E5.
  set (p2 := count_pump _ 0 0 p1).
  set (unsp := (filter _ (zip losses _)).*1). pose proof (mirror_pump ledger now unsp p2) as (M1 & M2 & M3 & M4).
  destruct (mirror ledger now unsp p2) as [p3 records]. cbn [fst] in M1, M2, M3, M4.
  assert (length (concat log.*2) = k) as Hlen by (rewrite Hdocs, length_firstn; lia).
  unfold spooled_now. rewrite Hlen. fold ms.
  set (p4 := if bool_decide _ || _ then _ else _).
  assert (pm_held p4 = pm_held p3 ∧ pm_held_bytes p4 = pm_held_bytes p3 ∧ pm_dropped p4 = pm_dropped p3 ∧ pm_finals p4 = pm_finals p3)
    as (N1 & N2 & N3 & N4) by (unfold p4; by destruct (bool_decide _ || _)). clearbody p4.
  unfold held_ok. rewrite N1, N2, N3, N4, M1, M2, M3, M4. cbn [pm_held pm_held_bytes pm_dropped pm_finals count_pump p2].
  assert (pm_held p1 = h) as Eh by (rewrite E1; done). unfold held_ok in E3. rewrite Eh in *. destruct E3 as (F1 & F2 & F3). split_and!; [exact F1|exact F2|exact F3|..].
  - etrans; [|apply (offers_sublist offered)]. fold ms. rewrite <-(firstn_skipn (k - length losses) ms) at 2.
    by apply sublist_app.
  - rewrite E4. unfold p0. cbn [pm_dropped count_pump set_held]. rewrite length_firstn, length_skipn.
    assert (length (offers offered) = length ms) as -> by (unfold ms; by rewrite length_fmap). lia.
  - intros key'. rewrite E5. unfold p0. done.
  - rewrite Hdocs. unfold docs. rewrite offers_docs. fold ms.
    rewrite firstn_app, length_fmap, <-fmap_take. apply sublist_inserts_l. by rewrite <-fmap_take.
Qed.

Lemma line_step_ok l l' : line_step l l' → line_ok l → line_ok l'.
Proof.
  intros Hs [H1 H2 H3 H4 H5]. destruct Hs as [key draw again answers ledger now export losses beats e p d s ar sp wr e' p' d' s' log records exported E|
    e d s orphans e' p d' s' ar sp wr]; cbn [ln_arrived ln_spooled ln_pump ln_written] in *; [|by split].
  pose proof (pump_spec key draw again answers ledger now export losses beats e p d s H4) as Hp. rewrite E in Hp. cbn zeta in Hp.
  set (fresh := filter _ beats) in *. destruct Hp as (G1 & G2 & G3 & G4 & G5). set (now_sp := spooled_now _ _ _) in *.
  split; cbn [ln_arrived ln_spooled ln_pump ln_written].
  - rewrite <-app_assoc. etrans; [by apply sublist_app; [|exact G2]|]. rewrite app_assoc. by apply sublist_app.
  - rewrite G3, !length_app. lia.
  - intros k. rewrite G4, H3. split.
    + intros [(m & ? & ?)|(m & ? & ?)]; exists m; rewrite elem_of_app; auto.
    + intros (m & Hm & ?). apply elem_of_app in Hm as [?|?]; eauto.
  - exact G1.
  - rewrite !fmap_app, List.concat_app. by apply sublist_app.
Qed.

(** C38: The sender spools markers in the order they arrived. However full the spool is and
    whatever fails, in every sequence of pumps: what was spooled, followed by what is held, is
    a subsequence of what arrived - so no marker, a [final] above all, is spooled while an
    earlier one of them waits -; every other marker is counted as dropped; a final is noted as
    durable only once it was spooled; the held markers keep their bounds; and the entries of
    the spooled markers stand in the written files, in that order. *)
Theorem markers_in_order (e : Emitter) (d : Disk) (s : Spool) (l : Line) :
  rtc line_step (mk_line e new_pump d s [] [] []) l →
  ln_spooled l ++ pm_held (ln_pump l) `sublist_of` ln_arrived l
  ∧ Z.of_nat (length (ln_arrived l)) =
      Z.of_nat (length (ln_spooled l)) + Z.of_nat (length (pm_held (ln_pump l))) + pm_dropped (ln_pump l)
  ∧ (∀ durable source epoch, final_durable durable source epoch (ln_pump l) = true →
       durable = true ∧ (∃ m, m ∈ ln_spooled l ∧ is_final m ∧ final_key m = (source, epoch))
       ∧ ∀ m, m ∈ pm_held (ln_pump l) → final_key m ≠ (source, epoch))
  ∧ Z.of_nat (length (pm_held (ln_pump l))) ≤ MAX_HELD_MARKERS ∧ held_bytes (pm_held (ln_pump l)) ≤ MAX_HELD_MARKER_BYTES
  ∧ marker_doc <$> ln_spooled l `sublist_of` concat (ln_written l).*2.
Proof.
  intros Hr. assert (line_ok l) as [H1 H2 H3 (H4 & H5 & H6) H7].
  { assert (∀ x, rtc line_step x l → line_ok x → line_ok l) as Hall.
    { induction 1 as [|x y z Hs _ IH]; [done|]. intros Hok. by apply IH, (line_step_ok x). }
    eapply Hall; [exact Hr|]. split; [constructor|done| |by split_and!|constructor].
    intros k. split; [intros Hk; by apply not_elem_of_empty in Hk|]. intros (m & Hm & _). by apply elem_of_nil in Hm. }
  rewrite H4 in H6. split_and!; [done|done| |done|done|done].
  intros durable source epoch Hf. unfold final_durable in Hf.
  apply andb_true_iff in Hf as [Hf Hheld]. apply andb_true_iff in Hf as [Hin%bool_decide_eq_true ->].
  apply H3 in Hin as (m & ? & ? & ?). split_and!; [done|by exists m|]. intros m' Hm' E. apply negb_true_iff in Hheld.
  assert (existsb (λ m, bool_decide (m_source_id (mr_marker m) = source) && bool_decide (m_epoch (mr_marker m) = epoch))
    (pm_held (ln_pump l)) = true); [|congruence].
  apply existsb_exists. exists m'. split; [by apply list_elem_of_In|]. unfold final_key in E. injection E as <- <-.
  by rewrite !bool_decide_true.
Qed.
End order.

(** ** Examples *)

Definition demo_beat (kind : MarkerKind) (source : string) (epoch : Z) (scope : option (option string * option string)) (n : string)
    : MarkerRecord :=
  mk_marker_record (beat_marker kind source (epoch, 4) scope) None None ("0a1b2c3d-0000-4000-8000-00000000000" +:+ n).

Definition demo_scope : option (option string * option string) :=
  Some (Some "0000000000000000000000000000000a", Some "0000000000000000000000000000000b").
Definition start_b : MarkerRecord := demo_beat run_start "src-b" 9 demo_scope "1".
Definition start_a : MarkerRecord := demo_beat run_start "src-a" 5 demo_scope "2".
Definition final_a : MarkerRecord := demo_beat final "src-a" 5 None "3".

Definition demo_draw : Draw := λ _, (17, "", mk_answer false false false false false).
Definition room (i j : Z) : batch_answer := mk_batch_answer (Granted (λ _, false) [Opened i 17; Opened j 17]) false false.

(** Two pumps of one process with two sources: a full spool refuses the second. *)
Definition demo_pump (answers : list batch_answer) (beats : list MarkerRecord) (l : Line) :=
  @pump_taken no_float_ints None demo_draw demo_draw answers true (λ _, 17) (λ _, true) [] beats
    (ln_emitter l) (ln_pump l) (ln_disk l) (ln_spool l).
Definition next_line (answers : list batch_answer) (beats : list MarkerRecord) (l : Line) : Line :=
  let '(e, p, d, s, log, _, _) := demo_pump answers beats l in
  mk_line e p d s (ln_arrived l ++ filter (λ m, is_periodic m = false) beats)
    (ln_spooled l ++ @spooled_now no_float_ints 0 log (pm_held (ln_pump l) ++ filter (λ m, is_periodic m = false) beats))
    (ln_written l ++ log).

Definition first_line : Line := mk_line new_emitter new_pump ∅ (init_spool 7 8192 8 0) [] [] [].
Definition line_one : Line := next_line [room 3 4] [start_b; start_a] first_line.
Definition line_two : Line := next_line [] [final_a] line_one.
Definition line_three : Line := next_line [room 5 6] [] line_two.

Lemma next_line_step answers beats l : @line_step no_float_ints l (next_line answers beats l).
Proof.
  destruct l as [e p d s ar sp wr]. unfold next_line.
  destruct (demo_pump _ _ _) as [[[[[[e' p'] d'] s'] log] records] exported] eqn:E. cbn [ln_arrived ln_spooled ln_pump ln_written].
  exact (@L_pump no_float_ints None demo_draw demo_draw answers true (λ _, 17) (λ _, true) [] beats e p d s ar sp wr _ _ _ _ _ _ _ E).
Qed.

Lemma lines_reach : rtc (@line_step no_float_ints) first_line line_three.
Proof. do 2 (eapply rtc_l; [apply next_line_step|]). apply rtc_once, next_line_step. Qed.

Lemma markers_in_order_witness :
  ln_spooled line_three = [start_b; start_a; final_a] ∧ pm_held (ln_pump line_two) = [final_a]
  ∧ length (ln_arrived line_three) = 3%nat.
Proof.
  assert (ln_spooled line_three = [start_b; start_a; final_a]) as E1 by (vm_compute; reflexivity).
  assert (pm_held (ln_pump line_two) = [final_a]) as E2 by (vm_compute; reflexivity).
  destruct (@markers_in_order no_float_ints _ _ _ _ lines_reach) as (_ & Hc & _).
  assert (pm_held (ln_pump line_three) = []) as E3 by (vm_compute; reflexivity).
  assert (pm_dropped (ln_pump line_three) = 0) as E4 by (vm_compute; reflexivity).
  rewrite E1, E3, E4 in Hc. split_and!; [exact E1|exact E2|]. apply Nat2Z.inj. rewrite Hc. reflexivity.
Defined.

(** The order of the file names is not the order of writing: a batch file is named after its
    first entry's epoch, so the [final] of source [src-a] is written after the file that holds
    the [run_start] of the same epoch and sorts before it. *)
Lemma final_sorts_first :
  ∃ first second, ln_written line_three = [(first, marker_doc <$> [start_b; start_a]); (second, [marker_doc final_a])]
    ∧ String.compare second first = Lt.
Proof. eexists _, _. split; vm_compute; reflexivity. Qed.
