(* ===== verification/SenderDrain.v ===== *)
(** * Delivering what is spooled

    The drain of the spool's sender ([fabric/wire/_sender.py], [Sender._drain]): the holder of the
    drain lock reads the records in name order, sends the bodies of each file to the Node and
    then its spans to the exporter, and retires a file only once every part of it was accepted.
    What the Node, the exporter and the kernel answer are arguments ([drain_answer]), a file has
    the bytes it was written with ([bytes]), and a span is its record's document. The migration
    of plaintext records before the first drain ([SpoolMigrate]), an exception of the content
    client or of building a span, the log and the thread are not modelled. *)

From stdpp Require Import gmap relations.
From S2P Require Import Prelude PyDict Hash Json JsonRead JsonValues Ids Markers MarkerForm LossTable SpoolHeader SpoolFrame SpoolEntries Spool SpoolNames.

Definition DRAIN_BATCH : nat := 64.
Definition EXPORT_SPANS : nat := 512.

(** What the Node answers to a body. *)
Inductive send_answer := Accepted | Rejected | Retry.

#[export] Instance send_answer_eq_dec : EqDecision send_answer.
Proof. solve_decision. Defined.

(** What happened, in order: a body of a file was answered, files were exported, a file was
    retired or, when it cannot be read, quarantined. *)
Inductive event :=
  | Answered (name : string) (index : nat) (descriptor : json) (data : string) (a : send_answer)
  | Exported (files : list (string * list Doc)) (ok : bool)
  | Retired (name : string)
  | Quarantined (name : string) (settled : bool).

(** What the sender keeps for its drain. *)
Record Drain := mk_drain {
  dn_retiring : list string;
  dn_progress : list (string * nat);
  dn_sealed : gset string;
  dn_delivered : Z;
  dn_rejected : Z;
  dn_quarantined : Z;
  dn_undecryptable : Z;
}.

Definition new_drain : Drain := mk_drain [] [] ∅ 0 0 0 0.

Definition set_retiring (r : list string) (t : Drain) : Drain :=
  mk_drain r (dn_progress t) (dn_sealed t) (dn_delivered t) (dn_rejected t) (dn_quarantined t) (dn_undecryptable t).
Definition set_progress (p : list (string * nat)) (t : Drain) : Drain :=
  mk_drain (dn_retiring t) p (dn_sealed t) (dn_delivered t) (dn_rejected t) (dn_quarantined t) (dn_undecryptable t).
Definition set_sealed (x : gset string) (t : Drain) : Drain :=
  mk_drain (dn_retiring t) (dn_progress t) x (dn_delivered t) (dn_rejected t) (dn_quarantined t) (dn_undecryptable t).
Definition count_drain (delivered rejected quarantined undecryptable : Z) (t : Drain) : Drain :=
  mk_drain (dn_retiring t) (dn_progress t) (dn_sealed t) (dn_delivered t + delivered) (dn_rejected t + rejected)
    (dn_quarantined t + quarantined) (dn_undecryptable t + undecryptable).

Definition progress (name : string) (t : Drain) : nat := default 0%nat (dget name (dn_progress t)).

(** ** Bodies *)

Definition body_list (doc : Doc) : list json := match dget "bodies" doc with Some (JArr l) => l | _ => [] end.
Definition body_int (k : string) (body : json) : Z := match vget k body with JInt z => z | _ => 0 end.

Section bodies.
(** Whether there is a Node, and what it answers to a body of a file: it is asked for one at
    most once in a drain. *)
Context (content : bool) (answers : string → nat → send_answer).

(** [_send_bodies] from the body [index] on. *)
Fixpoint send_from (name : string) (index : nat) (bodies : list json) (blob : string) (t : Drain) : Drain * list event * bool :=
  match bodies with
  | [] => (t, [], true)
  | body :: bodies =>
      if (index <? progress name t)%nat then send_from name (S index) bodies blob t
      else
        let data := slice (body_int "offset" body) (body_int "offset" body + body_int "length" body) blob in
        let a := if content then answers name index else Rejected in
        let ev := Answered name index (vget "descriptor" body) data a in
        match a with
        | Retry => (t, [ev], false)
        | _ =>
            let t := count_drain 0 (if decide (a = Rejected) then 1 else 0) 0 0 t in
            let t := set_progress (dset name (S index) (dn_progress t)) t in
            let '(t, evs, ok) := send_from name (S index) bodies blob t in (t, ev :: evs, ok)
        end
  end.

Definition with_bodies (doc : Doc) : bool :=
  match dget "record_kind" doc with Some (JStr k) => bool_decide (k = "exchange") || bool_decide (k = "record") | _ => false end.

(** The records of a file, until a body is to be tried again. *)
Fixpoint send_records (name : string) (base : nat) (records : list (Doc * string)) (t : Drain) : Drain * list event * bool :=
  match records with
  | [] => (t, [], true)
  | (doc, blob) :: records =>
      if with_bodies doc then
        let '(t, evs, ok) := send_from name base (body_list doc) blob t in
        if ok then
          let '(t, evs', ok) := send_records name (base + length (body_list doc)) records t in (t, evs ++ evs', ok)
        else (t, evs, false)
      else send_records name base records t
  end.
End bodies.

(** ** Records that cannot be read *)

(** The loss a header that parsed stands for. *)
Definition loss_of (doc : Doc) : option (RawKey * LossRange) :=
  match dget "span" doc with
  | Some span =>
      let attrs := vget "attributes" span in
      match vget "fabric.source_id" attrs, vget "fabric.source.epoch" attrs, vget "fabric.source.sequence" attrs with
      | JStr source, JInt epoch, JInt sequence =>
          let segment := match vget "fabric.run.segment_id" attrs with JStr s => Some s | _ => None end in
          Some ((source, epoch, internal_error, [segment]), mk_range sequence sequence 1)
      | _, _, _ => None
      end
  | None => None
  end.

(** The loss is kept, not recorded: the record is in its seal already. *)
Definition retain_docs (docs : list Doc) (e : Emitter) : Emitter :=
  foldl (λ e doc, match loss_of doc with Some loss => (retain loss e).1 | None => e end) e docs.

(** ** A drain *)

Inductive read_answer := Present | NoFile | ReadFails.

(** What the kernel, the Node and the exporter answer to a drain: how its two retirements and
    the files it quarantines fare, what reading finds, whether the export succeeds. *)
Record drain_answer := mk_drain_answer {
  da_content : bool;                       (** whether there is a Node *)
  da_retire : string → retire_answer;
  da_retire' : string → retire_answer;
  da_sync_fails : bool;
  da_sync_fails' : bool;
  da_scan : string → scan_answer;
  da_read : string → read_answer;
  da_corrupt : string → bool * bool * bool * bool;
  da_bodies : string → nat → send_answer;
  da_export : bool;
}.

(** What a drain works on. *)
Record Work := mk_work {
  wk_drain : Drain;
  wk_emitter : Emitter;
  wk_disk : Disk;
  wk_spool : Spool;
}.

#[export] Instance read_answer_eq_dec : EqDecision read_answer.
Proof. solve_decision. Defined.

Inductive state := more | idle | retry | raised.

#[export] Instance state_eq_dec : EqDecision state.
Proof. solve_decision. Defined.

(** [_retire_delivered] *)
Definition retire_delivered (retire : string → retire_answer) (sync : bool) (scan : string → scan_answer) (w : Work)
    : Work * list event * bool :=
  let names := dn_retiring (wk_drain w) in
  let '(d, s, retired, ok) := retire_many names (retire <$> names) sync scan (wk_disk w) (wk_spool w) in
  (mk_work (set_retiring (skipn (Z.to_nat retired) names) (wk_drain w)) (wk_emitter w) d s,
   Retired <$> firstn (Z.to_nat retired) names, ok).

(** The records of the spool that are not sealed under another key. *)
Definition deliverable (w : Work) : list string :=
  filter (λ n, n ∉ dn_sealed (wk_drain w)) (names (wk_disk w) (wk_spool w)).

Section drain.
Context `{FloatText} `{FloatInt} (key : option (Cipher * string)) (bytes : string → string) (a : drain_answer).

(** [_quarantine]; false where it raises. *)
Definition quarantine_file (name : string) (docs : list Doc) (w : Work) : Work * list event * bool :=
  let '(busy, rename_fails, sync_fails, observe_fails) := da_corrupt a name in
  let '(d, s, ok) := quarantine busy rename_fails sync_fails observe_fails name (wk_disk w) (wk_spool w) in
  if ok then
    (mk_work (count_drain 0 0 1 0 (wk_drain w)) (retain_docs docs (wk_emitter w)) d s, [Quarantined name true], true)
  else (mk_work (wk_drain w) (wk_emitter w) d s, [Quarantined name false], false).

Definition leave_sealed (name : string) (t : Drain) : Drain :=
  if decide (name ∈ dn_sealed t) then t else set_sealed ({[name]} ∪ dn_sealed t) (count_drain 0 0 0 1 t).

Definition with_drain (t : Drain) (w : Work) : Work := mk_work t (wk_emitter w) (wk_disk w) (wk_spool w).

(** The files of a drain, in name order: what is to be exported. *)
Fixpoint drain_files (names : list string) (spans : nat) (w : Work)
    : Work * list event * list (string * list Doc) * state :=
  match names with
  | [] => (w, [], [], idle)
  | name :: names =>
      if (EXPORT_SPANS <=? spans)%nat then (w, [], [], idle)
      else
        match da_read a name with
        | NoFile => drain_files names spans w
        | ReadFails => (w, [], [], raised)
        | Present =>
            match read_records (bytes name) name key with
            | inr Undecryptable => drain_files names spans (with_drain (leave_sealed name (wk_drain w)) w)
            | inr (Corrupt docs) | inr (Plaintext docs) =>
                let '(w, evs, ok) := quarantine_file name docs w in
                if ok then let '(w, evs', batch, st) := drain_files names spans w in (w, evs ++ evs', batch, st)
                else (w, evs, [], raised)
            | inl records =>
                let '(t, evs, ok) := send_records (da_content a) (da_bodies a) name 0 records (wk_drain w) in
                let w := with_drain t w in
                if ok then
                  let '(w, evs', batch, st) := drain_files names (spans + length records) w in
                  (w, evs ++ evs', (name, records.*1) :: batch, st)
                else (w, evs, [], retry)
            end
        end
  end.

(** What the export delivered. *)
Definition delivered (batch : list (string * list Doc)) (t : Drain) : Drain :=
  foldl (λ t file, count_drain (Z.of_nat (length file.2)) 0 0 0
    (set_progress (ddel file.1 (dn_progress t))
      (set_retiring (if decide (file.1 ∈ dn_retiring t) then dn_retiring t else dn_retiring t ++ [file.1]) t))) t batch.

(** [_drain] *)
Definition drain (w : Work) : Work * list event * state :=
  let '(w, evs0, ok) := retire_delivered (da_retire a) (da_sync_fails a) (da_scan a) w in
  if negb ok then (w, evs0, retry)
  else
    let ready := firstn DRAIN_BATCH (deliverable w) in
    let '(w, evs, batch, st) := drain_files ready 0 w in
    let evs := evs0 ++ evs in
    if decide (st = raised) then (w, evs, raised)
    else if decide (batch = []) then (w, evs, if decide (st = retry) then retry else if decide (ready = []) then idle else more)
    else if negb (da_export a) then (w, evs ++ [Exported batch false], retry)
    else
      let w := with_drain (delivered batch (wk_drain w)) w in
      let '(w, evs', ok) := retire_delivered (da_retire' a) (da_sync_fails' a) (da_scan a) w in
      (w, evs ++ [Exported batch true] ++ evs',
       if negb ok || bool_decide (st = retry) then retry else if decide (ready = []) then idle else more).
End drain.

(** ** What the log shows *)

Definition final_of (name : string) (ev : event) : option nat :=
  match ev with Answered n i _ _ a => if decide (n = name ∧ a ≠ Retry) then Some i else None | _ => None end.

(** The bodies of a file that were accepted or rejected for good. *)
Definition finals (name : string) (log : list event) : list nat := omap (final_of name) log.

(** The files that were exported. *)
Definition exported (log : list event) : list string :=
  concat ((λ ev, match ev with Exported files true => files.*1 | _ => [] end) <$> log).

Definition body_of (blob : string) (body : json) : json * string :=
  (vget "descriptor" body, slice (body_int "offset" body) (body_int "offset" body + body_int "length" body) blob).

(** The bodies of the records of a file, in order. *)
Definition file_bodies (records : list (Doc * string)) : list (json * string) :=
  concat ((λ r, if with_bodies r.1 then body_of r.2 <$> body_list r.1 else []) <$> records).

Lemma file_bodies_app l k : file_bodies (l ++ k) = file_bodies l ++ file_bodies k.
Proof. unfold file_bodies. by rewrite fmap_app, List.concat_app. Qed.
Lemma finals_app n l k : finals n (l ++ k) = finals n l ++ finals n k.
Proof. apply omap_app. Qed.
Lemma exported_app l k : exported (l ++ k) = exported l ++ exported k.
Proof. unfold exported. by rewrite fmap_app, List.concat_app. Qed.
Lemma exported_one files : exported [Exported files true] = files.*1.
Proof. unfold exported. simpl. by rewrite app_nil_r. Qed.

(** Every event of a list that follows [base] satisfies [P] of what came before it. *)
Definition justified (P : list event → event → Prop) (base l : list event) : Prop :=
  ∀ l1 x l2, l = l1 ++ x :: l2 → P (base ++ l1) x.

Lemma justified_nil P base : justified P base [].
Proof. intros [|? ?] x l2 E; discriminate. Qed.

Lemma justified_app P base l k : justified P base (l ++ k) ↔ justified P base l ∧ justified P (base ++ l) k.
Proof.
  split.
  - intros H. split; intros l1 x l2 ->; [apply (H l1 x (l2 ++ k)); by rewrite <-app_assoc|].
    rewrite <-app_assoc. apply (H (l ++ l1) x l2). by rewrite app_assoc.
  - intros [Hl Hk] l1 x l2 E. apply app_cons_inv in E as [(l3 & -> & ->)|(k1 & -> & ->)].
    + by apply (Hl l1 x l3).
    + rewrite app_assoc. by apply (Hk k1 x l2).
Qed.

Lemma justified_one P base x : justified P base [x] ↔ P base x.
Proof.
  split; [intros H; specialize (H [] x [] eq_refl); by rewrite app_nil_r in H|].
  intros H [|y l1] z l2 E; [injection E as <- <-; by rewrite app_nil_r|]. by destruct l1.
Qed.

Lemma progress_dset n m k t : progress n (set_progress (dset m k (dn_progress t)) t) = if decide (n = m) then k else progress n t.
Proof. unfold progress. simpl. rewrite dget_dset. by case_decide. Qed.

(** ** The files on disk *)

(** A disk that kept every record, or holds less of them. *)
Definition fewer (gone : string → Prop) (d d' : Disk) : Prop :=
  ∀ n, good n → d' !! n = d !! n ∨ d' !! n = None ∧ gone n.

Lemma fewer_refl gone d : fewer gone d d.
Proof. by left. Qed.
Lemma fewer_trans (gone gone' gone'' : string → Prop) d1 d2 d3 :
  (∀ n, gone n → gone'' n) → (∀ n, gone' n → gone'' n) → fewer gone d1 d2 → fewer gone' d2 d3 → fewer gone'' d1 d3.
Proof. intros Hw Hw' H1 H2 n Hn. destruct (H2 n Hn) as [-> |[? ?]]; [|by eauto]. destruct (H1 n Hn) as [?|[? ?]]; eauto. Qed.
Lemma fewer_weaken (gone gone' : string → Prop) d d' : (∀ n, gone n → gone' n) → fewer gone d d' → fewer gone' d d'.
Proof. intros Hw H n Hn. destruct (H n Hn) as [?|[? ?]]; eauto. Qed.

Lemma fewer_rename fails m x d : (∀ n, good n → n ≠ x) → fewer (λ n, n = m) d (rename fails m x d).1.
Proof.
  intros Hx n Hn. unfold rename. destruct fails; [by left|]. destruct (d !! m) as [f|] eqn:E; [|by left]. cbn [fst].
  rewrite lookup_insert_ne by (intros <-; by apply (Hx x)). destruct (decide (n = m)) as [-> |Hne].
  - right. by rewrite lookup_delete_eq.
  - left. by rewrite lookup_delete_ne.
Qed.

Lemma fewer_delete m d : fewer (λ n, n = m) d (delete m d).
Proof.
  intros n Hn. destruct (decide (n = m)) as [-> |Hne]; [right; by rewrite lookup_delete_eq|left; by rewrite lookup_delete_ne].
Qed.

Lemma fewer_unlink fails m d : fewer (λ n, n = m) d (unlink fails m d).1.
Proof. unfold unlink. destruct fails; [by left|]. destruct (d !! m) eqn:E; [apply fewer_delete|by left]. Qed.

Lemma fewer_truncate fails now m d : (∀ n, good n → n ≠ m) → fewer (λ _, False) d (truncate fails now m d).1.
Proof.
  intros Hm n Hn. left. unfold truncate. destruct (d !! m) eqn:E; [|done]. destruct fails; [done|]. cbn [fst].
  rewrite lookup_insert_ne; [done|]. intros <-. by apply (Hm m).
Qed.

(** A retirement that is done has taken the record off the disk. *)
Lemma retire_one_fewer a name d s d' s' ok how :
  good name → retire_one a name d s = (d', s', ok, how) →
  fewer (λ n, n = name) d d' ∧ (ok = true → d' !! name = None).
Proof.
  intros Hg. unfold retire_one. destruct (claim_retiring _ _) as [o own].
  destruct (retire_file a own name d) as [[d1 ok1] renamed] eqn:E. intros [= <- _ <- _]. unfold retire_file in E. destruct own.
  - destruct (t_unlink_fails a); injection E as <- <- <-; [split; [by left|done]|]. split; [exact (fewer_unlink false name d)|]. intros _.
    unfold unlink. destruct (d !! name) eqn:El; cbn [fst]; [by rewrite lookup_delete_eq|done].
  - pose proof (fewer_rename (t_lock_busy a || t_rename_fails a) name (ack_of name) d (λ n Hn, good_ne_ack n name Hn)) as Hf.
    destruct (rename _ _ _ _) as [d2 m] eqn:Er. cbn [fst] in Hf.
    assert (m ≠ MoveFailed → d2 !! name = None) as Hgone.
    { unfold rename in Er. intros Hm. destruct (_ || _); [by injection Er as <- <-|]. destruct (d !! name) as [f|] eqn:El; injection Er as <- <-; [|done].
      rewrite lookup_insert_ne by (intros H'; by apply (good_ne_ack name name)). by rewrite lookup_delete_eq. }
    assert (∀ d3 ok3, truncate (t_truncate_fails a) (t_now a) (ack_of name) d2 = (d3, ok3) → m ≠ MoveFailed →
      fewer (λ n, n = name) d d3 ∧ (ok3 = true → d3 !! name = None)) as Htr.
    { intros d3 ok3 Et Hm. pose proof (fewer_truncate (t_truncate_fails a) (t_now a) (ack_of name) d2 (λ n Hn, good_ne_ack n name Hn)) as Ht.
      rewrite Et in Ht. cbn [fst] in Ht. split; [by eapply fewer_trans, Ht; [| |exact Hf]; [done|intros ? []]|]. intros _.
      destruct (Ht name Hg) as [-> |[? []]]. by apply Hgone. }
    destruct m; [|..| by injection E as <- <- <-]; destruct (truncate _ _ _ _) as [d3 ok3] eqn:Et; injection E as <- <- <-; by apply Htr.
Qed.

Lemma retire_each_fewer names answers d s d' s' done fine :
  Forall good names → length answers = length names → retire_each names answers d s = (d', s', done, fine) →
  fewer (λ n, n ∈ names) d d' ∧ (fine = true → length done = length names) ∧ (length done ≤ length names)%nat
  ∧ ∀ n, n ∈ firstn (length done) names → d' !! n = None.
Proof.
  revert answers d s d' s' done fine. induction names as [|name names IH]; intros [|a answers] d s d' s' done fine Hg Hl E; try discriminate Hl.
  { injection E as <- <- <- <-. split_and!; [apply fewer_refl|done|done|]. intros n Hn. by apply elem_of_nil in Hn. }
  apply Forall_cons in Hg as [Hg Hgs]. cbn [retire_each] in E.
  destruct (retire_one a name d s) as [[[d1 s1] ok] how] eqn:E1. apply retire_one_fewer in E1 as [Hf Hgone]; [|done].
  assert (fewer (λ n, n ∈ name :: names) d d1) as Hf1 by (eapply fewer_weaken, Hf; intros n ->; left).
  destruct ok; cycle 1.
  { injection E as <- <- <- <-. split_and!; [done|done|simpl; lia|]. intros n Hn. by apply elem_of_nil in Hn. }
  destruct (retire_each names answers d1 s1) as [[[d2 s2] done2] fine2] eqn:E2. injection E as <- <- <- <-.
  apply IH in E2 as (Hf2 & Hfine & Hlen & Hd); [|done|by injection Hl]. simpl. split_and!; [|intros; f_equal; by apply Hfine|lia|].
  - eapply fewer_trans, Hf2; [| |exact Hf1]; [done|]. intros n Hn. by right.
  - intros n [-> |Hn]%elem_of_cons; [|by apply Hd]. destruct (Hf2 name Hg) as [-> |[? _]]; [by apply Hgone|done].
Qed.

Lemma trim_fewer answers d s : fewer (λ _, False) d (trim answers d s).1.
Proof.
  unfold trim. destruct (_ || _); [apply fewer_refl|]. set (entries := py_sort receipt_leb (receipts_of answers d)).
  generalize (Z.to_nat (Z.max 0 (Z.of_nat (length entries) - sp_max_receipts s))). intros k.
  assert (∀ p, p ∈ firstn k entries → is_ack p.2 = true) as Hack.
  { intros p Hp. assert (p ∈ entries) as Hin by (rewrite <-(take_drop k entries); apply elem_of_app; by left).
    apply elem_of_py_sort, list_elem_of_omap in Hin as ([x f] & _ & Hx). simpl in Hx.
    destruct (is_ack x) eqn:Ea; [|done]. simpl in Hx. case_match; [|done]. by injection Hx as <-. }
  revert Hack. generalize (firstn k entries), (sp_charges s). intros l c Hack.
  assert (∀ d0 c0, fewer (λ _, False) d d0 → fewer (λ _, False) d (foldl (trim_one answers) (d0, c0) l).1) as Hall; [|].
  { induction l as [|p l IH]; intros d0 c0 H0; [done|]. simpl. unfold trim_one at 2.
    assert (fewer (λ _, False) d (unlink false p.2 d0).1) as H1.
    { intros n Hn. destruct (H0 n Hn) as [<- |[? []]]. left. unfold unlink. destruct (d0 !! p.2); [|done]. cbn [fst].
      rewrite lookup_delete_ne; [done|]. intros <-. pose proof (Hack p ltac:(left)) as Ha. by rewrite good_not_ack in Ha. }
    destruct (n_unlink_fails _); apply IH; try done; intros q Hq; apply Hack; by right. }
  specialize (Hall d c (fewer_refl _ d)). by destruct (foldl _ _ _).
Qed.

(** [retire_many]: the first of the names it counts are off the disk, and nothing else is. *)
Lemma retire_many_fewer names answers sync answers' d s d' s' k ok :
  Forall good names → length answers = length names → retire_many names answers sync answers' d s = (d', s', k, ok) →
  fewer (λ n, n ∈ names) d d' ∧ (ok = true → skipn (Z.to_nat k) names = [])
  ∧ ∀ n, n ∈ firstn (Z.to_nat k) names → d' !! n = None.
Proof.
  intros Hg Hl. unfold retire_many. destruct (retire_each _ _ _ _) as [[[d1 s1] done] fine] eqn:E.
  apply retire_each_fewer in E as (Hf & Hfine & Hlen & Hd); [|done..].
  set (synced := _ || _). set (s2 := if synced then _ else _). pose proof (trim_fewer answers' d1 s2) as Ht.
  destruct (trim answers' d1 s2) as [d2 s3]. cbn [fst] in Ht. intros [= <- <- <- <-]. split_and!.
  - eapply fewer_trans, Ht; [| |exact Hf]; [done|]. by intros ? [].
  - intros [-> ->]%andb_true_iff. rewrite Nat2Z.id, Hfine by done. apply drop_all.
  - intros n Hn. destruct synced; [|by apply elem_of_nil in Hn]. rewrite Nat2Z.id in Hn.
    assert (good n) as Hgn by (eapply Forall_forall; [exact Hg|]; rewrite <-(take_drop (length done) names); apply elem_of_app; by left).
    destruct (Ht n Hgn) as [-> |[? []]]. by apply Hd.
Qed.

Lemma quarantine_fewer busy rename_fails sync_fails observe_fails name d s :
  fewer (λ n, n = name) d (quarantine busy rename_fails sync_fails observe_fails name d s).1.1.
Proof.
  unfold quarantine. pose proof (fewer_rename (busy || rename_fails) name (corrupt_of name) d (λ n Hn, good_ne_corrupt n name Hn)) as Hf.
  destruct (rename _ _ _ _) as [d1 m]. by case_decide.
Qed.

Section theorems.
Context `{FloatText} `{FloatInt} (key : option (Cipher * string)) (bytes : string → string).

(** What a file holds, as the drain reads it. *)
Notation content name := (read_records (bytes name) name key).

(** What an event may follow. *)
Definition follows (before : list event) (ev : event) : Prop :=
  match ev with
  | Answered name index descriptor data _ =>
      name ∉ exported before ∧ ∃ records, content name = inl records ∧ file_bodies records !! index = Some (descriptor, data)
  | Exported files _ =>
      ∀ name docs, (name, docs) ∈ files → name ∉ exported before ∧ ∃ records, content name = inl records ∧ docs = records.*1
        ∧ finals name before = seq 0 (length (file_bodies records))
  | Retired name => name ∈ exported before
  | Quarantined name _ => name ∉ exported before ∧ ∃ docs, content name = inr (Corrupt docs) ∨ content name = inr (Plaintext docs)
  end.

(** What holds of the sender and its log. *)
Record core (t : Drain) (log : list event) : Prop := mk_core {
  co_follows : justified follows [] log;
  co_once : NoDup (exported log);
  co_finals n : ∃ k, finals n log = seq 0 k ∧ (n ∉ exported log → progress n t = k);
  co_retiring n : n ∈ dn_retiring t → n ∈ exported log ∧ good n;
  co_distinct : NoDup (dn_retiring t);
}.

(** The bodies that were answered are bodies of the file. *)
Lemma finals_bound t log name records k :
  core t log → content name = inl records → finals name log = seq 0 k → (k ≤ length (file_bodies records))%nat.
Proof.
  intros [Hf _ _ _ _] Hc E. destruct k as [|k]; [lia|].
  assert (k ∈ finals name log) as Hk by (rewrite E; apply elem_of_seq; lia).
  apply list_elem_of_omap in Hk as (ev & Hev & Hfin). apply list_elem_of_split in Hev as (l1 & l2 & ->).
  specialize (Hf l1 ev l2 eq_refl). destruct ev as [n i desc data a|? ?|?|? ?]; try done.
  simpl in Hfin. case_decide as Hd; [|done]. destruct Hd as [-> _]. apply Some_inj in Hfin as ->.
  destruct Hf as (_ & rs & Hr & Hlook). rewrite Hc in Hr. injection Hr as <-.
  apply lookup_lt_Some in Hlook. lia.
Qed.

(** The same sender but for what the core does not hold. *)
Definition same_core (t t' : Drain) : Prop := dn_retiring t' = dn_retiring t ∧ dn_progress t' = dn_progress t.

Lemma core_same t t' log : same_core t t' → core t log → core t' log.
Proof. intros [Hr Hp] [H1 H2 H3 H4 H5]. split; unfold progress in *; [done|done|by rewrite Hp|by rewrite Hr|by rewrite Hr]. Qed.

(** Events that change neither what is exported nor what is answered. *)
Lemma core_event t log ev :
  core t log → follows log ev → exported [ev] = [] → (∀ n, final_of n ev = None) → core t (log ++ [ev]).
Proof.
  intros [H1 H2 H3 H4 H5] Hf He Hn.
  assert (exported (log ++ [ev]) = exported log) as E by (by rewrite exported_app, He, app_nil_r).
  split; rewrite ?E; [|done| |done|done].
  - apply justified_app. split; [done|]. by apply justified_one.
  - intros n. rewrite finals_app. assert (finals n [ev] = []) as -> by (unfold finals; simpl; by rewrite Hn).
    rewrite app_nil_r. apply H3.
Qed.

(** A final answer to the next body. *)
Lemma core_answer t log name desc data a :
  core t log → a ≠ Retry → follows log (Answered name (progress name t) desc data a) →
  core (set_progress (dset name (S (progress name t)) (dn_progress t)) t) (log ++ [Answered name (progress name t) desc data a]).
Proof.
  intros [H1 H2 H3 H4 H5] Ha Hf. pose proof (proj1 Hf) as Hnew.
  assert (∀ x, exported (log ++ [Answered name x desc data a]) = exported log) as E by (intros x; rewrite exported_app; simpl; by rewrite app_nil_r).
  split; rewrite ?E; [|done| |done|done].
  - apply justified_app. split; [done|]. by apply justified_one.
  - intros n. destruct (H3 n) as (k & Hk & Hp). rewrite finals_app, progress_dset. unfold finals at 2. simpl.
    destruct (decide (n = name)) as [-> |Hne].
    + rewrite decide_True by done. rewrite (Hp Hnew). exists (S k). split; [|done]. rewrite Hk, seq_S. done.
    + rewrite decide_False by naive_solver. rewrite app_nil_r. by exists k.
Qed.

(** What sending bodies leaves alone. *)
Record sent (name : string) (t t' : Drain) : Prop := mk_sent {
  st_retiring : dn_retiring t' = dn_retiring t;
  st_sealed : dn_sealed t' = dn_sealed t;
  st_others n : n ≠ name → progress n t' = progress n t;
  st_more : (progress name t ≤ progress name t')%nat;
}.

Lemma sent_refl name t : sent name t t.
Proof. by split. Qed.
Lemma sent_trans name t1 t2 t3 : sent name t1 t2 → sent name t2 t3 → sent name t1 t3.
Proof. intros [A1 B1 C1 D1] [A2 B2 C2 D2]. split; [congruence..| |lia]. intros n Hn. by rewrite C2, C1. Qed.

Lemma send_from_spec content_client answers name records bodies blob index t log t' evs ok :
  core t log → name ∉ exported log → content name = inl records →
  (body_of blob <$> bodies) `prefix_of` drop index (file_bodies records) →
  (index ≤ progress name t)%nat →
  send_from content_client answers name index bodies blob t = (t', evs, ok) →
  core t' (log ++ evs) ∧ sent name t t' ∧ exported evs = [] ∧ (ok = true → (index + length bodies ≤ progress name t')%nat).
Proof.
  revert index t log t' evs ok. induction bodies as [|body bodies IH];
    intros index t log t' evs ok Hcore Hnew Hc Hpre Hi E; cbn [send_from] in E.
  { injection E as <- <- <-. rewrite app_nil_r. split_and!; [done|apply sent_refl|done|]. simpl. lia. }
  assert ((body_of blob <$> bodies) `prefix_of` drop (S index) (file_bodies records) ∧
    file_bodies records !! index = Some (body_of blob body)) as [Hpre' Hlook].
  { destruct Hpre as [k Hk]. csimpl in Hk. split.
    - exists k. replace (S index) with (index + 1)%nat by lia. by rewrite <-drop_drop, Hk.
    - rewrite <-(Nat.add_0_r index), <-lookup_drop, Hk. done. }
  destruct (Nat.ltb_spec index (progress name t)) as [Hlt|Hge].
  { destruct (IH (S index) t log t' evs ok) as (? & ? & ? & Hlen); [done..|lia|done|].
    split_and!; [done..|]. simpl. intros Hok. specialize (Hlen Hok). lia. }
  assert (index = progress name t) as -> by lia.
  set (data := slice _ _ _) in E. set (a := if content_client then answers name (progress name t) else Rejected) in E.
  assert (follows log (Answered name (progress name t) (vget "descriptor" body) data a)) as Hf by (split; [done|]; eauto).
  destruct (decide (a = Retry)) as [Ha|Ha].
  { rewrite Ha in E, Hf. injection E as <- <- <-. split_and!; [|apply sent_refl|done|done].
    apply core_event; [done..|]. intros n. simpl. by rewrite decide_False by naive_solver. }
  set (t1 := set_progress _ (count_drain _ _ _ _ t)) in E.
  destruct (send_from _ _ _ _ _ _ t1) as [[t2 evs2] ok2] eqn:E2.
  assert ((t2, Answered name (progress name t) (vget "descriptor" body) data a :: evs2, ok2) = (t', evs, ok)) as E'.
  { clearbody a. by destruct a. }
  injection E' as <- <- <-.
  assert (core t1 (log ++ [Answered name (progress name t) (vget "descriptor" body) data a])) as Hcore1.
  { eapply core_same; [|by apply core_answer]. by split. }
  assert (progress name t1 = S (progress name t)) as Hp1.
  { unfold t1, progress. simpl. by rewrite dget_dset_eq. }
  apply (IH _ _ _ _ _ _ Hcore1) in E2 as (? & Hs & He & Hlen); [|by rewrite exported_app, app_nil_r|done|done|rewrite Hp1; lia].
  split_and!.
  - by rewrite cons_middle, app_assoc.
  - eapply sent_trans; [|exact Hs]. split; [done..| |lia]. intros n Hn. unfold t1, progress. simpl. by rewrite dget_dset_ne.
  - done.
  - intros Hok. specialize (Hlen Hok). simpl. lia.
Qed.

Lemma send_records_spec content_client answers name all done records t log t' evs ok :
  core t log → name ∉ exported log → content name = inl all →
  all = done ++ records → (length (file_bodies done) ≤ progress name t)%nat →
  send_records content_client answers name (length (file_bodies done)) records t = (t', evs, ok) →
  core t' (log ++ evs) ∧ sent name t t' ∧ exported evs = [] ∧ (ok = true → (length (file_bodies all) ≤ progress name t')%nat).
Proof.
  revert done t log t' evs ok. induction records as [|[doc blob] records IH];
    intros done t log t' evs ok Hcore Hnew Hc Hall Hi E; cbn [send_records] in E.
  { injection E as <- <- <-. rewrite app_nil_r in *. subst done. split_and!; [done|apply sent_refl|done|done]. }
  assert (all = (done ++ [(doc, blob)]) ++ records) as Hall' by (by rewrite <-app_assoc).
  assert (length (file_bodies (done ++ [(doc, blob)])) = length (file_bodies done) + (if with_bodies doc then length (body_list doc) else 0))%nat
    as Hlen by (rewrite file_bodies_app, length_app; unfold file_bodies at 2; simpl; rewrite app_nil_r; case_match; by rewrite ?length_fmap).
  destruct (with_bodies doc) eqn:Hw; [|rewrite Nat.add_0_r in Hlen; rewrite <-Hlen in E, Hi; by apply (IH _ _ _ _ _ _ Hcore) in E].
  destruct (send_from _ _ _ _ _ _ _) as [[t1 evs1] ok1] eqn:E1.
  assert (body_of blob <$> body_list doc `prefix_of` drop (length (file_bodies done)) (file_bodies all)) as Hpre.
  { rewrite Hall, file_bodies_app, drop_app_length. unfold file_bodies at 1. simpl. rewrite Hw. by eexists. }
  apply (send_from_spec _ _ _ _ _ _ _ _ _ _ _ _ Hcore Hnew Hc) in E1 as (Hcore1 & Hs1 & He1 & Hok1); [|exact Hpre|exact Hi].
  destruct ok1; [|injection E as <- <- <-; by split_and!].
  destruct (send_records _ _ _ _ _ _) as [[t2 evs2] ok2] eqn:E2. injection E as <- <- <-. rewrite <-Hlen in E2.
  specialize (Hok1 eq_refl). apply (IH _ _ _ _ _ _ Hcore1) in E2 as (Hcore2 & Hs2 & He2 & Hok2);
    [|by rewrite exported_app, He1, app_nil_r|done|done|lia].
  split_and!; [by rewrite app_assoc|by eapply sent_trans|by rewrite exported_app, He1, He2|done].
Qed.

(** A retirement that is justified by an export. *)
Lemma core_retired t log names r :
  core t log → (∀ n, n ∈ names → n ∈ exported log) → (∀ n, n ∈ r → n ∈ dn_retiring t) → NoDup r →
  core (set_retiring r t) (log ++ (Retired <$> names)).
Proof.
  intros Hcore Hn Hr Hnd. assert (core t (log ++ (Retired <$> names))) as [C1 C2 C3 C4 C5].
  { revert log Hcore Hn. induction names as [|n names IH]; intros log Hcore Hn; simpl; [by rewrite app_nil_r|].
    rewrite cons_middle, app_assoc. apply IH.
    - apply core_event; [done|apply Hn; left|done|done].
    - intros m Hm. rewrite exported_app. apply elem_of_app. left. apply Hn. by right. }
  split; [done|done|done| |done]. intros n Hin. by apply C4, Hr.
Qed.

Lemma exported_retired names : exported (Retired <$> names) = [].
Proof. induction names; [done|]. simpl. done. Qed.

(** Every file that was exported waits for its retirement or is off the disk. *)
Definition gone (t : Drain) (d : Disk) (log : list event) : Prop :=
  ∀ n, n ∈ exported log → n ∈ dn_retiring t ∨ d !! n = None.

Lemma retire_delivered_spec retire sync scan w log w' evs ok :
  core (wk_drain w) log → gone (wk_drain w) (wk_disk w) log → (∀ n, n ∈ exported log → good n) →
  retire_delivered retire sync scan w = (w', evs, ok) →
  core (wk_drain w') (log ++ evs) ∧ gone (wk_drain w') (wk_disk w') log ∧ exported evs = []
  ∧ fewer (λ n, n ∈ exported log) (wk_disk w) (wk_disk w') ∧ (ok = true → dn_retiring (wk_drain w') = []).
Proof.
  intros Hcore Hgone Hgood. unfold retire_delivered. set (names := dn_retiring (wk_drain w)).
  destruct (retire_many _ _ _ _ _ _) as [[[d s] k] fine] eqn:E.
  assert (∀ n, n ∈ names → n ∈ exported log) as Hex by (intros n Hn; by apply (co_retiring _ _ Hcore)).
  apply retire_many_fewer in E as (Hf & Hfine & Hd); [|apply Forall_forall; intros n Hn; by apply Hgood, Hex|by rewrite length_fmap].
  intros [= <- <- <-]. cbn [wk_drain wk_disk].
  assert (∀ n, n ∈ firstn (Z.to_nat k) names ∨ n ∈ skipn (Z.to_nat k) names ↔ n ∈ names) as Hsplit.
  { intros n. rewrite <-elem_of_app. by rewrite firstn_skipn. }
  split_and!; [| |apply exported_retired| |done].
  - apply core_retired; [done| | |].
    + intros n Hn. apply Hex, Hsplit. by left.
    + intros n Hn. apply Hsplit. by right.
    + eapply sublist_NoDup; [apply (co_distinct _ _ Hcore)|apply sublist_drop].
  - intros n Hn. destruct (Hgone n Hn) as [Hr|Hr].
    + apply Hsplit in Hr as [Hr|Hr]; [right; by apply Hd|by left].
    + right. destruct (Hf n (Hgood n Hn)) as [-> |[? _]]; done.
  - eapply fewer_weaken, Hf. apply Hex.
Qed.

(** A file that is ready for the exporter: every body was answered. *)
Definition ready (t : Drain) (name : string) (docs : list Doc) : Prop :=
  ∃ records, content name = inl records ∧ docs = records.*1 ∧ (length (file_bodies records) ≤ progress name t)%nat.

(** What the loop of a drain over [names] does, from [w] and [log]. *)
Record drained (names : list string) (w w' : Work) (log evs : list event) (batch : list (string * list Doc)) : Prop := mk_drained {
  dr_core : core (wk_drain w') (log ++ evs);
  dr_quiet : exported evs = [];
  dr_retiring : dn_retiring (wk_drain w') = dn_retiring (wk_drain w);
  dr_others n : n ∉ names → progress n (wk_drain w') = progress n (wk_drain w);
  dr_names : batch.*1 `sublist_of` names;
  dr_ready n docs : (n, docs) ∈ batch → ready (wk_drain w') n docs;
  dr_disk : fewer (λ n, ∃ b, Quarantined n b ∈ evs) (wk_disk w) (wk_disk w');
}.

Lemma drained_stop names w log : core (wk_drain w) log → drained names w w log [] [].
Proof. intros Hcore. split; [by rewrite app_nil_r|done..|apply sublist_nil_l| |apply fewer_refl]. intros n docs Hin. by apply elem_of_nil in Hin. Qed.

(** A file that is dealt with, then the others. *)
Lemma drained_cons name names w w1 w' log evs1 evs batch :
  (∀ n, n ≠ name → progress n (wk_drain w1) = progress n (wk_drain w)) →
  dn_retiring (wk_drain w1) = dn_retiring (wk_drain w) → exported evs1 = [] →
  fewer (λ n, ∃ b, Quarantined n b ∈ evs1) (wk_disk w) (wk_disk w1) →
  drained names w1 w' (log ++ evs1) evs batch → drained (name :: names) w w' log (evs1 ++ evs) batch.
Proof.
  intros Ho Hr He Hd [D1 D2 D3 D4 D5 D6 D7]. split; [by rewrite app_assoc|by rewrite exported_app, He, D2|congruence| | |done|].
  - intros n [Hne Hn]%not_elem_of_cons. by rewrite D4, Ho.
  - by apply sublist_cons.
  - eapply fewer_trans, D7; [| |exact Hd]; intros n [b Hb]; exists b; apply elem_of_app; auto.
Qed.

Lemma drained_file name docs names w w' log evs batch :
  drained (name :: names) w w' log evs batch → batch.*1 `sublist_of` names → ready (wk_drain w') name docs →
  drained (name :: names) w w' log evs ((name, docs) :: batch).
Proof.
  intros [D1 D2 D3 D4 D5 D6 D7] Hb Hready. split; [done..| | |done].
  - csimpl. by apply sublist_skip.
  - intros n docs' [[= -> ->]|Hn]%elem_of_cons; [done|by apply D6].
Qed.

Lemma quarantine_file_spec a name docs w log w' evs ok :
  core (wk_drain w) log → name ∉ exported log →
  content name = inr (Corrupt docs) ∨ content name = inr (Plaintext docs) →
  quarantine_file a name docs w = (w', evs, ok) →
  core (wk_drain w') (log ++ evs) ∧ exported evs = [] ∧ same_core (wk_drain w) (wk_drain w')
  ∧ fewer (λ n, ∃ b, Quarantined n b ∈ evs) (wk_disk w) (wk_disk w').
Proof.
  intros Hcore Hnew Hc. unfold quarantine_file. destruct (da_corrupt a name) as [[[b1 b2] b3] b4].
  pose proof (quarantine_fewer b1 b2 b3 b4 name (wk_disk w) (wk_spool w)) as Hq.
  destruct (quarantine _ _ _ _ _ _ _) as [[d s] ok1]. cbn [fst] in Hq.
  assert (∀ b, core (wk_drain w) (log ++ [Quarantined name b])) as Hev by (intros b; apply core_event; [done|split; [done|by exists docs]|done|done]).
  assert (∀ b : bool, fewer (λ n, ∃ b', Quarantined n b' ∈ [Quarantined name b]) (wk_disk w) d) as Hd.
  { intros b. eapply fewer_weaken, Hq. intros n ->. exists b. by left. }
  destruct ok1; intros [= <- <- <-]; (split_and!; [|done|done|apply Hd]); [eapply core_same; [|apply Hev]; done|apply Hev].
Qed.

Lemma drain_files_spec a names spans w log w' evs batch st :
  core (wk_drain w) log → NoDup names → (∀ n, n ∈ names → n ∉ exported log) →
  drain_files key bytes a names spans w = (w', evs, batch, st) → drained names w w' log evs batch.
Proof.
  revert spans w log w' evs batch st. induction names as [|name names IH];
    intros spans w log w' evs batch st Hcore Hnd Hnew E; cbn [drain_files] in E.
  { injection E as <- <- <- <-. by apply drained_stop. }
  apply NoDup_cons in Hnd as [Hname Hnd]. pose proof (Hnew name ltac:(left)) as Hnew1.
  assert (∀ evs1, exported evs1 = [] → ∀ n, n ∈ names → n ∉ exported (log ++ evs1)) as Hnews.
  { intros evs1 He n Hn. rewrite exported_app, He, app_nil_r. apply Hnew. by right. }
  assert (∀ w1 spans w' evs batch st, core (wk_drain w1) log → same_core (wk_drain w) (wk_drain w1) → wk_disk w1 = wk_disk w →
    drain_files key bytes a names spans w1 = (w', evs, batch, st) → drained (name :: names) w w' log evs batch) as Hskip.
  { intros w1 sp w2 evs2 ba st2 Hc1 [Hr Hp] Hd E1. apply (IH _ _ log) in E1; [|done..|intros n Hn; apply Hnew; by right].
    apply (drained_cons _ _ _ w1 _ _ []); [intros n _; unfold progress; by rewrite Hp|done|done|rewrite Hd; apply fewer_refl|by rewrite app_nil_r]. }
  destruct (_ <=? _)%nat; [injection E as <- <- <- <-; by apply drained_stop|].
  destruct (da_read a name) eqn:Hread; [|by eapply Hskip|injection E as <- <- <- <-; by apply drained_stop].
  destruct (content name) as [records|e] eqn:Hc.
  - destruct (send_records _ _ _ _ _ _) as [[t evs1] ok] eqn:E1.
    apply (send_records_spec _ _ _ records [] _ _ _ _ _ _ Hcore Hnew1 Hc eq_refl) in E1 as (Hcore1 & Hs & He & Hok); [|simpl; lia].
    destruct ok; cycle 1.
    + injection E as <- <- <- <-. rewrite <-(app_nil_r evs1). eapply (drained_cons _ _ _ (with_drain t w)); [apply Hs|apply Hs|done|apply fewer_refl|].
      by apply drained_stop.
    + destruct (drain_files _ _ _ _ _ _) as [[[w2 evs2] batch2] st2] eqn:E2. injection E as <- <- <- <-.
      apply (IH _ _ (log ++ evs1)) in E2; [|done|done|by apply Hnews]. apply drained_file.
      * eapply (drained_cons _ _ _ (with_drain t w)); [apply Hs|apply Hs|done|apply fewer_refl|done].
      * apply E2.
      * exists records. split_and!; [done..|]. rewrite (dr_others _ _ _ _ _ _ E2) by done. by apply Hok.
  - assert (∀ docs, content name = inr (Corrupt docs) ∨ content name = inr (Plaintext docs) →
      (let '(w, evs, ok) := quarantine_file a name docs w in
       if ok : bool then let '(w, evs', batch, st) := drain_files key bytes a names spans w in (w, evs ++ evs', batch, st)
       else (w, evs, [], raised)) = (w', evs, batch, st) → drained (name :: names) w w' log evs batch) as Hq.
    { intros docs Hd E1. destruct (quarantine_file a name docs w) as [[w1 evs1] ok1] eqn:Eq.
      apply (quarantine_file_spec _ _ _ _ _ _ _ _ Hcore Hnew1 Hd) in Eq as (Hcore1 & He1 & [Hr1 Hp1] & Hd1).
      assert (∀ n, n ≠ name → progress n (wk_drain w1) = progress n (wk_drain w)) as Hp by (intros n _; unfold progress; by rewrite Hp1).
      destruct ok1; [|injection E1 as <- <- <- <-; rewrite <-(app_nil_r evs1); eapply drained_cons; [done..|by apply drained_stop]].
      destruct (drain_files _ _ _ _ _ w1) as [[[w2 evs2] batch2] st2] eqn:E2. injection E1 as <- <- <- <-.
      eapply drained_cons; [done..|]. eapply IH; [done|done|by apply Hnews|done]. }
    destruct e as [docs|docs|]; [apply (Hq docs); [by left|exact E]|apply (Hq docs); [by right|exact E]|].
    eapply Hskip, E; [|unfold leave_sealed; by case_decide|done].
    eapply core_same, Hcore. cbn. unfold leave_sealed. by case_decide.
Qed.

Lemma delivered_spec batch t :
  NoDup (dn_retiring t ++ batch.*1) →
  dn_retiring (delivered batch t) = dn_retiring t ++ batch.*1
  ∧ ∀ n, n ∉ batch.*1 → progress n (delivered batch t) = progress n t.
Proof.
  unfold delivered. revert t. induction batch as [|[name docs] batch IH]; intros t Hnd; [by rewrite app_nil_r|].
  csimpl. set (t1 := count_drain _ _ _ _ _). csimpl in Hnd. rewrite cons_middle, app_assoc in Hnd.
  assert (dn_retiring t1 = dn_retiring t ++ [name]) as Hr.
  { unfold t1. simpl. rewrite decide_False; [done|]. apply NoDup_app in Hnd as [Hnd _]. apply NoDup_app in Hnd as (_ & Hd & _).
    intros Hin. apply (Hd name Hin). by left. }
  rewrite <-Hr in Hnd. apply IH in Hnd as [-> Hp]. split; [rewrite Hr; by rewrite <-app_assoc|].
  intros n [Hne Hn]%not_elem_of_cons. rewrite Hp by done. unfold t1, progress. simpl. rewrite dget_ddel. by rewrite decide_False.
Qed.

Lemma ready_exported t log batch ok :
  core t log → (∀ n, n ∈ batch.*1 → n ∉ exported log) → (∀ n docs, (n, docs) ∈ batch → ready t n docs) → follows log (Exported batch ok).
Proof.
  intros Hcore Hnew Hready n docs Hin. assert (n ∉ exported log) as Hn.
  { apply Hnew. apply list_elem_of_fmap. by exists (n, docs). }
  split; [done|]. destruct (Hready n docs Hin) as (records & Hc & -> & Hlen). exists records. split_and!; [done..|].
  destruct (co_finals _ _ Hcore n) as (k & Hk & Hp). rewrite Hk, (Hp Hn) in *.
  pose proof (finals_bound _ _ _ _ _ Hcore Hc Hk). f_equal. lia.
Qed.

Lemma core_exported t log batch :
  core t log → dn_retiring t = [] → NoDup batch.*1 → (∀ n, n ∈ batch.*1 → n ∉ exported log ∧ good n) →
  (∀ n docs, (n, docs) ∈ batch → ready t n docs) → core (delivered batch t) (log ++ [Exported batch true]).
Proof.
  intros Hcore Hr Hnd Hnew Hready. pose proof (ready_exported _ _ _ true Hcore (λ n Hn, proj1 (Hnew n Hn)) Hready) as Hf.
  destruct (delivered_spec batch t) as [Hr' Hp]; [by rewrite Hr|]. rewrite Hr in Hr'. simpl in Hr'.
  assert (exported (log ++ [Exported batch true]) = exported log ++ batch.*1) as E by (by rewrite exported_app, exported_one).
  destruct Hcore as [C1 C2 C3 C4 C5]. split; rewrite ?E, ?Hr'; [| | | |done].
  - apply justified_app. split; [done|]. by apply justified_one.
  - apply NoDup_app. split_and!; [done| |done]. intros n Hn Hb. by apply Hnew in Hb as [? _].
  - intros n. destruct (C3 n) as (k & Hk & Hpk). exists k. rewrite finals_app, app_nil_r. split; [done|].
    intros [Hn Hb]%not_elem_of_app. rewrite Hp by done. by apply Hpk.
  - intros n Hn. split; [apply elem_of_app; by right|by apply Hnew].
Qed.

(** What holds between the drains of a sender. *)
Record sender_ok (w : Work) (log : list event) : Prop := mk_sender_ok {
  so_core : core (wk_drain w) log;
  so_gone : gone (wk_drain w) (wk_disk w) log;
  so_good n : n ∈ exported log → good n;
}.

Lemma gone_quiet t d log evs : exported evs = [] → gone t d log → gone t d (log ++ evs).
Proof. intros He Hg n. rewrite exported_app, He, app_nil_r. apply Hg. Qed.

(** Nothing of the disk that was exported comes back with less on it. *)
Lemma gone_fewer t t' d d' log lost :
  (∀ n, n ∈ exported log → good n) → dn_retiring t' = dn_retiring t → fewer lost d d' → gone t d log → gone t' d' log.
Proof.
  intros Hgood Hr Hf Hg n Hn. rewrite Hr. destruct (Hg n Hn) as [|Hd]; [by left|right].
  destruct (Hf n (Hgood n Hn)) as [-> |[? _]]; done.
Qed.

Lemma names_spec n d s : n ∈ names d s → good n ∧ is_Some (d !! n).
Proof.
  unfold names. intros Hn%elem_of_py_sort. apply list_elem_of_filter in Hn as [(H1 & H2 & _) Hn]. split; [by split|].
  apply list_elem_of_fmap in Hn as ([m f] & -> & Hm). exists f. by apply elem_of_map_to_list.
Qed.

Lemma names_nodup d s : NoDup (names d s).
Proof. unfold names. apply NoDup_py_sort, NoDup_filter, NoDup_fst_map_to_list. Qed.

(** What is exported is retired: the end of a drain. *)
Lemma drain_export_spec retire sync scan w log batch w' evs ok :
  sender_ok w log → dn_retiring (wk_drain w) = [] → NoDup batch.*1 → (∀ n, n ∈ batch.*1 → n ∉ exported log ∧ good n) →
  (∀ n docs, (n, docs) ∈ batch → ready (wk_drain w) n docs) →
  retire_delivered retire sync scan (with_drain (delivered batch (wk_drain w)) w) = (w', evs, ok) →
  sender_ok w' (log ++ [Exported batch true] ++ evs) ∧ exported evs = []
  ∧ fewer (λ n, n ∈ exported (log ++ [Exported batch true])) (wk_disk w) (wk_disk w').
Proof.
  intros [Hcore Hgone Hgood] Hr Hnd Hnew Hready E.
  assert (core (delivered batch (wk_drain w)) (log ++ [Exported batch true])) as Hcore1 by (by apply core_exported).
  assert (∀ n, n ∈ exported (log ++ [Exported batch true]) → good n) as Hgood1.
  { intros n. rewrite exported_app, exported_one, elem_of_app. intros [?|?]; [by apply Hgood|by apply Hnew]. }
  apply (retire_delivered_spec _ _ _ _ (log ++ [Exported batch true])) in E as (Hcore2 & Hgone2 & He & Hf & _); [|done| |done].
  - rewrite app_assoc. split_and!; [|done|done]. split; [done|by apply gone_quiet|].
    intros n. rewrite exported_app, He, app_nil_r. apply Hgood1.
  - intros n. rewrite exported_app, exported_one, elem_of_app. cbn [with_drain wk_drain wk_disk].
    rewrite (proj1 (delivered_spec batch (wk_drain w) ltac:(by rewrite Hr))), elem_of_app. intros [Hn|Hn]; [|by left; right].
    destruct (Hgone n Hn) as [?|?]; [left; by left|by right].
Qed.

(** The start of a drain, which retires what was exported before. *)
Lemma drain_start_spec retire sync scan w log w0 evs0 ok :
  sender_ok w log → retire_delivered retire sync scan w = (w0, evs0, ok) →
  sender_ok w0 (log ++ evs0) ∧ exported evs0 = [] ∧ fewer (λ n, n ∈ exported log) (wk_disk w) (wk_disk w0)
  ∧ (ok = true → dn_retiring (wk_drain w0) = []).
Proof.
  intros [Hcore Hgone Hgood] E. apply (retire_delivered_spec _ _ _ _ _ _ _ _ Hcore Hgone Hgood) in E as (? & ? & He & ? & ?).
  split_and!; [|done..]. split; [done|by apply gone_quiet|]. intros n. rewrite exported_app, He, app_nil_r. apply Hgood.
Qed.

(** The files a drain reads were never exported. *)
Lemma ready_files w log :
  sender_ok w log → dn_retiring (wk_drain w) = [] →
  NoDup (firstn DRAIN_BATCH (deliverable w))
  ∧ ∀ n, n ∈ firstn DRAIN_BATCH (deliverable w) → n ∉ exported log ∧ good n ∧ is_Some (wk_disk w !! n).
Proof.
  intros [_ Hgone _] Hr.
  assert (firstn DRAIN_BATCH (deliverable w) `sublist_of` names (wk_disk w) (wk_spool w)) as Hsub
    by (etrans; [apply sublist_take|apply sublist_filter]).
  split; [eapply sublist_NoDup, Hsub; apply names_nodup|]. intros n Hn.
  apply (elem_of_sublist _ _ _ Hn) in Hsub. apply names_spec in Hsub as [Hg [f Hd]]. split_and!; [|done|by exists f].
  intros Hx. destruct (Hgone n Hx) as [Hin|Hnone]; [rewrite Hr in Hin; by apply elem_of_nil in Hin|congruence].
Qed.

Lemma drained_ok names w w' log evs batch : sender_ok w log → drained names w w' log evs batch → sender_ok w' (log ++ evs).
Proof.
  intros [_ Hgone Hgood] [D1 D2 D3 _ _ _ D7]. split; [done|apply gone_quiet; [done|]; by eapply gone_fewer|].
  intros n. rewrite exported_app, D2, app_nil_r. apply Hgood.
Qed.

Lemma drain_spec a w log w' evs st :
  sender_ok w log → drain key bytes a w = (w', evs, st) →
  sender_ok w' (log ++ evs)
  ∧ fewer (λ n, n ∈ exported (log ++ evs) ∨ ∃ b, Quarantined n b ∈ evs) (wk_disk w) (wk_disk w').
Proof.
  intros Hok E. unfold drain in E.
  destruct (retire_delivered (da_retire a) _ _ w) as [[w0 evs0] ok0] eqn:E0.
  apply (drain_start_spec _ _ _ _ _ _ _ _ Hok) in E0 as (Hok0 & He0 & Hf0 & Hr0).
  assert (exported (log ++ evs0) = exported log) as Hex0 by (by rewrite exported_app, He0, app_nil_r).
  destruct ok0; cbn [negb] in E; cycle 1.
  { injection E as <- <- <-. split; [done|]. eapply fewer_weaken, Hf0. intros n Hn. left. by rewrite Hex0. }
  specialize (Hr0 eq_refl). destruct (ready_files _ _ Hok0 Hr0) as [HL Hnew]. set (L := firstn DRAIN_BATCH _) in *.
  destruct (drain_files _ _ _ _ _ _) as [[[w1 evs1] batch] st1] eqn:E1.
  apply (drain_files_spec _ _ _ _ _ _ _ _ _ (so_core _ _ Hok0) HL (λ n Hn, proj1 (Hnew n Hn))) in E1 as D.
  pose proof (drained_ok _ _ _ _ _ _ Hok0 D) as Hok1. destruct D as [D1 D2 D3 D4 D5 D6 D7].
  rewrite <-app_assoc in Hok1. set (evs2 := evs0 ++ evs1) in *.
  assert (exported evs2 = []) as He2 by (unfold evs2; by rewrite exported_app, He0, D2).
  assert (∀ evs3, fewer (λ n, n ∈ exported (log ++ evs2 ++ evs3) ∨ ∃ b, Quarantined n b ∈ evs2 ++ evs3) (wk_disk w) (wk_disk w1)) as Hf1.
  { intros evs3. eapply fewer_trans, D7; [| |exact Hf0].
    - intros n Hn. left. rewrite exported_app. apply elem_of_app. by left.
    - intros n [b Hb]. right. exists b. unfold evs2. rewrite !elem_of_app. auto. }
  assert (∀ n, n ∈ batch.*1 → n ∉ exported (log ++ evs2) ∧ good n) as Hbatch.
  { intros n Hn. apply (elem_of_sublist _ _ _ Hn), Hnew in D5 as (D5 & Hg & _). rewrite exported_app, He2, app_nil_r. by rewrite Hex0 in D5. }
  destruct (decide (st1 = raised)); [injection E as <- <- <-; specialize (Hf1 []); by rewrite app_nil_r in Hf1|].
  destruct (decide (batch = [])); [injection E as <- <- <-; specialize (Hf1 []); by rewrite app_nil_r in Hf1|].
  destruct (da_export a); cbn [negb] in E; cycle 1.
  { injection E as <- <- <-. split; [|apply Hf1]. destruct Hok1 as [K1 K2 K3]. rewrite app_assoc. split.
    - apply core_event; [done| |done|done]. by apply (ready_exported (wk_drain w1)); [|intros m Hm; by apply Hbatch|].
    - by apply gone_quiet.
    - intros m. rewrite exported_app, app_nil_r. apply K3. }
  destruct (retire_delivered _ _ _ _) as [[w2 evs3] ok2] eqn:E2. injection E as <- <- <-.
  apply (drain_export_spec _ _ _ _ (log ++ evs2)) in E2 as (Hok2 & He3 & Hf2);
    [|done|congruence|by eapply sublist_NoDup|done|done].
  rewrite <-app_assoc in Hok2. split; [done|]. eapply fewer_trans, Hf2; [| |exact (Hf1 ([Exported batch true] ++ evs3))]; [done|].
  intros m Hm. left. rewrite <-app_assoc in Hm.
  replace (log ++ evs2 ++ Exported batch true :: evs3) with ((log ++ evs2 ++ [Exported batch true]) ++ evs3) by (by rewrite <-!app_assoc).
  rewrite exported_app. apply elem_of_app. by left.
Qed.

(** ** The drains of a sender *)

(** A drain, or whatever the other processes, the writers of this one and the losses do in
    between; a name that was delivered and is off the disk is never written again. *)
Inductive drain_step : Work * list event → Work * list event → Prop :=
  | S_drain a w log w' evs st : drain key bytes a w = (w', evs, st) → drain_step (w, log) (w', log ++ evs)
  | S_other w log e d s :
      (∀ n, n ∈ exported log → wk_disk w !! n = None → d !! n = None) →
      drain_step (w, log) (mk_work (wk_drain w) e d s, log).

Lemma drain_step_ok p p' : drain_step p p' → sender_ok p.1 p.2 → sender_ok p'.1 p'.2.
Proof.
  intros [a w log w' evs st E|w log e d s Hnew] Hok; simpl in *; [by apply (drain_spec _ _ _ _ _ _ Hok E)|].
  destruct Hok as [K1 K2 K3]. split; [done| |done]. intros n Hn. destruct (K2 n Hn) as [|?]; [by left|right]. by apply Hnew.
Qed.

Lemma drain_reach_ok e d s w log : rtc drain_step (mk_work new_drain e d s, []) (w, log) → sender_ok w log.
Proof.
  assert (∀ p p', rtc drain_step p p' → sender_ok p.1 p.2 → sender_ok p'.1 p'.2) as Hall.
  { induction 1 as [|x y z Hs _ IH]; [done|]. intros Hx. by eapply IH, drain_step_ok. }
  intros Hr. apply (Hall _ _ Hr). split; [split|..]; cbn.
  - apply justified_nil.
  - constructor.
  - intros n. by exists 0%nat.
  - intros n Hn. by apply elem_of_nil in Hn.
  - constructor.
  - intros n Hn. by apply elem_of_nil in Hn.
  - intros n Hn. by apply elem_of_nil in Hn.
Qed.

(** C36: Every record is delivered once, in full. Whatever the kernel, the Node and the
    exporter answer, and whatever the other processes do between the drains of a sender: no
    file is exported successfully twice; the bodies of a file get their final answer once each
    and in order, each with its own descriptor and bytes and none after the export of its file;
    a file is exported with all its records, once all of its bodies were answered; only what
    was exported is retired, and stays off later exports until it is; and what a drain takes off
    the disk was exported or could not be read. *)
Theorem delivered_once e d s w log :
  rtc drain_step (mk_work new_drain e d s, []) (w, log) →
  NoDup (exported log)
  ∧ (∀ name, ∃ k, finals name log = seq 0 k)
  ∧ (∀ before ev after, log = before ++ ev :: after → follows before ev)
  ∧ (∀ name, name ∈ exported log → name ∈ dn_retiring (wk_drain w) ∨ wk_disk w !! name = None)
  ∧ ∀ a w' evs st, drain key bytes a w = (w', evs, st) →
      ∀ name, good name → is_Some (wk_disk w !! name) → wk_disk w' !! name = None →
      name ∈ exported (log ++ evs) ∨ ∃ settled, Quarantined name settled ∈ evs.
Proof.
  intros Hr. pose proof (drain_reach_ok _ _ _ _ _ Hr) as Hok.
  pose proof Hok as [[C1 C2 C3 _ _] Hg _]. split_and!; [done| |done|done|].
  - intros n. destruct (C3 n) as (k & Hk & _). by exists k.
  - intros a w' evs st E n Hn [f Hd] Hd'. destruct (proj2 (drain_spec _ _ _ _ _ _ Hok E) n Hn) as [Eq|[_ ?]]; [congruence|done].
Qed.

(** A quarantine that fails after the rename leaves the sequences of the file unexplained: it is
    off the spool, and no loss is retained for it. *)
Lemma quarantine_unexplained a name docs w observe_fails :
  da_corrupt a name = (false, false, true, observe_fails) → good name → is_Some (wk_disk w !! name) →
  wk_disk (quarantine_file a name docs w).1.1 !! name = None
  ∧ wk_emitter (quarantine_file a name docs w).1.1 = wk_emitter w ∧ (quarantine_file a name docs w).2 = false.
Proof.
  intros Ha Hg [f Hd]. unfold quarantine_file, quarantine, rename. rewrite Ha. cbn [orb]. rewrite Hd, decide_True by done.
  cbn [negb fst snd wk_disk wk_emitter].
  split_and!; [|done|done]. rewrite lookup_insert_ne by (intros E; by apply (good_ne_corrupt name name)). by rewrite lookup_delete_eq.
Qed.
End theorems.

(** ** Examples *)

(** Two batch files, one of which holds something else. *)
Definition demo_bytes (name : string) : string := if decide (name = "b.rec") then "junk" else concat_bytes demo_pieces.
Definition demo_retire : string → retire_answer := λ _, mk_retire_answer false false false false 9 false.
Definition demo_drain (bodies : nat → send_answer) (export : bool) : drain_answer :=
  mk_drain_answer true demo_retire demo_retire false false (λ _, mk_scan_answer false false false) (λ _, Present)
    (λ _, (false, false, false, false)) (λ _, bodies) export.

Definition demo_work : Work :=
  mk_work new_drain new_emitter (<["a.rec" := mk_file 1 400 5]> (<["b.rec" := mk_file 2 4 5]> ∅)) (init_spool 7 4096 8 0).

(** The first drain is told to try a body again, the second delivers. *)
Definition next_work (a : drain_answer) (p : Work * list event) : Work * list event :=
  let '(w, evs, _) := @drain no_float_texts no_float_ints None demo_bytes a p.1 in (w, p.2 ++ evs).
Definition demo_one : Work * list event :=
  next_work (demo_drain (λ i, if decide (i = 0%nat) then Accepted else Retry) true) (demo_work, []).
Definition demo_two : Work * list event := next_work (demo_drain (λ _, Accepted) true) demo_one.

Lemma next_work_step a p : @drain_step no_float_texts no_float_ints None demo_bytes p (next_work a p).
Proof.
  destruct p as [w log]. unfold next_work. simpl. destruct (drain _ _ _ _) as [[w' evs] st] eqn:E. by econstructor.
Qed.

Lemma demo_drain_reach : rtc (@drain_step no_float_texts no_float_ints None demo_bytes) (demo_work, []) demo_two.
Proof.
  eapply rtc_l; [exact (next_work_step (demo_drain (λ i, if decide (i = 0%nat) then Accepted else Retry) true) (demo_work, []))|].
  apply rtc_once. exact (next_work_step (demo_drain (λ _, Accepted) true) demo_one).
Qed.

Lemma delivered_once_witness :
  exported demo_two.2 = ["a.rec"] ∧ finals "a.rec" demo_two.2 = [0; 1]%nat
  ∧ ("a.rec" ∈ dn_retiring (wk_drain demo_two.1) ∨ wk_disk demo_two.1 !! "a.rec" = None).
Proof.
  assert (exported demo_two.2 = ["a.rec"]) as E by (vm_compute; reflexivity).
  assert (rtc (@drain_step no_float_texts no_float_ints None demo_bytes) (demo_work, []) (demo_two.1, demo_two.2)) as Hr.
  { rewrite <-(surjective_pairing demo_two). exact demo_drain_reach. }
  destruct (@delivered_once no_float_texts no_float_ints None demo_bytes _ _ _ _ _ Hr) as (_ & _ & _ & Hg & _).
  split_and!; [exact E|vm_compute; reflexivity|].
  apply Hg. rewrite E. left.
Defined.
