(* ===== verification/SenderFinish.v ===== *)
(** * Drains finish

    When nothing fails, the drains of a sender ([fabric/wire/_sender.py]) take every record off
    the spool: after more drains than there are records to deliver, each was exported or
    quarantined, or is left to the process that has its key. *)

From stdpp Require Import gmap relations.
From S2P Require Import Prelude PyDict Hash Json JsonRead JsonValues Ids Markers MarkerForm LossTable SpoolHeader SpoolFrame SpoolEntries Spool SpoolNames SpoolCharges SenderDrain.

Section finish.
Context `{FloatText} `{FloatInt} (key : option (Cipher * string)) (bytes : string → string).

(** ** Drains that meet no failure *)

(** What a drain meets when nothing fails: a body may be rejected, a file may be corrupt or
    sealed under another key. *)
Record favourable (a : drain_answer) : Prop := mk_favourable {
  fv_retire n : da_retire a n = mk_retire_answer false false false false (t_now (da_retire a n)) (t_observe_fails (da_retire a n));
  fv_retire' n : da_retire' a n = mk_retire_answer false false false false (t_now (da_retire' a n)) (t_observe_fails (da_retire' a n));
  fv_sync : da_sync_fails a = false ∧ da_sync_fails' a = false;
  fv_read n : da_read a n = Present;
  fv_corrupt n : ∃ observe_fails, da_corrupt a n = (false, false, false, observe_fails);
  fv_bodies n i : da_bodies a n i ≠ Retry;
  fv_export : da_export a = true;
}.

Definition no_failures (answer : string → retire_answer) : Prop :=
  ∀ n, answer n = mk_retire_answer false false false false (t_now (answer n)) (t_observe_fails (answer n)).

Lemma retire_each_fine answer names d s : no_failures answer → (retire_each names (answer <$> names) d s).2 = true.
Proof.
  intros Ha. revert d s. induction names as [|n names IH]; intros d s; [done|]. csimpl. cbn [retire_each].
  assert ((retire_one (answer n) n d s).1.2 = true) as Hok.
  { rewrite Ha. unfold retire_one. destruct (claim_retiring _ _) as [o own]. unfold retire_file, truncate. simpl. destruct own; [done|].
    unfold rename. simpl. destruct (d !! n); [|by destruct (d !! ack_of n)]. by rewrite lookup_insert_eq. }
  destruct (retire_one _ _ _ _) as [[[d1 s1] ok] how]. cbn [fst snd] in Hok. subst ok. specialize (IH d1 s1).
  by destruct (retire_each _ _ _ _) as [[[d2 s2] done] fine].
Qed.

Lemma retire_delivered_fine retire scan w : no_failures retire → (retire_delivered retire false scan w).2 = true.
Proof.
  intros Ha. unfold retire_delivered, retire_many. pose proof (retire_each_fine retire (dn_retiring (wk_drain w)) (wk_disk w) (wk_spool w) Ha) as Hf.
  destruct (retire_each _ _ _ _) as [[[d s] done] fine]. cbn [snd] in Hf. subst fine. rewrite orb_true_r.
  by destruct (trim _ _ _).
Qed.

Lemma retire_delivered_steady retire sync scan w : steady (wk_spool w) (wk_spool (retire_delivered retire sync scan w).1.1).
Proof.
  unfold retire_delivered. set (l := dn_retiring (wk_drain w)).
  pose proof (retire_many_steady l (retire <$> l) sync scan (wk_disk w) (wk_spool w)) as Hs.
  by destruct (retire_many _ _ _ _ _ _) as [[[d s] k] fine].
Qed.

Lemma retire_delivered_sealed retire sync scan w :
  dn_sealed (wk_drain (retire_delivered retire sync scan w).1.1) = dn_sealed (wk_drain w).
Proof. unfold retire_delivered. by destruct (retire_many _ _ _ _ _ _) as [[[d s] k] fine]. Qed.

Lemma send_from_fine content_client answers name index bodies blob t :
  (∀ n i, answers n i ≠ Retry) → (send_from content_client answers name index bodies blob t).2 = true.
Proof.
  intros Ha. revert index t. induction bodies as [|body bodies IH]; intros index t; [done|]. cbn [send_from].
  destruct (_ <? _)%nat; [apply IH|]. set (a := if content_client then _ else Rejected).
  assert (a ≠ Retry) as Hne by (unfold a; destruct content_client; [apply Ha|done]). clearbody a.
  set (t1 := set_progress _ _). specialize (IH (S index) t1).
  destruct (send_from _ _ _ _ _ _ t1) as [[t2 evs] ok]. cbn [snd] in IH. subst ok. by destruct a.
Qed.

Lemma send_records_fine content_client answers name base records t :
  (∀ n i, answers n i ≠ Retry) → (send_records content_client answers name base records t).2 = true.
Proof.
  intros Ha. revert base t. induction records as [|[doc blob] records IH]; intros base t; [done|]. cbn [send_records].
  destruct (with_bodies doc); [|apply IH]. pose proof (send_from_fine content_client answers name base (body_list doc) blob t Ha) as Hs.
  destruct (send_from _ _ _ _ _ _ _) as [[t1 evs] ok]. cbn [snd] in Hs. subst ok. specialize (IH (base + length (body_list doc))%nat t1).
  by destruct (send_records _ _ _ _ _ _) as [[t2 evs2] ok].
Qed.

Lemma send_from_sealed content_client answers name index bodies blob t :
  dn_sealed (send_from content_client answers name index bodies blob t).1.1 = dn_sealed t.
Proof.
  revert index t. induction bodies as [|body bodies IH]; intros index t; [done|]. cbn [send_from].
  destruct (_ <? _)%nat; [apply IH|]. set (a := if content_client then _ else Rejected). set (t1 := set_progress _ _).
  specialize (IH (S index) t1). destruct (send_from _ _ _ _ _ _ t1) as [[t2 evs] ok]. by destruct a.
Qed.

Lemma send_records_sealed content_client answers name base records t :
  dn_sealed (send_records content_client answers name base records t).1.1 = dn_sealed t.
Proof.
  revert base t. induction records as [|[doc blob] records IH]; intros base t; [done|]. cbn [send_records].
  destruct (with_bodies doc); [|apply IH]. pose proof (send_from_sealed content_client answers name base (body_list doc) blob t) as Hs.
  destruct (send_from _ _ _ _ _ _ _) as [[t1 evs] ok]. cbn [fst] in Hs. destruct ok; [|done].
  specialize (IH (base + length (body_list doc))%nat t1). destruct (send_records _ _ _ _ _ _) as [[t2 evs2] ok]. cbn [fst] in *. congruence.
Qed.

(** A name that a drain is done with. *)
Definition handled (w : Work) (batch : list string) (name : string) : Prop :=
  name ∈ batch ∨ wk_disk w !! name = None ∨ name ∈ dn_sealed (wk_drain w).

Lemma quarantine_file_fine a name docs w :
  favourable a → good name → is_Some (wk_disk w !! name) →
  ∃ w1 evs, quarantine_file a name docs w = (w1, evs, true) ∧ wk_disk w1 !! name = None
    ∧ dn_sealed (wk_drain w1) = dn_sealed (wk_drain w) ∧ steady (wk_spool w) (wk_spool w1)
    ∧ ∀ n, good n → n ≠ name → wk_disk w1 !! n = wk_disk w !! n.
Proof.
  intros Ha Hg [f Hd]. unfold quarantine_file. destruct (fv_corrupt _ Ha name) as [obs ->].
  pose proof (quarantine_steady false false false obs name (wk_disk w) (wk_spool w)) as Hs.
  pose proof (quarantine_fewer false false false obs name (wk_disk w) (wk_spool w)) as Hf. revert Hs Hf.
  unfold quarantine, rename. cbn [orb]. rewrite Hd. rewrite decide_True by done. cbn [negb fst snd]. intros Hs Hf.
  eexists _, _. split; [reflexivity|]. cbn [wk_disk wk_drain wk_spool]. split_and!; [|done|done|].
  - rewrite lookup_insert_ne by (intros E; by apply (good_ne_corrupt name name)). by rewrite lookup_delete_eq.
  - intros n Hn Hne. destruct (Hf n Hn) as [?|[_ ?]]; done.
Qed.

Lemma drain_files_fine a names spans w w' evs batch st :
  favourable a → NoDup names → (∀ n, n ∈ names → good n ∧ is_Some (wk_disk w !! n)) →
  drain_files key bytes a names spans w = (w', evs, batch, st) →
  st = idle ∧ dn_sealed (wk_drain w) ⊆ dn_sealed (wk_drain w') ∧ steady (wk_spool w) (wk_spool w')
  ∧ (∀ n, good n → n ∉ names → wk_disk w' !! n = wk_disk w !! n)
  ∧ ((spans < EXPORT_SPANS)%nat → ∀ n, head names = Some n → handled w' batch.*1 n).
Proof.
  intros Ha. revert spans w w' evs batch st. induction names as [|name names IH]; intros spans w w' evs batch st Hnd Hn E; cbn [drain_files] in E.
  { injection E as <- <- <- <-. split_and!; [done|done|reflexivity|done|done]. }
  apply NoDup_cons in Hnd as [Hname Hnd].
  assert (∀ n, n ∈ names → good n ∧ is_Some (wk_disk w !! n)) as Hns by (intros n Hin; apply Hn; by right).
  destruct (Nat.leb_spec EXPORT_SPANS spans) as [Hge|Hlt].
  { injection E as <- <- <- <-. split_and!; [done|done|reflexivity|done|lia]. }
  rewrite (fv_read _ Ha) in E. destruct (read_records (bytes name) name key) as [records|e].
  - pose proof (send_records_fine (da_content a) (da_bodies a) name 0 records (wk_drain w) (fv_bodies _ Ha)) as Hok.
    pose proof (send_records_sealed (da_content a) (da_bodies a) name 0 records (wk_drain w)) as Hse.
    destruct (send_records _ _ _ _ _ _) as [[t evs1] ok]. cbn [fst snd] in Hok, Hse. subst ok.
    destruct (drain_files _ _ _ _ _ _) as [[[w2 evs2] batch2] st2] eqn:E2. injection E as <- <- <- <-.
    apply IH in E2 as (-> & Hs & Hst & Hd & _); [|done|done]. cbn [with_drain wk_drain wk_spool wk_disk] in *. rewrite Hse in Hs.
    split_and!; [done|done|done| |].
    + intros n Hg [_ Hin]%not_elem_of_cons. by apply Hd.
    + intros _ n [= <-]. left. left.
  - assert (∀ docs, (let '(w, evs, ok) := quarantine_file a name docs w in
       if ok : bool then let '(w, evs', batch, st) := drain_files key bytes a names spans w in (w, evs ++ evs', batch, st)
       else (w, evs, [], raised)) = (w', evs, batch, st) →
       st = idle ∧ dn_sealed (wk_drain w) ⊆ dn_sealed (wk_drain w') ∧ steady (wk_spool w) (wk_spool w')
       ∧ (∀ n, good n → n ∉ name :: names → wk_disk w' !! n = wk_disk w !! n)
       ∧ ((spans < EXPORT_SPANS)%nat → ∀ n, head (name :: names) = Some n → handled w' batch.*1 n)) as Hq.
    { intros docs E1. destruct (Hn name ltac:(left)) as [Hg Hd].
      destruct (quarantine_file_fine a name docs w Ha Hg Hd) as (w1 & evs1 & Eq & Hgone & Hse & Hst & Hrest). rewrite Eq in E1.
      destruct (drain_files _ _ _ _ _ w1) as [[[w2 evs2] batch2] st2] eqn:E2. injection E1 as <- <- <- <-.
      apply IH in E2 as (-> & Hs & Hst2 & Hd2 & _); [|done|].
      - split_and!; [done|by rewrite <-Hse|by etrans| |].
        + intros n Hgn [Hne Hin]%not_elem_of_cons. by rewrite Hd2, Hrest.
        + intros _ n [= <-]. right. left. by rewrite Hd2.
      - intros n Hin. destruct (Hns n Hin) as [Hgn Hsome]. rewrite Hrest; [done|done|]. intros ->. done. }
    destruct e as [docs|docs|]; [by apply (Hq docs)|by apply (Hq docs)|].
    apply IH in E as (-> & Hs & Hst & Hd & _); [|done|done]. cbn [with_drain wk_drain wk_spool wk_disk] in *.
    assert (dn_sealed (wk_drain w) ⊆ dn_sealed (leave_sealed name (wk_drain w)) ∧ name ∈ dn_sealed (leave_sealed name (wk_drain w))) as [H1 H2].
    { unfold leave_sealed. case_decide; [done|]. simpl. set_solver. }
    split_and!; [done|by etrans|done| |].
    + intros n Hg [_ Hin]%not_elem_of_cons. by apply Hd.
    + intros _ n [= <-]. right. right. by apply Hs.
Qed.

Definition unwritten (w : Work) : Prop := c_writing (sp_charges (wk_spool w)) = ∅.

Lemma unwritten_steady w w' : steady (wk_spool w) (wk_spool w') → unwritten w → unwritten w'.
Proof. unfold unwritten. intros (_ & _ & Hs) Hw. rewrite Hw in Hs. set_solver. Qed.

Lemma elem_of_deliverable w n :
  unwritten w → n ∈ deliverable w ↔ good n ∧ is_Some (wk_disk w !! n) ∧ n ∉ dn_sealed (wk_drain w).
Proof.
  intros Hw. unfold deliverable. rewrite list_elem_of_filter. split.
  - intros [Hs [Hg Hd]%names_spec]. done.
  - intros (Hg & [f Hd] & Hs). split; [done|]. unfold names, sort_str. rewrite elem_of_py_sort, list_elem_of_filter. rewrite Hw.
    split; [destruct Hg; split_and!; [done|done|set_solver]|]. apply list_elem_of_fmap. exists (n, f). split; [done|].
    by apply elem_of_map_to_list.
Qed.

(** What is deliverable after a change that only takes records away. *)
Lemma deliverable_shrinks lost w w' :
  unwritten w → unwritten w' → fewer lost (wk_disk w) (wk_disk w') → dn_sealed (wk_drain w) ⊆ dn_sealed (wk_drain w') →
  deliverable w' ⊆ deliverable w.
Proof.
  intros Hw Hw' Hf Hs n. rewrite !elem_of_deliverable by done. intros (Hg & Hd & Hn). split_and!; [done| |set_solver].
  destruct (Hf n Hg) as [<- |[Hnone _]]; [done|]. rewrite Hnone in Hd. by destruct Hd.
Qed.

Lemma deliverable_nodup w : NoDup (deliverable w).
Proof. apply NoDup_filter, names_nodup. Qed.

Lemma shorter w w' : deliverable w' ⊆ deliverable w → (length (deliverable w') ≤ length (deliverable w))%nat.
Proof. intros Hs. apply submseteq_length, NoDup_submseteq; [apply deliverable_nodup|]. apply Hs. Qed.

Lemma strictly_shorter w w' x :
  deliverable w' ⊆ deliverable w → x ∈ deliverable w → x ∉ deliverable w' → (length (deliverable w') < length (deliverable w))%nat.
Proof.
  intros Hs Hx Hx'. assert (x :: deliverable w' ⊆+ deliverable w) as Hsub.
  { apply NoDup_submseteq; [by constructor; [|apply deliverable_nodup]|]. intros y [-> |Hy]%elem_of_cons; [done|by apply Hs]. }
  apply submseteq_length in Hsub. simpl in Hsub. lia.
Qed.

Lemma delivered_sealed batch t : dn_sealed (delivered batch t) = dn_sealed t.
Proof. unfold delivered. revert t. induction batch as [|[name docs] batch IH]; intros t; [done|]. simpl. by rewrite IH. Qed.

(** The end of a drain: what was exported is retired. *)
Lemma drain_end_fine a w log batch w' evs ok :
  sender_ok key bytes w log → favourable a → dn_retiring (wk_drain w) = [] → NoDup batch.*1 →
  (∀ n, n ∈ batch.*1 → n ∉ exported log ∧ good n) →
  (∀ n docs, (n, docs) ∈ batch → ready key bytes (wk_drain w) n docs) →
  retire_delivered (da_retire' a) (da_sync_fails' a) (da_scan a) (with_drain (delivered batch (wk_drain w)) w) = (w', evs, ok) →
  ok = true ∧ dn_retiring (wk_drain w') = [] ∧ steady (wk_spool w) (wk_spool w') ∧ dn_sealed (wk_drain w') = dn_sealed (wk_drain w)
  ∧ ∀ n, good n → handled w batch.*1 n → handled w' [] n.
Proof.
  intros Hok Ha Hr Hnd Hnew Hready E. set (w0 := with_drain _ _) in E. rewrite (proj2 (fv_sync _ Ha)) in E.
  pose proof (retire_delivered_fine (da_retire' a) (da_scan a) w0 (fv_retire' _ Ha)) as Hfine. rewrite E in Hfine. cbn [snd] in Hfine. 
  pose proof (retire_delivered_steady (da_retire' a) false (da_scan a) w0) as Hst. rewrite E in Hst.
  pose proof (retire_delivered_sealed (da_retire' a) false (da_scan a) w0) as Hse. rewrite E in Hse. cbn [fst] in Hst, Hse.
  assert (dn_retiring (delivered batch (wk_drain w)) = batch.*1) as Hr0.
  { rewrite (proj1 (delivered_spec batch (wk_drain w) ltac:(by rewrite Hr))). by rewrite Hr. }
  pose proof Hok as [Hcore Hgone Hgood].
  assert (core key bytes (wk_drain w0) (log ++ [Exported batch true])) as Hcore0 by (by apply core_exported).
  assert (∀ n, n ∈ exported (log ++ [Exported batch true]) → good n) as Hgood0.
  { intros n. rewrite exported_app, exported_one, elem_of_app. intros [?|?]; [by apply Hgood|by apply Hnew]. }
  assert (gone (wk_drain w0) (wk_disk w0) (log ++ [Exported batch true])) as Hgone0.
  { intros n. rewrite exported_app, exported_one, elem_of_app. unfold w0. cbn [with_drain wk_drain wk_disk]. rewrite Hr0.
    intros [Hn|Hn]; [|by left]. destruct (Hgone n Hn) as [Hx|?]; [rewrite Hr in Hx; by apply elem_of_nil in Hx|by right]. }
  destruct (retire_delivered_spec _ _ _ _ _ _ _ _ _ _ Hcore0 Hgone0 Hgood0 E) as (_ & Hgone1 & _ & Hf & Hr1).
  specialize (Hr1 Hfine). split_and!; [done|done|done|by rewrite Hse; apply delivered_sealed|].
  intros n Hg [Hin|[Hnone|Hs]].
  - right. left. destruct (Hgone1 n) as [Hx|?]; [rewrite exported_app, exported_one; apply elem_of_app; by right| |done].
    rewrite Hr1 in Hx. by apply elem_of_nil in Hx.
  - right. left. destruct (Hf n Hg) as [-> |[? _]]; done.
  - right. right. rewrite Hse. unfold w0. cbn [with_drain wk_drain]. by rewrite delivered_sealed.
Qed.

Lemma head_firstn {A} (k : nat) (l : list A) x : head (firstn (S k) l) = Some x ↔ head l = Some x.
Proof. by destruct l. Qed.

(** One drain: it never has to try again, and it is done with one name at least. *)
Lemma drain_fine a w log w' evs st :
  sender_ok key bytes w log → unwritten w → favourable a → drain key bytes a w = (w', evs, st) →
  unwritten w' ∧ dn_retiring (wk_drain w') = [] ∧ dn_sealed (wk_drain w) ⊆ dn_sealed (wk_drain w')
  ∧ (deliverable w = [] → st = idle) ∧ (deliverable w ≠ [] → (length (deliverable w') < length (deliverable w))%nat).
Proof.
  intros Hok Hw Ha E. destruct (drain_spec _ _ _ _ _ _ _ _ Hok E) as [Hok' Hf]. unfold drain in E.
  rewrite (proj1 (fv_sync _ Ha)) in E.
  pose proof (retire_delivered_fine (da_retire a) (da_scan a) w (fv_retire _ Ha)) as Hfine.
  pose proof (retire_delivered_steady (da_retire a) false (da_scan a) w) as Hst0.
  pose proof (retire_delivered_sealed (da_retire a) false (da_scan a) w) as Hse0.
  destruct (retire_delivered _ _ _ w) as [[w0 evs0] ok0] eqn:E0. cbn [fst snd] in *. subst ok0. cbn [negb] in E.
  destruct (drain_start_spec _ _ _ _ _ _ _ _ _ _ Hok E0) as (Hok0 & _ & Hf0 & Hr0). specialize (Hr0 eq_refl).
  pose proof (unwritten_steady _ _ Hst0 Hw) as Hw0.
  assert (deliverable w0 ⊆ deliverable w) as Hd0 by (by eapply deliverable_shrinks; [..|rewrite Hse0]).
  destruct (ready_files _ _ _ _ Hok0 Hr0) as [HL Hnew].
  pose proof (head_firstn 63 (deliverable w0)) as Hhead. change 64%nat with DRAIN_BATCH in Hhead.
  set (L := firstn DRAIN_BATCH _) in *.
  destruct (drain_files _ _ _ _ _ _) as [[[w1 evs1] batch] st1] eqn:E1.
  destruct (drain_files_fine _ _ _ _ _ _ _ _ Ha HL (λ n Hn, proj2 (Hnew n Hn)) E1) as (-> & Hse1 & Hst1 & _ & Hhandled).
  assert (L = [] → w1 = w0 ∧ batch = []) as HL0 by (intros Hnil; rewrite Hnil in E1; by injection E1 as <- <- <-).
  pose proof (drain_files_spec _ _ _ _ _ _ _ _ _ _ _ (so_core _ _ _ _ Hok0) HL (λ n Hn, proj1 (Hnew n Hn)) E1) as D.
  pose proof (drained_ok _ _ _ _ _ _ _ _ Hok0 D) as Hok1. pose proof (unwritten_steady _ _ Hst1 Hw0) as Hw1.
  destruct D as [_ D2 D3 _ D5 D6 _].
  assert (unwritten w' ∧ dn_retiring (wk_drain w') = [] ∧ dn_sealed (wk_drain w) ⊆ dn_sealed (wk_drain w')
    ∧ st = (if decide (L = []) then idle else more) ∧ (L = [] → w' = w0) ∧ ∀ n, head L = Some n → good n → handled w' [] n) as (Hw' & Hr' & Hse' & Hst & Hempty & Hh).
  { rewrite decide_False in E by done. destruct (decide (batch = [])) as [-> |Hne].
    - injection E as <- <- <-. split_and!; [done|congruence|by rewrite <-Hse0|done|by intros []%HL0|]. intros n Hn _. by apply Hhandled; [unfold EXPORT_SPANS; lia|].
    - rewrite (fv_export _ Ha) in E. cbn [negb] in E. destruct (retire_delivered _ _ _ _) as [[w2 evs2] ok2] eqn:E2. injection E as <- <- <-.
      apply (drain_end_fine _ _ _ _ _ _ _ Hok1 Ha) in E2 as (-> & Hr2 & Hst2 & Hse2 & Hh2);
        [|congruence|by eapply sublist_NoDup|intros n Hn; by apply (elem_of_sublist _ _ _ Hn) in D5; rewrite exported_app, D2, app_nil_r; apply Hnew in D5 as (? & ? & _)|done].
      split_and!; [by eapply unwritten_steady|done|by rewrite Hse2, <-Hse0|done|by intros [_ ?]%HL0|].
      intros n Hn Hg. apply Hh2; [done|]. by apply Hhandled; [unfold EXPORT_SPANS; lia|]. }
  assert (deliverable w' ⊆ deliverable w) as Hd' by (by eapply deliverable_shrinks).
  split_and!; [done|done|done| |].
  - intros Hnil. rewrite Hnil in Hd0. rewrite Hst. apply decide_True. unfold L. by rewrite (list_nil_subseteq _ Hd0).
  - intros Hne. destruct (deliverable w0) as [|x l] eqn:Ed.
    + rewrite Hempty, Ed by done. destruct (deliverable w); [done|]. simpl. lia.
    + apply (strictly_shorter w w' x Hd'); [apply Hd0; left|]. intros Hx. apply (elem_of_deliverable w' x Hw') in Hx as (Hg & [f Hd] & Hs).
      destruct (Hh x) as [Hx|[Hx|Hx]]; [by apply Hhead|done|by apply elem_of_nil in Hx|congruence|done].
Qed.

(** Drains one after the other; the last one's state. *)
Fixpoint run_drains (answers : list drain_answer) (st : state) (w : Work) : Work * list event * state :=
  match answers with
  | [] => (w, [], st)
  | a :: answers =>
      let '(w, evs, st) := drain key bytes a w in
      let '(w, evs', st) := run_drains answers st w in (w, evs ++ evs', st)
  end.

Lemma run_drains_fine answers st w log w' evs st' :
  sender_ok key bytes w log → unwritten w → Forall favourable answers → run_drains answers st w = (w', evs, st') →
  unwritten w' ∧ dn_sealed (wk_drain w) ⊆ dn_sealed (wk_drain w')
  ∧ fewer (λ n, n ∈ exported (log ++ evs) ∨ ∃ b, Quarantined n b ∈ evs) (wk_disk w) (wk_disk w')
  ∧ (answers ≠ [] → dn_retiring (wk_drain w') = [])
  ∧ (length (deliverable w') ≤ length (deliverable w) - length answers)%nat
  ∧ ((length (deliverable w) < length answers)%nat → st' = idle).
Proof.
  revert st w log w' evs st'. induction answers as [|a answers IH]; intros st w log w' evs st' Hok Hw Ha E; simpl in E.
  { injection E as <- <- <-. split_and!; [done|done|apply fewer_refl|done|simpl; lia|simpl; lia]. }
  apply Forall_cons in Ha as [Ha Has]. destruct (drain key bytes a w) as [[w1 evs1] st1] eqn:E1.
  destruct (drain_spec _ _ _ _ _ _ _ _ Hok E1) as [Hok1 Hf1].
  destruct (drain_fine _ _ _ _ _ _ Hok Hw Ha E1) as (Hw1 & Hr1 & Hs1 & Hidle & Hless).
  destruct (run_drains answers st1 w1) as [[w2 evs2] st2] eqn:E2. injection E as <- <- <-.
  destruct (IH _ _ _ _ _ _ Hok1 Hw1 Has E2) as (Hw2 & Hs2 & Hf2 & Hr2 & Hlen & Hst).
  assert (length (deliverable w1) ≤ length (deliverable w) - 1)%nat as Hlen1.
  { destruct (deliverable w) as [|x l] eqn:Ed; [|specialize (Hless ltac:(done)); lia].
    simpl. apply Nat.le_0_r, length_zero_iff_nil, list_nil_subseteq. rewrite <-Ed. by eapply deliverable_shrinks. }
  split_and!; [done|by etrans| | |simpl; lia|].
  - rewrite app_assoc. eapply fewer_trans, Hf2; [| |exact Hf1].
    + intros n [Hn|[b Hb]]; [left; rewrite exported_app; apply elem_of_app; by left|right; exists b; apply elem_of_app; by left].
    + intros n [Hn|[b Hb]]; [by left|right; exists b; apply elem_of_app; by right].
  - intros _. destruct answers as [|a' answers']; [|by apply Hr2]. simpl in E2. by injection E2 as <- <- <-.
  - simpl. intros Hlt. destruct answers as [|a' answers']; [|apply Hst; simpl in *; lia]. simpl in *. injection E2 as <- <- <-.
    apply Hidle. destruct (deliverable w); [done|simpl in Hlt; lia].
Qed.

(** C37: Draining ends. From any state a sender can be in, when nothing fails, no write of its
    process is in flight and no one interferes: after more drains than there are records to
    deliver, the last one finds nothing to do, nothing waits for its retirement, and every
    record that was on disk was exported, or quarantined because it cannot be read, or is
    known to be sealed under another key. *)
Theorem drains_finish answers st e d s w log w' evs st' :
  rtc (drain_step key bytes) (mk_work new_drain e d s, []) (w, log) →
  unwritten w → Forall favourable answers → (length (deliverable w) < length answers)%nat →
  run_drains answers st w = (w', evs, st') →
  st' = idle ∧ deliverable w' = [] ∧ dn_retiring (wk_drain w') = []
  ∧ ∀ name, good name → is_Some (wk_disk w !! name) →
      name ∈ exported (log ++ evs) ∨ (∃ settled, Quarantined name settled ∈ evs) ∨ name ∈ dn_sealed (wk_drain w').
Proof.
  intros Hr Hw Ha Hlen E. pose proof (drain_reach_ok _ _ _ _ _ _ _ Hr) as Hok.
  destruct (run_drains_fine _ _ _ _ _ _ _ Hok Hw Ha E) as (Hw' & _ & Hf & Hret & Hlen' & Hst).
  assert (deliverable w' = []) as Hnil by (apply length_zero_iff_nil; lia).
  split_and!; [by apply Hst|done|by apply Hret; intros ->; simpl in Hlen; lia|]. intros n Hg Hd.
  destruct (decide (n ∈ dn_sealed (wk_drain w'))) as [|Hs]; [by right; right|].
  destruct (Hf n Hg) as [Heq|[_ [?|?]]]; [|by left|by right; left]. exfalso.
  assert (n ∈ deliverable w') as Hin by (apply elem_of_deliverable; [done|]; by rewrite Heq).
  rewrite Hnil in Hin. by apply elem_of_nil in Hin.
Qed.
End finish.

(** ** Examples *)

Lemma demo_favourable : favourable (demo_drain (λ _, Accepted) true).
Proof. split; try done. intros n. by exists false. Qed.

Definition demo_drains : list drain_answer := replicate 3 (demo_drain (λ _, Accepted) true).
Definition demo_end : Work * list event * state :=
  @run_drains no_float_texts no_float_ints None demo_bytes demo_drains idle demo_work.

Lemma drains_finish_witness : demo_end.2 = idle ∧ deliverable demo_end.1.1 = [] ∧ exported demo_end.1.2 = ["a.rec"].
Proof.
  destruct (@drains_finish no_float_texts no_float_ints None demo_bytes demo_drains idle new_emitter (wk_disk demo_work) (wk_spool demo_work)
    demo_work [] demo_end.1.1 demo_end.1.2 demo_end.2) as (E1 & E2 & _).
  - exact (rtc_refl _ (demo_work, [])).
  - vm_compute. reflexivity.
  - apply Forall_replicate, demo_favourable.
  - vm_compute. lia.
  - rewrite <-!surjective_pairing. reflexivity.
  - split_and!; [exact E1|exact E2|vm_compute; reflexivity].
Defined.
