(* ===== verification/RegistrationFile.v ===== *)
(** * The file of an epoch registration

    The 4,096 bytes of a registration ([encode], [decode] of [fabric/wire/_registration.py],
    spec 050 section 3.2): an immutable header under its SHA-256, the next sequence the
    allocator mirrors into it, the [final] flag - and the name the file has in its directory.
    [struct] integers are little-endian; the bytes are a list. *)

From stdpp Require Import gmap.
From S2P Require Import Prelude Hash Decimal Json Canonical JsonRead SpoolFrame Spool SpoolOrder.

Definition REG_SUFFIX : string := ".reg".
Definition ORPHAN_SUFFIX : string := ".orphan".
Definition CORRUPT_SUFFIX : string := ".corrupt".
Definition REG_SIZE : nat := Z.to_nat 4096.
Definition REG_MAGIC : string := "FWEPOCH1".
Definition REG_VERSION : Z := 1.
Definition OFF_MAGIC : nat := Z.to_nat 0.
Definition OFF_VERSION : nat := Z.to_nat 8.
Definition OFF_EPOCH : nat := Z.to_nat 12.
Definition OFF_PID : nat := Z.to_nat 20.
Definition OFF_REGISTERED_AT : nat := Z.to_nat 24.
Definition OFF_SOURCE_ID : nat := Z.to_nat 32.
Definition OFF_NEXT_SEQUENCE : nat := Z.to_nat 256.
Definition OFF_FINAL : nat := Z.to_nat 264.
Definition OFF_HEADER_SHA256 : nat := Z.to_nat 4064.
Definition HEADER_BYTES : nat := Z.to_nat 256.
Definition MAX_SOURCE_ID_BYTES : nat := Z.to_nat 160.
Definition EPOCH_DIGITS : nat := Z.to_nat 20.

(** ** Bytes *)

(** [data\[off : off + len(bytes)\] = bytes], [struct.pack_into] *)
Definition put (off : nat) (bytes data : list Z) : list Z :=
  firstn off data ++ bytes ++ skipn (off + length bytes) data.

(** [data\[off : off + n\]] *)
Definition get (off n : nat) (data : list Z) : list Z := firstn n (skipn off data).

(** A [struct] of [n] bytes; [None] where [struct.error] is raised. *)
Definition pack_le (n : nat) (z : Z) : option (list Z) :=
  if (0 <=? z) && (z <? 256 ^ Z.of_nat n) then Some (rev (be_bytes n z)) else None.
Definition unpack_le (n off : nat) (data : list Z) : Z := word_of_bytes (rev (get off n data)).

(** ** The file *)

Record Fields := mk_fields {
  fd_epoch : Z;
  fd_pid : Z;
  fd_registered_at : Z;
  fd_source_id : string;
  fd_next_sequence : Z;
  fd_final : bool;
}.

#[export] Instance Fields_eq_dec : EqDecision Fields.
Proof. solve_decision. Defined.

(** [encode]; [None] where it raises. A source id is given by its bytes. *)
Definition encode (epoch : Z) (source_id : string) (pid registered_at : Z) : option (list Z) :=
  let source := Hash.encode source_id in
  if negb ((0 <? epoch) && (epoch <? 2 ^ 63)) || (MAX_SOURCE_ID_BYTES <? length source)%nat then None
  else
    let data := replicate REG_SIZE 0 in
    let data := put OFF_MAGIC (Hash.encode REG_MAGIC) data in
    version ← pack_le 4 REG_VERSION;
    let data := put OFF_VERSION version data in
    epoch ← pack_le 8 epoch;
    let data := put OFF_EPOCH epoch data in
    pid ← pack_le 4 (Z.land pid (Z.ones 32));
    let data := put OFF_PID pid data in
    at_ ← pack_le 8 registered_at;
    let data := put OFF_REGISTERED_AT at_ data in
    n ← pack_le 2 (Z.of_nat (length source));
    let data := put OFF_SOURCE_ID n data in
    let data := put (OFF_SOURCE_ID + 2) source data in
    Some (put OFF_HEADER_SHA256 (sha256 (firstn HEADER_BYTES data)) data).

(** [decode] *)
Definition decode (data : list Z) : option Fields :=
  if negb (bool_decide (length data = REG_SIZE)) || negb (bool_decide (firstn 8 data = Hash.encode REG_MAGIC)) then None
  else if negb (bool_decide (sha256 (firstn HEADER_BYTES data) = skipn OFF_HEADER_SHA256 data)) then None
  else
    let length_ := unpack_le 2 OFF_SOURCE_ID data in
    if negb (unpack_le 4 OFF_VERSION data =? REG_VERSION) || (Z.of_nat MAX_SOURCE_ID_BYTES <? length_) then None
    else
      let source := decode_bytes (get (OFF_SOURCE_ID + 2) (Z.to_nat length_) data) in
      if utf8_valid source then
        Some (mk_fields (unpack_le 8 OFF_EPOCH data) (unpack_le 4 OFF_PID data) (unpack_le 8 OFF_REGISTERED_AT data) source
                (unpack_le 8 OFF_NEXT_SEQUENCE data) (negb (nth OFF_FINAL data 0 =? 0)))
      else None.

(** [Registration.mirror] and the byte [Registration.final] sets; a store that does not fit is
    suppressed. *)
Definition mirror_bytes (next_sequence : Z) (data : list Z) : list Z :=
  match pack_le 8 next_sequence with Some b => put OFF_NEXT_SEQUENCE b data | None => data end.
Definition final_bytes (data : list Z) : list Z := put OFF_FINAL [1] data.

(** [_name] *)
Definition reg_name (epoch : Z) (suffix : string) : string := zpad EPOCH_DIGITS epoch +:+ suffix.

(** [name.partition(".")], without the dot. *)
Fixpoint before_dot (s : string) : string * string :=
  match s with
  | "" => ("", "")
  | String c r => if decide (c = "."%char) then ("", s) else let '(a, b) := before_dot r in (String c a, b)
  end.

(** [_epoch_of]. [str.isdigit] also takes digits of other scripts; a name with them is not
    written by anyone, and is read here as one without an epoch. *)
Definition epoch_of (name : string) : option Z :=
  let '(stem, suffix) := before_dot name in
  if negb (bool_decide (suffix ∈ [REG_SUFFIX; ORPHAN_SUFFIX; CORRUPT_SUFFIX])) then None
  else if negb (bool_decide (String.length stem = EPOCH_DIGITS)) || negb (all_chars is_dec stem) then None
  else
    let epoch := dec_value stem in
    if (0 <? epoch) && (epoch <? 2 ^ 63) then Some epoch else None.

Ltac reg_offsets :=
  unfold REG_SIZE, OFF_MAGIC, OFF_VERSION, OFF_EPOCH, OFF_PID, OFF_REGISTERED_AT, OFF_SOURCE_ID, OFF_NEXT_SEQUENCE, OFF_FINAL,
    OFF_HEADER_SHA256, HEADER_BYTES, MAX_SOURCE_ID_BYTES in *.

(** ** Reading what was put *)

Lemma lookup_put off b data i :
  (off + length b ≤ length data)%nat →
  put off b data !! i = if decide (i < off)%nat then data !! i
    else if decide (i < off + length b)%nat then b !! (i - off)%nat else data !! i.
Proof.
  intros Hl. unfold put. assert (length (firstn off data) = off) as Hf by (rewrite length_firstn; lia).
  destruct (decide (i < off)%nat) as [H1|H1].
  - rewrite lookup_app_l by lia. by rewrite lookup_take_lt.
  - rewrite lookup_app_r by lia. rewrite Hf. destruct (decide (i < off + length b)%nat) as [H2|H2].
    + by rewrite lookup_app_l by lia.
    + rewrite lookup_app_r by lia. rewrite lookup_drop. f_equal. lia.
Qed.

Lemma length_put off b data : (off + length b ≤ length data)%nat → length (put off b data) = length data.
Proof. intros Hl. unfold put. rewrite !length_app, length_firstn, length_skipn. lia. Qed.

Lemma lookup_get off n data i : get off n data !! i = if decide (i < n)%nat then data !! (off + i)%nat else None.
Proof.
  unfold get. destruct (decide (i < n)%nat) as [Hi|Hi].
  - rewrite lookup_take_lt by done. apply lookup_drop.
  - apply lookup_take_ge. lia.
Qed.

Lemma get_put_eq off b data : (off + length b ≤ length data)%nat → get off (length b) (put off b data) = b.
Proof.
  intros Hl. apply list_eq. intros i. rewrite lookup_get. destruct (decide (i < length b)%nat) as [Hi|Hi].
  - rewrite lookup_put by done. rewrite decide_False, decide_True by lia. f_equal. lia.
  - symmetry. apply lookup_ge_None. lia.
Qed.

Lemma get_put_ne off b data o n :
  (off + length b ≤ length data)%nat → (o + n ≤ off)%nat ∨ (off + length b ≤ o)%nat → get o n (put off b data) = get o n data.
Proof.
  intros Hl Ho. apply list_eq. intros i. rewrite !lookup_get. case_decide; [|done]. rewrite lookup_put by done.
  repeat case_decide; [done|lia|done].
Qed.

Lemma firstn_get n (data : list Z) : firstn n data = get 0 n data.
Proof. done. Qed.

Lemma skipn_get (off : nat) (data : list Z) : skipn off data = get off (length data - off) data.
Proof. unfold get. rewrite firstn_all2; [done|]. rewrite length_skipn. lia. Qed.

Lemma pack_le_Some n z b : pack_le n z = Some b → length b = n ∧ 0 ≤ z < 256 ^ Z.of_nat n ∧ b = rev (be_bytes n z).
Proof.
  unfold pack_le. destruct (_ && _) eqn:E; [|done]. intros H. apply Some_inj in H as <-.
  rewrite length_rev, length_be_bytes. split_and!; [done|lia..|done].
Qed.

Lemma unpack_pack n z b : pack_le n z = Some b → word_of_bytes (rev b) = z.
Proof.
  intros (_ & Hz & ->)%pack_le_Some. rewrite rev_involutive, word_be_bytes. by apply Z.mod_small.
Qed.


(** The bytes of a registration with these fields. *)
Record layout (data : list Z) (f : Fields) : Prop := mk_layout {
  ly_length : length data = REG_SIZE;
  ly_magic : get OFF_MAGIC 8 data = Hash.encode REG_MAGIC;
  ly_digest : sha256 (get 0 HEADER_BYTES data) = get OFF_HEADER_SHA256 32 data;
  ly_version : unpack_le 4 OFF_VERSION data = REG_VERSION;
  ly_epoch : unpack_le 8 OFF_EPOCH data = fd_epoch f;
  ly_pid : unpack_le 4 OFF_PID data = fd_pid f;
  ly_at : unpack_le 8 OFF_REGISTERED_AT data = fd_registered_at f;
  ly_source_len : unpack_le 2 OFF_SOURCE_ID data = Z.of_nat (length (Hash.encode (fd_source_id f)));
  ly_source : get (OFF_SOURCE_ID + 2) (length (Hash.encode (fd_source_id f))) data = Hash.encode (fd_source_id f);
  ly_source_ok : (length (Hash.encode (fd_source_id f)) ≤ MAX_SOURCE_ID_BYTES)%nat ∧ utf8_valid (fd_source_id f) = true;
  ly_next : unpack_le 8 OFF_NEXT_SEQUENCE data = fd_next_sequence f;
  ly_final : negb (nth OFF_FINAL data 0 =? 0) = fd_final f;
}.

Lemma decode_layout data f : layout data f → decode data = Some f.
Proof.
  intros [L1 L2 L3 L4 L5 L6 L7 L8 L9 [L10 L11] L12 L13]. unfold decode.
  rewrite bool_decide_true by done. change (firstn 8 data) with (get OFF_MAGIC 8 data). rewrite bool_decide_true by done.
  assert (skipn OFF_HEADER_SHA256 data = get OFF_HEADER_SHA256 32 data) as Hs.
  { rewrite skipn_get, L1. f_equal. }
  change (firstn HEADER_BYTES data) with (get 0 HEADER_BYTES data). rewrite Hs, bool_decide_true by done. cbn [negb orb].
  rewrite L4, L8. assert (Z.of_nat MAX_SOURCE_ID_BYTES <? Z.of_nat (length (Hash.encode (fd_source_id f))) = false) as -> by (apply Z.ltb_ge; lia).
  rewrite Z.eqb_refl, Nat2Z.id, L9, decode_encode, L11, L5, L6, L7, L12, L13. by destruct f.
Qed.

(** What is stored behind the header leaves the header alone. *)
Lemma layout_put off b data f f' :
  (HEADER_BYTES ≤ off)%nat → (off + length b ≤ OFF_HEADER_SHA256)%nat → layout data f →
  fd_epoch f' = fd_epoch f → fd_pid f' = fd_pid f → fd_registered_at f' = fd_registered_at f → fd_source_id f' = fd_source_id f →
  unpack_le 8 OFF_NEXT_SEQUENCE (put off b data) = fd_next_sequence f' → negb (nth OFF_FINAL (put off b data) 0 =? 0) = fd_final f' →
  layout (put off b data) f'.
Proof.
  intros H1 H2 [L1 L2 L3 L4 L5 L6 L7 L8 L9 [L10 L11] L12 L13] E1 E2 E3 E4 E5 E6.
  assert (off + length b ≤ length data)%nat as Hl by (rewrite L1; reg_offsets; lia).
  assert (∀ o n, (o + n ≤ HEADER_BYTES)%nat → get o n (put off b data) = get o n data) as Hg by (intros o n Ho; apply get_put_ne; [done|left; lia]).
  assert (∀ n o, (o + n ≤ HEADER_BYTES)%nat → unpack_le n o (put off b data) = unpack_le n o data) as Hu by (intros n o Ho; unfold unpack_le; by rewrite Hg).
  split; rewrite ?E1, ?E2, ?E3, ?E4; [by rewrite length_put| | |rewrite Hu; [done|reg_offsets; lia]..| |done|done|done].
  - rewrite Hg; [done|reg_offsets; lia].
  - rewrite (get_put_ne _ _ _ OFF_HEADER_SHA256) by (first [done|right; reg_offsets; lia]). rewrite Hg; [done|lia].
  - rewrite Hg; [done|reg_offsets; lia].
Qed.

Lemma nth_put off b data i : (off + length b ≤ length data)%nat → (i < off)%nat ∨ (off + length b ≤ i)%nat →
  nth i (put off b data) 0 = nth i data 0.
Proof.
  intros Hl Hi. rewrite !nth_lookup, lookup_put by done. repeat case_decide; [done|lia|done].
Qed.

(** A store of the allocator. *)
Lemma layout_mirror data f n :
  layout data f → 0 ≤ n < 2 ^ 64 →
  layout (mirror_bytes n data) (mk_fields (fd_epoch f) (fd_pid f) (fd_registered_at f) (fd_source_id f) n (fd_final f)).
Proof.
  intros Hl Hn. unfold mirror_bytes. destruct (pack_le 8 n) as [b|] eqn:E.
  - destruct (pack_le_Some _ _ _ E) as (Hb & _). pose proof (ly_length _ _ Hl) as Hlen.
    apply (layout_put _ _ _ f); [reg_offsets; lia|reg_offsets; lia|done..| |].
    + unfold unpack_le. rewrite <-Hb at 1. rewrite get_put_eq by (rewrite Hlen; reg_offsets; lia). by apply unpack_pack in E.
    + rewrite nth_put by (rewrite ?Hlen; reg_offsets; lia). apply (ly_final _ _ Hl).
  - unfold pack_le in E. change (256 ^ Z.of_nat 8) with (2 ^ 64) in E.
    assert ((0 <=? n) && (n <? 2 ^ 64) = true) as H by lia. by rewrite H in E.
Qed.

(** The flag of a writer that is done. *)
Lemma layout_final data f :
  layout data f →
  layout (final_bytes data) (mk_fields (fd_epoch f) (fd_pid f) (fd_registered_at f) (fd_source_id f) (fd_next_sequence f) true).
Proof.
  intros Hl. pose proof (ly_length _ _ Hl) as Hlen. unfold final_bytes.
  assert (OFF_FINAL + length [1] ≤ length data)%nat as Hle by (rewrite Hlen; reg_offsets; simpl; lia).
  apply (layout_put _ _ _ f); [reg_offsets; lia|reg_offsets; simpl; lia|done..| |].
  - unfold unpack_le. rewrite get_put_ne by (first [done|left; reg_offsets; lia]). apply (ly_next _ _ Hl).
  - rewrite nth_lookup, lookup_put by done. rewrite decide_False by lia. rewrite decide_True by (cbn [length]; lia).
    by rewrite Nat.sub_diag.
Qed.

(** Several stores, and what they leave. *)
Definition puts (l : list (nat * list Z)) (data : list Z) : list Z := foldl (λ d p, put p.1 p.2 d) data l.

Definition inside (size : nat) (p : nat * list Z) : Prop := (p.1 + length p.2 ≤ size)%nat.
Definition apart (o n : nat) (p : nat * list Z) : Prop := (o + n ≤ p.1)%nat ∨ (p.1 + length p.2 ≤ o)%nat.

Lemma length_puts l data : Forall (inside (length data)) l → length (puts l data) = length data.
Proof.
  revert data. induction l as [|p l IH]; intros data; [done|]. intros [Hp Hl]%Forall_cons. simpl.
  assert (length (put p.1 p.2 data) = length data) as E by (by apply length_put).
  etrans; [|exact E]. apply IH. by rewrite E.
Qed.

Lemma get_puts_apart l data o n :
  Forall (inside (length data)) l → Forall (apart o n) l → get o n (puts l data) = get o n data.
Proof.
  revert data. induction l as [|p l IH]; intros data; [done|]. intros [Hp Hl]%Forall_cons [Ha Hs]%Forall_cons. simpl.
  assert (length (put p.1 p.2 data) = length data) as E by (by apply length_put). rewrite IH by (by rewrite ?E). by apply get_put_ne.
Qed.

Lemma get_puts l1 off b l2 data :
  Forall (inside (length data)) (l1 ++ (off, b) :: l2) → Forall (apart off (length b)) l2 →
  get off (length b) (puts (l1 ++ (off, b) :: l2) data) = b.
Proof.
  intros [H1 [Hb H2]%Forall_cons]%Forall_app Ha. unfold puts. rewrite foldl_app. simpl. fold (puts l1 data).
  pose proof (length_puts l1 data H1) as E. assert (length (put off b (puts l1 data)) = length data) as E2 by (by rewrite length_put; rewrite E).
  fold (puts l2 (put off b (puts l1 data))). rewrite get_puts_apart by (by rewrite ?E2). apply get_put_eq. by rewrite E.
Qed.

Ltac in_file := repeat (constructor; [unfold inside, apart; cbn [fst snd]; rewrite ?length_sha256; simpl length in *; reg_offsets; lia|]); try apply Forall_nil_2.

Lemma nth_get o data : nth o data 0 = nth 0 (get o 1 data) 0.
Proof. rewrite !nth_lookup, lookup_get, decide_True by lia. by rewrite Nat.add_0_r. Qed.

Lemma layout_encode epoch source pid at_ data :
  encode epoch source pid at_ = Some data → utf8_valid source = true →
  layout data (mk_fields epoch (Z.land pid (Z.ones 32)) at_ source 0 false).
Proof.
  unfold encode. intros E Hu. destruct (_ || _) eqn:Hr; [done|]. apply orb_false_iff in Hr as [_ Hlen%Nat.ltb_ge].
  destruct (pack_le 4 REG_VERSION) as [v|] eqn:Ev; [|done]. cbn [mbind option_bind] in E.
  destruct (pack_le 8 epoch) as [e|] eqn:Ee; [|done]. cbn [mbind option_bind] in E.
  destruct (pack_le 4 (Z.land pid (Z.ones 32))) as [q|] eqn:Eq; [|done]. cbn [mbind option_bind] in E.
  destruct (pack_le 8 at_) as [a|] eqn:Ea; [|done]. cbn [mbind option_bind] in E.
  destruct (pack_le 2 _) as [n|] eqn:En; [|done]. cbn [mbind option_bind] in E.
  set (segments := [(OFF_MAGIC, Hash.encode REG_MAGIC); (OFF_VERSION, v); (OFF_EPOCH, e); (OFF_PID, q); (OFF_REGISTERED_AT, a);
    (OFF_SOURCE_ID, n); ((OFF_SOURCE_ID + 2)%nat, Hash.encode source)]).
  remember (replicate REG_SIZE 0) as d0 eqn:Hd0 in E. remember (sha256 _) as digest eqn:Hdigest in E.
  assert (puts (segments ++ [(OFF_HEADER_SHA256, digest)]) d0 = data) as <- by (apply Some_inj in E; exact E).
  assert (length d0 = REG_SIZE) as L0 by (rewrite Hd0; apply length_replicate).
  destruct (pack_le_Some _ _ _ Ev) as [Lv _], (pack_le_Some _ _ _ Ee) as [Le _], (pack_le_Some _ _ _ Eq) as [Lq _],
    (pack_le_Some _ _ _ Ea) as [La _], (pack_le_Some _ _ _ En) as [Ln _].
  assert (length digest = 32%nat) as Ld by (rewrite Hdigest; apply length_sha256).
  assert (Forall (inside (length d0)) (segments ++ [(OFF_HEADER_SHA256, digest)])) as Hin.
  { rewrite L0. unfold segments. in_file. }
  assert (∀ k off b, (segments ++ [(OFF_HEADER_SHA256, digest)]) !! k = Some (off, b) →
    Forall (apart off (length b)) (skipn (S k) (segments ++ [(OFF_HEADER_SHA256, digest)])) →
    get off (length b) (puts (segments ++ [(OFF_HEADER_SHA256, digest)]) d0) = b) as Hget.
  { intros k off b Hk Ha. rewrite <-(take_drop_middle _ _ _ Hk) in Hin |- *. apply get_puts; [exact Hin|]. exact Ha. }
  assert (∀ k off b z w, (segments ++ [(OFF_HEADER_SHA256, digest)]) !! k = Some (off, b) → pack_le w z = Some b →
    Forall (apart off (length b)) (skipn (S k) (segments ++ [(OFF_HEADER_SHA256, digest)])) →
    unpack_le w off (puts (segments ++ [(OFF_HEADER_SHA256, digest)]) d0) = z) as Hint.
  { intros k off b z w Hk Hp Ha. unfold unpack_le. destruct (pack_le_Some _ _ _ Hp) as [<- _]. rewrite (Hget k) by done. by apply unpack_pack in Hp. }
  assert (∀ o n, Forall (apart o n) (segments ++ [(OFF_HEADER_SHA256, digest)]) →
    get o n (puts (segments ++ [(OFF_HEADER_SHA256, digest)]) d0) = get o n d0) as Hzero by (intros; by apply get_puts_apart).
  split; cbn [fd_epoch fd_pid fd_registered_at fd_source_id fd_next_sequence fd_final].
  - by rewrite length_puts, L0.
  - apply (Hget 0%nat OFF_MAGIC (Hash.encode REG_MAGIC) eq_refl). in_file.
  - assert (get OFF_HEADER_SHA256 (length digest) (puts (segments ++ [(OFF_HEADER_SHA256, digest)]) d0) = digest) as Hd by (apply (Hget 7%nat); [done|in_file]).
    rewrite Ld in Hd. rewrite Hd.
    unfold puts. rewrite foldl_app. cbn [foldl fst snd]. fold (puts segments d0). rewrite get_put_ne; [by rewrite Hdigest| |left; reg_offsets; lia].
    rewrite length_puts, L0, Ld; [reg_offsets; lia|]. by apply Forall_app in Hin as [? _].
  - apply (Hint 1%nat _ v); [done|done|in_file].
  - apply (Hint 2%nat _ e); [done|done|in_file].
  - apply (Hint 3%nat _ q); [done|done|in_file].
  - apply (Hint 4%nat _ a); [done|done|in_file].
  - apply (Hint 5%nat _ n); [done|done|in_file].
  - apply (Hget 6%nat _ (Hash.encode source)); [done|in_file].
  - done.
  - unfold unpack_le. rewrite Hzero by (in_file). rewrite Hd0. vm_compute. reflexivity.
  - rewrite nth_get, Hzero by (in_file). rewrite Hd0. vm_compute. reflexivity.
Qed.

(** C40: A registration reads back: whatever the process stores into its file - the next
    sequence, at any time, and the final flag at the end -, another process decodes the epoch,
    process id, time and source id it was created with, the sequence that was stored last, and
    whether it is final. *)
Theorem registration_roundtrip epoch source pid at_ data stored final :
  encode epoch source pid at_ = Some data → utf8_valid source = true → Forall (λ n, 0 ≤ n < 2 ^ 64) stored →
  let data := foldl (λ d n, mirror_bytes n d) data stored in
  decode (if final : bool then final_bytes data else data) =
    Some (mk_fields epoch (pid mod 2 ^ 32) at_ source (default 0 (last stored)) final).
Proof.
  intros E Hu Hs data'. assert (layout data' (mk_fields epoch (pid mod 2 ^ 32) at_ source (default 0 (last stored)) false)) as Hl.
  { rewrite <-Z.land_ones by lia. unfold data'. clear data'. induction stored as [|n stored IH] using rev_ind; [by apply layout_encode|].
    apply Forall_app in Hs as [Hs [Hn _]%Forall_cons]. rewrite foldl_app, last_snoc. by apply (layout_mirror _ _ n (IH Hs)). }
  apply decode_layout. destruct final; [by apply layout_final in Hl|done].
Qed.

(** ** Names *)

Lemma before_dot_digits s r : all_chars is_dec s = true → before_dot (s +:+ String "." r) = (s, String "." r).
Proof.
  induction s as [|c s IH]; [done|]. simpl. intros [Hc Hs]%andb_true_iff. rewrite decide_False; [|by intros ->].
  by rewrite IH.
Qed.

Definition reg_suffix (suffix : string) : Prop := suffix ∈ [REG_SUFFIX; ORPHAN_SUFFIX; CORRUPT_SUFFIX].

Lemma reg_suffix_dot suffix : reg_suffix suffix → ∃ r, suffix = String "." r.
Proof. unfold reg_suffix. rewrite !elem_of_cons. intros [-> |[-> |[-> |[]%elem_of_nil]]]; by eexists. Qed.

Lemma epoch_of_name epoch suffix : 0 < epoch < 2 ^ 63 → reg_suffix suffix → epoch_of (reg_name epoch suffix) = Some epoch.
Proof.
  intros He Hs. destruct (reg_suffix_dot _ Hs) as [r Hr]. unfold epoch_of, reg_name.
  assert (before_dot (zpad EPOCH_DIGITS epoch +:+ suffix) = (zpad EPOCH_DIGITS epoch, suffix)) as ->.
  { rewrite Hr. apply before_dot_digits, zpad_digits. lia. }
  assert (String.length (zpad EPOCH_DIGITS epoch) = EPOCH_DIGITS) as Hl.
  { apply zpad_length; [change (10 ^ Z.of_nat EPOCH_DIGITS) with (10 ^ 20); lia|unfold EPOCH_DIGITS; lia]. }
  rewrite bool_decide_true by exact Hs. rewrite bool_decide_true by exact Hl. rewrite zpad_digits, zpad_value by lia. cbn [negb orb].
  assert ((0 <? epoch) && (epoch <? 2 ^ 63) = true) as -> by lia. done.
Qed.

Lemma reg_name_inj epoch epoch' suffix suffix' :
  0 < epoch → 0 < epoch' → reg_suffix suffix → reg_suffix suffix' →
  reg_name epoch suffix = reg_name epoch' suffix' → epoch = epoch' ∧ suffix = suffix'.
Proof.
  intros He He' Hs Hs' E. assert (∀ x, reg_suffix x → first_is is_dec x = false) as Hd by (intros x [r ->]%reg_suffix_dot; done).
  apply (zpad_inj EPOCH_DIGITS); [lia|lia|by apply Hd|by apply Hd|exact E].
Qed.

(** ** Examples *)

Definition demo_reg : list Z := default [] (encode 77 "agent.1" 4242 1700000000000000000).

Lemma registration_roundtrip_witness :
  decode (final_bytes (mirror_bytes 3 (mirror_bytes 2 demo_reg))) = Some (mk_fields 77 4242 1700000000000000000 "agent.1" 3 true).
Proof.
  exact (registration_roundtrip 77 "agent.1" 4242 1700000000000000000 demo_reg [2; 3] true ltac:(vm_compute; reflexivity)
    ltac:(vm_compute; reflexivity) ltac:(repeat constructor; lia)).
Defined.
