(* ===== verification/Registrations.v ===== *)
(** * Epoch registrations

    The registrations of [fabric/wire/_registration.py] (spec 050 section 3.2): a writer creates
    a file for its epoch in the [.epochs] directory of the spool and keeps it locked; the
    drainer scans the directory and declares the epochs whose writer is gone without a final
    marker. The directory maps names to files, a file is known by its number, and a lock is held
    as long as a process keeps the descriptor of the registration open; a method gets whether
    a file is [locked] and what the system calls answer. A scan reads a file before it locks
    it, so the two are separate steps. The mode of the directory and the warning about
    file systems without locks are not modelled. *)

From stdpp Require Import gmap relations.
From S2P Require Import Prelude Hash Decimal Json Canonical JsonRead SpoolFrame Spool SpoolOrder RegistrationFile.

Definition MAX_REDRAWS : nat := 8.
Definition MAX_REGISTRATIONS : Z := 4096.
Definition MAX_DECLARED : nat := 64.

(** ** The directory *)

Record Node := mk_node { nd_data : list Z; nd_mtime : Z }.

Record Files := mk_files {
  fl_dir : gmap string Z;
  fl_nodes : gmap Z Node;
  fl_next : Z;   (** the number of the next file *)
}.

Definition set_dir (dir : gmap string Z) (w : Files) : Files := mk_files dir (fl_nodes w) (fl_next w).
Definition on_node (i : Z) (g : Node → Node) (w : Files) : Files := mk_files (fl_dir w) (alter g i (fl_nodes w)) (fl_next w).
Definition unlink_name (name : string) (w : Files) : Files := set_dir (delete name (fl_dir w)) w.
Definition node_data (i : Z) (w : Files) : list Z := match fl_nodes w !! i with Some n => nd_data n | None => [] end.

(** What a process keeps of its registration. *)
Inductive status := registered | failed | registration_full | unregistered_fork | unregistered_direct.

#[export] Instance status_eq_dec : EqDecision status.
Proof. solve_decision. Defined.

Record Registration := mk_registration {
  rg_status : status;
  rg_epoch : Z;
  rg_source_id : string;
  rg_reason : option string;
  rg_path : option string;
  rg_fd : option Z;      (** the file the descriptor and the map are of *)
  rg_owner : Z;
  rg_final : bool;
}.

Definition unregistered (st : status) (epoch : Z) (source_id : string) (reason : option string) : Registration :=
  mk_registration st epoch source_id reason None None 0 false.

(** ** Registering *)

(** How the creation of a file fares: it cannot be opened, or a later step fails when so many
    bytes are written, and removing the file may fail too. *)
Inductive file_answer :=
  | FileCreated
  | OpenFails
  | LaterFails (written : nat) (unlink_fails : bool).

Record create_answer := mk_create_answer {
  cr_list_fails : bool;
  cr_draws : list Z;               (** what [_new_epoch] draws *)
  cr_pid : Z;
  cr_time : Z → Z;
  cr_read_fails : string → bool;
  cr_file : file_answer;
}.

(** The epochs the names of the directory carry. *)
Definition taken (w : Files) : gset Z := list_to_set (omap epoch_of (map_to_list (fl_dir w)).*1).

(** [_clear_stale] *)
Definition clear_stale (locked : Z → bool) (a : create_answer) (path : string) (w : Files) : Files :=
  match fl_dir w !! path with
  | Some i =>
      if negb (endswith REG_SUFFIX path) || cr_read_fails a path || locked i then w
      else match decode (node_data i w) with
           | Some f => if fd_final f then unlink_name path w else w
           | None => w
           end
  | None => w
  end.

Inductive created := Made (r : Registration) | Exists_ | CreateRaises.

(** [_new_file] *)
Definition new_file (a : create_answer) (path : string) (epoch : Z) (source_id : string) (data : list Z) (w : Files) : Files * created :=
  match cr_file a with
  | OpenFails => (w, CreateRaises)
  | _ =>
      if decide (is_Some (fl_dir w !! path)) then (w, Exists_)
      else
        let i := fl_next w in
        match cr_file a with
        | LaterFails written unlink_fails =>
            let w := mk_files (if unlink_fails then <[path := i]> (fl_dir w) else fl_dir w)
                       (<[i := mk_node (firstn written data) (cr_time a epoch)]> (fl_nodes w)) (i + 1) in
            (w, CreateRaises)
        | _ =>
            (mk_files (<[path := i]> (fl_dir w)) (<[i := mk_node data (cr_time a epoch)]> (fl_nodes w)) (i + 1),
             Made (mk_registration registered epoch source_id None (Some path) (Some i) (cr_pid a) false))
        end
  end.

(** The attempts of [_create]: the epoch, then the draws. *)
Fixpoint attempts (locked : Z → bool) (a : create_answer) (taken : gset Z) (source_id : string) (epochs : list Z) (w : Files)
    : Files * option Registration :=
  match epochs with
  | [] => (w, Some (unregistered failed 0 source_id (Some "redraws_exhausted")))
  | epoch :: epochs =>
      let path := reg_name epoch REG_SUFFIX in
      if decide (epoch ∈ taken) then attempts locked a taken source_id epochs (clear_stale locked a path w)
      else match encode epoch source_id (cr_pid a) (cr_time a epoch) with
           | None => (w, None)
           | Some data =>
               let '(w, c) := new_file a path epoch source_id data w in
               match c with
               | Made r => (w, Some r)
               | Exists_ => attempts locked a taken source_id epochs w
               | CreateRaises => (w, None)
               end
           end
  end.

Definition with_epoch (epoch : Z) (r : Registration) : Registration :=
  mk_registration (rg_status r) epoch (rg_source_id r) (rg_reason r) (rg_path r) (rg_fd r) (rg_owner r) (rg_final r).

(** [_create]; [None] where it raises. A failure after the last draw names that draw. *)
Definition create (locked : Z → bool) (a : create_answer) (source_id : string) (epoch : Z) (w : Files) : Files * option Registration :=
  if cr_list_fails a then (w, None)
  else if MAX_REGISTRATIONS <=? Z.of_nat (size (taken w))
  then (w, Some (unregistered registration_full epoch source_id (Some "registration_full")))
  else
    let epochs := epoch :: firstn MAX_REDRAWS (cr_draws a) in
    let '(w, r) := attempts locked a (taken w) source_id epochs w in
    (w, (λ r, if decide (rg_status r = failed) then with_epoch (default epoch (last epochs)) r else r) <$> r).

(** ** The writer's side *)

(** [Registration.mirror] *)
Definition mirror (next_sequence : Z) (r : Registration) (w : Files) : Files :=
  match rg_fd r with
  | Some i => on_node i (λ n, mk_node (mirror_bytes next_sequence (nd_data n)) (nd_mtime n)) w
  | None => w
  end.

(** [Registration.final]; [pid] is the calling process. *)
Definition final (pid : Z) (r : Registration) (w : Files) : Files * Registration :=
  match rg_fd r with
  | Some i =>
      if rg_owner r =? pid then
        (on_node i (λ n, mk_node (final_bytes (nd_data n)) (nd_mtime n)) w,
         mk_registration (rg_status r) (rg_epoch r) (rg_source_id r) (rg_reason r) (rg_path r) (rg_fd r) (rg_owner r) true)
      else (w, r)
  | None => (w, r)
  end.

(** [_release]: the lock goes with the descriptor. *)
Definition release (r : Registration) : Registration :=
  mk_registration (rg_status r) (rg_epoch r) (rg_source_id r) (rg_reason r) (rg_path r) None (rg_owner r) (rg_final r).

(** [_drop_inherited] *)
Definition drop_inherited (r : Registration) : Registration :=
  match rg_fd r with
  | Some _ => mk_registration unregistered_fork (rg_epoch r) (rg_source_id r) None (rg_path r) None (rg_owner r) (rg_final r)
  | None => r
  end.

(** [_unlink_declared]: only the own file. *)
Definition unlink_declared (fails : bool) (r : Registration) (w : Files) : Files :=
  let declared := reg_name (rg_epoch r) ORPHAN_SUFFIX in
  match rg_path r, rg_fd r with
  | Some _, Some i => if negb fails && bool_decide (fl_dir w !! declared = Some i) then unlink_name declared w else w
  | _, _ => w
  end.

(** [close]; the allocator forgets the registration first ([Sequence.unbind_registration]). *)
Definition close (pid : Z) (unlink_fails declared_fails : bool) (r : Registration) (w : Files) : Files * Registration :=
  if negb (rg_owner r =? pid) then (w, drop_inherited r)
  else
    let w := match rg_path r, rg_fd r with
             | Some path, Some _ =>
                 if negb (rg_final r) || unlink_fails then w
                 else match fl_dir w !! path with
                      | Some _ => unlink_name path w
                      | None => unlink_declared declared_fails r w
                      end
             | _, _ => w
             end in
    (w, release r).

(** What binding the registration to the allocator of the source comes to
    ([Sequence.bind_registration]): there is none, it refuses, or it adopts the epoch and stores
    its next sequence into the map. *)
Inductive bind_answer := NoAllocator | Refused | Bound (stored : option Z).

Inductive admission := AdmissionTimesOut | AdmissionFails | AdmissionOpen.

(** [register] on a spool *)
Definition register (locked : Z → bool) (entered : admission) (a : create_answer) (bind : Registration → bind_answer)
    (unlink_fails declared_fails : bool) (source_id : string) (epoch : Z) (w : Files) : Files * Registration :=
  match entered with
  | AdmissionTimesOut => (w, unregistered failed epoch source_id (Some "admission_timeout"))
  | AdmissionFails => (w, unregistered failed epoch source_id (Some "io_error"))
  | AdmissionOpen =>
      let '(w, created) := create locked a source_id epoch w in
      match created with
      | None => (w, unregistered failed epoch source_id (Some "io_error"))
      | Some r =>
          if decide (rg_status r = registered) then
            match bind r with
            | NoAllocator | Bound None => (w, r)
            | Bound (Some n) => (mirror n r w, r)
            | Refused =>
                let r := mk_registration (rg_status r) (rg_epoch r) (rg_source_id r) (rg_reason r) (rg_path r) (rg_fd r) (rg_owner r) true in
                ((close (cr_pid a) unlink_fails declared_fails r w).1, unregistered failed epoch source_id (Some "epoch_in_use"))
            end
          else (w, r)
      end
  end.

(** ** The drainer's side *)

Record Orphan := mk_orphan { or_source_id : string; or_epoch : Z; or_next_sequence : Z }.

#[export] Instance Orphan_eq_dec : EqDecision Orphan.
Proof. solve_decision. Defined.

(** [Orphan.beat]: the source, the epoch and the last allocated sequence. *)
Definition beat (o : Orphan) : option (string * Z * Z) :=
  if or_next_sequence o <=? 0 then None else Some (or_source_id o, or_epoch o, or_next_sequence o - 1).

(** The names a scan looks at; [held] is what [_held_here] gives. *)
Definition scan_names (held : gset Z) (w : Files) : list (string * Z) :=
  omap (λ name, if endswith REG_SUFFIX name then
                  match epoch_of name with Some e => if decide (e ∈ held) then None else Some (name, e) | None => None end
                else None)
    (sort_str (map_to_list (fl_dir w)).*1).

(** What the calls of a scan on one file meet. *)
Record scan_file_answer := mk_scan_file_answer { sf_unlink_fails : bool; sf_rename_fails : bool; sf_utime_fails : bool; sf_now : Z }.

(** One file of [_scan] once it was read: [i] is the file that was opened, [data] what was read. *)
Definition scan_file (locked : Z → bool) (a : scan_file_answer) (name : string) (epoch i : Z) (data : list Z) (w : Files)
    : Files * option Orphan :=
  if locked i then (w, None)
  else
    let own := match decode data with Some f => if fd_epoch f =? epoch then Some f else None | None => None end in
    if match own with Some f => fd_final f | None => false end
    then (if sf_unlink_fails a then w else unlink_name name w, None)
    else
      match fl_dir w !! name with
      | Some j =>
          if sf_rename_fails a then (w, None)
          else
            let target := reg_name epoch (if own then ORPHAN_SUFFIX else CORRUPT_SUFFIX) in
            let w := set_dir (<[target := j]> (delete name (fl_dir w))) w in
            if sf_utime_fails a then (w, None)
            else (on_node j (λ n, mk_node (nd_data n) (sf_now a)) w, (λ f, mk_orphan (fd_source_id f) epoch (fd_next_sequence f)) <$> own)
      | None => (w, None)
      end.

(** [_scan], when nothing happens between the reading and the locking of a file. *)
Definition scan_step (locked : Z → bool) (read_fails : string → bool) (a : string → scan_file_answer)
    (st : Files * list Orphan) (p : string * Z) : Files * list Orphan :=
  let '(w, found) := st in
  match fl_dir w !! p.1 with
  | Some i =>
      if read_fails p.1 then (w, found)
      else let '(w, o) := scan_file locked (a p.1) p.1 p.2 i (node_data i w) w in (w, found ++ option_list o)
  | None => (w, found)
  end.

Definition scan (locked : Z → bool) (held : gset Z) (read_fails : string → bool) (a : string → scan_file_answer) (w : Files)
    : Files * list Orphan :=
  foldl (scan_step locked read_fails a) (w, []) (scan_names held w).

(** [declared_orphans] *)
Definition declared_orphans (read_fails : string → bool) (w : Files) : list Orphan :=
  omap (λ name,
    match epoch_of name, fl_dir w !! name with
    | Some e, Some i =>
        if endswith ORPHAN_SUFFIX name && negb (read_fails name)
        then (λ f, mk_orphan (fd_source_id f) e (fd_next_sequence f)) <$> decode (node_data i w) else None
    | _, _ => None
    end) (sort_str (map_to_list (fl_dir w)).*1).

(** [unsealed_prior_epochs] *)
Definition unsealed_prior_epochs (w : Files) : list Z * Z :=
  let epochs := py_sort Z.leb (omap (λ name, if endswith ORPHAN_SUFFIX name || endswith CORRUPT_SUFFIX name then epoch_of name else None)
                                 (map_to_list (fl_dir w)).*1) in
  (firstn MAX_DECLARED epochs, Z.of_nat (length epochs)).

(** [retire_orphan]; times in seconds. *)
Definition retire_one (deadline now : Z) (st : Files * bool) (suffix : string) (epoch : Z) (fails : bool) : Files * bool :=
  let '(w, removed) := st in
  let path := reg_name epoch suffix in
  match fl_dir w !! path with
  | Some i =>
      if fails then (w, removed)
      else if deadline <=? now - match fl_nodes w !! i with Some n => nd_mtime n | None => 0 end
      then (unlink_name path w, true) else (w, removed)
  | None => (w, removed)
  end.

Definition retire_orphan (deadline now epoch : Z) (orphan_fails corrupt_fails : bool) (w : Files) : Files * bool :=
  let '(w, removed) := retire_one deadline now (w, false) ORPHAN_SUFFIX epoch orphan_fails in
  if orphan_fails && bool_decide (is_Some (fl_dir w !! reg_name epoch ORPHAN_SUFFIX)) then (w, removed)
  else retire_one deadline now (w, removed) CORRUPT_SUFFIX epoch corrupt_fails.
