(* ===== verification/Orphans.v ===== *)
(** * Orphaned epochs

    The registrations of [Registrations.v] over whole executions: writers that register, store
    their sequence, set the final flag, close, fork and die, and drainers that scan, in any
    interleaving, on a file system that enforces its locks. A live writer's epoch is never
    declared, no registration is declared twice, and what is declared is what the file held
    when the scan read it. *)

From stdpp Require Import gmap relations.
From S2P Require Import Prelude Hash Decimal Json Canonical JsonRead SpoolFrame Spool SpoolNames SpoolOrder RegistrationFile Registrations.

Inductive event :=
  | Created (pid i epoch : Z) (source_id : string)
  | Stored (i next_sequence : Z)
  | Finalized (i : Z)
  | ReadFile (i : Z)
  | Declared (i : Z) (o : Orphan).

(** A scan: it holds the admission lock, knows the epochs of its own process, and may have read
    a file it has not dealt with: its name, its epoch, the file and the bytes. *)
Record Scan := mk_scan { sc_pid : Z; sc_held : gset Z; sc_read : option (string * Z * Z * list Z) }.

(** The directory, the open descriptors - by process and file -, the scan that runs, and what
    happened. *)
Record System := mk_system {
  sy_files : Files;
  sy_held : gmap (Z * Z) Registration;
  sy_scan : option Scan;
  sy_log : list event;
}.

Definition start : System := mk_system (mk_files ∅ ∅ 0) ∅ None [].

(** A file is locked as long as some process has its descriptor open. *)
Definition locked_by (held : gmap (Z * Z) Registration) (i : Z) : bool := existsb (λ k, k.2 =? i) (map_to_list held).*1.

(** [_held_here] *)
Definition held_here (pid : Z) (held : gmap (Z * Z) Registration) : gset Z :=
  list_to_set (omap (λ p, if (p.1.1 =? pid) && (rg_owner p.2 =? pid) then Some (rg_epoch p.2) else None) (map_to_list held)).

(** What registering leaves in the process, and what is known to have happened. *)
Definition keep (pid : Z) (r : Registration) (held : gmap (Z * Z) Registration) : gmap (Z * Z) Registration :=
  match rg_fd r with Some i => <[(pid, i) := r]> held | None => held end.
Definition register_events (bind : bind_answer) (r : Registration) : list event :=
  match rg_fd r with
  | Some i => Created (rg_owner r) i (rg_epoch r) (rg_source_id r) :: match bind with Bound (Some n) => [Stored i n] | _ => [] end
  | None => []
  end.

(** A sequence the mirror can hold. *)
Definition storable (n : Z) : Prop := 0 ≤ n < 2 ^ 64.

(** What a forked child inherits. *)
Definition inherited (parent child : Z) (held : gmap (Z * Z) Registration) : gmap (Z * Z) Registration :=
  list_to_map (omap (λ p, if p.1.1 =? parent then Some ((child, p.1.2), p.2) else None) (map_to_list held)).

Inductive reg_step : System → System → Prop :=
  (** [register], under the admission lock *)
  | Y_register pid entered a bind uf df source epoch w held log w' r :
      cr_pid a = pid → utf8_valid source = true → (∀ n, bind r = Bound (Some n) → storable n) →
      register (locked_by held) entered a bind uf df source epoch w = (w', r) →
      reg_step (mk_system w held None log) (mk_system w' (keep pid r held) None (log ++ register_events (bind r) r))
  | Y_store pid i n r w held sc log :
      held !! (pid, i) = Some r → storable n →
      reg_step (mk_system w held sc log) (mk_system (mirror n r w) held sc (log ++ [Stored i n]))
  | Y_final pid i r w held sc log w' r' :
      held !! (pid, i) = Some r → rg_owner r = pid → final pid r w = (w', r') →
      reg_step (mk_system w held sc log) (mk_system w' (<[(pid, i) := r']> held) sc (log ++ [Finalized i]))
  | Y_close pid i uf df r w held sc log w' r' :
      held !! (pid, i) = Some r → close pid uf df r w = (w', r') →
      reg_step (mk_system w held sc log) (mk_system w' (delete (pid, i) held) sc log)
  (** a process id is not given to a child while a registration names it *)
  | Y_fork parent child w held sc log :
      (∀ k r, held !! k = Some r → k.1 ≠ child ∧ rg_owner r ≠ child) →
      reg_step (mk_system w held sc log) (mk_system w (inherited parent child held ∪ held) sc log)
  | Y_die pid w held sc log :
      reg_step (mk_system w held sc log)
        (mk_system w (filter (λ p, p.1.1 ≠ pid) held) (match sc with Some x => if sc_pid x =? pid then None else sc | None => None end) log)
  (** [scan_orphans], under the admission lock *)
  | Y_scan pid w held log : reg_step (mk_system w held None log) (mk_system w held (Some (mk_scan pid (held_here pid held) None)) log)
  | Y_read x name epoch i w held log :
      endswith REG_SUFFIX name = true → epoch_of name = Some epoch → epoch ∉ sc_held x → fl_dir w !! name = Some i →
      reg_step (mk_system w held (Some x) log)
        (mk_system w held (Some (mk_scan (sc_pid x) (sc_held x) (Some (name, epoch, i, node_data i w)))) (log ++ [ReadFile i]))
  | Y_act x a name epoch i data w held log w' o :
      sc_read x = Some (name, epoch, i, data) → scan_file (locked_by held) a name epoch i data w = (w', o) →
      reg_step (mk_system w held (Some x) log)
        (mk_system w' held (Some (mk_scan (sc_pid x) (sc_held x) None)) (log ++ (Declared i <$> option_list o)))
  | Y_done x w held log : reg_step (mk_system w held (Some x) log) (mk_system w held None log)
  (** [retire_orphan], of the drainer *)
  | Y_retire deadline now epoch of_ cf w held sc log : 
      0 < epoch →
      reg_step (mk_system w held sc log) (mk_system (retire_orphan deadline now epoch of_ cf w).1 held sc log).

(** ** What the log says of a file *)

Definition stores (i : Z) (log : list event) : list Z := omap (λ ev, match ev with Stored j n => if decide (j = i) then Some n else None | _ => None end) log.
Definition declared (log : list event) : list Z := omap (λ ev, match ev with Declared i _ => Some i | _ => None end) log.
Definition last_stored (i : Z) (log : list event) : Z := default 0 (last (stores i log)).
Definition no_read (log : list event) : Prop := ∀ i, ReadFile i ∉ log.

(** The file an event is about. *)
Definition about (ev : event) : Z :=
  match ev with Created _ i _ _ => i | Stored i _ => i | Finalized i => i | ReadFile i => i | Declared i _ => i end.

Lemma stores_app i l k : stores i (l ++ k) = stores i l ++ stores i k.
Proof. apply omap_app. Qed.
Lemma declared_app l k : declared (l ++ k) = declared l ++ declared k.
Proof. apply omap_app. Qed.
Lemma elem_of_declared i log : i ∈ declared log ↔ ∃ o, Declared i o ∈ log.
Proof.
  unfold declared. rewrite list_elem_of_omap. split.
  - intros (ev & Hev & E). destruct ev; try done. apply Some_inj in E as ->. eauto.
  - intros [o Ho]. by exists (Declared i o).
Qed.

Lemma stores_old i log : (∀ ev, ev ∈ log → about ev < i) → stores i log = [].
Proof.
  induction log as [|ev log IH]; intros H; [done|]. assert (about ev < i) as Ha by (apply H; left).
  change (ev :: log) with ([ev] ++ log). rewrite stores_app, IH by (intros; apply H; by right).
  destruct ev; try done. simpl in Ha. unfold stores. simpl. by rewrite decide_False by lia.
Qed.

(** The last reading before the end of a log is where it is. *)
Lemma last_read_unique l1 i l2 l1' i' l2' :
  l1 ++ ReadFile i :: l2 = l1' ++ ReadFile i' :: l2' → no_read l2 → no_read l2' → l1 = l1' ∧ i = i'.
Proof.
  intros E H H'. apply app_cons_inv in E as [(r & -> & ->)|(r & -> & E)].
  - exfalso. apply (H' i). apply elem_of_app. right. left.
  - destruct r as [|ev r]; simpl in E.
    + injection E as E _. rewrite app_nil_r. by subst.
    + injection E as _ ->. exfalso. apply (H i'). apply elem_of_app. right. left.
Qed.

(** What a log says of a declaration, by the reading before it. *)
Definition exact (log : list event) : Prop :=
  ∀ l1 l2 l3 i o, log = l1 ++ ReadFile i :: l2 ++ Declared i o :: l3 → no_read l2 →
    or_next_sequence o = last_stored i l1 ∧ Finalized i ∉ l1.

Lemma exact_nil : exact [].
Proof. intros [|? ?] l2 l3 i o E; discriminate. Qed.

Lemma exact_snoc log ev :
  exact log →
  (∀ i o l1 l2, ev = Declared i o → log = l1 ++ ReadFile i :: l2 → no_read l2 → or_next_sequence o = last_stored i l1 ∧ Finalized i ∉ l1) →
  exact (log ++ [ev]).
Proof.
  intros He Hev l1 l2 l3 i o E Hr. destruct l3 as [|x l3 _] using rev_ind.
  - assert (log ++ [ev] = (l1 ++ ReadFile i :: l2) ++ [Declared i o]) as E' by (rewrite E, <-app_assoc; done).
    apply app_inj_tail in E' as [-> ->]. by apply (Hev i o l1 l2).
  - apply (He l1 l2 l3); [|done].
    assert (log ++ [ev] = (l1 ++ ReadFile i :: l2 ++ Declared i o :: l3) ++ [x]) as E'
      by (rewrite E, <-!app_assoc; simpl; by rewrite <-app_assoc).
    by apply app_inj_tail in E' as [-> _].
Qed.

(** ** The invariant *)

(** A file holds a registration with what was stored into it, or does not decode. *)
Definition node_ok (log : list event) (i : Z) (n : Node) : Prop :=
  (decode (nd_data n) = None ∧ ∀ p e s, Created p i e s ∉ log)
  ∨ ∃ f, layout (nd_data n) f ∧ fd_next_sequence f = last_stored i log ∧ (fd_final f = true ↔ Finalized i ∈ log)
      ∧ ∀ p e s, Created p i e s ∈ log → e = fd_epoch f ∧ s = fd_source_id f.

(** A descriptor a process holds. *)
Record held_ok (w : Files) (p i : Z) (r : Registration) : Prop := mk_held_ok {
  ho_fd : rg_fd r = Some i;
  ho_epoch : 0 < rg_epoch r < 2 ^ 63;
  ho_path : rg_path r = Some (reg_name (rg_epoch r) REG_SUFFIX);
  ho_layout : ∃ n f, fl_nodes w !! i = Some n ∧ layout (nd_data n) f;
  ho_there : rg_owner r = p → fl_dir w !! reg_name (rg_epoch r) REG_SUFFIX = Some i;
}.

(** What a scan has read, and when. *)
Definition read_ok (w : Files) (log : list event) (held : gset Z) (rd : string * Z * Z * list Z) : Prop :=
  let '(name, epoch, i, data) := rd in
  endswith REG_SUFFIX name = true ∧ 0 < epoch < 2 ^ 63 ∧ (fl_dir w !! name = Some i ∨ fl_dir w !! name = None)
  ∧ ∃ l1 l2, log = l1 ++ ReadFile i :: l2 ∧ no_read l2
    ∧ ∀ f, decode data = Some f → fd_next_sequence f = last_stored i l1 ∧ (fd_final f = true ↔ Finalized i ∈ l1)
        ∧ ∀ p e s, Created p i e s ∈ log → e = fd_epoch f ∧ s = fd_source_id f.

Record reg_ok (y : System) : Prop := mk_reg_ok {
  ro_next i : (∃ name, fl_dir (sy_files y) !! name = Some i) ∨ is_Some (fl_nodes (sy_files y) !! i) → i < fl_next (sy_files y);
  ro_log ev : ev ∈ sy_log y → about ev < fl_next (sy_files y);
  ro_inj name name' i : fl_dir (sy_files y) !! name = Some i → fl_dir (sy_files y) !! name' = Some i → name = name';
  ro_nodes i n : fl_nodes (sy_files y) !! i = Some n → node_ok (sy_log y) i n;
  ro_there name i : fl_dir (sy_files y) !! name = Some i → is_Some (fl_nodes (sy_files y) !! i);
  ro_held p i r : sy_held y !! (p, i) = Some r → held_ok (sy_files y) p i r;
  ro_owner p q i r r' : sy_held y !! (p, i) = Some r → sy_held y !! (q, i) = Some r' → rg_owner r = rg_owner r';
  ro_scan x rd : sy_scan y = Some x → sc_read x = Some rd → read_ok (sy_files y) (sy_log y) (sc_held x) rd;
  ro_declared i p r : i ∈ declared (sy_log y) → sy_held y !! (p, i) ≠ Some r;
  ro_names i name : i ∈ declared (sy_log y) → fl_dir (sy_files y) !! name = Some i → endswith REG_SUFFIX name = false;
  ro_once : NoDup (declared (sy_log y));
  ro_exact : exact (sy_log y);
  ro_created i o p e s : Declared i o ∈ sy_log y → Created p i e s ∈ sy_log y → or_epoch o = e ∧ or_source_id o = s;
}.

Lemma locked_by_spec held i : locked_by held i = true ↔ ∃ p r, held !! (p, i) = Some r.
Proof.
  unfold locked_by. rewrite existsb_elem_of. split.
  - intros ([p j] & Hk & Hj). simpl in Hj. apply Z.eqb_eq in Hj as ->. apply list_elem_of_fmap in Hk as ([[p' i'] r] & [= -> ->] & Hm).
    apply elem_of_map_to_list in Hm. eauto.
  - intros (p & r & Hr). exists (p, i). split; [|simpl; lia]. apply list_elem_of_fmap. exists ((p, i), r). split; [done|].
    by apply elem_of_map_to_list.
Qed.

(** ** Changes of the directory *)

Lemma lookup_unlink name w n i : fl_dir (unlink_name name w) !! n = Some i → fl_dir w !! n = Some i ∧ n ≠ name.
Proof. simpl. intros [Hne H]%lookup_delete_Some. by split. Qed.

(** A name that no owner of a descriptor relies on goes away. *)
Lemma unlink_ok name w held sc log :
  (∀ i p r, fl_dir w !! name = Some i → held !! (p, i) = Some r → rg_owner r ≠ p) →
  reg_ok (mk_system w held sc log) → reg_ok (mk_system (unlink_name name w) held sc log).
Proof.
  intros Hown [R1 R2 R3 R4 R5 R6 R7 R8 R9 R10 R11 R12 R13]. split; cbn [sy_files sy_held sy_scan sy_log] in *; try done.
  - intros i [[n Hn]|Hn]; apply R1; [left; exists n; by apply lookup_unlink in Hn as [? _]|by right].
  - intros n n' i [? _]%lookup_unlink [? _]%lookup_unlink. by eapply R3.
  - intros n i [? _]%lookup_unlink. by apply (R5 n).
  - intros p i r Hr. destruct (R6 p i r Hr) as [H1 H2 H3 H4 H5]. split; [done..|]. intros Ho. specialize (H5 Ho).
    simpl. rewrite lookup_delete_ne; [done|]. intros E. rewrite <-E in H5. by apply (Hown i p r).
  - intros x [[[n e] i] data] Hx Hrd. destruct (R8 x _ Hx Hrd) as (H1 & H2 & H3 & H4). split; [done|]. split; [done|]. split; [|done].
    simpl. destruct (decide (name = n)) as [-> |Hne]; [right; apply lookup_delete_eq|by rewrite lookup_delete_ne].
  - intros i n Hi [? _]%lookup_unlink. by eapply R10.
Qed.

Lemma unlocked_unlink name w held sc log i :
  fl_dir w !! name = Some i → locked_by held i = false →
  reg_ok (mk_system w held sc log) → reg_ok (mk_system (unlink_name name w) held sc log).
Proof.
  intros Hi Hl. apply unlink_ok. intros j p r Hj Hr. rewrite Hi in Hj. injection Hj as <-. exfalso.
  assert (locked_by held i = true) as Ht by (apply locked_by_spec; eauto). congruence.
Qed.

(** A new file, under a name that is free. *)
Lemma fresh_ok (there : bool) path n w held log :
  fl_dir w !! path = None → (decode (nd_data n) = None ∨ ∃ f, layout (nd_data n) f ∧ fd_next_sequence f = 0 ∧ fd_final f = false) →
  reg_ok (mk_system w held None log) →
  reg_ok (mk_system (mk_files (if there then <[path := fl_next w]> (fl_dir w) else fl_dir w) (<[fl_next w := n]> (fl_nodes w)) (fl_next w + 1))
    held None log).
Proof.
  intros Hp Hn [R1 R2 R3 R4 R5 R6 R7 R8 R9 R10 R11 R12 R13]. cbn [sy_files sy_held sy_scan sy_log] in *.
  remember (fl_next w) as i eqn:Hi_. clear Hi_. set (dir := if there then _ else _).
  assert (∀ name j, dir !! name = Some j → fl_dir w !! name = Some j ∨ name = path ∧ j = i) as Hdir.
  { intros name j. unfold dir. destruct there; [|by left]. intros [[<- <-]|[_ ?]]%lookup_insert_Some; [by right|by left]. }
  assert (∀ name, fl_dir w !! name ≠ Some i) as Hfresh by (intros name H; assert (i < i) by (apply R1; left; eauto); lia).
  assert (∀ ev, ev ∈ log → about ev < i) as Hold by done.
  assert (∀ ev, ev ∈ log → about ev ≠ i) as Hne by (intros ev Hev E; specialize (Hold ev Hev); lia).
  split; cbn [sy_files sy_held sy_scan sy_log fl_dir fl_nodes fl_next]; try done.
  - intros j [[name Hj]|Hj].
    + apply Hdir in Hj as [Hj|[_ ->]]; [|lia]. assert (j < i) by (apply R1; left; eauto). lia.
    + destruct (decide (j = i)) as [-> |Hji]; [lia|]. rewrite lookup_insert_ne in Hj by done. assert (j < i) by (apply R1; by right). lia.
  - intros ev Hev. specialize (Hold ev Hev). lia.
  - intros name name' j Hj Hj'. apply Hdir in Hj as [Hj|[-> ->]], Hj' as [Hj'|[-> Hi]]; [by eapply R3|by subst j; apply Hfresh in Hj|by apply Hfresh in Hj'|done].
  - intros j m [[<- <-]|[_ Hj]]%lookup_insert_Some; [|by apply R4]. destruct Hn as [Hd|(f & Hf & Hz & Hb)].
    + left. split; [done|]. intros p e s Hc. by apply Hne in Hc.
    + right. exists f. unfold last_stored. rewrite stores_old by done. split_and!; [done|done| |].
      * rewrite Hb. split; [done|]. intros Hc. by apply Hne in Hc.
      * intros p e s Hc. by apply Hne in Hc.
  - intros name j Hj. destruct (decide (j = i)) as [-> |Hji]; [by rewrite lookup_insert_eq|]. rewrite lookup_insert_ne by done.
    apply Hdir in Hj as [Hj|[_ ->]]; [by eapply R5|done].
  - intros p j r Hr. destruct (R6 p j r Hr) as [H1 H2 H3 (m & f & Hm & Hf) H5]. split; [done..| |].
    + exists m, f. split; [|done]. cbn [fl_nodes]. rewrite lookup_insert_ne; [done|]. intros <-.
      assert (i < i) by (apply R1; right; eauto). lia.
    + intros Ho. specialize (H5 Ho). cbn [fl_dir]. unfold dir. destruct there; [|done]. rewrite lookup_insert_ne; [done|]. intros E. rewrite E in Hp. congruence.
  - intros j name Hj Hd. apply Hdir in Hd as [Hd|[-> ->]]; [by eapply R10|]. apply elem_of_declared in Hj as [o Ho]. by apply Hne in Ho.
Qed.

(** ** What is stored into a file *)

Definition neutral (ev : event) : Prop := match ev with ReadFile _ | Declared _ _ => True | _ => False end.

Lemma last_stored_snoc i log ev : (∀ n, ev ≠ Stored i n) → last_stored i (log ++ [ev]) = last_stored i log.
Proof.
  intros H. unfold last_stored. rewrite stores_app. assert (stores i [ev] = []) as ->; [|by rewrite app_nil_r].
  destruct ev as [|j n| | |]; try done. unfold stores. simpl. rewrite decide_False; [done|]. intros ->. by apply (H n).
Qed.

Lemma elem_of_snoc_ne {A} (x y : A) l : x ≠ y → x ∈ l ++ [y] ↔ x ∈ l.
Proof. intros H. rewrite elem_of_app, list_elem_of_singleton. tauto. Qed.

Lemma node_ok_snoc log i n ev : about ev ≠ i ∨ neutral ev → node_ok log i n → node_ok (log ++ [ev]) i n.
Proof.
  intros Hev Hn. assert (∀ p e s, Created p i e s ≠ ev) as H1 by (intros p e s <-; simpl in Hev; tauto).
  assert (∀ m, ev ≠ Stored i m) as H2 by (intros m ->; simpl in Hev; tauto).
  assert (Finalized i ≠ ev) as H3 by (intros <-; simpl in Hev; tauto).
  destruct Hn as [[Hd Hc]|(f & Hf & Hs & Hb & Hc)]; [left|right; exists f].
  - split; [done|]. intros p e s. rewrite elem_of_snoc_ne by done. apply Hc.
  - rewrite last_stored_snoc by done. rewrite elem_of_snoc_ne by done. split_and!; [done..|].
    intros p e s. rewrite elem_of_snoc_ne by done. apply Hc.
Qed.

Lemma read_ok_snoc w log h rd ev :
  (∀ i, ev ≠ ReadFile i) → (∀ p e s, ev ≠ Created p rd.1.2 e s) → read_ok w log h rd → read_ok w (log ++ [ev]) h rd.
Proof.
  destruct rd as [[[name epoch] i] data]. intros Hr Hc (H1 & H2 & H3 & l1 & l2 & -> & Hn & Hf).
  split; [done|]. split; [done|]. split; [done|]. exists l1, (l2 ++ [ev]). split; [by rewrite <-app_assoc|]. split.
  - intros j Hj. apply elem_of_app in Hj as [Hj|Hj]; [by apply (Hn j)|]. apply list_elem_of_singleton in Hj. by apply (Hr j).
  - intros f Hd. destruct (Hf f Hd) as (F1 & F2 & F3). split_and!; [done..|]. intros p e s. rewrite elem_of_snoc_ne by (intros E; by apply (Hc p e s)).
    apply F3.
Qed.

Lemma read_ok_dir w w' log h rd : fl_dir w' = fl_dir w → read_ok w log h rd → read_ok w' log h rd.
Proof. destruct rd as [[[name epoch] i] data]. intros E. unfold read_ok. by rewrite E. Qed.

Lemma declared_snoc log ev : (∀ i o, ev ≠ Declared i o) → declared (log ++ [ev]) = declared log.
Proof.
  intros H. rewrite declared_app. assert (declared [ev] = []) as ->; [|apply app_nil_r]. destruct ev; try done. by destruct (H i o).
Qed.

(** A store into a file whose descriptor is open. *)
Lemma data_ok g i ev w held sc log p r :
  held !! (p, i) = Some r → (ev = Finalized i ∨ ∃ n, ev = Stored i n) →
  (∀ n f, layout (nd_data n) f → node_ok log i n → node_ok (log ++ [ev]) i (g n) ∧ ∃ f', layout (nd_data (g n)) f') →
  reg_ok (mk_system w held sc log) → reg_ok (mk_system (on_node i g w) held sc (log ++ [ev])).
Proof.
  intros Hr Hev Hg [R1 R2 R3 R4 R5 R6 R7 R8 R9 R10 R11 R12 R13]. cbn [sy_files sy_held sy_scan sy_log] in *.
  destruct (ho_layout _ _ _ _ (R6 _ _ _ Hr)) as (n & f & Hn & Hf).
  assert (about ev = i) as Ha by (destruct Hev as [-> |[m ->]]; done).
  assert (∀ j o, ev ≠ Declared j o) as Hd by (intros j o ->; destruct Hev as [|[m ?]]; done).
  assert (∀ j, ev ≠ ReadFile j) as Hrd by (intros j ->; destruct Hev as [|[m ?]]; done).
  assert (∀ q j e s, ev ≠ Created q j e s) as Hcr by (intros q j e s ->; destruct Hev as [|[m ?]]; done).
  split; cbn [sy_files sy_held sy_scan sy_log on_node fl_dir fl_nodes fl_next]; rewrite ?declared_snoc by done; try done.
  - intros j [Hj|Hj]; apply R1; [by left|right]. by apply lookup_alter_is_Some in Hj.
  - intros x Hx. apply elem_of_app in Hx as [Hx| ->%list_elem_of_singleton]; [by apply R2|]. rewrite Ha. apply R1. right. by exists n.
  - intros j m Hm. destruct (decide (j = i)) as [-> |Hji].
    + rewrite lookup_alter_eq, Hn in Hm. apply Some_inj in Hm as <-. by apply (Hg n f), R4.
    + rewrite lookup_alter_ne in Hm by done. apply node_ok_snoc; [left; congruence|by apply R4].
  - intros name j Hj. apply lookup_alter_is_Some. by eapply R5.
  - intros q j r' Hr'. destruct (R6 q j r' Hr') as [H1 H2 H3 (m & f' & Hm & Hf') H5]. split; [done..| |done]. cbn [on_node fl_nodes].
    destruct (decide (j = i)) as [-> |Hji]; [|exists m, f'; by rewrite lookup_alter_ne].
    rewrite Hn in Hm. apply Some_inj in Hm as <-. destruct (Hg n f Hf (R4 _ _ Hn)) as [_ [f2 Hf2]]. exists (g n), f2. by rewrite lookup_alter_eq, Hn.
  - intros x rd Hx Hxr. apply (read_ok_dir w); [done|]. by apply read_ok_snoc; [|intros q e s; apply Hcr|eapply R8].
  - apply exact_snoc; [done|]. intros j o l1 l2 E. by apply Hd in E.
  - intros j o q e s. rewrite !elem_of_snoc_ne by (intros E; first [by apply (Hd _ _ (eq_sym E))|by apply (Hcr _ _ _ _ (eq_sym E))]). apply R13.
Qed.

Lemma store_ok pid i n r w held sc log :
  held !! (pid, i) = Some r → storable n → reg_ok (mk_system w held sc log) →
  reg_ok (mk_system (mirror n r w) held sc (log ++ [Stored i n])).
Proof.
  intros Hr Hn Hok. unfold mirror. rewrite (ho_fd _ _ _ _ (ro_held _ Hok _ _ _ Hr)).
  apply (data_ok _ _ _ _ _ _ _ _ _ Hr); [by right; exists n| |done]. intros nd f Hf Hnd. cbn [nd_data].
  pose proof (layout_mirror _ _ n Hf Hn) as Hm. split; [|by eexists]. destruct Hnd as [[Hd _]|(f' & Hf' & _ & Hb & Hc)].
  { by rewrite (decode_layout _ _ Hf) in Hd. }
  right. eexists. split; [exact (layout_mirror _ _ n Hf' Hn)|]. cbn [fd_next_sequence fd_final fd_epoch fd_source_id]. split_and!.
  - unfold last_stored. rewrite stores_app. assert (stores i [Stored i n] = [n]) as -> by (unfold stores; simpl; by rewrite decide_True).
    by rewrite last_snoc.
  - by rewrite elem_of_snoc_ne.
  - intros p e s. rewrite elem_of_snoc_ne by done. apply Hc.
Qed.

(** Only what a registration says of itself changes in the process. *)
Lemma held_same_ok pid i r r' w held sc log :
  held !! (pid, i) = Some r → rg_fd r' = rg_fd r → rg_epoch r' = rg_epoch r → rg_path r' = rg_path r → rg_owner r' = rg_owner r →
  reg_ok (mk_system w held sc log) → reg_ok (mk_system w (<[(pid, i) := r']> held) sc log).
Proof.
  intros Hr E1 E2 E3 E4 [R1 R2 R3 R4 R5 R6 R7 R8 R9 R10 R11 R12 R13]. cbn [sy_files sy_held sy_scan sy_log] in *.
  assert (∀ p j x, <[(pid, i) := r']> held !! (p, j) = Some x → ∃ y, held !! (p, j) = Some y ∧ rg_fd x = rg_fd y ∧ rg_epoch x = rg_epoch y
    ∧ rg_path x = rg_path y ∧ rg_owner x = rg_owner y) as Hs.
  { intros p j x [[[= <- <-] <-]|[_ Hx]]%lookup_insert_Some; [by exists r|by exists x]. }
  split; cbn [sy_files sy_held sy_scan sy_log]; try done.
  - intros p j x (y & Hy & F1 & F2 & F3 & F4)%Hs. destruct (R6 p j y Hy) as [H1 H2 H3 H4 H5]. split; rewrite ?F1, ?F2, ?F3, ?F4; done.
  - intros p q j x x' (y & Hy & _ & _ & _ & ->)%Hs (y' & Hy' & _ & _ & _ & ->)%Hs. by eapply R7.
  - intros j p x Hj (y & Hy & _)%Hs. by apply (R9 j p y).
Qed.

Lemma final_ok pid i r w held sc log w' r' :
  held !! (pid, i) = Some r → rg_owner r = pid → final pid r w = (w', r') → reg_ok (mk_system w held sc log) →
  reg_ok (mk_system w' (<[(pid, i) := r']> held) sc (log ++ [Finalized i])).
Proof.
  intros Hr Ho E Hok. unfold final in E. rewrite (ho_fd _ _ _ _ (ro_held _ Hok _ _ _ Hr)), Ho, Z.eqb_refl in E. injection E as <- <-.
  apply (held_same_ok _ _ r); [done|by rewrite (ho_fd _ _ _ _ (ro_held _ Hok _ _ _ Hr))|done..|].
  apply (data_ok _ _ _ _ _ _ _ _ _ Hr); [by left| |done]. intros nd f Hf Hnd. cbn [nd_data].
  split; [|eexists; exact (layout_final _ _ Hf)]. destruct Hnd as [[Hd _]|(f' & Hf' & Hs & Hb & Hc)].
  { by rewrite (decode_layout _ _ Hf) in Hd. }
  right. eexists. split; [exact (layout_final _ _ Hf')|]. cbn [fd_next_sequence fd_final fd_epoch fd_source_id]. split_and!.
  - by rewrite last_stored_snoc.
  - split; [|done]. intros _. apply elem_of_app. right. left.
  - intros p e s. rewrite elem_of_snoc_ne by done. apply Hc.
Qed.

(** ** Registering *)

(** What a created registration is. *)
Definition made (pid : Z) (source : string) (w : Files) (held : gmap (Z * Z) Registration) (log : list event) (r : Registration) : Prop :=
  ∃ i e, r = mk_registration registered e source None (Some (reg_name e REG_SUFFIX)) (Some i) pid false
    ∧ 0 < e < 2 ^ 63 ∧ fl_dir w !! reg_name e REG_SUFFIX = Some i
    ∧ (∃ n f, fl_nodes w !! i = Some n ∧ layout (nd_data n) f ∧ fd_epoch f = e ∧ fd_source_id f = source)
    ∧ (∀ ev, ev ∈ log → about ev ≠ i) ∧ ∀ p x, held !! (p, i) ≠ Some x.

Lemma encode_epoch e source pid at_ data : encode e source pid at_ = Some data → 0 < e < 2 ^ 63.
Proof. unfold encode. destruct (_ || _) eqn:E; [done|]. intros _. apply orb_false_iff in E as [E _]. lia. Qed.

Lemma firstn_decode e source pid at_ data k :
  encode e source pid at_ = Some data → utf8_valid source = true →
  decode (firstn k data) = None ∨ ∃ f, layout (firstn k data) f ∧ fd_next_sequence f = 0 ∧ fd_final f = false.
Proof.
  intros E Hu. pose proof (layout_encode _ _ _ _ _ E Hu) as Hl. destruct (Nat.le_gt_cases (length data) k) as [Hk|Hk].
  - rewrite firstn_all2 by done. right. eexists. by split_and!.
  - left. unfold decode. rewrite bool_decide_false; [done|]. rewrite length_firstn. pose proof (ly_length _ _ Hl). lia.
Qed.

Lemma clear_stale_ok a path w held log :
  reg_ok (mk_system w held None log) → reg_ok (mk_system (clear_stale (locked_by held) a path w) held None log).
Proof.
  intros Hok. unfold clear_stale. destruct (fl_dir w !! path) as [i|] eqn:Hi; [|done].
  destruct (negb (endswith REG_SUFFIX path) || cr_read_fails a path || locked_by held i) eqn:Hl; [done|].
  apply orb_false_iff in Hl as [_ Hl]. destruct (decode _) as [f|]; [|done]. destruct (fd_final f); [|done]. by eapply unlocked_unlink.
Qed.

Lemma attempts_ok a taken source epochs w held log w' r :
  utf8_valid source = true → reg_ok (mk_system w held None log) →
  attempts (locked_by held) a taken source epochs w = (w', r) →
  reg_ok (mk_system w' held None log)
  ∧ ∀ r', r = Some r' → rg_status r' = failed ∧ rg_fd r' = None ∨ made (cr_pid a) source w' held log r'.
Proof.
  intros Hu. revert w. induction epochs as [|e epochs IH]; intros w Hok E; cbn [attempts] in E.
  { injection E as <- <-. split; [done|]. intros r' [= <-]. by left. }
  destruct (decide (e ∈ taken)); [apply IH in E; [done|by apply clear_stale_ok]|].
  destruct (encode e source (cr_pid a) (cr_time a e)) as [data|] eqn:En; [|by injection E as <- <-].
  unfold new_file in E. destruct (cr_file a) as [| |written uf] eqn:Ef; [|by injection E as <- <-|].
  - destruct (decide (is_Some _)) as [|Hn]; [by apply IH in E|]. apply eq_None_not_Some in Hn. injection E as <- <-.
    pose proof (layout_encode _ _ _ _ _ En Hu) as Hl. split.
    + apply (fresh_ok true _ (mk_node data _)); [done| |done]. right. eexists. by split_and!.
    + intros r' [= <-]. right. exists (fl_next w), e. split; [done|]. split; [by apply (encode_epoch _ _ _ _ _ En)|]. split; [cbn [fl_dir]; by rewrite lookup_insert_eq|].
      split; [|split].
      * eexists _, _. cbn [fl_nodes]. rewrite lookup_insert_eq. by split_and!.
      * intros ev Hev E. pose proof (ro_log _ Hok ev Hev) as Hlt. simpl in Hlt. lia.
      * intros p x Hx. destruct (ho_layout _ _ _ _ (ro_held _ Hok _ _ _ Hx)) as (m & f & Hnd & _). cbn [sy_files] in Hnd.
        pose proof (ro_next _ Hok (fl_next w)) as Hlt. cbn [sy_files] in Hlt. assert (fl_next w < fl_next w) by (apply Hlt; right; eauto). lia.
  - destruct (decide (is_Some _)) as [|Hn]; [by apply IH in E|]. apply eq_None_not_Some in Hn. injection E as <- <-. split; [|done].
    apply (fresh_ok uf); [done| |done]. by eapply firstn_decode.
Qed.

(** The process keeps what it created. *)
Lemma adopt_ok pid source w held log r :
  made pid source w held log r → reg_ok (mk_system w held None log) →
  reg_ok (mk_system w (keep pid r held) None (log ++ [Created pid (default 0 (rg_fd r)) (rg_epoch r) source])).
Proof.
  intros (i & e & -> & He & Hd & (n & f & Hn & Hf & Hfe & Hfs) & Hold & Hfree) [R1 R2 R3 R4 R5 R6 R7 R8 R9 R10 R11 R12 R13].
  unfold keep. cbn [rg_fd rg_epoch default]. cbn [sy_files sy_held sy_scan sy_log] in *.
  set (r := mk_registration _ _ _ _ _ _ _ _). set (ev := Created pid i e source).
  assert (∀ p j x, <[(pid, i) := r]> held !! (p, j) = Some x → held !! (p, j) = Some x ∨ p = pid ∧ j = i ∧ x = r) as Hs.
  { intros p j x [[[= <- <-] <-]|[_ Hx]]%lookup_insert_Some; [by right|by left]. }
  split; cbn [sy_files sy_held sy_scan sy_log]; rewrite ?declared_snoc by done; try done.
  - intros x [Hx| ->%list_elem_of_singleton]%elem_of_app; [by apply R2|]. apply R1. left. by eexists.
  - intros j m Hm. destruct (decide (j = i)) as [-> |Hji].
    + rewrite Hn in Hm. apply Some_inj in Hm as <-. destruct (R4 _ _ Hn) as [[Hdec _]|(f' & Hf' & Hs' & Hb & _)];
        [by rewrite (decode_layout _ _ Hf) in Hdec|]. pose proof (decode_layout _ _ Hf) as D. rewrite (decode_layout _ _ Hf') in D. injection D as ->.
      right. exists f. rewrite last_stored_snoc by done. rewrite elem_of_snoc_ne by done. split_and!; [done..|].
      intros p e' s' [Hc|Hc%list_elem_of_singleton]%elem_of_app; [by apply Hold in Hc|]. by injection Hc as -> -> ->.
    + apply node_ok_snoc; [left; simpl; congruence|by apply R4].
  - intros p j x [Hx|(-> & -> & ->)]%Hs; [by apply R6|]. split; [done|done|done|by exists n, f|done].
  - intros p q j x x' [Hx|(-> & -> & ->)]%Hs [Hx'|(-> & Hj & ->)]%Hs; [by eapply R7|subst j; by apply Hfree in Hx|by apply Hfree in Hx'|done].
  - intros j p x Hj [Hx|(-> & -> & ->)]%Hs; [by apply (R9 j p x)|]. apply elem_of_declared in Hj as [o Ho]. by apply Hold in Ho.
  - apply exact_snoc; [done|]. done.
  - intros j o p e' s' Ho [Hc|Hc%list_elem_of_singleton]%elem_of_app; rewrite elem_of_snoc_ne in Ho by done; [by apply (R13 j o p)|].
    injection Hc as -> -> -> ->. by apply Hold in Ho.
Qed.

Lemma register_ok pid entered a bind uf df source epoch w held log w' r :
  cr_pid a = pid → utf8_valid source = true → (∀ n, bind r = Bound (Some n) → storable n) →
  register (locked_by held) entered a bind uf df source epoch w = (w', r) →
  reg_ok (mk_system w held None log) →
  reg_ok (mk_system w' (keep pid r held) None (log ++ register_events (bind r) r)).
Proof.
  intros Hp Hu Hb E Hok. unfold register in E.
  assert (∀ st rs w1, reg_ok (mk_system w1 held None log) → (w1, unregistered st epoch source rs) = (w', r) →
    reg_ok (mk_system w' (keep pid r held) None (log ++ register_events (bind r) r))) as Hfail.
  { intros st rs w1 H1 E1. injection E1 as <- <-. unfold keep, register_events. simpl. by rewrite app_nil_r. }
  destruct entered; [by eapply Hfail..|]. destruct (create _ _ _ _ _) as [w1 c] eqn:Ec.
  assert (reg_ok (mk_system w1 held None log) ∧ ∀ r', c = Some r' → rg_status r' ≠ registered ∧ rg_fd r' = None ∨ made pid source w1 held log r') as [H1 Hc].
  { unfold create in Ec. destruct (cr_list_fails a); [by injection Ec as <- <-|]. destruct (_ <=? _).
    { injection Ec as <- <-. split; [done|]. intros r' [= <-]. by left. }
    destruct (attempts _ _ _ _ _ _) as [w2 r2] eqn:Ea. apply (attempts_ok _ _ _ _ _ _ log) in Ea as [H2 Hr2]; [|done..]. injection Ec as <- <-. split; [done|].
    intros r' Hr'. destruct r2 as [r2|]; [|done]. apply Some_inj in Hr' as <-. destruct (Hr2 r2 eq_refl) as [[Hs Hf]|Hm].
    - rewrite decide_True by done. left. simpl. by rewrite Hs.
    - right. rewrite decide_False; [by rewrite <-Hp|]. destruct Hm as (i & e & -> & _). done. }
  destruct c as [r1|]; [|by eapply Hfail]. destruct (Hc r1 eq_refl) as [[Hs Hf]|Hm].
  { rewrite decide_False in E by done. injection E as <- <-. unfold keep, register_events. rewrite Hf. by rewrite app_nil_r. }
  assert (rg_status r1 = registered ∧ rg_owner r1 = pid ∧ rg_source_id r1 = source ∧ is_Some (rg_fd r1)) as (Hst & Ho & Hsrc & [i Hi])
    by (destruct Hm as (i & e & -> & _); by eauto).
  rewrite decide_True in E by done. pose proof (adopt_ok _ _ _ _ _ _ Hm H1) as Hadopt. rewrite Hi in Hadopt. change (default 0 (Some i)) with i in Hadopt.
  destruct (bind r1) as [| |stored] eqn:Eb.
  - injection E as <- <-. unfold register_events. by rewrite Eb, Hi, Ho, Hsrc.
  - destruct Hm as (j & e & -> & He & Hd & _ & _ & Hfree). eapply Hfail; [|exact E].
    unfold close. cbn [rg_owner rg_path rg_fd rg_final]. rewrite Hp, Z.eqb_refl. cbn [negb orb]. destruct uf; [done|]. rewrite Hd.
    apply unlink_ok; [|done]. intros j' p x Hj' Hx. rewrite Hd in Hj'. injection Hj' as <-. by apply Hfree in Hx.
  - destruct stored as [n|]; injection E as <- <-; unfold register_events; rewrite Eb, Hi, Ho, Hsrc; [|done].
    rewrite cons_middle, app_assoc. apply (store_ok pid i n r1); [|by apply Hb|done]. unfold keep. rewrite Hi. apply lookup_insert_eq.
Qed.

(** ** Descriptors that are closed, inherited, or go with their process *)

Lemma fewer_held_ok w held held' sc log :
  (∀ k r, held' !! k = Some r → held !! k = Some r) → reg_ok (mk_system w held sc log) → reg_ok (mk_system w held' sc log).
Proof.
  intros Hs [R1 R2 R3 R4 R5 R6 R7 R8 R9 R10 R11 R12 R13]. split; cbn [sy_files sy_held sy_scan sy_log] in *; try done.
  - intros p i r Hr. by apply R6, Hs.
  - intros p q i r r' Hr Hr'. eapply R7; by apply Hs.
  - intros i p r Hi Hr. by apply (R9 i p r Hi), Hs.
Qed.

Lemma no_scan_ok w held sc log : reg_ok (mk_system w held sc log) → reg_ok (mk_system w held None log).
Proof. intros [R1 R2 R3 R4 R5 R6 R7 R8 R9 R10 R11 R12 R13]. by split. Qed.

Lemma new_scan_ok pid h w held log : reg_ok (mk_system w held None log) → reg_ok (mk_system w held (Some (mk_scan pid h None)) log).
Proof. intros [R1 R2 R3 R4 R5 R6 R7 R8 R9 R10 R11 R12 R13]. split; try done. intros x rd [= <-]. done. Qed.

Lemma close_ok pid i uf df r w held sc log w' r' :
  held !! (pid, i) = Some r → close pid uf df r w = (w', r') → reg_ok (mk_system w held sc log) →
  reg_ok (mk_system w' (delete (pid, i) held) sc log).
Proof.
  intros Hr E Hok. pose proof (ro_held _ Hok _ _ _ Hr) as [H1 H2 H3 H4 H5]. cbn [sy_files] in *.
  unfold close in E. destruct (rg_owner r =? pid) eqn:Ho; cbn [negb] in E; cycle 1.
  { injection E as <- _. apply (fewer_held_ok _ held); [|done]. intros k x Hx. by apply lookup_delete_Some in Hx as [_ ?]. }
  apply Z.eqb_eq in Ho. specialize (H5 Ho). rewrite H3, H1, H5 in E. injection E as <- _.
  assert (reg_ok (mk_system w (delete (pid, i) held) sc log)) as Hd.
  { apply (fewer_held_ok _ held); [|done]. intros k x Hx. by apply lookup_delete_Some in Hx as [_ ?]. }
  destruct (negb (rg_final r) || uf); [done|]. apply unlink_ok; [|done].
  intros j p x Hj Hx Hp. rewrite H5 in Hj. injection Hj as <-. apply lookup_delete_Some in Hx as [Hne Hx].
  apply Hne. f_equal. pose proof (ro_owner _ Hok _ _ _ _ _ Hr Hx). congruence.
Qed.

Lemma lookup_inherited parent child held k r :
  inherited parent child held !! k = Some r → k.1 = child ∧ held !! (parent, k.2) = Some r.
Proof.
  unfold inherited. intros H%elem_of_list_to_map_2. apply list_elem_of_omap in H as ([[p i] x] & Hm & E). simpl in E.
  destruct (p =? parent) eqn:Ep; [|done]. apply Z.eqb_eq in Ep as ->. injection E as <- <-. simpl. split; [done|].
  by apply elem_of_map_to_list in Hm.
Qed.

Lemma fork_ok parent child w held sc log :
  (∀ k r, held !! k = Some r → k.1 ≠ child ∧ rg_owner r ≠ child) → reg_ok (mk_system w held sc log) →
  reg_ok (mk_system w (inherited parent child held ∪ held) sc log).
Proof.
  intros Hnew [R1 R2 R3 R4 R5 R6 R7 R8 R9 R10 R11 R12 R13]. cbn [sy_files sy_held sy_scan sy_log] in *.
  assert (∀ p i r, (inherited parent child held ∪ held) !! (p, i) = Some r →
    held !! (p, i) = Some r ∨ p = child ∧ held !! (parent, i) = Some r) as Hs.
  { intros p i r [Hr|[_ Hr]]%lookup_union_Some_raw; [|by left]. apply lookup_inherited in Hr as [E Hr]. by right. }
  split; cbn [sy_files sy_held sy_scan sy_log]; try done.
  - intros p i r [Hr|[-> Hr]]%Hs; [by apply R6|]. destruct (R6 _ _ _ Hr) as [H1 H2 H3 H4 H5]. split; [done..|].
    intros Ho. by destruct (Hnew _ _ Hr) as [_ Hn].
  - intros p q i r r' [Hr|[_ Hr]]%Hs [Hr'|[_ Hr']]%Hs; by eapply R7.
  - intros i p r Hi [Hr|[_ Hr]]%Hs; [by apply (R9 i p r)|by apply (R9 i parent r)].
Qed.

(** ** Scanning *)

Lemma epoch_of_range name e : epoch_of name = Some e → 0 < e < 2 ^ 63.
Proof.
  unfold epoch_of. destruct (before_dot name) as [stem suffix]. destruct (negb _); [done|]. destruct (_ || _); [done|].
  destruct (_ && _) eqn:E; [|done]. intros [= <-]. lia.
Qed.

Lemma scan_read_ok x name epoch i w held log :
  endswith REG_SUFFIX name = true → epoch_of name = Some epoch → fl_dir w !! name = Some i →
  reg_ok (mk_system w held (Some x) log) →
  reg_ok (mk_system w held (Some (mk_scan (sc_pid x) (sc_held x) (Some (name, epoch, i, node_data i w)))) (log ++ [ReadFile i])).
Proof.
  intros He Ho Hd [R1 R2 R3 R4 R5 R6 R7 R8 R9 R10 R11 R12 R13]. cbn [sy_files sy_held sy_scan sy_log] in *.
  split; cbn [sy_files sy_held sy_scan sy_log]; rewrite ?declared_snoc by done; try done.
  - intros ev [Hev| ->%list_elem_of_singleton]%elem_of_app; [by apply R2|]. apply R1. left. by eexists.
  - intros j n Hn. apply node_ok_snoc; [by right|by apply R4].
  - intros y rd [= <-] [= <-]. split; [done|]. split; [by apply (epoch_of_range name)|]. split; [by left|]. exists log, [].
    split; [done|]. split; [intros j Hj; by apply elem_of_nil in Hj|]. intros f Hf.
    destruct (R5 _ _ Hd) as [n Hn]. unfold node_data in Hf. rewrite Hn in Hf.
    destruct (R4 _ _ Hn) as [[Hnone _]|(f' & Hf' & Hs & Hb & Hc)]; [congruence|].
    rewrite (decode_layout _ _ Hf') in Hf. injection Hf as <-. split_and!; [done..|]. intros p e s. rewrite elem_of_snoc_ne by done. apply Hc.
  - by apply exact_snoc.
  - intros j o p e s. rewrite !elem_of_snoc_ne by done. apply R13.
Qed.

Lemma orphan_not_reg e suffix : suffix = ORPHAN_SUFFIX ∨ suffix = CORRUPT_SUFFIX → endswith REG_SUFFIX (reg_name e suffix) = false.
Proof.
  intros Hs. destruct (endswith REG_SUFFIX _) eqn:E; [|done]. exfalso. apply endswith_spec in E as [t E]. unfold reg_name in E.
  assert (∃ a b, suffix = a +:+ b ∧ String.length b = 4%nat ∧ b ≠ REG_SUFFIX) as (a & b & -> & Hl & Hb).
  { destruct Hs as [-> | ->]; [exists ".or", "phan"|exists ".cor", "rupt"]; done. }
  rewrite <-string_app_assoc in E. by apply app_suffix_inj in E as [_ ?].
Qed.

(** The time of a file. *)
Lemma touch_ok now j w held sc log :
  reg_ok (mk_system w held sc log) → reg_ok (mk_system (on_node j (λ n, mk_node (nd_data n) now) w) held sc log).
Proof.
  intros [R1 R2 R3 R4 R5 R6 R7 R8 R9 R10 R11 R12 R13]. cbn [sy_files sy_held sy_scan sy_log] in *.
  split; cbn [sy_files sy_held sy_scan sy_log on_node fl_dir fl_nodes fl_next]; try done.
  - intros i [Hi|Hi%lookup_alter_is_Some]; apply R1; [by left|by right].
  - intros i m Hm. destruct (decide (i = j)) as [-> |Hi]; [|rewrite lookup_alter_ne in Hm by done; by apply R4].
    rewrite lookup_alter_eq in Hm. destruct (fl_nodes w !! j) as [n|] eqn:En; [|done]. simpl in Hm. injection Hm as <-. apply (R4 _ _ En).
  - intros n i Hn. apply lookup_alter_is_Some. by eapply R5.
  - intros p i r Hr. destruct (R6 p i r Hr) as [H1 H2 H3 (m & f & Hm & Hf) H5]. split; [done..| |done]. cbn [on_node fl_nodes].
    destruct (decide (i = j)) as [-> |Hij]; [|exists m, f; by rewrite lookup_alter_ne]. eexists _, f. by rewrite lookup_alter_eq, Hm.
Qed.

(** A file nobody holds is renamed to a name that is no registration's. *)
Lemma rename_ok name epoch suffix j w held sc log x :
  sc = Some x → sc_read x = None → 0 < epoch < 2 ^ 63 → (suffix = ORPHAN_SUFFIX ∨ suffix = CORRUPT_SUFFIX) →
  fl_dir w !! name = Some j → locked_by held j = false →
  reg_ok (mk_system w held sc log) →
  reg_ok (mk_system (set_dir (<[reg_name epoch suffix := j]> (delete name (fl_dir w))) w) held sc log)
  ∧ ∀ n, <[reg_name epoch suffix := j]> (delete name (fl_dir w)) !! n = Some j → n = reg_name epoch suffix.
Proof.
  intros Hsc Hrd He Hs Hj Hl [R1 R2 R3 R4 R5 R6 R7 R8 R9 R10 R11 R12 R13]. cbn [sy_files sy_held sy_scan sy_log] in *.
  pose proof (orphan_not_reg epoch suffix Hs) as Hnr.
  assert (∀ n i, <[reg_name epoch suffix := j]> (delete name (fl_dir w)) !! n = Some i →
    n = reg_name epoch suffix ∧ i = j ∨ fl_dir w !! n = Some i ∧ n ≠ name) as Hdir.
  { intros n i [[<- <-]|[_ [? ?]%lookup_delete_Some]]%lookup_insert_Some; [by left|by right]. }
  split; cycle 1.
  { intros n Hn. apply Hdir in Hn as [[-> _]|[Hn Hne]]; [done|]. by destruct (Hne (R3 _ _ _ Hn Hj)). }
  split; cbn [sy_files sy_held sy_scan sy_log set_dir fl_dir fl_nodes fl_next]; try done.
  - intros i [[n Hn]|Hn]; [|by apply R1; right]. apply Hdir in Hn as [[_ ->]|[Hn _]]; apply R1; left; eauto.
  - intros n n' i Hn Hn'. apply Hdir in Hn as [[-> ->]|[Hn Hne]], Hn' as [[-> Hi]|[Hn' Hne']]; [done| | |by eapply R3].
    + by destruct (Hne' (R3 _ _ _ Hn' Hj)).
    + subst i. by destruct (Hne (R3 _ _ _ Hn Hj)).
  - intros n i Hn. apply Hdir in Hn as [[_ ->]|[Hn _]]; by eapply R5.
  - intros p i r Hr. destruct (R6 p i r Hr) as [H1 H2 H3 H4 H5]. split; [done..|].
    intros Ho. specialize (H5 Ho). cbn [set_dir fl_dir]. rewrite lookup_insert_ne, lookup_delete_ne; [done| |].
    + intros E. rewrite E in Hj. assert (i = j) as -> by congruence.
      assert (locked_by held j = true) by (apply locked_by_spec; eauto). congruence.
    + intros E. assert (endswith REG_SUFFIX (reg_name epoch suffix) = true) as Ht by (rewrite E; apply endswith_spec; by eexists). congruence.
  - intros y rd Hy Hyr. rewrite Hsc in Hy. injection Hy as <-. congruence.
  - intros i n Hi Hn. apply Hdir in Hn as [[-> _]|[Hn _]]; [done|by eapply R10].
Qed.

(** A declaration of what was read. *)
Lemma declare_ok i o w held sc log l1 l2 :
  i ∉ declared log → (∀ p r, held !! (p, i) ≠ Some r) → (∀ n, fl_dir w !! n = Some i → endswith REG_SUFFIX n = false) →
  log = l1 ++ ReadFile i :: l2 → no_read l2 → or_next_sequence o = last_stored i l1 → Finalized i ∉ l1 →
  (∀ p e s, Created p i e s ∈ log → or_epoch o = e ∧ or_source_id o = s) → i < fl_next w →
  (∀ x, sc = Some x → sc_read x = None) → reg_ok (mk_system w held sc log) → reg_ok (mk_system w held sc (log ++ [Declared i o])).
Proof.
  intros Hn Hh Hnames Hlog Hr Ho Hfin Hc Hlt Hsc [R1 R2 R3 R4 R5 R6 R7 R8 R9 R10 R11 R12 R13]. cbn [sy_files sy_held sy_scan sy_log] in *.
  assert (declared (log ++ [Declared i o]) = declared log ++ [i]) as Hd by (by rewrite declared_app).
  split; cbn [sy_files sy_held sy_scan sy_log]; rewrite ?Hd; try done.
  - intros ev [Hev| ->%list_elem_of_singleton]%elem_of_app; [by apply R2|done].
  - intros j n Hj. apply node_ok_snoc; [by right|by apply R4].
  - intros x rd Hx Hxr. rewrite (Hsc x Hx) in Hxr. done.
  - intros j p r [Hj| ->%list_elem_of_singleton]%elem_of_app; [by apply R9|apply Hh].
  - intros j n [Hj| ->%list_elem_of_singleton]%elem_of_app; [by apply R10|apply Hnames].
  - apply NoDup_app. split_and!; [done| |apply NoDup_singleton]. intros j Hj ->%list_elem_of_singleton. done.
  - apply exact_snoc; [done|]. intros j o' l1' l2' [= -> ->] Hlog' Hr'. rewrite Hlog in Hlog'.
    by destruct (last_read_unique _ _ _ _ _ _ Hlog' Hr Hr') as [<- _].
  - intros j o' p e s Hj He. apply elem_of_app in He as [He|He]; [|by apply list_elem_of_singleton in He].
    apply elem_of_app in Hj as [Hj|Hj]; [by apply (R13 j o' p)|]. apply list_elem_of_singleton in Hj. injection Hj as -> ->. by apply (Hc p).
Qed.

Lemma act_ok x a name epoch i data w held log w' o :
  sc_read x = Some (name, epoch, i, data) → scan_file (locked_by held) a name epoch i data w = (w', o) →
  reg_ok (mk_system w held (Some x) log) →
  reg_ok (mk_system w' held (Some (mk_scan (sc_pid x) (sc_held x) None)) (log ++ (Declared i <$> option_list o))).
Proof.
  intros Hx E Hok. destruct (ro_scan _ Hok x _ eq_refl Hx) as (Hreg & He & Hthere & l1 & l2 & Hlog & Hnr & Hf).
  cbn [sy_files sy_log] in Hthere, Hlog, Hf. set (sc := Some _). assert (reg_ok (mk_system w held sc log)) as Hok0.
  { destruct (no_scan_ok _ _ _ _ Hok) as [R1 R2 R3 R4 R5 R6 R7 R8 R9 R10 R11 R12 R13]. split; try done. intros y rd [= <-]. done. }
  assert (∀ w1, reg_ok (mk_system w1 held sc log) → (w1, None) = (w', o) → reg_ok (mk_system w' held sc (log ++ (Declared i <$> option_list o)))) as Hsame.
  { intros w1 H1 [= <- <-]. by rewrite app_nil_r. }
  unfold scan_file in E. destruct (locked_by held i) eqn:Hl; [by eapply Hsame|]. set (own := match decode data with Some f => _ | None => None end) in E.
  destruct (match own with Some f => fd_final f | None => false end) eqn:Hfin.
  { destruct (sf_unlink_fails a); [by eapply Hsame|]. eapply Hsame; [|exact E]. apply unlink_ok; [|done].
    intros j p r Hj Hr. exfalso. assert (j = i) as -> by (destruct Hthere; congruence).
    assert (locked_by held i = true) by (apply locked_by_spec; eauto). congruence. }
  destruct (fl_dir w !! name) as [j|] eqn:Hj; [|by eapply Hsame]. destruct Hthere as [[= ->]|?]; [|done].
  destruct (sf_rename_fails a); [by eapply Hsame|]. set (suffix := if own then ORPHAN_SUFFIX else CORRUPT_SUFFIX) in E.
  assert (suffix = ORPHAN_SUFFIX ∨ suffix = CORRUPT_SUFFIX) as Hs by (unfold suffix; destruct own; auto).
  destruct (rename_ok name epoch suffix i w held sc log _ eq_refl eq_refl He Hs Hj Hl Hok0) as [Hok1 Hnames].
  destruct (sf_utime_fails a); [by eapply Hsame|]. injection E as <- <-. pose proof (touch_ok (sf_now a) i _ _ _ _ Hok1) as Hok2.
  destruct own as [f|] eqn:Hown; [|by rewrite app_nil_r]. simpl.
  assert (decode data = Some f ∧ fd_epoch f = epoch) as [Hdec Hfe].
  { unfold own in Hown. destruct (decode data) as [g|]; [|done]. destruct (Z.eqb_spec (fd_epoch g) epoch); [|done]. by injection Hown as ->. }
  destruct (Hf f Hdec) as (Hn & Hb & Hc). eapply (declare_ok _ _ _ _ _ _ l1 l2); [| | |done|done|done| | | | |done].
  - intros Hd. pose proof (ro_names _ Hok i name Hd Hj). congruence.
  - intros p r Hr. assert (locked_by held i = true) by (apply locked_by_spec; eauto). congruence.
  - intros n Hnn. simpl in Hnn. rewrite (Hnames n Hnn). by apply orphan_not_reg.
  - rewrite <-Hb. by rewrite Hfin.
  - intros p e s Hcr. apply Hc in Hcr as [-> ->]. by rewrite Hfe.
  - simpl. apply (ro_next _ Hok). left. eauto.
  - by intros y [= <-].
Qed.

Lemma retire_orphan_ok deadline now epoch of_ cf w held sc log :
  0 < epoch → reg_ok (mk_system w held sc log) → reg_ok (mk_system (retire_orphan deadline now epoch of_ cf w).1 held sc log).
Proof.
  intros He Hok. assert (∀ suffix fails w0 removed, suffix = ORPHAN_SUFFIX ∨ suffix = CORRUPT_SUFFIX → reg_ok (mk_system w0 held sc log) →
    reg_ok (mk_system (retire_one deadline now (w0, removed) suffix epoch fails).1 held sc log)) as Hone.
  { intros suffix fails w0 removed Hs H0. unfold retire_one. destruct (fl_dir w0 !! _) as [i|] eqn:Hi; [|done]. destruct fails; [done|].
    destruct (_ <=? _); [|done]. apply unlink_ok; [|done]. intros j p r Hj Hr Ho.
    pose proof (ho_there _ _ _ _ (ro_held _ H0 _ _ _ Hr) Ho) as Ht. cbn [sy_files] in Ht. pose proof (ro_inj _ H0 _ _ _ Ht Hj) as E.
    assert (endswith REG_SUFFIX (reg_name (rg_epoch r) REG_SUFFIX) = true) as Hreg by (apply endswith_spec; by eexists).
    rewrite E, orphan_not_reg in Hreg by done. done. }
  unfold retire_orphan. pose proof (Hone ORPHAN_SUFFIX of_ w false ltac:(by left) Hok) as H1.
  destruct (retire_one deadline now (w, false) ORPHAN_SUFFIX epoch of_) as [w1 removed]. cbn [fst] in H1.
  destruct (_ && _); [done|]. apply Hone; [by right|done].
Qed.

Lemma reg_step_ok y y' : reg_step y y' → reg_ok y → reg_ok y'.
Proof.
  intros [pid entered a bind uf df source epoch w held log w' r Hp Hu Hb E|pid i n r w held sc log Hr Hn|pid i r w held sc log w' r' Hr Ho E
    |pid i uf df r w held sc log w' r' Hr E|parent child w held sc log Hnew|pid w held sc log|pid w held log
    |x name epoch i w held log Hreg He Hne Hd|x a name epoch i data w held log w' o Hx E|x w held log|deadline now epoch of_ cf w held sc log He] Hok.
  - by eapply register_ok.
  - by apply (store_ok pid).
  - by apply (final_ok pid i r w held sc log w' r').
  - by apply (close_ok pid i uf df r w held sc log w' r').
  - by apply fork_ok.
  - apply (fewer_held_ok _ held); [intros k r Hk; by apply map_lookup_filter_Some in Hk as [? _]|].
    destruct sc as [x|]; [|done]. destruct (sc_pid x =? pid); [by eapply no_scan_ok|done].
  - by apply new_scan_ok.
  - by apply scan_read_ok.
  - by eapply act_ok.
  - by eapply no_scan_ok.
  - by apply retire_orphan_ok.
Qed.

(** C39: Only the dead are declared. In every interleaving of writers that register, allocate,
    finish, fork and die with drainers that scan and retire: no file whose descriptor a process
    still holds has been declared an orphan; no registration is declared twice; a declaration
    names the epoch and source the writer registered, the sequence that was stored last when
    the scan read the file, and no epoch whose final flag was set by then; and two writers
    never hold the same epoch. *)
Theorem orphans_exact y :
  rtc reg_step start y →
  (∀ i o p r, Declared i o ∈ sy_log y → sy_held y !! (p, i) ≠ Some r)
  ∧ NoDup (declared (sy_log y))
  ∧ (∀ i o p e s, Declared i o ∈ sy_log y → Created p i e s ∈ sy_log y → or_epoch o = e ∧ or_source_id o = s)
  ∧ (∀ l1 l2 l3 i o, sy_log y = l1 ++ ReadFile i :: l2 ++ Declared i o :: l3 → no_read l2 →
       or_next_sequence o = last_stored i l1 ∧ Finalized i ∉ l1)
  ∧ (∀ p q i j r r', sy_held y !! (p, i) = Some r → sy_held y !! (q, j) = Some r' → rg_owner r = p → rg_owner r' = q →
       rg_epoch r = rg_epoch r' → i = j).
Proof.
  intros Hr. assert (reg_ok y) as Hok.
  { assert (∀ x, rtc reg_step x y → reg_ok x → reg_ok y) as Hall.
    { induction 1 as [|a b c Hs _ IH]; [done|]. intros Ha. by apply IH, (reg_step_ok a). }
    apply (Hall start Hr). split; cbn; try done.
    - intros i [[name H]|[n H]]; by rewrite lookup_empty in H.
    - intros ev Hev. by apply elem_of_nil in Hev.
    - constructor.
    - apply exact_nil.
    - intros i o p e s Hi. by apply elem_of_nil in Hi. }
  destruct Hok as [R1 R2 R3 R4 R5 R6 R7 R8 R9 R10 R11 R12 R13]. split_and!; [|done|done|done|].
  - intros i o p r Hd. apply R9. apply elem_of_declared. by exists o.
  - intros p q i j r r' Hi Hj Ho Ho' He. pose proof (ho_there _ _ _ _ (R6 _ _ _ Hi) Ho) as H1.
    pose proof (ho_there _ _ _ _ (R6 _ _ _ Hj) Ho') as H2. rewrite <-He in H2. congruence.
Qed.

(** ** Examples *)

Definition demo_create (pid : Z) : create_answer := mk_create_answer false [] pid (λ _, 17) (λ _, false) FileCreated.
Definition demo_scan_answer : scan_file_answer := mk_scan_file_answer false false false 99.

(** A process registers epoch 77 and binds its allocator. *)
Definition demo_register (pid : Z) (y : System) : System :=
  let '(w, r) := register (locked_by (sy_held y)) AdmissionOpen (demo_create pid) (λ _, Bound (Some 0)) false false "agent.1" 77 (sy_files y) in
  mk_system w (keep pid r (sy_held y)) None (sy_log y ++ register_events (Bound (Some 0)) r).
Definition demo_store (pid i n : Z) (y : System) : System :=
  match sy_held y !! (pid, i) with
  | Some r => mk_system (mirror n r (sy_files y)) (sy_held y) (sy_scan y) (sy_log y ++ [Stored i n])
  | None => y
  end.
Definition demo_final (pid i : Z) (y : System) : System :=
  match sy_held y !! (pid, i) with
  | Some r =>
      if rg_owner r =? pid then
        let '(w, r) := final pid r (sy_files y) in mk_system w (<[(pid, i) := r]> (sy_held y)) (sy_scan y) (sy_log y ++ [Finalized i])
      else y
  | None => y
  end.
Definition demo_die (pid : Z) (y : System) : System :=
  mk_system (sy_files y) (filter (λ p, p.1.1 ≠ pid) (sy_held y))
    (match sy_scan y with Some x => if sc_pid x =? pid then None else sy_scan y | None => None end) (sy_log y).
Definition demo_scan (pid : Z) (y : System) : System :=
  match sy_scan y with
  | None => mk_system (sy_files y) (sy_held y) (Some (mk_scan pid (held_here pid (sy_held y)) None)) (sy_log y)
  | Some _ => y
  end.
Definition demo_name : string := reg_name 77 REG_SUFFIX.
Definition demo_read (y : System) : System :=
  match sy_scan y, fl_dir (sy_files y) !! demo_name with
  | Some x, Some i =>
      if decide (77 ∈ sc_held x) then y
      else mk_system (sy_files y) (sy_held y) (Some (mk_scan (sc_pid x) (sc_held x) (Some (demo_name, 77, i, node_data i (sy_files y)))))
             (sy_log y ++ [ReadFile i])
  | _, _ => y
  end.
Definition demo_act (y : System) : System :=
  match sy_scan y with
  | Some x =>
      match sc_read x with
      | Some (name, epoch, i, data) =>
          let '(w, o) := scan_file (locked_by (sy_held y)) demo_scan_answer name epoch i data (sy_files y) in
          mk_system w (sy_held y) (Some (mk_scan (sc_pid x) (sc_held x) None)) (sy_log y ++ (Declared i <$> option_list o))
      | None => y
      end
  | None => y
  end.

Lemma demo_register_step pid y : sy_scan y = None → rtc reg_step y (demo_register pid y).
Proof.
  intros Hs. destruct y as [w held sc log]. simpl in Hs. subst sc. apply rtc_once. unfold demo_register. cbn [sy_held sy_files sy_log].
  destruct (register _ _ _ _ _ _ _ _ _) as [w' r] eqn:E. apply (Y_register pid AdmissionOpen (demo_create pid) (λ _, Bound (Some 0)) false false "agent.1" 77 w held log w' r eq_refl eq_refl); [|exact E].
  intros n [= <-]. unfold storable. lia.
Qed.
Lemma demo_store_step pid i n y : storable n → rtc reg_step y (demo_store pid i n y).
Proof.
  intros Hn. destruct y as [w held sc log]. unfold demo_store. cbn [sy_held sy_files sy_log sy_scan].
  destruct (held !! (pid, i)) as [r|] eqn:Hr; [|done]. by apply rtc_once, (Y_store pid i n r).
Qed.
Lemma demo_final_step pid i y : rtc reg_step y (demo_final pid i y).
Proof.
  destruct y as [w held sc log]. unfold demo_final. cbn [sy_held sy_files sy_log sy_scan]. destruct (held !! (pid, i)) as [r|] eqn:Hr; [|done].
  destruct (Z.eqb_spec (rg_owner r) pid) as [Ho|]; [|done]. destruct (final pid r w) as [w' r'] eqn:E.
  by apply rtc_once, (Y_final pid i r w held sc log w' r').
Qed.
Lemma demo_die_step pid y : rtc reg_step y (demo_die pid y).
Proof. destruct y as [w held sc log]. apply rtc_once, (Y_die pid). Qed.
Lemma demo_scan_step pid y : rtc reg_step y (demo_scan pid y).
Proof. destruct y as [w held [x|] log]; [done|]. apply rtc_once, (Y_scan pid). Qed.
Lemma demo_read_step y : rtc reg_step y (demo_read y).
Proof.
  destruct y as [w held [x|] log]; [|done]. unfold demo_read. cbn [sy_held sy_files sy_log sy_scan].
  destruct (fl_dir w !! demo_name) as [i|] eqn:Hi; [|done]. destruct (decide _); [done|]. apply rtc_once.
  apply Y_read; [vm_compute; reflexivity|vm_compute; reflexivity|done|done].
Qed.
Lemma demo_act_step y : rtc reg_step y (demo_act y).
Proof.
  destruct y as [w held [x|] log]; [|done]. unfold demo_act. cbn [sy_held sy_files sy_log sy_scan].
  destruct (sc_read x) as [[[[name epoch] i] data]|] eqn:Hx; [|done]. destruct (scan_file _ _ _ _ _ _ _) as [w' o] eqn:E.
  by apply rtc_once, (Y_act x demo_scan_answer name epoch i data).
Qed.

(** A worker registers, allocates five positions and is killed; the drainer declares it. *)
Definition demo_orphaned : System := demo_act (demo_read (demo_scan 8 (demo_die 7 (demo_store 7 0 5 (demo_register 7 start))))).

Lemma demo_orphaned_reach : rtc reg_step start demo_orphaned.
Proof.
  etrans; [exact (demo_register_step 7 start eq_refl)|]. etrans; [apply (demo_store_step 7 0 5); unfold storable; lia|].
  etrans; [apply (demo_die_step 7)|]. etrans; [apply (demo_scan_step 8)|]. etrans; [apply demo_read_step|]. apply demo_act_step.
Qed.

Lemma orphans_exact_witness :
  sy_log demo_orphaned = [Created 7 0 77 "agent.1"; Stored 0 0; Stored 0 5; ReadFile 0; Declared 0 (mk_orphan "agent.1" 77 5)]
  ∧ sy_held demo_orphaned !! (7, 0) = None.
Proof.
  assert (sy_log demo_orphaned = [Created 7 0 77 "agent.1"; Stored 0 0; Stored 0 5; ReadFile 0; Declared 0 (mk_orphan "agent.1" 77 5)]) as E
    by (vm_compute; reflexivity).
  destruct (orphans_exact demo_orphaned demo_orphaned_reach) as (H & _). split; [exact E|].
  destruct (sy_held demo_orphaned !! (7, 0)) as [r|] eqn:Hr; [|reflexivity].
  destruct (H 0 (mk_orphan "agent.1" 77 5) 7 r); [|exact Hr]. rewrite E. repeat (first [left|right]).
Defined.

(** The file is read before it is locked. A worker that allocates, finishes and is gone between
    the two is declared all the same, at a position it had passed. *)
Definition demo_stale : System :=
  demo_act (demo_die 7 (demo_final 7 0 (demo_store 7 0 5 (demo_read (demo_scan 8 (demo_register 7 start)))))).

Lemma stale_scan :
  rtc reg_step start demo_stale
  ∧ sy_log demo_stale = [Created 7 0 77 "agent.1"; Stored 0 0; ReadFile 0; Stored 0 5; Finalized 0; Declared 0 (mk_orphan "agent.1" 77 0)].
Proof.
  split; [|vm_compute; reflexivity]. etrans; [exact (demo_register_step 7 start eq_refl)|]. etrans; [apply (demo_scan_step 8)|].
  etrans; [apply demo_read_step|]. etrans; [apply (demo_store_step 7 0 5); unfold storable; lia|]. etrans; [apply (demo_final_step 7 0)|].
  etrans; [apply (demo_die_step 7)|]. apply demo_act_step.
Qed.
