(* ===== verification/Sums.v ===== *)
(** * Sums over lists and maps

    What is counted in several places at once - bytes held, positions awaiting an outcome - is
    counted as a sum, so that a step that moves something moves its term. *)

From stdpp Require Import gmap.
From S2P Require Import Prelude.

Definition sum_by {A} (f : A → Z) (l : list A) : Z := foldr (λ x n, f x + n) 0 l.
Definition map_sum {A} (f : A → Z) (m : gmap Z A) : Z := sum_by (λ p, f p.2) (map_to_list m).

Lemma sum_by_nil {A} (f : A → Z) : sum_by f [] = 0.
Proof. done. Qed.

Lemma sum_by_cons {A} (f : A → Z) x l : sum_by f (x :: l) = f x + sum_by f l.
Proof. done. Qed.

Lemma sum_by_app {A} (f : A → Z) l k : sum_by f (l ++ k) = sum_by f l + sum_by f k.
Proof. induction l as [|x l IH]; [done|]. cbn [app]. rewrite !sum_by_cons. lia. Qed.

Lemma sum_by_perm {A} (f : A → Z) l k : l ≡ₚ k → sum_by f l = sum_by f k.
Proof. induction 1 as [| | |]; rewrite ?sum_by_cons; lia. Qed.

Lemma sum_by_fmap {A B} (f : B → Z) (g : A → B) l : sum_by f (g <$> l) = sum_by (λ x, f (g x)) l.
Proof. induction l as [|x l IH]; [done|]. rewrite fmap_cons, !sum_by_cons. lia. Qed.

Lemma sum_by_concat {A B} (f : B → Z) (g : A → list B) l :
  sum_by f (concat (g <$> l)) = sum_by (λ x, sum_by f (g x)) l.
Proof. induction l as [|x l IH]; [done|]. rewrite fmap_cons. cbn [concat]. rewrite sum_by_app, sum_by_cons. lia. Qed.

Lemma sum_by_nonneg {A} (f : A → Z) l : (∀ x, x ∈ l → 0 ≤ f x) → 0 ≤ sum_by f l.
Proof.
  induction l as [|x l IH]; intros H; [done|]. rewrite sum_by_cons.
  assert (0 ≤ f x) by (apply H; constructor). assert (0 ≤ sum_by f l); [|lia].
  apply IH. intros y Hy. apply H. by constructor.
Qed.

(** The term of an element replaced by that of another. *)
Lemma sum_by_insert {A} (f : A → Z) l i x y : l !! i = Some x → sum_by f (<[i := y]> l) = sum_by f l - f x + f y.
Proof.
  revert i. induction l as [|z l IH]; intros [|i] H; try discriminate.
  - injection H as ->. change (<[0%nat := y]> (x :: l)) with (y :: l). rewrite !sum_by_cons. lia.
  - change (<[S i := y]> (z :: l)) with (z :: <[i := y]> l). rewrite !sum_by_cons, (IH i H). lia.
Qed.

Lemma map_sum_empty {A} (f : A → Z) : map_sum f ∅ = 0.
Proof. unfold map_sum. by rewrite map_to_list_empty. Qed.

Lemma map_sum_insert {A} (f : A → Z) m k x : m !! k = None → map_sum f (<[k := x]> m) = f x + map_sum f m.
Proof. intros H. unfold map_sum. by rewrite (sum_by_perm _ _ _ (map_to_list_insert m k x H)), sum_by_cons. Qed.

Lemma map_sum_delete {A} (f : A → Z) m k x : m !! k = Some x → map_sum f (delete k m) = map_sum f m - f x.
Proof. intros H. rewrite <-(insert_delete_id m k x H) at 2. rewrite map_sum_insert by apply lookup_delete_eq. lia. Qed.

Lemma map_sum_replace {A} (f : A → Z) m k x y : m !! k = Some x → map_sum f (<[k := y]> m) = map_sum f m - f x + f y.
Proof.
  intros H. rewrite <-insert_delete_eq, map_sum_insert by apply lookup_delete_eq.
  rewrite (map_sum_delete f m k x H). lia.
Qed.

Lemma map_sum_values {A} (f : A → Z) m : map_sum f m = sum_by f (map_to_list m).*2.
Proof. unfold map_sum. by rewrite sum_by_fmap. Qed.

Lemma map_sum_list {A} (f : A → Z) (key : A → Z) l : NoDup (key <$> l) →
  map_sum f (list_to_map ((λ x, (key x, x)) <$> l)) = sum_by f l.
Proof.
  intros H. unfold map_sum. rewrite (sum_by_perm _ _ ((λ x, (key x, x)) <$> l)).
  - by rewrite sum_by_fmap.
  - apply map_to_list_to_map. rewrite <-list_fmap_compose. exact H.
Qed.

Lemma map_sum_nonneg {A} (f : A → Z) m : (∀ k x, m !! k = Some x → 0 ≤ f x) → 0 ≤ map_sum f m.
Proof. intros H. apply sum_by_nonneg. intros [k x] Hk. by apply (H k), elem_of_map_to_list. Qed.

(** ** Occurrences *)

Section occurrences.
Context {A : Type} `{EqDecision A}.

Definition occ (p : A) (l : list A) : Z := sum_by (λ q, if bool_decide (q = p) then 1 else 0) l.

Lemma occ_nil p : occ p [] = 0.
Proof. done. Qed.

Lemma occ_cons p q l : occ p (q :: l) = (if bool_decide (q = p) then 1 else 0) + occ p l.
Proof. done. Qed.

Lemma occ_app p l k : occ p (l ++ k) = occ p l + occ p k.
Proof. apply sum_by_app. Qed.

Lemma occ_nonneg p l : 0 ≤ occ p l.
Proof. apply sum_by_nonneg. intros. case_match; lia. Qed.

Lemma occ_in p l : p ∈ l ↔ 1 ≤ occ p l.
Proof.
  induction l as [|q l IH]; [rewrite occ_nil; split; [by intros ?%not_elem_of_nil|lia]|].
  rewrite occ_cons, elem_of_cons. pose proof (occ_nonneg p l). case_bool_decide as Hq; [|rewrite IH].
  - split; [lia|auto].
  - split; [intros [-> |]; [congruence|lia]|]. right. lia.
Qed.

Lemma occ_nodup p l : NoDup l → occ p l = if bool_decide (p ∈ l) then 1 else 0.
Proof.
  induction 1 as [|q l Hq Hl IH]; [done|]. rewrite occ_cons, IH.
  repeat case_bool_decide; subst; set_solver.
Qed.

Lemma occ_le_nodup l : (∀ p, occ p l ≤ 1) → NoDup l.
Proof.
  induction l as [|q l IH]; intros H; constructor.
  - intros Hq%occ_in. specialize (H q). rewrite occ_cons, bool_decide_eq_true_2 in H by done. lia.
  - apply IH. intros p. specialize (H p). rewrite occ_cons in H. case_bool_decide; lia.
Qed.
End occurrences.
