(* ===== verification/Retention.v ===== *)
(** * What is retained of a body

    The hot path of the wire capture ([fabric/wire/_stream.py], [_Side] and [Exchange._retain])
    keeps the chunks of a request or a response as the host reads them, within two bounds and
    a budget shared by all the exchanges of the process ([Budget] of [fabric/wire/_pipeline.py]);
    the worker later cuts what it stores to the first bound ([Protector.side] of
    [fabric/wire/_protect.py]). A chunk is the list of its bytes, each a [Z] in [0, 256). *)

From S2P Require Import Prelude.

Definition chunk : Type := list Z.
Definition size_of (c : chunk) : Z := Z.of_nat (length c).

(** Smaller chunks are copied into a shared buffer. *)
Definition COALESCE_BYTES : Z := 4096.

(** ** The budget *)

Record Budget := mk_budget { bu_limit : Z; bu_used : Z }.

Definition new_budget (limit : Z) : Budget := mk_budget limit 0.

Definition try_reserve (size : Z) (b : Budget) : bool * Budget :=
  if bu_limit b <? bu_used b + size then (false, b)
  else (true, mk_budget (bu_limit b) (bu_used b + size)).

Definition release (size : Z) (b : Budget) : Budget :=
  mk_budget (bu_limit b) (Z.max 0 (bu_used b - size)).

(** ** One side of an exchange *)

(** An element of [chunks]: a [bytes] object kept by reference, or a [bytearray] that grows. *)
Inductive entry := Kept (c : chunk) | Buffer (c : chunk).

Definition bytes_of (e : entry) : chunk := match e with Kept c | Buffer c => c end.

Record Side := mk_side {
  sd_chunks : list entry;
  sd_cut : option string;
  sd_encoding : string;
  sd_media_type : string;
  sd_observed : Z;
  sd_prefix : option Z;
  sd_retained : Z;
  sd_truncated : bool;
}.

(** [_Side.__init__], given what [headers.get] answers. *)
Definition new_side (headers : string → option string) : Side :=
  mk_side [] None (default "identity" (headers "content-encoding"))
    (default "application/octet-stream" (headers "content-type")) 0 None 0 false.

Definition set_chunks (l : list entry) (s : Side) : Side :=
  mk_side l (sd_cut s) (sd_encoding s) (sd_media_type s) (sd_observed s) (sd_prefix s) (sd_retained s) (sd_truncated s).
Definition set_prefix (p : option Z) (s : Side) : Side :=
  mk_side (sd_chunks s) (sd_cut s) (sd_encoding s) (sd_media_type s) (sd_observed s) p (sd_retained s) (sd_truncated s).
Definition observe (size : Z) (s : Side) : Side :=
  mk_side (sd_chunks s) (sd_cut s) (sd_encoding s) (sd_media_type s) (sd_observed s + size) (sd_prefix s) (sd_retained s) (sd_truncated s).
Definition count (size : Z) (s : Side) : Side :=
  mk_side (sd_chunks s) (sd_cut s) (sd_encoding s) (sd_media_type s) (sd_observed s) (sd_prefix s) (sd_retained s + size) (sd_truncated s).

(** [_Side.stop]: the first reason is kept. *)
Definition stop (reason : string) (s : Side) : Side :=
  mk_side (sd_chunks s) (Some (or_str (sd_cut s) reason)) (sd_encoding s) (sd_media_type s)
    (sd_observed s) (sd_prefix s) (sd_retained s) true.

(** The list of chunks with one more. *)
Fixpoint keep_chunk (c : chunk) (l : list entry) : list entry :=
  match l with
  | [] => [if COALESCE_BYTES <=? size_of c then Kept c else Buffer c]
  | [last] =>
      if COALESCE_BYTES <=? size_of c then [last; Kept c]
      else match last with
      | Buffer b => if size_of b <? COALESCE_BYTES then [Buffer (b ++ c)] else [last; Buffer c]
      | Kept _ => [last; Buffer c]
      end
  | e :: l => e :: keep_chunk c l
  end.

(** [_Side.keep] *)
Definition keep (c : chunk) (s : Side) : Side := set_chunks (keep_chunk c (sd_chunks s)) s.

(** What a job takes over. *)
Record CapturedBody := mk_body {
  cb_chunks : list entry;
  cb_observed_byte_length : Z;
  cb_truncated : bool;
  cb_media_type : string;
  cb_content_encoding : string;
  cb_cut_reason : option string;
  cb_prefix_length : option Z;
}.

Definition retained_bytes (l : list entry) : chunk := concat (bytes_of <$> l).

Definition captured_byte_length (b : CapturedBody) : Z :=
  foldr (λ e n, size_of (bytes_of e) + n) 0 (cb_chunks b).

(** [_Side.body]: the list of chunks moves to the job. *)
Definition body (s : Side) : CapturedBody * Side :=
  (mk_body (sd_chunks s) (sd_observed s) (sd_truncated s) (sd_media_type s) (sd_encoding s)
     (if sd_truncated s then sd_cut s else None) (sd_prefix s),
   set_chunks [] s).

(** ** Retaining a chunk *)

(** The bounds of the exchange's owner. *)
Record Limits := mk_limits { max_body_bytes : Z; max_retain_bytes : Z }.

(** The prefix of whole chunks within the bound, once a chunk crosses it. *)
Definition note_prefix (lim : Limits) (size : Z) (s : Side) : Side :=
  match sd_prefix s with
  | None => if max_body_bytes lim - sd_retained s <? size then set_prefix (Some (sd_retained s)) s else s
  | Some _ => s
  end.

(** [Exchange._retain] up to the reservation: the side, the budget, and whether the chunk was
    reserved and has to be counted and kept. *)
Definition consider (lim : Limits) (done : bool) (c : chunk) (s : Side) (b : Budget) : Side * Budget * bool :=
  let size := size_of c in
  if size =? 0 then (s, b, false)
  else
    let s := observe size s in
    if sd_truncated s || done then (s, b, false)
    else
      let s := note_prefix lim size s in
      if max_retain_bytes lim - sd_retained s <? size then (stop "body_cap" s, b, false)
      else match try_reserve size b with
           | (true, b) => (s, b, true)
           | (false, b) => (stop "inflight_budget" s, b, false)
           end.

(** [Exchange._retain], when no other thread comes in between. *)
Definition retain (lim : Limits) (done : bool) (c : chunk) (s : Side) (b : Budget) : Side * Budget :=
  match consider lim done c s b with
  | (s, b, true) => (keep c (count (size_of c) s), b)
  | (s, b, false) => (s, b)
  end.

(** ** What the worker stores *)

(** [whole_chunk_prefix] *)
Fixpoint whole_chunks (limit size : Z) (l : list chunk) : list chunk :=
  match l with
  | [] => []
  | c :: l => if limit <? size + size_of c then [] else c :: whole_chunks limit (size + size_of c) l
  end.
Definition whole_chunk_prefix (l : list chunk) (limit : Z) : chunk := concat (whole_chunks limit 0 l).

(** The cut of [Protector.side], for a side with a [cut_reason]: [data] once it is cut to the
    bound. The reasons, the split of a body into parts and the masked modes are not modelled. *)
Definition cut_data (max_body : Z) (prefix : option Z) (l : list entry) : chunk :=
  let data := retained_bytes l in
  if max_body <? size_of data then
    match prefix with
    | Some p => firstn (Z.to_nat p) data
    | None => whole_chunk_prefix (bytes_of <$> l) max_body
    end
  else data.

(** A side in use: the chunks it was shown, whatever the other exchanges left of the budget,
    and the stops of the exchange. *)
Inductive shown (lim : Limits) : list chunk → Side → Prop :=
  | Sh_new headers : shown lim [] (new_side headers)
  | Sh_retain l s b c : shown lim l s → shown lim (l ++ [c]) (retain lim false c s b).1
  | Sh_stop l s reason : shown lim l s → shown lim l (stop reason s).

(** ** Lemmas *)

Lemma size_nonneg c : 0 ≤ size_of c.
Proof. unfold size_of. lia. Qed.
#[local] Hint Resolve size_nonneg : core.

Lemma size_app c d : size_of (c ++ d) = size_of c + size_of d.
Proof. unfold size_of. rewrite length_app. lia. Qed.

Lemma size_zero c : size_of c = 0 → c = [].
Proof. destruct c; [done|]. unfold size_of. simpl. lia. Qed.

Lemma concat_snoc (l : list chunk) c : concat (l ++ [c]) = concat l ++ c.
Proof. rewrite concat_app. cbn [concat]. by rewrite app_nil_r. Qed.

Lemma captured_is_retained b : captured_byte_length b = size_of (retained_bytes (cb_chunks b)).
Proof.
  unfold captured_byte_length, retained_bytes. induction (cb_chunks b) as [|e l IH]; [done|].
  rewrite fmap_cons. cbn [foldr concat]. rewrite size_app. lia.
Qed.

Lemma keep_retained c l : retained_bytes (keep_chunk c l) = retained_bytes l ++ c.
Proof.
  unfold retained_bytes. induction l as [|e [|e' l] IH].
  - cbn [keep_chunk]. case_match; cbn; by rewrite app_nil_r.
  - cbn [keep_chunk]. repeat case_match; cbn; rewrite ?app_nil_r; done.
  - change (keep_chunk c (e :: e' :: l)) with (e :: keep_chunk c (e' :: l)).
    rewrite (fmap_cons _ e), (fmap_cons _ e (e' :: l)). cbn [concat]. by rewrite IH, app_assoc.
Qed.

(** The bound on the number of elements, as a reserve that never falls: an open buffer has
    room for what it may still take. *)
Definition room (l : list entry) : Z :=
  match last l with
  | Some (Buffer b) => if size_of b <? COALESCE_BYTES then COALESCE_BYTES - 2 * size_of b else 0
  | _ => 0
  end.
Definition reserve (l : list entry) : Z :=
  2 * size_of (retained_bytes l) + room l - COALESCE_BYTES * Z.of_nat (length l).

Lemma reserve_cons e l : l ≠ [] → reserve (e :: l) = 2 * size_of (bytes_of e) - COALESCE_BYTES + reserve l.
Proof.
  intros Hl. unfold reserve, retained_bytes, room. destruct l as [|e' l]; [done|].
  cbn [fmap list_fmap concat last]. rewrite size_app. unfold COALESCE_BYTES. simpl length. lia.
Qed.

Lemma keep_chunk_nonempty c l : keep_chunk c l ≠ [].
Proof. destruct l as [|e [|e' l]]; [cbn; case_match; done|cbn; repeat case_match; done|done]. Qed.

Lemma keep_reserve c l : reserve l ≤ reserve (keep_chunk c l).
Proof.
  induction l as [|e [|e' l] IH].
  - cbn [keep_chunk]. unfold reserve, room, retained_bytes.
    destruct (Z.leb_spec COALESCE_BYTES (size_of c)) as [H|H]; cbn; rewrite ?app_nil_r;
      [|destruct (Z.ltb_spec (size_of c) COALESCE_BYTES); [|lia]];
      change (size_of []) with 0; pose proof (size_nonneg c); unfold COALESCE_BYTES in *; lia.
  - cbn [keep_chunk]. unfold reserve, room, retained_bytes, COALESCE_BYTES in *.
    pose proof (size_nonneg c). pose proof (size_nonneg (bytes_of e)).
    destruct (Z.leb_spec 4096 (size_of c)), e as [b|b]; cbn [bytes_of] in *;
      try destruct (Z.ltb_spec (size_of b) 4096) as [Hb|Hb]; cbn [last fmap list_fmap concat length bytes_of];
      rewrite ?app_nil_r, ?size_app;
      repeat match goal with |- context [?x <? ?y] => destruct (Z.ltb_spec x y) end; simpl length in *; try lia.
  - change (keep_chunk c (e :: e' :: l)) with (e :: keep_chunk c (e' :: l)).
    rewrite (reserve_cons e (e' :: l)) by done. rewrite (reserve_cons e (keep_chunk _ _)) by apply keep_chunk_nonempty. lia.
Qed.

Lemma room_small l : room l ≤ COALESCE_BYTES.
Proof.
  unfold room, COALESCE_BYTES. destruct (last l) as [[b|b]|]; [lia| |lia]. pose proof (size_nonneg b).
  case_match; lia.
Qed.

Lemma whole_chunks_app limit l k : ∀ n, whole_chunks limit n (l ++ k) =
  if decide (whole_chunks limit n l = l) then l ++ whole_chunks limit (n + size_of (concat l)) k
  else whole_chunks limit n l.
Proof.
  induction l as [|c l IH]; intros n; cbn [whole_chunks app concat].
  { rewrite decide_True by done. f_equal. unfold size_of. simpl. lia. }
  destruct (limit <? n + size_of c); [by rewrite decide_False|]. rewrite IH, size_app.
  repeat case_decide; try congruence. do 3 f_equal. lia.
Qed.

Lemma whole_chunks_all limit l : ∀ n, n + size_of (concat l) ≤ limit → whole_chunks limit n l = l.
Proof.
  induction l as [|c l IH]; intros n Hn; [done|]. cbn [whole_chunks concat] in *. rewrite size_app in Hn.
  pose proof (size_nonneg (concat l)). destruct (Z.ltb_spec limit (n + size_of c)); [lia|].
  f_equal. apply IH. lia.
Qed.

Lemma whole_chunks_fit limit l : ∀ n, n ≤ limit → n + size_of (concat (whole_chunks limit n l)) ≤ limit.
Proof.
  induction l as [|c l IH]; intros n Hn; cbn [whole_chunks].
  { unfold size_of. simpl. lia. }
  destruct (Z.ltb_spec limit (n + size_of c)); [unfold size_of; simpl; lia|].
  cbn [concat]. rewrite size_app. specialize (IH (n + size_of c)). lia.
Qed.

(** ** The invariant of a side in use *)

Record side_ok (lim : Limits) (l : list chunk) (s : Side) : Prop := {
  so_observed : sd_observed s = size_of (concat l);
  so_retained : sd_retained s = size_of (retained_bytes (sd_chunks s));
  so_max : sd_retained s ≤ max_retain_bytes lim;
  so_part : ∃ k, retained_bytes (sd_chunks s) = concat (firstn k l);
  so_all : sd_truncated s = false → retained_bytes (sd_chunks s) = concat l;
  so_cut : sd_truncated s = true ↔ is_Some (sd_cut s);
  so_none : sd_prefix s = None → sd_retained s ≤ max_body_bytes lim;
  so_some p : sd_prefix s = Some p → whole_chunks (max_body_bytes lim) 0 l ≠ l ∧ 0 ≤ p ≤ sd_retained s ∧
    firstn (Z.to_nat p) (retained_bytes (sd_chunks s)) = whole_chunk_prefix l (max_body_bytes lim);
  so_entries : 0 ≤ reserve (sd_chunks s);
}.

(** A longer stream has the same prefix once a chunk crossed the bound. *)
Lemma crossed_app limit l k : whole_chunks limit 0 l ≠ l →
  whole_chunks limit 0 (l ++ k) = whole_chunks limit 0 l ∧ whole_chunks limit 0 (l ++ k) ≠ l ++ k.
Proof.
  intros Hl. rewrite whole_chunks_app, decide_False by done. split; [done|]. intros E. apply Hl.
  assert (length (whole_chunks limit 0 l) ≤ length l)%nat as Hle.
  { clear. generalize 0. induction l as [|c l IH]; intros n; [done|]. cbn [whole_chunks].
    case_match; simpl; [lia|]. specialize (IH (n + size_of c)). lia. }
  rewrite E, length_app in Hle. destruct k; [by rewrite app_nil_r in E|simpl in Hle; lia].
Qed.

Lemma firstn_snoc_part (l : list chunk) c (d : chunk) :
  (∃ k, d = concat (firstn k l)) → ∃ k, d = concat (firstn k (l ++ [c])).
Proof.
  intros [k ->]. exists (k `min` length l)%nat. rewrite take_app_le by lia.
  f_equal. destruct (decide (k ≤ length l)%nat); [by rewrite Nat.min_l by lia|].
  rewrite Nat.min_r, (take_ge l k), (take_ge l (length l)) by lia. done.
Qed.

(** The side that did not take a chunk it was shown. *)
Lemma ok_passed lim l s c : side_ok lim l s → (c = [] ∨ sd_truncated s = true) →
  side_ok lim (l ++ [c]) (observe (size_of c) s).
Proof.
  intros [Ho Hr Hm Hp Ha Hc Hn Hs He] Hcase. constructor; cbn; [..|done].
  - rewrite concat_snoc, size_app. lia.
  - done.
  - done.
  - by apply firstn_snoc_part.
  - intros Ht. destruct Hcase as [-> |]; [|congruence]. rewrite concat_snoc, app_nil_r. auto.
  - done.
  - done.
  - intros p Hp'. destruct (Hs p Hp') as (Hx & Hb & Hf).
    destruct (crossed_app (max_body_bytes lim) l [c] Hx) as [E Hne]. split; [done|]. split; [done|].
    unfold whole_chunk_prefix in *. by rewrite E.
Qed.

Lemma observe_none s : observe (size_of []) s = s.
Proof. destruct s. unfold observe, size_of. simpl. by rewrite Z.add_0_r. Qed.

Lemma ok_stop lim l s reason : side_ok lim l s → side_ok lim l (stop reason s).
Proof. intros [Ho Hr Hm Hp Ha Hc Hn Hs He]. constructor; cbn; done. Qed.

(** The prefix of the side that is shown a chunk while it still retains. *)
Lemma note_prefix_ok lim l s c : side_ok lim l s → sd_truncated s = false → c ≠ [] → 0 ≤ max_body_bytes lim →
  let s' := note_prefix lim (size_of c) (observe (size_of c) s) in
  (sd_prefix s' = None → sd_retained s + size_of c ≤ max_body_bytes lim) ∧
  ∀ p, sd_prefix s' = Some p → whole_chunks (max_body_bytes lim) 0 (l ++ [c]) ≠ l ++ [c] ∧ 0 ≤ p ≤ sd_retained s ∧
    firstn (Z.to_nat p) (concat l) = whole_chunk_prefix (l ++ [c]) (max_body_bytes lim).
Proof.
  intros [Ho Hr Hm Hp Ha Hc Hn Hs He] Ht Hne Hb. specialize (Ha Ht). cbn zeta.
  unfold note_prefix. cbn [sd_prefix observe sd_retained]. destruct (sd_prefix s) as [q|] eqn:Eq.
  - change (sd_prefix (observe (size_of c) s)) with (sd_prefix s). rewrite Eq. split; [done|]. intros p [= <-].
    destruct (Hs q eq_refl) as (Hx & Hq & Hf). destruct (crossed_app _ l [c] Hx) as [E Hx'].
    split; [done|]. split; [done|]. unfold whole_chunk_prefix in *. by rewrite E, <-Ha.
  - specialize (Hn eq_refl). destruct (Z.ltb_spec (max_body_bytes lim - sd_retained s) (size_of c)) as [H|H]; cbn [sd_prefix set_prefix].
    + split; [done|]. intros p [= <-].
      assert (whole_chunks (max_body_bytes lim) 0 (l ++ [c]) = l) as E.
      { rewrite whole_chunks_app, decide_True by (apply whole_chunks_all; rewrite <-Ha; lia).
        cbn [whole_chunks]. destruct (Z.ltb_spec (max_body_bytes lim) (0 + size_of (concat l) + size_of c)) as [|H'];
          [by rewrite app_nil_r|rewrite <-Ha in H'; lia]. }
      split; [rewrite E; intros E'; apply (f_equal length) in E'; rewrite length_app in E'; simpl in E'; lia|].
      split; [rewrite Hr; split; [apply size_nonneg|done]|].
      unfold whole_chunk_prefix. rewrite E. apply take_ge. rewrite <-Ha. unfold size_of in Hr. lia.
    + change (sd_prefix (observe (size_of c) s)) with (sd_prefix s). rewrite Eq. split; [lia|done].
Qed.

(** A side that is shown a chunk and stops, and one that takes it. *)
Lemma ok_stopped lim l s c reason : side_ok lim l s → sd_truncated s = false → c ≠ [] → 0 ≤ max_body_bytes lim →
  side_ok lim (l ++ [c]) (stop reason (note_prefix lim (size_of c) (observe (size_of c) s))).
Proof.
  intros Hok Ht Hne Hb. destruct (note_prefix_ok lim l s c Hok Ht Hne Hb) as [Hnone Hsome].
  destruct Hok as [Ho Hr Hm Hp Ha Hc Hn Hs He].
  set (s' := note_prefix _ _ _) in *.
  assert (sd_chunks s' = sd_chunks s ∧ sd_retained s' = sd_retained s ∧ sd_observed s' = sd_observed s + size_of c) as (E1 & E2 & E3)
    by (unfold s', note_prefix; repeat case_match; done).
  constructor; cbn [stop sd_observed sd_retained sd_chunks sd_truncated sd_cut sd_prefix]; rewrite ?E1, ?E2, ?E3; try done.
  - rewrite concat_snoc, size_app. lia.
  - by apply firstn_snoc_part.
  - intros H. specialize (Hnone H). pose proof (size_nonneg c). lia.
  - intros p H. rewrite (Ha Ht). auto.
Qed.

Lemma ok_taken lim l s c : side_ok lim l s → sd_truncated s = false → c ≠ [] → 0 ≤ max_body_bytes lim →
  sd_retained s + size_of c ≤ max_retain_bytes lim →
  side_ok lim (l ++ [c]) (keep c (count (size_of c) (note_prefix lim (size_of c) (observe (size_of c) s)))).
Proof.
  intros Hok Ht Hne Hb Hfit. destruct (note_prefix_ok lim l s c Hok Ht Hne Hb) as [Hnone Hsome].
  destruct Hok as [Ho Hr Hm Hp Ha Hc Hn Hs He]. specialize (Ha Ht).
  set (s' := note_prefix _ _ _) in *.
  assert (sd_chunks s' = sd_chunks s ∧ sd_retained s' = sd_retained s ∧ sd_observed s' = sd_observed s + size_of c
    ∧ sd_truncated s' = sd_truncated s ∧ sd_cut s' = sd_cut s) as (E1 & E2 & E3 & E4 & E5)
    by (unfold s', note_prefix; repeat case_match; done).
  constructor; cbn [keep set_chunks count sd_observed sd_retained sd_chunks sd_truncated sd_cut sd_prefix];
    rewrite ?E1, ?E2, ?E3, ?E4, ?E5, ?keep_retained, ?Ha, ?concat_snoc, ?size_app; try done.
  - lia.
  - rewrite Hr, Ha. lia.
  - exists (length (l ++ [c])). by rewrite firstn_all, concat_snoc.
  - intros p H. destruct (Hsome p H) as (Hx & Hp' & Hf). split; [done|]. split; [pose proof (size_nonneg c); lia|].
    rewrite <-Hf. apply take_app_le. rewrite Hr, Ha in Hp'. unfold size_of in Hp'. lia.
  - pose proof (keep_reserve c (sd_chunks s)). lia.
Qed.

Lemma ok_retain lim l s b c : side_ok lim l s → 0 ≤ max_body_bytes lim → side_ok lim (l ++ [c]) (retain lim false c s b).1.
Proof.
  intros Hok Hb. unfold retain, consider. destruct (Z.eqb_spec (size_of c) 0) as [E|E].
  { apply size_zero in E as ->. 
    pose proof (ok_passed lim l s [] Hok (or_introl eq_refl)) as H. by rewrite (observe_none s) in H. }
  assert (c ≠ []) as Hne by (intros ->; done). cbn [sd_truncated observe orb].
  destruct (sd_truncated s) eqn:Ht; cbn [orb]; [by apply ok_passed; auto|].
  assert (sd_retained (note_prefix lim (size_of c) (observe (size_of c) s)) = sd_retained s) as E2
    by (unfold note_prefix; repeat case_match; done).
  rewrite E2. destruct (Z.ltb_spec (max_retain_bytes lim - sd_retained s) (size_of c)) as [H|H]; [by apply ok_stopped|].
  destruct (try_reserve (size_of c) b) as [[|] b']; [apply ok_taken; try done; lia|by apply ok_stopped].
Qed.

Lemma shown_ok lim l s : 0 ≤ max_body_bytes lim → 0 ≤ max_retain_bytes lim → shown lim l s → side_ok lim l s.
Proof.
  intros Hb Hm. induction 1 as [headers|l s b c _ IH|l s reason _ IH]; [|by apply ok_retain|by apply ok_stop].
  constructor; cbn; try done.
  - by exists 0%nat.
Qed.

(** ** Properties *)

(** C23: What a side retains is the chunks it was shown, whole and in order, up to where
    retention stopped: the bytes it holds are those of the first chunks, all of them unless
    it is marked truncated, never more than the bound, in a number of buffers that the bytes
    bound; and it counts every byte it was shown. *)
Theorem retention_exact lim l s :
  0 ≤ max_body_bytes lim → 0 ≤ max_retain_bytes lim → shown lim l s →
  let b := (body s).1 in
  let data := retained_bytes (cb_chunks b) in
  cb_observed_byte_length b = size_of (concat l) ∧
  captured_byte_length b = sd_retained s ∧ sd_retained s ≤ max_retain_bytes lim ∧
  (∃ k, data = concat (firstn k l)) ∧
  (cb_truncated b = false → data = concat l) ∧
  (cb_truncated b = true ↔ is_Some (cb_cut_reason b)) ∧
  COALESCE_BYTES * (Z.of_nat (length (cb_chunks b)) - 1) ≤ 2 * captured_byte_length b.
Proof.
  intros Hb Hm Hs. destruct (shown_ok lim l s Hb Hm Hs) as [Ho Hr Hmax Hp Ha Hc Hn Hsome He].
  cbn zeta. rewrite captured_is_retained. cbn [body fst cb_chunks cb_observed_byte_length cb_truncated cb_cut_reason].
  split_and!; try done.
  - destruct (sd_truncated s); [tauto|]. split; [done|by intros []].
  - pose proof (room_small (sd_chunks s)). unfold reserve in He. lia.
Qed.

(** C22: When the worker cuts a side to [max_body_bytes], what it stores is the longest prefix
    of whole chunks, as the host saw them, that the bound allows - although small chunks have
    been merged in buffers and the worker only has a length -, and what is not cut is within
    the bound. *)
Theorem stored_prefix_exact lim l s :
  0 ≤ max_body_bytes lim → 0 ≤ max_retain_bytes lim → shown lim l s →
  let b := (body s).1 in
  let stored := cut_data (max_body_bytes lim) (cb_prefix_length b) (cb_chunks b) in
  stored = (if max_body_bytes lim <? sd_retained s then whole_chunk_prefix l (max_body_bytes lim)
            else retained_bytes (cb_chunks b)) ∧
  size_of stored ≤ max_body_bytes lim.
Proof.
  intros Hb Hm Hs. destruct (shown_ok lim l s Hb Hm Hs) as [Ho Hr Hmax Hp Ha Hc Hn Hsome He].
  cbn zeta. cbn [body fst cb_chunks cb_prefix_length]. unfold cut_data. rewrite <-Hr.
  destruct (Z.ltb_spec (max_body_bytes lim) (sd_retained s)) as [H|H]; [|rewrite <-Hr; done].
  destruct (sd_prefix s) as [p|] eqn:E; [|specialize (Hn eq_refl); lia].
  destruct (Hsome p eq_refl) as (_ & _ & Hf). rewrite Hf. split; [done|].
  pose proof (whole_chunks_fit (max_body_bytes lim) l 0 Hb). unfold whole_chunk_prefix. lia.
Qed.

(** ** Witnesses *)

Definition a_stream : list chunk := [[1; 2; 3]; [4; 5]; [6; 7; 8; 9]; [10]].
Definition a_side : Side :=
  fold_left (λ s c, (retain (mk_limits 6 20) false c s (mk_budget 100 0)).1) a_stream (new_side (λ _, None)).

Lemma a_side_shown : shown (mk_limits 6 20) a_stream a_side.
Proof.
  unfold a_side, a_stream. cbn [fold_left].
  apply (Sh_retain _ [[1; 2; 3]; [4; 5]; [6; 7; 8; 9]]). apply (Sh_retain _ [[1; 2; 3]; [4; 5]]).
  apply (Sh_retain _ [[1; 2; 3]]). apply (Sh_retain _ []). apply Sh_new.
Qed.

(** The four chunks are merged in one buffer; three bytes are beyond the first bound. *)
Lemma retention_exact_witness :
  sd_chunks a_side = [Buffer [1; 2; 3; 4; 5; 6; 7; 8; 9; 10]] ∧ sd_prefix a_side = Some 5 ∧
  captured_byte_length (body a_side).1 = 10.
Proof.
  split_and!; [reflexivity|reflexivity|].
  destruct (retention_exact (mk_limits 6 20) a_stream a_side) as (_ & H & _); [done|done|apply a_side_shown|].
  rewrite H. reflexivity.
Defined.

Lemma stored_prefix_exact_witness :
  cut_data 6 (cb_prefix_length (body a_side).1) (cb_chunks (body a_side).1) = [1; 2; 3; 4; 5].
Proof.
  destruct (stored_prefix_exact (mk_limits 6 20) a_stream a_side) as [H _]; [done|done|apply a_side_shown|].
  cbn zeta in H. cbn [max_body_bytes] in H. rewrite H. reflexivity.
Defined.
