(* ===== verification/Capture.v ===== *)
(** * Exchanges and the capture queue

    How a model call that the wire tee sees becomes a record ([fabric/wire/_stream.py],
    [Exchange]; [fabric/wire/_transport.py], [WireTee]; [fabric/wire/_pipeline.py],
    [CapturePipeline]): an exchange takes a position when it begins - or, inside a live explicit
    call, only when it turns out to have outlived it -, retains what the host reads, is
    finished, detached or shut by whichever thread claims it first, and hands its bodies to
    the worker's queue; the worker stores and spools, in batches; closing takes what is left.
    A step is what one thread does between two points where another can come in: a section
    under a lock, or what touches only the thread's own data. What the host, the stores and the
    spool answer, and which positions the allocator gives ([Sequence] shows that it never gives
    one twice), are arguments of the steps. Not modelled: the forked child (which starts with
    an empty tee and an empty pipeline), the fields of a job that are only copied to its span or to
    its loss, timeouts, and the seal accumulator ([SegmentSeals]) told of what settles. *)

From stdpp Require Import gmap relations.
From S2P Require Import Prelude Retention.

(** A source epoch and a sequence in it. *)
Definition position : Type := Z * Z.

Inductive response_state := Complete | ClosedEarly | Abandoned | Failed.

(** ** Jobs *)

(** What a job carries: the bodies of an exchange, or the bytes charged for those of a record. *)
Inductive payload :=
  | Wire (request : CapturedBody) (response : option CapturedBody) (state : response_state)
      (error_type : option string) (status_code : option Z)
  | Record_ (inflight_charge : Z).

(** [CaptureJob] and [RecordJob]; [jb_id] is the identity of the object, [id(job)]. *)
Record Job := mk_job { jb_id : Z; jb_position : position; jb_payload : payload }.

(** The bytes that [WireTee._release] gives back, and [_job_bytes]. *)
Definition wire_bytes (j : Job) : Z :=
  match jb_payload j with
  | Wire request response _ _ _ =>
      captured_byte_length request + match response with Some b => captured_byte_length b | None => 0 end
  | Record_ _ => 0
  end.
Definition job_bytes (j : Job) : Z := match jb_payload j with Record_ charge => charge | _ => wire_bytes j end.

(** ** Exchanges *)

Record Exchange := mk_exchange {
  ex_done : bool;
  ex_deferral : bool;
  ex_position : position;
  ex_request : Side;
  ex_response : option Side;
  ex_request_tee : bool;
  ex_request_sent : bool;
  ex_status_code : option Z;
}.

Definition set_done (d : bool) (x : Exchange) : Exchange :=
  mk_exchange d (ex_deferral x) (ex_position x) (ex_request x) (ex_response x) (ex_request_tee x) (ex_request_sent x) (ex_status_code x).
Definition set_request (s : Side) (x : Exchange) : Exchange :=
  mk_exchange (ex_done x) (ex_deferral x) (ex_position x) s (ex_response x) (ex_request_tee x) (ex_request_sent x) (ex_status_code x).
Definition set_response (s : option Side) (status : option Z) (x : Exchange) : Exchange :=
  mk_exchange (ex_done x) (ex_deferral x) (ex_position x) (ex_request x) s (ex_request_tee x) (ex_request_sent x) status.
Definition set_sent (tee sent : bool) (x : Exchange) : Exchange :=
  mk_exchange (ex_done x) (ex_deferral x) (ex_position x) (ex_request x) (ex_response x) tee sent (ex_status_code x).

(** How [Exchange.start] finds the body of the request: bytes in memory, a stream it can tee,
    or neither. *)
Inductive request_kind := InMemory | Teed | Opaque.

(** [Exchange.__init__] and [Exchange.start], without the context they read; bytes in memory
    are shown to the side by a step of their own. *)
Definition new_exchange (deferral : bool) (p : position) (kind : request_kind) (headers : string → option string) : Exchange :=
  let side := new_side headers in
  mk_exchange false deferral p (match kind with Opaque => stop "transport_incomplete" side | _ => side end) None
    (match kind with Teed => true | _ => false end) (match kind with Teed => false | _ => true end) None.

(** [Exchange.end_request] *)
Definition end_request (x : Exchange) : Exchange :=
  let x := if ex_request_tee x && negb (ex_request_sent x) then set_request (stop "transport_incomplete" (ex_request x)) x else x in
  set_sent false (ex_request_sent x) x.

(** [Exchange._claim] *)
Definition claim (x : Exchange) : option Exchange := if ex_done x then None else Some (set_done true x).

(** [Exchange.assign] *)
Definition assign (p : position) (x : Exchange) : Exchange :=
  mk_exchange (ex_done x) false p (ex_request x) (ex_response x) (ex_request_tee x) (ex_request_sent x) (ex_status_code x).

(** [Exchange.release] *)
Definition release_exchange (x : Exchange) (b : Budget) : Exchange * Budget :=
  (set_response (set_chunks [] <$> ex_response x) (ex_status_code x) (set_request (set_chunks [] (ex_request x)) x),
   match ex_response x with
   | Some r => release (sd_retained r) (release (sd_retained (ex_request x)) b)
   | None => release (sd_retained (ex_request x)) b
   end).

(** The payload that [Exchange.finish] submits, and the exchange it leaves. *)
Definition take_bodies (state : response_state) (error_type : option string) (x : Exchange) : payload * Exchange :=
  let response := body <$> ex_response x in
  let request := body (ex_request x) in
  (Wire request.1 (fst <$> response) state (match state with Failed => error_type | _ => None end) (ex_status_code x),
   set_response (snd <$> response) (ex_status_code x) (set_request request.2 x)).

(** ** The tee *)

(** What a thread that retains a chunk has done of it. *)
Inductive Add := Reserved (c : chunk) | Counted (c : chunk).

(** An exchange and the threads that work on it: one that finishes it (the state and the error
    it was told) and those that retain a chunk of its request or of its response. *)
Record Entry := mk_entry {
  en_exchange : Exchange;
  en_finishing : option (response_state * option string);
  en_request_add : option Add;
  en_response_add : option Add;
}.

Definition on_exchange (f : Exchange → Exchange) (e : Entry) : Entry :=
  mk_entry (f (en_exchange e)) (en_finishing e) (en_request_add e) (en_response_add e).
Definition set_finishing (f : option (response_state * option string)) (e : Entry) : Entry :=
  mk_entry (en_exchange e) f (en_request_add e) (en_response_add e).

(** The side that a chunk goes to, and its thread. *)
Definition side_of (response : bool) (e : Entry) : option Side :=
  if response then ex_response (en_exchange e) else Some (ex_request (en_exchange e)).
Definition add_of (response : bool) (e : Entry) : option Add :=
  if response then en_response_add e else en_request_add e.
Definition set_side (response : bool) (s : Side) (a : option Add) (e : Entry) : Entry :=
  let x := en_exchange e in
  if response then mk_entry (set_response (Some s) (ex_status_code x) x) (en_finishing e) (en_request_add e) a
  else mk_entry (set_request s x) (en_finishing e) a (en_response_add e).

(** [WireTee]; [te_entries] are the exchanges that ever began. *)
Record Tee := mk_tee {
  te_limits : Limits;
  te_budget : Budget;
  te_entries : list Entry;
  te_active : gset nat;
  te_closed : bool;
  te_matched : Z;
  te_internal_errors : Z;
  te_deferred_to_explicit : Z;
  te_stranded : Z;
}.

Definition set_budget (b : Budget) (t : Tee) : Tee :=
  mk_tee (te_limits t) b (te_entries t) (te_active t) (te_closed t) (te_matched t) (te_internal_errors t)
    (te_deferred_to_explicit t) (te_stranded t).
Definition set_entries (l : list Entry) (t : Tee) : Tee :=
  mk_tee (te_limits t) (te_budget t) l (te_active t) (te_closed t) (te_matched t) (te_internal_errors t)
    (te_deferred_to_explicit t) (te_stranded t).
Definition set_active (a : gset nat) (t : Tee) : Tee :=
  mk_tee (te_limits t) (te_budget t) (te_entries t) a (te_closed t) (te_matched t) (te_internal_errors t)
    (te_deferred_to_explicit t) (te_stranded t).
Definition close_tee (t : Tee) : Tee :=
  mk_tee (te_limits t) (te_budget t) (te_entries t) (te_active t) true (te_matched t) (te_internal_errors t)
    (te_deferred_to_explicit t) (te_stranded t).
Definition tally (matched internal_errors deferred stranded : Z) (t : Tee) : Tee :=
  mk_tee (te_limits t) (te_budget t) (te_entries t) (te_active t) (te_closed t) (te_matched t + matched)
    (te_internal_errors t + internal_errors) (te_deferred_to_explicit t + deferred) (te_stranded t + stranded).

Definition forget (i : nat) (t : Tee) : Tee := set_active (te_active t ∖ {[i]}) t.

(** A position that a thread is about to record as lost, with the reason. *)
Definition loss : Type := position * string.

(** [WireTee.lose] *)
Definition lose (p : position) (reason : string) (t : Tee) : Tee * list loss :=
  (if decide (reason = "internal_error") then tally 0 1 0 0 t else t, [(p, reason)]).

(** [Exchange.detach] of exchange [i], [e]: what it leaves and what it loses; [None] when the
    exchange was claimed already. *)
Definition detach (lost : bool) (i : nat) (e : Entry) (t : Tee) : option (Tee * list loss) :=
  x ← claim (en_exchange e);
  let '(t, losses) :=
    if lost then if ex_deferral x then (tally 0 1 0 0 t, []) else lose (ex_position x) "internal_error" t
    else (t, []) in
  let '(x, b) := release_exchange x (te_budget t) in
  Some (forget i (set_budget b (set_entries (<[i := on_exchange (λ _, x) e]> (te_entries t)) t)), losses).

(** [WireTee.shut]; [defers] is what the explicit call says, [given] what the allocator gives. *)
Definition shut (i : nat) (e : Entry) (defers : bool) (given : option position) (t : Tee) : option (Tee * list loss) :=
  '(t, _) ← detach false i e t;
  if ex_deferral (en_exchange e) then
    if defers then Some (tally 0 0 1 0 t, [])
    else match given with
         | Some p => Some (lose p "shutdown" (tally 0 0 0 1 t))
         | None => Some (t, [])
         end
  else Some (lose (ex_position (en_exchange e)) "shutdown" (tally 0 0 0 1 t)).

(** [WireTee.adopt] of a finished provisional exchange: the exchange and whether it is now the
    tee's. *)
Definition adopt (x : Exchange) (defers : bool) (given : option position) (t : Tee) : Exchange * Tee * bool :=
  if ex_deferral x then
    if defers then let '(x, b) := release_exchange x (te_budget t) in (x, set_budget b (tally 0 0 1 0 t), false)
    else match given with
         | Some p => (assign p x, tally 1 0 0 0 t, true)
         | None => let '(x, b) := release_exchange x (te_budget t) in (x, set_budget b (tally 0 1 0 0 t), false)
         end
  else (x, t, true).

(** ** The pipeline *)

(** [CapturePipeline]; [None] in the queue is the stop sentinel. [pi_charges] are the bytes charged
    for the records under way; the budget they are charged to is the tee's. *)
Record Pipeline := mk_pipeline {
  pi_queue : list (option Job);
  pi_closed : bool;
  pi_pending : Z;
  pi_submitted : Z;
  pi_dropped : Z;
  pi_internal_errors : Z;
  pi_spans_emitted : Z;
  pi_spans_refused : Z;
  pi_current : gmap Z Job;
  pi_charges : gmap Z Z;
}.

Definition set_queue (q : list (option Job)) (n : Z) (p : Pipeline) : Pipeline :=
  mk_pipeline q (pi_closed p) (pi_pending p + n) (pi_submitted p) (pi_dropped p) (pi_internal_errors p)
    (pi_spans_emitted p) (pi_spans_refused p) (pi_current p) (pi_charges p).
Definition set_current (c : gmap Z Job) (p : Pipeline) : Pipeline :=
  mk_pipeline (pi_queue p) (pi_closed p) (pi_pending p) (pi_submitted p) (pi_dropped p) (pi_internal_errors p)
    (pi_spans_emitted p) (pi_spans_refused p) c (pi_charges p).
Definition set_charges (c : gmap Z Z) (p : Pipeline) : Pipeline :=
  mk_pipeline (pi_queue p) (pi_closed p) (pi_pending p) (pi_submitted p) (pi_dropped p) (pi_internal_errors p)
    (pi_spans_emitted p) (pi_spans_refused p) (pi_current p) c.
Definition close_pipeline (p : Pipeline) : Pipeline :=
  mk_pipeline (pi_queue p) true (pi_pending p) (pi_submitted p) (pi_dropped p) (pi_internal_errors p)
    (pi_spans_emitted p) (pi_spans_refused p) (pi_current p) (pi_charges p).
(** Counters: jobs submitted, jobs dropped, errors, spans emitted and refused. *)
Definition bump (submitted dropped errors emitted refused : Z) (p : Pipeline) : Pipeline :=
  mk_pipeline (pi_queue p) (pi_closed p) (pi_pending p) (pi_submitted p + submitted) (pi_dropped p + dropped)
    (pi_internal_errors p + errors) (pi_spans_emitted p + emitted) (pi_spans_refused p + refused) (pi_current p) (pi_charges p).

(** [CapturePipeline._done], for the jobs of the tee: what was held for the job is released. *)
Definition done_job (j : Job) (st : Pipeline * Budget) : Pipeline * Budget :=
  let '(p, b) := st in
  match jb_payload j with
  | Record_ _ =>
      match pi_charges p !! jb_id j with
      | Some charged => (set_charges (delete (jb_id j) (pi_charges p)) p, release charged b)
      | None => (p, b)
      end
  | Wire _ _ _ _ _ => (p, release (wire_bytes j) b)
  end.

(** [CapturePipeline._drop] *)
Definition drop (j : Job) (reason : string) (p : Pipeline) (b : Budget) : Pipeline * Budget * list loss :=
  (done_job j (bump 0 1 0 0 0 p, b), [(jb_position j, reason)]).

(** [CapturePipeline.submit] *)
Definition submit (max_items : nat) (j : Job) (p : Pipeline) (b : Budget) : Pipeline * Budget * list loss :=
  if pi_closed p then drop j "shutdown" p b
  else if decide (length (pi_queue p) < max_items)%nat
  then (bump 1 0 0 0 0 (set_queue (pi_queue p ++ [Some j]) 1 p), b, [])
  else drop j "queue_full" p b.

(** [CapturePipeline.charge_record] *)
Definition charge_record (id charge : Z) (p : Pipeline) (b : Budget) : Pipeline * Budget * bool :=
  if charge <=? 0 then (p, b, true)
  else match try_reserve charge b with
       | (true, b) => (set_charges (<[id := charge]> (pi_charges p)) p, b, true)
       | (false, b) => (p, b, false)
       end.

(** [CapturePipeline._recharge] *)
Definition recharge (id charged actual : Z) (p : Pipeline) (b : Budget) : Pipeline * Budget :=
  match pi_charges p !! id with
  | None => (p, b)
  | Some charge =>
      if charged <=? actual then (p, b)
      else let excess := Z.min charge (charged - actual) in
           (set_charges (<[id := charge - excess]> (pi_charges p)) p, release excess b)
  end.

(** [CapturePipeline._commit]: the job's single terminal transition. *)
Definition commit (j : Job) (p : Pipeline) : option Pipeline :=
  match pi_current p !! jb_id j with
  | Some _ => Some (set_current (delete (jb_id j) (pi_current p)) p)
  | None => None
  end.

(** [CapturePipeline._fail] *)
Definition fail (j : Job) (p : Pipeline) : Pipeline * list loss :=
  match commit j p with
  | Some p => (bump 0 0 1 0 0 p, [(jb_position j, "internal_error")])
  | None => (p, [])
  end.

(** [_BATCH_ITEMS], [_BATCH_BYTES] *)
Definition BATCH_ITEMS : nat := 64.
Definition BATCH_BYTES : Z := 8 * 1024 * 1024.

Definition more_batch (sender : bool) (batch : list Job) : bool :=
  sender && bool_decide (length batch < BATCH_ITEMS)%nat && (foldr (λ j n, job_bytes j + n) 0 batch <? BATCH_BYTES).

(** What becomes of a position: spooled, emitted as a span, or lost; a provider that raises
    once the span was ended leaves it unknown whether the span was exported. *)
Inductive outcome := Spooled | Emitted_ | Unknown | Lost (reason : string).

(** What the provider does of a span ([_emit]). *)
Inductive emission := Refused | NotRecording | Ended | EndRaised.

(** [_emit] and [_emit_record] from the commit on. *)
Definition emit (a : emission) (j : Job) (p : Pipeline) : Pipeline * list loss * list (position * outcome) :=
  match commit j p with
  | None => (p, [], [])
  | Some p =>
      match a with
      | Refused => (bump 0 0 0 0 1 p, [(jb_position j, "span_dropped")], [])
      | NotRecording => (p, [(jb_position j, "span_dropped")], [])
      | Ended => (bump 0 0 0 1 0 p, [], [(jb_position j, Emitted_)])
      | EndRaised => (bump 0 0 1 0 0 p, [], [(jb_position j, Unknown)])
      end
  end.

(** The outcomes of a batch that was spooled, at the end of [_spool_batch]; [None] is
    ["spooled"], another answer is the reason of the loss. *)
Fixpoint settle_batch (ready : list Job) (answers : list (option string)) (p : Pipeline)
    : Pipeline * list loss * list (position * outcome) :=
  match ready, answers with
  | j :: ready, a :: answers =>
      let p := match a with
               | Some reason => if decide (reason = "internal_error") then bump 0 0 1 0 0 p else p
               | None => p
               end in
      let '(p, losses, settled) := settle_batch ready answers p in
      match a with
      | None => (p, losses, (jb_position j, Spooled) :: settled)
      | Some reason => (p, (jb_position j, reason) :: losses, settled)
      end
  | _, _ => (p, [], [])
  end.

(** [_done] of each job of a batch, and the count of what is pending. *)
Definition finish_batch (all : list Job) (p : Pipeline) (b : Budget) : Pipeline * Budget :=
  let '(p, b) := fold_left (λ st j, done_job j st) all (p, b) in (set_queue (pi_queue p) (- Z.of_nat (length all)) p, b).

(** The worker ([_run]): between jobs; taking a batch (and whether it met the sentinel);
    preparing the jobs of one, with those it has committed to spool; after their outcomes. *)
Inductive Worker :=
  | Idle
  | Batching (batch : list Job) (stopping : bool)
  | Working (all todo ready : list Job) (stopping : bool)
  | Ending (all : list Job) (stopping : bool)
  | Stopped.

(** The thread that closes ([close]): it drains the queue, then has the jobs it drained and
    those it claimed from the worker to report. *)
Inductive Closer :=
  | Open
  | Draining (lost : list Job)
  | Reporting (lost claimed : list Job)
  | Closed.

(** [list(self._current.values())], emptied: the jobs that the worker has not committed. *)
Definition claim_current (p : Pipeline) : list Job * Pipeline :=
  let claimed := (map_to_list (pi_current p)).*2 in
  (claimed, bump 0 (Z.of_nat (length claimed)) 0 0 0 (set_current ∅ p)).

(** ** Executions *)

Record System := mk_system {
  sy_tee : Tee;
  sy_pipeline : Pipeline;
  sy_worker : Worker;
  sy_closer : Closer;
  sy_entered : nat;   (** threads in [begin], past its check of [closed] *)
  sy_losing : list loss;   (** positions that some thread is about to record as lost *)
  sy_settled : list (position * outcome);
  sy_allocated : list position;
  sy_torn : Z;   (** bytes of the chunks whose retention was overtaken by the end of their exchange *)
}.

Definition start (lim : Limits) (max_inflight : Z) : System :=
  mk_system (mk_tee lim (new_budget max_inflight) [] ∅ false 0 0 0 0) (mk_pipeline [] false 0 0 0 0 0 0 ∅ ∅)
    Idle Open 0 [] [] [] 0.

Definition worker_jobs (w : Worker) : list Job :=
  match w with Batching all _ | Working all _ _ _ | Ending all _ => all | Idle | Stopped => [] end.
Definition closer_jobs (c : Closer) : list Job := match c with Draining l | Reporting l _ => l | Open | Closed => [] end.

(** The jobs whose [_done] is still to come. *)
Definition jobs (s : System) : list Job :=
  omap id (pi_queue (sy_pipeline s)) ++ worker_jobs (sy_worker s) ++ closer_jobs (sy_closer s).

(** A new object is not one of those that are there. *)
Definition fresh_id (s : System) (id : Z) : Prop := id ∉ jb_id <$> jobs s.

(** The bytes of the chunks that threads have reserved, and reserved or counted, for an entry. *)
Definition reserved_size (a : option Add) : Z := match a with Some (Reserved c) => size_of c | _ => 0 end.
Definition add_size (a : option Add) : Z := match a with Some (Reserved c | Counted c) => size_of c | None => 0 end.
Definition torn_by_release (e : Entry) : Z := reserved_size (en_request_add e) + reserved_size (en_response_add e).
Definition torn_by_finish (e : Entry) : Z := add_size (en_request_add e) + add_size (en_response_add e).

(** What a step of the tee's threads leaves: positions allocated and to be lost, bytes torn. *)
Definition with_tee (t : Tee) (given : list position) (losses : list loss) (torn : Z) (s : System) : System :=
  mk_system t (sy_pipeline s) (sy_worker s) (sy_closer s) (sy_entered s) (sy_losing s ++ losses) (sy_settled s)
    (sy_allocated s ++ given) (sy_torn s + torn).
Definition with_pipeline (p : Pipeline) (b : Budget) (w : Worker) (c : Closer) (losses : list loss)
    (settled : list (position * outcome)) (s : System) : System :=
  mk_system (set_budget b (sy_tee s)) p w c (sy_entered s) (sy_losing s ++ losses) (sy_settled s ++ settled)
    (sy_allocated s) (sy_torn s).
Definition with_entered (n : nat) (s : System) : System :=
  mk_system (sy_tee s) (sy_pipeline s) (sy_worker s) (sy_closer s) n (sy_losing s) (sy_settled s) (sy_allocated s) (sy_torn s).

Definition entry (s : System) (i : nat) : option Entry := te_entries (sy_tee s) !! i.
Definition put_entry (i : nat) (e : Entry) (t : Tee) : Tee := set_entries (<[i := e]> (te_entries t)) t.

(** The positions that an allocation gives are new. *)
Definition new_positions (given : option position) (s : System) : Prop := ∀ p, given = Some p → p ∉ sy_allocated s.

(** [begin]: a new exchange. *)
Definition open_entry (x : Exchange) (matched : Z) (t : Tee) : Tee :=
  tally matched 0 0 0 (set_active ({[length (te_entries t)]} ∪ te_active t)
    (set_entries (te_entries t ++ [mk_entry x None None None]) t)).

(** The rest of [Exchange.finish] once it has claimed exchange [i], [e]: adopted or not, and the
    job handed over. *)
Definition finish (max_items i : nat) (e : Entry) (id : Z) (defers : bool) (given : option position)
    (state : response_state) (error_type : option string) (s : System) : System :=
  let t := forget i (sy_tee s) in
  let '(x, t, owned) := adopt (en_exchange e) defers given t in
  let allocated := if ex_deferral (en_exchange e) && owned then option_list given else [] in
  if owned then
    let '(payload, x) := take_bodies state error_type x in
    let t := put_entry i (mk_entry x None (en_request_add e) (en_response_add e)) t in
    let '(p, b, losses) := submit max_items (mk_job id (ex_position x) payload) (sy_pipeline s) (te_budget t) in
    with_pipeline p b (sy_worker s) (sy_closer s) losses []
      (with_tee t allocated [] (torn_by_finish e) s)
  else
    with_tee (put_entry i (mk_entry x None (en_request_add e) (en_response_add e)) t) [] [] (torn_by_release e) s.

(** A record of the records input ([RecordsInput]): its bodies are charged, or refused and then
    charged nothing, and its job is submitted. *)
Definition record (max_items : nat) (id charge : Z) (p : position) (s : System) : System :=
  let '(pl, b, charged) := charge_record id charge (sy_pipeline s) (te_budget (sy_tee s)) in
  let j := mk_job id p (Record_ (if charged then charge else 0)) in
  let '(pl, b, losses) := submit max_items j pl b in
  with_pipeline pl b (sy_worker s) (sy_closer s) losses [] (with_tee (sy_tee s) [p] [] 0 s).

Definition dequeue (q : list (option Job)) (p : Pipeline) : Pipeline := set_queue q 0 p.
Definition stop_queue (p : Pipeline) : Pipeline := set_queue (pi_queue p ++ [None]) 0 p.

(** The steps of the worker. *)
Inductive worker_step (sender : bool) (s : System) : System → Prop :=
  | W_stop q :
      sy_worker s = Idle → pi_queue (sy_pipeline s) = None :: q →
      worker_step sender s (with_pipeline (dequeue q (sy_pipeline s)) (te_budget (sy_tee s)) Stopped (sy_closer s) [] [] s)
  | W_get j q :
      sy_worker s = Idle → pi_queue (sy_pipeline s) = Some j :: q →
      worker_step sender s (with_pipeline (dequeue q (sy_pipeline s)) (te_budget (sy_tee s)) (Batching [j] false) (sy_closer s) [] [] s)
  | W_more batch j q :
      sy_worker s = Batching batch false → pi_queue (sy_pipeline s) = Some j :: q → more_batch sender batch = true →
      worker_step sender s (with_pipeline (dequeue q (sy_pipeline s)) (te_budget (sy_tee s)) (Batching (batch ++ [j]) false) (sy_closer s) [] [] s)
  | W_sentinel batch q :
      sy_worker s = Batching batch false → pi_queue (sy_pipeline s) = None :: q → more_batch sender batch = true →
      worker_step sender s (with_pipeline (dequeue q (sy_pipeline s)) (te_budget (sy_tee s)) (Batching batch true) (sy_closer s) [] [] s)
  (** [_current.update] *)
  | W_register batch stopping :
      sy_worker s = Batching batch stopping →
      (stopping = true ∨ more_batch sender batch = false ∨ pi_queue (sy_pipeline s) = []) →
      worker_step sender s
        (with_pipeline (set_current (list_to_map ((λ j, (jb_id j, j)) <$> batch) ∪ pi_current (sy_pipeline s)) (sy_pipeline s))
           (te_budget (sy_tee s)) (Working batch batch [] stopping) (sy_closer s) [] [] s)
  (** while a record is prepared *)
  | W_recharge all todo ready stopping j charged actual p b :
      sy_worker s = Working all (j :: todo) ready stopping →
      recharge (jb_id j) charged actual (sy_pipeline s) (te_budget (sy_tee s)) = (p, b) →
      worker_step sender s (with_pipeline p b (sy_worker s) (sy_closer s) [] [] s)
  | W_fail all todo ready stopping j p losses :
      sy_worker s = Working all (j :: todo) ready stopping → fail j (sy_pipeline s) = (p, losses) →
      worker_step sender s (with_pipeline p (te_budget (sy_tee s)) (Working all todo ready stopping) (sy_closer s) losses [] s)
  | W_commit all todo ready stopping j p :
      sender = true → sy_worker s = Working all (j :: todo) ready stopping → commit j (sy_pipeline s) = Some p →
      worker_step sender s (with_pipeline p (te_budget (sy_tee s)) (Working all todo (ready ++ [j]) stopping) (sy_closer s) [] [] s)
  | W_claimed all todo ready stopping j :
      sender = true → sy_worker s = Working all (j :: todo) ready stopping → commit j (sy_pipeline s) = None →
      worker_step sender s (with_pipeline (sy_pipeline s) (te_budget (sy_tee s)) (Working all todo ready stopping) (sy_closer s) [] [] s)
  | W_emit all todo ready stopping j a p losses settled :
      sender = false → sy_worker s = Working all (j :: todo) ready stopping → emit a j (sy_pipeline s) = (p, losses, settled) →
      worker_step sender s (with_pipeline p (te_budget (sy_tee s)) (Working all todo ready stopping) (sy_closer s) losses settled s)
  | W_settle all ready stopping answers p losses settled :
      sy_worker s = Working all [] ready stopping → length answers = length ready →
      settle_batch ready answers (sy_pipeline s) = (p, losses, settled) →
      worker_step sender s (with_pipeline p (te_budget (sy_tee s)) (Ending all stopping) (sy_closer s) losses settled s)
  | W_end all stopping p b :
      sy_worker s = Ending all stopping → finish_batch all (sy_pipeline s) (te_budget (sy_tee s)) = (p, b) →
      worker_step sender s (with_pipeline p b (if stopping then Stopped else Idle) (sy_closer s) [] [] s).

(** The steps of the thread that closes the pipeline. *)
Inductive close_step (s : System) : System → Prop :=
  | P_close :
      sy_closer s = Open →
      close_step s (with_pipeline (close_pipeline (sy_pipeline s)) (te_budget (sy_tee s)) (sy_worker s) (Draining []) [] [] s)
  | P_drain lost j q :
      sy_closer s = Draining lost → pi_queue (sy_pipeline s) = Some j :: q →
      close_step s (with_pipeline (dequeue q (sy_pipeline s)) (te_budget (sy_tee s)) (sy_worker s) (Draining (lost ++ [j])) [] [] s)
  | P_claim lost claimed p :
      sy_closer s = Draining lost → pi_queue (sy_pipeline s) = [] → claim_current (sy_pipeline s) = (claimed, p) →
      close_step s
        (with_pipeline (set_queue [] (- Z.of_nat (length lost)) p) (te_budget (sy_tee s)) (sy_worker s) (Reporting lost claimed) [] [] s)
  | P_drop lost claimed j p b losses :
      sy_closer s = Reporting (j :: lost) claimed → drop j "shutdown" (sy_pipeline s) (te_budget (sy_tee s)) = (p, b, losses) →
      close_step s (with_pipeline p b (sy_worker s) (Reporting lost claimed) losses [] s)
  | P_lose claimed j :
      sy_closer s = Reporting [] (j :: claimed) →
      close_step s (with_pipeline (sy_pipeline s) (te_budget (sy_tee s)) (sy_worker s) (Reporting [] claimed) [(jb_position j, "shutdown")] [] s)
  | P_stop :
      sy_closer s = Reporting [] [] →
      close_step s (with_pipeline (stop_queue (sy_pipeline s)) (te_budget (sy_tee s)) (sy_worker s) Closed [] [] s).

(** The steps of the host's threads in the tee, and of those that record a loss. *)
Inductive tee_step (max_items : nat) (s : System) : System → Prop :=
  (** [begin] *)
  | T_enter :
      te_closed (sy_tee s) = false → tee_step max_items s (with_entered (S (sy_entered s)) s)
  | T_leave n errors :
      sy_entered s = S n → errors = 0 ∨ errors = 1 →
      tee_step max_items s (with_entered n (with_tee (tally 0 errors 0 0 (sy_tee s)) [] [] 0 s))
  | T_begin n p kind headers :
      sy_entered s = S n → new_positions (Some p) s →
      tee_step max_items s (with_entered n (with_tee (open_entry (new_exchange false p kind headers) 1 (sy_tee s)) [p] [] 0 s))
  | T_begin_provisional n kind headers :
      sy_entered s = S n →
      tee_step max_items s
        (with_entered n (with_tee (open_entry (new_exchange true (-1, -1) kind headers) 0 (sy_tee s)) [] [] 0 s))
  | T_begin_lost n p t losses :
      sy_entered s = S n → new_positions (Some p) s → lose p "internal_error" (tally 1 0 0 0 (sy_tee s)) = (t, losses) →
      tee_step max_items s (with_entered n (with_tee t [p] losses 0 s))
  (** [attach], the end of a teed request, [end_request] *)
  | T_attach i e status headers :
      entry s i = Some e → ex_response (en_exchange e) = None →
      tee_step max_items s
        (with_tee (put_entry i (on_exchange (set_response (Some (new_side headers)) (Some status)) e) (sy_tee s)) [] [] 0 s)
  | T_sent i e :
      entry s i = Some e →
      tee_step max_items s
        (with_tee (put_entry i (on_exchange (λ x, set_sent (ex_request_tee x) true x) e) (sy_tee s)) [] [] 0 s)
  | T_end_request i e :
      entry s i = Some e →
      tee_step max_items s (with_tee (put_entry i (on_exchange end_request e) (sy_tee s)) [] [] 0 s)
  (** [add] and [add_request], in three: up to the reservation, the count, the chunk itself *)
  | T_reserve i e response c sd sd' b reserved :
      entry s i = Some e → add_of response e = None → side_of response e = Some sd →
      consider (te_limits (sy_tee s)) (ex_done (en_exchange e)) c sd (te_budget (sy_tee s)) = (sd', b, reserved) →
      tee_step max_items s
        (with_tee (set_budget b (put_entry i (set_side response sd' (if reserved then Some (Reserved c) else None) e) (sy_tee s))) [] [] 0 s)
  | T_count i e response c sd :
      entry s i = Some e → add_of response e = Some (Reserved c) → side_of response e = Some sd →
      tee_step max_items s
        (with_tee (put_entry i (set_side response (count (size_of c) sd) (Some (Counted c)) e) (sy_tee s)) [] [] 0 s)
  | T_keep i e response c sd :
      entry s i = Some e → add_of response e = Some (Counted c) → side_of response e = Some sd →
      tee_step max_items s (with_tee (put_entry i (set_side response (keep c sd) None e) (sy_tee s)) [] [] 0 s)
  (** [finish]: the claim, the rest, or an exception before the bodies are taken *)
  | T_claim i e x state error_type :
      entry s i = Some e → claim (en_exchange e) = Some x →
      tee_step max_items s
        (with_tee (put_entry i (set_finishing (Some (state, error_type)) (on_exchange (λ _, x) e)) (sy_tee s)) [] [] 0 s)
  | T_finish i e state error_type id defers given :
      entry s i = Some e → en_finishing e = Some (state, error_type) → fresh_id s id → new_positions given s →
      tee_step max_items s (finish max_items i e id defers given state error_type s)
  | T_finish_raises i e f :
      entry s i = Some e → en_finishing e = Some f →
      tee_step max_items s (with_tee (put_entry i (set_finishing None (on_exchange (set_done false) e)) (sy_tee s)) [] [] 0 s)
  | T_detach i e t losses :
      entry s i = Some e → detach true i e (sy_tee s) = Some (t, losses) →
      tee_step max_items s (with_tee t [] losses (torn_by_release e) s)
  | T_shut i e defers given t losses :
      entry s i = Some e → new_positions given s → shut i e defers given (sy_tee s) = Some (t, losses) →
      tee_step max_items s
        (with_tee t (if ex_deferral (en_exchange e) && negb defers then option_list given else []) losses (torn_by_release e) s)
  | T_close : tee_step max_items s (with_tee (close_tee (sy_tee s)) [] [] 0 s)
  (** [lose_uninstrumented], and a record of the records input *)
  | T_uninstrumented p t losses :
      new_positions (Some p) s → lose p "uninstrumented_client" (sy_tee s) = (t, losses) →
      tee_step max_items s (with_tee t [p] losses 0 s)
  | T_record id charge p :
      new_positions (Some p) s → fresh_id s id → tee_step max_items s (record max_items id charge p s)
  (** [LossEmitter.record] *)
  | T_lose l1 l2 p reason :
      sy_losing s = l1 ++ (p, reason) :: l2 →
      tee_step max_items s
        (mk_system (sy_tee s) (sy_pipeline s) (sy_worker s) (sy_closer s) (sy_entered s) (l1 ++ l2)
           (sy_settled s ++ [(p, Lost reason)]) (sy_allocated s) (sy_torn s)).

Definition step (max_items : nat) (sender : bool) (s s' : System) : Prop := tee_step max_items s s' ∨ worker_step sender s s' ∨ close_step s s'.

Definition reachable (lim : Limits) (max_inflight : Z) (max_items : nat) (sender : bool) (s : System) : Prop :=
  rtc (step max_items sender) (start lim max_inflight) s.
