(* ===== verification/CaptureOutcome.v ===== *)
(** * One outcome for each position

    The executions of [Capture.v]: whatever threads claim, close and raise in whatever order,
    each allocated position is held by exactly one exchange, job or thread until it has exactly
    one outcome. *)

From stdpp Require Import gmap relations.
From S2P Require Import Prelude Sums Retention Capture.

(** ** Who holds a position *)

(** An exchange that nobody has claimed, or that is being finished. *)
Definition alive (e : Entry) : bool := negb (ex_done (en_exchange e)) || bool_decide (is_Some (en_finishing e)).
Definition entry_positions (e : Entry) : list position :=
  if alive e && negb (ex_deferral (en_exchange e)) then [ex_position (en_exchange e)] else [].

(** The jobs that the worker and the thread that closes have to answer for. Those the worker
    has registered are in [_current] until it commits them. *)
Definition worker_holds (w : Worker) : list Job :=
  match w with Batching batch _ => batch | Working _ _ ready _ => ready | _ => [] end.
Definition closer_holds (c : Closer) : list Job :=
  match c with Draining lost => lost | Reporting lost claimed => lost ++ claimed | Open | Closed => [] end.
Definition pipe_holds (p : Pipeline) (w : Worker) (c : Closer) : list Job :=
  omap id (pi_queue p) ++ worker_holds w ++ (map_to_list (pi_current p)).*2 ++ closer_holds c.

(** The positions that have no outcome yet. *)
Definition held (s : System) : list position :=
  concat (entry_positions <$> te_entries (sy_tee s)) ++
  (jb_position <$> pipe_holds (sy_pipeline s) (sy_worker s) (sy_closer s)) ++ (sy_losing s).*1.

(** ** Counting *)

Definition at_job (p : position) (j : Job) : Z := if bool_decide (jb_position j = p) then 1 else 0.
Definition entries_count (p : position) (l : list Entry) : Z := sum_by (λ e, occ p (entry_positions e)) l.
Definition pipe_count (p : position) (pl : Pipeline) (w : Worker) (c : Closer) : Z :=
  sum_by (at_job p) (omap id (pi_queue pl)) + sum_by (at_job p) (worker_holds w)
  + map_sum (at_job p) (pi_current pl) + sum_by (at_job p) (closer_holds c).

Lemma held_count p s : occ p (held s) =
  entries_count p (te_entries (sy_tee s)) + pipe_count p (sy_pipeline s) (sy_worker s) (sy_closer s) + occ p (sy_losing s).*1.
Proof.
  unfold held, entries_count, pipe_count, pipe_holds, occ.
  rewrite !sum_by_app, sum_by_concat, (sum_by_fmap _ jb_position), !sum_by_app, map_sum_values.
  unfold at_job. lia.
Qed.

(** ** The invariant *)

Definition todo_of (w : Worker) : list Job := match w with Working _ todo _ _ => todo | _ => [] end.
Definition draining (c : Closer) : list Job := match c with Draining l => l | _ => [] end.

Record Inv (s : System) : Prop := {
  in_count p : occ p (held s) + occ p (sy_settled s).*1 = occ p (sy_allocated s);
  in_allocated : NoDup (sy_allocated s);
  in_finishing i e : entry s i = Some e → is_Some (en_finishing e) → ex_done (en_exchange e) = true;
  in_ids : NoDup (jb_id <$> jobs s);
  in_current k j : pi_current (sy_pipeline s) !! k = Some j → jb_id j = k ∧ j ∈ todo_of (sy_worker s);
  in_todo : worker_holds (sy_worker s) ++ todo_of (sy_worker s) ⊆+ worker_jobs (sy_worker s);
  in_pending : pi_pending (sy_pipeline s) =
    Z.of_nat (length (omap id (pi_queue (sy_pipeline s))) + length (worker_jobs (sy_worker s)) + length (draining (sy_closer s)));
}.

(** ** What the operations do to the counts *)

Lemma done_job_same j p b p' b' : done_job j (p, b) = (p', b') →
  pi_queue p' = pi_queue p ∧ pi_current p' = pi_current p ∧ pi_pending p' = pi_pending p ∧ pi_closed p' = pi_closed p.
Proof. unfold done_job. intros H. repeat case_match; simplify_eq; done. Qed.

Lemma done_jobs_same l : ∀ p b p' b', fold_left (λ st j, done_job j st) l (p, b) = (p', b') →
  pi_queue p' = pi_queue p ∧ pi_current p' = pi_current p ∧ pi_pending p' = pi_pending p ∧ pi_closed p' = pi_closed p.
Proof.
  induction l as [|j l IH]; intros p b p' b' H; cbn [fold_left] in H; [by simplify_eq|].
  destruct (done_job j (p, b)) as [p1 b1] eqn:E. apply done_job_same in E as (? & ? & ? & ?).
  apply IH in H as (? & ? & ? & ?). split_and!; congruence.
Qed.

Lemma drop_same j reason p b p' b' losses : drop j reason p b = (p', b', losses) →
  losses = [(jb_position j, reason)] ∧ pi_queue p' = pi_queue p ∧ pi_current p' = pi_current p ∧ pi_pending p' = pi_pending p.
Proof.
  unfold drop. destruct (done_job j (bump 0 1 0 0 0 p, b)) as [p1 b1] eqn:E. intros [= <- <- <-].
  by apply done_job_same in E as (? & ? & ? & ?).
Qed.

(** A job that is submitted is queued, or dropped and its position to be lost. *)
Lemma submit_cases max_items j p b p' b' losses : submit max_items j p b = (p', b', losses) →
  (losses = [] ∧ pi_queue p' = pi_queue p ++ [Some j] ∧ pi_current p' = pi_current p ∧ pi_pending p' = pi_pending p + 1) ∨
  (∃ reason, losses = [(jb_position j, reason)] ∧ pi_queue p' = pi_queue p ∧ pi_current p' = pi_current p ∧ pi_pending p' = pi_pending p).
Proof.
  unfold submit. intros Hs. destruct (pi_closed p); [|case_decide];
    [right; apply drop_same in Hs; naive_solver| |right; apply drop_same in Hs; naive_solver].
  left. by simplify_eq.
Qed.

Lemma commit_cases j p p' : commit j p = Some p' →
  ∃ j', pi_current p !! jb_id j = Some j' ∧ pi_current p' = delete (jb_id j) (pi_current p) ∧
    pi_queue p' = pi_queue p ∧ pi_pending p' = pi_pending p.
Proof. unfold commit. destruct (pi_current p !! jb_id j); intros; simplify_eq; eauto. Qed.

Lemma commit_none j p : commit j p = None → pi_current p !! jb_id j = None.
Proof. unfold commit. by case_match. Qed.

Lemma settle_batch_same ready : ∀ answers p p' losses settled, length answers = length ready →
  settle_batch ready answers p = (p', losses, settled) →
  pi_queue p' = pi_queue p ∧ pi_current p' = pi_current p ∧ pi_pending p' = pi_pending p ∧
  ∀ q, occ q losses.*1 + occ q settled.*1 = sum_by (at_job q) ready.
Proof.
  induction ready as [|j ready IH]; intros [|a answers] p p' losses settled Hl H; try discriminate; cbn [settle_batch] in H.
  { by simplify_eq. }
  destruct (settle_batch ready answers _) as [[p1 l1] s1] eqn:E.
  apply IH in E as (E1 & E2 & E3 & E4); [|simpl in Hl; lia].
  destruct a as [reason|]; simplify_eq; rewrite E1, E2, E3; (split_and!; [by repeat case_match..|]);
    intros q; rewrite sum_by_cons, <-(E4 q), fmap_cons, occ_cons; unfold at_job; cbn [fst]; lia.
Qed.

(** ** The count along a step *)

Lemma count_with_tee p t given losses torn s :
  entries_count p (te_entries t) + occ p losses.*1 = entries_count p (te_entries (sy_tee s)) + occ p given →
  occ p (held s) + occ p (sy_settled s).*1 = occ p (sy_allocated s) →
  let s' := with_tee t given losses torn s in
  occ p (held s') + occ p (sy_settled s').*1 = occ p (sy_allocated s').
Proof.
  cbn zeta. rewrite !held_count. cbn [with_tee with_pipeline set_budget sy_tee sy_pipeline sy_worker sy_closer sy_losing sy_settled sy_allocated te_entries].
  rewrite fmap_app, !occ_app. lia.
Qed.

Lemma count_with_pipeline p pl b w c losses settled s :
  pipe_count p pl w c + occ p losses.*1 + occ p settled.*1 = pipe_count p (sy_pipeline s) (sy_worker s) (sy_closer s) →
  occ p (held s) + occ p (sy_settled s).*1 = occ p (sy_allocated s) →
  let s' := with_pipeline pl b w c losses settled s in
  occ p (held s') + occ p (sy_settled s').*1 = occ p (sy_allocated s').
Proof.
  cbn zeta. rewrite !held_count. cbn [with_tee with_pipeline set_budget sy_tee sy_pipeline sy_worker sy_closer sy_losing sy_settled sy_allocated te_entries].
  rewrite !fmap_app, !occ_app. lia.
Qed.

Lemma entries_put p l i e e' : l !! i = Some e →
  entries_count p (<[i := e']> l) = entries_count p l - occ p (entry_positions e) + occ p (entry_positions e').
Proof. apply (sum_by_insert (λ e, occ p (entry_positions e))). Qed.

(** ** The steps of the tee's threads *)

Lemma inv_with_entered n s : Inv s → Inv (with_entered n s).
Proof. intros [H1 H2 H3 H4 H5 H6 H7]. by constructor. Qed.

Lemma inv_with_tee t given losses torn s :
  Inv s →
  (∀ p, entries_count p (te_entries t) + occ p losses.*1 = entries_count p (te_entries (sy_tee s)) + occ p given) →
  NoDup (sy_allocated s ++ given) →
  (∀ i e, te_entries t !! i = Some e → is_Some (en_finishing e) → ex_done (en_exchange e) = true) →
  Inv (with_tee t given losses torn s).
Proof.
  intros [H1 H2 H3 H4 H5 H6 H7] Hc Ha Hf. constructor; try done. intros p. by apply count_with_tee.
Qed.

Lemma inv_put i e e' t given losses torn s :
  Inv s → entry s i = Some e → te_entries t = <[i := e']> (te_entries (sy_tee s)) →
  (∀ p, occ p (entry_positions e') + occ p losses.*1 = occ p (entry_positions e) + occ p given) →
  NoDup (sy_allocated s ++ given) → (is_Some (en_finishing e') → ex_done (en_exchange e') = true) →
  Inv (with_tee t given losses torn s).
Proof.
  intros HI He Ht Hc Ha Hf. apply inv_with_tee; [done| |done|].
  - intros p. rewrite Ht, (entries_put p _ i e e' He). specialize (Hc p). lia.
  - intros k x. rewrite Ht. intros [(-> & <- & _)|[_ Hk]]%list_lookup_insert_Some; [done|]. by apply (in_finishing s HI k).
Qed.

Lemma nodup_given s given : Inv s → new_positions given s → NoDup (sy_allocated s ++ option_list given).
Proof.
  intros HI Hg. destruct given as [p|]; cbn; [|rewrite app_nil_r; apply HI].
  apply NoDup_app. split_and!; [apply HI| |apply NoDup_singleton].
  intros q Hq ->%list_elem_of_singleton. by apply (Hg p).
Qed.

Lemma nodup_nil s : Inv s → NoDup (sy_allocated s ++ []).
Proof. intros HI. rewrite app_nil_r. apply HI. Qed.
#[local] Hint Resolve nodup_nil : core.

(** A step that changes neither who holds the exchange nor its position. *)
Lemma inv_same i e e' t torn s :
  Inv s → entry s i = Some e → te_entries t = <[i := e']> (te_entries (sy_tee s)) →
  en_finishing e' = en_finishing e → ex_done (en_exchange e') = ex_done (en_exchange e) →
  ex_deferral (en_exchange e') = ex_deferral (en_exchange e) → ex_position (en_exchange e') = ex_position (en_exchange e) →
  Inv (with_tee t [] [] torn s).
Proof.
  intros HI He Ht E1 E2 E3 E4. apply (inv_put i e e'); auto.
  - intros p. unfold entry_positions, alive. by rewrite E1, E2, E3, E4.
  - rewrite E1, E2. by apply (in_finishing s HI i).
Qed.

Lemma side_kept response sd a e : let e' := set_side response sd a e in
  en_finishing e' = en_finishing e ∧ ex_done (en_exchange e') = ex_done (en_exchange e) ∧
  ex_deferral (en_exchange e') = ex_deferral (en_exchange e) ∧ ex_position (en_exchange e') = ex_position (en_exchange e).
Proof. by destruct response. Qed.

Lemma end_request_kept x : ex_done (end_request x) = ex_done x ∧ ex_deferral (end_request x) = ex_deferral x ∧
  ex_position (end_request x) = ex_position x.
Proof. unfold end_request. by case_match. Qed.

Lemma release_kept x b x' b' : release_exchange x b = (x', b') →
  ex_done x' = ex_done x ∧ ex_deferral x' = ex_deferral x ∧ ex_position x' = ex_position x.
Proof. unfold release_exchange. intros H. by simplify_eq. Qed.

(** What detaching leaves: a dead exchange, and its position in the hands of the thread. *)
Lemma detach_cases lost i e t t' losses : detach lost i e t = Some (t', losses) →
  ex_done (en_exchange e) = false ∧
  ∃ x, te_entries t' = <[i := on_exchange (λ _, x) e]> (te_entries t) ∧ ex_done x = true ∧
    ex_deferral x = ex_deferral (en_exchange e) ∧ ex_position x = ex_position (en_exchange e) ∧
    losses = if lost && negb (ex_deferral (en_exchange e)) then [(ex_position (en_exchange e), "internal_error")] else [].
Proof.
  unfold detach, claim. intros H. destruct (ex_done (en_exchange e)) eqn:Ed; [done|]. split; [done|].
  cbn [mbind option_bind] in H. change (ex_deferral (set_done true (en_exchange e))) with (ex_deferral (en_exchange e)) in H.
  unfold lose, release_exchange in H.
  destruct lost; [destruct (ex_deferral (en_exchange e)) eqn:Ef|]; rewrite ?decide_True in H by done;
    injection H as <- <-; eexists; (split; [done|]); done.
Qed.

Lemma option_list_some {A} (x : A) : option_list (Some x) = [x].
Proof. done. Qed.

Lemma option_list_none {A} : option_list (@None A) = [].
Proof. done. Qed.

(** A new job: a thread gives up the position it held. *)
Lemma inv_submit max_items j pl b pl' b' losses t given torn s :
  Inv s → pi_queue pl = pi_queue (sy_pipeline s) → pi_current pl = pi_current (sy_pipeline s) →
  pi_pending pl = pi_pending (sy_pipeline s) → submit max_items j pl b = (pl', b', losses) → fresh_id s (jb_id j) →
  (∀ q, entries_count q (te_entries t) + at_job q j = entries_count q (te_entries (sy_tee s)) + occ q given) →
  NoDup (sy_allocated s ++ given) →
  (∀ i e, te_entries t !! i = Some e → is_Some (en_finishing e) → ex_done (en_exchange e) = true) →
  Inv (with_pipeline pl' b' (sy_worker s) (sy_closer s) losses [] (with_tee t given [] torn s)).
Proof.
  intros [H1 H2 H3 H4 H5 H6 H7] Eq Ec Ep Hs Hid Hc Ha Hf.
  apply submit_cases in Hs as [(-> & Q & C & P)|(reason & -> & Q & C & P)]; rewrite Eq in Q; rewrite Ec in C; rewrite Ep in P;
    constructor; try done; cbn [with_pipeline with_tee sy_pipeline sy_worker sy_closer].
  - intros p. specialize (H1 p). specialize (Hc p). rewrite held_count in H1 |- *. cbn -[held occ entries_count pipe_count fmap app].
    unfold pipe_count in *. rewrite Q, C, omap_app, sum_by_app, !app_nil_r, !occ_app. cbn -[occ at_job]. lia.
  - unfold jobs in *. cbn. rewrite Q, omap_app. cbn. rewrite <-app_assoc.
    cbn [app]. rewrite <-(Permutation_middle (omap id (pi_queue (sy_pipeline s))) _ j), fmap_cons. by constructor.
  - by rewrite C.
  - rewrite P, Q, omap_app, length_app. cbn. lia.
  - intros p. specialize (H1 p). specialize (Hc p). rewrite held_count in H1 |- *. cbn -[held occ entries_count pipe_count fmap app].
    unfold pipe_count in *. rewrite Q, C, !app_nil_r, fmap_app, !occ_app. cbn [fmap list_fmap fst]. rewrite occ_cons, occ_nil.
    unfold at_job in Hc. lia.
  - unfold jobs in *. cbn. by rewrite Q.
  - by rewrite C.
  - by rewrite P, Q.
Qed.

Lemma adopt_cases x defers given t x' t' owned : adopt x defers given t = (x', t', owned) →
  te_entries t' = te_entries t ∧ ex_done x' = ex_done x ∧
  ((owned = true ∧ ex_deferral x = false ∧ ex_position x' = ex_position x) ∨
   (owned = true ∧ ex_deferral x = true ∧ given = Some (ex_position x')) ∨
   (owned = false ∧ ex_deferral x = true ∧ ex_deferral x' = true)).
Proof.
  unfold adopt, release_exchange. intros H.
  destruct (ex_deferral x) eqn:Ed; [destruct defers; [|destruct given]|]; injection H as <- <- <-; cbn; rewrite ?Ed; auto 10.
Qed.

Lemma take_bodies_kept state err x p x' : take_bodies state err x = (p, x') →
  ex_done x' = ex_done x ∧ ex_deferral x' = ex_deferral x ∧ ex_position x' = ex_position x.
Proof. unfold take_bodies. intros H. by simplify_eq. Qed.

Lemma dead_positions e : ex_done (en_exchange e) = true → en_finishing e = None → entry_positions e = [].
Proof. intros H1 H2. unfold entry_positions, alive. by rewrite H1, H2. Qed.

Lemma finishing_positions s i e : Inv s → entry s i = Some e → is_Some (en_finishing e) →
  ex_done (en_exchange e) = true ∧
  entry_positions e = if ex_deferral (en_exchange e) then [] else [ex_position (en_exchange e)].
Proof.
  intros HI He Hf. split; [by apply (in_finishing s HI i)|]. unfold entry_positions, alive.
  rewrite (bool_decide_eq_true_2 _ Hf), orb_true_r. by destruct (ex_deferral _).
Qed.

Lemma inv_finish max_items i e id defers given state err s :
  Inv s → entry s i = Some e → is_Some (en_finishing e) → fresh_id s id → new_positions given s →
  Inv (finish max_items i e id defers given state err s).
Proof.
  intros HI He Hf Hid Hg. destruct (finishing_positions s i e HI He Hf) as [Hd Hpos].
  unfold finish. destruct (adopt _ _ _ _) as [[x t] owned] eqn:Ea.
  apply adopt_cases in Ea as (Et & Ed & Hcase). rewrite Hd in Ed. cbn [te_entries forget set_active] in Et.
  destruct owned.
  - destruct (take_bodies state err x) as [pay x'] eqn:Eb. apply take_bodies_kept in Eb as (B1 & B2 & B3).
    destruct (submit _ _ _ _) as [[pl b] losses] eqn:Es.
    assert (NoDup (sy_allocated s ++ if ex_deferral (en_exchange e) && true then option_list given else [])) as Hn.
    { destruct (ex_deferral (en_exchange e)); [by apply nodup_given|auto]. }
    eapply inv_submit; [done..|exact Es|done| |exact Hn|].
    + intros q. cbn [put_entry set_entries te_entries]. rewrite Et, (entries_put q _ i e _ He).
      rewrite (dead_positions (mk_entry x' _ _ _)) by (cbn; congruence). rewrite occ_nil, Hpos. unfold at_job. cbn [jb_position]. rewrite B3.
      destruct Hcase as [(_ & -> & ->)|[(_ & -> & ->)|(? & _)]]; [| |done]; cbn [andb];
        rewrite ?option_list_some, ?occ_cons, ?occ_nil; lia.
    + intros k y. cbn [put_entry set_entries te_entries]. rewrite Et.
      intros [(-> & <- & _)|[_ Hk]]%list_lookup_insert_Some; [by intros []|]. by apply (in_finishing s HI k).
  - apply (inv_put i e (mk_entry x None (en_request_add e) (en_response_add e)));
      [done|done|cbn; by rewrite Et| |auto|by intros []]. intros p.
    rewrite (dead_positions (mk_entry x _ _ _)) by done. rewrite Hpos. destruct Hcase as [(? & _)|[(? & _)|(_ & -> & _)]]; done.
Qed.

Lemma inv_record max_items id charge p s :
  Inv s → fresh_id s id → new_positions (Some p) s → Inv (record max_items id charge p s).
Proof.
  intros HI Hid Hp. unfold record. destruct (charge_record _ _ _ _) as [[pl b] charged] eqn:Ec.
  destruct (submit _ _ pl b) as [[pl' b'] losses] eqn:Es.
  assert (pi_queue pl = pi_queue (sy_pipeline s) ∧ pi_current pl = pi_current (sy_pipeline s) ∧ pi_pending pl = pi_pending (sy_pipeline s))
    as (E1 & E2 & E3) by (unfold charge_record, try_reserve in Ec; repeat case_match; simplify_eq; done).
  eapply inv_submit; [done|done..|exact Es|done| |by apply (nodup_given s (Some p))|].
  - intros q. unfold at_job. cbn [jb_position]. rewrite occ_cons, occ_nil. lia.
  - intros i e. apply (in_finishing s HI i).
Qed.

Lemma inv_detach i e t losses s :
  Inv s → entry s i = Some e → detach true i e (sy_tee s) = Some (t, losses) → Inv (with_tee t [] losses (torn_by_release e) s).
Proof.
  intros HI He (Hd & x & Et & Hx & Hdef & Hp & ->)%detach_cases.
  assert (en_finishing e = None) as Hf.
  { destruct (en_finishing e) eqn:E; [|done]. rewrite (in_finishing s HI i e He) in Hd; [done|by rewrite E]. }
  apply (inv_put i e _ _ _ _ _ s HI He Et); [|auto|cbn; rewrite Hf; by intros []].
  intros p. rewrite (dead_positions (on_exchange _ e)) by done.
  unfold entry_positions, alive. rewrite Hd, orb_true_l. cbn [andb].
  destruct (ex_deferral (en_exchange e)); cbn [andb negb fmap list_fmap fst]; rewrite ?occ_cons, ?occ_nil; lia.
Qed.

Lemma inv_shut i e defers given t losses s :
  Inv s → entry s i = Some e → new_positions given s → shut i e defers given (sy_tee s) = Some (t, losses) →
  Inv (with_tee t (if ex_deferral (en_exchange e) && negb defers then option_list given else []) losses (torn_by_release e) s).
Proof.
  intros HI He Hg. unfold shut. destruct (detach false i e (sy_tee s)) as [[t0 l0]|] eqn:Ed; [|done].
  cbn [mbind option_bind]. apply detach_cases in Ed as (Hd & x & Et & Hx & Hdef & Hp & _).
  assert (en_finishing e = None) as Hf.
  { destruct (en_finishing e) eqn:E; [|done]. rewrite (in_finishing s HI i e He) in Hd; [done|by rewrite E]. }
  assert (entry_positions e = if ex_deferral (en_exchange e) then [] else [ex_position (en_exchange e)]) as He'.
  { unfold entry_positions, alive. rewrite Hd. cbn. by destruct (ex_deferral (en_exchange e)). }
  unfold lose. rewrite !decide_False by done.
  assert (∀ t' losses' given', te_entries t' = te_entries t0 → NoDup (sy_allocated s ++ given') →
    (∀ p, occ p losses'.*1 = occ p (entry_positions e) + occ p given') → Inv (with_tee t' given' losses' (torn_by_release e) s)) as Hgo.
  { intros t' losses' given' Et' Hn Hc. apply (inv_put i e (on_exchange (λ _, x) e));
      [done|done|by rewrite Et'| |done|cbn; rewrite Hf; by intros []].
    intros p. rewrite (dead_positions (on_exchange _ e)) by done. rewrite occ_nil, <-Hc. lia. }
  destruct (ex_deferral (en_exchange e)); [destruct defers; [|destruct given as [p|]]|]; intros H; simplify_eq; apply Hgo; auto;
    try (intros q; rewrite He'; cbn [andb negb fmap list_fmap fst]; rewrite ?option_list_some, ?option_list_none, ?occ_cons, ?occ_nil; lia).
  apply (nodup_given s (Some p) HI Hg).
Qed.

(** ** The steps of the worker and of the thread that closes *)

Lemma nodup_part {A} (l k : list A) : k ⊆+ l → NoDup l → NoDup k.
Proof. intros [m ->]%submseteq_Permutation H. by apply NoDup_app in H as [? _]. Qed.

Lemma inv_with_pipeline pl b w c losses settled s :
  Inv s →
  (∀ p, pipe_count p pl w c + occ p losses.*1 + occ p settled.*1 = pipe_count p (sy_pipeline s) (sy_worker s) (sy_closer s)) →
  omap id (pi_queue pl) ++ worker_jobs w ++ closer_jobs c ⊆+ jobs s →
  (∀ k j, pi_current pl !! k = Some j → jb_id j = k ∧ j ∈ todo_of w) → worker_holds w ++ todo_of w ⊆+ worker_jobs w →
  pi_pending pl = Z.of_nat (length (omap id (pi_queue pl)) + length (worker_jobs w) + length (draining c)) →
  Inv (with_pipeline pl b w c losses settled s).
Proof.
  intros [H1 H2 H3 H4 H5 H6 H7] Hc Hj Hk Ht Hp. constructor; try done; [intros p; by apply count_with_pipeline|].
  unfold jobs. cbn. apply (nodup_part (jb_id <$> jobs s)); [by apply fmap_submseteq|done].
Qed.

Lemma todo_part s : Inv s → todo_of (sy_worker s) ⊆+ worker_jobs (sy_worker s).
Proof. intros HI. etrans; [|apply HI]. apply submseteq_inserts_l. reflexivity. Qed.

(** What an element of [_current] is. *)
Lemma current_job s all j todo ready stopping j' :
  Inv s → sy_worker s = Working all (j :: todo) ready stopping →
  pi_current (sy_pipeline s) !! jb_id j = Some j' → j' = j.
Proof.
  intros HI Hw Hj. destruct (in_current s HI _ _ Hj) as [Hid Hin]. pose proof (todo_part s HI) as Ht. rewrite Hw in Hin, Ht. cbn in Hin, Ht.
  apply elem_of_cons in Hin as [|Hin]; [done|].
  assert (NoDup (jb_id <$> j :: todo)) as Hn.
  { apply (nodup_part (jb_id <$> jobs s)); [|apply HI]. apply fmap_submseteq. unfold jobs. rewrite Hw. cbn.
    etrans; [exact Ht|]. etrans; [apply submseteq_inserts_r; reflexivity|]. apply submseteq_inserts_l. reflexivity. }
  rewrite fmap_cons in Hn. apply NoDup_cons in Hn as [Hn _]. contradict Hn. rewrite <-Hid. by apply list_elem_of_fmap_2.
Qed.

(** [_current] once the worker is done with the first of what is to do. *)
Lemma current_rest s all j todo ready stopping m :
  Inv s → sy_worker s = Working all (j :: todo) ready stopping →
  m = delete (jb_id j) (pi_current (sy_pipeline s)) ∨ (m = pi_current (sy_pipeline s) ∧ m !! jb_id j = None) →
  ∀ k j', m !! k = Some j' → jb_id j' = k ∧ j' ∈ todo.
Proof.
  intros HI Hw Hm k j' Hk.
  assert (pi_current (sy_pipeline s) !! k = Some j' ∧ k ≠ jb_id j) as [Hc Hne].
  { destruct Hm as [-> |[-> Hn]]; [by apply lookup_delete_Some in Hk as [? ?]|]. split; [done|]. by intros ->; rewrite Hn in Hk. }
  destruct (in_current s HI _ _ Hc) as [Hid Hin]. split; [done|]. rewrite Hw in Hin. cbn in Hin.
  apply elem_of_cons in Hin as [-> |]; [congruence|done].
Qed.

(** A step of the worker on the first job of what is to do. *)
Lemma inv_work all j todo ready ready' stopping pl b losses settled s :
  Inv s → sy_worker s = Working all (j :: todo) ready stopping → pi_queue pl = pi_queue (sy_pipeline s) →
  pi_pending pl = pi_pending (sy_pipeline s) → ready' ⊆+ ready ++ [j] →
  (pi_current pl = delete (jb_id j) (pi_current (sy_pipeline s)) ∧ is_Some (pi_current (sy_pipeline s) !! jb_id j) ∧
   (∀ p, sum_by (at_job p) ready' + occ p losses.*1 + occ p settled.*1 = sum_by (at_job p) ready + at_job p j)) ∨
  (pi_current pl = pi_current (sy_pipeline s) ∧ pi_current (sy_pipeline s) !! jb_id j = None ∧
   (∀ p, sum_by (at_job p) ready' + occ p losses.*1 + occ p settled.*1 = sum_by (at_job p) ready)) →
  Inv (with_pipeline pl b (Working all todo ready' stopping) (sy_closer s) losses settled s).
Proof.
  intros HI Hw Hq Hp Hr Hcase.
  assert (ready' ++ todo ⊆+ all) as Ht.
  { pose proof (in_todo s HI) as H. rewrite Hw in H. cbn in H. etrans; [|exact H].
    rewrite (cons_middle j), app_assoc. by apply submseteq_app. }
  apply inv_with_pipeline; [done| | | |exact Ht|].
  - intros p. unfold pipe_count. rewrite Hq, Hw. cbn [worker_holds].
    destruct Hcase as [(-> & [j' Hj] & H)|(-> & Hn & H)]; specialize (H p); [|lia].
    rewrite (map_sum_delete _ _ _ _ Hj). rewrite (current_job s all j todo ready stopping j' HI Hw Hj). lia.
  - unfold jobs. by rewrite Hq, Hw.
  - apply (current_rest s all j todo ready stopping _ HI Hw). destruct Hcase as [(? & _)|(E & Hn & _)]; [by left|right]. by rewrite E.
  - rewrite Hp, (in_pending s HI), Hq, Hw. done.
Qed.

Lemma no_current s : Inv s → todo_of (sy_worker s) = [] → pi_current (sy_pipeline s) = ∅.
Proof.
  intros HI Ht. apply map_empty. intros k. destruct (pi_current (sy_pipeline s) !! k) as [j|] eqn:E; [|done].
  destruct (in_current s HI _ _ E) as [_ Hin]. rewrite Ht in Hin. by apply not_elem_of_nil in Hin.
Qed.

(** The worker takes an element of the queue. *)
Lemma inv_take o q w s :
  Inv s → pi_queue (sy_pipeline s) = o :: q → todo_of (sy_worker s) = [] → todo_of w = [] →
  worker_jobs w = worker_jobs (sy_worker s) ++ option_list o → worker_holds w = worker_holds (sy_worker s) ++ option_list o →
  Inv (with_pipeline (dequeue q (sy_pipeline s)) (te_budget (sy_tee s)) w (sy_closer s) [] [] s).
Proof.
  intros HI Hq Ht Ht' Hj Hh. pose proof (no_current s HI Ht) as Hc.
  assert (omap id (pi_queue (sy_pipeline s)) = option_list o ++ omap id q) as Hom by (rewrite Hq; by destruct o).
  apply inv_with_pipeline; [done| | | | |]; cbn [dequeue set_queue pi_queue pi_current pi_pending].
  - intros p. unfold pipe_count. cbn [pi_queue pi_current dequeue set_queue]. rewrite Hh, Hom, !sum_by_app. cbn. lia.
  - unfold jobs. rewrite Hj, Hom. rewrite <-!app_assoc. apply Permutation_submseteq.
    rewrite (Permutation_app_swap_app (option_list o)). apply Permutation_app_head.
    by rewrite (Permutation_app_swap_app (option_list o)).
  - intros k j. rewrite Hc. by rewrite lookup_empty.
  - rewrite Ht', Hj, Hh, app_nil_r. apply submseteq_app; [|done]. pose proof (in_todo s HI) as H. by rewrite Ht, app_nil_r in H.
  - rewrite (in_pending s HI), Hj, Hom, !length_app. lia.
Qed.

Lemma inv_register batch stopping s :
  Inv s → sy_worker s = Batching batch stopping →
  Inv (with_pipeline (set_current (list_to_map ((λ j, (jb_id j, j)) <$> batch) ∪ pi_current (sy_pipeline s)) (sy_pipeline s))
         (te_budget (sy_tee s)) (Working batch batch [] stopping) (sy_closer s) [] [] s).
Proof.
  intros HI Hw. assert (pi_current (sy_pipeline s) = ∅) as Hc by (apply no_current; [done|by rewrite Hw]).
  assert (NoDup (jb_id <$> batch)) as Hn.
  { apply (nodup_part (jb_id <$> jobs s)); [|apply HI]. apply fmap_submseteq. unfold jobs. rewrite Hw. cbn.
    etrans; [apply submseteq_inserts_r; reflexivity|]. apply submseteq_inserts_l. reflexivity. }
  rewrite Hc, map_union_empty. apply inv_with_pipeline; [done| | | |done|].
  - intros p. unfold pipe_count. rewrite Hw, Hc, map_sum_empty. cbn [set_current pi_queue pi_current worker_holds].
    rewrite (map_sum_list (at_job p) jb_id batch Hn), !fmap_nil, !occ_nil, sum_by_nil. lia.
  - unfold jobs. by rewrite Hw.
  - cbn [set_current pi_current todo_of]. intros k j Hk. apply elem_of_list_to_map_2 in Hk.
    apply list_elem_of_fmap in Hk as (y & [= -> ->] & Hy). done.
  - cbn [set_current pi_pending pi_queue]. by rewrite (in_pending s HI), Hw.
Qed.

(** The worker's jobs have their outcomes, or are done. *)
Lemma inv_over w pl b losses settled s :
  Inv s → todo_of (sy_worker s) = [] → todo_of w = [] → worker_holds w = [] → pi_queue pl = pi_queue (sy_pipeline s) →
  pi_current pl = pi_current (sy_pipeline s) → worker_jobs w ⊆+ worker_jobs (sy_worker s) →
  pi_pending pl = pi_pending (sy_pipeline s) + Z.of_nat (length (worker_jobs w)) - Z.of_nat (length (worker_jobs (sy_worker s))) →
  (∀ p, sum_by (at_job p) (worker_holds w) + occ p losses.*1 + occ p settled.*1 = sum_by (at_job p) (worker_holds (sy_worker s))) →
  Inv (with_pipeline pl b w (sy_closer s) losses settled s).
Proof.
  intros HI Ht Ht' Hh Hq Hc Hj Hp H. apply inv_with_pipeline; [done| | | | |].
  - intros p. specialize (H p). unfold pipe_count. rewrite Hq, Hc. lia.
  - unfold jobs. rewrite Hq. by do 2 (apply submseteq_app; [done|]) || (apply submseteq_app; [done|]; by apply submseteq_app).
  - rewrite Hc, (no_current s HI Ht). intros k j. by rewrite lookup_empty.
  - rewrite Ht', Hh. apply submseteq_nil_l.
  - rewrite Hp, (in_pending s HI), Hq. lia.
Qed.

(** The thread that closes. *)
Lemma inv_closer c pl b losses s :
  Inv s → omap id (pi_queue pl) ++ closer_jobs c ⊆+ omap id (pi_queue (sy_pipeline s)) ++ closer_jobs (sy_closer s) →
  (pi_current pl = pi_current (sy_pipeline s) ∨ pi_current pl = ∅) →
  pi_pending pl + Z.of_nat (length (omap id (pi_queue (sy_pipeline s))) + length (draining (sy_closer s)))
    = pi_pending (sy_pipeline s) + Z.of_nat (length (omap id (pi_queue pl)) + length (draining c)) →
  (∀ p, sum_by (at_job p) (omap id (pi_queue pl)) + map_sum (at_job p) (pi_current pl) + sum_by (at_job p) (closer_holds c) + occ p losses.*1
    = sum_by (at_job p) (omap id (pi_queue (sy_pipeline s))) + map_sum (at_job p) (pi_current (sy_pipeline s))
      + sum_by (at_job p) (closer_holds (sy_closer s))) →
  Inv (with_pipeline pl b (sy_worker s) c losses [] s).
Proof.
  intros HI Hj Hc Hp H. apply inv_with_pipeline; [done| | | |apply HI|].
  - intros p. specialize (H p). unfold pipe_count. rewrite fmap_nil, occ_nil. lia.
  - unfold jobs. rewrite !(Permutation_app_swap_app _ (worker_jobs _)). by apply submseteq_skips_l.
  - intros k j Hk. destruct Hc as [E|E]; rewrite E in Hk; [by apply (in_current s HI)|by rewrite lookup_empty in Hk].
  - pose proof (in_pending s HI). lia.
Qed.

Lemma fail_cases j p p' losses : fail j p = (p', losses) →
  pi_queue p' = pi_queue p ∧ pi_pending p' = pi_pending p ∧
  ((pi_current p' = delete (jb_id j) (pi_current p) ∧ is_Some (pi_current p !! jb_id j) ∧ losses = [(jb_position j, "internal_error")]) ∨
   (pi_current p' = pi_current p ∧ pi_current p !! jb_id j = None ∧ losses = [])).
Proof.
  unfold fail. destruct (commit j p) as [p1|] eqn:E; intros H; simplify_eq.
  - apply commit_cases in E as (j' & E1 & E2 & E3 & E4). cbn. rewrite E2, E3, E4. eauto 10.
  - apply commit_none in E. auto 10.
Qed.

Lemma emit_cases a j p p' losses settled : emit a j p = (p', losses, settled) →
  pi_queue p' = pi_queue p ∧ pi_pending p' = pi_pending p ∧
  ((pi_current p' = delete (jb_id j) (pi_current p) ∧ is_Some (pi_current p !! jb_id j) ∧
    ∀ q, occ q losses.*1 + occ q settled.*1 = at_job q j) ∨
   (pi_current p' = pi_current p ∧ pi_current p !! jb_id j = None ∧ losses = [] ∧ settled = [])).
Proof.
  unfold emit. destruct (commit j p) as [p1|] eqn:E; intros H.
  - apply commit_cases in E as (j' & E1 & E2 & E3 & E4). split; [|split; [|left]];
      [destruct a; by simplify_eq/=..|]. split; [by destruct a; simplify_eq/=|]. split; [eauto|]. intros q.
    destruct a; simplify_eq/=; rewrite ?occ_cons, ?occ_nil; unfold at_job; lia.
  - apply commit_none in E. simplify_eq. auto 10.
Qed.

Lemma inv_worker_step sender s s' : Inv s → worker_step sender s s' → Inv s'.
Proof.
  intros HI Hst. destruct Hst as
    [q Hw Hq|j q Hw Hq|batch j q Hw Hq _|batch q Hw Hq _|batch stopping Hw _
    |all todo ready stopping j charged actual p b Hw Hr|all todo ready stopping j p losses Hw Hf
    |all todo ready stopping j p _ Hw Hc|all todo ready stopping j _ Hw Hc
    |all todo ready stopping j a p losses settled _ Hw He|all ready stopping answers p losses settled Hw Hl Hs
    |all stopping p b Hw Hb].
  - apply (inv_take None q Stopped); rewrite ?Hw; done.
  - apply (inv_take (Some j) q (Batching [j] false)); rewrite ?Hw; done.
  - apply (inv_take (Some j) q (Batching (batch ++ [j]) false)); rewrite ?Hw; done.
  - apply (inv_take None q (Batching batch true)); rewrite ?Hw; cbn; rewrite ?app_nil_r; done.
  - by apply inv_register.
  - assert (pi_queue p = pi_queue (sy_pipeline s) ∧ pi_current p = pi_current (sy_pipeline s) ∧ pi_pending p = pi_pending (sy_pipeline s))
      as (E1 & E2 & E3) by (unfold recharge in Hr; repeat case_match; simplify_eq; done).
    apply inv_with_pipeline; [done| | | |apply HI|]; rewrite ?E1, ?E2, ?E3; [|done|apply HI|apply HI].
    intros q. unfold pipe_count. rewrite E1, E2, !fmap_nil, !occ_nil. lia.
  - apply fail_cases in Hf as (E1 & E2 & Hcase). apply (inv_work all j todo ready _ _ _ _ _ _ _ HI Hw); [done|done|by apply submseteq_inserts_r|].
    destruct Hcase as [(? & ? & ->)|(? & ? & ->)]; [left|right]; (split; [done|]); (split; [done|]); intros q;
      unfold at_job; cbn [fmap list_fmap fst]; rewrite ?occ_cons, ?occ_nil; lia.
  - apply commit_cases in Hc as (j' & E1 & E2 & E3 & E4). apply (inv_work all j todo ready _ _ _ _ _ _ _ HI Hw); [done|done|reflexivity|left].
    split; [done|]. split; [eauto|]. intros q. rewrite sum_by_app, sum_by_cons, sum_by_nil, !fmap_nil, !occ_nil. lia.
  - apply commit_none in Hc. apply (inv_work all j todo ready _ _ _ _ _ _ _ HI Hw); [done|done|by apply submseteq_inserts_r|right].
    split; [done|]. split; [done|]. intros q. rewrite !fmap_nil, !occ_nil. lia.
  - apply emit_cases in He as (E1 & E2 & Hcase). apply (inv_work all j todo ready _ _ _ _ _ _ _ HI Hw); [done|done|by apply submseteq_inserts_r|].
    destruct Hcase as [(? & ? & H)|(? & ? & -> & ->)]; [left|right]; (split; [done|]); (split; [done|]); intros q;
      [rewrite <-(H q)|rewrite !fmap_nil, !occ_nil]; lia.
  - apply settle_batch_same in Hs as (E1 & E2 & E3 & H); [|done]. apply (inv_over (Ending all stopping)); rewrite ?Hw; try done.
    rewrite E3. cbn. lia.
  - unfold finish_batch in Hb. destruct (fold_left _ all _) as [p1 b1] eqn:E. apply done_jobs_same in E as (E1 & E2 & E3 & _).
    injection Hb as <- <-. apply (inv_over (if stopping then Stopped else Idle)); rewrite ?Hw; try done; try by destruct stopping.
    + destruct stopping; apply submseteq_nil_l.
    + cbn. rewrite E3. destruct stopping; cbn; lia.
Qed.

Ltac count_close :=
  intros; cbn [closer_holds close_pipeline stop_queue set_queue set_current bump dequeue pi_queue pi_current app fmap list_fmap fst];
  rewrite ?omap_app, ?sum_by_cons, ?sum_by_app, ?sum_by_cons, ?sum_by_nil, ?occ_cons, ?occ_nil; unfold at_job; lia.

Lemma inv_close_step s s' : Inv s → close_step s s' → Inv s'.
Proof.
  intros HI Hst. destruct Hst as [Hc|lost j q Hc Hq|lost claimed p Hc Hq Hp|lost claimed j p b losses Hc Hd|claimed j Hc|Hc].
  - apply inv_closer; rewrite ?Hc; auto. count_close.
  - apply inv_closer; rewrite ?Hc, ?Hq; cbn [omap list_omap id closer_jobs dequeue set_queue pi_queue pi_current pi_pending draining]; auto.
    + rewrite app_assoc. apply Permutation_submseteq. by rewrite <-(Permutation_cons_append (omap id q ++ lost)).
    + rewrite length_app. cbn. lia.
    + count_close.
  - unfold claim_current in Hp. injection Hp as <- <-. apply inv_closer; rewrite ?Hc, ?Hq; auto; [cbn; lia|].
    intros p. cbn [set_queue set_current bump pi_queue pi_current closer_holds].
    rewrite map_sum_empty, (map_sum_values _ (pi_current _)), sum_by_app. cbn. lia.
  - apply drop_same in Hd as (-> & E1 & E2 & E3). apply inv_closer; rewrite ?Hc, ?E1, ?E2, ?E3; auto; [|count_close].
    cbn. apply submseteq_skips_l, submseteq_cons. reflexivity.
  - apply inv_closer; rewrite ?Hc; auto. count_close.
  - assert (omap id (pi_queue (stop_queue (sy_pipeline s))) = omap id (pi_queue (sy_pipeline s))) as E.
    { cbn. by rewrite omap_app, app_nil_r. }
    apply inv_closer; rewrite ?Hc, ?E; auto; [by cbn; rewrite Z.add_0_r|count_close].
Qed.

Lemma inv_tee_step max_items s s' : Inv s → tee_step max_items s s' → Inv s'.
Proof.
  intros HI Hst. destruct Hst as
    [_|n errors _ _|n p kind headers _ Hp|n kind headers _|n p t losses _ Hp Hl|i e status headers He _|i e He|i e He
    |i e response c sd sd' b reserved He _ _ _|i e response c sd He _ _|i e response c sd He _ _|i e x state err He Hx
    |i e state err id defers given He Hf Hid Hg|i e f He Hf|i e t losses He Hd|i e defers given t losses He Hg Hs
    | |p t losses Hp Hl|id charge p Hp Hid|l1 l2 p reason Hl].
  - by apply inv_with_entered.
  - apply inv_with_entered, inv_with_tee; auto. apply HI.
  - apply inv_with_entered, inv_with_tee; [done| |by apply (nodup_given s (Some p))|].
    + intros q. cbn [open_entry tally set_active set_entries te_entries]. unfold entries_count.
      rewrite sum_by_app, sum_by_cons, sum_by_nil, occ_cons, occ_nil. cbn. lia.
    + intros i e [H|[_ H]]%lookup_app_Some; [by apply (in_finishing s HI i)|].
      apply list_lookup_singleton_Some in H as [_ <-]. by intros [].
  - apply inv_with_entered, inv_with_tee; [done| |auto|].
    + intros q. cbn [open_entry tally set_active set_entries te_entries]. unfold entries_count.
      rewrite sum_by_app, sum_by_cons, sum_by_nil. cbn. lia.
    + intros i e [H|[_ H]]%lookup_app_Some; [by apply (in_finishing s HI i)|].
      apply list_lookup_singleton_Some in H as [_ <-]. by intros [].
  - unfold lose in Hl. rewrite decide_True in Hl by done. injection Hl as <- <-.
    apply inv_with_entered, inv_with_tee; [done| |by apply (nodup_given s (Some p))|apply HI]. intros q. done.
  - by apply (inv_same i e (on_exchange (set_response (Some (new_side headers)) (Some status)) e)).
  - by apply (inv_same i e (on_exchange (λ x, set_sent (ex_request_tee x) true x) e)).
  - destruct (end_request_kept (en_exchange e)) as (? & ? & ?). by apply (inv_same i e (on_exchange end_request e)).
  - destruct (side_kept response sd' (if reserved then Some (Reserved c) else None) e) as (? & ? & ? & ?).
    by eapply (inv_same i e (set_side response sd' _ e)).
  - destruct (side_kept response (count (size_of c) sd) (Some (Counted c)) e) as (? & ? & ? & ?).
    by eapply (inv_same i e (set_side response _ _ e)).
  - destruct (side_kept response (keep c sd) None e) as (? & ? & ? & ?). by eapply (inv_same i e (set_side response _ _ e)).
  - unfold claim in Hx. destruct (ex_done (en_exchange e)) eqn:Ed; [done|]. injection Hx as <-.
    apply (inv_put i e (set_finishing (Some (state, err)) (on_exchange (λ _, set_done true (en_exchange e)) e))); auto.
    intros p. unfold entry_positions, alive. cbn. by rewrite Ed.
  - apply inv_finish; eauto.
  - apply (inv_put i e (set_finishing None (on_exchange (set_done false) e))); auto; [|by intros []].
    destruct (finishing_positions s i e HI He) as [_ ->]; [by rewrite Hf|]. intros p. unfold entry_positions. cbn.
    by destruct (ex_deferral (en_exchange e)).
  - by apply (inv_detach i e).
  - by apply (inv_shut i e).
  - apply inv_with_tee; auto. apply HI.
  - unfold lose in Hl. rewrite decide_False in Hl by done. injection Hl as <- <-.
    apply inv_with_tee; [done| |by apply (nodup_given s (Some p))|apply HI]. intros q. done.
  - by apply inv_record.
  - destruct HI as [H1 H2 H3 H4 H5 H6 H7]. constructor; try done. intros q. specialize (H1 q). rewrite held_count in H1 |- *.
    cbn [sy_tee sy_pipeline sy_worker sy_closer sy_losing sy_settled sy_allocated]. rewrite Hl in H1.
    rewrite !fmap_app, !fmap_cons, !fmap_nil, !occ_app, !occ_cons in *. cbn [fst] in *. rewrite occ_nil. lia.
Qed.

Lemma inv_start lim n : Inv (start lim n).
Proof.
  constructor; cbn; try done; by constructor.
Qed.

Lemma inv_reachable lim n max_items sender s : reachable lim n max_items sender s → Inv s.
Proof.
  unfold reachable. intros H. apply (rtc_ind_r Inv (start lim n)) in H; [done|apply inv_start|].
  intros x y _ [Hs|[Hs|Hs]] Hx; [by eapply inv_tee_step|by eapply inv_worker_step|by eapply inv_close_step].
Qed.

(** ** Properties *)

(** Every exchange is over, and nothing is pending, closing or about to be lost. *)
Definition at_rest (s : System) : Prop :=
  (∀ e, e ∈ te_entries (sy_tee s) → alive e = false) ∧ pi_pending (sy_pipeline s) = 0 ∧
  (sy_closer s = Open ∨ sy_closer s = Closed) ∧ sy_losing s = [].

(** Nothing pending means that the pipeline holds no position but those the closing thread is
    reporting. *)
Lemma nothing_pending s : Inv s → pi_pending (sy_pipeline s) = 0 →
  omap id (pi_queue (sy_pipeline s)) = [] ∧ worker_jobs (sy_worker s) = [] ∧ pi_current (sy_pipeline s) = ∅ ∧ draining (sy_closer s) = [].
Proof.
  intros HI Hp. pose proof (in_pending s HI) as H. rewrite Hp in H.
  assert (omap id (pi_queue (sy_pipeline s)) = []) as -> by (apply length_zero_iff_nil; lia).
  assert (worker_jobs (sy_worker s) = []) as Hw by (apply length_zero_iff_nil; lia).
  assert (draining (sy_closer s) = []) as -> by (apply length_zero_iff_nil; lia).
  split_and!; try done. apply no_current; [done|]. pose proof (todo_part s HI) as Ht. rewrite Hw in Ht.
  by apply submseteq_nil_r in Ht.
Qed.

(** C20: A captured call is accounted for exactly once: whatever threads finish, detach, shut and
    close in whatever order, a position that was allocated is held by exactly one exchange,
    job or thread, or has exactly one outcome, and nothing else has one; when nothing is
    pending the pipeline holds none, and at rest each has its outcome. *)
Theorem one_outcome lim max_inflight max_items sender s :
  reachable lim max_inflight max_items sender s →
  (∀ p, occ p (held s) + occ p (sy_settled s).*1 = if bool_decide (p ∈ sy_allocated s) then 1 else 0) ∧
  (pi_pending (sy_pipeline s) = 0 → sy_closer s = Open →
    held s = concat (entry_positions <$> te_entries (sy_tee s)) ++ (sy_losing s).*1) ∧
  (at_rest s → NoDup (sy_settled s).*1 ∧ ∀ p, p ∈ (sy_settled s).*1 ↔ p ∈ sy_allocated s).
Proof.
  intros HI%inv_reachable.
  assert (∀ p, occ p (held s) + occ p (sy_settled s).*1 = if bool_decide (p ∈ sy_allocated s) then 1 else 0) as Hc.
  { intros p. rewrite (in_count s HI p). apply occ_nodup, HI. }
  assert (∀ c, pi_pending (sy_pipeline s) = 0 → sy_closer s = c → c = Open ∨ c = Closed →
    held s = concat (entry_positions <$> te_entries (sy_tee s)) ++ (sy_losing s).*1) as Hh.
  { intros c Hp Hcl Hcs. destruct (nothing_pending s HI Hp) as (E1 & E2 & E3 & _).
    unfold held, pipe_holds. rewrite E1, E3, map_to_list_empty, Hcl.
    assert (worker_holds (sy_worker s) = []) as ->.
    { destruct (sy_worker s) as [|? ?|all todo ready stopping|? ?|] eqn:Ew; try done. pose proof (in_todo s HI) as H.
      rewrite Ew in H. cbn in H, E2. rewrite E2 in H. apply submseteq_nil_r in H. by apply app_eq_nil in H as [-> _]. }
    by destruct Hcs as [-> | ->]. }
  split_and!; [done|intros; by apply (Hh Open); auto|].
  intros (He & Hp & Hcl & Hl).
  assert (held s = []) as Hn.
  { rewrite (Hh (sy_closer s) Hp eq_refl Hcl), Hl, app_nil_r. clear -He.
    induction (te_entries (sy_tee s)) as [|e l IH]; [done|]. rewrite fmap_cons. cbn [concat]. rewrite IH, app_nil_r by (intros; apply He; set_solver).
    unfold entry_positions. by rewrite (He e) by set_solver. }
  rewrite Hn in Hc. split.
  - apply occ_le_nodup. intros p. specialize (Hc p). rewrite occ_nil in Hc. case_bool_decide; lia.
  - intros p. specialize (Hc p). rewrite occ_nil in Hc. rewrite (occ_in p). case_bool_decide; split; intros; try done; lia.
Qed.

(** ** Witness *)

(** A call begins, is finished and handed over; the worker commits and spools it. *)
Lemma a_call : ∃ s, reachable (mk_limits 100 200) 1000 16 true s ∧
  sy_settled s = [((1, 0), Spooled)] ∧ sy_allocated s = [(1, 0)] ∧ te_entries (sy_tee s) ≠ [].
Proof.
  eexists. split.
  - unfold reachable.
    eapply rtc_l; [left; eapply T_enter; reflexivity|].
    eapply rtc_l; [left; eapply (T_begin _ _ _ (1, 0) InMemory (λ _, None)); [reflexivity|intros p [= <-]; apply not_elem_of_nil]|].
    eapply rtc_l; [left; eapply (T_claim _ _ 0%nat _ _ Complete None); reflexivity|].
    eapply rtc_l; [left; eapply (T_finish _ _ 0%nat _ _ _ 7 false None);
      [reflexivity|reflexivity|apply not_elem_of_nil|intros ? [=]]|].
    eapply rtc_l; [right; left; eapply W_get; reflexivity|].
    eapply rtc_l; [right; left; eapply W_register; [reflexivity|right; right; reflexivity]|].
    eapply rtc_l; [right; left; eapply W_commit; reflexivity|].
    eapply rtc_l; [right; left; eapply (W_settle _ _ _ _ _ [None]); reflexivity|].
    eapply rtc_l; [right; left; eapply W_end; reflexivity|].
    reflexivity.
  - split_and!; [reflexivity|reflexivity|done].
Qed.

Lemma one_outcome_witness : ∃ s, sy_settled s = [((1, 0), Spooled)] ∧ occ (1, 0) (held s) = 0.
Proof.
  destruct a_call as (s & Hr & Hs & Ha & _). exists s. split; [done|].
  destruct (one_outcome _ _ _ _ s Hr) as [H _]. specialize (H (1, 0)). rewrite Hs, Ha in H.
  change (occ (1, 0) [((1, 0), Spooled)].*1) with 1 in H.
  rewrite bool_decide_eq_true_2 in H by apply list_elem_of_here.
  apply (Z.add_cancel_r _ _ 1). exact H.
Defined.
