(* ===== verification/CaptureBudget.v ===== *)
(** * The in-flight budget

    The executions of [Capture.v], for memory: what the exchanges retain, the bodies of the jobs
    under way and the charges of the records are what the budget says is used, and stay within
    [max_inflight_bytes]. *)

From stdpp Require Import gmap relations.
From S2P Require Import Prelude Sums Retention Capture CaptureOutcome.

#[local] Arguments retained_bytes : simpl never.
#[local] Arguments size_of : simpl never.
#[local] Arguments keep_chunk : simpl never.

(** ** What is held *)

Definition side_bytes (o : option Side) : Z := match o with Some sd => sd_retained sd | None => 0 end.

(** The bytes reserved for an exchange that can still retain. *)
Definition entry_bytes (e : Entry) : Z :=
  if alive e then
    sd_retained (ex_request (en_exchange e)) + side_bytes (ex_response (en_exchange e)) + torn_by_release e
  else 0.

Definition inflight (s : System) : Z :=
  sum_by entry_bytes (te_entries (sy_tee s)) + sum_by wire_bytes (jobs s) + map_sum (λ c, c) (pi_charges (sy_pipeline s)).

Definition counted_size (a : option Add) : Z := match a with Some (Counted c) => size_of c | _ => 0 end.

(** What a side counts is what it keeps, and the chunk that a thread is about to append. *)
Definition side_matches (sd : Side) (a : option Add) : Prop := sd_retained sd = size_of (retained_bytes (sd_chunks sd)) + counted_size a.
Definition entry_ok (e : Entry) : Prop :=
  alive e = true →
  side_matches (ex_request (en_exchange e)) (en_request_add e) ∧
  match ex_response (en_exchange e) with
  | Some r => side_matches r (en_response_add e)
  | None => en_response_add e = None
  end.

Definition is_record (j : Job) : bool := match jb_payload j with Record_ _ => true | _ => false end.

(** A charge belongs to a record that is under way. *)
Definition charges_ok (m : gmap Z Z) (l : list Job) : Prop :=
  ∀ k c, m !! k = Some c → 0 ≤ c ∧ ∃ j, j ∈ l ∧ jb_id j = k ∧ is_record j = true.

Record Budgeted (limit : Z) (s : System) : Prop := {
  bg_used : bu_used (te_budget (sy_tee s)) = inflight s + sy_torn s;
  bg_limit : bu_limit (te_budget (sy_tee s)) = limit;
  bg_bound : bu_used (te_budget (sy_tee s)) ≤ limit;
  bg_torn : 0 ≤ sy_torn s;
  bg_entries i e : entry s i = Some e → entry_ok e;
  bg_charges : charges_ok (pi_charges (sy_pipeline s)) (jobs s);
}.

(** ** Nothing is negative *)

Lemma captured_nonneg b : 0 ≤ captured_byte_length b.
Proof. rewrite captured_is_retained. apply size_nonneg. Qed.

Lemma wire_nonneg j : 0 ≤ wire_bytes j.
Proof.
  unfold wire_bytes. destruct (jb_payload j) as [q [r|] st er co|c]; [|pose proof (captured_nonneg q); lia|lia].
  pose proof (captured_nonneg q). pose proof (captured_nonneg r). lia.
Qed.

Lemma reserved_nonneg a : 0 ≤ reserved_size a ∧ 0 ≤ counted_size a.
Proof. destruct a as [[c|c]|]; cbn; split; try lia; apply size_nonneg. Qed.

Lemma entry_nonneg e : entry_ok e →
  0 ≤ entry_bytes e ∧ (alive e = true → 0 ≤ sd_retained (ex_request (en_exchange e)) ∧ 0 ≤ side_bytes (ex_response (en_exchange e))).
Proof.
  unfold entry_ok, entry_bytes, torn_by_release, side_matches, side_bytes. intros H. destruct (alive e); [|done]. destruct (H eq_refl) as [Hq Hr].
  pose proof (reserved_nonneg (en_request_add e)). pose proof (reserved_nonneg (en_response_add e)).
  pose proof (size_nonneg (retained_bytes (sd_chunks (ex_request (en_exchange e))))).
  destruct (ex_response (en_exchange e)) as [r|]; [pose proof (size_nonneg (retained_bytes (sd_chunks r)))|]; lia.
Qed.

Lemma charges_nonneg m l : charges_ok m l → 0 ≤ map_sum (λ c, c) m.
Proof. intros H. apply map_sum_nonneg. intros k c Hk. by apply (H k c). Qed.

Lemma entries_nonneg limit s : Budgeted limit s → ∀ e, e ∈ te_entries (sy_tee s) → 0 ≤ entry_bytes e.
Proof. intros H e [i Hi]%list_elem_of_lookup. by apply entry_nonneg, (bg_entries limit s H i). Qed.

Lemma jobs_nonneg l : 0 ≤ sum_by wire_bytes l.
Proof. apply sum_by_nonneg. intros. apply wire_nonneg. Qed.

(** The budget's [max(0, ...)] never cuts what is held. *)
Lemma release_used n b : n ≤ bu_used b → bu_used (release n b) = bu_used b - n ∧ bu_limit (release n b) = bu_limit b.
Proof. intros. cbn. lia. Qed.

Lemma reserve_cases n b r b' : try_reserve n b = (r, b') →
  bu_limit b' = bu_limit b ∧ ((r = false ∧ b' = b) ∨ (r = true ∧ bu_used b' = bu_used b + n ∧ bu_used b' ≤ bu_limit b')).
Proof.
  unfold try_reserve. destruct (Z.ltb_spec (bu_limit b) (bu_used b + n)); intros H1; simplify_eq; cbn; auto 10.
Qed.

(** ** Jobs that are done *)

Lemma done_job_budget j p b p' b' rest :
  done_job j (p, b) = (p', b') → 0 ≤ rest → (∀ k c, pi_charges p !! k = Some c → 0 ≤ c) →
  bu_used b = rest + wire_bytes j + map_sum (λ c, c) (pi_charges p) →
  bu_used b' = rest + map_sum (λ c, c) (pi_charges p') ∧ bu_limit b' = bu_limit b ∧ bu_used b' ≤ bu_used b ∧
  (∀ k c, pi_charges p' !! k = Some c → pi_charges p !! k = Some c ∧ (is_record j = true → k ≠ jb_id j)).
Proof.
  unfold done_job, wire_bytes, is_record. intros H Hr Hc Hu. pose proof (map_sum_nonneg (λ c, c) (pi_charges p) Hc) as Hm.
  pose proof (wire_nonneg j) as Hw. unfold wire_bytes in Hw.
  destruct (jb_payload j) as [q r st er co|charge].
  - injection H as <- <-. set (n := captured_byte_length q + _) in *.
    destruct (release_used n b) as [E1 E2]; [lia|]. rewrite E1, E2. split_and!; try lia. done.
  - destruct (pi_charges p !! jb_id j) as [c|] eqn:Ec; injection H as <- <-.
    + cbn [set_charges pi_charges]. rewrite (map_sum_delete _ _ _ _ Ec). pose proof (Hc _ _ Ec).
      assert (c ≤ map_sum (λ c, c) (pi_charges p)) as Hle.
      { rewrite <-(insert_delete_id _ _ _ Ec), map_sum_insert by apply lookup_delete_eq.
        assert (0 ≤ map_sum (λ c, c) (delete (jb_id j) (pi_charges p))); [|lia].
        apply map_sum_nonneg. intros k x [_ Hk]%lookup_delete_Some. by apply (Hc k). }
      destruct (release_used c b) as [E1 E2]; [lia|]. rewrite E1, E2. split_and!; try lia.
      intros k x [? ?]%lookup_delete_Some. split; [done|]. by intros.
    + split_and!; try lia. intros k x Hk. split; [done|]. intros _ ->. congruence.
Qed.

Lemma done_jobs_budget l : ∀ p b p' b' rest,
  fold_left (λ st j, done_job j st) l (p, b) = (p', b') → 0 ≤ rest → (∀ k c, pi_charges p !! k = Some c → 0 ≤ c) →
  bu_used b = rest + sum_by wire_bytes l + map_sum (λ c, c) (pi_charges p) →
  bu_used b' = rest + map_sum (λ c, c) (pi_charges p') ∧ bu_limit b' = bu_limit b ∧ bu_used b' ≤ bu_used b ∧
  (∀ k c, pi_charges p' !! k = Some c → pi_charges p !! k = Some c ∧ ∀ j, j ∈ l → is_record j = true → k ≠ jb_id j).
Proof.
  induction l as [|j l IH]; intros p b p' b' rest H Hr Hc Hu; cbn [fold_left] in H.
  { simplify_eq. rewrite sum_by_nil in Hu. split_and!; try lia. intros k c Hk. split; [done|]. by intros j ?%not_elem_of_nil. }
  destruct (done_job j (p, b)) as [p1 b1] eqn:E. rewrite sum_by_cons in Hu. pose proof (jobs_nonneg l).
  apply (done_job_budget j p b p1 b1 (rest + sum_by wire_bytes l)) in E as (E1 & E2 & E3 & E4); [|lia|done|lia].
  apply (IH p1 b1 p' b' rest) in H as (F1 & F2 & F3 & F4); [|done|intros k c Hk; by apply (Hc k), E4|lia].
  split_and!; [lia|congruence|lia|]. intros k c Hk. apply F4 in Hk as [Hk Hl]. apply E4 in Hk as [Hk Hj].
  split; [done|]. intros j' [-> |Hin]%elem_of_cons; [done|by apply Hl].
Qed.

(** ** The steps of the tee's threads *)

Lemma budgeted_tee limit t given losses torn s :
  Budgeted limit s → bu_limit (te_budget t) = limit → 0 ≤ torn →
  (∀ i e, te_entries t !! i = Some e → entry_ok e) →
  bu_used (te_budget t) + sum_by entry_bytes (te_entries (sy_tee s))
    = bu_used (te_budget (sy_tee s)) + sum_by entry_bytes (te_entries t) + torn →
  bu_used (te_budget t) ≤ limit → Budgeted limit (with_tee t given losses torn s).
Proof.
  intros [H1 H2 H3 H4 H5 H6] Hl Ht He Hu Hb. unfold inflight in *. constructor; cbn; try done; try lia.
  unfold inflight, jobs in *. cbn. lia.
Qed.

Lemma budgeted_put limit i e e' t given losses torn s :
  Budgeted limit s → entry s i = Some e → te_entries t = <[i := e']> (te_entries (sy_tee s)) →
  bu_limit (te_budget t) = limit → 0 ≤ torn → entry_ok e' →
  bu_used (te_budget t) + entry_bytes e = bu_used (te_budget (sy_tee s)) + entry_bytes e' + torn →
  bu_used (te_budget t) ≤ limit → Budgeted limit (with_tee t given losses torn s).
Proof.
  intros HB He Ht Hl H0 Hok Hu Hb. apply budgeted_tee; auto.
  - intros k x. rewrite Ht. intros [(-> & <- & _)|[_ Hk]]%list_lookup_insert_Some; [done|]. by apply (bg_entries _ _ HB k).
  - rewrite Ht, (sum_by_insert entry_bytes _ i e e' He). lia.
Qed.

(** A step that reserves and releases nothing. *)
Lemma budgeted_same limit i e e' t given losses s :
  Budgeted limit s → entry s i = Some e → te_entries t = <[i := e']> (te_entries (sy_tee s)) →
  te_budget t = te_budget (sy_tee s) → entry_ok e' → entry_bytes e' = entry_bytes e →
  Budgeted limit (with_tee t given losses 0 s).
Proof.
  intros HB He Ht Eb Hok E. apply (budgeted_put limit i e e'); auto; rewrite ?Eb, ?E; try lia; apply HB.
Qed.

(** Entries whose budget depends on the same things. *)
Lemma entry_like e e' :
  alive e' = alive e → ex_response (en_exchange e') = ex_response (en_exchange e) →
  sd_retained (ex_request (en_exchange e')) = sd_retained (ex_request (en_exchange e)) →
  sd_chunks (ex_request (en_exchange e')) = sd_chunks (ex_request (en_exchange e)) →
  en_request_add e' = en_request_add e → en_response_add e' = en_response_add e →
  entry_bytes e' = entry_bytes e ∧ (entry_ok e → entry_ok e').
Proof.
  intros E1 E2 E3 E4 E5 E6. unfold entry_ok, entry_bytes, side_matches, torn_by_release. by rewrite E1, E2, E3, E4, E5, E6.
Qed.

Lemma dead_bytes e : alive e = false → entry_bytes e = 0 ∧ entry_ok e.
Proof. intros H. unfold entry_bytes, entry_ok. by rewrite H. Qed.

(** A side that is shown a chunk. *)
Lemma consider_cases lim done c s b s' b' r : consider lim done c s b = (s', b', r) →
  sd_retained s' = sd_retained s ∧ sd_chunks s' = sd_chunks s ∧ bu_limit b' = bu_limit b ∧
  ((r = false ∧ b' = b) ∨ (r = true ∧ done = false ∧ bu_used b' = bu_used b + size_of c ∧ bu_used b' ≤ bu_limit b')).
Proof.
  unfold consider. destruct (size_of c =? 0); [intros; simplify_eq; auto 10|]. cbn [sd_truncated observe].
  destruct (sd_truncated s || done) eqn:Et; [intros; simplify_eq; auto 10|]. apply orb_false_iff in Et as [_ ->].
  assert (∀ n, sd_retained (note_prefix lim n (observe n s)) = sd_retained s ∧ sd_chunks (note_prefix lim n (observe n s)) = sd_chunks s) as Hn.
  { intros n. unfold note_prefix. by repeat case_match. }
  destruct (Hn (size_of c)) as [N1 N2]. case_match; [intros; simplify_eq; auto 10|].
  destruct (try_reserve (size_of c) b) as [q b1] eqn:E. apply reserve_cases in E as [Hl Hcase].
  destruct q; intros; simplify_eq; destruct Hcase as [(? & ?)|(? & ? & ?)]; simplify_eq; auto 10.
Qed.

Lemma budgeted_reserve limit i e response c sd sd' b reserved s :
  Budgeted limit s → entry s i = Some e → add_of response e = None → side_of response e = Some sd →
  consider (te_limits (sy_tee s)) (ex_done (en_exchange e)) c sd (te_budget (sy_tee s)) = (sd', b, reserved) →
  Budgeted limit
    (with_tee (set_budget b (put_entry i (set_side response sd' (if reserved then Some (Reserved c) else None) e) (sy_tee s))) [] [] 0 s).
Proof.
  intros HB He Ha Hs Hadm. apply consider_cases in Hadm as (E1 & E2 & E3 & Hcase).
  pose proof (bg_entries limit s HB i e He) as Hok. pose proof (bg_limit limit s HB) as Hl. pose proof (bg_bound limit s HB) as Hu.
  assert (alive (set_side response sd' (if reserved then Some (Reserved c) else None) e) = alive e) as Hal by (by destruct response).
  assert (reserved = true → alive e = true) as Hlive.
  { intros ->. destruct Hcase as [(? & _)|(_ & Hd & _)]; [done|]. unfold alive. by rewrite Hd. }
  apply (budgeted_put limit i e (set_side response sd' (if reserved then Some (Reserved c) else None) e)); auto; try lia.
  - cbn. congruence.
  - intros Hv. rewrite Hal in Hv. destruct (Hok Hv) as [Hq Hr]. unfold side_matches in *.
    destruct response; cbn in Ha, Hs |- *; rewrite ?Hs in *; [|injection Hs as <-]; rewrite ?Ha, ?E1, ?E2 in *;
      destruct reserved; done.
  - unfold entry_bytes. rewrite Hal. cbn [set_budget te_budget].
    destruct Hcase as [(-> & ->)|(-> & _ & Hb & _)]; [|rewrite Hlive by done]; unfold torn_by_release, side_bytes;
      destruct response; cbn in Ha, Hs |- *; rewrite ?Hs, ?Ha; [|injection Hs as <-|..|injection Hs as <-]; rewrite ?E1, ?Hb; cbn; try lia; case_match; lia.
  - cbn. destruct Hcase as [(_ & ->)|(_ & _ & _ & H)]; lia.
Qed.

Lemma budgeted_count limit i e response c sd s :
  Budgeted limit s → entry s i = Some e → add_of response e = Some (Reserved c) → side_of response e = Some sd →
  Budgeted limit (with_tee (put_entry i (set_side response (count (size_of c) sd) (Some (Counted c)) e) (sy_tee s)) [] [] 0 s).
Proof.
  intros HB He Ha Hs. pose proof (bg_entries limit s HB i e He) as Hok.
  apply (budgeted_same limit i e (set_side response (count (size_of c) sd) (Some (Counted c)) e)); auto.
  - intros Hv. assert (alive e = true) as Hv' by (by destruct response). destruct (Hok Hv') as [Hq Hr]. unfold side_matches in *.
    destruct response; cbn in Ha, Hs |- *; rewrite ?Hs in *; [|injection Hs as <-]; rewrite Ha in *;
      cbn [counted_size] in *; split; try done; lia.
  - assert (alive (set_side response (count (size_of c) sd) (Some (Counted c)) e) = alive e) as Hal by (by destruct response).
    unfold entry_bytes. rewrite Hal. unfold torn_by_release, side_bytes.
    destruct response; cbn in Ha, Hs |- *; rewrite ?Hs, ?Ha; [|injection Hs as <-]; cbn; case_match; lia.
Qed.

Lemma budgeted_keep limit i e response c sd s :
  Budgeted limit s → entry s i = Some e → add_of response e = Some (Counted c) → side_of response e = Some sd →
  Budgeted limit (with_tee (put_entry i (set_side response (keep c sd) None e) (sy_tee s)) [] [] 0 s).
Proof.
  intros HB He Ha Hs. pose proof (bg_entries limit s HB i e He) as Hok.
  apply (budgeted_same limit i e (set_side response (keep c sd) None e)); auto.
  - intros Hv. assert (alive e = true) as Hv' by (by destruct response). destruct (Hok Hv') as [Hq Hr]. unfold side_matches in *.
    destruct response; cbn in Ha, Hs |- *; rewrite ?Hs in *; [|injection Hs as <-]; rewrite Ha in *;
      cbn [counted_size] in *; rewrite keep_retained, size_app; split; try done; lia.
  - assert (alive (set_side response (keep c sd) None e) = alive e) as Hal by (by destruct response).
    unfold entry_bytes. rewrite Hal. unfold torn_by_release, side_bytes.
    destruct response; cbn in Ha, Hs |- *; rewrite ?Hs, ?Ha; [|injection Hs as <-]; cbn; case_match; lia.
Qed.

(** What an exchange gives back when it is released. *)
Lemma release_exchange_budget e x x' b b' rest :
  ex_request x = ex_request (en_exchange e) → ex_response x = ex_response (en_exchange e) → entry_ok e → alive e = true →
  release_exchange x b = (x', b') → 0 ≤ rest → bu_used b = rest + entry_bytes e →
  bu_used b' = rest + torn_by_release e ∧ bu_limit b' = bu_limit b ∧ bu_used b' ≤ bu_used b.
Proof.
  intros Eq Er Hok Hv H H0 Hu. destruct (entry_nonneg e Hok) as [_ Hn]. destruct (Hn Hv) as [N1 N2].
  assert (0 ≤ torn_by_release e) as Nt.
  { unfold torn_by_release. pose proof (reserved_nonneg (en_request_add e)). pose proof (reserved_nonneg (en_response_add e)). lia. }
  unfold entry_bytes in Hu. rewrite Hv in Hu. unfold release_exchange in H. injection H as <- <-. rewrite Eq, Er in *.
  unfold side_bytes in *. destruct (ex_response (en_exchange e)) as [r|]; cbn; lia.
Qed.

(** The rest of what is used, besides an entry. *)
Lemma used_besides limit s i e : Budgeted limit s → entry s i = Some e →
  ∃ rest, 0 ≤ rest ∧ bu_used (te_budget (sy_tee s)) = rest + entry_bytes e.
Proof.
  intros HB He. exists (bu_used (te_budget (sy_tee s)) - entry_bytes e). split; [|lia].
  rewrite (bg_used limit s HB). unfold inflight. pose proof (jobs_nonneg (jobs s)).
  pose proof (charges_nonneg _ _ (bg_charges limit s HB)). pose proof (bg_torn limit s HB).
  apply list_elem_of_split_length in He as (l1 & l2 & E & _). pose proof (entries_nonneg limit s HB) as Hn. rewrite E in *.
  rewrite sum_by_app, sum_by_cons.
  assert (0 ≤ sum_by entry_bytes l1) by (apply sum_by_nonneg; intros; apply Hn; set_solver).
  assert (0 ≤ sum_by entry_bytes l2) by (apply sum_by_nonneg; intros; apply Hn; set_solver). lia.
Qed.

Lemma torn_nonneg e : 0 ≤ torn_by_release e ∧ 0 ≤ torn_by_finish e.
Proof.
  unfold torn_by_release, torn_by_finish, add_size, reserved_size.
  destruct (en_request_add e) as [[c|c]|], (en_response_add e) as [[d|d]|];
    try pose proof (size_nonneg c); try pose proof (size_nonneg d); lia.
Qed.

Lemma detach_budget lost i e t t' losses : detach lost i e t = Some (t', losses) → en_finishing e = None →
  entry_ok e → ∀ rest, 0 ≤ rest → bu_used (te_budget t) = rest + entry_bytes e →
  ∃ x, te_entries t' = <[i := on_exchange (λ _, x) e]> (te_entries t) ∧ alive (on_exchange (λ _, x) e) = false ∧
    bu_used (te_budget t') = rest + torn_by_release e ∧ bu_limit (te_budget t') = bu_limit (te_budget t) ∧
    bu_used (te_budget t') ≤ bu_used (te_budget t).
Proof.
  intros H Hf Hok rest H0 Hu. pose proof (detach_cases lost i e t t' losses H) as (Hd & x & Et & Hx & _).
  exists x. split; [done|]. split; [unfold alive; cbn; by rewrite Hx, Hf|].
  assert (alive e = true) as Hv by (unfold alive; by rewrite Hd).
  unfold detach, claim in H. rewrite Hd in H. cbn [mbind option_bind] in H.
  destruct (release_exchange (set_done true (en_exchange e)) (te_budget t)) as [y b] eqn:Er.
  destruct (release_exchange_budget e (set_done true (en_exchange e)) y (te_budget t) b rest eq_refl eq_refl Hok Hv Er H0 Hu) as (U1 & U2 & U3).
  assert (te_budget t' = b) as ->; [|done].
  unfold lose in H. rewrite decide_True in H by done.
  destruct lost; [destruct (ex_deferral (set_done true (en_exchange e)))|];
    cbn [te_budget tally] in H; rewrite Er in H; by injection H as <- <-.
Qed.

Lemma budgeted_detach limit i e t t' losses given n1 n2 n3 n4 lost s :
  Inv s → Budgeted limit s → entry s i = Some e → detach lost i e (sy_tee s) = Some (t, losses) →
  t' = tally n1 n2 n3 n4 t → ∀ losses', Budgeted limit (with_tee t' given losses' (torn_by_release e) s).
Proof.
  intros HI HB He Hd -> losses'. pose proof (detach_cases _ _ _ _ _ _ Hd) as (Hdone & _).
  assert (en_finishing e = None) as Hf.
  { destruct (en_finishing e) eqn:E; [|done]. rewrite (in_finishing s HI i e He) in Hdone; [done|by rewrite E]. }
  destruct (used_besides limit s i e HB He) as (rest & H0 & Hu).
  destruct (detach_budget _ _ _ _ _ _ Hd Hf (bg_entries limit s HB i e He) rest H0 Hu) as (x & Et & Hal & U1 & U2 & U3).
  destruct (dead_bytes _ Hal) as [Hz Hok]. pose proof (bg_limit limit s HB). pose proof (bg_bound limit s HB).
  apply (budgeted_put limit i e (on_exchange (λ _, x) e)); auto; cbn [tally te_budget te_entries]; try lia; try congruence.
  apply torn_nonneg.
Qed.

(** ** A new job *)

Lemma drop_budget j reason p b p' b' losses rest :
  drop j reason p b = (p', b', losses) → 0 ≤ rest → (∀ k c, pi_charges p !! k = Some c → 0 ≤ c) →
  bu_used b = rest + wire_bytes j + map_sum (λ c, c) (pi_charges p) →
  bu_used b' = rest + map_sum (λ c, c) (pi_charges p') ∧ bu_limit b' = bu_limit b ∧ bu_used b' ≤ bu_used b ∧
  (∀ k c, pi_charges p' !! k = Some c → pi_charges p !! k = Some c ∧ (is_record j = true → k ≠ jb_id j)).
Proof.
  unfold drop. destruct (done_job j (bump 0 1 0 0 0 p, b)) as [p1 b1] eqn:E. intros [= <- <- <-] H0 Hc Hu.
  by apply (done_job_budget _ _ _ _ _ rest) in E.
Qed.

Lemma submit_budget m j p b p' b' losses rest :
  submit m j p b = (p', b', losses) → 0 ≤ rest → (∀ k c, pi_charges p !! k = Some c → 0 ≤ c) →
  bu_used b = rest + wire_bytes j + map_sum (λ c, c) (pi_charges p) →
  ∃ js, omap id (pi_queue p') = omap id (pi_queue p) ++ js ∧
    bu_used b' = rest + sum_by wire_bytes js + map_sum (λ c, c) (pi_charges p') ∧ bu_limit b' = bu_limit b ∧ bu_used b' ≤ bu_used b ∧
    (∀ k c, pi_charges p' !! k = Some c → pi_charges p !! k = Some c ∧ (js = [j] ∨ (is_record j = true → k ≠ jb_id j))).
Proof.
  intros Hs H0 Hc Hu. pose proof (submit_cases _ _ _ _ _ _ _ Hs) as Hcase. unfold submit in Hs.
  assert (∀ reason, drop j reason p b = (p', b', losses) →
    ∃ js, omap id (pi_queue p') = omap id (pi_queue p) ++ js ∧
    bu_used b' = rest + sum_by wire_bytes js + map_sum (λ c, c) (pi_charges p') ∧ bu_limit b' = bu_limit b ∧ bu_used b' ≤ bu_used b ∧
    (∀ k c, pi_charges p' !! k = Some c → pi_charges p !! k = Some c ∧ (js = [j] ∨ (is_record j = true → k ≠ jb_id j)))) as Hd.
  { intros reason Hd. pose proof (drop_same _ _ _ _ _ _ _ Hd) as (_ & Hq & _).
    apply (drop_budget _ _ _ _ _ _ _ rest) in Hd as (E1 & E2 & E3 & E4); [|done..].
    exists []. rewrite Hq, app_nil_r, sum_by_nil. split_and!; try done; [lia|]. intros k c Hk. apply E4 in Hk as [? ?]. auto. }
  destruct (pi_closed p); [by apply (Hd "shutdown")|]. case_decide; [|by apply (Hd "queue_full")].
  injection Hs as <- <- <-. exists [j]. cbn [bump set_queue pi_queue pi_charges]. rewrite omap_app, sum_by_cons, sum_by_nil.
  split_and!; try done; [lia|]. auto.
Qed.

Lemma budgeted_submit limit max_items j pl b pl' b' losses t given torn s :
  Budgeted limit s → pi_queue pl = pi_queue (sy_pipeline s) → submit max_items j pl b = (pl', b', losses) →
  charges_ok (pi_charges pl) (j :: jobs s) → bu_limit b = limit → bu_used b ≤ limit → 0 ≤ torn →
  (∀ i e, te_entries t !! i = Some e → entry_ok e) →
  bu_used b + sum_by entry_bytes (te_entries (sy_tee s)) + map_sum (λ c, c) (pi_charges (sy_pipeline s))
    = bu_used (te_budget (sy_tee s)) + sum_by entry_bytes (te_entries t) + wire_bytes j + map_sum (λ c, c) (pi_charges pl) + torn →
  Budgeted limit (with_pipeline pl' b' (sy_worker s) (sy_closer s) losses [] (with_tee t given [] torn s)).
Proof.
  intros HB Hq Hs Hc Hl Hb H0 He Hu. pose proof (bg_used limit s HB) as HU. pose proof (bg_torn limit s HB) as HT. unfold inflight in HU.
  assert (0 ≤ sum_by entry_bytes (te_entries t)) as Hn.
  { apply sum_by_nonneg. intros e [i Hi]%list_elem_of_lookup. by apply entry_nonneg, (He i). }
  pose proof (jobs_nonneg (jobs s)) as Hj.
  apply (submit_budget _ _ _ _ _ _ _ (sum_by entry_bytes (te_entries t) + sum_by wire_bytes (jobs s) + sy_torn s + torn)) in Hs
    as (js & E1 & E2 & E3 & E4 & E5); [|lia|intros k c Hk; by apply (Hc k c)|lia].
  assert (jobs (with_pipeline pl' b' (sy_worker s) (sy_closer s) losses [] (with_tee t given [] torn s)) ≡ₚ js ++ jobs s) as HJ.
  { unfold jobs. cbn. rewrite E1, Hq, <-app_assoc. apply Permutation_app_swap_app. }
  constructor; try done.
  - unfold inflight. rewrite (sum_by_perm _ _ _ HJ), sum_by_app.
    cbn [with_pipeline with_tee set_budget sy_tee sy_pipeline sy_torn te_budget te_entries]. lia.
  - cbn. lia.
  - cbn. lia.
  - cbn. lia.
  - intros k c Hk. cbn in Hk. apply E5 in Hk as [Hk Hcase]. destruct (Hc k c Hk) as (Hpos & y & Hy & Hid & Hrec).
    split; [done|]. exists y. split; [|done]. rewrite HJ. apply elem_of_cons in Hy as [-> |Hy]; [|apply elem_of_app; by right].
    destruct Hcase as [-> |Hcase]; [by apply list_elem_of_here|]. by destruct (Hcase Hrec).
Qed.

Lemma charges_more m l k : charges_ok m l → charges_ok m (k :: l).
Proof. intros H x c Hx. destruct (H x c Hx) as (? & y & ? & ?). split; [done|]. exists y. split; [by constructor|done]. Qed.

Lemma budgeted_record limit max_items id charge p s :
  Budgeted limit s → fresh_id s id → Budgeted limit (record max_items id charge p s).
Proof.
  intros HB Hid. unfold record. destruct (charge_record _ _ _ _) as [[pl b] charged] eqn:Ec.
  destruct (submit _ _ pl b) as [[pl' b'] losses] eqn:Es. pose proof (bg_charges limit s HB) as Hch.
  pose proof (bg_limit limit s HB). pose proof (bg_bound limit s HB).
  assert (pi_charges (sy_pipeline s) !! id = None) as Hnone.
  { destruct (pi_charges (sy_pipeline s) !! id) as [c|] eqn:E; [|done]. destruct (Hch _ _ E) as (_ & j & Hj & Hk & _).
    destruct Hid. rewrite <-Hk. by apply list_elem_of_fmap_2. }
  assert (pi_queue pl = pi_queue (sy_pipeline s) ∧ bu_limit b = limit ∧ bu_used b ≤ limit ∧
    bu_used b + map_sum (λ c, c) (pi_charges (sy_pipeline s)) = bu_used (te_budget (sy_tee s)) + map_sum (λ c, c) (pi_charges pl) ∧
    charges_ok (pi_charges pl) (mk_job id p (Record_ (if charged then charge else 0)) :: jobs s)) as (Q & L & U & S & C).
  { unfold charge_record in Ec. destruct (Z.leb_spec charge 0); [simplify_eq; split_and!; auto; by apply charges_more|].
    destruct (try_reserve charge _) as [r b1] eqn:E. apply reserve_cases in E as [El Hcase].
    destruct r; injection Ec as <- <- <-; destruct Hcase as [(Hr & Hb)|(Hr & Hu & Hle)]; try discriminate;
      [|rewrite Hb; split_and!; auto; by apply charges_more].
    cbn [set_charges pi_charges pi_queue]. rewrite (map_sum_insert _ _ _ _ Hnone). split_and!; try done; try lia.
    intros k c [[<- <-]|[_ Hk]]%lookup_insert_Some; [split; [lia|]; eexists; by split; [apply list_elem_of_here|]|].
    by apply (charges_more _ _ _ Hch). }
  eapply budgeted_submit; [done|exact Q|exact Es|exact C|done|done|done|apply HB|].
  unfold wire_bytes. cbn [jb_payload]. lia.
Qed.

Lemma adopt_budget e x' defers given t t' owned rest :
  adopt (en_exchange e) defers given t = (x', t', owned) → entry_ok e → alive e = true → 0 ≤ rest →
  bu_used (te_budget t) = rest + entry_bytes e →
  bu_limit (te_budget t') = bu_limit (te_budget t) ∧
  if owned then te_budget t' = te_budget t ∧ ex_request x' = ex_request (en_exchange e) ∧ ex_response x' = ex_response (en_exchange e)
  else bu_used (te_budget t') = rest + torn_by_release e ∧ bu_used (te_budget t') ≤ bu_used (te_budget t).
Proof.
  intros H Hok Hv H0 Hu. unfold adopt in H. destruct (release_exchange (en_exchange e) (te_budget t)) as [y b] eqn:Er.
  destruct (release_exchange_budget e (en_exchange e) y _ b rest eq_refl eq_refl Hok Hv Er H0 Hu) as (U1 & U2 & U3).
  destruct (ex_deferral (en_exchange e)); [destruct defers; [|destruct given]|]; injection H as <- <- <-; cbn [tally set_budget te_budget]; auto.
Qed.

(** What the job of a finished exchange holds. *)
Lemma take_bodies_bytes e state err x p x' id pos :
  take_bodies state err x = (p, x') → ex_request x = ex_request (en_exchange e) → ex_response x = ex_response (en_exchange e) →
  entry_ok e → alive e = true → wire_bytes (mk_job id pos p) + torn_by_finish e = entry_bytes e.
Proof.
  unfold take_bodies. intros [= <- _] Eq Er Hok Hv. destruct (Hok Hv) as [Hq Hr]. unfold entry_bytes, side_matches in *. rewrite Hv.
  unfold wire_bytes, torn_by_finish, torn_by_release, side_bytes. cbn [jb_payload].
  assert (∀ a, add_size a = reserved_size a + counted_size a) as Hadd by (intros [[c|c]|]; cbn; lia).
  rewrite !Hadd, Eq, Er, captured_is_retained. cbn [body fst cb_chunks].
  destruct (ex_response (en_exchange e)) as [r|]; cbn [fmap option_fmap option_map fst];
    [rewrite captured_is_retained; cbn [body fst cb_chunks]; lia|rewrite Hr; cbn; lia].
Qed.

Lemma budgeted_finish limit max_items i e id defers given state err s :
  Inv s → Budgeted limit s → entry s i = Some e → is_Some (en_finishing e) →
  Budgeted limit (finish max_items i e id defers given state err s).
Proof.
  intros HI HB He Hf. pose proof (in_finishing s HI i e He Hf) as Hd.
  assert (alive e = true) as Hv by (unfold alive; rewrite (bool_decide_eq_true_2 _ Hf); apply orb_true_r).
  pose proof (bg_entries limit s HB i e He) as Hok. pose proof (bg_limit limit s HB). pose proof (bg_bound limit s HB).
  destruct (used_besides limit s i e HB He) as (rest & Hr0 & Hu).
  unfold finish. destruct (adopt _ _ _ _) as [[x t] owned] eqn:Ea.
  pose proof (adopt_cases _ _ _ _ _ _ _ Ea) as (Et & Ed & _). rewrite Hd in Ed.
  apply (adopt_budget e _ _ _ _ _ _ rest) in Ea as [El Ha]; [|done..]. cbn [forget set_active te_budget te_entries] in El, Ha, Et.
  assert (∀ y, ex_done y = true → entry_bytes (mk_entry y None (en_request_add e) (en_response_add e)) = 0
    ∧ entry_ok (mk_entry y None (en_request_add e) (en_response_add e))) as Hdead.
  { intros y Hy. apply dead_bytes. unfold alive. cbn. by rewrite Hy. }
  destruct owned.
  - destruct Ha as (Eb & Eq & Er). destruct (take_bodies state err x) as [pay x'] eqn:Et'.
    pose proof (take_bodies_kept _ _ _ _ _ Et') as (Ed' & _). rewrite Ed in Ed'. destruct (Hdead x' Ed') as [Hz Hok'].
    pose proof (take_bodies_bytes e _ _ _ _ _ id (ex_position x') Et' Eq Er Hok Hv) as Hw.
    destruct (submit _ _ _ _) as [[pl b] losses] eqn:Es.
    eapply budgeted_submit; [done|done|exact Es|apply charges_more, HB|cbn; congruence|cbn; by rewrite Eb|apply torn_nonneg| |].
    + intros k y. cbn [put_entry set_entries te_entries]. rewrite Et.
      intros [(-> & <- & _)|[_ Hk]]%list_lookup_insert_Some; [done|]. by apply (bg_entries limit s HB k).
    + cbn [put_entry set_entries te_entries te_budget]. rewrite Et, (sum_by_insert entry_bytes _ i e _ He), Hz, Eb. lia.
  - destruct Ha as (U1 & U2). destruct (Hdead x Ed) as [Hz Hok'].
    apply (budgeted_put limit i e (mk_entry x None (en_request_add e) (en_response_add e))); auto;
      cbn [put_entry set_entries te_entries te_budget]; try lia; try congruence. apply torn_nonneg.
Qed.

Lemma tally_zero t : tally 0 0 0 0 t = t.
Proof. destruct t. unfold tally. cbn -[Z.add]. by rewrite !Z.add_0_r. Qed.

Lemma budgeted_entered limit n s : Budgeted limit s → Budgeted limit (with_entered n s).
Proof. by intros []. Qed.

(** A step that leaves the exchanges and the budget, and one that opens an exchange. *)
Lemma budgeted_idle limit t given losses s :
  Budgeted limit s → te_entries t = te_entries (sy_tee s) → te_budget t = te_budget (sy_tee s) →
  Budgeted limit (with_tee t given losses 0 s).
Proof.
  intros HB E1 E2. pose proof (bg_limit limit s HB). pose proof (bg_bound limit s HB).
  apply budgeted_tee; rewrite ?E1, ?E2; auto; [lia|apply HB|lia].
Qed.

Lemma budgeted_open limit deferral p kind headers n given s :
  Budgeted limit s → Budgeted limit (with_tee (open_entry (new_exchange deferral p kind headers) n (sy_tee s)) given [] 0 s).
Proof.
  intros HB. pose proof (bg_limit limit s HB). pose proof (bg_bound limit s HB). set (x := new_exchange deferral p kind headers).
  assert (entry_bytes (mk_entry x None None None) = 0 ∧ entry_ok (mk_entry x None None None)) as [Hz Hok]
    by (unfold entry_bytes, entry_ok, alive, side_matches, torn_by_release; destruct kind; done).
  apply budgeted_tee; auto; cbn [open_entry tally set_active set_entries te_entries te_budget]; [lia| |].
  - intros i e [H1|[_ H1]]%lookup_app_Some; [by apply (bg_entries limit s HB i)|]. by apply list_lookup_singleton_Some in H1 as [_ <-].
  - rewrite sum_by_app, sum_by_cons, sum_by_nil, Hz. lia.
Qed.

Lemma budgeted_shut limit i e defers given t losses given' s :
  Inv s → Budgeted limit s → entry s i = Some e → shut i e defers given (sy_tee s) = Some (t, losses) →
  Budgeted limit (with_tee t given' losses (torn_by_release e) s).
Proof.
  intros HI HB He Hs. unfold shut in Hs. destruct (detach false i e (sy_tee s)) as [[t0 l0]|] eqn:Ed; [|done]. cbn [mbind option_bind] in Hs.
  unfold lose in Hs. rewrite !decide_False in Hs by done.
  assert (t = tally 0 0 0 0 t0 ∨ t = tally 0 0 1 0 t0 ∨ t = tally 0 0 0 1 t0) as Hcase.
  { destruct (ex_deferral (en_exchange e)); [destruct defers; [|destruct given]|]; injection Hs as <- _; auto.
    left. by rewrite tally_zero. }
  destruct Hcase as [H|[H|H]]; by apply (budgeted_detach limit i e _ _ _ _ _ _ _ _ _ s HI HB He Ed H).
Qed.

Lemma budgeted_tee_step limit max_items s s' : Inv s → Budgeted limit s → tee_step max_items s s' → Budgeted limit s'.
Proof.
  intros HI HB Hst.
  destruct Hst as
    [_|n errors _ _|n p kind headers _ Hp|n kind headers _|n p t losses _ Hp Hl|i e status headers He Hr|i e He|i e He
    |i e response c sd sd' b reserved He Ha Hsd Hadm|i e response c sd He Ha Hsd|i e response c sd He Ha Hsd|i e x state err He Hx
    |i e state err id defers given He Hf Hid Hg|i e f He Hf|i e t losses He Hd|i e defers given t losses He Hg Hs
    | |p t losses Hp Hl|id charge p Hp Hid|l1 l2 p reason Hl].
  - by apply budgeted_entered.
  - by apply budgeted_entered, budgeted_idle.
  - by apply budgeted_entered, budgeted_open.
  - by apply budgeted_entered, budgeted_open.
  - unfold lose in Hl. rewrite decide_True in Hl by done. injection Hl as <- <-. by apply budgeted_entered, budgeted_idle.
  - apply (budgeted_same limit i e (on_exchange (set_response (Some (new_side headers)) (Some status)) e)); auto.
    + intros Hv. destruct (bg_entries limit s HB i e He Hv) as [Hq H]. rewrite Hr in H. split; [done|]. cbn. by rewrite H.
    + unfold entry_bytes. cbn. by rewrite Hr.
  - destruct (entry_like e (on_exchange (λ x, set_sent (ex_request_tee x) true x) e)) as [E Hok]; try done.
    eapply (budgeted_same limit i e); eauto. by apply Hok, (bg_entries limit s HB i).
  - destruct (entry_like e (on_exchange end_request e)) as [E Hok]; try done; try (unfold end_request, alive; cbn; by case_match).
    eapply (budgeted_same limit i e); eauto. by apply Hok, (bg_entries limit s HB i).
  - by apply (budgeted_reserve limit i e response c sd).
  - by apply budgeted_count.
  - by apply budgeted_keep.
  - unfold claim in Hx. destruct (ex_done (en_exchange e)) eqn:Ed; [done|]. injection Hx as <-.
    destruct (entry_like e (set_finishing (Some (state, err)) (on_exchange (λ _, set_done true (en_exchange e)) e))) as [E Hok]; try done.
    { unfold alive. cbn. by rewrite Ed. }
    eapply (budgeted_same limit i e); eauto. by apply Hok, (bg_entries limit s HB i).
  - apply budgeted_finish; eauto.
  - destruct (entry_like e (set_finishing None (on_exchange (set_done false) e))) as [E Hok]; try done.
    { unfold alive. cbn. rewrite Hf. by rewrite orb_true_r. }
    eapply (budgeted_same limit i e); eauto. by apply Hok, (bg_entries limit s HB i).
  - apply (budgeted_detach limit i e t t losses [] 0 0 0 0 true); auto. by rewrite tally_zero.
  - by apply (budgeted_shut limit i e defers given).
  - by apply budgeted_idle.
  - unfold lose in Hl. rewrite decide_False in Hl by done. injection Hl as <- <-. by apply budgeted_idle.
  - by apply budgeted_record.
  - by destruct HB.
Qed.

(** ** The steps of the worker and of the thread that closes *)

Lemma budgeted_pipe limit pl b w c losses settled s :
  Budgeted limit s → bu_limit b = limit → bu_used b ≤ limit →
  let l := omap id (pi_queue pl) ++ worker_jobs w ++ closer_jobs c in
  charges_ok (pi_charges pl) l →
  bu_used b + sum_by wire_bytes (jobs s) + map_sum (λ c, c) (pi_charges (sy_pipeline s))
    = bu_used (te_budget (sy_tee s)) + sum_by wire_bytes l + map_sum (λ c, c) (pi_charges pl) →
  Budgeted limit (with_pipeline pl b w c losses settled s).
Proof.
  intros [H1 H2 H3 H4 H5 H6] Hl Hb l Hc Hu. unfold inflight in *. constructor; try done.
  cbn [with_pipeline set_budget sy_tee te_budget sy_torn]. unfold inflight. cbn [with_pipeline set_budget sy_tee te_entries sy_pipeline].
  change (jobs (with_pipeline pl b w c losses settled s)) with l. lia.
Qed.

(** Jobs only change hands. *)
Lemma budgeted_move limit pl w c losses settled s :
  Budgeted limit s → pi_charges pl = pi_charges (sy_pipeline s) →
  omap id (pi_queue pl) ++ worker_jobs w ++ closer_jobs c ≡ₚ jobs s →
  Budgeted limit (with_pipeline pl (te_budget (sy_tee s)) w c losses settled s).
Proof.
  intros HB Hc Hj. apply budgeted_pipe; [done|apply HB|apply HB| |].
  - rewrite Hc. intros k x Hk. destruct (bg_charges limit s HB k x Hk) as (? & j & Hin & ?). split; [done|]. exists j. by rewrite Hj.
  - rewrite Hc, (sum_by_perm _ _ _ Hj). lia.
Qed.

(** Jobs that are done. *)
Lemma budgeted_done limit l pl b w c losses settled s pl0 :
  Budgeted limit s → fold_left (λ st j, done_job j st) l (pl0, te_budget (sy_tee s)) = (pl, b) →
  pi_charges pl0 = pi_charges (sy_pipeline s) → ∀ pl', pi_charges pl' = pi_charges pl →
  jobs s ≡ₚ l ++ omap id (pi_queue pl') ++ worker_jobs w ++ closer_jobs c →
  Budgeted limit (with_pipeline pl' b w c losses settled s).
Proof.
  intros HB Hf H0 pl' Hc' Hj. pose proof (bg_used limit s HB) as HU. pose proof (bg_torn limit s HB). unfold inflight in HU.
  set (new := omap id (pi_queue pl') ++ worker_jobs w ++ closer_jobs c) in *.
  assert (sum_by wire_bytes (jobs s) = sum_by wire_bytes l + sum_by wire_bytes new) as Hsum by (by rewrite (sum_by_perm _ _ _ Hj), sum_by_app).
  assert (0 ≤ sum_by entry_bytes (te_entries (sy_tee s))) as Hn by apply (sum_by_nonneg _ _ (entries_nonneg limit s HB)).
  pose proof (jobs_nonneg new). pose proof (bg_charges limit s HB) as Hch.
  apply (done_jobs_budget l _ _ _ _ (sum_by entry_bytes (te_entries (sy_tee s)) + sum_by wire_bytes new + sy_torn s)) in Hf
    as (E1 & E2 & E3 & E4); rewrite ?H0; [|lia|intros k x Hk; by apply (Hch k x)|lia].
  pose proof (bg_limit limit s HB). pose proof (bg_bound limit s HB).
  apply budgeted_pipe; [done|congruence|lia| |fold new; rewrite Hc'; lia].
  fold new. rewrite Hc'. intros k x Hk. apply E4 in Hk as [Hk Hl]. rewrite H0 in Hk. destruct (Hch k x Hk) as (? & j & Hin & Hid & Hrec).
  split; [done|]. exists j. split; [|done]. rewrite Hj in Hin. apply elem_of_app in Hin as [Hin|Hin]; [|done]. by destruct (Hl j Hin Hrec).
Qed.

(** A charge that is lowered. *)
Lemma budgeted_recharge limit k charge excess' losses settled s :
  Budgeted limit s → pi_charges (sy_pipeline s) !! k = Some charge → 0 ≤ excess' →
  let excess := Z.min charge excess' in
  Budgeted limit (with_pipeline (set_charges (<[k := charge - excess]> (pi_charges (sy_pipeline s))) (sy_pipeline s))
    (release excess (te_budget (sy_tee s))) (sy_worker s) (sy_closer s) losses settled s).
Proof.
  intros HB Hk Hx. cbn zeta. pose proof (bg_charges limit s HB) as Hch. destruct (Hch k charge Hk) as (H0 & j & Hj & Hid & Hrec).
  pose proof (bg_used limit s HB) as HU. pose proof (bg_torn limit s HB). unfold inflight in HU. pose proof (jobs_nonneg (jobs s)).
  assert (0 ≤ sum_by entry_bytes (te_entries (sy_tee s))) as Hn by apply (sum_by_nonneg _ _ (entries_nonneg limit s HB)).
  assert (charge ≤ map_sum (λ c, c) (pi_charges (sy_pipeline s))) as Hle.
  { assert (0 ≤ map_sum (λ c, c) (delete k (pi_charges (sy_pipeline s)))); [|rewrite (map_sum_delete _ _ _ _ Hk) in *; lia].
    apply map_sum_nonneg. intros k' x [_ Hk']%lookup_delete_Some. by apply (Hch k' x). }
  destruct (release_used (Z.min charge excess') (te_budget (sy_tee s))) as [E1 E2]; [lia|].
  pose proof (bg_limit limit s HB). pose proof (bg_bound limit s HB).
  apply budgeted_pipe; [done|congruence|lia| |].
  - cbn [set_charges pi_charges pi_queue]. intros k' x [[<- <-]|[_ Hk']]%lookup_insert_Some; [|by apply (Hch k' x)].
    split; [lia|]. by exists j.
  - cbn [set_charges pi_charges pi_queue]. rewrite (map_sum_replace _ _ _ _ _ Hk), E1. change (omap id _ ++ _) with (jobs s). lia.
Qed.

Lemma settle_charges ready : ∀ answers p p' losses settled,
  settle_batch ready answers p = (p', losses, settled) → pi_charges p' = pi_charges p.
Proof.
  induction ready as [|j ready IH]; intros [|a answers] p p' losses settled H; cbn [settle_batch] in H; try by simplify_eq.
  destruct (settle_batch ready answers _) as [[p1 l1] s1] eqn:E. apply IH in E. destruct a; simplify_eq; rewrite E; by repeat case_match.
Qed.

Lemma budgeted_worker_step limit sender s s' : Budgeted limit s → worker_step sender s s' → Budgeted limit s'.
Proof.
  intros HB Hst. destruct Hst as
    [q Hw Hq|j q Hw Hq|batch j q Hw Hq _|batch q Hw Hq _|batch stopping Hw _
    |all todo ready stopping j charged actual p b Hw Hr|all todo ready stopping j p losses Hw Hf
    |all todo ready stopping j p _ Hw Hc|all todo ready stopping j _ Hw Hc
    |all todo ready stopping j a p losses settled _ Hw He|all ready stopping answers p losses settled Hw Hl Hs
    |all stopping p b Hw Hb].
  - apply budgeted_move; auto. unfold jobs. by rewrite Hw, Hq.
  - apply budgeted_move; auto. unfold jobs. rewrite Hw, Hq. cbn. symmetry. apply Permutation_middle.
  - apply budgeted_move; auto. unfold jobs. rewrite Hw, Hq. cbn. rewrite <-(app_assoc batch). cbn.
    rewrite (app_assoc _ batch), (app_assoc _ batch). symmetry. apply Permutation_middle.
  - apply budgeted_move; auto. unfold jobs. by rewrite Hw, Hq.
  - apply budgeted_move; auto. unfold jobs. by rewrite Hw.
  - unfold recharge in Hr. destruct (pi_charges (sy_pipeline s) !! jb_id j) as [charge|] eqn:Ec; [|simplify_eq; by apply budgeted_move].
    destruct (Z.leb_spec charged actual) as [Hle|Hle]; [simplify_eq; by apply budgeted_move|]. injection Hr as <- <-.
    apply (budgeted_recharge limit (jb_id j) charge); [done|done|lia].
  - apply budgeted_move; auto; [unfold fail, commit in Hf; repeat case_match; by simplify_eq|].
    apply fail_cases in Hf as (E1 & _). unfold jobs. by rewrite Hw, E1.
  - apply budgeted_move; auto; [unfold commit in Hc; case_match; by simplify_eq|].
    apply commit_cases in Hc as (? & _ & _ & E1 & _). unfold jobs. by rewrite Hw, E1.
  - apply budgeted_move; auto. unfold jobs. by rewrite Hw.
  - apply budgeted_move; auto; [unfold emit, commit in He; repeat case_match; by simplify_eq|].
    apply emit_cases in He as (E1 & _). unfold jobs. by rewrite Hw, E1.
  - pose proof (settle_charges _ _ _ _ _ _ Hs). apply settle_batch_same in Hs as (E1 & _); [|done].
    apply budgeted_move; auto. unfold jobs. by rewrite Hw, E1.
  - unfold finish_batch in Hb. destruct (fold_left _ all _) as [p1 b1] eqn:E. pose proof (done_jobs_same _ _ _ _ _ E) as (E1 & _).
    injection Hb as <- <-. apply (budgeted_done limit all p1 b1 _ _ _ _ _ (sy_pipeline s)); auto.
    unfold jobs. cbn. rewrite Hw, E1. cbn. destruct stopping; cbn; by rewrite Permutation_app_swap_app.
Qed.

Lemma budgeted_close_step limit s s' : Budgeted limit s → close_step s s' → Budgeted limit s'.
Proof.
  intros HB Hst. destruct Hst as [Hc|lost j q Hc Hq|lost claimed p Hc Hq Hp|lost claimed j p b losses Hc Hd|claimed j Hc|Hc].
  - apply budgeted_move; auto. unfold jobs. by rewrite Hc.
  - apply budgeted_move; auto. unfold jobs. rewrite Hc, Hq. cbn. rewrite (app_assoc (worker_jobs _)), (app_assoc _ _ [j]).
    symmetry. apply Permutation_cons_append.
  - unfold claim_current in Hp. injection Hp as <- <-. apply budgeted_move; auto. unfold jobs. by rewrite Hc, Hq.
  - pose proof (drop_same _ _ _ _ _ _ _ Hd) as (_ & E1 & _). unfold drop in Hd.
    destruct (done_job j _) as [p1 b1] eqn:E. injection Hd as <- <- <-.
    apply (budgeted_done limit [j] p1 b1 _ _ _ _ _ (bump 0 1 0 0 0 (sy_pipeline s))); auto.
    unfold jobs. rewrite Hc, E1. cbn. rewrite (app_assoc _ (worker_jobs _)), (app_assoc _ (worker_jobs _)). symmetry. apply Permutation_middle.
  - apply budgeted_move; auto. unfold jobs. by rewrite Hc.
  - apply budgeted_move; auto. unfold jobs. rewrite Hc. cbn. by rewrite omap_app, app_nil_r.
Qed.

Lemma budgeted_start lim n : 0 ≤ n → Budgeted n (start lim n).
Proof. intros Hn. constructor; cbn; try done. Qed.

Lemma budgeted_reachable lim n max_items sender s : 0 ≤ n → reachable lim n max_items sender s → Budgeted n s.
Proof.
  unfold reachable. intros Hn H. apply (rtc_ind_r (λ s, Inv s ∧ Budgeted n s) (start lim n)) in H; [by destruct H|split; [apply inv_start|by apply budgeted_start]|].
  intros x y _ [Hs|[Hs|Hs]] [HI HB]; (split; [|]).
  - by eapply inv_tee_step.
  - by eapply budgeted_tee_step.
  - by eapply inv_worker_step.
  - by eapply budgeted_worker_step.
  - by eapply inv_close_step.
  - by eapply budgeted_close_step.
Qed.

(** ** Properties *)

(** C21: The memory that capture holds is bounded: whatever threads run, the bytes retained by the
    exchanges that are open, by the jobs under way and charged for records never exceed
    [max_inflight_bytes], because the budget counts each of them exactly - and besides them
    only the chunks that a thread was retaining while another ended their exchange. *)
Theorem inflight_bounded lim max_inflight max_items sender s :
  0 ≤ max_inflight → reachable lim max_inflight max_items sender s →
  bu_used (te_budget (sy_tee s)) = inflight s + sy_torn s ∧ 0 ≤ inflight s ∧ 0 ≤ sy_torn s ∧ inflight s ≤ max_inflight ∧
  (∀ i e, entry s i = Some e → alive e = true →
    size_of (retained_bytes (sd_chunks (ex_request (en_exchange e)))) ≤ max_inflight).
Proof.
  intros Hn Hr. pose proof (budgeted_reachable _ _ _ _ _ Hn Hr) as HB. destruct HB as [H1 H2 H3 H4 H5 H6] eqn:E. clear E.
  assert (0 ≤ sum_by entry_bytes (te_entries (sy_tee s))) as Hs by apply (sum_by_nonneg _ _ (entries_nonneg _ _ HB)).
  pose proof (jobs_nonneg (jobs s)) as Hj. pose proof (charges_nonneg _ _ H6) as Hc.
  assert (0 ≤ inflight s) as Hi by (unfold inflight; lia). split_and!; try done; [lia|].
  intros i e He Hv. destruct (used_besides _ _ _ _ HB He) as (rest & H0 & Hu). pose proof (H5 i e He) as Hok.
  destruct (entry_nonneg e Hok) as [_ Hn']. destruct (Hn' Hv) as [N1 N2]. destruct (Hok Hv) as [Hq _]. unfold side_matches in Hq.
  pose proof (reserved_nonneg (en_request_add e)). pose proof (torn_nonneg e) as [? _]. unfold entry_bytes in Hu. rewrite Hv in Hu. lia.
Qed.

(** ** Witnesses *)


(** A call that retains three bytes. *)
Lemma a_chunk : ∃ s, reachable (mk_limits 100 200) 1000 16 true s ∧ inflight s = 3.
Proof.
  eexists. split.
  - unfold reachable.
    eapply rtc_l; [left; eapply T_enter; reflexivity|].
    eapply rtc_l; [left; eapply (T_begin _ _ _ (1, 0) InMemory (λ _, None)); [reflexivity|intros p [= <-]; apply not_elem_of_nil]|].
    eapply rtc_l; [left; eapply (T_reserve _ _ 0%nat _ false [1; 2; 3]); reflexivity|].
    eapply rtc_l; [left; eapply (T_count _ _ 0%nat _ false [1; 2; 3]); reflexivity|].
    eapply rtc_l; [left; eapply (T_keep _ _ 0%nat _ false [1; 2; 3]); reflexivity|].
    reflexivity.
  - reflexivity.
Qed.

Lemma inflight_bounded_witness : ∃ s, inflight s = 3 ∧ 3 ≤ 1000 ∧ bu_used (te_budget (sy_tee s)) = 3 + sy_torn s.
Proof.
  destruct a_chunk as (s & Hr & Hs). exists s.
  assert (0 ≤ 1000) as Hn by lia. destruct (inflight_bounded _ 1000 _ _ s Hn Hr) as (H & _ & _ & Hle & _). rewrite Hs in *. done.
Defined.

(** The comment of [_retain] - counted first, so that [detach] releases what was reserved - holds
    of the two statements after the reservation, not of the reservation itself: a chunk
    reserved by one thread while another shuts the exchange is never released, although
    nothing is left that holds it. *)
Lemma overtaken_add_leaks : ∃ s, reachable (mk_limits 100 200) 1000 16 true s ∧ at_rest s ∧ inflight s = 0 ∧
  bu_used (te_budget (sy_tee s)) = 3.
Proof.
  eexists. split.
  - unfold reachable.
    eapply rtc_l; [left; eapply T_enter; reflexivity|].
    eapply rtc_l; [left; eapply (T_begin _ _ _ (1, 0) InMemory (λ _, None)); [reflexivity|intros p [= <-]; apply not_elem_of_nil]|].
    eapply rtc_l; [left; eapply (T_reserve _ _ 0%nat _ false [1; 2; 3]); reflexivity|].
    eapply rtc_l; [left; eapply (T_shut _ _ 0%nat _ false None); [reflexivity|intros ? [=]|reflexivity]|].
    eapply rtc_l; [left; eapply (T_lose _ _ [] []); reflexivity|].
    eapply rtc_l; [left; eapply (T_count _ _ 0%nat _ false [1; 2; 3]); reflexivity|].
    eapply rtc_l; [left; eapply (T_keep _ _ 0%nat _ false [1; 2; 3]); reflexivity|].
    reflexivity.
  - split_and!; [|reflexivity..]. split_and!; try reflexivity; [|by left].
    intros e [-> |H]%elem_of_cons; [reflexivity|by apply not_elem_of_nil in H].
Qed.
